(* ===== verification/_CoqProject ===== *)
-Q . S2P
Prelude.v
Mvcc.v
Oracle.v
Txn.v
SkipList.v
Arena.v
Heap.v
Iterator.v
Checksum.v
Crypto.v
Registry.v
Framing.v
Wal.v
Vlog.v
Encoding.v
Bloom.v
SstBlock.v
SstTable.v
SstReader.v
TableRead.v
SstRefs.v
Compaction.v
Manifest.v
Strconv.v
Threshold.v
Values.v
VlogSpec.v
Engine.v
Open.v
EngineInv.v
EngineSteps.v
EngineCompact.v
EngineGc.v
EngineSystem.v
EngineMain.v
Glob.v
Scan.v
ScanSpec.v
ScanPages.v
ScanMain.v
Store.v
Collections.v
Bitmaps.v
CollKeys.v
CollOps.v
CollLists.v
CollZsets.v
CollWhole.v
BitmapSpec.v
BitmapOps.v
CollSpec.v
CollModel.v
CollMain.v
CollEngine.v
CollRun.v
Resp.v
RespSpec.v
Server.v
ServerKv.v
ServerColl.v
ServerConn.v
ServerType.v
ServerWire.v
ServerGate.v
ServerTx.v
ServerEngine.v
ServerExec.v
Cluster.v
Snapshots.v
ClusterRun.v
Replication.v
ReplicaSync.v
ReplicaEngine.v
PubSub.v
Lru.v
Shutdown.v
Pitr.v
Ingest.v
