(* ===== verification/Prelude.v ===== *)
(** * AkwaDB: a verification development

    AkwaDB is a key-value database on a log-structured merge tree.  It speaks
    the Redis protocol, has transactions on snapshots, keeps large values in a
    log of their own, and runs alone, with replicas, or as a Raft cluster.
    This library models its implementation (the Go files under [src/]) as Rocq
    functions that keep the names of the source, and proves what makes the
    parts and their composition correct, and, where the code does not do what
    it means to, what goes wrong.

    ** The program and its parts

    A write reaches the server as bytes ([server/conn.go]), is dispatched to a
    handler ([server/commands*.go]), becomes one or more keys of a flat
    keyspace ([engine_collections.go]), gets a version from the oracle
    ([oracle.go]) and is applied by the writer ([engine_write.go]): to the
    write-ahead log ([wal/]), to the value log when the value is large
    ([vlog/]), and to the memtable ([memtable/]).  Full memtables are rotated
    and flushed to tables ([engine_flush.go], [sstable/]), which the manifest
    lists and compaction merges ([engine_compaction.go]).  A read takes a
    version and asks memtables and tables in order ([engine_read.go]).
    Transactions ([txn.go]) read at a snapshot and commit through the oracle.
    In a cluster ([cluster/]) the commands go through a Raft log first; a
    master streams its writes to replicas ([server/replication.go]).

    ** How it is modelled

    Bytes are lists of [Z]; machine integers are [Z] with their wrap-around
    written out ([u8], [u32], [u64], [i64]); floating-point numbers are bit
    patterns or specification floats.  Go maps are [gmap]s, pointers are
    addresses on an explicit heap where the code changes shared nodes (skip
    list, LRU lists, value-log segments).  Errors are values ([result],
    [option]); a Go panic is [None].  The engine is a record threaded through a
    state monad; what an operation draws from outside (the time, random bytes,
    seeds) is an argument ([World]).  Code under a lock is one step; where the
    code gives the lock up, the model has separate steps and the theorems on
    the oracle, the engine, publications and replicas quantify over their
    orders; the theorems on commands, on connections and on the cluster take
    one command at a time.  Code of other packages (the block
    cipher, xxhash, the compressors, gzip, Raft, msgpack, number formatting of
    floats) is a parameter with its documented behaviour as a class or a
    hypothesis.

    ** The files

    Foundations.  This file: notations, tactics, hint databases, lemmas on
    lists, bytes and integers.  [Mvcc]: the contract "newest version at or
    below a timestamp".  [Heap]: [container/heap].  [Checksum]: CRC-32.
    [Framing]: logs of framed records.  [Strconv]: decimal integers.

    Transactions.  [Oracle] ([oracle.go]); [Txn] ([txn.go]).  Committed
    transactions are serializable in the order of their timestamps.

    Memory.  [Arena] and [SkipList] ([memtable/]): the pointer-level skip list
    refines a list of versions.  [Iterator] ([iterator/]): heap-based merging
    delivers the sorted merge.  [Lru] ([cache/lru.go]): the cache refines lists
    in the order of use within its capacity.

    Files.  [Crypto], [Registry] ([internal/crypto/]): counter mode, the key
    file, sealed blocks.  [Wal] ([wal/]): opening and recovery after a crash
    at any byte.
    [Vlog], [VlogSpec] ([vlog/]): pointers resolve while their segment lives.
    [Encoding] ([internal/encoding/]): keys and scores keep their order.
    [Bloom] ([bloom/]): no false negatives.  [SstBlock], [SstTable],
    [SstReader], [TableRead], [SstRefs] ([sstable/]): a written file opens to
    the table that was written; a lookup in its bytes is the search over blocks
    and restart points among its entries ([tableGet]), which answers the
    contract of [Mvcc] unless versions of the key lie across a restart point;
    scans deliver the entries; files live as long as their readers.
    [Compaction] ([engine_compaction.go]): compaction changes no read, under
    the conditions stated there; the levels are read with [tableGet].  [Manifest] ([engine_flush.go]).  [Threshold]
    ([internal/vlogthreshold/]), [Values] ([engine_vlog.go]).

    The engine.  [Engine] has the operations, [Open] opening and closing;
    [EngineInv], [EngineSteps], [EngineCompact], [EngineGc] the invariant and
    that every step keeps it; [EngineSystem] and [EngineMain] the refinement:
    in every run of clients and background workers that meets the assumptions
    listed at [sys_step], every answer is one that the plain log of all writes
    allows, requests, reads and flushes can proceed, increments add up.
    [Glob], [Scan], [ScanSpec], [ScanPages], [ScanMain] ([engine_read.go]):
    patterns and scans list what point reads find, and following the cursors
    of SCAN ends with every name.  [Shutdown], [Ingest] ([ingest.go]), [Pitr]
    ([archive.go], [internal/pitr/]): closing, adopted tables, archives and
    point-in-time restore.

    Collections ([engine_collections.go]).  [Store] is the interface the
    collections use of a keyspace; [Collections] and [Bitmaps] are the
    operations; [CollKeys], [CollOps], [CollLists], [CollZsets], [CollWhole],
    [BitmapSpec], [BitmapOps], [CollSpec], [CollModel] and [CollMain] prove, on
    any store, that they refine hashes, lists, sets, sorted sets and bitmaps;
    [CollEngine] proves that the engine is such a store and [CollRun] puts the
    two together on a running engine.

    The server ([server/]).  [Resp] and [RespSpec]: requests parse to what a
    client encoded.  [Server], [ServerKv], [ServerColl], [ServerConn]: handlers
    (INFO, PUBLISH and the reply of REPLICAOF among them) and the connection
    loop; [ServerType]: every request gets one well-formed
    reply; [ServerWire], [ServerEngine]: from the bytes that arrive to the
    bytes that are sent, the server refines the abstract values; [ServerGate]:
    nothing without the password; [ServerTx], [ServerExec]: EXEC is atomic and
    isolated, on an engine that is otherwise idle.  [PubSub]: subscribers get
    the messages of their channels.

    Several nodes.  [Cluster], [Snapshots], [ClusterRun] ([cluster/]): a leader
    answers like a server on its own, snapshots carry the whole database.
    [Replication], [ReplicaSync], [ReplicaEngine] ([server/replication.go]): a
    replica that is synchronised in full or resumes ends with what its master
    has announced; the steps of the announcing calls, of the replica's
    goroutine and of its sender come in any order, one call at a time.

    ** The theorems

    The theorems that state what a component promises carry an identifier
    ([C1], [C2], ...) in the comment above them; a theorem with hypotheses is
    followed, or accompanied in a [...Witness] module, by a closed lemma that
    applies it to concrete data.  Modules and theorems named after flaws
    ([Races], [...Flaws], [restart_hides_commit], ...) evaluate the code on
    concrete states in which it does not do what its comments or its callers
    expect.  The positive theorems exclude such states by hypotheses, by the
    assumptions on runs listed at [sys_step], and by the conditions on commands
    in [cmd_ok]; these are conditions the code does not enforce, and the
    comments of the theorems name them.

    ** Recursion and bounds

    Loops that are not structural take fuel, computed from their input: the
    length of the file or input for parsers and recovery scans, of the pattern
    and the text for the matcher, of the stream for merges and compaction
    groups, of the heap for expiry.  Each time the fuel is proved to suffice, so
    that running out is not a case of the theorems.  Theorems about the engine
    bound versions and file numbers below 2^64, the number of value-log
    segments below 2^32 and their sizes below 2^61 ([room]), where the code
    would wrap around.

    ** Not modelled

    Pure input and output: sockets and listeners, timers and deadlines, flags
    and configuration, S3 uploads, directory locks, syncing, the copying of
    files by checkpoints, and failures of system calls other than a crash
    (appends to the value log can fail).  The counters that INFO prints are
    given from outside, and the goroutine that REPLICAOF starts is modelled as
    the session of a replica, without dialling and reconnecting.  Rotations of
    the memtable between taking a version and applying the write, and calls of
    [ReplicateEntry] that overlap, are outside the positive theorems.  The
    ristretto cache, the Raft library, its transport and
    stores, the msgpack codec, the compressors and the AES block function are
    libraries.  The block cache is left out of table lookups: it holds decoded
    blocks under file and offset, so that a hit returns what a miss decodes.
    Lock-free readers of the skip list that see a half-linked node, the memory
    model of Go and scheduling fairness are not modelled; code under a mutex is
    one step. *)

From Stdlib Require Export Sorting.Sorted.
From stdpp Require Export base list gmap.
From Stdlib Require Export ZArith Lia.

#[export] Set Default Goal Selector "!".

Declare Scope akwa_scope.
Delimit Scope akwa_scope with akwa.
Open Scope Z_scope.

(** ** Hint databases and tactics *)

Create HintDb akwa.
Create Rewrite HintDb akwa.

(** Split every boolean test and boolean connective in sight into the
    proposition it decides. *)
Ltac bool_prop :=
  repeat match goal with
  | H : (_ && _)%bool = true |- _ => apply andb_prop in H; destruct H
  | H : (_ || _)%bool = false |- _ => apply orb_false_elim in H; destruct H
  | H : negb _ = true |- _ => apply negb_true_iff in H
  | H : negb _ = false |- _ => apply negb_false_iff in H
  | H : Z.eqb _ _ = true |- _ => apply Z.eqb_eq in H
  | H : Z.eqb _ _ = false |- _ => apply Z.eqb_neq in H
  | H : Z.ltb _ _ = true |- _ => apply Z.ltb_lt in H
  | H : Z.ltb _ _ = false |- _ => apply Z.ltb_ge in H
  | H : Z.leb _ _ = true |- _ => apply Z.leb_le in H
  | H : Z.leb _ _ = false |- _ => apply Z.leb_gt in H
  | H : Nat.eqb _ _ = true |- _ => apply Nat.eqb_eq in H
  | H : Nat.eqb _ _ = false |- _ => apply Nat.eqb_neq in H
  | H : Nat.ltb _ _ = true |- _ => apply Nat.ltb_lt in H
  | H : Nat.ltb _ _ = false |- _ => apply Nat.ltb_ge in H
  | H : Nat.leb _ _ = true |- _ => apply Nat.leb_le in H
  | H : Nat.leb _ _ = false |- _ => apply Nat.leb_gt in H
  end.

(** Case analysis on the first conditional of the goal. *)
Ltac case_if :=
  match goal with
  | |- context [if ?b then _ else _] => destruct b eqn:?; bool_prop
  end.

Lemma if_bool_decide_ext {A} P Q `{Decision P, Decision Q} (a b : A) :
  (P <-> Q) -> (if bool_decide P then a else b) = (if bool_decide Q then a else b).
Proof. intros HPQ. by rewrite (bool_decide_ext P Q HPQ). Qed.

(** ** Results *)

(** The error values of the packages; the message texts are not kept. *)
Inductive err :=
  | ErrKeyNotFound | ErrTxnClosed | ErrTxnReadOnly | ErrTxnConflict
  | ErrDiskFull | ErrVlog | ErrNotInteger | ErrNoRewrite | ErrBitOffset.

#[export] Instance err_eq_dec : EqDecision err.
Proof. solve_decision. Defined.

(** A Go [(T, error)] pair whose first component is meaningful only when
    the error is nil. *)
Inductive result (A : Type) := Ok (a : A) | Fail (e : err).
Arguments Ok {A} _.
Arguments Fail {A} _.

(** ** Machine-width integers *)

Definition u8 (x : Z) : Z := x mod 2 ^ 8.
Definition u16 (x : Z) : Z := x mod 2 ^ 16.
Definition u32 (x : Z) : Z := x mod 2 ^ 32.
Definition u64 (x : Z) : Z := x mod 2 ^ 64.
(** Two's-complement reading of the low 64 bits: Go's int64 and int. *)
Definition i64 (x : Z) : Z := (x + 2 ^ 63) mod 2 ^ 64 - 2 ^ 63.

Definition max_u64 : Z := 2 ^ 64 - 1.

Definition is_u8 (x : Z) : Prop := 0 <= x < 2 ^ 8.
Definition is_u32 (x : Z) : Prop := 0 <= x < 2 ^ 32.
Definition is_u64 (x : Z) : Prop := 0 <= x < 2 ^ 64.
Definition is_i64 (x : Z) : Prop := - 2 ^ 63 <= x < 2 ^ 63.

Lemma u64_id x : is_u64 x -> u64 x = x.
Proof. apply Z.mod_small. Qed.

Lemma u32_id x : is_u32 x -> u32 x = x.
Proof. apply Z.mod_small. Qed.

Lemma i64_id x : is_i64 x -> i64 x = x.
Proof. unfold is_i64, i64. intros H. rewrite Z.mod_small; lia. Qed.

Lemma u64_range x : is_u64 (u64 x).
Proof. apply Z.mod_pos_bound. lia. Qed.

Lemma u32_range x : is_u32 (u32 x).
Proof. apply Z.mod_pos_bound. lia. Qed.

Lemma i64_range x : is_i64 (i64 x).
Proof. unfold is_i64, i64. pose proof (Z.mod_pos_bound (x + 2 ^ 63) (2 ^ 64)). lia. Qed.

(** Exclusive or stays within a width. *)
Lemma lxor_bound n a b : 0 <= n -> 0 <= a < 2 ^ n -> 0 <= b < 2 ^ n -> 0 <= Z.lxor a b < 2 ^ n.
Proof.
  intros Hn Ha Hb. assert (0 <= Z.lxor a b) as H0 by (apply Z.lxor_nonneg; lia).
  split; [done|]. destruct (Z.eq_dec (Z.lxor a b) 0) as [->|Hne]; [lia|].
  destruct (Z.eq_dec n 0) as [->|Hn0].
  { replace a with 0 in * by lia. replace b with 0 in * by lia. done. }
  apply Z.log2_lt_pow2; [lia|]. eapply Z.le_lt_trans; [apply Z.log2_lxor; lia|].
  assert (forall x, 0 <= x < 2 ^ n -> Z.log2 x < n) as Hl.
  { intros x Hx. destruct (Z.eq_dec x 0) as [->|]; [simpl; lia|]. apply Z.log2_lt_pow2; lia. }
  apply Z.max_lub_lt; auto.
Qed.

Lemma lxor_u8 a b : is_u8 a -> is_u8 b -> is_u8 (Z.lxor a b).
Proof. by apply lxor_bound. Qed.

Lemma lxor_u32 a b : is_u32 a -> is_u32 b -> is_u32 (Z.lxor a b).
Proof. by apply lxor_bound. Qed.

(** A signed 64-bit value survives the cast to uint64 and back. *)
Lemma i64_u64 x : is_i64 x -> i64 (u64 x) = x.
Proof.
  unfold is_i64, i64, u64. intros H.
  rewrite Zplus_mod_idemp_l, Z.mod_small; lia.
Qed.

#[export] Hint Resolve u64_range u32_range : akwa.
#[export] Hint Rewrite u64_id u32_id i64_id i64_u64 using (unfold is_u64, is_u32, is_i64 in *; lia) : akwa.

(** ** Byte strings *)

Abbreviation bytes := (list Z).

Definition wf_bytes (l : bytes) : Prop := Forall is_u8 l.

Lemma wf_bytes_app l1 l2 : wf_bytes (l1 ++ l2) <-> wf_bytes l1 /\ wf_bytes l2.
Proof. apply Forall_app. Qed.

(** *** Big-endian integers ([encoding/binary.BigEndian]) *)

Fixpoint be_encode (n : nat) (v : Z) : bytes :=
  match n with
  | O => []
  | S n => (v / 256 ^ Z.of_nat n) mod 256 :: be_encode n v
  end.

Definition be_decode (l : bytes) : Z := fold_left (fun acc b => acc * 256 + b) l 0.

Lemma length_be_encode n v : length (be_encode n v) = n.
Proof. induction n; simpl; congruence. Qed.

Lemma wf_be_encode n v : wf_bytes (be_encode n v).
Proof.
  induction n; constructor; [|done].
  unfold is_u8. change (2 ^ 8) with 256. apply Z.mod_pos_bound. lia.
Qed.

Lemma be_decode_acc l acc :
  fold_left (fun acc b => acc * 256 + b) l acc = acc * 256 ^ Z.of_nat (length l) + be_decode l.
Proof.
  unfold be_decode. revert acc. induction l as [|b l IH]; intros acc; simpl length; simpl fold_left.
  - rewrite Z.pow_0_r. lia.
  - rewrite (IH (acc * 256 + b)), (IH (0 * 256 + b)), Nat2Z.inj_succ, Z.pow_succ_r by lia. lia.
Qed.

Lemma be_decode_cons b l : be_decode (b :: l) = b * 256 ^ Z.of_nat (length l) + be_decode l.
Proof. unfold be_decode at 1. simpl. apply be_decode_acc. Qed.

Lemma be_decode_bound l : wf_bytes l -> 0 <= be_decode l < 256 ^ Z.of_nat (length l).
Proof.
  induction 1 as [|b l Hb _ IH]; [unfold be_decode; simpl; lia|].
  rewrite be_decode_cons. simpl length. rewrite Nat2Z.inj_succ, Z.pow_succ_r by lia.
  unfold is_u8 in Hb. change (2 ^ 8) with 256 in Hb. nia.
Qed.

Lemma be_decode_encode n v : be_decode (be_encode n v) = v mod 256 ^ Z.of_nat n.
Proof.
  induction n as [|n IH].
  - unfold be_decode; simpl. by rewrite Z.mod_1_r.
  - simpl be_encode. rewrite be_decode_cons, length_be_encode, IH.
    rewrite Nat2Z.inj_succ, Z.pow_succ_r, (Z.mul_comm 256) by lia.
    rewrite Z.rem_mul_r by lia. lia.
Qed.

Lemma be_decode_encode_id n v : 0 <= v < 256 ^ Z.of_nat n -> be_decode (be_encode n v) = v.
Proof. intros. rewrite be_decode_encode. by apply Z.mod_small. Qed.

Lemma be_encode_mod n v : be_encode n (v mod 256 ^ Z.of_nat n) = be_encode n v.
Proof.
  assert (forall k, (k <= n)%nat -> be_encode k (v mod 256 ^ Z.of_nat n) = be_encode k v) as H.
  { induction k as [|k IH]; intros Hk; [done|]. simpl. rewrite IH by lia. f_equal.
    replace (Z.of_nat n) with (Z.of_nat k + (1 + (Z.of_nat n - Z.of_nat k - 1))) by lia.
    rewrite !Z.pow_add_r, Z.rem_mul_r by lia.
    rewrite (Z.mul_comm (256 ^ Z.of_nat k)), Z.div_add by lia.
    rewrite (Z.div_small (v mod _)) by (apply Z.mod_pos_bound; lia).
    rewrite Z.add_0_l, Z.pow_1_r, Z.rem_mul_r, (Z.mul_comm 256), Z.mod_add by lia.
    apply Z.mod_mod. lia. }
  by apply H.
Qed.

Lemma be_encode_decode l : wf_bytes l -> be_encode (length l) (be_decode l) = l.
Proof.
  induction 1 as [|b l Hb Hl IH]; [done|].
  assert (Hd := be_decode_bound l Hl). unfold is_u8 in Hb. change (2 ^ 8) with 256 in Hb.
  simpl length. simpl be_encode. rewrite be_decode_cons. f_equal.
  - rewrite Z.add_comm, Z.div_add, Z.div_small, Z.mod_small by lia. lia.
  - rewrite <- (be_encode_mod _ (_ + _)), Z.add_comm, Z.mod_add, Z.mod_small by lia. done.
Qed.

#[export] Hint Rewrite length_be_encode : akwa.
#[export] Hint Resolve wf_be_encode : akwa.

(** *** Lexicographic order ([bytes.Compare]) *)

Fixpoint bytes_compare (a b : bytes) : comparison :=
  match a, b with
  | [], [] => Eq
  | [], _ :: _ => Lt
  | _ :: _, [] => Gt
  | x :: a, y :: b =>
      match Z.compare x y with
      | Eq => bytes_compare a b
      | c => c
      end
  end.

Definition bytes_eqb (a b : bytes) : bool := bool_decide (a = b).
Definition bytes_ltb (a b : bytes) : bool :=
  match bytes_compare a b with Lt => true | _ => false end.
Definition bytes_leb (a b : bytes) : bool :=
  match bytes_compare a b with Gt => false | _ => true end.

Definition bytes_lt (a b : bytes) : Prop := bytes_compare a b = Lt.
Definition bytes_le (a b : bytes) : Prop := bytes_compare a b <> Gt.

Lemma bytes_compare_eq a b : bytes_compare a b = Eq <-> a = b.
Proof.
  revert b. induction a as [|x a IH]; intros [|y b]; simpl; try done.
  destruct (Z.compare_spec x y) as [->|?|?]; [rewrite IH| |];
    (split; [|injection 1 as ?]; intros; simplify_eq; (done || lia)).
Qed.

Lemma bytes_compare_refl a : bytes_compare a a = Eq.
Proof. by apply bytes_compare_eq. Qed.

Lemma bytes_compare_antisym a b : bytes_compare b a = CompOpp (bytes_compare a b).
Proof.
  revert b. induction a as [|x a IH]; intros [|y b]; simpl; try done.
  rewrite (Z.compare_antisym x y). destruct (x ?= y); simpl; auto.
Qed.

Lemma bytes_lt_trans a b c : bytes_lt a b -> bytes_lt b c -> bytes_lt a c.
Proof.
  unfold bytes_lt. revert b c.
  induction a as [|x a IH]; intros [|y b] [|z c]; simpl; try done.
  destruct (Z.compare_spec x y) as [->|?|?]; destruct (Z.compare_spec y z) as [->|?|?]; try done.
  - apply IH.
  - intros _ _. by destruct (Z.compare_spec x z); try lia.
  - intros _ _. by destruct (Z.compare_spec x z); try lia.
Qed.

#[export] Instance bytes_lt_strict : StrictOrder bytes_lt.
Proof.
  split.
  - intros a H. unfold bytes_lt in H. by rewrite bytes_compare_refl in H.
  - intros a b c. apply bytes_lt_trans.
Qed.

#[export] Instance bytes_lt_dec a b : Decision (bytes_lt a b).
Proof. unfold bytes_lt. solve_decision. Defined.

Lemma bytes_lt_gt a b : bytes_compare a b = Gt <-> bytes_lt b a.
Proof. unfold bytes_lt. rewrite (bytes_compare_antisym a b). by destruct (bytes_compare a b). Qed.

Lemma bytes_le_lt_eq a b : bytes_le a b <-> bytes_lt a b \/ a = b.
Proof.
  rewrite <- bytes_compare_eq. unfold bytes_le, bytes_lt.
  destruct (bytes_compare a b); naive_solver.
Qed.

Lemma bytes_lt_trichotomy a b : bytes_lt a b \/ a = b \/ bytes_lt b a.
Proof.
  destruct (bytes_compare a b) eqn:E.
  - apply bytes_compare_eq in E. auto.
  - auto.
  - apply bytes_lt_gt in E. auto.
Qed.

Lemma bytes_lt_irrefl a : ~ bytes_lt a a.
Proof. apply irreflexivity, _. Qed.

Lemma bytes_lt_asym a b : bytes_lt a b -> ~ bytes_lt b a.
Proof. intros H1 H2. eapply bytes_lt_irrefl, bytes_lt_trans; eauto. Qed.

Lemma bytes_nlt_le a b : ~ bytes_lt a b <-> bytes_le b a.
Proof.
  unfold bytes_lt, bytes_le. rewrite (bytes_compare_antisym a b).
  destruct (bytes_compare a b); simpl; naive_solver.
Qed.

Lemma bytes_le_trans a b c : bytes_le a b -> bytes_le b c -> bytes_le a c.
Proof.
  rewrite !bytes_le_lt_eq. intros [?| ->] [?| ->]; auto.
  left. by eapply bytes_lt_trans.
Qed.

Lemma bytes_le_lt_trans a b c : bytes_le a b -> bytes_lt b c -> bytes_lt a c.
Proof. rewrite bytes_le_lt_eq. intros [?| ->] ?; eauto using bytes_lt_trans. Qed.

Lemma bytes_lt_le_trans a b c : bytes_lt a b -> bytes_le b c -> bytes_lt a c.
Proof. rewrite bytes_le_lt_eq. intros ? [?| <-]; eauto using bytes_lt_trans. Qed.

Lemma bytes_le_refl a : bytes_le a a.
Proof. rewrite bytes_le_lt_eq. by right. Qed.

Lemma bytes_le_antisym a b : bytes_le a b -> bytes_le b a -> a = b.
Proof.
  rewrite !bytes_le_lt_eq. intros [H1| ->] [H2| H2]; auto.
  by destruct (bytes_lt_asym a b).
Qed.

Lemma bytes_lt_le a b : bytes_lt a b -> bytes_le a b.
Proof. rewrite bytes_le_lt_eq. auto. Qed.

Lemma bytes_nil_le a : bytes_le [] a.
Proof. unfold bytes_le. by destruct a. Qed.

Lemma bytes_ltb_spec a b : bytes_ltb a b = true <-> bytes_lt a b.
Proof. unfold bytes_ltb, bytes_lt. by destruct (bytes_compare a b). Qed.

Lemma bytes_ltb_false a b : bytes_ltb a b = false <-> bytes_le b a.
Proof. rewrite <- bytes_nlt_le, <- bytes_ltb_spec. by destruct (bytes_ltb a b). Qed.

Lemma bytes_leb_spec a b : bytes_leb a b = true <-> bytes_le a b.
Proof. unfold bytes_leb, bytes_le. destruct (bytes_compare a b); naive_solver. Qed.

Lemma bytes_leb_false a b : bytes_leb a b = false <-> bytes_lt b a.
Proof. rewrite <- bytes_lt_gt. unfold bytes_leb. by destruct (bytes_compare a b). Qed.

Lemma bytes_eqb_spec a b : bytes_eqb a b = true <-> a = b.
Proof. apply bool_decide_eq_true. Qed.

Lemma bytes_eqb_refl a : bytes_eqb a a = true.
Proof. by apply bytes_eqb_spec. Qed.

Lemma bytes_eqb_false a b : bytes_eqb a b = false <-> a <> b.
Proof. apply bool_decide_eq_false. Qed.

#[export] Hint Resolve bytes_lt_irrefl bytes_lt_trans bytes_le_trans bytes_le_lt_trans
  bytes_lt_le_trans bytes_le_refl bytes_lt_le bytes_nil_le : akwa.

(** Comparing behind a common prefix. *)
Lemma bytes_compare_app p a b : bytes_compare (p ++ a) (p ++ b) = bytes_compare a b.
Proof. induction p as [|x p IH]; simpl; [done|]. by rewrite Z.compare_refl. Qed.

(** Byte strings of one length compare the way the integers they encode do. *)
Lemma bytes_compare_be n u v :
  0 <= u < 256 ^ Z.of_nat n -> 0 <= v < 256 ^ Z.of_nat n ->
  bytes_compare (be_encode n u) (be_encode n v) = (u ?= v).
Proof.
  revert u v. induction n as [|n IH]; intros u v Hu Hv.
  { simpl in *. symmetry. apply Z.compare_eq_iff. lia. }
  rewrite Nat2Z.inj_succ, Z.pow_succ_r in Hu, Hv by lia. simpl be_encode. simpl.
  set (B := 256 ^ Z.of_nat n) in *. assert (0 < B) by (unfold B; lia).
  assert (0 <= u / B < 256) by (split; [apply Z.div_pos|apply Z.div_lt_upper_bound]; lia).
  assert (0 <= v / B < 256) by (split; [apply Z.div_pos|apply Z.div_lt_upper_bound]; lia).
  rewrite !(Z.mod_small (_ / B)) by lia.
  pose proof (Z.div_mod u B ltac:(lia)). pose proof (Z.div_mod v B ltac:(lia)).
  pose proof (Z.mod_pos_bound u B ltac:(lia)). pose proof (Z.mod_pos_bound v B ltac:(lia)).
  rewrite <- (be_encode_mod n u), <- (be_encode_mod n v). fold B.
  destruct (Z.compare_spec (u / B) (v / B)) as [He|?|?].
  - rewrite IH by (fold B; lia).
    destruct (Z.compare_spec (u mod B) (v mod B)); symmetry;
      [apply Z.compare_eq_iff|apply Z.compare_lt_iff|apply Z.compare_gt_iff]; nia.
  - symmetry. apply Z.compare_lt_iff. nia.
  - symmetry. apply Z.compare_gt_iff. nia.
Qed.

(** ** Slices: Go's [l[a:b]] for in-range bounds *)

Definition slice {A} (l : list A) (a b : nat) : list A := take (b - a) (drop a l).

Lemma length_slice {A} (l : list A) a b :
  (b <= length l)%nat -> length (slice l a b) = (b - a)%nat.
Proof. intros. unfold slice. rewrite length_take, length_drop. lia. Qed.

Lemma slice_app_drop {A} (l1 l2 : list A) a b :
  (length l1 <= a)%nat -> slice (l1 ++ l2) a b = slice l2 (a - length l1) (b - length l1).
Proof.
  intros. unfold slice. rewrite drop_app_ge by lia.
  f_equal. lia.
Qed.

Lemma slice_app_take {A} (l1 l2 : list A) a b :
  (b <= length l1)%nat -> slice (l1 ++ l2) a b = slice l1 a b.
Proof.
  intros. unfold slice. destruct (decide (a <= length l1)%nat).
  - rewrite drop_app_le by lia. rewrite take_app_le; [done|]. rewrite length_drop. lia.
  - replace (b - a)%nat with 0%nat by lia. done.
Qed.

Lemma slice_all {A} (l : list A) b : (length l <= b)%nat -> slice l 0 b = l.
Proof. intros. unfold slice. rewrite drop_0. apply take_ge. lia. Qed.

Lemma slice_mid {A} (l1 l2 l3 : list A) a b :
  a = length l1 -> b = (length l1 + length l2)%nat -> slice (l1 ++ l2 ++ l3) a b = l2.
Proof.
  intros -> ->. unfold slice. rewrite drop_app_length, take_app_length'; [done|lia].
Qed.

(** [bytes.HasPrefix]. *)
Definition has_prefix (p k : bytes) : bool := bool_decide (take (length p) k = p).

Lemma has_prefix_spec p k : has_prefix p k = true <-> exists r, k = p ++ r.
Proof.
  unfold has_prefix. rewrite bool_decide_eq_true. split.
  - intros H. exists (drop (length p) k). by rewrite <- H at 1; rewrite take_drop.
  - intros [r ->]. apply take_app_length.
Qed.

(** ** Filtering and sorting *)

Lemma filter_all {A} (P : A -> Prop) `{!forall x, Decision (P x)} (l : list A) :
  (forall x, x ∈ l -> P x) -> filter P l = l.
Proof.
  intros Hl. induction l as [|x l IH]; [done|]. rewrite filter_cons_True by (apply Hl; by left).
  f_equal. apply IH. intros y Hy. apply Hl. by right.
Qed.

Lemma filter_none {A} (P : A -> Prop) `{!forall x, Decision (P x)} (l : list A) :
  (forall x, x ∈ l -> ~ P x) -> filter P l = [].
Proof.
  intros Hl. induction l as [|x l IH]; [done|]. rewrite filter_cons_False by (apply Hl; by left).
  apply IH. intros y Hy. apply Hl. by right.
Qed.

Lemma filter_ext_in {A} (P Q : A -> Prop) `{!forall x, Decision (P x), !forall x, Decision (Q x)} (l : list A) :
  (forall x, x ∈ l -> P x <-> Q x) -> filter P l = filter Q l.
Proof.
  intros Hl. induction l as [|x l IH]; [done|]. rewrite !filter_cons, IH by (intros; apply Hl; by right).
  apply decide_ext, Hl. by left.
Qed.

Lemma filter_fmap {A B} (f : A -> B) (P : B -> Prop) `{!forall x, Decision (P x)} (l : list A) :
  filter P (f <$> l) = f <$> filter (fun x => P (f x)) l.
Proof.
  induction l as [|x l IH]; [done|]. rewrite fmap_cons, !filter_cons, IH.
  by destruct (decide (P (f x))).
Qed.

Lemma StronglySorted_app {A} (R : A -> A -> Prop) (l1 l2 : list A) :
  StronglySorted R (l1 ++ l2) <->
  StronglySorted R l1 /\ StronglySorted R l2 /\ forall x y, x ∈ l1 -> y ∈ l2 -> R x y.
Proof.
  induction l1 as [|a l1 IH]; simpl.
  - split; [|naive_solver]. intros H. split; [constructor|]. split; [done|]. intros x y Hx. inversion Hx.
  - split.
    + intros [H1 H2]%StronglySorted_inv. apply IH in H1 as (Ha & Hb & Hc).
      apply Forall_app in H2 as [H2 H3]. split; [by constructor|]. split; [done|].
      intros x y [->|Hx]%elem_of_cons Hy; [|auto]. rewrite Forall_forall in H3. by apply H3.
    + intros ([Ha Hf]%StronglySorted_inv & Hb & Hc). constructor.
      * apply IH. split; [done|]. split; [done|]. intros x y Hx. apply Hc. by right.
      * apply Forall_app. split; [done|]. apply Forall_forall. intros y Hy. apply Hc; [by left|done].
Qed.

Lemma StronglySorted_sublist {A} (R : A -> A -> Prop) (l1 l2 : list A) :
  l1 `sublist_of` l2 -> StronglySorted R l2 -> StronglySorted R l1.
Proof.
  induction 1 as [|x l1 l2 Hs IH|x l1 l2 _ IH]; intros H; [done| |];
    apply StronglySorted_inv in H as [H1 H2]; [|auto].
  constructor; [auto|]. rewrite Forall_forall in *. intros y Hy. apply H2.
  by eapply sublist_subseteq.
Qed.

Lemma StronglySorted_drop2 {A} (R : A -> A -> Prop) x y (l : list A) :
  StronglySorted R (x :: y :: l) -> StronglySorted R (x :: l).
Proof. apply StronglySorted_sublist. by apply sublist_skip, sublist_cons. Qed.

Lemma StronglySorted_lookup {A} (R : A -> A -> Prop) (l : list A) i j x y :
  StronglySorted R l -> (i < j)%nat -> l !! i = Some x -> l !! j = Some y -> R x y.
Proof.
  intros Hs Hij Hx Hy. rewrite <- (take_drop_middle _ _ _ Hx) in Hs.
  apply StronglySorted_app in Hs as (_ & Hs & _). apply StronglySorted_inv in Hs as [_ Hs].
  rewrite Forall_forall in Hs. apply Hs, list_elem_of_lookup.
  exists (j - S i)%nat. rewrite lookup_drop. rewrite <- Hy. f_equal. lia.
Qed.

Lemma elem_of_concat {A} (l : list (list A)) x : x ∈ concat l <-> exists g, g ∈ l /\ x ∈ g.
Proof.
  rewrite list_elem_of_In, in_concat. split; intros (g & H1 & H2); exists g; by rewrite ?list_elem_of_In in *.
Qed.

Lemma StronglySorted_concat {A} (R : A -> A -> Prop) (L : list (list A)) i j a b x y :
  StronglySorted R (concat L) -> (i < j)%nat -> L !! i = Some a -> L !! j = Some b -> x ∈ a -> y ∈ b -> R x y.
Proof.
  intros Hs Hij Ha Hb Hx Hy. rewrite <- (take_drop_middle _ _ _ Ha), concat_app in Hs.
  apply StronglySorted_app in Hs as (_ & Hs & _). cbn [concat] in Hs.
  apply StronglySorted_app in Hs as (_ & _ & Hs). apply Hs; [done|]. apply elem_of_concat. exists b. split; [|done].
  apply list_elem_of_lookup. exists (j - S i)%nat. rewrite lookup_drop. rewrite <- Hb. f_equal. lia.
Qed.

Lemma concat_part_sublist {A} (L : list (list A)) g : g ∈ L -> g `sublist_of` concat L.
Proof.
  intros (l1 & l2 & ->)%list_elem_of_split. rewrite concat_app. cbn [concat].
  apply sublist_inserts_l, sublist_inserts_r. done.
Qed.

Lemma StronglySorted_of_lookup {A} (R : A -> A -> Prop) (l : list A) :
  (forall i j x y, (i < j)%nat -> l !! i = Some x -> l !! j = Some y -> R x y) -> StronglySorted R l.
Proof.
  induction l as [|a l IH]; intros H; constructor.
  - apply IH. intros i j x y Hij Hx Hy. by apply (H (S i) (S j)); [lia|..].
  - apply Forall_forall. intros y Hy. apply list_elem_of_lookup in Hy as [j Hj]. by apply (H 0%nat (S j)); [lia|..].
Qed.

(** A symmetric relation between all pairs does not depend on the order. *)
Lemma StronglySorted_perm {A} (R : A -> A -> Prop) (l l' : list A) :
  (forall x y, R x y -> R y x) -> l ≡ₚ l' -> StronglySorted R l -> StronglySorted R l'.
Proof.
  intros Hsym. induction 1 as [|x l l' Hp IH|x y l|l1 l2 l3 _ IH1 _ IH2]; intros Hs; [done| | |auto].
  - apply StronglySorted_inv in Hs as [Hs Hx]. constructor; [auto|]. rewrite Forall_forall in *. intros y Hy. apply Hx. by rewrite Hp.
  - apply StronglySorted_inv in Hs as [[Hs Hx]%StronglySorted_inv Hy]. apply Forall_cons in Hy as [Hyx Hy].
    constructor; [by constructor|]. constructor; [by apply Hsym|done].
Qed.

Lemma StronglySorted_impl {A} (R S : A -> A -> Prop) (l : list A) :
  (forall x y, R x y -> S x y) -> StronglySorted R l -> StronglySorted S l.
Proof. intros HRS. induction 1 as [|x l _ IH Hx]; constructor; [done|]. eapply Forall_impl; [exact Hx|auto]. Qed.

Lemma NoDup_fmap_StronglySorted {A B} (f : A -> B) (l : list A) :
  NoDup (f <$> l) <-> StronglySorted (fun x y => f x <> f y) l.
Proof.
  induction l as [|x l IH]; [split; constructor|]. rewrite fmap_cons, NoDup_cons. split.
  - intros [Hx Hl]. constructor; [by apply IH|]. apply Forall_forall. intros y Hy E. apply Hx. rewrite E.
    by apply list_elem_of_fmap_2.
  - intros [Hl Hx]%StronglySorted_inv. split; [|by apply IH]. intros (y & E & Hy)%list_elem_of_fmap.
    rewrite Forall_forall in Hx. by apply (Hx y).
Qed.

Lemma sublist_rev {A} (l1 l2 : list A) : l1 `sublist_of` l2 -> rev l1 `sublist_of` rev l2.
Proof.
  induction 1 as [|x l1 l2 _ IH|x l1 l2 _ IH]; simpl; [done|by apply sublist_app|by apply sublist_inserts_r].
Qed.
