(* ===== verification/Mvcc.v ===== *)
(** * Multi-version reads: the abstract contract

    The memtable, the SSTables and the engine all keep several versions of a
    key and answer "the newest version at or below a timestamp".  This file
    states that answer once, over a plain list of entries, as
    [snapshot_get]; the component files show that their search loops compute
    it, and the transaction layer is proved against it alone. *)

From S2P Require Import Prelude.

(** [memtable.Entry], [memtable.VersionEntry] and [iterator.VersionEntry]
    carry the same five fields. *)
Record Entry := mkEntry {
  Key : bytes;
  Value : bytes;
  Deleted : bool;
  ExpiresAt : Z;
  Version : Z
}.

#[export] Instance Entry_eq_dec : EqDecision Entry.
Proof. solve_decision. Defined.

(** Keep the entry with the strictly higher version: the first one wins a tie. *)
Definition newer (best : option Entry) (e : Entry) : option Entry :=
  match best with
  | None => Some e
  | Some b => if Version b <? Version e then Some e else Some b
  end.

Definition newest (l : list Entry) : option Entry := foldl newer None l.

Definition visible_at (key : bytes) (maxVersion : Z) (e : Entry) : Prop :=
  Key e = key /\ Version e <= maxVersion.

#[export] Instance visible_at_dec key maxVersion e : Decision (visible_at key maxVersion e).
Proof. unfold visible_at. apply _. Defined.

(** The newest version of [key] that a snapshot at [maxVersion] sees. *)
Definition snapshot_get (l : list Entry) (key : bytes) (maxVersion : Z) : option Entry :=
  newest (filter (visible_at key maxVersion) l).

(** What a point lookup makes of that version at wall-clock time [now]. *)
Inductive lookup_result :=
  | NotFound
  | Tombstone
  | Found (val : bytes) (expiresAt : Z).

#[export] Instance lookup_result_eq_dec : EqDecision lookup_result.
Proof. solve_decision. Defined.

Definition expired (now : Z) (e : Entry) : bool := (0 <? ExpiresAt e) && (ExpiresAt e <=? now).

Definition interpret (now : Z) (o : option Entry) : lookup_result :=
  match o with
  | None => NotFound
  | Some e =>
      if Deleted e then Tombstone
      else if expired now e then Tombstone
      else Found (Value e) (ExpiresAt e)
  end.

(** ** Characterisation *)

Lemma foldl_newer_Some l b :
  exists r, foldl newer (Some b) l = Some r /\ (r = b \/ r ∈ l) /\ Version b <= Version r /\
    (forall e, e ∈ l -> Version e <= Version r).
Proof.
  revert b. induction l as [|x l IH]; intros b; simpl.
  { exists b. split; [done|]. split; [by left|]. split; [lia|]. intros e H. inversion H. }
  case_if.
  - destruct (IH x) as (r & -> & Hr & Hx & Hl). exists r. split; [done|].
    split; [right; destruct Hr as [->|?]; [left|by right]|]. split; [lia|].
    intros e [->|He]%elem_of_cons; auto.
  - destruct (IH b) as (r & -> & Hr & Hb & Hl). exists r. split; [done|].
    split; [destruct Hr as [->|?]; [by left|right; by right]|]. split; [done|].
    intros e [->|He]%elem_of_cons; auto. lia.
Qed.

Lemma newest_spec l :
  match newest l with
  | None => l = []
  | Some r => r ∈ l /\ forall e, e ∈ l -> Version e <= Version r
  end.
Proof.
  unfold newest. destruct l as [|x l]; simpl; [done|].
  destruct (foldl_newer_Some l x) as (r & -> & Hr & Hx & Hl). split.
  - destruct Hr as [->|?]; [left|by right].
  - intros e [->|He]%elem_of_cons; auto.
Qed.

Lemma newest_None l : newest l = None <-> l = [].
Proof. split; [|by intros ->]. intros H. pose proof (newest_spec l) as Hs. by rewrite H in Hs. Qed.

Lemma newest_Some l r : newest l = Some r -> r ∈ l /\ forall e, e ∈ l -> Version e <= Version r.
Proof. intros H. pose proof (newest_spec l) as Hs. by rewrite H in Hs. Qed.

Lemma snapshot_get_None l key v :
  snapshot_get l key v = None <-> forall e, e ∈ l -> Key e = key -> v < Version e.
Proof.
  unfold snapshot_get. rewrite newest_None. split.
  - intros H e He Hk. destruct (Z.lt_ge_cases v (Version e)); [done|].
    destruct (filter_nil_not_elem_of _ _ e H); done.
  - intros H. apply elem_of_nil_inv. intros e [[Hk Hv] He]%list_elem_of_filter.
    specialize (H e He Hk). lia.
Qed.

Lemma snapshot_get_Some l key v r :
  snapshot_get l key v = Some r ->
  r ∈ l /\ Key r = key /\ Version r <= v /\
  forall e, e ∈ l -> Key e = key -> Version e <= v -> Version e <= Version r.
Proof.
  intros H. apply newest_Some in H as [Hin Hmax].
  apply list_elem_of_filter in Hin as [[Hk Hv] Hin]. repeat split; try done.
  intros e He Hke Hve. apply Hmax. by apply list_elem_of_filter.
Qed.

(** No two different entries carry the same key and version. *)
Definition versions_unique (l : list Entry) : Prop :=
  forall a b, a ∈ l -> b ∈ l -> Key a = Key b -> Version a = Version b -> a = b.

Lemma versions_unique_incl l1 l2 :
  (forall e, e ∈ l1 -> e ∈ l2) -> versions_unique l2 -> versions_unique l1.
Proof. intros Hi Hu a b Ha Hb. apply Hu; auto. Qed.

(** With unique versions a snapshot read is determined by what it may see. *)
Lemma snapshot_get_ext l1 l2 key v1 v2 :
  versions_unique l2 ->
  (forall e, Key e = key -> e ∈ l1 /\ Version e <= v1 <-> e ∈ l2 /\ Version e <= v2) ->
  snapshot_get l1 key v1 = snapshot_get l2 key v2.
Proof.
  intros Hu Hext.
  destruct (snapshot_get l1 key v1) as [r1|] eqn:E1; destruct (snapshot_get l2 key v2) as [r2|] eqn:E2; [| | |done].
  - apply snapshot_get_Some in E1 as (Hr1 & Hk1 & Hv1 & Hm1).
    apply snapshot_get_Some in E2 as (Hr2 & Hk2 & Hv2 & Hm2).
    destruct (proj1 (Hext r1 Hk1)) as [Hr1' Hv1']; [done|].
    destruct (proj2 (Hext r2 Hk2)) as [Hr2' Hv2']; [done|].
    f_equal. apply Hu; [done|done|congruence|].
    specialize (Hm1 r2 Hr2' Hk2 Hv2'). specialize (Hm2 r1 Hr1' Hk1 Hv1'). lia.
  - apply snapshot_get_Some in E1 as (Hr1 & Hk1 & Hv1 & _).
    destruct (proj1 (Hext r1 Hk1)) as [Hr Hv]; [done|].
    pose proof (proj1 (snapshot_get_None _ _ _) E2 r1 Hr Hk1). lia.
  - apply snapshot_get_Some in E2 as (Hr2 & Hk2 & Hv2 & _).
    destruct (proj2 (Hext r2 Hk2)) as [Hr Hv]; [done|].
    pose proof (proj1 (snapshot_get_None _ _ _) E1 r2 Hr Hk2). lia.
Qed.

(** Searching two sources one after the other. *)
Lemma snapshot_get_app l1 l2 key v :
  snapshot_get (l1 ++ l2) key v =
    match snapshot_get l1 key v, snapshot_get l2 key v with
    | None, r | r, None => r
    | Some a, Some b => if Version a <? Version b then Some b else Some a
    end.
Proof.
  unfold snapshot_get, newest. rewrite filter_app, foldl_app.
  generalize (filter (visible_at key v) l1) as k1. generalize (filter (visible_at key v) l2) as k2.
  intros k2 k1. destruct (foldl newer None k1) as [a|]; [|by destruct (foldl newer None k2)].
  clear k1. revert a. induction k2 as [|x k2 IH] using rev_ind; intros a; [done|].
  rewrite !foldl_app. simpl. rewrite IH.
  destruct (foldl newer None k2) as [b|]; simpl; [|done].
  repeat (case_if; simpl); try done; lia.
Qed.
