(* ===== verification/Oracle.v ===== *)
(** * The timestamp oracle ([oracle.go])

    [WaterMark] counts the open snapshots per read timestamp and caches the
    smallest one; [Oracle] hands out read and commit timestamps, keeps the
    recently committed write sets for conflict detection and trims them behind
    the watermark.  Every method of the source runs under [o.mu] (or [w.mu]),
    so a method is one atomic function on the record.  Timestamps are uint64:
    [assignTsLocked] wraps. *)

From S2P Require Import Prelude.

(** ** WaterMark *)

Record WaterMark := mkWaterMark {
  active : gmap Z Z;      (* map[uint64]int: open snapshots per timestamp *)
  minTs : Z
}.

Definition newWaterMark : WaterMark := mkWaterMark ∅ 0.

(** The map entry is incremented before its size is looked at. *)
Definition WaterMark_Begin (w : WaterMark) (readTs : Z) : WaterMark :=
  let active' := <[readTs := default 0 (active w !! readTs) + 1]> (active w) in
  mkWaterMark active'
     (if (size active' =? 1)%nat || (readTs <? minTs w) then readTs else minTs w).

(** The scan over the map keys that starts at [^uint64(0)]. *)
Definition minActive (m : gmap Z Z) : Z :=
  foldr Z.min max_u64 (map_to_list m).*1.

Definition WaterMark_Done (w : WaterMark) (readTs currentNextTs : Z) : WaterMark :=
  let c := default 0 (active w !! readTs) - 1 in
  let active' := if c <=? 0 then delete readTs (active w) else <[readTs := c]> (active w) in
  mkWaterMark active'
     (if (size active' =? 0)%nat then currentNextTs else minActive active').

Definition WaterMark_MinReadTs (w : WaterMark) (defaultTs : Z) : Z :=
  if (size (active w) =? 0)%nat then defaultTs else minTs w.

(** *** The watermark against the list of open snapshots *)

Definition occ (r : Z) (live : list Z) : nat := count_occ Z.eq_dec live r.
Arguments occ : simpl never.

(** The map holds exactly the multiplicities of [live]. *)
Definition counts (m : gmap Z Z) (live : list Z) : Prop :=
  forall r, m !! r = if (occ r live =? 0)%nat then None else Some (Z.of_nat (occ r live)).

(** [live] lists the snapshot timestamps handed out and not yet released. *)
Definition tracks (w : WaterMark) (live : list Z) : Prop :=
  counts (active w) live /\
  (live <> [] -> minTs w ∈ live /\ forall r, r ∈ live -> minTs w <= r).

Lemma occ_elem r live : r ∈ live <-> (occ r live > 0)%nat.
Proof. rewrite list_elem_of_In. apply count_occ_In. Qed.

Lemma counts_dom m live r : counts m live -> is_Some (m !! r) <-> r ∈ live.
Proof.
  intros Ht. rewrite Ht, occ_elem. case_if.
  - split; [intros [? ?]; done|lia].
  - split; [lia|eauto].
Qed.

Lemma counts_empty m live : counts m live -> size m = 0%nat <-> live = [].
Proof.
  intros Ht. rewrite map_size_empty_iff. split.
  - intros He. destruct live as [|r live]; [done|].
    destruct (proj2 (counts_dom m (r :: live) r Ht)) as [? Hs]; [left|].
    by rewrite He in Hs.
  - intros ->. apply map_eq. intros r. by rewrite Ht, lookup_empty.
Qed.

Lemma occ_cons r r' live :
  occ r' (r :: live) = (if bool_decide (r = r') then S (occ r' live) else occ r' live).
Proof. unfold occ. simpl. destruct (Z.eq_dec r r'); case_bool_decide; done. Qed.

Lemma newWaterMark_tracks : tracks newWaterMark [].
Proof. split; [intros r; apply lookup_empty|done]. Qed.

Lemma size_one_lookup (m : gmap Z Z) r r' :
  size m = 1%nat -> is_Some (m !! r) -> is_Some (m !! r') -> r = r'.
Proof.
  intros Hs [x Hx] [y Hy]. destruct (decide (r = r')) as [|Hne]; [done|].
  rewrite <- (insert_delete_id m r x Hx), map_size_insert_None in Hs by apply lookup_delete_eq.
  assert (delete r m = ∅) as He by (apply map_size_empty_iff; lia).
  rewrite <- (lookup_delete_ne m r r') in Hy by done. by rewrite He in Hy.
Qed.

Lemma WaterMark_Begin_counts w live r :
  counts (active w) live -> counts (active (WaterMark_Begin w r)) (r :: live).
Proof.
  intros Ht r'. unfold WaterMark_Begin. simpl. rewrite lookup_insert, occ_cons, (Ht r).
  case_bool_decide; case_decide; simplify_eq; [|apply Ht].
  f_equal. case_if; simpl; lia.
Qed.

Lemma WaterMark_Begin_tracks w live r : tracks w live -> tracks (WaterMark_Begin w r) (r :: live).
Proof.
  intros Ht. split; [apply WaterMark_Begin_counts, Ht|]. intros _.
  destruct Ht as [Ht Hmin].
  pose proof (fun x => proj2 (counts_dom _ live x Ht)) as Hdom. unfold WaterMark_Begin. simpl. case_if.
  - apply orb_true_iff in Heqb as [Hs|Hlt].
    + split; [left|]. intros x [->|Hx]%elem_of_cons; [done|].
      apply Nat.eqb_eq in Hs.
      rewrite (size_one_lookup _ r x Hs); [done|rewrite lookup_insert_eq; eauto|].
      rewrite lookup_insert. case_decide; eauto.
    + apply Z.ltb_lt in Hlt. split; [left|]. intros x [->|Hx]%elem_of_cons; [done|].
      destruct Hmin as [_ Hmin]; [by intros ->; inversion Hx|]. specialize (Hmin x Hx). lia.
  - assert (live <> []) as Hne.
    { intros ->. apply H.
      assert (active w = ∅) as -> by (apply map_eq; intros x; by rewrite Ht, lookup_empty).
      by rewrite map_size_insert_None. }
    destruct (Hmin Hne) as [Hin Hle]. split; [by right|].
    intros x [->|Hx]%elem_of_cons; [lia|auto].
Qed.

Lemma occ_remove r r' live1 live2 :
  occ r' (live1 ++ r :: live2) =
    (if bool_decide (r = r') then S (occ r' (live1 ++ live2)) else occ r' (live1 ++ live2)).
Proof.
  unfold occ. rewrite !count_occ_app. simpl.
  destruct (Z.eq_dec r r'); case_bool_decide; try done; lia.
Qed.

Lemma minActive_spec (m : gmap Z Z) live :
  (forall r, is_Some (m !! r) <-> r ∈ live) -> live <> [] -> Forall is_u64 live ->
  minActive m ∈ live /\ forall r, r ∈ live -> minActive m <= r.
Proof.
  intros Hdom Hne Hu. unfold minActive.
  assert (forall r, r ∈ (map_to_list m).*1 <-> r ∈ live) as Hl.
  { intros r. rewrite <- Hdom, list_elem_of_fmap. split.
    - intros [[k v] [-> Hk]]. apply elem_of_map_to_list in Hk. eauto.
    - intros [v Hv]. exists (r, v). split; [done|]. by apply elem_of_map_to_list. }
  rewrite Forall_forall in Hu. destruct live as [|r0 live]; [done|].
  assert (forall l, (forall r, r ∈ l -> r ∈ r0 :: live) ->
    (forall r, r ∈ l -> foldr Z.min max_u64 l <= r) /\
    (foldr Z.min max_u64 l ∈ l \/ l = [])) as Hfold.
  { induction l as [|x l IH]; intros Hin; [split; [intros ? H; inversion H|by right]|].
    destruct IH as [IH1 IH2]; [intros; apply Hin; by right|]. simpl. split.
    - intros r [->|Hr]%elem_of_cons; [lia|]. specialize (IH1 r Hr). lia.
    - left. destruct IH2 as [IH2| ->].
      + destruct (Z.min_spec x (foldr Z.min max_u64 l)) as [[_ ->]|[_ ->]]; [left|by right].
      + simpl. assert (is_u64 x) as Hx by (apply Hu, Hin; left). unfold is_u64, max_u64 in *.
        rewrite Z.min_l by lia. left. }
  destruct (Hfold (map_to_list m).*1) as [H1 H2]; [by intros; apply Hl|]. split.
  - destruct H2 as [H2|H2]; [by apply Hl|].
    assert (r0 ∈ (map_to_list m).*1) as H0 by (apply Hl; left). rewrite H2 in H0. inversion H0.
  - intros r Hr. by apply H1, Hl.
Qed.

Lemma WaterMark_Done_counts w live1 live2 r ts :
  counts (active w) (live1 ++ r :: live2) -> counts (active (WaterMark_Done w r ts)) (live1 ++ live2).
Proof.
  intros Ht r'. unfold WaterMark_Done. simpl.
  pose proof (Ht r) as Hr. pose proof (Ht r') as Hr'. rewrite occ_remove in Hr, Hr'.
  rewrite bool_decide_eq_true_2 in Hr by done. simpl in Hr. rewrite Hr. simpl.
  case_bool_decide; [subst r'|].
  - case_if; case_if; rewrite ?lookup_delete_eq, ?lookup_insert_eq; (done || lia || f_equal; lia).
  - case_if; rewrite ?lookup_delete_ne, ?lookup_insert_ne by done; done.
Qed.

Lemma WaterMark_Done_tracks w live1 live2 r ts :
  tracks w (live1 ++ r :: live2) -> Forall is_u64 (live1 ++ r :: live2) ->
  tracks (WaterMark_Done w r ts) (live1 ++ live2).
Proof.
  intros [Ht _] Hu. apply (WaterMark_Done_counts _ _ _ _ ts) in Ht. split; [done|]. intros Hne.
  rewrite Forall_app, Forall_cons in Hu. destruct Hu as (Hu1 & _ & Hu2).
  pose proof (counts_empty _ _ Ht) as He. unfold WaterMark_Done in *. simpl in *.
  case_if; [by destruct Hne; apply He|].
  apply minActive_spec; [intros; by apply counts_dom|done|by apply Forall_app].
Qed.

(** The cached minimum is what [WaterMark_MinReadTs] returns while a snapshot is open. *)
Lemma MinReadTs_le w live d r : tracks w live -> r ∈ live -> WaterMark_MinReadTs w d <= r.
Proof.
  intros [Ht Hmin] Hr. unfold WaterMark_MinReadTs. case_if.
  - apply (counts_empty _ _ Ht) in Heqb as ->. inversion Hr.
  - apply Hmin; [by intros ->; inversion Hr|done].
Qed.

Lemma MinReadTs_live w live d : tracks w live -> live <> [] -> WaterMark_MinReadTs w d ∈ live.
Proof.
  intros [Ht Hmin] Hne. unfold WaterMark_MinReadTs. case_if; [|by apply Hmin].
  by apply (counts_empty _ _ Ht) in Heqb.
Qed.

Lemma MinReadTs_spec w live d : tracks w live -> WaterMark_MinReadTs w d = d \/ WaterMark_MinReadTs w d ∈ live.
Proof.
  intros [Ht Hmin]. unfold WaterMark_MinReadTs. case_if; [by left|right].
  apply Hmin. intros ->. apply Heqb, (counts_empty _ _ Ht). done.
Qed.

(** ** Oracle *)

(** One committed transaction: its timestamp and the fingerprints it wrote. *)
Record committedTxn := mkCommitted {
  commitTs : Z;
  writes : gset Z
}.

Record Oracle := mkOracle {
  nextTs : Z;
  appliedTs : Z;
  awaiting : gset Z;
  history : list committedTxn;
  historyIndex : gmap Z (list Z);
  watermark : WaterMark;
  readSeqs : gmap Z Z
}.

Definition newOracle : Oracle :=
  mkOracle 1 1 ∅ [] ∅ newWaterMark ∅.

Definition set_watermark (o : Oracle) (w : WaterMark) : Oracle :=
  mkOracle (nextTs o) (appliedTs o) (awaiting o) (history o) (historyIndex o) w (readSeqs o).

Definition set_awaiting (o : Oracle) (a : gset Z) : Oracle :=
  mkOracle (nextTs o) (appliedTs o) a (history o) (historyIndex o) (watermark o) (readSeqs o).

Definition set_history (o : Oracle) (h : list committedTxn) (ix : gmap Z (list Z)) : Oracle :=
  mkOracle (nextTs o) (appliedTs o) (awaiting o) h ix (watermark o) (readSeqs o).

Definition set_applied (o : Oracle) (a : Z) : Oracle :=
  mkOracle (nextTs o) a (awaiting o) (history o) (historyIndex o) (watermark o) (readSeqs o).

Definition set_readSeqs (o : Oracle) (m : gmap Z Z) : Oracle :=
  mkOracle (nextTs o) (appliedTs o) (awaiting o) (history o) (historyIndex o) (watermark o) m.

Definition assignTsLocked (o : Oracle) : Z * Oracle :=
  let ts := u64 (nextTs o + 1) in
  (ts, mkOracle ts (appliedTs o) ({[ts]} ∪ awaiting o) (history o) (historyIndex o)
         (watermark o) (readSeqs o)).

Definition ReserveVersion (o : Oracle) (ts : Z) : Oracle :=
  mkOracle (if nextTs o <? ts then ts else nextTs o) (appliedTs o)
    (if appliedTs o <? ts then {[ts]} ∪ awaiting o else awaiting o)
    (history o) (historyIndex o) (watermark o) (readSeqs o).

Definition NewReadTs (o : Oracle) : Z * Oracle :=
  let readTs := if appliedTs o =? 0 then 1 else appliedTs o in
  (readTs, set_watermark o (WaterMark_Begin (watermark o) readTs)).

Definition NewCommitTs (o : Oracle) : Z * Oracle := assignTsLocked o.

(** The loop of [advanceAppliedLocked]; [nextTs - appliedTs] rounds are enough
    because every round raises [appliedTs] by one and the loop stops above
    [nextTs] (see [advanceLoop_spec]). *)
Fixpoint advanceLoop (fuel : nat) (next : Z) (aw : gset Z) (applied : Z) : Z :=
  match fuel with
  | O => applied
  | S fuel =>
      let n := u64 (applied + 1) in
      if next <? n then applied
      else if bool_decide (n ∈ aw) then applied
      else advanceLoop fuel next aw n
  end.

Definition advanceAppliedLocked (o : Oracle) : Oracle :=
  set_applied o (advanceLoop (Z.to_nat (nextTs o - appliedTs o)) (nextTs o) (awaiting o) (appliedTs o)).

Definition MarkApplied (o : Oracle) (ts : Z) : Oracle :=
  if ts <=? appliedTs o then o
  else advanceAppliedLocked (set_awaiting o (awaiting o ∖ {[ts]})).

Definition Bump (o : Oracle) (minTs : Z) : Oracle :=
  mkOracle (if nextTs o <? minTs then minTs else nextTs o)
    (if appliedTs o <? minTs then minTs else appliedTs o)
    (awaiting o) (history o) (historyIndex o) (watermark o)
    (filter (fun '(ts, _) => ~ ts < minTs) (readSeqs o)).

Definition Oracle_Done (o : Oracle) (readTs : Z) : Oracle :=
  set_watermark o (WaterMark_Done (watermark o) readTs (appliedTs o)).

Definition Oracle_MinReadTs (o : Oracle) : Z :=
  WaterMark_MinReadTs (watermark o) (appliedTs o).

Definition BeginRead (o : Oracle) : Z * Oracle :=
  let ts := nextTs o in
  (ts, set_readSeqs o (<[ts := default 0 (readSeqs o !! ts) + 1]> (readSeqs o))).

Definition DoneRead (o : Oracle) (ts : Z) : Oracle :=
  let n := default 0 (readSeqs o !! ts) - 1 in
  advanceAppliedLocked
    (set_readSeqs o (if 0 <? n then <[ts := n]> (readSeqs o) else delete ts (readSeqs o))).

(** *** Conflict history *)

Definition latestWriteLocked (o : Oracle) (fp : Z) : Z :=
  foldl Z.max 0 (default [] (historyIndex o !! fp)).

Definition indexWrite (ts : Z) (ix : gmap Z (list Z)) (fp : Z) : gmap Z (list Z) :=
  <[fp := default [] (ix !! fp) ++ [ts]]> ix.

(** The source ranges over a Go map; the body touches one key per round, so
    the order does not matter. *)
Definition indexWritesLocked (ix : gmap Z (list Z)) (ts : Z) (fps : gset Z) : gmap Z (list Z) :=
  foldl (indexWrite ts) ix (elements fps).

(** Drop the first occurrence, as the inner loop with its [break] does. *)
Fixpoint removeFirst (ts : Z) (l : list Z) : list Z :=
  match l with
  | [] => []
  | x :: l => if x =? ts then l else x :: removeFirst ts l
  end.

Definition removeWriteVersionLocked (ts : Z) (ix : gmap Z (list Z)) (fp : Z) : gmap Z (list Z) :=
  match removeFirst ts (default [] (ix !! fp)) with
  | [] => delete fp ix
  | l => <[fp := l]> ix
  end.

Definition removeTxn (ix : gmap Z (list Z)) (t : committedTxn) : gmap Z (list Z) :=
  foldl (removeWriteVersionLocked (commitTs t)) ix (elements (writes t)).

(** The prefix of the history older than [minActiveTs]. *)
Fixpoint trimIndex (minActiveTs : Z) (h : list committedTxn) : nat :=
  match h with
  | [] => 0%nat
  | t :: h => if minActiveTs <=? commitTs t then 0%nat else S (trimIndex minActiveTs h)
  end.

Definition trimHistoryLocked (o : Oracle) (minActiveTs : Z) : Oracle :=
  let i := trimIndex minActiveTs (history o) in
  if (i =? 0)%nat then o
  else set_history o (drop i (history o))
         (foldl removeTxn (historyIndex o) (take i (history o))).

Definition appendCommitted (o : Oracle) (t : committedTxn) : Oracle :=
  set_history o (history o ++ [t]) (indexWritesLocked (historyIndex o) (commitTs t) (writes t)).

Definition checkAndCommitInternal (o : Oracle) (readTs : Z) (readFps writeFps : gset Z)
    : result Z * Oracle :=
  if existsb (fun fp => readTs <? latestWriteLocked o fp) (elements readFps) then (Fail ErrTxnConflict, o)
  else if existsb (fun fp => readTs <? latestWriteLocked o fp) (elements writeFps) then (Fail ErrTxnConflict, o)
  else
    let '(ts, o1) := assignTsLocked o in
    let o2 := appendCommitted o1 (mkCommitted ts writeFps) in
    (Ok ts, trimHistoryLocked o2 (WaterMark_MinReadTs (watermark o2) (appliedTs o2))).

Fixpoint findCommit (ts : Z) (h : list committedTxn) : option nat :=
  match h with
  | [] => None
  | t :: h => if commitTs t =? ts then Some 0%nat else S <$> findCommit ts h
  end.

Definition Oracle_AbortCommit (o : Oracle) (ts : Z) : Oracle :=
  let o := set_awaiting o (awaiting o ∖ {[ts]}) in
  match findCommit ts (history o) with
  | None => advanceAppliedLocked o
  | Some found =>
      let affected := from_option writes ∅ (history o !! found) in
      advanceAppliedLocked
        (set_history o (take found (history o) ++ drop (S found) (history o))
           (foldl (removeWriteVersionLocked ts) (historyIndex o) (elements affected)))
  end.

(** *** Entry points that take keys

    [xxhash.Sum64String] is third-party code: the fingerprint function is a
    parameter. *)
Section fingerprints.
Context (xxhash : bytes -> Z).

Definition fingerprints (ks : gset bytes) : gset Z := set_map xxhash ks.

(** Both callers pass the key set of their write map. *)
Definition CheckAndCommit (o : Oracle) (readTs : Z) (readSet writeKeys : gset bytes)
    : result Z * Oracle :=
  checkAndCommitInternal o readTs (fingerprints readSet) (fingerprints writeKeys).

Definition RecordCommitted (o : Oracle) (ts : Z) (writeKeys : gset bytes) : Oracle :=
  if bool_decide (writeKeys = ∅) then o
  else
    let o1 := appendCommitted o (mkCommitted ts (fingerprints writeKeys)) in
    trimHistoryLocked o1 (WaterMark_MinReadTs (watermark o1) (appliedTs o1)).
End fingerprints.

(** ** The loop of [advanceAppliedLocked] *)

Lemma advanceLoop_spec fuel next aw applied :
  0 <= applied <= next -> next < max_u64 -> (Z.to_nat (next - applied) <= fuel)%nat ->
  let r := advanceLoop fuel next aw applied in
  applied <= r <= next /\ (forall x, applied < x <= r -> x ∉ aw) /\ (r = next \/ r + 1 ∈ aw).
Proof.
  unfold max_u64. revert applied. induction fuel as [|fuel IH]; intros applied H Hn Hf; simpl.
  { split; [lia|]. split; [intros; lia|]. left. lia. }
  rewrite u64_id by (unfold is_u64; lia). case_if.
  { split; [lia|]. split; [intros; lia|]. left. lia. }
  case_bool_decide.
  { split; [lia|]. split; [intros; lia|]. by right. }
  destruct (IH (applied + 1)) as (H1 & H2 & H3); [lia..|].
  split; [lia|]. split; [|done].
  intros x Hx. destruct (decide (x = applied + 1)) as [->|]; [done|]. apply H2. lia.
Qed.

(** ** The index is the history, key by key *)

(** The commit timestamps of the transactions of [h] that wrote [fp]. *)
Definition writers (fp : Z) (h : list committedTxn) : list Z :=
  commitTs <$> filter (fun t => fp ∈ writes t) h.

Definition nonempty (l : list Z) : option (list Z) :=
  match l with [] => None | _ => Some l end.

Definition idx_ok (h : list committedTxn) (ix : gmap Z (list Z)) : Prop :=
  forall fp, ix !! fp = nonempty (writers fp h).

Lemma default_nonempty l : default [] (nonempty l) = l.
Proof. by destruct l. Qed.

Lemma writers_app fp h1 h2 : writers fp (h1 ++ h2) = writers fp h1 ++ writers fp h2.
Proof. unfold writers. by rewrite filter_app, fmap_app. Qed.

Lemma writers_cons fp t h :
  writers fp (t :: h) = if bool_decide (fp ∈ writes t) then commitTs t :: writers fp h else writers fp h.
Proof. unfold writers. rewrite filter_cons. case_decide; case_bool_decide; done. Qed.

Lemma elem_of_writers fp ts h :
  ts ∈ writers fp h <-> exists t, t ∈ h /\ fp ∈ writes t /\ commitTs t = ts.
Proof.
  unfold writers. rewrite list_elem_of_fmap. split.
  - intros [t [-> Ht]]. apply list_elem_of_filter in Ht as [? ?]. eauto.
  - intros (t & ? & ? & <-). exists t. split; [done|]. by apply list_elem_of_filter.
Qed.

(** A loop that rewrites one key per round, over distinct keys. *)
Lemma foldl_pointwise (f : gmap Z (list Z) -> Z -> gmap Z (list Z)) g ix l fp :
  (forall ix k k', k <> k' -> f ix k !! k' = ix !! k') ->
  (forall ix k, f ix k !! k = g (ix !! k)) -> NoDup l ->
  foldl f ix l !! fp = if bool_decide (fp ∈ l) then g (ix !! fp) else ix !! fp.
Proof.
  intros Hne Heq. revert ix. induction l as [|k l IH]; intros ix Hnd; simpl.
  { done. }
  apply NoDup_cons in Hnd as [Hk Hnd]. rewrite IH by done.
  destruct (decide (fp = k)) as [->|Hfk].
  - rewrite bool_decide_eq_false_2 by done.
    by rewrite bool_decide_eq_true_2 by (apply elem_of_cons; auto).
  - rewrite Hne by done. apply if_bool_decide_ext. rewrite elem_of_cons. naive_solver.
Qed.

Lemma indexWritesLocked_lookup ix ts fps fp :
  indexWritesLocked ix ts fps !! fp =
    if bool_decide (fp ∈ fps) then Some (default [] (ix !! fp) ++ [ts]) else ix !! fp.
Proof.
  unfold indexWritesLocked.
  rewrite (foldl_pointwise _ (fun o => Some (default [] o ++ [ts]))).
  - apply if_bool_decide_ext, elem_of_elements.
  - intros. by apply lookup_insert_ne.
  - intros. apply lookup_insert_eq.
  - apply NoDup_elements.
Qed.

Lemma removeVersions_lookup ix ts (fps : gset Z) fp :
  foldl (removeWriteVersionLocked ts) ix (elements fps) !! fp =
    if bool_decide (fp ∈ fps) then nonempty (removeFirst ts (default [] (ix !! fp))) else ix !! fp.
Proof.
  rewrite (foldl_pointwise _ (fun o => nonempty (removeFirst ts (default [] o)))).
  - apply if_bool_decide_ext, elem_of_elements.
  - intros m k k' Hk. unfold removeWriteVersionLocked. case_match.
    + by rewrite lookup_delete_ne.
    + by rewrite lookup_insert_ne.
  - intros m k. unfold removeWriteVersionLocked. case_match.
    + by rewrite lookup_delete_eq.
    + by rewrite lookup_insert_eq.
  - apply NoDup_elements.
Qed.

Lemma removeFirst_app ts l1 l2 : ts ∉ l1 -> removeFirst ts (l1 ++ ts :: l2) = l1 ++ l2.
Proof.
  induction l1 as [|x l1 IH]; simpl; intros H.
  - by rewrite Z.eqb_refl.
  - apply not_elem_of_cons in H as [? ?]. rewrite (proj2 (Z.eqb_neq x ts)) by congruence.
    by rewrite IH.
Qed.

(** Deleting one transaction from the middle of the history. *)
Lemma idx_ok_remove pre t post ix :
  idx_ok (pre ++ t :: post) ix -> (forall t', t' ∈ pre -> commitTs t' <> commitTs t) ->
  idx_ok (pre ++ post) (removeTxn ix t).
Proof.
  intros Hok Hpre fp. unfold removeTxn. rewrite removeVersions_lookup, !(Hok fp), default_nonempty.
  rewrite !writers_app, writers_cons. case_bool_decide; [|done].
  rewrite removeFirst_app; [done|]. intros (t' & ? & _ & ?)%elem_of_writers. by apply (Hpre t').
Qed.

Lemma idx_ok_append h ix t :
  idx_ok h ix -> idx_ok (h ++ [t]) (indexWritesLocked ix (commitTs t) (writes t)).
Proof.
  intros Hok fp. rewrite indexWritesLocked_lookup, !(Hok fp), default_nonempty, writers_app, writers_cons.
  case_bool_decide.
  - unfold writers at 3. simpl. by destruct (writers fp h).
  - unfold writers at 3. simpl. by rewrite app_nil_r.
Qed.

Lemma idx_ok_trim h1 h2 ix : idx_ok (h1 ++ h2) ix -> idx_ok h2 (foldl removeTxn ix h1).
Proof.
  revert ix. induction h1 as [|t h1 IH]; intros ix Hok; simpl; [done|].
  apply IH. apply (idx_ok_remove []); [done|]. intros t' Ht. inversion Ht.
Qed.

Lemma foldl_max_ge l : forall a, a <= foldl Z.max a l.
Proof. induction l as [|x l IH]; intros a; simpl; [lia|]. specialize (IH (Z.max a x)). lia. Qed.

Lemma foldl_max_elem l x : forall a, x ∈ l -> x <= foldl Z.max a l.
Proof.
  induction l as [|y l IH]; intros a Hx; simpl; [inversion Hx|].
  apply elem_of_cons in Hx as [->|Hx]; [|by apply IH].
  pose proof (foldl_max_ge l (Z.max a y)). lia.
Qed.

Lemma foldl_max_in l : forall a, foldl Z.max a l = a \/ foldl Z.max a l ∈ l.
Proof.
  induction l as [|y l IH]; intros a; simpl; [by left|].
  destruct (IH (Z.max a y)) as [->|?]; [|right; by right].
  destruct (Z.max_spec a y) as [[_ ->]|[_ ->]]; [right; left|by left].
Qed.

(** [latestWriteLocked] is the newest commit of the history on that key. *)
Lemma latestWriteLocked_spec o fp readTs :
  idx_ok (history o) (historyIndex o) -> 0 <= readTs ->
  readTs < latestWriteLocked o fp <->
  exists t, t ∈ history o /\ fp ∈ writes t /\ readTs < commitTs t.
Proof.
  intros Hok H0. unfold latestWriteLocked. rewrite (Hok fp), default_nonempty. split.
  - intros Hlt. destruct (foldl_max_in (writers fp (history o)) 0) as [He|Hin]; [lia|].
    apply elem_of_writers in Hin as (t & ? & ? & Ht). exists t. rewrite Ht. auto.
  - intros (t & Hh & Hw & Hlt). eapply Z.lt_le_trans; [exact Hlt|].
    apply foldl_max_elem. apply elem_of_writers. eauto.
Qed.

(** ** The oracle invariant

    [live]: the read timestamps registered with the watermark and not yet
    released.  [log]: every transaction that went through the conflict check
    and was not aborted, trimmed ones included. *)
Record oracle_inv (o : Oracle) (live : list Z) (log : list committedTxn) : Prop := {
  oi_index : idx_ok (history o) (historyIndex o);
  oi_wm : tracks (watermark o) live;
  oi_clock : 1 <= appliedTs o <= nextTs o /\ nextTs o < max_u64;
  oi_live : forall r, r ∈ live -> 1 <= r <= appliedTs o;
  oi_await : forall x, x ∈ awaiting o -> appliedTs o < x <= nextTs o;
  oi_hist : history o `sublist_of` log;
  oi_uniq : NoDup (commitTs <$> log);
  oi_log_ts : forall t, t ∈ log -> 1 < commitTs t <= nextTs o;
  oi_log : forall t, t ∈ log ->
    t ∈ history o \/ (commitTs t < appliedTs o /\ forall r, r ∈ live -> commitTs t < r)
}.

Lemma newOracle_inv : oracle_inv newOracle [] [].
Proof.
  split; simpl; try done.
  all: try apply NoDup_nil_2. all: intros ? H; by inversion H.
Qed.

Lemma live_u64 o live log : oracle_inv o live log -> Forall is_u64 live.
Proof.
  intros Hi. apply Forall_forall. intros r Hr.
  pose proof (oi_live _ _ _ Hi r Hr). pose proof (oi_clock _ _ _ Hi). unfold is_u64, max_u64 in *. lia.
Qed.

Lemma NewReadTs_inv o live log :
  oracle_inv o live log ->
  (NewReadTs o).1 = appliedTs o /\ oracle_inv (NewReadTs o).2 ((NewReadTs o).1 :: live) log.
Proof.
  intros Hi. pose proof (oi_clock _ _ _ Hi) as Hc. unfold NewReadTs.
  rewrite (proj2 (Z.eqb_neq (appliedTs o) 0)) by lia. split; [done|].
  destruct Hi as [Hix Hwm _ Hl Ha Hh Hun Hts Hlog]. split; simpl; try done.
  - by apply WaterMark_Begin_tracks.
  - intros r [->|Hr]%elem_of_cons; [lia|auto].
  - intros t Ht. destruct (Hlog t Ht) as [?|[? Hr]]; [by left|right]. split; [done|].
    intros r [->|?]%elem_of_cons; [lia|auto].
Qed.

Lemma Oracle_Done_inv o live1 r live2 log :
  oracle_inv o (live1 ++ r :: live2) log -> oracle_inv (Oracle_Done o r) (live1 ++ live2) log.
Proof.
  intros Hi. pose proof (live_u64 _ _ _ Hi) as Hu.
  destruct Hi as [Hix Hwm Hc Hl Ha Hh Hun Hts Hlog].
  assert (forall x, x ∈ live1 ++ live2 -> x ∈ live1 ++ r :: live2) as Hin.
  { intros x. rewrite !elem_of_app, elem_of_cons. naive_solver. }
  split; simpl; auto.
  - by apply WaterMark_Done_tracks.
  - intros t Ht. destruct (Hlog t Ht) as [?|[? Hr]]; auto.
Qed.

(** Raising [appliedTs] to a value that passes no pending timestamp. *)
Lemma advance_inv o live log :
  oracle_inv o live log ->
  let o' := advanceAppliedLocked o in
  oracle_inv o' live log /\ appliedTs o <= appliedTs o' /\
  (appliedTs o' = nextTs o \/ appliedTs o' + 1 ∈ awaiting o).
Proof.
  intros Hi. pose proof (oi_clock _ _ _ Hi) as Hc.
  destruct (advanceLoop_spec (Z.to_nat (nextTs o - appliedTs o)) (nextTs o) (awaiting o) (appliedTs o))
    as (H1 & H2 & H3); [lia..|].
  destruct Hi as [Hix Hwm _ Hl Ha Hh Hun Hts Hlog]. unfold advanceAppliedLocked. simpl.
  split; [|split; [lia|done]]. split; simpl; auto.
  - lia.
  - intros r Hr. specialize (Hl r Hr). lia.
  - intros x Hx. specialize (Ha x Hx). split; [|lia].
    destruct (Z.lt_ge_cases (advanceLoop (Z.to_nat (nextTs o - appliedTs o)) (nextTs o)
      (awaiting o) (appliedTs o)) x); [done|]. destruct (H2 x); [lia|done].
  - intros t Ht. destruct (Hlog t Ht) as [?|[? Hr]]; [by left|right]. split; [lia|done].
Qed.

Lemma set_awaiting_inv o live log a :
  oracle_inv o live log -> a ⊆ awaiting o -> oracle_inv (set_awaiting o a) live log.
Proof. intros [] Ha. split; simpl; auto. Qed.

Lemma MarkApplied_inv o live log ts :
  oracle_inv o live log -> oracle_inv (MarkApplied o ts) live log.
Proof.
  intros Hi. unfold MarkApplied. case_if; [done|].
  apply advance_inv, set_awaiting_inv; [done|]. set_solver.
Qed.

Lemma DoneRead_inv o live log ts :
  oracle_inv o live log -> oracle_inv (DoneRead o ts) live log.
Proof. intros Hi. apply advance_inv. by destruct Hi. Qed.

Lemma BeginRead_inv o live log :
  oracle_inv o live log -> oracle_inv (BeginRead o).2 live log.
Proof. intros Hi. by destruct Hi. Qed.

Lemma assignTs_inv o live log :
  oracle_inv o live log -> nextTs o + 1 < max_u64 ->
  (assignTsLocked o).1 = nextTs o + 1 /\ oracle_inv (assignTsLocked o).2 live log.
Proof.
  intros Hi Hn. pose proof (oi_clock _ _ _ Hi) as Hc. unfold assignTsLocked. simpl.
  rewrite u64_id by (unfold is_u64, max_u64 in *; lia). split; [done|].
  destruct Hi as [Hix Hwm _ Hl Ha Hh Hun Hts Hlog]. split; simpl; auto.
  - lia.
  - intros x [->%elem_of_singleton|Hx]%elem_of_union; [lia|]. specialize (Ha x Hx). lia.
  - intros t Ht. specialize (Hts t Ht). lia.
Qed.

Lemma ReserveVersion_inv o live log ts :
  oracle_inv o live log -> ts < max_u64 -> oracle_inv (ReserveVersion o ts) live log.
Proof.
  intros Hi Hn. pose proof (oi_clock _ _ _ Hi) as Hc.
  destruct Hi as [Hix Hwm _ Hl Ha Hh Hun Hts Hlog]. split; simpl; auto.
  - case_if; lia.
  - intros x. destruct (appliedTs o <? ts) eqn:E; bool_prop.
    + intros [->%elem_of_singleton|Hx]%elem_of_union; [case_if; lia|].
      specialize (Ha x Hx). case_if; lia.
    + intros Hx. specialize (Ha x Hx). case_if; lia.
  - intros t Ht. specialize (Hts t Ht). case_if; lia.
Qed.

(** *** Trimming *)

Lemma trimIndex_spec m (h : list committedTxn) t : t ∈ take (trimIndex m h) h -> commitTs t < m.
Proof.
  induction h as [|x h IH]; simpl; [intros H; inversion H|].
  case_if; simpl; [intros H; inversion H|]. intros [->|?]%elem_of_cons; auto.
Qed.

Lemma trimHistoryLocked_eq o m :
  trimHistoryLocked o m =
    set_history o (drop (trimIndex m (history o)) (history o))
      (foldl removeTxn (historyIndex o) (take (trimIndex m (history o)) (history o))).
Proof.
  unfold trimHistoryLocked. case_if; [|done]. rewrite Heqb, drop_0, take_0. by destruct o.
Qed.

Lemma trim_inv o live log m :
  oracle_inv o live log -> m <= appliedTs o -> (forall r, r ∈ live -> m <= r) ->
  oracle_inv (trimHistoryLocked o m) live log.
Proof.
  intros Hi Hm Hr. rewrite trimHistoryLocked_eq.
  destruct Hi as [Hix Hwm Hc Hl Ha Hh Hun Hts Hlog]. split; simpl; auto.
  - apply idx_ok_trim. by rewrite take_drop.
  - etrans; [apply sublist_drop|done].
  - intros t Ht. destruct (Hlog t Ht) as [Hin|?]; [|by right].
    rewrite <- (take_drop (trimIndex m (history o)) (history o)) in Hin.
    apply elem_of_app in Hin as [Hin|?]; [right|by left].
    apply trimIndex_spec in Hin. split; [lia|]. intros r Hlive. specialize (Hr r Hlive). lia.
Qed.

Lemma trim_watermark_inv o live log :
  oracle_inv o live log ->
  oracle_inv (trimHistoryLocked o (WaterMark_MinReadTs (watermark o) (appliedTs o))) live log.
Proof.
  intros Hi. apply trim_inv; [done| |].
  - destruct (MinReadTs_spec _ _ (appliedTs o) (oi_wm _ _ _ Hi)) as [->|H]; [done|].
    apply (oi_live _ _ _ Hi _ H).
  - intros r Hr. eapply MinReadTs_le; [apply Hi|done].
Qed.

Lemma append_inv o live log t :
  oracle_inv o live log -> commitTs t = nextTs o -> (forall x, x ∈ log -> commitTs x < nextTs o) ->
  1 < nextTs o -> oracle_inv (appendCommitted o t) live (log ++ [t]).
Proof.
  intros Hi Ht Hlt H1. destruct Hi as [Hix Hwm Hc Hl Ha Hh Hun Hts Hlog].
  split; simpl; auto.
  - by apply idx_ok_append.
  - by apply sublist_app.
  - rewrite fmap_app. apply NoDup_app. split; [done|]. split; [|simpl; apply NoDup_singleton].
    intros x (y & -> & Hy)%list_elem_of_fmap. specialize (Hlt y Hy). simpl.
    rewrite list_elem_of_singleton. lia.
  - intros x [Hx|Hx%list_elem_of_singleton]%elem_of_app; [auto|subst x; lia].
  - intros x [Hx|Hx%list_elem_of_singleton]%elem_of_app.
    + destruct (Hlog x Hx); [left; apply elem_of_app; auto|by right].
    + left. subst x. apply elem_of_app. right. by apply list_elem_of_singleton.
Qed.

(** *** The conflict check *)

Lemma existsb_elements (f : Z -> bool) (X : gset Z) :
  existsb f (elements X) = true <-> exists x, x ∈ X /\ f x = true.
Proof.
  rewrite existsb_exists. split; intros (x & Hx & Hf); exists x; split; try done.
  - by apply elem_of_elements, list_elem_of_In.
  - by apply list_elem_of_In, elem_of_elements.
Qed.

(** A transaction of the log that [readTs] has not seen and that wrote one of
    the fingerprints. *)
Definition conflicts (log : list committedTxn) (readTs : Z) (fps : gset Z) : Prop :=
  exists t fp, t ∈ log /\ fp ∈ writes t /\ fp ∈ fps /\ readTs < commitTs t.

Lemma check_conflicts o live log readTs fps :
  oracle_inv o live log -> readTs ∈ live ->
  existsb (fun fp => readTs <? latestWriteLocked o fp) (elements fps) = true <->
  conflicts log readTs fps.
Proof.
  intros Hi Hr. rewrite existsb_elements.
  assert (0 <= readTs) as H0 by (pose proof (oi_live _ _ _ Hi _ Hr); lia).
  split.
  - intros (fp & Hfp & Hlt%Z.ltb_lt).
    apply latestWriteLocked_spec in Hlt as (t & Hh & Hw & Ht); [|apply Hi|done].
    exists t, fp. split; [|done]. eapply sublist_subseteq; [apply Hi|done].
  - intros (t & fp & Ht & Hw & Hfp & Hlt). exists fp. split; [done|].
    apply Z.ltb_lt. apply latestWriteLocked_spec; [apply Hi|done|].
    destruct (oi_log _ _ _ Hi t Ht) as [?|[_ Hold]]; [eauto|]. specialize (Hold _ Hr). lia.
Qed.

Lemma checkAndCommitInternal_spec o live log readTs rfps wfps :
  oracle_inv o live log -> readTs ∈ live -> nextTs o + 1 < max_u64 ->
  (conflicts log readTs (rfps ∪ wfps) /\
   checkAndCommitInternal o readTs rfps wfps = (Fail ErrTxnConflict, o)) \/
  (~ conflicts log readTs (rfps ∪ wfps) /\
   exists o', checkAndCommitInternal o readTs rfps wfps = (Ok (nextTs o + 1), o') /\
     oracle_inv o' live (log ++ [mkCommitted (nextTs o + 1) wfps]) /\
     nextTs o' = nextTs o + 1 /\ appliedTs o' = appliedTs o /\
     awaiting o' = {[nextTs o + 1]} ∪ awaiting o).
Proof.
  intros Hi Hr Hn. unfold checkAndCommitInternal.
  assert (conflicts log readTs (rfps ∪ wfps) <->
    conflicts log readTs rfps \/ conflicts log readTs wfps) as Hu.
  { unfold conflicts. setoid_rewrite elem_of_union. naive_solver. }
  rewrite Hu, <- !(check_conflicts o live) by done. clear Hu.
  case_if; [by left; auto|]. case_if; [by left; auto|]. right. split; [naive_solver|].
  destruct (assignTs_inv _ _ _ Hi Hn) as [Hts Hi1].
  destruct (assignTsLocked o) as [ts o1] eqn:Ho1. simpl in Hts, Hi1. subst ts.
  assert (nextTs o1 = nextTs o + 1 /\ appliedTs o1 = appliedTs o /\
    awaiting o1 = {[nextTs o + 1]} ∪ awaiting o) as (Hn1 & Ha1 & Hw1).
  { unfold assignTsLocked in Ho1. injection Ho1 as E <-. simpl. by rewrite E. }
  eexists. split; [done|]. split; [|by rewrite trimHistoryLocked_eq].
  apply trim_watermark_inv, append_inv; [done| | |].
  - simpl. congruence.
  - intros x Hx. pose proof (oi_log_ts _ _ _ Hi x Hx). lia.
  - pose proof (oi_clock _ _ _ Hi). lia.
Qed.

(** *** Aborting *)

Definition not_ts (ts : Z) (t : committedTxn) : Prop := commitTs t <> ts.

#[export] Instance not_ts_dec ts t : Decision (not_ts ts t).
Proof. unfold not_ts. apply _. Defined.

Lemma findCommit_Some ts h i :
  findCommit ts h = Some i ->
  exists pre t post, h = pre ++ t :: post /\ length pre = i /\ commitTs t = ts /\
    forall t', t' ∈ pre -> commitTs t' <> ts.
Proof.
  revert i. induction h as [|x h IH]; intros i; simpl; [done|]. case_if.
  - intros [= <-]. exists [], x, h. repeat split; try done. intros t' H; inversion H.
  - intros Hi. apply fmap_Some in Hi as (j & Hj & ->).
    destruct (IH j Hj) as (pre & t & post & -> & <- & Ht & Hpre).
    exists (x :: pre), t, post. repeat split; try done.
    intros t' [->|?]%elem_of_cons; auto.
Qed.

Lemma findCommit_None ts h : findCommit ts h = None -> filter (not_ts ts) h = h.
Proof.
  induction h as [|x h IH]; simpl; [done|]. case_if; [done|]. intros H.
  rewrite filter_cons_True by done. f_equal. apply IH. by destruct (findCommit ts h).
Qed.

Lemma filter_not_ts_id ts (h : list committedTxn) : (forall t, t ∈ h -> commitTs t <> ts) -> filter (not_ts ts) h = h.
Proof.
  induction h as [|x h IH]; intros Hh; [done|].
  rewrite filter_cons_True by (apply Hh; left). f_equal. apply IH. intros; apply Hh. by right.
Qed.

Lemma filter_sublist_mono {A} (P : A -> Prop) `{!forall x, Decision (P x)} l1 l2 :
  l1 `sublist_of` l2 -> filter P l1 `sublist_of` filter P l2.
Proof.
  induction 1 as [|x l1 l2 _ IH|x l1 l2 _ IH]; [done| |];
    rewrite !filter_cons; case_decide; try done; by constructor.
Qed.

(** What the abort leaves behind: history and index without [ts]. *)
Lemma abort_history_inv o live log ts ix :
  oracle_inv o live log -> idx_ok (filter (not_ts ts) (history o)) ix ->
  oracle_inv (set_history o (filter (not_ts ts) (history o)) ix) live (filter (not_ts ts) log).
Proof.
  intros [Hix Hwm Hc Hl Ha Hh Hun Hts Hlog] Hok. split; simpl; auto.
  - by apply filter_sublist_mono.
  - eapply sublist_NoDup; [exact Hun|]. apply fmap_sublist, sublist_filter.
  - intros t [_ Ht]%list_elem_of_filter. auto.
  - intros t [Hne Ht]%list_elem_of_filter. destruct (Hlog t Ht); [left|by right].
    by apply list_elem_of_filter.
Qed.

Lemma Oracle_AbortCommit_inv o live log ts :
  oracle_inv o live log ->
  oracle_inv (Oracle_AbortCommit o ts) live (filter (not_ts ts) log).
Proof.
  intros Hi. unfold Oracle_AbortCommit.
  assert (oracle_inv (set_awaiting o (awaiting o ∖ {[ts]})) live log) as Hi1.
  { apply set_awaiting_inv; [done|set_solver]. }
  clear Hi. set (o1 := set_awaiting o _) in *. clearbody o1. clear o.
  destruct (findCommit ts (history o1)) as [i|] eqn:Hf.
  - apply findCommit_Some in Hf as (pre & t & post & Hh & <- & Ht & Hpre).
    assert (filter (not_ts ts) (history o1) = pre ++ post) as Hfil.
    { pose proof (sublist_NoDup _ _ (oi_uniq _ _ _ Hi1) (fmap_sublist commitTs _ _ (oi_hist _ _ _ Hi1))) as Hnd.
      rewrite Hh in *. rewrite fmap_app, fmap_cons in Hnd.
      apply NoDup_app in Hnd as (_ & _ & Hnd). apply NoDup_cons in Hnd as [Hnp _].
      rewrite filter_app, filter_cons_False by (unfold not_ts; naive_solver).
      rewrite !filter_not_ts_id; [done| |done].
      intros t' Ht' He. apply Hnp, list_elem_of_fmap. exists t'. split; [congruence|done]. }
    rewrite Hh, list_lookup_middle by done. simpl.
    rewrite take_app_length, drop_app_ge by lia.
    replace (S (length pre) - length pre)%nat with 1%nat by lia. simpl.
    rewrite drop_0, <- Hfil. apply advance_inv, abort_history_inv; [done|]. rewrite Hfil.
    pose proof (idx_ok_remove pre t post (historyIndex o1)) as Hr. unfold removeTxn in Hr.
    rewrite Ht in Hr. apply Hr; [rewrite <- Hh; apply Hi1|naive_solver].
  - pose proof (findCommit_None _ _ Hf) as Hfil. apply advance_inv.
    pose proof (abort_history_inv _ _ _ ts (historyIndex o1) Hi1) as Ha. rewrite Hfil in Ha.
    specialize (Ha (oi_index _ _ _ Hi1)). by destruct o1.
Qed.

(** ** The contract of the commit check *)

(** C23. The conflict check is exact with respect to the full log of commits,
    although the oracle keeps only the part of it that the watermark has not
    trimmed: a live reader's commit fails with [ErrTxnConflict], leaving the
    oracle unchanged, exactly when a transaction committed after its snapshot
    wrote a fingerprint it read or writes; otherwise it gets the next
    timestamp, which is pending until marked applied, and joins the log. *)
Theorem CheckAndCommit_exact xxhash o live log readTs readSet writeKeys :
  oracle_inv o live log -> readTs ∈ live -> nextTs o + 1 < max_u64 ->
  let fps := fingerprints xxhash readSet ∪ fingerprints xxhash writeKeys in
  (conflicts log readTs fps <-> (CheckAndCommit xxhash o readTs readSet writeKeys).1 = Fail ErrTxnConflict) /\
  (conflicts log readTs fps -> (CheckAndCommit xxhash o readTs readSet writeKeys).2 = o) /\
  (~ conflicts log readTs fps ->
     let '(r, o') := CheckAndCommit xxhash o readTs readSet writeKeys in
     r = Ok (nextTs o + 1) /\ nextTs o + 1 ∈ awaiting o' /\
     oracle_inv o' live (log ++ [mkCommitted (nextTs o + 1) (fingerprints xxhash writeKeys)])).
Proof.
  intros Ho Hr Hn fps. unfold CheckAndCommit.
  destruct (checkAndCommitInternal_spec o live log readTs (fingerprints xxhash readSet)
    (fingerprints xxhash writeKeys) Ho Hr Hn) as [[Hc ->]|(Hc & o' & -> & Ho' & _ & _ & Hw)]; simpl.
  - split; [done|]. split; [done|]. by intros [].
  - split; [split; [done|discriminate]|]. split; [done|]. intros _. split; [done|]. split; [|done].
    rewrite Hw. set_solver.
Qed.

Lemma CheckAndCommit_exact_witness :
  let o1 := (NewReadTs newOracle).2 in
  let o2 := (CheckAndCommit be_decode o1 1 ∅ {[ [97] ]}).2 in
  (CheckAndCommit be_decode o1 1 ∅ {[ [97] ]}).1 = Ok 2 /\
  (CheckAndCommit be_decode o2 1 {[ [97] ]} {[ [98] ]}).1 = Fail ErrTxnConflict /\
  oracle_inv o2 [1] [mkCommitted 2 {[97]}].
Proof.
  intros o1 o2. destruct (NewReadTs_inv _ _ _ newOracle_inv) as [_ Hi].
  split; [reflexivity|]. split; [reflexivity|].
  destruct (CheckAndCommit_exact be_decode o1 [1] [] 1 ∅ {[ [97] ]} Hi ltac:(by left) eq_refl) as (_ & _ & H).
  unfold o2. destruct (CheckAndCommit be_decode o1 1 ∅ {[ [97] ]}) as [r o'].
  destruct H as (_ & _ & H); [by intros (t & fp & Ht%elem_of_nil & _)|]. exact H.
Defined.

(** [MarkApplied] advances the read horizon as far as it can and no
    further: afterwards no pending timestamp is at or below it, and the next
    timestamp, if one was handed out, is pending. *)
Theorem MarkApplied_horizon o live log ts :
  oracle_inv o live log -> appliedTs o < ts ->
  let o' := MarkApplied o ts in
  appliedTs o <= appliedTs o' <= nextTs o' /\ awaiting o' = awaiting o ∖ {[ts]} /\
  (forall x, x ∈ awaiting o' -> appliedTs o' < x) /\
  (appliedTs o' = nextTs o' \/ appliedTs o' + 1 ∈ awaiting o').
Proof.
  intros Ho Hts o'. pose proof (MarkApplied_inv _ _ _ ts Ho) as Ho'.
  unfold o', MarkApplied in *. destruct (Z.leb_spec ts (appliedTs o)); [lia|].
  assert (oracle_inv (set_awaiting o (awaiting o ∖ {[ts]})) live log) as Hi
    by (apply set_awaiting_inv; [done|set_solver]).
  destruct (advance_inv _ _ _ Hi) as (_ & Ha & Hmax). split; [|split; [done|split; [|exact Hmax]]].
  - split; [exact Ha|apply Ho'].
  - intros x Hx. by apply (oi_await _ _ _ Ho').
Qed.

Lemma MarkApplied_horizon_witness :
  let o := (assignTsLocked (assignTsLocked newOracle).2).2 in
  appliedTs (MarkApplied o 3) = 1 /\ appliedTs (MarkApplied (MarkApplied o 3) 2) = 3 /\
  (forall x, x ∈ awaiting (MarkApplied o 3) -> appliedTs (MarkApplied o 3) < x).
Proof.
  intros o. split; [reflexivity|]. split; [reflexivity|].
  assert (oracle_inv o [] []) as Hi.
  { apply (assignTs_inv (assignTsLocked newOracle).2); [|reflexivity].
    apply (assignTs_inv newOracle); [apply newOracle_inv|reflexivity]. }
  apply (MarkApplied_horizon o [] [] 3 Hi). reflexivity.
Defined.
