(* ===== verification/Txn.v ===== *)
(** * Transactions ([txn.go])

    The buffered transaction handle, its commit protocol against the oracle,
    and the serializability theorem.  [tx.commit] is cut where the source
    releases [CommitLock] and waits on the error channel: [commitCheck] is the
    part under the lock, [commitFinish] what runs once the writer goroutine
    has answered.  The system of the second half interleaves those parts of
    many transactions with the writer's own steps. *)

From S2P Require Import Prelude Mvcc Oracle.

Record txEntry := mkTxEntry {
  te_value : bytes;
  te_expiresAt : Z;
  te_deleted : bool
}.

(** [tx.db] is threaded explicitly; [tx_writes = None] is the nil map. *)
Record Tx := mkTx {
  tx_readOnly : bool;
  tx_closed : bool;
  tx_readTs : Z;
  tx_writes : option (gmap bytes txEntry);
  tx_readSet : gset bytes
}.

Definition set_closed (tx : Tx) : Tx :=
  mkTx (tx_readOnly tx) true (tx_readTs tx) (tx_writes tx) (tx_readSet tx).

(** The handle [View] opens has no write buffer; [Update]'s has an empty one. *)
Definition beginTx (ro : bool) (readTs : Z) : Tx :=
  mkTx ro false readTs (if ro then None else Some ∅) ∅.

Definition NewTransactionAt (readTs : Z) (ro : bool) : Tx :=
  mkTx ro false readTs (Some ∅) ∅.

(** The write buffer, consulted only by a read-write transaction. *)
Definition bufferedWrite (tx : Tx) (key : bytes) : option txEntry :=
  if tx_readOnly tx then None else tx_writes tx ≫= (fun w => w !! key).

Section tx_operations.
(** [Engine.GetByVersion]. *)
Context (getByVersion : bytes -> Z -> result bytes).

Definition Tx_Get (tx : Tx) (key : bytes) : result bytes * Tx :=
  if tx_closed tx then (Fail ErrTxnClosed, tx)
  else
    match bufferedWrite tx key with
    | Some entry =>
        if te_deleted entry then (Fail ErrKeyNotFound, tx) else (Ok (te_value entry), tx)
    | None =>
        (getByVersion key (tx_readTs tx),
         mkTx (tx_readOnly tx) (tx_closed tx) (tx_readTs tx) (tx_writes tx) ({[key]} ∪ tx_readSet tx))
    end.
End tx_operations.

Definition buffer (tx : Tx) (key : bytes) (e : txEntry) : Tx :=
  mkTx (tx_readOnly tx) (tx_closed tx) (tx_readTs tx) (Some (<[key := e]> (default ∅ (tx_writes tx))))
    (tx_readSet tx).

Definition Tx_SetEx (now : Z) (tx : Tx) (key val : bytes) (ttlSeconds : Z) : option err * Tx :=
  if tx_closed tx then (Some ErrTxnClosed, tx)
  else if tx_readOnly tx then (Some ErrTxnReadOnly, tx)
  else
    let exp := if 0 <? ttlSeconds then i64 (now + ttlSeconds) else 0 in
    (None, buffer tx key (mkTxEntry val exp false)).

Definition Tx_Set (now : Z) (tx : Tx) (key val : bytes) : option err * Tx := Tx_SetEx now tx key val 0.

Definition Tx_Delete (tx : Tx) (key : bytes) : option err * Tx :=
  if tx_closed tx then (Some ErrTxnClosed, tx)
  else if tx_readOnly tx then (Some ErrTxnReadOnly, tx)
  else (None, buffer tx key (mkTxEntry [] 0 true)).

(** The entries of a commit; the order of the Go map is not specified. *)
Definition batchEntries (writes : gmap bytes txEntry) (version : Z) : list Entry :=
  (fun '(k, te) => mkEntry k (te_value te) (te_deleted te) (te_expiresAt te) version)
    <$> map_to_list writes.

Definition Tx_rollback (tx : Tx) (o : Oracle) : Tx * Oracle :=
  (mkTx (tx_readOnly tx) true (tx_readTs tx) None ∅,
   if tx_closed tx then o else Oracle_Done o (tx_readTs tx)).

(** What [commit] and [CommitAt] have decided when they give up the lock. *)
Inductive commitOutcome :=
  | CommitReturn (res : option err) (tx : Tx) (o : Oracle)
  | CommitEnqueue (ts : Z) (tx : Tx) (o : Oracle).

Section commit.
Context (xxhash : bytes -> Z).

Definition commitCheck (tx : Tx) (o : Oracle) : commitOutcome :=
  if tx_closed tx || tx_readOnly tx then CommitReturn None tx o
  else
    let tx' := set_closed tx in
    let w := default ∅ (tx_writes tx) in
    if bool_decide (w = ∅) then CommitReturn None tx' (Oracle_Done o (tx_readTs tx))
    else
      match CheckAndCommit xxhash o (tx_readTs tx) (tx_readSet tx) (dom w) with
      | (Fail e, o1) => CommitReturn (Some e) tx' (Oracle_Done o1 (tx_readTs tx))
      | (Ok ts, o1) => CommitEnqueue ts tx' (ReserveVersion o1 ts)
      end.

Definition commitFinish (tx : Tx) (ts : Z) (res : option err) (o : Oracle) : Oracle :=
  let o1 := match res with Some _ => Oracle_AbortCommit o ts | None => o end in
  Oracle_Done o1 (tx_readTs tx).

(** [CommitAt] with its externally chosen timestamp skips the check. *)
Definition commitAtPrepare (tx : Tx) (ts : Z) (o : Oracle) : commitOutcome :=
  if tx_closed tx then CommitReturn (Some ErrTxnClosed) tx o
  else
    let tx' := set_closed tx in
    if tx_readOnly tx then CommitReturn None tx' (Oracle_Done o (tx_readTs tx))
    else
      let w := default ∅ (tx_writes tx) in
      if bool_decide (w = ∅) then CommitReturn None tx' (Oracle_Done o (tx_readTs tx))
      else CommitEnqueue ts tx' (ReserveVersion (RecordCommitted xxhash (Bump o ts) ts (dom w)) ts).

(** [submit]: what the write pipeline does with a batch before it answers. *)
Context (submit : list Entry -> Z -> Oracle -> option err * Oracle).

Definition Tx_commit (tx : Tx) (o : Oracle) : option err * Tx * Oracle :=
  match commitCheck tx o with
  | CommitReturn res tx' o' => (res, tx', o')
  | CommitEnqueue ts tx' o' =>
      let '(res, o'') := submit (batchEntries (default ∅ (tx_writes tx)) ts) ts o' in
      (res, tx', commitFinish tx ts res o'')
  end.

(** [View] and [Update] with the caller's function [fn]. *)
Definition View (fn : Tx -> option err * Tx) (o : Oracle) : option err * Oracle :=
  let '(readTs, o1) := NewReadTs o in
  let '(res, tx) := fn (beginTx true readTs) in
  (res, (Tx_rollback tx o1).2).

Definition Update (fn : Tx -> option err * Tx) (o : Oracle) : option err * Oracle :=
  let '(readTs, o1) := NewReadTs o in
  match fn (beginTx false readTs) with
  | (Some e, tx) => (Some e, (Tx_rollback tx o1).2)
  | (None, tx) =>
      let '(res, tx', o2) := Tx_commit tx o1 in
      (res, (Tx_rollback tx' o2).2)
  end.
End commit.

(** ** Read-your-own-writes *)

Lemma bufferedWrite_buffer tx key e :
  tx_readOnly tx = false -> bufferedWrite (buffer tx key e) key = Some e.
Proof. intros H. unfold bufferedWrite, buffer. simpl. rewrite H. simpl. apply lookup_insert_eq. Qed.

Lemma bufferedWrite_buffer_ne tx key key' e :
  key <> key' -> tx_writes tx <> None ->
  bufferedWrite (buffer tx key e) key' = bufferedWrite tx key'.
Proof.
  intros Hne Hw. unfold bufferedWrite, buffer. simpl. case_if; [done|].
  destruct (tx_writes tx); [simpl; by apply lookup_insert_ne|done].
Qed.

(** A buffered operation of a transaction, and running a list of them. *)
Inductive txOp :=
  | OpSetEx (key val : bytes) (ttl : Z)
  | OpDelete (key : bytes).

Definition opKey (op : txOp) : bytes := match op with OpSetEx k _ _ => k | OpDelete k => k end.

Definition runOp (now : Z) (tx : Tx) (op : txOp) : Tx :=
  match op with
  | OpSetEx k v ttl => (Tx_SetEx now tx k v ttl).2
  | OpDelete k => (Tx_Delete tx k).2
  end.

Definition opResult (op : txOp) : result bytes :=
  match op with OpSetEx _ v _ => Ok v | OpDelete _ => Fail ErrKeyNotFound end.

Lemma runOp_open now tx op :
  tx_closed tx = false -> tx_readOnly tx = false ->
  tx_closed (runOp now tx op) = false /\ tx_readOnly (runOp now tx op) = false /\
  tx_readTs (runOp now tx op) = tx_readTs tx /\ tx_readSet (runOp now tx op) = tx_readSet tx /\
  exists te, tx_writes (runOp now tx op) = Some (<[opKey op := te]> (default ∅ (tx_writes tx))) /\
    (if te_deleted te then Fail ErrKeyNotFound else Ok (te_value te)) = opResult op.
Proof.
  intros Hc Hr. destruct op; simpl; unfold Tx_SetEx, Tx_Delete; rewrite Hc, Hr; simpl; eauto 10.
Qed.

Lemma runOps_open now ops tx :
  tx_closed tx = false -> tx_readOnly tx = false ->
  let tx' := foldl (runOp now) tx ops in
  tx_closed tx' = false /\ tx_readOnly tx' = false /\ tx_readTs tx' = tx_readTs tx /\
  tx_readSet tx' = tx_readSet tx.
Proof.
  revert tx. induction ops as [|op ops IH]; intros tx Hc Hr; [done|]. simpl.
  destruct (runOp_open now tx op Hc Hr) as (Hc1 & Hr1 & Ht & Hs & _).
  destruct (IH _ Hc1 Hr1) as (? & ? & ? & ?). repeat split; congruence.
Qed.

(** The buffer holds the last operation on each key. *)
Lemma runOps_buffer now r ops key :
  match last (filter (fun op => opKey op = key) ops) with
  | Some op => exists te, bufferedWrite (foldl (runOp now) (beginTx false r) ops) key = Some te /\
      (if te_deleted te then Fail ErrKeyNotFound else Ok (te_value te)) = opResult op
  | None => bufferedWrite (foldl (runOp now) (beginTx false r) ops) key = None
  end.
Proof.
  induction ops as [|op ops IH] using rev_ind; [done|].
  destruct (runOps_open now ops (beginTx false r) eq_refl eq_refl) as (Hc1 & Hr1 & _).
  rewrite foldl_snoc, filter_app, filter_cons. set (t1 := foldl _ _ ops) in *.
  destruct (runOp_open now t1 op Hc1 Hr1) as (_ & Hr2 & _ & _ & te & Hw & Hres).
  unfold bufferedWrite in *. rewrite Hr2, Hw. rewrite Hr1 in IH. simpl. case_decide as Hk.
  - rewrite filter_nil, last_snoc, <- Hk, lookup_insert_eq. eauto.
  - rewrite filter_nil, app_nil_r, lookup_insert_ne by done. by destruct (tx_writes t1).
Qed.

(** Read your own writes.  After any sequence of buffered [Set], [SetEx]
    and [Delete] calls in an update transaction, [Get] answers from the last
    call on that key without touching the database or the read set; a key the
    transaction has not written is read at the snapshot timestamp and joins
    the read set. *)
Theorem Tx_Get_own_writes db now r ops key :
  let tx := foldl (runOp now) (beginTx false r) ops in
  Tx_Get db tx key =
    match last (filter (fun op => opKey op = key) ops) with
    | Some op => (opResult op, tx)
    | None => (db key r, mkTx false false r (tx_writes tx) {[key]})
    end.
Proof.
  intros tx. destruct (runOps_open now ops (beginTx false r) eq_refl eq_refl) as (Hc & Hr & Ht & Hs).
  pose proof (runOps_buffer now r ops key) as Hb. fold tx in Hc, Hr, Ht, Hs, Hb.
  unfold Tx_Get. rewrite Hc. destruct (last _) as [op|].
  - destruct Hb as (te & -> & <-). by destruct (te_deleted te).
  - rewrite Hb, Hr, Ht, Hs. simpl. by rewrite union_empty_r_L.
Qed.

(** ** Releasing the snapshot *)

Section release.
Context (xxhash : bytes -> Z) (submit : list Entry -> Z -> Oracle -> option err * Oracle).

(** The write pipeline keeps the oracle consistent and opens no snapshot. *)
Hypothesis submit_inv : forall es ts o lv log, oracle_inv o lv log ->
  exists log', oracle_inv (submit es ts o).2 lv log'.

(** The caller's function uses the handle it was given. *)
Definition fn_ok (fn : Tx -> option err * Tx) : Prop :=
  forall tx, tx_closed tx = false ->
    tx_closed (fn tx).2 = false /\ tx_readTs (fn tx).2 = tx_readTs tx /\
    tx_readOnly (fn tx).2 = tx_readOnly tx.

Lemma Tx_commit_release tx o r lv log :
  oracle_inv o (r :: lv) log -> nextTs o + 1 < max_u64 ->
  tx_closed tx = false -> tx_readOnly tx = false -> tx_readTs tx = r ->
  tx_closed (Tx_commit xxhash submit tx o).1.2 = true /\
  exists log', oracle_inv (Tx_commit xxhash submit tx o).2 lv log'.
Proof.
  intros Ho Hn Hc Hro <-. unfold Tx_commit, commitCheck. rewrite Hc, Hro. simpl.
  destruct (bool_decide _); [split; [done|]; exists log; by apply (Oracle_Done_inv _ [])|].
  unfold CheckAndCommit.
  edestruct (checkAndCommitInternal_spec o _ _ (tx_readTs tx) (fingerprints xxhash (tx_readSet tx))
    (fingerprints xxhash (dom (default ∅ (tx_writes tx)))) Ho) as [[_ ->]|(_ & o1 & -> & Ho1 & _)];
    [by left|done|split; [done|]; exists log; by apply (Oracle_Done_inv _ [])|].
  apply (ReserveVersion_inv _ _ _ (nextTs o + 1)) in Ho1; [|done].
  destruct (submit_inv (batchEntries (default ∅ (tx_writes tx)) (nextTs o + 1)) (nextTs o + 1) _ _ _ Ho1)
    as [log2 Ho2].
  destruct (submit _ _ _) as [res o2]. simpl in *. split; [done|]. unfold commitFinish.
  destruct res as [e|]; eexists; apply (Oracle_Done_inv _ []);
    [by apply Oracle_AbortCommit_inv|done].
Qed.

(** [Update] and [View] release exactly the snapshot they opened: whatever
    the caller's function returns and whatever the commit does (empty write
    set, conflict, write failure, success), the watermark afterwards tracks
    the same read timestamps as before, so the minimum read timestamp is
    neither held back for ever nor raised over another reader. *)
Theorem Update_View_release fn o lv log :
  oracle_inv o lv log -> nextTs o + 1 < max_u64 -> fn_ok fn ->
  tracks (watermark (Update xxhash submit fn o).2) lv /\ tracks (watermark (View fn o).2) lv.
Proof.
  intros Ho Hn Hfn. destruct (NewReadTs_inv _ _ _ Ho) as [_ Ho1].
  assert (forall tx, tx_closed tx = false -> tx_readTs tx = (NewReadTs o).1 ->
    oracle_inv (Tx_rollback tx (NewReadTs o).2).2 lv log) as Hrb.
  { intros tx Hc Hr. unfold Tx_rollback. rewrite Hc, Hr. by apply (Oracle_Done_inv _ []). }
  split.
  - unfold Update. destruct (NewReadTs o) as [r o1] eqn:Er. simpl in *.
    assert (nextTs o1 = nextTs o) as Hn1 by (unfold NewReadTs in Er; by injection Er as _ <-).
    destruct (Hfn (beginTx false r) eq_refl) as (Hc & Ht & Hro).
    destruct (fn (beginTx false r)) as [[e|] tx]; simpl in *; [by apply Hrb|].
    destruct (Tx_commit_release tx o1 r lv log Ho1) as [Hcl [log' Ho2]]; try done; [lia|].
    destruct (Tx_commit xxhash submit tx o1) as [[res tx'] o2]. simpl in *.
    rewrite Hcl. apply Ho2.
  - unfold View. destruct (NewReadTs o) as [r o1]. simpl in *.
    destruct (Hfn (beginTx true r) eq_refl) as (Hc & Ht & Hro).
    destruct (fn (beginTx true r)) as [res tx]. simpl in *. by apply Hrb.
Qed.
End release.

(** A writer that always succeeds. *)
Lemma Update_View_release_witness :
  let submit := fun (_ : list Entry) (ts : Z) (o : Oracle) => (@None err, MarkApplied o ts) in
  let fn := fun tx => Tx_Set 0 tx [97] [1] in
  tracks (watermark (Update be_decode submit fn newOracle).2) [] /\
  tracks (watermark (View fn newOracle).2) [].
Proof.
  intros submit fn. apply (Update_View_release be_decode submit) with (log := []).
  - intros es ts o lv log Ho. exists log. by apply MarkApplied_inv.
  - apply newOracle_inv.
  - reflexivity.
  - intros tx Hc. unfold fn, Tx_Set, Tx_SetEx. rewrite Hc. by destruct (tx_readOnly tx) eqn:E.
Defined.

(** [NewTransactionAt] does not register its read timestamp, but finishing
    the transaction releases one: another reader at the same timestamp loses
    its registration and the watermark passes it. *)
Example NewTransactionAt_steals :
  let o1 := (NewReadTs (Bump newOracle 5)).2 in
  let o2 := (Tx_rollback (NewTransactionAt 5 true) o1).2 in
  let o3 := Bump o2 9 in
  Oracle_MinReadTs (Bump o1 9) = 5 /\ Oracle_MinReadTs o3 = 9.
Proof. by vm_compute. Qed.

(** ** The system: transactions and the write pipeline, interleaved

    The store is the list of applied entries; [snapshot_get] is its read
    contract.  A transaction that passed the check is [Waiting] until the
    writer either applies its batch and marks the timestamp applied, or gives
    up (marking it applied as [dispatch] does on every path) and lets the
    committer abort. *)

Inductive phase :=
  | Running
  | Waiting (ts : Z)
  | Applied (ts : Z)
  | Marked (ts : Z)
  | Failed (ts : Z).

(** An open transaction with the versions its reads returned. *)
Record txState := mkTxState {
  ts_tx : Tx;
  ts_obs : list (bytes * option Entry);
  ts_phase : phase
}.

(** A committed transaction, as the theorems talk about it. *)
Record commit := mkCommit {
  c_ts : Z;
  c_readTs : Z;
  c_obs : list (bytes * option Entry);
  c_writes : gmap bytes txEntry
}.

Record sys := mkSys {
  s_orc : Oracle;
  s_txs : list txState;
  s_store : list Entry;
  s_commits : list commit
}.

Definition live (s : sys) : list Z := (fun t => tx_readTs (ts_tx t)) <$> s_txs s.

Definition initSys : sys := mkSys newOracle [] [] [].

Definition not_c_ts (ts : Z) (c : commit) : Prop := c_ts c <> ts.

#[export] Instance not_c_ts_dec ts c : Decision (not_c_ts ts c).
Proof. unfold not_c_ts. apply _. Defined.

(** What [GetByVersion] of such a store answers at a time. *)
Definition storeGet (st : list Entry) (now : Z) (key : bytes) (maxVersion : Z) : result bytes :=
  match interpret now (snapshot_get st key maxVersion) with Found v _ => Ok v | _ => Fail ErrKeyNotFound end.

Section system.
Context (xxhash : bytes -> Z).

Inductive step : sys -> sys -> Prop :=
  | step_begin ro o txs st cs :
      step (mkSys o txs st cs)
           (mkSys (NewReadTs o).2 (mkTxState (beginTx ro (NewReadTs o).1) [] Running :: txs) st cs)
  | step_get_buffered o l1 tx obs l2 st cs key e :
      tx_closed tx = false -> bufferedWrite tx key = Some e ->
      step (mkSys o (l1 ++ mkTxState tx obs Running :: l2) st cs)
           (mkSys o (l1 ++ mkTxState tx obs Running :: l2) st cs)
  | step_get o l1 tx obs l2 st cs key now :
      tx_closed tx = false -> bufferedWrite tx key = None ->
      let e := snapshot_get st key (tx_readTs tx) in
      step (mkSys o (l1 ++ mkTxState tx obs Running :: l2) st cs)
           (mkSys o (l1 ++ mkTxState (Tx_Get (storeGet st now) tx key).2 ((key, e) :: obs) Running :: l2) st cs)
  | step_set o l1 tx obs l2 st cs now key val ttl :
      step (mkSys o (l1 ++ mkTxState tx obs Running :: l2) st cs)
           (mkSys o (l1 ++ mkTxState (Tx_SetEx now tx key val ttl).2 obs Running :: l2) st cs)
  | step_delete o l1 tx obs l2 st cs key :
      step (mkSys o (l1 ++ mkTxState tx obs Running :: l2) st cs)
           (mkSys o (l1 ++ mkTxState (Tx_Delete tx key).2 obs Running :: l2) st cs)
  | step_rollback o l1 tx obs l2 st cs :
      tx_closed tx = false ->
      step (mkSys o (l1 ++ mkTxState tx obs Running :: l2) st cs)
           (mkSys (Tx_rollback tx o).2 (l1 ++ l2) st cs)
  | step_commit_return o l1 tx obs l2 st cs res tx' o' :
      tx_readOnly tx = false -> tx_closed tx = false -> nextTs o + 1 < max_u64 ->
      commitCheck xxhash tx o = CommitReturn res tx' o' ->
      step (mkSys o (l1 ++ mkTxState tx obs Running :: l2) st cs)
           (mkSys o' (l1 ++ l2) st cs)
  | step_commit_enqueue o l1 tx obs l2 st cs ts tx' o' :
      nextTs o + 1 < max_u64 ->
      commitCheck xxhash tx o = CommitEnqueue ts tx' o' ->
      step (mkSys o (l1 ++ mkTxState tx obs Running :: l2) st cs)
           (mkSys o' (l1 ++ mkTxState tx' obs (Waiting ts) :: l2) st
              (cs ++ [mkCommit ts (tx_readTs tx) obs (default ∅ (tx_writes tx))]))
  | step_apply o l1 tx obs ts l2 st cs :
      step (mkSys o (l1 ++ mkTxState tx obs (Waiting ts) :: l2) st cs)
           (mkSys o (l1 ++ mkTxState tx obs (Applied ts) :: l2)
              (st ++ batchEntries (default ∅ (tx_writes tx)) ts) cs)
  | step_mark o l1 tx obs ts l2 st cs :
      step (mkSys o (l1 ++ mkTxState tx obs (Applied ts) :: l2) st cs)
           (mkSys (MarkApplied o ts) (l1 ++ mkTxState tx obs (Marked ts) :: l2) st cs)
  | step_fail o l1 tx obs ts l2 st cs :
      step (mkSys o (l1 ++ mkTxState tx obs (Waiting ts) :: l2) st cs)
           (mkSys (MarkApplied o ts) (l1 ++ mkTxState tx obs (Failed ts) :: l2) st
              (filter (not_c_ts ts) cs))
  | step_finish o l1 tx obs ts l2 st cs :
      step (mkSys o (l1 ++ mkTxState tx obs (Marked ts) :: l2) st cs)
           (mkSys (commitFinish tx ts None o) (l1 ++ l2) st cs)
  | step_finish_err o l1 tx obs ts l2 st cs e :
      step (mkSys o (l1 ++ mkTxState tx obs (Failed ts) :: l2) st cs)
           (mkSys (commitFinish tx ts (Some e) o) (l1 ++ l2) st cs)
  | step_begin_read o txs st cs :
      step (mkSys o txs st cs) (mkSys (BeginRead o).2 txs st cs)
  | step_done_read o txs st cs ts :
      step (mkSys o txs st cs) (mkSys (DoneRead o ts) txs st cs).

Inductive reachable : sys -> Prop :=
  | reach_init : reachable initSys
  | reach_step s s' : reachable s -> step s s' -> reachable s'.
End system.

(** The state that running [cs] one after the other leaves. *)
Definition commitMap (c : commit) : gmap bytes Entry :=
  map_imap (fun k te => Some (mkEntry k (te_value te) (te_deleted te) (te_expiresAt te) (c_ts c)))
    (c_writes c).

Definition replay (cs : list commit) : gmap bytes Entry :=
  foldl (fun m c => commitMap c ∪ m) ∅ cs.

(** All entries of a list of commits. *)
Definition allEntries (cs : list commit) : list Entry :=
  cs ≫= (fun c => batchEntries (c_writes c) (c_ts c)).

(** ** Entries of commits *)

Lemma elem_of_batchEntries w ts e :
  e ∈ batchEntries w ts <->
  exists te, w !! Key e = Some te /\ e = mkEntry (Key e) (te_value te) (te_deleted te) (te_expiresAt te) ts.
Proof.
  unfold batchEntries. rewrite list_elem_of_fmap. split.
  - intros ([k te] & -> & Hk). apply elem_of_map_to_list in Hk. simpl. eauto.
  - intros (te & Hk & He). exists (Key e, te). split; [done|]. by apply elem_of_map_to_list.
Qed.

Lemma batchEntries_version w ts e : e ∈ batchEntries w ts -> Version e = ts.
Proof. intros (te & _ & ->)%elem_of_batchEntries. done. Qed.

Lemma elem_of_allEntries cs e :
  e ∈ allEntries cs <-> exists c, c ∈ cs /\ e ∈ batchEntries (c_writes c) (c_ts c).
Proof. unfold allEntries. rewrite list_elem_of_bind. naive_solver. Qed.

Lemma allEntries_unique cs : NoDup (c_ts <$> cs) -> versions_unique (allEntries cs).
Proof.
  intros Hnd a b (c1 & Hc1 & Ha)%elem_of_allEntries (c2 & Hc2 & Hb)%elem_of_allEntries Hk Hv.
  rewrite (batchEntries_version _ _ _ Ha), (batchEntries_version _ _ _ Hb) in Hv.
  assert (c1 = c2) as <-.
  { apply list_elem_of_lookup in Hc1 as [i Hi]. apply list_elem_of_lookup in Hc2 as [j Hj].
    assert (i = j) as <- by (eapply NoDup_lookup;
      [exact Hnd|rewrite list_lookup_fmap, Hi; done|rewrite list_lookup_fmap, Hj; simpl; congruence]).
    congruence. }
  apply elem_of_batchEntries in Ha as (te1 & Hw1 & ->). apply elem_of_batchEntries in Hb as (te2 & Hw2 & ->).
  simpl in *. subst. congruence.
Qed.

Lemma snapshot_get_app_above st new key r :
  (forall e, e ∈ new -> r < Version e) -> snapshot_get (st ++ new) key r = snapshot_get st key r.
Proof.
  intros H. rewrite snapshot_get_app, (proj2 (snapshot_get_None new key r)).
  - by destruct (snapshot_get st key r).
  - auto.
Qed.

(** Commits above the read timestamp do not change what it sees. *)
Lemma snapshot_get_commits cs cs' key r :
  NoDup (c_ts <$> cs') -> (forall c, c_ts c <= r -> c ∈ cs <-> c ∈ cs') ->
  snapshot_get (allEntries cs) key r = snapshot_get (allEntries cs') key r.
Proof.
  intros Hnd H. apply snapshot_get_ext; [by apply allEntries_unique|].
  intros e _. rewrite !elem_of_allEntries. split; intros [(c & Hc & He) Hv];
    pose proof (batchEntries_version _ _ _ He); split; try done;
    exists c; (split; [apply H; [lia|done]|done]).
Qed.

(** *** Serial order *)

Definition serial (cs : list commit) : Prop :=
  forall pre c post, cs = pre ++ c :: post -> forall c', c' ∈ pre -> c_ts c' < c_ts c.

Lemma commitMap_lookup c k :
  commitMap c !! k =
    (fun te => mkEntry k (te_value te) (te_deleted te) (te_expiresAt te) (c_ts c)) <$> c_writes c !! k.
Proof. unfold commitMap. rewrite map_lookup_imap. by destruct (c_writes c !! k). Qed.

Lemma replay_snoc cs c : replay (cs ++ [c]) = commitMap c ∪ replay cs.
Proof. unfold replay. by rewrite foldl_app. Qed.

Lemma serial_snoc cs c : serial (cs ++ [c]) <-> serial cs /\ forall c', c' ∈ cs -> c_ts c' < c_ts c.
Proof.
  split.
  - intros Hs. split.
    + intros pre c1 post -> c' Hc'. apply (Hs pre c1 (post ++ [c])); [by rewrite <- app_assoc|done].
    + intros c' Hc'. by apply (Hs cs c []).
  - intros [Hs Hc] pre c1 post Heq c' Hc'.
    destruct post as [|c2 post] using rev_ind.
    + apply app_inj_tail in Heq as [<- <-]. auto.
    + rewrite app_comm_cons, app_assoc in Heq. apply app_inj_tail in Heq as [-> _].
      by apply (Hs pre c1 post).
Qed.

Lemma snapshot_get_batch w ts k v te :
  w !! k = Some te -> ts <= v ->
  snapshot_get (batchEntries w ts) k v =
    Some (mkEntry k (te_value te) (te_deleted te) (te_expiresAt te) ts).
Proof.
  intros Hk Hv. destruct (snapshot_get (batchEntries w ts) k v) as [e'|] eqn:E.
  - apply snapshot_get_Some in E as (He & Hke & _).
    apply elem_of_batchEntries in He as (te' & Hk' & He). rewrite Hke in Hk', He. congruence.
  - pose proof (proj1 (snapshot_get_None _ _ _) E) as Hno.
    assert (v < ts); [|lia]. eapply (Hno (mkEntry k _ _ _ ts)); [|done].
    apply elem_of_batchEntries. exists te. by split.
Qed.

(** A serial replay holds, per key, the newest entry of its commits. *)
Lemma replay_snapshot cs k v :
  serial cs -> (forall c, c ∈ cs -> c_ts c <= v) -> replay cs !! k = snapshot_get (allEntries cs) k v.
Proof.
  induction cs as [|c cs IH] using rev_ind; intros Hs Hv; [done|].
  apply serial_snoc in Hs as [Hs Hlt].
  rewrite replay_snoc, lookup_union, commitMap_lookup.
  rewrite IH by (try done; intros; apply Hv, elem_of_app; auto).
  unfold allEntries. rewrite bind_app. fold (allEntries cs). simpl. rewrite app_nil_r.
  rewrite snapshot_get_app. destruct (c_writes c !! k) as [te|] eqn:Hk; simpl.
  - set (e := mkEntry k (te_value te) (te_deleted te) (te_expiresAt te) (c_ts c)).
    rewrite (snapshot_get_batch _ _ _ _ _ Hk)
      by (apply Hv, elem_of_app; right; by apply list_elem_of_singleton). fold e.
    destruct (snapshot_get (allEntries cs) k v) as [a|] eqn:E; simpl; [|done].
    apply snapshot_get_Some in E as (Ha & _).
    apply elem_of_allEntries in Ha as (c' & Hc' & Ha). rewrite (batchEntries_version _ _ _ Ha).
    specialize (Hlt c' Hc'). rewrite (proj2 (Z.ltb_lt _ _)) by done. done.
  - rewrite (proj2 (snapshot_get_None (batchEntries _ _) k v)).
    + by destruct (snapshot_get (allEntries cs) k v).
    + intros e (te & Hke & _)%elem_of_batchEntries <-. congruence.
Qed.

Lemma serial_NoDup cs : serial cs -> NoDup (c_ts <$> cs).
Proof.
  induction cs as [|c cs IH] using rev_ind; intros Hs; [apply NoDup_nil_2|].
  apply serial_snoc in Hs as [Hs Hlt]. rewrite fmap_app. apply NoDup_app.
  split; [by apply IH|]. split; [|apply NoDup_singleton].
  intros x (c' & -> & Hc')%list_elem_of_fmap. specialize (Hlt c' Hc'). simpl.
  rewrite list_elem_of_singleton. lia.
Qed.

Lemma serial_filter (P : commit -> Prop) `{!forall c, Decision (P c)} cs :
  serial cs -> serial (filter P cs).
Proof.
  induction cs as [|c cs IH] using rev_ind; intros Hs; [done|].
  apply serial_snoc in Hs as [Hs Hlt]. rewrite filter_app, filter_cons.
  case_decide; simpl; rewrite ?app_nil_r; [|auto].
  apply serial_snoc. split; [auto|]. intros c' [_ Hc']%list_elem_of_filter. auto.
Qed.

(** ** The invariant of the system *)

Definition phaseTs (t : txState) : option Z :=
  match ts_phase t with
  | Running => None
  | Waiting ts | Applied ts | Marked ts | Failed ts => Some ts
  end.

(** The part that does not mention the oracle's bookkeeping; [a], [n] and [aw]
    are its applied timestamp, its clock and the pending timestamps. *)
Record data_inv (a n : Z) (aw : gset Z) (txs : list txState) (st : list Entry)
    (cs : list commit) : Prop := {
  di_serial : serial cs;
  di_store : forall e, e ∈ st -> e ∈ allEntries cs;
  di_commits : forall c, c ∈ cs ->
    c_ts c <= n /\ c_readTs c <= a /\ c_readTs c < c_ts c /\
    (c_ts c ∈ aw \/ forall e, e ∈ batchEntries (c_writes c) (c_ts c) -> e ∈ st);
  di_cobs : forall c k e, c ∈ cs -> (k, e) ∈ c_obs c ->
    e = snapshot_get (allEntries cs) k (c_readTs c) /\
    forall c', c' ∈ cs -> c_readTs c < c_ts c' < c_ts c -> k ∉ dom (c_writes c');
  di_obs : forall t k e, t ∈ txs -> (k, e) ∈ ts_obs t ->
    e = snapshot_get st k (tx_readTs (ts_tx t)) /\ k ∈ tx_readSet (ts_tx t);
  di_inflight : NoDup (omap phaseTs txs) /\ forall x, x ∈ omap phaseTs txs -> x <= n;
  di_waiting : forall t ts, t ∈ txs -> ts_phase t = Waiting ts ->
    ts ∈ aw /\ (forall e, e ∈ st -> Version e <> ts) /\
    exists c, c ∈ cs /\ c_ts c = ts /\ c_writes c = default ∅ (tx_writes (ts_tx t));
  di_applied : forall t ts, t ∈ txs -> ts_phase t = Applied ts ->
    forall c, c ∈ cs -> c_ts c = ts -> forall e, e ∈ batchEntries (c_writes c) ts -> e ∈ st;
  di_failed : forall t ts, t ∈ txs -> ts_phase t = Failed ts -> forall c, c ∈ cs -> c_ts c <> ts
}.

Section proof.
Context (xxhash : bytes -> Z).

(** Every commit is known to the conflict history. *)
Definition logged (olog : list committedTxn) (cs : list commit) : Prop :=
  forall c, c ∈ cs -> exists t, t ∈ olog /\ commitTs t = c_ts c /\
    forall k, k ∈ dom (c_writes c) -> xxhash k ∈ writes t.

Definition sys_inv (s : sys) : Prop :=
  exists olog, oracle_inv (s_orc s) (live s) olog /\ logged olog (s_commits s) /\
    data_inv (appliedTs (s_orc s)) (nextTs (s_orc s)) (awaiting (s_orc s))
      (s_txs s) (s_store s) (s_commits s).

Lemma data_mono a n aw a' n' aw' txs st cs :
  data_inv a n aw txs st cs -> a <= a' -> n <= n' -> aw ⊆ aw' -> data_inv a' n' aw' txs st cs.
Proof.
  intros [] Ha Hn Haw. split; auto.
  - intros c Hc. destruct (di_commits0 c Hc) as (? & ? & ? & [?|?]); repeat split; try lia; [left|right]; auto.
  - destruct di_inflight0 as [? Hx]. split; [done|]. intros x Hin. specialize (Hx x Hin). lia.
  - intros t ts Ht Hp. destruct (di_waiting0 t ts Ht Hp) as (? & ? & ?). auto.
Qed.

(** A timestamp nobody waits for may leave the pending set. *)
Lemma data_remove a n aw ts txs st cs :
  data_inv a n aw txs st cs ->
  (forall t, t ∈ txs -> ts_phase t <> Waiting ts) ->
  (forall c, c ∈ cs -> c_ts c = ts -> forall e, e ∈ batchEntries (c_writes c) ts -> e ∈ st) ->
  data_inv a n (aw ∖ {[ts]}) txs st cs.
Proof.
  intros [] Hw Hc. split; auto.
  - intros c Hin. destruct (di_commits0 c Hin) as (? & ? & ? & [?|?]); repeat split; try lia; [|by right].
    destruct (decide (c_ts c = ts)) as [<-|]; [right; eauto|left; set_solver].
  - intros t ts' Ht Hp. destruct (di_waiting0 t ts' Ht Hp) as (? & ? & ?).
    assert (ts' <> ts) by (intros ->; by apply (Hw t)). split; [set_solver|auto].
Qed.

(** Dropping an open transaction. *)
Lemma data_drop a n aw l1 t l2 st cs :
  data_inv a n aw (l1 ++ t :: l2) st cs -> data_inv a n aw (l1 ++ l2) st cs.
Proof.
  intros []. assert (forall x, x ∈ l1 ++ l2 -> x ∈ l1 ++ t :: l2) as Hin.
  { intros x. rewrite !elem_of_app, elem_of_cons. naive_solver. }
  assert (omap phaseTs (l1 ++ l2) `sublist_of` omap phaseTs (l1 ++ t :: l2)) as Hsub.
  { rewrite !omap_app. apply sublist_app; [done|]. simpl. destruct (phaseTs t); [by constructor|done]. }
  split; auto; try (intros; eauto; fail).
  - destruct di_inflight0 as [Hnd Hx]. split; [by eapply sublist_NoDup|].
    intros x Hi. apply Hx. by eapply sublist_subseteq.
Qed.

(** Exchanging an open transaction for one in a phase that promises no more. *)
Lemma data_replace a n aw l1 t t' l2 st cs :
  data_inv a n aw (l1 ++ t :: l2) st cs ->
  phaseTs t' = phaseTs t ->
  (forall k e, (k, e) ∈ ts_obs t' ->
     e = snapshot_get st k (tx_readTs (ts_tx t')) /\ k ∈ tx_readSet (ts_tx t')) ->
  (forall ts, ts_phase t' <> Waiting ts) ->
  (forall ts, ts_phase t' = Applied ts -> ts_phase t = Applied ts) ->
  (forall ts, ts_phase t' = Failed ts -> ts_phase t = Failed ts \/ forall c, c ∈ cs -> c_ts c <> ts) ->
  data_inv a n aw (l1 ++ t' :: l2) st cs.
Proof.
  intros [] Hph Hobs Hw Hap Hf.
  assert (forall x, x ∈ l1 ++ t' :: l2 -> x = t' \/ x ∈ l1 ++ t :: l2) as Hin.
  { intros x. rewrite !elem_of_app, !elem_of_cons. naive_solver. }
  assert (t ∈ l1 ++ t :: l2) as Ht by (rewrite elem_of_app, elem_of_cons; naive_solver).
  split; auto.
  - intros x k e [->|Hx]%Hin; eauto.
  - rewrite omap_app in *. simpl in *. rewrite Hph. done.
  - intros x ts [->|Hx]%Hin Hp; [by destruct (Hw ts)|eauto].
  - intros x ts [->|Hx]%Hin Hp; eauto.
  - intros x ts [->|Hx]%Hin Hp; [destruct (Hf ts Hp); eauto|eauto].
Qed.

(** What the oracle's operations do to the three quantities [data_inv] sees. *)
Lemma MarkApplied_frame o lv log ts :
  oracle_inv o lv log ->
  appliedTs o <= appliedTs (MarkApplied o ts) /\ nextTs (MarkApplied o ts) = nextTs o /\
  awaiting o ∖ {[ts]} ⊆ awaiting (MarkApplied o ts).
Proof.
  intros Hi. assert (oracle_inv (set_awaiting o (awaiting o ∖ {[ts]})) lv log) as Hi1
    by (apply set_awaiting_inv; [done|set_solver]).
  destruct (advance_inv _ _ _ Hi1) as (_ & Ha & _). unfold MarkApplied.
  repeat case_match; simpl in *; (split; [done || lia|]); split; (done || set_solver).
Qed.

Lemma DoneRead_frame o lv log ts :
  oracle_inv o lv log ->
  appliedTs o <= appliedTs (DoneRead o ts) /\ nextTs (DoneRead o ts) = nextTs o /\
  awaiting (DoneRead o ts) = awaiting o.
Proof.
  intros Hi. assert (oracle_inv (set_readSeqs o (readSeqs (DoneRead o ts))) lv log) as Hi1 by (by destruct Hi).
  destruct (advance_inv _ _ _ Hi1) as (_ & Ha & _). split; [|done]. exact Ha.
Qed.

Lemma AbortCommit_frame o lv log ts :
  oracle_inv o lv log ->
  appliedTs o <= appliedTs (Oracle_AbortCommit o ts) /\ nextTs (Oracle_AbortCommit o ts) = nextTs o /\
  awaiting (Oracle_AbortCommit o ts) = awaiting o ∖ {[ts]}.
Proof.
  intros Hi. assert (oracle_inv (set_awaiting o (awaiting o ∖ {[ts]})) lv log) as Hi1
    by (apply set_awaiting_inv; [done|set_solver]).
  destruct (advance_inv _ _ _ Hi1) as (_ & Ha & _).
  unfold Oracle_AbortCommit. repeat case_match; simpl in *; auto.
Qed.

(** At or below the applied timestamp the store holds every commit. *)
Lemma store_snapshot a n aw txs st cs k r :
  data_inv a n aw txs st cs -> (forall x, x ∈ aw -> a < x) -> r <= a ->
  snapshot_get st k r = snapshot_get (allEntries cs) k r.
Proof.
  intros Hd Haw Hr. apply snapshot_get_ext; [by apply allEntries_unique, serial_NoDup, Hd|].
  intros e _. split; intros [He Hv]; (split; [|done]); [by eapply di_store|].
  apply elem_of_allEntries in He as (c & Hc & He).
  destruct (di_commits _ _ _ _ _ _ Hd c Hc) as (_ & _ & _ & [Hin|Hst]); [|auto].
  specialize (Haw _ Hin). rewrite (batchEntries_version _ _ _ He) in Hv. lia.
Qed.

Lemma inflight_middle l1 t l2 ts :
  NoDup (omap phaseTs (l1 ++ t :: l2)) -> phaseTs t = Some ts ->
  forall t', t' ∈ l1 ++ l2 -> phaseTs t' <> Some ts.
Proof.
  intros Hnd Ht t' Hin Hp. rewrite omap_app in Hnd. simpl in Hnd. rewrite Ht in Hnd.
  apply NoDup_app in Hnd as (_ & Hd & [Hn _]%NoDup_cons).
  assert (forall l, t' ∈ l -> ts ∈ omap phaseTs l) as Hom
    by (intros l Hl; apply list_elem_of_omap; eauto).
  apply elem_of_app in Hin as [Hin|Hin]; [|by auto].
  apply (Hd ts); [by auto|by left].
Qed.

Lemma allEntries_snoc cs c :
  allEntries (cs ++ [c]) = allEntries cs ++ batchEntries (c_writes c) (c_ts c).
Proof. unfold allEntries. rewrite bind_app. simpl. by rewrite app_nil_r. Qed.

(** Commits recorded later do not disturb an older snapshot. *)
Lemma snapshot_snoc cs c k r : r < c_ts c ->
  snapshot_get (allEntries (cs ++ [c])) k r = snapshot_get (allEntries cs) k r.
Proof.
  intros H. rewrite allEntries_snoc. apply snapshot_get_app_above.
  intros e He. by rewrite (batchEntries_version _ _ _ He).
Qed.

Lemma data_enqueue a n aw l1 tx obs l2 st cs :
  data_inv a n aw (l1 ++ mkTxState tx obs Running :: l2) st cs ->
  (forall x, x ∈ aw -> a < x) -> tx_readTs tx <= a <= n ->
  (forall k c, k ∈ tx_readSet tx -> c ∈ cs -> tx_readTs tx < c_ts c -> k ∉ dom (c_writes c)) ->
  data_inv a (n + 1) ({[n + 1]} ∪ aw)
    (l1 ++ mkTxState (set_closed tx) obs (Waiting (n + 1)) :: l2) st
    (cs ++ [mkCommit (n + 1) (tx_readTs tx) obs (default ∅ (tx_writes tx))]).
Proof.
  intros Hd Haw Hr Hrs. set (c0 := mkCommit _ _ _ _). set (t0 := mkTxState tx obs Running) in *.
  set (t' := mkTxState (set_closed tx) _ _).
  assert (t0 ∈ l1 ++ t0 :: l2) as Ht0 by (rewrite elem_of_app, elem_of_cons; naive_solver).
  assert (forall x, x ∈ l1 ++ t' :: l2 -> x = t' \/ x ∈ l1 ++ t0 :: l2) as Hin.
  { intros x. rewrite !elem_of_app, !elem_of_cons. naive_solver. }
  assert (forall c, c ∈ cs -> c_ts c <= n) as Hle by (intros c Hc; by apply Hd).
  assert (forall x ts, x ∈ l1 ++ t0 :: l2 -> phaseTs x = Some ts -> ts <= n) as Hfl.
  { intros x ts Hx Hp. apply (di_inflight _ _ _ _ _ _ Hd), list_elem_of_omap. eauto. }
  assert (forall c, c ∈ cs ++ [c0] -> c ∈ cs \/ c = c0) as Hcs.
  { intros c. by rewrite elem_of_app, list_elem_of_singleton. }
  split.
  - apply serial_snoc. split; [apply Hd|]. intros c Hc. specialize (Hle c Hc). simpl. lia.
  - intros e He. rewrite allEntries_snoc, elem_of_app. left. by eapply di_store.
  - intros c [Hc| ->]%Hcs; simpl.
    + destruct (di_commits _ _ _ _ _ _ Hd c Hc) as (? & ? & ? & [?|?]); repeat split; try lia;
        [left; set_solver|by right].
    + repeat split; try lia. left. set_solver.
  - intros c k e [Hc| ->]%Hcs Hobs.
    + destruct (di_cobs _ _ _ _ _ _ Hd c k e Hc Hobs) as [-> Hno].
      destruct (di_commits _ _ _ _ _ _ Hd c Hc) as (? & ? & ? & _).
      split; [symmetry; apply snapshot_snoc; simpl; lia|].
      intros c' [Hc'| ->]%Hcs; [auto|simpl; lia].
    + destruct (di_obs _ _ _ _ _ _ Hd _ k e Ht0 Hobs) as [He Hk]. simpl in He, Hk |- *.
      split; [|intros c' [Hc'| ->]%Hcs Hlt; [apply Hrs; [done|done|lia]|simpl in Hlt; lia]].
      rewrite He, snapshot_snoc by (simpl; lia). eapply store_snapshot; [done|done|lia].
  - intros x k e [->|Hx]%Hin; [apply (di_obs _ _ _ _ _ _ Hd _ k e Ht0)|by eapply di_obs].
  - destruct (di_inflight _ _ _ _ _ _ Hd) as [Hnd Hx]. rewrite omap_app in *. simpl in *.
    split; [rewrite <- Permutation_middle; apply NoDup_cons; split; [|done]; intros Hi%Hx; lia|].
    intros x. specialize (Hx x). rewrite elem_of_app, elem_of_cons in *. intros [?|[->|?]]; lia || (etrans; [apply Hx; auto|lia]).
  - intros x ts [->|Hx]%Hin; simpl.
    + intros [= <-]. split; [set_solver|]. split.
      * intros e (c & Hc & He)%(di_store _ _ _ _ _ _ Hd)%elem_of_allEntries Hv.
        rewrite (batchEntries_version _ _ _ He) in Hv. specialize (Hle c Hc). lia.
      * exists c0. split; [|done]. apply elem_of_app. right. by apply list_elem_of_singleton.
    + intros Hp. destruct (di_waiting _ _ _ _ _ _ Hd x ts Hx Hp) as (? & ? & c & ? & ? & ?).
      split; [set_solver|]. split; [done|]. exists c. split; [apply elem_of_app; auto|done].
  - intros x ts [->|Hx]%Hin Hp c [Hc| ->]%Hcs; try done; [by eapply di_applied|].
    simpl. intros <-. specialize (Hfl x (n + 1) Hx). unfold phaseTs in Hfl. rewrite Hp in Hfl.
    specialize (Hfl eq_refl). lia.
  - intros x ts [->|Hx]%Hin Hp c [Hc| ->]%Hcs; try done; [by eapply di_failed|].
    simpl. intros <-. specialize (Hfl x (n + 1) Hx). unfold phaseTs in Hfl. rewrite Hp in Hfl.
    specialize (Hfl eq_refl). lia.
Qed.

Lemma data_apply a n aw l1 tx obs ts l2 st cs :
  data_inv a n aw (l1 ++ mkTxState tx obs (Waiting ts) :: l2) st cs ->
  (forall x, x ∈ aw -> a < x) ->
  (forall t, t ∈ l1 ++ mkTxState tx obs (Waiting ts) :: l2 -> tx_readTs (ts_tx t) <= a) ->
  data_inv a n aw (l1 ++ mkTxState tx obs (Applied ts) :: l2)
    (st ++ batchEntries (default ∅ (tx_writes tx)) ts) cs.
Proof.
  intros Hd Haw Hr. set (t0 := mkTxState tx obs (Waiting ts)) in *. set (t' := mkTxState tx obs (Applied ts)).
  assert (t0 ∈ l1 ++ t0 :: l2) as Ht0 by (rewrite elem_of_app, elem_of_cons; naive_solver).
  assert (forall x, x ∈ l1 ++ t' :: l2 -> x = t' \/ x ∈ l1 ++ l2 /\ x ∈ l1 ++ t0 :: l2) as Hin.
  { intros x. rewrite !elem_of_app, !elem_of_cons. naive_solver. }
  destruct (di_waiting _ _ _ _ _ _ Hd t0 ts Ht0 eq_refl) as (Hts & Hfresh & c0 & Hc0 & Hcts & Hcw).
  simpl in Hcw. rewrite <- Hcw.
  pose proof (inflight_middle _ _ _ ts (proj1 (di_inflight _ _ _ _ _ _ Hd)) eq_refl) as Hne.
  assert (forall c, c ∈ cs -> c_ts c = ts -> c = c0) as Huniq.
  { intros c Hc Hct. pose proof (serial_NoDup _ (di_serial _ _ _ _ _ _ Hd)) as Hnd.
    apply list_elem_of_lookup in Hc as [i Hi]. apply list_elem_of_lookup in Hc0 as [j Hj].
    assert (i = j) as <- by (eapply NoDup_lookup;
      [exact Hnd|rewrite list_lookup_fmap, Hi; done|rewrite list_lookup_fmap, Hj; simpl; congruence]).
    congruence. }
  assert (forall e, e ∈ st -> e ∈ st ++ batchEntries (c_writes c0) ts) as Hst by (intros; apply elem_of_app; auto).
  split; try apply Hd.
  - intros e [He|He]%elem_of_app; [by eapply di_store|]. apply elem_of_allEntries.
    exists c0. by rewrite Hcts.
  - intros c Hc. destruct (di_commits _ _ _ _ _ _ Hd c Hc) as (? & ? & ? & [?|?]); repeat split; try lia; auto.
  - intros x k e Hx Hobs. rewrite snapshot_get_app_above.
    + destruct (Hin _ Hx) as [->|[_ Hx']]; [by apply (di_obs _ _ _ _ _ _ Hd t0)|by eapply di_obs].
    + intros e' ->%batchEntries_version. specialize (Haw _ Hts).
      destruct (Hin _ Hx) as [->|[_ Hx']]; [specialize (Hr _ Ht0)|specialize (Hr _ Hx')]; simpl in *; lia.
  - pose proof (di_inflight _ _ _ _ _ _ Hd) as Hi. rewrite omap_app in *. exact Hi.
  - intros x ts' Hx Hp. destruct (Hin _ Hx) as [->|[Hx1 Hx2]]; [done|].
    destruct (di_waiting _ _ _ _ _ _ Hd x ts' Hx2 Hp) as (? & Hf & ?). split; [done|]. split; [|done].
    intros e [He|He]%elem_of_app; [auto|]. rewrite (batchEntries_version _ _ _ He). intros <-.
    apply (Hne x Hx1). unfold phaseTs. by rewrite Hp.
  - intros x ts' Hx Hp c Hc Hct e He. destruct (Hin _ Hx) as [->|[_ Hx2]]; [|by eapply Hst, di_applied].
    simpl in Hp. injection Hp as <-. apply elem_of_app. right. by rewrite (Huniq c Hc Hct) in He.
  - intros x ts' Hx Hp. destruct (Hin _ Hx) as [->|[_ Hx2]]; [done|by eapply di_failed].
Qed.

Lemma data_fail a n aw l1 tx obs ts l2 st cs :
  data_inv a n aw (l1 ++ mkTxState tx obs (Waiting ts) :: l2) st cs ->
  a < ts ->
  data_inv a n aw (l1 ++ mkTxState tx obs (Failed ts) :: l2) st (filter (not_c_ts ts) cs).
Proof.
  intros Hd Hts. set (t0 := mkTxState tx obs (Waiting ts)) in *.
  assert (t0 ∈ l1 ++ t0 :: l2) as Ht0 by (rewrite elem_of_app, elem_of_cons; naive_solver).
  destruct (di_waiting _ _ _ _ _ _ Hd t0 ts Ht0 eq_refl) as (_ & Hfresh & _).
  assert (forall c, c ∈ filter (not_c_ts ts) cs -> c ∈ cs) as Hsub by (intros c [_ Hc]%list_elem_of_filter; done).
  assert (data_inv a n aw (l1 ++ t0 :: l2) st cs) as Hd' by done.
  eapply (data_drop _ _ _ l1 t0 l2) in Hd'.
  pose proof (inflight_middle _ _ _ ts (proj1 (di_inflight _ _ _ _ _ _ Hd)) eq_refl) as Hne.
  assert (forall x, x ∈ l1 ++ mkTxState tx obs (Failed ts) :: l2 ->
    x = mkTxState tx obs (Failed ts) \/ x ∈ l1 ++ l2) as Hin.
  { intros x. rewrite !elem_of_app, !elem_of_cons. naive_solver. }
  split.
  - apply serial_filter, Hd.
  - intros e He. pose proof (di_store _ _ _ _ _ _ Hd e He) as (c & Hc & Hb)%elem_of_allEntries.
    apply elem_of_allEntries. exists c. split; [|done]. apply list_elem_of_filter. split; [|done].
    intros Heq. apply (Hfresh e He). rewrite <- Heq. by eapply batchEntries_version.
  - intros c Hc%Hsub. by apply (di_commits _ _ _ _ _ _ Hd).
  - intros c k e Hc%Hsub Hobs. destruct (di_cobs _ _ _ _ _ _ Hd c k e Hc Hobs) as [-> Hno].
    destruct (di_commits _ _ _ _ _ _ Hd c Hc) as (_ & Ha & _). split; [|auto].
    symmetry. apply snapshot_get_commits; [apply serial_NoDup, Hd|].
    intros c' Hle. rewrite list_elem_of_filter. unfold not_c_ts. split; [naive_solver|]. intros Hc'.
    split; [lia|done].
  - intros x k e [->|Hx]%Hin; [apply (di_obs _ _ _ _ _ _ Hd t0 k e Ht0)|by eapply di_obs].
  - pose proof (di_inflight _ _ _ _ _ _ Hd) as Hi. rewrite omap_app in *. exact Hi.
  - intros x ts' [->|Hx]%Hin Hp; [done|].
    destruct (di_waiting _ _ _ _ _ _ Hd' x ts' Hx Hp) as (? & ? & c & Hc & Hct & Hcw).
    split; [done|]. split; [done|]. exists c. split; [|done]. apply list_elem_of_filter.
    split; [|done]. intros Heq. apply (Hne x Hx). unfold phaseTs. rewrite Hp. congruence.
  - intros x ts' [->|Hx]%Hin Hp c Hc%Hsub; [done|by eapply di_applied].
  - intros x ts' [->|Hx]%Hin Hp c Hc; [|by eapply (di_failed _ _ _ _ _ _ Hd'); auto].
    simpl in Hp. injection Hp as <-. by apply list_elem_of_filter in Hc as [? _].
Qed.

(** ** Every step preserves the invariant *)

Lemma live_mid o l1 t l2 st cs :
  live (mkSys o (l1 ++ t :: l2) st cs) =
    live (mkSys o l1 st cs) ++ tx_readTs (ts_tx t) :: live (mkSys o l2 st cs).
Proof. unfold live. simpl. by rewrite fmap_app, fmap_cons. Qed.

Lemma live_app o o' l1 l2 st st' cs cs' :
  live (mkSys o (l1 ++ l2) st cs) = live (mkSys o' l1 st' cs') ++ live (mkSys o' l2 st' cs').
Proof. unfold live. simpl. by rewrite fmap_app. Qed.

(** A transaction leaves: its read timestamp is released. *)
Lemma inv_leave o l1 t l2 st cs :
  sys_inv (mkSys o (l1 ++ t :: l2) st cs) ->
  sys_inv (mkSys (Oracle_Done o (tx_readTs (ts_tx t))) (l1 ++ l2) st cs).
Proof.
  intros (olog & Ho & Hl & Hd). rewrite live_mid in Ho. simpl in *.
  exists olog. split; [|split; [done|]].
  - rewrite (live_app _ o _ _ _ st _ cs). by apply Oracle_Done_inv.
  - simpl. by eapply data_drop.
Qed.

(** A running transaction changes its handle but not its snapshot. *)
Lemma inv_update o l1 tx obs tx' obs' l2 st cs :
  sys_inv (mkSys o (l1 ++ mkTxState tx obs Running :: l2) st cs) ->
  tx_readTs tx' = tx_readTs tx ->
  (forall k e, (k, e) ∈ obs' -> (k, e) ∈ obs /\ tx_readSet tx ⊆ tx_readSet tx' \/
     e = snapshot_get st k (tx_readTs tx) /\ k ∈ tx_readSet tx') ->
  sys_inv (mkSys o (l1 ++ mkTxState tx' obs' Running :: l2) st cs).
Proof.
  intros (olog & Ho & Hl & Hd) Hr Hobs. exists olog. rewrite live_mid in *. simpl in *. rewrite Hr.
  split; [done|]. split; [done|]. eapply data_replace; [exact Hd|done| |done..].
  simpl. intros k e Hin. destruct (Hobs k e Hin) as [[Hold Hsub]|[-> ?]]; [|by rewrite Hr].
  edestruct (di_obs _ _ _ _ _ _ Hd (mkTxState tx obs Running) k e) as [-> ?];
    [apply elem_of_app; right; by left|done|]. rewrite Hr. auto.
Qed.

Lemma inv_begin ro o txs st cs :
  sys_inv (mkSys o txs st cs) ->
  sys_inv (mkSys (NewReadTs o).2 (mkTxState (beginTx ro (NewReadTs o).1) [] Running :: txs) st cs).
Proof.
  intros (olog & Ho & Hl & Hd). destruct (NewReadTs_inv _ _ _ Ho) as [_ Ho'].
  exists olog. split; [exact Ho'|]. split; [done|]. simpl. destruct Hd. split; auto.
  - intros x k e [->|Hx]%elem_of_cons; [simpl; by intros ?%elem_of_nil|eauto].
  - intros x ts [->|Hx]%elem_of_cons; [done|eauto].
  - intros x ts [->|Hx]%elem_of_cons; [done|eauto].
  - intros x ts [->|Hx]%elem_of_cons; [done|eauto].
Qed.

Lemma inv_enqueue o l1 tx obs l2 st cs ts tx' o' :
  sys_inv (mkSys o (l1 ++ mkTxState tx obs Running :: l2) st cs) ->
  nextTs o + 1 < max_u64 -> commitCheck xxhash tx o = CommitEnqueue ts tx' o' ->
  sys_inv (mkSys o' (l1 ++ mkTxState tx' obs (Waiting ts) :: l2) st
    (cs ++ [mkCommit ts (tx_readTs tx) obs (default ∅ (tx_writes tx))])).
Proof.
  intros (olog & Ho & Hl & Hd) Hn. rewrite live_mid in Ho. simpl in Ho, Hl, Hd.
  unfold commitCheck. case_match; [done|]. case_match; [done|]. unfold CheckAndCommit.
  edestruct (checkAndCommitInternal_spec o _ _ (tx_readTs tx) (fingerprints xxhash (tx_readSet tx))
    (fingerprints xxhash (dom (default ∅ (tx_writes tx)))) Ho) as [[_ ->]|(Hnc & o1 & -> & Ho1 & Hn1 & Ha1 & Hw1)];
    [apply elem_of_app; right; by left|done|done|].
  intros [= <- <- <-]. pose proof (oi_clock _ _ _ Ho) as Hclk.
  assert (tx_readTs tx <= appliedTs o) as Hr by (apply (oi_live _ _ _ Ho); apply elem_of_app; right; by left).
  exists (olog ++ [mkCommitted (nextTs o + 1) (fingerprints xxhash (dom (default ∅ (tx_writes tx))))]).
  rewrite live_mid. split; [by apply ReserveVersion_inv|]. split.
  - intros c [Hc|Hc%list_elem_of_singleton]%elem_of_app.
    + destruct (Hl c Hc) as (t & Ht & ?). exists t. split; [apply elem_of_app; auto|done].
    + subst c. eexists. split; [apply elem_of_app; right; by apply list_elem_of_singleton|].
      split; [done|]. simpl. intros k Hk. unfold fingerprints. set_solver.
  - eapply data_mono; [apply data_enqueue; [exact Hd| | |]|..].
    + intros x Hx. by apply (oi_await _ _ _ Ho).
    + lia.
    + intros k c Hk Hc Hlt Hdom. apply Hnc. destruct (Hl c Hc) as (t & Ht & Htc & Hw).
      exists t, (xxhash k). split; [done|]. split; [auto|]. split; [unfold fingerprints; set_solver|lia].
    + simpl. lia.
    + simpl. case_if; lia.
    + simpl. rewrite Hw1. case_if; set_solver.
Qed.

Lemma inv_apply o l1 tx obs ts l2 st cs :
  sys_inv (mkSys o (l1 ++ mkTxState tx obs (Waiting ts) :: l2) st cs) ->
  sys_inv (mkSys o (l1 ++ mkTxState tx obs (Applied ts) :: l2)
    (st ++ batchEntries (default ∅ (tx_writes tx)) ts) cs).
Proof.
  intros (olog & Ho & Hl & Hd). exists olog. split; [by rewrite live_mid in *|]. split; [done|].
  apply data_apply; [exact Hd| |].
  - intros x Hx. by apply (oi_await _ _ _ Ho).
  - intros t Ht. apply (oi_live _ _ _ Ho). unfold live. simpl. apply list_elem_of_fmap. eauto.
Qed.

Lemma inv_mark o l1 tx obs ts l2 st cs :
  sys_inv (mkSys o (l1 ++ mkTxState tx obs (Applied ts) :: l2) st cs) ->
  sys_inv (mkSys (MarkApplied o ts) (l1 ++ mkTxState tx obs (Marked ts) :: l2) st cs).
Proof.
  intros (olog & Ho & Hl & Hd). destruct (MarkApplied_frame _ _ _ ts Ho) as (Ha & Hn & Haw).
  exists olog. split; [rewrite live_mid in *; by apply MarkApplied_inv|]. split; [done|]. simpl in *.
  assert (mkTxState tx obs (Applied ts) ∈ l1 ++ mkTxState tx obs (Applied ts) :: l2) as Ht
    by (apply elem_of_app; right; by left).
  pose proof (inflight_middle _ _ _ ts (proj1 (di_inflight _ _ _ _ _ _ Hd)) eq_refl) as Hne.
  eapply data_mono; [|exact Ha|rewrite Hn; done|exact Haw]. apply data_remove.
  - eapply data_replace; [exact Hd|done| |done..]. intros k e. by apply (di_obs _ _ _ _ _ _ Hd _ k e Ht).
  - intros t [Hx|[->|Hx]%elem_of_cons]%elem_of_app Hp; [|done|];
      eapply Hne; [apply elem_of_app; by left|unfold phaseTs; by rewrite Hp
                  |apply elem_of_app; by right|unfold phaseTs; by rewrite Hp].
  - by apply (di_applied _ _ _ _ _ _ Hd _ ts Ht).
Qed.

(** No transaction other than a failed one waits for its timestamp. *)
Lemma not_waiting l1 tx obs ts l2 :
  NoDup (omap phaseTs (l1 ++ mkTxState tx obs (Failed ts) :: l2)) ->
  forall t, t ∈ l1 ++ mkTxState tx obs (Failed ts) :: l2 -> ts_phase t <> Waiting ts.
Proof.
  intros Hnd t Ht Hp. pose proof (inflight_middle _ _ _ ts Hnd eq_refl t) as Hne.
  unfold phaseTs in Hne. rewrite Hp in Hne. apply Hne; [|done]. rewrite elem_of_app in *.
  destruct Ht as [?|[->|?]%elem_of_cons]; [by left|done|by right].
Qed.

Lemma inv_fail o l1 tx obs ts l2 st cs :
  sys_inv (mkSys o (l1 ++ mkTxState tx obs (Waiting ts) :: l2) st cs) ->
  sys_inv (mkSys (MarkApplied o ts) (l1 ++ mkTxState tx obs (Failed ts) :: l2) st
    (filter (not_c_ts ts) cs)).
Proof.
  intros (olog & Ho & Hl & Hd). destruct (MarkApplied_frame _ _ _ ts Ho) as (Ha & Hn & Haw).
  exists olog. split; [rewrite live_mid in *; by apply MarkApplied_inv|]. simpl in *. split.
  { intros c [_ Hc]%list_elem_of_filter. auto. }
  destruct (di_waiting _ _ _ _ _ _ Hd (mkTxState tx obs (Waiting ts)) ts) as (Hts & _);
    [apply elem_of_app; right; by left|done|].
  eapply data_mono; [|exact Ha|rewrite Hn; done|exact Haw].
  assert (data_inv (appliedTs o) (nextTs o) (awaiting o) (l1 ++ mkTxState tx obs (Failed ts) :: l2) st
    (filter (not_c_ts ts) cs)) as Hd' by (apply data_fail; [done|by apply (oi_await _ _ _ Ho)]).
  apply data_remove; [done|apply not_waiting, Hd'|].
  intros c [Hne _]%list_elem_of_filter. done.
Qed.

Lemma inv_abort o l1 tx obs ts l2 st cs :
  sys_inv (mkSys o (l1 ++ mkTxState tx obs (Failed ts) :: l2) st cs) ->
  sys_inv (mkSys (Oracle_AbortCommit o ts) (l1 ++ mkTxState tx obs (Failed ts) :: l2) st cs).
Proof.
  intros (olog & Ho & Hl & Hd). destruct (AbortCommit_frame _ _ _ ts Ho) as (Ha & Hn & Haw).
  exists (filter (not_ts ts) olog). split; [by apply Oracle_AbortCommit_inv|]. simpl in *.
  assert (forall c, c ∈ cs -> c_ts c <> ts) as Hcs.
  { eapply (di_failed _ _ _ _ _ _ Hd (mkTxState tx obs (Failed ts))); [|done].
    apply elem_of_app; right; by left. }
  split.
  - intros c Hc. destruct (Hl c Hc) as (t & Ht & Hct & Hw). exists t. split; [|done].
    apply list_elem_of_filter. split; [|done]. unfold not_ts. rewrite Hct. auto.
  - eapply data_mono; [|exact Ha|rewrite Hn; done|rewrite Haw; done].
    apply data_remove; [done|apply not_waiting, Hd|]. intros c Hc He. by destruct (Hcs c Hc).
Qed.

Lemma inv_oracle o o' txs st cs :
  sys_inv (mkSys o txs st cs) ->
  (forall lv log, oracle_inv o lv log -> oracle_inv o' lv log /\
     appliedTs o <= appliedTs o' /\ nextTs o' = nextTs o /\ awaiting o' = awaiting o) ->
  sys_inv (mkSys o' txs st cs).
Proof.
  intros (olog & Ho & Hl & Hd) H. destruct (H _ _ Ho) as (Ho' & Ha & Hn & Haw).
  exists olog. split; [exact Ho'|]. split; [done|]. simpl. rewrite Hn, Haw.
  eapply data_mono; [exact Hd|done..].
Qed.

Lemma step_inv s s' : step xxhash s s' -> sys_inv s -> sys_inv s'.
Proof.
  intros Hs Hi. destruct Hs.
  - by apply inv_begin.
  - done.
  - eapply inv_update; [exact Hi| |]; unfold Tx_Get; rewrite H, H0; simpl; [done|].
    intros k e' [[= -> ->]|?]%elem_of_cons; [right; set_solver|left; set_solver].
  - eapply inv_update; [exact Hi| |]; unfold Tx_SetEx; repeat case_if; simpl; auto.
  - eapply inv_update; [exact Hi| |]; unfold Tx_Delete; repeat case_if; simpl; auto.
  - unfold Tx_rollback. rewrite H. by apply inv_leave in Hi.
  - unfold commitCheck in H2. rewrite H, H0 in H2. simpl in H2.
    destruct (bool_decide (default ∅ (tx_writes tx) = ∅)); [injection H2 as _ _ <-; by apply inv_leave in Hi|].
    destruct Hi as (olog & Ho & Hrest). pose proof Ho as Ho'. rewrite live_mid in Ho'. simpl in Ho'.
    unfold CheckAndCommit in H2.
    edestruct (checkAndCommitInternal_spec o _ _ (tx_readTs tx) (fingerprints xxhash (tx_readSet tx))
      (fingerprints xxhash (dom (default ∅ (tx_writes tx)))) Ho') as [[_ E]|(_ & o1 & E & _)];
      [apply elem_of_app; right; by left|done| |]; rewrite E in H2; [|done].
    injection H2 as _ _ <-. apply (inv_leave o l1 (mkTxState tx obs Running)). by exists olog.
  - by eapply inv_enqueue.
  - by apply inv_apply.
  - by apply inv_mark.
  - by apply inv_fail.
  - by apply inv_leave in Hi.
  - apply inv_abort in Hi. by apply inv_leave in Hi.
  - eapply inv_oracle; [exact Hi|]. intros lv log Ho. split; [by apply BeginRead_inv|]. done.
  - eapply inv_oracle; [exact Hi|]. intros lv log Ho. split; [by apply DoneRead_inv|].
    by eapply DoneRead_frame.
Qed.

Lemma reachable_inv s : reachable xxhash s -> sys_inv s.
Proof.
  induction 1 as [|s s' _ IH Hs]; [|by eapply step_inv].
  exists []. split; [exact newOracle_inv|]. split; [by intros c ?%elem_of_nil|].
  split; simpl; try (by intros; exfalso; eapply not_elem_of_nil).
  - intros pre c post E. by destruct pre.
  - split; [apply NoDup_nil_2|]. intros x Hx. by apply not_elem_of_nil in Hx.
Qed.

(** C6. Serializability.  In every reachable state of the transaction system
    (any interleaving of transactions with the writer's steps, failures
    included), what a committed transaction read from the database is exactly
    the state that running the transactions before it in commit order, one
    after the other, leaves. *)
Theorem commits_serializable s pre c post k e :
  reachable xxhash s -> s_commits s = pre ++ c :: post -> (k, e) ∈ c_obs c ->
  e = replay pre !! k.
Proof.
  intros (olog & _ & _ & Hd)%reachable_inv Hcs Hobs. rewrite Hcs in Hd.
  pose proof (di_serial _ _ _ _ _ _ Hd) as Hser.
  assert (forall c', c' ∈ pre -> c_ts c' < c_ts c) as Hlt by (intros; by eapply Hser).
  assert (c ∈ pre ++ c :: post) as Hc by (apply elem_of_app; right; by left).
  destruct (di_commits _ _ _ _ _ _ Hd c Hc) as (_ & _ & Hr & _).
  destruct (di_cobs _ _ _ _ _ _ Hd c k e Hc Hobs) as [-> Hno].
  rewrite (replay_snapshot pre k (c_ts c)).
  2: { intros p1 c1 q1 -> c2 Hc2. eapply (Hser p1 c1 (q1 ++ c :: post)); [by rewrite <- app_assoc|done]. }
  2: { intros c' Hc'. specialize (Hlt c' Hc'). lia. }
  apply snapshot_get_ext.
  { apply allEntries_unique. apply serial_NoDup in Hser. rewrite fmap_app in Hser.
    by apply NoDup_app in Hser as (? & _ & _). }
  intros e' Hk. rewrite !elem_of_allEntries. split; intros [(c' & Hc' & He') Hv];
    pose proof (batchEntries_version _ _ _ He') as Hver.
  - split; [|lia]. exists c'. split; [|done].
    apply elem_of_app in Hc' as [Hp|Hq]; [done|exfalso].
    apply elem_of_cons in Hq as [->|Hq]; [lia|].
    apply list_elem_of_split in Hq as (q1 & q2 & ->).
    specialize (Hser (pre ++ c :: q1) c' q2 ltac:(by rewrite <- app_assoc) c).
    specialize (Hser ltac:(apply elem_of_app; right; by left)). lia.
  - split; [exists c'; split; [apply elem_of_app; by left|done]|].
    specialize (Hlt c' Hc'). apply Z.nlt_ge. intros Hgt.
    apply (Hno c'); [apply elem_of_app; by left|lia|].
    apply elem_of_batchEntries in He' as (te & Hte & _). rewrite Hk in Hte. by apply elem_of_dom_2 in Hte.
Qed.

(** Snapshot stability.  No step of any transaction or of the writer
    changes what is read at a timestamp the oracle has declared applied, so a
    transaction that reads a key twice gets the same version. *)
Theorem snapshot_stable s s' k r :
  reachable xxhash s -> step xxhash s s' -> r <= appliedTs (s_orc s) ->
  snapshot_get (s_store s') k r = snapshot_get (s_store s) k r.
Proof.
  intros (olog & Ho & _ & Hd)%reachable_inv Hs Hr. destruct Hs; try done. simpl in *.
  apply snapshot_get_app_above. intros e ->%batchEntries_version.
  destruct (di_waiting _ _ _ _ _ _ Hd (mkTxState tx obs (Waiting ts)) ts) as (Hts & _);
    [apply elem_of_app; right; by left|done|].
  apply (oi_await _ _ _ Ho) in Hts. lia.
Qed.

(** C22. Atomic visibility.  A snapshot at an applied timestamp is the serial
    replay of exactly the commits up to that timestamp: it never shows a part
    of a transaction, nor one whose batch is still queued. *)
Theorem snapshot_is_prefix s k r :
  reachable xxhash s -> r <= appliedTs (s_orc s) ->
  snapshot_get (s_store s) k r = replay (filter (fun c => c_ts c <= r) (s_commits s)) !! k.
Proof.
  intros (olog & Ho & _ & Hd)%reachable_inv Hr.
  rewrite (store_snapshot _ _ _ _ _ _ k r Hd); [|intros x Hx; by apply (oi_await _ _ _ Ho)|done].
  assert (serial (filter (fun c => c_ts c <= r) (s_commits s))) as Hser by (apply serial_filter, Hd).
  rewrite (replay_snapshot _ k r Hser) by (by intros c [? _]%list_elem_of_filter).
  apply snapshot_get_commits; [by apply serial_NoDup|].
  intros c Hc. rewrite list_elem_of_filter. naive_solver.
Qed.

(** The watermark is exact: while transactions are open, [MinReadTs] is the
    smallest of their read timestamps, so version garbage collection below it
    removes nothing any of them can still ask for. *)
Theorem watermark_is_min s :
  reachable xxhash s -> live s <> [] ->
  Oracle_MinReadTs (s_orc s) ∈ live s /\ forall r, r ∈ live s -> Oracle_MinReadTs (s_orc s) <= r.
Proof.
  intros (olog & Ho & _ & _)%reachable_inv Hne. split.
  - apply MinReadTs_live; [apply Ho|done].
  - intros r Hr. by apply (MinReadTs_le _ _ _ _ (oi_wm _ _ _ Ho)).
Qed.
End proof.

(** ** Witness run: one transaction writes a key, a second one reads it *)

Module Witness.
Definition xx : bytes -> Z := be_decode.
Definition k1 : bytes := [97].
Definition k2 : bytes := [98].

(** The second transaction has passed the check and waits for the writer. *)
Lemma run_waiting : exists o tx,
  reachable xx (mkSys o [mkTxState tx [(k1, Some (mkEntry k1 [1] false 0 2))] (Waiting 3)]
    [mkEntry k1 [1] false 0 2]
    [mkCommit 2 1 [] {[k1 := mkTxEntry [1] 0 false]};
     mkCommit 3 2 [(k1, Some (mkEntry k1 [1] false 0 2))] {[k2 := mkTxEntry [2] 0 false]}]) /\
  appliedTs o = 2.
Proof.
  pose proof (reach_init xx) as H. unfold initSys in H.
  eapply reach_step in H; [|apply (step_begin _ false)].
  eapply reach_step in H; [|apply (step_set _ _ [] _ _ [] _ _ 0 k1 [1] 0)].
  eapply reach_step in H; [|eapply (step_commit_enqueue _ _ [] _ _ []); [reflexivity|vm_compute; reflexivity]].
  eapply reach_step in H; [|apply (step_apply _ _ [] _ _ _ [])].
  eapply reach_step in H; [|apply (step_mark _ _ [] _ _ _ [])].
  eapply reach_step in H; [|apply (step_finish _ _ [] _ _ _ [])].
  eapply reach_step in H; [|apply (step_begin _ false)].
  eapply reach_step in H; [|apply (step_get _ _ [] _ _ [] _ _ k1 0); reflexivity].
  eapply reach_step in H; [|apply (step_set _ _ [] _ _ [] _ _ 0 k2 [2] 0)].
  eapply reach_step in H; [|eapply (step_commit_enqueue _ _ [] _ _ []); [reflexivity|vm_compute; reflexivity]].
  eexists _, _. split; [exact H|]. vm_compute. done.
Qed.

Lemma commits_serializable_witness :
  exists s pre c post e, reachable xx s /\ s_commits s = pre ++ c :: post /\ (k1, Some e) ∈ c_obs c /\
    Value e = [1] /\ Some e = replay pre !! k1.
Proof.
  destruct run_waiting as (o & tx & H & _).
  eexists _, [_], _, [], _. split; [exact H|]. split; [reflexivity|]. split; [simpl; by left|].
  split; [reflexivity|].
  eapply (commits_serializable xx _ _ _ [] k1); [exact H|reflexivity|simpl; by left].
Defined.

Lemma snapshot_stable_witness :
  exists s s', reachable xx s /\ step xx s s' /\ s_store s' <> s_store s /\
    snapshot_get (s_store s') k1 2 = snapshot_get (s_store s) k1 2.
Proof.
  destruct run_waiting as (o & tx & H & Ha).
  pose proof (reachable_inv _ _ H) as (olog & _ & _ & Hd).
  edestruct (di_waiting _ _ _ _ _ _ Hd) as (_ & _ & c & Hc & Hct & Hw); [by left|done|].
  assert (default ∅ (tx_writes tx) = {[k2 := mkTxEntry [2] 0 false]}) as E.
  { simpl in Hc, Hw. apply elem_of_cons in Hc as [->|Hc]; [done|].
    apply elem_of_cons in Hc as [->|Hc%elem_of_nil]; [done|done]. }
  eexists _, _. split; [exact H|]. split; [apply (step_apply _ _ [] _ _ _ [])|].
  split; [simpl; rewrite E; vm_compute; discriminate|].
  apply (snapshot_stable xx _ _ k1 2 H); [apply (step_apply _ _ [] _ _ _ [])|simpl; rewrite Ha; lia].
Defined.

Lemma snapshot_is_prefix_witness :
  exists s, reachable xx s /\ length (s_commits s) = 2%nat /\
    snapshot_get (s_store s) k1 2 = replay (filter (fun c => c_ts c <= 2) (s_commits s)) !! k1.
Proof.
  destruct run_waiting as (o & tx & H & Ha). eexists. split; [exact H|]. split; [reflexivity|].
  apply (snapshot_is_prefix xx _ k1 2 H). simpl. rewrite Ha. lia.
Defined.

Lemma watermark_is_min_witness :
  exists s, reachable xx s /\ live s <> [] /\ Oracle_MinReadTs (s_orc s) ∈ live s.
Proof.
  destruct run_waiting as (o & tx & H & Ha). eexists. split; [exact H|].
  split; [discriminate|]. apply (watermark_is_min xx _ H). discriminate.
Defined.
End Witness.
