(* ===== verification/SkipList.v ===== *)
(** * The memtable ([memtable/skiplist.go])

    The skip list at pointer level: a heap of nodes with sixteen-slot inline
    towers, address 0 the head sentinel, [None] the nil pointer.  Writers hold
    [writeMu], so an insertion is one step.  The version iterators sort a copy
    of the bottom level; [sort.Slice] is not stable, which does not matter for
    the entries of a memtable because no two of them share key and version.

    [slab_ok] of the arena file justifies keeping keys and values as byte
    strings here: what [bytes.alloc] returned is never overwritten.

    The invariant [sl_inv] ties the heap to one sorted list of addresses and a
    tower height per node; every search loop is shown to compute
    [snapshot_get] over the entries of that list. *)

From S2P Require Import Prelude Mvcc.

Definition maxLevel : nat := 16.

Record Node := mkNode {
  n_entry : Entry;
  n_fwd : list (option nat)
}.

(** [unsafe.Sizeof(Node{})] on a 64-bit platform: two slice headers, the
    deleted flag padded to a word, expiry, version and the tower. *)
Definition nodeOverhead : Z := 24 + 24 + 8 + 8 + 8 + 8 * Z.of_nat maxLevel.

Record SkipList := mkSkipList {
  sl_nodes : list Node;
  sl_level : nat;
  sl_sizeBytes : Z;
  sl_randSeed : Z;
  sl_versionCounter : Z
}.

Definition headNode : Node := mkNode (mkEntry [] [] false 0 0) (replicate maxLevel None).

(** [seed] stands for the mix of clock and pointer bits. *)
Definition NewSkipList (seed : Z) : SkipList := mkSkipList [headNode] 1 0 (Z.lor seed 1) 0.

(** ** Level selection *)

Definition fastrand (x : Z) : Z :=
  let y := x in
  let y := Z.lxor y (u64 (Z.shiftl y 13)) in
  let y := Z.lxor y (Z.shiftr y 7) in
  Z.lxor y (u64 (Z.shiftl y 17)).

(** At most fifteen rounds: [lvl] starts at 1 and the loop stops at 16. *)
Fixpoint randomLevelLoop (fuel lvl : nat) (seed : Z) : nat * Z :=
  match fuel with
  | O => (lvl, seed)
  | S f =>
      if (lvl <? maxLevel)%nat then
        let y := fastrand seed in
        if Z.land y 0xFFFF <? 0x8000 then randomLevelLoop f (S lvl) y else (lvl, y)
      else (lvl, seed)
  end.

Definition randomLevel (seed : Z) : nat * Z := randomLevelLoop maxLevel 1 seed.

(** ** Searching *)

Definition loadForward (h : list Node) (n idx : nat) : option nat :=
  h !! n ≫= (fun nd => n_fwd nd !! idx ≫= (fun p => p)).

Definition entryAt (h : list Node) (n : nat) : Entry :=
  from_option n_entry (mkEntry [] [] false 0 0) (h !! n).

Definition keyAt (h : list Node) (n : nat) : bytes := Key (entryAt h n).

(** The inner loop of every descent; [length h] rounds reach any node. *)
Fixpoint walk (fuel : nat) (h : list Node) (i curr : nat) (key : bytes) : nat :=
  match fuel with
  | O => curr
  | S f =>
      match loadForward h curr i with
      | Some next => if bytes_ltb (keyAt h next) key then walk f h i next key else curr
      | None => curr
      end
  end.

(** Levels [level - 1] down to 0, filling [update]. *)
Fixpoint findSpliceForLevel (h : list Node) (key : bytes) (level curr : nat) (update : list (option nat))
    : nat * list (option nat) :=
  match level with
  | O => (curr, update)
  | S i =>
      let c := walk (length h) h i curr key in
      findSpliceForLevel h key i c (<[i := Some c]> update)
  end.

Definition findPred (s : SkipList) (key : bytes) : nat :=
  (findSpliceForLevel (sl_nodes s) key (sl_level s) 0 (replicate maxLevel None)).1.

(** ** Insertion *)

Definition setForward (h : list Node) (n idx : nat) (p : option nat) : list Node :=
  alter (fun nd => mkNode (n_entry nd) (<[idx := p]> (n_fwd nd))) n h.

(** The linking loop, levels [i .. i + count - 1]; a nil [update] slot would be
    a nil dereference, [None] here. *)
Fixpoint linkLevels (count i new : nat) (update : list (option nat)) (h : list Node) : option (list Node) :=
  match count with
  | O => Some h
  | S c =>
      match update !! i with
      | Some (Some u) =>
          let h1 := setForward h new i (loadForward h u i) in
          linkLevels c (S i) new update (setForward h1 u i (Some new))
      | _ => None
      end
  end.

(** [update[i] = s.head] for the levels above the current one. *)
Fixpoint raiseUpdate (count i : nat) (update : list (option nat)) : list (option nat) :=
  match count with O => update | S c => raiseUpdate c (S i) (<[i := Some 0%nat]> update) end.

(** The common body of [PutVersion] and [DeleteVersion] under [writeMu]. *)
Definition insertNode (s : SkipList) (e : Entry) (versionCounter size : Z) : option SkipList :=
  let curLevel := sl_level s in
  let update := (findSpliceForLevel (sl_nodes s) (Key e) curLevel 0 (replicate maxLevel None)).2 in
  let '(lvl, seed) := randomLevel (sl_randSeed s) in
  let update := if (curLevel <? lvl)%nat then raiseUpdate (lvl - curLevel) curLevel update else update in
  let level := if (curLevel <? lvl)%nat then lvl else curLevel in
  let new := length (sl_nodes s) in
  h ← linkLevels lvl 0 new update (sl_nodes s ++ [mkNode e (replicate maxLevel None)]);
  Some (mkSkipList h level (sl_sizeBytes s + size) seed versionCounter).

(** Version 0 asks for the next one; another version raises the counter. *)
Definition pickVersion (s : SkipList) (version : Z) : Z * Z :=
  if version =? 0 then (u64 (sl_versionCounter s + 1), u64 (sl_versionCounter s + 1))
  else (version, if version <=? sl_versionCounter s then sl_versionCounter s else version).

Definition PutVersion (s : SkipList) (key val : bytes) (expiresAt version : Z) : option SkipList :=
  let '(version, counter) := pickVersion s version in
  insertNode s (mkEntry key val false expiresAt version) counter
    (Z.of_nat (length key) + Z.of_nat (length val) + nodeOverhead).

Definition SkipList_Put (s : SkipList) (key val : bytes) (expiresAt : Z) : option SkipList :=
  PutVersion s key val expiresAt 0.

Definition DeleteVersion (s : SkipList) (key : bytes) (version : Z) : option SkipList :=
  let '(version, counter) := pickVersion s version in
  insertNode s (mkEntry key [] true 0 version) counter nodeOverhead.

Definition SkipList_Delete (s : SkipList) (key : bytes) : option SkipList := DeleteVersion s key 0.

Definition SeedVersion (s : SkipList) (v : Z) : SkipList :=
  mkSkipList (sl_nodes s) (sl_level s) (sl_sizeBytes s) (sl_randSeed s)
    (if v <=? sl_versionCounter s then sl_versionCounter s else v).

(** ** Point reads *)

(** Highest version among the run of nodes that carry [key]. *)
Fixpoint scanLatest (fuel : nat) (h : list Node) (key : bytes) (next : option nat) (best : nat) : nat :=
  match fuel, next with
  | S f, Some n =>
      if bytes_eqb (keyAt h n) key then
        scanLatest f h key (loadForward h n 0)
          (if Version (entryAt h best) <? Version (entryAt h n) then n else best)
      else best
  | _, _ => best
  end.

(** The same restricted to versions a snapshot sees. *)
Fixpoint scanVisible (fuel : nat) (h : list Node) (key : bytes) (maxVersion : Z) (next best : option nat)
    : option nat :=
  match fuel, next with
  | S f, Some n =>
      if bytes_eqb (keyAt h n) key then
        let best' :=
          if Version (entryAt h n) <=? maxVersion then
            match best with
            | None => Some n
            | Some b => if Version (entryAt h b) <? Version (entryAt h n) then Some n else best
            end
          else best in
        scanVisible f h key maxVersion (loadForward h n 0) best'
      else best
  | _, _ => best
  end.

(** [Get]'s search: the node with the latest version, if any. *)
Definition latestNode (s : SkipList) (key : bytes) : option nat :=
  let h := sl_nodes s in
  match loadForward h (findPred s key) 0 with
  | Some candidate =>
      if bytes_eqb (keyAt h candidate) key then
        Some (scanLatest (length h) h key (loadForward h candidate 0) candidate)
      else None
  | None => None
  end.

(** What the three lookups answer for the chosen node. *)
Definition answer (now : Z) (e : Entry) : lookup_result :=
  if Deleted e then Tombstone
  else if (0 <? ExpiresAt e) && (ExpiresAt e <=? now) then Tombstone
  else Found (Value e) (ExpiresAt e).

Definition SkipList_Get (now : Z) (s : SkipList) (key : bytes) : lookup_result :=
  match latestNode s key with
  | Some best => answer now (entryAt (sl_nodes s) best)
  | None => NotFound
  end.

Definition GetWithVersion (now : Z) (s : SkipList) (key : bytes) : lookup_result * Z :=
  match latestNode s key with
  | Some best => (answer now (entryAt (sl_nodes s) best), Version (entryAt (sl_nodes s) best))
  | None => (NotFound, 0)
  end.

Definition SkipList_GetByVersion (now : Z) (s : SkipList) (key : bytes) (maxVersion : Z) : lookup_result :=
  let h := sl_nodes s in
  match loadForward h (findPred s key) 0 with
  | Some candidate =>
      if bytes_eqb (keyAt h candidate) key then
        match scanVisible (length h) h key maxVersion (Some candidate) None with
        | None => NotFound
        | Some best => answer now (entryAt h best)
        end
      else NotFound
  | None => NotFound
  end.

(** ** Walking the bottom level *)

Fixpoint bottomWalk (fuel : nat) (h : list Node) (curr : option nat) : list nat :=
  match fuel, curr with
  | S f, Some c => c :: bottomWalk f h (loadForward h c 0)
  | _, _ => []
  end.

Definition bottom (s : SkipList) : list nat :=
  bottomWalk (length (sl_nodes s)) (sl_nodes s) (loadForward (sl_nodes s) 0 0).

(** The entries of the memtable in the order of the bottom level. *)
Definition contents (s : SkipList) : list Entry := entryAt (sl_nodes s) <$> bottom s.

(** The inner loop of [All]: best node of the run and the node after it. *)
Fixpoint runBest (fuel : nat) (h : list Node) (key : bytes) (next : option nat) (best : nat)
    : nat * option nat :=
  match fuel, next with
  | S f, Some n =>
      if bytes_eqb (keyAt h n) key then
        runBest f h key (loadForward h n 0)
          (if Version (entryAt h best) <? Version (entryAt h n) then n else best)
      else (best, next)
  | _, _ => (best, next)
  end.

Fixpoint allLoop (fuel : nat) (now : Z) (h : list Node) (curr : option nat) : list Entry :=
  match fuel, curr with
  | S f, Some c =>
      let '(best, next) := runBest (length h) h (keyAt h c) (loadForward h c 0) c in
      let e := entryAt h best in
      (if Deleted e then [mkEntry (Key e) [] true 0 (Version e)]
       else if (ExpiresAt e =? 0) || (now <? ExpiresAt e) then [e] else [])
        ++ allLoop f now h next
  | _, _ => []
  end.

Definition All (now : Z) (s : SkipList) : list Entry :=
  allLoop (length (sl_nodes s)) now (sl_nodes s) (loadForward (sl_nodes s) 0 0).

(** The comparison of [AllVersions]: key ascending, version descending. *)
Definition versionLess (a b : Entry) : bool :=
  match bytes_compare (Key a) (Key b) with
  | Lt => true
  | Gt => false
  | Eq => Version b <? Version a
  end.

Fixpoint insertSorted (e : Entry) (l : list Entry) : list Entry :=
  match l with
  | [] => [e]
  | x :: l' => if versionLess x e then x :: insertSorted e l' else e :: l
  end.

Definition sortVersions (l : list Entry) : list Entry := foldr insertSorted [] l.

Definition AllVersions (s : SkipList) : list Entry := sortVersions (contents s).

Definition AllVersionsAt (s : SkipList) (maxVersion : Z) : list Entry :=
  sortVersions (filter (fun e => Version e <= maxVersion) (contents s)).

(** ** The bottom-level iterator *)

Definition NewIterator (s : SkipList) : option nat := loadForward (sl_nodes s) 0 0.

Fixpoint seekTail (fuel : nat) (h : list Node) (key : bytes) (curr : option nat) : option nat :=
  match fuel, curr with
  | S f, Some c => if bytes_ltb (keyAt h c) key then seekTail f h key (loadForward h c 0) else curr
  | _, _ => curr
  end.

Definition SkipListIterator_Seek (s : SkipList) (key : bytes) : option nat :=
  let h := sl_nodes s in
  seekTail (length h) h key (loadForward h (findPred s key) 0).

Definition SkipListIterator_Next (s : SkipList) (it : option nat) : bool * option nat :=
  match it with
  | None => (false, None)
  | Some c => let n := loadForward (sl_nodes s) c 0 in (bool_decide (is_Some n), n)
  end.

(** ** Chains of forward pointers *)

Fixpoint endOf (a : nat) (l : list nat) : nat := match l with [] => a | b :: l' => endOf b l' end.

(** Following level [i] from [a] visits [l]. *)
Fixpoint seg (h : list Node) (i a : nat) (l : list nat) : Prop :=
  match l with [] => True | b :: l' => loadForward h a i = Some b /\ seg h i b l' end.

(** ... and then ends. *)
Definition path (h : list Node) (i a : nat) (l : list nat) : Prop :=
  seg h i a l /\ loadForward h (endOf a l) i = None.

Lemma endOf_app a l1 l2 : endOf a (l1 ++ l2) = endOf (endOf a l1) l2.
Proof. revert a. induction l1; simpl; auto. Qed.

Lemma endOf_in a l : endOf a l = a \/ endOf a l ∈ l.
Proof.
  revert a. induction l as [|b l IH]; intros a; [by left|right]. simpl.
  destruct (IH b) as [->|?]; [by left|by right].
Qed.

Lemma seg_app h i a l1 l2 : seg h i a (l1 ++ l2) <-> seg h i a l1 /\ seg h i (endOf a l1) l2.
Proof. revert a. induction l1 as [|b l1 IH]; intros a; simpl; [tauto|]. rewrite IH. tauto. Qed.

Lemma path_app h i a l1 l2 : path h i a (l1 ++ l2) <-> seg h i a l1 /\ path h i (endOf a l1) l2.
Proof. unfold path. rewrite seg_app, endOf_app. tauto. Qed.

Lemma path_cons h i a b l : path h i a (b :: l) <-> loadForward h a i = Some b /\ path h i b l.
Proof. unfold path. simpl. tauto. Qed.

Lemma path_nil h i a : path h i a [] <-> loadForward h a i = None.
Proof. unfold path. simpl. tauto. Qed.

Lemma path_split_at a l c : c = a \/ c ∈ l -> exists p q, l = p ++ q /\ endOf a p = c.
Proof.
  intros [->|Hc]; [by exists [], l|]. apply list_elem_of_split in Hc as (p & q & ->).
  exists (p ++ [c]), q. rewrite <- app_assoc. split; [done|]. by rewrite endOf_app.
Qed.

(** A segment depends only on the pointers before its end. *)
Lemma seg_ext h h' i a l :
  NoDup (a :: l) -> seg h i a l ->
  (forall x, x ∈ a :: l -> x <> endOf a l -> loadForward h' x i = loadForward h x i) -> seg h' i a l.
Proof.
  revert a. induction l as [|b l IH]; intros a Hnd Hs He; [done|].
  destruct Hs as [Hab Hs]. apply NoDup_cons in Hnd as [Ha Hnd]. simpl. split.
  - rewrite He; [done|by left|]. simpl. destruct (endOf_in b l) as [->|Hin]; intros ->; apply Ha;
      [by left|by right].
  - apply IH; [done..|]. intros x Hx Hne. apply He; [by right|done].
Qed.

Lemma path_ext h h' i a l :
  path h i a l -> (forall x, x ∈ a :: l -> loadForward h' x i = loadForward h x i) -> path h' i a l.
Proof.
  revert a. induction l as [|b l IH]; intros a; rewrite ?path_nil, ?path_cons.
  - intros H He. rewrite He; [done|by left].
  - intros [H Hp] He. rewrite He by (by left). split; [done|]. apply IH; [done|]. intros x Hx. apply He. by right.
Qed.

(** *** Updating one pointer *)

Definition towers (h : list Node) : Prop := Forall (fun nd => length (n_fwd nd) = maxLevel) h.

Lemma length_setForward h n i p : length (setForward h n i p) = length h.
Proof. apply length_alter. Qed.

Lemma towers_setForward h n i p : towers h -> towers (setForward h n i p).
Proof.
  intros H. apply Forall_alter; [done|]. intros nd Hl Hnd. simpl. by rewrite length_insert.
Qed.

Lemma entryAt_setForward h n i p m : entryAt (setForward h n i p) m = entryAt h m.
Proof.
  unfold entryAt, setForward. destruct (decide (n = m)) as [->|Hne].
  - rewrite list_lookup_alter_eq. by destruct (h !! m).
  - by rewrite list_lookup_alter_ne.
Qed.

Lemma keyAt_setForward h n i p m : keyAt (setForward h n i p) m = keyAt h m.
Proof. unfold keyAt. by rewrite entryAt_setForward. Qed.

Lemma loadForward_set_eq h n i p :
  towers h -> (n < length h)%nat -> (i < maxLevel)%nat -> loadForward (setForward h n i p) n i = p.
Proof.
  intros Ht Hn Hi. unfold loadForward, setForward. rewrite list_lookup_alter_eq.
  apply lookup_lt_is_Some in Hn as [nd Hnd]. rewrite Hnd. simpl.
  rewrite list_lookup_insert_eq; [done|]. rewrite (Forall_lookup_1 _ _ _ _ Ht Hnd). done.
Qed.

Lemma loadForward_set_ne h n i p m j :
  m <> n \/ j <> i -> loadForward (setForward h n i p) m j = loadForward h m j.
Proof.
  intros Hne. unfold loadForward, setForward. destruct (decide (n = m)) as [->|Hnm].
  - rewrite list_lookup_alter_eq. destruct (h !! m) as [nd|]; [|done]. simpl.
    rewrite list_lookup_insert_ne; [done|]. naive_solver.
  - by rewrite list_lookup_alter_ne.
Qed.

(** Linking a fresh node behind [endOf a B] at level [i]. *)
Definition linkOne (h : list Node) (new u i : nat) : list Node :=
  setForward (setForward h new i (loadForward h u i)) u i (Some new).

Lemma linkOne_path h i a B A new :
  towers h -> NoDup (a :: B ++ A) -> (forall x, x ∈ a :: B ++ A -> x < length h)%nat ->
  new ∉ a :: B ++ A -> (new < length h)%nat -> (i < maxLevel)%nat ->
  path h i a (B ++ A) -> path (linkOne h new (endOf a B) i) i a (B ++ new :: A).
Proof.
  intros Ht Hnd Hlt Hfresh Hnew Hi [Hs Hp]%path_app. set (u := endOf a B) in *.
  assert (u ∈ a :: B) as Hu by (destruct (endOf_in a B) as [E|E]; unfold u; rewrite ?E; [left|right]; done).
  assert (u ∈ a :: B ++ A) as Hu' by (apply elem_of_cons in Hu as [->|?]; [left|right; apply elem_of_app; by left]).
  assert (u <> new) as Hun by (intros ->; done).
  assert (towers (setForward h new i (loadForward h u i))) as Ht1 by by apply towers_setForward.
  assert (forall x, x <> u -> x <> new -> loadForward (linkOne h new u i) x i = loadForward h x i) as Hfr.
  { intros x H1 H2. unfold linkOne. rewrite !loadForward_set_ne by auto. done. }
  change (a :: B ++ A) with ((a :: B) ++ A) in *. apply NoDup_app in Hnd as (HndB & Hdis & HndA).
  apply path_app. split.
  - eapply seg_ext; [done|exact Hs|]. intros x Hx Hne. apply Hfr; [done|].
    intros ->. apply Hfresh, elem_of_app. by left.
  - fold u. apply path_cons. split.
    + unfold linkOne. apply loadForward_set_eq; [done|rewrite length_setForward; auto|done].
    + assert (loadForward (linkOne h new u i) new i = loadForward h u i) as Hnf.
      { unfold linkOne. rewrite loadForward_set_ne by auto. by apply loadForward_set_eq. }
      assert (forall x, x ∈ A -> loadForward (linkOne h new u i) x i = loadForward h x i) as HA.
      { intros x Hx. apply Hfr; [intros ->; by apply (Hdis u)|].
        intros ->. apply Hfresh, elem_of_app. by right. }
      destruct A as [|b A]; rewrite ?path_nil, ?path_cons, Hnf in *; [done|].
      destruct Hp as [-> Hp]. split; [done|]. eapply path_ext; [exact Hp|]. auto.
Qed.

Lemma linkOne_path_ne h i j a l new u : j <> i -> path h j a l -> path (linkOne h new u i) j a l.
Proof.
  intros Hne Hp. eapply path_ext; [exact Hp|]. intros x _. unfold linkOne.
  rewrite !loadForward_set_ne by auto. done.
Qed.

Lemma linkOne_frame h new u i :
  length (linkOne h new u i) = length h /\ (towers h -> towers (linkOne h new u i)) /\
  forall m, entryAt (linkOne h new u i) m = entryAt h m.
Proof.
  unfold linkOne. split; [by rewrite !length_setForward|]. split.
  - intros. by apply towers_setForward, towers_setForward.
  - intros m. by rewrite !entryAt_setForward.
Qed.

(** *** The descent *)

Lemma walk_spec h i key a B A fuel :
  path h i a (B ++ A) -> (forall b, b ∈ B -> bytes_lt (keyAt h b) key) ->
  (forall b, b ∈ A -> bytes_le key (keyAt h b)) -> (length B <= fuel)%nat ->
  walk fuel h i a key = endOf a B.
Proof.
  revert a fuel. induction B as [|b B IH]; intros a fuel Hp HB HA Hf; simpl.
  - destruct fuel as [|f]; [done|]. simpl. destruct A as [|x A]; simpl in Hp.
    + apply path_nil in Hp. by rewrite Hp.
    + apply path_cons in Hp as [-> _].
      rewrite (proj2 (bytes_ltb_false _ _)); [done|]. apply HA. by left.
  - destruct fuel as [|f]; simpl in Hf; [lia|]. simpl in *. apply path_cons in Hp as [-> Hp].
    rewrite (proj2 (bytes_ltb_spec _ _)) by (apply HB; by left).
    apply IH; [done| |done|lia]. intros x Hx. apply HB. by right.
Qed.

Section descent.
Context (h : list Node) (key : bytes) (B A : list nat) (ht : nat -> nat).

(** The nodes of [l] whose tower reaches level [i]. *)
Definition atLevel (i : nat) (l : list nat) : list nat := filter (fun a => i < ht a)%nat l.

Context (paths : forall i, (i < maxLevel)%nat -> path h i 0%nat (atLevel i (B ++ A))).
Context (smaller : forall b, b ∈ B -> bytes_lt (keyAt h b) key).
Context (larger : forall b, b ∈ A -> bytes_le key (keyAt h b)).
Context (short : (length B <= length h)%nat).

Definition predAt (i : nat) : nat := endOf 0%nat (atLevel i B).

Lemma pred_in i : predAt i = 0%nat \/ (predAt i ∈ B /\ (i < ht (predAt i))%nat).
Proof.
  destruct (endOf_in 0 (atLevel i B)) as [?|Hin]; [by left|right].
  by apply list_elem_of_filter in Hin as [? ?].
Qed.

Lemma walk_pred i curr :
  (i < maxLevel)%nat -> curr = 0%nat \/ (curr ∈ B /\ (i < ht curr)%nat) ->
  walk (length h) h i curr key = predAt i.
Proof.
  intros Hi Hc. unfold predAt.
  destruct (path_split_at 0 (atLevel i B) curr) as (p & q & Hpq & <-).
  { destruct Hc as [->|[? ?]]; [by left|right]. by apply list_elem_of_filter. }
  pose proof (paths i Hi) as Hp. unfold atLevel in Hp, Hpq. rewrite filter_app, Hpq, <- app_assoc in Hp.
  apply path_app in Hp as [_ Hp]. unfold atLevel. rewrite Hpq, endOf_app. eapply walk_spec; [exact Hp| | |].
  - intros b Hb. apply smaller. assert (b ∈ filter (fun a => i < ht a)%nat B) as Hin
      by (rewrite Hpq; apply elem_of_app; by right). by apply list_elem_of_filter in Hin as [_ ?].
  - intros b [_ Hb]%list_elem_of_filter. auto.
  - etrans; [|exact short]. pose proof (length_filter (fun a => i < ht a)%nat B) as Hl.
    rewrite Hpq, length_app in Hl. lia.
Qed.

Lemma findSplice_spec level curr upd :
  (level <= maxLevel)%nat -> length upd = maxLevel ->
  curr = 0%nat \/ (curr ∈ B /\ (level <= ht curr)%nat) ->
  let r := findSpliceForLevel h key level curr upd in
  (level <> 0%nat -> r.1 = predAt 0) /\ length r.2 = maxLevel /\
  (forall j, (j < level)%nat -> r.2 !! j = Some (Some (predAt j))) /\
  (forall j, (level <= j)%nat -> r.2 !! j = upd !! j).
Proof.
  revert curr upd. induction level as [|i IH]; intros curr upd Hl Hu Hc; simpl; [by repeat split; try lia|].
  rewrite (walk_pred i curr) by (lia || naive_solver lia).
  destruct (IH (predAt i) (<[i := Some (predAt i)]> upd)) as (H1 & H2 & H3 & H4);
    [lia|by rewrite length_insert|destruct (pred_in i); naive_solver lia|].
  split; [|split; [done|split]].
  - intros _. destruct i; [done|]. by apply H1.
  - intros j Hj. destruct (decide (j = i)) as [->|]; [|apply H3; lia].
    rewrite H4 by lia. apply list_lookup_insert_eq. lia.
  - intros j Hj. rewrite H4 by lia. apply list_lookup_insert_ne. lia.
Qed.
End descent.

(** ** The invariant *)

Record sl_inv (s : SkipList) (L : list nat) (ht : nat -> nat) : Prop := {
  si_paths : forall i, (i < maxLevel)%nat -> path (sl_nodes s) i 0%nat (atLevel ht i L);
  si_nodup : NoDup L;
  si_addr : forall a, a ∈ L -> (0 < a < length (sl_nodes s))%nat;
  si_sorted : StronglySorted bytes_le (keyAt (sl_nodes s) <$> L);
  si_height : forall a, a ∈ L -> (1 <= ht a <= sl_level s)%nat;
  si_level : (1 <= sl_level s <= maxLevel)%nat;
  si_towers : towers (sl_nodes s);
  si_head : (0 < length (sl_nodes s))%nat
}.

Lemma length_path_le (L : list nat) n : NoDup L -> (forall a, a ∈ L -> a < n)%nat -> (length L <= n)%nat.
Proof.
  intros Hnd Hlt. rewrite <- (length_seq n 0). apply submseteq_length, NoDup_submseteq; [done|].
  intros a Ha. apply elem_of_seq. specialize (Hlt a Ha). lia.
Qed.

Lemma NewSkipList_inv seed : sl_inv (NewSkipList seed) [] (fun _ => 1%nat).
Proof.
  split; simpl; try (by intros a ?%elem_of_nil); [|apply NoDup_nil_2|constructor|unfold maxLevel; lia|by repeat constructor|lia].
  intros i Hi. apply path_nil. unfold loadForward. change (n_fwd headNode) with (replicate maxLevel (@None nat)).
  cbn [lookup list_lookup mbind option_bind NewSkipList sl_nodes headNode n_fwd]. by rewrite lookup_replicate_2.
Qed.

(** Below [key] and from [key] on. *)
Definition below (h : list Node) (key : bytes) (L : list nat) : list nat :=
  filter (fun a => bytes_ltb (keyAt h a) key = true) L.

Definition above (h : list Node) (key : bytes) (L : list nat) : list nat :=
  filter (fun a => bytes_ltb (keyAt h a) key = false) L.

Lemma below_above h key L :
  StronglySorted bytes_le (keyAt h <$> L) -> L = below h key L ++ above h key L.
Proof.
  intros Hs. induction L as [|a L IH]; [done|]. simpl in Hs. apply StronglySorted_inv in Hs as [Hs Ha].
  unfold below, above in *. rewrite !filter_cons. destruct (bytes_ltb (keyAt h a) key) eqn:E.
  - rewrite decide_True, decide_False by done. simpl. by rewrite <- IH.
  - rewrite decide_False, decide_True by done.
    assert (forall b, b ∈ L -> bytes_ltb (keyAt h b) key = false) as Hb.
    { intros b Hb. apply bytes_ltb_false. apply bytes_ltb_false in E. eapply bytes_le_trans; [exact E|].
      rewrite Forall_forall in Ha. by apply Ha, list_elem_of_fmap_2. }
    rewrite (filter_none _ L) by (intros b Hb1; rewrite Hb; done). simpl. by rewrite filter_all.
Qed.

Lemma elem_of_below h key L a : a ∈ below h key L -> a ∈ L /\ bytes_lt (keyAt h a) key.
Proof. intros [H1 H2]%list_elem_of_filter. by apply bytes_ltb_spec in H1. Qed.

Lemma elem_of_above h key L a : a ∈ above h key L -> a ∈ L /\ bytes_le key (keyAt h a).
Proof. intros [H1 H2]%list_elem_of_filter. by apply bytes_ltb_false in H1. Qed.

(** *** Insertion *)

Lemma linkLevels_spec count i new upd h B A ht :
  (i + count <= maxLevel)%nat ->
  (forall j, (i <= j < i + count)%nat -> upd !! j = Some (Some (predAt B ht j))) ->
  towers h -> NoDup (0%nat :: B ++ A) -> (forall x, x ∈ 0%nat :: B ++ A -> x < length h)%nat ->
  new ∉ 0%nat :: B ++ A -> (new < length h)%nat ->
  (forall j, (i <= j < i + count)%nat -> path h j 0%nat (atLevel ht j (B ++ A))) ->
  exists h', linkLevels count i new upd h = Some h' /\ length h' = length h /\ towers h' /\
    (forall m, entryAt h' m = entryAt h m) /\
    (forall j l, ~ (i <= j < i + count)%nat -> path h j 0%nat l -> path h' j 0%nat l) /\
    (forall j, (i <= j < i + count)%nat -> path h' j 0%nat (atLevel ht j B ++ new :: atLevel ht j A)).
Proof.
  revert i h. induction count as [|c IH]; intros i h Hmax Hupd Ht Hnd Hlt Hfresh Hnew Hp; simpl.
  { exists h. split_and!; try done. intros j Hj. lia. }
  rewrite Hupd by lia. change (setForward (setForward h new i (loadForward h (predAt B ht i) i)) (predAt B ht i) i (Some new))
    with (linkOne h new (predAt B ht i) i).
  destruct (linkOne_frame h new (predAt B ht i) i) as (Hlen & Htow & Hent).
  assert (forall j, sublist (0%nat :: atLevel ht j B ++ atLevel ht j A) (0%nat :: B ++ A)) as Hsub.
  { intros j. apply sublist_skip. unfold atLevel. rewrite <- filter_app. apply sublist_filter. }
  assert (path (linkOne h new (predAt B ht i) i) i 0%nat (atLevel ht i B ++ new :: atLevel ht i A)) as Hpi.
  { apply linkOne_path; try done; [eapply sublist_NoDup; [exact Hnd|apply Hsub]| | |lia|].
    - intros x Hx. apply Hlt. eapply sublist_subseteq; [apply Hsub|exact Hx].
    - intros Hx. apply Hfresh. eapply sublist_subseteq; [apply Hsub|exact Hx].
    - unfold atLevel. rewrite <- filter_app. apply Hp. lia. }
  destruct (IH (S i) (linkOne h new (predAt B ht i) i)) as (h' & -> & Hl' & Ht' & He' & Hold & Hnewp); try done.
  - lia.
  - intros j Hj. apply Hupd. lia.
  - by apply Htow.
  - intros x Hx. rewrite Hlen. auto.
  - by rewrite Hlen.
  - intros j Hj. apply linkOne_path_ne; [lia|]. apply Hp. lia.
  - exists h'. split; [done|]. split; [lia|]. split; [done|]. split; [intros m; by rewrite He'|]. split.
    + intros j l Hj Hpl. apply Hold; [lia|]. apply linkOne_path_ne; [lia|done].
    + intros j Hj. destruct (decide (j = i)) as [->|]; [apply Hold; [lia|done]|apply Hnewp; lia].
Qed.

Lemma randomLevelLoop_bounds fuel lvl seed :
  (1 <= lvl <= maxLevel)%nat -> (1 <= (randomLevelLoop fuel lvl seed).1 <= maxLevel)%nat.
Proof.
  revert lvl seed. induction fuel as [|f IH]; intros lvl seed Hl; simpl; [done|].
  repeat case_if; simpl; auto. apply IH. lia.
Qed.

Lemma raiseUpdate_spec count i upd :
  (i + count <= length upd)%nat ->
  length (raiseUpdate count i upd) = length upd /\
  (forall j, (i <= j < i + count)%nat -> raiseUpdate count i upd !! j = Some (Some 0%nat)) /\
  (forall j, ~ (i <= j < i + count)%nat -> raiseUpdate count i upd !! j = upd !! j).
Proof.
  revert i upd. induction count as [|c IH]; intros i upd H; simpl; [repeat split; lia|].
  destruct (IH (S i) (<[i := Some 0%nat]> upd)) as (H1 & H2 & H3); [rewrite length_insert; lia|].
  rewrite length_insert in H1. split; [done|]. split.
  - intros j Hj. destruct (decide (j = i)) as [->|]; [|apply H2; lia].
    rewrite H3 by lia. apply list_lookup_insert_eq. lia.
  - intros j Hj. rewrite H3 by lia. apply list_lookup_insert_ne. lia.
Qed.

Lemma atLevel_insert ht j lvl new B A :
  new ∉ B ++ A ->
  atLevel (fun a => if decide (a = new) then lvl else ht a) j (B ++ new :: A) =
    atLevel ht j B ++ (if (j <? lvl)%nat then [new] else []) ++ atLevel ht j A.
Proof.
  intros Hn. unfold atLevel. rewrite filter_app, filter_cons.
  assert (forall l : list nat, (forall a, a ∈ l -> a <> new) ->
    filter (fun a => (j < (if decide (a = new) then lvl else ht a))%nat) l = filter (fun a => (j < ht a)%nat) l) as Hf.
  { intros l Hl. apply filter_ext_in. intros a Ha. by rewrite decide_False by auto. }
  rewrite !Hf by (intros a Ha ->; apply Hn, elem_of_app; auto).
  f_equal. destruct (decide (new = new)) as [_|]; [|done].
  destruct (Nat.ltb_spec j lvl); [by rewrite decide_True|by rewrite decide_False by lia].
Qed.

Lemma lookup_snoc_lt {A} (l : list A) x i : (i < length l)%nat -> (l ++ [x]) !! i = l !! i.
Proof. intros. by apply lookup_app_l. Qed.

Lemma entryAt_snoc h nd a : (a < length h)%nat -> entryAt (h ++ [nd]) a = entryAt h a.
Proof. intros H. unfold entryAt. by rewrite lookup_snoc_lt. Qed.

Lemma path_snoc h nd i l :
  (0 < length h)%nat -> (forall a, a ∈ l -> a < length h)%nat ->
  path h i 0%nat l -> path (h ++ [nd]) i 0%nat l.
Proof.
  intros H0 Hl Hp. eapply path_ext; [exact Hp|]. intros x Hx. unfold loadForward.
  rewrite lookup_snoc_lt; [done|]. apply elem_of_cons in Hx as [->|?]; auto.
Qed.

(** The predecessors the descent leaves in [update], above the list included. *)
Lemma insert_update s L ht key :
  sl_inv s L ht ->
  let B := below (sl_nodes s) key L in
  let r := findSpliceForLevel (sl_nodes s) key (sl_level s) 0 (replicate maxLevel None) in
  r.1 = predAt B ht 0 /\ length r.2 = maxLevel /\
  (forall j, (j < sl_level s)%nat -> r.2 !! j = Some (Some (predAt B ht j))) /\
  (forall j, (sl_level s <= j)%nat -> predAt B ht j = 0%nat).
Proof.
  intros Hi B r. pose proof (below_above _ key L (si_sorted _ _ _ Hi)) as HL.
  pose proof (si_level _ _ _ Hi) as Hlev.
  destruct (findSplice_spec (sl_nodes s) key B (above (sl_nodes s) key L) ht) with
    (level := sl_level s) (curr := 0%nat) (upd := replicate maxLevel (@None nat)) as (H1 & H2 & H3 & _).
  - intros i Hlt. unfold B. rewrite <- HL. by apply Hi.
  - intros b Hb. by apply (elem_of_below _ _ L).
  - intros b Hb. by apply (elem_of_above _ _ L).
  - apply length_path_le; [eapply sublist_NoDup; [apply Hi|apply sublist_filter]|].
    intros a Ha. apply (si_addr _ _ _ Hi). by apply (elem_of_below (sl_nodes s) key).
  - lia.
  - by rewrite length_replicate.
  - by left.
  - split; [apply H1; lia|]. split; [done|]. split; [done|].
    intros j Hj. unfold predAt, atLevel. rewrite filter_none; [done|].
    intros a Ha. apply elem_of_below in Ha as [Ha _]. pose proof (si_height _ _ _ Hi a Ha). lia.
Qed.

(** The sorted list of addresses with the new node in front of its key. *)
Definition inserted (s : SkipList) (key : bytes) (L : list nat) : list nat :=
  below (sl_nodes s) key L ++ length (sl_nodes s) :: above (sl_nodes s) key L.

Lemma insert_links s L ht e lvl upd :
  sl_inv s L ht -> (lvl <= maxLevel)%nat ->
  (forall j, (j < lvl)%nat -> upd !! j = Some (Some (predAt (below (sl_nodes s) (Key e) L) ht j))) ->
  let new := length (sl_nodes s) in
  exists h', linkLevels lvl 0 new upd (sl_nodes s ++ [mkNode e (replicate maxLevel None)]) = Some h' /\
    length h' = S new /\ towers h' /\ entryAt h' new = e /\
    (forall a, (a < new)%nat -> entryAt h' a = entryAt (sl_nodes s) a) /\
    (forall j, (j < maxLevel)%nat ->
       path h' j 0%nat (atLevel (fun a => if decide (a = new) then lvl else ht a) j (inserted s (Key e) L))).
Proof.
  intros Hi Hlvl Hupd new. pose proof (below_above _ (Key e) L (si_sorted _ _ _ Hi)) as HL.
  unfold inserted. fold new. set (B := below (sl_nodes s) (Key e) L) in *.
  set (A := above (sl_nodes s) (Key e) L) in *.
  assert (forall x, x ∈ 0%nat :: B ++ A -> x < new)%nat as Hlt.
  { rewrite <- HL. intros x [->|Hx]%elem_of_cons; [apply (si_head _ _ _ Hi)|apply (si_addr _ _ _ Hi x Hx)]. }
  assert (new ∉ 0%nat :: B ++ A) as Hfresh by (intros Hx%Hlt; lia).
  destruct (linkLevels_spec lvl 0 new upd (sl_nodes s ++ [mkNode e (replicate maxLevel None)]) B A ht)
    as (h' & -> & Hlen & Htow & Hent & Hold & Hnew).
  - done.
  - intros j Hj. apply Hupd. lia.
  - apply Forall_app. split; [apply Hi|]. apply Forall_singleton. apply length_replicate.
  - rewrite <- HL. apply NoDup_cons. split; [|apply Hi]. intros H0%(si_addr _ _ _ Hi). lia.
  - intros x Hx%Hlt. rewrite length_app. lia.
  - done.
  - rewrite length_app. simpl. lia.
  - intros j Hj. apply path_snoc; [apply (si_head _ _ _ Hi)| |].
    + intros a [_ Ha]%list_elem_of_filter. apply Hlt. by right.
    + rewrite <- HL. apply (si_paths _ _ _ Hi). lia.
  - exists h'. split; [done|]. split; [rewrite Hlen, length_app; simpl; lia|]. split; [done|]. split.
    { rewrite Hent. unfold entryAt. by rewrite lookup_app_r, Nat.sub_diag. }
    split; [intros a Ha; by rewrite Hent, entryAt_snoc|].
    intros j Hj. rewrite atLevel_insert by (intros Hx; apply Hfresh; by right).
    destruct (Nat.ltb_spec j lvl) as [Hjl|Hjl]; [apply Hnew; lia|]. simpl. apply Hold; [lia|].
    apply path_snoc; [apply (si_head _ _ _ Hi)| |].
    + intros a Ha. apply Hlt. right. unfold atLevel in Ha. rewrite <- filter_app in Ha. by apply list_elem_of_filter in Ha as [_ ?].
    + unfold atLevel. rewrite <- filter_app, <- HL. by apply (si_paths _ _ _ Hi).
Qed.

Lemma keys_inserted s L h' e :
  (forall a, a ∈ L -> keyAt h' a = keyAt (sl_nodes s) a) -> keyAt h' (length (sl_nodes s)) = Key e ->
  StronglySorted bytes_le (keyAt (sl_nodes s) <$> L) ->
  StronglySorted bytes_le (keyAt h' <$> inserted s (Key e) L).
Proof.
  intros Hk Hn Hs. pose proof (below_above _ (Key e) L Hs) as HL. unfold inserted.
  rewrite HL, fmap_app in Hs. apply StronglySorted_app in Hs as (HB & HA & HBA).
  assert (forall f : list nat, (forall a, a ∈ f -> a ∈ L) -> keyAt h' <$> f = keyAt (sl_nodes s) <$> f) as Hf.
  { intros f Hf. apply list_fmap_ext. intros i x Hx. apply Hk, Hf. by eapply list_elem_of_lookup_2. }
  rewrite fmap_app, fmap_cons, Hn, !Hf
    by (intros a Ha; by apply list_elem_of_filter in Ha as [_ ?]).
  apply StronglySorted_app. split; [done|]. split.
  - constructor; [done|]. apply Forall_forall. intros k (a & -> & Ha)%list_elem_of_fmap.
    by apply elem_of_above in Ha as [_ ?].
  - intros x y Hx [->|Hy]%elem_of_cons; [|auto].
    apply list_elem_of_fmap in Hx as (a & -> & Ha). by apply elem_of_below in Ha as [_ ?%bytes_lt_le].
Qed.

(** A writer's insertion never dereferences nil, keeps the invariant and puts
    the new entry in front of the entries of its key. *)
Lemma insertNode_inv s L ht e counter size :
  sl_inv s L ht ->
  exists s' ht', insertNode s e counter size = Some s' /\
    let new := length (sl_nodes s) in
    sl_inv s' (inserted s (Key e) L) ht' /\ entryAt (sl_nodes s') new = e /\
    (forall a, (a < new)%nat -> entryAt (sl_nodes s') a = entryAt (sl_nodes s) a) /\
    sl_versionCounter s' = counter /\ sl_sizeBytes s' = sl_sizeBytes s + size.
Proof.
  intros Hi. unfold insertNode. destruct (insert_update s L ht (Key e) Hi) as (_ & Hl & Hu & Hz).
  destruct (randomLevel (sl_randSeed s)) as [lvl seed] eqn:Er.
  assert (1 <= lvl <= maxLevel)%nat as Hlvl.
  { pose proof (randomLevelLoop_bounds maxLevel 1 (sl_randSeed s)) as Hb. unfold randomLevel in Er.
    rewrite Er in Hb. apply Hb. unfold maxLevel. lia. }
  pose proof (si_level _ _ _ Hi) as Hlev. set (r := (findSpliceForLevel _ _ _ _ _).2) in *.
  set (upd := if (sl_level s <? lvl)%nat then raiseUpdate (lvl - sl_level s) (sl_level s) r else r).
  destruct (insert_links s L ht e lvl upd Hi) as (h' & E & Hlen & Htow & Hnew & Hent & Hp); [lia| |].
  { intros j Hj. unfold upd. destruct (Nat.ltb_spec (sl_level s) lvl); [|apply Hu; lia].
    destruct (raiseUpdate_spec (lvl - sl_level s) (sl_level s) r) as (_ & Hin & Hout); [lia|].
    destruct (decide (sl_level s <= j)%nat); [rewrite Hin, Hz by lia; done|rewrite Hout by lia; apply Hu; lia]. }
  set (new := length (sl_nodes s)) in *. cbv beta iota zeta. fold r. fold upd.
  rewrite E. cbn [mbind option_bind].
  pose proof (below_above _ (Key e) L (si_sorted _ _ _ Hi)) as HL.
  assert (forall a, a ∈ inserted s (Key e) L -> a = new \/ a ∈ L) as Hin.
  { intros a. unfold inserted. rewrite HL at 3. rewrite !elem_of_app, elem_of_cons. tauto. }
  assert (new ∉ L) as Hfresh by (intros Hx%(si_addr _ _ _ Hi); unfold new in Hx; lia).
  eexists _, (fun a => if decide (a = new) then lvl else ht a). split; [reflexivity|]. cbn [sl_nodes sl_versionCounter sl_sizeBytes].
  split; [|by split_and!]. split; cbn [sl_nodes sl_level]; try done.
  - unfold inserted. rewrite <- Permutation_middle, <- HL. apply NoDup_cons. split; [done|apply Hi].
  - intros a [->|Ha]%Hin; [pose proof (si_head _ _ _ Hi); unfold new in *; lia|].
    pose proof (si_addr _ _ _ Hi a Ha). unfold new in *. lia.
  - apply keys_inserted; [|unfold keyAt; fold new; by rewrite Hnew|apply Hi].
    intros a Ha. unfold keyAt. rewrite Hent; [done|]. apply (si_addr _ _ _ Hi a Ha).
  - intros a [->|Ha]%Hin; case_decide; subst; try done.
    + destruct (Nat.ltb_spec (sl_level s) lvl); lia.
    + pose proof (si_height _ _ _ Hi a Ha). destruct (Nat.ltb_spec (sl_level s) lvl); lia.
  - destruct (Nat.ltb_spec (sl_level s) lvl); lia.
  - lia.
Qed.

(** ** Reads refine the snapshot contract *)

Lemma bottomWalk_path h a l fuel :
  path h 0 a l -> (length l <= fuel)%nat -> bottomWalk fuel h (loadForward h a 0) = l.
Proof.
  revert a fuel. induction l as [|b l IH]; intros a fuel Hp Hf.
  - apply path_nil in Hp. rewrite Hp. by destruct fuel.
  - apply path_cons in Hp as [-> Hp]. destruct fuel as [|f]; simpl in *; [lia|]. f_equal. apply IH; [done|lia].
Qed.

Section reads.
Context (s : SkipList) (L : list nat) (ht : nat -> nat) (Hi : sl_inv s L ht).

Lemma bottom_level : path (sl_nodes s) 0 0%nat L.
Proof.
  pose proof (si_paths _ _ _ Hi 0%nat ltac:(unfold maxLevel; lia)) as H. unfold atLevel in H.
  rewrite filter_all in H; [done|]. intros a Ha. apply (si_height _ _ _ Hi) in Ha. lia.
Qed.

Lemma fuel_ok : (length L <= length (sl_nodes s))%nat.
Proof. apply length_path_le; [apply Hi|]. intros a Ha. apply (si_addr _ _ _ Hi a Ha). Qed.

Lemma bottom_eq : bottom s = L.
Proof. apply bottomWalk_path; [apply bottom_level|apply fuel_ok]. Qed.

(** The node the descent stops at is followed by the entries from [key] on. *)
Lemma findPred_above key :
  path (sl_nodes s) 0 (findPred s key) (above (sl_nodes s) key L) /\
  (length (above (sl_nodes s) key L) <= length (sl_nodes s))%nat /\
  StronglySorted bytes_le (key :: (keyAt (sl_nodes s) <$> above (sl_nodes s) key L)).
Proof.
  destruct (insert_update s L ht key Hi) as (Hp & _). unfold findPred. rewrite Hp.
  pose proof bottom_level as Hb. rewrite (below_above _ key L (si_sorted _ _ _ Hi)) in Hb.
  split; [|split].
  - apply path_app in Hb as [_ Hb]. unfold predAt, atLevel.
    rewrite filter_all; [done|]. intros a Ha. apply elem_of_below in Ha as [Ha _].
    apply (si_height _ _ _ Hi) in Ha. lia.
  - etrans; [apply length_filter|apply fuel_ok].
  - constructor.
    + eapply StronglySorted_sublist; [apply fmap_sublist, sublist_filter|apply Hi].
    + apply Forall_forall. intros k (a & -> & Ha)%list_elem_of_fmap. by apply elem_of_above in Ha as [_ ?].
Qed.
End reads.

(** Entries at or above [key]: the run of [key] itself comes first. *)
Lemma filter_key_run h key n l maxVersion :
  StronglySorted bytes_le (key :: (keyAt h <$> n :: l)) -> keyAt h n <> key ->
  filter (visible_at key maxVersion) (entryAt h <$> n :: l) = [].
Proof.
  intros Hs Hne. apply StronglySorted_inv in Hs as [Hs Hk]. simpl in Hs, Hk.
  apply StronglySorted_inv in Hs as [_ Hs]. apply Forall_cons in Hk as [Hk _].
  apply filter_none. intros e He [Hkey _]. apply list_elem_of_fmap in He as (a & -> & Ha).
  apply elem_of_cons in Ha as [->|Ha]; [done|]. rewrite Forall_forall in Hs.
  specialize (Hs (keyAt h a) ltac:(by apply list_elem_of_fmap_2)). unfold keyAt in *. rewrite Hkey in Hs.
  apply Hne. by apply bytes_le_antisym.
Qed.

Lemma scanVisible_spec h key maxVersion a l best fuel :
  path h 0 a l -> (length l <= fuel)%nat ->
  StronglySorted bytes_le (key :: (keyAt h <$> l)) ->
  entryAt h <$> scanVisible fuel h key maxVersion (loadForward h a 0) best =
    foldl newer (entryAt h <$> best) (filter (visible_at key maxVersion) (entryAt h <$> l)).
Proof.
  revert a best fuel. induction l as [|n l IH]; intros a best fuel Hp Hf Hs.
  { apply path_nil in Hp. rewrite Hp. by destruct fuel. }
  apply path_cons in Hp as [-> Hp]. destruct fuel as [|f]; simpl in Hf; [lia|]. simpl scanVisible.
  destruct (bytes_eqb (keyAt h n) key) eqn:E.
  - apply bytes_eqb_spec in E. rewrite IH; [|done|lia|].
    2: { by eapply StronglySorted_drop2. }
    rewrite fmap_cons, filter_cons. unfold visible_at at 2. fold (keyAt h n).
    destruct (Z.leb_spec (Version (entryAt h n)) maxVersion).
    + rewrite decide_True by done. simpl. f_equal. destruct best as [b|]; simpl; [|done]. by case_if.
    + rewrite decide_False by (intros [_ ?]; lia). done.
  - apply bytes_eqb_false in E. by rewrite filter_key_run.
Qed.

Lemma answer_interpret now e : answer now e = interpret now (Some e).
Proof. done. Qed.

(** Entries below [key] are invisible to a lookup of [key]. *)
Lemma snapshot_above h key L maxVersion :
  StronglySorted bytes_le (keyAt h <$> L) ->
  snapshot_get (entryAt h <$> L) key maxVersion =
    foldl newer None (filter (visible_at key maxVersion) (entryAt h <$> above h key L)).
Proof.
  intros Hs. unfold snapshot_get, newest. f_equal. rewrite (below_above h key L Hs) at 1.
  rewrite fmap_app, filter_app, (filter_none _ (entryAt h <$> below h key L)); [done|].
  intros e (a & -> & Ha)%list_elem_of_fmap [Hk _]. apply elem_of_below in Ha as [_ Ha].
  unfold keyAt in Ha. rewrite Hk in Ha. by apply bytes_lt_irrefl in Ha.
Qed.

Lemma GetByVersion_refines now s L ht key maxVersion :
  sl_inv s L ht ->
  SkipList_GetByVersion now s key maxVersion = interpret now (snapshot_get (contents s) key maxVersion).
Proof.
  intros Hi. unfold contents. rewrite (bottom_eq s L ht Hi), snapshot_above by apply Hi.
  destruct (findPred_above s L ht Hi key) as (Hp & Hf & Hs). unfold SkipList_GetByVersion.
  pose proof (scanVisible_spec _ key maxVersion _ _ None _ Hp Hf Hs) as Hsc.
  destruct (above (sl_nodes s) key L) as [|n l].
  - apply path_nil in Hp. by rewrite Hp.
  - pose proof Hp as Hp'. apply path_cons in Hp' as [E _]. rewrite E in *.
    destruct (bytes_eqb (keyAt (sl_nodes s) n) key) eqn:Ek.
    + simpl in Hsc |- *. rewrite <- Hsc. by destruct (scanVisible _ _ _ _ _ _).
    + apply bytes_eqb_false in Ek. by rewrite filter_key_run.
Qed.

(** [runBest] splits off the run of [key] and keeps its newest node. *)
Lemma runBest_spec h key a l best fuel m :
  path h 0 a l -> (length l <= fuel)%nat -> StronglySorted bytes_le (key :: (keyAt h <$> l)) ->
  (forall b, b ∈ l -> Version (entryAt h b) <= m) ->
  let r := runBest fuel h key (loadForward h a 0) best in
  Some (entryAt h r.1) = foldl newer (Some (entryAt h best)) (filter (visible_at key m) (entryAt h <$> l)) /\
  exists run rest, l = run ++ rest /\ (forall b, b ∈ run -> keyAt h b = key) /\
    (forall b, b ∈ rest -> bytes_lt key (keyAt h b)) /\
    r.2 = loadForward h (endOf a run) 0 /\ path h 0 (endOf a run) rest.
Proof.
  revert a best fuel. induction l as [|n l IH]; intros a best fuel Hp Hf Hs Hm.
  { pose proof Hp as E. apply path_nil in E. rewrite E. destruct fuel; simpl; (split; [done|]);
      exists [], []; split_and!; try done; by intros b ?%elem_of_nil. }
  pose proof Hp as Hp'. apply path_cons in Hp' as [E Hp']. rewrite E.
  destruct fuel as [|f]; simpl in Hf; [lia|]. cbn [runBest].
  destruct (bytes_eqb (keyAt h n) key) eqn:Ek.
  - apply bytes_eqb_spec in Ek.
    assert (StronglySorted bytes_le (key :: (keyAt h <$> l))) as Hs' by by eapply StronglySorted_drop2.
    edestruct (IH n) as [Hbest (run & rest & -> & H1 & H2 & H3 & H4)];
      [done|apply le_S_n, Hf|done|intros b Hb; apply Hm; by right|].
    rewrite Hbest. split.
    + rewrite fmap_cons, filter_cons_True by (split; [done|apply Hm; by left]). simpl. by case_if.
    + exists (n :: run), rest. split_and!; try done. intros b [->|Hb]%elem_of_cons; auto.
  - apply bytes_eqb_false in Ek. rewrite filter_key_run by done. simpl. split; [done|].
    exists [], (n :: l). split_and!; try done; [by intros b ?%elem_of_nil|].
    simpl in Hs. apply StronglySorted_inv in Hs as [Hs Hk]. apply StronglySorted_inv in Hs as [_ Hs].
    apply Forall_cons in Hk as [Hk _]. rewrite Forall_forall in Hs.
    assert (bytes_lt key (keyAt h n)) as Hlt by (apply bytes_le_lt_eq in Hk as [?|?]; congruence).
    intros b [->|Hb]%elem_of_cons; [done|]. eapply bytes_lt_le_trans; [exact Hlt|].
    apply Hs. by apply list_elem_of_fmap_2.
Qed.

Lemma scanLatest_runBest fuel h key next best :
  scanLatest fuel h key next best = (runBest fuel h key next best).1.
Proof.
  revert next best. induction fuel as [|f IH]; intros [n|] best; simpl; try done. by case_if.
Qed.

Lemma latestNode_spec s L ht key m :
  sl_inv s L ht -> (forall e, e ∈ contents s -> Version e <= m) ->
  entryAt (sl_nodes s) <$> latestNode s key = snapshot_get (contents s) key m.
Proof.
  intros Hi Hm. unfold contents in *. rewrite (bottom_eq s L ht Hi) in *. rewrite snapshot_above by apply Hi.
  destruct (findPred_above s L ht Hi key) as (Hp & Hf & Hs). unfold latestNode.
  assert (forall b, b ∈ above (sl_nodes s) key L -> Version (entryAt (sl_nodes s) b) <= m) as Hm'.
  { intros b Hb. apply Hm, list_elem_of_fmap_2. by apply elem_of_above in Hb as [? _]. }
  destruct (above (sl_nodes s) key L) as [|n l].
  - apply path_nil in Hp. by rewrite Hp.
  - apply path_cons in Hp as [E Hp]. rewrite E. destruct (bytes_eqb (keyAt (sl_nodes s) n) key) eqn:Ek.
    + apply bytes_eqb_spec in Ek. rewrite fmap_cons, filter_cons_True by (split; [done|apply Hm'; by left]).
      simpl. rewrite scanLatest_runBest.
      edestruct (runBest_spec (sl_nodes s) key n l n (length (sl_nodes s)) m) as [-> _]; try done.
      * simpl in Hf. lia.
      * by eapply StronglySorted_drop2.
      * intros b Hb. apply Hm'. by right.
    + apply bytes_eqb_false in Ek. by rewrite filter_key_run.
Qed.

(** ** Full scans *)

(** What [All] reports for the newest version of a key. *)
Definition allView (now : Z) (e : Entry) : option Entry :=
  if Deleted e then Some (mkEntry (Key e) [] true 0 (Version e))
  else if (ExpiresAt e =? 0) || (now <? ExpiresAt e) then Some e else None.

Lemma allView_key now e e' : allView now e = Some e' -> Key e' = Key e.
Proof. unfold allView. repeat case_if; intros [= <-]; done. Qed.

Lemma snapshot_get_skip l1 l2 key m :
  (forall e, e ∈ l1 -> Key e <> key) -> snapshot_get (l1 ++ l2) key m = snapshot_get l2 key m.
Proof.
  intros H. unfold snapshot_get. rewrite filter_app, (filter_none _ l1); [done|].
  intros e He [Hk _]. by apply (H e).
Qed.

(** The scan lists, in key order, the view of every key's newest version. *)
Definition all_spec (now m : Z) (l r : list Entry) : Prop :=
  StronglySorted bytes_lt (Key <$> r) /\
  forall e, e ∈ r <-> exists e', snapshot_get l (Key e) m = Some e' /\ allView now e' = Some e.

Lemma all_spec_nil now m : all_spec now m [] [].
Proof.
  split; [constructor|]. intros e. split; [by intros ?%elem_of_nil|by intros (e' & [=] & _)].
Qed.

Lemma elem_of_option_list {A} (x : A) (o : option A) : x ∈ option_list o <-> o = Some x.
Proof. destruct o as [y|]; simpl; [rewrite list_elem_of_singleton|rewrite elem_of_nil]; naive_solver. Qed.

(** One run of equal keys in front of larger keys. *)
Lemma all_spec_run now m key run rest r b :
  (forall e, e ∈ run -> Key e = key) -> (forall e, e ∈ rest -> bytes_lt key (Key e)) ->
  snapshot_get (run ++ rest) key m = Some b -> all_spec now m rest r ->
  all_spec now m (run ++ rest) (option_list (allView now b) ++ r).
Proof.
  intros Hrun Hrest Hb [Hs Hr]. pose proof (snapshot_get_Some _ _ _ _ Hb) as (_ & Hkb & _).
  assert (forall e, e ∈ r -> bytes_lt key (Key e)) as Hgt.
  { intros e (e' & (Hin & <- & _)%snapshot_get_Some & _)%Hr. auto. }
  split.
  - rewrite fmap_app. apply StronglySorted_app. split; [|split; [done|]].
    { destruct (allView now b); simpl; repeat constructor. }
    intros x y (e & -> & He)%list_elem_of_fmap (e2 & -> & He2)%list_elem_of_fmap.
    apply elem_of_option_list in He. rewrite (allView_key _ _ _ He), Hkb. auto.
  - intros e. rewrite elem_of_app, elem_of_option_list, Hr. destruct (decide (Key e = key)) as [Hk|Hk].
    + rewrite Hk, Hb. split; [|intros (e' & [= <-] & ?); by left].
      intros [H|(e' & Hsn & _)]; [eauto|]. apply snapshot_get_Some in Hsn as (Hin & Hke & _).
      apply Hrest in Hin. rewrite Hke in Hin. by apply bytes_lt_irrefl in Hin.
    + rewrite (snapshot_get_skip run) by (intros x Hx; rewrite Hrun; congruence).
      split; [|by right]. intros [H|H]; [|done]. apply allView_key in H. congruence.
Qed.

Lemma allLoop_spec h now m fuel a l :
  path h 0 a l -> (length l <= fuel)%nat -> (length l <= length h)%nat ->
  StronglySorted bytes_le (keyAt h <$> l) ->
  (forall b, b ∈ l -> Version (entryAt h b) <= m) ->
  all_spec now m (entryAt h <$> l) (allLoop fuel now h (loadForward h a 0)).
Proof.
  revert a l. induction fuel as [|f IH]; intros a l Hp Hf Hfh Hs Hm;
    (destruct l as [|c l]; [apply path_nil in Hp; rewrite Hp; apply all_spec_nil|]); simpl in Hf, Hfh; [lia|].
  apply path_cons in Hp as [E Hp]. rewrite E. cbn [allLoop].
  destruct (runBest_spec h (keyAt h c) c l c (length h) m Hp) as [Hb (run & rest & -> & H1 & H2 & H3 & H4)];
    [lia|exact Hs|intros b Hb; apply Hm; by right|].
  destruct (runBest _ _ _ _ _) as [best next]. simpl in Hb, H3. rewrite H3.
  assert (snapshot_get (entryAt h <$> c :: run ++ rest) (keyAt h c) m = Some (entryAt h best)) as Hbest.
  { rewrite Hb. unfold snapshot_get, newest. rewrite (fmap_cons _ c), filter_cons_True; [done|].
    split; [done|]. apply Hm. by left. }
  assert (forall x r, (if Deleted x then [mkEntry (Key x) [] true 0 (Version x)]
    else if (ExpiresAt x =? 0) || (now <? ExpiresAt x) then [x] else []) ++ r =
    option_list (allView now x) ++ r) as -> by (intros x r; unfold allView; by repeat case_if).
  change (c :: run ++ rest) with ((c :: run) ++ rest) in *. rewrite fmap_app in *.
  eapply all_spec_run; [| |exact Hbest|apply IH].
  - intros e (b & -> & [->|Hbr]%elem_of_cons)%list_elem_of_fmap; [done|]. by apply H1.
  - intros e (b & -> & Hbr)%list_elem_of_fmap. by apply H2.
  - done.
  - rewrite length_app in *. lia.
  - rewrite length_app in *. lia.
  - rewrite fmap_app in Hs. by apply StronglySorted_app in Hs as (_ & ? & _).
  - intros b Hbr. apply Hm, elem_of_app. by right.
Qed.

Lemma All_spec now s L ht m :
  sl_inv s L ht -> (forall e, e ∈ contents s -> Version e <= m) -> all_spec now m (contents s) (All now s).
Proof.
  intros Hi Hm. unfold contents in *. rewrite (bottom_eq s L ht Hi) in *. unfold All.
  apply allLoop_spec; [by eapply bottom_level|by eapply fuel_ok|by eapply fuel_ok|apply Hi|].
  intros b Hb. by apply Hm, list_elem_of_fmap_2.
Qed.

(** *** Version scans *)

(** Key ascending, version descending. *)
Definition version_le (a b : Entry) : Prop :=
  bytes_lt (Key a) (Key b) \/ Key a = Key b /\ Version b <= Version a.

Lemma versionLess_spec a b : versionLess a b = true -> version_le a b.
Proof.
  unfold versionLess, version_le. destruct (bytes_compare (Key a) (Key b)) eqn:E; [|by left|done].
  apply bytes_compare_eq in E. intros H. bool_prop. right. split; [done|lia].
Qed.

Lemma versionLess_false a b : versionLess a b = false -> version_le b a.
Proof.
  unfold versionLess, version_le. destruct (bytes_compare (Key a) (Key b)) eqn:E; [|done|].
  - apply bytes_compare_eq in E. intros H. bool_prop. by right.
  - intros _. left. by apply bytes_lt_gt.
Qed.

Lemma version_le_trans a b c : version_le a b -> version_le b c -> version_le a c.
Proof.
  unfold version_le. intros [H1|[H1 H2]] [H3|[H3 H4]].
  - left. by eapply bytes_lt_trans.
  - left. by rewrite <- H3.
  - left. by rewrite H1.
  - right. split; [congruence|lia].
Qed.

Lemma insertSorted_perm e l : insertSorted e l ≡ₚ e :: l.
Proof. induction l as [|x l IH]; simpl; [done|]. case_if; [|done]. rewrite IH. apply Permutation_swap. Qed.

Lemma insertSorted_sorted e l : StronglySorted version_le l -> StronglySorted version_le (insertSorted e l).
Proof.
  induction l as [|x l IH]; intros Hs; simpl; [repeat constructor|].
  pose proof Hs as Hs'. apply StronglySorted_inv in Hs' as [Hs' Hx].
  destruct (versionLess x e) eqn:E.
  - constructor; [auto|]. rewrite insertSorted_perm. constructor; [by apply versionLess_spec|done].
  - apply versionLess_false in E. constructor; [done|]. constructor; [done|].
    eapply Forall_impl; [exact Hx|]. intros y Hy. by eapply version_le_trans.
Qed.

Lemma sortVersions_perm l : sortVersions l ≡ₚ l.
Proof. induction l as [|x l IH]; simpl; [done|]. by rewrite insertSorted_perm, IH. Qed.

Lemma sortVersions_sorted l : StronglySorted version_le (sortVersions l).
Proof. induction l as [|x l IH]; simpl; [constructor|]. by apply insertSorted_sorted. Qed.

(** ** The memtable as an abstract data type

    The specification of a memtable: the entries written so far, latest
    first, and the version counter. *)

Record MemSpec := mkMemSpec { ms_entries : list Entry; ms_counter : Z }.

Inductive memOp :=
  | MPut (key val : bytes) (expiresAt version : Z)
  | MDelete (key : bytes) (version : Z)
  | MSeed (v : Z).

(** Version 0 takes the next one, any other raises the counter. *)
Definition specVersion (c version : Z) : Z * Z :=
  if version =? 0 then (u64 (c + 1), u64 (c + 1)) else (version, Z.max c version).

Definition specOp (m : MemSpec) (op : memOp) : MemSpec :=
  match op with
  | MPut key val exp version =>
      let '(v, c) := specVersion (ms_counter m) version in
      mkMemSpec (mkEntry key val false exp v :: ms_entries m) c
  | MDelete key version =>
      let '(v, c) := specVersion (ms_counter m) version in
      mkMemSpec (mkEntry key [] true 0 v :: ms_entries m) c
  | MSeed v => mkMemSpec (ms_entries m) (Z.max (ms_counter m) v)
  end.

Definition memStep (s : SkipList) (op : memOp) : option SkipList :=
  match op with
  | MPut key val exp version => PutVersion s key val exp version
  | MDelete key version => DeleteVersion s key version
  | MSeed v => Some (SeedVersion s v)
  end.

Fixpoint memRun (s : SkipList) (ops : list memOp) : option SkipList :=
  match ops with [] => Some s | op :: ops' => s' ← memStep s op; memRun s' ops' end.

(** The refinement relation: same entries, and for each key in the same
    order. *)
Definition refines (s : SkipList) (m : MemSpec) : Prop :=
  (exists L ht, sl_inv s L ht) /\ sl_versionCounter s = ms_counter m /\
  contents s ≡ₚ ms_entries m /\
  forall key, filter (fun e => Key e = key) (contents s) = filter (fun e => Key e = key) (ms_entries m).

Lemma snapshot_by_key l key v :
  snapshot_get l key v = newest (filter (fun e => Version e <= v) (filter (fun e => Key e = key) l)).
Proof.
  unfold snapshot_get. f_equal. rewrite list_filter_filter. apply list_filter_iff.
  intros e. unfold visible_at. tauto.
Qed.

Lemma refines_snapshot s m key v : refines s m -> snapshot_get (contents s) key v = snapshot_get (ms_entries m) key v.
Proof. intros (_ & _ & _ & H). by rewrite !snapshot_by_key, H. Qed.

Lemma contents_insert s L ht s' ht' e :
  sl_inv s L ht -> sl_inv s' (inserted s (Key e) L) ht' ->
  entryAt (sl_nodes s') (length (sl_nodes s)) = e ->
  (forall a, (a < length (sl_nodes s))%nat -> entryAt (sl_nodes s') a = entryAt (sl_nodes s) a) ->
  contents s = (entryAt (sl_nodes s) <$> below (sl_nodes s) (Key e) L) ++
               (entryAt (sl_nodes s) <$> above (sl_nodes s) (Key e) L) /\
  contents s' = (entryAt (sl_nodes s) <$> below (sl_nodes s) (Key e) L) ++ e ::
                (entryAt (sl_nodes s) <$> above (sl_nodes s) (Key e) L).
Proof.
  intros Hi Hi' Hn Ho. unfold contents. rewrite (bottom_eq _ _ _ Hi), (bottom_eq _ _ _ Hi').
  split; [by rewrite <- fmap_app, <- below_above by apply Hi|].
  unfold inserted. rewrite fmap_app, fmap_cons, Hn.
  assert (forall f : list nat, (forall a, a ∈ f -> a ∈ L) ->
    entryAt (sl_nodes s') <$> f = entryAt (sl_nodes s) <$> f) as Hf.
  { intros f Hf. apply list_fmap_ext. intros i x Hx. apply Ho, (si_addr _ _ _ Hi), Hf.
    by eapply list_elem_of_lookup_2. }
  by rewrite !Hf by (intros a Ha; by apply list_elem_of_filter in Ha as [_ ?]).
Qed.

Lemma insertNode_refines s m e counter size :
  refines s m ->
  exists s', insertNode s e counter size = Some s' /\
    refines s' (mkMemSpec (e :: ms_entries m) counter) /\ sl_sizeBytes s' = sl_sizeBytes s + size.
Proof.
  intros ((L & ht & Hi) & _ & Hperm & Hkeys).
  destruct (insertNode_inv s L ht e counter size Hi) as (s' & ht' & -> & Hi' & Hnew & Hold & Hc & Hsz).
  destruct (contents_insert s L ht s' ht' e Hi Hi' Hnew Hold) as [Hcs Hcs'].
  exists s'. split; [done|]. split; [|done]. split; [by eexists _, _|]. split; [done|]. split.
  - simpl. by rewrite Hcs', <- Permutation_middle, <- Hcs, Hperm.
  - intros key. simpl. rewrite filter_cons, <- Hkeys, Hcs, Hcs', !filter_app, filter_cons.
    case_decide as Hk; [|done]. subst key. rewrite (filter_none _ (_ <$> below _ _ _)); [done|].
    intros x (a & -> & Ha)%list_elem_of_fmap Hka. apply elem_of_below in Ha as [_ Ha].
    unfold keyAt in Ha. rewrite Hka in Ha. by apply bytes_lt_irrefl in Ha.
Qed.

Lemma pickVersion_spec s m version :
  sl_versionCounter s = ms_counter m -> pickVersion s version = specVersion (ms_counter m) version.
Proof.
  intros H. unfold pickVersion, specVersion. rewrite H. case_if; [done|]. f_equal. case_if; lia.
Qed.

(** Bytes a write adds to the size estimate that triggers rotation. *)
Definition opSize (op : memOp) : Z :=
  match op with
  | MPut key val _ _ => Z.of_nat (length key) + Z.of_nat (length val) + nodeOverhead
  | MDelete _ _ => nodeOverhead
  | MSeed _ => 0
  end.

Lemma memStep_refines s m op :
  refines s m -> exists s', memStep s op = Some s' /\ refines s' (specOp m op) /\
    sl_sizeBytes s' = sl_sizeBytes s + opSize op.
Proof.
  intros H. pose proof H as (_ & Hc & _). destruct op as [key val exp v|key v|v]; simpl.
  - unfold PutVersion. rewrite (pickVersion_spec s m v Hc). destruct (specVersion _ _). by apply insertNode_refines.
  - unfold DeleteVersion. rewrite (pickVersion_spec s m v Hc). destruct (specVersion _ _). by apply insertNode_refines.
  - exists (SeedVersion s v). split; [done|]. destruct H as ((L & ht & Hi) & _ & Hp & Hk).
    split; [|simpl; lia]. split; [exists L, ht; by destruct Hi|]. split; [simpl; rewrite Hc; case_if; lia|done].
Qed.

Lemma memRun_refines s m ops :
  refines s m -> exists s', memRun s ops = Some s' /\ refines s' (foldl specOp m ops) /\
    sl_sizeBytes s' = foldl (fun z op => z + opSize op) (sl_sizeBytes s) ops.
Proof.
  revert s m. induction ops as [|op ops IH]; intros s m H; simpl; [eauto|].
  destruct (memStep_refines s m op H) as (s1 & -> & H1 & Hsz). simpl.
  destruct (IH s1 _ H1) as (s2 & -> & H2 & Hsz2). exists s2. split; [done|]. split; [done|]. by rewrite Hsz2, Hsz.
Qed.

Lemma NewSkipList_refines seed : refines (NewSkipList seed) (mkMemSpec [] 0).
Proof.
  split; [eexists _, _; apply NewSkipList_inv|]. split; [done|]. unfold contents.
  rewrite (bottom_eq _ _ _ (NewSkipList_inv seed)). done.
Qed.

(** C13. The memtable implements its specification.  Whatever sequence of puts,
    deletes and version seeds is applied, and whatever tower heights the
    generator draws, no write dereferences a nil pointer; the counter, the
    size estimate and the entries are the specified ones; and a snapshot
    lookup through the towers returns the newest version at or below the
    requested one (a tombstone if that version is deleted or expired). *)
Theorem memtable_refines_spec seed ops :
  let m := foldl specOp (mkMemSpec [] 0) ops in
  exists s, memRun (NewSkipList seed) ops = Some s /\
    sl_versionCounter s = ms_counter m /\
    sl_sizeBytes s = foldl (fun z op => z + opSize op) 0 ops /\
    contents s ≡ₚ ms_entries m /\
    forall now key v, SkipList_GetByVersion now s key v = interpret now (snapshot_get (ms_entries m) key v).
Proof.
  intros m. destruct (memRun_refines _ _ ops (NewSkipList_refines seed)) as (s & Hr & Href & Hsz).
  exists s. split; [done|]. pose proof Href as ((L & ht & Hi) & Hc & Hp & _).
  split_and!; try done. intros now key v.
  by rewrite (GetByVersion_refines now s L ht), (refines_snapshot s m) by done.
Qed.

(** [Get] and [GetWithVersion] answer with the newest version of the key,
    and [All] lists exactly one record per key with a live or deleted newest
    version, in strictly ascending key order: tombstones are kept, expired
    keys dropped. *)
Theorem memtable_latest_reads seed ops s now m :
  memRun (NewSkipList seed) ops = Some s -> (forall e, e ∈ contents s -> Version e <= m) ->
  (forall key, SkipList_Get now s key = interpret now (snapshot_get (contents s) key m) /\
     GetWithVersion now s key =
       (interpret now (snapshot_get (contents s) key m),
        from_option Version 0 (snapshot_get (contents s) key m))) /\
  all_spec now m (contents s) (All now s).
Proof.
  intros Hr Hm. destruct (memRun_refines _ _ ops (NewSkipList_refines seed)) as (s' & Hr' & ((L & ht & Hi) & _) & _).
  rewrite Hr in Hr'. injection Hr' as <-. split; [|by eapply All_spec].
  intros key. rewrite <- (latestNode_spec s L ht key m Hi Hm). unfold SkipList_Get, GetWithVersion.
  by destruct (latestNode s key).
Qed.

(** What an iterator positioned by [Seek] still delivers. *)
Definition memIter (s : SkipList) (key : bytes) : list Entry :=
  entryAt (sl_nodes s) <$> bottomWalk (length (sl_nodes s)) (sl_nodes s) (SkipListIterator_Seek s key).

Lemma seek_contents s L ht key : sl_inv s L ht ->
  memIter s key = filter (fun e => bytes_ltb (Key e) key = false) (contents s).
Proof.
  intros Hi. unfold memIter.
  destruct (findPred_above s L ht Hi key) as (Hp & Hf & Hs). unfold SkipListIterator_Seek.
  assert (seekTail (length (sl_nodes s)) (sl_nodes s) key (loadForward (sl_nodes s) (findPred s key) 0) =
    loadForward (sl_nodes s) (findPred s key) 0) as ->.
  { destruct (above (sl_nodes s) key L) as [|n l] eqn:Ea.
    - apply path_nil in Hp. rewrite Hp. by destruct (length (sl_nodes s)).
    - apply path_cons in Hp as [-> _]. destruct (length (sl_nodes s)); [done|]. simpl.
      apply StronglySorted_inv in Hs as [_ Hs]. apply Forall_cons in Hs as [Hs _].
      by rewrite (proj2 (bytes_ltb_false _ _) Hs). }
  rewrite (bottomWalk_path _ _ _ _ Hp Hf). unfold contents. by rewrite (bottom_eq s L ht Hi), filter_fmap.
Qed.

(** The version scans return the memtable's entries (those at or below the
    snapshot for [AllVersionsAt]) sorted by key ascending and version
    descending; [Seek] positions the iterator so that following it yields
    exactly the entries whose key is not below the target. *)
Theorem memtable_scans seed ops s maxVersion key :
  memRun (NewSkipList seed) ops = Some s ->
  (AllVersions s ≡ₚ contents s /\ StronglySorted version_le (AllVersions s)) /\
  (AllVersionsAt s maxVersion ≡ₚ filter (fun e => Version e <= maxVersion) (contents s) /\
   StronglySorted version_le (AllVersionsAt s maxVersion)) /\
  entryAt (sl_nodes s) <$> bottomWalk (length (sl_nodes s)) (sl_nodes s) (SkipListIterator_Seek s key) =
    filter (fun e => bytes_ltb (Key e) key = false) (contents s).
Proof.
  intros Hr. destruct (memRun_refines _ _ ops (NewSkipList_refines seed)) as (s' & Hr' & ((L & ht & Hi) & _) & _).
  rewrite Hr in Hr'. injection Hr' as <-.
  split; [split; [apply sortVersions_perm|apply sortVersions_sorted]|].
  split; [split; [apply sortVersions_perm|apply sortVersions_sorted]|].
  exact (seek_contents s L ht key Hi).
Qed.

Module SkipListWitness.
Definition ops : list memOp := [MPut [98] [1] 0 0; MPut [97] [2] 0 0; MPut [98] [3] 0 7; MDelete [97] 0].

Lemma memtable_latest_reads_witness :
  exists s, memRun (NewSkipList 12345) ops = Some s /\
    SkipList_Get 0 s [98] = interpret 0 (snapshot_get (contents s) [98] 100) /\
    SkipList_Get 0 s [98] = Found [3] 0 /\ SkipList_Get 0 s [97] = Tombstone.
Proof.
  eexists. split; [vm_compute; reflexivity|]. split; [|by vm_compute].
  eapply (memtable_latest_reads 12345 ops); [vm_compute; reflexivity|].
  apply Forall_forall. apply (bool_decide_unpack _). vm_compute. exact I.
Defined.

Lemma memtable_scans_witness :
  exists s, memRun (NewSkipList 12345) ops = Some s /\ Version <$> AllVersions s = [8; 2; 7; 1] /\
    StronglySorted version_le (AllVersions s).
Proof.
  eexists. split; [vm_compute; reflexivity|]. split; [by vm_compute|].
  eapply (memtable_scans 12345 ops _ 7 [98]). vm_compute. reflexivity.
Defined.
End SkipListWitness.
