(* ===== verification/Arena.v ===== *)
(** * The byte slab of a memtable ([memtable/arena.go])

    Keys and values of memtable nodes are slices of shared buffers.  The model
    keeps the buffers of a slab in a store that only grows (Go's collector
    keeps a buffer alive while a slice points into it) and a slice as buffer
    number, offset and length.  The theorem is the separation argument that
    lets the memtable treat its keys and values as immutable. *)

From S2P Require Import Prelude.

Definition byteSlabSize : nat := 64 * 1024.
#[global] Opaque byteSlabSize.

(** [cur] is the buffer [s.buf]; [None] the nil buffer [release] leaves. *)
Record byteSlab := mkByteSlab {
  bs_store : list bytes;
  bs_cur : option nat;
  bs_off : nat;
  bs_allocated : Z
}.

(** A slice; the nil slice of [alloc] for empty data is [None]. *)
Record slabRef := mkRef { ref_buf : nat; ref_off : nat; ref_len : nat }.

Definition newByteSlab : byteSlab := mkByteSlab [replicate byteSlabSize 0] (Some 0%nat) 0 0.

Definition curLen (s : byteSlab) : nat :=
  match bs_cur s with None => 0 | Some c => from_option length 0%nat (bs_store s !! c) end.

Definition byteSlab_release (s : byteSlab) : byteSlab := mkByteSlab (bs_store s) None 0 0.

(** [copy(result, data)] into a buffer. *)
Definition writeAt (buf data : bytes) (off : nat) : bytes :=
  take off buf ++ data ++ drop (off + length data) buf.

Definition byteSlab_alloc (s : byteSlab) (data : bytes) : option slabRef * byteSlab :=
  let n := length data in
  match n with
  | O => (None, s)
  | _ =>
      let s1 :=
        if (curLen s <? bs_off s + n)%nat then
          let sz := if (byteSlabSize <? n)%nat then n else byteSlabSize in
          mkByteSlab (bs_store s ++ [replicate sz 0]) (Some (length (bs_store s))) 0 (bs_allocated s)
        else s in
      match bs_cur s1 with
      | None => (None, s1)
      | Some c =>
          (Some (mkRef c (bs_off s1) n),
           mkByteSlab (alter (fun b => writeAt b data (bs_off s1)) c (bs_store s1)) (Some c)
             (bs_off s1 + n) (bs_allocated s1 + Z.of_nat n))
      end
  end.

Definition deref (s : byteSlab) (r : option slabRef) : bytes :=
  match r with
  | None => []
  | Some r => from_option (fun b => slice b (ref_off r) (ref_off r + ref_len r)) [] (bs_store s !! ref_buf r)
  end.

(** The current buffer exists and the bump pointer is inside it. *)
Definition slab_ok (s : byteSlab) : Prop :=
  match bs_cur s with
  | None => bs_off s = 0%nat
  | Some c => exists b, bs_store s !! c = Some b /\ (bs_off s <= length b)%nat /\ S c = length (bs_store s)
  end.

(** A slice handed out earlier: inside a buffer, below the bump pointer. *)
Definition ref_ok (s : byteSlab) (r : option slabRef) : Prop :=
  match r with
  | None => True
  | Some r => exists b, bs_store s !! ref_buf r = Some b /\ (ref_off r + ref_len r <= length b)%nat /\
      (bs_cur s = Some (ref_buf r) -> (ref_off r + ref_len r <= bs_off s)%nat)
  end.

Lemma length_writeAt buf data off :
  (off + length data <= length buf)%nat -> length (writeAt buf data off) = length buf.
Proof. intros. unfold writeAt. rewrite !length_app, length_take, length_drop. lia. Qed.

Lemma slice_writeAt buf data off :
  (off + length data <= length buf)%nat -> slice (writeAt buf data off) off (off + length data) = data.
Proof.
  intros H. unfold slice, writeAt. rewrite drop_app_length' by (rewrite length_take; lia).
  rewrite take_app_length'; [done|lia].
Qed.

Lemma slice_writeAt_below buf data off a b :
  (b <= off)%nat -> (off <= length buf)%nat -> slice (writeAt buf data off) a b = slice buf a b.
Proof.
  intros H1 H2. unfold writeAt. rewrite slice_app_take by (rewrite length_take; lia).
  rewrite <- (take_drop off buf) at 2. rewrite slice_app_take; [done|]. rewrite length_take. lia.
Qed.

(** Growing the store with a fresh current buffer. *)
Lemma grow_ok s sz :
  slab_ok s ->
  let s1 := mkByteSlab (bs_store s ++ [replicate sz 0]) (Some (length (bs_store s))) 0 (bs_allocated s) in
  slab_ok s1 /\ forall r, ref_ok s r -> ref_ok s1 r /\ deref s1 r = deref s r.
Proof.
  intros _ s1. split.
  - exists (replicate sz 0). simpl. rewrite lookup_app_r, Nat.sub_diag, length_app by lia. simpl.
    split; [done|]. split; [lia|lia].
  - intros [r|]; [|done]. intros (b & Hb & Hlen & _). pose proof (lookup_lt_Some _ _ _ Hb).
    assert (bs_store s1 !! ref_buf r = Some b) as Hb1 by (simpl; by rewrite lookup_app_l).
    split; [|simpl in *; by rewrite Hb1, Hb]. exists b. split; [done|]. split; [done|].
    intros [= E]. lia.
Qed.

(** One allocation: the data can be read back, older slices are untouched. *)
Lemma alloc_ok s data :
  slab_ok s ->
  let '(r, s') := byteSlab_alloc s data in
  slab_ok s' /\ ref_ok s' r /\ deref s' r = data /\
  forall r0, ref_ok s r0 -> ref_ok s' r0 /\ deref s' r0 = deref s r0.
Proof.
  intros Hok. unfold byteSlab_alloc. destruct (length data) as [|n'] eqn:Hn.
  { apply nil_length_inv in Hn as ->. done. }
  set (n := S n') in *.
  set (sz := if (byteSlabSize <? n)%nat then n else byteSlabSize).
  set (s1 := if (curLen s <? bs_off s + n)%nat then _ else s).
  assert (slab_ok s1 /\ (forall r, ref_ok s r -> ref_ok s1 r /\ deref s1 r = deref s r) /\
    exists c b, bs_cur s1 = Some c /\ bs_store s1 !! c = Some b /\ (bs_off s1 + n <= length b)%nat)
    as (Hok1 & Hold & c & b & Hc & Hb & Hfit).
  { unfold s1. case_if.
    - destruct (grow_ok s sz Hok) as [H1 H2]. split; [done|]. split; [done|].
      exists (length (bs_store s)), (replicate sz 0). split; [done|]. simpl.
      rewrite lookup_app_r, Nat.sub_diag by lia. split; [done|]. rewrite length_replicate.
      unfold sz. destruct (Nat.ltb_spec byteSlabSize n); lia.
    - split; [done|]. split; [done|]. unfold slab_ok, curLen in *. destruct (bs_cur s) as [c|]; [|lia].
      destruct Hok as (b & Hb & Hoff & _). exists c, b. rewrite Hb in *. simpl in *. split; [done|]. split; [done|lia]. }
  rewrite Hc. unfold slab_ok in Hok1. rewrite Hc in Hok1. destruct Hok1 as (b' & Hb' & Hoff & Hlast).
  rewrite Hb in Hb'. injection Hb' as <-.
  assert (length (writeAt b data (bs_off s1)) = length b) as Hwl by (apply length_writeAt; lia).
  split; [|split; [|split]].
  - exists (writeAt b data (bs_off s1)). simpl. rewrite list_lookup_alter_eq, Hb, length_alter, Hwl. split; [done|]. lia.
  - exists (writeAt b data (bs_off s1)). simpl. rewrite list_lookup_alter_eq, Hb, Hwl. split; [done|]. split; [lia|done].
  - simpl. rewrite list_lookup_alter_eq, Hb. cbn [fmap option_fmap option_map from_option]. rewrite <- Hn. apply slice_writeAt. lia.
  - intros r0 [Hr0 <-]%Hold. destruct r0 as [r0|]; [|done]. destruct Hr0 as (b0 & Hb0 & Hl0 & Hcur).
    rewrite Hc in Hcur. unfold ref_ok. simpl. destruct (decide (ref_buf r0 = c)) as [E|E].
    + rewrite E in *. rewrite Hb in Hb0. injection Hb0 as <-. specialize (Hcur eq_refl).
      rewrite list_lookup_alter_eq, Hb. simpl. split; [|by rewrite slice_writeAt_below by lia].
      eexists. split; [done|]. rewrite Hwl. split; [done|]. lia.
    + rewrite list_lookup_alter_ne by done. rewrite Hb0. simpl. split; [|done]. exists b0. split_and!; try done. congruence.
Qed.

(** Calls on a slab in any order; the results of [alloc] are collected with
    the data they were made from. *)
Inductive slabOp := SAlloc (data : bytes) | SRelease.

Definition slabStep (st : byteSlab * list (option slabRef * bytes)) (op : slabOp) :=
  match op with
  | SAlloc data => let '(r, s') := byteSlab_alloc st.1 data in (s', (r, data) :: st.2)
  | SRelease => (byteSlab_release st.1, st.2)
  end.

(** A slice returned by [alloc] keeps its bytes for ever: after any further
    allocations and releases of the slab, every slice ever handed out still
    reads back the data it was made from. *)
Theorem slab_slices_immutable ops s refs r data :
  foldl slabStep (newByteSlab, []) ops = (s, refs) -> (r, data) ∈ refs -> deref s r = data.
Proof.
  intros Hrun.
  assert (forall ops st, slab_ok st.1 -> (forall r d, (r, d) ∈ st.2 -> ref_ok st.1 r /\ deref st.1 r = d) ->
    forall r d, (r, d) ∈ (foldl slabStep st ops).2 -> deref (foldl slabStep st ops).1 r = d) as H.
  { clear. induction ops as [|op ops IH]; intros [s refs] Hok Hrefs; simpl in *; [naive_solver|].
    apply IH; destruct op as [data|]; simpl.
    - pose proof (alloc_ok s data Hok) as Ha. destruct (byteSlab_alloc s data). simpl. apply Ha.
    - done.
    - pose proof (alloc_ok s data Hok) as Ha. destruct (byteSlab_alloc s data) as [r0 s']. simpl.
      destruct Ha as (_ & Hr0 & Hd0 & Hold). intros r d [[= -> ->]|Hin]%elem_of_cons; [done|].
      destruct (Hrefs r d Hin) as [Hr <-]. by apply Hold.
    - intros r d Hin. destruct (Hrefs r d Hin) as [Hr <-]. destruct r as [r|]; [|done]. split; [|done].
      destruct Hr as (b & Hb & Hl & _). by exists b. }
  specialize (H ops (newByteSlab, [])). rewrite Hrun in H. apply H.
  - exists (replicate byteSlabSize 0). simpl. split; [done|]. split; [lia|done].
  - intros r0 d Hin. by apply elem_of_nil in Hin.
Qed.

Lemma slab_slices_immutable_witness :
  exists s refs r, foldl slabStep (newByteSlab, []) [SAlloc [1; 2]; SRelease; SAlloc [3]] = (s, refs) /\
    (Some r, [1; 2]) ∈ refs /\ deref s (Some r) = [1; 2].
Proof.
  destruct (foldl slabStep (newByteSlab, []) [SAlloc [1; 2]; SRelease; SAlloc [3]]) as [s refs] eqn:E.
  assert (refs = [(Some (mkRef 1 0 1), [3]); (Some (mkRef 0 0 2), [1; 2])]) as Hr.
  { transitivity (foldl slabStep (newByteSlab, []) [SAlloc [1; 2]; SRelease; SAlloc [3]]).2;
      [by rewrite E|by vm_compute]. }
  exists s, refs, (mkRef 0 0 2). split; [done|]. assert ((Some (mkRef 0 0 2), [1; 2]) ∈ refs) as Hin.
  { rewrite Hr. right. by left. }
  split; [done|]. exact (slab_slices_immutable _ s refs _ _ E Hin).
Defined.
