(* ===== verification/Heap.v ===== *)
(** * Binary heaps ([container/heap], as the iterators use it)

    The array algorithms of Go's standard library over any element type with
    a comparison [less]; [itemHeap] and [versionedItemHeap] of
    [iterator/iterator.go] instantiate them.  Proved for every strict weak
    order: the operations keep the heap property, keep the multiset of
    elements, and the root is a least element. *)

From Stdlib Require Import ZifyNat.
From S2P Require Import Prelude.

(** Halving indices. *)
#[local] Ltac Zify.zify_post_hook ::= Z.to_euclidean_division_equations.

Section heap.
Context {A : Type} (less : A -> A -> bool).

(** [h.Less(i, j)]; an index out of range would panic in Go and is never
    compared by the functions below. *)
Definition lessAt (h : list A) (i j : nat) : bool :=
  match h !! i, h !! j with Some x, Some y => less x y | _, _ => false end.

Definition swap (h : list A) (i j : nat) : list A :=
  match h !! i, h !! j with Some x, Some y => <[i := y]> (<[j := x]> h) | _, _ => h end.

(** [up]: at most [j] rounds, the index decreases. *)
Fixpoint up (fuel : nat) (h : list A) (j : nat) : list A :=
  match fuel with
  | O => h
  | S f =>
      let i := ((j - 1) / 2)%nat in
      if (i =? j)%nat || negb (lessAt h j i) then h else up f (swap h i j) i
  end.

(** [down] on the first [n] elements: at most [n] rounds, the index grows. *)
Fixpoint down (fuel : nat) (h : list A) (i n : nat) : list A :=
  match fuel with
  | O => h
  | S f =>
      let j1 := (2 * i + 1)%nat in
      if (n <=? j1)%nat then h
      else
        let j2 := (j1 + 1)%nat in
        let j := if (j2 <? n)%nat && lessAt h j2 j1 then j2 else j1 in
        if negb (lessAt h j i) then h else down f (swap h i j) j n
  end.

(** [heap.Init]: positions [count - 1] down to 0. *)
Fixpoint heapInitLoop (count : nat) (h : list A) : list A :=
  match count with
  | O => h
  | S i => heapInitLoop i (down (length h) h i (length h))
  end.

Definition heapInit (h : list A) : list A := heapInitLoop (length h / 2) h.

Definition heapPush (h : list A) (x : A) : list A := up (length h) (h ++ [x]) (length h).

Definition heapPop (h : list A) : option (A * list A) :=
  let n := (length h - 1)%nat in
  let h1 := down n (swap h 0 n) 0 n in
  match h1 !! n with
  | Some x => Some (x, take n h1)
  | None => None
  end.

(** ** Permutations *)

Lemma length_swap h i j : length (swap h i j) = length h.
Proof. unfold swap. repeat case_match; by rewrite ?length_insert. Qed.

Lemma lookup_swap h i j k :
  (i < length h)%nat -> (j < length h)%nat ->
  swap h i j !! k = if decide (k = i) then h !! j else if decide (k = j) then h !! i else h !! k.
Proof.
  intros Hi Hj. unfold swap. destruct (lookup_lt_is_Some_2 h i Hi) as [x Hx].
  destruct (lookup_lt_is_Some_2 h j Hj) as [y Hy]. rewrite Hx, Hy.
  destruct (decide (k = i)) as [->|Hki]; [rewrite list_lookup_insert_eq; [done|by rewrite length_insert]|].
  rewrite list_lookup_insert_ne by done.
  destruct (decide (k = j)) as [->|Hkj]; [by rewrite list_lookup_insert_eq|by rewrite list_lookup_insert_ne].
Qed.

Lemma swap_perm h i j : swap h i j ≡ₚ h.
Proof.
  destruct (decide (i < length h /\ j < length h)%nat) as [[Hi Hj]|Hn].
  - apply Permutation_inj. split; [apply length_swap|].
    exists (fun k => if decide (k = i) then j else if decide (k = j) then i else k). split.
    + intros a b. repeat case_decide; lia.
    + intros k. rewrite lookup_swap by done. by repeat case_decide.
  - unfold swap. destruct (h !! i) eqn:Ei, (h !! j) eqn:Ej; try done.
    apply lookup_lt_Some in Ei. apply lookup_lt_Some in Ej. lia.
Qed.

Lemma up_perm fuel h j : up fuel h j ≡ₚ h.
Proof. revert h j. induction fuel as [|f IH]; intros h j; simpl; [done|]. case_if; [done|]. by rewrite IH, swap_perm. Qed.

Lemma down_perm fuel h i n : down fuel h i n ≡ₚ h.
Proof.
  revert h i. induction fuel as [|f IH]; intros h i; simpl; [done|].
  repeat (case_match; try done); by rewrite IH, swap_perm.
Qed.

Lemma heapInit_perm h : heapInit h ≡ₚ h.
Proof.
  unfold heapInit. generalize (length h / 2)%nat. intros c. revert h.
  induction c as [|i IH]; intros h; simpl; [done|]. by rewrite IH, down_perm.
Qed.

Lemma heapPush_perm h x : heapPush h x ≡ₚ x :: h.
Proof. unfold heapPush. rewrite up_perm. by rewrite Permutation_app_comm. Qed.

Lemma heapPop_perm h x h' : heapPop h = Some (x, h') -> h ≡ₚ x :: h'.
Proof.
  unfold heapPop. set (n := (length h - 1)%nat). set (h1 := down n (swap h 0 n) 0 n).
  destruct (h1 !! n) as [y|] eqn:E; [|done]. intros [= <- <-].
  assert (h1 ≡ₚ h) as Hp by (unfold h1; by rewrite down_perm, swap_perm).
  rewrite <- Hp at 1. rewrite <- (take_drop_middle _ _ _ E) at 1.
  rewrite drop_ge by (rewrite (Permutation_length Hp); lia). by rewrite Permutation_app_comm.
Qed.

(** ** The heap property *)

Definition parent (j : nat) : nat := ((j - 1) / 2)%nat.

(** The edge from [j]'s parent to [j] is in order. *)
Definition edge (h : list A) (j : nat) : Prop :=
  forall x y, h !! parent j = Some x -> h !! j = Some y -> less y x = false.

Definition isHeap (h : list A) : Prop := forall j, (0 < j < length h)%nat -> edge h j.

(** [less] is a strict weak order. *)
Class StrictWeak : Prop := {
  less_asym : forall x y, less x y = true -> less y x = false;
  less_ge_trans : forall x y z, less y x = false -> less z y = false -> less z x = false
}.

Context `{SW : StrictWeak}.

Lemma less_irrefl x : less x x = false.
Proof. destruct (less x x) eqn:E; [|done]. by rewrite <- E; apply less_asym. Qed.

Lemma lessAt_true h i j : lessAt h i j = true -> exists x y, h !! i = Some x /\ h !! j = Some y /\ less x y = true.
Proof. unfold lessAt. repeat case_match; naive_solver. Qed.

Lemma lessAt_false h i j x y : lessAt h i j = false -> h !! i = Some x -> h !! j = Some y -> less x y = false.
Proof. unfold lessAt. intros H Hx Hy. by rewrite Hx, Hy in H. Qed.

(** In order except below [i], whose children are above [i]'s parent. *)
Definition heapExcept (h : list A) (k i n : nat) : Prop :=
  (forall j, (0 < j < n)%nat -> (k <= parent j)%nat -> parent j <> i -> edge h j) /\
  (forall c p x, (0 < c < n)%nat -> parent c = i -> (0 < i)%nat -> (k <= parent i)%nat ->
     h !! parent i = Some p -> h !! c = Some x -> less x p = false).

(** The child [down] compares with. *)
Definition minChild (h : list A) (i n : nat) : nat :=
  if (2 * i + 1 + 1 <? n)%nat && lessAt h (2 * i + 1 + 1) (2 * i + 1) then (2 * i + 1 + 1)%nat else (2 * i + 1)%nat.

Lemma minChild_spec h i n :
  (2 * i + 1 < n)%nat -> (n <= length h)%nat ->
  let j := minChild h i n in
  (i < j < n)%nat /\ parent j = i /\
  forall c x y, (0 < c < n)%nat -> parent c = i -> h !! j = Some x -> h !! c = Some y -> less y x = false.
Proof.
  intros H1 Hn j. unfold j, minChild, parent.
  destruct ((2 * i + 1 + 1 <? n)%nat && lessAt h (2 * i + 1 + 1) (2 * i + 1)) eqn:E.
  - bool_prop. apply lessAt_true in H0 as (a & b & Ha & Hb & Hab). split; [lia|]. split; [lia|].
    intros c x y Hc Hp Hx Hy. assert (c = 2 * i + 1 + 1 \/ c = 2 * i + 1)%nat as [->| ->] by lia.
    + rewrite Hx in Hy. injection Hy as <-. apply less_irrefl.
    + rewrite Ha in Hx. rewrite Hb in Hy. injection Hx as <-. injection Hy as <-. by apply less_asym.
  - split; [lia|]. split; [lia|]. intros c x y Hc Hp Hx Hy.
    assert (c = 2 * i + 1 + 1 \/ c = 2 * i + 1)%nat as [->| ->] by lia.
    + apply andb_false_iff in E as [E|E]; [bool_prop; lia|]. by eapply lessAt_false.
    + rewrite Hx in Hy. injection Hy as <-. apply less_irrefl.
Qed.

Lemma heapExcept_swap h k i n :
  heapExcept h k i n -> (n <= length h)%nat -> (k <= i)%nat -> (2 * i + 1 < n)%nat ->
  lessAt h (minChild h i n) i = true -> heapExcept (swap h i (minChild h i n)) k (minChild h i n) n.
Proof.
  intros [HE HG] Hn Hk Hi Hl. destruct (minChild_spec h i n Hi Hn) as (Hj & Hpj & Hmin).
  set (j := minChild h i n) in *. apply lessAt_true in Hl as (xj & xi & Hxj & Hxi & Hless).
  assert (forall m, swap h i j !! m = if decide (m = i) then h !! j else if decide (m = j) then h !! i else h !! m)
    as Hsw by (intros m; apply lookup_swap; lia).
  split.
  - intros m Hm Hkm Hpm x y. rewrite !Hsw. repeat case_decide; try lia.
    all: rewrite ?Hxj, ?Hxi.
    + unfold parent in *. lia.
    + intros [= <-] [= <-]. by apply less_asym.
    + intros [= <-] Hy. by eapply (Hmin m).
    + subst m. intros Hx [= <-]. eapply (HG j); [lia|done| | |exact Hx|done]; unfold parent in *; lia.
    + unfold parent in *. lia.
    + apply HE; [lia|done|]. done.
  - intros c p x Hc Hpc Hj0 Hkj. rewrite !Hsw, Hpj. repeat case_decide; try (unfold parent in *; lia).
    rewrite Hxj. intros [= <-] Hx. eapply (HE c); [lia|lia|lia| |exact Hx]. by rewrite Hpc.
Qed.

Lemma length_down fuel h i n : length (down fuel h i n) = length h.
Proof. apply Permutation_length, down_perm. Qed.

Lemma down_tail fuel h i n m :
  (n <= m)%nat -> (n <= length h)%nat -> (i < n)%nat -> down fuel h i n !! m = h !! m.
Proof.
  revert h i. induction fuel as [|f IH]; intros h i Hm Hn Hi; cbn [down]; [done|].
  destruct (Nat.leb_spec n (2 * i + 1)); [done|]. fold (minChild h i n).
  destruct (minChild_spec h i n) as (Hj & _); [lia..|].
  case_if; [done|]. rewrite IH; [|done|by rewrite length_swap|lia].
  rewrite lookup_swap by lia. repeat case_decide; (lia || done).
Qed.

Lemma down_heap fuel h k i n :
  heapExcept h k i n -> (n <= length h)%nat -> (k <= i)%nat -> (n - i <= fuel)%nat ->
  forall j, (0 < j < n)%nat -> (k <= parent j)%nat -> edge (down fuel h i n) j.
Proof.
  revert h i. induction fuel as [|f IH]; intros h i Hex Hn Hk Hf j Hj Hkj.
  { simpl. apply Hex; [done|done|]. unfold parent. lia. }
  cbn [down]. destruct (Nat.leb_spec n (2 * i + 1)).
  { apply Hex; [done|done|]. unfold parent. lia. }
  fold (minChild h i n). destruct (minChild_spec h i n) as (Hc & Hpc & Hmin); [lia..|].
  case_if.
  - destruct (decide (parent j = i)) as [Hp|Hp]; [|by apply Hex]. intros x y Hx Hy.
    rewrite Hp in Hx. destruct (lookup_lt_is_Some_2 h (minChild h i n) ltac:(lia)) as [z Hz].
    eapply less_ge_trans; [eapply lessAt_false; [exact Heqb|exact Hz|exact Hx]|by eapply Hmin].
  - apply IH; [by apply heapExcept_swap|by rewrite length_swap|lia|lia|done|done].
Qed.

Lemma heapInitLoop_heap c h :
  (forall j, (0 < j < length h)%nat -> (c <= parent j)%nat -> edge h j) -> isHeap (heapInitLoop c h).
Proof.
  revert h. induction c as [|i IH]; intros h Hh; simpl.
  { intros j Hj. apply Hh; [done|lia]. }
  apply IH. rewrite length_down. intros j Hj Hk. apply (down_heap _ h i i); [|lia|lia|lia|done|done].
  split.
  - intros m Hm Hkm Hne. apply Hh; [done|lia].
  - intros m p x Hm Hp Hi Hki. unfold parent in *. lia.
Qed.

Lemma heapInit_heap h : isHeap (heapInit h).
Proof. apply heapInitLoop_heap. intros j Hj Hk. unfold parent in Hk. lia. Qed.

(** The root is a least element. *)
Lemma isHeap_root h x : isHeap h -> h !! 0%nat = Some x -> forall y, y ∈ h -> less y x = false.
Proof.
  intros Hh Hx y Hy. apply list_elem_of_lookup in Hy as [j Hj]. revert y Hj.
  induction (lt_wf j) as [j _ IH]. intros y Hy. pose proof (lookup_lt_Some _ _ _ Hy) as Hlt.
  destruct (decide (j = 0%nat)) as [->|Hj0].
  { rewrite Hx in Hy. injection Hy as <-. apply less_irrefl. }
  destruct (lookup_lt_is_Some_2 h (parent j)) as [p Hp]; [unfold parent; lia|].
  eapply less_ge_trans; [apply (IH (parent j)); [unfold parent; lia|exact Hp]|].
  by apply (Hh j); [lia|exact Hp|exact Hy].
Qed.

Lemma heapPop_spec h :
  isHeap h -> h <> [] ->
  exists x h', heapPop h = Some (x, h') /\ h !! 0%nat = Some x /\ h ≡ₚ x :: h' /\ isHeap h' /\
    forall y, y ∈ h -> less y x = false.
Proof.
  intros Hh Hne. assert (0 < length h)%nat as Hlen by (destruct h; simpl; [done|lia]).
  unfold heapPop. set (n := (length h - 1)%nat).
  destruct (lookup_lt_is_Some_2 h 0 Hlen) as [x Hx].
  destruct (lookup_lt_is_Some_2 h n ltac:(lia)) as [z Hz].
  assert (forall m, swap h 0 n !! m = if decide (m = 0%nat) then h !! n else if decide (m = n) then h !! 0%nat else h !! m)
    as Hsw by (intros m; apply lookup_swap; lia).
  assert (down n (swap h 0 n) 0 n !! n = Some x) as Hlast.
  { destruct (decide (n = 0%nat)) as [E|E].
    - pose proof (Hsw n) as Hn0. rewrite E in Hn0 |- *. simpl down. by rewrite Hn0.
    - rewrite down_tail by (rewrite ?length_swap; lia). rewrite Hsw, decide_False by lia. by rewrite decide_True. }
  pose proof (heapPop_perm h x (take n (down n (swap h 0 n) 0 n))) as Hperm.
  unfold heapPop in Hperm. fold n in Hperm. rewrite Hlast in Hperm.
  eexists _, _. split; [by rewrite Hlast|]. split; [done|]. split; [by apply Hperm|].
  split; [|by apply isHeap_root].
  intros j Hj a b. rewrite length_take, length_down, length_swap in Hj.
  rewrite !lookup_take_lt by (unfold parent; lia).
  eapply (down_heap n (swap h 0 n) 0 0 n); [|rewrite length_swap; lia|lia|lia|lia|lia].
  split; [|lia]. intros m Hm _ Hp c d. rewrite !Hsw. repeat case_decide; try (unfold parent in *; lia).
  apply Hh. lia.
Qed.

(** *** [up] *)

(** In order except the edge into [j], whose children are above its parent. *)
Definition heapExceptUp (h : list A) (j : nat) : Prop :=
  (forall m, (0 < m < length h)%nat -> m <> j -> edge h m) /\
  (forall c p x, (0 < c < length h)%nat -> parent c = j -> (0 < j)%nat ->
     h !! parent j = Some p -> h !! c = Some x -> less x p = false).

Lemma heapExceptUp_swap h j :
  heapExceptUp h j -> (0 < j < length h)%nat -> lessAt h j (parent j) = true ->
  heapExceptUp (swap h (parent j) j) (parent j).
Proof.
  intros [HE HG] Hj Hl. apply lessAt_true in Hl as (xj & xi & Hxj & Hxi & Hless). set (i := parent j) in *.
  assert (i < j)%nat as Hij by (unfold i, parent; lia).
  assert (forall m, swap h i j !! m = if decide (m = i) then h !! j else if decide (m = j) then h !! i else h !! m)
    as Hsw by (intros m; apply lookup_swap; lia).
  split; rewrite length_swap.
  - intros m Hm Hne x y. rewrite !Hsw. destruct (decide (parent m = i)) as [Hpm|Hpm].
    + rewrite Hxj, decide_False by done. intros [= <-]. case_decide as Hmj; intros Hy.
      * rewrite Hxi in Hy. injection Hy as <-. by apply less_asym.
      * eapply less_ge_trans; [by apply less_asym|].
        by apply (HE m); [lia|done|rewrite Hpm|].
    + rewrite (decide_False (P := m = i)) by done. destruct (decide (m = j)) as [->|Hmj]; [done|].
      case_decide as Hpj; [|apply HE; [lia|done]].
      rewrite Hxi. intros [= <-] Hy. eapply (HG m); [lia|done|lia|exact Hxi|exact Hy].
  - intros c p x Hc Hpc Hi0. rewrite !Hsw.
    rewrite (decide_False (P := parent i = i)), (decide_False (P := parent i = j)) by (unfold parent in *; lia).
    rewrite (decide_False (P := c = i)) by (unfold parent in *; lia). intros Hp.
    assert (less xi p = false) as Hpi by (eapply (HE i); [lia|lia|exact Hp|exact Hxi]).
    case_decide as Hcj; [rewrite Hxi; by intros [= <-]|]. intros Hx.
    eapply less_ge_trans; [exact Hpi|]. apply (HE c); [lia|done|by rewrite Hpc|done].
Qed.

Lemma up_heap fuel h j :
  heapExceptUp h j -> (j < length h)%nat -> (j <= fuel)%nat -> isHeap (up fuel h j).
Proof.
  revert h j. induction fuel as [|f IH]; intros h j Hex Hj Hf; cbn [up].
  { intros m Hm. apply Hex; lia. }
  fold (parent j). destruct (Nat.eqb_spec (parent j) j) as [E|E]; cbn [orb].
  { intros m Hm. apply Hex; [done|]. intros ->. unfold parent in E. lia. }
  assert (0 < j)%nat as Hj0 by (unfold parent in E; destruct j; [done|lia]).
  case_if.
  - intros m Hm. destruct (decide (m = j)) as [->|]; [|by apply Hex].
    intros x y Hx Hy. by eapply lessAt_false.
  - apply IH; [by apply heapExceptUp_swap|rewrite length_swap|]; unfold parent in *; lia.
Qed.

Lemma heapPush_heap h x : isHeap h -> isHeap (heapPush h x).
Proof.
  intros Hh. unfold heapPush. apply up_heap; [|rewrite length_app; simpl; lia|lia].
  split; rewrite length_app; simpl.
  - intros m Hm Hne a b. rewrite !lookup_app_l by (unfold parent; lia). apply Hh. lia.
  - intros c p y Hc Hp. unfold parent in Hp. lia.
Qed.
End heap.
