(* ===== verification/Iterator.v ===== *)
(** * Merging iterators ([iterator/iterator.go])

    A source iterator is modelled by the entries it still has to deliver, the
    current one first: [Valid] is "not empty", [Next] drops the head.  The two
    merging iterators keep such sources in a binary heap.  [onDiscard] is
    observable through the list of values it has been called with. *)

From S2P Require Import Prelude Mvcc SkipList Heap.

(** [heapItem] and [versionedHeapItem] (whose priority is absent, 0 here). *)
Record heapItem := mkItem {
  hi_cur : Entry;
  hi_rest : list Entry;
  hi_priority : Z
}.

(** [itemHeap.Less]: key, then newer version, then higher priority. *)
Definition itemHeap_Less (a b : heapItem) : bool :=
  match bytes_compare (Key (hi_cur a)) (Key (hi_cur b)) with
  | Lt => true
  | Gt => false
  | Eq =>
      if Version (hi_cur a) =? Version (hi_cur b) then hi_priority b <? hi_priority a
      else Version (hi_cur b) <? Version (hi_cur a)
  end.

(** [versionedItemHeap.Less]. *)
Definition versionedItemHeap_Less (a b : heapItem) : bool :=
  match bytes_compare (Key (hi_cur a)) (Key (hi_cur b)) with
  | Lt => true
  | Gt => false
  | Eq => Version (hi_cur b) <? Version (hi_cur a)
  end.

(** The heap slice before [heap.Init]; [prio i] is the priority of source [i]. *)
Fixpoint heapItems (i : nat) (prio : nat -> Z) (iters : list (list Entry)) : list heapItem :=
  match iters with
  | [] => []
  | [] :: its => heapItems (S i) prio its
  | (e :: r) :: its => mkItem e r (prio i) :: heapItems (S i) prio its
  end.

(** [priorities[i]] when the slice reaches that far, else 0. *)
Definition priorityOf (priorities : list Z) (i : nat) : Z := default 0 (priorities !! i).

Section merge.
Context (less : heapItem -> heapItem -> bool).

(** [if top.iter.Next() { ...; heap.Push(h, top) }] *)
Definition advance (h : list heapItem) (top : heapItem) : list heapItem :=
  match hi_rest top with
  | [] => h
  | e :: r => heapPush less h (mkItem e r (hi_priority top))
  end.

(** The de-duplication loop of [MergedIterator.Next]: current entry, values
    discarded so far (latest last), heap. *)
Fixpoint dedupLoop (fuel : nat) (h : list heapItem) (curr : Entry) (disc : list bytes)
    : Entry * list bytes * list heapItem :=
  match fuel with
  | O => (curr, disc, h)
  | S f =>
      match h !! 0%nat with
      | None => (curr, disc, h)
      | Some peek =>
          if negb (bytes_eqb (Key (hi_cur peek)) (Key curr)) then (curr, disc, h)
          else
            match heapPop less h with
            | None => (curr, disc, h)
            | Some (dup, h1) =>
                let '(curr', d) :=
                  if Version curr <? Version (hi_cur dup) then
                    (mkEntry (Key curr) (Value (hi_cur dup)) (Deleted (hi_cur dup))
                       (ExpiresAt (hi_cur dup)) (Version (hi_cur dup)), Value curr)
                  else (curr, Value (hi_cur dup)) in
                dedupLoop f (advance h1 dup) curr' (disc ++ [d])
            end
      end
  end.

(** Entries the heap still holds; every round of a loop consumes one. *)
Definition stream (h : list heapItem) : list Entry := h ≫= (fun it => hi_cur it :: hi_rest it).

(** [MergedIterator.Next]; [None] when [currValid] becomes false. *)
Definition mergedNext (h : list heapItem) : option (Entry * list bytes * list heapItem) :=
  match heapPop less h with
  | None => None
  | Some (top, h1) => let h2 := advance h1 top in Some (dedupLoop (length (stream h2)) h2 (hi_cur top) [])
  end.

(** [MergedVersionIterator.Next]. *)
Definition mergedVersionNext (h : list heapItem) : option (Entry * list heapItem) :=
  match heapPop less h with
  | None => None
  | Some (top, h1) => Some (hi_cur top, advance h1 top)
  end.

(** A client's loop: [for it.Valid() { use(it.Entry()); it.Next() }]. *)
Fixpoint mergedLoop (fuel : nat) (h : list heapItem) : list Entry * list bytes :=
  match fuel with
  | O => ([], [])
  | S f =>
      match mergedNext h with
      | None => ([], [])
      | Some (e, d, h') => let '(es, ds) := mergedLoop f h' in (e :: es, d ++ ds)
      end
  end.

Fixpoint mergedVersionLoop (fuel : nat) (h : list heapItem) : list Entry :=
  match fuel with
  | O => []
  | S f =>
      match mergedVersionNext h with
      | None => []
      | Some (e, h') => e :: mergedVersionLoop f h'
      end
  end.
End merge.

(** Draining an iterator built over [iters]. *)
Definition NewMergedIterator (priorities : list Z) (iters : list (list Entry)) : list heapItem :=
  heapInit itemHeap_Less (heapItems 0 (priorityOf priorities) iters).

Definition drainMerged (priorities : list Z) (iters : list (list Entry)) : list Entry * list bytes :=
  mergedLoop itemHeap_Less (length (concat iters)) (NewMergedIterator priorities iters).

Definition NewMergedVersionIterator (iters : list (list Entry)) : list heapItem :=
  heapInit versionedItemHeap_Less (heapItems 0 (fun _ => 0) iters).

Definition drainMergedVersion (iters : list (list Entry)) : list Entry :=
  mergedVersionLoop versionedItemHeap_Less (length (concat iters)) (NewMergedVersionIterator iters).

(** ** The comparisons are strict weak orders *)

#[export] Instance versionedItemHeap_StrictWeak : StrictWeak versionedItemHeap_Less.
Proof.
  split; unfold versionedItemHeap_Less.
  - intros x y. rewrite (bytes_compare_antisym (Key (hi_cur x))).
    destruct (bytes_compare (Key (hi_cur x)) (Key (hi_cur y))); simpl; try done. rewrite Z.ltb_lt, Z.ltb_ge. lia.
  - intros x y z.
    destruct (bytes_compare (Key (hi_cur y)) (Key (hi_cur x))) eqn:E1; [| done |];
    destruct (bytes_compare (Key (hi_cur z)) (Key (hi_cur y))) eqn:E2; try done.
    + apply bytes_compare_eq in E1, E2. rewrite E2, E1, bytes_compare_refl, !Z.ltb_ge. lia.
    + apply bytes_compare_eq in E1. rewrite <- E1, E2. done.
    + apply bytes_compare_eq in E2. rewrite E2, E1. done.
    + apply bytes_lt_gt in E1, E2. by rewrite (proj2 (bytes_lt_gt _ _) (bytes_lt_trans _ _ _ E1 E2)).
Qed.

#[export] Instance itemHeap_StrictWeak : StrictWeak itemHeap_Less.
Proof.
  split; unfold itemHeap_Less.
  - intros x y. rewrite (bytes_compare_antisym (Key (hi_cur x))), (Z.eqb_sym (Version (hi_cur y))).
    destruct (bytes_compare (Key (hi_cur x)) (Key (hi_cur y))); simpl; try done.
    case_if; rewrite Z.ltb_lt, Z.ltb_ge; lia.
  - intros x y z.
    destruct (bytes_compare (Key (hi_cur y)) (Key (hi_cur x))) eqn:E1; [| done |];
    destruct (bytes_compare (Key (hi_cur z)) (Key (hi_cur y))) eqn:E2; try done.
    + apply bytes_compare_eq in E1, E2. rewrite E2, E1, bytes_compare_refl.
      repeat case_if; rewrite !Z.ltb_ge; lia.
    + apply bytes_compare_eq in E1. rewrite <- E1, E2. done.
    + apply bytes_compare_eq in E2. rewrite E2, E1. done.
    + apply bytes_lt_gt in E1, E2. by rewrite (proj2 (bytes_lt_gt _ _) (bytes_lt_trans _ _ _ E1 E2)).
Qed.

Lemma versionedItemHeap_le a b : versionedItemHeap_Less b a = false -> version_le (hi_cur a) (hi_cur b).
Proof.
  unfold versionedItemHeap_Less, version_le. destruct (bytes_compare _ _) eqn:E; [|done|].
  - apply bytes_compare_eq in E. intros H. bool_prop. by right.
  - intros _. left. by apply bytes_lt_gt.
Qed.

Definition key_le (a b : Entry) : Prop := bytes_le (Key a) (Key b).

Lemma itemHeap_le a b : itemHeap_Less b a = false -> key_le (hi_cur a) (hi_cur b).
Proof.
  unfold itemHeap_Less, key_le. destruct (bytes_compare (Key (hi_cur b)) _) eqn:E; [|done|]; intros _.
  - apply bytes_compare_eq in E. rewrite E. apply bytes_le_refl.
  - apply bytes_lt_le. by apply bytes_lt_gt.
Qed.

(** ** Streams *)

Lemma stream_perm h h' : h ≡ₚ h' -> stream h ≡ₚ stream h'.
Proof. intros H. unfold stream. by rewrite H. Qed.

Lemma stream_cons it h : stream (it :: h) = hi_cur it :: hi_rest it ++ stream h.
Proof. done. Qed.

Lemma stream_heapItems i prio iters : stream (heapItems i prio iters) = concat iters.
Proof.
  revert i. induction iters as [|[|e r] its IH]; intros i; cbn [heapItems concat]; [done|apply IH|].
  by rewrite stream_cons, IH.
Qed.

Lemma elem_of_stream e h : e ∈ stream h <-> exists it, it ∈ h /\ (e = hi_cur it \/ e ∈ hi_rest it).
Proof. unfold stream. rewrite list_elem_of_bind. setoid_rewrite elem_of_cons. naive_solver. Qed.

Section merge_proofs.
Context (less : heapItem -> heapItem -> bool) `{!StrictWeak less}.
(** The order the sources are sorted by, implied by the heap order. *)
Context (R : Entry -> Entry -> Prop) (R_trans : forall a b c, R a b -> R b c -> R a c).
Context (less_R : forall a b, less b a = false -> R (hi_cur a) (hi_cur b)).

Definition heap_ok (h : list heapItem) : Prop :=
  isHeap less h /\ forall it, it ∈ h -> StronglySorted R (hi_cur it :: hi_rest it).

Lemma advance_ok h top :
  isHeap less h -> (forall it, it ∈ h -> StronglySorted R (hi_cur it :: hi_rest it)) ->
  StronglySorted R (hi_cur top :: hi_rest top) ->
  heap_ok (advance less h top) /\ stream (advance less h top) ≡ₚ hi_rest top ++ stream h.
Proof.
  intros Hh Hs Ht. unfold advance. destruct (hi_rest top) as [|e r] eqn:E; [done|].
  split; [split|].
  - by apply heapPush_heap.
  - intros it. rewrite heapPush_perm, elem_of_cons. intros [->|?]; [|auto]. simpl.
    by apply StronglySorted_inv in Ht as [? _].
  - rewrite (stream_perm _ _ (heapPush_perm _ _ _)). done.
Qed.

(** Popping delivers an entry that nothing in the heap precedes. *)
Lemma pop_ok h :
  heap_ok h -> h <> [] ->
  exists top h1, heapPop less h = Some (top, h1) /\ h !! 0%nat = Some top /\
    heap_ok (advance less h1 top) /\
    stream h ≡ₚ hi_cur top :: stream (advance less h1 top) /\
    forall e, e ∈ stream (advance less h1 top) -> R (hi_cur top) e.
Proof.
  intros [Hh Hs] Hne. destruct (heapPop_spec less h Hh Hne) as (top & h1 & Hp & H0 & Hperm & Hh1 & Hmin).
  assert (top ∈ h) as Htop by (by eapply list_elem_of_lookup_2).
  destruct (advance_ok h1 top Hh1) as [Hok Hst].
  { intros it Hit. apply Hs. rewrite Hperm. by right. }
  { auto. }
  exists top, h1. split_and!; try done.
  - by rewrite (stream_perm _ _ Hperm), stream_cons, Hst.
  - intros e. rewrite Hst, elem_of_app, elem_of_stream. pose proof (Hs top Htop) as Hts.
    apply StronglySorted_inv in Hts as [_ Hts]. rewrite Forall_forall in Hts.
    intros [He|(it & Hit & He)]; [auto|].
    assert (it ∈ h) as Hith by (rewrite Hperm; by right).
    pose proof (less_R top it (Hmin it Hith)) as Hle.
    destruct He as [->|He]; [done|]. pose proof (Hs it Hith) as His.
    apply StronglySorted_inv in His as [_ His]. rewrite Forall_forall in His. eapply R_trans; eauto.
Qed.

Lemma heap_ok_init i prio iters :
  Forall (StronglySorted R) iters -> heap_ok (heapInit less (heapItems i prio iters)).
Proof.
  intros Hs. split; [by apply heapInit_heap|]. intros it. rewrite heapInit_perm.
  revert i. induction iters as [|[|e r] its IH]; intros i; simpl.
  - by intros ?%elem_of_nil.
  - apply Forall_cons in Hs as [_ Hs]. by apply IH.
  - apply Forall_cons in Hs as [He Hs]. intros [->|Hin]%elem_of_cons; [done|by eapply IH].
Qed.

Lemma heap_nonempty h : stream h <> [] -> h <> [].
Proof. by intros H ->. Qed.

Lemma heapPop_nil : heapPop less [] = None.
Proof. done. Qed.
End merge_proofs.

(** ** Draining the version iterator *)

Lemma mergedVersionLoop_spec fuel h :
  heap_ok versionedItemHeap_Less version_le h -> (length (stream h) <= fuel)%nat ->
  let r := mergedVersionLoop versionedItemHeap_Less fuel h in
  r ≡ₚ stream h /\ StronglySorted version_le r.
Proof.
  revert h. induction fuel as [|f IH]; intros h Hok Hf; simpl.
  - destruct (stream h) eqn:E; simpl in Hf; [|lia]. split; [done|constructor].
  - unfold mergedVersionNext. destruct (decide (h = [])) as [->|Hne]; [split; [done|constructor]|].
    destruct (pop_ok _ version_le version_le_trans versionedItemHeap_le h Hok Hne)
      as (top & h1 & -> & _ & Hok1 & Hperm & Hle).
    destruct (IH _ Hok1) as [Hp Hs]; [rewrite (Permutation_length Hperm) in Hf; simpl in Hf; lia|].
    split; [by rewrite Hperm, Hp|]. constructor; [done|].
    apply Forall_forall. intros e He. apply Hle. by rewrite <- Hp.
Qed.

Lemma drainMergedVersion_spec iters :
  Forall (StronglySorted version_le) iters ->
  drainMergedVersion iters ≡ₚ concat iters /\ StronglySorted version_le (drainMergedVersion iters).
Proof.
  intros Hs. unfold drainMergedVersion, NewMergedVersionIterator.
  assert (stream (heapInit versionedItemHeap_Less (heapItems 0 (fun _ => 0) iters)) ≡ₚ concat iters) as Hst.
  { rewrite (stream_perm _ _ (heapInit_perm _ _)). by rewrite stream_heapItems. }
  destruct (mergedVersionLoop_spec (length (concat iters))
    (heapInit versionedItemHeap_Less (heapItems 0 (fun _ => 0) iters))) as [Hp Hsort].
  - by apply (heap_ok_init _).
  - by rewrite (Permutation_length Hst).
  - split; [by rewrite Hp|done].
Qed.

(** The version iterator is a merge: over sources that are sorted by key
    ascending and version descending, draining it delivers every version of
    every source exactly once, in that order. *)
Theorem drainMergedVersion_merges iters :
  Forall (StronglySorted version_le) iters ->
  drainMergedVersion iters ≡ₚ concat iters /\ StronglySorted version_le (drainMergedVersion iters).
Proof. apply drainMergedVersion_spec. Qed.

(** ** Draining the de-duplicating iterator *)

Lemma key_le_trans a b c : key_le a b -> key_le b c -> key_le a c.
Proof. unfold key_le. apply bytes_le_trans. Qed.

(** What the loop has done when it stops: it took the whole group of the
    current key out of the heap and kept its newest entry. *)
Definition dedup_post (h : list heapItem) (curr : Entry) (disc : list bytes)
    (r : Entry * list bytes * list heapItem) : Prop :=
  let '(e, d, h') := r in
  exists group, stream h ≡ₚ group ++ stream h' /\ heap_ok itemHeap_Less key_le h' /\
    (forall x, x ∈ group -> Key x = Key curr) /\
    (forall x, x ∈ stream h' -> bytes_lt (Key curr) (Key x)) /\
    e ∈ curr :: group /\ Key e = Key curr /\ (forall x, x ∈ curr :: group -> Version x <= Version e) /\
    disc ++ (Value <$> curr :: group) ≡ₚ d ++ [Value e].

Lemma dedup_stop h curr disc :
  heap_ok itemHeap_Less key_le h -> (forall x, x ∈ stream h -> bytes_lt (Key curr) (Key x)) ->
  dedup_post h curr disc (curr, disc, h).
Proof.
  intros Hok Hgt. exists []. split; [done|]. split; [done|]. split; [by intros x ?%elem_of_nil|].
  split; [done|]. split; [by left|]. split; [done|]. split; [|done].
  intros x [->|?%elem_of_nil]%elem_of_cons; [lia|done].
Qed.

(** Taking one more entry of the group. *)
Lemma dedup_more h h1 top curr c disc d r :
  stream h ≡ₚ hi_cur top :: stream h1 -> Key (hi_cur top) = Key curr ->
  Key c = Key curr -> c = curr \/ c = hi_cur top -> Version curr <= Version c ->
  Version (hi_cur top) <= Version c -> [Value curr; Value (hi_cur top)] ≡ₚ [d; Value c] ->
  dedup_post h1 c (disc ++ [d]) r -> dedup_post h curr disc r.
Proof.
  intros Hperm Ek Hkc Hc Hv1 Hv2 Hvals. destruct r as [[e ds] h'].
  intros (g & Hg & Hok' & Hk & Hgt & Hin & Hke & Hmax & Hdisc). rewrite Hkc in *.
  exists (hi_cur top :: g). split; [by rewrite Hperm, Hg|]. split; [done|].
  split; [intros x [->|Hx]%elem_of_cons; auto|]. split; [done|].
  split; [rewrite !elem_of_cons in *; destruct Hin as [->|?], Hc as [->| ->]; auto|].
  split; [done|]. split.
  - intros x. rewrite !elem_of_cons. pose proof (Hmax c ltac:(by left)) as Hm.
    intros [->|[->|Hx]]; [lia|lia|apply Hmax; by right].
  - rewrite <- Hdisc, !fmap_cons, <- app_assoc. apply Permutation_app_head.
    change (Value curr :: Value (hi_cur top) :: (Value <$> g)) with ([Value curr; Value (hi_cur top)] ++ (Value <$> g)).
    by rewrite Hvals.
Qed.

Lemma dedupLoop_spec fuel h curr disc :
  heap_ok itemHeap_Less key_le h -> (length (stream h) <= fuel)%nat ->
  (forall e, e ∈ stream h -> key_le curr e) ->
  dedup_post h curr disc (dedupLoop itemHeap_Less fuel h curr disc).
Proof.
  revert h curr disc. induction fuel as [|f IH]; intros h curr disc Hok Hf Hle.
  { apply dedup_stop; [done|]. destruct (stream h); simpl in Hf; [|lia]. by intros x ?%elem_of_nil. }
  cbn [dedupLoop]. destruct (decide (h = [])) as [->|Hne].
  { apply dedup_stop; [done|]. by intros x ?%elem_of_nil. }
  destruct (pop_ok _ key_le key_le_trans itemHeap_le h Hok Hne) as (top & h1 & Hpop & H0 & Hok1 & Hperm & Hmin).
  rewrite H0, Hpop. assert (key_le curr (hi_cur top)) as Hct by (apply Hle; rewrite Hperm; by left).
  destruct (bytes_eqb (Key (hi_cur top)) (Key curr)) eqn:Ek; cbn [negb].
  - apply bytes_eqb_spec in Ek. rewrite (Permutation_length Hperm) in Hf. simpl in Hf.
    destruct (Z.ltb_spec (Version curr) (Version (hi_cur top))).
    + eapply dedup_more; [exact Hperm|done| | | | | |apply IH]; simpl; try done; try lia.
      * right. rewrite <- Ek. by destruct (hi_cur top).
      * intros x Hx. unfold key_le. simpl. rewrite <- Ek. by apply Hmin.
    + eapply dedup_more; [exact Hperm|done| | | | | |apply IH]; simpl; try done; try lia.
      * by left.
      * apply Permutation_swap.
      * intros x Hx. unfold key_le. rewrite <- Ek. by apply Hmin.
  - apply bytes_eqb_false in Ek. apply dedup_stop; [done|].
    assert (bytes_lt (Key curr) (Key (hi_cur top))) as Hlt.
    { apply bytes_le_lt_eq in Hct as [?|?]; [done|congruence]. }
    intros x. rewrite Hperm, elem_of_cons. intros [->|Hx]; [done|].
    eapply bytes_lt_le_trans; [exact Hlt|]. by apply Hmin.
Qed.

(** The contract of a de-duplicating merge of the entries [T]. *)
Record merge_spec (T out : list Entry) (disc : list bytes) : Prop := {
  ms_sorted : StronglySorted bytes_lt (Key <$> out);
  ms_newest : forall e, e ∈ out -> e ∈ T /\ forall x, x ∈ T -> Key x = Key e -> Version x <= Version e;
  ms_complete : forall e, e ∈ T -> exists o, o ∈ out /\ Key o = Key e;
  ms_discards : Value <$> T ≡ₚ (Value <$> out) ++ disc
}.

Lemma merge_spec_cons T group rest e d out ds :
  T ≡ₚ group ++ rest -> e ∈ group -> (forall x, x ∈ group -> Key x = Key e /\ Version x <= Version e) ->
  (forall x, x ∈ rest -> bytes_lt (Key e) (Key x)) -> Value <$> group ≡ₚ d ++ [Value e] ->
  merge_spec rest out ds -> merge_spec T (e :: out) (d ++ ds).
Proof.
  intros HT He Hg Hr Hd []. split.
  - simpl. constructor; [done|]. apply Forall_forall. intros k (o & -> & Ho)%list_elem_of_fmap.
    destruct (ms_newest0 o Ho) as [Hin _]. auto.
  - intros x [->|Hx]%elem_of_cons; [split; [rewrite HT, elem_of_app; by left|]|].
    + intros y. rewrite HT, elem_of_app. intros [Hy|Hy] Hk; [by apply Hg|].
      apply Hr in Hy. rewrite Hk in Hy. by apply bytes_lt_irrefl in Hy.
    + destruct (ms_newest0 x Hx) as [Hin Hmax]. split; [rewrite HT, elem_of_app; by right|].
      intros y. rewrite HT, elem_of_app. intros [Hy|Hy] Hk; [|auto].
      destruct (Hg y Hy) as [Hk' _]. apply Hr in Hin. rewrite <- Hk, Hk' in Hin. by apply bytes_lt_irrefl in Hin.
  - intros x. rewrite HT, elem_of_app. intros [Hx|Hx].
    + exists e. split; [by left|]. symmetry. by apply Hg.
    + destruct (ms_complete0 x Hx) as (o & Ho & Hk). exists o. split; [by right|done].
  - rewrite HT, fmap_app, Hd, ms_discards0. simpl.
    rewrite <- app_assoc. simpl. rewrite <- Permutation_middle. constructor.
    by rewrite !app_assoc, (Permutation_app_comm d).
Qed.

(** One step of the merged iterator keeps the heap in order and uses entries
    up. *)
Lemma mergedNext_ok h : heap_ok itemHeap_Less key_le h ->
  match mergedNext itemHeap_Less h with
  | None => stream h = []
  | Some (e, d, h') => heap_ok itemHeap_Less key_le h' /\ exists group, stream h ≡ₚ group ++ stream h' /\ group <> [] /\
      e ∈ group /\ (forall x, x ∈ group -> Key x = Key e /\ Version x <= Version e) /\
      (forall x, x ∈ stream h' -> bytes_lt (Key e) (Key x)) /\ Value <$> group ≡ₚ d ++ [Value e]
  end.
Proof.
  intros Hok. unfold mergedNext. destruct (decide (h = [])) as [->|Hne]; [by rewrite heapPop_nil|].
  destruct (pop_ok _ key_le key_le_trans itemHeap_le h Hok Hne) as (top & h1 & -> & _ & Hok1 & Hperm & Hmin).
  pose proof (dedupLoop_spec (length (stream (advance itemHeap_Less h1 top))) (advance itemHeap_Less h1 top)
    (hi_cur top) [] Hok1 ltac:(lia) Hmin) as Hd.
  destruct (dedupLoop _ _ _ _ _) as [[e d] h']. destruct Hd as (g & Hg & Hok' & Hk & Hgt & Hin & Hke & Hmax & Hvals).
  split; [done|]. exists (hi_cur top :: g). split; [by rewrite Hperm, Hg|]. split; [done|]. split; [done|]. split; [|split; [|exact Hvals]].
  - intros x Hx. split; [|by apply Hmax]. rewrite Hke. apply elem_of_cons in Hx as [->|Hx]; auto.
  - intros x Hx. rewrite Hke. auto.
Qed.

Lemma mergedNext_length h e d h' : heap_ok itemHeap_Less key_le h -> mergedNext itemHeap_Less h = Some (e, d, h') ->
  (length (stream h') < length (stream h))%nat.
Proof.
  intros Hok E. pose proof (mergedNext_ok h Hok) as H. rewrite E in H. destruct H as (_ & group & Hp & Hne & _).
  rewrite (Permutation_length Hp), length_app. destruct group; [done|]. simpl. lia.
Qed.

Lemma mergedLoop_spec fuel h :
  heap_ok itemHeap_Less key_le h -> (length (stream h) <= fuel)%nat ->
  merge_spec (stream h) (mergedLoop itemHeap_Less fuel h).1 (mergedLoop itemHeap_Less fuel h).2.
Proof.
  assert (merge_spec [] [] []) as Hnil.
  { split; simpl; [constructor|by intros e ?%elem_of_nil..|done]. }
  revert h. induction fuel as [|f IH]; intros h Hok Hf; cbn [mergedLoop].
  - destruct (stream h); simpl in Hf; [done|lia].
  - pose proof (mergedNext_ok h Hok) as Hn. destruct (mergedNext itemHeap_Less h) as [[[e d] h']|] eqn:En; [|by rewrite Hn].
    pose proof (mergedNext_length _ _ _ _ Hok En) as Hl. destruct Hn as (Hok' & group & Hp & _ & He & Hg & Hr & Hv).
    specialize (IH h' Hok' ltac:(lia)). destruct (mergedLoop _ f h') as [es ds]. simpl in *.
    by eapply (merge_spec_cons _ group (stream h')).
Qed.

(** What the iterator still delivers, whatever the fuel. *)
Definition remaining (h : list heapItem) : list Entry := (mergedLoop itemHeap_Less (length (stream h)) h).1.

Lemma mergedLoop_fuel f f' h : heap_ok itemHeap_Less key_le h -> (length (stream h) <= f)%nat -> (length (stream h) <= f')%nat ->
  mergedLoop itemHeap_Less f h = mergedLoop itemHeap_Less f' h.
Proof.
  revert f' h. induction f as [|f IH]; intros f' h Hok Hf Hf'.
  - destruct h as [|it h]; [|simpl in Hf; lia]. by destruct f'.
  - destruct f' as [|f']; [destruct h as [|it h]; [done|simpl in Hf'; lia]|]. cbn [mergedLoop].
    pose proof (mergedNext_ok h Hok) as Hn. destruct (mergedNext itemHeap_Less h) as [[[e d] h']|] eqn:En; [|done].
    pose proof (mergedNext_length _ _ _ _ Hok En) as Hl. destruct Hn as [Hok' _]. by rewrite (IH f' h') by (done || lia).
Qed.

Lemma remaining_next h : heap_ok itemHeap_Less key_le h ->
  match mergedNext itemHeap_Less h with
  | None => remaining h = []
  | Some (e, _, h') => remaining h = e :: remaining h' /\ heap_ok itemHeap_Less key_le h'
  end.
Proof.
  intros Hok. pose proof (mergedNext_ok h Hok) as Hn. unfold remaining. destruct (mergedNext itemHeap_Less h) as [[[e d] h']|] eqn:En.
  - pose proof (mergedNext_length _ _ _ _ Hok En) as Hl. destruct Hn as [Hok' _]. split; [|done].
    destruct (length (stream h)) as [|f] eqn:Ef; [lia|]. cbn [mergedLoop]. rewrite En.
    rewrite (mergedLoop_fuel f (length (stream h')) h') by (done || lia). by destruct (mergedLoop _ _ _).
  - by rewrite Hn.
Qed.

Lemma merge_spec_perm T T' out disc : T ≡ₚ T' -> merge_spec T out disc -> merge_spec T' out disc.
Proof.
  intros HT [H1 H2 H3 H4]. split; [done| | |by rewrite <- HT].
  - intros e He. destruct (H2 e He) as [Hin Hm]. split; [by rewrite <- HT|]. intros x Hx. apply Hm. by rewrite HT.
  - intros e He. apply H3. by rewrite HT.
Qed.

(** A new merged iterator holds the entries of its sources. *)
Lemma NewMergedIterator_spec priorities iters (h := NewMergedIterator priorities iters) :
  Forall (StronglySorted key_le) iters -> heap_ok itemHeap_Less key_le h /\ stream h ≡ₚ concat iters.
Proof.
  intros Hs. split; [by apply (heap_ok_init _)|].
  unfold h, NewMergedIterator. rewrite (stream_perm _ _ (heapInit_perm _ _)). by rewrite stream_heapItems.
Qed.

(** C24. The merged iterator de-duplicates correctly: over key-sorted sources
    and whatever their priorities, it delivers each key once, in strictly
    ascending order, with a version no source exceeds; and every value that
    is not delivered, and no other, is reported to the discard callback. *)
Theorem drainMerged_dedups priorities iters :
  Forall (StronglySorted key_le) iters ->
  let '(out, disc) := drainMerged priorities iters in merge_spec (concat iters) out disc.
Proof.
  intros Hs. unfold drainMerged. destruct (NewMergedIterator_spec priorities iters Hs) as [Hok Hst].
  pose proof (mergedLoop_spec (length (concat iters)) _ Hok) as H. rewrite (Permutation_length Hst) in H.
  destruct (mergedLoop _ _ _) as [out disc]. by apply (merge_spec_perm _ _ _ _ Hst), H.
Qed.

Module IteratorWitness.
Definition e1 : Entry := mkEntry [97] [1] false 0 1.
Definition e2 : Entry := mkEntry [97] [2] false 0 5.
Definition e3 : Entry := mkEntry [98] [3] true 0 2.

Lemma drainMergedVersion_merges_witness :
  drainMergedVersion [[e1; e3]; [e2]] = [e2; e1; e3] /\
  StronglySorted version_le (drainMergedVersion [[e1; e3]; [e2]]).
Proof.
  split; [reflexivity|]. apply (drainMergedVersion_merges [[e1; e3]; [e2]]).
  repeat constructor; left; reflexivity.
Defined.

Lemma drainMerged_dedups_witness :
  drainMerged [1; 2] [[e1; e3]; [e2]] = ([e2; e3], [[1]]) /\
  merge_spec [e1; e3; e2] (drainMerged [1; 2] [[e1; e3]; [e2]]).1 (drainMerged [1; 2] [[e1; e3]; [e2]]).2.
Proof.
  split; [reflexivity|]. pose proof (drainMerged_dedups [1; 2] [[e1; e3]; [e2]]) as H.
  destruct (drainMerged _ _) as [out disc]. apply H. repeat constructor; discriminate.
Defined.
End IteratorWitness.
