(* ===== verification/Checksum.v ===== *)
(** * CRC-32 ([hash/crc32], IEEE polynomial)

    The checksum the log, the value log and the SSTables store, computed bit
    by bit with the reflected polynomial. *)

From S2P Require Import Prelude.

Definition crcPoly : Z := 0xEDB88320.

Fixpoint crcBits (n : nat) (crc : Z) : Z :=
  match n with
  | O => crc
  | S m => crcBits m (if Z.testbit crc 0 then Z.lxor (Z.shiftr crc 1) crcPoly else Z.shiftr crc 1)
  end.

Definition crcByte (crc b : Z) : Z := crcBits 8 (Z.lxor crc b).

(** [crc32.Update] on the complemented register, and [ChecksumIEEE]. *)
Definition crcUpdate (crc : Z) (data : bytes) : Z :=
  Z.lxor (foldl crcByte (Z.lxor crc 0xFFFFFFFF) data) 0xFFFFFFFF.

Definition crc32 (data : bytes) : Z := crcUpdate 0 data.

Example crc32_check : crc32 [49; 50; 51; 52; 53; 54; 55; 56; 57] = 0xCBF43926.
Proof. by vm_compute. Qed.

Lemma shiftr_u32 a : is_u32 a -> is_u32 (Z.shiftr a 1).
Proof.
  unfold is_u32. intros H. rewrite Z.shiftr_div_pow2 by lia. change (2 ^ 1) with 2.
  split; [apply Z.div_pos; lia|]. apply Z.div_lt_upper_bound; lia.
Qed.

Lemma crcBits_u32 n crc : is_u32 crc -> is_u32 (crcBits n crc).
Proof.
  revert crc. induction n as [|n IH]; intros crc H; simpl; [done|]. apply IH. case_if.
  - apply lxor_u32; [by apply shiftr_u32|]. unfold is_u32, crcPoly. lia.
  - by apply shiftr_u32.
Qed.

(** The checksum of bytes fits the four-byte field it is stored in. *)
Lemma crc32_u32 data : wf_bytes data -> is_u32 (crc32 data).
Proof.
  intros Hd. unfold crc32, crcUpdate. apply lxor_u32; [|unfold is_u32; lia].
  assert (is_u32 (Z.lxor 0 0xFFFFFFFF)) as H0 by (by split; vm_compute). revert H0.
  generalize (Z.lxor 0 0xFFFFFFFF). induction data as [|b data IH]; intros c Hc; simpl; [done|].
  apply Forall_cons in Hd as [Hb Hd]. apply IH; [done|]. apply crcBits_u32, lxor_u32; [done|].
  unfold is_u8, is_u32 in *. lia.
Qed.
