(* ===== verification/Crypto.v ===== *)
(** * Encryption at rest ([internal/crypto/cipher.go])

    [CryptAtOffset] is AES in counter mode, entered at an arbitrary byte
    offset.  The block cipher itself is a parameter; the counter arithmetic,
    the carry into the upper half and the skipped bytes of the first block are
    modelled.  The theorems show that a byte's keystream depends only on its
    absolute offset, so that any piece of a file can be decrypted alone. *)

From S2P Require Import Prelude.

Definition aesBlockSize : Z := 16.

(** Sixteen-byte counters are numbers below [2 ^ 128], most significant first;
    a shorter [baseIV] is zero padded on the right by [copy]. *)
Definition ivBytes (baseIV : bytes) : bytes := take 16 (baseIV ++ replicate 16 0).

Section ctr.
(** [block.Encrypt] under a key: 16 bytes to 16 bytes. *)
Context (aesEncrypt : bytes -> bytes -> bytes).

(** [cipher.NewCTR]: block [i] of the stream encrypts the counter plus [i],
    incremented as one 128-bit big-endian number. *)
Definition ctrBlock (key iv : bytes) (i : nat) : bytes :=
  aesEncrypt key (be_encode 16 (be_decode iv + Z.of_nat i)).

Definition ctrByte (key iv : bytes) (p : nat) : Z :=
  default 0 (ctrBlock key iv (p / 16) !! (p mod 16)%nat).

(** [stream.XORKeyStream] with [pos] bytes of the stream already used. *)
Fixpoint xorKeyStream (key iv : bytes) (pos : nat) (data : bytes) : bytes :=
  match data with
  | [] => []
  | b :: data' => Z.lxor b (ctrByte key iv pos) :: xorKeyStream key iv (S pos) data'
  end.

(** The counter block for [offset]: the low half is advanced, the carry goes
    into the high half. *)
Definition advanceIV (baseIV : bytes) (offset : Z) : bytes :=
  let iv := ivBytes baseIV in
  let blockNum := u64 (offset / aesBlockSize) in
  let low := be_decode (drop 8 iv) in
  let sum := u64 (low + blockNum) in
  let high := be_decode (take 8 iv) in
  let high' := if sum <? low then u64 (high + 1) else high in
  be_encode 8 high' ++ be_encode 8 sum.

Definition CryptAtOffset (key baseIV : bytes) (offset : Z) (data : bytes) : bytes :=
  match data with
  | [] => []
  | _ =>
      let iv := advanceIV baseIV offset in
      let rem := Z.to_nat (offset mod aesBlockSize) in
      xorKeyStream key iv rem data
  end.

(** ** The keystream as a function of the absolute offset *)

Definition keystreamAt (key baseIV : bytes) (o : nat) : Z :=
  default 0 (aesEncrypt key (be_encode 16 (be_decode (ivBytes baseIV) + Z.of_nat (o / 16))) !! (o mod 16)%nat).

Fixpoint xorAt (key baseIV : bytes) (o : nat) (data : bytes) : bytes :=
  match data with
  | [] => []
  | b :: data' => Z.lxor b (keystreamAt key baseIV o) :: xorAt key baseIV (S o) data'
  end.
End ctr.

Lemma length_ivBytes iv : length (ivBytes iv) = 16%nat.
Proof. unfold ivBytes. rewrite length_take, length_app, length_replicate. lia. Qed.

Lemma wf_ivBytes iv : wf_bytes iv -> wf_bytes (ivBytes iv).
Proof.
  intros H. unfold ivBytes, wf_bytes. apply Forall_take, Forall_app. split; [done|].
  apply Forall_replicate. unfold is_u8. lia.
Qed.

Lemma be_decode_app a b : be_decode (a ++ b) = be_decode a * 256 ^ Z.of_nat (length b) + be_decode b.
Proof.
  induction a as [|x a IH]; [done|]. simpl app. rewrite !be_decode_cons, IH, length_app.
  rewrite Nat2Z.inj_add, Z.pow_add_r by lia. ring.
Qed.

(** The advanced counter is the base counter plus the block number. *)
Lemma advanceIV_spec baseIV offset :
  wf_bytes baseIV -> 0 <= offset < 2 ^ 63 ->
  be_decode (advanceIV baseIV offset) =
    (be_decode (ivBytes baseIV) + offset / 16) mod 2 ^ 128.
Proof.
  intros Hw Ho. unfold advanceIV, aesBlockSize.
  pose proof (wf_ivBytes _ Hw) as Hiv. pose proof (length_ivBytes baseIV) as Hl.
  rewrite <- (take_drop 8 (ivBytes baseIV)) in Hiv at 1. apply wf_bytes_app in Hiv as [Hh Hlo].
  pose proof (be_decode_bound _ Hh) as Bh. pose proof (be_decode_bound _ Hlo) as Bl.
  assert (be_decode (ivBytes baseIV) =
    be_decode (take 8 (ivBytes baseIV)) * 2 ^ 64 + be_decode (drop 8 (ivBytes baseIV))) as ->.
  { rewrite <- (take_drop 8 (ivBytes baseIV)) at 1. by rewrite be_decode_app, length_drop, Hl. }
  rewrite be_decode_app, length_be_encode, length_take, length_drop, Hl in *.
  simpl Nat.min in *. simpl Nat.sub in *.
  set (high := be_decode (take 8 _)) in *. set (low := be_decode (drop 8 _)) in *.
  change (256 ^ Z.of_nat 8) with (2 ^ 64) in *.
  assert (0 <= offset / 16 < 2 ^ 59) as Hq.
  { split; [apply Z.div_pos; lia|]. apply Z.div_lt_upper_bound; lia. }
  rewrite (u64_id (offset / 16)) by (unfold is_u64; lia). rewrite !be_decode_encode.
  change (256 ^ Z.of_nat 8) with (2 ^ 64). rewrite (Z.mod_small (u64 (low + offset / 16))) by apply u64_range.
  unfold u64. destruct (Z.lt_ge_cases (low + offset / 16) (2 ^ 64)) as [Hlt|Hge].
  - rewrite (Z.mod_small (low + offset / 16)) by lia.
    rewrite (proj2 (Z.ltb_ge _ _)) by lia. rewrite !Z.mod_small; lia.
  - replace ((low + offset / 16) mod 2 ^ 64) with (low + offset / 16 - 2 ^ 64)
      by (apply (Z.mod_unique_pos _ _ 1); lia).
    rewrite (proj2 (Z.ltb_lt _ _)) by lia. rewrite Z.mod_mod by lia.
    destruct (Z.lt_ge_cases (high + 1) (2 ^ 64)) as [Hh1|Hh1].
    + rewrite (Z.mod_small (high + 1)) by lia. rewrite Z.mod_small; lia.
    + replace high with (2 ^ 64 - 1) by lia.
      replace ((2 ^ 64 - 1 + 1) mod 2 ^ 64) with 0 by done.
      apply (Z.mod_unique_pos _ _ 1); lia.
Qed.

Lemma be_encode_congr n u v : u mod 256 ^ Z.of_nat n = v mod 256 ^ Z.of_nat n -> be_encode n u = be_encode n v.
Proof. intros H. by rewrite <- be_encode_mod, H, be_encode_mod. Qed.

Section ctr_proofs.
Context (aesEncrypt : bytes -> bytes -> bytes) (key baseIV : bytes) (wf_iv : wf_bytes baseIV).

Lemma ctrByte_keystream offset p :
  0 <= offset < 2 ^ 63 ->
  ctrByte aesEncrypt key (advanceIV baseIV offset) (Z.to_nat (offset mod 16) + p) =
    keystreamAt aesEncrypt key baseIV (Z.to_nat offset + p).
Proof.
  intros Ho. unfold ctrByte, keystreamAt, ctrBlock.
  assert (Z.to_nat offset = (Z.to_nat (offset / 16) * 16 + Z.to_nat (offset mod 16))%nat) as E.
  { pose proof (Z.div_mod offset 16 ltac:(lia)). pose proof (Z.mod_pos_bound offset 16 ltac:(lia)).
    pose proof (Z.div_pos offset 16 ltac:(lia) ltac:(lia)). lia. }
  set (r := (Z.to_nat (offset mod 16) + p)%nat).
  replace (Z.to_nat offset + p)%nat with (r + Z.to_nat (offset / 16) * 16)%nat by (unfold r; lia).
  rewrite Nat.Div0.mod_add, Nat.div_add by lia. f_equal. f_equal.
  erewrite be_encode_congr; [done|]. rewrite advanceIV_spec by done.
  change (256 ^ Z.of_nat 16) with (2 ^ 128). rewrite Zplus_mod_idemp_l. f_equal.
  rewrite Nat2Z.inj_add, Z2Nat.id by (apply Z.div_pos; lia). lia.
Qed.

(** Entering the stream in the middle gives the bytes of that offset. *)
Lemma CryptAtOffset_spec offset data :
  0 <= offset < 2 ^ 63 ->
  CryptAtOffset aesEncrypt key baseIV offset data = xorAt aesEncrypt key baseIV (Z.to_nat offset) data.
Proof.
  intros Ho. assert (forall p, xorKeyStream aesEncrypt key (advanceIV baseIV offset)
    (Z.to_nat (offset mod 16) + p) data = xorAt aesEncrypt key baseIV (Z.to_nat offset + p) data) as H.
  { induction data as [|b data IH]; intros p; [done|]. simpl. rewrite ctrByte_keystream by done.
    f_equal. rewrite !plus_n_Sm. apply IH. }
  specialize (H 0%nat). rewrite !Nat.add_0_r in H. by destruct data.
Qed.

Lemma length_xorAt o data : length (xorAt aesEncrypt key baseIV o data) = length data.
Proof. revert o. induction data; intros o; simpl; auto. Qed.

Lemma xorAt_app o a b :
  xorAt aesEncrypt key baseIV o (a ++ b) =
    xorAt aesEncrypt key baseIV o a ++ xorAt aesEncrypt key baseIV (o + length a) b.
Proof.
  revert o. induction a as [|x a IH]; intros o; simpl; [by rewrite Nat.add_0_r|].
  f_equal. rewrite IH. do 2 f_equal. lia.
Qed.

Lemma xorAt_involutive o data : xorAt aesEncrypt key baseIV o (xorAt aesEncrypt key baseIV o data) = data.
Proof.
  revert o. induction data as [|b data IH]; intros o; simpl; [done|].
  rewrite IH. f_equal. by rewrite Z.lxor_assoc, Z.lxor_nilpotent, Z.lxor_0_r.
Qed.

(** Counter-mode encryption is its own inverse and position independent:
    decrypting what was encrypted at the same file offset returns the data,
    and encrypting two adjacent pieces separately, each at its own offset,
    gives the same bytes as encrypting them together, whatever the alignment
    of the offsets and with the counter's carry past 64 bits. *)
Theorem CryptAtOffset_roundtrip offset a b :
  0 <= offset -> offset + Z.of_nat (length a) < 2 ^ 63 ->
  CryptAtOffset aesEncrypt key baseIV offset (CryptAtOffset aesEncrypt key baseIV offset a) = a /\
  CryptAtOffset aesEncrypt key baseIV offset (a ++ b) =
    CryptAtOffset aesEncrypt key baseIV offset a ++
    CryptAtOffset aesEncrypt key baseIV (offset + Z.of_nat (length a)) b.
Proof.
  intros H0 H1. rewrite !CryptAtOffset_spec by lia. split; [apply xorAt_involutive|].
  rewrite xorAt_app. do 2 f_equal. lia.
Qed.
End ctr_proofs.

(** A toy block cipher whose blocks differ. *)
Definition toyCipher (key block : bytes) : bytes := zip_with Z.lxor (key ++ replicate 16 0) block.

Lemma CryptAtOffset_roundtrip_witness :
  let iv := replicate 16 255 in
  CryptAtOffset toyCipher [7] iv 30 (CryptAtOffset toyCipher [7] iv 30 [1; 2; 3]) = [1; 2; 3] /\
  CryptAtOffset toyCipher [7] iv 30 ([1; 2; 3] ++ [4]) =
    CryptAtOffset toyCipher [7] iv 30 [1; 2; 3] ++ CryptAtOffset toyCipher [7] iv 33 [4] /\
  CryptAtOffset toyCipher [7] iv 30 [1; 2; 3] = [1; 2; 4].
Proof.
  intros iv. destruct (CryptAtOffset_roundtrip toyCipher [7] iv) with (offset := 30) (a := [1; 2; 3]) (b := [4])
    as [H1 H2]; [apply Forall_replicate; unfold is_u8; lia|lia|reflexivity|].
  split; [exact H1|]. split; [exact H2|by vm_compute].
Defined.
