(* ===== verification/Registry.v ===== *)
(** * Key registry and sealed blocks ([internal/crypto])

    The data keys of a database, stored in [KEYREGISTRY] under the master key,
    and the AES-GCM sealing of SSTable blocks under the active data key.
    Galois/counter mode is written out over the block cipher, which stays a
    parameter; random bytes are arguments.  The theorem shows that a block
    sealed before a restart opens after the registry has been read back. *)

From S2P Require Import Prelude Crypto.

(** ** Galois/counter mode ([crypto/cipher], 12-byte nonce, 16-byte tag) *)

Definition gcmTagSize : nat := 16.
Definition blockNonceSize : nat := 12.

(** Multiplication in GF(2^128); bit 0 of a block is the most significant bit
    of its first byte. *)
Fixpoint gfMulLoop (n : nat) (x z v : Z) : Z :=
  match n with
  | O => z
  | S n =>
      gfMulLoop n x (if Z.testbit x (Z.of_nat n) then Z.lxor z v else z)
        (if Z.testbit v 0 then Z.lxor (Z.shiftr v 1) (Z.shiftl 0xE1 120) else Z.shiftr v 1)
  end.

Definition gfMul (x y : Z) : Z := gfMulLoop 128 x 0 y.

(** GHASH over data in blocks of 16 bytes, the last one zero padded. *)
Fixpoint ghashBlocks (fuel : nat) (h y : Z) (data : bytes) : Z :=
  match fuel, data with
  | S fuel, _ :: _ =>
      let block := take 16 (take 16 data ++ replicate 16 0) in
      ghashBlocks fuel h (gfMul (Z.lxor y (be_decode block)) h) (drop 16 data)
  | _, _ => y
  end.

(** No additional data: the length block holds 0 and the bits of the data. *)
Definition ghash (h : Z) (data : bytes) : Z :=
  let y := ghashBlocks (length data) h 0 data in
  gfMul (Z.lxor y (be_decode (be_encode 8 0 ++ be_encode 8 (8 * Z.of_nat (length data))))) h.

(** The second GCM test case of the specification. *)
Example ghash_test_vector :
  ghash 0x66e94bd4ef8a2c3b884cfa59ca342b2e (be_encode 16 0x0388dace60b6a392f328c2b971b2fe78) =
  0xf38cbb1ad69223dcc3457ae5b6b0f885.
Proof. by vm_compute. Qed.

Section gcm.
Context (aesEncrypt : bytes -> bytes -> bytes).

(** Counter block [i]: the nonce and a 32-bit counter that starts at 1. *)
Definition gcmCounter (nonce : bytes) (i : nat) : bytes := nonce ++ be_encode 4 (1 + Z.of_nat i).

(** The keystream starts at counter 2. *)
Definition gcmByte (key nonce : bytes) (p : nat) : Z :=
  default 0 (aesEncrypt key (gcmCounter nonce (S (p / 16))) !! (p mod 16)%nat).

Fixpoint gcmXor (key nonce : bytes) (pos : nat) (data : bytes) : bytes :=
  match data with
  | [] => []
  | b :: data => Z.lxor b (gcmByte key nonce pos) :: gcmXor key nonce (S pos) data
  end.

Definition gcmTag (key nonce ciphertext : bytes) : bytes :=
  let h := be_decode (aesEncrypt key (replicate 16 0)) in
  be_encode 16 (Z.lxor (ghash h ciphertext) (be_decode (aesEncrypt key (gcmCounter nonce 0)))).

(** [aead.Seal] and [aead.Open]. *)
Definition gcmSeal (key nonce plaintext : bytes) : bytes :=
  let c := gcmXor key nonce 0 plaintext in c ++ gcmTag key nonce c.

Definition gcmOpen (key nonce sealed : bytes) : option bytes :=
  if Nat.ltb (length sealed) gcmTagSize then None
  else
    let c := take (length sealed - gcmTagSize) sealed in
    let tag := drop (length sealed - gcmTagSize) sealed in
    if bool_decide (tag = gcmTag key nonce c) then Some (gcmXor key nonce 0 c) else None.

(** [aes.NewCipher] accepts three key lengths. *)
Definition aesKeyOk (key : bytes) : bool :=
  Nat.eqb (length key) 16 || Nat.eqb (length key) 24 || Nat.eqb (length key) 32.

(** ** The registry ([registry.go]) *)

Record KeyRegistry := mkKeyRegistry {
  masterKey : bytes;
  activeKeyID : Z;
  dataKeys : gmap Z bytes;
}.

Definition GetKey (kr : KeyRegistry) (keyID : Z) : option bytes := dataKeys kr !! keyID.

(** A missing map entry reads as the nil slice. *)
Definition ActiveKey (kr : KeyRegistry) : Z * bytes :=
  (activeKeyID kr, default [] (dataKeys kr !! activeKeyID kr)).

(** [sort.Slice] on the ids. *)
Fixpoint insertId (p : Z * bytes) (l : list (Z * bytes)) : list (Z * bytes) :=
  match l with
  | [] => [p]
  | q :: l' => if p.1 <? q.1 then p :: q :: l' else q :: insertId p l'
  end.

Definition sortedKeys (kr : KeyRegistry) : list (Z * bytes) :=
  foldr insertId [] (map_to_list (dataKeys kr)).

(** One record: id, nonce, length, sealed key.  [copy] into the 12-byte field
    takes the whole nonce. *)
Definition encodeKeyRecord (master nonce : bytes) (p : Z * bytes) : bytes :=
  let ciphertext := gcmSeal master nonce p.2 in
  be_encode 8 p.1 ++ nonce ++ be_encode 4 (Z.of_nat (length ciphertext)) ++ ciphertext.

Fixpoint encodeKeys (master : bytes) (nonces : nat -> bytes) (i : nat) (l : list (Z * bytes)) : bytes :=
  match l with
  | [] => []
  | p :: l => encodeKeyRecord master (nonces i) p ++ encodeKeys master nonces (S i) l
  end.

(** [flush]: the new contents of the registry file; [None] is the error of
    [aes.NewCipher]. *)
Definition KeyRegistry_flush (kr : KeyRegistry) (nonces : nat -> bytes) : option bytes :=
  if aesKeyOk (masterKey kr) then Some (encodeKeys (masterKey kr) nonces 0 (sortedKeys kr)) else None.

(** The record loop of [loadOrCreate]; every round consumes at least 24 bytes. *)
Fixpoint loadLoop (fuel : nat) (kr : KeyRegistry) (data : bytes) (off : nat) : option KeyRegistry :=
  match fuel with
  | O => None
  | S fuel =>
      if Nat.ltb off (length data) then
        if Nat.ltb (length data) (off + 24) then None
        else
          let keyID := be_decode (slice data off (off + 8)) in
          let nonce := slice data (off + 8) (off + 20) in
          let encLen := Z.to_nat (be_decode (slice data (off + 20) (off + 24))) in
          let off := (off + 24)%nat in
          if Nat.leb encLen 0 || Nat.ltb (length data) (off + encLen) then None
          else
            match gcmOpen (masterKey kr) nonce (slice data off (off + encLen)) with
            | None => None
            | Some plaintextKey =>
                let kr := mkKeyRegistry (masterKey kr)
                  (if activeKeyID kr <? keyID then keyID else activeKeyID kr)
                  (<[keyID := plaintextKey]> (dataKeys kr)) in
                loadLoop fuel kr data (off + encLen)
            end
      else Some kr
  end.

(** [loadOrCreate] on the contents of the file; a fresh registry gets a random
    key under id 1 and is written out at once.  The result is the registry and
    the file. *)
Definition loadOrCreate (kr : KeyRegistry) (data : bytes) (freshKey : bytes) (nonces : nat -> bytes) :
    option (KeyRegistry * bytes) :=
  match data with
  | [] =>
      let kr := mkKeyRegistry (masterKey kr) 1 (<[1 := freshKey]> (dataKeys kr)) in
      match KeyRegistry_flush kr nonces with Some file => Some (kr, file) | None => None end
  | _ =>
      if aesKeyOk (masterKey kr) then
        match loadLoop (S (length data)) kr data 0 with
        | Some kr => if activeKeyID kr =? 0 then None else Some (kr, data)
        | None => None
        end
      else None
  end.

Definition OpenKeyRegistry (master data freshKey : bytes) (nonces : nat -> bytes) : option (KeyRegistry * bytes) :=
  if aesKeyOk master then loadOrCreate (mkKeyRegistry master 0 ∅) data freshKey nonces else None.

(** ** Sealed blocks ([cipher.go]) *)

Definition SealBlock (kr : KeyRegistry) (nonce plaintext : bytes) : option (Z * bytes) :=
  let '(keyID, key) := ActiveKey kr in
  if aesKeyOk key then Some (keyID, nonce ++ gcmSeal key nonce plaintext) else None.

Definition OpenBlockWithKey (key sealed : bytes) : option bytes :=
  if Nat.ltb (length sealed) blockNonceSize then None
  else if aesKeyOk key then gcmOpen key (take blockNonceSize sealed) (drop blockNonceSize sealed)
  else None.

Definition OpenBlock (kr : KeyRegistry) (keyID : Z) (sealed : bytes) : option bytes :=
  match GetKey kr keyID with None => None | Some key => OpenBlockWithKey key sealed end.

End gcm.

(** ** Sealing and opening *)

Section proofs.
Context (aesEncrypt : bytes -> bytes -> bytes).

Lemma length_gcmXor key nonce data pos : length (gcmXor aesEncrypt key nonce pos data) = length data.
Proof. revert pos. induction data; intros; simpl; auto. Qed.

Lemma gcmXor_involutive key nonce data pos :
  gcmXor aesEncrypt key nonce pos (gcmXor aesEncrypt key nonce pos data) = data.
Proof.
  revert pos. induction data as [|b data IH]; intros pos; simpl; [done|].
  by rewrite Z.lxor_assoc, Z.lxor_nilpotent, Z.lxor_0_r, IH.
Qed.

Lemma length_gcmSeal key nonce pt : length (gcmSeal aesEncrypt key nonce pt) = (length pt + 16)%nat.
Proof. unfold gcmSeal, gcmTag. cbv zeta. by rewrite length_app, length_be_encode, length_gcmXor. Qed.

Lemma gcmOpen_gcmSeal key nonce pt : gcmOpen aesEncrypt key nonce (gcmSeal aesEncrypt key nonce pt) = Some pt.
Proof.
  unfold gcmOpen. rewrite length_gcmSeal. unfold gcmTagSize.
  destruct (Nat.ltb_spec (length pt + 16) 16); [lia|].
  replace (length pt + 16 - 16)%nat with (length (gcmXor aesEncrypt key nonce 0 pt)) by (rewrite length_gcmXor; lia).
  unfold gcmSeal. rewrite take_app_length, drop_app_length. rewrite bool_decide_true by done.
  by rewrite gcmXor_involutive.
Qed.

Lemma OpenBlockWithKey_seal key nonce pt :
  aesKeyOk key = true -> length nonce = blockNonceSize ->
  OpenBlockWithKey aesEncrypt key (nonce ++ gcmSeal aesEncrypt key nonce pt) = Some pt.
Proof.
  intros Hk Hn. unfold OpenBlockWithKey. rewrite length_app, Hn, Hk.
  destruct (Nat.ltb_spec (blockNonceSize + length (gcmSeal aesEncrypt key nonce pt)) blockNonceSize); [lia|].
  rewrite take_app_length', drop_app_length' by done. apply gcmOpen_gcmSeal.
Qed.

(** ** Reading the registry back *)

Definition addKey (kr : KeyRegistry) (p : Z * bytes) : KeyRegistry :=
  mkKeyRegistry (masterKey kr) (if activeKeyID kr <? p.1 then p.1 else activeKeyID kr)
    (<[p.1 := p.2]> (dataKeys kr)).

(** Key ids and key lengths that the record format can hold. *)
Definition key_ok (p : Z * bytes) : Prop := is_u64 p.1 /\ Z.of_nat (length p.2) + 16 < 2 ^ 32.

Lemma loadRecord pre nonce master p rest fuel kr :
  key_ok p -> length nonce = 12%nat -> masterKey kr = master ->
  loadLoop aesEncrypt (S fuel) kr (pre ++ encodeKeyRecord aesEncrypt master nonce p ++ rest) (length pre) =
  loadLoop aesEncrypt fuel (addKey kr p) (pre ++ encodeKeyRecord aesEncrypt master nonce p ++ rest)
    (length (pre ++ encodeKeyRecord aesEncrypt master nonce p)).
Proof.
  intros [Hid Hlen] Hn Hm. unfold is_u64 in Hid. set (c := gcmSeal aesEncrypt master nonce p.2).
  assert (length c = (length p.2 + 16)%nat) as Hc by apply length_gcmSeal.
  assert (encodeKeyRecord aesEncrypt master nonce p = be_encode 8 p.1 ++ nonce ++ be_encode 4 (Z.of_nat (length c)) ++ c) as E by done.
  set (R := encodeKeyRecord aesEncrypt master nonce p) in *.
  assert (length R = (24 + length c)%nat) as HR by (rewrite E, !length_app, !length_be_encode; lia).
  set (D := pre ++ R ++ rest). assert (length D = (length pre + length R + length rest)%nat) as HD
    by (unfold D; rewrite !length_app; lia).
  cbn [loadLoop]. destruct (Nat.ltb_spec (length pre) (length D)); [|lia].
  destruct (Nat.ltb_spec (length D) (length pre + 24)); [lia|]. cbv zeta.
  assert (slice D (length pre) (length pre + 8) = be_encode 8 p.1) as ->.
  { unfold D. rewrite E, <- !app_assoc. apply slice_mid; [done|]. by rewrite length_be_encode. }
  assert (slice D (length pre + 8) (length pre + 20) = nonce) as ->.
  { unfold D. rewrite E, <- !app_assoc, app_assoc. apply slice_mid; rewrite ?length_app, ?length_be_encode; lia. }
  assert (slice D (length pre + 20) (length pre + 24) = be_encode 4 (Z.of_nat (length c))) as ->.
  { unfold D. rewrite E, <- !app_assoc, app_assoc, app_assoc.
    apply slice_mid; rewrite ?length_app, ?length_be_encode; lia. }
  rewrite !be_decode_encode_id by (change (256 ^ Z.of_nat 8) with (2 ^ 64); change (256 ^ Z.of_nat 4) with (2 ^ 32); lia).
  rewrite Nat2Z.id. destruct (Nat.leb_spec (length c) 0); [lia|].
  destruct (Nat.ltb_spec (length D) (length pre + 24 + length c)); [lia|]. cbn [orb].
  assert (slice D (length pre + 24) (length pre + 24 + length c) = c) as ->.
  { unfold D. rewrite E, <- !app_assoc, app_assoc, app_assoc, app_assoc.
    apply slice_mid; rewrite ?length_app, ?length_be_encode; lia. }
  rewrite Hm. unfold c at 1. rewrite gcmOpen_gcmSeal. unfold addKey. rewrite Hm. f_equal.
  rewrite length_app. lia.
Qed.

Lemma loadLoop_spec l master nonces i pre kr fuel :
  Forall key_ok l -> (forall i, length (nonces i) = 12%nat) -> masterKey kr = master -> (length l < fuel)%nat ->
  loadLoop aesEncrypt fuel kr (pre ++ encodeKeys aesEncrypt master nonces i l) (length pre) = Some (fold_left addKey l kr).
Proof.
  intros Hl Hn. revert i pre kr fuel. induction Hl as [|p l Hp Hl IH]; intros i pre kr fuel Hm Hf.
  - destruct fuel; [simpl in Hf; lia|]. cbn [loadLoop encodeKeys]. rewrite app_nil_r.
    by destruct (Nat.ltb_spec (length pre) (length pre)); [lia|].
  - destruct fuel as [|fuel]; [simpl in Hf; lia|]. cbn [encodeKeys fold_left].
    rewrite loadRecord by done. rewrite app_assoc. apply IH; [done|simpl in Hf; lia].
Qed.

Lemma insertId_perm p l : insertId p l ≡ₚ p :: l.
Proof.
  induction l as [|q l IH]; simpl; [done|]. case_if; [done|]. rewrite IH. by constructor.
Qed.

Lemma sortedKeys_perm kr : sortedKeys kr ≡ₚ map_to_list (dataKeys kr).
Proof.
  unfold sortedKeys. induction (map_to_list (dataKeys kr)) as [|p l IH]; simpl; [done|].
  by rewrite insertId_perm, IH.
Qed.

Lemma fold_addKey_master l kr : masterKey (fold_left addKey l kr) = masterKey kr.
Proof. revert kr. induction l as [|p l IH]; intros kr; simpl; [done|]. by rewrite IH. Qed.

Lemma fold_addKey_data l kr :
  NoDup l.*1 -> dataKeys (fold_left addKey l kr) = list_to_map l ∪ dataKeys kr.
Proof.
  revert kr. induction l as [|[k v] l IH]; intros kr Hd; cbn [fold_left].
  - simpl. by rewrite (left_id_L ∅ (∪)).
  - apply NoDup_cons in Hd as [Hk Hd]. rewrite IH by done. simpl.
    rewrite <- insert_union_r, <- insert_union_l; [done|]. by apply not_elem_of_list_to_map_1.
Qed.

Lemma fold_addKey_active l kr :
  let a := activeKeyID (fold_left addKey l kr) in
  activeKeyID kr <= a /\ (forall p, p ∈ l -> p.1 <= a) /\ (a = activeKeyID kr \/ a ∈ l.*1).
Proof.
  revert kr. induction l as [|p l IH]; intros kr; cbn [fold_left].
  { split; [simpl; lia|]. split; [by intros p ?%elem_of_nil|by left]. }
  destruct (IH (addKey kr p)) as (H1 & H2 & H3). cbv zeta.
  set (a := activeKeyID (fold_left addKey l (addKey kr p))) in *. unfold addKey in H1, H3; simpl in H1, H3.
  destruct (Z.ltb_spec (activeKeyID kr) p.1); split_and!; try lia.
  - intros q [->|Hq]%elem_of_cons; [lia|auto].
  - destruct H3 as [->|]; right; [apply list_elem_of_here|by apply list_elem_of_further].
  - intros q [->|Hq]%elem_of_cons; [lia|auto].
  - destruct H3 as [->|]; [by left|right; by apply list_elem_of_further].
Qed.

(** A registry in use: its ids are positive, the largest one is active. *)
Record registry_ok (kr : KeyRegistry) : Prop := {
  reg_master : aesKeyOk (masterKey kr) = true;
  reg_keys : forall id key, dataKeys kr !! id = Some key -> 0 < id <= activeKeyID kr /\ key_ok (id, key);
  reg_active : is_Some (dataKeys kr !! activeKeyID kr);
}.

Lemma fold_addKey_registry kr :
  registry_ok kr -> fold_left addKey (sortedKeys kr) (mkKeyRegistry (masterKey kr) 0 ∅) = kr.
Proof.
  intros [_ Hk Ha]. set (k0 := mkKeyRegistry (masterKey kr) 0 ∅).
  pose proof (fold_addKey_master (sortedKeys kr) k0) as Hm.
  assert (NoDup (sortedKeys kr).*1) as Hnd by (rewrite sortedKeys_perm; apply NoDup_fst_map_to_list).
  pose proof (fold_addKey_data (sortedKeys kr) k0 Hnd) as Hd.
  pose proof (fold_addKey_active (sortedKeys kr) k0) as Hact.
  destruct (fold_left addKey (sortedKeys kr) k0) as [m a d]; cbn [masterKey activeKeyID dataKeys k0] in *. subst m d.
  rewrite (right_id_L ∅ (∪)), (list_to_map_proper _ (map_to_list (dataKeys kr))), list_to_map_to_list by (done || apply sortedKeys_perm).
  destruct kr as [m act d]; simpl in *. f_equal. destruct Hact as (_ & Hle & Hin).
  destruct Ha as [key Hkey].
  assert (act <= a) as H1. { apply (Hle (act, key)). rewrite sortedKeys_perm. by apply elem_of_map_to_list. }
  destruct Hin as [->|Hin].
  - destruct (Hk act key Hkey) as [[? ?] _]. lia.
  - rewrite sortedKeys_perm in Hin. apply list_elem_of_fmap in Hin as [[id k] [-> Hin]].
    apply elem_of_map_to_list in Hin. destruct (Hk _ _ Hin) as [[? ?] _]. simpl in *. lia.
Qed.

Lemma reload kr nonces fresh nonces' :
  registry_ok kr -> (forall i, length (nonces i) = 12%nat) ->
  exists file, KeyRegistry_flush aesEncrypt kr nonces = Some file /\
    OpenKeyRegistry aesEncrypt (masterKey kr) file fresh nonces' = Some (kr, file).
Proof.
  intros Hok Hn. pose proof Hok as [Hm Hk [key Ha]]. unfold KeyRegistry_flush. rewrite Hm.
  eexists. split; [done|]. set (file := encodeKeys _ _ _ _ _). unfold OpenKeyRegistry. rewrite Hm.
  unfold loadOrCreate. destruct file as [|b file'] eqn:Ef.
  { exfalso. assert ((activeKeyID kr, key) ∈ sortedKeys kr) as Hin.
    { rewrite sortedKeys_perm. by apply elem_of_map_to_list. }
    unfold file in Ef. destruct (sortedKeys kr); [by apply elem_of_nil in Hin|]. discriminate Ef. }
  rewrite <- Ef. cbn [masterKey]. rewrite Hm.
  assert (Forall key_ok (sortedKeys kr)) as Hall.
  { apply Forall_forall. intros [id k] Hin. rewrite sortedKeys_perm in Hin.
    apply elem_of_map_to_list in Hin. exact (proj2 (Hk _ _ Hin)). }
  pose proof (loadLoop_spec (sortedKeys kr) (masterKey kr) nonces 0 [] (mkKeyRegistry (masterKey kr) 0 ∅)
    (S (length file)) Hall Hn eq_refl) as Hl.
  cbn [app length] in Hl. fold file in Hl. rewrite Hl.
  - rewrite fold_addKey_registry by done. destruct (Hk _ _ Ha) as [[? _] _].
    destruct (Z.eqb_spec (activeKeyID kr) 0); [lia|done].
  - enough (forall l i, (length l <= length (encodeKeys aesEncrypt (masterKey kr) nonces i l))%nat) as Hle.
    { specialize (Hle (sortedKeys kr) 0%nat). fold file in Hle. lia. }
    induction l as [|q l IH]; intros i; [simpl; lia|]. specialize (IH (S i)).
    cbn [encodeKeys length]. rewrite length_app. unfold encodeKeyRecord. rewrite length_app, length_be_encode. lia.
Qed.

(** C31. Encrypted data survives a restart.  For a registry in use, writing it
    out and opening the file under the same master key gives the registry
    back, and a block sealed before with any nonce opens, under the key id it
    was sealed with, to the plaintext. *)
Theorem sealed_block_after_reopen kr nonces fresh nonces' nonce plaintext :
  registry_ok kr -> (forall i, length (nonces i) = 12%nat) -> length nonce = blockNonceSize ->
  aesKeyOk (ActiveKey kr).2 = true ->
  exists file keyID sealed,
    KeyRegistry_flush aesEncrypt kr nonces = Some file /\
    SealBlock aesEncrypt kr nonce plaintext = Some (keyID, sealed) /\
    OpenKeyRegistry aesEncrypt (masterKey kr) file fresh nonces' = Some (kr, file) /\
    OpenBlock aesEncrypt kr keyID sealed = Some plaintext.
Proof.
  intros Hok Hn Hnonce Hkey. destruct (reload kr nonces fresh nonces' Hok Hn) as (file & Hf & Ho).
  exists file. destruct (reg_active _ Hok) as [key Ha]. unfold SealBlock, OpenBlock, GetKey, ActiveKey in *.
  simpl in Hkey. rewrite Ha in *. simpl in *. rewrite Hkey. do 2 eexists. split_and!; [done..|].
  rewrite Ha. by apply OpenBlockWithKey_seal.
Qed.
End proofs.

Module RegistryWitness.

Definition kr : KeyRegistry := mkKeyRegistry (replicate 16 9) 2 {[ 1 := replicate 32 3; 2 := replicate 32 5 ]}.

Lemma sealed_block_after_reopen_witness :
  exists file keyID sealed,
    KeyRegistry_flush toyCipher kr (fun i => replicate 12 (Z.of_nat i)) = Some file /\
    SealBlock toyCipher kr (replicate 12 7) [1; 2; 3] = Some (keyID, sealed) /\
    OpenKeyRegistry toyCipher (masterKey kr) file [] (fun _ => []) = Some (kr, file) /\
    OpenBlock toyCipher kr keyID sealed = Some [1; 2; 3].
Proof.
  apply sealed_block_after_reopen; [|intros i; apply length_replicate|done|by vm_compute].
  split; [by vm_compute| |by eexists].
  intros id key H. unfold kr in H. simpl in H.
  apply lookup_insert_Some in H as [[<- <-]|[_ H]]; [|apply lookup_singleton_Some in H as [<- <-]];
    (split; [simpl; lia|split; [unfold is_u64; simpl; lia|simpl; lia]]).
Defined.

End RegistryWitness.
