(* ===== verification/Framing.v ===== *)
(** * Logs of framed records

    The write-ahead log, the value log and the replication stream share one
    shape: records are appended one after the other, the encoding of a record
    may depend on its position, and a reader walks the bytes until a record is
    cut off or fails its checksum.  [RecordFormat] states what such a format
    promises; the lemmas say what the walk finds in a log that a crash has cut
    at an arbitrary byte. *)

From S2P Require Import Prelude.

(** The walk: [read file pos] delivers the record at [pos] and the position
    behind it.  A record takes at least one byte, so the file's length is
    enough fuel. *)
Fixpoint scanLoop {R} (read : bytes -> nat -> option (R * nat)) (fuel : nat) (file : bytes) (pos : nat)
    : list R * nat :=
  match fuel with
  | O => ([], pos)
  | S f =>
      match read file pos with
      | None => ([], pos)
      | Some (r, pos') => let '(rs, e) := scanLoop read f file pos' in (r :: rs, e)
      end
  end.

(** The bytes of a list of records from position [o] on, and what the reader
    makes of them. *)
Fixpoint encodeFrames {R} (encode : nat -> R -> bytes) (o : nat) (rs : list R) : bytes :=
  match rs with
  | [] => []
  | r :: rs' => let e := encode o r in e ++ encodeFrames encode (o + length e) rs'
  end.

Fixpoint locateFrames {R R'} (encode : nat -> R -> bytes) (locate : nat -> R -> R') (o : nat) (rs : list R) : list R' :=
  match rs with
  | [] => []
  | r :: rs' => locate o r :: locateFrames encode locate (o + length (encode o r)) rs'
  end.

(** The records that fit into the first [n] bytes from position [o] on. *)
Fixpoint fittingFrames {R} (encode : nat -> R -> bytes) (o n : nat) (rs : list R) : list R :=
  match rs with
  | [] => []
  | r :: rs' =>
      let e := length (encode o r) in
      if (o + e <=? n)%nat then r :: fittingFrames encode (o + e) n rs' else []
  end.

(** What a format promises for the records [ok], as long as positions stay
    below [2 ^ 62]. *)
Class RecordFormat {R R'} (encode : nat -> R -> bytes) (read : bytes -> nat -> option (R' * nat))
    (locate : nat -> R -> R') (ok : R -> Prop) : Prop := {
  frame_nonempty o r : ok r -> Z.of_nat o < 2 ^ 62 -> (0 < length (encode o r))%nat;
  frame_read pre r rest :
    ok r -> Z.of_nat (length pre) < 2 ^ 62 ->
    read (pre ++ encode (length pre) r ++ rest) (length pre) =
      Some (locate (length pre) r, (length pre + length (encode (length pre) r))%nat);
  frame_torn pre r m :
    ok r -> Z.of_nat (length pre) < 2 ^ 62 -> (m < length (encode (length pre) r))%nat ->
    read (pre ++ take m (encode (length pre) r)) (length pre) = None;
  frame_end pre : read pre (length pre) = None;
}.

Lemma encodeFrames_app {R} (encode : nat -> R -> bytes) o rs1 rs2 :
  encodeFrames encode o (rs1 ++ rs2) =
    encodeFrames encode o rs1 ++ encodeFrames encode (o + length (encodeFrames encode o rs1)) rs2.
Proof.
  revert o. induction rs1 as [|r rs1 IH]; intros o; cbn [app encodeFrames]; [by rewrite Nat.add_0_r|].
  cbv zeta. rewrite IH, <- app_assoc, length_app. do 3 f_equal. lia.
Qed.

Lemma locateFrames_app {R R'} (encode : nat -> R -> bytes) (locate : nat -> R -> R') o rs1 rs2 :
  locateFrames encode locate o (rs1 ++ rs2) =
    locateFrames encode locate o rs1 ++ locateFrames encode locate (o + length (encodeFrames encode o rs1)) rs2.
Proof.
  revert o. induction rs1 as [|r rs1 IH]; intros o; cbn [app encodeFrames locateFrames]; [by rewrite Nat.add_0_r|].
  cbv zeta. rewrite IH, length_app. do 3 f_equal. lia.
Qed.

(** What fits is the longest prefix of the records that does. *)
Lemma fittingFrames_spec {R} (encode : nat -> R -> bytes) o n rs :
  (o <= n)%nat ->
  exists lost, rs = fittingFrames encode o n rs ++ lost /\
    (o + length (encodeFrames encode o (fittingFrames encode o n rs)) <= n)%nat /\
    forall r l, lost = r :: l ->
      (n < o + length (encodeFrames encode o (fittingFrames encode o n rs ++ [r])))%nat.
Proof.
  revert o. induction rs as [|r rs IH]; intros o Hn; cbn [fittingFrames].
  - exists []. cbn. split; [done|]. split; [lia|done].
  - set (E := encode o r). cbv zeta. fold E.
    destruct (Nat.leb_spec (o + length E) n) as [Hfit|Hcut].
    + destruct (IH (o + length E)%nat Hfit) as (lost & Hrs & Hle & Hmax).
      exists lost. cbn [app encodeFrames]. cbv zeta. fold E. rewrite !length_app. split; [by rewrite <- Hrs|].
      split; [lia|]. intros r' l Hl. specialize (Hmax r' l Hl). rewrite length_app. lia.
    + exists (r :: rs). split; [done|]. split; [cbn; lia|]. intros r' l [= <- <-]. cbn [app encodeFrames]. cbv zeta.
      fold E. rewrite app_nil_r. lia.
Qed.

Lemma fittingFrames_all {R} (encode : nat -> R -> bytes) o n rs :
  (o + length (encodeFrames encode o rs) <= n)%nat -> fittingFrames encode o n rs = rs.
Proof.
  revert o. induction rs as [|r rs IH]; intros o H; [done|]. cbn [fittingFrames encodeFrames] in *. cbv zeta in *.
  rewrite length_app in H. rewrite (proj2 (Nat.leb_le _ _)) by lia. by rewrite IH by lia.
Qed.

Section walk.
Context {R R' : Type} {encode : nat -> R -> bytes} {read : bytes -> nat -> option (R' * nat)}.
Context {locate : nat -> R -> R'} {ok : R -> Prop} `{RF : !RecordFormat encode read locate ok}.

(** The walk over a log cut at byte [n] finds the records that fit, and stops
    behind the last of them. *)
Lemma scanLoop_torn rs pre n fuel :
  Forall ok rs ->
  Z.of_nat (length pre) + Z.of_nat (length (encodeFrames encode (length pre) rs)) < 2 ^ 62 ->
  (length pre <= n)%nat ->
  (Nat.min n (length pre + length (encodeFrames encode (length pre) rs)) <= length pre + fuel)%nat ->
  let keep := fittingFrames encode (length pre) n rs in
  scanLoop read fuel (take n (pre ++ encodeFrames encode (length pre) rs)) (length pre) =
    (locateFrames encode locate (length pre) keep,
     (length pre + length (encodeFrames encode (length pre) keep))%nat).
Proof.
  revert pre fuel. induction rs as [|r rs IH]; intros pre fuel Hok Hb Hn Hf; cbn [encodeFrames fittingFrames]; cbv zeta.
  { cbn [locateFrames length encodeFrames]. rewrite app_nil_r, take_ge, Nat.add_0_r by lia.
    destruct fuel as [|f]; [done|]. cbn [scanLoop]. by rewrite frame_end. }
  apply Forall_cons in Hok as [Hr Hok]. cbn [encodeFrames] in Hb, Hf. cbv zeta in Hb, Hf.
  set (E := encode (length pre) r) in *. rewrite length_app in Hb, Hf.
  assert (0 < length E)%nat as HE by (apply frame_nonempty; [done|lia]).
  destruct (Nat.leb_spec (length pre + length E) n) as [Hfit|Hcut].
  - destruct fuel as [|f]; [lia|]. cbn [scanLoop].
    assert (take n (pre ++ E ++ encodeFrames encode (length pre + length E) rs) =
      pre ++ E ++ take (n - length pre - length E) (encodeFrames encode (length pre + length E) rs)) as Ht.
    { by rewrite take_app_ge, take_app_ge by lia. }
    rewrite Ht at 1. unfold E at 1. rewrite frame_read by (done || lia). fold E.
    rewrite (app_assoc pre E). replace (length pre + length E)%nat with (length (pre ++ E)) by (rewrite length_app; lia).
    rewrite IH; [|done|rewrite length_app in *; lia|rewrite length_app; lia|rewrite !length_app; lia].
    set (keep := fittingFrames encode (length (pre ++ E)) n rs). cbn [locateFrames encodeFrames]. cbv zeta. fold E.
    rewrite !length_app. f_equal. lia.
  - cbn [locateFrames encodeFrames length]. rewrite Nat.add_0_r. destruct fuel as [|f]; [done|]. cbn [scanLoop].
    rewrite (app_assoc pre), take_app_le by (rewrite length_app; lia). rewrite take_app_ge by lia.
    unfold E. by rewrite frame_torn by (fold E; done || lia).
Qed.

(** An intact log is read back completely. *)
Lemma scanLoop_all rs pre :
  Forall ok rs ->
  Z.of_nat (length pre) + Z.of_nat (length (encodeFrames encode (length pre) rs)) < 2 ^ 62 ->
  let file := pre ++ encodeFrames encode (length pre) rs in
  scanLoop read (length file) file (length pre) = (locateFrames encode locate (length pre) rs, length file).
Proof.
  intros Hok Hb file.
  pose proof (scanLoop_torn rs pre (length file) (length file) Hok Hb) as H. cbv zeta in H.
  rewrite fittingFrames_all in H by (unfold file; rewrite length_app; lia).
  fold file in H. rewrite take_ge in H by lia. rewrite H; [|unfold file; rewrite length_app; lia..].
  unfold file. by rewrite length_app.
Qed.
End walk.
