(* ===== verification/Wal.v ===== *)
(** * The write-ahead log ([wal/wal.go])

    Records are encoded byte for byte: the 33 header bytes, the checksum of
    header and (possibly encrypted) payload, the payload.  The log's state is
    the file, the bytes still in the buffered writer and the append offset.
    Failing system calls are not modelled, except the crash: it leaves any
    prefix of the bytes written.  [Recover] is the source's loop, stopping at
    the first record that is cut off or whose checksum does not match. *)

From S2P Require Import Prelude Framing Checksum Crypto Registry.

Definition OpPut : Z := 1.
Definition OpDelete : Z := 2.
Definition walHeaderSize : nat := 37.
Definition walFileMagic : Z := 0x57414C46.
Definition walFileVersion : Z := 1.
Definition walEncHeaderSize : nat := 32.

Record WalRecord := mkWalRecord {
  r_op : Z;
  r_key : bytes;
  r_value : bytes;
  r_valueOffset : Z;
  r_expiresAt : Z;
  r_version : Z;
  r_timestamp : Z
}.

(** Data key, base IV and key number of an encrypted log. *)
Record walCipher := mkWalCipher { wc_key : bytes; wc_baseIV : bytes; wc_keyID : Z }.

Record WAL := mkWAL {
  w_cipher : option walCipher;
  w_file : bytes;
  w_buf : bytes;
  w_offset : Z
}.

Definition w_fileHdr (w : WAL) : nat := match w_cipher w with None => 0 | Some _ => walEncHeaderSize end.

Definition walFileHeader (c : walCipher) : bytes :=
  be_encode 4 walFileMagic ++ be_encode 4 walFileVersion ++ be_encode 8 (wc_keyID c) ++ wc_baseIV c.

(** [OpenWithOptionsAndRegistry] on a file with contents [file]; [baseIV] is
    what [NewBaseIV] draws.  [None] stands for the error returns. *)
Definition OpenWAL (file : bytes) (reg : option KeyRegistry) (baseIV : bytes) : option WAL :=
  match file, reg with
  | [], Some kr =>
      let c := mkWalCipher (ActiveKey kr).2 baseIV (ActiveKey kr).1 in
      Some (mkWAL (Some c) [] (walFileHeader c) (Z.of_nat walEncHeaderSize))
  | [], None => Some (mkWAL None [] [] 0)
  | _, _ =>
      if (8 <=? length file)%nat && (be_decode (slice file 0 4) =? walFileMagic)
         && (be_decode (slice file 4 8) =? walFileVersion) then
        if (walEncHeaderSize <=? length file)%nat then
          match reg with
          | None => None
          | Some kr =>
              let keyID := be_decode (slice file 8 16) in
              match GetKey kr keyID with
              | None => None
              | Some key =>
                  Some (mkWAL (Some (mkWalCipher key (slice file 16 32) keyID)) file [] (Z.of_nat (length file)))
              end
          end
        else None
      else
        match reg with
        | Some _ => None
        | None => Some (mkWAL None file [] (Z.of_nat (length file)))
        end
  end.

Section wal.
Context (aesEncrypt : bytes -> bytes -> bytes).

Definition cryptField (c : option walCipher) (offset : Z) (data : bytes) : bytes :=
  match c with
  | None => data
  | Some c => CryptAtOffset aesEncrypt (wc_key c) (wc_baseIV c) offset data
  end.

(** The header without its checksum. *)
Definition recordHeader (op : Z) (kLen vLen : nat) (expiresAt version timestamp : Z) : bytes :=
  [op] ++ be_encode 4 (Z.of_nat kLen) ++ be_encode 4 (Z.of_nat vLen) ++ be_encode 8 (u64 expiresAt)
    ++ be_encode 8 version ++ be_encode 8 (u64 timestamp).

(** [writeDirect]: the bytes handed to the writer for a record at
    [startOffset]. *)
Definition encodeRecord (c : option walCipher) (startOffset : Z) (r : WalRecord) : bytes :=
  let keyOffset := startOffset + Z.of_nat walHeaderSize in
  let encKey := cryptField c keyOffset (r_key r) in
  let encVal := cryptField c (keyOffset + Z.of_nat (length (r_key r))) (r_value r) in
  let hdr := recordHeader (r_op r) (length encKey) (length encVal) (r_expiresAt r) (r_version r) (r_timestamp r) in
  hdr ++ be_encode 4 (crc32 (hdr ++ encKey ++ encVal)) ++ encKey ++ encVal.

Definition writeDirect (w : WAL) (r : WalRecord) : WAL :=
  mkWAL (w_cipher w) (w_file w) (w_buf w ++ encodeRecord (w_cipher w) (w_offset w) r) (w_offset w).

Definition addOffset (w : WAL) (n : nat) : WAL :=
  mkWAL (w_cipher w) (w_file w) (w_buf w) (w_offset w + Z.of_nat n).

Definition walFlush (w : WAL) : WAL := mkWAL (w_cipher w) (w_file w ++ w_buf w) [] (w_offset w).

(** One append: the returned offset of the value, and the log. *)
Definition appendRecord (w : WAL) (r : WalRecord) : Z * WAL :=
  (w_offset w + Z.of_nat walHeaderSize + Z.of_nat (length (r_key r)),
   addOffset (writeDirect w r) (walHeaderSize + length (r_key r) + length (r_value r))).

(** [WriteVersionWithTimestamp] without group commit flushes every record. *)
Definition WriteVersionWithTimestamp (w : WAL) (r : WalRecord) : Z * WAL :=
  let '(off, w1) := appendRecord w r in (off, walFlush w1).

(** One round of [groupCommitLoop]: the batch, then one flush and sync. *)
Definition groupCommit (w : WAL) (batch : list WalRecord) : list Z * WAL :=
  let '(offs, w1) :=
    foldl (fun '(offs, w) r => let '(off, w') := appendRecord w r in (offs ++ [off], w')) ([], w) batch in
  (offs, walFlush w1).

Definition TruncateTo (w : WAL) (offset : Z) : WAL :=
  mkWAL (w_cipher w) (take (Z.to_nat offset) (w_file w)) [] offset.

(** ** Recovery *)

(** One record at [pos]; [None] is the [break] of the loop. *)
Definition readRecord (c : option walCipher) (file : bytes) (pos : nat) : option (WalRecord * nat) :=
  if (length file <? pos + walHeaderSize)%nat then None
  else
    let hdr := slice file pos (pos + walHeaderSize) in
    let op := default 0 (hdr !! 0%nat) in
    let kLen := Z.to_nat (be_decode (slice hdr 1 5)) in
    let vLen := Z.to_nat (be_decode (slice hdr 5 9)) in
    let expiresAt := i64 (be_decode (slice hdr 9 17)) in
    let version := be_decode (slice hdr 17 25) in
    let timestamp := i64 (be_decode (slice hdr 25 33)) in
    let expectedCRC := be_decode (slice hdr 33 37) in
    if (length file <? pos + walHeaderSize + kLen + vLen)%nat then None
    else
      let key := slice file (pos + walHeaderSize) (pos + walHeaderSize + kLen) in
      let val := slice file (pos + walHeaderSize + kLen) (pos + walHeaderSize + kLen + vLen) in
      let crc := crc32 (recordHeader op kLen vLen expiresAt version timestamp ++ key ++ val) in
      if negb (crc =? expectedCRC) then None
      else
        let keyOffset := Z.of_nat (pos + walHeaderSize) in
        let valueOffset := keyOffset + Z.of_nat kLen in
        Some (mkWalRecord op (cryptField c keyOffset key) (cryptField c valueOffset val) valueOffset
                expiresAt version timestamp,
              (pos + walHeaderSize + kLen + vLen)%nat).

Definition recoverLoop (c : option walCipher) (file : bytes) (pos : nat) : list WalRecord * nat :=
  scanLoop (readRecord c) (length file) file pos.

Definition Recover (w : WAL) : list WalRecord * WAL :=
  let file := w_file w ++ w_buf w in
  let '(rs, totalRead) := recoverLoop (w_cipher w) file (w_fileHdr w) in
  (rs, mkWAL (w_cipher w) (take totalRead file) [] (Z.of_nat totalRead)).

Definition ReadValue (w : WAL) (offset : Z) (size : nat) : option bytes :=
  if (size =? 0)%nat then Some []
  else if (length (w_file w) <? Z.to_nat offset + size)%nat then None
  else Some (cryptField (w_cipher w) offset (slice (w_file w) (Z.to_nat offset) (Z.to_nat offset + size))).
End wal.

#[global] Arguments encodeRecord : simpl never.
#[global] Arguments readRecord : simpl never.

(** ** Encoding and decoding a record *)

(** The field values the Go types allow, and an offset range that does not
    overflow. *)
Record rec_ok (r : WalRecord) : Prop := {
  ro_op : is_u8 (r_op r);
  ro_key : wf_bytes (r_key r);
  ro_value : wf_bytes (r_value r);
  ro_klen : Z.of_nat (length (r_key r)) < 2 ^ 32;
  ro_vlen : Z.of_nat (length (r_value r)) < 2 ^ 32;
  ro_exp : is_i64 (r_expiresAt r);
  ro_version : is_u64 (r_version r);
  ro_ts : is_i64 (r_timestamp r)
}.

Lemma length_recordHeader op k v e ver ts : length (recordHeader op k v e ver ts) = 33%nat.
Proof. done. Qed.

Lemma wf_recordHeader op k v e ver ts : is_u8 op -> wf_bytes (recordHeader op k v e ver ts).
Proof.
  intros. unfold recordHeader. rewrite !wf_bytes_app. split_and!; try apply wf_be_encode. by constructor.
Qed.

(** Where the fields of a header sit. *)
Lemma header_fields op k v e ver ts crc :
  let H := recordHeader op k v e ver ts ++ be_encode 4 crc in
  H !! 0%nat = Some op /\ slice H 1 5 = be_encode 4 (Z.of_nat k) /\ slice H 5 9 = be_encode 4 (Z.of_nat v) /\
  slice H 9 17 = be_encode 8 (u64 e) /\ slice H 17 25 = be_encode 8 ver /\ slice H 25 33 = be_encode 8 (u64 ts) /\
  slice H 33 37 = be_encode 4 crc.
Proof. by repeat split. Qed.

Section wal_proofs.
Context (aesEncrypt : bytes -> bytes -> bytes).
(** A block cipher delivers bytes. *)
Hypothesis aes_wf : forall k b, wf_bytes (aesEncrypt k b).

Definition cipher_ok (c : option walCipher) : Prop :=
  match c with None => True | Some c => wf_bytes (wc_baseIV c) /\ length (wc_baseIV c) = 16%nat end.

Lemma keystream_u8 key iv o : is_u8 (keystreamAt aesEncrypt key iv o).
Proof.
  unfold keystreamAt. destruct (_ !! _) as [b|] eqn:E; simpl; [|unfold is_u8; lia].
  by apply (Forall_lookup_1 _ _ _ _ (aes_wf _ _) E).
Qed.

Lemma wf_xorAt key iv o data : wf_bytes data -> wf_bytes (xorAt aesEncrypt key iv o data).
Proof.
  intros H. revert o. induction H as [|b data Hb _ IH]; intros o; simpl; [constructor|].
  constructor; [|apply IH]. apply lxor_u8; [done|apply keystream_u8].
Qed.

Lemma cryptField_ok c o data :
  cipher_ok c -> 0 <= o < 2 ^ 63 -> wf_bytes data ->
  wf_bytes (cryptField aesEncrypt c o data) /\ length (cryptField aesEncrypt c o data) = length data /\
  cryptField aesEncrypt c o (cryptField aesEncrypt c o data) = data.
Proof.
  intros Hc Ho Hd. destruct c as [c|]; [|done]. destruct Hc as [Hiv _]. simpl.
  rewrite !CryptAtOffset_spec by done. split; [by apply wf_xorAt|]. split; [apply length_xorAt|apply xorAt_involutive].
Qed.

Lemma length_encodeRecord c o r :
  cipher_ok c -> rec_ok r -> 0 <= o -> o + 37 + Z.of_nat (length (r_key r)) < 2 ^ 63 ->
  length (encodeRecord aesEncrypt c o r) = (walHeaderSize + length (r_key r) + length (r_value r))%nat.
Proof.
  intros Hc Hr H0 Ho. unfold encodeRecord. change (Z.of_nat walHeaderSize) with 37.
  destruct (cryptField_ok c (o + 37) (r_key r) Hc) as (_ & Hk & _); [lia|apply Hr|].
  destruct (cryptField_ok c (o + 37 + Z.of_nat (length (r_key r))) (r_value r) Hc) as (_ & Hv & _); [lia|apply Hr|].
  rewrite !length_app, length_recordHeader, length_be_encode, Hk, Hv. unfold walHeaderSize. lia.
Qed.

Definition located (o : Z) (r : WalRecord) : WalRecord :=
  mkWalRecord (r_op r) (r_key r) (r_value r) (o + 37 + Z.of_nat (length (r_key r)))
    (r_expiresAt r) (r_version r) (r_timestamp r).

(** The bytes of a record, piece by piece. *)
Lemma encodeRecord_pieces c o r :
  cipher_ok c -> rec_ok r -> 0 <= o -> o + 37 + Z.of_nat (length (r_key r)) < 2 ^ 63 ->
  exists ek ev crc,
    encodeRecord aesEncrypt c o r =
      (recordHeader (r_op r) (length (r_key r)) (length (r_value r)) (r_expiresAt r) (r_version r) (r_timestamp r)
        ++ be_encode 4 crc) ++ ek ++ ev /\
    crc = crc32 (recordHeader (r_op r) (length (r_key r)) (length (r_value r)) (r_expiresAt r) (r_version r)
      (r_timestamp r) ++ ek ++ ev) /\ is_u32 crc /\
    length ek = length (r_key r) /\ length ev = length (r_value r) /\
    cryptField aesEncrypt c (o + 37) ek = r_key r /\
    cryptField aesEncrypt c (o + 37 + Z.of_nat (length (r_key r))) ev = r_value r.
Proof.
  intros Hc Hr H0 Ho. unfold encodeRecord. change (Z.of_nat walHeaderSize) with 37.
  destruct (cryptField_ok c (o + 37) (r_key r) Hc) as (Hwk & Hk & Hck); [lia|apply Hr|].
  destruct (cryptField_ok c (o + 37 + Z.of_nat (length (r_key r))) (r_value r) Hc) as (Hwv & Hv & Hcv); [lia|apply Hr|].
  rewrite Hk, Hv. set (ek := cryptField _ _ (o + 37) _) in *. set (ev := cryptField _ _ _ (r_value r)) in *.
  eexists ek, ev, _. split; [rewrite <- (app_assoc _ (be_encode 4 _)); reflexivity|]. split; [done|].
  split; [|by split_and!]. apply crc32_u32. rewrite !wf_bytes_app. split; [apply wf_recordHeader, Hr|done].
Qed.

Lemma be_decode_len k : Z.of_nat k < 2 ^ 32 -> Z.to_nat (be_decode (be_encode 4 (Z.of_nat k))) = k.
Proof. intros. rewrite be_decode_encode_id; [lia|]. change (256 ^ Z.of_nat 4) with (2 ^ 32). lia. Qed.

Lemma be_decode_i64 x : is_i64 x -> i64 (be_decode (be_encode 8 (u64 x))) = x.
Proof.
  intros. rewrite be_decode_encode_id; [by apply i64_u64|].
  change (256 ^ Z.of_nat 8) with (2 ^ 64). apply u64_range.
Qed.

(** Reading back the record at its offset. *)
Lemma readRecord_encode c pre r rest :
  cipher_ok c -> rec_ok r -> Z.of_nat (length pre) + 37 + Z.of_nat (length (r_key r)) < 2 ^ 63 ->
  let o := Z.of_nat (length pre) in
  readRecord aesEncrypt c (pre ++ encodeRecord aesEncrypt c o r ++ rest) (length pre) =
    Some (located o r, (length pre + length (encodeRecord aesEncrypt c o r))%nat).
Proof.
  intros Hc Hr Ho o.
  destruct (encodeRecord_pieces c o r) as (ek & ev & crc & E & Hcrc & Hu & Hlk & Hlv & Hck & Hcv); [done|done|lia|lia|].
  pose proof (length_encodeRecord c o r Hc Hr ltac:(lia) ltac:(lia)) as Hlen. rewrite E in *.
  set (hd := recordHeader _ _ _ _ _ _ ++ be_encode 4 crc) in *.
  assert (length hd = 37%nat) as Hhd by done.
  unfold readRecord. change walHeaderSize with 37%nat in *. rewrite !length_app, Hlk, Hlv, Hhd.
  rewrite (proj2 (Nat.ltb_ge _ _)) by lia.
  assert (slice (pre ++ (hd ++ ek ++ ev) ++ rest) (length pre) (length pre + 37) = hd) as Hs.
  { rewrite <- app_assoc. apply slice_mid; [done|by rewrite Hhd]. }
  rewrite Hs. destruct (header_fields (r_op r) (length (r_key r)) (length (r_value r)) (r_expiresAt r)
    (r_version r) (r_timestamp r) crc) as (F0 & F1 & F2 & F3 & F4 & F5 & F6). fold hd in F0, F1, F2, F3, F4, F5, F6.
  cbv zeta. rewrite F0, F1, F2, F3, F4, F5, F6. simpl default.
  rewrite !be_decode_len, !be_decode_i64 by apply Hr.
  rewrite (be_decode_encode_id 8) by (apply Hr). rewrite (be_decode_encode_id 4) by (apply Hu).
  rewrite (proj2 (Nat.ltb_ge _ _)) by lia.
  assert (slice (pre ++ (hd ++ ek ++ ev) ++ rest) (length pre + 37) (length pre + 37 + length (r_key r)) = ek) as ->.
  { rewrite <- !app_assoc, (app_assoc pre). apply slice_mid; rewrite length_app, Hhd; lia. }
  assert (slice (pre ++ (hd ++ ek ++ ev) ++ rest) (length pre + 37 + length (r_key r))
    (length pre + 37 + length (r_key r) + length (r_value r)) = ev) as ->.
  { rewrite <- !app_assoc, (app_assoc pre), (app_assoc _ ek). apply slice_mid; rewrite !length_app, Hhd; lia. }
  rewrite <- Hcrc, Z.eqb_refl. cbn [negb]. do 2 f_equal; [|lia]. unfold located.
  rewrite Nat2Z.inj_add. change (Z.of_nat 37) with 37. fold o. by rewrite Hck, Hcv.
Qed.

(** A record that is cut off stops the loop. *)
Lemma readRecord_torn c pre r m :
  cipher_ok c -> rec_ok r -> Z.of_nat (length pre) + 37 + Z.of_nat (length (r_key r)) < 2 ^ 63 ->
  let o := Z.of_nat (length pre) in
  (m < length (encodeRecord aesEncrypt c o r))%nat ->
  readRecord aesEncrypt c (pre ++ take m (encodeRecord aesEncrypt c o r)) (length pre) = None.
Proof.
  intros Hc Hr Ho o Hm.
  destruct (encodeRecord_pieces c o r) as (ek & ev & crc & E & _ & _ & Hlk & Hlv & _ & _); [done|done|lia|lia|].
  rewrite E in *. set (hd := recordHeader _ _ _ _ _ _ ++ be_encode 4 crc) in *.
  assert (length hd = 37%nat) as Hhd by done. rewrite !length_app, Hlk, Hlv, Hhd in Hm.
  unfold readRecord. change walHeaderSize with 37%nat.
  rewrite length_app, length_take, !length_app, Hlk, Hlv, Hhd. case_if; [done|].
  assert (slice (pre ++ take m (hd ++ ek ++ ev)) (length pre) (length pre + 37) = hd) as Hs.
  { rewrite take_app_ge by (rewrite Hhd; lia). apply slice_mid; [done|by rewrite Hhd]. }
  cbv zeta. rewrite Hs. destruct (header_fields (r_op r) (length (r_key r)) (length (r_value r)) (r_expiresAt r)
    (r_version r) (r_timestamp r) crc) as (_ & F1 & F2 & _). fold hd in F1, F2.
  rewrite F1, F2, !be_decode_len by apply Hr. rewrite (proj2 (Nat.ltb_lt _ _)) by lia. done.
Qed.

(** ** The whole log *)

Definition encodeAt (c : option walCipher) (o : nat) (r : WalRecord) : bytes := encodeRecord aesEncrypt c (Z.of_nat o) r.
Definition locateAt (o : nat) (r : WalRecord) : WalRecord := located (Z.of_nat o) r.

Definition encodeAll (c : option walCipher) (o : nat) (rs : list WalRecord) : bytes := encodeFrames (encodeAt c) o rs.
Definition locateAll (c : option walCipher) (o : nat) (rs : list WalRecord) : list WalRecord :=
  locateFrames (encodeAt c) locateAt o rs.

Lemma encodeAll_app c o rs1 rs2 :
  encodeAll c o (rs1 ++ rs2) = encodeAll c o rs1 ++ encodeAll c (o + length (encodeAll c o rs1)) rs2.
Proof. apply encodeFrames_app. Qed.

Lemma encodeAll_one c o r : encodeAll c o [r] = encodeRecord aesEncrypt c (Z.of_nat o) r.
Proof. apply app_nil_r. Qed.

(** The log is a format of framed records. *)
Lemma wal_format c : cipher_ok c -> RecordFormat (encodeAt c) (readRecord aesEncrypt c) locateAt rec_ok.
Proof.
  intros Hc. unfold encodeAt, locateAt. split.
  - intros o r Hr Ho. pose proof (ro_klen _ Hr). rewrite length_encodeRecord by (done || lia). unfold walHeaderSize. lia.
  - intros pre r rest Hr Ho. pose proof (ro_klen _ Hr). by apply readRecord_encode; [done|done|lia].
  - intros pre r m Hr Ho Hm. pose proof (ro_klen _ Hr). apply readRecord_torn; [done|done|lia|done].
  - intros pre. unfold readRecord. rewrite (proj2 (Nat.ltb_lt _ _)); [done|]. unfold walHeaderSize. lia.
Qed.

(** Calls on a log: single writes, group-commit rounds, and syncs. *)
Inductive walOp :=
  | WalWrite (r : WalRecord)
  | WalBatch (batch : list WalRecord)
  | WalSync.

Definition walStep (w : WAL) (op : walOp) : WAL :=
  match op with
  | WalWrite r => (WriteVersionWithTimestamp aesEncrypt w r).2
  | WalBatch batch => (groupCommit aesEncrypt w batch).2
  | WalSync => walFlush w
  end.

Definition opRecords (op : walOp) : list WalRecord :=
  match op with WalWrite r => [r] | WalBatch batch => batch | WalSync => [] end.

(** The log holds [hdr] and the encoding of [rs], and knows its length. *)
Definition log_holds (w : WAL) (hdr : bytes) (rs : list WalRecord) : Prop :=
  length hdr = w_fileHdr w /\
  w_file w ++ w_buf w = hdr ++ encodeAll (w_cipher w) (length hdr) rs /\
  w_offset w = Z.of_nat (length (w_file w ++ w_buf w)).

Definition fits_i64 (w : WAL) (hdr : bytes) (rs : list WalRecord) : Prop :=
  Z.of_nat (length hdr) + Z.of_nat (length (encodeAll (w_cipher w) (length hdr) rs)) < 2 ^ 62.

Lemma appendRecord_holds w hdr rs r :
  cipher_ok (w_cipher w) -> rec_ok r -> log_holds w hdr rs -> fits_i64 w hdr rs ->
  let '(off, w') := appendRecord aesEncrypt w r in
  log_holds w' hdr (rs ++ [r]) /\ w_cipher w' = w_cipher w /\
  off = Z.of_nat (length hdr + length (encodeAll (w_cipher w) (length hdr) rs)) + 37 + Z.of_nat (length (r_key r)).
Proof.
  intros Hc Hr (Hh & Hf & Ho) Hfit. unfold appendRecord. cbn [addOffset writeDirect w_cipher w_offset w_file w_buf].
  rewrite Hf, length_app in Ho. unfold fits_i64 in Hfit. change (Z.of_nat walHeaderSize) with 37.
  pose proof (ro_klen _ Hr) as Hk.
  assert (length (encodeRecord aesEncrypt (w_cipher w) (w_offset w) r) =
    walHeaderSize + length (r_key r) + length (r_value r))%nat as HlE.
  { apply length_encodeRecord; [done|done|lia|lia]. }
  split; [|split; [done|lia]]. split; [done|]. cbn [addOffset writeDirect w_cipher w_offset w_file w_buf].
  rewrite app_assoc, Hf, encodeAll_app, encodeAll_one.
  split; [by rewrite <- (app_assoc hdr), Ho|]. rewrite !length_app, HlE. lia.
Qed.

Lemma log_flush w hdr rs : log_holds w hdr rs -> log_holds (walFlush w) hdr rs.
Proof. intros (Hh & Hf & Ho). unfold log_holds, walFlush. simpl. by rewrite app_nil_r. Qed.

Lemma groupLoop_holds batch w hdr rs offs :
  cipher_ok (w_cipher w) -> Forall rec_ok batch -> log_holds w hdr rs -> fits_i64 w hdr (rs ++ batch) ->
  let w' := (foldl (fun '(offs, w) r => let '(off, w') := appendRecord aesEncrypt w r in (offs ++ [off], w'))
    (offs, w) batch).2 in
  log_holds w' hdr (rs ++ batch) /\ w_cipher w' = w_cipher w.
Proof.
  revert w rs offs. induction batch as [|r batch IH]; intros w rs offs Hc Hok Hl Hfit; cbn [foldl].
  { by rewrite app_nil_r. }
  apply Forall_cons in Hok as [Hr Hok].
  assert (fits_i64 w hdr rs) as Hfit0.
  { unfold fits_i64 in *. rewrite encodeAll_app, length_app in Hfit. lia. }
  pose proof (appendRecord_holds w hdr rs r Hc Hr Hl Hfit0) as Ha.
  destruct (appendRecord aesEncrypt w r) as [off w1]. destruct Ha as (Hl1 & Hc1 & _).
  change (r :: batch) with ([r] ++ batch) in *. rewrite app_assoc in *. rewrite <- Hc1 in *.
  destruct (IH w1 (rs ++ [r]) (offs ++ [off])) as [H1 H2]; try done.
  unfold fits_i64 in *. by rewrite Hc1.
Qed.

Lemma walStep_holds w op hdr rs :
  cipher_ok (w_cipher w) -> Forall rec_ok (opRecords op) -> log_holds w hdr rs -> fits_i64 w hdr (rs ++ opRecords op) ->
  log_holds (walStep w op) hdr (rs ++ opRecords op) /\ w_cipher (walStep w op) = w_cipher w.
Proof.
  intros Hc Hok Hl Hfit. destruct op as [r|batch|]; cbn [walStep opRecords] in *.
  - destruct (groupLoop_holds [r] w hdr rs [] Hc Hok Hl Hfit) as [H1 H2]. cbn [foldl] in H1, H2.
    unfold WriteVersionWithTimestamp. destruct (appendRecord aesEncrypt w r) as [off w1]. split; [by apply log_flush|done].
  - destruct (groupLoop_holds batch w hdr rs [] Hc Hok Hl Hfit) as [H1 H2].
    unfold groupCommit. destruct (foldl _ _ _) as [offs w1]. split; [by apply log_flush|done].
  - rewrite app_nil_r. split; [by apply log_flush|done].
Qed.

Lemma walRun_holds ops w hdr rs :
  cipher_ok (w_cipher w) -> Forall rec_ok (ops ≫= opRecords) -> log_holds w hdr rs ->
  fits_i64 w hdr (rs ++ (ops ≫= opRecords)) ->
  log_holds (foldl walStep w ops) hdr (rs ++ (ops ≫= opRecords)) /\ w_cipher (foldl walStep w ops) = w_cipher w.
Proof.
  revert w rs. induction ops as [|op ops IH]; intros w rs Hc Hok Hl Hfit; [by rewrite app_nil_r|].
  cbn [foldl]. rewrite bind_cons in *. apply Forall_app in Hok as [Hok1 Hok2]. rewrite app_assoc in *.
  assert (fits_i64 w hdr (rs ++ opRecords op)) as Hfit1.
  { unfold fits_i64 in *. rewrite encodeAll_app, length_app in Hfit. lia. }
  destruct (walStep_holds w op hdr rs Hc Hok1 Hl Hfit1) as [Hl1 Hc1].
  unfold fits_i64 in *. rewrite <- Hc1 in *. by apply IH.
Qed.

Lemma OpenWAL_empty reg iv w :
  OpenWAL [] reg iv = Some w -> wf_bytes iv -> length iv = 16%nat ->
  cipher_ok (w_cipher w) /\ log_holds w (w_buf w) [].
Proof.
  intros Ho Hw Hl. unfold log_holds. destruct reg as [kr|]; injection Ho as <-;
    cbn [w_cipher w_file w_buf w_offset w_fileHdr cipher_ok wc_baseIV app]; [|done].
  unfold walFileHeader, w_fileHdr. cbn [w_cipher wc_baseIV]. rewrite !length_app, !length_be_encode, Hl. change (encodeAll _ _ []) with (@nil Z). rewrite app_nil_r. by split_and!.
Qed.

(** Without a crash every record comes back. *)
Lemma Recover_holds w hdr rs :
  cipher_ok (w_cipher w) -> Forall rec_ok rs -> log_holds w hdr rs -> fits_i64 w hdr rs ->
  Recover aesEncrypt w = (locateAll (w_cipher w) (length hdr) rs, walFlush w).
Proof.
  intros Hc Hok (Hh & Hf & Ho) Hfit. unfold Recover, walFlush. rewrite Ho, <- Hh, Hf. unfold fits_i64, encodeAll in *.
  set (file := hdr ++ encodeFrames (encodeAt (w_cipher w)) (length hdr) rs) in *.
  assert (length file = (length hdr + length (encodeFrames (encodeAt (w_cipher w)) (length hdr) rs))%nat) as Hlen by apply length_app.
  pose proof (wal_format _ Hc) as Hfmt. unfold recoverLoop.
  pose proof (scanLoop_torn (RF := Hfmt) rs hdr (length file) (length file)) as Hscan.
  cbv zeta in Hscan. fold file in Hscan. rewrite take_ge in Hscan by done. rewrite fittingFrames_all in Hscan by lia.
  rewrite Hscan by (done || lia). rewrite <- Hlen, take_ge by done. done.
Qed.

(** ** A log that is opened again *)

(** The records of clients. *)
Definition data_op (r : WalRecord) : Prop := r_op r = OpPut \/ r_op r = OpDelete.

(** The active key is among the keys. *)
Definition key_known (reg : option KeyRegistry) : Prop :=
  match reg with Some kr => is_Some (dataKeys kr !! activeKeyID kr) /\ is_u64 (activeKeyID kr) | None => True end.

Lemma header_fields_reopen c rest : wf_bytes (wc_baseIV c) -> length (wc_baseIV c) = 16%nat -> is_u64 (wc_keyID c) ->
  let file := walFileHeader c ++ rest in
  be_decode (slice file 0 4) = walFileMagic /\ be_decode (slice file 4 8) = walFileVersion /\ be_decode (slice file 8 16) = wc_keyID c /\ slice file 16 32 = wc_baseIV c.
Proof.
  intros Hw Hl Hk file. unfold file, walFileHeader. rewrite <- !app_assoc. unfold is_u64 in Hk. split_and!.
  - rewrite slice_app_take, slice_all by (rewrite length_be_encode; lia). by rewrite be_decode_encode_id.
  - rewrite slice_app_drop, length_be_encode by (rewrite length_be_encode; lia). rewrite slice_app_take, slice_all by (rewrite length_be_encode; lia). by rewrite be_decode_encode_id.
  - rewrite slice_app_drop, length_be_encode by (rewrite length_be_encode; lia). rewrite slice_app_drop, length_be_encode by (rewrite length_be_encode; lia).
    rewrite slice_app_take, slice_all by (rewrite length_be_encode; lia). by rewrite be_decode_encode_id by lia.
  - rewrite slice_app_drop, length_be_encode by (rewrite length_be_encode; lia). rewrite slice_app_drop, length_be_encode by (rewrite length_be_encode; lia).
    rewrite slice_app_drop, length_be_encode by (rewrite length_be_encode; lia). rewrite slice_app_take, slice_all by (rewrite Hl; lia). done.
Qed.

(** A log in the clear does not look like an encrypted one. *)
Lemma plain_start o r rest : r_op r = OpPut \/ r_op r = OpDelete -> rec_ok r ->
  be_decode (slice (encodeRecord aesEncrypt None o r ++ rest) 0 4) =? walFileMagic = false.
Proof.
  intros Hop Hr. unfold encodeRecord, recordHeader. cbn [cryptField]. set (tl := be_encode 4 (Z.of_nat (length (r_key r)))).
  rewrite <- !app_assoc. cbn [app]. assert (wf_bytes tl /\ length tl = 4%nat) as [Hw Hl] by (split; [apply wf_be_encode|apply length_be_encode]).
  destruct tl as [|x [|y [|z tl]]]; try done.
  match goal with |- context [slice ?l 0 4] => change (slice l 0 4) with [r_op r; x; y; z] end. apply Z.eqb_neq. rewrite be_decode_cons.
  assert (wf_bytes [x; y; z]) as Hw3 by exact (Forall_take _ 3 _ Hw). pose proof (be_decode_bound _ Hw3) as Hb. cbn [length] in *.
  change (256 ^ Z.of_nat 3) with 16777216 in *. unfold walFileMagic. destruct Hop as [-> | ->]; unfold OpPut, OpDelete; lia.
Qed.

Lemma OpenWAL_encrypted file kr iv key : (32 <= length file)%nat -> be_decode (slice file 0 4) = walFileMagic -> be_decode (slice file 4 8) = walFileVersion ->
  GetKey kr (be_decode (slice file 8 16)) = Some key ->
  OpenWAL file (Some kr) iv = Some (mkWAL (Some (mkWalCipher key (slice file 16 32) (be_decode (slice file 8 16)))) file [] (Z.of_nat (length file))).
Proof.
  intros Hl E1 E2 Hk. destruct file as [|b f] eqn:Ef; [cbn in Hl; lia|]. rewrite <- Ef in *. unfold OpenWAL. rewrite Ef. rewrite <- Ef.
  rewrite (proj2 (Nat.leb_le 8 _)) by lia. rewrite E1, E2, !Z.eqb_refl. cbn [andb]. rewrite (proj2 (Nat.leb_le walEncHeaderSize _)) by (unfold walEncHeaderSize; lia). by rewrite Hk.
Qed.

Lemma OpenWAL_plain file iv : be_decode (slice file 0 4) =? walFileMagic = false -> OpenWAL file None iv = Some (mkWAL None file [] (Z.of_nat (length file))).
Proof. intros E. destruct file as [|b f]; [done|]. unfold OpenWAL. by rewrite E, andb_false_r. Qed.

Lemma OpenWAL_again reg iv iv' w0 hdr rs : OpenWAL [] reg iv = Some w0 -> wf_bytes iv -> length iv = 16%nat -> key_known reg -> hdr = w_buf w0 ->
  Forall rec_ok rs -> Forall data_op rs ->
  let file := hdr ++ encodeAll (w_cipher w0) (length hdr) rs in
  exists w, OpenWAL file reg iv' = Some w /\ w_cipher w = w_cipher w0 /\ log_holds w hdr rs.
Proof.
  intros Ho Hiv Hl Hk -> Hok Hops file. destruct reg as [kr|]; injection Ho as <-; cbn [w_buf w_cipher app] in *.
  - set (c := mkWalCipher _ _ _) in *. destruct Hk as [[key Ek] Hu]. destruct (header_fields_reopen c (encodeAll (Some c) (length (walFileHeader c)) rs) Hiv Hl Hu) as (E1 & E2 & E3 & E4).
    assert (length (walFileHeader c) = 32%nat) as Lh by (unfold walFileHeader; rewrite !length_app, !length_be_encode; cbn; lia).
    fold file in E1, E2, E3, E4. assert (32 <= length file)%nat as Lf by (unfold file; rewrite length_app; lia).
    exists (mkWAL (Some c) file [] (Z.of_nat (length file))). rewrite (OpenWAL_encrypted file kr iv' key Lf E1 E2) by (rewrite E3; exact Ek). rewrite E3, E4. split.
    + unfold c, ActiveKey. cbn. by rewrite Ek.
    + split; [done|]. unfold log_holds. cbn. by rewrite app_nil_r.
  - exists (mkWAL None file [] (Z.of_nat (length file))).
    assert (log_holds (mkWAL None file [] (Z.of_nat (length file))) [] rs) as Hh by (unfold log_holds; cbn; by rewrite app_nil_r).
    split; [|done]. destruct rs as [|r rs]; [done|]. apply Forall_cons in Hok as [Hr _]. apply Forall_cons in Hops as [Hop _]. apply OpenWAL_plain.
    unfold file. change (r :: rs) with ([r] ++ rs). rewrite encodeAll_app, encodeAll_one. by apply plain_start.
Qed.

(** What is left of the log opens again, in the clear or with its key. *)
Lemma OpenWAL_crashed reg iv iv' w0 rs n : OpenWAL [] reg iv = Some w0 -> wf_bytes iv -> length iv = 16%nat -> key_known reg ->
  Forall rec_ok rs -> Forall data_op rs -> (length (w_buf w0) <= n)%nat ->
  let disk := take n (w_buf w0 ++ encodeAll (w_cipher w0) (length (w_buf w0)) rs) in
  disk <> [] -> OpenWAL disk reg iv' = Some (mkWAL (w_cipher w0) disk [] (Z.of_nat (length disk))).
Proof.
  intros Ho Hiv Hl Hk Hok Hops Hn disk Hne. destruct reg as [kr|]; injection Ho as <-; cbn [w_buf w_cipher app] in *.
  - set (c := mkWalCipher _ _ _) in *. destruct Hk as [[key Ek] Hu].
    assert (length (walFileHeader c) = 32%nat) as Lh by (unfold walFileHeader; rewrite !length_app, !length_be_encode; cbn; lia).
    set (rest := encodeAll (Some c) (length (walFileHeader c)) rs) in *. assert (disk = walFileHeader c ++ take (n - 32) rest) as Ed.
    { unfold disk. by rewrite take_app_ge, Lh by lia. }
    destruct (header_fields_reopen c (take (n - 32) rest) Hiv Hl Hu) as (E1 & E2 & E3 & E4). rewrite <- Ed in E1, E2, E3, E4.
    rewrite (OpenWAL_encrypted disk kr iv' key) by (done || (rewrite Ed, length_app; lia) || (rewrite E3; exact Ek)). rewrite E3, E4.
    unfold c, ActiveKey. cbn. by rewrite Ek.
  - destruct rs as [|r rs]; [destruct Hne; apply take_nil|]. apply Forall_cons in Hok as [Hr _]. apply Forall_cons in Hops as [Hop _].
    destruct (Nat.leb_spec 8 n) as [H8|H8].
    + apply OpenWAL_plain. unfold disk, slice. rewrite skipn_O, take_take, Nat.min_l by lia.
      change (r :: rs) with ([r] ++ rs). rewrite encodeAll_app, encodeAll_one. by apply plain_start.
    + destruct disk as [|b d] eqn:Ed; [done|]. unfold OpenWAL. rewrite (proj2 (Nat.leb_gt 8 (length (b :: d)))); [done|].
      rewrite <- Ed. unfold disk. rewrite length_take. lia.
Qed.

(** Reading what is left of the log. *)
Lemma Recover_prefix reg iv w0 rs n disk :
  OpenWAL [] reg iv = Some w0 -> wf_bytes iv -> length iv = 16%nat -> Forall rec_ok rs -> fits_i64 w0 (w_buf w0) rs ->
  (length (w_buf w0) <= n)%nat -> disk = take n (w_buf w0 ++ encodeAll (w_cipher w0) (length (w_buf w0)) rs) ->
  let hdr := w_buf w0 in
  exists keep lost, rs = keep ++ lost /\
    (length hdr + length (encodeAll (w_cipher w0) (length hdr) keep) <= n)%nat /\
    (forall r l, lost = r :: l -> (n < length hdr + length (encodeAll (w_cipher w0) (length hdr) (keep ++ [r])))%nat) /\
    Recover aesEncrypt (mkWAL (w_cipher w0) disk [] (Z.of_nat (length disk))) =
      (locateAll (w_cipher w0) (length hdr) keep,
       let file := hdr ++ encodeAll (w_cipher w0) (length hdr) keep in
       mkWAL (w_cipher w0) file [] (Z.of_nat (length file))).
Proof.
  intros Ho Hiv Hl Hok Hfit Hn Hd hdr. destruct (OpenWAL_empty reg iv w0 Ho Hiv Hl) as [Hc (Hh & _)].
  destruct (fittingFrames_spec (encodeAt (w_cipher w0)) (length hdr) n rs Hn) as (lost & Hrs & Hle & Hmax).
  set (keep := fittingFrames (encodeAt (w_cipher w0)) (length hdr) n rs) in *.
  exists keep, lost. split; [done|]. split; [done|]. split; [done|].
  unfold Recover. cbn [w_file w_buf w_cipher]. rewrite app_nil_r.
  assert (w_fileHdr (mkWAL (w_cipher w0) disk [] (Z.of_nat (length disk))) = length hdr) as -> by (unfold hdr; by rewrite Hh).
  unfold recoverLoop. rewrite Hd at 1 2. unfold encodeAll at 1 2. pose proof (wal_format _ Hc).
  fold hdr. rewrite scanLoop_torn; [|done|exact Hfit|done|rewrite length_take, length_app; lia].
  cbv zeta. fold hdr. fold keep. f_equal. fold (encodeAll (w_cipher w0) (length hdr) keep) in Hle |- *.
  assert (take (length hdr + length (encodeAll (w_cipher w0) (length hdr) keep)) disk =
    hdr ++ encodeAll (w_cipher w0) (length hdr) keep) as ->; [|by rewrite length_app].
  rewrite Hd, take_take, Nat.min_l by lia. fold hdr. rewrite Hrs, encodeAll_app, app_assoc.
  rewrite <- length_app. by rewrite take_app_length.
Qed.

(** C15. Crash recovery of the log.  A log is created (in the clear or
    encrypted) and written by any sequence of single writes, group commits
    and syncs; a crash then leaves the first [n] bytes of what was written,
    and the log is opened again.  If the bytes cover the file header, opening
    succeeds and [Recover] returns exactly the records that lie completely
    within the bytes, in order, decrypted and with the file offsets of their
    values, and leaves the file cut at the end of the last of them; if nothing
    was lost every record comes back.  If nothing is left, a new log is
    started and nothing comes back.  If a part of the header of an encrypted
    log is left, opening the log fails. *)
Theorem Recover_after_crash reg iv iv' w0 ops n :
  OpenWAL [] reg iv = Some w0 -> wf_bytes iv -> length iv = 16%nat -> key_known reg ->
  let rs := ops ≫= opRecords in
  let hdr := w_buf w0 in
  let w := foldl walStep w0 ops in
  let disk := take n (w_file w ++ w_buf w) in
  Forall rec_ok rs -> Forall data_op rs -> fits_i64 w0 hdr rs ->
  ((length hdr <= n)%nat -> disk <> [] ->
   exists keep lost w1, rs = keep ++ lost /\
    (length hdr + length (encodeAll (w_cipher w0) (length hdr) keep) <= n)%nat /\
    (forall r l, lost = r :: l -> (n < length hdr + length (encodeAll (w_cipher w0) (length hdr) (keep ++ [r])))%nat) /\
    OpenWAL disk reg iv' = Some w1 /\
    Recover aesEncrypt w1 =
      (locateAll (w_cipher w0) (length hdr) keep,
       let file := hdr ++ encodeAll (w_cipher w0) (length hdr) keep in
       mkWAL (w_cipher w0) file [] (Z.of_nat (length file)))) /\
  (disk = [] -> length iv' = 16%nat -> exists w1, OpenWAL disk reg iv' = Some w1 /\ (Recover aesEncrypt w1).1 = []) /\
  ((0 < n < length hdr)%nat -> OpenWAL disk reg iv' = None).
Proof.
  intros Ho Hiv Hl Hk rs hdr w disk Hok Hops Hfit.
  destruct (OpenWAL_empty reg iv w0 Ho Hiv Hl) as [Hc Hl0].
  destruct (walRun_holds ops w0 hdr [] Hc Hok Hl0 Hfit) as [(_ & Hf & _) Hcw]. fold w in Hf, Hcw.
  rewrite app_nil_l in Hf. fold rs in Hf. rewrite Hcw in Hf. split_and!.
  - intros Hn Hne. assert (disk = take n (hdr ++ encodeAll (w_cipher w0) (length hdr) rs)) as Hd by (unfold disk; by rewrite Hf).
    destruct (Recover_prefix reg iv w0 rs n disk Ho Hiv Hl Hok Hfit Hn Hd) as (keep & lost & Hrs & Hle & Hmax & HR).
    exists keep, lost, (mkWAL (w_cipher w0) disk [] (Z.of_nat (length disk))). split_and!; try done. rewrite Hd in Hne |- *.
    by eapply OpenWAL_crashed.
  - intros -> Hl'. destruct reg as [kr|]; eexists; (split; [reflexivity|]); [|reflexivity]. unfold Recover. cbn [w_file w_buf w_cipher app].
    set (c := mkWalCipher _ _ _). assert (length (walFileHeader c) = 32%nat) as Lh by (unfold walFileHeader; rewrite !length_app, !length_be_encode; cbn; lia).
    unfold recoverLoop. rewrite Lh. cbn [w_fileHdr w_cipher]. unfold walEncHeaderSize. cbn [scanLoop]. unfold readRecord.
    by rewrite (proj2 (Nat.ltb_lt _ _)) by (rewrite Lh; unfold walHeaderSize; lia).
  - intros Hn. assert (length disk = n \/ (length disk < n)%nat) as Hlen by (unfold disk; rewrite length_take; lia).
    destruct reg as [kr|]; [|injection Ho as <-; cbn in Hn; lia].
    assert (length disk < 32)%nat as H32.
    { assert (length hdr = 32%nat) as Lh; [|lia]. unfold hdr. injection Ho as <-. cbn [w_buf]. unfold walFileHeader. rewrite !length_app, !length_be_encode. cbn. lia. }
    destruct disk as [|b d] eqn:Ed; [|].
    + exfalso. apply (f_equal length) in Ed. unfold disk in Ed. rewrite Hf, length_take, length_app in Ed. fold hdr in Ed. cbn in Ed. lia.
    + unfold OpenWAL. rewrite (proj2 (Nat.leb_gt walEncHeaderSize _)) by exact H32. by destruct (_ && _ && _).
Qed.

(** [ReadValue] at the offset an append returned delivers the value, in the
    clear and encrypted: what the memtable's or the value pointer's offset
    refers to is what was written. *)
Theorem ReadValue_appended w hdr rs r rest :
  cipher_ok (w_cipher w) -> rec_ok r -> log_holds w hdr rs -> fits_i64 w hdr rs ->
  let '(off, w') := appendRecord aesEncrypt w r in
  ReadValue aesEncrypt (mkWAL (w_cipher w) (w_file w' ++ w_buf w' ++ rest) [] (w_offset w')) off (length (r_value r)) =
    Some (r_value r).
Proof.
  intros Hc Hr Hl Hfit. pose proof (appendRecord_holds w hdr rs r Hc Hr Hl Hfit) as Ha.
  destruct (appendRecord aesEncrypt w r) as [off w']. destruct Ha as ((_ & Hf & _) & Hcw & ->).
  unfold ReadValue. destruct (Nat.eqb_spec (length (r_value r)) 0) as [E|E]; [by apply nil_length_inv in E as ->|].
  cbn [w_file w_cipher]. rewrite app_assoc, Hf, Hcw, encodeAll_app, encodeAll_one.
  set (pre := hdr ++ encodeAll (w_cipher w) (length hdr) rs). unfold fits_i64 in Hfit.
  assert (length pre = length hdr + length (encodeAll (w_cipher w) (length hdr) rs))%nat as Hpre by apply length_app.
  rewrite <- Hpre in *. pose proof (ro_klen _ Hr) as Hk.
  destruct (encodeRecord_pieces (w_cipher w) (Z.of_nat (length pre)) r Hc Hr) as
    (ek & ev & crc & HE & _ & _ & Hlk & Hlv & _ & Hcv); [lia|lia|].
  rewrite HE. set (hd := recordHeader _ _ _ _ _ _ ++ be_encode 4 crc). assert (length hd = 37%nat) as Hhd by done.
  replace (Z.to_nat (Z.of_nat (length pre) + 37 + Z.of_nat (length (r_key r))))
    with (length (pre ++ hd ++ ek)) by (rewrite !length_app; lia).
  assert ((hdr ++ encodeAll (w_cipher w) (length hdr) rs ++ hd ++ ek ++ ev) ++ rest =
    (pre ++ hd ++ ek) ++ ev ++ rest) as -> by (unfold pre; by rewrite <- !app_assoc).
  rewrite slice_mid by (done || lia). rewrite !length_app.
  rewrite (proj2 (Nat.ltb_ge _ _)) by lia. by rewrite Hcv.
Qed.
End wal_proofs.

Module WalWitness.
Definition cipher (k b : bytes) : bytes := u8 <$> b.

Lemma cipher_wf k b : wf_bytes (cipher k b).
Proof.
  unfold cipher, wf_bytes. apply Forall_fmap, Forall_forall. intros x _. unfold is_u8, u8. simpl.
  apply Z.mod_pos_bound. lia.
Qed.

Definition reg : KeyRegistry := mkKeyRegistry [7] 1 {[1 := [9]]}.
Definition iv : bytes := replicate 16 255.
Definition r1 : WalRecord := mkWalRecord OpPut [97] [1; 2] 0 0 5 0.
Definition r2 : WalRecord := mkWalRecord OpDelete [98] [] 0 0 6 0.
Definition w0 : WAL := default (mkWAL None [] [] 0) (OpenWAL [] (Some reg) iv).

Lemma r1_ok : rec_ok r1.
Proof. split; simpl; try (by unfold is_u8, is_i64, is_u64); repeat constructor; lia. Qed.

Lemma r2_ok : rec_ok r2.
Proof. split; simpl; try (by unfold is_u8, is_i64, is_u64); repeat constructor; lia. Qed.

(** The second record is cut off three bytes before its end; or the file header
    is cut off. *)
Definition written : bytes := let w := foldl (walStep cipher) w0 [WalBatch [r1; r2]] in w_file w ++ w_buf w.

Lemma Recover_after_crash_witness :
  (exists w1, OpenWAL (take 107 written) (Some reg) iv = Some w1 /\ (Recover cipher w1).1 = [located 32 r1]) /\
  OpenWAL (take 20 written) (Some reg) iv = None.
Proof.
  assert (wf_bytes iv) as Hiv by (apply Forall_replicate; unfold is_u8; lia).
  assert (Forall rec_ok [r1; r2]) as Hok by (repeat constructor; apply r1_ok || apply r2_ok).
  assert (Forall data_op [r1; r2]) as Hops by (repeat constructor; unfold data_op; auto).
  assert (key_known (Some reg)) as Hk by (split; [by eexists|done]).
  assert (fits_i64 cipher w0 (w_buf w0) [r1; r2]) as Hfit by (vm_compute; reflexivity). split.
  - destruct (Recover_after_crash cipher cipher_wf (Some reg) iv iv w0 [WalBatch [r1; r2]] 107 eq_refl Hiv eq_refl Hk Hok Hops Hfit)
      as [Hc _]. destruct Hc as (keep & lost & w1 & Hrs & Hle & Hmax & Hopen & HR); [by vm_compute; lia|by vm_compute|].
    exists w1. split; [exact Hopen|]. rewrite HR. cbn [fst].
    destruct keep as [|k1 [|k2 [|k3 keep]]].
    + exfalso. simpl in Hrs. specialize (Hmax r1 [r2] (eq_sym Hrs)). vm_compute in Hmax. lia.
    + by injection Hrs as <- _.
    + exfalso. injection Hrs as <- <- _. vm_compute in Hle. lia.
    + discriminate Hrs.
  - exact (proj2 (proj2 (Recover_after_crash cipher cipher_wf (Some reg) iv iv w0 [WalBatch [r1; r2]] 20 eq_refl Hiv eq_refl Hk Hok Hops Hfit))
      ltac:(vm_compute; lia)).
Defined.

Lemma ReadValue_appended_witness :
  let '(off, w') := appendRecord cipher w0 r1 in
  off = 70 /\ ReadValue cipher (mkWAL (w_cipher w0) (w_file w' ++ w_buf w' ++ []) [] (w_offset w')) off 2 = Some [1; 2].
Proof.
  split; [reflexivity|]. apply (ReadValue_appended cipher cipher_wf w0 (w_buf w0) [] r1 []).
  - split; [apply Forall_replicate; unfold is_u8; lia|reflexivity].
  - apply r1_ok.
  - split; [reflexivity|]. split; reflexivity.
  - reflexivity.
Defined.
End WalWitness.
