(* ===== verification/Vlog.v ===== *)
(** * The value log ([vlog/vlog.go])

    Large values are appended to numbered segment files and referred to by
    value pointers.  A segment is its file, the bytes still in the buffered
    writer, the append offset, the closed flags and the count of readers; the
    handle that [closeForWrite] drops is reopened by the next read and is not
    part of the state.  Segments are shared objects: the log's [segments] map
    is the set of numbers in [vl_live], and a reader that pinned a segment
    keeps it after [DeleteSegment] took it out of the map, so the objects live
    in [vl_heap].  The theorems show that a pointer [Write] returned keeps
    resolving to its value, across later writes, rotations, deletions of other
    segments and a restart, and that [Recover] returns what a crash left of a
    segment.  System calls do not fail in the model, apart from the reads past
    the end of a file and the header checks of [openSegment]. *)

From S2P Require Import Prelude Framing Checksum Crypto Registry Wal.

Definition segmentMagic : Z := 0x564C4F47.
Definition segmentVersion : Z := 1.
Definition segmentVersionEncrypt : Z := 2.
Definition segmentHeaderSize : nat := 8.
Definition encSegmentHeaderSize : nat := 32.
Definition entryHeaderSize : nat := 17.

Record ValueEntry := mkValueEntry { ve_op : Z; ve_key : bytes; ve_value : bytes; ve_expiresAt : Z }.

Record ValuePointer := mkValuePointer { vp_fid : Z; vp_offset : Z; vp_size : Z }.

#[export] Instance ValuePointer_eq_dec : EqDecision ValuePointer.
Proof. solve_decision. Defined.

(** The encryption of a segment has the fields of the log's: data key, base IV
    and key number. *)
Record segment := mkSegment {
  sg_fid : Z;
  sg_cipher : option walCipher;
  sg_file : bytes;
  sg_buf : bytes;
  sg_offset : Z;
  sg_maxSize : Z;
  sg_closed : bool;
  sg_writeClosed : bool;
  sg_refs : Z;
  sg_removePending : bool;
  sg_removed : bool;
}.

(** *** Field updates *)

Definition seg_data (s : segment) (file buf : bytes) (offset : Z) : segment :=
  mkSegment (sg_fid s) (sg_cipher s) file buf offset (sg_maxSize s) (sg_closed s) (sg_writeClosed s) (sg_refs s)
    (sg_removePending s) (sg_removed s).
Definition seg_close (s : segment) (closed writeClosed : bool) : segment :=
  mkSegment (sg_fid s) (sg_cipher s) (sg_file s) (sg_buf s) (sg_offset s) (sg_maxSize s) closed writeClosed (sg_refs s)
    (sg_removePending s) (sg_removed s).
Definition seg_pins (s : segment) (refs : Z) (removePending removed : bool) : segment :=
  mkSegment (sg_fid s) (sg_cipher s) (sg_file s) (sg_buf s) (sg_offset s) (sg_maxSize s) (sg_closed s) (sg_writeClosed s)
    refs removePending removed.

(** ** Segments *)

Definition seg_flush (s : segment) : segment := seg_data s (sg_file s ++ sg_buf s) [] (sg_offset s).

(** [sync] of an open segment; [None] is the error of [Sync] on the handle that
    [close] has dropped. *)
Definition segment_sync (s : segment) : option segment := if sg_closed s then None else Some (seg_flush s).

Definition segment_close (s : segment) : segment := if sg_closed s then s else seg_close (seg_flush s) true true.

Definition closeForWrite (s : segment) : segment :=
  if sg_writeClosed s then s else seg_close (seg_flush s) (sg_closed s) true.

Definition removeFile (s : segment) : segment :=
  if sg_removed s then s else segment_close (seg_pins s (sg_refs s) (sg_removePending s) true).

Definition segment_IncrRef (s : segment) : segment :=
  seg_pins s (sg_refs s + 1) (sg_removePending s) (sg_removed s).

Definition segment_DecrRef (s : segment) : segment :=
  let s := seg_pins s (sg_refs s - 1) (sg_removePending s) (sg_removed s) in
  if (sg_refs s =? 0) && sg_removePending s then removeFile s else s.

Definition markRemove (s : segment) : segment :=
  let s := seg_pins s (sg_refs s) true (sg_removed s) in
  if 0 <? sg_refs s then s else removeFile s.

Definition segmentHeader : bytes := be_encode 4 segmentMagic ++ be_encode 4 segmentVersion.

Definition encSegmentHeader (c : walCipher) : bytes :=
  be_encode 4 segmentMagic ++ be_encode 4 segmentVersionEncrypt ++ be_encode 8 (wc_keyID c) ++ wc_baseIV c.

(** [openSegment] on a file with contents [file]; [baseIV] is what [NewBaseIV]
    draws.  A new segment's header goes through the buffered writer. *)
Definition openSegment (file : bytes) (fid maxSize : Z) (reg : option KeyRegistry) (baseIV : bytes) : option segment :=
  match file with
  | [] =>
      match reg with
      | Some kr =>
          let c := mkWalCipher (ActiveKey kr).2 baseIV (ActiveKey kr).1 in
          Some (mkSegment fid (Some c) [] (encSegmentHeader c) (Z.of_nat encSegmentHeaderSize) maxSize
                  false false 0 false false)
      | None =>
          Some (mkSegment fid None [] segmentHeader (Z.of_nat segmentHeaderSize) maxSize false false 0 false false)
      end
  | _ =>
      let opened c := mkSegment fid c file [] (Z.of_nat (length file)) maxSize false false 0 false false in
      if (length file <? segmentHeaderSize)%nat then None
      else if (be_decode (slice file 0 4) =? segmentMagic) && (be_decode (slice file 4 8) =? segmentVersionEncrypt) then
        if (length file <? encSegmentHeaderSize)%nat then None
        else
          match reg with
          | None => None
          | Some kr =>
              let keyID := be_decode (slice file 8 16) in
              match GetKey kr keyID with
              | None => None
              | Some key => Some (opened (Some (mkWalCipher key (slice file 16 32) keyID)))
              end
          end
      else Some (opened None)
  end.

Section vlog.
Context (aesEncrypt : bytes -> bytes -> bytes).

(** The entry header; the checksum covers it, the key and the stored value. *)
Definition entryHeader (op : Z) (kLen vLen : nat) (expiresAt : Z) : bytes :=
  [op] ++ be_encode 4 (Z.of_nat kLen) ++ be_encode 4 (Z.of_nat vLen) ++ be_encode 8 (u64 expiresAt).

(** The bytes [writeEntry] hands to the writer at [offset]. *)
Definition encodeValueEntry (c : option walCipher) (offset : Z) (e : ValueEntry) : bytes :=
  let valueOffset := offset + Z.of_nat entryHeaderSize + Z.of_nat (length (ve_key e)) in
  let val := cryptField aesEncrypt c valueOffset (ve_value e) in
  let hdr := entryHeader (ve_op e) (length (ve_key e)) (length val) (ve_expiresAt e) in
  hdr ++ ve_key e ++ val ++ be_encode 4 (crc32 (hdr ++ ve_key e ++ val)).

(** The value's offset; [None] is the error on a closed segment. *)
Definition writeEntry (s : segment) (e : ValueEntry) : option (Z * segment) :=
  if sg_closed s || sg_writeClosed s then None
  else
    let enc := encodeValueEntry (sg_cipher s) (sg_offset s) e in
    Some (sg_offset s + Z.of_nat entryHeaderSize + Z.of_nat (length (ve_key e)),
          seg_data s (sg_file s) (sg_buf s ++ enc) (sg_offset s + Z.of_nat (length enc))).

(** [file.ReadAt] of the whole buffer: short reads and offsets beyond the int64
    range, negative after the conversion, are errors.  A segment still open for
    writing is flushed first. *)
Definition readValue (s : segment) (offset size : Z) : option bytes * segment :=
  if size =? 0 then (Some [], s)
  else if sg_closed s then (None, s)
  else
    let s := if sg_writeClosed s then s else seg_flush s in
    if (i64 offset <? 0) || (Z.of_nat (length (sg_file s)) <? i64 offset + size) then (None, s)
    else
      (Some (cryptField aesEncrypt (sg_cipher s) (i64 offset)
               (slice (sg_file s) (Z.to_nat (i64 offset)) (Z.to_nat (i64 offset + size)))), s).

(** ** The log *)

Record ValueLog := mkValueLog {
  vl_heap : gmap Z segment;
  vl_live : gset Z;
  vl_maxSize : Z;
  vl_reg : option KeyRegistry;
  vl_nextFid : Z;
  vl_active : Z;
  (** Files of the directory that no open segment belongs to. *)
  vl_files : gmap Z bytes;
}.

Definition vl_set (vl : ValueLog) (fid : Z) (s : segment) : ValueLog :=
  mkValueLog (<[fid := s]> (vl_heap vl)) (vl_live vl) (vl_maxSize vl) (vl_reg vl) (vl_nextFid vl) (vl_active vl)
    (vl_files vl).

(** [rotateLocked]; [baseIV] is drawn for the new segment.  The number is used
    up even when the new file cannot be opened. *)
Definition rotateLocked (vl : ValueLog) (baseIV : bytes) : option unit * ValueLog :=
  match vl_heap vl !! vl_active vl ≫= segment_sync with
  | None => (None, vl)
  | Some old =>
      let fid := u32 (vl_nextFid vl + 1) in
      let heap := <[vl_active vl := old]> (vl_heap vl) in
      match openSegment (default [] (vl_files vl !! fid)) fid (vl_maxSize vl) (vl_reg vl) baseIV with
      | None =>
          (None, mkValueLog heap (vl_live vl) (vl_maxSize vl) (vl_reg vl) fid (vl_active vl) (vl_files vl))
      | Some s =>
          (Some tt,
           mkValueLog (<[vl_active vl := closeForWrite old]> (<[fid := s]> heap)) ({[fid]} ∪ vl_live vl)
             (vl_maxSize vl) (vl_reg vl) fid fid (delete fid (vl_files vl)))
      end
  end.

Definition vlog_Write (vl : ValueLog) (e : ValueEntry) (baseIV : bytes) : option ValuePointer * ValueLog :=
  let '(rotated, vl) :=
    match vl_heap vl !! vl_active vl with
    | Some active => if sg_maxSize active <=? sg_offset active then rotateLocked vl baseIV else (Some tt, vl)
    | None => (None, vl)
    end in
  match rotated, vl_heap vl !! vl_active vl with
  | Some _, Some active =>
      match writeEntry active e with
      | None => (None, vl)
      | Some (offset, active') =>
          (Some (mkValuePointer (sg_fid active) (u64 offset) (u32 (Z.of_nat (length (ve_value e))))),
           vl_set vl (vl_active vl) active')
      end
  | _, _ => (None, vl)
  end.

Definition vlog_Sync (vl : ValueLog) : ValueLog :=
  match vl_heap vl !! vl_active vl ≫= segment_sync with None => vl | Some s => vl_set vl (vl_active vl) s end.

(** The two halves of [ReadValue]: pinning the segment under the mutex, then
    reading from the pinned object and releasing it. *)
Definition pinSegment (vl : ValueLog) (fid : Z) : option ValueLog :=
  if bool_decide (fid ∈ vl_live vl) then
    match vl_heap vl !! fid with None => None | Some s => Some (vl_set vl fid (segment_IncrRef s)) end
  else None.

Definition readPinned (vl : ValueLog) (vp : ValuePointer) : option bytes * ValueLog :=
  match vl_heap vl !! vp_fid vp with
  | None => (None, vl)
  | Some s =>
      let '(res, s) := readValue s (vp_offset vp) (vp_size vp) in
      (res, vl_set vl (vp_fid vp) (segment_DecrRef s))
  end.

Definition vlog_ReadValue (vl : ValueLog) (vp : ValuePointer) : option bytes * ValueLog :=
  if vp_size vp =? 0 then (Some [], vl)
  else
    match pinSegment vl (vp_fid vp) with
    | None => (None, vl)
    | Some vl => readPinned vl vp
    end.

Definition DeleteSegment (vl : ValueLog) (fid : Z) : option unit * ValueLog :=
  if vl_active vl =? fid then (None, vl)
  else if bool_decide (fid ∈ vl_live vl) then
    match vl_heap vl !! fid with
    | None => (Some tt, vl)
    | Some s =>
        (Some tt,
         mkValueLog (<[fid := markRemove s]> (vl_heap vl)) (vl_live vl ∖ {[fid]}) (vl_maxSize vl) (vl_reg vl)
           (vl_nextFid vl) (vl_active vl) (vl_files vl))
    end
  else (Some tt, vl).

(** ** Recovery *)

(** One entry at [pos]; [None] is the [break] of the loop. *)
Definition readValueEntry (c : option walCipher) (file : bytes) (pos : nat) : option ((ValueEntry * Z) * nat) :=
  if (length file <? pos + entryHeaderSize)%nat then None
  else
    let hdr := slice file pos (pos + entryHeaderSize) in
    let op := default 0 (hdr !! 0%nat) in
    let kLen := Z.to_nat (be_decode (slice hdr 1 5)) in
    let vLen := Z.to_nat (be_decode (slice hdr 5 9)) in
    let expAt := i64 (be_decode (slice hdr 9 17)) in
    if (length file <? pos + entryHeaderSize + kLen + vLen + 4)%nat then None
    else
      let keyEnd := (pos + entryHeaderSize + kLen)%nat in
      let key := slice file (pos + entryHeaderSize) keyEnd in
      let val := slice file keyEnd (keyEnd + vLen) in
      let crc := be_decode (slice file (keyEnd + vLen) (keyEnd + vLen + 4)) in
      if negb (crc32 (entryHeader op kLen vLen expAt ++ key ++ val) =? crc) then None
      else
        let valueOffset := Z.of_nat keyEnd in
        Some ((mkValueEntry op key (cryptField aesEncrypt c valueOffset val) expAt, valueOffset),
              (keyEnd + vLen + 4)%nat).

Definition seg_headerSize (c : option walCipher) : nat :=
  match c with None => segmentHeaderSize | Some _ => encSegmentHeaderSize end.

(** The entries of a segment file with the offsets of their values, in the
    order of the calls of [fn]; [None] stands for the error returns. *)
Definition recoverSegment (c : option walCipher) (file : bytes) : option (list (ValueEntry * Z)) :=
  match file with
  | [] => Some []
  | _ =>
      if (length file <? segmentHeaderSize)%nat then None
      else if negb (be_decode (slice file 0 4) =? segmentMagic) then None
      else if (length file <? seg_headerSize c)%nat then None
      else Some (scanLoop (readValueEntry c) (length file) file (seg_headerSize c)).1
  end.

Definition vlog_Recover (vl : ValueLog) (fid : Z) : option (list (ValueEntry * Z)) * ValueLog :=
  if bool_decide (fid ∈ vl_live vl) then
    match vl_heap vl !! fid with
    | None => (None, vl)
    | Some s =>
        let s := if sg_writeClosed s then s else seg_flush s in
        (recoverSegment (sg_cipher s) (sg_file s), vl_set vl fid s)
    end
  else (None, vl).

(** ** Opening and closing *)

(** [openWithMaxSize] on a directory, the files by segment number; files that
    do not open are skipped.  [ivs] are the base IVs drawn. *)
Definition openExisting (dir : gmap Z bytes) (maxSize : Z) (reg : option KeyRegistry) (ivs : Z -> bytes) : gmap Z segment :=
  map_imap (fun fid file => closeForWrite <$> openSegment file fid maxSize reg (ivs fid)) dir.

Definition maxFid (segs : gmap Z segment) : Z := map_fold (fun fid _ m => Z.max fid m) 0 segs.

Definition openWithMaxSize (dir : gmap Z bytes) (maxSize : Z) (reg : option KeyRegistry) (ivs : Z -> bytes)
    : option ValueLog :=
  let segs := openExisting dir maxSize reg ivs in
  let nextFid := u32 (maxFid segs + 1) in
  match openSegment (default [] (dir !! nextFid)) nextFid maxSize reg (ivs nextFid) with
  | None => None
  | Some active =>
      Some (mkValueLog (<[nextFid := active]> segs) ({[nextFid]} ∪ dom segs) maxSize reg nextFid nextFid
              (delete nextFid (filter (fun p => segs !! p.1 = None) dir)))
  end.

(** [Close], and the directory it leaves: unlinked segments are gone. *)
Definition vlog_Close (vl : ValueLog) : ValueLog :=
  mkValueLog (map_imap (fun fid s => Some (if bool_decide (fid ∈ vl_live vl) then segment_close s else s)) (vl_heap vl)) ∅
    (vl_maxSize vl) (vl_reg vl) (vl_nextFid vl) (vl_active vl) (vl_files vl).

Definition closedDir (vl : ValueLog) : gmap Z bytes :=
  omap (fun s => if sg_removed s then None else Some (sg_file s)) (vl_heap vl) ∪ vl_files vl.

(** ** Discard statistics *)

(** Stale bytes per segment: [DiscardStats.stats]. *)
Definition DiscardStats_AddDiscard (ds : gmap Z Z) (fid size : Z) : gmap Z Z :=
  <[fid := i64 (default 0 (ds !! fid) + size)]> ds.
Definition DiscardStats_Get (ds : gmap Z Z) (fid : Z) : Z := default 0 (ds !! fid).
Definition DiscardStats_Delete (ds : gmap Z Z) (fid : Z) : gmap Z Z := delete fid ds.

(** [Save] writes the entries in some order; [Load] keeps the positive ones. *)
Definition DiscardStats_Save (stats : list (Z * Z)) : bytes :=
  stats ≫= fun '(fid, disc) => be_encode 4 fid ++ be_encode 8 (u64 disc).

Fixpoint DiscardStats_Load (n : nat) (data : bytes) (ds : gmap Z Z) : gmap Z Z :=
  match n with
  | O => ds
  | S n =>
      let fid := be_decode (slice data 0 4) in
      let disc := i64 (be_decode (slice data 4 12)) in
      DiscardStats_Load n (drop 12 data) (if 0 <? disc then <[fid := disc]> ds else ds)
  end.
End vlog.

#[global] Arguments encodeValueEntry : simpl never.
#[global] Arguments readValueEntry : simpl never.

(** ** Encoding and decoding an entry *)

(** The field values the Go types allow. *)
Record ventry_ok (e : ValueEntry) : Prop := {
  vo_op : is_u8 (ve_op e);
  vo_key : wf_bytes (ve_key e);
  vo_value : wf_bytes (ve_value e);
  vo_klen : Z.of_nat (length (ve_key e)) < 2 ^ 32;
  vo_vlen : Z.of_nat (length (ve_value e)) < 2 ^ 32;
  vo_exp : is_i64 (ve_expiresAt e);
}.

Lemma entryHeader_fields op k v e :
  let H := entryHeader op k v e in
  H !! 0%nat = Some op /\ slice H 1 5 = be_encode 4 (Z.of_nat k) /\ slice H 5 9 = be_encode 4 (Z.of_nat v) /\
  slice H 9 17 = be_encode 8 (u64 e) /\ length H = entryHeaderSize.
Proof. by repeat split. Qed.

Section vlog_proofs.
Context (aesEncrypt : bytes -> bytes -> bytes).
Hypothesis aes_wf : forall k b, wf_bytes (aesEncrypt k b).

(** The bytes of an entry, piece by piece. *)
Lemma encodeValueEntry_pieces c o e :
  cipher_ok c -> ventry_ok e -> 0 <= o < 2 ^ 62 ->
  let hdr := entryHeader (ve_op e) (length (ve_key e)) (length (ve_value e)) (ve_expiresAt e) in
  exists ev crc,
    encodeValueEntry aesEncrypt c o e = hdr ++ ve_key e ++ ev ++ be_encode 4 crc /\
    crc = crc32 (hdr ++ ve_key e ++ ev) /\ is_u32 crc /\ length ev = length (ve_value e) /\
    cryptField aesEncrypt c (o + 17 + Z.of_nat (length (ve_key e))) ev = ve_value e.
Proof.
  intros Hc He Ho hdr. unfold encodeValueEntry. change (Z.of_nat entryHeaderSize) with 17. pose proof (vo_klen _ He).
  destruct (cryptField_ok aesEncrypt aes_wf c (o + 17 + Z.of_nat (length (ve_key e))) (ve_value e) Hc) as (Hw & Hl & Hcv);
    [lia|apply He|].
  rewrite Hl. fold hdr. eexists _, _. split; [reflexivity|]. split; [done|]. split; [|done]. apply crc32_u32. rewrite !wf_bytes_app.
  split_and!; [|apply He|done]. unfold hdr, entryHeader. rewrite !wf_bytes_app.
  split_and!; [|apply wf_be_encode..]. by apply Forall_singleton, He.
Qed.

Lemma length_encodeValueEntry c o e :
  cipher_ok c -> ventry_ok e -> 0 <= o < 2 ^ 62 ->
  length (encodeValueEntry aesEncrypt c o e) = (21 + length (ve_key e) + length (ve_value e))%nat.
Proof.
  intros Hc He Ho. destruct (encodeValueEntry_pieces c o e Hc He Ho) as (ev & crc & -> & _ & _ & Hl & _).
  rewrite !length_app, length_be_encode, Hl. change (length (entryHeader _ _ _ _)) with 17%nat. lia.
Qed.

Definition vencodeAt (c : option walCipher) (o : nat) (e : ValueEntry) : bytes :=
  encodeValueEntry aesEncrypt c (Z.of_nat o) e.
Definition vlocateAt (o : nat) (e : ValueEntry) : ValueEntry * Z := (e, Z.of_nat (o + 17 + length (ve_key e))).

(** Reading back the entry at its offset. *)
Lemma readValueEntry_encode c pre e rest :
  cipher_ok c -> ventry_ok e -> Z.of_nat (length pre) < 2 ^ 62 ->
  readValueEntry aesEncrypt c (pre ++ vencodeAt c (length pre) e ++ rest) (length pre) =
    Some (vlocateAt (length pre) e, (length pre + length (vencodeAt c (length pre) e))%nat).
Proof.
  intros Hc He Ho. unfold vencodeAt.
  destruct (encodeValueEntry_pieces c (Z.of_nat (length pre)) e Hc He ltac:(lia)) as (ev & crc & E & Hcrc & Hu & Hl & Hev).
  rewrite length_encodeValueEntry by (done || lia). rewrite E. clear E.
  set (hdr := entryHeader _ _ _ _) in *.
  destruct (entryHeader_fields (ve_op e) (length (ve_key e)) (length (ve_value e)) (ve_expiresAt e))
    as (F0 & F1 & F2 & F3 & Fl). fold hdr in F0, F1, F2, F3, Fl. change entryHeaderSize with 17%nat in Fl.
  set (file := pre ++ _).
  assert (length file = length pre + (21 + length (ve_key e) + length (ve_value e)) + length rest)%nat as Hlf.
  { unfold file. rewrite !length_app, length_be_encode, Hl, Fl. lia. }
  unfold readValueEntry. change entryHeaderSize with 17%nat. rewrite (proj2 (Nat.ltb_ge _ _)) by lia. cbv zeta.
  assert (slice file (length pre) (length pre + 17) = hdr) as ->.
  { unfold file. rewrite <- app_assoc. apply slice_mid; [done|by rewrite Fl]. }
  rewrite F0, F1, F2, F3. simpl default. rewrite !be_decode_len, be_decode_i64 by apply He.
  rewrite (proj2 (Nat.ltb_ge _ _)) by lia.
  assert (slice file (length pre + 17) (length pre + 17 + length (ve_key e)) = ve_key e) as ->.
  { unfold file. rewrite <- !app_assoc, (app_assoc pre). apply slice_mid; rewrite length_app, Fl; lia. }
  assert (slice file (length pre + 17 + length (ve_key e)) (length pre + 17 + length (ve_key e) + length (ve_value e)) = ev) as ->.
  { unfold file. rewrite <- !app_assoc, (app_assoc pre), (app_assoc _ (ve_key e)).
    apply slice_mid; rewrite !length_app, Fl; lia. }
  assert (slice file (length pre + 17 + length (ve_key e) + length (ve_value e))
    (length pre + 17 + length (ve_key e) + length (ve_value e) + 4) = be_encode 4 crc) as ->.
  { unfold file. rewrite <- !app_assoc, (app_assoc pre), (app_assoc _ (ve_key e)), (app_assoc _ ev).
    apply slice_mid; rewrite ?length_be_encode, !length_app, Fl; lia. }
  rewrite be_decode_encode_id by exact Hu. fold hdr. rewrite <- Hcrc, Z.eqb_refl. cbn [negb]. unfold vlocateAt.
  replace (Z.of_nat (length pre + 17 + length (ve_key e))) with (Z.of_nat (length pre) + 17 + Z.of_nat (length (ve_key e))) by lia.
  rewrite Hev. destruct e as [op k v x]; cbn [ve_op ve_key ve_value ve_expiresAt] in *. do 2 f_equal. lia.
Qed.

Lemma readValueEntry_torn c pre e m :
  cipher_ok c -> ventry_ok e -> Z.of_nat (length pre) < 2 ^ 62 -> (m < length (vencodeAt c (length pre) e))%nat ->
  readValueEntry aesEncrypt c (pre ++ take m (vencodeAt c (length pre) e)) (length pre) = None.
Proof.
  intros Hc He Ho. unfold vencodeAt. rewrite length_encodeValueEntry by (done || lia). intros Hm.
  destruct (encodeValueEntry_pieces c (Z.of_nat (length pre)) e Hc He ltac:(lia)) as (ev & crc & E & _ & _ & Hl & _).
  pose proof (length_encodeValueEntry c (Z.of_nat (length pre)) e Hc He ltac:(lia)) as HL. rewrite E in *. clear E.
  set (hdr := entryHeader _ _ _ _) in *.
  destruct (entryHeader_fields (ve_op e) (length (ve_key e)) (length (ve_value e)) (ve_expiresAt e))
    as (_ & F1 & F2 & _ & Fl). fold hdr in F1, F2, Fl. change entryHeaderSize with 17%nat in Fl.
  set (tail := ve_key e ++ _) in *.
  unfold readValueEntry. change entryHeaderSize with 17%nat. rewrite length_app, length_take, HL, Nat.min_l by lia.
  case_if; [done|].
  assert (slice (pre ++ take m (hdr ++ tail)) (length pre) (length pre + 17) = hdr) as Hs.
  { rewrite take_app_ge by (rewrite Fl; lia). apply slice_mid; [done|by rewrite Fl]. }
  cbv zeta. rewrite Hs, F1, F2, !be_decode_len by apply He. rewrite (proj2 (Nat.ltb_lt _ _)) by lia. done.
Qed.

Lemma vlog_format c : cipher_ok c -> RecordFormat (vencodeAt c) (readValueEntry aesEncrypt c) vlocateAt ventry_ok.
Proof.
  intros Hc. split.
  - intros o e He Ho. unfold vencodeAt. rewrite length_encodeValueEntry by (done || lia). lia.
  - intros pre e rest He Ho. by apply readValueEntry_encode.
  - intros pre e m He Ho Hm. by apply readValueEntry_torn.
  - intros pre. unfold readValueEntry. rewrite (proj2 (Nat.ltb_lt _ _)); [done|]. unfold entryHeaderSize. lia.
Qed.

(** ** The log in use *)

Definition seg_contents (s : segment) : bytes := sg_file s ++ sg_buf s.

(** [pins fid readers]: how many of the readers under way hold [fid]. *)
Definition pins (fid : Z) (readers : list ValuePointer) : nat := length (filter (fun vp => vp_fid vp = fid) readers).

(** A file that opens, whatever its number, as a segment with cipher [c]. *)
Definition opens_as (reg : option KeyRegistry) (file : bytes) (c : option walCipher) : Prop :=
  (segmentHeaderSize <= length file)%nat /\
  forall fid maxSize iv, openSegment file fid maxSize reg iv =
    Some (mkSegment fid c file [] (Z.of_nat (length file)) maxSize false false 0 false false).

Record seg_inv (reg : option KeyRegistry) (live : gset Z) (next : Z) (readers : list ValuePointer) (fid : Z)
    (s : segment) : Prop := {
  si_fid : sg_fid s = fid;
  si_range : 0 <= fid <= next;
  si_cipher : cipher_ok (sg_cipher s);
  si_offset : sg_offset s = Z.of_nat (length (seg_contents s));
  si_buf : sg_writeClosed s = true -> sg_buf s = [];
  si_closed : sg_closed s = true -> sg_removed s = true;
  si_refs : sg_refs s = Z.of_nat (pins fid readers);
  si_live : fid ∈ live -> sg_removePending s = false /\ sg_removed s = false;
  si_dead : fid ∉ live -> sg_removePending s = true /\ (sg_refs s = 0 <-> sg_removed s = true);
  si_opens : opens_as reg (seg_contents s) (sg_cipher s);
}.

(** The bytes a value pointer refers to. *)
Definition points_to (s : segment) (vp : ValuePointer) (v : bytes) : Prop :=
  vp_size vp = Z.of_nat (length v) /\ 0 <= vp_offset vp < 2 ^ 62 /\
  vp_offset vp + vp_size vp <= Z.of_nat (length (seg_contents s)) /\
  cryptField aesEncrypt (sg_cipher s) (vp_offset vp)
    (slice (seg_contents s) (Z.to_nat (vp_offset vp)) (Z.to_nat (vp_offset vp + vp_size vp))) = v.

Definition file_ok (reg : option KeyRegistry) (f : bytes) : Prop :=
  Z.of_nat (length f) < 2 ^ 61 /\
  forall fid maxSize iv s, openSegment f fid maxSize reg iv = Some s -> f <> [] -> cipher_ok (sg_cipher s).

Record vlog_inv (reg : option KeyRegistry) (vl : ValueLog) (readers : list ValuePointer)
    (issued : list (ValuePointer * bytes)) : Prop := {
  vi_reg : vl_reg vl = reg;
  vi_active : vl_active vl <= vl_nextFid vl /\ vl_active vl ∈ vl_live vl;
  vi_open : forall s, vl_heap vl !! vl_active vl = Some s -> sg_writeClosed s = false;
  vi_live : forall fid, fid ∈ vl_live vl -> exists s, vl_heap vl !! fid = Some s;
  vi_segs : forall fid s, vl_heap vl !! fid = Some s -> seg_inv reg (vl_live vl) (vl_active vl) readers fid s;
  vi_readers : forall vp, vp ∈ readers -> exists s, vl_heap vl !! vp_fid vp = Some s;
  vi_files : forall fid f, vl_files vl !! fid = Some f -> file_ok reg f /\ vl_heap vl !! fid = None;
  vi_issued : forall vp v, (vp, v) ∈ issued -> 0 <= vp_fid vp <= vl_active vl /\ vl_files vl !! vp_fid vp = None /\
    forall s, vl_heap vl !! vp_fid vp = Some s -> points_to s vp v;
}.

Lemma points_to_extend s s' vp v x :
  seg_contents s' = seg_contents s ++ x -> sg_cipher s' = sg_cipher s -> points_to s vp v -> points_to s' vp v.
Proof.
  intros Hc Hk (Hs & Ho & Hl & Hv). unfold points_to. rewrite Hc, Hk, length_app.
  split; [done|]. split; [done|]. split; [lia|]. rewrite slice_app_take by lia. done.
Qed.

Lemma opens_as_app reg f c x : opens_as reg f c -> opens_as reg (f ++ x) c.
Proof.
  intros [Hl Ho]. unfold segmentHeaderSize in Hl. split; [rewrite length_app; unfold segmentHeaderSize; lia|].
  intros fid maxSize iv. specialize (Ho fid maxSize iv). destruct f as [|b f]; [simpl in Hl; lia|].
  set (g := b :: f) in *. unfold openSegment in *. change ((b :: f) ++ x) with (g ++ x).
  assert (g <> [] /\ g ++ x <> []) as [Hg Hgx] by done.
  destruct g as [|? g'] eqn:Eg; [done|]. rewrite <- Eg in *. destruct (g ++ x) as [|? gx] eqn:Egx; [done|]. rewrite <- Egx.
  clear Egx gx Eg g' Hg Hgx. cbv zeta in *. change segmentHeaderSize with 8%nat in *. change encSegmentHeaderSize with 32%nat in *.
  rewrite length_app, (proj2 (Nat.ltb_ge (_ + _) 8)) by lia. rewrite (proj2 (Nat.ltb_ge _ _)) in Ho by lia.
  rewrite !(slice_app_take g x) by lia. destruct (_ && _).
  - destruct (Nat.ltb_spec (length g) 32); [done|]. rewrite (proj2 (Nat.ltb_ge _ _)) by lia.
    rewrite !(slice_app_take g x) by lia. destruct reg as [kr|]; [|done]. destruct (GetKey _ _); [|done].
    by injection Ho as <-.
  - by injection Ho as <-.
Qed.

Lemma inv_set reg vl rd rd' iss fid s s' x :
  vlog_inv reg vl rd iss -> vl_heap vl !! fid = Some s ->
  (forall f, f <> fid -> pins f rd' = pins f rd) ->
  seg_contents s' = seg_contents s ++ x -> sg_cipher s' = sg_cipher s ->
  seg_inv reg (vl_live vl) (vl_active vl) rd' fid s' ->
  (forall vp, vp ∈ rd' -> vp ∈ rd \/ vp_fid vp = fid) ->
  (fid = vl_active vl -> sg_writeClosed s' = false) ->
  vlog_inv reg (vl_set vl fid s') rd' iss.
Proof.
  intros Hi Hs Hp Hc Hk Hseg Hrd Hw. unfold vl_set. split; cbn [vl_heap vl_live vl_reg vl_nextFid vl_active vl_files]; try apply Hi.
  - intros t [[E <-]|[? Ht]]%lookup_insert_Some; [by apply Hw|by apply (vi_open _ _ _ _ Hi)].
  - intros f Hf. destruct (decide (fid = f)) as [->|Hne]; [by eexists; apply lookup_insert_eq|].
    rewrite lookup_insert_ne by done. by apply (vi_live _ _ _ _ Hi).
  - intros f t [[<- <-]|[Hne Ht]]%lookup_insert_Some; [done|]. destruct (vi_segs _ _ _ _ Hi f t Ht).
    split; try done. by rewrite Hp.
  - intros vp Hv. destruct (decide (fid = vp_fid vp)) as [->|Hne]; [by eexists; apply lookup_insert_eq|].
    rewrite lookup_insert_ne by done. destruct (Hrd vp Hv) as [Hold|E]; [by apply (vi_readers _ _ _ _ Hi)|congruence].
  - intros f c Hf. destruct (vi_files _ _ _ _ Hi f c Hf) as [? Hn]. split; [done|]. rewrite lookup_insert_ne; [done|congruence].
  - intros vp v Hv. destruct (vi_issued _ _ _ _ Hi vp v Hv) as (Hr & Hnf & Hpt). split; [done|]. split; [done|].
    intros t [[E <-]|[? Ht]]%lookup_insert_Some; [|by apply Hpt]. eapply points_to_extend; [done|done|].
    apply Hpt. by rewrite <- E.
Qed.

(** *** Operations on one segment *)

Lemma contents_flush s : seg_contents (seg_flush s) = seg_contents s.
Proof. apply app_nil_r. Qed.

(** Flushing, and closing for writing, leave the invariant of a segment. *)
Lemma seg_inv_flush reg live next rd fid s : seg_inv reg live next rd fid s -> seg_inv reg live next rd fid (seg_flush s).
Proof.
  intros []. split; try done; rewrite ?contents_flush; try done.
Qed.

Lemma seg_inv_closeForWrite reg live next rd fid s :
  seg_inv reg live next rd fid s -> seg_inv reg live next rd fid (closeForWrite s) /\ seg_contents (closeForWrite s) = seg_contents s.
Proof.
  intros Hs. unfold closeForWrite. destruct (sg_writeClosed s); [done|].
  assert (seg_contents (seg_close (seg_flush s) (sg_closed s) true) = seg_contents s) as Hc by apply contents_flush.
  split; [|done]. destruct Hs. split; try done; by rewrite Hc.
Qed.

Lemma closeForWrite_cipher s : sg_cipher (closeForWrite s) = sg_cipher s.
Proof. unfold closeForWrite. by destruct (sg_writeClosed s). Qed.

(** Only the segment's own readers count. *)
Lemma pins_cons_ne f vp rd : vp_fid vp <> f -> pins f (vp :: rd) = pins f rd.
Proof. intros H. unfold pins. by rewrite filter_cons_False. Qed.

Lemma pins_cons_eq vp rd : pins (vp_fid vp) (vp :: rd) = S (pins (vp_fid vp) rd).
Proof. unfold pins. by rewrite filter_cons_True. Qed.

Lemma pins_perm f rd rd' : rd ≡ₚ rd' -> pins f rd = pins f rd'.
Proof. intros H. unfold pins. by rewrite H. Qed.

Lemma seg_inv_pin reg live next rd vp s :
  vp_fid vp ∈ live -> seg_inv reg live next rd (vp_fid vp) s ->
  seg_inv reg live next (vp :: rd) (vp_fid vp) (segment_IncrRef s).
Proof. intros Hl []. split; try done. cbn [segment_IncrRef seg_pins sg_refs]. rewrite pins_cons_eq. lia. Qed.

(** Releasing a reader removes the file exactly when it was the last one of a
    deleted segment. *)
Lemma seg_inv_unpin reg live next rd vp s :
  seg_inv reg live next (vp :: rd) (vp_fid vp) s ->
  seg_inv reg live next rd (vp_fid vp) (segment_DecrRef s) /\
  seg_contents (segment_DecrRef s) = seg_contents s /\ sg_cipher (segment_DecrRef s) = sg_cipher s /\
  (vp_fid vp ∈ live -> sg_writeClosed (segment_DecrRef s) = sg_writeClosed s).
Proof.
  intros [Hf Hr Hc Ho Hb Hcl Hrefs Hl Hd Hop]. rewrite pins_cons_eq in Hrefs. unfold segment_DecrRef.
  assert (sg_closed s = false) as Hnc.
  { destruct (sg_closed s); [|done]. specialize (Hcl eq_refl). destruct (decide (vp_fid vp ∈ live)) as [Hi|Hi].
    - destruct (Hl Hi). congruence.
    - destruct (Hd Hi) as [_ [_ H]]. specialize (H Hcl). lia. }
  cbn [seg_pins sg_refs sg_removePending]. destruct ((sg_refs s - 1 =? 0) && sg_removePending s) eqn:E; bool_prop.
  - unfold removeFile. cbn [seg_pins sg_removed]. assert (vp_fid vp ∉ live) as Hn by (intros Hi; destruct (Hl Hi); congruence).
    destruct (Hd Hn) as [Hp [_ Hrm]]. destruct (sg_removed s) eqn:Er; [specialize (Hrm eq_refl); lia|].
    unfold segment_close. cbn [seg_pins sg_closed]. rewrite Hnc.
    set (s' := seg_close _ true true). assert (seg_contents s' = seg_contents s) as Hcs by apply app_nil_r.
    split; [|by split_and!]. unfold s' in *. clear s'. split; try done; rewrite ?Hcs; try done.
    cbn [seg_close seg_flush seg_data seg_pins sg_refs]. lia.
  - split; [|done]. split; try done; cbn [seg_pins sg_refs sg_removePending sg_removed]; [lia|].
    intros Hn. destruct (Hd Hn) as [Hp Hrm]. split; [done|]. rewrite Hp, andb_true_r in E. bool_prop.
    split; [lia|]. intros H. apply Hrm in H. lia.
Qed.

(** *** Opening a segment *)

(** The registry can serve the key it seals with. *)
Definition registry_ok (reg : option KeyRegistry) : Prop :=
  match reg with
  | None => True
  | Some kr => GetKey kr (ActiveKey kr).1 = Some (ActiveKey kr).2 /\ is_u64 (ActiveKey kr).1
  end.

Definition iv_ok (iv : bytes) : Prop := wf_bytes iv /\ length iv = 16%nat.

Lemma openSegment_existing f fid maxSize reg iv s :
  openSegment f fid maxSize reg iv = Some s -> f <> [] ->
  s = mkSegment fid (sg_cipher s) f [] (Z.of_nat (length f)) maxSize false false 0 false false /\
  opens_as reg f (sg_cipher s).
Proof.
  intros Ho Hne. unfold opens_as, openSegment in *. destruct f as [|b f]; [done|]. set (g := b :: f) in *. cbv zeta in *.
  destruct (Nat.ltb_spec (length g) segmentHeaderSize); [done|]. destruct (_ && _).
  - destruct (_ <? _)%nat; [done|]. destruct reg as [kr|]; [|done]. destruct (GetKey _ _); [|done]. injection Ho as <-. done.
  - by injection Ho as <-.
Qed.

Lemma encSegmentHeader_opens kr c :
  GetKey kr (wc_keyID c) = Some (wc_key c) -> is_u64 (wc_keyID c) -> iv_ok (wc_baseIV c) ->
  opens_as (Some kr) (encSegmentHeader c) (Some c).
Proof.
  intros Hg Hid [_ Hl]. destruct c as [key iv id]; cbn [wc_keyID wc_key wc_baseIV] in *.
  set (h := encSegmentHeader _).
  assert (length h = 32%nat) as Hlen by (unfold h, encSegmentHeader; cbn [wc_keyID wc_baseIV]; rewrite !length_app, !length_be_encode; lia).
  assert (slice h 0 4 = be_encode 4 segmentMagic /\ slice h 4 8 = be_encode 4 segmentVersionEncrypt /\
    slice h 8 16 = be_encode 8 id /\ slice h 16 32 = iv) as (E1 & E2 & E3 & E4).
  { split_and!; try done. unfold h, encSegmentHeader. cbn [wc_keyID wc_baseIV].
    rewrite !app_assoc. rewrite slice_app_drop by (rewrite !length_app, !length_be_encode; lia).
    rewrite !length_app, !length_be_encode. apply slice_all. lia. }
  split; [unfold segmentHeaderSize; lia|]. intros fid maxSize iv'. unfold openSegment.
  destruct h as [|b h'] eqn:Eh; [done|]. rewrite <- Eh in *. clear h' Eh. cbv zeta. rewrite Hlen.
  change ((32 <? segmentHeaderSize)%nat) with false. change ((32 <? encSegmentHeaderSize)%nat) with false.
  rewrite E1, E2, E3, E4, (be_decode_encode_id 8) by (change (256 ^ Z.of_nat 8) with (2 ^ 64); exact Hid).
  change (be_decode (be_encode 4 segmentMagic)) with segmentMagic.
  change (be_decode (be_encode 4 segmentVersionEncrypt)) with segmentVersionEncrypt.
  rewrite !Z.eqb_refl. cbn [andb]. by rewrite Hg.
Qed.

Lemma segmentHeader_opens reg : opens_as reg segmentHeader None.
Proof. split; [by apply Nat.leb_le|done]. Qed.

(** A segment that has just been opened satisfies the invariant. *)
Lemma openSegment_inv f fid maxSize reg iv s live next rd :
  openSegment f fid maxSize reg iv = Some s -> registry_ok reg -> iv_ok iv -> file_ok reg f ->
  0 <= fid <= next -> fid ∈ live -> pins fid rd = 0%nat ->
  seg_inv reg live next rd fid s /\ sg_writeClosed s = false /\ Z.of_nat (length (seg_contents s)) < 2 ^ 61 /\
  sg_maxSize s = maxSize.
Proof.
  intros Ho Hreg Hiv [Hlen Hck] Hfid Hlive Hp. destruct (decide (f = [])) as [->|Hne].
  - unfold openSegment in Ho. destruct reg as [kr|]; injection Ho as <-.
    + destruct Hreg as [Hg Hid]. set (c := mkWalCipher _ _ _).
      pose proof (encSegmentHeader_opens kr c Hg Hid Hiv) as Hop.
      assert (length (encSegmentHeader c) = 32%nat) as Hl.
      { unfold encSegmentHeader, c. cbn [wc_keyID wc_baseIV]. destruct Hiv as [_ Hl].
        rewrite !length_app, !length_be_encode, Hl. done. }
      split; [|unfold seg_contents; cbn [sg_file sg_buf app]; rewrite Hl; by split_and!].
      split; try done; unfold seg_contents; cbn [sg_file sg_buf app sg_offset sg_refs]; rewrite ?Hl, ?Hp; done.
    + split; [|by split_and!]. split; try done; cbn [sg_refs]; by rewrite ?Hp.
  - pose proof (Hck _ _ _ _ Ho Hne) as Hc. destruct (openSegment_existing _ _ _ _ _ _ Ho Hne) as [-> Hop].
    cbn [sg_cipher] in *. unfold seg_contents. cbn [sg_file sg_buf sg_writeClosed sg_maxSize]. rewrite app_nil_r.
    split; [|done]. split; try done; unfold seg_contents; cbn [sg_file sg_buf sg_offset sg_refs sg_cipher]; by rewrite ?app_nil_r, ?Hp.
Qed.

(** *** Rotation and writing *)

Definition roomy (vl : ValueLog) : Prop :=
  vl_nextFid vl + 1 < 2 ^ 32 /\ forall fid s, vl_heap vl !! fid = Some s -> Z.of_nat (length (seg_contents s)) < 2 ^ 61.

Lemma active_segment reg vl rd iss :
  vlog_inv reg vl rd iss -> exists s, vl_heap vl !! vl_active vl = Some s /\ sg_closed s = false /\ sg_writeClosed s = false.
Proof.
  intros Hi. destruct (vi_active _ _ _ _ Hi) as [_ Ha]. destruct (vi_live _ _ _ _ Hi _ Ha) as [s Hs]. exists s.
  split; [done|]. split; [|by apply (vi_open _ _ _ _ Hi)]. pose proof (vi_segs _ _ _ _ Hi _ _ Hs) as Hv.
  destruct (sg_closed s) eqn:E; [|done]. apply (si_closed _ _ _ _ _ _ Hv) in E.
  destruct (si_live _ _ _ _ _ _ Hv Ha). congruence.
Qed.

Lemma pins_zero fid rd : (forall vp, vp ∈ rd -> vp_fid vp <> fid) -> pins fid rd = 0%nat.
Proof. intros H. unfold pins. by rewrite filter_none. Qed.

Lemma file_ok_nil reg : file_ok reg [].
Proof. by split. Qed.

(** Adding a freshly opened segment under a new number and making it the
    active one. *)
Lemma inv_add reg vl rd iss old fid s live' next' files' :
  vlog_inv reg vl rd iss -> vl_heap vl !! vl_active vl = Some old -> vl_active vl < fid ->
  seg_inv reg live' fid rd fid s -> sg_writeClosed s = false -> live' = {[fid]} ∪ vl_live vl -> fid <= next' ->
  files' = delete fid (vl_files vl) ->
  vlog_inv reg (mkValueLog (<[vl_active vl := closeForWrite (seg_flush old)]> (<[fid := s]> (<[vl_active vl := seg_flush old]>
    (vl_heap vl)))) live' (vl_maxSize vl) (vl_reg vl) next' fid files') rd iss.
Proof.
  intros Hi Hold Hlt Hseg Hw -> Hnext ->. set (a := vl_active vl) in *.
  pose proof (vi_segs _ _ _ _ Hi) as Hsegs.
  destruct (seg_inv_closeForWrite _ _ _ _ _ _ (seg_inv_flush _ _ _ _ _ _ (Hsegs _ _ Hold))) as [Hcl Hcon].
  rewrite contents_flush in Hcon. set (old' := closeForWrite (seg_flush old)) in *.
  assert (forall f t, <[a:=old']> (<[fid:=s]> (<[a:=seg_flush old]> (vl_heap vl))) !! f = Some t ->
    (f = fid /\ t = s) \/ (f <> fid /\ seg_inv reg (vl_live vl) a rd f t /\
      exists t0, vl_heap vl !! f = Some t0 /\ seg_contents t = seg_contents t0 /\ sg_cipher t = sg_cipher t0)) as Hcase.
  { intros f t [[<- <-]|[Ha Ht]]%lookup_insert_Some.
    { right. split; [lia|]. split; [done|]. exists old. split_and!; [done|done|exact (closeForWrite_cipher (seg_flush old))]. }
    apply lookup_insert_Some in Ht as [[<- <-]|[Hf Ht]]; [by left|]. rewrite lookup_insert_ne in Ht by done.
    right. split; [done|]. split; [by apply Hsegs|]. by exists t. }
  assert (forall f, is_Some (vl_heap vl !! f) -> exists t, <[a:=old']> (<[fid:=s]> (<[a:=seg_flush old]> (vl_heap vl))) !! f = Some t) as Hdom.
  { intros f [t Ht]. destruct (decide (a = f)) as [->|?]; [by eexists; apply lookup_insert_eq|]. rewrite lookup_insert_ne by done.
    destruct (decide (fid = f)) as [->|?]; [by eexists; apply lookup_insert_eq|]. rewrite !lookup_insert_ne by done. by exists t. }
  assert (a <> fid) as Hne by lia.
  split; cbn [vl_heap vl_live vl_reg vl_nextFid vl_active vl_files].
  - apply Hi.
  - split; [done|set_solver].
  - rewrite lookup_insert_ne, lookup_insert_eq by done. by intros ? [= <-].
  - intros f [->%elem_of_singleton|Hf]%elem_of_union.
    + rewrite lookup_insert_ne, lookup_insert_eq by done. by eexists.
    + apply Hdom. destruct (vi_live _ _ _ _ Hi f Hf) as [t Ht]. by rewrite Ht.
  - intros f t [[-> ->]|(Hf & [] & _)]%Hcase; [done|]. split; try done; [lia|..]; intros H; [apply si_live0|apply si_dead0]; set_solver.
  - intros vp Hv. apply Hdom. destruct (vi_readers _ _ _ _ Hi vp Hv) as [t Ht]. by rewrite Ht.
  - intros f c [Hne' Hf]%lookup_delete_Some. destruct (vi_files _ _ _ _ Hi f c Hf) as [? Hn]. split; [done|].
    rewrite !lookup_insert_ne by congruence. done.
  - intros vp v Hv. destruct (vi_issued _ _ _ _ Hi vp v Hv) as (Hr & Hnf & Hpt). fold a in Hr. split; [lia|].
    split; [by rewrite lookup_delete_ne by lia|].
    intros t [[? ->]|(Hf & _ & t0 & Ht0 & Hc & Hk)]%Hcase; [lia|].
    apply (points_to_extend t0 t vp v []); [by rewrite Hc, app_nil_r|done|by apply Hpt].
Qed.

(** A rotation that fails leaves the active segment, flushed. *)
Lemma inv_flush_active reg vl rd iss old next' :
  vlog_inv reg vl rd iss -> vl_heap vl !! vl_active vl = Some old -> vl_active vl <= next' ->
  vlog_inv reg (mkValueLog (<[vl_active vl := seg_flush old]> (vl_heap vl)) (vl_live vl) (vl_maxSize vl) (vl_reg vl)
    next' (vl_active vl) (vl_files vl)) rd iss.
Proof.
  intros Hi Hs Hn. pose proof (inv_set reg vl rd rd iss (vl_active vl) old (seg_flush old) [] Hi Hs) as H.
  destruct H as [H1 H2 H3 H4 H5 H6 H7 H8]; [done|by rewrite contents_flush, app_nil_r|done| | | |].
  - apply seg_inv_flush. by apply (vi_segs _ _ _ _ Hi).
  - auto.
  - intros _. exact (vi_open _ _ _ _ Hi old Hs).
  - split; try done. split; [done|apply H2].
Qed.

Lemma rotate_inv reg vl rd iss iv :
  vlog_inv reg vl rd iss -> registry_ok reg -> iv_ok iv -> roomy vl ->
  let '(r, vl') := rotateLocked vl iv in
  vlog_inv reg vl' rd iss /\
  (r = Some tt -> exists s, vl_heap vl' !! vl_active vl' = Some s /\ Z.of_nat (length (seg_contents s)) < 2 ^ 61).
Proof.
  intros Hi Hreg Hiv [Hroom _]. destruct (active_segment _ _ _ _ Hi) as (old & Hold & Hcl & _).
  pose proof (vi_active _ _ _ _ Hi) as [Hle Ha]. pose proof (si_range _ _ _ _ _ _ (vi_segs _ _ _ _ Hi _ _ Hold)) as H0.
  unfold rotateLocked. rewrite Hold. cbn [mbind option_bind]. unfold segment_sync. rewrite Hcl.
  rewrite u32_id by (unfold is_u32; lia). set (fid := vl_nextFid vl + 1).
  destruct (openSegment _ _ _ _ _) as [s|] eqn:Ho; [|split; [|done]; by apply inv_flush_active; [done|done|lia]].
  rewrite (vi_reg _ _ _ _ Hi) in Ho.
  destruct (openSegment_inv _ _ _ _ _ _ ({[fid]} ∪ vl_live vl) fid rd Ho) as (Hseg & Hw & Hlen & _); try done.
  - destruct (vl_files vl !! fid) as [f|] eqn:Ef; [by eapply (vi_files _ _ _ _ Hi)|apply file_ok_nil].
  - lia.
  - set_solver.
  - apply pins_zero. intros vp Hvp E. destruct (vi_readers _ _ _ _ Hi vp Hvp) as [t Ht].
    pose proof (si_range _ _ _ _ _ _ (vi_segs _ _ _ _ Hi _ _ Ht)). lia.
  - split.
    + by apply inv_add; try done; lia.
    + intros _. exists s. cbn [vl_heap vl_active]. split; [|done]. rewrite lookup_insert_ne by lia. apply lookup_insert_eq.
Qed.

(** Appending an entry: the pointer refers to the value. *)
Lemma writeEntry_spec reg live top rd fid s e :
  seg_inv reg live top rd fid s -> sg_closed s = false -> sg_writeClosed s = false -> ventry_ok e ->
  Z.of_nat (length (seg_contents s)) < 2 ^ 61 ->
  exists off s' x, writeEntry aesEncrypt s e = Some (off, s') /\ is_u64 off /\
    seg_contents s' = seg_contents s ++ x /\ sg_cipher s' = sg_cipher s /\ sg_writeClosed s' = false /\
    seg_inv reg live top rd fid s' /\ points_to s' (mkValuePointer fid off (Z.of_nat (length (ve_value e)))) (ve_value e).
Proof.
  intros Hs Hc Hw He Hlen. unfold writeEntry. rewrite Hc, Hw. cbn [orb]. set (o := sg_offset s).
  assert (o = Z.of_nat (length (seg_contents s))) as Ho by apply Hs. pose proof (vo_klen _ He). pose proof (vo_vlen _ He).
  destruct (encodeValueEntry_pieces (sg_cipher s) o e) as (ev & crc & E & _ & _ & Hl & Hev); [apply Hs|done|lia|].
  set (enc := encodeValueEntry aesEncrypt (sg_cipher s) o e) in *. change (Z.of_nat entryHeaderSize) with 17.
  set (s' := seg_data _ _ _ _). assert (seg_contents s' = seg_contents s ++ enc) as Hcon by apply app_assoc.
  set (hdr := entryHeader _ _ _ _) in *. assert (length hdr = 17%nat) as Hh by done.
  exists (o + 17 + Z.of_nat (length (ve_key e))), s', enc. split; [done|]. split; [unfold is_u64; lia|].
  split; [done|]. split; [done|]. split; [done|]. split.
  - destruct Hs. split; try done.
    + cbn [s' seg_data sg_offset]. rewrite Hcon, length_app. lia.
    + intros Hw'. change (sg_writeClosed s = true) in Hw'. congruence.
    + rewrite Hcon. by apply opens_as_app.
  - unfold points_to. cbn [vp_size vp_offset]. split; [done|]. split; [lia|].
    assert (seg_contents s' = (seg_contents s ++ hdr ++ ve_key e) ++ ev ++ be_encode 4 crc) as Hcs.
    { rewrite Hcon, E. by rewrite <- !app_assoc. }
    split; [rewrite Hcs, !length_app, Hh; lia|]. rewrite Hcs. rewrite slice_mid; [exact Hev|..];
      rewrite !length_app, Hh; lia.
Qed.

Lemma write_inv reg vl rd iss iv e :
  vlog_inv reg vl rd iss -> registry_ok reg -> iv_ok iv -> roomy vl -> ventry_ok e ->
  let '(r, vl') := vlog_Write aesEncrypt vl e iv in
  vlog_inv reg vl' rd (match r with Some vp => (vp, ve_value e) :: iss | None => iss end).
Proof.
  intros Hi Hreg Hiv Hroom He. destruct (active_segment _ _ _ _ Hi) as (a & Ha & _).
  unfold vlog_Write. rewrite Ha.
  assert (exists r vl1, (if sg_maxSize a <=? sg_offset a then rotateLocked vl iv else (Some tt, vl)) = (r, vl1) /\
    vlog_inv reg vl1 rd iss /\
    (r = Some tt -> exists s, vl_heap vl1 !! vl_active vl1 = Some s /\ Z.of_nat (length (seg_contents s)) < 2 ^ 61))
    as (r & vl1 & -> & Hi1 & Hr).
  { case_if; [|exists (Some tt), vl; split; [done|]; split; [done|]; intros _; exists a; split; [done|by eapply (proj2 Hroom)]].
    pose proof (rotate_inv reg vl rd iss iv Hi Hreg Hiv Hroom) as H1. destruct (rotateLocked vl iv) as [r vl1]. by exists r, vl1. }
  destruct r as [[]|]; [|done]. destruct (Hr eq_refl) as (s & Hs & Hlen). rewrite Hs.
  pose proof (vi_segs _ _ _ _ Hi1 _ _ Hs) as Hseg. destruct (active_segment _ _ _ _ Hi1) as (s0 & Hs0 & Hc & Hw).
  rewrite Hs in Hs0. injection Hs0 as <-.
  destruct (writeEntry_spec _ _ _ _ _ _ e Hseg Hc Hw He Hlen) as (off & s' & x & -> & Hu & Hcon & Hk & Hw' & Hseg' & Hpt).
  rewrite (si_fid _ _ _ _ _ _ Hseg), u64_id by done. pose proof (vo_vlen _ He).
  rewrite u32_id by (unfold is_u32; lia).
  assert (vlog_inv reg (vl_set vl1 (vl_active vl1) s') rd iss) as [H1 H2 H3 H4 H5 H6 H7 H8].
  { by apply (inv_set reg vl1 rd rd iss _ s s' x); auto. }
  split; try done. intros vp v [[= -> ->]|Hv]%elem_of_cons; [|by apply H8]. cbn [vp_fid vl_set vl_files vl_heap]. split; [apply Hseg|].
  split; [by destruct (vl_files vl1 !! _) eqn:Ef; [destruct (vi_files _ _ _ _ Hi1 _ _ Ef); congruence|]|]. rewrite lookup_insert_eq. by intros ? [= <-].
Qed.

(** *** Reading, deleting *)

Lemma readValue_seg s o n :
  let '(_, s') := readValue aesEncrypt s o n in s' = s \/ (s' = seg_flush s /\ sg_closed s = false).
Proof.
  unfold readValue. destruct (_ =? 0); [by left|]. destruct (sg_closed s); [by left|].
  destruct (sg_writeClosed s); (destruct (_ || _); [auto|auto]).
Qed.

Lemma readValue_points_to reg live top rd fid s vp v :
  seg_inv reg live top rd fid s -> sg_closed s = false -> points_to s vp v ->
  (readValue aesEncrypt s (vp_offset vp) (vp_size vp)).1 = Some v.
Proof.
  intros Hs Hc (Hsz & Ho & Hl & Hv). unfold readValue. rewrite Hc.
  destruct (vp_size vp =? 0) eqn:Ez; bool_prop; [by destruct v; [|simpl in Hsz; lia]|].
  assert (sg_file (if sg_writeClosed s then s else seg_flush s) = seg_contents s) as Hf.
  { destruct (sg_writeClosed s) eqn:Ew; [|done]. unfold seg_contents. by rewrite (si_buf _ _ _ _ _ _ Hs Ew), app_nil_r. }
  assert (sg_cipher (if sg_writeClosed s then s else seg_flush s) = sg_cipher s) as Hk by by destruct (sg_writeClosed s).
  rewrite Hf, Hk, i64_id by (unfold is_i64; lia).
  rewrite (proj2 (Z.ltb_ge _ _)), (proj2 (Z.ltb_ge (Z.of_nat _) _)) by lia. cbn [orb fst]. by rewrite Hv.
Qed.

(** A segment that is in the map, or pinned, has not been closed. *)
Lemma held_open reg vl rd iss fid s :
  vlog_inv reg vl rd iss -> vl_heap vl !! fid = Some s -> fid ∈ vl_live vl \/ (0 < pins fid rd)%nat -> sg_closed s = false.
Proof.
  intros Hi Hs Hh. pose proof (vi_segs _ _ _ _ Hi _ _ Hs) as Hv. destruct (sg_closed s) eqn:E; [|done].
  apply (si_closed _ _ _ _ _ _ Hv) in E. destruct (decide (fid ∈ vl_live vl)) as [Hl|Hl].
  - destruct (si_live _ _ _ _ _ _ Hv Hl). congruence.
  - destruct Hh as [?|Hp]; [done|]. destruct (si_dead _ _ _ _ _ _ Hv Hl) as [_ [_ H]]. specialize (H E).
    rewrite (si_refs _ _ _ _ _ _ Hv) in H. lia.
Qed.

Lemma pin_inv reg vl rd iss vp vl' :
  vlog_inv reg vl rd iss -> pinSegment vl (vp_fid vp) = Some vl' -> vlog_inv reg vl' (vp :: rd) iss.
Proof.
  intros Hi Hp. unfold pinSegment in Hp. case_bool_decide as Hl; [|done]. destruct (_ !! _) as [s|] eqn:Hs; [|done].
  injection Hp as <-. apply (inv_set reg vl rd (vp :: rd) iss (vp_fid vp) s (segment_IncrRef s) []); try done.
  - intros f Hf. by apply pins_cons_ne.
  - by rewrite app_nil_r.
  - apply seg_inv_pin; [done|]. by apply (vi_segs _ _ _ _ Hi).
  - intros vp' [->|?]%elem_of_cons; auto.
  - intros E. rewrite E in Hs. exact (vi_open _ _ _ _ Hi s Hs).
Qed.

Lemma inv_perm reg vl rd rd' iss : rd ≡ₚ rd' -> vlog_inv reg vl rd iss -> vlog_inv reg vl rd' iss.
Proof.
  intros Hp [H1 H2 H3 H4 H5 H6 H7 H8]. split; try done.
  - intros fid s Hs. destruct (H5 fid s Hs). split; try done. by rewrite <- (pins_perm fid rd rd').
  - intros vp. rewrite <- Hp. apply H6.
Qed.

Lemma readPinned_inv reg vl rd iss vp :
  vlog_inv reg vl (vp :: rd) iss ->
  vlog_inv reg (readPinned aesEncrypt vl vp).2 rd iss /\
  forall v, (vp, v) ∈ iss -> (readPinned aesEncrypt vl vp).1 = Some v.
Proof.
  intros Hi. unfold readPinned. destruct (vi_readers _ _ _ _ Hi vp) as [s Hs]; [by left|]. rewrite Hs.
  pose proof (vi_segs _ _ _ _ Hi _ _ Hs) as Hseg.
  assert (sg_closed s = false) as Hc by (apply (held_open reg vl (vp :: rd) iss (vp_fid vp)); [done|done|right; rewrite pins_cons_eq; lia]).
  pose proof (readValue_seg s (vp_offset vp) (vp_size vp)) as Hr.
  pose proof (fun v => readValue_points_to _ _ _ _ _ s vp v Hseg Hc) as Hv.
  destruct (readValue aesEncrypt s _ _) as [res s'].
  assert (seg_inv reg (vl_live vl) (vl_active vl) (vp :: rd) (vp_fid vp) s' /\ seg_contents s' = seg_contents s /\
    sg_cipher s' = sg_cipher s /\ sg_writeClosed s' = sg_writeClosed s) as (Hseg' & Hcon & Hk & Hw).
  { destruct Hr as [->|[-> _]]; [done|]. split; [by apply seg_inv_flush|]. by split; [apply contents_flush|]. }
  destruct (seg_inv_unpin _ _ _ _ _ _ Hseg') as (Hseg2 & Hcon2 & Hk2 & Hw2). split.
  - apply (inv_set reg vl (vp :: rd) rd iss (vp_fid vp) s (segment_DecrRef s') []); try done.
    + intros f Hf. by rewrite pins_cons_ne.
    + by rewrite Hcon2, Hcon, app_nil_r.
    + by rewrite Hk2, Hk.
    + intros vp' ?. left. by right.
    + intros E. rewrite Hw2, Hw by (rewrite E; apply Hi). rewrite E in Hs. exact (vi_open _ _ _ _ Hi s Hs).
  - intros v Hin. apply Hv. by apply (vi_issued _ _ _ _ Hi vp v Hin).
Qed.

Lemma markRemove_seg reg live top rd fid s :
  seg_inv reg live top rd fid s -> fid ∈ live ->
  seg_inv reg (live ∖ {[fid]}) top rd fid (markRemove s) /\ seg_contents (markRemove s) = seg_contents s /\
  sg_cipher (markRemove s) = sg_cipher s.
Proof.
  intros [Hf Hr Hc Ho Hb Hcl Hrefs Hl Hd Hop] Hlive. destruct (Hl Hlive) as [Hp Hrm].
  assert (sg_closed s = false) as Hnc by (destruct (sg_closed s); [specialize (Hcl eq_refl); congruence|done]).
  unfold markRemove. cbn [seg_pins sg_refs]. destruct (0 <? sg_refs s) eqn:E; bool_prop.
  - split; [|done]. split; try done; [set_solver|]. intros _. cbn [seg_pins sg_refs sg_removed]. split; [done|].
    split; intros; [lia|congruence].
  - unfold removeFile. cbn [seg_pins sg_removed]. rewrite Hrm. unfold segment_close. cbn [seg_pins sg_closed]. rewrite Hnc.
    set (s' := seg_close _ true true). assert (seg_contents s' = seg_contents s) as Hcs by apply app_nil_r.
    split; [|done]. unfold s' in *. clear s'. split; try done; rewrite ?Hcs; try done; [set_solver|].
    intros _. split; [done|]. split; [done|]. intros _. cbn [seg_close seg_flush seg_data seg_pins sg_refs]. lia.
Qed.

Lemma delete_inv reg vl rd iss fid :
  vlog_inv reg vl rd iss -> vlog_inv reg (DeleteSegment vl fid).2 rd iss.
Proof.
  intros Hi. unfold DeleteSegment. destruct (_ =? _) eqn:Ea; bool_prop; [done|]. case_bool_decide as Hl; [|done].
  destruct (vl_heap vl !! fid) as [s|] eqn:Hs; [|done]. cbn [snd].
  destruct (markRemove_seg _ _ _ _ _ _ (vi_segs _ _ _ _ Hi _ _ Hs) Hl) as (Hseg & Hcon & Hk).
  assert (forall f, is_Some (vl_heap vl !! f) -> exists t, <[fid := markRemove s]> (vl_heap vl) !! f = Some t) as Hdom.
  { intros f [t Ht]. destruct (decide (fid = f)) as [->|?]; [by eexists; apply lookup_insert_eq|].
    rewrite lookup_insert_ne by done. by exists t. }
  split; cbn [vl_heap vl_live vl_reg vl_nextFid vl_active vl_files].
  - apply Hi.
  - destruct (vi_active _ _ _ _ Hi). split; [done|set_solver].
  - rewrite lookup_insert_ne by congruence. apply Hi.
  - intros f Hf. apply Hdom. destruct (vi_live _ _ _ _ Hi f) as [t Ht]; [set_solver|]. by rewrite Ht.
  - intros f t [[<- <-]|[Hne Ht]]%lookup_insert_Some; [done|]. destruct (vi_segs _ _ _ _ Hi f t Ht) as [? ? ? ? ? ? ? Hli Hde ?].
    split; try done; intros Hx; [apply Hli|apply Hde]; set_solver.
  - intros vp Hv. apply Hdom. destruct (vi_readers _ _ _ _ Hi vp Hv) as [t Ht]. by rewrite Ht.
  - intros f c Hf. destruct (vi_files _ _ _ _ Hi f c Hf) as [? Hn]. split; [done|]. rewrite lookup_insert_ne; [done|congruence].
  - intros vp v Hv. destruct (vi_issued _ _ _ _ Hi vp v Hv) as (Hr & Hnf & Hpt). split; [done|]. split; [done|].
    intros t [[E <-]|[? Ht]]%lookup_insert_Some; [|by apply Hpt].
    apply (points_to_extend s (markRemove s) vp v []); [by rewrite Hcon, app_nil_r|done|]. apply Hpt. by rewrite <- E.
Qed.

Lemma segFlush_inv reg vl rd iss fid s :
  vlog_inv reg vl rd iss -> vl_heap vl !! fid = Some s -> vlog_inv reg (vl_set vl fid (seg_flush s)) rd iss.
Proof.
  intros Hi Hs. apply (inv_set reg vl rd rd iss fid s (seg_flush s) []); try done; auto.
  - apply seg_inv_flush. by apply (vi_segs _ _ _ _ Hi).
  - intros E. rewrite E in Hs. exact (vi_open _ _ _ _ Hi s Hs).
Qed.

Lemma vl_set_same vl fid s : vl_heap vl !! fid = Some s -> vl_set vl fid s = vl.
Proof. intros H. unfold vl_set. rewrite insert_id by done. by destruct vl. Qed.

Lemma sync_inv reg vl rd iss : vlog_inv reg vl rd iss -> vlog_inv reg (vlog_Sync vl) rd iss.
Proof.
  intros Hi. unfold vlog_Sync. destruct (active_segment _ _ _ _ Hi) as (s & Hs & Hc & _). rewrite Hs. cbn [mbind option_bind].
  unfold segment_sync. rewrite Hc. by apply segFlush_inv.
Qed.

Lemma recover_inv reg vl rd iss fid : vlog_inv reg vl rd iss -> vlog_inv reg (vlog_Recover aesEncrypt vl fid).2 rd iss.
Proof.
  intros Hi. unfold vlog_Recover. case_bool_decide; [|done]. destruct (vl_heap vl !! fid) as [s|] eqn:Hs; [|done]. cbn [snd].
  destruct (sg_writeClosed s); [by rewrite vl_set_same|by apply segFlush_inv].
Qed.

(** *** Restart *)

Lemma maxFid_spec segs : 0 <= maxFid segs /\ forall fid s, segs !! fid = Some s -> fid <= maxFid segs.
Proof.
  unfold maxFid. apply (map_fold_weak_ind (fun r m => 0 <= r /\ forall fid s, m !! fid = Some s -> fid <= r)).
  - split; [done|]. intros fid s H. by rewrite lookup_empty in H.
  - intros i x m r _ [H0 H]. split; [lia|]. intros fid s [[<- <-]|[_ Hs]]%lookup_insert_Some; [lia|].
    specialize (H fid s Hs). lia.
Qed.

Lemma maxFid_attained segs : maxFid segs = 0 \/ is_Some (segs !! maxFid segs).
Proof.
  unfold maxFid. apply (map_fold_weak_ind (fun r m => r = 0 \/ is_Some (m !! r))); [by left|].
  intros i x m r Hn H. destruct (Z.max_spec i r) as [[_ ->]|[_ ->]].
  - destruct H as [?|H]; [by left|]. right. destruct (decide (i = r)) as [->|?]; [by rewrite lookup_insert_eq|].
    by rewrite lookup_insert_ne.
  - right. by rewrite lookup_insert_eq.
Qed.

(** What the directory of a restart has to satisfy: numbers and sizes within
    the limits, and stored base IVs that are bytes. *)
Definition dir_ok (reg : option KeyRegistry) (dir : gmap Z bytes) : Prop :=
  forall fid f, dir !! fid = Some f -> 0 <= fid < 2 ^ 32 - 1 /\ file_ok reg f.

Lemma file_ok_wf reg f : wf_bytes f -> Z.of_nat (length f) < 2 ^ 61 -> file_ok reg f.
Proof.
  intros Hw Hl. split; [done|]. intros fid maxSize iv s Ho Hne. unfold openSegment in Ho. destruct f as [|b f]; [done|].
  set (g := b :: f) in *. destruct (_ <? _)%nat; [done|]. destruct (_ && _); [|by injection Ho as <-].
  destruct (Nat.ltb_spec (length g) encSegmentHeaderSize) as [|H32]; [done|]. destruct reg as [kr|]; [|done].
  destruct (GetKey _ _); [|done]. injection Ho as <-. cbn [sg_cipher cipher_ok wc_baseIV]. unfold encSegmentHeaderSize in H32.
  split; [|apply length_slice; lia]. unfold slice, wf_bytes. apply Forall_take, Forall_drop. done.
Qed.

Lemma openExisting_lookup dir maxSize reg ivs fid s :
  openExisting dir maxSize reg ivs !! fid = Some s <->
  exists f t, dir !! fid = Some f /\ openSegment f fid maxSize reg (ivs fid) = Some t /\ s = closeForWrite t.
Proof.
  unfold openExisting. rewrite map_lookup_imap. destruct (dir !! fid) as [f|]; cbn [mbind option_bind].
  - destruct (openSegment f fid maxSize reg (ivs fid)) as [t|] eqn:E; cbn [fmap option_fmap option_map]; split.
    + intros [= <-]. by exists f, t.
    + intros (f' & t' & [= <-] & ? & ->). congruence.
    + done.
    + intros (f' & t' & [= <-] & ? & ->). congruence.
  - split; [done|]. by intros (f & t & ? & _).
Qed.

(** Opening a directory establishes the invariant, and reports where each
    segment comes from. *)
Lemma open_inv dir maxSize reg ivs vl :
  openWithMaxSize dir maxSize reg ivs = Some vl -> dir_ok reg dir -> registry_ok reg -> (forall f, iv_ok (ivs f)) ->
  vlog_inv reg vl [] [] /\ vl_active vl = maxFid (openExisting dir maxSize reg ivs) + 1 /\
  (forall fid s, fid < vl_active vl -> vl_heap vl !! fid = Some s -> openExisting dir maxSize reg ivs !! fid = Some s) /\
  (forall fid f, vl_files vl !! fid = Some f -> dir !! fid = Some f /\ openExisting dir maxSize reg ivs !! fid = None) /\
  (forall fid, is_Some (openExisting dir maxSize reg ivs !! fid) -> fid ∈ vl_live vl).
Proof.
  intros Ho Hdir Hreg Hivs. unfold openWithMaxSize in Ho. set (segs := openExisting dir maxSize reg ivs) in *.
  destruct (maxFid_spec segs) as [Hm0 Hmax].
  assert (maxFid segs + 1 < 2 ^ 32) as Hlim.
  { destruct (maxFid_attained segs) as [->|[s Hs]]; [lia|]. unfold segs in Hs at 2. apply openExisting_lookup in Hs as (f & t & Hf & _).
    pose proof (proj1 (Hdir _ _ Hf)). fold segs in H. lia. }
  rewrite u32_id in Ho by (unfold is_u32; lia). set (next := maxFid segs + 1) in *.
  destruct (openSegment _ next _ _ _) as [a|] eqn:Ea; [|done]. injection Ho as <-. set (live := {[next]} ∪ dom segs).
  destruct (openSegment_inv _ _ _ _ _ _ live next [] Ea) as (Hseg & Hw & _); try done; [|lia|set_solver|].
  { destruct (dir !! next) as [f|] eqn:Ef; [by apply (Hdir _ _ Ef)|apply file_ok_nil]. }
  assert (forall fid s, <[next := a]> segs !! fid = Some s -> (fid = next /\ s = a) \/ (fid <= maxFid segs /\ segs !! fid = Some s)) as Hcase.
  { intros fid s [[<- <-]|[_ H]]%lookup_insert_Some; [by left|right]. split; [by eapply Hmax|done]. }
  cbn [vl_heap vl_live vl_files vl_active]. split; [|split; [done|split; [|split]]].
  - split; cbn [vl_heap vl_live vl_reg vl_nextFid vl_active vl_files]; try done.
    + split; [lia|set_solver].
    + rewrite lookup_insert_eq. by intros ? [= <-].
    + intros fid Hf. destruct (decide (next = fid)) as [->|Hne]; [by eexists; apply lookup_insert_eq|].
      rewrite lookup_insert_ne by done. apply elem_of_dom. set_solver.
    + intros fid s [[-> ->]|[Hle Hs]]%Hcase; [done|]. assert (fid ∈ live) as Hl by (apply elem_of_union_r, elem_of_dom; by eexists).
      apply openExisting_lookup in Hs as (f & t & Hf & Ht & ->). destruct (Hdir _ _ Hf) as [Hr Hok].
      destruct (openSegment_inv _ _ _ _ _ _ live next [] Ht) as (H & _); try done; [lia|]. by apply seg_inv_closeForWrite.
    + intros vp H. by apply not_elem_of_nil in H.
    + intros fid f [Hne [Hf Hn]%map_lookup_filter_Some]%lookup_delete_Some. split; [by apply (Hdir _ _ Hf)|].
      by rewrite lookup_insert_ne.
    + intros vp v H. by apply not_elem_of_nil in H.
  - intros fid s Hlt [[-> ->]|[Hle Hs]]%Hcase; [lia|done].
  - intros fid f [Hne [Hf Hn]%map_lookup_filter_Some]%lookup_delete_Some. done.
  - intros fid Hs. apply elem_of_union_r. by apply elem_of_dom.
Qed.

(** Closing writes out every segment of the map and leaves nothing of the
    deleted ones. *)
Lemma closedDir_lookup reg vl iss fid f :
  vlog_inv reg vl [] iss ->
  closedDir (vlog_Close vl) !! fid = Some f <->
  (exists s, fid ∈ vl_live vl /\ vl_heap vl !! fid = Some s /\ f = seg_contents s) \/ vl_files vl !! fid = Some f.
Proof.
  intros Hi. unfold closedDir, vlog_Close. cbn [vl_heap vl_files]. rewrite lookup_union, lookup_omap, map_lookup_imap.
  destruct (vl_heap vl !! fid) as [s|] eqn:Hs; cbn [mbind option_bind].
  - pose proof (vi_segs _ _ _ _ Hi _ _ Hs) as Hv.
    assert (vl_files vl !! fid = None) as Hnf.
    { destruct (vl_files vl !! fid) eqn:Ef; [|done]. destruct (vi_files _ _ _ _ Hi _ _ Ef). congruence. }
    rewrite Hnf, (right_id_L None (∪)). case_bool_decide as Hl.
    + destruct (si_live _ _ _ _ _ _ Hv Hl) as [_ Hrm].
      assert (sg_closed s = false) as Hc by (apply (held_open reg vl [] iss fid); auto).
      unfold segment_close. rewrite Hc. cbn [seg_close seg_flush seg_data sg_removed sg_file]. rewrite Hrm. fold (seg_contents s).
      split; [intros [= <-]; left; by exists s|]. intros [(s' & _ & [= <-] & ->)|?]; done.
    + destruct (si_dead _ _ _ _ _ _ Hv Hl) as [_ Hrm]. rewrite (proj1 Hrm) by (rewrite (si_refs _ _ _ _ _ _ Hv); done).
      split; [done|]. intros [(s' & ? & _)|?]; done.
  - rewrite (left_id_L None (∪)). split; [auto|]. intros [(s & _ & ? & _)|?]; done.
Qed.

Lemma restart_inv reg vl iss maxSize ivs vl' :
  vlog_inv reg vl [] iss -> registry_ok reg -> (forall f, iv_ok (ivs f)) ->
  (forall fid f, closedDir (vlog_Close vl) !! fid = Some f -> 0 <= fid < 2 ^ 32 - 1 /\ Z.of_nat (length f) < 2 ^ 61) ->
  openWithMaxSize (closedDir (vlog_Close vl)) maxSize reg ivs = Some vl' ->
  vlog_inv reg vl' [] iss /\ vl_live vl ⊆ vl_live vl'.
Proof.
  intros Hi Hreg Hivs Hlim Ho. set (dir := closedDir (vlog_Close vl)) in *.
  assert (forall fid f, dir !! fid = Some f <-> (exists s, fid ∈ vl_live vl /\ vl_heap vl !! fid = Some s /\ f = seg_contents s) \/
    vl_files vl !! fid = Some f) as Hdir by (intros; by apply (closedDir_lookup reg vl iss)).
  assert (dir_ok reg dir) as Hok.
  { intros fid f Hf. destruct (Hlim _ _ Hf) as [Hr Hl]. split; [done|].
    apply Hdir in Hf as [(s & Hlive & Hs & ->)|Hf]; [|by apply (vi_files _ _ _ _ Hi _ _ Hf)].
    pose proof (vi_segs _ _ _ _ Hi _ _ Hs) as Hv. split; [done|]. intros f' ms iv t Ht _.
    rewrite (proj2 (si_opens _ _ _ _ _ _ Hv)) in Ht. injection Ht as <-. apply Hv. }
  destruct (open_inv _ _ _ _ _ Ho Hok Hreg Hivs) as ([H1 H2 H3 H4 H5 H6 H7 _] & Ha & Hheap & Hfiles & Hlive').
  set (segs := openExisting dir maxSize reg ivs) in *.
  assert (forall fid, fid ∈ vl_live vl -> exists s, vl_heap vl !! fid = Some s /\
    segs !! fid = Some (closeForWrite (mkSegment fid (sg_cipher s) (seg_contents s) [] (Z.of_nat (length (seg_contents s))) maxSize
      false false 0 false false))) as Hsegs.
  { intros fid Hl. destruct (vi_live _ _ _ _ Hi fid Hl) as [s Hs]. exists s. split; [done|].
    apply openExisting_lookup. eexists (seg_contents s), _. split; [apply Hdir; left; by exists s|]. split; [|reflexivity].
    apply (si_opens _ _ _ _ _ _ (vi_segs _ _ _ _ Hi _ _ Hs)). }
  split; [|intros fid Hl; destruct (Hsegs fid Hl) as (s & _ & Hs); apply Hlive'; by eexists].
  split; try done. intros vp v Hv. destruct (vi_issued _ _ _ _ Hi vp v Hv) as (Hr & Hnf & Hpt).
  destruct (vi_active _ _ _ _ Hi) as [_ Hact]. destruct (Hsegs _ Hact) as (sa & _ & Hsa).
  pose proof (proj2 (maxFid_spec segs) _ _ Hsa) as Hge.
  assert (forall f, dir !! vp_fid vp = Some f -> vp_fid vp ∈ vl_live vl) as Hin.
  { intros f [(s & ? & _)|?]%Hdir; [done|congruence]. }
  split; [lia|]. split.
  - destruct (vl_files vl' !! vp_fid vp) as [f|] eqn:Ef; [|done]. destruct (Hfiles _ _ Ef) as [Hd Hn].
    destruct (Hsegs _ (Hin _ Hd)) as (s & _ & Hs). congruence.
  - intros t Ht. assert (segs !! vp_fid vp = Some t) as Hst by (apply Hheap; [lia|done]).
    assert (vp_fid vp ∈ vl_live vl) as Hl by (apply openExisting_lookup in Hst as (f & ? & Hf & _); by eapply Hin).
    destruct (Hsegs _ Hl) as (s & Hs & Hs'). rewrite Hst in Hs'. injection Hs' as ->.
    apply (points_to_extend s _ vp v []); [|by rewrite closeForWrite_cipher|by apply Hpt].
    rewrite app_nil_r. unfold closeForWrite, seg_contents. cbn. by rewrite !app_nil_r.
Qed.

(** ** The log under concurrent readers *)

(** The log, the reads under way, and every pointer [Write] returned with its
    value. *)
Record VState := mkVState { st_log : ValueLog; st_readers : list ValuePointer; st_issued : list (ValuePointer * bytes) }.

(** One step: a call, or one of the two halves of a read.  Numbers and sizes
    stay within their limits ([roomy]); a restart happens without readers. *)
Inductive vlog_step (reg : option KeyRegistry) : VState -> VState -> Prop :=
  | step_write vl rd iss e iv r vl' :
      roomy vl -> iv_ok iv -> ventry_ok e -> vlog_Write aesEncrypt vl e iv = (r, vl') ->
      vlog_step reg (mkVState vl rd iss)
        (mkVState vl' rd (match r with Some vp => (vp, ve_value e) :: iss | None => iss end))
  | step_rotate vl rd iss iv :
      roomy vl -> iv_ok iv -> vlog_step reg (mkVState vl rd iss) (mkVState (rotateLocked vl iv).2 rd iss)
  | step_sync vl rd iss : vlog_step reg (mkVState vl rd iss) (mkVState (vlog_Sync vl) rd iss)
  | step_pin vl rd iss vp vl' :
      pinSegment vl (vp_fid vp) = Some vl' -> vlog_step reg (mkVState vl rd iss) (mkVState vl' (vp :: rd) iss)
  | step_read vl rd1 vp rd2 iss :
      vlog_step reg (mkVState vl (rd1 ++ vp :: rd2) iss) (mkVState (readPinned aesEncrypt vl vp).2 (rd1 ++ rd2) iss)
  | step_delete vl rd iss fid : vlog_step reg (mkVState vl rd iss) (mkVState (DeleteSegment vl fid).2 rd iss)
  | step_recover vl rd iss fid : vlog_step reg (mkVState vl rd iss) (mkVState (vlog_Recover aesEncrypt vl fid).2 rd iss)
  | step_restart vl iss maxSize ivs vl' :
      (forall f, iv_ok (ivs f)) ->
      (forall fid f, closedDir (vlog_Close vl) !! fid = Some f -> 0 <= fid < 2 ^ 32 - 1 /\ Z.of_nat (length f) < 2 ^ 61) ->
      openWithMaxSize (closedDir (vlog_Close vl)) maxSize reg ivs = Some vl' ->
      vlog_step reg (mkVState vl [] iss) (mkVState vl' [] iss).

Definition st_inv (reg : option KeyRegistry) (st : VState) : Prop :=
  vlog_inv reg (st_log st) (st_readers st) (st_issued st).

Lemma vlog_step_inv reg st st' : registry_ok reg -> vlog_step reg st st' -> st_inv reg st -> st_inv reg st'.
Proof.
  unfold st_inv. intros Hreg Hst Hi. destruct Hst; cbn [st_log st_readers st_issued] in *.
  - pose proof (write_inv reg vl rd iss iv e Hi Hreg) as Hw. rewrite H2 in Hw. by apply Hw.
  - pose proof (rotate_inv reg vl rd iss iv Hi Hreg) as Hr. destruct (rotateLocked vl iv). by apply Hr.
  - by apply sync_inv.
  - by eapply pin_inv.
  - apply readPinned_inv. eapply inv_perm; [|exact Hi]. symmetry. apply Permutation_middle.
  - by apply delete_inv.
  - by apply recover_inv.
  - by eapply restart_inv.
Qed.

(** A write fails only when an unreadable file has the number of the segment
    it would rotate to. *)
Lemma Write_returns reg vl rd iss e iv :
  vlog_inv reg vl rd iss -> registry_ok reg -> iv_ok iv -> roomy vl -> ventry_ok e ->
  vl_files vl !! (vl_nextFid vl + 1) = None -> exists vp vl', vlog_Write aesEncrypt vl e iv = (Some vp, vl').
Proof.
  intros Hi Hreg Hiv Hroom He Hnone. destruct (active_segment _ _ _ _ Hi) as (a & Ha & Hc & Hw).
  pose proof (vi_segs _ _ _ _ Hi _ _ Ha) as Hseg. pose proof (rotate_inv reg vl rd iss iv Hi Hreg Hiv Hroom) as Hrot.
  unfold vlog_Write. rewrite Ha. destruct (sg_maxSize a <=? sg_offset a).
  - assert ((rotateLocked vl iv).1 = Some tt) as Hr.
    { unfold rotateLocked. rewrite Ha. cbn [mbind option_bind]. unfold segment_sync. rewrite Hc. pose proof (vi_active _ _ _ _ Hi).
      pose proof (si_range _ _ _ _ _ _ Hseg). rewrite u32_id by (unfold is_u32; destruct Hroom; lia). rewrite Hnone. cbn [default].
      by destruct (vl_reg vl). }
    destruct (rotateLocked vl iv) as [r vl1]. cbn [fst] in Hr. subst r. destruct Hrot as [Hi1 Hs].
    destruct (Hs eq_refl) as (s & Hs1 & Hlen). rewrite Hs1. destruct (active_segment _ _ _ _ Hi1) as (s0 & Hs0 & Hc0 & Hw0).
    rewrite Hs1 in Hs0. injection Hs0 as <-.
    destruct (writeEntry_spec _ _ _ _ _ _ e (vi_segs _ _ _ _ Hi1 _ _ Hs1) Hc0 Hw0 He Hlen) as (off & s' & x & -> & _). eauto.
  - rewrite Ha. destruct (writeEntry_spec _ _ _ _ _ _ e Hseg Hc Hw He) as (off & s' & x & -> & _); [by eapply (proj2 Hroom)|]. eauto.
Qed.

Definition dir_wf (dir : gmap Z bytes) : Prop :=
  forall fid f, dir !! fid = Some f -> 0 <= fid < 2 ^ 32 - 1 /\ wf_bytes f /\ Z.of_nat (length f) < 2 ^ 61.


(** [Recover] on a segment of which a crash left the first [n] bytes: the
    entries that lie completely within them, in order, decrypted, each with
    the offset a pointer to it carries. *)
Theorem recoverSegment_torn c hdr es n :
  cipher_ok c -> Forall ventry_ok es ->
  hdr = match c with None => segmentHeader | Some c => encSegmentHeader c end ->
  Z.of_nat (length hdr) + Z.of_nat (length (encodeFrames (vencodeAt c) (length hdr) es)) < 2 ^ 62 ->
  (length hdr <= n)%nat ->
  recoverSegment aesEncrypt c (take n (hdr ++ encodeFrames (vencodeAt c) (length hdr) es)) =
    Some (locateFrames (vencodeAt c) vlocateAt (length hdr) (fittingFrames (vencodeAt c) (length hdr) n es)).
Proof.
  intros Hc Hok Hh Hlim Hn. pose proof (vlog_format c Hc) as RF.
  assert (length hdr = seg_headerSize c) as Hl.
  { subst hdr. destruct c as [c|]; [|done]. destruct Hc as [_ Hl]. unfold encSegmentHeader. by rewrite !length_app, !length_be_encode, Hl. }
  assert (slice hdr 0 4 = be_encode 4 segmentMagic) as Hm by (subst hdr; by destruct c).
  assert (8 <= length hdr)%nat as H8 by (rewrite Hl; unfold seg_headerSize, segmentHeaderSize, encSegmentHeaderSize; destruct c; lia).
  set (body := encodeFrames _ _ _) in *. set (file := take n (hdr ++ body)).
  assert (length hdr <= length file)%nat as Hlf by (unfold file; rewrite length_take, length_app; lia).
  assert (slice file 0 4 = be_encode 4 segmentMagic) as Hmf.
  { unfold file. rewrite take_app_ge by lia. by rewrite slice_app_take by lia. }
  unfold recoverSegment. destruct file as [|b f] eqn:Ef; [simpl in Hlf; lia|]. rewrite <- Ef in *.
  rewrite (proj2 (Nat.ltb_ge _ _)) by (unfold segmentHeaderSize; lia). rewrite Hmf.
  change (be_decode (be_encode 4 segmentMagic)) with segmentMagic. rewrite Z.eqb_refl. cbn [negb].
  rewrite <- Hl, (proj2 (Nat.ltb_ge _ _)) by lia. unfold file, body.
  rewrite scanLoop_torn; [done|done|done|done|]. rewrite length_take, length_app. fold body. lia.
Qed.
End vlog_proofs.

Module VlogWitness.
Definition entry1 : ValueEntry := mkValueEntry 1 [107] [10; 20; 30] 0.
Definition kr : KeyRegistry := mkKeyRegistry [7] 1 {[1 := [9]]}.
Definition iv : bytes := replicate 16 255.
Definition vl0 : ValueLog := default (mkValueLog ∅ ∅ 0 None 0 0 ∅) (openWithMaxSize ∅ 64 (Some kr) (fun _ => iv)).
Definition written := vlog_Write WalWitness.cipher vl0 entry1 iv.
Definition vp1 : ValuePointer := default (mkValuePointer 0 0 0) written.1.
Definition pinned : ValueLog := default vl0 (pinSegment written.2 1).
Definition rotated : ValueLog := (rotateLocked pinned iv).2.
Definition deleted : ValueLog := (DeleteSegment rotated 1).2.

Lemma entry1_ok : ventry_ok entry1.
Proof. split; simpl; try (by unfold is_u8, is_i64); repeat constructor; lia. Qed.

Lemma iv16 : iv_ok iv.
Proof. split; [|done]. apply Forall_replicate. unfold is_u8. lia. Qed.

Lemma roomy_by_computation vl :
  (vl_nextFid vl + 1 <? 2 ^ 32) && bool_decide (map_Forall (fun _ s => Z.of_nat (length (seg_contents s)) < 2 ^ 61) (vl_heap vl)) = true ->
  roomy vl.
Proof. intros [H1 H2]%andb_prop. split; [by apply Z.ltb_lt|]. by apply bool_decide_eq_true in H2. Qed.

End VlogWitness.
