(* ===== verification/Encoding.v ===== *)
(** * Key encodings ([internal/encoding])

    Prefix extraction for the prefix filters and the order-preserving encoding
    of sorted-set scores.  A [float64] is its 64-bit pattern, as
    [math.Float64bits] gives it; [float_of_bits] reads the pattern as a
    specification float, so that the theorems compare with the numeric order
    of IEEE 754. *)

From Stdlib Require Import Floats.SpecFloat.
From S2P Require Import Prelude.

(** ** Prefixes *)

(** Bytes before the first NUL and after it. *)
Fixpoint cutNul (key : bytes) : option (bytes * bytes) :=
  match key with
  | [] => None
  | b :: k =>
      if b =? 0 then Some ([], k)
      else match cutNul k with None => None | Some (p, r) => Some (b :: p, r) end
  end.

(** [bytes.SplitN(key, 0, 3)], then the first two parts joined again. *)
Definition ExtractPrefix (key : bytes) : bytes :=
  match cutNul key with
  | None => key
  | Some (p1, rest) =>
      match cutNul rest with
      | None => p1 ++ [0] ++ rest
      | Some (p2, _) => p1 ++ [0] ++ p2
      end
  end.

(** ** Scores *)

Definition signBit : Z := 2 ^ 63.

(** The exponent is all ones and the fraction is not zero. *)
Definition isNaN (bits : Z) : bool :=
  (Z.land (Z.shiftr bits 52) 0x7FF =? 0x7FF) && negb (Z.land bits (2 ^ 52 - 1) =? 0).

(** [score == 0] and [score >= 0]. *)
Definition scoreIsZero (bits : Z) : bool := (bits =? 0) || (bits =? signBit).

Definition scoreNonNeg (bits : Z) : bool := negb (isNaN bits) && ((bits <? signBit) || scoreIsZero bits).

Definition EncodeScore (score : Z) : bytes :=
  let score := if scoreIsZero score then 0 else score in
  let bits := if scoreNonNeg score then Z.lxor score signBit else Z.lxor score max_u64 in
  be_encode 8 bits.

(** [None] is the panic of [Uint64] on a slice of fewer than 8 bytes. *)
Definition DecodeScore (b : bytes) : option Z :=
  if Nat.ltb (length b) 8 then None
  else
    let bits := be_decode (take 8 b) in
    Some (if negb (Z.land bits signBit =? 0) then Z.lxor bits signBit else Z.lxor bits max_u64).

Definition ZValKey (key member : bytes) : bytes := [122; 0] ++ key ++ [0; 118; 0] ++ member.

Definition ZScorePrefix (key : bytes) : bytes := [122; 0] ++ key ++ [0; 115; 0].

Definition ZScoreKey (key : bytes) (score : Z) (member : bytes) : bytes :=
  ([122; 0] ++ key ++ [0; 115; 0] ++ EncodeScore score) ++ [0] ++ member.

(** ** The numeric order *)

Definition float_of_bits (bits : Z) : spec_float :=
  let s := signBit <=? bits in
  let e := (bits / 2 ^ 52) mod 2 ^ 11 in
  let m := bits mod 2 ^ 52 in
  if e =? 0 then match m with Z.pos p => S754_finite s p (-1074) | _ => S754_zero s end
  else if e =? 2047 then (if m =? 0 then S754_infinity s else S754_nan)
  else match m + 2 ^ 52 with Z.pos p => S754_finite s p (e - 1075) | _ => S754_nan end.

(** Sign-magnitude patterns as integers: the order of the bit patterns. *)
Definition ordinal (bits : Z) : Z := if bits <? signBit then bits else - (bits - signBit).

Lemma lxor_signBit_small b : 0 <= b < signBit -> Z.lxor b signBit = b + signBit.
Proof.
  intros H. unfold signBit in *. rewrite <- Z.add_nocarry_lxor; [done|].
  rewrite Z.land_comm. apply Z.bits_inj'. intros i Hi. rewrite Z.bits_0, Z.land_spec.
  destruct (Z.eq_dec i 63) as [->|Hne].
  - rewrite Z.pow2_bits_true, andb_true_l by lia. apply Z.bits_above_log2; [lia|].
    destruct (Z.eq_dec b 0) as [->|]; [done|]. apply Z.log2_lt_pow2; lia.
  - by rewrite Z.pow2_bits_false by lia.
Qed.

Lemma lxor_signBit_big b : signBit <= b < 2 ^ 64 -> Z.lxor b signBit = b - signBit.
Proof.
  intros H. assert (b = Z.lxor (b - signBit) signBit) as E.
  { rewrite lxor_signBit_small by (unfold signBit in *; lia). lia. }
  rewrite E at 1. by rewrite Z.lxor_assoc, Z.lxor_nilpotent, Z.lxor_0_r.
Qed.

Lemma testbit_above b i : 0 <= b < 2 ^ 64 -> 64 <= i -> Z.testbit b i = false.
Proof.
  intros H Hi. destruct (Z.eq_dec b 0) as [->|]; [apply Z.bits_0|]. apply Z.bits_above_log2; [lia|].
  enough (Z.log2 b < 64) by lia. apply Z.log2_lt_pow2; lia.
Qed.

(** Complementing 64 bits. *)
Lemma lxor_max_u64 b : is_u64 b -> Z.lxor b max_u64 = max_u64 - b.
Proof.
  intros H. unfold is_u64, max_u64 in *. change (2 ^ 64 - 1) with (Z.ones 64).
  assert (Z.lxor b (Z.ones 64) = Z.ldiff (Z.ones 64) b) as ->.
  { apply Z.bits_inj'. intros i Hi. rewrite Z.lxor_spec, Z.ldiff_spec.
    destruct (Z.lt_ge_cases i 64) as [Hlt|Hge].
    - rewrite Z.ones_spec_low by lia. by destruct (Z.testbit b i).
    - rewrite Z.ones_spec_high by lia. rewrite xorb_false_r, andb_false_l.
      by apply testbit_above. }
  symmetry. apply Z.sub_nocarry_ldiff. apply Z.bits_inj'. intros i Hi. rewrite Z.bits_0, Z.ldiff_spec.
  destruct (Z.lt_ge_cases i 64) as [Hlt|Hge]; [rewrite Z.ones_spec_low by lia; by rewrite andb_false_r|].
  by rewrite testbit_above.
Qed.

(** The rank of a pattern: what [EncodeScore] writes, as a number. *)
Definition scoreRank (bits : Z) : Z :=
  if scoreIsZero bits then signBit
  else if bits <? signBit then bits + signBit else max_u64 - bits.

Lemma EncodeScore_rank bits :
  is_u64 bits -> isNaN bits = false -> EncodeScore bits = be_encode 8 (scoreRank bits).
Proof.
  intros Hb Hn. unfold EncodeScore, scoreRank. destruct (scoreIsZero bits) eqn:Ez.
  { cbv zeta. by vm_compute. }
  cbv zeta. unfold scoreNonNeg. rewrite Hn, Ez, orb_false_r. cbn [negb andb].
  destruct (Z.ltb_spec bits signBit).
  - by rewrite lxor_signBit_small by (unfold is_u64 in Hb; lia).
  - by rewrite lxor_max_u64.
Qed.

Lemma scoreRank_range bits : is_u64 bits -> 0 <= scoreRank bits < 2 ^ 64.
Proof.
  unfold is_u64, scoreRank, max_u64, signBit. intros H. repeat case_if; lia.
Qed.

(** Zero is one value; the order of the others is that of [ordinal]. *)
Lemma scoreRank_compare a b :
  is_u64 a -> is_u64 b -> (scoreRank a ?= scoreRank b) = (ordinal a ?= ordinal b).
Proof.
  unfold is_u64, scoreRank, ordinal, scoreIsZero, max_u64, signBit. intros Ha Hb.
  destruct (Z.eqb_spec a 0), (Z.eqb_spec a (2 ^ 63)), (Z.eqb_spec b 0), (Z.eqb_spec b (2 ^ 63));
    simpl orb; cbv iota; repeat case_if; try lia;
    match goal with |- (?x ?= ?y) = (?u ?= ?v) => destruct (Z.compare_spec x y), (Z.compare_spec u v); (reflexivity || lia) end.
Qed.

(** *** Finite floats *)

(** A non-zero finite pattern of magnitude [a]. *)
Lemma float_finite bits a s :
  is_u64 bits -> s = (signBit <=? bits) -> a = bits - (if s then signBit else 0) ->
  0 < a < 2047 * 2 ^ 52 ->
  exists p e, float_of_bits bits = S754_finite s p e /\ a = (e + 1074) * 2 ^ 52 + Z.pos p /\
    -1074 <= e /\ Z.pos p < 2 ^ 53 /\ (e = -1074 \/ 2 ^ 52 <= Z.pos p).
Proof.
  intros Hb Hs Ha Hr. unfold float_of_bits. rewrite <- Hs.
  assert ((bits / 2 ^ 52) mod 2 ^ 11 = a / 2 ^ 52 /\ bits mod 2 ^ 52 = a mod 2 ^ 52) as [He Hm].
  { assert (bits = a + (if s then 2048 else 0) * 2 ^ 52) as -> by (destruct s; unfold signBit in *; lia).
    rewrite Z.div_add, Z_mod_plus_full by lia. split; [|done].
    assert (0 <= a / 2 ^ 52 < 2048) by (split; [apply Z.div_pos; lia|apply Z.div_lt_upper_bound; lia]).
    destruct s; [|rewrite Z.add_0_r, Z.mod_small; lia].
    change (2 ^ 11) with 2048. rewrite <- (Z.mul_1_l 2048) at 1. rewrite Z_mod_plus_full. apply Z.mod_small. lia. }
  rewrite He, Hm. pose proof (Z.div_mod a (2 ^ 52) ltac:(lia)) as Hd.
  pose proof (Z.mod_pos_bound a (2 ^ 52) ltac:(lia)) as Hmb.
  assert (0 <= a / 2 ^ 52 < 2047) as Hq by (split; [apply Z.div_pos; lia|apply Z.div_lt_upper_bound; lia]).
  set (q := a / 2 ^ 52) in *. set (m := a mod 2 ^ 52) in *.
  destruct (Z.eqb_spec q 0) as [E|E].
  - destruct m as [|p|p] eqn:Em; [lia| |lia]. exists p, (-1074). split; [done|]. split; [lia|]. split; [lia|].
    split; [lia|by left].
  - destruct (Z.eqb_spec q 2047) as [|_]; [lia|]. destruct (m + 2 ^ 52) as [|p|p] eqn:Em; [lia| |lia].
    exists p, (q - 1075). split; [done|]. split; [lia|]. split; [lia|]. split; [lia|right; lia].
Qed.

Lemma finite_compare a1 p1 e1 a2 p2 e2 :
  a1 = (e1 + 1074) * 2 ^ 52 + Z.pos p1 -> a2 = (e2 + 1074) * 2 ^ 52 + Z.pos p2 ->
  -1074 <= e1 -> -1074 <= e2 -> Z.pos p1 < 2 ^ 53 -> Z.pos p2 < 2 ^ 53 ->
  (e1 = -1074 \/ 2 ^ 52 <= Z.pos p1) -> (e2 = -1074 \/ 2 ^ 52 <= Z.pos p2) ->
  match e1 ?= e2 with Lt => Lt | Gt => Gt | Eq => Pos.compare_cont Eq p1 p2 end = (a1 ?= a2).
Proof.
  intros. destruct (Z.compare_spec e1 e2) as [E|E|E].
  - subst e2. change (Pos.compare_cont Eq p1 p2) with (Z.pos p1 ?= Z.pos p2).
    destruct (Z.compare_spec (Z.pos p1) (Z.pos p2)), (Z.compare_spec a1 a2); (reflexivity || lia).
  - symmetry. apply Z.compare_lt_iff. lia.
  - symmetry. apply Z.compare_gt_iff. lia.
Qed.

Lemma isNaN_fields bits :
  isNaN bits = (((bits / 2 ^ 52) mod 2 ^ 11 =? 2047) && negb (bits mod 2 ^ 52 =? 0)).
Proof.
  unfold isNaN. change 0x7FF with (Z.ones 11). change (2 ^ 52 - 1) with (Z.ones 52).
  by rewrite !Z.land_ones, Z.shiftr_div_pow2 by lia.
Qed.

(** Sign, then magnitude: zero, infinite, or strictly between. *)
Lemma float_class bits s a :
  is_u64 bits -> isNaN bits = false -> s = (signBit <=? bits) -> a = bits - (if s then signBit else 0) ->
  (a = 0 /\ float_of_bits bits = S754_zero s) \/
  (a = 2047 * 2 ^ 52 /\ float_of_bits bits = S754_infinity s) \/
  0 < a < 2047 * 2 ^ 52.
Proof.
  intros Hb Hn Hs Ha. rewrite isNaN_fields in Hn. unfold is_u64, signBit in *.
  destruct (Z.leb_spec (2 ^ 63) bits) as [Hle|Hlt]; subst s.
  - destruct (Z.eq_dec a 0) as [E|E]; [left; replace bits with (2 ^ 63) by lia; split; [done|by vm_compute]|].
    destruct (Z.eq_dec a (2047 * 2 ^ 52)) as [E1|E1].
    { right; left. replace bits with (2 ^ 63 + 2047 * 2 ^ 52) by lia. split; [done|by vm_compute]. }
    right; right. destruct (Z.lt_ge_cases a (2047 * 2 ^ 52)) as [|Hge]; [lia|exfalso].
    replace bits with ((a - 2047 * 2 ^ 52) + 4095 * 2 ^ 52) in Hn by lia.
    rewrite Z.div_add, Z_mod_plus_full, Z.div_small, (Z.mod_small (a - _)) in Hn by lia.
    change ((0 + 4095) mod 2 ^ 11 =? 2047) with true in Hn. rewrite andb_true_l in Hn. bool_prop. lia.
  - destruct (Z.eq_dec a 0) as [E|E]; [left; replace bits with 0 by lia; split; [done|by vm_compute]|].
    destruct (Z.eq_dec a (2047 * 2 ^ 52)) as [E1|E1].
    { right; left. replace bits with (2047 * 2 ^ 52) by lia. split; [done|by vm_compute]. }
    right; right. destruct (Z.lt_ge_cases a (2047 * 2 ^ 52)) as [|Hge]; [lia|exfalso].
    replace bits with ((a - 2047 * 2 ^ 52) + 2047 * 2 ^ 52) in Hn by lia.
    rewrite Z.div_add, Z_mod_plus_full, Z.div_small, (Z.mod_small (a - _)) in Hn by lia.
    change ((0 + 2047) mod 2 ^ 11 =? 2047) with true in Hn. rewrite andb_true_l in Hn. bool_prop. lia.
Qed.

(** IEEE 754 comparison of two patterns is the comparison of their ordinals. *)
Lemma SFcompare_ordinal x y :
  is_u64 x -> is_u64 y -> isNaN x = false -> isNaN y = false ->
  SFcompare (float_of_bits x) (float_of_bits y) = Some (ordinal x ?= ordinal y).
Proof.
  intros Hx Hy Nx Ny.
  pose proof (float_class x _ _ Hx Nx eq_refl eq_refl) as Cx.
  pose proof (float_class y _ _ Hy Ny eq_refl eq_refl) as Cy.
  pose proof (float_finite x _ _ Hx eq_refl eq_refl) as Fx.
  pose proof (float_finite y _ _ Hy eq_refl eq_refl) as Fy.
  unfold ordinal, is_u64, signBit in *. rewrite (Z.ltb_antisym (2 ^ 63) x), (Z.ltb_antisym (2 ^ 63) y).
  destruct (Z.leb_spec (2 ^ 63) x), (Z.leb_spec (2 ^ 63) y); cbn [negb];
    destruct Cx as [[Ax Ex]|[[Ax Ex]|Ax]], Cy as [[Ay Ey]|[[Ay Ey]|Ay]];
    try (destruct (Fx Ax) as (p1 & e1 & Ex & V1 & L1 & B1 & D1));
    try (destruct (Fy Ay) as (p2 & e2 & Ey & V2 & L2 & B2 & D2)); rewrite Ex, Ey; cbn [SFcompare];
    f_equal; try (symmetry; (apply Z.compare_eq_iff || apply Z.compare_lt_iff || apply Z.compare_gt_iff); lia).
  - rewrite Z.compare_opp, (Z.compare_antisym (x - 2 ^ 63)), <- (finite_compare _ _ _ _ _ _ V1 V2) by done.
    destruct (e1 ?= e2); done.
  - replace x with (x - 0) by lia. replace y with (y - 0) by lia. by apply finite_compare.
Qed.

(** ** What the encodings promise *)

Lemma bytes_compare_app_eq (a b c d : bytes) :
  length a = length b ->
  bytes_compare (a ++ c) (b ++ d) = match bytes_compare a b with Eq => bytes_compare c d | r => r end.
Proof.
  revert b. induction a as [|x a IH]; intros [|y b] Hl; simplify_eq/=; [done|].
  destruct (x ?= y); [by apply IH|done..].
Qed.

Lemma EncodeScore_compare x y :
  is_u64 x -> is_u64 y -> isNaN x = false -> isNaN y = false ->
  SFcompare (float_of_bits x) (float_of_bits y) = Some (bytes_compare (EncodeScore x) (EncodeScore y)).
Proof.
  intros Hx Hy Nx Ny. rewrite SFcompare_ordinal, !EncodeScore_rank, bytes_compare_be, scoreRank_compare by
    (done || apply (scoreRank_range _ Hx) || apply (scoreRank_range _ Hy)). done.
Qed.

(** The score index of a sorted set is in score order: for scores that are
    not NaN the composite keys of one set compare as the scores do under IEEE
    754 (negative numbers, infinities, subnormals, and -0 equal to 0), and
    members of equal score compare by member. *)
Theorem ZScoreKey_order (key m1 m2 : bytes) (s1 s2 : Z) :
  is_u64 s1 -> is_u64 s2 -> isNaN s1 = false -> isNaN s2 = false ->
  Some (bytes_compare (ZScoreKey key s1 m1) (ZScoreKey key s2 m2)) =
    match SFcompare (float_of_bits s1) (float_of_bits s2) with
    | Some Eq => Some (bytes_compare m1 m2)
    | r => r
    end.
Proof.
  intros H1 H2 N1 N2. rewrite (EncodeScore_compare s1 s2) by done.
  unfold ZScoreKey. rewrite <- !(assoc_L (++)), !bytes_compare_app.
  rewrite (bytes_compare_app_eq (EncodeScore s1)) by (unfold EncodeScore; cbv zeta; by rewrite !length_be_encode).
  rewrite bytes_compare_app. by destruct (bytes_compare (EncodeScore s1) _).
Qed.

Lemma signBit_set r : 0 <= r < 2 ^ 64 -> (Z.land r signBit =? 0) = (r <? signBit).
Proof.
  intros Hr. destruct (Z.ltb_spec r signBit) as [Hlt|Hge].
  - apply Z.eqb_eq. apply Z.bits_inj'. intros i Hi. rewrite Z.bits_0, Z.land_spec.
    unfold signBit in *. destruct (Z.eq_dec i 63) as [->|]; [|by rewrite Z.pow2_bits_false, andb_false_r by lia].
    replace (Z.testbit r 63) with false; [done|]. symmetry. apply Z.testbit_false; [lia|].
    by rewrite Z.div_small by lia.
  - apply Z.eqb_neq. intros E. assert (Z.testbit (Z.land r signBit) 63 = false) as H by (rewrite E; apply Z.bits_0).
    unfold signBit in *. rewrite Z.land_spec, Z.pow2_bits_true, andb_true_r in H by lia.
    assert (Z.testbit r 63 = true) as Ht; [|congruence]. apply Z.testbit_true; [lia|].
    replace r with ((r - 2 ^ 63) + 1 * 2 ^ 63) by lia. by rewrite Z.div_add, Z.div_small by lia.
Qed.

(** Decoding what [EncodeScore] wrote, at the front of any bytes, gives the
    score back bit for bit; -0 is normalised to 0, and NaN is excluded. *)
Theorem DecodeScore_EncodeScore (score : Z) (rest : bytes) :
  is_u64 score -> isNaN score = false ->
  DecodeScore (EncodeScore score ++ rest) = Some (if scoreIsZero score then 0 else score).
Proof.
  intros Hs Hn. rewrite EncodeScore_rank by done. unfold DecodeScore.
  rewrite length_app, length_be_encode. rewrite take_app_length' by (by rewrite length_be_encode).
  destruct (Nat.ltb_spec (8 + length rest) 8); [lia|]. cbv zeta.
  pose proof (scoreRank_range _ Hs) as Hr. rewrite be_decode_encode_id by done. f_equal.
  rewrite signBit_set by done. unfold scoreRank in *. destruct (scoreIsZero score) eqn:Ez; [by vm_compute|].
  unfold is_u64, scoreIsZero, signBit, max_u64 in *. destruct (Z.ltb_spec score (2 ^ 63)) as [Hlt|Hge].
  - destruct (Z.ltb_spec (score + 2 ^ 63) (2 ^ 63)); [lia|]. cbn [negb].
    rewrite lxor_signBit_big by (unfold signBit; lia). unfold signBit. lia.
  - destruct (Z.ltb_spec (2 ^ 64 - 1 - score) (2 ^ 63)); [|lia]. cbn [negb].
    rewrite lxor_max_u64 by (unfold is_u64; lia). unfold max_u64. lia.
Qed.

(** *** Prefixes *)

Lemma cutNul_app p r : ~ (0 ∈ p) -> cutNul (p ++ 0 :: r) = Some (p, r).
Proof.
  induction p as [|b p IH]; intros H; [done|]. simpl.
  destruct (Z.eqb_spec b 0) as [->|]; [set_solver|]. rewrite IH by set_solver. done.
Qed.

Lemma cutNul_none p : ~ (0 ∈ p) -> cutNul p = None.
Proof.
  induction p as [|b p IH]; intros H; [done|]. simpl.
  destruct (Z.eqb_spec b 0) as [->|]; [set_solver|]. by rewrite IH by set_solver.
Qed.

Lemma cutNul_inv k p r : cutNul k = Some (p, r) -> k = p ++ 0 :: r /\ ~ (0 ∈ p).
Proof.
  revert p. induction k as [|b k IH]; intros p H; simplify_eq/=.
  destruct (Z.eqb_spec b 0) as [->|Hb]; [simplify_eq/=; split; [done|set_solver]|].
  destruct (cutNul k) as [[p' r']|]; simplify_eq/=. destruct (IH p' eq_refl) as [-> Hp].
  split; [done|set_solver].
Qed.

(** The prefix of a composite key [type NUL name NUL field] is
    [type NUL name], so every field of a collection shares the prefix of the
    collection, and taking the prefix again changes nothing. *)
Theorem ExtractPrefix_collection (kind name field : bytes) :
  ~ (0 ∈ kind) -> ~ (0 ∈ name) ->
  ExtractPrefix (kind ++ 0 :: name ++ 0 :: field) = kind ++ 0 :: name /\
  ExtractPrefix (kind ++ 0 :: name) = kind ++ 0 :: name /\
  (forall k, ExtractPrefix (ExtractPrefix k) = ExtractPrefix k).
Proof.
  intros Hk Hn. unfold ExtractPrefix at 1 2. rewrite !cutNul_app by done. cbv iota.
  rewrite (cutNul_none name) by done. split_and!; [done..|]. intros k. unfold ExtractPrefix.
  destruct (cutNul k) as [[p1 r1]|] eqn:E1; [|by rewrite E1].
  destruct (cutNul_inv _ _ _ E1) as [_ H1]. destruct (cutNul r1) as [[p2 r2]|] eqn:E2; simpl.
  - destruct (cutNul_inv _ _ _ E2) as [_ H2]. by rewrite cutNul_app, cutNul_none by done.
  - by rewrite cutNul_app, E2 by done.
Qed.

Module EncodingWitness.

(** -1.5 and 2.0. *)
Lemma ZScoreKey_order_witness :
  Some (bytes_compare (ZScoreKey [107] 0xBFF8000000000000 [97]) (ZScoreKey [107] 0x4000000000000000 [98])) =
    match SFcompare (float_of_bits 0xBFF8000000000000) (float_of_bits 0x4000000000000000) with
    | Some Eq => Some (bytes_compare [97] [98])
    | r => r
    end.
Proof. apply ZScoreKey_order; by vm_compute. Defined.

Lemma DecodeScore_EncodeScore_witness :
  DecodeScore (EncodeScore 0xBFF8000000000000 ++ [0; 97]) = Some (if scoreIsZero 0xBFF8000000000000 then 0 else 0xBFF8000000000000).
Proof. apply (DecodeScore_EncodeScore 0xBFF8000000000000 [0; 97]); by vm_compute. Defined.

Lemma ExtractPrefix_collection_witness :
  ExtractPrefix ([104] ++ 0 :: [97; 98] ++ 0 :: [99]) = [104] ++ 0 :: [97; 98] /\
  ExtractPrefix ([104] ++ 0 :: [97; 98]) = [104] ++ 0 :: [97; 98] /\
  (forall k, ExtractPrefix (ExtractPrefix k) = ExtractPrefix k).
Proof. apply ExtractPrefix_collection; apply (bool_decide_unpack _); by vm_compute. Defined.

End EncodingWitness.
