(* ===== verification/Bloom.v ===== *)
(** * Bloom filters ([bloom/bloom.go])

    The filter an SSTable carries.  The 64-bit hash is a parameter; all index
    arithmetic is at its 32-bit width, the probe count is computed with
    binary64 multiplication as the source does, and an index outside the bit
    array would be a panic ([None]).  The theorem is that a filter never
    denies a key that was added, for every size, overflowing ones included. *)

From Stdlib Require Import Floats.SpecFloat.
From S2P Require Import Prelude.

Record Filter := mkFilter { f_data : bytes; f_bits : Z; f_k : Z }.

(** [uint8(float64(bitsPerKey) * math.Ln2)]: conversion to binary64, product
    rounded to nearest, truncation. *)
Definition float_of_int (n : Z) : spec_float := binary_normalize 53 1024 n 0 false.

(** [int(x)].  What has no value in 64 bits, infinities and NaN among it, becomes
    the least integer, as amd64 has it; the language leaves it open. *)
Definition trunc_float (x : spec_float) : Z :=
  match x with
  | S754_zero _ => 0
  | S754_finite s m e =>
      let a := if e <? 0 then Z.pos m / 2 ^ (- e) else Z.pos m * 2 ^ e in
      let a := if s then - a else a in
      if (- 2 ^ 63 <=? a) && (a <? 2 ^ 63) then a else - 2 ^ 63
  | S754_infinity _ | S754_nan => - 2 ^ 63
  end.

Definition Ln2 : spec_float := S754_finite false 0x162E42FEFA39EF (-53).

Definition probeCount (bitsPerKey : Z) : Z :=
  let k := u8 (trunc_float (SFmul 53 1024 (float_of_int bitsPerKey) Ln2)) in
  if k <? 1 then 1 else if 30 <? k then 30 else k.

Definition NewFilterSized (n bitsPerKey : Z) : Filter :=
  let bitsPerKey := if bitsPerKey <? 1 then 10 else bitsPerKey in
  let n := if n =? 0 then 1 else n in
  let rawBits := u32 (i64 (n * bitsPerKey)) in
  let rawBits := if rawBits <? 64 then 64 else rawBits in
  let byteLen := u32 (rawBits + 7) / 8 in
  let numBits := u32 (byteLen * 8) in
  mkFilter (replicate (Z.to_nat byteLen) 0) numBits (probeCount bitsPerKey).

Definition NewFilterFromBytes (bitmap : bytes) (bits k : Z) : Filter := mkFilter bitmap bits k.

Section bloom.
Context (xxhash : bytes -> Z).

(** [h1 + i*h2] with [h2] forced odd, all in uint32, reduced to the filter. *)
Definition probeIndex (f : Filter) (key : bytes) (i : Z) : Z :=
  let h := xxhash key in
  let h1 := u32 h in
  let h2 := Z.lor (u32 (Z.shiftr h 32)) 1 in
  u32 (h1 + u32 (i * h2)) mod f_bits f.

(** [f.data[idx>>3] |= 1 << (idx & 7)] *)
Definition setBit (data : bytes) (idx : Z) : option bytes :=
  let p := Z.to_nat (Z.shiftr idx 3) in
  b ← data !! p; Some (<[p := Z.lor b (Z.shiftl 1 (Z.land idx 7))]> data).

Fixpoint addLoop (count : nat) (i : Z) (f : Filter) (key : bytes) (data : bytes) : option bytes :=
  match count with
  | O => Some data
  | S c => data' ← setBit data (probeIndex f key i); addLoop c (i + 1) f key data'
  end.

Definition Filter_Add (f : Filter) (key : bytes) : option Filter :=
  if (f_bits f =? 0) || (length (f_data f) =? 0)%nat then Some f
  else data ← addLoop (Z.to_nat (f_k f)) 0 f key (f_data f); Some (mkFilter data (f_bits f) (f_k f)).

Fixpoint mayLoop (count : nat) (i : Z) (f : Filter) (key : bytes) : option bool :=
  match count with
  | O => Some true
  | S c =>
      let idx := probeIndex f key i in
      b ← f_data f !! Z.to_nat (Z.shiftr idx 3);
      if Z.land b (Z.shiftl 1 (Z.land idx 7)) =? 0 then Some false else mayLoop c (i + 1) f key
  end.

Definition MayContain (f : Filter) (key : bytes) : option bool :=
  if (length (f_data f) =? 0)%nat || (f_bits f =? 0) then Some true
  else mayLoop (Z.to_nat (f_k f)) 0 f key.

Fixpoint addKeys (f : Filter) (keys : list bytes) : option Filter :=
  match keys with [] => Some f | key :: ks => f' ← Filter_Add f key; addKeys f' ks end.

Definition NewFilter (keys : list bytes) (bitsPerKey : Z) : option Filter :=
  addKeys (NewFilterSized (Z.of_nat (length keys)) bitsPerKey) keys.

(** ** The filter as a set of bits *)

Definition bitAt (data : bytes) (idx : Z) : bool :=
  Z.testbit (default 0 (data !! Z.to_nat (Z.shiftr idx 3))) (Z.land idx 7).

(** Either the filter is disabled, or every index it computes is inside. *)
Definition filter_ok (f : Filter) : Prop :=
  f_bits f = 0 \/ f_data f = [] \/ (0 < f_bits f /\ f_bits f = 8 * Z.of_nat (length (f_data f))).

Lemma low3 idx : 0 <= Z.land idx 7 < 8.
Proof. change 7 with (Z.ones 3). rewrite Z.land_ones by lia. apply Z.mod_pos_bound. lia. Qed.

Lemma land_bit_zero b i : 0 <= i -> (Z.land b (Z.shiftl 1 i) =? 0) = negb (Z.testbit b i).
Proof.
  intros Hi. destruct (Z.testbit b i) eqn:E; simpl.
  - apply Z.eqb_neq. intros H. assert (Z.testbit (Z.land b (Z.shiftl 1 i)) i = false) as Hb by (rewrite H; apply Z.bits_0).
    rewrite Z.land_spec, E, Z.shiftl_spec, Z.sub_diag in Hb by lia. done.
  - apply Z.eqb_eq. apply Z.bits_inj'. intros j Hj. rewrite Z.bits_0, Z.land_spec, Z.shiftl_spec by lia.
    destruct (Z.eq_dec j i) as [->|Hne]; [by rewrite E|].
    destruct (Z.testbit 1 (j - i)) eqn:E1; [|by rewrite andb_false_r].
    exfalso. destruct (Z.lt_trichotomy (j - i) 0) as [?|[?|?]]; [by rewrite Z.testbit_neg_r in E1 by lia|lia|].
    change 1 with (2 ^ 0) in E1. rewrite Z.pow2_bits_false in E1 by lia. done.
Qed.

Lemma probeIndex_range f key i :
  filter_ok f -> f_bits f <> 0 -> f_data f <> [] ->
  (Z.to_nat (Z.shiftr (probeIndex f key i) 3) < length (f_data f))%nat.
Proof.
  intros [?|[?|[H0 H]]]; [done|done|]. intros _ _. unfold probeIndex.
  pose proof (Z.mod_pos_bound (u32 (u32 (xxhash key) + u32 (i * Z.lor (u32 (Z.shiftr (xxhash key) 32)) 1)))
    (f_bits f) H0) as Hm.
  rewrite Z.shiftr_div_pow2 by lia. change (2 ^ 3) with 8.
  apply Nat2Z.inj_lt. rewrite Z2Nat.id by (apply Z.div_pos; lia). apply Z.div_lt_upper_bound; lia.
Qed.

(** Setting a bit sets it and clears none. *)
Lemma setBit_spec data idx :
  (Z.to_nat (Z.shiftr idx 3) < length data)%nat ->
  exists data', setBit data idx = Some data' /\ length data' = length data /\
    bitAt data' idx = true /\ forall j, bitAt data j = true -> bitAt data' j = true.
Proof.
  intros Hlt. unfold setBit. destruct (lookup_lt_is_Some_2 _ _ Hlt) as [b Hb]. rewrite Hb. simpl.
  eexists. split; [done|]. rewrite length_insert. split; [done|]. unfold bitAt.
  pose proof (low3 idx) as H3. split.
  - rewrite list_lookup_insert_eq by done. simpl. rewrite Z.lor_spec, Z.shiftl_spec, Z.sub_diag by lia.
    by rewrite orb_true_r.
  - intros j. destruct (decide (Z.to_nat (Z.shiftr idx 3) = Z.to_nat (Z.shiftr j 3))) as [E|E].
    + rewrite <- E, Hb, list_lookup_insert_eq by done. simpl. rewrite Z.lor_spec. by intros ->.
    + by rewrite list_lookup_insert_ne.
Qed.

Lemma addLoop_spec count i f key data :
  filter_ok f -> f_bits f <> 0 -> f_data f <> [] -> length data = length (f_data f) ->
  exists data', addLoop count i f key data = Some data' /\ length data' = length (f_data f) /\
    (forall j, bitAt data j = true -> bitAt data' j = true) /\
    (forall p, i <= p < i + Z.of_nat count -> bitAt data' (probeIndex f key p) = true).
Proof.
  intros Hok Hb Hd. revert i data. induction count as [|c IH]; intros i data Hl; simpl.
  { exists data. split_and!; try done. lia. }
  destruct (setBit_spec data (probeIndex f key i)) as (d1 & -> & Hl1 & Hset & Hmono).
  { rewrite Hl. by apply probeIndex_range. }
  simpl. destruct (IH (i + 1) d1) as (d2 & -> & Hl2 & Hmono2 & Hset2); [congruence|].
  exists d2. split; [done|]. split; [done|]. split; [auto|]. intros p Hp.
  destruct (Z.eq_dec p i) as [->|]; [auto|]. apply Hset2. lia.
Qed.

Lemma mayLoop_spec count i f key :
  filter_ok f -> f_bits f <> 0 -> f_data f <> [] ->
  (forall p, i <= p < i + Z.of_nat count -> bitAt (f_data f) (probeIndex f key p) = true) ->
  mayLoop count i f key = Some true.
Proof.
  intros Hok Hb Hd. revert i. induction count as [|c IH]; intros i Hset; simpl; [done|].
  destruct (lookup_lt_is_Some_2 (f_data f) (Z.to_nat (Z.shiftr (probeIndex f key i) 3))) as [b Hlk];
    [by apply probeIndex_range|].
  rewrite Hlk. simpl. rewrite land_bit_zero by apply low3.
  specialize (Hset i ltac:(lia)) as Hi. unfold bitAt in Hi. rewrite Hlk in Hi. simpl in Hi. rewrite Hi. simpl.
  apply IH. intros p Hp. apply Hset. lia.
Qed.

Definition covers (f : Filter) (key : bytes) : Prop :=
  forall p, 0 <= p < f_k f -> bitAt (f_data f) (probeIndex f key p) = true.

Lemma Filter_Add_spec f key :
  filter_ok f ->
  exists f', Filter_Add f key = Some f' /\ filter_ok f' /\ f_bits f' = f_bits f /\ f_k f' = f_k f /\
    length (f_data f') = length (f_data f) /\
    (f_bits f <> 0 -> f_data f <> [] -> covers f' key) /\ (forall k, covers f k -> covers f' k).
Proof.
  intros Hok. unfold Filter_Add.
  destruct (Z.eqb_spec (f_bits f) 0) as [E|E]; [by exists f|]. simpl.
  destruct (Nat.eqb_spec (length (f_data f)) 0) as [E2|E2].
  { exists f. split_and!; try done. intros _ Hd. apply nil_length_inv in E2. done. }
  assert (f_data f <> []) as Hd by (intros H; by rewrite H in E2).
  destruct (addLoop_spec (Z.to_nat (f_k f)) 0 f key (f_data f) Hok E Hd eq_refl) as (d & -> & Hl & Hm & Hs).
  simpl. eexists. split; [done|]. simpl. split_and!; try done.
  - destruct Hok as [?|[?|[? ?]]]; [done|done|]. right. right. simpl. by rewrite Hl.
  - intros _ _ p Hp. cbn [f_k] in Hp. apply Hs. lia.
  - intros k Hc p Hp. apply Hm. by apply Hc.
Qed.

Lemma addKeys_spec f keys :
  filter_ok f ->
  exists f', addKeys f keys = Some f' /\ filter_ok f' /\ f_bits f' = f_bits f /\ f_k f' = f_k f /\
    length (f_data f') = length (f_data f) /\
    (f_bits f <> 0 -> f_data f <> [] -> forall k, k ∈ keys -> covers f' k) /\ (forall k, covers f k -> covers f' k).
Proof.
  revert f. induction keys as [|key keys IH]; intros f Hok; simpl.
  { exists f. split_and!; try done. by intros _ _ k ?%elem_of_nil. }
  destruct (Filter_Add_spec f key Hok) as (f1 & -> & Hok1 & Hb1 & Hk1 & Hl1 & Hc1 & Hm1). simpl.
  destruct (IH f1 Hok1) as (f2 & -> & Hok2 & Hb2 & Hk2 & Hl2 & Hc2 & Hm2).
  exists f2. split_and!; try done; try congruence; [|auto].
  intros Hb Hd k [->|Hk]%elem_of_cons; [auto|]. apply Hc2; [congruence| |done].
  intros E. apply Hd, nil_length_inv. by rewrite <- Hl1, E.
Qed.

Lemma covers_MayContain f key : filter_ok f -> covers f key -> MayContain f key = Some true.
Proof.
  intros Hok Hc. unfold MayContain.
  destruct (Nat.eqb_spec (length (f_data f)) 0) as [E|E]; [done|].
  destruct (Z.eqb_spec (f_bits f) 0) as [E2|E2]; [done|]. simpl.
  apply mayLoop_spec; [done|done|by intros H; rewrite H in E|]. intros p Hp. apply Hc. lia.
Qed.

Lemma NewFilterSized_ok n bitsPerKey : filter_ok (NewFilterSized n bitsPerKey).
Proof.
  unfold NewFilterSized, filter_ok. cbn [f_bits f_data].
  set (raw := if _ <? 64 then 64 else _).
  assert (0 <= u32 (raw + 7) / 8 < 2 ^ 29) as Hq.
  { pose proof (u32_range (raw + 7)) as Hr. unfold is_u32 in Hr.
    split; [apply Z.div_pos; lia|apply Z.div_lt_upper_bound; lia]. }
  rewrite (u32_id (u32 (raw + 7) / 8 * 8)) by (unfold is_u32; lia).
  destruct (Z.eq_dec (u32 (raw + 7) / 8) 0) as [->|Hne]; [by left|right; right].
  rewrite length_replicate. lia.
Qed.

(** Building succeeds, keeps the dimensions, and leaves no key out. *)
Lemma NewFilter_spec f0 keys :
  filter_ok f0 ->
  exists f, addKeys f0 keys = Some f /\ filter_ok f /\ f_bits f = f_bits f0 /\ f_k f = f_k f0 /\
    length (f_data f) = length (f_data f0) /\ forall key, key ∈ keys -> MayContain f key = Some true.
Proof.
  intros Hok. destruct (addKeys_spec _ keys Hok) as (f & Hf & Hok' & Hb & Hk & Hl & Hc & _).
  exists f. split_and!; try done. intros key Hin.
  destruct (Z.eq_dec (f_bits f) 0) as [E|E].
  { unfold MayContain. rewrite E. by rewrite orb_true_r. }
  destruct (decide (f_data f = [])) as [Ed|Ed].
  { unfold MayContain. by rewrite Ed. }
  apply covers_MayContain; [done|]. apply Hc; [congruence| |done].
  intros E2. apply Ed, nil_length_inv. by rewrite Hl, E2.
Qed.

(** A filter in order never indexes outside its bits. *)
Lemma mayLoop_total count i f key :
  filter_ok f -> f_bits f <> 0 -> f_data f <> [] -> exists b, mayLoop count i f key = Some b.
Proof.
  intros Hok Hb Hd. revert i. induction count as [|c IH]; intros i; simpl; [by eexists|].
  destruct (lookup_lt_is_Some_2 _ _ (probeIndex_range f key i Hok Hb Hd)) as [x ->]. simpl.
  case_if; [by eexists|apply IH].
Qed.

Lemma MayContain_total f key : filter_ok f -> exists b, MayContain f key = Some b.
Proof.
  intros Hok. unfold MayContain. destruct (Nat.eqb_spec (length (f_data f)) 0) as [E|E]; [by eexists|].
  destruct (Z.eqb_spec (f_bits f) 0) as [E2|E2]; [by eexists|]. cbn [orb].
  apply mayLoop_total; [done|done|]. intros H. by rewrite H in E.
Qed.

(** Sizes that do not wrap. *)
Lemma NewFilterSized_dims n :
  0 <= n -> 10 * n + 7 < 2 ^ 32 ->
  let f := NewFilterSized n 10 in
  f_bits f = 8 * Z.of_nat (length (f_data f)) /\ 0 < f_bits f < 2 ^ 32 - 7 /\ 0 <= f_k f < 256.
Proof.
  intros H0 Hn f. unfold f, NewFilterSized. change (10 <? 1) with false. cbv zeta iota.
  set (m := if n =? 0 then 1 else n).
  assert (0 < m /\ m * 10 + 7 < 2 ^ 32) as [Hm1 Hm2] by (unfold m; destruct (Z.eqb_spec n 0); lia).
  rewrite (i64_id (m * 10)), (u32_id (m * 10)) by (unfold is_i64, is_u32; lia).
  set (raw := if m * 10 <? 64 then 64 else m * 10).
  assert (64 <= raw /\ raw + 7 < 2 ^ 32) as [Hr1 Hr2] by (unfold raw; destruct (Z.ltb_spec (m * 10) 64); lia).
  rewrite (u32_id (raw + 7)) by (unfold is_u32; lia). cbn [f_bits f_data f_k].
  rewrite length_replicate.
  assert (8 <= (raw + 7) / 8 < 2 ^ 29) as Hq
    by (split; [apply Z.div_le_lower_bound; lia|apply Z.div_lt_upper_bound; lia]).
  rewrite u32_id by (unfold is_u32; lia). rewrite Z2Nat.id by lia.
  split; [lia|]. split; [lia|]. by vm_compute.
Qed.

(** C28. A Bloom filter has no false negatives: whatever keys it is built from
    and whatever size is asked for (the 32-bit size computation may wrap),
    building it touches no byte outside its bitmap and every key it was built
    from is reported as possibly present, also through a filter rebuilt from
    the stored bitmap, bit count and probe count. *)
Theorem NewFilter_no_false_negatives keys bitsPerKey :
  exists f, NewFilter keys bitsPerKey = Some f /\
    forall key, key ∈ keys ->
      MayContain f key = Some true /\
      MayContain (NewFilterFromBytes (f_data f) (f_bits f) (f_k f)) key = Some true.
Proof.
  destruct (NewFilter_spec _ keys (NewFilterSized_ok (Z.of_nat (length keys)) bitsPerKey))
    as (f & Hf & _ & _ & _ & _ & Hmay).
  exists f. split; [exact Hf|]. intros key Hin.
  assert (NewFilterFromBytes (f_data f) (f_bits f) (f_k f) = f) as -> by (by destruct f).
  auto.
Qed.
End bloom.

(** Ten bits per key give six probes, as the comment in the source expects. *)
Example probeCount_default : probeCount 10 = 6.
Proof. by vm_compute. Qed.
