(* ===== verification/SstBlock.v ===== *)
(** * SSTable blocks ([sstable/sstable.go], block level)

    A block is a run of encoded entries followed by the restart table: the
    offset of every sixteenth entry, their number and a magic word.  Blocks
    hold all versions of a key, newest first.  Decoding, the linear scans and
    the binary search over restart points are modelled on the bytes; offsets
    are natural numbers, lengths read from the block are 32 bits wide.

    Both scans are compared with [snapshot_get].  The linear one always agrees
    with it.  The binary one agrees unless the versions of the key it looks
    for lie on both sides of a restart point; [binary_scan_stale] is a block
    where it returns an old version. *)

From S2P Require Import Prelude Mvcc.

Definition restartInterval : nat := 16.
Definition blockRestartMagic : Z := 0x52535450.
Definition recordHeaderSize : nat := 25.

Record RecordHeader := mkRecordHeader {
  h_keyLen : Z;
  h_valLen : Z;
  h_deleted : bool;
  h_expiresAt : Z;
  h_version : Z
}.

Definition RecordHeader_Encode (h : RecordHeader) : bytes :=
  be_encode 4 (h_keyLen h) ++ be_encode 4 (h_valLen h) ++ [if h_deleted h then 1 else 0]
    ++ be_encode 8 (u64 (h_expiresAt h)) ++ be_encode 8 (h_version h).

Definition RecordHeader_Decode (buf : bytes) : RecordHeader :=
  mkRecordHeader (be_decode (slice buf 0 4)) (be_decode (slice buf 4 8))
    (default 0 (buf !! 8%nat) =? 1) (i64 (be_decode (slice buf 9 17))) (be_decode (slice buf 17 25)).

(** The bytes the writer appends for an entry; a tombstone has no value. *)
Definition encodeEntry (e : Entry) : bytes :=
  let vLen := if Deleted e then 0%nat else length (Value e) in
  RecordHeader_Encode (mkRecordHeader (u32 (Z.of_nat (length (Key e)))) (u32 (Z.of_nat vLen)) (Deleted e)
    (ExpiresAt e) (Version e)) ++ Key e ++ (if Deleted e then [] else Value e).

(** What is read back: the value of a tombstone is dropped. *)
Definition storedEntry (e : Entry) : Entry :=
  if Deleted e then mkEntry (Key e) [] true (ExpiresAt e) (Version e) else e.

(** ** Reading *)

(** [readEntryAt]: entry and offset of the next one; [None] is [ok == false]. *)
Definition readEntryAt (block : bytes) (off : nat) : option (Entry * nat) :=
  if (length block <? off + recordHeaderSize)%nat then None
  else
    let hdr := RecordHeader_Decode (drop off block) in
    let cur := (off + recordHeaderSize)%nat in
    let kLen := Z.to_nat (h_keyLen hdr) in
    let vLen := Z.to_nat (h_valLen hdr) in
    if (length block <? cur + kLen)%nat then None
    else
      let key := slice block cur (cur + kLen) in
      let cur2 := (cur + kLen)%nat in
      if negb (h_deleted hdr) && (0 <? vLen)%nat then
        if (length block <? cur2 + vLen)%nat then None
        else Some (mkEntry key (slice block cur2 (cur2 + vLen)) (h_deleted hdr) (h_expiresAt hdr) (h_version hdr),
                   (cur2 + vLen)%nat)
      else Some (mkEntry key [] (h_deleted hdr) (h_expiresAt hdr) (h_version hdr), cur2).

Record blockRestarts := mkBlockRestarts { br_data : bytes; br_offsets : list nat }.

Fixpoint readOffsets (count : nat) (block : bytes) (pos : nat) : list nat :=
  match count with
  | O => []
  | S c => Z.to_nat (be_decode (slice block pos (pos + 4))) :: readOffsets c block (pos + 4)
  end.

Definition parseBlockRestarts (block : bytes) : option blockRestarts :=
  let n := length block in
  if (n <? 8)%nat then None
  else if negb (be_decode (slice block (n - 4) n) =? blockRestartMagic) then None
  else
    let numOffsets := Z.to_nat (be_decode (slice block (n - 8) (n - 4))) in
    if (numOffsets =? 0)%nat || (n <? numOffsets * 4 + 8)%nat then None
    else
      let offsetsStart := (n - 8 - numOffsets * 4)%nat in
      Some (mkBlockRestarts (take offsetsStart block) (readOffsets numOffsets block offsetsStart)).

(** [if !found || hdr.Version > bestVersion { ... }] *)
Definition keepBest (best : option Entry) (e : Entry) : option Entry :=
  match best with
  | None => Some e
  | Some b => if Version b <? Version e then Some e else best
  end.

(** The linear scan of [scanBlockForKeyLinear] ([maxVersion = None]) and of
    [scanBlockForKeyVersionLinear]; [length block] rounds are enough. *)
Definition wanted (target : bytes) (maxVersion : option Z) (e : Entry) : bool :=
  bytes_eqb (Key e) target && match maxVersion with None => true | Some m => Version e <=? m end.

Fixpoint scanLinear (fuel : nat) (block target : bytes) (maxVersion : option Z) (off : nat) (best : option Entry)
    : option Entry :=
  match fuel with
  | O => best
  | S f =>
      if (off <? length block)%nat then
        match readEntryAt block off with
        | None => best
        | Some (e, next) =>
            scanLinear f block target maxVersion next (if wanted target maxVersion e then keepBest best e else best)
        end
      else best
  end.

(** The scan from a restart point, stopping behind the target key. *)
Fixpoint scanFrom (fuel : nat) (block target : bytes) (maxVersion : option Z) (off : nat) (best : option Entry)
    : option Entry :=
  match fuel with
  | O => best
  | S f =>
      if (off <? length block)%nat then
        match readEntryAt block off with
        | None => best
        | Some (e, next) =>
            let best' := if wanted target maxVersion e then keepBest best e else best in
            if bytes_ltb target (Key e) then best' else scanFrom f block target maxVersion next best'
        end
      else best
  end.

(** The key at restart [mid], if the bounds checks pass. *)
Definition restartKey (br : blockRestarts) (mid : nat) : option bytes :=
  let off := default 0%nat (br_offsets br !! mid) in
  if (length (br_data br) <? off + recordHeaderSize)%nat then None
  else
    let kLen := Z.to_nat (h_keyLen (RecordHeader_Decode (drop off (br_data br)))) in
    if (length (br_data br) <? off + recordHeaderSize + kLen)%nat then None
    else Some (slice (br_data br) (off + recordHeaderSize) (off + recordHeaderSize + kLen)).

(** The binary search over restart points, [keyAt] reading the key at one;
    [hi - lo + 1] rounds are enough. *)
Fixpoint restartSearch (fuel : nat) (keyAt : nat -> option bytes) (target : bytes) (lo hi restartIdx : Z) : Z :=
  match fuel with
  | O => restartIdx
  | S f =>
      if lo <=? hi then
        let mid := (lo + hi) / 2 in
        match keyAt (Z.to_nat mid) with
        | None => restartSearch f keyAt target lo (mid - 1) restartIdx
        | Some curKey =>
            match bytes_compare curKey target with
            | Lt => restartSearch f keyAt target (mid + 1) hi mid
            | Eq => restartSearch f keyAt target lo (mid - 1) mid
            | Gt => restartSearch f keyAt target lo (mid - 1) restartIdx
            end
        end
      else restartIdx
  end.

Definition scanBinary (br : blockRestarts) (target : bytes) (maxVersion : option Z) : option Entry :=
  let n := length (br_offsets br) in
  let restartIdx := restartSearch n (restartKey br) target 0 (Z.of_nat n - 1) (-1) in
  if restartIdx =? -1 then None
  else
    let startOff := default 0%nat (br_offsets br !! Z.to_nat restartIdx) in
    scanFrom (length (br_data br)) (br_data br) target maxVersion startOff None.

(** [scanBlockForKey] and [scanBlockForKeyVersion] choose by the number of
    restart points. *)
Definition scanBlock (block target : bytes) (maxVersion : option Z) : option Entry :=
  match parseBlockRestarts block with
  | Some br =>
      if (1 <? length (br_offsets br))%nat then scanBinary br target maxVersion
      else scanLinear (length (br_data br)) (br_data br) target maxVersion 0 None
  | None => scanLinear (length block) block target maxVersion 0 None
  end.

(** The five results of the scans: value, deleted, expiry, version; [None] is
    [found == false]. *)
Definition scanResult (now : Z) (best : option Entry) : option (bytes * bool * Z * Z) :=
  match best with
  | None => None
  | Some e =>
      if (0 <? ExpiresAt e) && (ExpiresAt e <=? now) then Some ([], true, 0, Version e)
      else Some (Value e, Deleted e, ExpiresAt e, Version e)
  end.

(** ** Entries *)

(** Field values the format can hold. *)
Record entry_ok (e : Entry) : Prop := {
  eo_klen : Z.of_nat (length (Key e)) < 2 ^ 32;
  eo_vlen : Z.of_nat (length (Value e)) < 2 ^ 32;
  eo_exp : is_i64 (ExpiresAt e);
  eo_ver : is_u64 (Version e)
}.

(** The same as a test, for concrete entries. *)
Definition entry_okb (e : Entry) : bool :=
  (Z.of_nat (length (Key e)) <? 2 ^ 32) && (Z.of_nat (length (Value e)) <? 2 ^ 32) &&
  ((- 2 ^ 63 <=? ExpiresAt e) && (ExpiresAt e <? 2 ^ 63)) && ((0 <=? Version e) && (Version e <? 2 ^ 64)).

Lemma entries_okb es : forallb entry_okb es = true -> Forall entry_ok es.
Proof.
  intros H. apply Forall_forall. intros e He. rewrite forallb_forall in H.
  specialize (H e ltac:(by apply list_elem_of_In)). unfold entry_okb in H. bool_prop.
  split; [done|done|by split|by split].
Qed.

Lemma length_RecordHeader_Encode h : length (RecordHeader_Encode h) = recordHeaderSize.
Proof. done. Qed.

Lemma RecordHeader_roundtrip h rest :
  is_u32 (h_keyLen h) -> is_u32 (h_valLen h) -> is_i64 (h_expiresAt h) -> is_u64 (h_version h) ->
  RecordHeader_Decode (RecordHeader_Encode h ++ rest) = h.
Proof.
  intros Hk Hv He Hr. unfold RecordHeader_Decode. set (b := RecordHeader_Encode h ++ rest).
  assert (slice b 0 4 = be_encode 4 (h_keyLen h)) as -> by done.
  assert (slice b 4 8 = be_encode 4 (h_valLen h)) as -> by done.
  assert (b !! 8%nat = Some (if h_deleted h then 1 else 0)) as -> by done.
  assert (slice b 9 17 = be_encode 8 (u64 (h_expiresAt h))) as -> by done.
  assert (slice b 17 25 = be_encode 8 (h_version h)) as -> by done.
  rewrite !be_decode_encode_id by (done || apply u64_range). rewrite i64_u64 by done.
  destruct h as [? ? [] ? ?]; done.
Qed.

Lemma length_encodeEntry e :
  length (encodeEntry e) =
    (recordHeaderSize + length (Key e) + (if Deleted e then 0 else length (Value e)))%nat.
Proof.
  unfold encodeEntry. rewrite !length_app, length_RecordHeader_Encode. destruct (Deleted e); simpl; lia.
Qed.

Lemma encodeEntry_nonempty e : (0 < length (encodeEntry e))%nat.
Proof. rewrite length_encodeEntry. unfold recordHeaderSize. lia. Qed.

(** Header and key of the entry at its offset. *)
Lemma entry_at pre e rest :
  entry_ok e ->
  let block := pre ++ encodeEntry e ++ rest in
  let hdr := RecordHeader_Decode (drop (length pre) block) in
  h_keyLen hdr = Z.of_nat (length (Key e)) /\
  h_valLen hdr = Z.of_nat (if Deleted e then 0%nat else length (Value e)) /\
  h_deleted hdr = Deleted e /\ h_expiresAt hdr = ExpiresAt e /\ h_version hdr = Version e /\
  slice block (length pre + recordHeaderSize) (length pre + recordHeaderSize + length (Key e)) = Key e /\
  (Deleted e = false -> slice block (length pre + recordHeaderSize + length (Key e))
     (length pre + recordHeaderSize + length (Key e) + length (Value e)) = Value e).
Proof.
  intros [Hk Hv He Hr] block hdr. unfold hdr, block. rewrite drop_app_length. unfold encodeEntry.
  assert (is_u32 (Z.of_nat (length (Key e)))) as Hku by (unfold is_u32; lia).
  assert (is_u32 (Z.of_nat (if Deleted e then 0 else length (Value e))%nat)) as Hvu
    by (unfold is_u32; destruct (Deleted e); lia).
  rewrite !u32_id by done. rewrite <- !app_assoc.
  set (h := mkRecordHeader _ _ _ _ _). rewrite (RecordHeader_roundtrip h) by done.
  split_and!; try done.
  - rewrite (app_assoc pre). apply slice_mid; rewrite length_app, length_RecordHeader_Encode; lia.
  - intros ->. rewrite (app_assoc pre), (app_assoc _ (Key e)).
    apply slice_mid; rewrite !length_app, length_RecordHeader_Encode; lia.
Qed.

Lemma readEntryAt_encode pre e rest :
  entry_ok e ->
  readEntryAt (pre ++ encodeEntry e ++ rest) (length pre) =
    Some (storedEntry e, (length pre + length (encodeEntry e))%nat).
Proof.
  intros Hok. destruct (entry_at pre e rest Hok) as (H1 & H2 & H3 & H4 & H5 & H6 & H7).
  unfold readEntryAt. cbv zeta. rewrite H1, H2, H3, H4, H5, !Nat2Z.id, H6.
  rewrite !length_app, length_encodeEntry. rewrite !(proj2 (Nat.ltb_ge _ _)) by lia.
  unfold storedEntry. destruct (Deleted e) eqn:Ed; cbn [negb andb].
  - do 2 f_equal. lia.
  - destruct (Nat.ltb_spec 0 (length (Value e))).
    + rewrite (proj2 (Nat.ltb_ge _ _)) by lia. rewrite H7 by done. do 2 f_equal; [by destruct e; simpl in *; subst|lia].
    + assert (Value e = []) as Hv by (apply nil_length_inv; lia). do 2 f_equal; [|lia].
      destruct e; simpl in *. by subst.
Qed.

Definition encodeEntries (es : list Entry) : bytes := es ≫= encodeEntry.

Lemma encodeEntries_cons e es : encodeEntries (e :: es) = encodeEntry e ++ encodeEntries es.
Proof. done. Qed.

Lemma encodeEntries_app es1 es2 : encodeEntries (es1 ++ es2) = encodeEntries es1 ++ encodeEntries es2.
Proof. apply bind_app. Qed.

Lemma length_encodeEntries es : (length es <= length (encodeEntries es))%nat.
Proof.
  induction es as [|e es IH]; [done|]. rewrite encodeEntries_cons, length_app.
  pose proof (encodeEntry_nonempty e). simpl. lia.
Qed.

(** ** The linear scan *)

Lemma keepBest_newer b e : keepBest b e = newer b e.
Proof. by destruct b. Qed.

Definition isWanted (target : bytes) (maxVersion : option Z) (e : Entry) : Prop := wanted target maxVersion e = true.

#[export] Instance isWanted_dec t m e : Decision (isWanted t m e).
Proof. unfold isWanted. apply _. Defined.

Lemma scanLinear_spec target mv es pre best fuel :
  Forall entry_ok es -> (length es <= fuel)%nat ->
  scanLinear fuel (pre ++ encodeEntries es) target mv (length pre) best =
    foldl newer best (filter (isWanted target mv) (storedEntry <$> es)).
Proof.
  revert pre best fuel. induction es as [|e es IH]; intros pre best fuel Hok Hf.
  { destruct fuel; simpl; [done|]. rewrite app_nil_r, Nat.ltb_irrefl. done. }
  apply Forall_cons in Hok as [He Hok]. destruct fuel as [|f]; simpl in Hf; [lia|].
  rewrite encodeEntries_cons. cbn [scanLinear]. rewrite (proj2 (Nat.ltb_lt _ _))
    by (rewrite !length_app; pose proof (encodeEntry_nonempty e); lia).
  rewrite readEntryAt_encode by done.
  replace (length pre + length (encodeEntry e))%nat with (length (pre ++ encodeEntry e)) by apply length_app.
  rewrite app_assoc, IH by (done || lia). rewrite fmap_cons, filter_cons.
  destruct (decide (isWanted target mv (storedEntry e))) as [E|E]; unfold isWanted in E.
  - rewrite E. simpl. by rewrite keepBest_newer.
  - apply not_true_is_false in E. by rewrite E.
Qed.

Lemma wanted_visible target m e : isWanted target (Some m) e <-> visible_at target m e.
Proof.
  unfold isWanted, wanted, visible_at. rewrite andb_true_iff, bytes_eqb_spec, Z.leb_le. done.
Qed.

Lemma fold_wanted target m es :
  foldl newer None (filter (isWanted target (Some m)) es) = snapshot_get es target m.
Proof. unfold snapshot_get, newest. f_equal. apply list_filter_iff. intros e. apply wanted_visible. Qed.

(** Without a bound every version qualifies. *)
Lemma fold_wanted_all target m es :
  (forall e, e ∈ es -> Version e <= m) ->
  foldl newer None (filter (isWanted target None) es) = snapshot_get es target m.
Proof.
  intros Hm. unfold snapshot_get, newest. f_equal. apply filter_ext_in. intros e He.
  unfold isWanted, wanted, visible_at. rewrite andb_true_r, bytes_eqb_spec. specialize (Hm e He). tauto.
Qed.

(** ** Blocks and their restart table *)

Definition entryOffset (es : list Entry) (i : nat) : nat := length (encodeEntries (take i es)).

Definition restartCount (es : list Entry) : nat := ((length es + 15) / restartInterval)%nat.

Definition restartOffsets (es : list Entry) : list nat :=
  (fun i => entryOffset es (restartInterval * i)) <$> seq 0 (restartCount es).

Definition encodeOffsets (offs : list nat) : bytes := offs ≫= (fun o => be_encode 4 (Z.of_nat o)).

(** What [flushCurrentBlock] hands to the compressor. *)
Definition encodeBlock (es : list Entry) : bytes :=
  encodeEntries es ++ encodeOffsets (restartOffsets es) ++ be_encode 4 (Z.of_nat (restartCount es))
    ++ be_encode 4 blockRestartMagic.

Lemma length_encodeOffsets offs : length (encodeOffsets offs) = (length offs * 4)%nat.
Proof. induction offs as [|o offs IH]; [done|]. unfold encodeOffsets in *. rewrite bind_cons, length_app, IH. simpl. lia. Qed.

Lemma readOffsets_encode offs pre rest :
  Forall (fun o => Z.of_nat o < 2 ^ 32) offs ->
  readOffsets (length offs) (pre ++ encodeOffsets offs ++ rest) (length pre) = offs.
Proof.
  revert pre. induction offs as [|o offs IH]; intros pre Hok; [done|].
  apply Forall_cons in Hok as [Ho Hok]. cbn [length readOffsets].
  unfold encodeOffsets. rewrite bind_cons, <- app_assoc. f_equal.
  - rewrite slice_mid by (rewrite ?length_be_encode; done).
    rewrite be_decode_encode_id; [lia|]. change (256 ^ Z.of_nat 4) with (2 ^ 32). lia.
  - replace (length pre + 4)%nat with (length (pre ++ be_encode 4 (Z.of_nat o)))
      by (rewrite length_app, length_be_encode; lia).
    rewrite app_assoc. by apply IH.
Qed.

Lemma length_restartOffsets es : length (restartOffsets es) = restartCount es.
Proof. unfold restartOffsets. by rewrite length_fmap, length_seq. Qed.

Lemma restartCount_pos es : es <> [] -> (0 < restartCount es)%nat.
Proof.
  intros H. unfold restartCount, restartInterval. destruct es; [done|]. cbn [length].
  apply Nat.div_str_pos. lia.
Qed.

Lemma restartCount_lt es i : (i < restartCount es)%nat -> (16 * i < length es)%nat.
Proof.
  unfold restartCount, restartInterval. intros H. pose proof (Nat.div_mod (length es + 15) 16 ltac:(lia)) as Hd.
  pose proof (Nat.mod_upper_bound (length es + 15) 16 ltac:(lia)). nia.
Qed.

Lemma length_take_le es i : (length (encodeEntries (take i es)) <= length (encodeEntries es))%nat.
Proof. rewrite <- (take_drop i es) at 2. rewrite encodeEntries_app, length_app. lia. Qed.

Lemma restartOffsets_small es :
  Z.of_nat (length (encodeEntries es)) < 2 ^ 32 -> Forall (fun o => Z.of_nat o < 2 ^ 32) (restartOffsets es).
Proof.
  intros H. apply Forall_fmap, Forall_forall. intros i _. unfold compose, entryOffset.
  pose proof (length_take_le es (restartInterval * i)). lia.
Qed.

Lemma parse_encodeBlock es :
  es <> [] -> Z.of_nat (length (encodeEntries es)) < 2 ^ 32 ->
  parseBlockRestarts (encodeBlock es) = Some (mkBlockRestarts (encodeEntries es) (restartOffsets es)).
Proof.
  intros Hne Hsz. unfold parseBlockRestarts, encodeBlock.
  set (D := encodeEntries es) in *. set (O := encodeOffsets (restartOffsets es)). set (n := restartCount es).
  assert (length O = n * 4)%nat as HO by (unfold O; by rewrite length_encodeOffsets, length_restartOffsets).
  assert (Z.of_nat n < 2 ^ 32) as Hn.
  { pose proof (length_encodeEntries es). fold D in H. unfold n, restartCount, restartInterval.
    pose proof (Nat.Div0.div_le_upper_bound (length es + 15) 16 (length es + 1) ltac:(lia)).
    destruct es; [done|]. simpl length in *. 
    assert ((S (length es) + 15) / 16 <= S (length es))%nat by (apply Nat.Div0.div_le_upper_bound; lia). lia. }
  assert (0 < n)%nat as Hn0 by by apply restartCount_pos.
  rewrite !length_app, !length_be_encode, HO. cbv zeta. rewrite (proj2 (Nat.ltb_ge _ _)) by lia.
  assert (forall a b, a = (length D + n * 4)%nat -> b = (length D + n * 4 + 4)%nat ->
    slice (D ++ O ++ be_encode 4 (Z.of_nat n) ++ be_encode 4 blockRestartMagic) a b = be_encode 4 (Z.of_nat n)) as Hs1.
  { intros a b -> ->. rewrite (app_assoc D). apply slice_mid; rewrite length_app, HO, ?length_be_encode; done. }
  assert (forall a b, a = (length D + n * 4 + 4)%nat -> b = (length D + n * 4 + 8)%nat ->
    slice (D ++ O ++ be_encode 4 (Z.of_nat n) ++ be_encode 4 blockRestartMagic) a b = be_encode 4 blockRestartMagic) as Hs2.
  { intros a b -> ->. rewrite <- (app_nil_r (be_encode 4 blockRestartMagic)) at 1. rewrite (app_assoc D), (app_assoc (D ++ O)).
    apply slice_mid; rewrite !length_app, HO, !length_be_encode; lia. }
  rewrite Hs2 by lia. rewrite Hs1 by lia.
  rewrite be_decode_encode_id by (by vm_compute). rewrite Z.eqb_refl. cbn [negb].
  rewrite be_decode_encode_id by (change (256 ^ Z.of_nat 4) with (2 ^ 32); lia). rewrite Nat2Z.id.
  rewrite (proj2 (Nat.eqb_neq n 0)), (proj2 (Nat.ltb_ge _ _)) by lia. cbn [orb].
  replace (length D + (n * 4 + (4 + 4)) - 8 - n * 4)%nat with (length D) by lia.
  rewrite take_app_length. do 2 f_equal.
  unfold n at 1. rewrite <- (length_restartOffsets es). apply readOffsets_encode. by apply restartOffsets_small.
Qed.

(** ** The binary scan *)

Lemma storedEntry_key e : Key (storedEntry e) = Key e.
Proof. unfold storedEntry. by destruct (Deleted e). Qed.

Lemma storedEntry_version e : Version (storedEntry e) = Version e.
Proof. unfold storedEntry. by destruct (Deleted e). Qed.

Definition sorted_keys (es : list Entry) : Prop := StronglySorted bytes_le (Key <$> es).

Lemma sorted_lookup es i j a b :
  sorted_keys es -> (i <= j)%nat -> es !! i = Some a -> es !! j = Some b -> bytes_le (Key a) (Key b).
Proof.
  intros Hs Hij Ha Hb. destruct (decide (i = j)) as [->|Hne].
  { rewrite Ha in Hb. injection Hb as <-. apply bytes_le_refl. }
  rewrite <- (take_drop_middle _ _ _ Ha) in Hs. unfold sorted_keys in Hs. rewrite fmap_app, fmap_cons in Hs.
  apply StronglySorted_app in Hs as (_ & Hs & _). apply StronglySorted_inv in Hs as [_ Hs].
  rewrite Forall_forall in Hs. apply Hs, list_elem_of_fmap_2, list_elem_of_lookup.
  exists (j - S i)%nat. rewrite lookup_drop. rewrite <- Hb. f_equal. lia.
Qed.

Lemma scanFrom_spec target mv es pre best fuel :
  Forall entry_ok es -> sorted_keys es -> (length es <= fuel)%nat ->
  scanFrom fuel (pre ++ encodeEntries es) target mv (length pre) best =
    foldl newer best (filter (isWanted target mv) (storedEntry <$> es)).
Proof.
  revert pre best fuel. induction es as [|e es IH]; intros pre best fuel Hok Hs Hf.
  { destruct fuel; simpl; [done|]. rewrite app_nil_r, Nat.ltb_irrefl. done. }
  apply Forall_cons in Hok as [He Hok]. destruct fuel as [|f]; simpl in Hf; [lia|].
  apply StronglySorted_inv in Hs as [Hs Hall]. fold (sorted_keys es) in Hs.
  rewrite encodeEntries_cons. cbn [scanFrom]. rewrite (proj2 (Nat.ltb_lt _ _))
    by (rewrite !length_app; pose proof (encodeEntry_nonempty e); lia).
  rewrite readEntryAt_encode by done. cbv zeta. rewrite storedEntry_key.
  rewrite fmap_cons, filter_cons.
  assert ((if wanted target mv (storedEntry e) then keepBest best (storedEntry e) else best) =
    foldl newer best (if decide (isWanted target mv (storedEntry e)) then [storedEntry e] else [])) as ->.
  { destruct (decide (isWanted target mv (storedEntry e))) as [E|E]; unfold isWanted in E.
    - rewrite E. apply keepBest_newer.
    - apply not_true_is_false in E. by rewrite E. }
  set (b' := foldl newer best _).
  assert (foldl newer best (if decide (isWanted target mv (storedEntry e))
    then storedEntry e :: filter (isWanted target mv) (storedEntry <$> es)
    else filter (isWanted target mv) (storedEntry <$> es)) =
    foldl newer b' (filter (isWanted target mv) (storedEntry <$> es))) as ->.
  { unfold b'. by destruct (decide _). }
  destruct (bytes_ltb target (Key e)) eqn:Elt.
  - apply bytes_ltb_spec in Elt. rewrite filter_none; [done|].
    intros x (y & -> & Hy)%list_elem_of_fmap Hw. unfold isWanted, wanted in Hw. bool_prop.
    apply bytes_eqb_spec in H. rewrite storedEntry_key in H. rewrite Forall_forall in Hall.
    specialize (Hall (Key y) ltac:(by apply list_elem_of_fmap_2)). rewrite H in Hall.
    apply (bytes_lt_irrefl target). by eapply bytes_lt_le_trans.
  - replace (length pre + length (encodeEntry e))%nat with (length (pre ++ encodeEntry e)) by apply length_app.
    rewrite app_assoc. apply IH; [done|done|lia].
Qed.

Lemma restartKey_at br i pre e rest :
  entry_ok e -> br_data br = pre ++ encodeEntry e ++ rest -> br_offsets br !! i = Some (length pre) ->
  restartKey br i = Some (Key e).
Proof.
  intros Hok Hd Ho. unfold restartKey. rewrite Ho, Hd. cbn [default from_option]. cbv zeta. unfold id.
  destruct (entry_at pre e rest Hok) as (-> & _ & _ & _ & _ & Hk & _). rewrite Nat2Z.id, Hk.
  rewrite !length_app, length_encodeEntry. by rewrite !(proj2 (Nat.ltb_ge _ _)) by lia.
Qed.

Lemma encodeEntries_split es i e :
  es !! i = Some e ->
  encodeEntries es = encodeEntries (take i es) ++ encodeEntry e ++ encodeEntries (drop (S i) es).
Proof. intros He. rewrite <- (take_drop_middle _ _ _ He) at 1. by rewrite encodeEntries_app, encodeEntries_cons. Qed.

Lemma restartOffsets_lookup es i :
  (i < restartCount es)%nat -> restartOffsets es !! i = Some (entryOffset es (restartInterval * i)).
Proof. intros Hi. unfold restartOffsets. by rewrite list_lookup_fmap, lookup_seq_lt. Qed.

Lemma restartKey_spec es i e :
  Forall entry_ok es -> (i < restartCount es)%nat -> es !! (restartInterval * i)%nat = Some e ->
  restartKey (mkBlockRestarts (encodeEntries es) (restartOffsets es)) i = Some (Key e).
Proof.
  intros Hok Hi He. eapply restartKey_at; [by eapply Forall_lookup_1|by apply encodeEntries_split|].
  by apply restartOffsets_lookup.
Qed.

(** Where the search may start: no restart point, or one at or below the
    target. *)
Lemma restartSearch_spec keyAt target n (K : nat -> bytes) fuel lo hi idx :
  (forall i, (i < n)%nat -> keyAt i = Some (K i)) ->
  0 <= lo -> hi < Z.of_nat n -> lo <= hi + 1 -> hi - lo + 1 <= Z.of_nat fuel ->
  (idx = -1 -> lo = 0 /\ (hi = Z.of_nat n - 1 \/ bytes_lt target (K (Z.to_nat (hi + 1))))) ->
  (idx <> -1 -> 0 <= idx < Z.of_nat n /\ bytes_le (K (Z.to_nat idx)) target) ->
  let r := restartSearch fuel keyAt target lo hi idx in
  (r = -1 /\ (n = 0%nat \/ bytes_lt target (K 0%nat))) \/
  (0 <= r < Z.of_nat n /\ bytes_le (K (Z.to_nat r)) target).
Proof.
  intros HK. revert lo hi idx. induction fuel as [|f IH]; intros lo hi idx H0 Hn Hlh Hf Hidx Hidx2; simpl.
  - destruct (Z.eq_dec idx (-1)) as [->|Hne]; [left|right; auto]. split; [done|].
    destruct (Hidx eq_refl) as [-> [Hh|Hh]]; [left; lia|right]. by replace (Z.to_nat (hi + 1)) with 0%nat in Hh by lia.
  - destruct (Z.leb_spec lo hi) as [Hle|Hgt].
    + set (mid := (lo + hi) / 2). assert (lo <= mid <= hi) as Hmid.
      { unfold mid. split; [apply Z.div_le_lower_bound; lia|apply Z.div_le_upper_bound; lia]. }
      rewrite (HK (Z.to_nat mid)) by lia. destruct (bytes_compare (K (Z.to_nat mid)) target) eqn:Ec.
      * apply bytes_compare_eq in Ec. apply IH; try lia. intros _. split; [lia|]. rewrite Ec. apply bytes_le_refl.
      * apply IH; try lia. intros _. split; [lia|]. by apply bytes_lt_le.
      * apply bytes_lt_gt in Ec. apply IH; try lia; [|done]. intros ->. destruct (Hidx eq_refl) as [-> _].
        split; [done|]. right. by replace (mid - 1 + 1) with mid by lia.
    + destruct (Z.eq_dec idx (-1)) as [->|Hne]; [left|right; auto]. split; [done|].
      destruct (Hidx eq_refl) as [-> [Hh|Hh]]; [left; lia|right]. by replace (Z.to_nat (hi + 1)) with 0%nat in Hh by lia.
Qed.

(** No version of [target] sits right before a restart point that carries
    [target] too. *)
Definition not_straddling (es : list Entry) (target : bytes) : Prop :=
  forall i a b, (0 < i)%nat -> es !! (restartInterval * i - 1)%nat = Some a ->
    es !! (restartInterval * i)%nat = Some b -> Key b = target -> Key a <> target.

(** Everything before the chosen restart point has another key. *)
Lemma before_restart es target r b :
  sorted_keys es -> not_straddling es target -> es !! (restartInterval * r)%nat = Some b ->
  bytes_le (Key b) target -> forall a, a ∈ take (restartInterval * r) es -> Key a <> target.
Proof.
  intros Hs Hns Hb Hle a Ha Hk. apply list_elem_of_lookup in Ha as [i Hi].
  assert (i < restartInterval * r)%nat as Hlt.
  { apply lookup_lt_Some in Hi. rewrite length_take in Hi. lia. }
  rewrite lookup_take_lt in Hi by done.
  pose proof (sorted_lookup es i (restartInterval * r) a b Hs ltac:(lia) Hi Hb) as Hab.
  assert (Key b = target) as Hbt by (apply bytes_le_antisym; [done|by rewrite <- Hk]).
  destruct (lookup_lt_is_Some_2 es (restartInterval * r - 1)%nat) as [p Hp].
  { apply lookup_lt_Some in Hb. lia. }
  apply (Hns r p b); try done; [destruct r; unfold restartInterval in *; lia|].
  pose proof (sorted_lookup es i (restartInterval * r - 1) a p Hs ltac:(lia) Hi Hp) as H1.
  pose proof (sorted_lookup es (restartInterval * r - 1) (restartInterval * r) p b Hs ltac:(lia) Hp Hb) as H2.
  apply bytes_le_antisym; [by rewrite <- Hbt|by rewrite <- Hk].
Qed.

(** The scan of a block over its entries: [restarts] are the positions of the
    entries at the restart points. *)
Definition scanEntries (restarts : list nat) (es : list Entry) (target : bytes) (maxVersion : option Z) : option Entry :=
  let n := length restarts in
  let from i := foldl newer None (filter (isWanted target maxVersion) (drop i es)) in
  if (1 <? n)%nat then
    let restartIdx :=
      restartSearch n (fun i => restarts !! i ≫= fun j => Key <$> es !! j) target 0 (Z.of_nat n - 1) (-1) in
    if restartIdx =? -1 then None else from (default 0%nat (restarts !! Z.to_nat restartIdx))
  else from 0%nat.

Definition restartPositions (es : list Entry) : list nat := (fun i => restartInterval * i)%nat <$> seq 0 (restartCount es).

Lemma length_restartPositions es : length (restartPositions es) = restartCount es.
Proof. unfold restartPositions. by rewrite length_fmap, length_seq. Qed.

Lemma restartPositions_lookup es i :
  (i < restartCount es)%nat -> restartPositions es !! i = Some (restartInterval * i)%nat.
Proof. intros Hi. unfold restartPositions. by rewrite list_lookup_fmap, lookup_seq_lt. Qed.

(** The key of the [i]th restart point. *)
Definition restartEntryKey (es : list Entry) (i : nat) : bytes := from_option Key [] (es !! (restartInterval * i)%nat).

Lemma restart_entry es i : (i < restartCount es)%nat -> exists e, es !! (restartInterval * i)%nat = Some e.
Proof. intros Hi. apply lookup_lt_is_Some_2. by apply restartCount_lt. Qed.

(** What the search over the restart points of [es] ends with, wherever it
    reads the keys from. *)
Lemma restartSearch_entries keyAt es target :
  es <> [] -> (forall i, (i < restartCount es)%nat -> keyAt i = Some (restartEntryKey es i)) ->
  let n := restartCount es in
  let r := restartSearch n keyAt target 0 (Z.of_nat n - 1) (-1) in
  (r = -1 /\ bytes_lt target (restartEntryKey es 0)) \/
  (0 <= r < Z.of_nat n /\ bytes_le (restartEntryKey es (Z.to_nat r)) target).
Proof.
  intros Hne HK n. pose proof (restartCount_pos es Hne) as Hpos. fold n in Hpos.
  destruct (restartSearch_spec keyAt target n (restartEntryKey es) n 0 (Z.of_nat n - 1) (-1)) as [[H1 H2]|H]; auto; try lia.
  left. split; [done|]. destruct H2; [lia|done].
Qed.

Lemma restartSearch_ext k1 k2 target n fuel lo hi idx :
  (forall i, (i < n)%nat -> k1 i = k2 i) -> 0 <= lo -> hi < Z.of_nat n ->
  restartSearch fuel k1 target lo hi idx = restartSearch fuel k2 target lo hi idx.
Proof.
  intros HK. revert lo hi idx. induction fuel as [|f IH]; intros lo hi idx Hlo Hhi; simpl; [done|].
  destruct (Z.leb_spec lo hi) as [Hle|Hgt]; [|done].
  pose proof (Z.div_mod (lo + hi) 2 ltac:(lia)). pose proof (Z.mod_pos_bound (lo + hi) 2 ltac:(lia)).
  set (mid := (lo + hi) / 2) in *. rewrite HK by lia.
  destruct (k2 _) as [k|]; [destruct (bytes_compare k target)|]; apply IH; lia.
Qed.

Lemma restartKeys_entries es i :
  (i < restartCount es)%nat ->
  (restartPositions es !! i ≫= fun j => Key <$> es !! j) = Some (restartEntryKey es i).
Proof.
  intros Hi. rewrite restartPositions_lookup by done. cbn [mbind option_bind].
  destruct (restart_entry es i Hi) as [e He]. unfold restartEntryKey. by rewrite He.
Qed.

(** Storing an entry leaves its key, and so the shape of its block. *)
Lemma stored_keys (es : list Entry) : Key <$> (storedEntry <$> es) = Key <$> es.
Proof. rewrite <- list_fmap_compose. apply list_fmap_ext. intros i e _. apply storedEntry_key. Qed.

Lemma restartCount_stored es : restartCount (storedEntry <$> es) = restartCount es.
Proof. unfold restartCount. by rewrite length_fmap. Qed.

Lemma restartPositions_stored es : restartPositions (storedEntry <$> es) = restartPositions es.
Proof. unfold restartPositions. by rewrite restartCount_stored. Qed.

Lemma restartEntryKey_stored es i : restartEntryKey (storedEntry <$> es) i = restartEntryKey es i.
Proof.
  unfold restartEntryKey. rewrite list_lookup_fmap. destruct (es !! _); [|done]. simpl. apply storedEntry_key.
Qed.

Lemma sorted_stored es : sorted_keys es -> sorted_keys (storedEntry <$> es).
Proof. unfold sorted_keys. by rewrite stored_keys. Qed.

Lemma not_straddling_stored es target : not_straddling es target -> not_straddling (storedEntry <$> es) target.
Proof.
  intros Hns i a b Hi. rewrite !list_lookup_fmap. intros (x & Hx & ->)%fmap_Some (y & Hy & ->)%fmap_Some.
  rewrite !storedEntry_key. by apply (Hns i x y Hi).
Qed.

(** Decoding and scanning a block is scanning its entries. *)
Lemma scanBinary_entries es target mv :
  es <> [] -> Forall entry_ok es -> sorted_keys es -> (1 < restartCount es)%nat ->
  scanBinary (mkBlockRestarts (encodeEntries es) (restartOffsets es)) target mv =
    scanEntries (restartPositions es) (storedEntry <$> es) target mv.
Proof.
  intros Hne Hok Hs Hn. unfold scanBinary, scanEntries. cbn [br_offsets br_data].
  rewrite length_restartOffsets, length_restartPositions, (proj2 (Nat.ltb_lt _ _) Hn).
  set (br := mkBlockRestarts _ _).
  assert (forall i, (i < restartCount es)%nat -> restartKey br i = Some (restartEntryKey es i)) as HK.
  { intros i Hi. destruct (restart_entry es i Hi) as [e He]. unfold restartEntryKey. rewrite He. by apply restartKey_spec. }
  rewrite (restartSearch_ext (fun i => restartPositions es !! i ≫= fun j => Key <$> (storedEntry <$> es) !! j)
    (restartKey br) target (restartCount es) (restartCount es)); [|..|lia|lia].
  2:{ intros i Hi. rewrite HK, <- restartEntryKey_stored, <- restartPositions_stored by done.
      apply restartKeys_entries. by rewrite restartCount_stored. }
  pose proof (restartSearch_entries (restartKey br) es target Hne HK) as Hr. cbv zeta in Hr.
  set (r := restartSearch _ _ _ _ _ _) in *. destruct (Z.eqb_spec r (-1)) as [E|E]; [done|].
  destruct Hr as [[? _]|[Hr _]]; [done|].
  rewrite restartOffsets_lookup, restartPositions_lookup by lia. cbn [default from_option]. unfold id, entryOffset.
  rewrite <- (take_drop (restartInterval * Z.to_nat r) es) at 1 2.
  rewrite encodeEntries_app, scanFrom_spec, fmap_drop; [done|..].
  - by apply Forall_drop.
  - eapply StronglySorted_sublist; [apply fmap_sublist, sublist_drop|exact Hs].
  - rewrite length_app. pose proof (length_encodeEntries (drop (restartInterval * Z.to_nat r) es)). lia.
Qed.

Lemma scanBlock_entries es target mv :
  es <> [] -> Forall entry_ok es -> sorted_keys es -> Z.of_nat (length (encodeEntries es)) < 2 ^ 32 ->
  scanBlock (encodeBlock es) target mv = scanEntries (restartPositions es) (storedEntry <$> es) target mv.
Proof.
  intros Hne Hok Hs Hsz. unfold scanBlock. rewrite parse_encodeBlock by done. cbn [br_offsets br_data].
  rewrite length_restartOffsets. destruct (Nat.ltb_spec 1 (restartCount es)) as [Hn|Hn]; [by apply scanBinary_entries|].
  unfold scanEntries. rewrite length_restartPositions, (proj2 (Nat.ltb_ge _ _) Hn), drop_0.
  apply (scanLinear_spec target mv es []); [done|apply length_encodeEntries].
Qed.

(** The scan finds everything when the versions of the key do not straddle a
    restart point. *)
Lemma scanEntries_whole es target mv :
  es <> [] -> sorted_keys es -> not_straddling es target ->
  scanEntries (restartPositions es) es target mv = foldl newer None (filter (isWanted target mv) es).
Proof.
  intros Hne Hs Hns. unfold scanEntries. rewrite length_restartPositions, drop_0. case_if; [|done].
  set (keyAt := fun i => _).
  pose proof (restartSearch_entries keyAt es target Hne (fun i Hi => restartKeys_entries es i Hi)) as Hr.
  cbv zeta in Hr. set (r := restartSearch _ _ _ _ _ _) in *.
  assert (forall l, (forall a, a ∈ l -> Key a <> target) -> filter (isWanted target mv) l = []) as Hnil.
  { intros l Hl. apply filter_none. intros x Hx Hw. unfold isWanted, wanted in Hw.
    apply andb_true_iff in Hw as [Hk%bytes_eqb_spec _]. by apply (Hl x Hx). }
  destruct Hr as [[-> Hlt]|[Hr Hle]]; simpl.
  - rewrite Hnil; [done|]. intros a (i & Hi)%list_elem_of_lookup Hk. destruct (es !! 0%nat) as [e0|] eqn:E0; [|by destruct es].
    unfold restartEntryKey in Hlt. rewrite Nat.mul_0_r, E0 in Hlt. simpl in Hlt.
    pose proof (sorted_lookup _ 0 i e0 a Hs ltac:(lia) E0 Hi) as Hle. rewrite Hk in Hle.
    apply (bytes_lt_irrefl target). by eapply bytes_lt_le_trans.
  - destruct (Z.eqb_spec r (-1)) as [E|_]; [lia|]. rewrite restartPositions_lookup by lia. cbn [default from_option]. unfold id.
    destruct (restart_entry es (Z.to_nat r) ltac:(lia)) as [b Hb].
    f_equal. rewrite <- (take_drop (restartInterval * Z.to_nat r) es) at 2.
    rewrite filter_app, (Hnil (take _ es)); [done|]. apply (before_restart es target (Z.to_nat r) b Hs Hns Hb). unfold restartEntryKey in Hle. by rewrite Hb in Hle.
Qed.

(** ** The contract of a block *)

Lemma scanBlock_spec es target mv :
  es <> [] -> Forall entry_ok es -> sorted_keys es -> not_straddling es target ->
  Z.of_nat (length (encodeEntries es)) < 2 ^ 32 ->
  scanBlock (encodeBlock es) target mv = foldl newer None (filter (isWanted target mv) (storedEntry <$> es)).
Proof.
  intros Hne Hok Hs Hns Hsz. rewrite scanBlock_entries, <- restartPositions_stored by done.
  apply scanEntries_whole; [by destruct es|by apply sorted_stored|by apply not_straddling_stored].
Qed.

(** C27. Point lookups inside a block.  For a block built from entries sorted by
    key, decoding the block, its restart table and its entries and scanning
    (linearly, or by binary search over the restart points) returns the
    newest version of the key at or below the snapshot, and without a bound
    the newest one, provided the versions of that key do not straddle a
    restart point. *)
Theorem scanBlock_correct es target v :
  es <> [] -> Forall entry_ok es -> sorted_keys es -> not_straddling es target ->
  Z.of_nat (length (encodeEntries es)) < 2 ^ 32 ->
  scanBlock (encodeBlock es) target (Some v) = snapshot_get (storedEntry <$> es) target v /\
  ((forall e, e ∈ es -> Version e <= v) ->
   scanBlock (encodeBlock es) target None = snapshot_get (storedEntry <$> es) target v).
Proof.
  intros Hne Hok Hs Hns Hsz. rewrite !scanBlock_spec by done. split; [apply fold_wanted|].
  intros Hv. apply fold_wanted_all. intros e (x & -> & Hx)%list_elem_of_fmap. rewrite storedEntry_version. auto.
Qed.

Module SstBlockWitness.
(** Eighteen keys with one version each, then one key with two. *)
Definition es : list Entry :=
  ((fun i => mkEntry [Z.of_nat i] [7] false 0 1) <$> seq 0 18)
    ++ [mkEntry [99] [2] false 0 10; mkEntry [99] [1] false 0 5].

Lemma sorted_bool (l : list bytes) :
  bool_decide (Forall (fun p => bytes_leb p.1 p.2 = true) (zip l (tail l))) = true -> StronglySorted bytes_le l.
Proof.
  rewrite bool_decide_eq_true. intros H. apply Sorted_StronglySorted; [intros a b c; apply bytes_le_trans|].
  induction l as [|a [|b l] IH]; [constructor|repeat constructor|].
  simpl in H. apply Forall_cons in H as [H1 H2]. constructor; [by apply IH|].
  constructor. by apply bytes_leb_spec.
Qed.

Lemma scanBlock_correct_witness :
  scanBlock (encodeBlock es) [99] (Some 7) = Some (mkEntry [99] [1] false 0 5) /\
  scanBlock (encodeBlock es) [99] (Some 7) = snapshot_get (storedEntry <$> es) [99] 7.
Proof.
  split; [by vm_compute|]. apply (scanBlock_correct es [99] 7).
  - discriminate.
  - apply entries_okb. by vm_compute.
  - apply sorted_bool. by vm_compute.
  - intros i a b Hi Ha Hb Hk. destruct i as [|[|i]]; [lia| |].
    + vm_compute in Hb. injection Hb as <-. vm_compute in Hk. discriminate.
    + apply lookup_lt_Some in Hb. simpl in Hb. unfold restartInterval in Hb. lia.
  - by vm_compute.
Defined.
End SstBlockWitness.

(** A block of sixteen entries before the restart point: fifteen other keys,
    and the newest version of key "k"; its older version opens the second
    restart interval. *)
Definition straddlingBlock : list Entry :=
  ((fun i => mkEntry [Z.of_nat i] [7] false 0 1) <$> seq 0 15)
    ++ [mkEntry [107] [2] false 0 10; mkEntry [107] [1] false 0 5].

(** The binary search can return a stale version.  When a key's versions
    straddle a restart point, the search stops at the restart point that
    carries the key (equal keys only move the upper end of the interval) and
    never looks at the newer versions before it: the block below is sorted as
    the flush writes it, version 10 is the newest, and the lookup answers
    version 5. *)
Theorem binary_scan_stale :
  (forall i a b, (i < 17)%nat -> straddlingBlock !! i = Some a -> straddlingBlock !! S i = Some b ->
     bytes_lt (Key a) (Key b) \/ Key a = Key b /\ Version b < Version a) /\
  Version <$> snapshot_get (storedEntry <$> straddlingBlock) [107] 100 = Some 10 /\
  Version <$> scanBlock (encodeBlock straddlingBlock) [107] (Some 100) = Some 5 /\
  Version <$> scanBlock (encodeBlock straddlingBlock) [107] None = Some 5.
Proof.
  split; [|by vm_compute]. intros i a b Hi Ha Hb.
  do 17 (destruct i as [|i]; [vm_compute in Ha, Hb; try discriminate Hb; injection Ha as <-; injection Hb as <-;
    first [left; reflexivity|right; split; reflexivity]|]). lia.
Qed.
