(* ===== verification/SstTable.v ===== *)
(** * SSTable files ([sstable/sstable.go], writer and [open])

    The file as bytes: compressed and optionally sealed blocks with their
    checksums, the flat block index, the two Bloom filters, the key range and
    the footer.  [createAtLevel] is the writer's loop over a builder state,
    [sst_open] parses a file.  The compressors are parameters.  The theorem is
    that opening a written file gives the table that was written, and that
    every block of the index decodes to its entries. *)

From Stdlib Require Import Floats.SpecFloat.
From S2P Require Import Prelude Mvcc Checksum Crypto Registry Bloom Encoding SstBlock.

Definition TargetBlockSize : nat := 4096.
Definition compressNone : Z := 0.
Definition compressSnappy : Z := 1.
Definition compressZSTD : Z := 2.

Definition compressionTypeForLevel (level : Z) : Z :=
  if 2 <=? level then compressZSTD else compressSnappy.

Record sparseIndexEntry := mkIndexEntry { ix_key : bytes; ix_offset : Z; ix_size : Z }.

(** The table: the file and the metadata kept in memory.  Reference counts and
    the removal of the file are the subject of [SstRefs]. *)
Record SSTable := mkSSTable {
  s_file : bytes;
  indexOff : Z;
  indexLen : Z;
  numBlocks : Z;
  filterOff : Z;
  filterLen : Z;
  filterBits : Z;
  filterK : Z;
  prefixOff : Z;
  prefixLen : Z;
  prefixBits : Z;
  prefixK : Z;
  s_compress : Z;
  s_encrypted : bool;
  s_keyID : Z;
  blockKey : bytes;
  minKey : bytes;
  maxKey : bytes;
  s_level : Z;
  tombstoneRatio : spec_float;
}.

(** Results of the operations that can fail: [Panics] is an index out of range
    (a filter whose bit count exceeds its bytes). *)
Inductive outcome (A : Type) := Returns (a : A) | Errors | Panics.
Arguments Returns {A} _.
Arguments Errors {A}.
Arguments Panics {A}.

(** [ReadAt]: all bytes, or an error. *)
Definition readAt (file : bytes) (off : Z) (len : Z) : option bytes :=
  if (0 <=? off) && (0 <=? len) && (off + len <=? Z.of_nat (length file))
  then Some (slice file (Z.to_nat off) (Z.to_nat off + Z.to_nat len)) else None.

(** ** Reading a block *)

Section codecs.
Context (aesEncrypt : bytes -> bytes -> bytes) (xxhash : bytes -> Z).
Context (s2Encode zstdEncode : bytes -> bytes) (s2Decode zstdDecode : bytes -> option bytes).

Definition compressBlock (data : bytes) (level : Z) : bytes :=
  if compressionTypeForLevel level =? compressZSTD then zstdEncode data else s2Encode data.

Definition verifyBlockCRC (data : bytes) : option bytes :=
  if Nat.leb (length data) 4 then None
  else
    let contentLen := (length data - 4)%nat in
    let blockContent := take contentLen data in
    if negb (be_decode (drop contentLen data) =? u32 (crc32 blockContent)) then None else Some blockContent.

Definition decodeContent (encrypted : bool) (key : bytes) (compress : Z) (raw : bytes) : option bytes :=
  match verifyBlockCRC raw with
  | None => None
  | Some content =>
      match (if encrypted then OpenBlockWithKey aesEncrypt key content else Some content) with
      | None => None
      | Some content =>
          if compress =? compressSnappy then s2Decode content
          else if compress =? compressZSTD then zstdDecode content
          else Some content
      end
  end.

Definition decodeBlock (s : SSTable) (raw : bytes) : option bytes :=
  decodeContent (s_encrypted s) (blockKey s) (s_compress s) raw.

(** [getIndexData] and [getEntryAt]; [None] is the nil slice. *)
Definition getIndexData (s : SSTable) : option bytes :=
  if indexLen s <=? 0 then None else readAt (s_file s) (indexOff s) (indexLen s).

Definition indexEntryAt (idx : bytes) (numBlocks i : Z) : bytes * Z * Z :=
  if (i <? 0) || (numBlocks <=? i) then ([], 0, 0)
  else if Z.of_nat (length idx) <? 4 + numBlocks * 4 then ([], 0, 0)
  else
    let p := Z.to_nat (4 + i * 4) in
    let entryRelOffset := be_decode (slice idx p (p + 4)) in
    let dataStart := Z.to_nat (4 + numBlocks * 4 + entryRelOffset) in
    if Nat.ltb (length idx) (dataStart + 14) then ([], 0, 0)
    else
      let keyLen := Z.to_nat (be_decode (slice idx dataStart (dataStart + 2))) in
      let offset := i64 (be_decode (slice idx (dataStart + 2) (dataStart + 10))) in
      let size := be_decode (slice idx (dataStart + 10) (dataStart + 14)) in
      if Nat.ltb (length idx) (dataStart + 14 + keyLen) then ([], 0, 0)
      else (slice idx (dataStart + 14) (dataStart + 14 + keyLen), offset, size).

Definition getEntryAt (s : SSTable) (i : Z) : bytes * Z * Z :=
  if (i <? 0) || (numBlocks s <=? i) then ([], 0, 0)
  else
    match getIndexData s with
    | None => ([], 0, 0)
    | Some idx => indexEntryAt idx (numBlocks s) i
    end.

Definition getKeyAt (s : SSTable) (i : Z) : bytes := (getEntryAt s i).1.1.

(** [getFilter] and [getPrefixFilter]; [None] is nil. *)
Definition getFilter (s : SSTable) : option Filter :=
  if filterLen s <=? 0 then None
  else
    match readAt (s_file s) (filterOff s) (filterLen s) with
    | None => None
    | Some raw => Some (NewFilterFromBytes raw (filterBits s) (filterK s))
    end.

Definition getPrefixFilter (s : SSTable) : option Filter :=
  if prefixLen s <=? 0 then None
  else
    match readAt (s_file s) (prefixOff s) (prefixLen s) with
    | None => None
    | Some raw => Some (NewFilterFromBytes raw (prefixBits s) (prefixK s))
    end.

Definition MayContainPrefix (s : SSTable) (prefix : bytes) : outcome bool :=
  match getPrefixFilter s with
  | None => Returns true
  | Some f => match MayContain xxhash f prefix with Some b => Returns b | None => Panics end
  end.

(** ** Writing *)

(** A nil slice is told from an empty one by [firstKeyInBlock != nil].  The
    memtable's [byteSlab.alloc] hands out the empty key as nil, which is what a
    flush passes on and what is modelled; a compaction passes copies made with
    [make], never nil.  The two agree on non-empty keys, to which the theorems
    are restricted. *)
Definition keySlice (k : bytes) : option bytes := match k with [] => None | _ => Some k end.

Record Builder := mkBuilder {
  bl_file : bytes;
  bl_index : list sparseIndexEntry;
  bl_keys : list bytes;
  bl_offset : Z;
  bl_block : bytes;
  bl_firstKey : option bytes;
  bl_offsets : list nat;
  bl_err : bool;
  bl_keyID : Z;
  bl_prefixFilter : Filter;
  bl_tombstones : Z;
  bl_entryCount : nat;
  bl_prevKey : bytes;
}.

(** Encrypting a compressed block: key id and payload; the nonce is random. *)
Definition blockPayload (reg : option KeyRegistry) (nonce compressed : bytes) (keyID : Z) : option (Z * bytes) :=
  match reg with
  | None => Some (keyID, compressed)
  | Some kr => SealBlock aesEncrypt kr nonce compressed
  end.

Definition flushCurrentBlock (level : Z) (reg : option KeyRegistry) (nonces : nat -> bytes) (b : Builder) : Builder :=
  if Nat.eqb (length (bl_block b)) 0 || bl_err b then b
  else
    let blockData := bl_block b ++ encodeOffsets (bl_offsets b)
      ++ be_encode 4 (Z.of_nat (length (bl_offsets b))) ++ be_encode 4 blockRestartMagic in
    let compressed := compressBlock blockData level in
    match blockPayload reg (nonces (length (bl_index b))) compressed (bl_keyID b) with
    | None =>
        mkBuilder (bl_file b) (bl_index b) (bl_keys b) (bl_offset b) blockData (bl_firstKey b) (bl_offsets b)
          true (bl_keyID b) (bl_prefixFilter b) (bl_tombstones b) (bl_entryCount b) (bl_prevKey b)
    | Some (keyID, payload) =>
        let blockSize := u32 (Z.of_nat (length payload) + 4) in
        mkBuilder (bl_file b ++ payload ++ be_encode 4 (u32 (crc32 payload)))
          (bl_index b ++ [mkIndexEntry (default [] (bl_firstKey b)) (bl_offset b) blockSize])
          (bl_keys b) (bl_offset b + blockSize) [] None [] false keyID
          (bl_prefixFilter b) (bl_tombstones b) (bl_entryCount b) (bl_prevKey b)
    end.

(** The body of the loop over the entries. *)
Definition addEntry (level : Z) (reg : option KeyRegistry) (nonces : nat -> bytes) (nowUnix : Z)
    (b : Builder) (e : Entry) : option Builder :=
  let b :=
    if (match bl_firstKey b with Some _ => true | None => false end)
       && Nat.leb TargetBlockSize (length (bl_block b)) && negb (bytes_eqb (Key e) (bl_prevKey b))
    then flushCurrentBlock level reg nonces b else b in
  match Filter_Add xxhash (bl_prefixFilter b) (ExtractPrefix (Key e)) with
  | None => None
  | Some prefixFilter =>
      let tombstones :=
        if Deleted e || ((0 <? ExpiresAt e) && (ExpiresAt e <=? nowUnix)) then bl_tombstones b + 1
        else bl_tombstones b in
      let '(firstKey, offsets, count) :=
        match bl_firstKey b with
        | None => (keySlice (Key e), bl_offsets b ++ [0%nat], 0%nat)
        | Some k =>
            (Some k,
             (if Nat.eqb (bl_entryCount b mod restartInterval) 0
              then bl_offsets b ++ [length (bl_block b)] else bl_offsets b),
             bl_entryCount b)
        end in
      Some (mkBuilder (bl_file b) (bl_index b) (bl_keys b ++ [Key e]) (bl_offset b)
        (bl_block b ++ encodeEntry e) firstKey offsets (bl_err b) (bl_keyID b) prefixFilter tombstones
        (S count) (Key e))
  end.

Fixpoint addEntries (level : Z) (reg : option KeyRegistry) (nonces : nat -> bytes) (nowUnix : Z)
    (b : Builder) (entries : list Entry) : option Builder :=
  match entries with
  | [] => Some b
  | e :: entries =>
      match addEntry level reg nonces nowUnix b e with
      | None => None
      | Some b => addEntries level reg nonces nowUnix b entries
      end
  end.

(** The flat index: count, offset table, entries. *)
Definition encodeIndexEntry (ix : sparseIndexEntry) : bytes :=
  be_encode 2 (Z.of_nat (length (ix_key ix))) ++ be_encode 8 (u64 (ix_offset ix)) ++ be_encode 4 (ix_size ix)
    ++ ix_key ix.

Fixpoint indexTable (rel : nat) (index : list sparseIndexEntry) : bytes :=
  match index with
  | [] => []
  | ix :: index => be_encode 4 (Z.of_nat rel) ++ indexTable (rel + length (encodeIndexEntry ix)) index
  end.

Definition encodeIndex (index : list sparseIndexEntry) : option bytes :=
  if forallb (fun ix => Z.of_nat (length (ix_key ix)) <=? 65535) index
  then Some (be_encode 4 (Z.of_nat (length index)) ++ indexTable 0 index ++ (index ≫= encodeIndexEntry))
  else None.

Definition encodeFilter (f : Filter) : bytes := [f_k f] ++ be_encode 4 (f_bits f) ++ f_data f.

(** [uint16(tombstoneRatio*10000)]. *)
Definition ratioOf (tombstones n : Z) : spec_float :=
  if n =? 0 then S754_zero false else SFdiv 53 1024 (float_of_int tombstones) (float_of_int n).

Definition quantise (ratio : spec_float) : Z := trunc_float (SFmul 53 1024 ratio (float_of_int 10000)).

Definition encodeFooter (indexStart bloomStart compress minKeyStart : Z) (key : option Z) (ratio : spec_float) : bytes :=
  be_encode 8 indexStart ++ be_encode 8 bloomStart ++ [compress] ++ be_encode 8 minKeyStart
    ++ match key with Some id => be_encode 4 id ++ [1] | None => be_encode 4 0 ++ [0] end
    ++ be_encode 2 (quantise ratio).

Definition emptyBuilder (n : nat) : Builder :=
  mkBuilder [] [] [] 0 [] None [] false 0 (NewFilterSized (Z.of_nat n) 10) 0 0 [].

Definition createAtLevel (entries : list Entry) (level : Z) (reg : option KeyRegistry)
    (nonces : nat -> bytes) (nowUnix : Z) : outcome SSTable :=
  match addEntries level reg nonces nowUnix (emptyBuilder (length entries)) entries with
  | None => Panics
  | Some b =>
      let b := flushCurrentBlock level reg nonces b in
      if bl_err b then Errors
      else
        match encodeIndex (bl_index b) with
        | None => Errors
        | Some indexData =>
            match NewFilter xxhash (bl_keys b) 10 with
            | None => Panics
            | Some filter =>
                let indexStart := bl_offset b in
                let bloomStart := indexStart + Z.of_nat (length indexData) in
                let prefixFilter := bl_prefixFilter b in
                let prefixStart := bloomStart + 5 + Z.of_nat (length (f_data filter)) in
                let minKeyStart := prefixStart + 5 + Z.of_nat (length (f_data prefixFilter)) in
                let minK := from_option Key [] (head entries) in
                let maxK := from_option Key [] (last entries) in
                let enc := match reg with Some _ => negb (bl_keyID b =? 0) | None => false end in
                let ratio := ratioOf (bl_tombstones b) (Z.of_nat (length entries)) in
                let file := bl_file b ++ indexData ++ encodeFilter filter ++ encodeFilter prefixFilter
                  ++ be_encode 4 (Z.of_nat (length minK)) ++ minK ++ be_encode 4 (Z.of_nat (length maxK)) ++ maxK
                  ++ encodeFooter indexStart bloomStart (compressionTypeForLevel level) minKeyStart
                       (if enc then Some (bl_keyID b) else None) ratio in
                Returns (mkSSTable file indexStart (Z.of_nat (length indexData)) (u32 (Z.of_nat (length (bl_index b))))
                  (bloomStart + 5) (Z.of_nat (length (f_data filter))) (f_bits filter) (f_k filter)
                  (prefixStart + 5) (Z.of_nat (length (f_data prefixFilter))) (f_bits prefixFilter) (f_k prefixFilter)
                  (compressionTypeForLevel level) enc (bl_keyID b)
                  (match reg with Some kr => if enc then (ActiveKey kr).2 else [] | None => [] end)
                  minK maxK level ratio)
            end
        end
  end.

(** ** Opening *)

(** The two filters: offset, length, bits and probes; the length falls back to
    everything before the key range. *)
Definition openFilter (file : bytes) (bloomStart minKeyOffset : Z) : Z * Z * Z * Z :=
  if bloomStart + 5 <=? Z.of_nat (length file) then
    match readAt file bloomStart 1, readAt file (bloomStart + 1) 4 with
    | Some kByte, Some bitsBuf =>
        let bits := be_decode bitsBuf in
        let l := minKeyOffset - (bloomStart + 5) in
        if 0 <? l then
          let flen := u32 (bits + 7) / 8 in
          (bloomStart + 5, if (flen <=? 0) || (l <? flen) then l else flen, bits, be_decode kByte)
        else (0, 0, bits, be_decode kByte)
    | _, _ => (0, 0, 0, 0)
    end
  else (0, 0, 0, 0).

Definition openPrefixFilter (file : bytes) (filterOff filterLen minKeyOffset : Z) : Z * Z * Z * Z :=
  if 0 <? filterLen then
    let pOff := filterOff + filterLen in
    if pOff + 5 <=? minKeyOffset then
      match readAt file pOff 1, readAt file (pOff + 1) 4 with
      | Some kByte, Some bitsBuf =>
          let pl := u32 (be_decode bitsBuf + 7) / 8 in
          if (0 <? pl) && (pOff + 5 + pl <=? minKeyOffset)
          then (pOff + 5, pl, be_decode bitsBuf, be_decode kByte) else (0, 0, 0, 0)
      | _, _ => (0, 0, 0, 0)
      end
    else (0, 0, 0, 0)
  else (0, 0, 0, 0).

(** The stored key range, over defaults taken from the index. *)
Definition openRange (file : bytes) (minKeyOffset : Z) (min0 max0 : bytes) : bytes * bytes :=
  let fileSize := Z.of_nat (length file) in
  if (0 <? minKeyOffset) && (minKeyOffset <? fileSize - 32) then
    match readAt file minKeyOffset 4 with
    | None => (min0, max0)
    | Some lenBuf =>
        let mkLen := be_decode lenBuf in
        let minK :=
          if (0 <? mkLen) && (minKeyOffset + 4 + mkLen <? fileSize - 32)
          then default min0 (readAt file (minKeyOffset + 4) mkLen) else min0 in
        let mkOff := minKeyOffset + 4 + mkLen in
        match readAt file mkOff 4 with
        | None => (minK, max0)
        | Some lenBuf =>
            let mkLen := be_decode lenBuf in
            let maxK :=
              if (0 <? mkLen) && (mkOff + 4 + mkLen <=? fileSize - 32)
              then default max0 (readAt file (mkOff + 4) mkLen) else max0 in
            (minK, maxK)
        end
    end
  else (min0, max0).

(** The zero table of a file too short to hold a footer. *)
Definition bareTable (file : bytes) : SSTable :=
  mkSSTable file 0 0 0 0 0 0 0 0 0 0 0 0 false 0 [] [] [] 0 (S754_zero false).

Definition sst_open (file : bytes) (reg : option KeyRegistry) : option SSTable :=
  let fileSize := Z.of_nat (length file) in
  if fileSize <? 32 then Some (bareTable file)
  else
    match readAt file (fileSize - 32) 32 with
    | None => None
    | Some footer =>
        let indexStart := i64 (be_decode (slice footer 0 8)) in
        let bloomStart := i64 (be_decode (slice footer 8 16)) in
        let compressType := be_decode (slice footer 16 17) in
        let minKeyOffset := i64 (be_decode (slice footer 17 25)) in
        let keyID := be_decode (slice footer 25 29) in
        let encrypted := be_decode (slice footer 29 30) =? 1 in
        match (if encrypted then match reg with None => None | Some kr => GetKey kr keyID end else Some []) with
        | None => None
        | Some key =>
            match readAt file indexStart 4 with
            | None => None
            | Some numBuf =>
                let n := be_decode numBuf in
                let '(fOff, fLen, fBits, fK) := openFilter file bloomStart minKeyOffset in
                let '(pOff, pLen, pBits, pK) := openPrefixFilter file fOff fLen minKeyOffset in
                let ratio := SFdiv 53 1024 (float_of_int (be_decode (slice footer 30 32))) (float_of_int 10000) in
                let sst := mkSSTable file indexStart (bloomStart - indexStart) n fOff fLen fBits fK
                  pOff pLen pBits pK compressType encrypted keyID key [] [] 0 ratio in
                let '(min0, max0) :=
                  if 0 <? n then (getKeyAt sst 0, getKeyAt sst (n - 1)) else ([], []) in
                let '(minK, maxK) := openRange file minKeyOffset min0 max0 in
                Some (mkSSTable file indexStart (bloomStart - indexStart) n fOff fLen fBits fK
                  pOff pLen pBits pK compressType encrypted keyID key minK maxK 0 ratio)
            end
        end
    end.

End codecs.

(** ** How entries are cut into blocks *)

(** A block is closed at a key change once it holds [TargetBlockSize] bytes. *)
Definition splitStep (st : list (list Entry) * list Entry) (e : Entry) : list (list Entry) * list Entry :=
  let '(gs, cur) := st in
  if negb (Nat.eqb (length cur) 0) && Nat.leb TargetBlockSize (length (encodeEntries cur))
     && negb (bytes_eqb (Key e) (from_option Key [] (last cur)))
  then (gs ++ [cur], [e]) else (gs, cur ++ [e]).

Definition splitBlocks (es : list Entry) : list (list Entry) :=
  let '(gs, cur) := foldl splitStep ([], []) es in
  match cur with [] => gs | _ => gs ++ [cur] end.

Lemma restartOffsets_snoc cur e :
  restartOffsets (cur ++ [e]) =
    if Nat.eqb (length cur mod restartInterval) 0 then restartOffsets cur ++ [length (encodeEntries cur)]
    else restartOffsets cur.
Proof.
  assert (forall n, (n <= restartCount cur)%nat ->
    (fun i => entryOffset (cur ++ [e]) (restartInterval * i)) <$> seq 0 n =
    (fun i => entryOffset cur (restartInterval * i)) <$> seq 0 n) as Hpre.
  { intros n Hn. apply list_fmap_ext. intros j i Hj. apply lookup_seq in Hj as [-> Hj].
    unfold entryOffset. rewrite take_app_le; [done|]. simpl.
    pose proof (restartCount_lt cur j ltac:(lia)). unfold restartInterval. lia. }
  unfold restartOffsets at 1. unfold restartCount at 1. rewrite length_app. cbn [length].
  pose proof (Nat.div_mod_eq (length cur) 16) as Hd. pose proof (Nat.mod_upper_bound (length cur) 16 ltac:(lia)) as Hm.
  unfold restartInterval at 2 3.
  destruct (Nat.eqb_spec (length cur mod 16) 0) as [E|E].
  - assert (restartCount cur = length cur / 16)%nat as Hc.
    { unfold restartCount, restartInterval. symmetry. apply (Nat.div_unique _ _ _ 15); lia. }
    replace ((length cur + 1 + 15) / 16)%nat with (S (restartCount cur)).
    2:{ rewrite Hc. apply (Nat.div_unique _ _ _ 0); lia. }
    rewrite seq_S, fmap_app, Hpre by lia. f_equal. simpl. f_equal. unfold entryOffset.
    rewrite take_app_length'; [done|]. unfold restartInterval. lia.
  - replace ((length cur + 1 + 15) / 16)%nat with (restartCount cur); [by apply Hpre|].
    unfold restartCount, restartInterval.
    apply (Nat.div_unique _ _ ((length cur + 15) / 16) (length cur mod 16)); [lia|].
    assert ((length cur + 15) / 16 = S (length cur / 16))%nat as ->; [|lia].
    symmetry. apply (Nat.div_unique _ _ _ (length cur mod 16 - 1)); lia.
Qed.

(** ** Blocks on disk *)

(** What the writer relies on in a compressor. *)
Class LosslessCodec (encode : bytes -> bytes) (decode : bytes -> option bytes) : Prop := {
  codec_roundtrip : forall d, decode (encode d) = Some d;
  codec_nonempty : forall d, d <> [] -> encode d <> [];
}.

(** A registry that can seal: its active key is an AES key, stored under an id
    that the four-byte footer field holds. *)
Definition registry_usable (reg : option KeyRegistry) : Prop :=
  match reg with
  | None => True
  | Some kr =>
      aesKeyOk (ActiveKey kr).2 = true /\ 0 < activeKeyID kr < 2 ^ 32 /\ is_Some (dataKeys kr !! activeKeyID kr)
  end.

Definition regEncrypts (reg : option KeyRegistry) : bool := match reg with Some _ => true | None => false end.
Definition regKey (reg : option KeyRegistry) : bytes := match reg with Some kr => (ActiveKey kr).2 | None => [] end.
Definition regKeyID (reg : option KeyRegistry) : Z := match reg with Some kr => activeKeyID kr | None => 0 end.

Lemma readAt_app pre mid post off len :
  off = Z.of_nat (length pre) -> len = Z.of_nat (length mid) -> readAt (pre ++ mid ++ post) off len = Some mid.
Proof.
  intros -> ->. unfold readAt. rewrite !length_app, !Nat2Z.id.
  rewrite !(proj2 (Z.leb_le _ _)) by lia. cbn [andb]. f_equal. by apply slice_mid.
Qed.

Lemma readAt_mono f g off len r : readAt f off len = Some r -> readAt (f ++ g) off len = Some r.
Proof.
  unfold readAt. intros H.
  destruct ((0 <=? off) && (0 <=? len) && (off + len <=? Z.of_nat (length f))) eqn:E; [|done].
  bool_prop. rewrite length_app.
  rewrite !(proj2 (Z.leb_le _ _)) by lia. cbn [andb]. rewrite <- H. f_equal. unfold slice.
  rewrite drop_app_le by lia. rewrite take_app_le; [done|]. rewrite length_drop. lia.
Qed.

Section writer.
Context (aesEncrypt : bytes -> bytes -> bytes) (xxhash : bytes -> Z).
Context (s2Encode zstdEncode : bytes -> bytes) (s2Decode zstdDecode : bytes -> option bytes).
Context `{!LosslessCodec s2Encode s2Decode, !LosslessCodec zstdEncode zstdDecode}.
Context (level : Z) (reg : option KeyRegistry) (nonces : nat -> bytes) (nowUnix : Z).
Context (reg_ok : registry_usable reg) (nonces_ok : forall i, length (nonces i) = blockNonceSize).

Notation compress := (compressBlock s2Encode zstdEncode).
Notation decode := (decodeContent aesEncrypt s2Decode zstdDecode (regEncrypts reg) (regKey reg) (compressionTypeForLevel level)).

Lemma compress_spec d :
  d <> [] -> compress d level <> [] /\
  (if compressionTypeForLevel level =? compressSnappy then s2Decode (compress d level)
   else if compressionTypeForLevel level =? compressZSTD then zstdDecode (compress d level)
   else Some (compress d level)) = Some d.
Proof.
  intros Hd. unfold compressBlock, compressionTypeForLevel. destruct (2 <=? level); simpl.
  - split; [by apply codec_nonempty|apply codec_roundtrip].
  - split; [by apply codec_nonempty|apply codec_roundtrip].
Qed.

Lemma verifyBlockCRC_append p : p <> [] -> verifyBlockCRC (p ++ be_encode 4 (u32 (crc32 p))) = Some p.
Proof.
  intros Hp. unfold verifyBlockCRC. rewrite length_app, length_be_encode.
  assert (0 < length p)%nat by (destruct p; [done|simpl; lia]).
  destruct (Nat.leb_spec (length p + 4) 4); [lia|].
  replace (length p + 4 - 4)%nat with (length p) by lia. rewrite take_app_length, drop_app_length.
  rewrite be_decode_encode_id by apply u32_range. by rewrite Z.eqb_refl.
Qed.

(** The payload of a block: how it is made, and that it reads back. *)
Lemma payload_decodes d nonce id :
  d <> [] -> length nonce = blockNonceSize ->
  exists p, blockPayload aesEncrypt reg nonce (compress d level) id = Some (if reg then regKeyID reg else id, p) /\
    p <> [] /\ (length p <= length (compress d level) + 28)%nat /\
    decode (p ++ be_encode 4 (u32 (crc32 p))) = Some d.
Proof.
  intros Hd Hn. destruct (compress_spec d Hd) as [Hne Hdec]. unfold blockPayload, decodeContent.
  destruct reg as [kr|]; simpl in *.
  - destruct reg_ok as (Hk & _ & _). unfold SealBlock, ActiveKey.
    set (key := default [] (dataKeys kr !! activeKeyID kr)) in *.
    rewrite Hk. eexists. split; [done|]. simpl.
    assert (nonce ++ gcmSeal aesEncrypt key nonce (compress d level) <> []) as Hp.
    { intros E. apply (f_equal length) in E. rewrite length_app, Hn in E. done. }
    split_and!; [done| |].
    + rewrite length_app, length_gcmSeal, Hn. unfold blockNonceSize. lia.
    + rewrite verifyBlockCRC_append by done. by rewrite OpenBlockWithKey_seal by done.
  - eexists. split; [done|]. split_and!; [done|lia|]. by rewrite verifyBlockCRC_append.
Qed.

(** Block [g] is on disk where the index says. *)
Definition block_in (file : bytes) (g : list Entry) (ix : sparseIndexEntry) : Prop :=
  g <> [] /\ ix_key ix = from_option Key [] (head g) /\ is_u32 (ix_size ix) /\ 0 <= ix_offset ix /\
  exists raw, readAt file (ix_offset ix) (ix_size ix) = Some raw /\ decode raw = Some (encodeBlock g).

Lemma block_in_mono f f' g ix : block_in f g ix -> block_in (f ++ f') g ix.
Proof. intros (H1 & H2 & H3 & H4 & raw & H5 & H6). split_and!; eauto using readAt_mono. Qed.

(** The builder after [es], cut into the blocks [gs] and the open block [cur]. *)
Record build_inv (f0 : Filter) (b : Builder) (gs : list (list Entry)) (cur es : list Entry) : Prop := {
  bi_concat : concat gs ++ cur = es;
  bi_block : bl_block b = encodeEntries cur;
  bi_first : bl_firstKey b = Key <$> head cur;
  bi_offsets : bl_offsets b = restartOffsets cur;
  bi_count : cur <> [] -> bl_entryCount b = length cur;
  bi_prev : cur <> [] -> bl_prevKey b = from_option Key [] (last cur);
  bi_err : bl_err b = false;
  bi_keys : bl_keys b = Key <$> es;
  bi_offset : bl_offset b = Z.of_nat (length (bl_file b));
  bi_blocks : Forall2 (block_in (bl_file b)) gs (bl_index b);
  bi_keyID : bl_keyID b = if decide (gs = []) then 0 else regKeyID reg;
  bi_prefix : addKeys xxhash f0 (ExtractPrefix <$> (Key <$> es)) = Some (bl_prefixFilter b);
}.

(** Blocks whose compressed form fits the four-byte size of the index. *)
Definition fits (g : list Entry) : Prop := Z.of_nat (length (compress (encodeBlock g) level)) + 32 < 2 ^ 32.

Lemma encodeBlock_nonempty g : encodeBlock g <> [].
Proof. unfold encodeBlock. intros E. apply app_nil in E as [_ E]. apply app_nil in E as [_ E]. discriminate E. Qed.

Lemma flush_inv f0 b gs cur es :
  build_inv f0 b gs cur es -> cur <> [] -> fits cur ->
  build_inv f0 (flushCurrentBlock aesEncrypt s2Encode zstdEncode level reg nonces b) (gs ++ [cur]) [] es /\
  bl_tombstones (flushCurrentBlock aesEncrypt s2Encode zstdEncode level reg nonces b) = bl_tombstones b.
Proof.
  intros [Hc Hb Hf Ho Hn Hp He Hk Hoff Hbl Hid Hpre] Hne Hfit. unfold flushCurrentBlock.
  rewrite He, orb_false_r, Hb. destruct (Nat.eqb_spec (length (encodeEntries cur)) 0) as [E|_].
  { pose proof (length_encodeEntries cur). destruct cur; [done|]. simpl in *. lia. }
  rewrite Ho, length_restartOffsets. fold (encodeBlock cur).
  destruct (payload_decodes (encodeBlock cur) (nonces (length (bl_index b))) (bl_keyID b))
    as (p & -> & Hpne & Hlen & Hdec); [apply encodeBlock_nonempty|apply nonces_ok|].
  unfold fits in Hfit. split; [|done].
  assert (u32 (Z.of_nat (length p) + 4) = Z.of_nat (length p) + 4) as Hu by (apply u32_id; unfold is_u32; lia).
  rewrite Hu. split; cbn [bl_file bl_block bl_firstKey bl_offsets bl_entryCount bl_prevKey bl_err bl_keys bl_offset
    bl_index bl_keyID bl_prefixFilter]; try done.
  - rewrite concat_app. simpl. by rewrite !app_nil_r.
  - rewrite Hoff, !length_app, length_be_encode. lia.
  - apply Forall2_app.
    + eapply Forall2_impl; [exact Hbl|]. intros g ix Hg. by apply block_in_mono.
    + constructor; [|done]. split; [done|]. cbn [ix_key ix_size ix_offset].
      split; [rewrite Hf; by destruct cur|]. split; [unfold is_u32; lia|]. split; [lia|].
      exists (p ++ be_encode 4 (u32 (crc32 p))). split; [|exact Hdec].
      rewrite <- (app_nil_r (p ++ _)) at 1. apply readAt_app; [done|]. rewrite length_app, length_be_encode. lia.
  - destruct (decide (gs ++ [cur] = [])) as [E|_]; [by destruct gs|].
    destruct reg; [done|]. rewrite Hid. by destruct (decide _).
Qed.

Lemma addKeys_snoc f ks k :
  addKeys xxhash f (ks ++ [k]) = f' ← addKeys xxhash f ks; Filter_Add xxhash f' k.
Proof.
  revert f. induction ks as [|x ks IH]; intros f; simpl.
  - destruct (Filter_Add xxhash f k); done.
  - destruct (Filter_Add xxhash f x); [apply IH|done].
Qed.

(** The loop body once the previous block is closed or stays open. *)
Definition addTail (b : Builder) (e : Entry) : option Builder :=
  addEntry aesEncrypt xxhash s2Encode zstdEncode 0 None (fun _ => []) nowUnix
    (mkBuilder (bl_file b) (bl_index b) (bl_keys b) (bl_offset b) (bl_block b) (bl_firstKey b) (bl_offsets b)
      (bl_err b) (bl_keyID b) (bl_prefixFilter b) (bl_tombstones b) (bl_entryCount b) (Key e)) e.

Lemma addEntry_tail b e :
  addEntry aesEncrypt xxhash s2Encode zstdEncode level reg nonces nowUnix b e =
  addTail (if (match bl_firstKey b with Some _ => true | None => false end)
       && Nat.leb TargetBlockSize (length (bl_block b)) && negb (bytes_eqb (Key e) (bl_prevKey b))
    then flushCurrentBlock aesEncrypt s2Encode zstdEncode level reg nonces b else b) e.
Proof.
  unfold addTail, addEntry at 1. set (b' := if _ && _ && _ then _ else b).
  unfold addEntry. cbn [bl_prevKey]. by rewrite bytes_eqb_refl, andb_false_r.
Qed.

Lemma addTail_inv f0 b gs cur es e :
  filter_ok f0 -> build_inv f0 b gs cur es -> Key e <> [] ->
  exists b', addTail b e = Some b' /\ build_inv f0 b' gs (cur ++ [e]) (es ++ [e]).
Proof.
  intros Hf0 [Hc Hb Hf Ho Hn Hp He Hk Hoff Hbl Hid Hpre] Hke. unfold addTail, addEntry.
  cbn [bl_prevKey]. rewrite bytes_eqb_refl, andb_false_r. cbn [bl_prefixFilter].
  assert (filter_ok (bl_prefixFilter b)) as Hok.
  { destruct (addKeys_spec xxhash f0 (ExtractPrefix <$> (Key <$> es)) Hf0) as (f & Hadd & Hfok & _). congruence. }
  destruct (Filter_Add_spec xxhash _ (ExtractPrefix (Key e)) Hok) as (pf & Hpf & _). rewrite Hpf.
  cbn [bl_firstKey bl_offsets bl_block bl_entryCount bl_file bl_index bl_keys bl_offset bl_err bl_keyID].
  assert (forall fk offs cnt tomb, fk = Key <$> head (cur ++ [e]) -> offs = restartOffsets (cur ++ [e]) ->
    cnt = length cur ->
    build_inv f0 (mkBuilder (bl_file b) (bl_index b) (bl_keys b ++ [Key e]) (bl_offset b) (bl_block b ++ encodeEntry e)
      fk offs (bl_err b) (bl_keyID b) pf tomb (S cnt) (Key e)) gs (cur ++ [e]) (es ++ [e])) as Hinv.
  { intros fk offs cnt tomb -> -> ->. split; cbn [bl_file bl_block bl_firstKey bl_offsets bl_entryCount bl_prevKey bl_err
      bl_keys bl_offset bl_index bl_keyID bl_prefixFilter]; try done.
    - by rewrite app_assoc, Hc.
    - rewrite Hb, encodeEntries_app. unfold encodeEntries at 3. simpl. by rewrite app_nil_r.
    - intros _. rewrite length_app. simpl. lia.
    - intros _. by rewrite last_snoc.
    - by rewrite Hk, fmap_app.
    - rewrite !fmap_app. change (ExtractPrefix <$> (Key <$> [e])) with [ExtractPrefix (Key e)].
      rewrite addKeys_snoc, Hpre. exact Hpf. }
  destruct cur as [|e0 cur'] eqn:Ec; rewrite Hf; cbn [fmap option_fmap option_map head].
  - eexists. split; [done|]. rewrite Ho. apply Hinv; [|done|done]. simpl. unfold keySlice. by destruct (Key e).
  - eexists. split; [done|]. apply Hinv; [done| |apply Hn; done].
    rewrite restartOffsets_snoc, Ho, Hb, Hn by done. done.
Qed.

Lemma addEntry_inv f0 b gs cur es e :
  filter_ok f0 -> build_inv f0 b gs cur es -> Key e <> [] ->
  let '(gs', cur') := splitStep (gs, cur) e in
  Forall fits gs' ->
  exists b', addEntry aesEncrypt xxhash s2Encode zstdEncode level reg nonces nowUnix b e = Some b' /\
    build_inv f0 b' gs' cur' (es ++ [e]).
Proof.
  intros Hf0 Hinv Hke. rewrite addEntry_tail. unfold splitStep.
  pose proof Hinv as [_ Hb Hf _ _ Hp _ _ _ _ _ _].
  assert ((match bl_firstKey b with Some _ => true | None => false end) = negb (Nat.eqb (length cur) 0)) as ->
    by (rewrite Hf; by destruct cur).
  rewrite Hb. destruct cur as [|c0 cur'] eqn:Ec.
  { simpl. intros _. by apply (addTail_inv f0 b gs [] es e). }
  rewrite Hp by done. rewrite <- Ec in *. assert (cur <> []) as Hne by (intros E; by rewrite E in Ec).
  set (c := _ && _ && _). destruct c.
  - intros Hfits. apply Forall_app in Hfits as [_ Hfit]. apply Forall_inv in Hfit.
    destruct (flush_inv f0 b gs cur es Hinv) as [Hfl _]; [done..|].
    by apply (addTail_inv f0 _ (gs ++ [cur]) [] es e).
  - intros _. by apply addTail_inv.
Qed.

Lemma split_prefix l gs cur : exists ext, (foldl splitStep (gs, cur) l).1 = gs ++ ext.
Proof.
  revert gs cur. induction l as [|e l IH]; intros gs cur; simpl; [exists []; by rewrite app_nil_r|].
  case_if; [|apply IH]. destruct (IH (gs ++ [cur]) [e]) as [ext ->]. exists ([cur] ++ ext). by rewrite app_assoc.
Qed.

Lemma addEntries_inv f0 l b gs cur es :
  filter_ok f0 -> build_inv f0 b gs cur es -> Forall (fun e => Key e <> []) l ->
  let '(gs', cur') := foldl splitStep (gs, cur) l in
  Forall fits gs' ->
  exists b', addEntries aesEncrypt xxhash s2Encode zstdEncode level reg nonces nowUnix b l = Some b' /\
    build_inv f0 b' gs' cur' (es ++ l).
Proof.
  intros Hf0. revert b gs cur es. induction l as [|e l IH]; intros b gs cur es Hinv Hl.
  { simpl. intros _. exists b. by rewrite app_nil_r. }
  apply Forall_cons in Hl as [He Hl]. cbn [foldl addEntries].
  pose proof (addEntry_inv f0 b gs cur es e Hf0 Hinv He) as Hstep.
  destruct (splitStep (gs, cur) e) as [gs1 cur1]. destruct (foldl splitStep (gs1, cur1) l) as [gs2 cur2] eqn:E2.
  intros Hfits. destruct (split_prefix l gs1 cur1) as [ext Hext]. rewrite E2 in Hext. simpl in Hext.
  destruct Hstep as (b1 & -> & Hinv1); [rewrite Hext in Hfits; by apply Forall_app in Hfits as [? _]|].
  specialize (IH b1 gs1 cur1 (es ++ [e]) Hinv1 Hl). rewrite E2 in IH.
  rewrite <- app_assoc in IH. by apply IH.
Qed.
End writer.

(** ** The index *)

Lemma indexTable_app rel a b :
  indexTable rel (a ++ b) = indexTable rel a ++ indexTable (rel + length (a ≫= encodeIndexEntry)) b.
Proof.
  revert rel. induction a as [|ix a IH]; intros rel.
  - simpl. by rewrite Nat.add_0_r.
  - rewrite <- app_comm_cons. cbn [indexTable]. rewrite IH, <- app_assoc. do 3 f_equal.
    rewrite bind_cons, length_app. lia.
Qed.

Lemma length_indexTable rel l : length (indexTable rel l) = (4 * length l)%nat.
Proof. revert rel. induction l as [|ix l IH]; intros rel; simpl; [done|]. rewrite IH. lia. Qed.

Lemma length_encodeIndexEntry ix : length (encodeIndexEntry ix) = (14 + length (ix_key ix))%nat.
Proof. unfold encodeIndexEntry. rewrite !length_app, !length_be_encode. lia. Qed.

(** Entries whose fields the index can hold. *)
Definition index_ok (ix : sparseIndexEntry) : Prop :=
  Z.of_nat (length (ix_key ix)) < 2 ^ 16 /\ is_i64 (ix_offset ix) /\ is_u32 (ix_size ix).

Lemma indexEntryAt_encode index i ix :
  index !! i = Some ix -> index_ok ix ->
  let idx := be_encode 4 (Z.of_nat (length index)) ++ indexTable 0 index ++ (index ≫= encodeIndexEntry) in
  Z.of_nat (length idx) < 2 ^ 32 ->
  indexEntryAt idx (Z.of_nat (length index)) (Z.of_nat i) = (ix_key ix, ix_offset ix, ix_size ix).
Proof.
  intros Hi (Hk & Ho & Hsz) idx Hlen. pose proof (lookup_lt_Some _ _ _ Hi) as Hlt.
  set (a := take i index). set (c := drop (S i) index).
  assert (index = a ++ ix :: c) as Hsplit by (symmetry; by apply take_drop_middle).
  assert (length a = i) as Ha by (unfold a; rewrite length_take; lia).
  set (E := a ≫= encodeIndexEntry). set (T := indexTable 0 index) in *.
  set (A := be_encode 4 (Z.of_nat (length index)) ++ T ++ E).
  assert (length A = (4 + 4 * length index + length E)%nat) as HA.
  { unfold A, T. rewrite !length_app, length_be_encode, length_indexTable. lia. }
  assert (idx = A ++ encodeIndexEntry ix ++ (c ≫= encodeIndexEntry)) as Hidx.
  { unfold idx, A. rewrite <- !app_assoc. do 2 f_equal. rewrite Hsplit at 1. by rewrite bind_app, bind_cons. }
  assert (length idx = (length A + 14 + length (ix_key ix) + length (c ≫= encodeIndexEntry))%nat) as Hl.
  { rewrite Hidx, !length_app, length_encodeIndexEntry. lia. }
  unfold indexEntryAt. destruct (Z.ltb_spec (Z.of_nat i) 0); [lia|].
  destruct (Z.leb_spec (Z.of_nat (length index)) (Z.of_nat i)); [lia|]. cbn [orb].
  destruct (Z.ltb_spec (Z.of_nat (length idx)) (4 + Z.of_nat (length index) * 4)); [lia|]. cbv zeta.
  assert (slice idx (Z.to_nat (4 + Z.of_nat i * 4)) (Z.to_nat (4 + Z.of_nat i * 4) + 4) =
    be_encode 4 (Z.of_nat (length E))) as ->.
  { unfold idx, T. rewrite Hsplit at 2. rewrite indexTable_app. cbn [indexTable].
    rewrite <- !app_assoc, app_assoc. rewrite Nat.add_0_l. apply slice_mid;
    rewrite ?length_app, ?length_be_encode, ?length_indexTable; lia. }
  rewrite be_decode_encode_id by (change (256 ^ Z.of_nat 4) with (2 ^ 32); lia).
  replace (Z.to_nat (4 + Z.of_nat (length index) * 4 + Z.of_nat (length E))) with (length A) by lia.
  destruct (Nat.ltb_spec (length idx) (length A + 14)); [lia|].
  assert (slice idx (length A) (length A + 2) = be_encode 2 (Z.of_nat (length (ix_key ix)))) as ->.
  { rewrite Hidx. unfold encodeIndexEntry. rewrite <- !app_assoc. by apply slice_mid. }
  rewrite be_decode_encode_id by (change (256 ^ Z.of_nat 2) with (2 ^ 16); lia). rewrite Nat2Z.id.
  destruct (Nat.ltb_spec (length idx) (length A + 14 + length (ix_key ix))); [lia|].
  assert (slice idx (length A + 2) (length A + 10) = be_encode 8 (u64 (ix_offset ix))) as ->.
  { rewrite Hidx. unfold encodeIndexEntry. rewrite <- !app_assoc, app_assoc.
    apply slice_mid; rewrite length_app, !length_be_encode; lia. }
  assert (slice idx (length A + 10) (length A + 14) = be_encode 4 (ix_size ix)) as ->.
  { rewrite Hidx. unfold encodeIndexEntry. rewrite <- !app_assoc, app_assoc, app_assoc.
    apply slice_mid; rewrite !length_app, !length_be_encode; lia. }
  rewrite !be_decode_encode_id by (done || apply u64_range). rewrite i64_u64 by done.
  do 2 f_equal. rewrite Hidx. unfold encodeIndexEntry. rewrite <- !app_assoc, app_assoc, app_assoc, app_assoc.
  apply slice_mid; rewrite !length_app, !length_be_encode; lia.
Qed.

(** ** The table as a whole *)

(** What the reader finds in a table: the blocks of its index decode to [gs],
    and its filters admit the keys and the prefixes of the entries. *)
Section holds.
Context (aesEncrypt : bytes -> bytes -> bytes) (xxhash : bytes -> Z) (s2Decode zstdDecode : bytes -> option bytes).

Definition block_at (s : SSTable) (g : list Entry) (i : nat) : Prop :=
  g <> [] /\
  exists off size raw, getEntryAt s (Z.of_nat i) = (from_option Key [] (head g), off, size) /\
    readAt (s_file s) off size = Some raw /\
    decodeBlock aesEncrypt s2Decode zstdDecode s raw = Some (encodeBlock g).

Record holds (s : SSTable) (gs : list (list Entry)) : Prop := {
  h_blocks : numBlocks s = Z.of_nat (length gs);
  h_block : forall i g, gs !! i = Some g -> block_at s g i;
  h_filter : exists f, getFilter s = Some f /\ filter_ok f /\
    forall e, e ∈ concat gs -> MayContain xxhash f (Key e) = Some true;
  h_prefix : exists f, getPrefixFilter s = Some f /\ filter_ok f /\
    forall e, e ∈ concat gs -> MayContain xxhash f (ExtractPrefix (Key e)) = Some true;
}.
End holds.

(** A table differs from its reopened self in the level, which the engine sets
    from the manifest, and in the rounding of the tombstone ratio. *)
Definition reopened (s : SSTable) : SSTable :=
  mkSSTable (s_file s) (indexOff s) (indexLen s) (numBlocks s) (filterOff s) (filterLen s) (filterBits s) (filterK s)
    (prefixOff s) (prefixLen s) (prefixBits s) (prefixK s) (s_compress s) (s_encrypted s) (s_keyID s) (blockKey s)
    (minKey s) (maxKey s) 0
    (SFdiv 53 1024 (float_of_int (u16 (quantise (tombstoneRatio s)))) (float_of_int 10000)).

(** The file laid out, section by section. *)
Record layout (s : SSTable) (B I : bytes) (f pf : Filter) (index : list sparseIndexEntry) (mn mx : bytes)
    (keyField : option Z) : Prop := {
  ly_file : s_file s = B ++ I ++ encodeFilter f ++ encodeFilter pf
    ++ be_encode 4 (Z.of_nat (length mn)) ++ mn ++ be_encode 4 (Z.of_nat (length mx)) ++ mx
    ++ encodeFooter (indexOff s) (indexOff s + indexLen s) (s_compress s) (prefixOff s + prefixLen s) keyField
         (tombstoneRatio s);
  ly_index : encodeIndex index = Some I;
  ly_indexOff : indexOff s = Z.of_nat (length B);
  ly_indexLen : indexLen s = Z.of_nat (length I);
  ly_blocks : numBlocks s = Z.of_nat (length index);
  ly_filterOff : filterOff s = indexOff s + indexLen s + 5;
  ly_filterLen : filterLen s = Z.of_nat (length (f_data f));
  ly_filterBits : filterBits s = f_bits f;
  ly_filterK : filterK s = f_k f;
  ly_prefixOff : prefixOff s = filterOff s + filterLen s + 5;
  ly_prefixLen : prefixLen s = Z.of_nat (length (f_data pf));
  ly_prefixBits : prefixBits s = f_bits pf;
  ly_prefixK : prefixK s = f_k pf;
  ly_min : minKey s = mn;
  ly_max : maxKey s = mx;
}.

(** A part of a file, by its position. *)
Lemma readAt_part file pre mid post off len :
  file = pre ++ mid ++ post -> off = Z.of_nat (length pre) -> len = Z.of_nat (length mid) ->
  readAt file off len = Some mid.
Proof. intros ->. apply readAt_app. Qed.

(** Dimensions of a filter that fit its header. *)
Definition filter_dims (f : Filter) : Prop :=
  f_bits f = 8 * Z.of_nat (length (f_data f)) /\ 0 < f_bits f < 2 ^ 32 - 7 /\ 0 <= f_k f < 256.

Lemma filter_dims_len f : filter_dims f -> u32 (f_bits f + 7) / 8 = Z.of_nat (length (f_data f)).
Proof.
  intros (H1 & H2 & _). rewrite u32_id by (unfold is_u32; lia). rewrite H1.
  symmetry. apply (Z.div_unique _ _ _ 7); lia.
Qed.

Lemma length_encodeFilter f : length (encodeFilter f) = (5 + length (f_data f))%nat.
Proof. unfold encodeFilter. rewrite !length_app, length_be_encode. done. Qed.

(** Reading a filter's header and bits. *)
Lemma filter_parts file pre f post off :
  file = pre ++ encodeFilter f ++ post -> off = Z.of_nat (length pre) -> filter_dims f ->
  readAt file off 1 = Some [f_k f] /\ readAt file (off + 1) 4 = Some (be_encode 4 (f_bits f)) /\
  readAt file (off + 5) (Z.of_nat (length (f_data f))) = Some (f_data f) /\
  be_decode (be_encode 4 (f_bits f)) = f_bits f /\ be_decode [f_k f] = f_k f.
Proof.
  intros Hf -> (H1 & H2 & H3). split_and!.
  - eapply (readAt_part _ pre [f_k f]); [|done|done]. rewrite Hf. unfold encodeFilter. by rewrite <- !app_assoc.
  - eapply (readAt_part _ (pre ++ [f_k f]) (be_encode 4 (f_bits f))).
    + rewrite Hf. unfold encodeFilter. by rewrite <- !app_assoc.
    + rewrite length_app. simpl. lia.
    + by rewrite length_be_encode.
  - eapply (readAt_part _ (pre ++ [f_k f] ++ be_encode 4 (f_bits f)) (f_data f)).
    + rewrite Hf. unfold encodeFilter. by rewrite <- !app_assoc.
    + rewrite !length_app, length_be_encode. simpl. lia.
    + done.
  - apply be_decode_encode_id. change (256 ^ Z.of_nat 4) with (2 ^ 32). lia.
  - unfold be_decode. simpl. lia.
Qed.

Section open.
Context (s : SSTable) (B I : bytes) (f pf : Filter) (index : list sparseIndexEntry) (mn mx : bytes) (keyField : option Z).
Context (L : layout s B I f pf index mn mx keyField).
Context (f_dims : filter_dims f) (pf_dims : filter_dims pf).
Context (size_ok : Z.of_nat (length (s_file s)) < 2 ^ 32).

Notation file := (s_file s).
Notation foot := (encodeFooter (indexOff s) (indexOff s + indexLen s) (s_compress s) (prefixOff s + prefixLen s)
  keyField (tombstoneRatio s)).
Notation range := (be_encode 4 (Z.of_nat (length mn)) ++ mn ++ be_encode 4 (Z.of_nat (length mx)) ++ mx).

Lemma length_foot : length foot = 32%nat.
Proof. unfold encodeFooter. destruct keyField; rewrite !length_app, ?length_be_encode; done. Qed.

(** The file cut before its filters, its key range and its footer. *)
Lemma file_filter : file = (B ++ I) ++ encodeFilter f ++ (encodeFilter pf ++ range ++ foot).
Proof. rewrite (ly_file _ _ _ _ _ _ _ _ _ L) at 1. by rewrite <- !app_assoc. Qed.

Lemma file_prefix : file = (B ++ I ++ encodeFilter f) ++ encodeFilter pf ++ (range ++ foot).
Proof. rewrite (ly_file _ _ _ _ _ _ _ _ _ L) at 1. by rewrite <- !app_assoc. Qed.

Lemma file_range : file = (B ++ I ++ encodeFilter f ++ encodeFilter pf) ++ range ++ foot.
Proof. rewrite (ly_file _ _ _ _ _ _ _ _ _ L) at 1. by rewrite <- !app_assoc. Qed.

Lemma file_length :
  Z.of_nat (length file) = prefixOff s + prefixLen s + 8 + Z.of_nat (length mn) + Z.of_nat (length mx) + 32.
Proof.
  rewrite file_range. rewrite !length_app, length_foot, !length_encodeFilter, !length_be_encode.
  destruct L as [_ _ -> -> _ -> -> _ _ -> -> _ _ _ _]. lia.
Qed.

Lemma bloomStart_pos : indexOff s + indexLen s = Z.of_nat (length (B ++ I)).
Proof. rewrite length_app, (ly_indexOff _ _ _ _ _ _ _ _ _ L), (ly_indexLen _ _ _ _ _ _ _ _ _ L). lia. Qed.

Lemma prefixStart_pos : filterOff s + filterLen s = Z.of_nat (length (B ++ I ++ encodeFilter f)).
Proof.
  rewrite app_assoc, length_app, length_encodeFilter. pose proof bloomStart_pos.
  destruct L as [_ _ _ _ _ -> -> _ _ _ _ _ _ _ _]. lia.
Qed.

Lemma rangeStart_pos : prefixOff s + prefixLen s = Z.of_nat (length (B ++ I ++ encodeFilter f ++ encodeFilter pf)).
Proof.
  rewrite !app_assoc, length_app, length_encodeFilter, <- app_assoc. pose proof prefixStart_pos.
  destruct L as [_ _ _ _ _ _ _ _ _ -> -> _ _ _ _]. lia.
Qed.

Lemma openFilter_layout :
  openFilter file (indexOff s + indexLen s) (prefixOff s + prefixLen s) =
    (filterOff s, filterLen s, filterBits s, filterK s).
Proof.
  destruct (filter_parts _ _ _ _ _ file_filter bloomStart_pos f_dims) as (H1 & H2 & _ & H4 & H5).
  unfold openFilter. rewrite H1, H2, H4, H5, (filter_dims_len f f_dims).
  pose proof file_length as Hl. pose proof (filter_dims_len f f_dims). destruct f_dims as (D1 & D2 & _).
  destruct L as [_ _ _ _ _ E1 E2 E3 E4 E5 E6 _ _ _ _]. rewrite E3, E4.
  destruct (Z.leb_spec (indexOff s + indexLen s + 5) (Z.of_nat (length file))); [|lia].
  destruct (Z.ltb_spec 0 (prefixOff s + prefixLen s - (indexOff s + indexLen s + 5))); [|lia].
  destruct (Z.leb_spec (Z.of_nat (length (f_data f))) 0); [lia|].
  destruct (Z.ltb_spec (prefixOff s + prefixLen s - (indexOff s + indexLen s + 5)) (Z.of_nat (length (f_data f)))); [lia|].
  cbn [orb]. repeat f_equal; lia.
Qed.

Lemma openPrefixFilter_layout :
  openPrefixFilter file (filterOff s) (filterLen s) (prefixOff s + prefixLen s) =
    (prefixOff s, prefixLen s, prefixBits s, prefixK s).
Proof.
  destruct (filter_parts _ _ _ _ _ file_prefix prefixStart_pos pf_dims) as (H1 & H2 & _ & H4 & H5).
  unfold openPrefixFilter. rewrite H1, H2, H4, H5, (filter_dims_len pf pf_dims).
  destruct f_dims as (D1 & D2 & _), pf_dims as (D3 & D4 & _).
  destruct L as [_ _ _ _ _ E1 E2 E3 E4 E5 E6 E7 E8 _ _]. rewrite E7, E8.
  destruct (Z.ltb_spec 0 (filterLen s)); [|lia].
  destruct (Z.leb_spec (filterOff s + filterLen s + 5) (prefixOff s + prefixLen s)); [|lia].
  destruct (Z.ltb_spec 0 (Z.of_nat (length (f_data pf)))); [|lia].
  destruct (Z.leb_spec (filterOff s + filterLen s + 5 + Z.of_nat (length (f_data pf))) (prefixOff s + prefixLen s)); [|lia].
  cbn [andb]. repeat f_equal; lia.
Qed.

(** Empty keys are not stored; the defaults stand in. *)
Lemma openRange_layout min0 max0 :
  openRange file (prefixOff s + prefixLen s) min0 max0 =
    (match mn with [] => min0 | _ => mn end, match mx with [] => max0 | _ => mx end).
Proof.
  pose proof rangeStart_pos as Hp. pose proof file_length as Hl. unfold openRange.
  set (P := B ++ I ++ encodeFilter f ++ encodeFilter pf) in *.
  assert (0 < length P)%nat as HP by (unfold P; rewrite !length_app, length_encodeFilter; lia).
  destruct (Z.ltb_spec 0 (prefixOff s + prefixLen s)); [|lia].
  destruct (Z.ltb_spec (prefixOff s + prefixLen s) (Z.of_nat (length file) - 32)); [|lia]. cbn [andb].
  set (ln := be_encode 4 (Z.of_nat (length mn))) in *. set (lx := be_encode 4 (Z.of_nat (length mx))) in *.
  assert (length ln = 4%nat /\ length lx = 4%nat) as [Hln Hlx] by (split; apply length_be_encode).
  assert (file = P ++ ln ++ mn ++ lx ++ mx ++ foot) as Hf by (rewrite file_range at 1; unfold P, ln, lx; by rewrite <- !app_assoc).
  set (o := prefixOff s + prefixLen s) in *.
  assert (be_decode ln = Z.of_nat (length mn) /\ be_decode lx = Z.of_nat (length mx)) as [Dn Dx].
  { split; apply be_decode_encode_id; change (256 ^ Z.of_nat 4) with (2 ^ 32); lia. }
  rewrite (readAt_part file P ln (mn ++ lx ++ mx ++ foot) o 4) by (done || lia). rewrite Dn.
  rewrite (readAt_part file (P ++ ln) mn (lx ++ mx ++ foot) (o + 4) (Z.of_nat (length mn))) by
    (rewrite ?length_app; (lia || (rewrite Hf at 1; by rewrite <- !app_assoc))).
  rewrite (readAt_part file (P ++ ln ++ mn) lx (mx ++ foot) (o + 4 + Z.of_nat (length mn)) 4) by
    (rewrite ?length_app; (lia || (rewrite Hf at 1; by rewrite <- !app_assoc))).
  rewrite Dx, (readAt_part file (P ++ ln ++ mn ++ lx) mx foot (o + 4 + Z.of_nat (length mn) + 4) (Z.of_nat (length mx))) by
    (rewrite ?length_app; (lia || (rewrite Hf at 1; by rewrite <- !app_assoc))).
  cbn [default from_option]. unfold id. f_equal.
  - destruct mn as [|x mn']; [done|].
    destruct (Z.ltb_spec 0 (Z.of_nat (length (x :: mn')))); [|simpl in *; lia].
    by destruct (Z.ltb_spec (o + 4 + Z.of_nat (length (x :: mn'))) (Z.of_nat (length file) - 32)); [|lia].
  - destruct mx as [|x mx']; [done|].
    destruct (Z.ltb_spec 0 (Z.of_nat (length (x :: mx')))); [|simpl in *; lia].
    by destruct (Z.leb_spec (o + 4 + Z.of_nat (length mn) + 4 + Z.of_nat (length (x :: mx')))
      (Z.of_nat (length file) - 32)); [|lia].
Qed.

Context (reg : option KeyRegistry).
Context (key_ok : match keyField with
  | None => s_encrypted s = false /\ s_keyID s = 0 /\ blockKey s = []
  | Some id => s_encrypted s = true /\ s_keyID s = id /\ is_u32 id /\
      exists kr, reg = Some kr /\ GetKey kr id = Some (blockKey s)
  end).
Context (range_ok : if numBlocks s =? 0 then mn = [] /\ mx = [] else mn <> [] /\ mx <> []).

(** The fields of the footer. *)
Lemma foot_fields :
  readAt file (Z.of_nat (length file) - 32) 32 = Some foot /\
  i64 (be_decode (slice foot 0 8)) = indexOff s /\ i64 (be_decode (slice foot 8 16)) = indexOff s + indexLen s /\
  be_decode (slice foot 16 17) = s_compress s /\ i64 (be_decode (slice foot 17 25)) = prefixOff s + prefixLen s /\
  be_decode (slice foot 25 29) = s_keyID s /\ (be_decode (slice foot 29 30) =? 1) = s_encrypted s /\
  be_decode (slice foot 30 32) = u16 (quantise (tombstoneRatio s)).
Proof.
  pose proof file_length as Hl. pose proof bloomStart_pos as Hb. pose proof rangeStart_pos as Hr.
  pose proof (ly_indexOff _ _ _ _ _ _ _ _ _ L) as Ho. pose proof (ly_indexLen _ _ _ _ _ _ _ _ _ L) as Hi.
  rewrite length_app in Hb.
  split.
  { apply (readAt_part _ ((B ++ I ++ encodeFilter f ++ encodeFilter pf) ++ range) _ []); [| |by rewrite length_foot].
    - rewrite file_range at 1. by rewrite app_nil_r, <- !app_assoc.
    - rewrite (length_app (B ++ _)), !(length_app (be_encode _ _)), (length_app mn), (length_app (be_encode _ _)), !length_be_encode.
      lia. }
  rewrite !length_app in Hr. unfold encodeFooter. set (q := quantise (tombstoneRatio s)).
  assert (forall z, is_u64 z -> z < 2 ^ 63 -> i64 (be_decode (be_encode 8 z)) = z) as H8.
  { intros z Hz Hz2. rewrite be_decode_encode_id by exact Hz. apply i64_id. unfold is_u64, is_i64 in *. lia. }
  destruct keyField as [id|]; simpl in key_ok.
  - destruct key_ok as (-> & -> & Hid & _). split_and!;
      [apply (H8 (indexOff s)); unfold is_u64; lia|apply (H8 (indexOff s + indexLen s)); unfold is_u64; lia
      |unfold be_decode; simpl; lia|apply (H8 (prefixOff s + prefixLen s)); unfold is_u64; lia
      |by apply (be_decode_encode_id 4)|done|apply (be_decode_encode 2)].
  - destruct key_ok as (-> & -> & _). split_and!;
      [apply (H8 (indexOff s)); unfold is_u64; lia|apply (H8 (indexOff s + indexLen s)); unfold is_u64; lia
      |unfold be_decode; simpl; lia|apply (H8 (prefixOff s + prefixLen s)); unfold is_u64; lia
      |done|done|apply (be_decode_encode 2)].
Qed.

Lemma index_bytes :
  I = be_encode 4 (Z.of_nat (length index)) ++ indexTable 0 index ++ (index ≫= encodeIndexEntry) /\
  Forall (fun ix => Z.of_nat (length (ix_key ix)) <= 65535) index.
Proof.
  pose proof (ly_index _ _ _ _ _ _ _ _ _ L) as H. unfold encodeIndex in H.
  destruct (forallb _ index) eqn:E; [|done]. split; [congruence|].
  apply Forall_forall. intros ix Hix. rewrite forallb_forall in E. apply Z.leb_le, E. by apply list_elem_of_In.
Qed.

Lemma sst_open_layout : sst_open file reg = Some (reopened s).
Proof.
  pose proof file_length as Hl. pose proof bloomStart_pos as Hb. pose proof rangeStart_pos as Hr.
  rewrite !length_app in Hr. destruct foot_fields as (Hfoot & F1 & F2 & F3 & F4 & F5 & F6 & F7).
  unfold sst_open. destruct (Z.ltb_spec (Z.of_nat (length file)) 32); [lia|].
  rewrite Hfoot, F1, F2, F3, F4, F5, F6, F7. cbv zeta.
  assert ((if s_encrypted s then match reg with None => None | Some kr => GetKey kr (s_keyID s) end else Some []) =
    Some (blockKey s)) as ->.
  { destruct keyField as [id|]; simpl in key_ok.
    - destruct key_ok as (-> & -> & _ & kr & -> & ->). done.
    - by destruct key_ok as (-> & _ & ->). }
  destruct index_bytes as [HI _].
  rewrite (readAt_part file B (be_encode 4 (Z.of_nat (length index)))
    ((indexTable 0 index ++ (index ≫= encodeIndexEntry)) ++ encodeFilter f ++ encodeFilter pf ++ range ++ foot)).
  2:{ rewrite file_filter at 1. rewrite HI. by rewrite <- !app_assoc. }
  2:{ apply L. }
  2:{ by rewrite length_be_encode. }
  assert (be_decode (be_encode 4 (Z.of_nat (length index))) = numBlocks s) as ->.
  { rewrite (ly_blocks _ _ _ _ _ _ _ _ _ L). apply be_decode_encode_id. change (256 ^ Z.of_nat 4) with (2 ^ 32).
    rewrite HI in Hr. rewrite !length_app, length_indexTable in Hr. lia. }
  rewrite openFilter_layout, openPrefixFilter_layout.
  set (s0 := mkSSTable _ _ _ _ _ _ _ _ _ _ _ _ _ _ _ _ _ _ _ _).
  destruct (if 0 <? numBlocks s then (getKeyAt s0 0, getKeyAt s0 (numBlocks s - 1)) else ([], [])) as [min0 max0] eqn:E0.
  rewrite openRange_layout. unfold reopened. do 2 f_equal; [lia| |].
  - rewrite (ly_min _ _ _ _ _ _ _ _ _ L). destruct mn; [|done].
    destruct (Z.eqb_spec (numBlocks s) 0) as [E|E]; [|by destruct range_ok]. rewrite E in E0. by simplify_eq/=.
  - rewrite (ly_max _ _ _ _ _ _ _ _ _ L). destruct mx; [|done].
    destruct (Z.eqb_spec (numBlocks s) 0) as [E|E]; [|by destruct range_ok]. rewrite E in E0. by simplify_eq/=.
Qed.

(** What the reader finds. *)
Lemma getEntryAt_layout i ix :
  index !! i = Some ix -> is_i64 (ix_offset ix) -> is_u32 (ix_size ix) ->
  getEntryAt s (Z.of_nat i) = (ix_key ix, ix_offset ix, ix_size ix).
Proof.
  intros Hi Ho Hs. destruct index_bytes as [HI Hk]. pose proof (lookup_lt_Some _ _ _ Hi) as Hlt.
  pose proof file_length as Hl. pose proof rangeStart_pos as Hr. rewrite !length_app in Hr.
  unfold getEntryAt. rewrite (ly_blocks _ _ _ _ _ _ _ _ _ L).
  destruct (Z.ltb_spec (Z.of_nat i) 0); [lia|]. destruct (Z.leb_spec (Z.of_nat (length index)) (Z.of_nat i)); [lia|].
  cbn [orb]. unfold getIndexData. rewrite (ly_indexLen _ _ _ _ _ _ _ _ _ L).
  assert (4 <= length I)%nat by (rewrite HI, length_app, length_be_encode; lia).
  destruct (Z.leb_spec (Z.of_nat (length I)) 0); [lia|].
  rewrite (readAt_part file B I (encodeFilter f ++ encodeFilter pf ++ range ++ foot));
    [|rewrite file_filter at 1; by rewrite <- !app_assoc|apply L|done].
  rewrite HI. apply indexEntryAt_encode; [done| |rewrite <- HI; lia].
  split; [|done]. assert (Z.of_nat (length (ix_key ix)) <= 65535); [|lia].
  rewrite Forall_forall in Hk. apply Hk. by eapply list_elem_of_lookup_2.
Qed.

Lemma getFilter_layout : getFilter s = Some f.
Proof.
  destruct (filter_parts _ _ _ _ _ file_filter bloomStart_pos f_dims) as (_ & _ & H3 & _ & _).
  unfold getFilter. destruct f_dims as (D1 & D2 & _). destruct L as [_ _ _ _ _ E1 E2 E3 E4 _ _ _ _ _ _].
  rewrite E2, E3, E4, E1, H3. destruct (Z.leb_spec (Z.of_nat (length (f_data f))) 0); [lia|]. by destruct f.
Qed.

Lemma getPrefixFilter_layout : getPrefixFilter s = Some pf.
Proof.
  destruct (filter_parts _ _ _ _ _ file_prefix prefixStart_pos pf_dims) as (_ & _ & H3 & _ & _).
  unfold getPrefixFilter. destruct pf_dims as (D1 & D2 & _). destruct L as [_ _ _ _ _ _ _ _ _ E5 E6 E7 E8 _ _].
  rewrite E6, E7, E8, E5, H3. destruct (Z.leb_spec (Z.of_nat (length (f_data pf))) 0); [lia|]. by destruct pf.
Qed.
End open.

(** ** Writing, then opening *)

Lemma split_concat_aux l gs cur :
  let '(gs', cur') := foldl splitStep (gs, cur) l in concat gs' ++ cur' = (concat gs ++ cur) ++ l.
Proof.
  revert gs cur. induction l as [|e l IH]; intros gs cur; cbn [foldl]; [by rewrite app_nil_r|].
  unfold splitStep at 2. case_if.
  - specialize (IH (gs ++ [cur]) [e]). destruct (foldl splitStep _ l). rewrite IH, concat_app. simpl.
    by rewrite app_nil_r, <- !app_assoc.
  - specialize (IH gs (cur ++ [e])). destruct (foldl splitStep _ l). rewrite IH. by rewrite <- !app_assoc.
Qed.

Lemma split_concat es : concat (splitBlocks es) = es.
Proof.
  pose proof (split_concat_aux es [] []) as H. unfold splitBlocks. destruct (foldl splitStep _ es) as [gs cur].
  simpl in H. destruct cur; [by rewrite app_nil_r in H|]. rewrite concat_app. simpl. by rewrite app_nil_r.
Qed.

Lemma length_encodeEntries' es : 25 * Z.of_nat (length es) <= Z.of_nat (length (encodeEntries es)).
Proof.
  induction es as [|e es IH]; [done|]. rewrite encodeEntries_cons, length_app, length_encodeEntry.
  unfold recordHeaderSize. simpl length. lia.
Qed.

(** Entries that a table can hold: fields of the record format, keys that are
    neither empty nor longer than the index allows, blocks below 4 GiB. *)
Record writable (entries : list Entry) : Prop := {
  wr_ok : Forall entry_ok entries;
  wr_keys : Forall (fun e => Key e <> [] /\ Z.of_nat (length (Key e)) <= 65535) entries;
  wr_size : Z.of_nat (length (encodeEntries entries)) < 2 ^ 32;
}.

Section create.
Context (aesEncrypt : bytes -> bytes -> bytes) (xxhash : bytes -> Z).
Context (s2Encode zstdEncode : bytes -> bytes) (s2Decode zstdDecode : bytes -> option bytes).
Context `{!LosslessCodec s2Encode s2Decode, !LosslessCodec zstdEncode zstdDecode}.
Context (level : Z) (reg : option KeyRegistry) (nonces : nat -> bytes) (nowUnix : Z).
Context (reg_ok : registry_usable reg) (nonces_ok : forall i, length (nonces i) = blockNonceSize).

Notation inv := (build_inv aesEncrypt xxhash s2Decode zstdDecode level reg).

Lemma build_spec entries :
  Forall (fun e => Key e <> []) entries -> Forall (fits s2Encode zstdEncode level) (splitBlocks entries) ->
  let f0 := NewFilterSized (Z.of_nat (length entries)) 10 in
  exists b0, addEntries aesEncrypt xxhash s2Encode zstdEncode level reg nonces nowUnix
      (emptyBuilder (length entries)) entries = Some b0 /\
    inv f0 (flushCurrentBlock aesEncrypt s2Encode zstdEncode level reg nonces b0) (splitBlocks entries) [] entries.
Proof.
  intros Hk Hfits f0. pose proof (NewFilterSized_ok (Z.of_nat (length entries)) 10) as Hf0.
  assert (inv f0 (emptyBuilder (length entries)) [] [] []) as H0 by (split; done).
  pose proof (addEntries_inv aesEncrypt xxhash s2Encode zstdEncode s2Decode zstdDecode level reg nonces nowUnix
    reg_ok nonces_ok f0 entries _ [] [] [] Hf0 H0 Hk) as H. unfold splitBlocks in *.
  destruct (foldl splitStep ([], []) entries) as [gs cur] eqn:E. destruct cur as [|c cur].
  - destruct (H Hfits) as (b0 & Hb0 & Hinv). exists b0. split; [done|]. simpl in Hinv.
    unfold flushCurrentBlock. pose proof (bi_block _ _ _ _ _ _ _ _ _ _ _ Hinv) as ->. exact Hinv.
  - apply Forall_app in Hfits as [Hfits Hfit]. destruct (H Hfits) as (b0 & Hb0 & Hinv). exists b0. split; [done|].
    by apply flush_inv; [done..|apply Forall_inv in Hfit].
Qed.

Lemma length_concat_nonempty {A} (gs : list (list A)) : Forall (fun g => g <> []) gs -> (length gs <= length (concat gs))%nat.
Proof.
  induction 1 as [|g gs Hg _ IH]; simpl; [done|]. rewrite length_app. destruct g; [done|simpl; lia].
Qed.

(** A successful build, as the layout of its file. *)
Lemma create_layout entries :
  writable entries -> Forall (fits s2Encode zstdEncode level) (splitBlocks entries) ->
  exists sst B I f pf index keyField,
    createAtLevel aesEncrypt xxhash s2Encode zstdEncode entries level reg nonces nowUnix = Returns sst /\
    layout sst B I f pf index (from_option Key [] (head entries)) (from_option Key [] (last entries)) keyField /\
    Forall2 (block_in aesEncrypt s2Decode zstdDecode level reg B) (splitBlocks entries) index /\
    NewFilter xxhash (Key <$> entries) 10 = Some f /\
    addKeys xxhash (NewFilterSized (Z.of_nat (length entries)) 10) (ExtractPrefix <$> (Key <$> entries)) = Some pf /\
    s_compress sst = compressionTypeForLevel level /\
    keyField = (if decide (splitBlocks entries = []) then None else if reg then Some (regKeyID reg) else None) /\
    s_encrypted sst = (if keyField then true else false) /\ s_keyID sst = default 0 keyField /\
    blockKey sst = (if keyField then regKey reg else []).
Proof.
  intros [Hok Hkeys Hsize] Hfits.
  assert (Forall (fun e => Key e <> []) entries) as Hk by (eapply Forall_impl; [exact Hkeys|by intros e [? _]]).
  destruct (build_spec entries Hk Hfits) as (b0 & Hb0 & Hinv). unfold createAtLevel. rewrite Hb0.
  set (b := flushCurrentBlock _ _ _ _ _ _ b0) in *.
  destruct Hinv as [Hc _ _ _ _ _ He Hkeysb Hoff Hbl Hid Hpre]. rewrite He.
  assert (forallb (fun ix => Z.of_nat (length (ix_key ix)) <=? 65535) (bl_index b) = true) as Hall.
  { apply forallb_forall. intros ix Hix%list_elem_of_In. apply list_elem_of_lookup in Hix as [i Hi].
    destruct (Forall2_lookup_r _ _ _ _ _ Hbl Hi) as (g & Hg & Hne & -> & _). apply Z.leb_le.
    destruct g as [|e g]; [done|]. simpl. rewrite Forall_forall in Hkeys. apply Hkeys.
    rewrite <- (split_concat entries). apply list_elem_of_In, in_concat. exists (e :: g). split; [|by left].
    apply list_elem_of_In. by eapply list_elem_of_lookup_2. }
  assert (u32 (Z.of_nat (length (bl_index b))) = Z.of_nat (length (bl_index b))) as Hn.
  { apply u32_id. split; [lia|]. rewrite <- (Forall2_length _ _ _ Hbl).
    assert (Forall (fun g => g <> []) (splitBlocks entries)) as Hne.
    { apply Forall_forall. intros g Hg. apply list_elem_of_lookup in Hg as [i Hi].
      by destruct (Forall2_lookup_l _ _ _ _ _ Hbl Hi) as (ix & _ & ? & _). }
    pose proof (length_concat_nonempty _ Hne) as Hl. rewrite split_concat in Hl.
    pose proof (length_encodeEntries entries). lia. }
  unfold encodeIndex. rewrite Hall, Hkeysb, Hn.
  destruct (NewFilter_spec xxhash _ (Key <$> entries) (NewFilterSized_ok (Z.of_nat (length (Key <$> entries))) 10))
    as (f & Hf & _).
  assert (NewFilter xxhash (Key <$> entries) 10 = Some f) as Hnf by exact Hf.
  rewrite Hnf. rewrite Hid.
  set (kf := if decide (splitBlocks entries = []) then None else if reg then Some (regKeyID reg) else None).
  set (enc := match reg with Some _ => _ | None => false end).
  assert (enc = (if kf then true else false) /\ (if decide (splitBlocks entries = []) then 0 else regKeyID reg) = default 0 kf /\
    (if enc then Some (default 0 kf) else None) = kf) as (E1 & E2 & E3).
  { unfold enc, kf. destruct (decide (splitBlocks entries = [])); [by destruct reg|]. destruct reg as [kr|]; [|done].
    simpl. destruct reg_ok as (_ & ? & _). by destruct (Z.eqb_spec (activeKeyID kr) 0); [lia|]. }
  rewrite E2, E3. eexists. exists (bl_file b). eexists. exists f, (bl_prefixFilter b), (bl_index b), kf.
  split; [reflexivity|]. split.
  { split; cbn [s_file indexOff indexLen numBlocks filterOff filterLen filterBits filterK prefixOff prefixLen prefixBits
      prefixK s_compress tombstoneRatio minKey maxKey]; try done. by unfold encodeIndex; rewrite Hall. }
  split_and!; try done. cbn [blockKey]. rewrite E1. unfold kf.
  destruct (decide (splitBlocks entries = [])); by destruct reg.
Qed.

(** The table that was written is what the reader finds. *)
Lemma holds_layout s B I f pf index mn mx keyField entries :
  layout s B I f pf index mn mx keyField -> Z.of_nat (length (s_file s)) < 2 ^ 32 ->
  writable entries ->
  Forall2 (block_in aesEncrypt s2Decode zstdDecode level reg B) (splitBlocks entries) index ->
  NewFilter xxhash (Key <$> entries) 10 = Some f ->
  addKeys xxhash (NewFilterSized (Z.of_nat (length entries)) 10) (ExtractPrefix <$> (Key <$> entries)) = Some pf ->
  s_compress s = compressionTypeForLevel level ->
  (splitBlocks entries <> [] -> s_encrypted s = regEncrypts reg /\ blockKey s = regKey reg) ->
  filter_dims f /\ filter_dims pf /\ holds aesEncrypt xxhash s2Decode zstdDecode s (splitBlocks entries).
Proof.
  intros L Hsize [Hok Hkeys Hraw] Hbl Hf Hpf Hcomp Henc.
  pose proof (length_encodeEntries' entries) as Hlen.
  pose proof (NewFilterSized_dims (Z.of_nat (length entries)) ltac:(lia) ltac:(lia)) as Hd.
  pose proof (NewFilterSized_ok (Z.of_nat (length entries)) 10) as Hfok.
  destruct (NewFilter_spec xxhash _ (ExtractPrefix <$> (Key <$> entries)) Hfok) as (pf' & Hp1 & Hp2 & Hp3 & Hp4 & Hp5 & Hp6).
  destruct (NewFilter_spec xxhash _ (Key <$> entries) Hfok) as (f' & Hf1 & Hf2 & Hf3 & Hf4 & Hf5 & Hf6).
  unfold NewFilter in Hf. rewrite length_fmap in Hf. assert (f' = f) as -> by congruence.
  assert (pf' = pf) as -> by congruence.
  assert (filter_dims f) as Hfd by (unfold filter_dims; by rewrite Hf3, Hf4, Hf5).
  assert (filter_dims pf) as Hpd by (unfold filter_dims; by rewrite Hp3, Hp4, Hp5).
  split_and!; [done|done|]. split.
  - rewrite (ly_blocks _ _ _ _ _ _ _ _ _ L). by rewrite (Forall2_length _ _ _ Hbl).
  - intros i g Hg. destruct (Forall2_lookup_l _ _ _ _ _ Hbl Hg) as (ix & Hix & Hne & Hkey & Hsz & Hoff & raw & Hr & Hdec).
    split; [done|]. exists (ix_offset ix), (ix_size ix), raw.
    assert (readAt (s_file s) (ix_offset ix) (ix_size ix) = Some raw) as Hraw'.
    { rewrite (ly_file _ _ _ _ _ _ _ _ _ L). by apply readAt_mono. }
    split_and!; [|done|].
    + rewrite <- Hkey. apply (getEntryAt_layout s B I f pf index mn mx keyField L Hsize i ix Hix); [|exact Hsz].
      unfold readAt in Hraw'. destruct (_ && _) eqn:E in Hraw'; [|done]. bool_prop. unfold is_i64. lia.
    + unfold decodeBlock. rewrite Hcomp. destruct Henc as [-> ->]; [|exact Hdec].
      intros E. by rewrite E in Hg.
  - exists f. split; [by eapply getFilter_layout|]. split; [done|]. rewrite split_concat. intros e He.
    apply Hf6. by apply list_elem_of_fmap_2.
  - exists pf. split; [by eapply getPrefixFilter_layout|]. split; [done|]. rewrite split_concat. intros e He.
    apply Hp6. by do 2 apply list_elem_of_fmap_2.
Qed.

Lemma holds_reopened s gs :
  holds aesEncrypt xxhash s2Decode zstdDecode s gs -> holds aesEncrypt xxhash s2Decode zstdDecode (reopened s) gs.
Proof. intros [H1 H2 H3 H4]. split; [exact H1|exact H2|exact H3|exact H4]. Qed.

Lemma entry_key_nonempty entries e : writable entries -> e ∈ entries -> Key e <> [].
Proof. intros [_ Hk _] He. rewrite Forall_forall in Hk. by apply Hk. Qed.

Lemma create_spec entries :
  writable entries -> Forall (fits s2Encode zstdEncode level) (splitBlocks entries) ->
  exists sst,
    createAtLevel aesEncrypt xxhash s2Encode zstdEncode entries level reg nonces nowUnix = Returns sst /\
    minKey sst = from_option Key [] (head entries) /\ maxKey sst = from_option Key [] (last entries) /\
    (Z.of_nat (length (s_file sst)) < 2 ^ 32 ->
     sst_open (s_file sst) reg = Some (reopened sst) /\
     holds aesEncrypt xxhash s2Decode zstdDecode sst (splitBlocks entries) /\
     holds aesEncrypt xxhash s2Decode zstdDecode (reopened sst) (splitBlocks entries)).
Proof.
  intros Hw Hfits.
  destruct (create_layout entries Hw Hfits) as (s & B & I & f & pf & index & kf & Hc & L & Hbl & Hf & Hpf & Hcomp & Hkf & He & Hid & Hbk).
  exists s. split; [done|]. split; [apply L|]. split; [apply L|]. intros Hsize.
  destruct (holds_layout s B I f pf index _ _ kf entries L Hsize Hw Hbl Hf Hpf Hcomp) as (Hfd & Hpd & Hholds).
  { intros Hne. rewrite He, Hbk, Hkf. destruct (decide _); [done|]. by destruct reg. }
  split; [|split; [done|by apply holds_reopened]].
  apply (sst_open_layout s B I f pf index _ _ kf L Hfd Hpd Hsize reg).
  - destruct kf as [id|]; [|done]. destruct (decide (splitBlocks entries = [])); [done|]. destruct reg as [kr|] eqn:Er; [|done].
    simplify_eq/=. destruct reg_ok as (_ & Hr & [key Hk]). split_and!; [done|done|unfold is_u32; lia|].
    exists kr. split; [done|]. rewrite Hbk. unfold GetKey. by rewrite Hkf, Hk.
  - rewrite (h_blocks _ _ _ _ _ _ Hholds). destruct entries as [|e es] eqn:Ee; [done|]. rewrite <- Ee in *.
    destruct (splitBlocks entries) as [|g gs] eqn:Eg.
    { pose proof (split_concat entries) as Hs. rewrite Eg in Hs. by rewrite Ee in Hs. }
    destruct (Z.eqb_spec (Z.of_nat (length (g :: gs))) 0) as [E0|_]; [simpl in E0; lia|].
    split.
    + rewrite Ee. apply (entry_key_nonempty entries); [done|]. rewrite Ee. left.
    + destruct (last entries) as [e'|] eqn:El; [|by rewrite last_None, Ee in El].
      apply (entry_key_nonempty entries); [done|]. by apply last_Some_elem_of.
Qed.

(** C26. A written table reads back.  For entries the format can hold, writing
    an SSTable succeeds, with compression and, when a registry is given,
    encryption; opening the file gives the same table (metadata, filters, key
    range, data key; the level comes from elsewhere and the tombstone ratio is
    rounded to four digits); every block listed in the index, read from disk,
    checked, decrypted and decompressed, is the encoding of its run of
    entries; the runs are the entries in order; and both filters admit every
    key and every prefix, without an index outside their bits. *)
Theorem create_then_open entries :
  writable entries -> Forall (fits s2Encode zstdEncode level) (splitBlocks entries) ->
  concat (splitBlocks entries) = entries /\
  exists sst,
    createAtLevel aesEncrypt xxhash s2Encode zstdEncode entries level reg nonces nowUnix = Returns sst /\
    minKey sst = from_option Key [] (head entries) /\ maxKey sst = from_option Key [] (last entries) /\
    (Z.of_nat (length (s_file sst)) < 2 ^ 32 ->
     sst_open (s_file sst) reg = Some (reopened sst) /\
     holds aesEncrypt xxhash s2Decode zstdDecode (reopened sst) (splitBlocks entries)).
Proof.
  intros Hw Hfits. split; [apply split_concat|].
  destruct (create_spec entries Hw Hfits) as (sst & Hc & Hmin & Hmax & Hopen).
  exists sst. split_and!; try done. intros Hs. by destruct (Hopen Hs) as (? & ? & ?).
Qed.
End create.

Module SstWitness.

(** A compressor that only marks its output. *)
Definition toyEncode (d : bytes) : bytes := 1 :: d.
Definition toyDecode (b : bytes) : option bytes := match b with 1 :: d => Some d | _ => None end.

#[export] Instance toyCodec : LosslessCodec toyEncode toyDecode.
Proof. split; done. Qed.

Definition toyHash (k : bytes) : Z := foldl (fun h b => u64 (h * 31 + b)) 7 k.

Definition entries : list Entry :=
  [mkEntry [97] [1; 2] false 0 5; mkEntry [98] [] true 0 9; mkEntry [98] [3] false 0 4; mkEntry [99] [7] false 50 6].

Definition nonces (i : nat) : bytes := replicate 12 (Z.of_nat i).

Lemma entries_writable : writable entries.
Proof.
  split; [apply entries_okb; by vm_compute| |by vm_compute].
  apply Forall_forall. intros e He. repeat (apply elem_of_cons in He as [->|He]; [by vm_compute|]).
  by apply elem_of_nil in He.
Qed.

Lemma entries_fit : Forall (fits toyEncode toyEncode 0) (splitBlocks entries).
Proof. repeat constructor. Qed.

Lemma kr_usable : registry_usable (Some RegistryWitness.kr).
Proof. split_and!; [by vm_compute|by vm_compute|by vm_compute|by eexists]. Qed.

(** An encrypted table. *)
Lemma create_then_open_witness :
  concat (splitBlocks entries) = entries /\
  exists sst,
    createAtLevel toyCipher toyHash toyEncode toyEncode entries 0 (Some RegistryWitness.kr) nonces 20 = Returns sst /\
    minKey sst = [97] /\ maxKey sst = [99] /\
    (Z.of_nat (length (s_file sst)) < 2 ^ 32 ->
     sst_open (s_file sst) (Some RegistryWitness.kr) = Some (reopened sst) /\
     holds toyCipher toyHash toyDecode toyDecode (reopened sst) (splitBlocks entries)).
Proof.
  apply (create_then_open toyCipher toyHash toyEncode toyEncode toyDecode toyDecode 0 (Some RegistryWitness.kr) nonces 20
    kr_usable (fun i => length_replicate 12 (Z.of_nat i)) entries entries_writable entries_fit).
Defined.

End SstWitness.
