(* ===== verification/SstReader.v ===== *)
(** * Reading SSTables ([sstable/sstable.go], lookups and iterator)

    Point lookups through the Bloom filter and the block index, the full scan
    and the iterator.  The block cache holds decoded blocks under the name of
    the file and the offset, so a hit returns what a miss decodes; it is not
    modelled here.  The theorems say that on a table that holds given blocks
    the lookups answer the abstract snapshot read and that the scans deliver
    the stored entries in order. *)

From S2P Require Import Prelude Mvcc Crypto Registry Bloom Encoding SstBlock SstTable.

Section reader.
Context (aesEncrypt : bytes -> bytes -> bytes) (xxhash : bytes -> Z) (s2Decode zstdDecode : bytes -> option bytes).

(** ** Point lookups *)

(** The last block whose key in the index, [keyAt], is at most [key]; [high - low + 1] rounds
    are enough. *)
Fixpoint blockSearch (fuel : nat) (keyAt : Z -> bytes) (key : bytes) (low high target : Z) : Z :=
  match fuel with
  | O => target
  | S fuel =>
      if low <=? high then
        let mid := (low + high) / 2 in
        if bytes_leb (keyAt mid) key then blockSearch fuel keyAt key (mid + 1) high mid
        else blockSearch fuel keyAt key low (mid - 1) target
      else target
  end.

(** [readBlock] and [decodeBlock] of block [i]; [None] is the error. *)
Definition loadContent (s : SSTable) (i : Z) : option bytes :=
  let '(_, blockOffset, blockSize) := getEntryAt s i in
  match readAt (s_file s) blockOffset blockSize with
  | None => None
  | Some raw => decodeBlock aesEncrypt s2Decode zstdDecode s raw
  end.

(** The bodies of [Get] and [GetByVersion] differ in the scan of the block. *)
Definition lookupBlock (s : SSTable) (key : bytes) (maxVersion : option Z) (now : Z)
    : outcome (option (bytes * bool * Z * Z)) :=
  if numBlocks s =? 0 then Returns None
  else
    let targetBlockIdx := blockSearch (Z.to_nat (numBlocks s)) (getKeyAt s) key 0 (numBlocks s - 1) (-1) in
    if targetBlockIdx =? -1 then Returns None
    else
      match loadContent s targetBlockIdx with
      | None => Errors
      | Some blockContent => Returns (scanResult now (scanBlock blockContent key maxVersion))
      end.

Definition lookupTable (s : SSTable) (key : bytes) (maxVersion : option Z) (now : Z)
    : outcome (option (bytes * bool * Z * Z)) :=
  match getFilter s with
  | Some f =>
      match MayContain xxhash f key with
      | None => Panics
      | Some false => Returns None
      | Some true => lookupBlock s key maxVersion now
      end
  | None => lookupBlock s key maxVersion now
  end.

Definition SSTable_Get (s : SSTable) (key : bytes) (now : Z) : outcome (option (bytes * bool * Z * Z)) :=
  lookupTable s key None now.

Definition SSTable_GetByVersion (s : SSTable) (key : bytes) (maxVersion now : Z)
    : outcome (option (bytes * bool * Z * Z)) :=
  lookupTable s key (Some maxVersion) now.

(** ** The full scan *)

(** [io.ReadFull] into a fresh buffer of [n] bytes whose error is ignored. *)
Definition readPadded (n : nat) (r : bytes) : bytes := take n (r ++ replicate n 0).

(** The records of one block; every round consumes a header. *)
Fixpoint readRecords (fuel : nat) (r : bytes) : list Entry :=
  match fuel with
  | O => []
  | S fuel =>
      if Nat.eqb (length r) 0 then []
      else if Nat.ltb (length r) recordHeaderSize then []
      else
        let hdr := RecordHeader_Decode (take recordHeaderSize r) in
        let r1 := drop recordHeaderSize r in
        let kLen := Z.to_nat (h_keyLen hdr) in
        let k := readPadded kLen r1 in
        let r2 := drop kLen r1 in
        if negb (h_deleted hdr) && (0 <? h_valLen hdr) then
          let vLen := Z.to_nat (h_valLen hdr) in
          mkEntry k (readPadded vLen r2) (h_deleted hdr) (h_expiresAt hdr) (h_version hdr)
            :: readRecords fuel (drop vLen r2)
        else mkEntry k [] (h_deleted hdr) (h_expiresAt hdr) (h_version hdr) :: readRecords fuel r2
  end.

(** The record area of a decoded block. *)
Definition recordArea (blockContent : bytes) : bytes :=
  match parseBlockRestarts blockContent with Some br => br_data br | None => blockContent end.

(** Blocks from [i] on: an unreadable block ends the scan with an error, a
    corrupted one is skipped. *)
Fixpoint readAllFrom (count : nat) (s : SSTable) (i : Z) : option (list Entry) :=
  match count with
  | O => Some []
  | S count =>
      let '(_, blockOffset, blockSize) := getEntryAt s i in
      match readAt (s_file s) blockOffset blockSize with
      | None => None
      | Some raw =>
          match readAllFrom count s (i + 1) with
          | None => None
          | Some rest =>
              match decodeBlock aesEncrypt s2Decode zstdDecode s raw with
              | None => Some rest
              | Some blockContent =>
                  let area := recordArea blockContent in
                  Some (readRecords (S (length area)) area ++ rest)
              end
          end
      end
  end.

Definition ReadAll (s : SSTable) : option (list Entry) := readAllFrom (Z.to_nat (numBlocks s)) s 0.

(** ** The iterator *)

Record SSTableIterator := mkSSTableIterator {
  it_blockIdx : Z;
  it_reader : option bytes;
  it_entry : Entry;
  it_valid : bool;
}.

Definition SSTable_NewIterator : SSTableIterator := mkSSTableIterator (-1) None (mkEntry [] [] false 0 0) false.

Definition loadBlock (s : SSTable) (it : SSTableIterator) (idx : Z) : bool * SSTableIterator :=
  if (idx <? 0) || (numBlocks s <=? idx) then (false, it)
  else
    match loadContent s idx with
    | None => (false, it)
    | Some blockContent =>
        (true, mkSSTableIterator idx (Some (recordArea blockContent)) (it_entry it) (it_valid it))
    end.

(** The fields are overwritten one by one, so a torn record leaves some of the
    previous entry behind. *)
Definition readNextRecord (it : SSTableIterator) : bool * SSTableIterator :=
  match it_reader it with
  | None => (false, it)
  | Some r =>
      if Nat.eqb (length r) 0 then (false, it)
      else if Nat.ltb (length r) recordHeaderSize then
        (false, mkSSTableIterator (it_blockIdx it) (Some []) (it_entry it) (it_valid it))
      else
        let hdr := RecordHeader_Decode (take recordHeaderSize r) in
        let r1 := drop recordHeaderSize r in
        let kLen := Z.to_nat (h_keyLen hdr) in
        if Nat.ltb (length r1) kLen then
          (false, mkSSTableIterator (it_blockIdx it) (Some [])
            (mkEntry (Key (it_entry it)) (Value (it_entry it)) (h_deleted hdr) (h_expiresAt hdr) (h_version hdr))
            (it_valid it))
        else
          let k := take kLen r1 in
          let r2 := drop kLen r1 in
          let vLen := if negb (h_deleted hdr) && (0 <? h_valLen hdr) then Z.to_nat (h_valLen hdr) else 0%nat in
          (true, mkSSTableIterator (it_blockIdx it) (Some (drop vLen r2))
            (mkEntry k (readPadded vLen r2) (h_deleted hdr) (h_expiresAt hdr) (h_version hdr)) (it_valid it))
  end.

Definition setValid (it : SSTableIterator) (v : bool) : SSTableIterator :=
  mkSSTableIterator (it_blockIdx it) (it_reader it) (it_entry it) v.

(** [for it.readNextRecord() { if it.key >= key { return } }]: found, or the
    block is exhausted. *)
Fixpoint seekInBlock (fuel : nat) (it : SSTableIterator) (key : bytes) : bool * SSTableIterator :=
  match fuel with
  | O => (false, it)
  | S fuel =>
      match readNextRecord it with
      | (true, it') => if bytes_leb key (Key (it_entry it')) then (true, it') else seekInBlock fuel it' key
      | (false, it') => (false, it')
      end
  end.

Definition readerLen (it : SSTableIterator) : nat := from_option length 0%nat (it_reader it).

(** The loop of [Seek] over the blocks from [i] on. *)
Fixpoint seekBlocks (count : nat) (s : SSTable) (it : SSTableIterator) (key : bytes) (i : Z) : SSTableIterator :=
  match count with
  | O => setValid it false
  | S count =>
      match loadBlock s it i with
      | (false, it') => setValid it' false
      | (true, it') =>
          match seekInBlock (S (readerLen it')) it' key with
          | (true, it'') => setValid it'' true
          | (false, it'') => seekBlocks count s it'' key (i + 1)
          end
      end
  end.

Definition SSTable_Seek (s : SSTable) (it : SSTableIterator) (key : bytes) : SSTableIterator :=
  if numBlocks s =? 0 then setValid it false
  else
    let targetIdx := blockSearch (Z.to_nat (numBlocks s)) (getKeyAt s) key 0 (numBlocks s - 1) 0 in
    seekBlocks (Z.to_nat (numBlocks s - targetIdx)) s it key targetIdx.

(** The loop of [Next] over the following blocks. *)
Fixpoint nextBlocks (count : nat) (s : SSTable) (it : SSTableIterator) (i : Z) : bool * SSTableIterator :=
  match count with
  | O => (false, setValid it false)
  | S count =>
      match loadBlock s it i with
      | (false, it') => (false, setValid it' false)
      | (true, it') =>
          match readNextRecord it' with
          | (true, it'') => (true, setValid it'' true)
          | (false, it'') => nextBlocks count s it'' (i + 1)
          end
      end
  end.

Definition SSTable_Next (s : SSTable) (it : SSTableIterator) : bool * SSTableIterator :=
  match readNextRecord it with
  | (true, it') => (true, setValid it' true)
  | (false, it') => nextBlocks (Z.to_nat (numBlocks s - (it_blockIdx it' + 1))) s it' (it_blockIdx it' + 1)
  end.

(** A client's loop: [for it.Seek(key); it.Valid(); it.Next()]. *)
Fixpoint drainIter (fuel : nat) (s : SSTable) (it : SSTableIterator) : list Entry :=
  match fuel with
  | O => []
  | S fuel => if it_valid it then it_entry it :: drainIter fuel s (SSTable_Next s it).2 else []
  end.

End reader.

(** ** The order of the blocks *)

Definition before (g h : list Entry) : Prop := forall a b, a ∈ g -> b ∈ h -> bytes_lt (Key a) (Key b).

Lemma sorted_keys_app es1 es2 :
  sorted_keys (es1 ++ es2) <->
  sorted_keys es1 /\ sorted_keys es2 /\ forall a b, a ∈ es1 -> b ∈ es2 -> bytes_le (Key a) (Key b).
Proof.
  unfold sorted_keys. rewrite fmap_app, StronglySorted_app. split; intros (H1 & H2 & H3); split_and!; try done.
  - intros a b Ha Hb. apply H3; by apply list_elem_of_fmap_2.
  - intros x y (a & -> & Ha)%list_elem_of_fmap (b & -> & Hb)%list_elem_of_fmap. auto.
Qed.

(** A key never spans two blocks. *)
Lemma split_before l gs cur :
  sorted_keys ((concat gs ++ cur) ++ l) -> StronglySorted before (gs ++ [cur]) -> (cur = [] -> gs = []) ->
  let '(gs', cur') := foldl splitStep (gs, cur) l in StronglySorted before (gs' ++ [cur']).
Proof.
  revert gs cur. induction l as [|e l IH]; intros gs cur Hs Hb Hc; [done|]. cbn [foldl].
  apply sorted_keys_app in Hs as (Hs1 & Hs2 & Hs3).
  assert (forall a, a ∈ concat gs ++ cur -> bytes_le (Key a) (Key e)) as Hle.
  { intros a Ha. apply Hs3; [done|left]. }
  assert (forall a c, a ∈ concat gs -> c ∈ cur -> bytes_lt (Key a) (Key c)) as Hlt.
  { intros a c (g & Hg & Ha)%elem_of_concat Hcc. apply StronglySorted_app in Hb as (_ & _ & Hb).
    apply (Hb g cur); [done|left|done|done]. }
  assert (cur <> [] -> forall a, a ∈ concat gs -> bytes_lt (Key a) (Key e)) as Hgs.
  { intros Hne a Ha. destruct cur as [|c cur']; [done|].
    eapply bytes_lt_le_trans; [apply (Hlt a c Ha); left|]. apply Hle, elem_of_app. right. left. }
  assert (forall es : list Entry, sorted_keys (es ++ e :: l) -> sorted_keys ((es ++ [e]) ++ l)) as Hassoc
    by (intros es; by rewrite <- app_assoc).
  unfold splitStep at 2. destruct (_ && _ && _) eqn:E.
  - bool_prop. apply IH; [|apply StronglySorted_app; split_and!; [done|repeat constructor|]|done].
    + rewrite concat_app. simpl. rewrite app_nil_r. apply Hassoc. by apply sorted_keys_app.
    + intros g h Hg ->%list_elem_of_singleton a b Ha ->%list_elem_of_singleton.
      apply elem_of_app in Hg as [Hg| ->%list_elem_of_singleton].
      * apply Hgs; [|apply elem_of_concat; eauto]. intros ->. simpl in *. lia.
      * destruct (last cur) as [c|] eqn:El; [|apply last_None in El; subst; by apply elem_of_nil in Ha].
        simpl in H0. apply bytes_eqb_false in H0.
        assert (c ∈ cur) as Hcin by (by apply last_Some_elem_of).
        assert (bytes_le (Key a) (Key c)) as Hac.
        { apply sorted_keys_app in Hs1 as (_ & Hs1 & _). apply last_Some in El as [cur' ->].
          apply sorted_keys_app in Hs1 as (_ & _ & Hs1). apply elem_of_app in Ha as [Ha| ->%list_elem_of_singleton];
            [apply Hs1; [done|left]|apply bytes_le_refl]. }
        assert (bytes_le (Key c) (Key e)) as Hce by (apply Hle, elem_of_app; by right).
        apply bytes_le_lt_eq in Hce as [Hce|Hce]; [by eapply bytes_le_lt_trans|congruence].
  - apply IH; [rewrite app_assoc; by apply Hassoc, sorted_keys_app| |by destruct cur].
    apply StronglySorted_app in Hb as (Hb1 & _ & Hb2). apply StronglySorted_app. split_and!; [done|repeat constructor|].
    intros g h Hg ->%list_elem_of_singleton a b Ha [Hb| ->%list_elem_of_singleton]%elem_of_app.
    + apply (Hb2 g cur); [done|left|done|done].
    + apply Hgs; [|apply elem_of_concat; eauto]. intros ->. rewrite Hc in Hg by done. by apply elem_of_nil in Hg.
Qed.

Lemma splitBlocks_before es : sorted_keys es -> StronglySorted before (splitBlocks es).
Proof.
  intros Hs. pose proof (split_before es [] [] Hs) as H. unfold splitBlocks.
  destruct (foldl splitStep ([], []) es) as [gs cur].
  assert (StronglySorted before (gs ++ [cur])) as Hr by (apply H; [repeat constructor|done]).
  destruct cur; [|done]. by apply StronglySorted_app in Hr as (? & _ & _).
Qed.

Lemma block_sorted gs i g : sorted_keys (concat gs) -> gs !! i = Some g -> sorted_keys g.
Proof.
  intros Hs Hg. rewrite <- (take_drop_middle _ _ _ Hg), concat_app in Hs. simpl in Hs.
  apply sorted_keys_app in Hs as (_ & Hs & _). by apply sorted_keys_app in Hs as (? & _ & _).
Qed.

(** ** Records *)

Lemma record_at e rest :
  entry_ok e ->
  let r := encodeEntry e ++ rest in
  let hdr := RecordHeader_Decode (take recordHeaderSize r) in
  let v := if Deleted e then [] else Value e in
  h_keyLen hdr = Z.of_nat (length (Key e)) /\ h_valLen hdr = Z.of_nat (length v) /\
  h_deleted hdr = Deleted e /\ h_expiresAt hdr = ExpiresAt e /\ h_version hdr = Version e /\
  drop recordHeaderSize r = Key e ++ v ++ rest /\ (recordHeaderSize <= length r)%nat.
Proof.
  intros [Hk Hv He Hr] r hdr v. unfold hdr, r, encodeEntry. rewrite <- !app_assoc.
  set (h := mkRecordHeader _ _ _ _ _). rewrite take_app_length' by done.
  assert (is_u32 (Z.of_nat (length (Key e)))) as Hku by (unfold is_u32; lia).
  assert (is_u32 (Z.of_nat (if Deleted e then 0 else length (Value e))%nat)) as Hvu
    by (unfold is_u32; destruct (Deleted e); lia).
  pose proof (RecordHeader_roundtrip h []) as Hrt. rewrite app_nil_r in Hrt.
  rewrite Hrt by (done || apply u32_range). unfold h. cbn [h_keyLen h_valLen h_deleted h_expiresAt h_version].
  rewrite !u32_id by done. split_and!; try done; [unfold v; by destruct (Deleted e)| ].
  rewrite length_app, length_RecordHeader_Encode. lia.
Qed.

Lemma readPadded_app n a b : length a = n -> readPadded n (a ++ b) = a.
Proof. intros H. unfold readPadded. rewrite <- app_assoc. by rewrite take_app_length'. Qed.

Lemma storedEntry_fields e :
  mkEntry (Key e) (if Deleted e then [] else Value e) (Deleted e) (ExpiresAt e) (Version e) = storedEntry e.
Proof. unfold storedEntry. by destruct e as [? ? [] ? ?]. Qed.

Lemma readRecords_spec es fuel :
  Forall entry_ok es -> (length es < fuel)%nat -> readRecords fuel (encodeEntries es) = storedEntry <$> es.
Proof.
  intros Hok. revert fuel. induction Hok as [|e es He _ IH]; intros [|fuel] Hf; simpl in Hf; try lia; [done|].
  cbn [readRecords]. rewrite encodeEntries_cons.
  destruct (record_at e (encodeEntries es) He) as (H1 & H2 & H3 & H4 & H5 & H6 & H7).
  destruct (Nat.eqb_spec (length (encodeEntry e ++ encodeEntries es)) 0); [unfold recordHeaderSize in *; lia|].
  destruct (Nat.ltb_spec (length (encodeEntry e ++ encodeEntries es)) recordHeaderSize); [lia|]. cbv zeta.
  rewrite H1, H2, H3, H4, H5, H6, !Nat2Z.id, drop_app_length, readPadded_app by done.
  rewrite fmap_cons, <- storedEntry_fields. set (v := if Deleted e then [] else Value e).
  destruct (negb (Deleted e) && (0 <? Z.of_nat (length v))) eqn:E.
  - rewrite drop_app_length, readPadded_app, IH by (done || lia). done.
  - assert (v = []) as ->.
    { unfold v in *. destruct (Deleted e); [done|]. by destruct (Value e). }
    simpl. by rewrite IH by lia.
Qed.

(** Advancing the iterator inside a block. *)
Lemma readNextRecord_cons i e es cur v :
  entry_ok e ->
  readNextRecord (mkSSTableIterator i (Some (encodeEntries (e :: es))) cur v) =
    (true, mkSSTableIterator i (Some (encodeEntries es)) (storedEntry e) v).
Proof.
  intros He. unfold readNextRecord. cbn [it_reader it_blockIdx it_entry it_valid]. rewrite encodeEntries_cons.
  destruct (record_at e (encodeEntries es) He) as (H1 & H2 & H3 & H4 & H5 & H6 & H7).
  destruct (Nat.eqb_spec (length (encodeEntry e ++ encodeEntries es)) 0); [unfold recordHeaderSize in *; lia|].
  destruct (Nat.ltb_spec (length (encodeEntry e ++ encodeEntries es)) recordHeaderSize); [lia|]. cbv zeta.
  rewrite H1, H2, H3, H4, H5, H6, !Nat2Z.id.
  match goal with |- context [Nat.ltb ?a ?b] => destruct (Nat.ltb_spec a b) as [Hlt|_] end; [rewrite length_app in Hlt; lia|].
  rewrite take_app_length, drop_app_length, <- storedEntry_fields. set (v' := if Deleted e then [] else Value e).
  assert ((if negb (Deleted e) && (0 <? Z.of_nat (length v')) then length v' else 0%nat) = length v') as ->.
  { unfold v'. destruct (Deleted e); [done|]. by destruct (Value e). }
  by rewrite drop_app_length, readPadded_app.
Qed.

Lemma readNextRecord_nil i cur v :
  readNextRecord (mkSSTableIterator i (Some (encodeEntries [])) cur v) =
    (false, mkSSTableIterator i (Some (encodeEntries [])) cur v).
Proof. done. Qed.

Lemma seekInBlock_spec es key i cur v fuel :
  Forall entry_ok es -> (length es < fuel)%nat ->
  (exists pre e post, es = pre ++ e :: post /\ (forall a, a ∈ pre -> bytes_lt (Key a) key) /\ bytes_le key (Key e) /\
    seekInBlock fuel (mkSSTableIterator i (Some (encodeEntries es)) cur v) key =
      (true, mkSSTableIterator i (Some (encodeEntries post)) (storedEntry e) v)) \/
  ((forall a, a ∈ es -> bytes_lt (Key a) key) /\ exists cur',
    seekInBlock fuel (mkSSTableIterator i (Some (encodeEntries es)) cur v) key =
      (false, mkSSTableIterator i (Some (encodeEntries [])) cur' v)).
Proof.
  intros Hok. revert cur fuel. induction Hok as [|e es He _ IH]; intros cur [|fuel] Hf; simpl in Hf; try lia.
  - right. split; [by intros a ?%elem_of_nil|]. by exists cur.
  - cbn [seekInBlock]. rewrite readNextRecord_cons by done. cbn [it_entry]. rewrite storedEntry_key.
    destruct (bytes_leb key (Key e)) eqn:E.
    + apply bytes_leb_spec in E. left. exists [], e, es. split_and!; try done. by intros a ?%elem_of_nil.
    + apply bytes_leb_false in E. destruct (IH (storedEntry e) fuel ltac:(lia)) as [(pre & e' & post & -> & Hpre & Hle & ->)|(Hall & cur' & ->)].
      * left. exists (e :: pre), e', post. split_and!; try done. intros a [->|Ha]%elem_of_cons; auto.
      * right. split; [|by exists cur']. intros a [->|Ha]%elem_of_cons; auto.
Qed.

(** ** Lookups *)

(** The search ends at the last block that starts at or below [key]. *)
Lemma blockSearch_spec keyAt key n (K : Z -> bytes) fuel lo hi target dflt :
  (forall i, 0 <= i < n -> keyAt i = K i) ->
  (forall i j, 0 <= i < j -> j < n -> bytes_lt (K i) (K j)) ->
  0 <= lo -> hi < n -> lo <= hi + 1 -> (Z.to_nat (hi - lo + 1) <= fuel)%nat ->
  (target = dflt /\ lo = 0 \/ 0 <= target /\ target = lo - 1 /\ bytes_le (K target) key) ->
  (hi + 1 < n -> bytes_lt key (K (hi + 1))) ->
  let r := blockSearch fuel keyAt key lo hi target in
  (r = dflt /\ (0 < n -> bytes_lt key (K 0)) \/ 0 <= r < n /\ bytes_le (K r) key) /\
  (forall j, 0 <= j < n -> bytes_lt key (K j) \/ (0 <= r < n /\ bytes_le (K r) key /\ j <= r)).
Proof.
  intros HK Hmono. revert lo hi target.
  assert (forall lo hi target, 0 <= lo -> hi < n -> lo = hi + 1 ->
    (target = dflt /\ lo = 0 \/ 0 <= target /\ target = lo - 1 /\ bytes_le (K target) key) ->
    (hi + 1 < n -> bytes_lt key (K (hi + 1))) ->
    (target = dflt /\ (0 < n -> bytes_lt key (K 0)) \/ 0 <= target < n /\ bytes_le (K target) key) /\
    (forall j, 0 <= j < n -> bytes_lt key (K j) \/ (0 <= target < n /\ bytes_le (K target) key /\ j <= target))) as Hend.
  { intros lo hi target H0 Hhi Hlo Ht Hup. assert (forall j, lo <= j < n -> bytes_lt key (K j)) as Hj.
    { intros j Hj. destruct (Z.eq_dec j (hi + 1)) as [->|Hne]; [apply Hup; lia|].
      eapply bytes_lt_trans; [apply Hup; lia|apply Hmono; lia]. }
    split.
    - destruct Ht as [[-> ->]|(Ht & -> & Hle)]; [left; split; [done|intros; apply Hj; lia]|right; split; [lia|done]].
    - intros j Hjn. destruct (Z.lt_ge_cases j lo) as [Hlt|Hge]; [|left; apply Hj; lia].
      destruct Ht as [[-> ->]|(Ht & -> & Hle)]; [lia|]. right. split; [lia|]. split; [done|lia]. }
  induction fuel as [|fuel IH]; intros lo hi target H0 Hhi Hlo Hf Ht Hup; simpl.
  - apply (Hend lo hi); try done. lia.
  - destruct (Z.leb_spec lo hi) as [Hle|Hgt]; [|apply (Hend lo hi); try done; lia].
    pose proof (Z.div_mod (lo + hi) 2 ltac:(lia)). pose proof (Z.mod_pos_bound (lo + hi) 2 ltac:(lia)).
    set (mid := (lo + hi) / 2) in *. rewrite HK by lia. destruct (bytes_leb (K mid) key) eqn:E.
    + apply bytes_leb_spec in E. apply IH; try lia; [|done]. right. split; [lia|]. split; [lia|done].
    + apply bytes_leb_false in E. apply IH; try lia; [done|]. intros _. by replace (mid - 1 + 1) with mid by lia.
Qed.

(** The lookup over the entries of the blocks: the block whose first key is the
    last one at or below [key], then the scan of that block. *)
Definition blockFirst (gs : list (list Entry)) (i : Z) : bytes := from_option Key [] (gs !! Z.to_nat i ≫= head).

(** The blocks as they are stored. *)
Definition storedBlocks (gs : list (list Entry)) : list (list Entry) := map (map storedEntry) gs.

Definition readBlocks (gs : list (list Entry)) (key : bytes) (maxVersion : option Z) : option Entry :=
  let n := length gs in
  let target := blockSearch n (blockFirst gs) key 0 (Z.of_nat n - 1) (-1) in
  if target =? -1 then None
  else gs !! Z.to_nat target ≫= fun g => scanEntries (restartPositions g) g key maxVersion.

(** An entry it answers with has the key. *)
Lemma scanEntries_key restarts es key mv e :
  scanEntries restarts es key mv = Some e -> e ∈ es /\ isWanted key mv e.
Proof.
  assert (forall i, foldl newer None (filter (isWanted key mv) (drop i es)) = Some e -> e ∈ es /\ isWanted key mv e) as Hn.
  { intros i Hf. apply newest_Some in Hf as [[Hw He]%list_elem_of_filter _]. split; [|done].
    rewrite <- (take_drop i es). apply elem_of_app. by right. }
  unfold scanEntries. case_if; [|apply Hn]. case_if; [done|apply Hn].
Qed.

Lemma blockSearch_ext k1 k2 key n fuel lo hi t :
  (forall i, 0 <= i < n -> k1 i = k2 i) -> 0 <= lo -> hi < n ->
  blockSearch fuel k1 key lo hi t = blockSearch fuel k2 key lo hi t.
Proof.
  intros HK. revert lo hi t. induction fuel as [|f IH]; intros lo hi t Hlo Hhi; simpl; [done|].
  destruct (Z.leb_spec lo hi) as [Hle|Hgt]; [|done].
  pose proof (Z.div_mod (lo + hi) 2 ltac:(lia)). pose proof (Z.mod_pos_bound (lo + hi) 2 ltac:(lia)).
  set (mid := (lo + hi) / 2) in *. rewrite HK by lia. destruct (bytes_leb _ _); apply IH; lia.
Qed.

Section blocks.
Context (gs : list (list Entry)).
Context (sorted : sorted_keys (concat gs)) (blocks_before : StronglySorted before gs) (nonempty : Forall (fun g => g <> []) gs).
Notation firstKey := (blockFirst gs).

Lemma block_get i : 0 <= i < Z.of_nat (length gs) -> exists g, gs !! Z.to_nat i = Some g /\ g <> [].
Proof.
  intros Hi. destruct (lookup_lt_is_Some_2 gs (Z.to_nat i)) as [g Hg]; [lia|]. exists g. split; [done|].
  by apply (Forall_lookup_1 _ _ _ _ nonempty Hg).
Qed.

Lemma firstKey_mono i j : 0 <= i < j -> j < Z.of_nat (length gs) -> bytes_lt (firstKey i) (firstKey j).
Proof.
  intros Hij Hj. destruct (block_get i ltac:(lia)) as (g & Hg & Hgne).
  destruct (block_get j ltac:(lia)) as (h & Hh & Hhne). unfold blockFirst. rewrite Hg, Hh.
  destruct g as [|a g]; [done|]. destruct h as [|b h]; [done|]. simpl.
  assert (Z.to_nat i < Z.to_nat j)%nat as Hlt by lia.
  apply (StronglySorted_lookup _ _ _ _ _ _ blocks_before Hlt Hg Hh); left.
Qed.

(** All versions of a key are in the block the search picks. *)
Lemma other_blocks r g key :
  gs !! r = Some g -> bytes_le (firstKey (Z.of_nat r)) key ->
  (forall j, 0 <= j < Z.of_nat (length gs) -> Z.of_nat r < j -> bytes_lt key (firstKey j)) ->
  forall a, a ∈ concat (take r gs) ++ concat (drop (S r) gs) -> Key a <> key.
Proof.
  intros Hg Hle Hup a Ha Hk. apply elem_of_app in Ha as [(h & Hh & Ha)%elem_of_concat|(h & Hh & Ha)%elem_of_concat].
  - apply list_elem_of_lookup in Hh as [j Hj].
    assert (j < r)%nat as Hjr by (apply lookup_lt_Some in Hj; rewrite length_take in Hj; lia).
    rewrite lookup_take_lt in Hj by done.
    pose proof (StronglySorted_lookup _ _ _ _ _ _ blocks_before Hjr Hj Hg) as Hb.
    unfold blockFirst in Hle. rewrite Nat2Z.id, Hg in Hle.
    pose proof (Forall_lookup_1 _ _ _ _ nonempty Hg) as Hne. destruct g as [|b g]; [done|]. simpl in Hle.
    specialize (Hb a b Ha ltac:(left)). rewrite Hk in Hb.
    apply (bytes_lt_irrefl key). by eapply bytes_lt_le_trans.
  - apply list_elem_of_lookup in Hh as [j Hj]. rewrite lookup_drop in Hj.
    pose proof (lookup_lt_Some _ _ _ Hj) as Hlt.
    specialize (Hup (Z.of_nat (S r + j)) ltac:(lia) ltac:(lia)). unfold blockFirst in Hup. rewrite Nat2Z.id, Hj in Hup.
    destruct h as [|b h]; [by apply elem_of_nil in Ha|]. simpl in Hup.
    apply list_elem_of_lookup in Ha as [i Hi].
    pose proof (sorted_lookup (b :: h) 0 i b a (block_sorted _ _ _ sorted Hj) ltac:(lia) eq_refl Hi) as Hba.
    rewrite Hk in Hba. apply (bytes_lt_irrefl key). by eapply bytes_lt_le_trans.
Qed.

Lemma concat_cut r g : gs !! r = Some g -> concat gs = concat (take r gs) ++ g ++ concat (drop (S r) gs).
Proof. intros Hg. rewrite <- (take_drop_middle _ _ _ Hg) at 1. by rewrite concat_app. Qed.

Lemma no_match key mv (l : list Entry) : (forall a, a ∈ l -> Key a <> key) -> filter (isWanted key mv) l = [].
Proof.
  intros Hl. apply filter_none. intros x Hx Hw. unfold isWanted, wanted in Hw.
  apply andb_true_iff in Hw as [Hk%bytes_eqb_spec _]. by apply (Hl x).
Qed.

(** Which block the search picks, and that no other block has the key. *)
Lemma pick_block key :
  let r := blockSearch (length gs) firstKey key 0 (Z.of_nat (length gs) - 1) (-1) in
  (r = -1 /\ forall a, a ∈ concat gs -> Key a <> key) \/
  (0 <= r < Z.of_nat (length gs) /\ r <> -1 /\
   forall a, a ∈ concat (take (Z.to_nat r) gs) ++ concat (drop (S (Z.to_nat r)) gs) -> Key a <> key).
Proof.
  set (n := Z.of_nat (length gs)).
  pose proof (blockSearch_spec firstKey key n firstKey (length gs) 0 (n - 1) (-1) (-1) (fun i _ => eq_refl)
    (fun i j Hij Hj => firstKey_mono i j Hij Hj) ltac:(lia) ltac:(lia) ltac:(lia) ltac:(lia) ltac:(by left) ltac:(lia)) as Hs.
  cbv zeta in Hs. intros r. fold r in Hs. destruct Hs as [Hr Hup]. destruct (Z.eq_dec r (-1)) as [Er|Er].
  - left. split; [done|]. intros a (g & Hg & Ha)%elem_of_concat Hk. apply list_elem_of_lookup in Hg as [j Hj].
    destruct (Hup (Z.of_nat j)) as [Hlt|[? _]]; [apply lookup_lt_Some in Hj; lia| |lia].
    unfold blockFirst in Hlt. rewrite Nat2Z.id, Hj in Hlt. destruct g as [|b g]; [by apply elem_of_nil in Ha|].
    simpl in Hlt. apply list_elem_of_lookup in Ha as [i Hi].
    pose proof (sorted_lookup (b :: g) 0 i b a (block_sorted _ _ _ sorted Hj) ltac:(lia) eq_refl Hi) as Hle.
    rewrite Hk in Hle. apply (bytes_lt_irrefl key). by eapply bytes_lt_le_trans.
  - right. destruct Hr as [[? _]|[Hr Hle]]; [lia|]. split_and!; [lia|lia|done|].
    destruct (block_get r Hr) as (g & Hg & _). apply (other_blocks _ g key Hg); rewrite Z2Nat.id by lia; [done|].
    intros j Hj Hrj. destruct (Hup j Hj) as [?|(_ & _ & ?)]; [done|lia].
Qed.

Lemma blockFirst_stored i : blockFirst (storedBlocks gs) i = firstKey i.
Proof.
  unfold blockFirst, storedBlocks. setoid_rewrite list_lookup_fmap. destruct (gs !! _) as [[|e g]|]; [done| |done]. simpl. apply storedEntry_key.
Qed.

Lemma readBlocks_pick key mv :
  let r := blockSearch (length gs) firstKey key 0 (Z.of_nat (length gs) - 1) (-1) in
  readBlocks (storedBlocks gs) key mv =
    if r =? -1 then None
    else gs !! Z.to_nat r ≫= fun g => scanEntries (restartPositions g) (storedEntry <$> g) key mv.
Proof.
  intros r. unfold readBlocks. assert (length (storedBlocks gs) = length gs) as -> by apply length_map.
  rewrite (blockSearch_ext _ firstKey key (Z.of_nat (length gs))) by (lia || auto using blockFirst_stored). fold r.
  case_if; [done|]. unfold storedBlocks. setoid_rewrite list_lookup_fmap. destruct (gs !! Z.to_nat r) as [g|]; [|done]. simpl.
  unfold restartPositions, restartCount. by rewrite length_fmap.
Qed.

(** When no block has the key's versions across a restart point, the lookup
    finds the newest of them. *)
Lemma readBlocks_whole key mv :
  Forall (fun g => not_straddling g key) gs ->
  readBlocks gs key mv = foldl newer None (filter (isWanted key mv) (concat gs)).
Proof.
  intros Hns. unfold readBlocks. set (r := blockSearch _ _ _ _ _ _).
  destruct (pick_block key) as [[Er Hno]|(Hr & Er & Hno)]; fold r in Er, Hno.
  - rewrite Er. by rewrite no_match.
  - rewrite (proj2 (Z.eqb_neq _ _) Er). fold r in Hr. destruct (block_get r Hr) as (g & Hg & Hne). rewrite Hg.
    cbn [mbind option_bind]. pose proof (block_sorted _ _ _ sorted Hg) as Hs.
    rewrite scanEntries_whole; [|done|done|by apply (Forall_lookup_1 _ _ _ _ Hns Hg)].
    rewrite (concat_cut _ _ Hg), !filter_app.
    rewrite (no_match key mv (concat (take _ gs))), (no_match key mv (concat (drop _ gs))); [by rewrite app_nil_r|..];
      intros a Ha; apply Hno, elem_of_app; auto.
Qed.

End blocks.

Section lookup.
Context (aesEncrypt : bytes -> bytes -> bytes) (xxhash : bytes -> Z) (s2Decode zstdDecode : bytes -> option bytes).
Context (s : SSTable) (gs : list (list Entry)).
Context (H : holds aesEncrypt xxhash s2Decode zstdDecode s gs).
Context (sorted : sorted_keys (concat gs)) (blocks_before : StronglySorted before gs).
Notation firstKey := (blockFirst gs).
Context (ok : Forall entry_ok (concat gs)) (size_ok : Z.of_nat (length (encodeEntries (concat gs))) < 2 ^ 32).

Lemma block_lookup i : 0 <= i < Z.of_nat (length gs) -> exists g, gs !! Z.to_nat i = Some g /\ block_at aesEncrypt s2Decode zstdDecode s g (Z.to_nat i).
Proof.
  intros Hi. destruct (lookup_lt_is_Some_2 gs (Z.to_nat i)) as [g Hg]; [lia|]. exists g. split; [done|].
  by apply (h_block _ _ _ _ _ _ H).
Qed.

Lemma blocks_nonempty : Forall (fun g => g <> []) gs.
Proof. apply Forall_lookup_2. intros i g Hg. by destruct (h_block _ _ _ _ _ _ H i g Hg). Qed.

Lemma getKeyAt_first i : 0 <= i < Z.of_nat (length gs) -> getKeyAt s i = firstKey i.
Proof.
  intros Hi. destruct (block_lookup i Hi) as (g & Hg & _ & off & size & raw & He & _).
  unfold getKeyAt, blockFirst. rewrite Z2Nat.id in He by lia. by rewrite He, Hg.
Qed.

Lemma loadContent_block i : 0 <= i < Z.of_nat (length gs) ->
  exists g, gs !! Z.to_nat i = Some g /\ g <> [] /\
    loadContent aesEncrypt s2Decode zstdDecode s i = Some (encodeBlock g).
Proof.
  intros Hi. destruct (block_lookup i Hi) as (g & Hg & Hne & off & size & raw & He & Hr & Hd).
  exists g. split_and!; [done|done|]. unfold loadContent. rewrite Z2Nat.id in He by lia. by rewrite He, Hr.
Qed.

Lemma block_parts i g : gs !! i = Some g ->
  Forall entry_ok g /\ sorted_keys g /\ Z.of_nat (length (encodeEntries g)) < 2 ^ 32.
Proof.
  intros Hg. pose proof (concat_cut gs _ _ Hg) as Hcat. split_and!.
  - rewrite Forall_forall in *. intros e He. apply ok, elem_of_concat. exists g. split; [by eapply list_elem_of_lookup_2|done].
  - by eapply block_sorted.
  - rewrite Hcat, !encodeEntries_app, !length_app in size_ok. lia.
Qed.

(** The lookup in the file is the lookup in the entries. *)
Lemma lookupBlock_spec key mv now :
  lookupBlock aesEncrypt s2Decode zstdDecode s key mv now =
    Returns (scanResult now (readBlocks (storedBlocks gs) key mv)).
Proof.
  rewrite readBlocks_pick. unfold lookupBlock. rewrite (h_blocks _ _ _ _ _ _ H), Nat2Z.id.
  rewrite (blockSearch_ext _ firstKey key (Z.of_nat (length gs))) by (lia || auto using getKeyAt_first).
  set (r := blockSearch _ _ _ _ _ _). destruct (Z.eqb_spec (Z.of_nat (length gs)) 0) as [E|E].
  { unfold r. assert (gs = []) as Hgs by (apply nil_length_inv; lia). by rewrite Hgs. }
  destruct (pick_block gs sorted blocks_before blocks_nonempty key) as [[Er _]|(Hr & Er & _)]; fold r in Er; [by rewrite Er|].
  rewrite (proj2 (Z.eqb_neq _ _) Er). destruct (loadContent_block r Hr) as (g & Hg & Hne & ->). rewrite Hg.
  destruct (block_parts _ g Hg) as (Hok & Hs & Hsz). cbn [mbind option_bind]. by rewrite scanBlock_entries.
Qed.

(** A filter that denies the key tells the truth. *)
Lemma lookupTable_spec key mv now :
  lookupTable aesEncrypt xxhash s2Decode zstdDecode s key mv now =
    Returns (scanResult now (readBlocks (storedBlocks gs) key mv)).
Proof.
  unfold lookupTable. destruct (h_filter _ _ _ _ _ _ H) as (f & -> & Hok & Hmay).
  destruct (MayContain_total xxhash f key Hok) as [[] Hb]; rewrite Hb; [by apply lookupBlock_spec|].
  rewrite readBlocks_pick. case_if; [done|]. destruct (gs !! _) as [g|] eqn:Eg; [|done]. simpl.
  destruct (scanEntries _ _ key mv) as [e|] eqn:Ee; [|done]. apply scanEntries_key in Ee as [(a & -> & Ha)%list_elem_of_fmap Hw].
  unfold isWanted, wanted in Hw. apply andb_true_iff in Hw as [Hk%bytes_eqb_spec _]. rewrite storedEntry_key in Hk.
  specialize (Hmay a ltac:(apply elem_of_concat; exists g; split; [by eapply list_elem_of_lookup_2|done])). congruence.
Qed.

(** ** Scans *)

Lemma recordArea_block g : g ∈ gs -> recordArea (encodeBlock g) = encodeEntries g /\ Forall entry_ok g /\ g <> [].
Proof.
  intros Hg. assert (g <> []) as Hne.
  { apply list_elem_of_lookup in Hg as [i Hi]. by destruct (h_block _ _ _ _ _ _ H i g Hi). }
  apply list_elem_of_lookup in Hg as [i Hi]. pose proof (concat_cut gs _ _ Hi) as Hcat.
  assert (Forall entry_ok g) as Hok.
  { rewrite Hcat, !Forall_app in ok. tauto. }
  split_and!; [|done|done]. unfold recordArea. rewrite parse_encodeBlock; [done|done|].
  rewrite Hcat, !encodeEntries_app, !length_app in size_ok. lia.
Qed.

Lemma readAllFrom_spec count i :
  (i + count = length gs)%nat ->
  readAllFrom aesEncrypt s2Decode zstdDecode count s (Z.of_nat i) = Some (storedEntry <$> concat (drop i gs)).
Proof.
  revert i. induction count as [|count IH]; intros i Hi; cbn [readAllFrom].
  { rewrite drop_ge by lia. done. }
  destruct (lookup_lt_is_Some_2 gs i ltac:(lia)) as [g Hg].
  destruct (h_block _ _ _ _ _ _ H i g Hg) as (Hne & off & size & raw & He & Hr & Hd).
  rewrite He, Hr, Hd. replace (Z.of_nat i + 1) with (Z.of_nat (S i)) by lia. rewrite IH by lia.
  destruct (recordArea_block g) as (-> & Hok & _); [by eapply list_elem_of_lookup_2|].
  rewrite readRecords_spec; [|done|pose proof (length_encodeEntries g); lia].
  rewrite (drop_S _ _ _ Hg). simpl. by rewrite fmap_app.
Qed.

(** The entries an iterator has still to deliver. *)
Definition remaining (it : SSTableIterator) (l : list Entry) : Prop :=
  (it_reader it = None /\ it_blockIdx it = -1 /\ l = storedEntry <$> concat gs) \/
  exists i es, it_reader it = Some (encodeEntries es) /\ it_blockIdx it = Z.of_nat i /\ Forall entry_ok es /\
    l = storedEntry <$> (es ++ concat (drop (S i) gs)).

Lemma loadBlock_spec i g it :
  gs !! i = Some g ->
  loadBlock aesEncrypt s2Decode zstdDecode s it (Z.of_nat i) =
    (true, mkSSTableIterator (Z.of_nat i) (Some (encodeEntries g)) (it_entry it) (it_valid it)).
Proof.
  intros Hg. pose proof (lookup_lt_Some _ _ _ Hg) as Hlt. unfold loadBlock. rewrite (h_blocks _ _ _ _ _ _ H).
  destruct (Z.ltb_spec (Z.of_nat i) 0); [lia|]. destruct (Z.leb_spec (Z.of_nat (length gs)) (Z.of_nat i)); [lia|].
  cbn [orb]. destruct (loadContent_block (Z.of_nat i)) as (g' & Hg' & _ & ->); [lia|].
  rewrite Nat2Z.id, Hg in Hg'. injection Hg' as <-.
  by destruct (recordArea_block g) as (-> & _); [by eapply list_elem_of_lookup_2|].
Qed.

(** The next entry of the blocks from [i] on. *)
Lemma nextBlocks_spec count it i :
  (i + count = length gs)%nat ->
  match concat (drop i gs) with
  | [] => exists it', nextBlocks aesEncrypt s2Decode zstdDecode count s it (Z.of_nat i) = (false, it') /\ it_valid it' = false
  | e :: l => exists it', nextBlocks aesEncrypt s2Decode zstdDecode count s it (Z.of_nat i) = (true, it') /\
      it_valid it' = true /\ it_entry it' = storedEntry e /\ remaining it' (storedEntry <$> l)
  end.
Proof.
  intros Hi. destruct count as [|count]; cbn [nextBlocks].
  { rewrite drop_ge by lia. simpl. by eexists. }
  destruct (lookup_lt_is_Some_2 gs i ltac:(lia)) as [g Hg]. rewrite (drop_S _ _ _ Hg).
  destruct (recordArea_block g) as (_ & Hok & Hne); [by eapply list_elem_of_lookup_2|].
  rewrite (loadBlock_spec i g it Hg). destruct g as [|e g]; [done|]. simpl concat.
  apply Forall_cons in Hok as [He Hok]. rewrite readNextRecord_cons by done.
  eexists. split; [done|]. split_and!; try done. right. exists i, g. by split_and!.
Qed.

Lemma Next_spec it l :
  remaining it l ->
  match l with
  | [] => exists it', SSTable_Next aesEncrypt s2Decode zstdDecode s it = (false, it') /\ it_valid it' = false
  | e :: l => exists it', SSTable_Next aesEncrypt s2Decode zstdDecode s it = (true, it') /\
      it_valid it' = true /\ it_entry it' = e /\ remaining it' l
  end.
Proof.
  intros Hrem. unfold SSTable_Next.
  assert (forall it0 i, (i <= length gs)%nat -> it_blockIdx it0 = Z.of_nat i - 1 ->
    match storedEntry <$> concat (drop i gs) with
    | [] => exists it', nextBlocks aesEncrypt s2Decode zstdDecode (Z.to_nat (numBlocks s - (it_blockIdx it0 + 1))) s it0
          (it_blockIdx it0 + 1) = (false, it') /\ it_valid it' = false
    | e :: l => exists it', nextBlocks aesEncrypt s2Decode zstdDecode (Z.to_nat (numBlocks s - (it_blockIdx it0 + 1))) s it0
          (it_blockIdx it0 + 1) = (true, it') /\ it_valid it' = true /\ it_entry it' = e /\ remaining it' l
    end) as Hblocks.
  { intros it0 i Hi Hidx. rewrite Hidx, (h_blocks _ _ _ _ _ _ H). replace (Z.of_nat i - 1 + 1) with (Z.of_nat i) by lia.
    pose proof (nextBlocks_spec (Z.to_nat (Z.of_nat (length gs) - Z.of_nat i)) it0 i ltac:(lia)) as Hn.
    by destruct (concat (drop i gs)). }
  destruct Hrem as [(Hr & Hidx & ->)|(i & es & Hr & Hidx & Hok & ->)].
  - unfold readNextRecord. rewrite Hr. apply (Hblocks it 0%nat); [lia|rewrite Hidx; lia].
  - destruct it as [idx r cur v]; simpl in Hr, Hidx; subst. destruct es as [|e es].
    + rewrite readNextRecord_nil. cbn [app].
      destruct (Nat.le_gt_cases (S i) (length gs)) as [Hle|Hgt].
      * apply (Hblocks (mkSSTableIterator _ _ _ _) (S i)); [done|]. simpl. lia.
      * rewrite drop_ge by lia. cbn [it_blockIdx]. rewrite (h_blocks _ _ _ _ _ _ H).
        replace (Z.to_nat _) with 0%nat by lia. by eexists.
    + apply Forall_cons in Hok as [He Hok]. rewrite readNextRecord_cons by done. simpl.
      eexists. split_and!; try done. right. exists i, es. by split_and!.
Qed.

(** Where a seek must stop. *)
Definition seek_result (key : bytes) (it : SSTableIterator) : Prop :=
  (exists pre e post, concat gs = pre ++ e :: post /\ (forall a, a ∈ pre -> bytes_lt (Key a) key) /\
    bytes_le key (Key e) /\ it_valid it = true /\ it_entry it = storedEntry e /\ remaining it (storedEntry <$> post)) \/
  ((forall a, a ∈ concat gs -> bytes_lt (Key a) key) /\ it_valid it = false).

Lemma seekBlocks_spec count it key i :
  (i + count = length gs)%nat -> (forall a, a ∈ concat (take i gs) -> bytes_lt (Key a) key) ->
  seek_result key (seekBlocks aesEncrypt s2Decode zstdDecode count s it key (Z.of_nat i)).
Proof.
  revert it i. induction count as [|count IH]; intros it i Hi Hbefore; cbn [seekBlocks].
  { right. rewrite take_ge in Hbefore by lia. done. }
  destruct (lookup_lt_is_Some_2 gs i ltac:(lia)) as [g Hg].
  destruct (recordArea_block g) as (_ & Hok & Hne); [by eapply list_elem_of_lookup_2|].
  rewrite (loadBlock_spec i g it Hg). cbn [readerLen it_reader from_option].
  destruct (seekInBlock_spec g key (Z.of_nat i) (it_entry it) (it_valid it) (S (length (encodeEntries g))) Hok)
    as [(pre & e & post & Hsplit & Hpre & Hle & ->)|(Hall & cur' & ->)]; [pose proof (length_encodeEntries g); lia| |].
  - left. exists (concat (take i gs) ++ pre), e, (post ++ concat (drop (S i) gs)). split_and!; try done.
    + rewrite (concat_cut gs _ _ Hg), Hsplit. by rewrite <- !app_assoc.
    + intros a [Ha|Ha]%elem_of_app; auto.
    + right. exists i, post. split_and!; try done. rewrite Hsplit, Forall_app, Forall_cons in Hok. tauto.
  - replace (Z.of_nat i + 1) with (Z.of_nat (S i)) by lia. apply IH; [lia|].
    intros a Ha. rewrite (take_S_r _ _ _ Hg), concat_app in Ha. apply elem_of_app in Ha as [Ha|Ha]; [auto|].
    simpl in Ha. rewrite app_nil_r in Ha. auto.
Qed.

Lemma Seek_spec it key : seek_result key (SSTable_Seek aesEncrypt s2Decode zstdDecode s it key).
Proof.
  unfold SSTable_Seek. rewrite (h_blocks _ _ _ _ _ _ H). set (n := Z.of_nat (length gs)).
  destruct (Z.eqb_spec n 0) as [E|E].
  { right. assert (gs = []) as -> by (apply nil_length_inv; lia). split; [by intros a ?%elem_of_nil|done]. }
  pose proof (blockSearch_spec (getKeyAt s) key n firstKey (Z.to_nat n) 0 (n - 1) 0 0 getKeyAt_first
    (fun i j Hij Hj => firstKey_mono gs blocks_before blocks_nonempty i j Hij Hj) ltac:(lia) ltac:(lia) ltac:(lia) ltac:(lia) ltac:(by left) ltac:(lia)) as Hs.
  cbv zeta in Hs. set (r := blockSearch _ (getKeyAt s) key 0 (n - 1) 0) in *. destruct Hs as [Hr _].
  assert (0 <= r < n) as Hrange by (destruct Hr as [[-> _]|[? _]]; lia).
  rewrite <- (Z2Nat.id r) at 2 by lia. apply seekBlocks_spec; [lia|].
  intros a (h & Hh & Ha)%elem_of_concat. apply list_elem_of_lookup in Hh as [j Hj].
  assert (j < Z.to_nat r)%nat as Hjr by (apply lookup_lt_Some in Hj; rewrite length_take in Hj; lia).
  rewrite lookup_take_lt in Hj by done. destruct Hr as [[-> _]|[_ Hle]]; [lia|].
  destruct (block_lookup r Hrange) as (g & Hg & Hne & _).
  unfold blockFirst in Hle. rewrite Hg in Hle. destruct g as [|b g]; [done|]. simpl in Hle.
  eapply bytes_lt_le_trans; [|exact Hle].
  apply (StronglySorted_lookup _ _ _ _ _ _ blocks_before Hjr Hj Hg); [done|left].
Qed.

Lemma drainIter_spec l it fuel :
  remaining it l -> it_valid it = true -> (length l < fuel)%nat ->
  drainIter aesEncrypt s2Decode zstdDecode fuel s it = it_entry it :: l.
Proof.
  revert it fuel. induction l as [|e l IH]; intros it [|fuel] Hrem Hv Hf; simpl in Hf; try lia;
    cbn [drainIter]; rewrite Hv; f_equal.
  - destruct (Next_spec it [] Hrem) as (it' & -> & Hv'). simpl. destruct fuel; [done|]. simpl. by rewrite Hv'.
  - destruct (Next_spec it (e :: l) Hrem) as (it' & -> & Hv' & <- & Hrem'). apply IH; [done|done|lia].
Qed.

Lemma seek_drain it key :
  drainIter aesEncrypt s2Decode zstdDecode (S (length (concat gs))) s
    (SSTable_Seek aesEncrypt s2Decode zstdDecode s it key) =
  filter (fun e => bytes_le key (Key e)) (storedEntry <$> concat gs).
Proof.
  destruct (Seek_spec it key) as [(pre & e & post & Hcat & Hpre & Hle & Hv & He & Hrem)|[Hall Hv]].
  - rewrite (drainIter_spec _ _ _ Hrem Hv); [|rewrite Hcat, length_app, length_fmap; simpl; lia].
    pose proof sorted as Hs. rewrite Hcat in Hs. apply sorted_keys_app in Hs as (_ & Hs & _).
    rewrite He, Hcat, fmap_app, filter_app, filter_none, filter_all; [done|..].
    + intros x (a & -> & Ha)%list_elem_of_fmap. rewrite storedEntry_key.
      apply elem_of_cons in Ha as [->|Ha]; [done|]. eapply bytes_le_trans; [exact Hle|].
      apply (sorted_keys_app [e] post) in Hs as (_ & _ & Hs). apply Hs; [left|done].
    + intros x (a & -> & Ha)%list_elem_of_fmap. rewrite storedEntry_key. intros Hka.
      apply (bytes_lt_irrefl key). eapply bytes_le_lt_trans; [exact Hka|auto].
  - cbn [drainIter]. rewrite Hv, filter_none; [done|].
    intros x (a & -> & Ha)%list_elem_of_fmap. rewrite storedEntry_key. intros Hka.
    apply (bytes_lt_irrefl key). eapply bytes_le_lt_trans; [exact Hka|auto].
Qed.
End lookup.

(** ** End to end *)

Section table.
Context (aesEncrypt : bytes -> bytes -> bytes) (xxhash : bytes -> Z).
Context (s2Encode zstdEncode : bytes -> bytes) (s2Decode zstdDecode : bytes -> option bytes).
Context `{!LosslessCodec s2Encode s2Decode, !LosslessCodec zstdEncode zstdDecode}.
Context (level : Z) (reg : option KeyRegistry) (nonces : nat -> bytes) (nowUnix : Z).
Context (reg_ok : registry_usable reg) (nonces_ok : forall i, length (nonces i) = blockNonceSize).
Context (entries : list Entry) (W : writable entries) (sorted : sorted_keys entries).
Context (F : Forall (fits s2Encode zstdEncode level) (splitBlocks entries)).

(** A table written from [entries], and what [open] makes of its file. *)
Definition written (s : SSTable) : Prop :=
  exists sst, createAtLevel aesEncrypt xxhash s2Encode zstdEncode entries level reg nonces nowUnix = Returns sst /\
    Z.of_nat (length (s_file sst)) < 2 ^ 32 /\ (s = sst \/ sst_open (s_file sst) reg = Some s).

Lemma written_holds s : written s -> holds aesEncrypt xxhash s2Decode zstdDecode s (splitBlocks entries).
Proof.
  intros (sst & Hc & Hsize & Hs).
  destruct (create_spec aesEncrypt xxhash s2Encode zstdEncode s2Decode zstdDecode level reg nonces nowUnix reg_ok nonces_ok
    entries W F) as (sst' & Hc' & _ & _ & Hopen).
  assert (sst' = sst) as -> by congruence. destruct (Hopen Hsize) as (Ho & H1 & H2).
  destruct Hs as [->|Hs]; [done|]. assert (s = reopened sst) as -> by congruence. done.
Qed.

(** C25. Scans of a table.  [ReadAll] returns the stored entries in order, and
    a seek followed by [Next] until the iterator is invalid delivers, across
    all block boundaries, exactly the stored entries whose key is at least
    the target, in order, from whatever state the iterator was in. *)
Theorem table_scans s it key :
  written s ->
  ReadAll aesEncrypt s2Decode zstdDecode s = Some (storedEntry <$> entries) /\
  drainIter aesEncrypt s2Decode zstdDecode (S (length entries)) s
    (SSTable_Seek aesEncrypt s2Decode zstdDecode s it key) =
    filter (fun e => bytes_le key (Key e)) (storedEntry <$> entries).
Proof.
  intros Hw. pose proof (written_holds s Hw) as Hh. pose proof (splitBlocks_before entries sorted) as Hb.
  destruct W as [Wok _ Wsize]. pose proof (split_concat entries) as Hcat. split.
  - unfold ReadAll. rewrite (h_blocks _ _ _ _ _ _ Hh), Nat2Z.id.
    pose proof (readAllFrom_spec aesEncrypt xxhash s2Decode zstdDecode s _ Hh) as Hr.
    rewrite Hcat in Hr. specialize (Hr Wok Wsize (length (splitBlocks entries)) 0%nat eq_refl).
    by rewrite drop_0, Hcat in Hr.
  - rewrite <- Hcat. apply (seek_drain aesEncrypt xxhash s2Decode zstdDecode s _ Hh); rewrite ?Hcat; done.
Qed.
End table.

Module SstReaderWitness.
Import SstWitness.

Lemma entries_sorted : sorted_keys entries.
Proof. apply SstBlockWitness.sorted_bool. by vm_compute. Qed.

(** The table as the writer makes it. *)
Definition table : SSTable :=
  match createAtLevel toyCipher toyHash toyEncode toyEncode entries 0 None nonces 20 with
  | Returns s => s
  | _ => bareTable []
  end.

Lemma table_written :
  written toyCipher toyHash toyEncode toyEncode 0 None nonces 20 entries table.
Proof. exists table. split; [by vm_compute|]. split; [by vm_compute|by left]. Qed.

Lemma table_scans_witness :
  ReadAll toyCipher toyDecode toyDecode table = Some (storedEntry <$> entries) /\
  drainIter toyCipher toyDecode toyDecode (S (length entries)) table
    (SSTable_Seek toyCipher toyDecode toyDecode table SSTable_NewIterator [98]) =
    filter (fun e => bytes_le [98] (Key e)) (storedEntry <$> entries).
Proof.
  apply (table_scans toyCipher toyHash toyEncode toyEncode toyDecode toyDecode 0 None nonces 20
    I (fun i => length_replicate 12 (Z.of_nat i)) entries entries_writable entries_sorted entries_fit table
    SSTable_NewIterator [98] table_written).
Defined.

End SstReaderWitness.
