(* ===== verification/TableRead.v ===== *)
(** * Point reads of a table over its entries ([sst/sstable.go])

    What [createAtLevel] makes of a list of entries and what [Get] and
    [GetByVersion] answer from it, without the bytes: how the entries are cut
    into blocks, which key and which restart points the index and the block
    carry, and the two searches.  The engine's tables are read with
    [tableGet]; [table_lookups] shows that the lookups in the file, with its
    filters, compression and encryption, answer exactly that.  The read is the
    newest version at or below the snapshot when no key's versions lie across
    a restart point, and an older one otherwise ([tableGet_stale]). *)

From S2P Require Import Prelude Mvcc Crypto Registry Bloom Encoding SstBlock SstTable SstReader.

(** An empty key is a nil slice for [firstKeyInBlock != nil]. *)
Definition keyed (e : Entry) : bool := negb (bytes_eqb (Key e) []).

(** A block is closed at a key change once it has a first key and
    [TargetBlockSize] bytes. *)
Definition cutStep (st : list (list Entry) * list Entry) (e : Entry) : list (list Entry) * list Entry :=
  let '(gs, cur) := st in
  if existsb keyed cur && Nat.leb TargetBlockSize (length (encodeEntries cur))
     && negb (bytes_eqb (Key e) (from_option Key [] (last cur)))
  then (gs ++ [cur], [e]) else (gs, cur ++ [e]).

Definition cutBlocks (es : list Entry) : list (list Entry) :=
  let '(gs, cur) := foldl cutStep ([], []) es in
  match cur with [] => gs | _ => gs ++ [cur] end.

(** The key of a block in the index: the first that is not nil. *)
Definition blockKey (g : list Entry) : bytes := from_option Key [] (List.find keyed g).

Fixpoint emptyKeys (g : list Entry) : nat :=
  match g with e :: g => if keyed e then 0 else S (emptyKeys g) | [] => 0 end.

(** The positions of the entries at the restart points.  While the block has no
    first key every entry notes offset 0 and resets the count. *)
Definition writtenRestarts (g : list Entry) : list nat :=
  let m := emptyKeys g in
  replicate m 0%nat
    ++ ((fun i => if Nat.eqb i 0 then 0 else m + restartInterval * i)%nat <$> seq 0 (restartCount (drop m g))).

(** [Get] ([maxVersion = None]) and [GetByVersion]. *)
Definition tableGet (es : list Entry) (key : bytes) (maxVersion : option Z) : option Entry :=
  let gs := cutBlocks es in
  let n := length gs in
  let target := blockSearch n (fun i => from_option blockKey [] (gs !! Z.to_nat i)) key 0 (Z.of_nat n - 1) (-1) in
  if target =? -1 then None
  else gs !! Z.to_nat target ≫= fun g => scanEntries (writtenRestarts g) g key maxVersion.

(** [createAtLevel] returns no error: every key of the index fits its two-byte
    length field. *)
Definition creatable (es : list Entry) : bool := forallb (fun g => Z.of_nat (length (blockKey g)) <=? 65535) (cutBlocks es).

(** ** Tables that are read whole *)

(** A key the index can hold. *)
Definition indexable (e : Entry) : bool := keyed e && (Z.of_nat (length (Key e)) <=? 65535).

Definition keyOf (g : list Entry) (i : nat) : bytes := from_option Key [] (g !! i).

(** No restart point of the block carries the key right before it. *)
Definition unstraddled (g : list Entry) : bool :=
  forallb (fun i => negb (bytes_eqb (keyOf g (restartInterval * i - 1)) (keyOf g (restartInterval * i))))
    (seq 1 (restartCount g - 1)).

Definition whole (es : list Entry) : bool := forallb unstraddled (cutBlocks es).

Definition tabular (es : list Entry) : bool := forallb indexable es && whole es.

Lemma keyed_spec e : keyed e = true <-> Key e <> [].
Proof. unfold keyed. rewrite negb_true_iff. apply bytes_eqb_false. Qed.

Lemma indexable_spec e : indexable e = true <-> Key e <> [] /\ Z.of_nat (length (Key e)) <= 65535.
Proof. unfold indexable. by rewrite andb_true_iff, keyed_spec, Z.leb_le. Qed.

Lemma tabular_spec es :
  tabular es = true <-> (forall e, e ∈ es -> Key e <> [] /\ Z.of_nat (length (Key e)) <= 65535) /\ whole es = true.
Proof.
  unfold tabular. rewrite andb_true_iff, forallb_forall. setoid_rewrite <- list_elem_of_In.
  by setoid_rewrite indexable_spec.
Qed.

Lemma unstraddled_spec g target : unstraddled g = true -> not_straddling g target.
Proof.
  unfold unstraddled. rewrite forallb_forall. intros H i a b Hi Ha Hb Hkb Hka.
  assert (restartInterval * i < length g)%nat as Hlt by (by eapply lookup_lt_Some).
  specialize (H i). rewrite negb_true_iff, bytes_eqb_false in H. unfold keyOf in H. rewrite Ha, Hb in H. simpl in H.
  apply H; [|congruence]. apply in_seq. unfold restartCount.
  pose proof (Nat.div_mod_eq (length g + 15) restartInterval). pose proof (Nat.mod_upper_bound (length g + 15) restartInterval).
  unfold restartInterval in *. lia.
Qed.

(** ** Entries with keys: the plain cut, first keys and restart points *)

Section keyed_entries.
Lemma cut_split_aux l gs cur :
  (forall e, e ∈ cur ++ l -> Key e <> []) -> foldl cutStep (gs, cur) l = foldl splitStep (gs, cur) l.
Proof.
  revert gs cur. induction l as [|e l IH]; intros gs cur H; [done|]. cbn [foldl].
  assert (existsb keyed cur = negb (Nat.eqb (length cur) 0)) as E.
  { destruct cur as [|c cur]; [done|]. simpl. by rewrite (proj2 (keyed_spec c)) by (apply H; left). }
  unfold cutStep at 2, splitStep at 2. rewrite E. case_if; apply IH; intros x Hx; apply H; set_solver.
Qed.

Lemma cut_split es : (forall e, e ∈ es -> Key e <> []) -> cutBlocks es = splitBlocks es.
Proof. intros H. unfold cutBlocks, splitBlocks. by rewrite cut_split_aux. Qed.

Lemma emptyKeys_keyed g : (forall e, e ∈ g -> Key e <> []) -> emptyKeys g = 0%nat.
Proof. destruct g as [|e g]; [done|]. intros H. simpl. by rewrite (proj2 (keyed_spec e)) by (apply H; left). Qed.

Lemma writtenRestarts_keyed g : (forall e, e ∈ g -> Key e <> []) -> writtenRestarts g = restartPositions g.
Proof.
  intros H. unfold writtenRestarts, restartPositions. rewrite emptyKeys_keyed, drop_0 by done. cbn [replicate app].
  apply list_fmap_ext. intros j i _. destruct (Nat.eqb_spec i 0) as [->|_]; lia.
Qed.

Lemma blockKey_keyed g : (forall e, e ∈ g -> Key e <> []) -> blockKey g = from_option Key [] (head g).
Proof.
  destruct g as [|e g]; [done|]. intros H. unfold blockKey. simpl. by rewrite (proj2 (keyed_spec e)) by (apply H; left).
Qed.

Lemma split_elem es g e : g ∈ splitBlocks es -> e ∈ g -> e ∈ es.
Proof. intros Hg He. rewrite <- (split_concat es). apply elem_of_concat. eauto. Qed.

Lemma split_lookup_elem es i g e : splitBlocks es !! i = Some g -> e ∈ g -> e ∈ es.
Proof. intros Hg. apply split_elem. by eapply list_elem_of_lookup_2. Qed.

Lemma tableGet_blocks es key mv : (forall e, e ∈ es -> Key e <> []) -> tableGet es key mv = readBlocks (splitBlocks es) key mv.
Proof.
  intros H. unfold tableGet, readBlocks. rewrite cut_split by done.
  rewrite (blockSearch_ext _ (blockFirst (splitBlocks es)) key (Z.of_nat (length (splitBlocks es)))) by
    (lia || (intros i _; unfold blockFirst; destruct (splitBlocks es !! Z.to_nat i) as [g|] eqn:Eg; [|done]; simpl;
             apply blockKey_keyed; eauto using split_lookup_elem)).
  case_if; [done|]. destruct (splitBlocks es !! _) as [g|] eqn:Eg; [|done]. simpl.
  by rewrite writtenRestarts_keyed by eauto using split_lookup_elem.
Qed.
End keyed_entries.

(** ** What a read returns *)

Lemma cut_concat_aux l gs cur :
  let '(gs', cur') := foldl cutStep (gs, cur) l in concat gs' ++ cur' = (concat gs ++ cur) ++ l.
Proof.
  revert gs cur. induction l as [|e l IH]; intros gs cur; [simpl; by rewrite app_nil_r|]. cbn [foldl].
  unfold cutStep at 2. case_if.
  - specialize (IH (gs ++ [cur]) [e]). destruct (foldl cutStep _ l). rewrite IH, concat_app. simpl.
    by rewrite app_nil_r, <- !app_assoc.
  - specialize (IH gs (cur ++ [e])). destruct (foldl cutStep _ l). rewrite IH. by rewrite <- !app_assoc.
Qed.

Lemma cut_concat es : concat (cutBlocks es) = es.
Proof.
  pose proof (cut_concat_aux es [] []) as H. unfold cutBlocks. destruct (foldl cutStep _ es) as [gs cur]. simpl in H.
  destruct cur; [by rewrite app_nil_r in H|]. rewrite concat_app. simpl. by rewrite app_nil_r.
Qed.

Lemma cut_elem es g e : g ∈ cutBlocks es -> e ∈ g -> e ∈ es.
Proof. intros Hg He. rewrite <- (cut_concat es). apply elem_of_concat. eauto. Qed.

(** Whatever the keys, a read returns an entry of the table with the key, at or
    below the snapshot. *)
Lemma tableGet_Some es key mv e : tableGet es key mv = Some e -> e ∈ es /\ isWanted key mv e.
Proof.
  unfold tableGet. case_if; [done|]. destruct (cutBlocks es !! _) as [g|] eqn:Eg; [|done]. simpl.
  intros [He Hw]%scanEntries_key. split; [|done]. eapply cut_elem; [by eapply list_elem_of_lookup_2|done].
Qed.

Lemma tableGet_key es key mv e : tableGet es key mv = Some e -> e ∈ es /\ Key e = key.
Proof.
  intros [He Hw]%tableGet_Some. split; [done|]. unfold isWanted, wanted in Hw.
  by apply andb_true_iff in Hw as [Hk%bytes_eqb_spec _].
Qed.

(** A bound that no version exceeds is no bound; versions are eight bytes. *)
Lemma tableGet_latest es key m :
  (forall e, e ∈ es -> Version e <= m) -> tableGet es key None = tableGet es key (Some m).
Proof.
  intros Hm. unfold tableGet. case_if; [done|]. destruct (cutBlocks es !! _) as [g|] eqn:Eg; [|done]. simpl.
  assert (forall i, filter (isWanted key None) (drop i g) = filter (isWanted key (Some m)) (drop i g)) as Hf.
  { intros i. apply filter_ext_in. intros e He. unfold isWanted, wanted.
    assert (e ∈ es) as Hes.
    { eapply cut_elem; [by eapply list_elem_of_lookup_2|]. rewrite <- (take_drop i g). apply elem_of_app. by right. }
    by rewrite (proj2 (Z.leb_le _ _) (Hm e Hes)). }
  unfold scanEntries. case_if; [case_if; [done|]|]; by rewrite Hf.
Qed.

Lemma splitStep_nonempty l gs cur :
  Forall (fun g => g <> []) gs -> Forall (fun g => g <> []) (foldl splitStep (gs, cur) l).1.
Proof.
  revert gs cur. induction l as [|e l IH]; intros gs cur H; [done|]. cbn [foldl]. unfold splitStep at 2.
  destruct (_ && _ && _) eqn:E; apply IH; [|done]. apply Forall_app. split; [done|]. constructor; [|done].
  intros ->. by simpl in E.
Qed.

Lemma split_nonempty es : Forall (fun g => g <> []) (splitBlocks es).
Proof.
  pose proof (splitStep_nonempty es [] [] (Forall_nil_2 _)) as H. unfold splitBlocks.
  destruct (foldl splitStep _ es) as [gs cur]. destruct cur; [done|]. apply Forall_app. split; [done|by constructor].
Qed.

(** The newest version at or below the snapshot. *)
Lemma tableGet_whole es key v :
  sorted_keys es -> tabular es = true -> tableGet es key (Some v) = snapshot_get es key v.
Proof.
  intros Hs [Hk Hw]%tabular_spec. assert (forall e, e ∈ es -> Key e <> []) as Hk' by (intros e He; by apply Hk).
  rewrite tableGet_blocks by done. unfold whole in Hw. rewrite cut_split in Hw by done. rewrite forallb_forall in Hw.
  rewrite readBlocks_whole, split_concat, fold_wanted; [done|by rewrite split_concat|by apply splitBlocks_before|
    apply split_nonempty|].
  apply Forall_forall. intros g Hg. apply unstraddled_spec, Hw. by apply list_elem_of_In.
Qed.

Lemma tabular_creatable es : forallb indexable es = true -> creatable es = true.
Proof.
  rewrite forallb_forall. intros H. unfold creatable. apply forallb_forall. intros g Hg%list_elem_of_In.
  unfold blockKey. destruct (List.find keyed g) as [e|] eqn:E; [|done]. apply List.find_some in E as [He _].
  apply Z.leb_le. simpl. assert (indexable e = true) as [_ Hi]%indexable_spec; [|done].
  apply H, list_elem_of_In. eapply cut_elem; [done|]. by apply list_elem_of_In.
Qed.

(** ** The entries as they are stored *)

Lemma encodeEntry_stored e : encodeEntry (storedEntry e) = encodeEntry e.
Proof. unfold storedEntry. destruct (Deleted e) eqn:E; [|done]. unfold encodeEntry. by rewrite E. Qed.

Lemma encodeEntries_stored es : encodeEntries (storedEntry <$> es) = encodeEntries es.
Proof.
  induction es as [|e es IH]; [done|]. rewrite fmap_cons, !encodeEntries_cons, IH. by rewrite encodeEntry_stored.
Qed.

Lemma split_stored_aux l gs cur :
  foldl splitStep (storedBlocks gs, storedEntry <$> cur) (storedEntry <$> l) =
    let '(gs', cur') := foldl splitStep (gs, cur) l in (storedBlocks gs', storedEntry <$> cur').
Proof.
  revert gs cur. induction l as [|e l IH]; intros gs cur; [done|]. cbn [foldl fmap list_fmap].
  unfold splitStep at 2 4. rewrite length_fmap, encodeEntries_stored, storedEntry_key.
  assert (from_option Key [] (last (storedEntry <$> cur)) = from_option Key [] (last cur)) as ->.
  { rewrite fmap_last. destruct (last cur); [|done]. simpl. apply storedEntry_key. }
  case_if.
  - rewrite <- (IH (gs ++ [cur]) [e]). f_equal. f_equal. unfold storedBlocks. by rewrite map_app.
  - rewrite <- (IH gs (cur ++ [e])). by rewrite fmap_app.
Qed.

Lemma split_stored es : splitBlocks (storedEntry <$> es) = storedBlocks (splitBlocks es).
Proof.
  pose proof (split_stored_aux es [] []) as H. unfold splitBlocks. cbn [fmap list_fmap] in H.
  change (storedBlocks []) with (@nil (list Entry)) in H. rewrite H.
  destruct (foldl splitStep ([], []) es) as [gs cur]. destruct cur; [done|].
  unfold storedBlocks. by rewrite map_app.
Qed.

Lemma tableGet_stored es key mv :
  (forall e, e ∈ es -> Key e <> []) -> tableGet (storedEntry <$> es) key mv = readBlocks (storedBlocks (splitBlocks es)) key mv.
Proof.
  intros H. rewrite tableGet_blocks, split_stored; [done|]. intros e (x & -> & Hx)%list_elem_of_fmap.
  rewrite storedEntry_key. auto.
Qed.

Lemma keyOf_stored g i : keyOf (storedEntry <$> g) i = keyOf g i.
Proof. unfold keyOf. rewrite list_lookup_fmap. destruct (g !! i); [|done]. simpl. apply storedEntry_key. Qed.

Lemma unstraddled_stored g : unstraddled (storedEntry <$> g) = unstraddled g.
Proof.
  unfold unstraddled. rewrite restartCount_stored. apply eq_true_iff_eq. rewrite !forallb_forall.
  by setoid_rewrite keyOf_stored.
Qed.

Lemma indexable_stored e : indexable (storedEntry e) = indexable e.
Proof. unfold indexable, keyed. by rewrite storedEntry_key. Qed.

(** Storing the entries of a table changes neither its keys nor its blocks. *)
Lemma whole_stored es : forallb indexable es = true -> whole es = true -> whole (storedEntry <$> es) = true.
Proof.
  rewrite forallb_forall. intros Hk. assert (forall e, e ∈ es -> Key e <> []) as Hk'.
  { intros e He. assert (indexable e = true) as [? _]%indexable_spec; [|done]. by apply Hk, list_elem_of_In. }
  unfold whole. rewrite (cut_split es) by done. rewrite cut_split.
  2:{ intros e (x & -> & Hx)%list_elem_of_fmap. rewrite storedEntry_key. auto. }
  rewrite split_stored, !forallb_forall. intros Hw g Hg. apply in_map_iff in Hg as (h & <- & Hh).
  change (map storedEntry h) with (storedEntry <$> h). rewrite unstraddled_stored. auto.
Qed.

(** ** The file answers as its entries do *)

Section table.
Context (aesEncrypt : bytes -> bytes -> bytes) (xxhash : bytes -> Z).
Context (s2Encode zstdEncode : bytes -> bytes) (s2Decode zstdDecode : bytes -> option bytes).
Context `{!LosslessCodec s2Encode s2Decode, !LosslessCodec zstdEncode zstdDecode}.
Context (level : Z) (reg : option KeyRegistry) (nonces : nat -> bytes) (nowUnix : Z).
Context (reg_ok : registry_usable reg) (nonces_ok : forall i, length (nonces i) = blockNonceSize).
Context (entries : list Entry) (W : writable entries) (sorted : sorted_keys entries).
Context (F : Forall (fits s2Encode zstdEncode level) (splitBlocks entries)).

Lemma writable_keyed e : e ∈ entries -> Key e <> [].
Proof. intros He. by apply (proj1 (Forall_forall _ _) (wr_keys _ W)). Qed.

Lemma lookups_exact s key mv now :
  written aesEncrypt xxhash s2Encode zstdEncode level reg nonces nowUnix entries s ->
  lookupTable aesEncrypt xxhash s2Decode zstdDecode s key mv now =
    Returns (scanResult now (tableGet (storedEntry <$> entries) key mv)).
Proof.
  intros Hw. rewrite tableGet_stored by apply writable_keyed. pose proof W as [Wok _ Wsize].
  apply (lookupTable_spec aesEncrypt xxhash s2Decode zstdDecode s (splitBlocks entries)); rewrite ?split_concat; try done.
  - by eapply written_holds.
  - by apply splitBlocks_before.
Qed.

Lemma lookup_newest key mv :
  Forall (fun g => not_straddling g key) (splitBlocks entries) ->
  tableGet (storedEntry <$> entries) key mv = foldl newer None (filter (isWanted key mv) (storedEntry <$> entries)).
Proof.
  intros Hns. rewrite tableGet_blocks; [rewrite readBlocks_whole, split_concat; try done|].
  - rewrite split_concat. by apply sorted_stored.
  - by apply splitBlocks_before, sorted_stored.
  - apply split_nonempty.
  - rewrite split_stored. apply Forall_forall. intros g Hg%list_elem_of_In.
    apply in_map_iff in Hg as (h & <- & Hh).
    apply not_straddling_stored. rewrite Forall_forall in Hns. by apply Hns, list_elem_of_In.
  - intros e (x & -> & Hx)%list_elem_of_fmap. rewrite storedEntry_key. by apply writable_keyed.
Qed.

(** C14. Point lookups in a table.  For a table written from entries sorted by
    key, freshly written or reopened, compressed and possibly encrypted,
    [GetByVersion] and [Get] never fail and answer what the two searches find
    over the entries ([tableGet]), tombstones and expiries included.  When no
    two neighbouring versions of the key lie across a restart point of their
    block, that is the newest version of the key at or below the snapshot, or
    the newest one for [Get], and "not found" exactly when there is none;
    across a restart point it may be an older version ([tableGet_stale]). *)
Theorem table_lookups s key v now :
  written aesEncrypt xxhash s2Encode zstdEncode level reg nonces nowUnix entries s ->
  SSTable_GetByVersion aesEncrypt xxhash s2Decode zstdDecode s key v now =
    Returns (scanResult now (tableGet (storedEntry <$> entries) key (Some v))) /\
  SSTable_Get aesEncrypt xxhash s2Decode zstdDecode s key now =
    Returns (scanResult now (tableGet (storedEntry <$> entries) key None)) /\
  (Forall (fun g => not_straddling g key) (splitBlocks entries) ->
   tableGet (storedEntry <$> entries) key (Some v) = snapshot_get (storedEntry <$> entries) key v /\
   ((forall e, e ∈ entries -> Version e <= v) ->
    tableGet (storedEntry <$> entries) key None = snapshot_get (storedEntry <$> entries) key v)).
Proof.
  intros Hw. unfold SSTable_GetByVersion, SSTable_Get. rewrite !lookups_exact by done. split_and!; [done..|].
  intros Hns. rewrite !lookup_newest by done. split; [apply fold_wanted|]. intros Hv. apply fold_wanted_all.
  intros e (x & -> & Hx)%list_elem_of_fmap. rewrite storedEntry_version. auto.
Qed.
End table.

Module TableReadWitness.
Import SstWitness SstReaderWitness.

Lemma table_lookups_witness :
  SSTable_GetByVersion toyCipher toyHash toyDecode toyDecode table [98] 5 20 = Returns (Some ([3], false, 0, 4)) /\
  SSTable_GetByVersion toyCipher toyHash toyDecode toyDecode table [98] 5 20 =
    Returns (scanResult 20 (snapshot_get (storedEntry <$> entries) [98] 5)).
Proof.
  split; [by vm_compute|].
  destruct (table_lookups toyCipher toyHash toyEncode toyEncode toyDecode toyDecode 0 None nonces 20
    I (fun i => length_replicate 12 (Z.of_nat i)) entries entries_writable entries_sorted entries_fit table [98] 5 20
    table_written) as (-> & _ & H). destruct H as [-> _]; [|reflexivity].
  apply Forall_forall. intros g Hg i a b Hi Ha Hb. apply lookup_lt_Some in Hb.
  assert (length g = 4%nat) as Hl by (apply list_elem_of_singleton in Hg as ->; by vm_compute).
  rewrite Hl in Hb. unfold restartInterval in Hb. lia.
Defined.

(** Twenty entries without a key and then two with one: the restart points that
    [createAtLevel] writes for them, and the same lookups from the file. *)
Definition nameless : list Entry :=
  replicate 20 (mkEntry [] [7] false 0 1) ++ [mkEntry [97] [1] false 0 2; mkEntry [98] [2] false 0 3].

Definition namelessTable : SSTable :=
  match createAtLevel toyCipher toyHash toyEncode toyEncode nameless 0 None nonces 20 with
  | Returns s => s
  | _ => bareTable []
  end.

Lemma nameless_lookups :
  map (fun k => SSTable_GetByVersion toyCipher toyHash toyDecode toyDecode namelessTable k 5 20) [[]; [96]; [97]; [98]; [99]] =
  map (fun k => Returns (scanResult 20 (tableGet (storedEntry <$> nameless) k (Some 5)))) [[]; [96]; [97]; [98]; [99]].
Proof. by vm_compute. Qed.
End TableReadWitness.

(** The searches can return a stale version: version 10 of the key closes a
    restart interval, version 5 opens the next one, and the read answers
    version 5. *)
Lemma tableGet_stale :
  sorted_keys straddlingBlock /\
  Version <$> snapshot_get straddlingBlock [107] 100 = Some 10 /\
  Version <$> tableGet straddlingBlock [107] (Some 100) = Some 5.
Proof. split; [apply SstBlockWitness.sorted_bool; by vm_compute|by vm_compute]. Qed.
