(* ===== verification/SstRefs.v ===== *)
(** * Reference counts of SSTables ([sstable/sstable.go])

    Readers hold a table with [IncrRef] and [DecrRef]; the engine closes it or
    marks it for removal at any time.  The handles are closed and the file is
    unlinked by whoever brings the count to zero last.  The theorem says that
    no reader loses the file under its hands, and that a table marked for
    removal is unlinked once the last reader is gone, and only then. *)

From S2P Require Import Prelude.

(** The fields under the table's mutex, and whether the file is on disk. *)
Record TableState := mkTableState {
  ts_refs : Z;
  ts_closed : bool;
  ts_removePending : bool;
  ts_mm : bool;
  ts_file : bool;
  ts_onDisk : bool;
}.

Definition closeLocked (t : TableState) : TableState :=
  if ts_file t
  then mkTableState (ts_refs t) (ts_closed t) (ts_removePending t) false false
         (if ts_removePending t then false else ts_onDisk t)
  else mkTableState (ts_refs t) (ts_closed t) (ts_removePending t) false false (ts_onDisk t).

Definition IncrRef (t : TableState) : TableState :=
  mkTableState (ts_refs t + 1) (ts_closed t) (ts_removePending t) (ts_mm t) (ts_file t) (ts_onDisk t).

Definition DecrRef (t : TableState) : TableState :=
  let t := mkTableState (ts_refs t - 1) (ts_closed t) (ts_removePending t) (ts_mm t) (ts_file t) (ts_onDisk t) in
  if (ts_refs t <=? 0) && (ts_closed t || ts_removePending t) then closeLocked t else t.

Definition SSTable_Close (t : TableState) : TableState :=
  let t := mkTableState (ts_refs t) true (ts_removePending t) (ts_mm t) (ts_file t) (ts_onDisk t) in
  if ts_refs t <=? 0 then closeLocked t else t.

Definition MarkRemove (t : TableState) : TableState :=
  let t := mkTableState (ts_refs t) true true (ts_mm t) (ts_file t) (ts_onDisk t) in
  if ts_refs t <=? 0 then closeLocked t else t.

(** One operation on the table; a release needs a holder. *)
Inductive ref_step : TableState -> TableState -> Prop :=
  | rs_acquire t : ref_step t (IncrRef t)
  | rs_release t : 0 < ts_refs t -> ref_step t (DecrRef t)
  | rs_close t : ref_step t (SSTable_Close t)
  | rs_remove t : ref_step t (MarkRemove t).

Definition freshTable (mm : bool) : TableState := mkTableState 0 false false mm true true.

(** The count is the number of holders; the handles are open until the table
    is closed; a removed file was marked; with nobody holding it, a closed
    table has no handles and a marked one whose handles it closed is gone. *)
Record refs_ok (t : TableState) : Prop := {
  ro_refs : 0 <= ts_refs t;
  ro_open : ts_closed t = false -> ts_file t = true;
  ro_marked : ts_removePending t = true -> ts_closed t = true;
  ro_disk : ts_onDisk t = false -> ts_removePending t = true /\ ts_file t = false;
  ro_last : ts_refs t = 0 -> ts_closed t = true -> ts_file t = false /\ ts_mm t = false;
}.

Lemma refs_ok_fresh mm : refs_ok (freshTable mm).
Proof. split; simpl; naive_solver lia. Qed.

Lemma refs_ok_step t t' : refs_ok t -> ref_step t t' -> refs_ok t'.
Proof.
  intros [H1 H2 H3 H4 H5] Hs. destruct Hs as [t|t Hr|t|t]; unfold IncrRef, DecrRef, SSTable_Close, MarkRemove, closeLocked; simpl.
  - split; simpl; try done; lia.
  - destruct (Z.leb_spec (ts_refs t - 1) 0), (ts_closed t), (ts_removePending t), (ts_file t) eqn:?; simpl; split; simpl;
      try done; try lia; try naive_solver lia.
  - destruct (Z.leb_spec (ts_refs t) 0), (ts_removePending t), (ts_file t) eqn:?; simpl; split; simpl; try done; try lia; naive_solver lia.
  - destruct (Z.leb_spec (ts_refs t) 0), (ts_file t) eqn:?; simpl; split; simpl; try done; try lia; naive_solver lia.
Qed.

Lemma refs_ok_reachable mm t : rtc ref_step (freshTable mm) t -> refs_ok t.
Proof.
  intros H. refine (rtc_ind_r (R := ref_step) refs_ok _ (refs_ok_fresh mm) _ t H).
  intros y z _ Hs Hy. by eapply refs_ok_step.
Qed.

(** An open file that somebody holds stays open and on disk under every step
    that leaves it held. *)
Lemma held_stays_open t t' :
  refs_ok t -> ref_step t t' -> ts_file t = true -> 0 < ts_refs t' ->
  ts_file t' = true /\ ts_mm t' = ts_mm t /\ ts_onDisk t' = ts_onDisk t.
Proof.
  intros Hok Hs Hf Hr. destruct Hs; unfold IncrRef, DecrRef, SSTable_Close, MarkRemove, closeLocked in *; simpl in *; [done|..].
  - destruct (Z.leb_spec (ts_refs t - 1) 0), (ts_closed t), (ts_removePending t); rewrite ?Hf in *; simpl in *; try done; lia.
  - destruct (Z.leb_spec (ts_refs t) 0); rewrite ?Hf in *; simpl in *; [lia|done].
  - destruct (Z.leb_spec (ts_refs t) 0); rewrite ?Hf in *; simpl in *; [lia|done].
Qed.

(** A stretch of steps during which the table is held all the time. *)
Definition held_step (t t' : TableState) : Prop := ref_step t t' /\ 0 < ts_refs t'.

(** A reader that acquired an open table keeps an open file, whatever other
    readers and the engine do, until it lets go; and the last holder of a table
    that was marked in the meantime unlinks it. *)
Theorem reader_keeps_file mm t t' :
  rtc ref_step (freshTable mm) t -> ts_file t = true -> rtc held_step (IncrRef t) t' ->
  ts_file t' = true /\ ts_mm t' = ts_mm t /\ ts_onDisk t' = ts_onDisk t /\
  (ts_refs t' = 1 -> ts_removePending t' = true -> ts_onDisk (DecrRef t') = false /\ ts_file (DecrRef t') = false).
Proof.
  intros Hr Hf Hh.
  assert (refs_ok (IncrRef t)) as Hok by (eapply refs_ok_step; [by eapply refs_ok_reachable|constructor]).
  assert (refs_ok t' /\ ts_file t' = true /\ ts_mm t' = ts_mm t /\ ts_onDisk t' = ts_onDisk t) as (Hok' & H1 & H2 & H3).
  { refine (rtc_ind_r (R := held_step)
      (fun u => refs_ok u /\ ts_file u = true /\ ts_mm u = ts_mm t /\ ts_onDisk u = ts_onDisk t) _ _ _ t' Hh); [done|].
    intros u u' _ [Hs Hp] (IH0 & IH1 & IH2 & IH3).
    destruct (held_stays_open u u' IH0 Hs IH1 Hp) as (E1 & E2 & E3).
    split; [by eapply refs_ok_step|]. by rewrite E2, E3. }
  split_and!; [done..|]. intros E1 E2. unfold DecrRef, closeLocked. simpl. by rewrite E1, E2, orb_true_r, H1.
Qed.
