(* ===== verification/Compaction.v ===== *)
(** * Compaction ([engine_compaction.go], with the level limits of
    [engine_write.go])

    Levels of tables, the merge of overlapping tables into the next level, the
    pruning of old versions and tombstones, the writer that cuts the output
    into tables, and the choice of what to compact.  A table is its stored
    entries with its key range, read with the searches of [TableRead]; the
    bytes of tables are the subject of [SstTable] and [SstReader].  The
    theorems say that a compaction changes no read at or above the oldest live
    snapshot, under two conditions the engine does not check: on the levels
    that [compactLevel0] skips, and on the versions that the tables it writes
    have across restart points. *)

From Stdlib Require Import Floats.SpecFloat.
From S2P Require Import Prelude Mvcc Bloom SkipList Heap Iterator SstBlock SstTable SstReader TableRead.

Definition MaxLevels : nat := 5.
Definition compactionTableBytes : Z := 8 * 1024 * 1024.

(** An open table.  [tb_seq] is the number in its file name, which identifies
    it; the source compares pointers. *)
Record Table := mkTable {
  tb_seq : Z;
  tb_entries : list Entry;
  tb_min : bytes;
  tb_max : bytes;
  tb_ratio : spec_float;
}.

(** Records of the manifest: 'A' adds a table to a level, 'D' removes it. *)
Record ManifestRec := mkManifestRec {
  mr_action : Z;
  mr_level : Z;
  mr_seq : Z;
  mr_min : bytes;
  mr_max : bytes;
}.

Definition actA : Z := 65.
Definition actD : Z := 68.

(** The part of the engine that compaction works on: the levels, the file
    counter, the manifest, the files marked for removal, and the values
    reported to the value-log garbage accounting: [lsm_drops] by
    [addCompactionDiscard], [lsm_discards] by [addDiscard]. *)
Record Lsm := mkLsm {
  levels : list (list Table);
  lsm_nextSeq : Z;
  lsm_manifest : list ManifestRec;
  lsm_removed : list Z;
  lsm_drops : list bytes;
  lsm_discards : list bytes;
}.

Definition level (ls : list (list Table)) (i : nat) : list Table := default [] (ls !! i).

(** What the clock and the oracle answer when a compaction starts. *)
Record CompactEnv := mkCompactEnv {
  ce_now : Z;
  ce_minReadTs : Z;
  ce_nextTs : Z;
  ce_gcDiscardTs : Z;
}.

Record Options := mkOptions {
  MemTableSize : Z;
  LevelSizeRatio : Z;
  CompactionThreshold : Z;
}.

(** ** Key ranges *)

Definition rangesOverlap (a b : Table) : bool :=
  bytes_leb (tb_min a) (tb_max b) && bytes_leb (tb_min b) (tb_max a).

Definition inRange (t : Table) (key : bytes) : bool := bytes_leb (tb_min t) key && bytes_leb key (tb_max t).

Definition keyMayExistBelow (ls : list (list Table)) (targetLevel : nat) (key : bytes) : bool :=
  existsb (fun lvl => existsb (fun t => inRange t key) (level ls lvl))
    (seq (S targetLevel) (MaxLevels - S targetLevel)).

(** ** The writer *)

Record sstLevelWriter := mkWriter {
  w_buf : list Entry;
  w_bytes : Z;
  w_tables : list Table;
  w_seq : Z;
}.

(** [CreateAtLevelWithRegistry] on a non-empty buffer that is [creatable]: what
    it stores. *)
Definition createTable (seq : Z) (buf : list Entry) (nowUnix : Z) : Table :=
  mkTable seq (storedEntry <$> buf) (from_option Key [] (head buf)) (from_option Key [] (last buf))
    (ratioOf (Z.of_nat (length (filter (fun e => (Deleted e || expired nowUnix e) = true) buf))) (Z.of_nat (length buf))).

Definition writer_add (w : sstLevelWriter) (e : Entry) : sstLevelWriter :=
  mkWriter (w_buf w ++ [e]) (w_bytes w + Z.of_nat (length (Key e)) + Z.of_nat (length (Value e)) + 33) (w_tables w) (w_seq w).

(** A table that cannot be created is dropped with its buffer; its number is
    used up. *)
Definition writer_flush (nowUnix : Z) (w : sstLevelWriter) : sstLevelWriter :=
  match w_buf w with
  | [] => w
  | _ =>
      let seq := w_seq w + 1 in
      let tables := if creatable (w_buf w) then w_tables w ++ [createTable seq (w_buf w) nowUnix] else w_tables w in
      mkWriter [] 0 tables seq
  end.

Definition maybeFlush (nowUnix : Z) (w : sstLevelWriter) : sstLevelWriter :=
  if compactionTableBytes <=? w_bytes w then writer_flush nowUnix w else w.

(** ** Pruning one key *)

(** [sort.Slice(group, version descending)]. *)
Fixpoint insertDesc (e : Entry) (l : list Entry) : list Entry :=
  match l with
  | [] => [e]
  | x :: l' => if Version x <? Version e then e :: l else x :: insertDesc e l'
  end.

Definition sortDesc (l : list Entry) : list Entry := foldr insertDesc [] l.

(** The loop over a sorted group: kept versions (in order) and the values of
    the others.  A duplicate of the last kept version is skipped silently. *)
Fixpoint keepLoop (minReadTs : Z) (group kept : list Entry) (keptOlder : bool) (disc : list bytes)
    : list Entry * list bytes :=
  match group with
  | [] => (kept, disc)
  | g :: group =>
      if match last kept with Some k => Version k =? Version g | None => false end
      then keepLoop minReadTs group kept keptOlder disc
      else if minReadTs <? Version g then keepLoop minReadTs group (kept ++ [g]) keptOlder disc
      else if negb keptOlder then keepLoop minReadTs group (kept ++ [g]) true disc
      else keepLoop minReadTs group kept keptOlder (disc ++ [Value g])
  end.

Definition dead (now : Z) (e : Entry) : bool := Deleted e || expired now e.

(** An expired version is written as a tombstone. *)
Definition writtenEntry (now : Z) (g : Entry) : Entry :=
  mkEntry (Key g) (Value g) (dead now g) (ExpiresAt g) (Version g).

(** The head of [drainMergedIterator]'s loop: versions of one key. *)
Fixpoint spanKey (key : bytes) (l : list Entry) : list Entry * list Entry :=
  match l with
  | [] => ([], [])
  | e :: l' =>
      if bytes_eqb (Key e) key then let '(g, r) := spanKey key l' in (e :: g, r) else ([], l)
  end.

(** What is written for a group, and the discarded values. *)
Definition compactGroup (env : CompactEnv) (ls : list (list Table)) (targetLevel : nat) (group : list Entry)
    : list Entry * list bytes :=
  let '(kept, disc) := keepLoop (ce_minReadTs env) (sortDesc group) [] false [] in
  let hasActiveTxns := ce_minReadTs env <? ce_nextTs env in
  let isBottomLevel := Nat.eqb targetLevel (MaxLevels - 1) in
  match kept with
  | [head] =>
      if dead (ce_now env) head && isBottomLevel && negb hasActiveTxns && (ce_gcDiscardTs env =? 0)
         && negb (keyMayExistBelow ls targetLevel (Key head))
      then ([], disc ++ [Value head])
      else (writtenEntry (ce_now env) <$> kept, disc)
  | _ => (writtenEntry (ce_now env) <$> kept, disc)
  end.

(** The loop over the merged stream; each round consumes a whole key.  The
    flush check is skipped for a dropped key, as by [continue]. *)
Fixpoint drainGroups (fuel : nat) (env : CompactEnv) (ls : list (list Table)) (targetLevel : nat)
    (stream : list Entry) (w : sstLevelWriter) (disc : list bytes) : sstLevelWriter * list bytes :=
  match fuel with
  | O => (w, disc)
  | S fuel =>
      match stream with
      | [] => (w, disc)
      | e :: _ =>
          let '(group, rest) := spanKey (Key e) stream in
          let '(out, d) := compactGroup env ls targetLevel group in
          let w := match out with [] => w | _ => maybeFlush (ce_now env) (foldl writer_add w out) end in
          drainGroups fuel env ls targetLevel rest w (disc ++ d)
      end
  end.

Definition drainMergedIterator (env : CompactEnv) (ls : list (list Table)) (targetLevel : nat)
    (iters : list (list Entry)) (w : sstLevelWriter) : sstLevelWriter * list bytes :=
  let stream := drainMergedVersion iters in
  drainGroups (S (length stream)) env ls targetLevel stream w [].

(** ** Moving tables *)

Definition isTable (t u : Table) : bool := tb_seq t =? tb_seq u.

(** The tables of a level that are not in [remove]. *)
Definition keepTables (remove tables : list Table) : list Table :=
  filter (fun t => existsb (isTable t) remove = false) tables.

(** [sort.Slice] by the smallest key. *)
Fixpoint insertTable (t : Table) (l : list Table) : list Table :=
  match l with
  | [] => [t]
  | u :: l' => if bytes_ltb (tb_min t) (tb_min u) then t :: l else u :: insertTable t l'
  end.

Definition sortTables (l : list Table) : list Table := foldr insertTable [] l.

Definition removalRec (lvl : nat) (t : Table) : ManifestRec := mkManifestRec actD (Z.of_nat lvl) (tb_seq t) (tb_min t) (tb_max t).
Definition additionRec (lvl : nat) (t : Table) : ManifestRec := mkManifestRec actA (Z.of_nat lvl) (tb_seq t) (tb_min t) (tb_max t).

(** The common body of [compactLevel0] and [compactLevelTable]: merge [picks]
    of level [from] and the tables of level [to] that overlap one of them. *)
Definition compactInto (env : CompactEnv) (st : Lsm) (from : nat) (picks : list Table) (to : nat) : Lsm :=
  let overlaps := filter (fun t => existsb (fun p => rangesOverlap p t) picks = true) (level (levels st) to) in
  let iters := (tb_entries <$> overlaps) ++ (tb_entries <$> picks) in
  let '(w, disc) := drainMergedIterator env (levels st) to iters (mkWriter [] 0 [] (lsm_nextSeq st)) in
  let w := writer_flush (ce_now env) w in
  let newTables := w_tables w in
  let ls := <[to := sortTables (keepTables overlaps (level (levels st) to) ++ newTables)]> (levels st) in
  let ls := <[from := keepTables picks (level ls from)]> ls in
  mkLsm ls (w_seq w)
    (lsm_manifest st ++ (removalRec to <$> overlaps) ++ (removalRec from <$> picks) ++ (additionRec to <$> newTables))
    (lsm_removed st ++ (tb_seq <$> overlaps) ++ (tb_seq <$> picks))
    (lsm_drops st ++ disc)
    (lsm_discards st ++ (overlaps ≫= (fun t => Value <$> tb_entries t)) ++ (picks ≫= (fun t => Value <$> tb_entries t))).

Definition compactLevelTable (env : CompactEnv) (st : Lsm) (fromLevel : nat) (pick : Table) : Lsm :=
  if Nat.leb (MaxLevels - 1) fromLevel then st else compactInto env st fromLevel [pick] (S fromLevel).

Definition compactLevel (env : CompactEnv) (st : Lsm) (fromLevel : nat) : Lsm :=
  if Nat.leb (MaxLevels - 1) fromLevel then st
  else match level (levels st) fromLevel with [] => st | pick :: _ => compactLevelTable env st fromLevel pick end.

(** ** What to compact *)

Section choice.
(** [os.Stat] of a table's file. *)
Context (fileSize : Table -> Z) (opts : Options).

Definition levelSizeRatio : Z := 10.

Definition levelRatio : Z := if 0 <? LevelSizeRatio opts then LevelSizeRatio opts else levelSizeRatio.

Definition totalLevelSize (ls : list (list Table)) (lvl : nat) : Z :=
  foldl (fun total t => total + fileSize t) 0 (level ls lvl).

(** The loop from the last level but one up to level 1: [limits] of the levels
    below, deepest last, and the base level. *)
Fixpoint limitsLoop (lvl : nat) (below : Z) (limits : list Z) (baseLevel : nat) : list Z * nat :=
  match lvl with
  | O => (limits, baseLevel)
  | S lvl' =>
      let target := below / levelRatio in
      if target <=? MemTableSize opts then limitsLoop lvl' 0 (0 :: limits) baseLevel
      else limitsLoop lvl' target (target :: limits) lvl
  end.

(** Limits by level, level 0 first. *)
Definition calcLevelLimits (ls : list (list Table)) : list Z * nat :=
  let lmaxSize := totalLevelSize ls (MaxLevels - 1) in
  let lmaxSize := if lmaxSize <? MemTableSize opts * levelRatio then MemTableSize opts * levelRatio else lmaxSize in
  let '(limits, baseLevel) := limitsLoop (MaxLevels - 2) lmaxSize [lmaxSize] (MaxLevels - 1) in
  (0 :: limits, baseLevel).

Definition findBaseLevel (ls : list (list Table)) : nat := (calcLevelLimits ls).2.

Definition compactLevel0 (env : CompactEnv) (st : Lsm) : Lsm :=
  match level (levels st) 0 with
  | [] => st
  | toCompactL0 => compactInto env st 0 toCompactL0 (findBaseLevel (levels st))
  end.

(** 0.40 as a float64. *)
Definition tombstoneCompactionRatio : spec_float := S754_finite false 7205759403792794 (-54).

Definition float_gt (a b : spec_float) : bool := match SFcompare a b with Some Gt => true | _ => false end.

(** The first table above the ratio, deepest level first. *)
Fixpoint tombstoneVictimFrom (lvls : list nat) (ls : list (list Table)) : option (nat * Table) :=
  match lvls with
  | [] => None
  | lvl :: lvls =>
      match filter (fun t => float_gt (tb_ratio t) tombstoneCompactionRatio = true) (level ls lvl) with
      | victim :: _ => Some (lvl, victim)
      | [] => tombstoneVictimFrom lvls ls
      end
  end.

Definition tombstoneVictim (ls : list (list Table)) : option (nat * Table) :=
  tombstoneVictimFrom (rev (seq 0 (MaxLevels - 1))) ls.

(** The scores of the levels: best level and score so far. *)
Fixpoint bestLevelFrom (lvls : list nat) (ls : list (list Table)) (limits : list Z) (best : option nat) (score : spec_float)
    : option nat :=
  match lvls with
  | [] => best
  | lvl :: lvls =>
      let limit := default 0 (limits !! lvl) in
      if limit <=? 0 then bestLevelFrom lvls ls limits best score
      else
        let s := SFdiv 53 1024 (float_of_int (totalLevelSize ls lvl)) (float_of_int limit) in
        if float_gt s score then bestLevelFrom lvls ls limits (Some lvl) s
        else bestLevelFrom lvls ls limits best score
  end.

Definition Compact (env : CompactEnv) (st : Lsm) : Lsm :=
  match tombstoneVictim (levels st) with
  | Some (O, _) => compactLevel0 env st
  | Some (lvl, victim) => compactLevelTable env st lvl victim
  | None =>
      let threshold := if CompactionThreshold opts <? 1 then 1 else CompactionThreshold opts in
      let l0Count := Z.of_nat (length (level (levels st) 0)) in
      let '(best, score) :=
        if threshold <=? l0Count
        then (Some 0%nat, SFdiv 53 1024 (float_of_int l0Count) (float_of_int threshold))
        else (None, float_of_int 1) in
      match bestLevelFrom (seq 1 (MaxLevels - 2)) (levels st) (calcLevelLimits (levels st)).1 best score with
      | None => st
      | Some O => compactLevel0 env st
      | Some lvl => compactLevel env st lvl
      end
  end.

End choice.

(** ** Reading the levels ([engine_read.go], [getByAt]) *)

(** First hit, tables of a level from the newest to the oldest.  [Get] is the
    read at the largest version ([tableGet_latest]). *)
Fixpoint firstHit (tables : list Table) (key : bytes) (maxVersion : Z) : option Entry :=
  match tables with
  | [] => None
  | t :: tables =>
      match tableGet (tb_entries t) key (Some maxVersion) with
      | Some e => Some e
      | None => firstHit tables key maxVersion
      end
  end.

Definition searchOrder (ls : list (list Table)) : list Table := ls ≫= (fun tables => rev tables).

Definition readLevels (ls : list (list Table)) (key : bytes) (maxVersion : Z) : option Entry :=
  firstHit (searchOrder ls) key maxVersion.

(** ** Pruning keeps what snapshots can see *)

Definition desc (a b : Entry) : Prop := Version b <= Version a.

Lemma insertDesc_perm e l : insertDesc e l ≡ₚ e :: l.
Proof. induction l as [|x l IH]; simpl; [done|]. case_if; [done|]. rewrite IH. by constructor. Qed.

Lemma insertDesc_sorted e l : StronglySorted desc l -> StronglySorted desc (insertDesc e l).
Proof.
  induction 1 as [|x l Hl IH Hx]; simpl; [repeat constructor|]. case_if; bool_prop.
  - constructor; [by constructor|]. constructor; [unfold desc; lia|].
    eapply Forall_impl; [exact Hx|]. unfold desc. intros; lia.
  - constructor; [done|]. rewrite Forall_forall in *. intros y Hy. rewrite insertDesc_perm in Hy.
    apply elem_of_cons in Hy as [->|Hy]; [unfold desc; lia|auto].
Qed.

Lemma sortDesc_perm l : sortDesc l ≡ₚ l.
Proof. induction l as [|e l IH]; simpl; [done|]. by rewrite insertDesc_perm, IH. Qed.

Lemma sortDesc_sorted l : StronglySorted desc (sortDesc l).
Proof. induction l as [|e l IH]; simpl; [constructor|]. by apply insertDesc_sorted. Qed.

Lemma keepLoop_spec m group kept older disc :
  StronglySorted desc group -> (forall k g, k ∈ kept -> g ∈ group -> Version g <= Version k) ->
  (older = true -> exists o, o ∈ kept /\ Version o <= m) ->
  exists sub, (keepLoop m group kept older disc).1 = kept ++ sub /\ sub `sublist_of` group /\
    forall g, g ∈ group -> exists o, o ∈ kept ++ sub /\ Version g <= Version o /\ (Version o = Version g \/ Version o <= m).
Proof.
  revert kept older disc. induction group as [|g group IH]; intros kept older disc Hs Hle Hold; simpl.
  { exists []. rewrite app_nil_r. split_and!; [done|done|]. by intros g ?%elem_of_nil. }
  apply StronglySorted_inv in Hs as [Hs Hg]. rewrite Forall_forall in Hg.
  assert (forall k x, k ∈ kept -> x ∈ group -> Version x <= Version k) as Hle'.
  { intros k x Hk Hx. apply Hle; [done|by right]. }
  assert (forall k x, k ∈ kept ++ [g] -> x ∈ group -> Version x <= Version k) as Hle2.
  { intros k x [Hk| ->%list_elem_of_singleton]%elem_of_app Hx; [auto|]. by apply Hg. }
  destruct (match last kept with Some k => Version k =? Version g | None => false end) eqn:E1.
  - destruct (last kept) as [k|] eqn:El; [|done]. bool_prop.
    destruct (IH kept older disc Hs Hle' Hold) as (sub & -> & Hsub & Hall). exists sub. split; [done|].
    split; [by constructor|]. intros x [->|Hx]%elem_of_cons; [|auto].
    exists k. split; [apply elem_of_app; left; by apply last_Some_elem_of|]. lia.
  - assert (forall o' d', (o' = true -> exists o, o ∈ kept ++ [g] /\ Version o <= m) ->
      exists sub, (keepLoop m group (kept ++ [g]) o' d').1 = kept ++ sub /\ sub `sublist_of` g :: group /\
        forall x, x ∈ g :: group -> exists o, o ∈ kept ++ sub /\ Version x <= Version o /\ (Version o = Version x \/ Version o <= m)) as Hadd.
    { intros o' d' Ho'. destruct (IH (kept ++ [g]) o' d' Hs Hle2 Ho') as (sub & -> & Hsub & Hall).
      exists (g :: sub). split; [by rewrite <- app_assoc|]. split; [by constructor|].
      rewrite <- app_assoc in Hall. intros x [->|Hx]%elem_of_cons; [|by apply Hall].
      exists g. split; [apply elem_of_app; right; left|lia]. }
    destruct (Z.ltb_spec m (Version g)) as [Hlt|Hge].
    { apply Hadd. intros Ho. destruct (Hold Ho) as (o & Hin & ?). exists o. split; [apply elem_of_app; by left|done]. }
    destruct older; simpl.
    + destruct (IH kept true (disc ++ [Value g]) Hs Hle' Hold) as (sub & -> & Hsub & Hall). exists sub.
      split; [done|]. split; [by constructor|]. intros x [->|Hx]%elem_of_cons; [|auto].
      destruct (Hold eq_refl) as (o & Ho & Hom). exists o. split; [apply elem_of_app; by left|].
      split; [apply Hle; [done|left]|by right].
    + apply Hadd. intros _. exists g. split; [apply elem_of_app; right; left|lia].
Qed.

(** What is written for the versions [group] of one key: the kept versions, or
    nothing when the newest is dead and nothing can lie below. *)
Definition group_kept (m : Z) (group K : list Entry) : Prop :=
  K `sublist_of` sortDesc group /\
  forall g, g ∈ group -> exists o, o ∈ K /\ Version g <= Version o /\ (Version o = Version g \/ Version o <= m).

Lemma compactGroup_spec env ls target group :
  exists K, group_kept (ce_minReadTs env) group K /\
    ((compactGroup env ls target group).1 = writtenEntry (ce_now env) <$> K \/
     (compactGroup env ls target group).1 = [] /\ target = 4%nat /\ exists h, K = [h] /\ dead (ce_now env) h = true).
Proof.
  unfold compactGroup.
  destruct (keepLoop_spec (ce_minReadTs env) (sortDesc group) [] false []) as (K & HK & Hsub & Hall);
    [apply sortDesc_sorted|by intros k g ?%elem_of_nil|done|].
  destruct (keepLoop _ _ _ _ _) as [kept disc]. simpl in HK. subst kept. exists K. split.
  { split; [done|]. intros g Hg. apply Hall. by rewrite sortDesc_perm. }
  destruct K as [|h [|h2 K]]; [by left| |by left].
  destruct (_ && _ && _ && _ && _) eqn:E; [|by left]. bool_prop. right. split_and!; [done| |by exists h].
  unfold MaxLevels in *. lia.
Qed.

(** ** The groups of the stream *)

Lemma spanKey_spec key l :
  let '(g, r) := spanKey key l in
  l = g ++ r /\ (forall e, e ∈ g -> Key e = key) /\ match r with [] => True | e :: _ => Key e <> key end.
Proof.
  induction l as [|e l IH]; simpl; [by split_and!; [|intros e ?%elem_of_nil|]|].
  destruct (bytes_eqb (Key e) key) eqn:E.
  - apply bytes_eqb_spec in E. destruct (spanKey key l) as [g r]. destruct IH as (-> & Hg & Hr). split_and!; [done| |done].
    intros x [->|Hx]%elem_of_cons; auto.
  - apply bytes_eqb_false in E. split_and!; [done|by intros x ?%elem_of_nil|done].
Qed.

(** The groups the loop hands to [compactGroup]. *)
Fixpoint groupsOf (fuel : nat) (stream : list Entry) : list (list Entry) :=
  match fuel with
  | O => []
  | S fuel =>
      match stream with
      | [] => []
      | e :: _ => let '(g, r) := spanKey (Key e) stream in g :: groupsOf fuel r
      end
  end.

(** Groups: one key each, keys in order. *)
Definition groups_ok (gs : list (list Entry)) : Prop :=
  Forall (fun g => g <> [] /\ forall a b, a ∈ g -> b ∈ g -> Key a = Key b) gs /\
  StronglySorted (fun g h => forall a b, a ∈ g -> b ∈ h -> bytes_lt (Key a) (Key b)) gs.

Lemma groupsOf_spec fuel stream :
  StronglySorted version_le stream -> (length stream < fuel)%nat ->
  concat (groupsOf fuel stream) = stream /\ groups_ok (groupsOf fuel stream).
Proof.
  revert stream. induction fuel as [|fuel IH]; intros stream Hs Hf; [lia|]. destruct stream as [|e l]; cbn [groupsOf].
  { split; [done|]. split; constructor. }
  pose proof (spanKey_spec (Key e) (e :: l)) as Hspan. destruct (spanKey (Key e) (e :: l)) as [g r] eqn:Esp.
  destruct Hspan as (Hcat & Hg & Hr).
  assert (e ∈ g) as Heg.
  { simpl in Esp. rewrite bytes_eqb_refl in Esp. destruct (spanKey (Key e) l). injection Esp as <- <-. left. }
  rewrite Hcat in Hs. apply StronglySorted_app in Hs as (_ & Hsr & Hgr).
  destruct (IH r Hsr) as (Hc & Hok & Hord).
  { apply (f_equal length) in Hcat. rewrite length_app in Hcat. destruct g; [by apply elem_of_nil in Heg|]. simpl in *. lia. }
  cbn [concat]. rewrite Hc. split; [done|]. split.
  - constructor; [|done]. split; [by intros ->; apply elem_of_nil in Heg|]. intros a b Ha Hb. by rewrite (Hg a Ha), (Hg b Hb).
  - constructor; [done|]. apply Forall_forall. intros h Hh a b Ha Hb. rewrite (Hg a Ha).
    assert (b ∈ r) as Hbr by (rewrite <- Hc; apply elem_of_concat; eauto).
    assert (forall x, x ∈ r -> bytes_lt (Key e) (Key x)) as Hlt; [|auto].
    destruct r as [|x0 r']; [by intros x ?%elem_of_nil|].
    assert (bytes_lt (Key e) (Key x0)) as H0.
    { destruct (Hgr e x0 Heg ltac:(left)) as [?|[Hk _]]; [done|]. by rewrite Hk in Hr. }
    apply StronglySorted_inv in Hsr as [_ Hx0]. rewrite Forall_forall in Hx0.
    intros x [->|Hx]%elem_of_cons; [done|]. destruct (Hx0 x Hx) as [?|[Hk _]]; [by eapply bytes_lt_trans|by rewrite <- Hk].
Qed.

(** ** The writer *)

(** Tables made of consecutive parts. *)
Definition tables_of (now : Z) (parts : list (list Entry)) (ts : list Table) : Prop :=
  Forall2 (fun part t => part <> [] /\ exists seq, t = createTable seq part now) parts ts.

(** The writer after the outputs [outs]: closed tables, and the open buffer. *)
Definition writer_inv (now : Z) (outs : list (list Entry)) (w : sstLevelWriter) : Prop :=
  exists (closed : list (list (list Entry))) (cur : list (list Entry)),
    concat closed ++ cur = outs /\ w_buf w = concat cur /\ tables_of now (fmap (fun p => concat p) closed) (w_tables w).

Lemma writer_add_all w out :
  w_buf (foldl writer_add w out) = w_buf w ++ out /\ w_tables (foldl writer_add w out) = w_tables w.
Proof.
  revert w. induction out as [|e out IH]; intros w; simpl; [by rewrite app_nil_r|].
  destruct (IH (writer_add w e)) as [-> ->]. simpl. by rewrite <- app_assoc.
Qed.

(** Every key fits the index. *)
Definition fit (outs : list (list Entry)) : Prop := forall e, e ∈ concat outs -> indexable e = true.

Lemma writer_flush_inv now outs w :
  fit outs -> writer_inv now outs w -> writer_inv now outs (writer_flush now w) /\ w_buf (writer_flush now w) = [].
Proof.
  intros Hfit (dn & cur & Hcat & Hbuf & Ht). unfold writer_flush. destruct (w_buf w) as [|e b] eqn:E.
  { split; [|done]. exists dn, cur. by rewrite E. }
  assert (creatable (e :: b) = true) as ->.
  { apply tabular_creatable, forallb_forall. intros x Hx%list_elem_of_In. apply Hfit. rewrite <- Hcat, concat_app, <- Hbuf.
    apply elem_of_app. by right. }
  split; [|done]. exists (dn ++ [cur]), []. split_and!; [rewrite concat_app; simpl; by rewrite !app_nil_r|done|].
  cbn [w_tables]. rewrite fmap_app. apply Forall2_app; [done|]. constructor; [|constructor]. rewrite <- Hbuf.
  split; [done|]. by eexists.
Qed.

Lemma writer_step_inv now outs w out :
  fit (outs ++ [out]) -> writer_inv now outs w -> writer_inv now (outs ++ [out]) (maybeFlush now (foldl writer_add w out)).
Proof.
  intros Hfit (dn & cur & Hcat & Hbuf & Ht). destruct (writer_add_all w out) as [Hb Hw].
  assert (writer_inv now (outs ++ [out]) (foldl writer_add w out)) as Hinv.
  { exists dn, (cur ++ [out]). split_and!; [by rewrite app_assoc, Hcat| |by rewrite Hw].
    rewrite Hb, Hbuf, concat_app. simpl. by rewrite app_nil_r. }
  unfold maybeFlush. case_if; [|done]. by apply writer_flush_inv.
Qed.

Definition nonEmpty (l : list Entry) : Prop := l <> [].

Lemma drainGroups_spec fuel env ls target stream w disc outs :
  fit (outs ++ filter nonEmpty ((fun g => (compactGroup env ls target g).1) <$> groupsOf fuel stream)) ->
  writer_inv (ce_now env) outs w ->
  writer_inv (ce_now env)
    (outs ++ filter nonEmpty ((fun g => (compactGroup env ls target g).1) <$> groupsOf fuel stream))
    (drainGroups fuel env ls target stream w disc).1.
Proof.
  revert stream w disc outs. induction fuel as [|fuel IH]; intros stream w disc outs Hfit Hw; cbn [drainGroups groupsOf] in *.
  { by rewrite app_nil_r. }
  destruct stream as [|e l]; [by rewrite app_nil_r|].
  destruct (spanKey (Key e) (e :: l)) as [g r]. rewrite fmap_cons, filter_cons in *.
  destruct (compactGroup env ls target g) as [out d] eqn:Eg. cbn [fst] in *.
  destruct (decide (nonEmpty out)) as [Hne|Hne].
  - destruct out as [|x out]; [done|]. rewrite cons_middle, app_assoc in *. apply IH; [done|]. apply writer_step_inv; [|done].
    intros y Hy. apply Hfit. rewrite concat_app. apply elem_of_app. by left.
  - destruct out as [|x out]; [by apply IH|]. by destruct Hne.
Qed.

(** A table in order: sorted entries inside the key range, with keys the index
    can hold. *)
Record table_ok (t : Table) : Prop := {
  to_sorted : StronglySorted version_le (tb_entries t);
  to_range : forall e, e ∈ tb_entries t -> bytes_le (tb_min t) (Key e) /\ bytes_le (Key e) (tb_max t);
  to_keys : forall e, e ∈ tb_entries t -> indexable e = true;
}.

Lemma createTable_ok seq part now :
  StronglySorted version_le part -> (forall e, e ∈ part -> indexable e = true) -> table_ok (createTable seq part now).
Proof.
  intros Hs Hk. split; simpl; [| |intros e (x & -> & Hx)%list_elem_of_fmap; rewrite indexable_stored; auto].
  - clear Hk. induction Hs as [|x l Hl IH Hx]; [constructor|]. rewrite fmap_cons. constructor; [done|].
    rewrite Forall_forall in *. intros y (z & -> & Hz)%list_elem_of_fmap. unfold version_le.
    rewrite !storedEntry_key, !storedEntry_version. by apply Hx.
  - intros e (x & -> & Hx)%list_elem_of_fmap. rewrite storedEntry_key.
    assert (forall a b, version_le a b -> bytes_le (Key a) (Key b)) as Hle.
    { intros a b [H|[H _]]; [by apply bytes_lt_le|rewrite H; apply bytes_le_refl]. }
    split.
    + destruct part as [|p part]; [by apply elem_of_nil in Hx|]. simpl.
      apply elem_of_cons in Hx as [->|Hx]; [apply bytes_le_refl|]. apply Hle.
      apply StronglySorted_inv in Hs as [_ Hp]. rewrite Forall_forall in Hp. auto.
    + destruct (last part) as [q|] eqn:El; [|apply last_None in El; subst; by apply elem_of_nil in Hx]. simpl.
      apply last_Some in El as [pre ->]. apply StronglySorted_app in Hs as (_ & _ & Hp).
      apply elem_of_app in Hx as [Hx| ->%list_elem_of_singleton]; [apply Hle, Hp; [done|left]|apply bytes_le_refl].
Qed.

(** ** The effect of a merge on the entries *)

Section effect.
Context (env : CompactEnv) (ls : list (list Table)) (target : nat) (iters : list (list Entry)).
Context (iters_sorted : Forall (StronglySorted version_le) iters).
Context (iters_fit : fit iters).
Context (uniq : versions_unique (concat iters)).

Notation now := (ce_now env).
Notation m := (ce_minReadTs env).
Notation stream := (drainMergedVersion iters).
Notation groups := (groupsOf (S (length stream)) stream).
Definition outOf (g : list Entry) : list Entry := (compactGroup env ls target g).1.

(** What becomes of a version. *)
Definition derive (g : Entry) : Entry := storedEntry (writtenEntry now g).

Lemma derive_key g : Key (derive g) = Key g.
Proof. unfold derive. by rewrite storedEntry_key. Qed.

Lemma derive_version g : Version (derive g) = Version g.
Proof. unfold derive. by rewrite storedEntry_version. Qed.

Lemma derive_live g : Deleted (derive g) = false -> Deleted g = false /\ ExpiresAt (derive g) = ExpiresAt g.
Proof. unfold derive, storedEntry, writtenEntry, dead. cbn. destruct (Deleted g), (expired now g); done. Qed.

Definition outputs : list (list Entry) := filter nonEmpty (outOf <$> groups).

Lemma groups_spec : concat groups ≡ₚ concat iters /\ groups_ok groups.
Proof.
  destruct (drainMergedVersion_spec iters iters_sorted) as [Hp Hs].
  destruct (groupsOf_spec (S (length stream)) stream Hs ltac:(lia)) as [Hc Hok]. by rewrite Hc.
Qed.

Lemma out_from g x : x ∈ outOf g -> exists y, y ∈ g /\ x = writtenEntry now y.
Proof.
  unfold outOf. intros Hx. destruct (compactGroup_spec env ls target g) as (K & [Hsub _] & [HK|[HK _]]); rewrite HK in Hx;
    [|by apply elem_of_nil in Hx].
  apply list_elem_of_fmap in Hx as (y & -> & Hy). exists y. split; [|done].
  rewrite <- (sortDesc_perm g). by eapply sublist_subseteq.
Qed.

Lemma out_sorted g :
  (forall a b, a ∈ g -> b ∈ g -> Key a = Key b) -> StronglySorted version_le (outOf g).
Proof.
  unfold outOf. intros Hk. destruct (compactGroup_spec env ls target g) as (K & [Hsub _] & [HK|[HK _]]); rewrite HK; [|constructor].
  assert (StronglySorted desc K) as Hs by (eapply StronglySorted_sublist; [exact Hsub|apply sortDesc_sorted]).
  assert (forall x, x ∈ K -> x ∈ g) as Hin by (intros x Hx; rewrite <- (sortDesc_perm g); by eapply sublist_subseteq).
  clear HK Hsub. induction Hs as [|x K Hs IH Hx]; [constructor|]. rewrite fmap_cons.
  constructor; [apply IH; intros y Hy; apply Hin; by right|].
  rewrite Forall_forall in *. intros y (z & -> & Hz)%list_elem_of_fmap. right. cbn [Key Version writtenEntry].
  split; [apply Hk; apply Hin; [left|by right]|by apply Hx].
Qed.

Definition key_before (g h : list Entry) : Prop := forall a b, a ∈ g -> b ∈ h -> bytes_lt (Key a) (Key b).

Lemma outputs_sorted : StronglySorted key_before outputs /\ StronglySorted version_le (concat outputs).
Proof.
  destruct groups_spec as (_ & Hok & Hord). unfold outputs.
  assert (StronglySorted key_before (outOf <$> groups)) as H1.
  { clear Hok. induction Hord as [|g gs Hgs IH Hg]; [constructor|]. rewrite fmap_cons. constructor; [done|].
    rewrite Forall_forall in *. intros h (g' & -> & Hg')%list_elem_of_fmap a b Ha Hb.
    apply out_from in Ha as (a0 & Ha0 & ->). apply out_from in Hb as (b0 & Hb0 & ->). simpl. by apply (Hg g'). }
  split; [eapply StronglySorted_sublist; [apply sublist_filter|done]|].
  assert (Forall (StronglySorted version_le) (filter nonEmpty (outOf <$> groups))) as H2.
  { apply Forall_forall. intros o [_ (g & -> & Hg)%list_elem_of_fmap]%list_elem_of_filter. apply out_sorted.
    rewrite Forall_forall in Hok. by apply Hok. }
  assert (StronglySorted key_before (filter nonEmpty (outOf <$> groups))) as H3
    by (eapply StronglySorted_sublist; [apply sublist_filter|done]).
  clear H1. induction H3 as [|o os Hos IH Ho]; [constructor|]. cbn [concat].
  apply Forall_cons in H2 as [Hso H2]. apply StronglySorted_app. split_and!; [done|by apply IH|].
  intros a b Ha (h & Hh & Hb)%elem_of_concat. left. rewrite Forall_forall in Ho. by apply (Ho h).
Qed.

Lemma outputs_from x : x ∈ concat outputs -> exists y, y ∈ concat iters /\ x = writtenEntry now y.
Proof.
  intros (out & [_ (g & -> & Hg)%list_elem_of_fmap]%list_elem_of_filter & Hx)%elem_of_concat.
  apply out_from in Hx as (y & Hy & ->). exists y. split; [|done]. destruct groups_spec as [<- _]. apply elem_of_concat. eauto.
Qed.

Lemma outputs_fit : fit outputs.
Proof. intros x (y & Hy & ->)%outputs_from. exact (iters_fit y Hy). Qed.

Definition newTables (seq : Z) : list Table :=
  w_tables (writer_flush now (drainMergedIterator env ls target iters (mkWriter [] 0 [] seq)).1).

Lemma newTables_parts seq :
  exists closed, concat closed = outputs /\ tables_of now (fmap (fun p => concat p) closed) (newTables seq).
Proof.
  unfold newTables, drainMergedIterator.
  pose proof (drainGroups_spec (S (length stream)) env ls target stream (mkWriter [] 0 [] seq) [] []) as H.
  destruct (writer_flush_inv now outputs (drainGroups (S (length stream)) env ls target stream (mkWriter [] 0 [] seq) []).1)
    as [(closed & cur & Hcat & Hbuf & Ht) Hempty].
  { exact outputs_fit. }
  { apply H; [exact outputs_fit|]. exists [], []. split_and!; [done|done|constructor]. }
  exists closed. split; [|exact Ht]. rewrite Hempty in Hbuf.
  assert (cur = []) as ->; [|by rewrite app_nil_r in Hcat].
  destruct cur as [|c cur]; [done|]. assert (c ∈ outputs) as Hc by (rewrite <- Hcat; apply elem_of_app; right; left).
  apply list_elem_of_filter in Hc as [Hne _]. simpl in Hbuf. symmetry in Hbuf. apply app_nil in Hbuf as [-> _]. by destruct Hne.
Qed.

(** Membership in the new tables is membership in the outputs. *)
Lemma newTables_elem seq x :
  (exists t, t ∈ newTables seq /\ x ∈ tb_entries t) <-> exists o, o ∈ concat outputs /\ x = storedEntry o.
Proof.
  destruct (newTables_parts seq) as (closed & <- & Ht). split.
  - intros (t & Hin & Hx). apply list_elem_of_lookup in Hin as [i Hi].
    destruct (Forall2_lookup_r _ _ _ _ _ Ht Hi) as (part & Hp & _ & sq & ->). simpl in Hx.
    apply list_elem_of_fmap in Hx as (o & -> & Ho). exists o. split; [|done].
    apply list_lookup_fmap_Some in Hp as (p & -> & Hp). apply elem_of_concat in Ho as (g & Hg & Ho).
    apply elem_of_concat. exists g. split; [|done]. apply elem_of_concat. exists p. split; [by eapply list_elem_of_lookup_2|done].
  - intros (o & (g & (p & Hp & Hg)%elem_of_concat & Ho)%elem_of_concat & ->).
    apply list_elem_of_lookup in Hp as [i Hi].
    destruct (Forall2_lookup_l _ _ _ i (concat p) Ht) as (t & Hti & _ & sq & ->).
    { rewrite list_lookup_fmap. by rewrite Hi. }
    exists (createTable sq (concat p) now). split; [by eapply list_elem_of_lookup_2|]. simpl.
    apply list_elem_of_fmap_2, elem_of_concat. eauto.
Qed.

(** The new tables are in order, one after the other, and a key is in one. *)
Lemma newTables_ok seq :
  Forall table_ok (newTables seq) /\
  forall i j t u a b, (i < j)%nat -> newTables seq !! i = Some t -> newTables seq !! j = Some u ->
    a ∈ tb_entries t -> b ∈ tb_entries u -> bytes_lt (Key a) (Key b).
Proof.
  destruct outputs_sorted as [Hkb Hso]. destruct (newTables_parts seq) as (closed & Hcat & Ht). split.
  - apply Forall_forall. intros t Hin. apply list_elem_of_lookup in Hin as [i Hi].
    destruct (Forall2_lookup_r _ _ _ _ _ Ht Hi) as (part & Hp & _ & sq & ->).
    apply list_lookup_fmap_Some in Hp as (p & -> & Hp). apply createTable_ok.
    2:{ intros e (g & Hg & He)%elem_of_concat. apply outputs_fit, elem_of_concat. exists g. split; [|done]. rewrite <- Hcat.
        apply elem_of_concat. exists p. split; [by eapply list_elem_of_lookup_2|done]. }
    eapply StronglySorted_sublist; [|exact Hso].
    rewrite <- Hcat. apply list_elem_of_lookup_2 in Hp. apply list_elem_of_split in Hp as (l1 & l2 & ->).
    rewrite concat_app. cbn [concat]. rewrite !concat_app. by apply sublist_inserts_l, sublist_inserts_r.
  - intros i j t u a b Hij Hi Hj Ha Hb.
    destruct (Forall2_lookup_r _ _ _ _ _ Ht Hi) as (p1 & Hp1 & _ & sq1 & ->).
    destruct (Forall2_lookup_r _ _ _ _ _ Ht Hj) as (p2 & Hp2 & _ & sq2 & ->). simpl in Ha, Hb.
    apply list_lookup_fmap_Some in Hp1 as (c1 & -> & Hc1). apply list_lookup_fmap_Some in Hp2 as (c2 & -> & Hc2).
    apply list_elem_of_fmap in Ha as (a0 & -> & Ha). apply list_elem_of_fmap in Hb as (b0 & -> & Hb).
    rewrite !storedEntry_key. apply elem_of_concat in Ha as (g & Hg & Ha). apply elem_of_concat in Hb as (h & Hh & Hb).
    rewrite <- Hcat in Hkb. exact (StronglySorted_concat _ _ _ _ _ _ _ _ Hkb Hij Hc1 Hc2 Hg Hh a0 b0 Ha Hb).
Qed.

(** Nothing is made up. *)
Lemma newTables_from seq t x :
  t ∈ newTables seq -> x ∈ tb_entries t -> exists g, g ∈ concat iters /\ x = derive g.
Proof.
  intros Ht Hx. destruct (proj1 (newTables_elem seq x)) as (o & (y & Hy & ->)%outputs_from & ->); eauto.
Qed.

(** A version is written, or shadowed for every live snapshot by a newer one
    that is, or its key is dropped with a dead newest version. *)
Lemma newTables_keep seq k :
  (forall g, g ∈ concat iters -> Key g = k ->
     (exists t, t ∈ newTables seq /\ derive g ∈ tb_entries t) \/
     exists o, o ∈ concat iters /\ Key o = k /\ Version g < Version o <= m) \/
  (target = 4%nat /\ (forall t x, t ∈ newTables seq -> x ∈ tb_entries t -> Key x <> k) /\
   exists h, h ∈ concat iters /\ Key h = k /\ dead now h = true /\
     forall g, g ∈ concat iters -> Key g = k -> g = h \/ Version g < Version h <= m).
Proof.
  destruct groups_spec as (Hperm & Hok & Hord). rewrite Forall_forall in Hok.
  assert (forall g, g ∈ concat iters -> exists G, G ∈ groups /\ g ∈ G) as Hin.
  { intros g Hg. rewrite <- Hperm in Hg. by apply elem_of_concat. }
  assert (forall G g, G ∈ groups -> g ∈ G -> g ∈ concat iters) as Hfrom.
  { intros G g HG Hg. rewrite <- Hperm. apply elem_of_concat. eauto. }
  (** all versions of a key are in one group *)
  assert (forall G H a b, G ∈ groups -> H ∈ groups -> a ∈ G -> b ∈ H -> Key a = Key b -> b ∈ G) as Hone.
  { intros G H a b HG HH Ha Hb Hk. apply list_elem_of_lookup in HG as [i Hi]. apply list_elem_of_lookup in HH as [j Hj].
    destruct (Nat.lt_trichotomy i j) as [Hij|[->|Hij]]; [|congruence|].
    - pose proof (StronglySorted_lookup _ _ _ _ _ _ Hord Hij Hi Hj a b Ha Hb) as Hl. rewrite Hk in Hl. by apply bytes_lt_irrefl in Hl.
    - pose proof (StronglySorted_lookup _ _ _ _ _ _ Hord Hij Hj Hi b a Hb Ha) as Hl. rewrite Hk in Hl. by apply bytes_lt_irrefl in Hl. }
  destruct (decide (Exists (fun g => Key g = k) (concat iters))) as [Hex|Hno].
  2:{ left. intros g Hg Hk. destruct Hno. apply Exists_exists. eauto. }
  apply Exists_exists in Hex as (g0 & Hg0 & Hk0). destruct (Hin g0 Hg0) as (G & HG & Hg0G).
  assert (forall g, g ∈ concat iters -> Key g = k -> g ∈ G) as HinG.
  { intros g Hg Hk. destruct (Hin g Hg) as (H & HH & HgH). apply (Hone G H g0 g); congruence. }
  destruct (compactGroup_spec env ls target G) as (K & [Hsub Hall] & Hout).
  assert (forall x, x ∈ K -> x ∈ G) as HKG by (intros x Hx; rewrite <- (sortDesc_perm G); by eapply sublist_subseteq).
  assert (forall o g, o ∈ K -> g ∈ concat iters -> Key g = k -> Version o = Version g -> o = g) as Huniq.
  { intros o g Ho Hg Hk Hv. apply uniq; [eauto|done| |done]. rewrite Hk, <- Hk0. apply (proj2 (Hok G HG)); auto. }
  destruct Hout as [Hout|(Hout & Ht & h & -> & Hdead)].
  - left. intros g Hg Hk. destruct (Hall g (HinG g Hg Hk)) as (o & Ho & Hle & Hcase).
    destruct (Z.eq_dec (Version o) (Version g)) as [E|E].
    + left. assert (o = g) as -> by auto. apply newTables_elem. exists (writtenEntry now g). split; [|done].
      apply elem_of_concat. exists (outOf G). assert (outOf G = writtenEntry now <$> K) as HE by exact Hout. split.
      * apply list_elem_of_filter. split; [|by apply list_elem_of_fmap_2]. rewrite HE. unfold nonEmpty. by destruct K; [apply elem_of_nil in Ho|].
      * rewrite HE. by apply list_elem_of_fmap_2.
    + right. exists o. split; [eauto|]. split; [|destruct Hcase; lia]. rewrite <- Hk0. apply (proj2 (Hok G HG)); auto.
  - right. split; [done|]. split.
    + intros t x Hti Hx Hk. destruct (proj1 (newTables_elem seq x)) as (o & (out & Ho1 & Ho2)%elem_of_concat & ->); [eauto|].
      apply list_elem_of_filter in Ho1 as [_ (H & -> & HH)%list_elem_of_fmap].
      pose proof Ho2 as Ho3. apply out_from in Ho3 as (y & Hy & ->). rewrite storedEntry_key in Hk. simpl in Hk.
      assert (y ∈ G) as HyG by (apply (Hone G H g0 y); congruence).
      assert (H = G) as ->; [|unfold outOf in Ho2; rewrite Hout in Ho2; by apply elem_of_nil in Ho2].
      apply list_elem_of_lookup in HG as [i Hi]. apply list_elem_of_lookup in HH as [j Hj].
      destruct (Nat.lt_trichotomy i j) as [Hij|[->|Hij]]; [|congruence|]; exfalso.
      * exact (bytes_lt_irrefl _ (StronglySorted_lookup _ _ _ _ _ _ Hord Hij Hi Hj y y HyG Hy)).
      * exact (bytes_lt_irrefl _ (StronglySorted_lookup _ _ _ _ _ _ Hord Hij Hj Hi y y Hy HyG)).
    + assert (h ∈ G) as HhG by (apply HKG; left). exists h. split_and!; [eauto|rewrite <- Hk0; by apply (proj2 (Hok G HG))|done|].
      intros g Hg Hk. destruct (Hall g (HinG g Hg Hk)) as (o & ->%list_elem_of_singleton & Hle & Hcase).
      destruct (Z.eq_dec (Version h) (Version g)) as [E|E]; [left; symmetry; apply Huniq; [left|done..]|right; destruct Hcase; lia].
Qed.
End effect.

(** ** What a reader sees *)

(** The value and expiry a lookup returns, if any. *)
Definition seen (now : Z) (o : option Entry) : option (bytes * Z) :=
  match interpret now o with Found v e => Some (v, e) | _ => None end.

Lemma expired_later now now' e : now <= now' -> expired now e = true -> expired now' e = true.
Proof. unfold expired. intros Hle H. bool_prop. apply andb_true_iff. split; [lia|]. lia. Qed.

Lemma seen_dead now now' e : now <= now' -> dead now e = true -> seen now' (Some e) = None.
Proof.
  intros Hle Hd. unfold seen, interpret. destruct (Deleted e) eqn:E; [done|]. unfold dead in Hd. rewrite E in Hd. simpl in Hd.
  by rewrite (expired_later now now' e).
Qed.

Lemma seen_derive env now' g : ce_now env <= now' -> seen now' (Some (derive env g)) = seen now' (Some g).
Proof.
  intros Hle. destruct (dead (ce_now env) g) eqn:E.
  - rewrite (seen_dead (ce_now env) now' g) by done. apply (seen_dead (ce_now env)); [done|]. unfold derive, storedEntry, writtenEntry.
    simpl. by rewrite E.
  - unfold derive, storedEntry, writtenEntry. simpl. rewrite E. unfold seen, interpret. simpl.
    assert (Deleted g = false) as -> by (unfold dead in E; by destruct (Deleted g)). done.
Qed.

Lemma snapshot_get_intro l key v e :
  versions_unique l -> e ∈ l -> Key e = key -> Version e <= v ->
  (forall x, x ∈ l -> Key x = key -> Version x <= v -> Version x <= Version e) -> snapshot_get l key v = Some e.
Proof.
  intros Hu He Hk Hv Hmax. destruct (snapshot_get l key v) as [r|] eqn:E.
  - apply snapshot_get_Some in E as (Hr & Hkr & Hvr & Hm). f_equal. apply Hu; [done|done|congruence|].
    specialize (Hm e He Hk Hv). specialize (Hmax r Hr Hkr Hvr). lia.
  - pose proof (proj1 (snapshot_get_None _ _ _) E e He Hk). lia.
Qed.

(** ** Levels *)

Lemma level_insert ls i x p :
  (i < length ls)%nat -> level (<[i := x]> ls) p = if decide (p = i) then x else level ls p.
Proof.
  intros Hi. unfold level. destruct (decide (p = i)) as [->|Hne]; [by rewrite list_lookup_insert_eq|].
  by rewrite list_lookup_insert_ne.
Qed.

Lemma elem_of_searchOrder ls t : t ∈ searchOrder ls <-> exists p, t ∈ level ls p.
Proof.
  unfold searchOrder, level. rewrite list_elem_of_bind. split.
  - intros (tables & Ht & Hin). apply list_elem_of_lookup in Hin as [p Hp]. exists p. rewrite Hp. simpl.
    by rewrite list_elem_of_In, in_rev, <- list_elem_of_In.
  - intros (p & Ht). destruct (ls !! p) as [tables|] eqn:Hp; [|by apply elem_of_nil in Ht]. simpl in Ht.
    exists tables. split; [by rewrite list_elem_of_In, <- in_rev, <- list_elem_of_In|by eapply list_elem_of_lookup_2].
Qed.

(** The search order is sorted when each level is and the levels are. *)
Lemma searchOrder_sorted (R : Table -> Table -> Prop) ls :
  StronglySorted R (searchOrder ls) <->
  (forall p q t u, (p < q)%nat -> t ∈ level ls p -> u ∈ level ls q -> R t u) /\
  (forall p, StronglySorted R (rev (level ls p))).
Proof.
  induction ls as [|tables ls IH].
  - split; [|constructor]. intros _. split; [|intros [|p]; exact (SSorted_nil _)].
    intros p q t u _ Ht. destruct p; by apply elem_of_nil in Ht.
  - change (searchOrder (tables :: ls)) with (rev tables ++ searchOrder ls). rewrite StronglySorted_app, IH.
    assert (forall t : Table, t ∈ rev tables <-> t ∈ tables) as Hrev
      by (intros t; by rewrite !list_elem_of_In, <- in_rev).
    split.
    + intros (H0 & (H1 & H2) & H3). split; [|intros [|p]; [exact H0|exact (H2 p)]].
      intros [|p] [|q] t u Hpq Ht Hu; [lia| |lia|apply (H1 p q); [lia|done..]].
      apply H3; [by apply Hrev|]. apply elem_of_searchOrder. by exists q.
    + intros (H1 & H2). split; [apply (H2 0%nat)|]. split.
      * split; [|intros p; apply (H2 (S p))]. intros p q t u Hpq. apply (H1 (S p) (S q)). lia.
      * intros t u Ht (q & Hu)%elem_of_searchOrder. apply (H1 0%nat (S q)); [lia|by apply Hrev|done].
Qed.

(** [t] is searched before [u] and hides its older versions. *)
Definition shadows (t u : Table) : Prop :=
  forall a b, a ∈ tb_entries t -> b ∈ tb_entries u -> Key a = Key b -> Version b < Version a.

Definition apart (t u : Table) : Prop := forall a b, a ∈ tb_entries t -> b ∈ tb_entries u -> Key a <> Key b.

Lemma apart_sym t u : apart t u -> apart u t.
Proof. intros H a b Ha Hb Hk. by apply (H b a). Qed.

Lemma apart_shadows t u : apart t u -> shadows t u.
Proof. intros H a b Ha Hb Hk. by destruct (H a b). Qed.

Definition allEntries (ls : list (list Table)) : list Entry := searchOrder ls ≫= tb_entries.

Lemma elem_of_levels ls e : e ∈ allEntries ls <-> exists p t, t ∈ level ls p /\ e ∈ tb_entries t.
Proof.
  unfold allEntries. rewrite list_elem_of_bind. setoid_rewrite elem_of_searchOrder. naive_solver.
Qed.

(** No key has versions across a restart point of its table. *)
Definition wholeLevels (ls : list (list Table)) : bool := forallb (fun t => whole (tb_entries t)) (searchOrder ls).

Lemma wholeLevels_spec ls : wholeLevels ls = true <-> forall p t, t ∈ level ls p -> whole (tb_entries t) = true.
Proof.
  unfold wholeLevels. rewrite forallb_forall. setoid_rewrite <- list_elem_of_In. setoid_rewrite elem_of_searchOrder.
  naive_solver.
Qed.

(** The levels in order, with tables that are read whole. *)
Record lsm_ok (st : Lsm) : Prop := {
  lo_length : length (levels st) = MaxLevels;
  lo_tables : forall p t, t ∈ level (levels st) p -> table_ok t;
  lo_search : StronglySorted shadows (searchOrder (levels st));
  lo_unique : versions_unique (allEntries (levels st));
  lo_apart : forall p, (1 <= p)%nat -> StronglySorted apart (level (levels st) p);
  lo_seqs : NoDup (tb_seq <$> searchOrder (levels st));
  lo_seq : forall p t, t ∈ level (levels st) p -> tb_seq t <= lsm_nextSeq st;
  lo_whole : forall p t, t ∈ level (levels st) p -> whole (tb_entries t) = true;
}.

(** A table read is a snapshot read of its entries. *)
Definition readable (t : Table) : Prop := forall key v, tableGet (tb_entries t) key (Some v) = snapshot_get (tb_entries t) key v.

Lemma version_sorted_keys es : StronglySorted version_le es -> sorted_keys es.
Proof.
  unfold sorted_keys. induction 1 as [|x l Hl IH Hx]; [constructor|]. rewrite fmap_cons. constructor; [done|].
  rewrite Forall_forall in Hx. apply Forall_forall. intros k (y & -> & Hy)%list_elem_of_fmap.
  destruct (Hx y Hy) as [H|[H _]]; [by apply bytes_lt_le|rewrite H; apply bytes_le_refl].
Qed.

Lemma table_readable t : table_ok t -> whole (tb_entries t) = true -> readable t.
Proof.
  intros [Hs _ Hk] Hw key v. apply tableGet_whole; [by apply version_sorted_keys|].
  unfold tabular. rewrite Hw, andb_true_r. apply forallb_forall. intros e He. by apply Hk, list_elem_of_In.
Qed.

(** Stopping at the first hit is a snapshot read of everything. *)
Lemma firstHit_spec ts key v :
  Forall readable ts -> StronglySorted shadows ts -> firstHit ts key v = snapshot_get (ts ≫= tb_entries) key v.
Proof.
  intros Hr. induction 1 as [|t ts Hts IH Ht]; [done|]. apply Forall_cons in Hr as [Hrt Hr]. specialize (IH Hr).
  cbn [firstHit]. rewrite Hrt, bind_cons, snapshot_get_app, <- IH.
  destruct (snapshot_get (tb_entries t) key v) as [a|] eqn:Ea; [|by destruct (firstHit ts key v)].
  rewrite IH. destruct (snapshot_get (ts ≫= tb_entries) key v) as [b|] eqn:Eb; [|done].
  apply snapshot_get_Some in Ea as (Ha & Hka & _). apply snapshot_get_Some in Eb as (Hb & Hkb & _).
  apply list_elem_of_bind in Hb as (u & Hb & Hu). rewrite Forall_forall in Ht.
  pose proof (Ht u Hu a b Ha Hb ltac:(congruence)). destruct (Z.ltb_spec (Version a) (Version b)); [lia|done].
Qed.

Lemma readLevels_spec st key v :
  lsm_ok st -> readLevels (levels st) key v = snapshot_get (allEntries (levels st)) key v.
Proof.
  intros Hok. apply firstHit_spec; [|apply Hok]. apply Forall_forall. intros t (p & Ht)%elem_of_searchOrder.
  apply table_readable; [by apply (lo_tables _ Hok p)|by apply (lo_whole _ Hok p)].
Qed.

(** An entry is in one table. *)
Lemma one_table st p q t u a b :
  lsm_ok st -> t ∈ level (levels st) p -> u ∈ level (levels st) q -> a ∈ tb_entries t -> b ∈ tb_entries u ->
  Key a = Key b -> Version a = Version b -> t = u.
Proof.
  intros Hok Ht Hu Ha Hb Hk Hv. pose proof (lo_search _ Hok) as Hs.
  assert (t ∈ searchOrder (levels st)) as (i & Hi)%list_elem_of_lookup by (apply elem_of_searchOrder; eauto).
  assert (u ∈ searchOrder (levels st)) as (j & Hj)%list_elem_of_lookup by (apply elem_of_searchOrder; eauto).
  destruct (Nat.lt_trichotomy i j) as [Hij|[->|Hij]]; [|congruence|].
  - pose proof (StronglySorted_lookup _ _ _ _ _ _ Hs Hij Hi Hj a b Ha Hb Hk). lia.
  - pose proof (StronglySorted_lookup _ _ _ _ _ _ Hs Hij Hj Hi b a Hb Ha (eq_sym Hk)). lia.
Qed.

(** Files are told apart by their numbers. *)
Lemma same_seq st p q t u :
  lsm_ok st -> t ∈ level (levels st) p -> u ∈ level (levels st) q -> tb_seq t = tb_seq u -> t = u.
Proof.
  intros Hok Ht Hu Hs. pose proof (lo_seqs _ Hok) as Hnd.
  assert (t ∈ searchOrder (levels st)) as (i & Hi)%list_elem_of_lookup by (apply elem_of_searchOrder; eauto).
  assert (u ∈ searchOrder (levels st)) as (j & Hj)%list_elem_of_lookup by (apply elem_of_searchOrder; eauto).
  assert (i = j) as ->; [|congruence]. eapply NoDup_lookup; [exact Hnd|rewrite list_lookup_fmap, Hi; done|].
  rewrite list_lookup_fmap, Hj. simpl. by rewrite Hs.
Qed.

Lemma same_level st p q t : lsm_ok st -> t ∈ level (levels st) p -> t ∈ level (levels st) q -> p = q.
Proof.
  intros Hok Hp Hq. pose proof (lo_seqs _ Hok) as Hnd. apply NoDup_fmap_StronglySorted, searchOrder_sorted in Hnd as [Hc _].
  destruct (Nat.lt_trichotomy p q) as [H|[H|H]]; [|done|]; [by destruct (Hc p q t t H)|by destruct (Hc q p t t H)].
Qed.

Lemma elem_of_keepTables remove tables t :
  t ∈ keepTables remove tables <-> t ∈ tables /\ forall u, u ∈ remove -> tb_seq t <> tb_seq u.
Proof.
  unfold keepTables. rewrite list_elem_of_filter. split.
  - intros [Hf Ht]. split; [done|]. intros u Hu Hs.
    assert (existsb (isTable t) remove = true); [|congruence]. apply existsb_exists. exists u.
    split; [by apply list_elem_of_In|]. unfold isTable. lia.
  - intros [Ht Hne]. split; [|done]. apply not_true_is_false. intros (u & Hu & Hs)%existsb_exists.
    apply (Hne u); [by apply list_elem_of_In|]. unfold isTable in Hs. lia.
Qed.

Lemma sortTables_perm l : sortTables l ≡ₚ l.
Proof.
  induction l as [|t l IH]; simpl; [done|]. rewrite <- IH at 2. generalize (sortTables l) as k. intros k.
  induction k as [|u k IHk]; simpl; [done|]. case_if; [done|]. rewrite IHk. by constructor.
Qed.

(** File numbers of the writer. *)
Definition seqs_ok (s0 : Z) (w : sstLevelWriter) : Prop :=
  s0 <= w_seq w /\ NoDup (tb_seq <$> w_tables w) /\ forall t, t ∈ w_tables w -> s0 < tb_seq t <= w_seq w.

Lemma seqs_ok_flush s0 now w : seqs_ok s0 w -> seqs_ok s0 (writer_flush now w).
Proof.
  intros (H0 & Hnd & Hs). unfold writer_flush. destruct (w_buf w) as [|e b]; [done|]. unfold seqs_ok.
  cbn [w_seq w_tables]. destruct (creatable _).
  2:{ split_and!; [lia|done|]. intros t Ht. specialize (Hs t Ht). lia. }
  split_and!; [lia| |].
  - rewrite fmap_app. apply NoDup_app. split_and!; [done| |apply NoDup_singleton].
    intros x (t & -> & Ht)%list_elem_of_fmap Hx. apply list_elem_of_singleton in Hx. cbn [tb_seq createTable] in Hx.
    specialize (Hs t Ht). lia.
  - intros t [Ht| ->%list_elem_of_singleton]%elem_of_app; [specialize (Hs t Ht); lia|]. cbn [tb_seq createTable]. lia.
Qed.

Lemma seqs_ok_adds s0 w out : seqs_ok s0 w -> seqs_ok s0 (foldl writer_add w out).
Proof. revert w. induction out as [|e out IH]; intros w H; [done|]. apply IH. exact H. Qed.

Lemma seqs_ok_drain s0 fuel env ls target stream w disc :
  seqs_ok s0 w -> seqs_ok s0 (drainGroups fuel env ls target stream w disc).1.
Proof.
  revert stream w disc. induction fuel as [|fuel IH]; intros stream w disc H; cbn [drainGroups]; [done|].
  destruct stream as [|e l]; [done|]. destruct (spanKey _ _) as [g r]. destruct (compactGroup _ _ _ _) as [out d].
  apply IH. destruct out; [done|]. unfold maybeFlush. case_if; [apply seqs_ok_flush|]; by apply seqs_ok_adds.
Qed.

(** ** A compaction step *)

Section step.
Context (env : CompactEnv) (st : Lsm) (from to : nat) (picks : list Table).
Context (ok : lsm_ok st) (from_to : (from < to)%nat) (to_max : (to < MaxLevels)%nat).
Context (picks_in : forall t, t ∈ picks -> t ∈ level (levels st) from).
(** The rest of the level, and the levels in between, hold other keys. *)
Context (rest_apart : forall t p, t ∈ level (levels st) from -> (forall u, u ∈ picks -> tb_seq t <> tb_seq u) ->
  p ∈ picks -> apart t p).
Context (between_apart : forall q t p, (from < q < to)%nat -> t ∈ level (levels st) q -> p ∈ picks -> apart t p).

Notation ls := (levels st).
Notation ls' := (levels (compactInto env st from picks to)).

Definition overlaps : list Table :=
  filter (fun t => existsb (fun p => rangesOverlap p t) picks = true) (level ls to).

Definition inputs : list (list Entry) := (tb_entries <$> overlaps) ++ (tb_entries <$> picks).

Definition added : list Table := newTables env ls to inputs (lsm_nextSeq st).

Lemma from_len : (from < length ls)%nat.
Proof. rewrite (lo_length _ ok). unfold MaxLevels in *. lia. Qed.

Lemma to_len : (to < length ls)%nat.
Proof. by rewrite (lo_length _ ok). Qed.

Lemma level_after p :
  level ls' p = if decide (p = from) then keepTables picks (level ls from)
                else if decide (p = to) then sortTables (keepTables overlaps (level ls to) ++ added) else level ls p.
Proof.
  unfold compactInto, added, newTables, inputs, overlaps. cbv zeta.
  destruct (drainMergedIterator _ _ _ _ _) as [w disc]. cbn [levels fst].
  rewrite level_insert by (rewrite length_insert; apply from_len). rewrite !level_insert by apply to_len.
  destruct (decide (p = from)); [|done]. by destruct (decide (from = to)); [lia|].
Qed.

Lemma overlaps_in t : t ∈ overlaps -> t ∈ level ls to.
Proof. intros [_ H]%list_elem_of_filter. done. Qed.

(** A table of the target level that is kept has no key of a picked table. *)
Lemma kept_apart t p : t ∈ keepTables overlaps (level ls to) -> p ∈ picks -> apart t p.
Proof.
  intros [Ht Hno]%elem_of_keepTables Hp a b Ha Hb Hk. apply (Hno t); [|done]. apply list_elem_of_filter. split; [|done].
  apply existsb_exists. exists p. split; [by apply list_elem_of_In|]. unfold rangesOverlap.
  destruct (to_range _ (lo_tables _ ok _ _ Ht) a Ha) as [H1 H2].
  destruct (to_range _ (lo_tables _ ok _ _ (picks_in p Hp)) b Hb) as [H3 H4]. rewrite Hk in H1, H2.
  apply andb_true_iff. split; apply bytes_leb_spec; by eapply bytes_le_trans.
Qed.

Lemma inputs_elem g : g ∈ concat inputs <-> exists t, (t ∈ overlaps \/ t ∈ picks) /\ g ∈ tb_entries t.
Proof.
  unfold inputs. rewrite elem_of_concat. split.
  - intros (l & Hl & Hg). apply elem_of_app in Hl as [(t & -> & Ht)%list_elem_of_fmap|(t & -> & Ht)%list_elem_of_fmap]; eauto.
  - intros (t & [Ht|Ht] & Hg); exists (tb_entries t); (split; [|done]); apply elem_of_app; [left|right]; by apply list_elem_of_fmap_2.
Qed.

(** An input entry, in its table. *)
Lemma input_table g :
  g ∈ concat inputs -> exists t, g ∈ tb_entries t /\ (t ∈ overlaps /\ t ∈ level ls to \/ t ∈ picks /\ t ∈ level ls from).
Proof.
  intros (t & [Ht|Ht] & Hg)%inputs_elem; exists t; (split; [done|]); [left|right]; split; auto using overlaps_in.
Qed.

Lemma input_all g : g ∈ concat inputs -> g ∈ allEntries ls.
Proof. intros (t & Hg & [[_ Ht]|[_ Ht]])%input_table; apply elem_of_levels; eauto. Qed.

Lemma inputs_sorted : Forall (StronglySorted version_le) inputs.
Proof.
  unfold inputs. apply Forall_app. split; apply Forall_forall; intros l (t & -> & Ht)%list_elem_of_fmap.
  - apply (lo_tables _ ok to). by apply overlaps_in.
  - apply (lo_tables _ ok from). by apply picks_in.
Qed.

Lemma inputs_fit : fit inputs.
Proof. intros e (t & Hg & [[_ Ht]|[_ Ht]])%input_table; by apply (to_keys _ (lo_tables _ ok _ t Ht)). Qed.

Lemma inputs_unique : versions_unique (concat inputs).
Proof. eapply versions_unique_incl; [|apply (lo_unique _ ok)]. apply input_all. Qed.

Lemma added_from t x :
  t ∈ added -> x ∈ tb_entries t -> exists g u, g ∈ tb_entries u /\ x = derive env g /\
    (u ∈ overlaps /\ u ∈ level ls to \/ u ∈ picks /\ u ∈ level ls from).
Proof.
  intros Ht Hx. destruct (newTables_from env ls to inputs inputs_sorted inputs_fit _ t x Ht Hx) as (g & Hg & ->).
  destruct (input_table g Hg) as (u & Hu & Hc). eauto.
Qed.

(** *** Order *)

Lemma before_added p t u : (p < to)%nat -> t ∈ level ls' p -> u ∈ added -> shadows t u.
Proof.
  intros Hp Ht Hu a b Ha Hb Hk. destruct (added_from u b Hu Hb) as (g & v & Hg & -> & Hv).
  rewrite derive_key in Hk. rewrite derive_version. rewrite level_after in Ht.
  assert (t ∈ level ls p /\ (p = from -> forall x, x ∈ picks -> tb_seq t <> tb_seq x)) as [Htp Hno].
  { destruct (decide (p = from)) as [->|Hne]; [by apply elem_of_keepTables in Ht as [? ?]|].
    by destruct (decide (p = to)); [lia|]. }
  destruct (proj1 (searchOrder_sorted shadows ls) (lo_search _ ok)) as [Hcross _].
  destruct Hv as [[_ Hv]|[Hv Hvl]]; [by apply (Hcross p to t v)|].
  destruct (Nat.lt_trichotomy p from) as [Hlt|[->|Hgt]]; [by apply (Hcross p from t v)| |].
  - by destruct (rest_apart t v Htp (Hno eq_refl) Hv a g).
  - by destruct (between_apart p t v ltac:(lia) Htp Hv a g).
Qed.

Lemma added_before p t u : (to < p)%nat -> t ∈ added -> u ∈ level ls' p -> shadows t u.
Proof.
  intros Hp Ht Hu a b Ha Hb Hk. destruct (added_from t a Ht Ha) as (g & v & Hg & -> & Hv).
  rewrite derive_key in Hk. rewrite derive_version. rewrite level_after in Hu.
  destruct (decide (p = from)); [lia|]. destruct (decide (p = to)); [lia|].
  destruct (proj1 (searchOrder_sorted shadows ls) (lo_search _ ok)) as [Hcross _].
  destruct Hv as [[_ Hv]|[_ Hv]]; [by apply (Hcross to p v u)|apply (Hcross from p v u); [lia|done..]].
Qed.

(** Every table after the step was there, or is new in level [to]. *)
Lemma level_after_cases p t :
  t ∈ level ls' p ->
  (t ∈ level ls p /\ t ∉ picks /\ t ∉ overlaps /\ (p = to -> t ∈ keepTables overlaps (level ls to))) \/ (p = to /\ t ∈ added).
Proof.
  rewrite level_after. intros Ht. destruct (decide (p = from)) as [->|Hne].
  - apply elem_of_keepTables in Ht as [Ht Hno]. left. split_and!; [done|intros Hp; by apply (Hno t)| |lia].
    intros Ho%overlaps_in. pose proof (same_level _ _ _ _ ok Ht Ho). lia.
  - assert (t ∈ level ls p -> t ∉ picks) as Hnp.
    { intros Hl Hp%picks_in. by apply Hne, (same_level st p from t). }
    destruct (decide (p = to)) as [->|Hne2].
    + rewrite sortTables_perm in Ht. apply elem_of_app in Ht as [Ht|Ht]; [left|by right].
      pose proof Ht as [Hl Hno]%elem_of_keepTables. split_and!; [done|auto|intros Ho; by apply (Hno t)|done].
    + left. split_and!; [done|auto| |done]. intros Ho%overlaps_in. by apply Hne2, (same_level st p to t).
Qed.

Lemma step_apart p : (1 <= p)%nat -> StronglySorted apart (level ls' p).
Proof.
  intros Hp. rewrite level_after. destruct (decide (p = from)) as [->|Hne].
  { eapply StronglySorted_sublist; [apply sublist_filter|]. by apply (lo_apart _ ok). }
  destruct (decide (p = to)) as [->|Hne2]; [|by apply (lo_apart _ ok)].
  eapply StronglySorted_perm; [apply apart_sym|symmetry; apply sortTables_perm|].
  pose proof (lo_apart _ ok to Hp) as Ha. apply StronglySorted_app. split_and!.
  - eapply StronglySorted_sublist; [apply sublist_filter|done].
  - destruct (newTables_ok env ls to inputs inputs_sorted inputs_fit (lsm_nextSeq st)) as [_ Hlt].
    apply StronglySorted_of_lookup. intros i j t u Hij Hi Hj a b Hta Hub Hk.
    pose proof (Hlt i j t u a b Hij Hi Hj Hta Hub) as Hl. rewrite Hk in Hl. by apply bytes_lt_irrefl in Hl.
  - intros t u Ht Hu a b Hta Hub Hk. destruct (added_from u b Hu Hub) as (g & v & Hg & -> & Hv). rewrite derive_key in Hk.
    destruct Hv as [[Hvo Hvl]|[Hv _]]; [|by destruct (kept_apart t v Ht Hv a g)].
    pose proof Ht as [Htl Hno]%elem_of_keepTables. apply list_elem_of_lookup in Htl as [i Hi].
    apply list_elem_of_lookup in Hvl as [j Hj].
    destruct (Nat.lt_trichotomy i j) as [Hij|[->|Hij]].
    + by apply (StronglySorted_lookup _ _ _ _ _ _ Ha Hij Hi Hj a g).
    + assert (t = v) as -> by congruence. by apply (Hno v).
    + by apply (apart_sym _ _ (StronglySorted_lookup _ _ _ _ _ _ Ha Hij Hj Hi) a g).
Qed.

Lemma step_search : StronglySorted shadows (searchOrder ls').
Proof.
  destruct (proj1 (searchOrder_sorted shadows ls) (lo_search _ ok)) as [Hcross Hlvl].
  apply searchOrder_sorted. split.
  - intros p q t u Hpq Ht Hu.
    destruct (level_after_cases p t Ht) as [[Htl _]|[-> Hta]]; [|by apply (added_before q)].
    destruct (level_after_cases q u Hu) as [[Hul _]|[-> Hua]]; [by apply (Hcross p q)|by apply (before_added p)].
  - intros p. destruct (decide (p = 0)%nat) as [->|Hp0].
    + rewrite level_after. destruct (decide (0 = from)%nat) as [<-|Hne].
      * eapply StronglySorted_sublist; [|apply (Hlvl 0%nat)]. apply sublist_rev, sublist_filter.
      * destruct (decide (0 = to)%nat); [lia|apply Hlvl].
    + eapply StronglySorted_impl; [apply apart_shadows|].
      eapply StronglySorted_perm; [apply apart_sym|apply Permutation_rev|]. apply step_apart. lia.
Qed.

(** *** Versions and file numbers *)

(** Every entry after the step comes from one before it. *)
Lemma after_from x :
  x ∈ allEntries ls' ->
  (exists p t, t ∈ level ls p /\ t ∉ picks /\ t ∉ overlaps /\ x ∈ tb_entries t /\ t ∈ level ls' p) \/
  (exists t g, t ∈ added /\ x ∈ tb_entries t /\ g ∈ concat inputs /\ x = derive env g).
Proof.
  intros (p & t & Ht & Hx)%elem_of_levels.
  destruct (level_after_cases p t Ht) as [(Hl & Hp & Ho & _)|[_ Ha]]; [left; eauto 10|right].
  destruct (newTables_from env ls to inputs inputs_sorted inputs_fit _ t x Ha Hx) as (g & Hg & ->). eauto 10.
Qed.

Lemma not_both p t e g :
  t ∈ level ls p -> t ∉ picks -> t ∉ overlaps -> e ∈ tb_entries t -> g ∈ concat inputs ->
  Key e = Key g -> Version e = Version g -> False.
Proof.
  intros Ht Hp Ho He Hg Hk Hv. destruct (input_table g Hg) as (u & Hu & [[Huo Hul]|[Hup Hul]]).
  - by rewrite (one_table st p to t u e g ok Ht Hul He Hu Hk Hv) in Ho.
  - by rewrite (one_table st p from t u e g ok Ht Hul He Hu Hk Hv) in Hp.
Qed.

Lemma step_unique : versions_unique (allEntries ls').
Proof.
  intros x y Hx Hy Hk Hv.
  destruct (after_from x Hx) as [(p & t & Ht & Htp & Hto & Hxt & _)|(t & g & _ & _ & Hg & ->)];
    destruct (after_from y Hy) as [(q & u & Hu & Hup & Huo & Hyu & _)|(u & h & _ & _ & Hh & ->)];
    rewrite ?derive_key, ?derive_version in *.
  - apply (lo_unique _ ok); [apply elem_of_levels; eauto..|done|done].
  - by destruct (not_both p t x h).
  - by destruct (not_both q u y g).
  - f_equal. by apply inputs_unique.
Qed.

Lemma added_seqs :
  seqs_ok (lsm_nextSeq st) (writer_flush (ce_now env)
    (drainMergedIterator env ls to inputs (mkWriter [] 0 [] (lsm_nextSeq st))).1).
Proof.
  apply seqs_ok_flush. unfold drainMergedIterator. apply seqs_ok_drain. split_and!; [simpl; lia|constructor|].
  by intros t ?%elem_of_nil.
Qed.

Lemma nextSeq_after :
  lsm_nextSeq (compactInto env st from picks to) =
  w_seq (writer_flush (ce_now env) (drainMergedIterator env ls to inputs (mkWriter [] 0 [] (lsm_nextSeq st))).1).
Proof.
  unfold compactInto, inputs, overlaps. cbv zeta. by destruct (drainMergedIterator _ _ _ _ _).
Qed.

Lemma step_seqs : NoDup (tb_seq <$> searchOrder ls').
Proof.
  pose proof (lo_seqs _ ok) as Hnd. apply NoDup_fmap_StronglySorted, searchOrder_sorted in Hnd as [Hc Hl].
  destruct added_seqs as (_ & Hand & Hs).
  assert (forall p t u, t ∈ level ls p -> u ∈ added -> tb_seq t <> tb_seq u) as Hnew.
  { intros p t u Ht Hu. specialize (Hs u Hu). pose proof (lo_seq _ ok p t Ht). lia. }
  apply NoDup_fmap_StronglySorted, searchOrder_sorted. split.
  - intros p q t u Hpq Ht Hu.
    destruct (level_after_cases p t Ht) as [[Htl _]|[-> Hta]]; destruct (level_after_cases q u Hu) as [[Hul _]|[-> Hua]].
    + by apply (Hc p q).
    + by apply (Hnew p).
    + intros E. by apply (Hnew q u t).
    + lia.
  - intros p. eapply StronglySorted_perm; [by intros ? ? ? ?|apply Permutation_rev|]. 
    assert (StronglySorted (fun x y => tb_seq x <> tb_seq y) (level ls p)) as Hp.
    { eapply StronglySorted_perm; [by intros ? ? ? ?|symmetry; apply Permutation_rev|apply Hl]. }
    rewrite level_after. destruct (decide (p = from)) as [->|].
    { eapply StronglySorted_sublist; [apply sublist_filter|done]. }
    destruct (decide (p = to)) as [->|]; [|done].
    eapply StronglySorted_perm; [by intros ? ? ? ?|symmetry; apply sortTables_perm|]. apply StronglySorted_app. split_and!.
    + eapply StronglySorted_sublist; [apply sublist_filter|done].
    + by apply NoDup_fmap_StronglySorted.
    + intros t u Ht Hu. apply (Hnew to); [|done]. by apply elem_of_keepTables in Ht as [? _].
Qed.

(** The tables the merge wrote have no key's versions across a restart point. *)
Context (after_whole : wholeLevels ls' = true).

Lemma step_ok : lsm_ok (compactInto env st from picks to).
Proof.
  split.
  - unfold compactInto. cbv zeta. destruct (drainMergedIterator _ _ _ _ _). simpl. rewrite !length_insert. apply (lo_length _ ok).
  - intros p t Ht. destruct (level_after_cases p t Ht) as [[Hl _]|[_ Ha]]; [by apply (lo_tables _ ok p)|].
    destruct (newTables_ok env ls to inputs inputs_sorted inputs_fit (lsm_nextSeq st)) as [Hf _]. rewrite Forall_forall in Hf. by apply Hf.
  - apply step_search.
  - apply step_unique.
  - apply step_apart.
  - apply step_seqs.
  - intros p t Ht. rewrite nextSeq_after. destruct added_seqs as (H0 & _ & Hs).
    destruct (level_after_cases p t Ht) as [[Hl _]|[_ Ha]]; [pose proof (lo_seq _ ok p t Hl); lia|].
    specialize (Hs t Ha). lia.
  - by apply wholeLevels_spec.
Qed.

(** *** Reads *)

Lemma untouched p t : t ∈ level ls p -> t ∉ picks -> t ∉ overlaps -> t ∈ level ls' p.
Proof.
  intros Ht Hp Ho. rewrite level_after. destruct (decide (p = from)) as [->|].
  - apply elem_of_keepTables. split; [done|]. intros u Hu E.
    by rewrite (same_seq st from from t u ok Ht (picks_in u Hu) E) in Hp.
  - destruct (decide (p = to)) as [->|]; [|done]. rewrite sortTables_perm. apply elem_of_app. left.
    apply elem_of_keepTables. split; [done|]. intros u Hu E.
    by rewrite (same_seq st to to t u ok Ht (overlaps_in u Hu) E) in Ho.
Qed.

Lemma added_all t x : t ∈ added -> x ∈ tb_entries t -> x ∈ allEntries ls'.
Proof.
  intros Ht Hx. apply elem_of_levels. exists to, t. split; [|done]. rewrite level_after.
  destruct (decide (to = from)); [lia|]. destruct (decide (to = to)); [|done]. rewrite sortTables_perm.
  apply elem_of_app. by right.
Qed.

Lemma origin x : x ∈ allEntries ls' ->
  exists e, e ∈ allEntries ls /\ Key e = Key x /\ Version e = Version x /\ (Deleted x = false -> Deleted e = false /\ ExpiresAt x = ExpiresAt e).
Proof.
  intros Hx. destruct (after_from x Hx) as [(p & t & Ht & _ & _ & Hxt & _)|(t & g & _ & _ & Hg & ->)].
  - exists x. split; [|done]. apply elem_of_levels. eauto.
  - exists g. rewrite derive_key, derive_version. split; [by apply input_all|]. split; [done|]. split; [done|]. apply derive_live.
Qed.

(** In the last level, nothing outside the inputs is older than an input. *)
Lemma no_older p t x e :
  to = 4%nat -> t ∈ level ls p -> t ∉ picks -> t ∉ overlaps -> x ∈ tb_entries t ->
  e ∈ concat inputs -> Key x = Key e -> Version e < Version x.
Proof.
  intros Hto Ht Htp Hto' Hx He Hk. destruct (input_table e He) as (w & Hw & Hcase).
  destruct (proj1 (searchOrder_sorted shadows ls) (lo_search _ ok)) as [Hcross _].
  assert (p <= to)%nat as Hple.
  { destruct (Nat.le_gt_cases p to) as [|Hgt]; [done|]. unfold level in Ht. rewrite lookup_ge_None_2 in Ht; [by apply elem_of_nil in Ht|].
    rewrite (lo_length _ ok). unfold MaxLevels. lia. }
  destruct Hcase as [[Hwo Hwl]|[Hwp Hwl]].
  - destruct (decide (p = to)) as [->|Hne]; [|apply (Hcross p to t w); [lia|done..]].
    exfalso. pose proof (lo_apart _ ok to ltac:(lia)) as Ha.
    apply list_elem_of_lookup in Ht as [i Hi]. pose proof Hwl as Hwl'. apply list_elem_of_lookup in Hwl' as [j Hj].
    destruct (Nat.lt_trichotomy i j) as [Hij|[->|Hij]].
    + by apply (StronglySorted_lookup _ _ _ _ _ _ Ha Hij Hi Hj x e).
    + by assert (t = w) as -> by congruence.
    + by apply (apart_sym _ _ (StronglySorted_lookup _ _ _ _ _ _ Ha Hij Hj Hi) x e).
  - destruct (Nat.lt_trichotomy p from) as [Hlt|[->|Hgt]]; [by apply (Hcross p from t w)|exfalso|exfalso].
    + apply (rest_apart t w Ht) with (a := x) (b := e); try done. intros q Hq E.
      by rewrite (same_seq st from from t q ok Ht (picks_in q Hq) E) in Htp.
    + destruct (decide (p = to)) as [->|Hne].
      * apply (kept_apart t w) with (a := x) (b := e); try done. apply elem_of_keepTables. split; [done|]. intros q Hq E.
        by rewrite (same_seq st to to t q ok Ht (overlaps_in q Hq) E) in Hto'.
      * by apply (between_apart p t w ltac:(lia) Ht Hwp x e).
Qed.

Lemma step_reads key ts now' :
  ce_minReadTs env <= ts -> ce_now env <= now' ->
  seen now' (readLevels ls' key ts) = seen now' (readLevels ls key ts).
Proof.
  intros Hts Hnow. rewrite (readLevels_spec _ key ts step_ok), (readLevels_spec st key ts ok).
  destruct (snapshot_get (allEntries ls) key ts) as [e|] eqn:Er.
  2:{ assert (snapshot_get (allEntries ls') key ts = None) as ->; [|done]. apply snapshot_get_None.
      intros x Hx Hk. destruct (origin x Hx) as (y & Hy & Hky & <- & _).
      apply (proj1 (snapshot_get_None _ _ _) Er y Hy). congruence. }
  apply snapshot_get_Some in Er as (He & Hk & Hv & Hmax).
  assert (forall x, x ∈ allEntries ls' -> Key x = key -> Version x <= ts -> Version x <= Version e) as Hmax'.
  { intros x Hx Hkx Hvx. destruct (origin x Hx) as (y & Hy & Hky & Hvy & _). rewrite <- Hvy. apply Hmax; [done|congruence|lia]. }
  destruct (decide (e ∈ concat inputs)) as [Hin|Hout].
  - destruct (newTables_keep env ls to inputs inputs_sorted inputs_fit inputs_unique (lsm_nextSeq st) key)
      as [Hkeep|(Hto & Hnone & h & Hh & Hkh & Hdead & Hothers)].
    + destruct (Hkeep e Hin Hk) as [(t & Ht & Het)|(o & Ho & Hko & Hvo)].
      * rewrite (snapshot_get_intro _ _ _ (derive env e) step_unique (added_all t _ Ht Het));
          [by apply seen_derive|by rewrite derive_key|by rewrite derive_version|by rewrite derive_version].
      * specialize (Hmax o (input_all o Ho) Hko ltac:(lia)). lia.
    + destruct (Hothers e Hin Hk) as [<-|Hlt]; [|specialize (Hmax h (input_all h Hh) Hkh ltac:(lia)); lia].
      rewrite (seen_dead (ce_now env) now' e) by done.
      assert (snapshot_get (allEntries ls') key ts = None) as ->; [|done]. apply snapshot_get_None.
      intros x Hx Hkx. destruct (after_from x Hx) as [(p & t & Ht & Htp & Hto' & Hxt & _)|(t & g & Ht & Hxt & _)].
      * destruct (Z.lt_ge_cases ts (Version x)) as [|Hle]; [done|].
        pose proof (no_older p t x e Hto Ht Htp Hto' Hxt Hin ltac:(congruence)). specialize (Hmax' x Hx Hkx Hle). lia.
      * by destruct (Hnone t x Ht Hxt).
  - rewrite (snapshot_get_intro _ _ _ e step_unique); [done| |done|done|done].
    apply elem_of_levels in He as (p & t & Ht & Het). apply elem_of_levels. exists p, t. split; [|done].
    apply untouched; [done|..]; intros Hti; apply Hout, inputs_elem; eauto.
Qed.
End step.

(** ** The compactions of the engine *)

(** What a compaction must keep: the order of the levels, and every read at a
    live snapshot, now and later. *)
Definition preserves (env : CompactEnv) (st st' : Lsm) : Prop :=
  lsm_ok st' /\
  forall key ts now', ce_minReadTs env <= ts -> ce_now env <= now' ->
    seen now' (readLevels (levels st') key ts) = seen now' (readLevels (levels st) key ts).

Lemma level_apart st p t u :
  lsm_ok st -> (1 <= p)%nat -> t ∈ level (levels st) p -> u ∈ level (levels st) p -> t <> u -> apart t u.
Proof.
  intros Hok Hp Ht Hu Hne. pose proof (lo_apart _ Hok p Hp) as Ha.
  apply list_elem_of_lookup in Ht as [i Hi]. apply list_elem_of_lookup in Hu as [j Hj].
  destruct (Nat.lt_trichotomy i j) as [Hij|[->|Hij]]; [|congruence|].
  - by apply (StronglySorted_lookup _ _ _ _ _ _ Ha Hij Hi Hj).
  - apply apart_sym. by apply (StronglySorted_lookup _ _ _ _ _ _ Ha Hij Hj Hi).
Qed.

Lemma level_NoDup st p : lsm_ok st -> NoDup (level (levels st) p).
Proof.
  intros Hok. pose proof (lo_seqs _ Hok) as Hnd. apply NoDup_fmap_StronglySorted, searchOrder_sorted in Hnd as [_ Hl].
  apply (NoDup_fmap_1 tb_seq), NoDup_fmap_StronglySorted.
  eapply StronglySorted_perm; [by intros ? ? ? ?|symmetry; apply Permutation_rev|apply Hl].
Qed.

(** A merge whose inputs may move past everything they move past. *)
Record valid_step (st : Lsm) (from to : nat) (picks : list Table) : Prop := {
  vs_order : (from < to < MaxLevels)%nat;
  vs_in : forall t, t ∈ picks -> t ∈ level (levels st) from;
  vs_nodup : NoDup picks;
  vs_rest : forall t p, t ∈ level (levels st) from -> (forall u, u ∈ picks -> tb_seq t <> tb_seq u) -> p ∈ picks -> apart t p;
  vs_between : forall q t p, (from < q < to)%nat -> t ∈ level (levels st) q -> p ∈ picks -> apart t p;
}.

(** What an engine compaction does: nothing, or such a merge. *)
Definition is_step (env : CompactEnv) (st st' : Lsm) : Prop :=
  st' = st \/ exists from to picks, valid_step st from to picks /\ st' = compactInto env st from picks to.

Lemma is_step_preserves env st st' :
  lsm_ok st -> is_step env st st' -> wholeLevels (levels st') = true -> preserves env st st'.
Proof.
  intros Hok Hstep Hw. destruct Hstep as [->|(from & to & picks & [[H1 H2] H3 _ H4 H5] & ->)]; [by split|].
  split; [by apply step_ok|intros key ts now' Hts Hnow; by apply step_reads].
Qed.

Lemma compactLevelTable_step env st fromLevel pick :
  lsm_ok st -> (1 <= fromLevel)%nat -> pick ∈ level (levels st) fromLevel ->
  is_step env st (compactLevelTable env st fromLevel pick).
Proof.
  intros Hok Hf Hp. unfold compactLevelTable. destruct (Nat.leb_spec (MaxLevels - 1) fromLevel) as [|Hlt]; [by left|].
  right. exists fromLevel, (S fromLevel), [pick]. split; [|done]. split.
  - unfold MaxLevels in *. lia.
  - by intros t ->%list_elem_of_singleton.
  - apply NoDup_singleton.
  - intros t p Ht Hno ->%list_elem_of_singleton. apply (level_apart st fromLevel); try done.
    intros ->. by apply (Hno pick); [left|].
  - intros q t p Hq. lia.
Qed.

Lemma compactLevel_step env st fromLevel :
  lsm_ok st -> (1 <= fromLevel)%nat -> is_step env st (compactLevel env st fromLevel).
Proof.
  intros Hok Hf. unfold compactLevel. case_if; [by left|].
  destruct (level (levels st) fromLevel) as [|pick rest] eqn:E; [by left|].
  apply compactLevelTable_step; [done|done|]. rewrite E. left.
Qed.

Section choose.
Context (fileSize : Table -> Z) (opts : Options).

Lemma limitsLoop_base lvl below limits base :
  (1 <= base < MaxLevels)%nat -> (lvl < base)%nat -> (1 <= (limitsLoop opts lvl below limits base).2 < MaxLevels)%nat.
Proof.
  revert below limits base. induction lvl as [|lvl IH]; intros below limits base Hb Hl; simpl; [done|].
  case_if; apply IH; lia.
Qed.

Lemma findBaseLevel_range ls : (1 <= findBaseLevel fileSize opts ls < MaxLevels)%nat.
Proof.
  unfold findBaseLevel, calcLevelLimits. cbv zeta. set (l := if _ <? _ then _ else _).
  pose proof (limitsLoop_base (MaxLevels - 2) l [l] (MaxLevels - 1)) as H.
  destruct (limitsLoop opts (MaxLevels - 2) l [l] (MaxLevels - 1)). apply H; unfold MaxLevels; lia.
Qed.

(** No level above the base level holds a key of level 0. *)
Definition base_clear (st : Lsm) : Prop :=
  forall q t p, (0 < q < findBaseLevel fileSize opts (levels st))%nat ->
    t ∈ level (levels st) q -> p ∈ level (levels st) 0 -> apart t p.

(** Enough for that: the levels in between are empty. *)
Definition between_empty (st : Lsm) : bool :=
  forallb (fun q => match level (levels st) q with [] => true | _ => false end) (seq 1 (findBaseLevel fileSize opts (levels st) - 1)).

Lemma between_empty_clear st : between_empty st = true -> base_clear st.
Proof.
  unfold between_empty. rewrite forallb_forall. intros H q t p Hq Ht. specialize (H q ltac:(apply in_seq; lia)). cbn beta in H.
  destruct (level (levels st) q); [by apply elem_of_nil in Ht|done].
Qed.

Lemma compactLevel0_step env st : lsm_ok st -> base_clear st -> is_step env st (compactLevel0 fileSize opts env st).
Proof.
  intros Hok Hclear. unfold compactLevel0. destruct (level (levels st) 0) as [|t0 l0] eqn:E; [by left|]. rewrite <- E.
  destruct (findBaseLevel_range (levels st)) as [Hb1 Hb2]. right. do 3 eexists. split; [|reflexivity]. split.
  - lia.
  - done.
  - by apply level_NoDup.
  - intros t p Ht Hno _. by destruct (Hno t Ht).
  - exact Hclear.
Qed.

Lemma tombstoneVictim_in lvls ls lvl t :
  tombstoneVictimFrom lvls ls = Some (lvl, t) -> t ∈ level ls lvl.
Proof.
  induction lvls as [|l lvls IH]; simpl; [done|]. destruct (filter _ (level ls l)) as [|v vs] eqn:E; [done|].
  intros [= <- <-]. assert (v ∈ filter (fun t => float_gt (tb_ratio t) tombstoneCompactionRatio = true) (level ls l)) as Hv
    by (rewrite E; left). by apply list_elem_of_filter in Hv as [_ ?].
Qed.

Lemma Compact_step env st : lsm_ok st -> base_clear st -> is_step env st (Compact fileSize opts env st).
Proof.
  intros Hok Hclear. unfold Compact. destruct (tombstoneVictim (levels st)) as [[lvl victim]|] eqn:Ev.
  - apply tombstoneVictim_in in Ev. destruct lvl as [|lvl]; [by apply compactLevel0_step|].
    apply compactLevelTable_step; [done|lia|done].
  - cbv zeta. destruct (if _ <=? _ then _ else _) as [best score]. destruct (bestLevelFrom _ _ _ _ _ _) as [[|lvl]|].
    + by apply compactLevel0_step.
    + apply compactLevel_step; [done|lia].
    + by left.
Qed.

End choose.

(** ** The order of the levels as a test *)

Fixpoint orderedb {A} (R : A -> A -> bool) (l : list A) : bool :=
  match l with [] => true | x :: l => forallb (R x) l && orderedb R l end.

Lemma orderedb_spec {A} (Rb : A -> A -> bool) (R : A -> A -> Prop) (l : list A) :
  (forall x y, Rb x y = true -> R x y) -> orderedb Rb l = true -> StronglySorted R l.
Proof.
  intros HR. induction l as [|x l IH]; simpl; intros H; constructor; bool_prop; [auto|].
  apply Forall_forall. intros y Hy. apply HR. rewrite forallb_forall in H. by apply H, list_elem_of_In.
Qed.

Definition version_leb (a b : Entry) : bool :=
  bytes_ltb (Key a) (Key b) || (bytes_eqb (Key a) (Key b) && (Version b <=? Version a)).

Definition table_okb (t : Table) : bool :=
  orderedb version_leb (tb_entries t) && forallb (inRange t) (Key <$> tb_entries t) && forallb indexable (tb_entries t).

Lemma table_okb_spec t : table_okb t = true -> table_ok t.
Proof.
  unfold table_okb. rewrite !andb_true_iff. intros [[Hs Hr] Hkeys]. split.
  - eapply orderedb_spec; [|exact Hs]. unfold version_leb, version_le. intros x y Hxy. apply orb_true_iff in Hxy as [Hxy|Hxy].
    + left. by apply bytes_ltb_spec.
    + apply andb_true_iff in Hxy as [Hk Hv]. right. split; [by apply bytes_eqb_spec|lia].
  - intros e He. rewrite forallb_forall in Hr. specialize (Hr (Key e)). unfold inRange in Hr.
    rewrite andb_true_iff, !bytes_leb_spec in Hr. apply Hr, list_elem_of_In. by apply list_elem_of_fmap_2.
  - intros e He. rewrite forallb_forall in Hkeys. by apply Hkeys, list_elem_of_In.
Qed.

Definition pairsb (P : Entry -> Entry -> bool) (l k : list Entry) : bool := forallb (fun a => forallb (P a) k) l.

Definition lsm_okb (st : Lsm) : bool :=
  Nat.eqb (length (levels st)) MaxLevels && forallb table_okb (searchOrder (levels st)) &&
  orderedb (fun t u => pairsb (fun a b => negb (bytes_eqb (Key a) (Key b)) || (Version b <? Version a)) (tb_entries t) (tb_entries u))
    (searchOrder (levels st)) &&
  pairsb (fun a b => negb (bytes_eqb (Key a) (Key b) && (Version a =? Version b)) || bool_decide (a = b))
    (allEntries (levels st)) (allEntries (levels st)) &&
  forallb (fun p => orderedb (fun t u => pairsb (fun a b => negb (bytes_eqb (Key a) (Key b))) (tb_entries t) (tb_entries u))
    (level (levels st) p)) (seq 1 4) &&
  bool_decide (NoDup (tb_seq <$> searchOrder (levels st))) &&
  forallb (fun t => tb_seq t <=? lsm_nextSeq st) (searchOrder (levels st)) && wholeLevels (levels st).

Lemma pairsb_spec P l k a b : pairsb P l k = true -> a ∈ l -> b ∈ k -> P a b = true.
Proof.
  unfold pairsb. rewrite forallb_forall. intros H Ha Hb. specialize (H a ltac:(by apply list_elem_of_In)).
  rewrite forallb_forall in H. by apply H, list_elem_of_In.
Qed.

Lemma lsm_okb_spec st : lsm_okb st = true -> lsm_ok st.
Proof.
  unfold lsm_okb. rewrite !andb_true_iff. intros (((((((H1 & H2) & H3) & H4) & H5) & H6) & H7) & H8). apply Nat.eqb_eq in H1.
  rewrite forallb_forall in H2, H5, H7. split.
  - done.
  - intros p t Ht. assert (In t (searchOrder (levels st))) as Hin by (apply list_elem_of_In, elem_of_searchOrder; eauto).
    by apply table_okb_spec, H2.
  - eapply orderedb_spec; [|exact H3]. intros t u Htu a b Ha Hb Hk. pose proof (pairsb_spec _ _ _ _ _ Htu Ha Hb) as H.
    simpl in H. rewrite Hk, bytes_eqb_refl in H. simpl in H. lia.
  - intros a b Ha Hb Hk Hv. pose proof (pairsb_spec _ _ _ _ _ H4 Ha Hb) as H. simpl in H.
    rewrite Hk, bytes_eqb_refl, Hv, Z.eqb_refl in H. simpl in H. by apply bool_decide_eq_true in H.
  - intros p Hp. destruct (Nat.lt_ge_cases p 5) as [Hlt|Hge].
    + specialize (H5 p ltac:(apply in_seq; lia)). eapply orderedb_spec; [|exact H5].
      intros t u Htu a b Ha Hb Hk. pose proof (pairsb_spec _ _ _ _ _ Htu Ha Hb) as H. simpl in H. by rewrite Hk, bytes_eqb_refl in H.
    + unfold level. rewrite lookup_ge_None_2 by (rewrite H1; unfold MaxLevels; lia). exact (SSorted_nil _).
  - by apply bool_decide_eq_true in H6.
  - intros p t Ht. apply Z.leb_le, H7, list_elem_of_In, elem_of_searchOrder. eauto.
  - by apply wholeLevels_spec.
Qed.

Module CompactionWitness.

Definition tbl (seq : Z) (es : list Entry) : Table := createTable seq es 0.
Definition opts : Options := mkOptions 1000 10 1.
Definition size (t : Table) : Z := 100.
Definition env : CompactEnv := mkCompactEnv 50 30 30 0.

(** A new value and a tombstone in level 0 over old values in the last level. *)
Definition good : Lsm :=
  mkLsm [[tbl 3 [mkEntry [97] [1] false 0 20; mkEntry [98] [] true 0 21; mkEntry [99] [4] false 0 22]]; []; []; [];
         [tbl 1 [mkEntry [97] [9] false 0 5; mkEntry [98] [8] false 0 6]]] 3 [] [] [] [].


(** The same keys, with the old values in level 3. *)
Definition skipped : Lsm :=
  mkLsm [[tbl 3 [mkEntry [97] [1] false 0 20; mkEntry [98] [] true 0 21; mkEntry [99] [4] false 0 22]]; []; [];
         [tbl 1 [mkEntry [97] [9] false 0 5; mkEntry [98] [8] false 0 6]]; []] 3 [] [] [] [].

End CompactionWitness.

(** Compacting level 0 past a level brings old data back.  The base level
    depends on the size of the last level only, so when the last level is
    small the tables of level 0 go there even if level 3 holds tables (filled
    while the last level was larger).  In the state below the levels are in
    order; before the compaction key "a" reads its new value and "b" is
    deleted, after it "a" reads the overwritten value and "b" exists again. *)
Theorem compactLevel0_stale :
  let st := CompactionWitness.skipped in
  let st' := Compact CompactionWitness.size CompactionWitness.opts CompactionWitness.env st in
  lsm_ok st /\
  seen 60 (readLevels (levels st) [97] 100) = Some ([1], 0) /\ seen 60 (readLevels (levels st') [97] 100) = Some ([9], 0) /\
  seen 60 (readLevels (levels st) [98] 100) = None /\ seen 60 (readLevels (levels st') [98] 100) = Some ([8], 0).
Proof. intros st st'. split; [apply lsm_okb_spec; by vm_compute|by vm_compute]. Qed.
