(* ===== verification/Manifest.v ===== *)
(** * The manifest ([engine_flush.go])

    The log of table additions and removals that says, on reopening, which
    files belong to which level.  Records are framed with a length and a
    checksum; [readManifest] replays them and cuts off a torn tail.  The
    theorems: a replay reads back every record written before a crash; the
    log of flushes and compactions describes the levels; and the cut is made
    at the wrong place, so that reopening twice loses tables. *)

From S2P Require Import Prelude Mvcc Checksum SkipList SstBlock SstTable Iterator Compaction.

(** ** Writing *)

Definition encodeManifestRecord (r : ManifestRec) : bytes :=
  [mr_action r; u8 (mr_level r)] ++ be_encode 8 (mr_seq r) ++ be_encode 4 (Z.of_nat (length (mr_min r)))
    ++ be_encode 4 (Z.of_nat (length (mr_max r))) ++ mr_min r ++ mr_max r.

(** Length, checksum, data. *)
Definition manifestFrame (r : ManifestRec) : bytes :=
  let data := encodeManifestRecord r in
  be_encode 4 (Z.of_nat (length data)) ++ be_encode 4 (u32 (crc32 data)) ++ data.

Definition appendManifest (file : bytes) (r : ManifestRec) : bytes := file ++ manifestFrame r.

(** [compactManifest]: the file is rewritten from the levels. *)
Definition compactManifest (ls : list (list Table)) : bytes :=
  concat (imap (fun lvl tables => tables ≫= (fun t => manifestFrame (additionRec lvl t))) ls).

(** ** Reading *)

Definition applyManifest (levels : gmap Z Z) (action level seqNum : Z) : gmap Z Z :=
  if action =? actA then <[seqNum := level]> levels
  else if action =? actD then delete seqNum levels
  else levels.

(** The loop of [readManifest]: levels by file number, and [lastValidOffset];
    a round consumes at least eight bytes. *)
Fixpoint readManifestLoop (fuel : nat) (r : bytes) (levels : gmap Z Z) (lastValidOffset : Z) : gmap Z Z * Z :=
  match fuel with
  | O => (levels, lastValidOffset)
  | S fuel =>
      if Nat.ltb (length r) 4 then (levels, lastValidOffset)
      else
        let dataLen := be_decode (take 4 r) in
        if 10 * 1024 * 1024 <? dataLen then (levels, lastValidOffset)
        else if Nat.ltb (length r) 8 then (levels, lastValidOffset)
        else
          let expectedCRC := be_decode (slice r 4 8) in
          let n := Z.to_nat dataLen in
          if Nat.ltb (length r) (8 + n) then (levels, lastValidOffset)
          else
            let data := slice r 8 (8 + n) in
            if negb (u32 (crc32 data) =? expectedCRC) then (levels, lastValidOffset)
            else
              let recordEnd := 8 + dataLen in
              let levels :=
                if Nat.ltb (length data) 18 then levels
                else applyManifest levels (be_decode (slice data 0 1)) (be_decode (slice data 1 2)) (be_decode (slice data 2 10)) in
              readManifestLoop fuel (drop (8 + n) r) levels recordEnd
  end.

(** The levels, and the file after [Truncate]. *)
Definition readManifest (file : bytes) : gmap Z Z * bytes :=
  let '(levels, lastValidOffset) := readManifestLoop (S (length file)) file ∅ 0 in
  (levels, if 0 <? lastValidOffset then take (Z.to_nat lastValidOffset) file else file).

(** ** Replaying records *)

Definition replayRec (levels : gmap Z Z) (r : ManifestRec) : gmap Z Z :=
  applyManifest levels (mr_action r) (u8 (mr_level r)) (mr_seq r).

Definition replay (rs : list ManifestRec) : gmap Z Z := foldl replayRec ∅ rs.

(** Records that the format can hold. *)
Definition rec_ok (r : ManifestRec) : Prop :=
  is_u8 (mr_action r) /\ is_u64 (mr_seq r) /\ Z.of_nat (length (mr_min r) + length (mr_max r)) <= 10000000.

Lemma length_encodeManifestRecord r :
  length (encodeManifestRecord r) = (18 + length (mr_min r) + length (mr_max r))%nat.
Proof. unfold encodeManifestRecord. rewrite !length_app, !length_be_encode. simpl. lia. Qed.

(** One round on a whole record. *)
Lemma readManifest_record fuel r rest levels off :
  rec_ok r ->
  readManifestLoop (S fuel) (manifestFrame r ++ rest) levels off =
  readManifestLoop fuel rest (replayRec levels r) (Z.of_nat (length (manifestFrame r))).
Proof.
  intros (Ha & Hs & Hk). set (data := encodeManifestRecord r).
  assert (length data = (18 + length (mr_min r) + length (mr_max r))%nat) as Hd by apply length_encodeManifestRecord.
  assert (manifestFrame r = be_encode 4 (Z.of_nat (length data)) ++ be_encode 4 (u32 (crc32 data)) ++ data) as Hf by done.
  assert (length (manifestFrame r) = (8 + length data)%nat) as Hl by (rewrite Hf, !length_app, !length_be_encode; lia).
  cbn [readManifestLoop]. set (R := manifestFrame r ++ rest).
  assert (length R = (8 + length data + length rest)%nat) as HR by (unfold R; rewrite length_app; lia).
  destruct (Nat.ltb_spec (length R) 4); [lia|]. cbv zeta.
  assert (take 4 R = be_encode 4 (Z.of_nat (length data))) as ->.
  { unfold R. rewrite Hf, <- app_assoc. by rewrite take_app_length' by done. }
  rewrite be_decode_encode_id by (change (256 ^ Z.of_nat 4) with (2 ^ 32); lia).
  destruct (Z.ltb_spec (10 * 1024 * 1024) (Z.of_nat (length data))); [lia|].
  destruct (Nat.ltb_spec (length R) 8); [lia|]. rewrite Nat2Z.id.
  destruct (Nat.ltb_spec (length R) (8 + length data)); [lia|].
  assert (slice R 4 8 = be_encode 4 (u32 (crc32 data))) as ->.
  { unfold R. rewrite Hf, <- !app_assoc. by apply slice_mid; rewrite !length_be_encode. }
  assert (slice R 8 (8 + length data) = data) as ->.
  { unfold R. rewrite Hf, <- !app_assoc, app_assoc. apply slice_mid; rewrite length_app, !length_be_encode; lia. }
  rewrite be_decode_encode_id by apply u32_range. rewrite Z.eqb_refl. cbn [negb].
  destruct (Nat.ltb_spec (length data) 18); [lia|].
  assert (drop (8 + length data) R = rest) as -> by (unfold R; apply drop_app_length'; lia).
  assert (slice data 0 1 = [mr_action r]) as -> by done. assert (slice data 1 2 = [u8 (mr_level r)]) as -> by done.
  assert (slice data 2 10 = be_encode 8 (mr_seq r)) as ->.
  { unfold data, encodeManifestRecord. apply slice_mid; [done|by rewrite length_be_encode]. }
  rewrite (be_decode_encode_id 8) by exact Hs.
  assert (forall x, be_decode [x] = x) as Hone by (intros x; unfold be_decode; simpl; lia).
  rewrite !Hone, Hl. f_equal. lia.
Qed.

(** A tail that is not a whole frame ends the loop. *)
Definition torn (tail : bytes) : Prop :=
  exists r, rec_ok r /\ exists k, (k < length (manifestFrame r))%nat /\ tail = take k (manifestFrame r).

Lemma readManifest_torn fuel tail levels off : torn tail -> readManifestLoop fuel tail levels off = (levels, off).
Proof.
  intros (r & (Ha & Hs & Hk) & k & Hlt & ->). destruct fuel as [|fuel]; [done|]. set (data := encodeManifestRecord r).
  assert (length data = (18 + length (mr_min r) + length (mr_max r))%nat) as Hd by apply length_encodeManifestRecord.
  assert (manifestFrame r = be_encode 4 (Z.of_nat (length data)) ++ be_encode 4 (u32 (crc32 data)) ++ data) as Hf by done.
  assert (length (manifestFrame r) = (8 + length data)%nat) as Hl by (rewrite Hf, !length_app, !length_be_encode; lia).
  cbn [readManifestLoop]. rewrite length_take, Nat.min_l by lia. destruct (Nat.ltb_spec k 4); [done|].
  rewrite take_take, Nat.min_l by lia.
  assert (take 4 (manifestFrame r) = be_encode 4 (Z.of_nat (length data))) as ->
    by (rewrite Hf; by rewrite take_app_length' by done).
  rewrite be_decode_encode_id by (change (256 ^ Z.of_nat 4) with (2 ^ 32); lia). cbv zeta.
  destruct (Z.ltb_spec (10 * 1024 * 1024) (Z.of_nat (length data))); [lia|].
  destruct (Nat.ltb_spec k 8); [done|]. rewrite Nat2Z.id.
  by destruct (Nat.ltb_spec k (8 + length data)); [|lia].
Qed.

Lemma readManifest_loop rs tail fuel levels off :
  Forall rec_ok rs -> torn tail -> (length rs < fuel)%nat ->
  (readManifestLoop fuel ((rs ≫= manifestFrame) ++ tail) levels off).1 = foldl replayRec levels rs.
Proof.
  intros Hrs Ht. revert fuel levels off. induction Hrs as [|r rs Hr _ IH]; intros fuel levels off Hf.
  - simpl. by rewrite readManifest_torn.
  - destruct fuel as [|fuel]; simpl in Hf; [lia|]. rewrite bind_cons, <- app_assoc, readManifest_record by done.
    cbn [foldl]. apply IH. lia.
Qed.

Lemma frames_length rs : (length rs <= length (rs ≫= manifestFrame))%nat.
Proof.
  induction rs as [|r rs IH]; [done|]. rewrite bind_cons, length_app.
  assert (1 <= length (manifestFrame r))%nat by (unfold manifestFrame; rewrite length_app, length_be_encode; lia).
  cbn [length]. lia.
Qed.

Lemma readManifest_spec rs tail :
  Forall rec_ok rs -> torn tail -> (readManifest ((rs ≫= manifestFrame) ++ tail)).1 = replay rs.
Proof.
  intros Hrs Ht. unfold readManifest.
  pose proof (readManifest_loop rs tail (S (length ((rs ≫= manifestFrame) ++ tail))) ∅ 0 Hrs Ht) as H.
  destruct (readManifestLoop _ _ _ _) as [levels off]. apply H. rewrite length_app. pose proof (frames_length rs). lia.
Qed.

(** C29. The manifest survives a crash.  For records the format can hold,
    followed by any proper prefix of one more record, [readManifest] replays
    exactly the complete records: an addition puts the file in its level, a
    removal takes it out. *)
Theorem readManifest_replays rs tail :
  Forall rec_ok rs -> torn tail -> (readManifest ((rs ≫= manifestFrame) ++ tail)).1 = replay rs.
Proof. apply readManifest_spec. Qed.

(** ** The log and the levels *)

(** The log maps exactly the files of the levels to their levels. *)
Definition tracks (st : Lsm) : Prop :=
  forall seq lvl, replay (lsm_manifest st) !! seq = Some lvl <->
    exists p t, lvl = Z.of_nat p /\ t ∈ level (levels st) p /\ tb_seq t = seq.

Lemma replay_removals m lvl ts seq :
  foldl replayRec m (removalRec lvl <$> ts) !! seq = if decide (seq ∈ tb_seq <$> ts) then None else m !! seq.
Proof.
  revert m. induction ts as [|t ts IH]; intros m; [done|]. rewrite !fmap_cons. cbn [foldl]. rewrite IH.
  change (replayRec m (removalRec lvl t)) with (delete (tb_seq t) m).
  destruct (decide (seq ∈ tb_seq <$> ts)) as [Hin|Hout].
  - by rewrite decide_True by (by right).
  - destruct (decide (seq = tb_seq t)) as [->|Hne].
    + rewrite lookup_delete_eq. by rewrite decide_True by left.
    + rewrite lookup_delete_ne by done. rewrite decide_False; [done|]. by intros [?|?]%elem_of_cons.
Qed.

Lemma replay_additions m lvl ts seq :
  (lvl < 256)%nat ->
  foldl replayRec m (additionRec lvl <$> ts) !! seq = if decide (seq ∈ tb_seq <$> ts) then Some (Z.of_nat lvl) else m !! seq.
Proof.
  intros Hl. revert m. induction ts as [|t ts IH]; intros m; [done|]. rewrite !fmap_cons. cbn [foldl]. rewrite IH.
  assert (replayRec m (additionRec lvl t) = <[tb_seq t := Z.of_nat lvl]> m) as ->.
  { unfold replayRec, applyManifest, additionRec. simpl. f_equal. unfold u8. apply Z.mod_small. lia. }
  destruct (decide (seq ∈ tb_seq <$> ts)) as [Hin|Hout].
  - by rewrite decide_True by (by right).
  - destruct (decide (seq = tb_seq t)) as [->|Hne].
    + rewrite lookup_insert_eq. by rewrite decide_True by left.
    + rewrite lookup_insert_ne by done. rewrite decide_False; [done|]. by intros [?|?]%elem_of_cons.
Qed.

Lemma manifest_after env st from picks to :
  lsm_manifest (compactInto env st from picks to) =
  lsm_manifest st ++ (removalRec to <$> overlaps st to picks) ++ (removalRec from <$> picks)
    ++ (additionRec to <$> added env st to picks).
Proof.
  unfold compactInto, added, newTables, inputs, overlaps. cbv zeta. by destruct (drainMergedIterator _ _ _ _ _).
Qed.

Lemma step_tracks env st from to picks :
  lsm_ok st -> valid_step st from to picks -> tracks st -> tracks (compactInto env st from picks to).
Proof.
  intros Hok [[H1 H2] H3 H4 H5] Ht seq lvl. unfold replay. rewrite manifest_after, !foldl_app. fold (replay (lsm_manifest st)).
  rewrite replay_additions, !replay_removals by (unfold MaxLevels in *; lia).
  assert (forall p t, t ∈ level (levels (compactInto env st from picks to)) p <->
    (t ∈ level (levels st) p /\ t ∉ picks /\ t ∉ overlaps st to picks) \/ (p = to /\ t ∈ added env st to picks)) as Hl.
  { intros p t. split.
    - intros [(?&?&?&_)|[-> ?]]%(level_after_cases env st from to picks Hok H1 H2 H3); auto.
    - intros [(?&?&?)|[-> Ha]]; [by apply untouched|]. rewrite level_after by done.
      destruct (decide (to = from)); [lia|]. destruct (decide (to = to)); [|done].
      rewrite sortTables_perm. apply elem_of_app. by right. }
  destruct (added_seqs env st from to picks H1 H2) as (_ & _ & Hnew).
  assert (forall p t u, t ∈ level (levels st) p -> u ∈ added env st to picks -> tb_seq t <> tb_seq u) as Hfresh.
  { intros p t u Htp Hu. specialize (Hnew u Hu). pose proof (lo_seq _ Hok p t Htp). lia. }
  destruct (decide (seq ∈ tb_seq <$> added env st to picks)) as [Ha|Ha].
  - apply list_elem_of_fmap in Ha as (u & -> & Hu). split.
    + intros [= <-]. exists to, u. split_and!; [done|apply Hl; by right|done].
    + intros (p & t & -> & [(Htl & _)|[-> Hta]]%Hl & Hs); [by destruct (Hfresh p t u)|done].
  - assert (forall t, (t ∈ picks \/ t ∈ overlaps st to picks) -> exists q, t ∈ level (levels st) q) as Hold.
    { intros t [?|?%overlaps_in]; eauto. }
    split.
    + intros Hr. assert (seq ∉ tb_seq <$> picks /\ seq ∉ tb_seq <$> overlaps st to picks /\
        replay (lsm_manifest st) !! seq = Some lvl) as (Hp & Ho & Hm) by (repeat (destruct (decide _); [done|]); done).
      apply Ht in Hm as (p & t & -> & Htp & <-). exists p, t. split_and!; [done| |done]. apply Hl. left.
      split_and!; [done|intros ?; by apply Hp, list_elem_of_fmap_2|intros ?; by apply Ho, list_elem_of_fmap_2].
    + intros (p & t & -> & [(Htl & Htp & Hto)|[-> Hta]]%Hl & <-); [|by destruct Ha; apply list_elem_of_fmap_2].
      assert (forall ts : list Table, (forall u, u ∈ ts -> exists q, u ∈ level (levels st) q) -> t ∉ ts -> tb_seq t ∉ tb_seq <$> ts) as Hnot.
      { intros ts Hts Hnt (u & E & Hu)%list_elem_of_fmap. destruct (Hts u Hu) as [q Hq].
        by rewrite (same_seq st p q t u Hok Htl Hq E) in Hnt. }
      rewrite !decide_False by (apply Hnot; auto). apply Ht. eauto.
Qed.

(** C30. The manifest describes the levels.  If the log maps exactly the files
    of the levels to their levels, it still does after [Compact]: every input
    table is logged as removed, every output table as added to the level it
    is in, and nothing else changes. *)
Theorem manifest_tracks_levels fileSize opts env st :
  lsm_ok st -> base_clear fileSize opts st -> tracks st -> tracks (Compact fileSize opts env st).
Proof.
  intros Hok Hclear Ht.
  destruct (Compact_step fileSize opts env st Hok Hclear) as [->|(from & to & picks & Hs & ->)]; [done|].
  by apply step_tracks.
Qed.

Module ManifestWitness.
Import CompactionWitness.

Definition recs : list ManifestRec :=
  [mkManifestRec actA 0 1 [97] [99]; mkManifestRec actA 0 2 [98] [100]; mkManifestRec actD 0 1 [97] [99]; mkManifestRec actA 4 3 [97] [100]].

Lemma recs_ok : Forall rec_ok recs.
Proof. repeat constructor; by vm_compute. Qed.

(** A crash in the middle of a fifth record. *)
Lemma readManifest_replays_witness :
  (readManifest ((recs ≫= manifestFrame) ++ take 11 (manifestFrame (mkManifestRec actA 0 4 [97] [98])))).1 = replay recs /\
  replay recs = {[ 2 := 0; 3 := 4 ]}.
Proof.
  split; [|by vm_compute]. apply (readManifest_replays recs); [apply recs_ok|].
  exists (mkManifestRec actA 0 4 [97] [98]). split; [repeat split; by vm_compute|]. exists 11%nat. split; [|done].
  apply (Nat.ltb_lt 11). by vm_compute.
Defined.

Definition logged : Lsm :=
  mkLsm (levels good) 3 [mkManifestRec actA 0 1 [97] [98]; mkManifestRec actD 0 1 [97] [98];
    mkManifestRec actA 4 1 [97] [98]; mkManifestRec actA 0 3 [97] [99]] [] [] [].

Lemma manifest_tracks_levels_witness : tracks (Compact size opts env logged).
Proof.
  apply (manifest_tracks_levels size opts env logged); [apply lsm_okb_spec; by vm_compute| |].
  - intros q t p Hq Ht. assert (findBaseLevel size opts (levels logged) = 4%nat) as Hb by (by vm_compute). rewrite Hb in Hq.
    destruct q as [|[|[|[|q]]]]; [lia|by apply elem_of_nil in Ht..|lia].
  - intros seq lvl. assert (replay (lsm_manifest logged) = {[ 1 := 4; 3 := 0 ]}) as -> by (by vm_compute). split.
    + intros [[<- <-]|[_ [<- <-]%lookup_singleton_Some]]%lookup_insert_Some.
      * exists 4%nat, (tbl 1 [mkEntry [97] [9] false 0 5; mkEntry [98] [8] false 0 6]). split_and!; [done|left|done].
      * eexists 0%nat, _. split_and!; [done|left|done].
    + intros (p & t & -> & Ht & <-). destruct p as [|[|[|[|[|p]]]]]; try by apply elem_of_nil in Ht.
      * apply list_elem_of_singleton in Ht as ->. by vm_compute.
      * apply list_elem_of_singleton in Ht as ->. by vm_compute.
Defined.
End ManifestWitness.

(** Reopening twice loses tables.  [readManifest] remembers the length of
    the last record instead of the offset of its end and truncates the file
    there.  A log that says three tables reads back correctly once; the file
    it leaves behind is a single record long, and the next open finds one
    table, after which the engine deletes the files of the other two. *)
Theorem readManifest_truncates :
  let file := [mkManifestRec actA 0 1 [97] [99]; mkManifestRec actA 0 2 [98] [100]; mkManifestRec actA 0 3 [97] [98]]
    ≫= manifestFrame in
  let '(levels, file') := readManifest file in
  levels = {[ 1 := 0; 2 := 0; 3 := 0 ]} /\ (length file' < length file)%nat /\ (readManifest file').1 = {[ 1 := 0 ]}.
Proof. vm_compute. split_and!; [done|lia|done]. Qed.
