(* ===== verification/Strconv.v ===== *)
(** * Decimal integers (Go's [strconv], as the engine and the server use it)

    [FormatInt(n, 10)] and [ParseInt(s, 10, 64)]: counters are stored as
    decimal text and the protocol writes lengths the same way.  Proved: a
    formatted int64 parses to itself, and [ParseInt] yields only int64s. *)

From S2P Require Import Prelude.

(** ASCII. *)
Definition chMinus : Z := 45.
Definition chPlus : Z := 43.
Definition chZero : Z := 48.

(** Least significant digit first on the stack; twenty rounds are enough for a
    uint64. *)
Fixpoint formatLoop (fuel : nat) (n : Z) (acc : bytes) : bytes :=
  match fuel with
  | O => acc
  | S fuel =>
      if n <? 10 then chZero + n :: acc
      else formatLoop fuel (n / 10) (chZero + n mod 10 :: acc)
  end.

Definition FormatUint (n : Z) : bytes := formatLoop 20 n [].

Definition FormatInt (n : Z) : bytes :=
  if n <? 0 then chMinus :: FormatUint (- n) else FormatUint n.

(** [None] stands for the syntax error. *)
Fixpoint parseDigits (s : bytes) (n : Z) : option Z :=
  match s with
  | [] => Some n
  | c :: s => if (chZero <=? c) && (c <=? chZero + 9) then parseDigits s (n * 10 + (c - chZero)) else None
  end.

Definition ParseUint (s : bytes) : option Z :=
  match s with
  | [] => None
  | _ =>
      match parseDigits s 0 with
      | Some n => if n <=? max_u64 then Some n else None
      | None => None
      end
  end.

Definition ParseInt (s : bytes) : option Z :=
  let '(neg, digits) :=
    match s with
    | c :: s' => if c =? chPlus then (false, s') else if c =? chMinus then (true, s') else (false, s)
    | [] => (false, [])
    end in
  match ParseUint digits with
  | None => None
  | Some un =>
      if negb neg && (2 ^ 63 <=? un) then None
      else if neg && (2 ^ 63 <? un) then None
      else Some (if neg then - un else un)
  end.

(** ** Round trip *)

Lemma parseDigits_app s1 s2 n :
  parseDigits (s1 ++ s2) n = match parseDigits s1 n with Some m => parseDigits s2 m | None => None end.
Proof. revert n. induction s1 as [|c s1 IH]; intros n; simpl; [done|]. case_if; [apply IH|done]. Qed.

Lemma parseDigits_digit d n : 0 <= d < 10 -> parseDigits [chZero + d] n = Some (n * 10 + d).
Proof.
  intros Hd. unfold parseDigits, chZero. rewrite (proj2 (Z.leb_le _ _)), (proj2 (Z.leb_le _ _)) by lia.
  cbn [andb]. f_equal. lia.
Qed.

(** The digits of [n], in front of whatever is on the stack. *)
Lemma formatLoop_spec fuel n acc :
  0 <= n < 10 ^ Z.of_nat fuel -> (0 < fuel)%nat ->
  exists c ds, formatLoop fuel n acc = (c :: ds) ++ acc /\ parseDigits (c :: ds) 0 = Some n /\ chZero <= c <= chZero + 9.
Proof.
  revert n acc. induction fuel as [|fuel IH]; intros n acc Hn Hf; [lia|]. cbn [formatLoop].
  destruct (Z.ltb_spec n 10).
  { exists (chZero + n), []. split; [done|]. split; [rewrite parseDigits_digit by lia; f_equal; lia|lia]. }
  pose proof (Z.div_mod n 10). pose proof (Z.mod_pos_bound n 10). rewrite Nat2Z.inj_succ, Z.pow_succ_r in Hn by lia.
  destruct fuel as [|fuel]; [simpl in Hn; lia|].
  destruct (IH (n / 10) (chZero + n mod 10 :: acc)) as (c & ds & -> & Hp & Hc); [|lia|].
  { split; [apply Z.div_pos; lia|]. apply Z.div_lt_upper_bound; lia. }
  exists c, (ds ++ [chZero + n mod 10]). split; [simpl; by rewrite <- app_assoc|]. split; [|done].
  rewrite app_comm_cons, parseDigits_app, Hp, parseDigits_digit by lia. f_equal. lia.
Qed.

Lemma ParseUint_FormatUint n :
  is_u64 n -> ParseUint (FormatUint n) = Some n /\ exists c ds, FormatUint n = c :: ds /\ chZero <= c <= chZero + 9.
Proof.
  intros Hn. destruct (formatLoop_spec 20 n []) as (c & ds & Hf & Hp & Hc); [unfold is_u64 in Hn; lia|lia|].
  unfold FormatUint. rewrite Hf, app_nil_r. split; [|by eexists _, _]. unfold ParseUint. rewrite Hp.
  rewrite (proj2 (Z.leb_le _ _)); [done|]. unfold is_u64 in Hn. unfold max_u64. lia.
Qed.

Lemma ParseInt_FormatInt n : is_i64 n -> ParseInt (FormatInt n) = Some n.
Proof.
  intros Hn. unfold is_i64 in Hn. unfold FormatInt, ParseInt. destruct (Z.ltb_spec n 0).
  - change (chMinus =? chPlus) with false. change (chMinus =? chMinus) with true. cbn [negb andb].
    rewrite (proj1 (ParseUint_FormatUint (- n) ltac:(unfold is_u64; lia))).
    rewrite (proj2 (Z.ltb_ge _ _)) by lia. f_equal. lia.
  - destruct (ParseUint_FormatUint n) as [Hp (c & ds & Hf & Hc)]; [unfold is_u64; lia|]. rewrite Hf in *.
    unfold chZero, chPlus, chMinus in *. rewrite (proj2 (Z.eqb_neq c 43)), (proj2 (Z.eqb_neq c 45)) by lia.
    rewrite Hp. cbn [negb andb]. by rewrite (proj2 (Z.leb_gt _ _)) by lia.
Qed.

Lemma parseDigits_nonneg s n m : 0 <= n -> parseDigits s n = Some m -> 0 <= m.
Proof.
  revert n. induction s as [|c s IH]; intros n Hn; simpl; [by intros [= <-]|]. case_if; [|done].
  unfold chZero in *. apply IH. lia.
Qed.

Lemma ParseInt_range s n : ParseInt s = Some n -> is_i64 n.
Proof.
  unfold ParseInt. destruct (match s with [] => _ | _ => _ end) as [neg digits]. unfold ParseUint.
  destruct digits as [|c digits]; [done|]. destruct (parseDigits _ 0) as [un|] eqn:E; [|done].
  apply parseDigits_nonneg in E; [|lia]. case_if; [|done]. unfold is_i64, max_u64 in *.
  destruct neg; cbn [negb andb]; case_if; intros [= <-]; lia.
Qed.

(** The text is short and consists of bytes. *)
Lemma formatLoop_bytes fuel n acc :
  0 <= n -> wf_bytes acc ->
  wf_bytes (formatLoop fuel n acc) /\ (length (formatLoop fuel n acc) <= fuel + length acc)%nat.
Proof.
  revert n acc. induction fuel as [|fuel IH]; intros n acc Hn Hacc; cbn [formatLoop]; [split; [done|lia]|].
  destruct (Z.ltb_spec n 10).
  - split; [|simpl; lia]. constructor; [unfold is_u8, chZero; lia|done].
  - pose proof (Z.mod_pos_bound n 10). destruct (IH (n / 10) (chZero + n mod 10 :: acc)) as [H1 H2].
    + apply Z.div_pos; lia.
    + constructor; [unfold is_u8, chZero; lia|done].
    + split; [done|]. simpl in *. lia.
Qed.

Lemma FormatInt_bytes n : wf_bytes (FormatInt n) /\ (length (FormatInt n) <= 21)%nat.
Proof.
  assert (forall m, 0 <= m -> wf_bytes (FormatUint m) /\ (length (FormatUint m) <= 20)%nat) as Hu.
  { intros m Hm. destruct (formatLoop_bytes 20 m []) as [H1 H2]; [lia|constructor|]. by rewrite Nat.add_0_r in H2. }
  unfold FormatInt. destruct (Z.ltb_spec n 0).
  - destruct (Hu (- n)) as [H1 H2]; [lia|]. split; [by constructor|]. cbn [length]. lia.
  - destruct (Hu n) as [H1 H2]; [lia|]. split; [done|lia].
Qed.

(** The text starts with a digit or a minus sign. *)
Lemma formatLoop_head fuel n acc :
  0 <= n -> default 0 (acc !! 0%nat) <> 1 -> default 0 (formatLoop fuel n acc !! 0%nat) <> 1.
Proof.
  revert n acc. induction fuel as [|fuel IH]; intros n acc Hn Hacc; cbn [formatLoop]; [done|].
  destruct (n <? 10); [simpl; unfold chZero; lia|]. apply IH; [apply Z.div_pos; lia|].
  simpl. pose proof (Z.mod_pos_bound n 10). unfold chZero. lia.
Qed.

Lemma FormatInt_head n : default 0 (FormatInt n !! 0%nat) <> 1.
Proof. unfold FormatInt. destruct (Z.ltb_spec n 0); [done|]. by apply formatLoop_head. Qed.
