(* ===== verification/Threshold.v ===== *)
(** * The adaptive inline threshold ([internal/vlogthreshold/tracker.go])

    A ring of the last value sizes; every full turn the cut between inline and
    value-log storage moves to a percentile of the window, clamped to the
    configured limits.  The mutex makes [Record] one step.  An index out of
    range would panic in Go: [None]. *)

From Stdlib Require Import Floats.SpecFloat.
From S2P Require Import Prelude Bloom.

Definition defaultWindow : nat := Z.to_nat 2048.

Record AdaptiveThreshold := mkThreshold {
  at_samples : list Z;
  at_sampleIdx : nat;
  at_maxSamples : nat;
  at_percentile : spec_float;
  at_currentValue : Z;
  at_minLimit : Z;
  at_maxLimit : Z;
}.

Definition float_le (a b : spec_float) : bool :=
  match SFcompare a b with Some Lt | Some Eq => true | _ => false end.
Definition float_lt (a b : spec_float) : bool := match SFcompare a b with Some Lt => true | _ => false end.

(** 0.75 *)
Definition threeQuarters : spec_float := S754_finite false 0x18000000000000 (-53).

Definition NewAdaptive (percentile : spec_float) (minLimit maxLimit : Z) : AdaptiveThreshold :=
  let percentile :=
    if float_le percentile (S754_zero false) || float_lt (float_of_int 1) percentile then threeQuarters else percentile in
  let maxLimit := if maxLimit <? minLimit then minLimit else maxLimit in
  mkThreshold (replicate defaultWindow 0) 0 defaultWindow percentile minLimit minLimit maxLimit.

(** [sort.Ints]. *)
Fixpoint insertInt (x : Z) (l : list Z) : list Z :=
  match l with [] => [x] | y :: l' => if x <=? y then x :: l else y :: insertInt x l' end.
Definition sortInts (l : list Z) : list Z := foldr insertInt [] l.

(** The position in the sorted window: [int(float64(n) * percentile)], at most
    the last one. *)
Definition rankOf (n : nat) (percentile : spec_float) : Z :=
  let rank := trunc_float (SFmul 53 1024 (float_of_int (Z.of_nat n)) percentile) in
  if Z.of_nat n <=? rank then Z.of_nat n - 1 else rank.

Definition clamp (lo hi x : Z) : Z :=
  let x := if x <? lo then lo else x in if hi <? x then hi else x.

Definition recomputeLocked (t : AdaptiveThreshold) : option AdaptiveThreshold :=
  let sorted := sortInts (at_samples t) in
  let rank := rankOf (length sorted) (at_percentile t) in
  if rank <? 0 then None
  else
    match sorted !! Z.to_nat rank with
    | None => None
    | Some target =>
        Some (mkThreshold (at_samples t) (at_sampleIdx t) (at_maxSamples t) (at_percentile t)
                (clamp (at_minLimit t) (at_maxLimit t) target) (at_minLimit t) (at_maxLimit t))
    end.

Definition AdaptiveThreshold_Record (t : AdaptiveThreshold) (size : Z) : option AdaptiveThreshold :=
  if (length (at_samples t) <=? at_sampleIdx t)%nat then None
  else
    let samples := <[at_sampleIdx t := size]> (at_samples t) in
    let idx := S (at_sampleIdx t) in
    if (at_maxSamples t <=? idx)%nat
    then recomputeLocked (mkThreshold samples 0 (at_maxSamples t) (at_percentile t) (at_currentValue t)
                            (at_minLimit t) (at_maxLimit t))
    else Some (mkThreshold samples idx (at_maxSamples t) (at_percentile t) (at_currentValue t)
                 (at_minLimit t) (at_maxLimit t)).

Definition AdaptiveThreshold_Get (t : AdaptiveThreshold) : Z := at_currentValue t.

(** ** What a run of records leads to *)

Fixpoint recordAll (t : AdaptiveThreshold) (sizes : list Z) : option AdaptiveThreshold :=
  match sizes with
  | [] => Some t
  | x :: sizes => t' ← AdaptiveThreshold_Record t x; recordAll t' sizes
  end.

Lemma recordAll_snoc t sizes x :
  recordAll t (sizes ++ [x]) = t' ← recordAll t sizes; AdaptiveThreshold_Record t' x.
Proof.
  revert t. induction sizes as [|y sizes IH]; intros t; simpl.
  - by destruct (AdaptiveThreshold_Record t x).
  - destruct (AdaptiveThreshold_Record t y); simpl; [apply IH|done].
Qed.

(** The last window of [w] sizes that was filled. *)
Definition lastWindow (w : nat) (sizes : list Z) : option (list Z) :=
  let full := (length sizes / w)%nat in
  if (full =? 0)%nat then None else Some (take w (drop (w * (full - 1)) sizes)).

(** The threshold that the sizes call for. *)
Definition expected (w : nat) (p : spec_float) (lo hi : Z) (sizes : list Z) : Z :=
  match lastWindow w sizes with
  | None => lo
  | Some win => clamp lo hi (default 0 (sortInts win !! Z.to_nat (rankOf w p)))
  end.

Lemma insertInt_perm x l : insertInt x l ≡ₚ x :: l.
Proof. induction l as [|y l IH]; simpl; [done|]. case_if; [done|]. rewrite IH. apply Permutation_swap. Qed.

Lemma sortInts_perm l : sortInts l ≡ₚ l.
Proof. induction l as [|x l IH]; simpl; [done|]. by rewrite insertInt_perm, IH. Qed.

Lemma length_sortInts l : length (sortInts l) = length l.
Proof. by rewrite sortInts_perm. Qed.

Section run.
Context (w : nat) (p : spec_float) (lo hi : Z).
Hypothesis w_pos : (0 < w)%nat.
Hypothesis rank_ok : 0 <= rankOf w p.

Lemma rank_lt : (Z.to_nat (rankOf w p) < w)%nat.
Proof. unfold rankOf in *. destruct (Z.leb_spec (Z.of_nat w) (trunc_float (SFmul 53 1024 (float_of_int (Z.of_nat w)) p))); lia. Qed.

Definition start : AdaptiveThreshold := mkThreshold (replicate w 0) 0 w p lo lo hi.

(** The ring after recording [sizes]: the part of it written since the last
    turn is the tail of [sizes]. *)
Record ring (sizes : list Z) (t : AdaptiveThreshold) : Prop := {
  rg_length : length (at_samples t) = w;
  rg_idx : at_sampleIdx t = (length sizes mod w)%nat;
  rg_tail : take (at_sampleIdx t) (at_samples t) = drop (w * (length sizes / w)) sizes;
  rg_value : at_currentValue t = expected w p lo hi sizes;
  rg_const : at_maxSamples t = w /\ at_percentile t = p /\ at_minLimit t = lo /\ at_maxLimit t = hi;
}.

Lemma ring_start : ring [] start.
Proof.
  split; simpl; rewrite ?length_replicate, ?Nat.Div0.mod_0_l, ?Nat.Div0.div_0_l; try done.
  - by rewrite drop_nil.
  - unfold expected, lastWindow. simpl. by rewrite Nat.Div0.div_0_l.
Qed.

(** The two ways of counting one more size. *)
Lemma count_step n :
  let q := (n / w)%nat in let r := (n mod w)%nat in
  (r < w)%nat /\ n = (w * q + r)%nat /\
  ((S r < w)%nat -> (S n / w)%nat = q /\ (S n mod w)%nat = S r) /\
  (S r = w -> (S n / w)%nat = S q /\ (S n mod w)%nat = 0%nat).
Proof.
  intros q r. assert (r < w)%nat as Hr by (apply Nat.mod_upper_bound; lia).
  assert (n = w * q + r)%nat as Hn by (apply Nat.div_mod_eq). split; [done|]. split; [done|].
  split; intros H.
  - assert (S n = w * q + S r)%nat as Hs by lia. split.
    + symmetry. by apply (Nat.div_unique _ _ _ (S r)).
    + symmetry. by apply (Nat.mod_unique _ _ q).
  - assert (S n = w * S q + 0)%nat as Hs by lia. split.
    + symmetry. by apply (Nat.div_unique _ _ _ 0).
    + symmetry. by apply (Nat.mod_unique _ _ (S q)).
Qed.

Lemma ring_record sizes t x :
  ring sizes t -> exists t', AdaptiveThreshold_Record t x = Some t' /\ ring (sizes ++ [x]) t'.
Proof.
  intros [Hl Hi Ht Hv (Hm & Hp & Hlo & Hhi)]. destruct (count_step (length sizes)) as (Hr & Hn & Hmore & Hwrap).
  unfold AdaptiveThreshold_Record. rewrite Hm, Hl, (proj2 (Nat.leb_gt _ _)) by lia.
  assert (take (S (at_sampleIdx t)) (<[at_sampleIdx t := x]> (at_samples t)) =
    drop (w * (length sizes / w)) (sizes ++ [x])) as Htake.
  { rewrite drop_app_le by lia. rewrite <- Ht.
    rewrite (take_S_r _ _ x) by (apply list_lookup_insert_eq; lia). f_equal. by rewrite take_insert_ge by lia. }
  assert (length (sizes ++ [x]) = S (length sizes)) as Hlen by (rewrite length_app; simpl; lia).
  destruct (Nat.leb_spec w (S (at_sampleIdx t))) as [Hge|Hlt].
  - destruct Hwrap as [Hd Hm0]; [lia|]. unfold recomputeLocked. cbn [at_samples at_percentile at_minLimit at_maxLimit].
    rewrite length_sortInts, length_insert, Hl, Hp, (proj2 (Z.ltb_ge _ _)) by done.
    assert (Some (<[at_sampleIdx t := x]> (at_samples t)) = lastWindow w (sizes ++ [x])) as Hwin.
    { unfold lastWindow. rewrite Hlen, Hd. cbn [Nat.eqb]. rewrite Nat.sub_succ, Nat.sub_0_r, <- Htake.
      rewrite take_take, Nat.min_l by lia. f_equal. symmetry. apply take_ge. rewrite length_insert. lia. }
    destruct (lookup_lt_is_Some_2 (sortInts (<[at_sampleIdx t := x]> (at_samples t))) (Z.to_nat (rankOf w p))) as [v Hv'].
    { rewrite length_sortInts, length_insert, Hl. apply rank_lt. }
    rewrite Hv'. eexists. split; [done|]. split; cbn -[Nat.div Nat.modulo Nat.mul].
    + by rewrite length_insert.
    + by rewrite Hlen.
    + rewrite Hlen, Hd. symmetry. apply drop_ge. rewrite Hlen. lia.
    + unfold expected. rewrite <- Hwin, Hv', Hlo, Hhi. done.
    + done.
  - destruct Hmore as [Hd Hm0]; [lia|]. eexists. split; [done|]. split; cbn -[Nat.div Nat.modulo Nat.mul take].
    + by rewrite length_insert.
    + rewrite Hlen. lia.
    + by rewrite Hlen, Hd.
    + rewrite Hv. unfold expected, lastWindow. rewrite Hlen, Hd. destruct (Nat.eqb_spec (length sizes / w) 0) as [|Hq]; [done|].
      rewrite (drop_app_le sizes) by nia. rewrite take_app_le; [done|]. rewrite length_drop. nia.
    + done.
Qed.

Lemma recordAll_ring sizes : exists t, recordAll start sizes = Some t /\ ring sizes t.
Proof.
  induction sizes as [|x sizes IH] using rev_ind; [by exists start; split; [|apply ring_start]|].
  destruct IH as (t & Ht & Hr). rewrite recordAll_snoc, Ht. cbn [mbind option_bind]. by apply ring_record.
Qed.
End run.

Lemma clamp_range lo hi x : lo <= hi -> lo <= clamp lo hi x <= hi.
Proof. intros. unfold clamp. destruct (Z.ltb_spec x lo); case_if; lia. Qed.

(** C33. The threshold tracks the configured percentile and never leaves its
    limits.  For a percentile whose rank in a window is not negative (as the
    0.75 of the engine), recording any sizes never runs out of the ring; the
    threshold is then the element of that rank in the sorted last full
    window, clamped, and before the first full window the lower limit.  It
    always lies between the lower limit and the larger of the limits. *)
Theorem threshold_within_limits percentile minLimit maxLimit sizes :
  let t0 := NewAdaptive percentile minLimit maxLimit in
  0 <= rankOf defaultWindow (at_percentile t0) ->
  exists t, recordAll t0 sizes = Some t /\
    AdaptiveThreshold_Get t = expected defaultWindow (at_percentile t0) minLimit (Z.max minLimit maxLimit) sizes /\
    minLimit <= AdaptiveThreshold_Get t <= Z.max minLimit maxLimit.
Proof.
  intros t0 Hr. assert (at_maxLimit t0 = Z.max minLimit maxLimit) as Hmax by (simpl; case_if; lia).
  destruct (recordAll_ring defaultWindow (at_percentile t0) minLimit (at_maxLimit t0)) with (sizes := sizes) as (t & Ht & Hg);
    [unfold defaultWindow; lia|done|].
  exists t. split; [exact Ht|]. unfold AdaptiveThreshold_Get. rewrite (rg_value _ _ _ _ _ _ Hg), Hmax. split; [done|].
  unfold expected. destruct (lastWindow _ _); [apply clamp_range|]; lia.
Qed.

(** The engine's percentile: position 1536 of 2048. *)
Lemma threshold_within_limits_witness :
  0 <= rankOf defaultWindow threeQuarters /\
  exists t, recordAll (NewAdaptive threeQuarters 128 1024) [5; 7] = Some t /\ AdaptiveThreshold_Get t = 128.
Proof.
  split; [vm_compute; done|].
  destruct (threshold_within_limits threeQuarters 128 1024 [5; 7]) as (t & Ht & Hg & _); [vm_compute; done|].
  exists t. split; [exact Ht|]. rewrite Hg. by vm_compute.
Defined.
