(* ===== verification/Values.v ===== *)
(** * Stored values ([engine_vlog.go])

    A value reaches the memtable and the tables behind a flag byte: either the
    bytes themselves or a pointer into the value log.  The write-ahead log
    marks pointers differently, by a magic prefix and their length.  Proved:
    both encodings decode to what was encoded, and no inline value is taken
    for a pointer; the prefix of the write-ahead log gives no such
    guarantee. *)

From S2P Require Import Prelude Framing Checksum Crypto Registry Wal Vlog.

Definition valPtrSize : nat := 16.
Definition valFlagInline : Z := 0.
Definition valFlagPointer : Z := 1.
Definition defaultValueThreshold : Z := 128.

Definition encodeInlineValue (val : bytes) : bytes := valFlagInline :: val.

Definition encodeValuePointer (vp : ValuePointer) : bytes :=
  [valFlagPointer] ++ be_encode 4 (vp_fid vp) ++ be_encode 8 (vp_offset vp) ++ be_encode 4 (vp_size vp).

(** 'V' 'L' 'P' 'T' *)
Definition walValuePtrMagic : bytes := [86; 76; 80; 84].

Definition encodeWalValuePointer (vp : ValuePointer) : bytes :=
  walValuePtrMagic ++ be_encode 4 (vp_fid vp) ++ be_encode 8 (vp_offset vp) ++ be_encode 4 (vp_size vp).

Definition decodeWalValuePointer (b : bytes) : option ValuePointer :=
  if negb (length b =? 4 + valPtrSize)%nat || negb (bytes_eqb (slice b 0 4) walValuePtrMagic) then None
  else Some (mkValuePointer (be_decode (slice b 4 8)) (be_decode (slice b 8 16)) (be_decode (slice b 16 20))).

Definition isValuePointer (b : bytes) : bool :=
  (length b =? 1 + valPtrSize)%nat && (default 0 (b !! 0%nat) =? valFlagPointer).

Definition decodeValuePointer (b : bytes) : ValuePointer :=
  mkValuePointer (be_decode (slice b 1 5)) (be_decode (slice b 5 13)) (be_decode (slice b 13 17)).

Section values.
Context (aesEncrypt : bytes -> bytes -> bytes).

(** The resolved value, [None] for the error of the value log, and the log. *)
Definition resolveValue (vl : ValueLog) (raw : bytes) : option bytes * ValueLog :=
  match raw with
  | [] => (Some raw, vl)
  | flag :: rest =>
      if flag =? valFlagInline then (Some rest, vl)
      else if negb (isValuePointer raw) then (Some raw, vl)
      else
        let vp := decodeValuePointer raw in
        if vp_size vp =? 0 then (Some [], vl) else vlog_ReadValue aesEncrypt vl vp
  end.
End values.

(** ** Discard accounting *)

(** [e.discardStats], int64 counters. *)
Definition addDiscard (stats : gmap Z Z) (valBytes : bytes) : gmap Z Z :=
  if isValuePointer valBytes
  then let vp := decodeValuePointer valBytes in
       <[vp_fid vp := i64 (default 0 (stats !! vp_fid vp) + vp_size vp)]> stats
  else stats.

(** Also counts in [e.vlogDiscards]: the first map. *)
Definition addCompactionDiscard (ds : gmap Z Z * gmap Z Z) (valBytes : bytes) : gmap Z Z * gmap Z Z :=
  let vlogDiscards :=
    if isValuePointer valBytes
    then let vp := decodeValuePointer valBytes in DiscardStats_AddDiscard ds.1 (vp_fid vp) (vp_size vp)
    else ds.1 in
  (vlogDiscards, addDiscard ds.2 valBytes).

Definition vlogStillReferenced (vlogDiscards : gmap Z Z) (fid totalValueBytes : Z) : bool :=
  if totalValueBytes <=? 0 then false else DiscardStats_Get vlogDiscards fid <? totalValueBytes.

(** ** Round trips *)

Record vp_ok (vp : ValuePointer) : Prop := {
  vpo_fid : is_u32 (vp_fid vp);
  vpo_offset : is_u64 (vp_offset vp);
  vpo_size : is_u32 (vp_size vp);
}.

Lemma vp_fields pre vp :
  vp_ok vp -> let n := length pre in
  let b := pre ++ be_encode 4 (vp_fid vp) ++ be_encode 8 (vp_offset vp) ++ be_encode 4 (vp_size vp) in
  mkValuePointer (be_decode (slice b n (n + 4))) (be_decode (slice b (n + 4) (n + 12))) (be_decode (slice b (n + 12) (n + 16))) = vp.
Proof.
  intros [Hf Ho Hs] n b. unfold b, n.
  assert (slice (pre ++ be_encode 4 (vp_fid vp) ++ be_encode 8 (vp_offset vp) ++ be_encode 4 (vp_size vp)) (length pre) (length pre + 4) =
    be_encode 4 (vp_fid vp)) as -> by (by apply slice_mid; rewrite ?length_be_encode).
  assert (slice (pre ++ be_encode 4 (vp_fid vp) ++ be_encode 8 (vp_offset vp) ++ be_encode 4 (vp_size vp)) (length pre + 4) (length pre + 12) =
    be_encode 8 (vp_offset vp)) as ->.
  { rewrite app_assoc. apply slice_mid; rewrite ?length_app, ?length_be_encode; lia. }
  assert (slice (pre ++ be_encode 4 (vp_fid vp) ++ be_encode 8 (vp_offset vp) ++ be_encode 4 (vp_size vp)) (length pre + 12) (length pre + 16) =
    be_encode 4 (vp_size vp)) as ->.
  { rewrite 2!app_assoc, <- (app_nil_r (be_encode 4 (vp_size vp))) at 1.
    apply slice_mid; rewrite ?length_app, ?length_be_encode; lia. }
  rewrite !be_decode_encode_id by done. by destruct vp.
Qed.

Lemma decode_encode_pointer vp : vp_ok vp -> decodeValuePointer (encodeValuePointer vp) = vp.
Proof. apply (vp_fields [valFlagPointer]). Qed.

Lemma decode_encode_walPointer vp : vp_ok vp -> decodeWalValuePointer (encodeWalValuePointer vp) = Some vp.
Proof.
  intros Hv. unfold decodeWalValuePointer.
  assert (length (encodeWalValuePointer vp) = 20%nat) as -> by done. cbn [Nat.eqb Nat.add valPtrSize negb orb].
  assert (slice (encodeWalValuePointer vp) 0 4 = walValuePtrMagic) as -> by done.
  change (bytes_eqb walValuePtrMagic walValuePtrMagic) with true. cbn [negb]. f_equal.
  by apply (vp_fields walValuePtrMagic).
Qed.

Lemma isValuePointer_pointer vp : isValuePointer (encodeValuePointer vp) = true.
Proof. done. Qed.

Lemma isValuePointer_inline v : isValuePointer (encodeInlineValue v) = false.
Proof. unfold isValuePointer, encodeInlineValue. simpl. apply andb_false_r. Qed.

Lemma resolve_inline aes vl v : resolveValue aes vl (encodeInlineValue v) = (Some v, vl).
Proof. done. Qed.

Lemma resolve_pointer aes vl vp :
  vp_ok vp -> vp_size vp <> 0 -> resolveValue aes vl (encodeValuePointer vp) = vlog_ReadValue aes vl vp.
Proof.
  intros Hv Hs. unfold resolveValue. change (encodeValuePointer vp) with (valFlagPointer :: tail (encodeValuePointer vp)) at 1.
  cbv iota. change (valFlagPointer =? valFlagInline) with false. cbv iota.
  change (valFlagPointer :: tail (encodeValuePointer vp)) with (encodeValuePointer vp).
  rewrite isValuePointer_pointer, decode_encode_pointer by done. cbn [negb]. by rewrite (proj2 (Z.eqb_neq _ _)).
Qed.

(** A value shorter than twenty bytes, or without the prefix, is kept by
    recovery as the value it is. *)
Definition plain (v : bytes) : Prop := decodeWalValuePointer v = None.

Lemma plain_length v : length v <> 20%nat -> plain v.
Proof. intros H. unfold plain, decodeWalValuePointer. by rewrite (proj2 (Nat.eqb_neq _ _)). Qed.
