(* ===== verification/VlogSpec.v ===== *)
(** * What the value log promises the engine

    [vl_holds] is the log as the engine uses it: started empty, no readers
    under way between operations, every segment a sequence of whole entries.
    The lemmas are the contract: appends succeed and hand out pointers that
    read back their value while the segment lives, a recovery scan counts
    exactly the bytes the pointers of a segment account for, and deleting a
    segment affects no other. *)

From S2P Require Import Prelude Framing Checksum Crypto Registry Wal Vlog Values.

Definition headerOf (c : option walCipher) : bytes :=
  match c with None => segmentHeader | Some c => encSegmentHeader c end.

(** Bytes of values: of entries, and of the pointers into one segment. *)
Definition valueBytes (es : list ValueEntry) : Z := foldr (fun e n => Z.of_nat (length (ve_value e)) + n) 0 es.
Definition ptrBytes (fid : Z) (vps : list ValuePointer) : Z :=
  foldr (fun vp n => if vp_fid vp =? fid then vp_size vp + n else n) 0 vps.

Lemma valueBytes_snoc es e : valueBytes (es ++ [e]) = valueBytes es + Z.of_nat (length (ve_value e)).
Proof. unfold valueBytes. induction es as [|x es IH]; simpl in *; lia. Qed.

Lemma valueBytes_nonneg es : 0 <= valueBytes es.
Proof. unfold valueBytes. induction es as [|x es IH]; simpl in *; lia. Qed.

Lemma ptrBytes_app fid l1 l2 : ptrBytes fid (l1 ++ l2) = ptrBytes fid l1 + ptrBytes fid l2.
Proof. unfold ptrBytes. induction l1 as [|x l1 IH]; simpl in *; [done|]. case_if; lia. Qed.

#[export] Instance ptrBytes_perm fid : Proper ((≡ₚ) ==> (=)) (ptrBytes fid).
Proof. unfold ptrBytes. induction 1; simpl; try congruence; repeat case_if; lia. Qed.

Lemma ptrBytes_cons fid vp l : ptrBytes fid (vp :: l) = if vp_fid vp =? fid then vp_size vp + ptrBytes fid l else ptrBytes fid l.
Proof. done. Qed.

Lemma ptrBytes_nonneg fid vps : Forall (fun vp => 0 <= vp_size vp) vps -> 0 <= ptrBytes fid vps.
Proof. unfold ptrBytes. induction 1 as [|vp vps Hv Hvs IH]; simpl in *; [lia|]. case_if; lia. Qed.

(** Space left: numbers for segments and bytes in each of them. *)
Definition room (vl : ValueLog) (n : Z) : Prop :=
  vl_nextFid vl + n < 2 ^ 32 - 1 /\ forall fid s, vl_heap vl !! fid = Some s -> Z.of_nat (length (seg_contents s)) + n < 2 ^ 61.

Definition roomb (vl : ValueLog) (n : Z) : bool :=
  (vl_nextFid vl + n <? 2 ^ 32 - 1) &&
  forallb (fun p => Z.of_nat (length (seg_contents p.2)) + n <? 2 ^ 61) (map_to_list (vl_heap vl)).

Lemma roomb_spec vl n : roomb vl n = true -> room vl n.
Proof.
  unfold roomb, room. rewrite andb_true_iff, forallb_forall. intros [H1 H2]. split; [lia|]. intros fid s Hs.
  specialize (H2 (fid, s) ltac:(by apply list_elem_of_In, elem_of_map_to_list)). cbn in H2. lia.
Qed.

(** An upper bound of what an append uses up. *)
Definition cost (key val : bytes) : Z := 64 + Z.of_nat (length key) + Z.of_nat (length val).

Lemma room_roomy vl n : 0 <= n -> room vl n -> roomy vl.
Proof. intros Hn [H1 H2]. split; [lia|]. intros fid s Hs. specialize (H2 fid s Hs). lia. Qed.

Lemma room_le vl n m : m <= n -> room vl n -> room vl m.
Proof. intros Hn [H1 H2]. split; [lia|]. intros fid s Hs. specialize (H2 fid s Hs). lia. Qed.

Section spec.
Context (aesEncrypt : bytes -> bytes -> bytes).
Hypothesis aes_wf : forall k b, wf_bytes (aesEncrypt k b).
Context (reg : option KeyRegistry).
Hypothesis reg_ok : registry_ok reg.

(** A segment is its header and whole entries. *)
Definition frames (s : segment) (es : list ValueEntry) : Prop :=
  Forall ventry_ok es /\
  seg_contents s = headerOf (sg_cipher s) ++
    encodeFrames (vencodeAt aesEncrypt (sg_cipher s)) (length (headerOf (sg_cipher s))) es.

Record vl_holds (vl : ValueLog) (iss : list (ValuePointer * bytes)) : Prop := {
  vh_inv : vlog_inv aesEncrypt reg vl [] iss;
  vh_files : vl_files vl = ∅;
  vh_frames : forall fid s, vl_heap vl !! fid = Some s -> exists es, frames s es /\ valueBytes es = ptrBytes fid iss.*1;
  vh_vp : forall vp v, (vp, v) ∈ iss -> vp_ok vp /\ vp_size vp = Z.of_nat (length v);
}.

Lemma frames_ext s s' es :
  seg_contents s' = seg_contents s -> sg_cipher s' = sg_cipher s -> frames s es -> frames s' es.
Proof. unfold frames. by intros -> ->. Qed.

(** Changing the heap without touching contents. *)
Lemma holds_same vl vl' iss :
  vl_holds vl iss -> vlog_inv aesEncrypt reg vl' [] iss -> vl_files vl' = ∅ ->
  (forall fid s', vl_heap vl' !! fid = Some s' ->
    exists s, vl_heap vl !! fid = Some s /\ seg_contents s' = seg_contents s /\ sg_cipher s' = sg_cipher s) ->
  vl_holds vl' iss.
Proof.
  intros [Hi Hf Hfr Hv] Hi' Hf' Hsame. split; try done. intros fid s' Hs'.
  destruct (Hsame fid s' Hs') as (s & Hs & Hc & Hk). destruct (Hfr fid s Hs) as (es & He & Hb).
  exists es. split; [|done]. by eapply frames_ext.
Qed.

Lemma room_same vl vl' n :
  room vl n -> vl_nextFid vl' = vl_nextFid vl ->
  (forall fid s', vl_heap vl' !! fid = Some s' -> exists s, vl_heap vl !! fid = Some s /\ seg_contents s' = seg_contents s) ->
  room vl' n.
Proof.
  intros [H1 H2] Hn Hs. split; [lia|]. intros fid s' Hs'. destruct (Hs fid s' Hs') as (s & Hs0 & ->). by eapply H2.
Qed.

(** Setting one segment to a version of itself. *)
Lemma vl_set_cases vl fid s s' f t :
  vl_heap vl !! fid = Some s -> seg_contents s' = seg_contents s -> sg_cipher s' = sg_cipher s ->
  vl_heap (vl_set vl fid s') !! f = Some t ->
  exists t0, vl_heap vl !! f = Some t0 /\ seg_contents t = seg_contents t0 /\ sg_cipher t = sg_cipher t0.
Proof.
  intros Hs Hc Hk. cbn [vl_set vl_heap]. intros [[<- <-]|[_ Ht]]%lookup_insert_Some; [by exists s|by exists t].
Qed.

(** ** Sync, reads, recovery, deletion *)

Lemma holds_sync vl iss n :
  vl_holds vl iss -> room vl n ->
  vl_holds (vlog_Sync vl) iss /\ room (vlog_Sync vl) n /\ vl_live (vlog_Sync vl) = vl_live vl /\
  vl_active (vlog_Sync vl) = vl_active vl.
Proof.
  intros Hh Hr. pose proof (sync_inv aesEncrypt reg vl [] iss (vh_inv _ _ Hh)) as Hi. unfold vlog_Sync in *.
  destruct (active_segment aesEncrypt reg vl [] iss (vh_inv _ _ Hh)) as (s & Hs & Hc & _). rewrite Hs in *. cbn [mbind option_bind] in *.
  unfold segment_sync in *. rewrite Hc in *.
  pose proof (fun f t => vl_set_cases vl _ s (seg_flush s) f t Hs (contents_flush s) eq_refl) as Hcase.
  split; [|split; [|done]].
  - eapply holds_same; [done|done|by apply (vh_files _ _ Hh)|apply Hcase].
  - eapply room_same; [done|done|]. intros f t Ht. destruct (Hcase f t Ht) as (t0 & ? & ? & _). by exists t0.
Qed.

Lemma holds_read vl iss n vp :
  vl_holds vl iss -> room vl n ->
  let '(r, vl') := vlog_ReadValue aesEncrypt vl vp in
  vl_holds vl' iss /\ room vl' n /\ vl_live vl' = vl_live vl /\ vl_active vl' = vl_active vl /\
  forall v, (vp, v) ∈ iss -> vp_fid vp ∈ vl_live vl -> r = Some v.
Proof.
  intros Hh Hr. pose proof (vh_inv _ _ Hh) as Hi. unfold vlog_ReadValue. destruct (vp_size vp =? 0) eqn:Ez; bool_prop.
  { split; [done|]. split; [done|]. do 2 (split; [done|]). intros v Hv _. destruct (vh_vp _ _ Hh vp v Hv) as [_ Hs].
    destruct v; [done|simpl in Hs; lia]. }
  destruct (pinSegment vl (vp_fid vp)) as [vl1|] eqn:Hp.
  2:{ do 4 (split; [done|]). intros v Hv Hl. unfold pinSegment in Hp. rewrite bool_decide_eq_true_2 in Hp by done.
      destruct (vi_live _ _ _ _ _ Hi _ Hl) as [s Hs]. by rewrite Hs in Hp. }
  pose proof (pin_inv aesEncrypt reg vl [] iss vp vl1 Hi Hp) as Hi1.
  destruct (readPinned_inv aesEncrypt reg vl1 [] iss vp Hi1) as [Hi2 Hval].
  unfold pinSegment in Hp. case_bool_decide as Hl; [|done]. destruct (vl_heap vl !! vp_fid vp) as [s|] eqn:Hs; [|done].
  injection Hp as <-. unfold readPinned in *. cbn [vl_set vl_heap] in *. rewrite lookup_insert_eq in *.
  pose proof (readValue_seg aesEncrypt (segment_IncrRef s) (vp_offset vp) (vp_size vp)) as Hrv.
  destruct (readValue _ _ _ _) as [r s'] eqn:Er. cbn [fst snd] in *.
  assert (vl_set (vl_set vl (vp_fid vp) (segment_IncrRef s)) (vp_fid vp) (segment_DecrRef s') =
    vl_set vl (vp_fid vp) (segment_DecrRef s')) as Hset by (unfold vl_set; cbn; by rewrite insert_insert_eq).
  assert (seg_contents s' = seg_contents s /\ sg_cipher s' = sg_cipher s) as [Hc Hk].
  { destruct Hrv as [->|[-> _]]; [done|]. split; [exact (contents_flush (segment_IncrRef s))|done]. }
  assert (seg_contents (segment_DecrRef s') = seg_contents s' /\ sg_cipher (segment_DecrRef s') = sg_cipher s') as [Hc' Hk'].
  { unfold segment_DecrRef. case_if; [|done]. unfold removeFile, segment_close. repeat case_if; try done. split; [apply app_nil_r|done]. }
  unfold vl_set in Hset, Hi2 |- *. cbn [vl_heap] in *. rewrite Hset in *.
  pose proof (fun f t => vl_set_cases vl _ s (segment_DecrRef s') f t Hs ltac:(congruence) ltac:(congruence)) as Hcase.
  split; [|split; [|do 2 (split; [done|])]].
  - eapply holds_same; [done|done|by apply (vh_files _ _ Hh)|apply Hcase].
  - eapply room_same; [done|done|]. intros f t Ht. destruct (Hcase f t Ht) as (t0 & ? & ? & _). by exists t0.
  - intros v Hv _. by apply Hval.
Qed.

Lemma locate_entries c o es : (locateFrames (vencodeAt aesEncrypt c) vlocateAt o es).*1 = es.
Proof. revert o. induction es as [|e es IH]; intros o; [done|]. cbn [locateFrames]. rewrite fmap_cons, IH. done. Qed.

(** The scan of a collector: all entries, whose value bytes are those of the
    pointers handed out for the segment. *)
Lemma holds_recover vl iss n fid :
  vl_holds vl iss -> room vl n -> 0 <= n ->
  let '(rs, vl') := vlog_Recover aesEncrypt vl fid in
  vl_holds vl' iss /\ room vl' n /\ vl_live vl' = vl_live vl /\ vl_active vl' = vl_active vl /\
  (fid ∈ vl_live vl -> exists rs', rs = Some rs' /\ valueBytes rs'.*1 = ptrBytes fid iss.*1).
Proof.
  intros Hh Hr Hn. pose proof (vh_inv _ _ Hh) as Hi. pose proof (recover_inv aesEncrypt reg vl [] iss fid Hi) as Hi'.
  unfold vlog_Recover in *. case_bool_decide as Hl; [|done]. destruct (vi_live _ _ _ _ _ Hi _ Hl) as [s Hs]. rewrite Hs in *.
  set (s' := if sg_writeClosed s then s else seg_flush s) in *. cbn [snd] in Hi'.
  pose proof (vi_segs _ _ _ _ _ Hi _ _ Hs) as Hseg.
  assert (seg_contents s' = seg_contents s /\ sg_cipher s' = sg_cipher s /\ sg_file s' = seg_contents s) as (Hc & Hk & Hf).
  { unfold s'. destruct (sg_writeClosed s) eqn:Ew.
    - split_and!; [done|done|]. unfold seg_contents. by rewrite (si_buf _ _ _ _ _ _ Hseg Ew), app_nil_r.
    - split_and!; [apply contents_flush|done|done]. }
  pose proof (fun f t => vl_set_cases vl _ s s' f t Hs Hc Hk) as Hcase.
  split; [|split; [|do 2 (split; [done|])]].
  - eapply holds_same; [done|done|by apply (vh_files _ _ Hh)|apply Hcase].
  - eapply room_same; [done|done|]. intros f t Ht. destruct (Hcase f t Ht) as (t0 & ? & ? & _). by exists t0.
  - intros _. destruct (vh_frames _ _ Hh _ _ Hs) as (es & [Hok He] & Hb).
    pose proof (proj2 Hr _ _ Hs) as Hlen. set (hdr := headerOf (sg_cipher s)) in *.
    assert (Z.of_nat (length hdr) + Z.of_nat (length (encodeFrames (vencodeAt aesEncrypt (sg_cipher s)) (length hdr) es)) < 2 ^ 62) as Hlim.
    { rewrite He, length_app in Hlen. lia. }
    assert (seg_contents s = take (length (seg_contents s)) (hdr ++ encodeFrames (vencodeAt aesEncrypt (sg_cipher s)) (length hdr) es)) as Hcut.
    { rewrite <- He. by rewrite take_ge. }
    rewrite Hk, Hf, Hcut.
    rewrite (recoverSegment_torn aesEncrypt aes_wf (sg_cipher s) hdr es); [|apply Hseg|done|done|done|rewrite He, length_app; lia].
    eexists. split; [done|]. rewrite fittingFrames_all by (rewrite He, length_app; lia). by rewrite locate_entries.
Qed.

(** The values of a segment fit in it. *)
Lemma frames_bytes c o es :
  cipher_ok c -> Forall ventry_ok es -> Z.of_nat o + Z.of_nat (length (encodeFrames (vencodeAt aesEncrypt c) o es)) < 2 ^ 62 ->
  valueBytes es <= Z.of_nat (length (encodeFrames (vencodeAt aesEncrypt c) o es)).
Proof.
  intros Hc He. revert o. induction He as [|e es He Hes IH]; intros o Hlen; [done|]. cbn [encodeFrames] in *. rewrite length_app in *.
  change (valueBytes (e :: es)) with (Z.of_nat (length (ve_value e)) + valueBytes es).
  assert (length (vencodeAt aesEncrypt c o e) = (21 + length (ve_key e) + length (ve_value e))%nat) as E
    by (apply length_encodeValueEntry; [done|done|done|lia]).
  specialize (IH (o + length (vencodeAt aesEncrypt c o e))%nat ltac:(lia)). lia.
Qed.

Lemma holds_bytes vl iss n fid :
  vl_holds vl iss -> room vl n -> 0 <= n -> fid ∈ vl_live vl -> ptrBytes fid iss.*1 < 2 ^ 61.
Proof.
  intros Hh Hr Hn Hl. destruct (vi_live _ _ _ _ _ (vh_inv _ _ Hh) _ Hl) as [s Hs].
  destruct (vh_frames _ _ Hh _ _ Hs) as (es & [Hok He] & <-). pose proof (proj2 Hr _ _ Hs) as Hlen.
  rewrite He, length_app in Hlen. pose proof (vi_segs _ _ _ _ _ (vh_inv _ _ Hh) _ _ Hs) as Hseg.
  pose proof (frames_bytes (sg_cipher s) (length (headerOf (sg_cipher s))) es ltac:(apply Hseg) Hok ltac:(lia)). lia.
Qed.

Lemma holds_delete vl iss n fid :
  vl_holds vl iss -> room vl n -> fid <> vl_active vl ->
  let vl' := (DeleteSegment vl fid).2 in
  vl_holds vl' iss /\ room vl' n /\ vl_live vl' = vl_live vl ∖ {[fid]} /\ vl_active vl' = vl_active vl.
Proof.
  intros Hh Hr Hne vl'. pose proof (vh_inv _ _ Hh) as Hi. pose proof (delete_inv aesEncrypt aes_wf reg vl [] iss fid Hi) as Hi'. unfold vl'.
  unfold DeleteSegment in *. rewrite (proj2 (Z.eqb_neq _ _)) in * by congruence.
  case_bool_decide as Hl; [|do 2 (split; [done|]); split; [set_solver|done]].
  destruct (vi_live _ _ _ _ _ Hi _ Hl) as [s Hs]. rewrite Hs in *. cbn [snd] in *.
  destruct (markRemove_seg aesEncrypt aes_wf reg _ _ _ _ _ (vi_segs _ _ _ _ _ Hi _ _ Hs) Hl) as (_ & Hc & Hk).
  pose proof (fun f t => vl_set_cases vl _ s (markRemove s) f t Hs Hc Hk) as Hcase.
  split; [|split; [|done]].
  - eapply holds_same; [done|done|by apply (vh_files _ _ Hh)|apply Hcase].
  - eapply room_same; [done|done|]. intros f t Ht. destruct (Hcase f t Ht) as (t0 & ? & ? & _). by exists t0.
Qed.

(** ** Rotation *)

Lemma openSegment_new fid maxSize iv s :
  openSegment [] fid maxSize reg iv = Some s -> iv_ok iv ->
  frames s [] /\ Z.of_nat (length (seg_contents s)) <= 32 /\ sg_fid s = fid.
Proof.
  intros Ho [_ Hiv]. unfold openSegment in Ho. destruct reg as [kr|]; injection Ho as <-.
  - split; [split; [done|]; by rewrite app_nil_r|]. split; [|done]. unfold seg_contents, encSegmentHeader. cbn [sg_file sg_buf app wc_keyID wc_baseIV].
    rewrite !length_app, !length_be_encode, Hiv. lia.
  - split; [split; [done|]; by rewrite app_nil_r|]. split; [|done]. vm_compute. done.
Qed.

Lemma ptrBytes_zero fid vps : (forall vp, vp ∈ vps -> vp_fid vp <> fid) -> ptrBytes fid vps = 0.
Proof.
  intros H. unfold ptrBytes. induction vps as [|vp vps IH]; [done|]. simpl. rewrite (proj2 (Z.eqb_neq _ _)) by (apply H; left).
  apply IH. intros vp' Hv. apply H. by right.
Qed.

Lemma holds_rotate vl iss n iv :
  vl_holds vl iss -> room vl (n + 64) -> 0 <= n -> iv_ok iv ->
  exists vl', rotateLocked vl iv = (Some tt, vl') /\ vl_holds vl' iss /\ room vl' n /\
    vl_live vl ⊆ vl_live vl' /\ vl_live vl' ⊆ {[vl_active vl']} ∪ vl_live vl /\ vl_active vl < vl_active vl' /\ vl_reg vl' = vl_reg vl /\
    exists s, vl_heap vl' !! vl_active vl' = Some s /\ Z.of_nat (length (seg_contents s)) <= 32.
Proof.
  intros Hh Hr Hn Hiv. pose proof (vh_inv _ _ Hh) as Hi.
  pose proof (rotate_inv aesEncrypt aes_wf reg vl [] iss iv Hi reg_ok Hiv (room_roomy vl (n + 64) ltac:(lia) Hr)) as Hrot.
  destruct (active_segment aesEncrypt reg vl [] iss Hi) as (old & Hold & Hc & _).
  pose proof (vi_active _ _ _ _ _ Hi) as [Hle _]. pose proof (si_range _ _ _ _ _ _ (vi_segs _ _ _ _ _ Hi _ _ Hold)) as H0.
  unfold rotateLocked in *. rewrite Hold in *. cbn [mbind option_bind] in *. unfold segment_sync in *. rewrite Hc in *.
  destruct Hr as [Hr1 Hr2]. rewrite u32_id in * by (unfold is_u32; lia). rewrite (vh_files _ _ Hh), lookup_empty in *. cbn [default] in *.
  rewrite (vi_reg _ _ _ _ _ Hi) in *. set (fid := vl_nextFid vl + 1) in *.
  destruct (openSegment [] fid (vl_maxSize vl) reg iv) as [s|] eqn:Ho; [|by unfold openSegment in Ho; destruct reg].
  destruct (openSegment_new _ _ _ _ Ho Hiv) as (Hfr & Hlen & _). destruct Hrot as [Hi' _].
  set (old' := closeForWrite (seg_flush old)) in *. set (heap' := <[vl_active vl := old']> _) in *.
  assert (seg_contents old' = seg_contents old /\ sg_cipher old' = sg_cipher old) as [Hco Hko].
  { destruct (seg_inv_closeForWrite reg _ _ _ _ _ (seg_inv_flush reg _ _ _ _ _ (vi_segs _ _ _ _ _ Hi _ _ Hold))) as [_ E].
    rewrite contents_flush in E. split; [exact E|exact (closeForWrite_cipher (seg_flush old))]. }
  assert (forall f t, heap' !! f = Some t -> (f = fid /\ t = s) \/
    exists t0, vl_heap vl !! f = Some t0 /\ seg_contents t = seg_contents t0 /\ sg_cipher t = sg_cipher t0) as Hcase.
  { intros f t [[<- <-]|[Ha Ht]]%lookup_insert_Some; [right; by exists old|].
    apply lookup_insert_Some in Ht as [[<- <-]|[_ Ht]]; [by left|]. rewrite lookup_insert_ne in Ht by done. right. by exists t. }
  eexists. split; [reflexivity|]. split; [|split; [|cbn [vl_live vl_active vl_reg vl_heap]; split; [set_solver|split; [done|split; [lia|split; [done|]]]]]].
  - split; [done|cbn [vl_files]; apply delete_empty| |apply (vh_vp _ _ Hh)]. cbn [vl_heap]. intros f t Ht.
    destruct (Hcase f t Ht) as [[-> ->]|(t0 & Ht0 & E1 & E2)].
    + exists []. split; [done|]. symmetry. apply ptrBytes_zero. intros vp ([vp' v] & -> & Hv)%list_elem_of_fmap. cbn [fst].
      pose proof (proj1 (vi_issued _ _ _ _ _ Hi vp' v Hv)). lia.
    + destruct (vh_frames _ _ Hh _ _ Ht0) as (es & He & Hb). exists es. split; [by eapply frames_ext|done].
  - split; cbn [vl_nextFid vl_heap]; [lia|]. intros f t Ht. destruct (Hcase f t Ht) as [[-> ->]|(t0 & Ht0 & E1 & _)].
    + lia.
    + rewrite E1. specialize (Hr2 _ _ Ht0). lia.
  - exists s. split; [|done]. unfold heap'. rewrite lookup_insert_ne by lia. apply lookup_insert_eq.
Qed.

(** ** Appending *)

Lemma write_contents s e off s' :
  writeEntry aesEncrypt s e = Some (off, s') ->
  seg_contents s' = seg_contents s ++ encodeValueEntry aesEncrypt (sg_cipher s) (sg_offset s) e /\ sg_cipher s' = sg_cipher s.
Proof. unfold writeEntry. case_if; [done|]. intros [= <- <-]. split; [apply app_assoc|done]. Qed.

(** The append to an active segment that has room. *)
Lemma holds_append vl iss n e s :
  vl_holds vl iss -> room vl (n + cost (ve_key e) (ve_value e)) -> 0 <= n -> ventry_ok e ->
  vl_heap vl !! vl_active vl = Some s ->
  exists off s', writeEntry aesEncrypt s e = Some (off, s') /\
    let vp := mkValuePointer (vl_active vl) off (Z.of_nat (length (ve_value e))) in
    let vl' := vl_set vl (vl_active vl) s' in
    is_u64 off /\ (vlog_inv aesEncrypt reg vl' [] ((vp, ve_value e) :: iss) -> vl_holds vl' ((vp, ve_value e) :: iss)) /\
    room vl' n.
Proof.
  intros Hh Hr Hn He Hs. pose proof (vh_inv _ _ Hh) as Hi. pose proof (vi_segs _ _ _ _ _ Hi _ _ Hs) as Hseg.
  destruct (active_segment aesEncrypt reg vl [] iss Hi) as (s0 & Hs0 & Hc & Hw). rewrite Hs in Hs0. injection Hs0 as <-.
  destruct Hr as [Hr1 Hr2]. pose proof (Hr2 _ _ Hs) as Hlen. unfold cost in *.
  destruct (writeEntry_spec aesEncrypt aes_wf reg _ _ _ _ s e Hseg Hc Hw He) as (off & s' & x & Hwr & Hoff & _); [lia|].
  destruct (write_contents _ _ _ _ Hwr) as [Hcs Hk]. rewrite (si_offset _ _ _ _ _ _ Hseg) in Hcs.
  assert (length (encodeValueEntry aesEncrypt (sg_cipher s) (Z.of_nat (length (seg_contents s))) e) =
    (21 + length (ve_key e) + length (ve_value e))%nat) as Hle.
  { apply (length_encodeValueEntry aesEncrypt aes_wf); [apply Hseg|done|lia]. }
  exists off, s'. split; [done|]. cbv zeta. split; [done|]. pose proof (vo_vlen _ He). split.
  - intros Hi'. split; [done|apply (vh_files _ _ Hh)| |].
    + cbn [vl_set vl_heap]. intros f t Ht. rewrite fmap_cons. cbn [fst].
      change (ptrBytes f (?vp :: ?l)) with (ptrBytes f ([vp] ++ l)). rewrite ptrBytes_app.
      apply lookup_insert_Some in Ht as [[<- <-]|[Hne Ht]].
      * destruct (vh_frames _ _ Hh _ _ Hs) as (es & [Hok Hes] & Hb). exists (es ++ [e]). split.
        { split; [apply Forall_app; split; [done|by apply Forall_singleton]|]. rewrite Hk, encodeFrames_app, Hcs.
          rewrite Hes at 1. rewrite <- app_assoc. do 2 f_equal. cbn [encodeFrames]. cbv zeta. rewrite app_nil_r.
          unfold vencodeAt. rewrite Hes, length_app. done. }
        rewrite valueBytes_snoc, Hb. unfold ptrBytes at 2. simpl. rewrite Z.eqb_refl. lia.
      * destruct (vh_frames _ _ Hh _ _ Ht) as (es & Hes & Hb). exists es. split; [done|]. unfold ptrBytes at 1. simpl.
        by rewrite (proj2 (Z.eqb_neq _ _)).
    + intros vp v [[= -> ->]|Hv]%elem_of_cons; [|by apply (vh_vp _ _ Hh)]. cbn [vp_size]. split; [|done].
      pose proof (si_range _ _ _ _ _ _ Hseg). pose proof (proj1 (vi_active _ _ _ _ _ Hi)).
      split; cbn [vp_fid vp_offset vp_size]; unfold is_u32; [lia|done|lia].
  - split; cbn [vl_set vl_nextFid vl_heap]; [lia|]. intros f t [[<- <-]|[Hne Ht]]%lookup_insert_Some.
    + rewrite Hcs, length_app, Hle. lia.
    + specialize (Hr2 _ _ Ht). lia.
Qed.

Lemma holds_write vl iss n e iv :
  vl_holds vl iss -> room vl (n + cost (ve_key e) (ve_value e) + 64) -> 0 <= n -> ventry_ok e -> iv_ok iv ->
  exists vp vl', vlog_Write aesEncrypt vl e iv = (Some vp, vl') /\ vl_holds vl' ((vp, ve_value e) :: iss) /\ room vl' n /\
    vl_live vl ⊆ vl_live vl' /\ vl_live vl' ⊆ {[vl_active vl']} ∪ vl_live vl /\ vl_active vl <= vl_active vl' /\ vp_fid vp = vl_active vl'.
Proof.
  intros Hh Hr Hn He Hiv. pose proof (vh_inv _ _ Hh) as Hi.
  assert (0 <= cost (ve_key e) (ve_value e)) as Hcost by (unfold cost; lia).
  pose proof (write_inv aesEncrypt aes_wf reg vl [] iss iv e Hi reg_ok Hiv (room_roomy vl (n + cost (ve_key e) (ve_value e) + 64) ltac:(lia) Hr) He) as Hw.
  destruct (active_segment aesEncrypt reg vl [] iss Hi) as (a & Ha & _).
  assert (exists vl1, (if sg_maxSize a <=? sg_offset a then rotateLocked vl iv else (Some tt, vl)) = (Some tt, vl1) /\
    vl_holds vl1 iss /\ room vl1 (n + cost (ve_key e) (ve_value e)) /\ vl_live vl ⊆ vl_live vl1 /\
    vl_live vl1 ⊆ {[vl_active vl1]} ∪ vl_live vl /\ vl_active vl <= vl_active vl1)
    as (vl1 & E1 & Hh1 & Hr1 & Hsub & Hsup & Hact).
  { case_if; [|exists vl; split_and!; [done|done|eapply room_le; [|done]; lia|done|set_solver|lia]].
    destruct (holds_rotate vl iss (n + cost (ve_key e) (ve_value e)) iv) as (vl1 & -> & ? & ? & ? & ? & ? & _); [done..|lia|done|].
    exists vl1. split_and!; try done. lia. }
  unfold vlog_Write in *. rewrite Ha, E1 in *. destruct (active_segment aesEncrypt reg vl1 [] iss (vh_inv _ _ Hh1)) as (s & Hs & _).
  rewrite Hs in *. destruct (holds_append vl1 iss n e s) as (off & s' & Hwr & Hoff & Hhold & Hroom); try done.
  rewrite Hwr in *. pose proof (vo_vlen _ He). rewrite u64_id, u32_id, (si_fid _ _ _ _ _ _ (vi_segs _ _ _ _ _ (vh_inv _ _ Hh1) _ _ Hs)) in * by (done || unfold is_u32; lia).
  eexists _, _. split; [reflexivity|]. split; [by apply Hhold|]. split; [done|]. cbn [vl_set vl_live vl_active vp_fid].
  done.
Qed.

(** A new log. *)
Lemma holds_open maxSize ivs vl :
  (forall f, iv_ok (ivs f)) -> openWithMaxSize ∅ maxSize reg ivs = Some vl ->
  vl_holds vl [] /\ vl_active vl = 1 /\ vl_nextFid vl = 1 /\ vl_live vl = {[1]} /\ vl_reg vl = reg /\
  (forall fid s, vl_heap vl !! fid = Some s -> Z.of_nat (length (seg_contents s)) <= 32).
Proof.
  intros Hiv Ho. assert (vlog_inv aesEncrypt reg vl [] []) as Hi.
  { eapply (open_inv aesEncrypt aes_wf); [exact Ho|by intros fid f|done|done]. }
  unfold openWithMaxSize in Ho.
  assert (openExisting ∅ maxSize reg ivs = ∅) as E by (unfold openExisting; apply map_imap_empty).
  rewrite E in Ho. change (u32 (maxFid ∅ + 1)) with 1 in Ho. rewrite lookup_empty in Ho. cbn [default] in Ho.
  destruct (openSegment [] 1 maxSize reg (ivs 1)) as [s|] eqn:Es; [|done]. injection Ho as <-.
  destruct (openSegment_new _ _ _ _ Es (Hiv 1)) as (Hf & Hl & _). cbn [vl_active vl_nextFid vl_live vl_reg vl_heap].
  assert (forall f t, <[1:=s]> (∅ : gmap Z segment) !! f = Some t -> f = 1 /\ t = s) as Hone.
  { intros f t [[<- <-]|[_ Ht]]%lookup_insert_Some; [done|by rewrite lookup_empty in Ht]. }
  split; [|split_and!; [done|done|set_solver|done|]; intros f t [-> ->]%Hone; done].
  split; [done| |cbn [vl_heap]; intros f t [-> ->]%Hone; by exists []|by intros vp v Hv%elem_of_nil].
  cbn [vl_files]. apply map_eq. intros i. rewrite lookup_empty. apply lookup_delete_None. right. apply map_lookup_filter_None. left. apply lookup_empty.
Qed.
End spec.
