(* ===== verification/Engine.v ===== *)
(** * The engine ([engine.go], [engine_read.go], [engine_write.go],
    [engine_flush.go], [engine_vlog.go])

    The pieces put together: the active and the immutable memtable, the
    levels, the write-ahead log with the rotated logs, the value log, the
    oracle, the expiry index and the flush queue.  An operation is a function
    in a small state monad, written in the order of the source; what a run
    draws from outside (clock, random bytes, seeds) is an argument.  System
    calls do not fail; a failing value-log append is a value.  [None] is a
    panic.

    The locks the source takes make [applyRequest], [triggerFlushLocked],
    [executeFlush], [engineCompact] and the halves of the value-log collector
    atomic; [dispatch] assigns the version before it takes them, so
    [EngineInv] splits it there. *)

From Stdlib Require Import Floats.SpecFloat.
From S2P Require Import Prelude Mvcc Oracle SkipList Heap Iterator Strconv Threshold Checksum Crypto Registry Framing Wal Vlog Values SstTable TableRead Compaction.

(** ** State *)

Record expiryItem := mkExpiryItem { xi_key : bytes; xi_at : Z }.

(** [expiryHeap.Less]. *)
Definition expiryLess (a b : expiryItem) : bool := xi_at a <? xi_at b.

(** The rotated log is named by [ft_seq] in [e_walFlush]. *)
Record flushTask := mkFlushTask { ft_seq : Z; ft_memTable : SkipList; ft_oldVlogFid : Z }.

Record Engine := mkEngine {
  e_memTable : SkipList;
  e_immMemTable : option SkipList;
  e_lsm : Lsm;                      (* levels, nextSeq, MANIFEST *)
  e_wal : WAL;                      (* wal.log *)
  e_walFlush : gmap Z bytes;        (* wal_flush_<seq>.log *)
  e_vl : ValueLog;
  e_vlogDiscards : gmap Z Z;
  e_discardStats : gmap Z Z;
  e_gcPending : gmap Z Z;
  e_gcDiscardTs : Z;
  e_oracle : Oracle;
  e_expiryHeap : list expiryItem;
  e_expiryAt : gmap bytes Z;
  e_flushChan : list flushTask;
  e_diskFull : bool;
  e_threshold : option AdaptiveThreshold;
  e_valueThreshold : Z;             (* opts.ValueThreshold *)
}.

(** What one operation draws from outside. *)
Record World := mkWorld {
  wd_now : Z;                       (* time.Now().Unix() *)
  wd_nano : Z;                      (* time.Now().UnixNano() *)
  wd_seed : Z;                      (* NewSkipList *)
  wd_ivWal : bytes;                 (* NewBaseIV for a log *)
  wd_ivVlog : bytes;                (* NewBaseIV for a segment *)
}.

Definition set_mem (e : Engine) (m : SkipList) (i : option SkipList) : Engine :=
  mkEngine m i (e_lsm e) (e_wal e) (e_walFlush e) (e_vl e) (e_vlogDiscards e) (e_discardStats e) (e_gcPending e)
    (e_gcDiscardTs e) (e_oracle e) (e_expiryHeap e) (e_expiryAt e) (e_flushChan e) (e_diskFull e) (e_threshold e) (e_valueThreshold e).
Definition set_lsm (e : Engine) (l : Lsm) : Engine :=
  mkEngine (e_memTable e) (e_immMemTable e) l (e_wal e) (e_walFlush e) (e_vl e) (e_vlogDiscards e) (e_discardStats e) (e_gcPending e)
    (e_gcDiscardTs e) (e_oracle e) (e_expiryHeap e) (e_expiryAt e) (e_flushChan e) (e_diskFull e) (e_threshold e) (e_valueThreshold e).
Definition set_wal (e : Engine) (w : WAL) (files : gmap Z bytes) : Engine :=
  mkEngine (e_memTable e) (e_immMemTable e) (e_lsm e) w files (e_vl e) (e_vlogDiscards e) (e_discardStats e) (e_gcPending e)
    (e_gcDiscardTs e) (e_oracle e) (e_expiryHeap e) (e_expiryAt e) (e_flushChan e) (e_diskFull e) (e_threshold e) (e_valueThreshold e).
Definition set_vl (e : Engine) (v : ValueLog) : Engine :=
  mkEngine (e_memTable e) (e_immMemTable e) (e_lsm e) (e_wal e) (e_walFlush e) v (e_vlogDiscards e) (e_discardStats e) (e_gcPending e)
    (e_gcDiscardTs e) (e_oracle e) (e_expiryHeap e) (e_expiryAt e) (e_flushChan e) (e_diskFull e) (e_threshold e) (e_valueThreshold e).
Definition set_gc (e : Engine) (discards stats pending : gmap Z Z) (ts : Z) : Engine :=
  mkEngine (e_memTable e) (e_immMemTable e) (e_lsm e) (e_wal e) (e_walFlush e) (e_vl e) discards stats pending
    ts (e_oracle e) (e_expiryHeap e) (e_expiryAt e) (e_flushChan e) (e_diskFull e) (e_threshold e) (e_valueThreshold e).
Definition set_oracle (e : Engine) (o : Oracle) : Engine :=
  mkEngine (e_memTable e) (e_immMemTable e) (e_lsm e) (e_wal e) (e_walFlush e) (e_vl e) (e_vlogDiscards e) (e_discardStats e) (e_gcPending e)
    (e_gcDiscardTs e) o (e_expiryHeap e) (e_expiryAt e) (e_flushChan e) (e_diskFull e) (e_threshold e) (e_valueThreshold e).
Definition set_expiry (e : Engine) (h : list expiryItem) (m : gmap bytes Z) : Engine :=
  mkEngine (e_memTable e) (e_immMemTable e) (e_lsm e) (e_wal e) (e_walFlush e) (e_vl e) (e_vlogDiscards e) (e_discardStats e) (e_gcPending e)
    (e_gcDiscardTs e) (e_oracle e) h m (e_flushChan e) (e_diskFull e) (e_threshold e) (e_valueThreshold e).
Definition set_flushChan (e : Engine) (q : list flushTask) : Engine :=
  mkEngine (e_memTable e) (e_immMemTable e) (e_lsm e) (e_wal e) (e_walFlush e) (e_vl e) (e_vlogDiscards e) (e_discardStats e) (e_gcPending e)
    (e_gcDiscardTs e) (e_oracle e) (e_expiryHeap e) (e_expiryAt e) q (e_diskFull e) (e_threshold e) (e_valueThreshold e).
Definition set_threshold (e : Engine) (t : option AdaptiveThreshold) : Engine :=
  mkEngine (e_memTable e) (e_immMemTable e) (e_lsm e) (e_wal e) (e_walFlush e) (e_vl e) (e_vlogDiscards e) (e_discardStats e) (e_gcPending e)
    (e_gcDiscardTs e) (e_oracle e) (e_expiryHeap e) (e_expiryAt e) (e_flushChan e) (e_diskFull e) t (e_valueThreshold e).

Definition set_diskFull (e : Engine) (b : bool) : Engine :=
  mkEngine (e_memTable e) (e_immMemTable e) (e_lsm e) (e_wal e) (e_walFlush e) (e_vl e) (e_vlogDiscards e) (e_discardStats e) (e_gcPending e)
    (e_gcDiscardTs e) (e_oracle e) (e_expiryHeap e) (e_expiryAt e) (e_flushChan e) b (e_threshold e) (e_valueThreshold e).

Definition set_nextSeq (l : Lsm) (s : Z) : Lsm :=
  mkLsm (levels l) s (lsm_manifest l) (lsm_removed l) (lsm_drops l) (lsm_discards l).

(** ** The monad *)

Definition eng (A : Type) : Type := Engine -> option (A * Engine).

#[export] Instance eng_ret : MRet eng := fun A a e => Some (a, e).
#[export] Instance eng_bind : MBind eng := fun A B f m e =>
  match m e with Some (a, e') => f a e' | None => None end.

Definition getE : eng Engine := fun e => Some (e, e).
Definition putE (e : Engine) : eng unit := fun _ => Some (tt, e).
Definition panic {A} : eng A := fun _ => None.

(** ** Small steps of the write path *)

(** The inline cut, adaptive when enabled. *)
Definition valueThreshold (e : Engine) : Z :=
  match e_threshold e with
  | Some t => AdaptiveThreshold_Get t
  | None => if e_valueThreshold e <=? 0 then defaultValueThreshold else e_valueThreshold e
  end.

Definition recordValueSize (n : nat) : eng unit :=
  e ← getE;
  match e_threshold e with
  | None => mret tt
  | Some t =>
      match AdaptiveThreshold_Record t (Z.of_nat n) with
      | Some t' => putE (set_threshold e (Some t'))
      | None => panic
      end
  end.

(** [heap.Push] and the map, as [trackExpiry] keeps them. *)
Definition trackExpiry (key : bytes) (expiresAt : Z) : eng unit :=
  e ← getE;
  match key with
  | [] => mret tt
  | _ =>
      if expiresAt <=? 0 then putE (set_expiry e (e_expiryHeap e) (delete key (e_expiryAt e)))
      else if bool_decide (e_expiryAt e !! key = Some expiresAt) then mret tt
      else putE (set_expiry e (heapPush expiryLess (e_expiryHeap e) (mkExpiryItem key expiresAt))
                   (<[key := expiresAt]> (e_expiryAt e)))
  end.

Definition mtPut (key raw : bytes) (expiresAt seq : Z) : eng unit :=
  e ← getE;
  match PutVersion (e_memTable e) key raw expiresAt seq with
  | Some m => putE (set_mem e m (e_immMemTable e))
  | None => panic
  end.

Definition mtDelete (key : bytes) (seq : Z) : eng unit :=
  e ← getE;
  match DeleteVersion (e_memTable e) key seq with
  | Some m => putE (set_mem e m (e_immMemTable e))
  | None => panic
  end.

Section engine.
Context (aesEncrypt : bytes -> bytes -> bytes).

(** [wal.WriteVersion]: the log is opened with group commit and its sync hook
    is [vl.Sync], so the record and the value log reach the disk together. *)
Definition walWrite (w : World) (op : Z) (key val : bytes) (expiresAt seq : Z) : eng unit :=
  e ← getE;
  let rec := mkWalRecord op key val 0 expiresAt seq (wd_nano w) in
  let wal := (groupCommit aesEncrypt (e_wal e) [rec]).2 in
  putE (set_vl (set_wal e wal (e_walFlush e)) (vlog_Sync (e_vl e))).

Definition vlWrite (w : World) (key val : bytes) (expiresAt : Z) : eng (option ValuePointer) :=
  e ← getE;
  let '(r, vl) := vlog_Write aesEncrypt (e_vl e) (mkValueEntry OpPut key val expiresAt) (wd_ivVlog w) in
  _ ← putE (set_vl e vl);
  mret r.

(** ** Writing entries *)

(** The second half of a put, shared by single entries and increments: choose
    the storage, log, apply.  [Some] is the returned error. *)
Definition applyEntry (w : World) (op : Z) (key val : bytes) (expiresAt seq : Z) : eng (option err) :=
  e ← getE;
  let threshold := valueThreshold e in
  if op =? OpDelete then
    _ ← walWrite w OpDelete key [] 0 seq;
    _ ← mtDelete key seq;
    _ ← trackExpiry key 0;
    mret None
  else
    _ ← recordValueSize (length val);
    if Z.of_nat (length val) <? threshold then
      _ ← walWrite w OpPut key val expiresAt seq;
      _ ← mtPut key (encodeInlineValue val) expiresAt seq;
      _ ← trackExpiry key expiresAt;
      mret None
    else
      vvp ← vlWrite w key val expiresAt;
      match vvp with
      | None => mret (Some ErrVlog)
      | Some vp =>
          _ ← walWrite w OpPut key (encodeWalValuePointer vp) expiresAt seq;
          _ ← mtPut key (encodeValuePointer vp) expiresAt seq;
          _ ← trackExpiry key expiresAt;
          mret None
      end.

Definition applyEntryOpts (w : World) (op : Z) (key val : bytes) (expiresAt seq : Z) (skipWAL : bool) : eng (option err) :=
  if negb skipWAL then applyEntry w op key val expiresAt seq
  else if op =? OpDelete then
    _ ← mtDelete key seq;
    _ ← trackExpiry key 0;
    mret None
  else
    _ ← recordValueSize (length val);
    _ ← mtPut key (encodeInlineValue val) expiresAt seq;
    _ ← trackExpiry key expiresAt;
    mret None.

(** [server.BatchWriteEntry] *)
Record BatchWriteEntry := mkBatch { bw_key : bytes; bw_value : bytes; bw_deleted : bool; bw_expiresAt : Z }.

Record batchResult := mkBatchResult {
  br_key : bytes;
  br_val : bytes;
  br_vp : option ValuePointer;      (* isPtr *)
  br_deleted : bool;
  br_expAt : Z;
}.

(** The first loop of [applyBatch]: log every entry; the error stops it. *)
Fixpoint logBatch (w : World) (seq threshold : Z) (batch : list BatchWriteEntry) (results : list batchResult)
    : eng (list batchResult * option err) :=
  match batch with
  | [] => mret (results, None)
  | b :: batch =>
      if bw_deleted b then
        _ ← walWrite w OpDelete (bw_key b) [] 0 seq;
        logBatch w seq threshold batch (results ++ [mkBatchResult (bw_key b) [] None true 0])
      else
        _ ← recordValueSize (length (bw_value b));
        if Z.of_nat (length (bw_value b)) <? threshold then
          _ ← walWrite w OpPut (bw_key b) (bw_value b) (bw_expiresAt b) seq;
          logBatch w seq threshold batch (results ++ [mkBatchResult (bw_key b) (bw_value b) None false (bw_expiresAt b)])
        else
          vvp ← vlWrite w (bw_key b) (bw_value b) (bw_expiresAt b);
          match vvp with
          | None => mret (results, Some ErrVlog)
          | Some vp =>
              _ ← walWrite w OpPut (bw_key b) (encodeWalValuePointer vp) (bw_expiresAt b) seq;
              logBatch w seq threshold batch (results ++ [mkBatchResult (bw_key b) [] (Some vp) false (bw_expiresAt b)])
          end
  end.

(** The second loop. *)
Fixpoint applyResults (seq : Z) (results : list batchResult) : eng unit :=
  match results with
  | [] => mret tt
  | r :: results =>
      _ ← (if br_deleted r then _ ← mtDelete (br_key r) seq; trackExpiry (br_key r) 0
           else
             match br_vp r with
             | Some vp => _ ← mtPut (br_key r) (encodeValuePointer vp) (br_expAt r) seq; trackExpiry (br_key r) (br_expAt r)
             | None => _ ← mtPut (br_key r) (encodeInlineValue (br_val r)) (br_expAt r) seq; trackExpiry (br_key r) (br_expAt r)
             end);
      applyResults seq results
  end.

Definition applyBatch (w : World) (batch : list BatchWriteEntry) (seq : Z) : eng (option err) :=
  e ← getE;
  let walStart := w_offset (e_wal e) in
  '(results, batchErr) ← logBatch w seq (valueThreshold e) batch [];
  match batchErr with
  | Some err =>
      e ← getE;
      _ ← putE (set_wal e (TruncateTo (e_wal e) walStart) (e_walFlush e));
      mret (Some err)
  | None =>
      _ ← applyResults seq results;
      mret None
  end.

(** ** Point reads *)

(** The sources in search order: the first one that knows the key answers. *)
Definition firstFound (l : list lookup_result) : lookup_result :=
  foldr (fun r rest => match r with NotFound => rest | _ => r end) NotFound l.

(** [getByAt] up to the value: tombstones and expired versions end the search. *)
Definition lookupAt (now : Z) (e : Engine) (key : bytes) (maxVersion : Z) : lookup_result :=
  firstFound
    ([SkipList_GetByVersion now (e_memTable e) key maxVersion]
     ++ option_list ((fun m => SkipList_GetByVersion now m key maxVersion) <$> e_immMemTable e)
     ++ [interpret now (readLevels (levels (e_lsm e)) key maxVersion)]).

(** The same search for the latest version: [mt.Get], [sst.Get]. *)
Definition lookupLatest (now : Z) (e : Engine) (key : bytes) : lookup_result :=
  firstFound
    ([SkipList_Get now (e_memTable e) key]
     ++ option_list ((fun m => SkipList_Get now m key) <$> e_immMemTable e)
     ++ [interpret now (readLevels (levels (e_lsm e)) key max_u64)]).

Definition answerWith (r : lookup_result) : eng (result bytes) :=
  match r with
  | NotFound | Tombstone => mret (Fail ErrKeyNotFound)
  | Found raw _ =>
      e ← getE;
      let '(v, vl) := resolveValue aesEncrypt (e_vl e) raw in
      _ ← putE (set_vl e vl);
      mret (match v with Some v => Ok v | None => Fail ErrVlog end)
  end.

Definition getByAt (now : Z) (key : bytes) (maxVersion : Z) : eng (result bytes) :=
  e ← getE; answerWith (lookupAt now e key maxVersion).

(** [Get]: as of the version counter of the active memtable. *)
Definition getByString (now : Z) (key : bytes) : eng (result bytes) :=
  e ← getE; getByAt now key (sl_versionCounter (e_memTable e)).

Definition getWithoutLock (now : Z) (key : bytes) : eng (result bytes) :=
  e ← getE; answerWith (lookupLatest now e key).

Definition existsWithoutLock (now : Z) (e : Engine) (key : bytes) : bool :=
  match lookupLatest now e key with Found _ _ => true | _ => false end.

(** [calcRemaining], int64. *)
Definition calcRemaining (now exp : Z) : Z :=
  if exp =? 0 then -1 else let rem := i64 (exp - now) in if rem <=? 0 then -2 else rem.

Definition TTL (now : Z) (e : Engine) (key : bytes) : Z :=
  match lookupLatest now e key with Found _ exp => calcRemaining now exp | _ => -2 end.

(** Value and version; a version found in a table is reported as 0. *)
Definition GetVersion (now : Z) (key : bytes) : eng (result bytes * Z) :=
  e ← getE;
  let mem := GetWithVersion now (e_memTable e) key in
  let imm := (fun m => GetWithVersion now m key) <$> e_immMemTable e in
  let '(r, ver) :=
    match mem, imm with
    | (NotFound, _), Some (NotFound, _) | (NotFound, _), None =>
        (interpret now (readLevels (levels (e_lsm e)) key max_u64), 0)
    | (NotFound, _), Some hit => hit
    | hit, _ => hit
    end in
  v ← answerWith r;
  mret (v, ver).

(** [getForReadAt]: sequence 0 reads at a read timestamp of its own. *)
Definition getForReadAt (now : Z) (key : bytes) (seq : Z) : eng (result bytes) :=
  if seq =? 0 then
    e ← getE;
    let '(ts, o) := BeginRead (e_oracle e) in
    _ ← putE (set_oracle e o);
    r ← getByAt now key ts;
    e ← getE;
    _ ← putE (set_oracle e (DoneRead (e_oracle e) ts));
    mret r
  else getByAt now key seq.

(** ** Requests *)

Definition opIncr : Z := 128.
Definition opGCRewrite : Z := 129.
Definition opClear : Z := 130.
Definition opFlush : Z := 131.

Record writeReq := mkReq {
  rq_op : Z;
  rq_key : bytes;
  rq_val : bytes;
  rq_expiresAt : Z;
  rq_delta : Z;
  rq_seq : Z;
  rq_expectedVp : ValuePointer;
  rq_batch : list BatchWriteEntry;
  rq_skipWAL : bool;
  rq_checkExists : bool;
}.

Record incrResult := mkIncrResult { ir_val : Z; ir_err : option err }.

Definition noVp : ValuePointer := mkValuePointer 0 0 0.

Definition batchReq (batch : list BatchWriteEntry) (seq : Z) : writeReq := mkReq 0 [] [] 0 0 seq noVp batch false false.
Definition putReq (key val : bytes) (expiresAt : Z) (skipWAL : bool) : writeReq :=
  mkReq OpPut key val expiresAt 0 0 noVp [] skipWAL false.
Definition deleteReq (key : bytes) : writeReq := mkReq OpDelete key [] 0 0 0 noVp [] false true.
Definition incrReq (key : bytes) (delta : Z) : writeReq := mkReq opIncr key [] 0 delta 0 noVp [] false false.

(** Read, add, write back: the new text is stored as [applyEntry] stores a put,
    and keeps the remaining time to live. *)
Definition processIncr (w : World) (key : bytes) (delta seq : Z) : eng incrResult :=
  e ← getE;
  let currentTTL := TTL (wd_now w) e key in
  let expiresAt := if 0 <? currentTTL then i64 (wd_now w + currentTTL) else 0 in
  current ← getForReadAt (wd_now w) key seq;
  let cur :=
    match current with
    | Ok [] | Fail ErrKeyNotFound => Ok 0
    | Ok text => match ParseInt text with Some n => Ok n | None => Fail ErrNotInteger end
    | Fail err => Fail err
    end in
  match cur with
  | Fail err => mret (mkIncrResult 0 (Some err))
  | Ok cur =>
      let newVal := i64 (cur + delta) in
      r ← applyEntry w OpPut key (FormatInt newVal) expiresAt seq;
      mret (match r with Some err => mkIncrResult 0 (Some err) | None => mkIncrResult newVal None end)
  end.

(** Moves a live value out of a segment; [curVal] is the resolved value. *)
Definition gcRewrite (w : World) (r : writeReq) (seq : Z) : eng (option err) :=
  curVal ← getWithoutLock (wd_now w) (rq_key r);
  match curVal with
  | Fail _ => mret None
  | Ok cur =>
      if negb (isValuePointer cur) then mret None
      else
        let vp := decodeValuePointer cur in
        if negb (vp_fid vp =? vp_fid (rq_expectedVp r)) || negb (vp_offset vp =? vp_offset (rq_expectedVp r)) then mret None
        else
          vvp ← vlWrite w (rq_key r) (rq_val r) (rq_expiresAt r);
          match vvp with
          | None => mret (Some ErrVlog)
          | Some vp =>
              _ ← walWrite w OpPut (rq_key r) (encodeWalValuePointer vp) (rq_expiresAt r) seq;
              _ ← mtPut (rq_key r) (encodeValuePointer vp) (rq_expiresAt r) seq;
              _ ← trackExpiry (rq_key r) (rq_expiresAt r);
              mret None
          end
  end.

(** ** Rotation and flush *)

Definition triggerFlushLocked (w : World) : eng flushTask :=
  e ← getE;
  let old := e_memTable e in
  let newMem := SeedVersion (NewSkipList (wd_seed w)) (sl_versionCounter old) in
  let seq := u64 (lsm_nextSeq (e_lsm e) + 1) in
  let oldWal := walFlush (e_wal e) in
  match OpenWAL [] (vl_reg (e_vl e)) (wd_ivWal w) with
  | None => panic
  | Some newWal =>
      let oldVlogFid := vl_active (e_vl e) in
      let vl := (rotateLocked (e_vl e) (wd_ivVlog w)).2 in
      let e := set_lsm (set_mem e newMem (Some old)) (set_nextSeq (e_lsm e) seq) in
      _ ← putE (set_vl (set_wal e newWal (<[seq := w_file oldWal]> (e_walFlush e))) vl);
      mret (mkFlushTask seq old oldVlogFid)
  end.

Definition enqueueFlush (task : flushTask) : eng unit :=
  e ← getE; putE (set_flushChan e (e_flushChan e ++ [task])).

(** The immutable memtable is released on every path; the rotated log is removed
    (or archived away) unless the table could not be created. *)
Definition executeFlush (w : World) (task : flushTask) : eng unit :=
  e ← getE;
  let entries := AllVersions (ft_memTable task) in
  let lsm := e_lsm e in
  let removeLog e := set_wal e (e_wal e) (delete (ft_seq task) (e_walFlush e)) in
  let e :=
    match entries with
    | [] => removeLog e
    | _ =>
        if negb (creatable entries) then e
        else
          let sst := createTable (ft_seq task) entries (wd_now w) in
          let e := removeLog (set_lsm e (mkLsm (<[0%nat := level (levels lsm) 0 ++ [sst]]> (levels lsm)) (lsm_nextSeq lsm)
                     (lsm_manifest lsm ++ [additionRec 0 sst]) (lsm_removed lsm) (lsm_drops lsm) (lsm_discards lsm))) in
          if 0 <? ft_oldVlogFid task
          then set_gc e (e_vlogDiscards e) (<[ft_oldVlogFid task := 1]> (e_discardStats e)) (e_gcPending e) (e_gcDiscardTs e)
          else e
    end in
  putE (set_mem e (e_memTable e) None).

(** One turn of [flushWorker]. *)
Definition flushTurn (w : World) : eng unit :=
  e ← getE;
  match e_flushChan e with
  | [] => mret tt
  | task :: rest => _ ← putE (set_flushChan e rest); executeFlush w task
  end.

(** The memtable at the head of the queue makes a table that is read whole: its
    keys are not empty and fit the index, and no key has versions across a
    restart point. *)
Definition flushable (e : Engine) : bool :=
  match e_flushChan e with [] => true | task :: _ => tabular (AllVersions (ft_memTable task)) end.

(** Waiting for [immMemTable] to become nil: the flush worker empties its
    queue. *)
Fixpoint drainFlush (n : nat) (w : World) : eng unit :=
  match n with O => mret tt | S n => _ ← flushTurn w; drainFlush n w end.

Definition forceFlush (w : World) : eng unit :=
  e ← getE;
  _ ← drainFlush (length (e_flushChan e)) w;
  e ← getE;
  if sl_sizeBytes (e_memTable e) =? 0 then mret tt
  else
    task ← triggerFlushLocked w;
    _ ← enqueueFlush task;
    e ← getE;
    drainFlush (length (e_flushChan e)) w.

(** After a round of writes; a pending flush is waited for, nothing more. *)
Definition flushBackpressure (opts : Options) (w : World) : eng unit :=
  e ← getE;
  if sl_sizeBytes (e_memTable e) <? MemTableSize opts then mret tt
  else
    match e_immMemTable e with
    | Some _ => drainFlush (length (e_flushChan e)) w
    | None => task ← triggerFlushLocked w; enqueueFlush task
    end.

(** Everything but the active segment goes; the flush queue is not touched. *)
Definition clearInternal (w : World) : eng unit :=
  e ← getE;
  match OpenWAL [] (vl_reg (e_vl e)) (wd_ivWal w) with
  | None => panic
  | Some newWal =>
      let lsm := e_lsm e in
      let removed := lsm_removed lsm ++ (tb_seq <$> searchOrder (levels lsm)) in
      let fids := filter (fun fid => fid <> vl_active (e_vl e)) (elements (vl_live (e_vl e))) in
      let vl := foldl (fun vl fid => (DeleteSegment vl fid).2) (e_vl e) fids in
      let vl := mkValueLog (vl_heap vl) (vl_live vl) (vl_maxSize vl) (vl_reg vl) (vl_nextFid vl) (vl_active vl) ∅ in
      let e := set_wal (set_mem e (NewSkipList (wd_seed w)) None) newWal ∅ in
      let e := set_lsm e (mkLsm (replicate MaxLevels []) (lsm_nextSeq lsm) [] removed (lsm_drops lsm) (lsm_discards lsm)) in
      putE (set_gc (set_vl e vl) (e_vlogDiscards e) ∅ ∅ (e_gcDiscardTs e))
  end.

(** [used]: the bytes of the files, [totalDiskUsage]. *)
Definition checkDiskUsage (maxDiskBytes used : Z) : eng unit :=
  e ← getE;
  if maxDiskBytes <=? 0 then mret tt else putE (set_diskFull e (maxDiskBytes <? used)).

(** ** Dispatch *)

Definition markApplied (seq : Z) : eng unit :=
  e ← getE; putE (set_oracle e (MarkApplied (e_oracle e) seq)).

(** A request without a version gets one, and the file counter follows. *)
Definition assignSeq (r : writeReq) : eng Z :=
  e ← getE;
  if rq_seq r =? 0 then
    let '(seq, o) := NewCommitTs (e_oracle e) in
    let lsm := e_lsm e in
    _ ← putE (set_lsm (set_oracle e o) (set_nextSeq lsm (if seq <=? lsm_nextSeq lsm then lsm_nextSeq lsm else seq)));
    mret seq
  else mret (rq_seq r).

Definition batchHasWrites (batch : list BatchWriteEntry) : bool := existsb (fun b => negb (bw_deleted b)) batch.

(** The switch of [dispatch] and [dispatchIncr], from the locks on. *)
Definition applyRequest (w : World) (r : writeReq) (seq : Z) : eng incrResult :=
  if rq_op r =? opIncr then
    res ← processIncr w (rq_key r) (rq_delta r) seq;
    _ ← markApplied seq;
    mret res
  else if rq_op r =? opClear then
    _ ← clearInternal w;
    _ ← markApplied seq;
    mret (mkIncrResult 0 None)
  else if rq_op r =? opFlush then
    _ ← forceFlush w;
    _ ← markApplied seq;
    mret (mkIncrResult 0 None)
  else if (0 <? length (rq_batch r))%nat then
    res ← applyBatch w (rq_batch r) seq;
    _ ← markApplied seq;
    mret (mkIncrResult 0 res)
  else if rq_op r =? opGCRewrite then
    res ← gcRewrite w r seq;
    _ ← markApplied seq;
    mret (mkIncrResult 0 res)
  else if (rq_op r =? OpPut) || (rq_op r =? OpDelete) then
    e ← getE;
    let existed := if rq_checkExists r then existsWithoutLock (wd_now w) e (rq_key r) else true in
    if existed then
      res ← applyEntryOpts w (rq_op r) (rq_key r) (rq_val r) (rq_expiresAt r) seq (rq_skipWAL r);
      _ ← markApplied seq;
      mret (mkIncrResult 1 res)
    else
      _ ← markApplied seq;
      mret (mkIncrResult 0 None)
  else
    _ ← markApplied seq;
    mret (mkIncrResult 0 None).

(** Writes are refused while the disk is full. *)
Definition refused (e : Engine) (r : writeReq) : bool :=
  e_diskFull e && ((rq_op r =? opIncr) || (rq_op r =? OpPut) || ((0 <? length (rq_batch r))%nat && batchHasWrites (rq_batch r))).

Definition dispatch (w : World) (r : writeReq) : eng incrResult :=
  e ← getE;
  if refused e r then
    _ ← (if rq_seq r =? 0 then mret tt else markApplied (rq_seq r));
    mret (mkIncrResult 0 (Some ErrDiskFull))
  else
    seq ← assignSeq r;
    applyRequest w r seq.

(** One round of [writer]: the drained requests, then the size check. *)
Fixpoint dispatchAll (w : World) (batch : list writeReq) : eng (list incrResult) :=
  match batch with
  | [] => mret []
  | r :: batch => res ← dispatch w r; rest ← dispatchAll w batch; mret (res :: rest)
  end.

Definition writerRound (opts : Options) (w : World) (batch : list writeReq) : eng (list incrResult) :=
  results ← dispatchAll w batch;
  _ ← flushBackpressure opts w;
  mret results.

(** ** Compaction *)

Definition clearLogs (l : Lsm) : Lsm := mkLsm (levels l) (lsm_nextSeq l) (lsm_manifest l) (lsm_removed l) [] [].

(** What the clock and the oracle answer now. *)
Definition compactEnvOf (w : World) (e : Engine) : CompactEnv :=
  mkCompactEnv (wd_now w) (Oracle_MinReadTs (e_oracle e)) (nextTs (e_oracle e)) (e_gcDiscardTs e).

(** [Compact] with what it reports to the discard counters. *)
Definition engineCompact (fileSize : Table -> Z) (opts : Options) (w : World) : eng unit :=
  e ← getE;
  let lsm := Compact fileSize opts (compactEnvOf w e) (clearLogs (e_lsm e)) in
  let '(discards, stats) := foldl addCompactionDiscard (e_vlogDiscards e, e_discardStats e) (lsm_drops lsm) in
  let stats := foldl addDiscard stats (lsm_discards lsm) in
  putE (set_gc (set_lsm e (clearLogs lsm)) discards stats (e_gcPending e) (e_gcDiscardTs e)).

(** ** Value-log collection *)

Definition totalValueBytes (rs : list (ValueEntry * Z)) : Z :=
  foldl (fun total '(entry, _) => total + Z.of_nat (length (ve_value entry))) 0 rs.

Definition rewriteReq (fid : Z) (item : ValueEntry * Z) : writeReq :=
  let '(entry, offset) := item in
  mkReq opGCRewrite (ve_key entry) (ve_value entry) (ve_expiresAt entry) 0 0
    (mkValuePointer fid (u64 offset) (u32 (Z.of_nat (length (ve_value entry))))) [] false false.

(** [runValueLogGCInternal] up to the wait: the timestamp, the rewrites to
    submit, and the bytes of values the segment holds; [None] when it cannot
    be read. *)
Definition gcStart (targetFid : Z) : eng (option (Z * list writeReq * Z)) :=
  e ← getE;
  let gcTs := nextTs (e_oracle e) in
  let '(rs, vl) := vlog_Recover aesEncrypt (e_vl e) targetFid in
  _ ← putE (set_vl (set_gc e (e_vlogDiscards e) (e_discardStats e) (e_gcPending e) gcTs) vl);
  mret (match rs with
        | None => None
        | Some rs =>
            let items := filter (fun '(entry, _) => (negb (ve_op entry =? OpDelete) && (0 <? length (ve_value entry))%nat) = true) rs in
            Some (gcTs, rewriteReq targetFid <$> items, totalValueBytes rs)
        end).

Definition gcReset : eng unit :=
  e ← getE; putE (set_gc e (e_vlogDiscards e) (e_discardStats e) (e_gcPending e) 0).

Definition gcScan (w : World) (targetFid : Z) : eng (option (Z * Z)) :=
  started ← gcStart targetFid;
  match started with
  | None => mret None
  | Some (gcTs, rewrites, total) =>
      _ ← dispatchAll w rewrites;
      _ ← gcReset;
      mret (Some (gcTs, total))
  end.

Inductive gcOutcome := GcWaits | GcPending | GcDeleted.

(** The rest: wait for older snapshots, then keep or unlink the segment. *)
Definition gcFinish (targetFid gcTs total : Z) : eng gcOutcome :=
  e ← getE;
  if Oracle_MinReadTs (e_oracle e) <? gcTs then mret GcWaits
  else if vlogStillReferenced (e_vlogDiscards e) targetFid total then
    _ ← putE (set_gc e (e_vlogDiscards e) (e_discardStats e) (<[targetFid := total]> (e_gcPending e)) (e_gcDiscardTs e));
    mret GcPending
  else
    let e := set_gc e (DiscardStats_Delete (e_vlogDiscards e) targetFid) (delete targetFid (e_discardStats e))
               (delete targetFid (e_gcPending e)) (e_gcDiscardTs e) in
    _ ← putE (set_vl e (DeleteSegment (e_vl e) targetFid).2);
    mret GcDeleted.

(** The candidate of [RunValueLogGC] and of the maintenance worker: the most
    stale bytes; [stats] are the counters in the order of the map walk. *)
Definition gcCandidate (e : Engine) (stats : list (Z * Z)) : Z * Z :=
  foldl (fun '(bestFid, maxStale) '(fid, stale) =>
    if fid =? vl_active (e_vl e) then (bestFid, maxStale)
    else if match e_gcPending e !! fid with Some pending => DiscardStats_Get (e_vlogDiscards e) fid <? pending | None => false end
    then (bestFid, maxStale)
    else if maxStale <? stale then (fid, stale) else (bestFid, maxStale)) (0, 0) stats.

(** ** Expiry *)

(** The pops of [expireDueKeys]: due keys in order, and what is left; stale
    heap items are dropped.  Every round pops one. *)
Fixpoint popDue (fuel : nat) (now : Z) (limit : nat) (h : list expiryItem) (m : gmap bytes Z) (due : list bytes)
    : list bytes * list expiryItem * gmap bytes Z :=
  match fuel with
  | O => (due, h, m)
  | S fuel =>
      match h with
      | [] => (due, h, m)
      | it :: _ =>
          if (limit <=? length due)%nat then (due, h, m)
          else if now <? xi_at it then (due, h, m)
          else
            match heapPop expiryLess h with
            | None => (due, h, m)
            | Some (_, h') =>
                if bool_decide (m !! xi_key it = Some (xi_at it))
                then popDue fuel now limit h' (delete (xi_key it) m) (due ++ [xi_key it])
                else popDue fuel now limit h' m due
            end
      end
  end.

Definition expireDueKeys (w : World) (limit : nat) : eng unit :=
  e ← getE;
  let '(due, h, m) := popDue (S (length (e_expiryHeap e))) (wd_now w) limit (e_expiryHeap e) (e_expiryAt e) [] in
  _ ← putE (set_expiry e h m);
  e ← getE;
  let entries := (fun key => mkBatch key [] true 0) <$> filter (fun key => TTL (wd_now w) e key = -2) due in
  match entries with
  | [] => mret tt
  | _ => _ ← dispatch w (batchReq entries 0); mret tt
  end.

(** ** The public calls, each run to its answer *)

Definition PutExAt (w : World) (key val : bytes) (expiresAt : Z) (skipWAL : bool) : eng (option err) :=
  res ← dispatch w (putReq key val expiresAt skipWAL); mret (ir_err res).

Definition PutEx (w : World) (key val : bytes) (ttlSeconds : Z) : eng (option err) :=
  PutExAt w key val (if 0 <? ttlSeconds then i64 (wd_now w + ttlSeconds) else 0) false.

Definition Engine_Delete (w : World) (key : bytes) : eng (result bool) :=
  res ← dispatch w (deleteReq key);
  mret (match ir_err res with Some err => Fail err | None => Ok (negb (ir_val res =? 0)) end).

Definition submitBatch (w : World) (entries : list BatchWriteEntry) : eng (option err) :=
  res ← dispatch w (batchReq entries 0); mret (ir_err res).

Definition GetDel (w : World) (key : bytes) : eng (result bytes) :=
  v ← getWithoutLock (wd_now w) key;
  match v with
  | Fail _ => mret (Fail ErrKeyNotFound)
  | Ok val =>
      r ← submitBatch w [mkBatch key [] true 0];
      mret (match r with Some err => Fail err | None => Ok val end)
  end.

Definition Expire (w : World) (key : bytes) (seconds : Z) : eng (bool * option err) :=
  v ← getByString (wd_now w) key;
  match v with
  | Fail _ => mret (false, None)
  | Ok val => r ← PutEx w key val seconds; mret (true, r)
  end.

Definition IncrBy (w : World) (key : bytes) (delta : Z) : eng (result Z) :=
  res ← dispatch w (incrReq key delta);
  mret (match ir_err res with Some err => Fail err | None => Ok (ir_val res) end).

Definition BatchApplyWithVersion (w : World) (entries : list BatchWriteEntry) (version : Z) : eng (option err) :=
  e ← getE;
  _ ← putE (set_oracle e (ReserveVersion (e_oracle e) version));
  res ← dispatch w (batchReq entries version);
  mret (ir_err res).
End engine.
