(* ===== verification/Open.v ===== *)
(** * Opening the engine (engine.go, [OpenEngineWithOpts])

    From the files of a data directory to a running engine: manifest, tables,
    rotated and active write-ahead logs, value log and discard counters.  A
    table file is its table (see [SstTable] and [SstReader] for the bytes), or
    [None] when it does not open.  Tables are listed in the order in which the
    loop over the Go map visits them. *)

From S2P Require Import Prelude Mvcc Oracle SkipList Heap Iterator Strconv Threshold Checksum Crypto Registry Framing Wal Vlog Values SstBlock SstTable Compaction Manifest Engine.

Record Disk := mkDisk {
  dk_manifest : bytes;
  dk_ssts : list (Z * option Table);
  dk_walFlush : list (Z * bytes);
  dk_wal : bytes;
  dk_vlog : gmap Z bytes;
  dk_vlogDiscards : bytes;
  dk_discards : bytes;
}.

Definition emptyDisk : Disk := mkDisk [] [] [] [] ∅ [] [].

Record OpenOptions := mkOpenOptions {
  oo_registry : option KeyRegistry;
  oo_valueThreshold : Z;
  oo_adaptive : bool;
  oo_valueThresholdMax : Z;
  oo_segmentSize : Z;               (* vlog.MaxSegmentSize *)
  oo_maxDiskBytes : Z;
}.

(** What opening draws from outside. *)
Record OpenWorld := mkOpenWorld {
  ow_world : World;
  ow_ivs : Z -> bytes;              (* base IVs of value-log segments *)
  ow_ivTmp : bytes;                 (* of wal.log.recover *)
  ow_used : Z;                      (* totalDiskUsage *)
}.

Definition loadDiscards (data : bytes) : gmap Z Z := DiscardStats_Load (length data / 12) data ∅.

Definition adaptiveThreshold (opts : OpenOptions) : option AdaptiveThreshold :=
  if oo_adaptive opts then
    let minT := if oo_valueThreshold opts <=? 0 then defaultValueThreshold else oo_valueThreshold opts in
    let maxT := if oo_valueThresholdMax opts <? minT then minT else oo_valueThresholdMax opts in
    Some (NewAdaptive threeQuarters minT maxT)
  else None.

(** The first loop: the largest file number. *)
Definition maxFileSeq (disk : Disk) : Z :=
  foldl Z.max 0 ((dk_ssts disk).*1 ++ (dk_walFlush disk).*1).

(** Rotated logs whose table is not in the manifest, by number. *)
Fixpoint insertLog (x : Z * bytes) (l : list (Z * bytes)) : list (Z * bytes) :=
  match l with [] => [x] | y :: l' => if x.1 <? y.1 then x :: l else y :: insertLog x l' end.
Definition uncommittedWALs (levels : gmap Z Z) (disk : Disk) : list (Z * bytes) :=
  foldr insertLog [] (filter (fun x => levels !! x.1 = None) (dk_walFlush disk)).

(** A table goes to the level of the manifest. *)
Definition placeTable (manifest : gmap Z Z) (ls : list (list Table)) (x : Z * option Table) : list (list Table) :=
  match manifest !! x.1, x.2 with
  | Some lvl, Some t =>
      let lvl := if (lvl <? 0) || (Z.of_nat MaxLevels <=? lvl) then 0%nat else Z.to_nat lvl in
      <[lvl := level ls lvl ++ [t]]> ls
  | _, _ => ls
  end.

Section open.
Context (aesEncrypt : bytes -> bytes -> bytes).

(** The records of a log file, none when it does not open. *)
Definition recoverFile (reg : option KeyRegistry) (file iv : bytes) : list WalRecord :=
  match OpenWAL file reg iv with Some w => (Recover aesEncrypt w).1 | None => [] end.

(** [wal.log.recover]: all records in one new log. *)
Definition rewriteLog (reg : option KeyRegistry) (iv : bytes) (nano : Z) (recs : list WalRecord) : option bytes :=
  match OpenWAL [] reg iv with
  | None => None
  | Some rw =>
      let write rw rec := (WriteVersionWithTimestamp aesEncrypt rw
        (mkWalRecord (r_op rec) (r_key rec) (r_value rec) 0 (r_expiresAt rec) (r_version rec) nano)).2 in
      Some (w_file (walFlush (foldl write rw recs)))
  end.

(** One round of the loop over the records. *)
Definition replayRecord (w : World) (recThreshold : Z) (rec : WalRecord) : eng unit :=
  if (0 <? r_expiresAt rec) && (r_expiresAt rec <=? wd_now w) then mtDelete (r_key rec) (r_version rec)
  else if r_op rec =? OpPut then
    _ ← trackExpiry (r_key rec) (r_expiresAt rec);
    match decodeWalValuePointer (r_value rec) with
    | Some vp => mtPut (r_key rec) (encodeValuePointer vp) (r_expiresAt rec) (r_version rec)
    | None =>
        if Z.of_nat (length (r_value rec)) <? recThreshold
        then mtPut (r_key rec) (encodeInlineValue (r_value rec)) (r_expiresAt rec) (r_version rec)
        else
          vvp ← vlWrite aesEncrypt w (r_key rec) (r_value rec) (r_expiresAt rec);
          match vvp with
          | None => mtPut (r_key rec) (encodeInlineValue (r_value rec)) (r_expiresAt rec) (r_version rec)
          | Some vp => mtPut (r_key rec) (encodeValuePointer vp) (r_expiresAt rec) (r_version rec)
          end
    end
  else if r_op rec =? OpDelete then mtDelete (r_key rec) (r_version rec)
  else mret tt.

Fixpoint replayRecords (w : World) (recThreshold : Z) (recs : list WalRecord) : eng unit :=
  match recs with
  | [] => mret tt
  | rec :: recs => _ ← replayRecord w recThreshold rec; replayRecords w recThreshold recs
  end.

(** The active log and the records to replay. *)
Definition openLogs (reg : option KeyRegistry) (ow : OpenWorld) (uncommitted : list (Z * bytes)) (walFile : bytes)
    : option (WAL * list WalRecord) :=
  match uncommitted with
  | [] =>
      match OpenWAL walFile reg (wd_ivWal (ow_world ow)) with
      | None => None
      | Some w => let '(recs, w) := Recover aesEncrypt w in Some (w, recs)
      end
  | _ =>
      let recs := (uncommitted ≫= fun x => recoverFile reg x.2 []) ++
                  (if (0 <? length walFile)%nat then recoverFile reg walFile [] else []) in
      let file := default walFile (rewriteLog reg (ow_ivTmp ow) (wd_nano (ow_world ow)) recs) in
      match OpenWAL file reg (wd_ivWal (ow_world ow)) with
      | None => None
      | Some w => Some ((Recover aesEncrypt w).2, recs)
      end
  end.

Definition OpenEngineWithOpts (opts : OpenOptions) (ow : OpenWorld) (disk : Disk) : option Engine :=
  let reg := oo_registry opts in
  match openWithMaxSize (dk_vlog disk) (oo_segmentSize opts) reg (ow_ivs ow) with
  | None => None
  | Some vl =>
      let '(manifestLevels, _) := readManifest (dk_manifest disk) in
      let uncommitted := uncommittedWALs manifestLevels disk in
      match openLogs reg ow uncommitted (dk_wal disk) with
      | None => None
      | Some (wal, records) =>
          let lsm := mkLsm (foldl (placeTable manifestLevels) (replicate MaxLevels []) (dk_ssts disk)) 0 [] [] [] [] in
          let e := mkEngine (NewSkipList (wd_seed (ow_world ow))) None lsm wal ∅ vl (loadDiscards (dk_vlogDiscards disk))
                     (loadDiscards (dk_discards disk)) ∅ 0 newOracle [] ∅ [] false (adaptiveThreshold opts) (oo_valueThreshold opts) in
          let recThreshold := if oo_valueThreshold opts <=? 0 then defaultValueThreshold else oo_valueThreshold opts in
          let maxSeq := Z.max (maxFileSeq disk) (foldl Z.max 0 (r_version <$> records)) in
          match (_ ← replayRecords (ow_world ow) recThreshold records;
                 e ← getE;
                 let o := if 0 <? maxSeq then Bump (e_oracle e) maxSeq else e_oracle e in
                 let e := set_oracle (set_lsm e (set_nextSeq (e_lsm e) maxSeq)) o in
                 _ ← putE (set_mem e (SeedVersion (e_memTable e) (nextTs o)) (e_immMemTable e));
                 checkDiskUsage (oo_maxDiskBytes opts) (ow_used ow)) e with
          | Some (_, e) => Some e
          | None => None
          end
      end
  end.
End open.

(** [Close]: the files it leaves.  [manifest] is the file as it was opened;
    [lsm_manifest] are the records appended since. *)
Definition Engine_Close (manifest : bytes) (e : Engine) : Disk :=
  mkDisk (foldl appendManifest manifest (lsm_manifest (e_lsm e)))
    ((fun t => (tb_seq t, Some t)) <$> searchOrder (levels (e_lsm e)))
    (map_to_list (e_walFlush e)) (w_file (walFlush (e_wal e))) (closedDir (vlog_Close (e_vl e)))
    (DiscardStats_Save (map_to_list (e_vlogDiscards e))) (DiscardStats_Save (map_to_list (e_discardStats e))).
