(* ===== verification/EngineInv.v ===== *)
(** * The engine keeps its promises

    The invariant that ties memtables, levels and value log together, what
    each step of the engine does to it, and what follows for reads: at every
    open snapshot, and for plain reads, the engine answers like the plain log
    of all writes applied so far ([s_log]), through rotations, flushes,
    compactions and value-log collections.  The steps interleave the way the
    locks allow: assigning a version and applying the request are separate
    steps, so several requests may be under way. *)

From Stdlib Require Import Floats.SpecFloat.
From S2P Require Import Prelude Mvcc Oracle SkipList Heap Iterator Strconv Threshold Checksum Crypto Registry Framing Wal Vlog Values VlogSpec SstBlock SstTable Compaction Engine.

(** ** Running an operation *)

(** [m] returns from [e], and what it returns satisfies [Q]. *)
Definition runs {A} (m : eng A) (e : Engine) (Q : A -> Engine -> Prop) : Prop :=
  match m e with Some (a, e') => Q a e' | None => False end.

Lemma runs_bind {A B} (m : eng A) (f : A -> eng B) e Q :
  runs m e (fun a e' => runs (f a) e' Q) -> runs (m ≫= f) e Q.
Proof. unfold runs, mbind, eng_bind. by destruct (m e) as [[a e']|]. Qed.

Lemma runs_ret {A} (a : A) e (Q : A -> Engine -> Prop) : Q a e -> runs (mret a) e Q.
Proof. done. Qed.

Lemma runs_getE e (Q : Engine -> Engine -> Prop) : Q e e -> runs getE e Q.
Proof. done. Qed.

Lemma runs_putE e e' (Q : unit -> Engine -> Prop) : Q tt e' -> runs (putE e') e Q.
Proof. done. Qed.

Lemma runs_mono {A} (m : eng A) e (Q Q' : A -> Engine -> Prop) :
  runs m e Q -> (forall a e', Q a e' -> Q' a e') -> runs m e Q'.
Proof. unfold runs. destruct (m e) as [[a e']|]; auto. Qed.

Lemma runs_step {A B} (m : eng A) (f : A -> eng B) e (P : A -> Engine -> Prop) Q :
  runs m e P -> (forall a e', P a e' -> runs (f a) e' Q) -> runs (m ≫= f) e Q.
Proof. intros Hm Hf. apply runs_bind. eapply runs_mono; eauto. Qed.

Lemma runs_returns {A} (m : eng A) e Q : runs m e Q -> is_Some (m e).
Proof. unfold runs. by destruct (m e) as [[a e']|]. Qed.

Ltac run_get := apply runs_bind, runs_getE.
Ltac run_put := apply runs_bind, runs_putE.

(** ** Entries and what they stand for *)

Definition at_version (a : Entry) : bytes * Z := (Key a, Version a).

(** The value [v] as the engine may have stored it. *)
Definition denotes (iss : list (ValuePointer * bytes)) (raw v : bytes) : Prop :=
  raw = encodeInlineValue v \/ exists vp, (vp, v) ∈ iss /\ raw = encodeValuePointer vp.

(** A stored entry and the entry of the log it stands for. *)
Record entry_rep (iss : list (ValuePointer * bytes)) (p : Entry * Entry) : Prop := {
  er_key : Key p.1 = Key p.2;
  er_version : Version p.1 = Version p.2;
  er_deleted : Deleted p.1 = Deleted p.2;
  er_expires : ExpiresAt p.1 = ExpiresAt p.2;
  er_value : Deleted p.1 = false -> denotes iss (Value p.1) (Value p.2);
}.

Lemma entry_rep_more iss x p : entry_rep iss p -> entry_rep (x :: iss) p.
Proof.
  intros [H1 H2 H3 H4 H5]. split; try done. intros Hd. destruct (H5 Hd) as [?|(vp & Hv & ?)]; [by left|].
  right. exists vp. split; [by right|done].
Qed.

(** Reading pairs position by position. *)
Lemma newest_pairs (l : list (Entry * Entry)) b :
  Forall (fun p => Version p.1 = Version p.2) l -> (forall p, b = Some p -> Version p.1 = Version p.2) ->
  exists r, foldl newer (fst <$> b) l.*1 = fst <$> r /\ foldl newer (snd <$> b) l.*2 = snd <$> r /\
    (forall p, r = Some p -> p ∈ l \/ b = Some p).
Proof.
  intros Hl. revert b. induction Hl as [|p l Hp Hl IH]; intros b Hb; [by exists b; eauto|]. simpl.
  destruct b as [q|]; simpl.
  - rewrite <- (Hb q eq_refl), <- Hp. destruct (Version q.1 <? Version p.1).
    + destruct (IH (Some p)) as (r & H1 & H2 & H3); [by intros ? [= <-]|]. exists r. split_and!; [done|done|].
      intros x Hx. destruct (H3 x Hx) as [?|[= <-]]; left; [by right|left].
    + destruct (IH (Some q) Hb) as (r & H1 & H2 & H3). exists r. split_and!; [done|done|].
      intros x Hx. destruct (H3 x Hx) as [?|?]; [left; by right|by right].
  - destruct (IH (Some p)) as (r & H1 & H2 & H3); [by intros ? [= <-]|]. exists r. split_and!; [done|done|].
    intros x Hx. destruct (H3 x Hx) as [?|[= <-]]; left; [by right|left].
Qed.

Lemma filter_pairs iss (l : list (Entry * Entry)) key v :
  Forall (entry_rep iss) l ->
  exists l', filter (visible_at key v) l.*1 = l'.*1 /\ filter (visible_at key v) l.*2 = l'.*2 /\ forall p, p ∈ l' -> p ∈ l.
Proof.
  induction 1 as [|p l Hp Hl IH]; [by exists []|]. destruct IH as (l' & H1 & H2 & H3). rewrite !fmap_cons, !filter_cons.
  assert (visible_at key v p.1 <-> visible_at key v p.2) as Hv.
  { unfold visible_at. by rewrite (er_key _ _ Hp), (er_version _ _ Hp). }
  destruct (decide (visible_at key v p.1)); destruct (decide (visible_at key v p.2)); try tauto.
  - exists (p :: l'). rewrite H1, H2. split_and!; [done|done|]. intros q [->|Hq]%elem_of_cons; [left|right; auto].
  - exists l'. split_and!; [done|done|]. intros q Hq. right. auto.
Qed.

(** A snapshot read of the stored entries finds the entry that stands for what
    the log has. *)
Lemma snapshot_pairs iss (l : list (Entry * Entry)) key v :
  Forall (entry_rep iss) l ->
  exists r, snapshot_get l.*1 key v = fst <$> r /\ snapshot_get l.*2 key v = snd <$> r /\ forall p, r = Some p -> p ∈ l.
Proof.
  intros Hl. destruct (filter_pairs iss l key v Hl) as (l' & H1 & H2 & H3). unfold snapshot_get, newest. rewrite H1, H2.
  destruct (newest_pairs l' None) as (r & Hr1 & Hr2 & Hr3); [|done|].
  - apply Forall_forall. intros p Hp. rewrite Forall_forall in Hl. by apply (er_version iss), Hl, H3.
  - exists r. split_and!; [done|done|]. intros p Hp. destruct (Hr3 p Hp) as [?|?]; [auto|done].
Qed.

Lemma unique_versions l : NoDup (at_version <$> l) -> versions_unique l.
Proof.
  intros Hn a b Ha Hb Hk Hv. apply list_elem_of_lookup in Ha as [i Hi]. apply list_elem_of_lookup in Hb as [j Hj].
  assert (i = j) as ->; [|congruence]. eapply (NoDup_lookup _ i j (at_version a)); [done|by rewrite list_lookup_fmap, Hi|].
  rewrite list_lookup_fmap, Hj. simpl. unfold at_version. by rewrite Hk, Hv.
Qed.

(** Reading is insensitive to the order of the entries. *)
Lemma snapshot_perm l l' key v : NoDup (at_version <$> l') -> l ≡ₚ l' -> snapshot_get l key v = snapshot_get l' key v.
Proof.
  intros Hn Hp. apply snapshot_get_ext; [by apply unique_versions|]. intros e _. by rewrite Hp.
Qed.

(** Two sources, the first of which is newer. *)
Lemma snapshot_layers l1 l2 key v :
  (forall a b, a ∈ l1 -> b ∈ l2 -> Version b < Version a) ->
  snapshot_get (l1 ++ l2) key v = match snapshot_get l1 key v with Some a => Some a | None => snapshot_get l2 key v end.
Proof.
  intros Hlt. rewrite snapshot_get_app. destruct (snapshot_get l1 key v) as [a|] eqn:Ea; [|by destruct (snapshot_get l2 key v)].
  destruct (snapshot_get l2 key v) as [b|] eqn:Eb; [|done].
  apply snapshot_get_Some in Ea as (Ha & _). apply snapshot_get_Some in Eb as (Hb & _).
  specialize (Hlt a b Ha Hb). by rewrite (proj2 (Z.ltb_ge _ _)) by lia.
Qed.

(** Reading above every version. *)
Lemma snapshot_top l key v v' :
  (forall a, a ∈ l -> Version a <= v) -> v <= v' -> snapshot_get l key v' = snapshot_get l key v.
Proof.
  intros Hb Hle. unfold snapshot_get. f_equal. induction l as [|a l IH]; [done|]. rewrite !filter_cons.
  rewrite IH by (intros b Hin; apply Hb; by right). pose proof (Hb a ltac:(left)). unfold visible_at.
  destruct (decide (Key a = key /\ Version a <= v')); destruct (decide (Key a = key /\ Version a <= v)); try done; exfalso; intuition lia.
Qed.

(** ** The invariant *)

Definition memE (e : Engine) : list Entry := contents (e_memTable e).
Definition immE (e : Engine) : list Entry := from_option contents [] (e_immMemTable e).
Definition lsmE (e : Engine) : list Entry := allEntries (levels (e_lsm e)).

(** The value pointers that entries carry. *)
Definition ptrsOf (a : Entry) : list ValuePointer :=
  if isValuePointer (Value a) then [decodeValuePointer (Value a)] else [].
Definition ptrs (l : list Entry) : list ValuePointer := l ≫= ptrsOf.

Lemma ptrs_stored l : ptrs (storedEntry <$> l) ⊆+ ptrs l.
Proof.
  unfold ptrs. induction l as [|a l IH]; [done|]. rewrite fmap_cons, !bind_cons. apply submseteq_app; [|done].
  unfold ptrsOf, storedEntry. destruct (Deleted a); [|done]. apply submseteq_nil_l.
Qed.

#[export] Instance ptrs_perm : Proper ((≡ₚ) ==> (≡ₚ)) ptrs.
Proof. intros l l' H. unfold ptrs. by rewrite H. Qed.

Lemma ptrs_app l l' : ptrs (l ++ l') = ptrs l ++ ptrs l'.
Proof. apply bind_app. Qed.


(** What the engine no longer holds but the invariant talks about: the pointers
    handed out and those compaction has dropped, everything ever flushed, the
    log of writes, the clock at the last two rotations, the oldest snapshot
    and the latest time a compaction has worked with, and the bytes of values
    in the segments a collector has scanned. *)
Record Ghost := mkGhost {
  g_iss : list (ValuePointer * bytes);
  g_dropped : list ValuePointer;
  g_old : list Entry;
  g_log : list Entry;
  g_rotOld : Z;
  g_rot : Z;
  g_floor : Z;
  g_time : Z;
  g_sealed : list (Z * Z);
}.

Definition everything (e : Engine) (g : Ghost) : list Entry := memE e ++ immE e ++ g_old g.

Definition thr_ok (t : option AdaptiveThreshold) : Prop :=
  match t with
  | None => True
  | Some t => exists w p lo hi sizes, (0 < w)%nat /\ 0 <= rankOf w p /\ ring w p lo hi sizes t
  end.

(** The immutable memtable is the one whose flush is queued. *)
Definition queue_ok (e : Engine) : Prop :=
  match e_immMemTable e, e_flushChan e with
  | None, [] => True
  | Some m, [t] =>
      ft_memTable t = m /\ (exists ms, refines m ms) /\ ft_seq t <= lsm_nextSeq (e_lsm e) /\
      forall p tb, tb ∈ level (levels (e_lsm e)) p -> tb_seq tb <> ft_seq t
  | _, _ => False
  end.

Section inv.
Context (aesEncrypt : bytes -> bytes -> bytes).
Hypothesis aes_wf : forall k b, wf_bytes (aesEncrypt k b).
Context (reg : option KeyRegistry).
Hypothesis reg_ok : registry_ok reg.

(** [spare]: pointers written but not yet stored; [pd]: versions assigned to
    requests that are still to be applied. *)
Record eng_inv (e : Engine) (g : Ghost) (spare : list ValuePointer) (pd : list Z) : Prop := {
  ei_mem : exists m, refines (e_memTable e) m;
  ei_queue : queue_ok e;
  ei_lsm : lsm_ok (e_lsm e);
  ei_clear : lsm_drops (e_lsm e) = [] /\ lsm_discards (e_lsm e) = [];
  ei_rots : 0 <= g_rotOld g <= g_rot g /\ g_rot g <= nextTs (e_oracle e);
  ei_new : forall a, a ∈ memE e -> g_rot g < Version a;
  ei_mid : forall a, a ∈ immE e -> g_rotOld g < Version a <= g_rot g;
  ei_flushed : forall a, a ∈ g_old g \/ a ∈ lsmE e -> Version a <= g_rotOld g;
  ei_next : forall a, a ∈ everything e g -> Version a <= nextTs (e_oracle e);
  ei_counter : forall a, a ∈ everything e g \/ a ∈ lsmE e -> Version a <= sl_versionCounter (e_memTable e);
  ei_unique : NoDup (at_version <$> everything e g);
  ei_hist : exists hist, everything e g ≡ₚ hist.*1 /\ g_log g = hist.*2 /\ Forall (entry_rep (g_iss g)) hist;
  ei_reads : forall key v now, g_floor g <= v -> g_time g <= now ->
    seen now (readLevels (levels (e_lsm e)) key v) = seen now (snapshot_get (g_old g) key v);
  ei_vl : vl_holds aesEncrypt reg (e_vl e) (g_iss g);
  ei_ptrs : spare ++ ptrs (memE e ++ immE e ++ lsmE e) ++ g_dropped g ⊆+ (g_iss g).*1;
  ei_live : forall vp, vp ∈ spare ++ ptrs (memE e ++ immE e ++ lsmE e) -> vp_size vp <> 0 -> vp_fid vp ∈ vl_live (e_vl e);
  ei_discards : forall fid, fid ∈ vl_live (e_vl e) \/ vl_active (e_vl e) < fid ->
    DiscardStats_Get (e_vlogDiscards e) fid = ptrBytes fid (g_dropped g);
  ei_pd : Forall (fun s => g_rot g < s <= nextTs (e_oracle e)) pd /\ NoDup pd /\
    forall a, a ∈ everything e g -> Version a ∉ pd;
  ei_thr : thr_ok (e_threshold e);
  ei_seq : 0 <= lsm_nextSeq (e_lsm e);
  ei_top : sl_versionCounter (e_memTable e) <= nextTs (e_oracle e);
  ei_sealed : forall x, x ∈ g_sealed g -> x.1 < vl_active (e_vl e) /\ x.2 = ptrBytes x.1 (g_iss g).*1;
  ei_origin : forall a, a ∈ lsmE e -> Deleted a = false -> exists b, b ∈ g_old g /\ Deleted b = false /\ Key b = Key a /\ ExpiresAt b = ExpiresAt a;
}.

(** *** Reading through the layers *)

Definition found (r : lookup_result) : option (bytes * Z) := match r with Found v x => Some (v, x) | _ => None end.

Lemma seen_found now o : seen now o = found (interpret now o).
Proof. done. Qed.

Lemma mem_lookup now s m key v : refines s m -> SkipList_GetByVersion now s key v = interpret now (snapshot_get (contents s) key v).
Proof. intros ((L & ht & Hi) & _). by eapply GetByVersion_refines. Qed.

Lemma imm_refines e m g spare pd : eng_inv e g spare pd -> e_immMemTable e = Some m -> exists ms, refines m ms.
Proof.
  intros Hi He. pose proof (ei_queue _ _ _ _ Hi) as Hq. unfold queue_ok in Hq. rewrite He in Hq.
  destruct (e_flushChan e) as [|t [|]]; [done| |done]. by destruct Hq as (_ & ? & _).
Qed.

(** One layer above the rest. *)
Lemma found_layer now l1 l2 key v r :
  (forall a b, a ∈ l1 -> b ∈ l2 -> Version b < Version a) ->
  found r = seen now (snapshot_get l2 key v) ->
  found (match interpret now (snapshot_get l1 key v) with NotFound => r | _ => interpret now (snapshot_get l1 key v) end) = seen now (snapshot_get (l1 ++ l2) key v).
Proof.
  intros Hlt Hr. rewrite snapshot_layers by done. destruct (snapshot_get l1 key v) as [a|]; [|done].
  unfold seen. simpl. destruct (Deleted a); [done|]. by destruct (expired now a).
Qed.

Lemma layers e g spare pd :
  eng_inv e g spare pd ->
  (forall a b, a ∈ memE e -> b ∈ immE e ++ g_old g -> Version b < Version a) /\
  (forall a b, a ∈ immE e -> b ∈ g_old g -> Version b < Version a).
Proof.
  intros Hi. pose proof (ei_rots _ _ _ _ Hi). split.
  - intros a b Ha Hb. pose proof (ei_new _ _ _ _ Hi a Ha). apply elem_of_app in Hb as [Hb|Hb].
    + pose proof (ei_mid _ _ _ _ Hi b Hb). lia.
    + pose proof (ei_flushed _ _ _ _ Hi b (or_introl Hb)). lia.
  - intros a b Ha Hb. pose proof (ei_mid _ _ _ _ Hi a Ha). pose proof (ei_flushed _ _ _ _ Hi b (or_introl Hb)). lia.
Qed.

(** Searching memtable, immutable memtable and levels in turn is a snapshot
    read of everything ever written. *)
Lemma lookupAt_spec e g spare pd now key v :
  eng_inv e g spare pd -> g_floor g <= v -> g_time g <= now ->
  found (lookupAt now e key v) = seen now (snapshot_get (everything e g) key v).
Proof.
  intros Hi Hv Hnow. destruct (layers _ _ _ _ Hi) as [H1 H2]. unfold lookupAt, everything, firstFound.
  destruct (ei_mem _ _ _ _ Hi) as [m Hm]. rewrite foldr_app. cbn [foldr]. rewrite (mem_lookup now _ m) by done.
  apply found_layer; [done|]. unfold immE in *. destruct (e_immMemTable e) as [im|] eqn:Eim; cbn [option_fmap option_map fmap option_list app foldr from_option].
  - destruct (imm_refines _ _ _ _ _ Hi Eim) as [ms Hms]. rewrite (mem_lookup now _ ms) by done. apply found_layer; [done|].
    cbn [app foldr]. rewrite <- (ei_reads _ _ _ _ Hi key v now Hv Hnow). unfold seen. by destruct (interpret now (readLevels _ _ _)).
  - rewrite <- (ei_reads _ _ _ _ Hi key v now Hv Hnow). unfold seen. by destruct (interpret now (readLevels _ _ _)).
Qed.

(** The same for the latest version. *)
Lemma lookupLatest_at e g spare pd now key :
  eng_inv e g spare pd -> nextTs (e_oracle e) <= max_u64 -> lookupLatest now e key = lookupAt now e key max_u64.
Proof.
  intros Hi Hn. unfold lookupLatest, lookupAt. f_equal.
  assert (forall s m, refines s m -> (forall a, a ∈ contents s -> Version a <= max_u64) ->
    SkipList_Get now s key = SkipList_GetByVersion now s key max_u64) as Hget.
  { intros s m Hs Hb. rewrite (mem_lookup now s m) by done. destruct Hs as ((L & ht & Hi') & _). unfold SkipList_Get.
    rewrite <- (latestNode_spec s L ht key max_u64 Hi' Hb). destruct (latestNode s key); [|done]. cbn [fmap option_fmap option_map].
    by rewrite <- answer_interpret. }
  destruct (ei_mem _ _ _ _ Hi) as [m Hm]. f_equal; [f_equal; apply (Hget _ m Hm)|f_equal].
  - intros a Ha. assert (a ∈ everything e g) as Ha' by (apply elem_of_app; by left). pose proof (ei_next _ _ _ _ Hi a Ha'). lia.
  - destruct (e_immMemTable e) as [im|] eqn:Eim; [|done]. destruct (imm_refines _ _ _ _ _ Hi Eim) as [ms Hms].
    cbn. f_equal. apply (Hget _ ms Hms). intros a Ha. assert (a ∈ immE e) as Ha' by (unfold immE; by rewrite Eim).
    pose proof (ei_mid _ _ _ _ Hi a Ha'). pose proof (ei_rots _ _ _ _ Hi). lia.
Qed.

Lemma lookupLatest_spec e g spare pd now key :
  eng_inv e g spare pd -> g_floor g <= max_u64 -> nextTs (e_oracle e) <= max_u64 -> g_time g <= now ->
  found (lookupLatest now e key) = seen now (snapshot_get (everything e g) key max_u64).
Proof. intros Hi Hf Hn Hnow. by rewrite (lookupLatest_at e g spare pd), (lookupAt_spec e g spare pd). Qed.

(** *** What reads return *)

(** The read of the log of writes. *)
Definition logRead (now : Z) (log : list Entry) (key : bytes) (v : Z) : option (bytes * Z) := seen now (snapshot_get log key v).

Definition answerOf (o : option (bytes * Z)) : result bytes :=
  match o with Some (v, _) => Ok v | None => Fail ErrKeyNotFound end.

Lemma log_lookup e g spare pd now key v :
  eng_inv e g spare pd ->
  match seen now (snapshot_get (everything e g) key v) with
  | Some (raw, x) => exists u, logRead now (g_log g) key v = Some (u, x) /\ denotes (g_iss g) raw u
  | None => logRead now (g_log g) key v = None
  end.
Proof.
  intros Hi. destruct (ei_hist _ _ _ _ Hi) as (hist & Hp & Hlog & Hrep). unfold logRead. rewrite Hlog.
  pose proof (ei_unique _ _ _ _ Hi) as Hu. rewrite <- (snapshot_perm hist.*1 (everything e g)) by done.
  destruct (snapshot_pairs _ hist key v Hrep) as (r & -> & -> & Hr). destruct r as [p|]; [|done].
  rewrite Forall_forall in Hrep. destruct (Hrep p (Hr p eq_refl)) as [H1 H2 H3 H4 H5]. cbn [fmap option_fmap option_map].
  unfold seen, interpret, expired. rewrite <- H3, <- H4. destruct (Deleted p.1); [done|].
  destruct (_ && _); [done|]. eexists. split; [done|]. by apply H5.
Qed.

Lemma lookupAt_stored e g spare pd now key v raw x :
  eng_inv e g spare pd -> lookupAt now e key v = Found raw x ->
  exists a, a ∈ memE e ++ immE e ++ lsmE e /\ Value a = raw.
Proof.
  intros Hi. unfold lookupAt, firstFound. destruct (ei_mem _ _ _ _ Hi) as [m Hm]. rewrite foldr_app. cbn [foldr].
  rewrite (mem_lookup now _ m) by done. setoid_rewrite elem_of_app. setoid_rewrite elem_of_app.
  assert (forall l, interpret now (snapshot_get l key v) = Found raw x -> exists a, a ∈ l /\ Value a = raw) as Hin.
  { intros l Hl. destruct (snapshot_get l key v) as [a|] eqn:Ea; [|done]. apply snapshot_get_Some in Ea as (Ha & _).
    exists a. split; [done|]. unfold interpret in Hl. destruct (Deleted a); [done|]. destruct (expired now a); [done|]. congruence. }
  destruct (interpret now (snapshot_get (contents (e_memTable e)) key v)) eqn:E1; [|done|intros E; rewrite E in E1; destruct (Hin _ E1) as (a & ? & ?); eauto].
  assert (interpret now (readLevels (levels (e_lsm e)) key v) = Found raw x -> exists a, a ∈ lsmE e /\ Value a = raw) as Hl.
  { rewrite (readLevels_spec _ key v (ei_lsm _ _ _ _ Hi)). apply Hin. }
  unfold immE. destruct (e_immMemTable e) as [im|] eqn:Eim; cbn -[readLevels interpret snapshot_get contents SkipList_GetByVersion].
  - destruct (imm_refines _ _ _ _ _ Hi Eim) as [ms Hms]. rewrite (mem_lookup now _ ms) by done.
    destruct (interpret now (snapshot_get (contents im) key v)) eqn:E2; [|done|intros E; rewrite E in E2; destruct (Hin _ E2) as (a & ? & ?); eauto].
    destruct (interpret now (readLevels _ _ _)) eqn:E3; [done|done|]. intros E. destruct (Hl E) as (a & ? & ?). eauto.
  - destruct (interpret now (readLevels _ _ _)) eqn:E3; [done|done|]. intros E. destruct (Hl E) as (a & ? & ?). eauto.
Qed.

(** Replacing the value log by one that holds the same. *)
Lemma inv_set_vl e g spare pd vl :
  eng_inv e g spare pd -> vl_holds aesEncrypt reg vl (g_iss g) -> vl_live vl = vl_live (e_vl e) -> vl_active vl = vl_active (e_vl e) ->
  eng_inv (set_vl e vl) g spare pd.
Proof.
  intros [] Hh Hl Ha. split; try done.
  - intros vp. cbn [set_vl e_vl]. rewrite Hl. apply ei_live0.
  - intros fid. cbn [set_vl e_vl e_vlogDiscards]. rewrite Hl, Ha. apply ei_discards0.
  - cbn [set_vl e_vl]. by rewrite Ha.
Qed.

Lemma elem_of_ptrs vp l a : a ∈ l -> Value a = encodeValuePointer vp -> vp_ok vp -> vp ∈ ptrs l.
Proof.
  intros Ha Hv Hok. apply list_elem_of_bind. exists a. split; [|done]. unfold ptrsOf.
  rewrite Hv, isValuePointer_pointer, decode_encode_pointer by done. by apply list_elem_of_singleton.
Qed.

(** A stored value resolves to what it stands for. *)
Lemma resolve_stored e g spare pd n a u :
  eng_inv e g spare pd -> room (e_vl e) n -> a ∈ memE e ++ immE e ++ lsmE e -> denotes (g_iss g) (Value a) u ->
  exists vl, resolveValue aesEncrypt (e_vl e) (Value a) = (Some u, vl) /\ eng_inv (set_vl e vl) g spare pd /\ room vl n /\
    vl_live vl = vl_live (e_vl e) /\ vl_active vl = vl_active (e_vl e).
Proof.
  intros Hi Hr Ha Hd. pose proof (ei_vl _ _ _ _ Hi) as Hvl.
  assert (forall vl, vl = e_vl e -> eng_inv (set_vl e vl) g spare pd /\ room vl n /\ vl_live vl = vl_live (e_vl e) /\ vl_active vl = vl_active (e_vl e)) as Hsame.
  { intros vl ->. split; [by apply inv_set_vl|done]. }
  destruct Hd as [->|(vp & Hvp & Hv)]; [exists (e_vl e); split; [done|by apply Hsame]|].
  destruct (vh_vp _ _ _ _ Hvl vp u Hvp) as [Hok Hsz]. destruct (decide (vp_size vp = 0)) as [Hz|Hnz].
  - assert (u = []) as -> by (destruct u; [done|simpl in Hsz; lia]). exists (e_vl e). split; [|by apply Hsame].
    rewrite Hv. unfold resolveValue. change (encodeValuePointer vp) with (valFlagPointer :: tail (encodeValuePointer vp)) at 1. cbv iota.
    change (valFlagPointer =? valFlagInline) with false. cbv iota.
    change (valFlagPointer :: tail (encodeValuePointer vp)) with (encodeValuePointer vp).
    rewrite isValuePointer_pointer, decode_encode_pointer, Hz by done. done.
  - rewrite Hv, resolve_pointer by done. pose proof (holds_read aesEncrypt reg (e_vl e) (g_iss g) n vp Hvl Hr) as Hread.
    destruct (vlog_ReadValue aesEncrypt (e_vl e) vp) as [r vl]. destruct Hread as (Hh & Hr' & Hl & Hact & Hval).
    rewrite (Hval u Hvp); [|apply (ei_live _ _ _ _ Hi); [apply elem_of_app; right; by eapply elem_of_ptrs|done]].
    exists vl. split; [done|]. split; [by apply inv_set_vl|done].
Qed.

(** What a read leaves: the value log with a flushed buffer. *)
Definition reads_as (e : Engine) (g : Ghost) (spare : list ValuePointer) (pd : list Z) (n : Z) {A} (x : A) (r : A) (e' : Engine) : Prop :=
  r = x /\ exists vl, e' = set_vl e vl /\ eng_inv e' g spare pd /\ room vl n /\
    vl_live vl = vl_live (e_vl e) /\ vl_active vl = vl_active (e_vl e).

Lemma set_vl_same e : set_vl e (e_vl e) = e.
Proof. by destruct e. Qed.

Lemma reads_nothing e g spare pd n {A} (x : A) : eng_inv e g spare pd -> room (e_vl e) n -> reads_as e g spare pd n x x e.
Proof. intros Hi Hr. split; [done|]. exists (e_vl e). by rewrite set_vl_same. Qed.

Lemma answerWith_runs e g spare pd n r o :
  eng_inv e g spare pd -> room (e_vl e) n ->
  match r with
  | Found raw x => exists u a, o = Some (u, x) /\ denotes (g_iss g) raw u /\ a ∈ memE e ++ immE e ++ lsmE e /\ Value a = raw
  | _ => o = None
  end ->
  runs (answerWith aesEncrypt r) e (reads_as e g spare pd n (answerOf o)).
Proof.
  intros Hi Hr Ho. destruct r as [| |raw x]; [subst o; by apply reads_nothing..|]. destruct Ho as (u & a & -> & Hd & Ha & <-).
  unfold answerWith. run_get. destruct (resolve_stored e g spare pd n a u Hi Hr Ha Hd) as (vl & -> & Hi' & Hr' & Hl & Hact).
  run_put. apply runs_ret. split; [done|]. by exists vl.
Qed.

Lemma getByAt_runs e g spare pd n now key v :
  eng_inv e g spare pd -> room (e_vl e) n -> g_floor g <= v -> g_time g <= now ->
  runs (getByAt aesEncrypt now key v) e (reads_as e g spare pd n (answerOf (logRead now (g_log g) key v))).
Proof.
  intros Hi Hr Hv Hnow. unfold getByAt. run_get. apply answerWith_runs; [done|done|].
  pose proof (lookupAt_spec e g spare pd now key v Hi Hv Hnow) as Hl. pose proof (log_lookup e g spare pd now key v Hi) as Hlog.
  rewrite <- Hl in Hlog. destruct (lookupAt now e key v) as [| |raw x] eqn:E; [done|done|]. cbn [found] in Hlog.
  destruct Hlog as (u & Hu & Hd). destruct (lookupAt_stored e g spare pd now key v raw x Hi E) as (a & Ha & Hraw). eauto 10.
Qed.

(** The latest version, at the counter of the memtable or without bound. *)
Lemma getWithoutLock_runs e g spare pd n now key :
  eng_inv e g spare pd -> room (e_vl e) n -> g_floor g <= max_u64 -> nextTs (e_oracle e) <= max_u64 -> g_time g <= now ->
  runs (getWithoutLock aesEncrypt now key) e (reads_as e g spare pd n (answerOf (logRead now (g_log g) key max_u64))).
Proof.
  intros Hi Hr Hf Hn Hnow. unfold getWithoutLock. run_get. apply answerWith_runs; [done|done|].
  pose proof (lookupLatest_spec e g spare pd now key Hi Hf Hn Hnow) as Hl. pose proof (log_lookup e g spare pd now key max_u64 Hi) as Hlog.
  rewrite <- Hl in Hlog. pose proof (lookupLatest_at e g spare pd now key Hi Hn) as E.
  destruct (lookupLatest now e key) as [| |raw x]; [done|done|]. cbn [found] in Hlog. destruct Hlog as (u & Hu & Hd).
  destruct (lookupAt_stored e g spare pd now key max_u64 raw x Hi (eq_sym E)) as (a & Ha & Hraw). eauto 10.
Qed.

Lemma lookupAt_top e g spare pd now key v v' :
  eng_inv e g spare pd -> (forall a, a ∈ memE e ++ immE e ++ lsmE e -> Version a <= v) -> v <= v' ->
  lookupAt now e key v' = lookupAt now e key v.
Proof.
  intros Hi Hb Hv. unfold lookupAt. f_equal. destruct (ei_mem _ _ _ _ Hi) as [m Hm].
  setoid_rewrite elem_of_app in Hb. setoid_rewrite elem_of_app in Hb.
  rewrite !(readLevels_spec _ key _ (ei_lsm _ _ _ _ Hi)), (snapshot_top (allEntries _) key v v') by auto.
  rewrite !(mem_lookup now _ m), (snapshot_top (contents (e_memTable e)) key v v') by auto. f_equal.
  unfold immE in Hb. destruct (e_immMemTable e) as [im|] eqn:Eim; [|done]. destruct (imm_refines _ _ _ _ _ Hi Eim) as [ms Hms].
  cbn [fmap option_fmap option_map option_list]. by rewrite !(mem_lookup now _ ms), (snapshot_top (contents im) key v v') by auto.
Qed.

Lemma getByString_runs e g spare pd n now key :
  eng_inv e g spare pd -> room (e_vl e) n -> g_floor g <= max_u64 -> nextTs (e_oracle e) <= max_u64 -> g_time g <= now ->
  sl_versionCounter (e_memTable e) <= max_u64 ->
  runs (getByString aesEncrypt now key) e (reads_as e g spare pd n (answerOf (logRead now (g_log g) key max_u64))).
Proof.
  intros Hi Hr Hf Hn Hnow Hc. unfold getByString, getByAt. run_get. run_get.
  rewrite <- (lookupAt_top e g spare pd now key _ max_u64 Hi); [|intros a Ha|done].
  - exact (getByAt_runs e g spare pd n now key max_u64 Hi Hr Hf Hnow).
  - apply (ei_counter _ _ _ _ Hi). unfold everything. set_solver.
Qed.
End inv.
