(* ===== verification/EngineSteps.v ===== *)
(** * The steps of the engine keep the invariant

    One lemma per operation of [Engine]: from a state that satisfies
    [eng_inv], the operation returns and leaves [eng_inv], with the log of
    writes extended by exactly what the request asks for. *)

From Stdlib Require Import Floats.SpecFloat.
From S2P Require Import Prelude Mvcc Oracle SkipList Heap Iterator Strconv Threshold Checksum Crypto Registry Framing Wal Vlog Values VlogSpec SstBlock SstTable TableRead Compaction Engine EngineInv.

Definition g_issue (g : Ghost) (x : ValuePointer * bytes) : Ghost :=
  mkGhost (x :: g_iss g) (g_dropped g) (g_old g) (g_log g) (g_rotOld g) (g_rot g) (g_floor g) (g_time g) (g_sealed g).
Definition g_write (g : Ghost) (u : Entry) : Ghost :=
  mkGhost (g_iss g) (g_dropped g) (g_old g) (u :: g_log g) (g_rotOld g) (g_rot g) (g_floor g) (g_time g) (g_sealed g).

(** Ghosts that differ in the pointers handed out only. *)
Definition more_issued (g g' : Ghost) : Prop :=
  exists xs, g' = mkGhost (xs ++ g_iss g) (g_dropped g) (g_old g) (g_log g) (g_rotOld g) (g_rot g) (g_floor g) (g_time g) (g_sealed g).

Lemma more_issued_refl g : more_issued g g.
Proof. exists []. by destruct g. Qed.

Lemma more_issued_trans g1 g2 g3 : more_issued g1 g2 -> more_issued g2 g3 -> more_issued g1 g3.
Proof. intros [xs ->] [ys ->]. exists (ys ++ xs). by rewrite <- app_assoc. Qed.

Lemma more_issued_issue g x : more_issued g (g_issue g x).
Proof. by exists [x]. Qed.

(** ** Small steps *)

Section steps.
Context (aesEncrypt : bytes -> bytes -> bytes).
Hypothesis aes_wf : forall k b, wf_bytes (aesEncrypt k b).
Context (reg : option KeyRegistry).
Hypothesis reg_ok : registry_ok reg.

Abbreviation inv := (eng_inv aesEncrypt reg).

(** Fields the invariant does not mention. *)
Lemma inv_set_wal e g sp pd w files : inv e g sp pd -> inv (set_wal e w files) g sp pd.
Proof. by intros []. Qed.

Lemma inv_set_expiry e g sp pd h m : inv e g sp pd -> inv (set_expiry e h m) g sp pd.
Proof. by intros []. Qed.

Lemma inv_set_gc e g sp pd stats pending ts : inv e g sp pd -> inv (set_gc e (e_vlogDiscards e) stats pending ts) g sp pd.
Proof. by intros []. Qed.

Lemma inv_set_oracle e g sp pd o : inv e g sp pd -> nextTs o = nextTs (e_oracle e) -> inv (set_oracle e o) g sp pd.
Proof.
  intros [] Ho. split; try done; cbn [set_oracle e_oracle]; rewrite ?Ho; try done.
Qed.

Lemma inv_threshold e g sp pd t : inv e g sp pd -> thr_ok t -> inv (set_threshold e t) g sp pd.
Proof. intros [] Ht. by split. Qed.

(** Fewer claims on the pointers handed out. *)
Lemma inv_spare e g sp sp' pd : sp' ⊆+ sp -> inv e g sp pd -> inv e g sp' pd.
Proof.
  intros Hs []. split; try done.
  - etrans; [|done]. by apply submseteq_app.
  - intros vp Hv. apply ei_live. apply elem_of_app in Hv as [Hv|Hv]; apply elem_of_app; [left|by right].
    by eapply elem_of_submseteq.
Qed.

Lemma inv_pd e g sp pd pd' : pd' ⊆+ pd -> inv e g sp pd -> inv e g sp pd'.
Proof.
  intros Hs []. split; try done. destruct ei_pd as (H1 & H2 & H3). split_and!.
  - rewrite Forall_forall in *. intros x Hx. apply H1. by eapply elem_of_submseteq.
  - destruct (submseteq_Permutation _ _ Hs) as [k Hk]. rewrite Hk in H2. by apply NoDup_app in H2 as [? _].
  - intros a Ha Hin. apply (H3 a Ha). by eapply elem_of_submseteq.
Qed.

(** What a piece of the write path leaves alone. *)
Definition keeps (e e' : Engine) (n : Z) : Prop := e_oracle e' = e_oracle e /\ room (e_vl e') n.

Lemma trackExpiry_runs e g sp pd n key x :
  inv e g sp pd -> room (e_vl e) n -> runs (trackExpiry key x) e (fun _ e' => inv e' g sp pd /\ keeps e e' n).
Proof.
  intros Hi Hr. unfold trackExpiry. run_get. destruct key as [|b key]; [by apply runs_ret|].
  case_if; [apply runs_putE; split; [by apply inv_set_expiry|done]|].
  case_bool_decide; [by apply runs_ret|]. apply runs_putE. split; [by apply inv_set_expiry|done].
Qed.

Lemma recordValueSize_runs e g sp pd n k :
  inv e g sp pd -> room (e_vl e) n -> runs (recordValueSize k) e (fun _ e' => inv e' g sp pd /\ keeps e e' n).
Proof.
  intros Hi Hr. unfold recordValueSize. run_get. pose proof (ei_thr _ _ _ _ _ _ Hi) as Ht.
  destruct (e_threshold e) as [t|] eqn:E; [|by apply runs_ret]. destruct Ht as (w & p & lo & hi & sizes & Hw & Hrk & Hring).
  destruct (ring_record w p lo hi Hw Hrk sizes t (Z.of_nat k) Hring) as (t' & -> & Hring').
  apply runs_putE. split; [|done]. apply inv_threshold; [done|]. by exists w, p, lo, hi, (sizes ++ [Z.of_nat k]).
Qed.

Lemma walWrite_runs e g sp pd n w op key val x seq :
  inv e g sp pd -> room (e_vl e) n ->
  runs (walWrite aesEncrypt w op key val x seq) e (fun _ e' => inv e' g sp pd /\ keeps e e' n).
Proof.
  intros Hi Hr. unfold walWrite. run_get. apply runs_putE.
  destruct (holds_sync aesEncrypt reg (e_vl e) (g_iss g) n (ei_vl _ _ _ _ _ _ Hi) Hr) as (Hh & Hr' & Hl & Ha).
  split; [|done]. by apply (inv_set_vl aesEncrypt reg (set_wal e _ _)); [apply inv_set_wal| | |].
Qed.

(** Handing out a pointer. *)
Lemma inv_issue e g sp pd vl vp v :
  inv e g sp pd -> vl_holds aesEncrypt reg vl ((vp, v) :: g_iss g) -> vl_live (e_vl e) ⊆ vl_live vl ->
  vl_live vl ⊆ {[vl_active vl]} ∪ vl_live (e_vl e) -> vl_active (e_vl e) <= vl_active vl -> vp_fid vp = vl_active vl ->
  inv (set_vl e vl) (g_issue g (vp, v)) (vp :: sp) pd.
Proof.
  intros Hi Hh Hsub Hsup Hact Hfid. pose proof (vi_active _ _ _ _ _ (vh_inv _ _ _ _ Hh)) as [_ Ha].
  pose proof (vi_active _ _ _ _ _ (vh_inv _ _ _ _ (ei_vl _ _ _ _ _ _ Hi))) as [_ Ha0]. destruct Hi. split; try done.
  - destruct ei_hist as (hist & H1 & H2 & H3). exists hist. split; [done|]. split; [done|].
    eapply Forall_impl; [exact H3|]. intros p. apply entry_rep_more.
  - cbn [g_issue g_iss g_dropped]. rewrite fmap_cons. by apply submseteq_skip.
  - intros vp' [->|Hv]%elem_of_cons Hs; cbn [set_vl e_vl]; [by rewrite Hfid|]. apply Hsub. by apply ei_live.
  - intros fid Hf. cbn [set_vl e_vl e_vlogDiscards g_issue g_dropped] in *. apply ei_discards.
    destruct Hf as [Hf|Hf]; [|right; lia]. apply Hsup in Hf as [->%elem_of_singleton|Hf]%elem_of_union; [|by left].
    destruct (decide (vl_active vl = vl_active (e_vl e))) as [->|]; [by left|right; lia].
  - intros x Hx. cbn [set_vl e_vl g_issue g_sealed g_iss] in *. destruct (ei_sealed x Hx) as [Hlt ->]. split; [lia|].
    rewrite fmap_cons, ptrBytes_cons. cbn [fst]. by rewrite (proj2 (Z.eqb_neq _ _)) by lia.
Qed.

Lemma vlWrite_runs e g sp pd n w key val x :
  inv e g sp pd -> room (e_vl e) (n + cost key val + 64) -> 0 <= n -> ventry_ok (mkValueEntry OpPut key val x) -> iv_ok (wd_ivVlog w) ->
  runs (vlWrite aesEncrypt w key val x) e (fun r e' => exists vp, r = Some vp /\
    inv e' (g_issue g (vp, val)) (vp :: sp) pd /\ keeps e e' n).
Proof.
  intros Hi Hr Hn He Hiv. unfold vlWrite. run_get.
  destruct (holds_write aesEncrypt aes_wf reg reg_ok (e_vl e) (g_iss g) n (mkValueEntry OpPut key val x) (wd_ivVlog w)
    (ei_vl _ _ _ _ _ _ Hi) Hr Hn He Hiv) as (vp & vl & -> & Hh & Hr' & H1 & H2 & H3 & H4).
  run_put. apply runs_ret. exists vp. split; [done|]. split; [by apply inv_issue|done].
Qed.

(** *** Storing an entry in the memtable *)

Lemma hist_versions iss (hist : list (Entry * Entry)) :
  Forall (entry_rep iss) hist -> at_version <$> hist.*1 = at_version <$> hist.*2.
Proof.
  induction 1 as [|p l Hp Hl IH]; [done|]. rewrite !fmap_cons, IH. f_equal. unfold at_version.
  by rewrite (er_key _ _ Hp), (er_version _ _ Hp).
Qed.

(** The log names the same versions as the stored entries. *)
Lemma log_versions e g sp pd : inv e g sp pd -> at_version <$> everything e g ≡ₚ at_version <$> g_log g.
Proof.
  intros Hi. destruct (ei_hist _ _ _ _ _ _ Hi) as (hist & Hp & -> & Hrep). by rewrite Hp, (hist_versions (g_iss g)).
Qed.

(** The version may be written for the key. *)
Definition writable (e : Engine) (g : Ghost) (pd : list Z) (seq : Z) : Prop :=
  0 < seq /\ g_rot g < seq <= nextTs (e_oracle e) /\ seq ∉ pd.

Lemma inv_store e g sp sp' pd m m' a u :
  inv e g sp pd -> writable e g pd (Version a) -> at_version a ∉ at_version <$> g_log g ->
  refines m' (mkMemSpec (a :: ms_entries m) (Z.max (ms_counter m) (Version a))) -> refines (e_memTable e) m ->
  entry_rep (g_iss g) (a, u) -> sp ≡ₚ ptrsOf a ++ sp' ->
  inv (set_mem e m' (e_immMemTable e)) (g_write g u) sp' pd.
Proof.
  intros Hi (_ & Hseq & Hpd) Hfresh Hm' Hm Hrep Hsp. set (e' := set_mem e m' (e_immMemTable e)).
  pose proof Hm as (_ & Hc & Hperm & _). pose proof Hm' as (_ & Hc' & Hperm' & _). cbn [ms_entries ms_counter] in *.
  assert (memE e' ≡ₚ a :: memE e) as Hmem by (unfold memE, e'; cbn [set_mem e_memTable]; by rewrite Hperm', Hperm).
  assert (everything e' (g_write g u) ≡ₚ a :: everything e g) as Hev by (unfold everything; by rewrite Hmem).
  pose proof (log_versions _ _ _ _ Hi) as Hlog. destruct Hi. split; try done.
  - by eexists.
  - intros b. rewrite Hmem. intros [->|Hb]%elem_of_cons; [cbn; lia|by apply ei_new].
  - intros b. rewrite Hev. intros [->|Hb]%elem_of_cons; [cbn; lia|by apply ei_next].
  - intros b. rewrite Hev. cbn [e' set_mem e_memTable]. rewrite Hc'. intros [[->|Hb]%elem_of_cons|Hb]; [lia| |].
    + specialize (ei_counter b (or_introl Hb)). lia.
    + specialize (ei_counter b (or_intror Hb)). lia.
  - rewrite Hev, fmap_cons. apply NoDup_cons. split; [by rewrite Hlog|done].
  - destruct ei_hist as (hist & H1 & H2 & H3). exists ((a, u) :: hist). cbn [g_write g_log g_iss]. rewrite Hev, H1, H2. split; [done|].
    split; [done|]. by constructor.
  - cbn [g_write g_iss g_dropped]. etrans; [|exact ei_ptrs]. apply Permutation_submseteq. unfold ptrs.
    change (immE e') with (immE e). change (lsmE e') with (lsmE e).
    rewrite Hmem, Hsp, <- app_comm_cons, bind_cons, <- !app_assoc. apply Permutation_app_swap_app.
  - intros vp Hv. apply ei_live. revert Hv. unfold ptrs. change (immE e') with (immE e). change (lsmE e') with (lsmE e).
    rewrite Hmem, Hsp, <- app_comm_cons, bind_cons. rewrite !elem_of_app. tauto.
  - destruct ei_pd as (H1 & H2 & H3). split_and!; [done|done|]. intros b. rewrite Hev. intros [->|Hb]%elem_of_cons; [done|by apply H3].
  - cbn [e' set_mem e_memTable e_oracle]. rewrite Hc'. lia.
Qed.

Definition putEntry (key val : bytes) (x seq : Z) : Entry := mkEntry key val false x seq.
Definition delEntry (key : bytes) (seq : Z) : Entry := mkEntry key [] true 0 seq.

(** A memtable write either returns a memtable or is a nil dereference; the
    latter does not happen. *)
Lemma mem_write e g sp sp' pd op a u :
  inv e g sp pd -> writable e g pd (Version a) -> at_version a ∉ at_version <$> g_log g ->
  (forall m, specOp m op = mkMemSpec (a :: ms_entries m) (Z.max (ms_counter m) (Version a))) ->
  entry_rep (g_iss g) (a, u) -> sp ≡ₚ ptrsOf a ++ sp' ->
  exists m', memStep (e_memTable e) op = Some m' /\ inv (set_mem e m' (e_immMemTable e)) (g_write g u) sp' pd.
Proof.
  intros Hi Hw Hf Hop Hrep Hsp. destruct (ei_mem _ _ _ _ _ _ Hi) as [m Hm].
  destruct (memStep_refines (e_memTable e) m op Hm) as (m' & Hm' & Href & _). exists m'. split; [done|].
  rewrite Hop in Href. by eapply inv_store.
Qed.

Lemma specVersion_nonzero c seq : 0 < seq -> specVersion c seq = (seq, Z.max c seq).
Proof. intros. unfold specVersion. by rewrite (proj2 (Z.eqb_neq _ _)) by lia. Qed.

(** How a value is handed to the memtable: inline, or by a spare pointer. *)
Definition stored_as (g : Ghost) (sp sp' : list ValuePointer) (raw val : bytes) : Prop :=
  (raw = encodeInlineValue val /\ sp' = sp) \/ exists vp, raw = encodeValuePointer vp /\ (vp, val) ∈ g_iss g /\ sp = vp :: sp'.

Lemma mtPut_runs e g sp sp' pd n key raw val x seq :
  inv e g sp pd -> room (e_vl e) n -> writable e g pd seq -> (key, seq) ∉ at_version <$> g_log g ->
  stored_as g sp sp' raw val ->
  runs (mtPut key raw x seq) e (fun _ e' => inv e' (g_write g (putEntry key val x seq)) sp' pd /\ keeps e e' n).
Proof.
  intros Hi Hr Hw Hf Hst. unfold mtPut. run_get.
  destruct (mem_write e g sp sp' pd (MPut key raw x seq) (putEntry key raw x seq) (putEntry key val x seq)) as (m' & Hm' & Hi'); try done.
  - intros m. simpl. by rewrite specVersion_nonzero by apply Hw.
  - split; try done. intros _. destruct Hst as [[-> _]|(vp & -> & Hv & _)]; [by left|right; by exists vp].
  - unfold ptrsOf. cbn [putEntry Value]. destruct Hst as [[-> ->]|(vp & -> & Hv & ->)]; [by rewrite isValuePointer_inline|].
    destruct (vh_vp _ _ _ _ (ei_vl _ _ _ _ _ _ Hi) vp val Hv) as [Hok _]. by rewrite isValuePointer_pointer, decode_encode_pointer.
  - cbn [memStep] in Hm'. rewrite Hm'. by apply runs_putE.
Qed.

Lemma mtDelete_runs e g sp pd n key seq :
  inv e g sp pd -> room (e_vl e) n -> writable e g pd seq -> (key, seq) ∉ at_version <$> g_log g ->
  runs (mtDelete key seq) e (fun _ e' => inv e' (g_write g (delEntry key seq)) sp pd /\ keeps e e' n).
Proof.
  intros Hi Hr Hw Hf. unfold mtDelete. run_get.
  destruct (mem_write e g sp sp pd (MDelete key seq) (delEntry key seq) (delEntry key seq)) as (m' & Hm' & Hi'); try done.
  - intros m. simpl. by rewrite specVersion_nonzero by apply Hw.
  - cbn [memStep] in Hm'. rewrite Hm'. by apply runs_putE.
Qed.

(** ** Entries and batches *)

(** Keys and values as the protocol delivers them; no value has the form of a
    stored pointer. *)
Record kv_ok (key val : bytes) (x : Z) : Prop := {
  kv_key : wf_bytes key /\ Z.of_nat (length key) < 2 ^ 32;
  kv_val : wf_bytes val /\ Z.of_nat (length val) < 2 ^ 32;
  kv_exp : is_i64 x;
  kv_plain : isValuePointer val = false;
}.

Lemma FormatInt_plain n : isValuePointer (FormatInt n) = false.
Proof. unfold isValuePointer. apply andb_false_iff. right. apply Z.eqb_neq, FormatInt_head. Qed.

Lemma kv_ventry key val x : kv_ok key val x -> ventry_ok (mkValueEntry OpPut key val x).
Proof. intros [[? ?] [? ?] ? _]. by split. Qed.

Lemma writable_keeps e e' g g' pd n seq : keeps e e' n -> g_rot g' = g_rot g -> writable e g pd seq -> writable e' g' pd seq.
Proof. unfold writable. intros [-> _] ->. done. Qed.

(** One entry, logged and applied. *)
Lemma applyEntry_put e g pd n w key val x seq :
  inv e g [] pd -> room (e_vl e) (n + cost key val + 64) -> 0 <= n -> kv_ok key val x -> iv_ok (wd_ivVlog w) ->
  writable e g pd seq -> (key, seq) ∉ at_version <$> g_log g ->
  runs (applyEntry aesEncrypt w OpPut key val x seq) e (fun r e' => r = None /\ keeps e e' n /\
    exists g1, more_issued g g1 /\ inv e' (g_write g1 (putEntry key val x seq)) [] pd).
Proof.
  intros Hi Hr Hn Hkv Hiv Hw Hf. unfold applyEntry. run_get. change (OpPut =? OpDelete) with false. cbv iota.
  eapply runs_step; [by apply recordValueSize_runs|]. intros _ e1 [Hi1 Hk1]. pose proof Hk1 as [Ho1 Hr1].
  assert (forall m, m <= n + cost key val + 64 -> room (e_vl e1) m) as Hroom by (intros m Hm; by eapply room_le).
  destruct (Z.of_nat (length val) <? valueThreshold e).
  - eapply runs_step; [eapply (walWrite_runs e1 g [] pd n); [done|apply Hroom; unfold cost; lia]|]. intros _ e2 [Hi2 [Ho2 Hr2]].
    assert (writable e2 g pd seq) as Hw2 by (unfold writable; by rewrite Ho2, Ho1).
    eapply runs_step; [eapply (mtPut_runs e2 g [] [] pd n); [done..|by left]|]. intros _ e3 [Hi3 [Ho3 Hr3]].
    eapply runs_step; [by eapply trackExpiry_runs|]. intros _ e4 [Hi4 [Ho4 Hr4]]. apply runs_ret.
    split; [done|]. split; [split; [congruence|done]|]. exists g. split; [apply more_issued_refl|done].
  - eapply runs_step; [eapply (vlWrite_runs e1 g [] pd n); [done|by apply Hroom|done|by apply kv_ventry|done]|].
    intros r e2 (vp & -> & Hi2 & [Ho2 Hr2]).
    eapply runs_step; [by eapply walWrite_runs|]. intros _ e3 [Hi3 [Ho3 Hr3]].
    assert (writable e3 (g_issue g (vp, val)) pd seq) as Hw3 by (unfold writable; by rewrite Ho3, Ho2, Ho1).
    eapply runs_step; [eapply (mtPut_runs e3 (g_issue g (vp, val)) [vp] [] pd n); [done|done|done|done|right; exists vp; split_and!; [done|left|done]]|].
    intros _ e4 [Hi4 [Ho4 Hr4]].
    eapply runs_step; [by eapply trackExpiry_runs|]. intros _ e5 [Hi5 [Ho5 Hr5]]. apply runs_ret.
    split; [done|]. split; [split; [congruence|done]|]. eexists. split; [apply more_issued_issue|done].
Qed.

Lemma applyEntry_delete e g pd n w key val x seq :
  inv e g [] pd -> room (e_vl e) n -> writable e g pd seq -> (key, seq) ∉ at_version <$> g_log g ->
  runs (applyEntry aesEncrypt w OpDelete key val x seq) e (fun r e' => r = None /\ keeps e e' n /\
    inv e' (g_write g (delEntry key seq)) [] pd).
Proof.
  intros Hi Hr Hw Hf. unfold applyEntry. run_get. change (OpDelete =? OpDelete) with true. cbv iota.
  eapply runs_step; [by eapply walWrite_runs|]. intros _ e1 [Hi1 [Ho1 Hr1]].
  assert (writable e1 g pd seq) as Hw1 by (unfold writable; by rewrite Ho1).
  eapply runs_step; [by eapply mtDelete_runs|]. intros _ e2 [Hi2 [Ho2 Hr2]].
  eapply runs_step; [by eapply trackExpiry_runs|]. intros _ e3 [Hi3 [Ho3 Hr3]]. apply runs_ret.
  split; [done|]. split; [split; [congruence|done]|done].
Qed.

(** *** Batches *)

Definition batch_ok (b : BatchWriteEntry) : Prop := bw_deleted b = false -> kv_ok (bw_key b) (bw_value b) (bw_expiresAt b).

Definition batchEntry (seq : Z) (b : BatchWriteEntry) : Entry :=
  if bw_deleted b then delEntry (bw_key b) seq else putEntry (bw_key b) (bw_value b) (bw_expiresAt b) seq.

Fixpoint batchCost (batch : list BatchWriteEntry) : Z :=
  match batch with [] => 0 | b :: batch => cost (bw_key b) (bw_value b) + 64 + batchCost batch end.

Lemma batchCost_nonneg batch : 0 <= batchCost batch.
Proof. induction batch; simpl; unfold cost; lia. Qed.

(** The result of logging an entry. *)
Record result_of (iss : list (ValuePointer * bytes)) (b : BatchWriteEntry) (r : batchResult) : Prop := {
  rs_key : br_key r = bw_key b;
  rs_deleted : br_deleted r = bw_deleted b;
  rs_put : bw_deleted b = false -> br_expAt r = bw_expiresAt b /\
    match br_vp r with Some vp => (vp, bw_value b) ∈ iss | None => br_val r = bw_value b end;
  rs_del : bw_deleted b = true -> br_vp r = None;
}.

Lemma result_of_more iss xs b r : result_of iss b r -> result_of (xs ++ iss) b r.
Proof.
  intros [H1 H2 H3 H4]. split; try done. intros Hd. destruct (H3 Hd) as [? Hv]. split; [done|]. destruct (br_vp r); [|done].
  apply elem_of_app. by right.
Qed.

Lemma result_more g g' b r : more_issued g g' -> result_of (g_iss g) b r -> result_of (g_iss g') b r.
Proof. intros [xs ->]. apply result_of_more. Qed.

(** What logging a batch achieves. *)
Definition logged (e : Engine) (g : Ghost) (sp : list ValuePointer) (pd : list Z) (n : Z) (batch : list BatchWriteEntry)
    (results : list batchResult) (out : list batchResult * option err) (e' : Engine) : Prop :=
  exists new g', out = (results ++ new, None) /\ more_issued g g' /\ Forall2 (result_of (g_iss g')) batch new /\
    inv e' g' (omap br_vp new ++ sp) pd /\ keeps e e' n.

(** One entry in front of a logged rest. *)
Lemma logged_cons e e1 g g1 sp pd n b batch results r out e' :
  logged e1 g1 (option_list (br_vp r) ++ sp) pd n batch (results ++ [r]) out e' ->
  more_issued g g1 -> result_of (g_iss g1) b r -> e_oracle e1 = e_oracle e ->
  logged e g sp pd n (b :: batch) results out e'.
Proof.
  intros (new & g' & -> & Hg & Hres & Hi & [Ho Hr]) Hg1 Hb He. exists (r :: new), g'. split; [by rewrite <- app_assoc|].
  split; [by eapply more_issued_trans|]. split; [constructor; [by eapply result_more|done]|].
  split; [|split; [congruence|done]]. eapply inv_spare; [|exact Hi]. cbn [omap list_omap]. apply Permutation_submseteq.
  destruct (br_vp r) as [vp|]; cbn; [|done]. symmetry. apply (Permutation_middle _ sp vp) || (rewrite <- Permutation_middle; done).
Qed.

Lemma logBatch_runs e g sp pd n w seq th batch results :
  inv e g sp pd -> room (e_vl e) (n + batchCost batch) -> 0 <= n -> Forall batch_ok batch -> iv_ok (wd_ivVlog w) ->
  runs (logBatch aesEncrypt w seq th batch results) e (logged e g sp pd n batch results).
Proof.
  revert e g sp results. induction batch as [|b batch IH]; intros e g sp results Hi Hr Hn Hok Hiv.
  { apply runs_ret. exists [], g. split; [by rewrite app_nil_r|]. split; [apply more_issued_refl|]. split; [constructor|].
    split; [done|]. split; [done|]. eapply room_le; [|done]. simpl. lia. }
  apply Forall_cons in Hok as [Hb Hok]. cbn [logBatch batchCost] in *. pose proof (batchCost_nonneg batch) as Hc.
  set (cb := cost (bw_key b) (bw_value b)) in *. assert (0 <= cb) by (unfold cb, cost; lia).
  destruct (bw_deleted b) eqn:Ed.
  - eapply runs_step; [eapply (walWrite_runs e g sp pd (n + batchCost batch)); [done|eapply room_le; [|done]; lia]|].
    intros _ e1 [Hi1 [Ho1 Hr1]].
    eapply runs_mono; [by eapply IH|]. intros out e' Hout.
    eapply (logged_cons e e1 g g sp pd n b batch results); [exact Hout|apply more_issued_refl| |done].
    split; cbn; try done. congruence.
  - eapply runs_step; [eapply (recordValueSize_runs e g sp pd (n + (cb + 64 + batchCost batch))); done|].
    intros _ e1 [Hi1 [Ho1 Hr1]]. destruct (_ <? th).
    + eapply runs_step; [eapply (walWrite_runs e1 g sp pd (n + batchCost batch)); [done|eapply room_le; [|done]; lia]|].
      intros _ e2 [Hi2 [Ho2 Hr2]]. eapply runs_mono; [by eapply IH|]. intros out e' Hout.
      eapply (logged_cons e e2 g g sp pd n b batch results); [exact Hout|apply more_issued_refl| |congruence].
      split; cbn; try done.
    + eapply runs_step; [eapply (vlWrite_runs e1 g sp pd (n + batchCost batch)); [done| |lia|by apply kv_ventry, Hb|done]|].
      { fold cb. eapply room_le; [|exact Hr1]. lia. }
      intros rv e2 (vp & -> & Hi2 & [Ho2 Hr2]).
      eapply runs_step; [by eapply walWrite_runs|]. intros _ e3 [Hi3 [Ho3 Hr3]].
      eapply runs_mono; [by eapply IH|]. intros out e' Hout.
      eapply (logged_cons e e3 g (g_issue g (vp, bw_value b)) sp pd n b batch results); [exact Hout|apply more_issued_issue| |congruence].
      split; cbn; try done; [|congruence]. intros _. split; [done|left].
Qed.

Definition g_writes (g : Ghost) (us : list Entry) : Ghost := foldl g_write g us.

Lemma applyResults_runs e g pd n seq batch results :
  Forall2 (result_of (g_iss g)) batch results -> inv e g (omap br_vp results) pd -> room (e_vl e) n -> writable e g pd seq ->
  NoDup (bw_key <$> batch) -> (forall b, b ∈ batch -> (bw_key b, seq) ∉ at_version <$> g_log g) ->
  runs (applyResults seq results) e (fun _ e' => inv e' (g_writes g (batchEntry seq <$> batch)) [] pd /\ keeps e e' n).
Proof.
  intros Hres. revert e g Hres. induction results as [|r results IH] in batch |- *; intros e g Hres Hi Hr Hw Hnd Hf.
  { apply Forall2_nil_inv_r in Hres as ->. by apply runs_ret. }
  apply Forall2_cons_inv_r in Hres as (b & batch' & [Hk Hd Hp Hx] & Hres & ->). rewrite fmap_cons in Hnd.
  apply NoDup_cons in Hnd as [Hnk Hnd]. rewrite fmap_cons. cbn [applyResults g_writes foldl].
  assert (forall b', b' ∈ batch' -> (bw_key b', seq) ∉ at_version <$> g_log (g_write g (batchEntry seq b))) as Hf'.
  { intros b' Hb'. cbn [g_write g_log]. rewrite fmap_cons. apply not_elem_of_cons. split; [|apply Hf; by right].
    intros E. apply Hnk. assert (bw_key b' = bw_key b) as <- by (unfold batchEntry in E; destruct (bw_deleted b); by injection E).
    by apply list_elem_of_fmap_2. }
  assert (Hfb : (bw_key b, seq) ∉ at_version <$> g_log g) by (apply Hf; left).
  eapply (runs_step _ _ _ (fun _ e1 => inv e1 (g_write g (batchEntry seq b)) (omap br_vp results) pd /\ keeps e e1 n)).
  - rewrite Hd, Hk. unfold batchEntry. destruct (bw_deleted b) eqn:Ed.
    + cbn in Hi. rewrite (Hx eq_refl) in Hi.
      eapply runs_step; [by eapply mtDelete_runs|]. intros _ e1 [Hi1 [Ho1 Hr1]].
      eapply runs_mono; [by eapply trackExpiry_runs|]. intros _ e2 [Hi2 [Ho2 Hr2]]. split; [done|]. split; [congruence|done].
    + destruct (Hp eq_refl) as [-> Hv]. cbn in Hi. destruct (br_vp r) as [vp|].
      * eapply runs_step; [eapply (mtPut_runs e g _ (omap br_vp results)); [done..|right; by exists vp]|]. intros _ e1 [Hi1 [Ho1 Hr1]].
        eapply runs_mono; [by eapply trackExpiry_runs|]. intros _ e2 [Hi2 [Ho2 Hr2]]. split; [done|]. split; [congruence|done].
      * rewrite Hv. eapply runs_step; [eapply (mtPut_runs e g _ (omap br_vp results)); [done..|by left]|]. intros _ e1 [Hi1 [Ho1 Hr1]].
        eapply runs_mono; [by eapply trackExpiry_runs|]. intros _ e2 [Hi2 [Ho2 Hr2]]. split; [done|]. split; [congruence|done].
  - intros _ e1 [Hi1 [Ho1 Hr1]]. eapply runs_mono; [eapply (IH batch' e1 (g_write g (batchEntry seq b))); try done|].
    + by apply (writable_keeps e e1 g _ pd n).
    + intros _ e2 [Hi2 [Ho2 Hr2]]. split; [done|]. split; [congruence|done].
Qed.

Lemma applyBatch_runs e g pd n w batch seq :
  inv e g [] pd -> room (e_vl e) (n + batchCost batch) -> 0 <= n -> Forall batch_ok batch -> iv_ok (wd_ivVlog w) ->
  writable e g pd seq -> NoDup (bw_key <$> batch) -> (forall u, u ∈ g_log g -> Version u <> seq) ->
  runs (applyBatch aesEncrypt w batch seq) e (fun r e' => r = None /\ keeps e e' n /\
    exists g1, more_issued g g1 /\ inv e' (g_writes g1 (batchEntry seq <$> batch)) [] pd).
Proof.
  intros Hi Hr Hn Hok Hiv Hw Hnd Hf. unfold applyBatch. run_get.
  eapply runs_step; [by eapply logBatch_runs|]. intros out e1 (new & g1 & -> & Hg1 & Hres & Hi1 & [Ho1 Hr1]).
  rewrite app_nil_l, app_nil_r in *. cbv beta iota.
  assert (g_log g1 = g_log g /\ g_rot g1 = g_rot g) as [Hlog Hrot] by (by destruct Hg1 as [xs ->]).
  eapply runs_step; [eapply (applyResults_runs e1 g1 pd n seq batch new); try done|].
  - by apply (writable_keeps e e1 g g1 pd n).
  - intros b _ (u & E & Hu)%list_elem_of_fmap. rewrite Hlog in Hu. apply (Hf u Hu). by injection E.
  - intros _ e2 [Hi2 [Ho2 Hr2]]. apply runs_ret. split; [done|]. split; [split; [congruence|done]|]. by exists g1.
Qed.

(** ** Requests against the log *)

Definition logTTL (now : Z) (log : list Entry) (key : bytes) : Z :=
  match logRead now log key max_u64 with Some (_, x) => calcRemaining now x | None => -2 end.

Definition logExists (now : Z) (log : list Entry) (key : bytes) : bool :=
  match logRead now log key max_u64 with Some _ => true | None => false end.

(** What a data request does to the log, and what it answers: the entries it
    adds, in order. *)
Definition logIncr (now : Z) (log : list Entry) (key : bytes) (delta seq : Z) : list Entry * incrResult :=
  let ttl := logTTL now log key in
  let x := if 0 <? ttl then i64 (now + ttl) else 0 in
  let cur :=
    match logRead now log key seq with
    | None => Some 0
    | Some ([], _) => Some 0
    | Some (text, _) => ParseInt text
    end in
  match cur with
  | None => ([], mkIncrResult 0 (Some ErrNotInteger))
  | Some cur => ([putEntry key (FormatInt (i64 (cur + delta))) x seq], mkIncrResult (i64 (cur + delta)) None)
  end.

Definition logRequest (now : Z) (log : list Entry) (r : writeReq) (seq : Z) : list Entry * incrResult :=
  if rq_op r =? opIncr then logIncr now log (rq_key r) (rq_delta r) seq
  else if (0 <? length (rq_batch r))%nat then (batchEntry seq <$> rq_batch r, mkIncrResult 0 None)
  else if rq_op r =? opGCRewrite then ([], mkIncrResult 0 None)
  else if rq_checkExists r && negb (logExists now log (rq_key r)) then ([], mkIncrResult 0 None)
  else if rq_op r =? OpDelete then ([delEntry (rq_key r) seq], mkIncrResult 1 None)
  else ([putEntry (rq_key r) (rq_val r) (rq_expiresAt r) seq], mkIncrResult 1 None).

(** The requests of clients and of the value-log collector. *)
Record req_ok (r : writeReq) : Prop := {
  rqo_op : rq_op r ∈ [0; OpPut; OpDelete; opIncr; opGCRewrite];
  rqo_kv : kv_ok (rq_key r) (rq_val r) (rq_expiresAt r);
  rqo_batch : Forall batch_ok (rq_batch r) /\ NoDup (bw_key <$> rq_batch r);
  rqo_kind : rq_op r = 0 -> rq_batch r <> [];
}.

Definition reqCost (r : writeReq) : Z := cost (rq_key r) (rq_val r) + batchCost (rq_batch r) + 256.

Lemma logLatest_spec e g sp pd now key :
  inv e g sp pd -> g_floor g <= max_u64 -> nextTs (e_oracle e) <= max_u64 -> g_time g <= now ->
  match lookupLatest now e key with
  | Found raw x => exists u, logRead now (g_log g) key max_u64 = Some (u, x)
  | _ => logRead now (g_log g) key max_u64 = None
  end.
Proof.
  intros Hi Hf Hn Hnow. pose proof (lookupLatest_spec aesEncrypt reg e g sp pd now key Hi Hf Hn Hnow) as Hl.
  pose proof (log_lookup aesEncrypt reg e g sp pd now key max_u64 Hi) as Hlog. rewrite <- Hl in Hlog.
  destruct (lookupLatest now e key); cbn [found] in Hlog; [done|done|]. destruct Hlog as (u & Hu & _). eauto.
Qed.

Lemma TTL_spec e g sp pd now key :
  inv e g sp pd -> g_floor g <= max_u64 -> nextTs (e_oracle e) <= max_u64 -> g_time g <= now ->
  TTL now e key = logTTL now (g_log g) key.
Proof.
  intros Hi Hf Hn Hnow. pose proof (logLatest_spec e g sp pd now key Hi Hf Hn Hnow) as Hl. unfold TTL, logTTL.
  destruct (lookupLatest now e key); [by rewrite Hl..|]. destruct Hl as (u & ->). done.
Qed.

Lemma exists_spec e g sp pd now key :
  inv e g sp pd -> g_floor g <= max_u64 -> nextTs (e_oracle e) <= max_u64 -> g_time g <= now ->
  existsWithoutLock now e key = logExists now (g_log g) key.
Proof.
  intros Hi Hf Hn Hnow. pose proof (logLatest_spec e g sp pd now key Hi Hf Hn Hnow) as Hl. unfold existsWithoutLock, logExists.
  destruct (lookupLatest now e key); [by rewrite Hl..|]. destruct Hl as (u & ->). done.
Qed.

(** What applying a request achieves. *)
Definition applied (e : Engine) (g : Ghost) (pd : list Z) (n : Z) (us : list Entry) (e' : Engine) : Prop :=
  keeps e e' n /\ exists g1, more_issued g g1 /\ inv e' (g_writes g1 us) [] pd.

Lemma cost_nonneg key val : 0 <= cost key val.
Proof. unfold cost. lia. Qed.

Lemma applied_none e g pd n : inv e g [] pd -> room (e_vl e) n -> applied e g pd n [] e.
Proof. intros Hi Hr. split; [done|]. exists g. split; [apply more_issued_refl|done]. Qed.

Lemma processIncr_runs e g pd n w key delta seq :
  inv e g [] pd -> room (e_vl e) (n + cost key [] + 256) -> 0 <= n -> kv_ok key [] 0 -> iv_ok (wd_ivVlog w) ->
  writable e g pd seq -> (forall u, u ∈ g_log g -> Version u <> seq) -> g_floor g <= seq -> nextTs (e_oracle e) <= max_u64 ->
  g_time g <= wd_now w ->
  let out := logIncr (wd_now w) (g_log g) key delta seq in
  runs (processIncr aesEncrypt w key delta seq) e (fun r e' => r = out.2 /\ applied e g pd n out.1 e').
Proof.
  intros Hi Hr Hn Hkv Hiv Hw Hfr Hfl Hnx Hnow out. unfold out, logIncr. cbv zeta.
  pose proof (proj1 (proj2 Hw)) as Hseq. unfold processIncr.
  assert (forall text x, kv_ok key (FormatInt text) (if 0 <? x then i64 (wd_now w + x) else 0)) as Hkv'.
  { intros text x. destruct (FormatInt_bytes text) as [Hb Hl]. destruct Hkv as [Hk _ _ _]. split; [done|split; [done|lia]| |apply FormatInt_plain].
    destruct (0 <? x); [apply i64_range|unfold is_i64; lia]. }
  run_get. rewrite (TTL_spec e g [] pd) by (done || lia). set (ttl := logTTL _ _ _).
  unfold getForReadAt. rewrite (proj2 (Z.eqb_neq _ _)) by (destruct Hw; lia).
  eapply runs_step; [by apply (getByAt_runs aesEncrypt reg e g [] pd (n + cost key [] + 256))|].
  intros cur e1 (-> & vl & -> & Hi1 & Hr1 & _). set (e1 := set_vl e vl) in *.
  assert (forall c, runs (r ← applyEntry aesEncrypt w OpPut key (FormatInt (i64 (c + delta))) (if 0 <? ttl then i64 (wd_now w + ttl) else 0) seq;
      mret (match r with Some err => mkIncrResult 0 (Some err) | None => mkIncrResult (i64 (c + delta)) None end)) e1
      (fun r e' => r = mkIncrResult (i64 (c + delta)) None /\
        applied e g pd n [putEntry key (FormatInt (i64 (c + delta))) (if 0 <? ttl then i64 (wd_now w + ttl) else 0) seq] e')) as Hput.
  { intros c. pose proof (proj2 (FormatInt_bytes (i64 (c + delta)))) as Hlen.
    eapply runs_step; [eapply (applyEntry_put e1 g pd n); try done|].
    - eapply room_le; [|exact Hr1]. unfold cost. simpl. lia.
    - intros (u & E & Hu)%list_elem_of_fmap. apply (Hfr u Hu). by injection E.
    - intros r e2 (-> & [Ho2 Hr2] & g1 & Hg1 & Hi2). apply runs_ret. split; [done|]. split; [done|]. by exists g1. }
  assert (applied e g pd n [] e1) as Hnone.
  { split; [split; [done|eapply room_le; [|exact Hr1]; pose proof (cost_nonneg key []); lia]|]. exists g. split; [apply more_issued_refl|done]. }
  destruct (logRead (wd_now w) (g_log g) key seq) as [[text x]|]; cbn [answerOf].
  - destruct text as [|b text]; [apply (Hput 0)|]. destruct (ParseInt (b :: text)) as [c|]; [apply Hput|]. by apply runs_ret.
  - apply (Hput 0).
Qed.

Lemma applyEntryOpts_put e g pd n w key val x seq skip :
  inv e g [] pd -> room (e_vl e) (n + cost key val + 64) -> 0 <= n -> kv_ok key val x -> iv_ok (wd_ivVlog w) ->
  writable e g pd seq -> (key, seq) ∉ at_version <$> g_log g ->
  runs (applyEntryOpts aesEncrypt w OpPut key val x seq skip) e (fun r e' => r = None /\ applied e g pd n [putEntry key val x seq] e').
Proof.
  intros Hi Hr Hn Hkv Hiv Hw Hf. unfold applyEntryOpts. destruct skip; cbn [negb].
  - change (OpPut =? OpDelete) with false. cbv iota.
    assert (room (e_vl e) n) as Hr0 by (eapply room_le; [|exact Hr]; pose proof (cost_nonneg key val); lia).
    eapply runs_step; [by apply recordValueSize_runs|]. intros _ e1 [Hi1 [Ho1 Hr1]].
    assert (writable e1 g pd seq) as Hw1 by (unfold writable; by rewrite Ho1).
    eapply runs_step; [eapply (mtPut_runs e1 g [] [] pd n); [done..|by left]|]. intros _ e2 [Hi2 [Ho2 Hr2]].
    eapply runs_step; [by eapply trackExpiry_runs|]. intros _ e3 [Hi3 [Ho3 Hr3]]. apply runs_ret.
    split; [done|]. split; [split; [congruence|done]|]. exists g. split; [apply more_issued_refl|done].
  - eapply runs_mono; [by eapply applyEntry_put|]. intros r e' (-> & Hk & g1 & Hg1 & Hi1). split; [done|]. split; [done|]. by exists g1.
Qed.

Lemma applyEntryOpts_delete e g pd n w key val x seq skip :
  inv e g [] pd -> room (e_vl e) n -> writable e g pd seq -> (key, seq) ∉ at_version <$> g_log g ->
  runs (applyEntryOpts aesEncrypt w OpDelete key val x seq skip) e (fun r e' => r = None /\ applied e g pd n [delEntry key seq] e').
Proof.
  intros Hi Hr Hw Hf. unfold applyEntryOpts. destruct skip; cbn [negb].
  - change (OpDelete =? OpDelete) with true. cbv iota.
    eapply runs_step; [by eapply mtDelete_runs|]. intros _ e2 [Hi2 [Ho2 Hr2]].
    eapply runs_step; [by eapply trackExpiry_runs|]. intros _ e3 [Hi3 [Ho3 Hr3]]. apply runs_ret.
    split; [done|]. split; [split; [congruence|done]|]. exists g. split; [apply more_issued_refl|done].
  - eapply runs_mono; [by eapply applyEntry_delete|]. intros r e' (-> & Hk & Hi1). split; [done|]. split; [done|].
    exists g. split; [apply more_issued_refl|done].
Qed.

Lemma MarkApplied_next o ts : nextTs (MarkApplied o ts) = nextTs o.
Proof. unfold MarkApplied. by case_if. Qed.

(** The end of every request. *)
Definition finished (e : Engine) (g : Ghost) (pd : list Z) (n seq : Z) (us : list Entry) (e' : Engine) : Prop :=
  e_oracle e' = MarkApplied (e_oracle e) seq /\ room (e_vl e') n /\ exists g1, more_issued g g1 /\ inv e' (g_writes g1 us) [] pd.

Lemma finish_runs {A} e g pd n seq us e1 (x : A) :
  applied e g pd n us e1 -> runs (_ ← markApplied seq; mret x) e1 (fun r e' => r = x /\ finished e g pd n seq us e').
Proof.
  intros [[Ho Hr] (g1 & Hg1 & Hi1)]. unfold markApplied. apply runs_bind. run_get. apply runs_putE, runs_ret. split; [done|].
  split; [cbn [set_oracle e_oracle]; by rewrite Ho|]. split; [done|]. exists g1. split; [done|]. apply inv_set_oracle; [done|apply MarkApplied_next].
Qed.

(** One put or delete. *)
Lemma applyOne_runs e g pd n w r seq :
  inv e g [] pd -> room (e_vl e) (n + cost (rq_key r) (rq_val r) + 64) -> 0 <= n -> kv_ok (rq_key r) (rq_val r) (rq_expiresAt r) ->
  iv_ok (wd_ivVlog w) -> writable e g pd seq -> (rq_key r, seq) ∉ at_version <$> g_log g -> rq_op r = OpPut \/ rq_op r = OpDelete ->
  runs (res ← applyEntryOpts aesEncrypt w (rq_op r) (rq_key r) (rq_val r) (rq_expiresAt r) seq (rq_skipWAL r);
        _ ← markApplied seq; mret (mkIncrResult 1 res)) e
    (fun res e' => res = mkIncrResult 1 None /\ finished e g pd n seq
      [if rq_op r =? OpDelete then delEntry (rq_key r) seq else putEntry (rq_key r) (rq_val r) (rq_expiresAt r) seq] e').
Proof.
  intros Hi Hr Hn Hkv Hiv Hw Hf [Hop|Hop]; rewrite Hop; cbn [Z.eqb OpPut OpDelete Pos.eqb].
  - eapply runs_step; [by eapply (applyEntryOpts_put e g pd n)|]. intros res e1 [-> Ha]. by eapply finish_runs.
  - assert (room (e_vl e) n) by (eapply room_le; [|done]; pose proof (cost_nonneg (rq_key r) (rq_val r)); lia).
    eapply runs_step; [by eapply (applyEntryOpts_delete e g pd n)|]. intros res e1 [-> Ha]. by eapply finish_runs.
Qed.

(** No value looks like a pointer. *)
Definition honest (log : list Entry) : Prop := forall u, u ∈ log -> isValuePointer (Value u) = false.

(** So the collector never finds what it looks for: it moves nothing. *)
Lemma gcRewrite_runs e g pd n w r seq :
  inv e g [] pd -> room (e_vl e) n -> honest (g_log g) -> g_floor g <= max_u64 -> nextTs (e_oracle e) <= max_u64 -> g_time g <= wd_now w ->
  runs (gcRewrite aesEncrypt w r seq) e (fun res e' => res = None /\ applied e g pd n [] e' /\
    exists vl, e' = set_vl e vl /\ vl_live vl = vl_live (e_vl e) /\ vl_active vl = vl_active (e_vl e)).
Proof.
  intros Hi Hr Hh Hf Hn Hnow. unfold gcRewrite. eapply runs_step; [by apply (getWithoutLock_runs aesEncrypt reg e g [] pd n)|].
  intros cur e1 (-> & vl & -> & Hi1 & Hr1 & Hl1). assert (applied e g pd n [] (set_vl e vl)) as Ha.
  { split; [done|]. exists g. split; [apply more_issued_refl|done]. }
  destruct (logRead (wd_now w) (g_log g) (rq_key r) max_u64) as [[v x]|] eqn:E; cbn [answerOf]; [|by apply runs_ret; eauto].
  assert (isValuePointer v = false) as ->; [|by apply runs_ret; eauto].
  unfold logRead, seen, interpret in E. destruct (snapshot_get (g_log g) (rq_key r) max_u64) as [a|] eqn:Ea; [|done].
  apply snapshot_get_Some in Ea as (Hin & _). specialize (Hh a Hin). destruct (Deleted a); [done|].
  destruct (expired (wd_now w) a); [done|]. by injection E as <- _.
Qed.

Lemma applyRequest_runs e g pd n w r seq :
  inv e g [] pd -> room (e_vl e) (n + reqCost r) -> 0 <= n -> req_ok r -> honest (g_log g) -> iv_ok (wd_ivVlog w) ->
  writable e g pd seq -> (forall u, u ∈ g_log g -> Version u <> seq) -> g_floor g <= seq -> nextTs (e_oracle e) <= max_u64 ->
  g_time g <= wd_now w ->
  let out := logRequest (wd_now w) (g_log g) r seq in
  runs (applyRequest aesEncrypt w r seq) e (fun res e' => res = out.2 /\ finished e g pd n seq out.1 e').
Proof.
  intros Hi Hr Hn Hok Hh Hiv Hw Hfr Hfl Hnx Hnow out. destruct Hok as [Hop Hkv [Hb Hnd] Hkind]. unfold reqCost in Hr.
  pose proof (cost_nonneg (rq_key r) (rq_val r)) as Hc. pose proof (batchCost_nonneg (rq_batch r)) as Hbc.
  pose proof (proj1 (proj2 Hw)) as Hseq.
  assert (forall m, m <= n + (cost (rq_key r) (rq_val r) + batchCost (rq_batch r) + 256) -> room (e_vl e) m) as Hroom by (intros m Hm; by eapply room_le).
  assert (forall key, (key, seq) ∉ at_version <$> g_log g) as Hfresh.
  { intros key (u & E & Hu)%list_elem_of_fmap. apply (Hfr u Hu). by injection E. }
  unfold out, applyRequest, logRequest. destruct (rq_op r =? opIncr) eqn:Eincr.
  { eapply runs_step; [eapply (processIncr_runs e g pd n); try done|].
    - apply Hroom. unfold cost. simpl. lia.
    - destruct Hkv as [Hk _ _ _]. split; [done|split; [constructor|done]|unfold is_i64; lia|done].
    - intros res e1 [-> Ha]. by eapply finish_runs. }
  assert (rq_op r =? opClear = false /\ rq_op r =? opFlush = false) as (-> & ->).
  { set_unfold in Hop. by destruct Hop as [->|[->|[->|[->|[->|?]]]]]. }
  destruct (Nat.ltb_spec 0 (length (rq_batch r))) as [Hlen|Hlen].
  { eapply runs_step; [eapply (applyBatch_runs e g pd n); try done; apply Hroom; lia|]. intros res e1 (-> & Hk & g1 & Hg1 & Hi1).
    eapply finish_runs. split; [done|]. by exists g1. }
  destruct (rq_op r =? opGCRewrite) eqn:Egc.
  { eapply runs_step; [apply (gcRewrite_runs e g pd n w r seq); [done|apply Hroom; lia|done|lia|done|done]|]. intros res e1 (-> & Ha & _). by eapply finish_runs. }
  assert (rq_op r = OpPut \/ rq_op r = OpDelete) as Hpd.
  { set_unfold in Hop. destruct Hop as [E|[->|[->|[E|[E|?]]]]]; [|by left|by right|by rewrite E in Eincr|by rewrite E in Egc|done].
    destruct (rq_batch r); [by destruct Hkind|simpl in Hlen; lia]. }
  assert ((rq_op r =? OpPut) || (rq_op r =? OpDelete) = true) as -> by (by destruct Hpd as [->| ->]).
  run_get. rewrite (exists_spec e g [] pd) by (done || lia).
  assert (room (e_vl e) (n + cost (rq_key r) (rq_val r) + 64)) as Hr1 by (apply Hroom; lia).
  pose proof (applyOne_runs e g pd n w r seq Hi Hr1 Hn Hkv Hiv Hw (Hfresh _) Hpd) as Hone.
  destruct (rq_checkExists r), (logExists (wd_now w) (g_log g) (rq_key r)); cbn [andb negb];
    [|by eapply finish_runs, applied_none, Hroom; [|lia]| |]; by destruct (rq_op r =? OpDelete).
Qed.

(** ** Rotation *)

Definition g_rotate (g : Ghost) (ts : Z) : Ghost :=
  mkGhost (g_iss g) (g_dropped g) (g_old g) (g_log g) (g_rot g) ts (g_floor g) (g_time g) (g_sealed g).

Lemma lsm_ok_nextSeq l s : lsm_ok l -> lsm_nextSeq l <= s -> lsm_ok (set_nextSeq l s).
Proof. intros [] Hs. split; try done. intros p t Ht. cbn. specialize (lo_seq p t Ht). lia. Qed.

Lemma seeded_refines seed v : refines (SeedVersion (NewSkipList seed) v) (mkMemSpec [] (Z.max 0 v)).
Proof. destruct (memStep_refines (NewSkipList seed) (mkMemSpec [] 0) (MSeed v) (NewSkipList_refines seed)) as (s' & [= <-] & H & _). exact H. Qed.

(** The active memtable becomes the immutable one, when no version is assigned
    that is still to be applied. *)
Lemma rotate_runs e g n w :
  inv e g [] [] -> room (e_vl e) (n + 64) -> 0 <= n -> iv_ok (wd_ivVlog w) -> e_immMemTable e = None ->
  0 <= lsm_nextSeq (e_lsm e) -> lsm_nextSeq (e_lsm e) + 1 < 2 ^ 64 ->
  runs (task ← triggerFlushLocked w; enqueueFlush task) e (fun _ e' =>
    inv e' (g_rotate g (nextTs (e_oracle e))) [] [] /\ keeps e e' n).
Proof.
  intros Hi Hr Hn Hiv Himm H0 Hseq. unfold triggerFlushLocked. apply runs_bind. run_get.
  pose proof (ei_queue _ _ _ _ _ _ Hi) as Hq. unfold queue_ok in Hq. rewrite Himm in Hq. destruct (e_flushChan e) as [|] eqn:Eq; [|done].
  assert (exists newWal, OpenWAL [] (vl_reg (e_vl e)) (wd_ivWal w) = Some newWal) as [newWal ->] by (unfold OpenWAL; destruct (vl_reg (e_vl e)); eauto).
  destruct (holds_rotate aesEncrypt aes_wf reg reg_ok (e_vl e) (g_iss g) n (wd_ivVlog w) (ei_vl _ _ _ _ _ _ Hi) Hr Hn Hiv)
    as (vl & -> & Hh & Hr' & Hsub & Hsup & Hact & _). cbn [snd]. run_put. apply runs_ret. unfold enqueueFlush. run_get. apply runs_putE.
  rewrite u64_id by (unfold is_u64; lia). set (e' := set_flushChan _ _). split; [|split; [done|done]].
  set (newMem := SeedVersion (NewSkipList (wd_seed w)) (sl_versionCounter (e_memTable e))).
  pose proof (seeded_refines (wd_seed w) (sl_versionCounter (e_memTable e))) as Hnew. fold newMem in Hnew.
  assert (memE e' = []) as Hmem by (apply Permutation_nil_r; exact (proj1 (proj2 (proj2 Hnew)))).
  assert (immE e' = memE e) as Himm' by done.
  assert (everything e' (g_rotate g (nextTs (e_oracle e))) = everything e g) as Hev.
  { unfold everything. rewrite Hmem, Himm'. unfold immE. by rewrite Himm. }
  assert (memE e' ++ immE e' ++ lsmE e' = memE e ++ immE e ++ lsmE e) as Hst.
  { rewrite Hmem, Himm'. unfold immE. by rewrite Himm. }
  pose proof (ei_next _ _ _ _ _ _ Hi) as Hnx. destruct Hi. split; try done; rewrite ?Hev, ?Hst; try done.
  - by eexists.
  - unfold queue_ok. cbn. rewrite Eq. cbn [app ft_memTable ft_seq]. split; [done|]. split; [done|]. split; [lia|]. intros p tb Htb. pose proof (lo_seq _ ei_lsm p tb Htb). lia.
  - apply lsm_ok_nextSeq; [done|lia].
  - cbn. lia.
  - intros a. rewrite Hmem. by intros ?%elem_of_nil.
  - intros a. rewrite Himm'. intros Ha. cbn. split; [by apply ei_new|]. apply Hnx, elem_of_app. by left.
  - intros a Ha. cbn. specialize (ei_flushed a Ha). lia.
  - intros a Ha. change (sl_versionCounter (e_memTable e')) with (sl_versionCounter newMem). rewrite (proj1 (proj2 Hnew)). cbn.
    specialize (ei_counter a Ha). lia.
  - intros vp Hv Hs. apply Hsub. by apply ei_live.
  - intros fid Hf. cbn in Hf |- *. apply ei_discards. destruct Hf as [Hf|Hf]; [|right; lia].
    apply Hsup in Hf as [->%elem_of_singleton|Hf]%elem_of_union; [right; lia|by left].
  - split; [done|]. split; [constructor|]. intros a _ ?%elem_of_nil. done.
  - cbn. lia.
  - change (sl_versionCounter (e_memTable e')) with (sl_versionCounter newMem). rewrite (proj1 (proj2 Hnew)). cbn. lia.
  - intros x Hx. destruct (ei_sealed x Hx) as [Hlt E]. split; [cbn in *; lia|done].
Qed.

(** ** Flush *)

Definition g_flush (g : Ghost) (es : list Entry) : Ghost :=
  mkGhost (g_iss g) (g_dropped g) (es ++ g_old g) (g_log g) (g_rot g) (g_rot g) (g_floor g) (g_time g) (g_sealed g).

Lemma searchOrder_push ls t : ls <> [] -> searchOrder (<[0%nat := level ls 0 ++ [t]]> ls) = t :: searchOrder ls.
Proof. destruct ls as [|l0 ls]; [done|]. intros _. unfold searchOrder. cbn. by rewrite rev_app_distr. Qed.

Lemma level_push ls t p : ls <> [] -> level (<[0%nat := level ls 0 ++ [t]]> ls) p = if (p =? 0)%nat then level ls 0 ++ [t] else level ls p.
Proof. destruct ls as [|l0 ls]; [done|]. intros _. by destruct p. Qed.

Lemma seen_stored now a : seen now (Some (storedEntry a)) = seen now (Some a).
Proof. unfold storedEntry, seen, interpret. destruct (Deleted a) eqn:E; simpl; by rewrite ?E. Qed.

(** The read of a stored table. *)
Lemma snapshot_stored l key v : snapshot_get (storedEntry <$> l) key v = storedEntry <$> snapshot_get l key v.
Proof.
  unfold snapshot_get, newest. change (@None Entry) with (storedEntry <$> @None Entry) at 1. generalize (@None Entry).
  induction l as [|a l IH]; intros b; [done|]. rewrite fmap_cons, !filter_cons.
  assert (visible_at key v (storedEntry a) <-> visible_at key v a) as Hv by (unfold visible_at; by rewrite storedEntry_key, storedEntry_version).
  destruct (decide (visible_at key v (storedEntry a))); destruct (decide (visible_at key v a)); try tauto; [|apply IH].
  cbn [foldl]. rewrite <- IH. f_equal. destruct b as [b|]; [|done]. cbn. rewrite !storedEntry_version. by destruct (_ <? _).
Qed.

(** The table a flush writes. *)
Lemma flushed_lsm l m seq now old :
  lsm_ok l -> (forall a, a ∈ allEntries (levels l) -> Version a <= old) -> (forall a, a ∈ m -> old < Version a) -> NoDup (at_version <$> m) ->
  (forall p t, t ∈ level (levels l) p -> tb_seq t <> seq) -> seq <= lsm_nextSeq l -> tabular (sortVersions m) = true ->
  let sst := createTable seq (sortVersions m) now in
  let l' := mkLsm (<[0%nat := level (levels l) 0 ++ [sst]]> (levels l)) (lsm_nextSeq l) (lsm_manifest l ++ [additionRec 0 sst])
              (lsm_removed l) (lsm_drops l) (lsm_discards l) in
  lsm_ok l' /\ allEntries (levels l') = (storedEntry <$> sortVersions m) ++ allEntries (levels l).
Proof.
  intros [] Hold Hnew Hnd Hseq Hle [Hkeys Hwhole]%andb_true_iff sst l'. assert (levels l <> []) as Hne by (intros E; by rewrite E in lo_length).
  assert (allEntries (levels l') = (storedEntry <$> sortVersions m) ++ allEntries (levels l)) as Hall.
  { unfold allEntries, l'. cbn [levels]. by rewrite searchOrder_push. }
  assert (forall a, a ∈ storedEntry <$> sortVersions m -> exists b, b ∈ m /\ Key a = Key b /\ Version a = Version b) as Hfrom.
  { intros a (b & -> & Hb)%list_elem_of_fmap. exists b. rewrite sortVersions_perm in Hb. by rewrite storedEntry_key, storedEntry_version. }
  split; [|done]. split; unfold l' in *; cbn [levels lsm_nextSeq] in *.
  - by rewrite length_insert.
  - intros p t. rewrite level_push by done. destruct (Nat.eqb_spec p 0) as [->|]; [|apply lo_tables].
    intros [Ht|Ht]%elem_of_app; [by eapply lo_tables|]. apply list_elem_of_singleton in Ht as ->.
    apply createTable_ok; [apply sortVersions_sorted|]. rewrite forallb_forall in Hkeys. intros e He. by apply Hkeys, list_elem_of_In.
  - rewrite searchOrder_push by done. constructor; [done|]. apply Forall_forall. intros t Ht a b Ha Hb _.
    destruct (Hfrom a Ha) as (c & Hc & _ & ->). specialize (Hnew c Hc).
    assert (b ∈ allEntries (levels l)) as Hb' by (apply list_elem_of_bind; eauto). specialize (Hold b Hb'). lia.
  - rewrite Hall. intros a b Ha Hb Hk Hv. apply elem_of_app in Ha as [Ha|Ha]; apply elem_of_app in Hb as [Hb|Hb].
    + apply list_elem_of_fmap in Ha as (x & -> & Hx). apply list_elem_of_fmap in Hb as (y & -> & Hy).
      rewrite !storedEntry_key, !storedEntry_version in *. f_equal. rewrite sortVersions_perm in Hx, Hy. by apply (unique_versions m Hnd).
    + destruct (Hfrom a Ha) as (c & Hc & _ & E). specialize (Hnew c Hc). specialize (Hold b Hb). lia.
    + destruct (Hfrom b Hb) as (c & Hc & _ & E). specialize (Hnew c Hc). specialize (Hold a Ha). lia.
    + by apply lo_unique.
  - intros p Hp. rewrite level_push by done. destruct (Nat.eqb_spec p 0); [lia|by apply lo_apart].
  - rewrite searchOrder_push by done. rewrite fmap_cons. apply NoDup_cons. split; [|done].
    intros (t & E & Ht)%list_elem_of_fmap. apply elem_of_searchOrder in Ht as [p Ht]. by apply (Hseq p t Ht).
  - intros p t. rewrite level_push by done. destruct (Nat.eqb_spec p 0) as [->|]; [|apply lo_seq].
    intros [Ht|Ht]%elem_of_app; [by eapply lo_seq|]. by apply list_elem_of_singleton in Ht as ->.
  - intros p t. rewrite level_push by done. destruct (Nat.eqb_spec p 0) as [->|]; [|apply lo_whole].
    intros [Ht|Ht]%elem_of_app; [by eapply lo_whole|]. apply list_elem_of_singleton in Ht as ->. by apply whole_stored.
Qed.

(** The fields the invariant reads after a flush. *)
Record flushed_to (e e' : Engine) (l : Lsm) : Prop := {
  ft_mem : e_memTable e' = e_memTable e;
  ft_imm : e_immMemTable e' = None;
  ft_lsm : e_lsm e' = l;
  ft_chan : e_flushChan e' = [];
  ft_vl : e_vl e' = e_vl e;
  ft_dis : e_vlogDiscards e' = e_vlogDiscards e;
  ft_orc : e_oracle e' = e_oracle e;
  ft_thr : e_threshold e' = e_threshold e;
}.

Lemma inv_flush e e' g pd m es l :
  inv e g [] pd -> e_immMemTable e = Some m -> flushed_to e e' l -> lsm_ok l -> lsm_drops l = [] /\ lsm_discards l = [] ->
  es ≡ₚ contents m -> allEntries (levels l) = (storedEntry <$> es) ++ lsmE e -> lsm_nextSeq l = lsm_nextSeq (e_lsm e) ->
  inv e' (g_flush g (contents m)) [] pd.
Proof.
  intros Hi Hm [H1 H2 H3 H4 H5 H6 H7 H8] Hl Hlog Hes Hall Hns.
  assert (immE e = contents m) as Eimm by (unfold immE; by rewrite Hm).
  assert (memE e' = memE e /\ immE e' = [] /\ lsmE e' = (storedEntry <$> es) ++ lsmE e) as (E1 & E2 & E3).
  { unfold memE, immE, lsmE. rewrite H1, H2, H3. done. }
  assert (everything e' (g_flush g (contents m)) = everything e g) as Hev.
  { unfold everything. rewrite E1, E2, Eimm. cbn [g_flush g_old app]. done. }
  assert (ptrs (memE e' ++ immE e' ++ lsmE e') ⊆+ ptrs (memE e ++ immE e ++ lsmE e)) as Hp.
  { rewrite E1, E2, E3, Eimm, app_nil_l, !ptrs_app. apply submseteq_app; [done|]. apply submseteq_app; [|done].
    etrans; [apply ptrs_stored|]. by rewrite Hes. }
  pose proof (layers aesEncrypt reg e g [] pd Hi) as [_ Hlay]. rewrite Eimm in Hlay.
  destruct Hi. split; rewrite ?H1, ?H5, ?H6, ?H7, ?H8, ?Hev; try done.
  - unfold queue_ok. by rewrite H2, H4.
  - by rewrite H3.
  - by rewrite H3.
  - cbn. lia.
  - intros a. rewrite E1. apply ei_new.
  - intros a. rewrite E2. by intros ?%elem_of_nil.
  - intros a Ha. cbn [g_flush g_old g_rotOld] in *. rewrite E3 in Ha.
    assert (a ∈ immE e \/ (a ∈ g_old g \/ a ∈ lsmE e) \/ exists b, b ∈ immE e /\ Version a = Version b) as Hc.
    { rewrite Eimm. rewrite !elem_of_app in Ha. destruct Ha as [[?|?]|[(b & -> & Hb)%list_elem_of_fmap|?]]; eauto.
      right. right. exists b. rewrite Hes in Hb. by rewrite storedEntry_version. }
    destruct Hc as [Hc|[Hc|(b & Hb & ->)]]; [by apply ei_mid|specialize (ei_flushed a Hc); lia|by apply ei_mid].
  - intros a. rewrite E3. intros [Ha|[(b & -> & Hb)%list_elem_of_fmap|Ha]%elem_of_app]; [by apply ei_counter; left| |by apply ei_counter; right].
    rewrite storedEntry_version. apply ei_counter. left. rewrite Hes, <- Eimm in Hb. unfold everything. set_solver.
  - intros key v now Hv Hnow. cbn [g_flush g_old]. rewrite H3, (readLevels_spec _ key v Hl), Hall.
    rewrite !snapshot_layers; [|exact Hlay|].
    2:{ intros a b (c & -> & Hc)%list_elem_of_fmap Hb. rewrite storedEntry_version. rewrite Hes, <- Eimm in Hc.
        pose proof (ei_mid c Hc). pose proof (ei_flushed b (or_intror Hb)). lia. }
    assert (NoDup (at_version <$> contents m)) as Hnd.
    { unfold everything in ei_unique. rewrite Eimm, !fmap_app in ei_unique. apply NoDup_app in ei_unique as (_ & _ & Hx). by apply NoDup_app in Hx as (? & _). }
    rewrite snapshot_stored, (snapshot_perm es (contents m) key v Hnd Hes). destruct (snapshot_get (contents m) key v); cbn [fmap option_fmap option_map].
    + apply seen_stored.
    + rewrite <- (ei_reads key v now Hv Hnow). f_equal. symmetry. apply (readLevels_spec _ key v ei_lsm).
  - cbn [g_flush g_iss g_dropped]. etrans; [|exact ei_ptrs]. apply submseteq_app; [done|]. by apply submseteq_app.
  - intros vp Hv. apply ei_live. rewrite app_nil_l in *. by eapply elem_of_submseteq.
  - by rewrite H3, Hns.
  - intros a Ha Hd. rewrite E3 in Ha. cbn [g_flush g_old]. apply elem_of_app in Ha as [(b & -> & Hb)%list_elem_of_fmap|Ha].
    + exists b. rewrite Hes in Hb. rewrite storedEntry_key. split; [set_solver|]. unfold storedEntry in Hd |- *. by destruct (Deleted b).
    + destruct (ei_origin a Ha Hd) as (b & Hb & H). exists b. split; [set_solver|done].
Qed.

Lemma flush_runs e g pd n w :
  inv e g [] pd -> room (e_vl e) n -> flushable e = true ->
  runs (flushTurn w) e (fun _ e' => exists g', g_log g' = g_log g /\ g_floor g' = g_floor g /\ g_time g' = g_time g /\
    g_iss g' = g_iss g /\ g_sealed g' = g_sealed g /\ inv e' g' [] pd /\ keeps e e' n /\ e_vl e' = e_vl e).
Proof.
  intros Hi Hr Hf. unfold flushTurn. run_get. unfold flushable in Hf. pose proof (ei_queue _ _ _ _ _ _ Hi) as Hq. unfold queue_ok in Hq.
  destruct (e_immMemTable e) as [m|] eqn:Em; destruct (e_flushChan e) as [|task [|? ?]] eqn:Eq; try done.
  2:{ apply (runs_ret tt). by exists g. }
  destruct Hq as (Htm & _ & Hs1 & Hs2). run_put. unfold executeFlush. run_get. rewrite Htm in *.
  assert (immE e = contents m) as Eimm by (unfold immE; by rewrite Em).
  pose proof (ei_clear _ _ _ _ _ _ Hi) as Hcl. pose proof (sortVersions_perm (contents m)) as Hperm. fold (AllVersions m) in Hperm.
  destruct (AllVersions m) as [|x xs] eqn:Eav.
  - apply runs_putE. exists (g_flush g (contents m)). do 5 (split; [done|]). split; [|done].
    eapply (inv_flush e _ g pd m []); [done|done|by split|by apply Hi|done|done|done|done].
  - rewrite <- Eav in *. clear x xs Eav. pose proof Hf as [Hk _]%andb_true_iff. rewrite (tabular_creatable _ Hk). cbn [negb].
    apply runs_putE. exists (g_flush g (contents m)). do 5 (split; [done|]). split.
    + destruct (flushed_lsm (e_lsm e) (contents m) (ft_seq task) (wd_now w) (g_rotOld g)) as [Hl Hall]; try done.
      * apply Hi.
      * intros a Ha. apply (ei_flushed _ _ _ _ _ _ Hi). by right.
      * intros a Ha. rewrite <- Eimm in Ha. by apply (ei_mid _ _ _ _ _ _ Hi).
      * pose proof (ei_unique _ _ _ _ _ _ Hi) as Hu. unfold everything in Hu. rewrite Eimm, !fmap_app in Hu.
        apply NoDup_app in Hu as (_ & _ & Hx). by apply NoDup_app in Hx as (? & _).
      * eapply (inv_flush e _ g pd m (AllVersions m)); [done|done| |exact Hl|done|done|exact Hall|done].
        cbn [set_flushChan e_lsm]. by destruct (0 <? ft_oldVlogFid task).
    + split; [|by destruct (0 <? ft_oldVlogFid task)]. split; by destruct (0 <? ft_oldVlogFid task).
Qed.
End steps.
