(* ===== verification/EngineCompact.v ===== *)
(** * Compaction in the engine

    What [Compact] does to the invariant of the engine.  Reads are kept by the
    theorems on compaction; here the value pointers are counted: those in the
    levels after the merge and those reported to the discard counters are
    among those that were in the levels before, so that the counter of a
    segment never exceeds what is really unreferenced in it. *)

From S2P Require Import Prelude Mvcc Oracle SkipList Heap Iterator Strconv Threshold Checksum Crypto Registry Framing Wal Vlog Values VlogSpec SstBlock SstTable TableRead Compaction Engine EngineInv EngineSteps.

(** ** Counting pointers *)

Definition valuePtrs (raw : bytes) : list ValuePointer := if isValuePointer raw then [decodeValuePointer raw] else [].
Definition dropPtrs (disc : list bytes) : list ValuePointer := disc ≫= valuePtrs.

Lemma dropPtrs_app l l' : dropPtrs (l ++ l') = dropPtrs l ++ dropPtrs l'.
Proof. apply bind_app. Qed.

Lemma ptrs_cons a l : ptrs (a :: l) = valuePtrs (Value a) ++ ptrs l.
Proof. done. Qed.

Lemma ptrs_snoc l a : ptrs (l ++ [a]) = ptrs l ++ valuePtrs (Value a).
Proof. rewrite ptrs_app. unfold ptrs at 2. simpl. by rewrite app_nil_r. Qed.

Lemma dropPtrs_snoc l v : dropPtrs (l ++ [v]) = dropPtrs l ++ valuePtrs v.
Proof. rewrite dropPtrs_app. unfold dropPtrs at 2. simpl. by rewrite app_nil_r. Qed.

Lemma ptrs_written now l : ptrs (writtenEntry now <$> l) = ptrs l.
Proof. induction l as [|a l IH]; [done|]. rewrite fmap_cons, !ptrs_cons. by rewrite IH. Qed.

Lemma ptrs_sublist l l' : l ⊆+ l' -> ptrs l ⊆+ ptrs l'.
Proof. intros (k & ->)%submseteq_Permutation. rewrite ptrs_app. apply submseteq_inserts_r. done. Qed.

Lemma app_shuffle {A} (a b c d e : list A) : (a ++ b) ++ c ++ d ++ e ≡ₚ a ++ c ++ (b ++ d) ++ e.
Proof.
  rewrite <- !app_assoc. apply Permutation_app_head. rewrite !app_assoc. apply Permutation_app_tail, Permutation_app_tail, Permutation_app_comm.
Qed.

Lemma keepLoop_ptrs m group kept older disc :
  ptrs (keepLoop m group kept older disc).1 ++ dropPtrs (keepLoop m group kept older disc).2 ⊆+
  ptrs kept ++ dropPtrs disc ++ ptrs group.
Proof.
  revert kept older disc. induction group as [|g group IH]; intros kept older disc; cbn [keepLoop]; [by rewrite app_nil_r|].
  rewrite ptrs_cons. assert (forall o, ptrs (keepLoop m group (kept ++ [g]) o disc).1 ++ dropPtrs (keepLoop m group (kept ++ [g]) o disc).2 ⊆+
    ptrs kept ++ dropPtrs disc ++ valuePtrs (Value g) ++ ptrs group) as Hkeep.
  { intros o. etrans; [apply IH|]. rewrite ptrs_snoc, <- app_assoc. apply submseteq_skips_l, Permutation_submseteq.
    rewrite !app_assoc. by rewrite (Permutation_app_comm (valuePtrs _)). }
  case_if.
  { etrans; [apply IH|]. by apply submseteq_skips_l, submseteq_skips_l, submseteq_inserts_l. }
  case_if; [apply Hkeep|]. case_if; [apply Hkeep|].
  etrans; [apply IH|]. by rewrite dropPtrs_snoc, <- app_assoc.
Qed.

Lemma compactGroup_ptrs env ls target group :
  ptrs (compactGroup env ls target group).1 ++ dropPtrs (compactGroup env ls target group).2 ⊆+ ptrs group.
Proof.
  pose proof (keepLoop_ptrs (ce_minReadTs env) (sortDesc group) [] false []) as H. unfold compactGroup.
  destruct (keepLoop _ _ _ _ _) as [kept disc]. cbn [fst snd] in H. rewrite sortDesc_perm in H. change (ptrs kept ++ dropPtrs disc ⊆+ ptrs group) in H.
  assert (ptrs (writtenEntry (ce_now env) <$> kept) ++ dropPtrs disc ⊆+ ptrs group) as Hk by (by rewrite ptrs_written).
  destruct kept as [|h [|]]; [done| |done]. case_if; [|done]. cbn [fst snd]. rewrite dropPtrs_snoc.
  etrans; [|exact H]. rewrite ptrs_cons, app_nil_r. change (ptrs []) with (@nil ValuePointer). rewrite app_nil_l.
  apply Permutation_submseteq, Permutation_app_comm.
Qed.

(** The pointers a writer has been given. *)
Definition writerPtrs (w : sstLevelWriter) : list ValuePointer := ptrs (w_tables w ≫= tb_entries) ++ ptrs (w_buf w).

Lemma writerPtrs_flush now w : writerPtrs (writer_flush now w) ⊆+ writerPtrs w.
Proof.
  unfold writer_flush. destruct (w_buf w) as [|a buf] eqn:E; [done|]. unfold writerPtrs. cbn [w_tables w_buf].
  destruct (creatable _); [|by apply submseteq_skips_l, submseteq_nil_l]. rewrite E, bind_app, ptrs_app. rewrite app_nil_r. apply submseteq_skips_l. cbn [mbind list_bind]. rewrite app_nil_r. apply ptrs_stored.
Qed.

Lemma writerPtrs_add w out : writerPtrs (foldl writer_add w out) = writerPtrs w ++ ptrs out.
Proof.
  destruct (writer_add_all w out) as [Hb Hw]. unfold writerPtrs. by rewrite Hb, Hw, ptrs_app, app_assoc.
Qed.

Lemma drainGroups_ptrs fuel env ls target stream w disc :
  writerPtrs (drainGroups fuel env ls target stream w disc).1 ++ dropPtrs (drainGroups fuel env ls target stream w disc).2 ⊆+
  writerPtrs w ++ dropPtrs disc ++ ptrs stream.
Proof.
  revert stream w disc. induction fuel as [|fuel IH]; intros stream w disc; cbn [drainGroups]; [by rewrite app_assoc; apply submseteq_inserts_r|].
  destruct stream as [|e l]; [by rewrite app_nil_r|]. pose proof (spanKey_spec (Key e) (e :: l)) as Hs.
  destruct (spanKey (Key e) (e :: l)) as [g r]. destruct Hs as (-> & _). rewrite ptrs_app.
  pose proof (compactGroup_ptrs env ls target g) as Hg. destruct (compactGroup env ls target g) as [out d]. cbn [fst snd] in Hg.
  etrans; [apply IH|]. rewrite dropPtrs_app, <- (app_assoc (dropPtrs disc)).
  assert (writerPtrs (match out with [] => w | _ => maybeFlush (ce_now env) (foldl writer_add w out) end) ⊆+ writerPtrs w ++ ptrs out) as Hw.
  { destruct out as [|x out]; [by rewrite app_nil_r|]. rewrite <- writerPtrs_add. unfold maybeFlush. case_if; [apply writerPtrs_flush|done]. }
  etrans; [by apply submseteq_skips_r|]. rewrite app_shuffle. by apply submseteq_skips_l, submseteq_skips_l, submseteq_skips_r.
Qed.

(** Bookkeeping of an exchange: what was taken out covers what was put in. *)
Lemma exchange_balance {A} (a b c lf lt kf kt n p o d : list A) :
  a ++ lf ≡ₚ kf ++ b -> b ++ lt ≡ₚ (kt ++ n) ++ c -> kf ++ p ⊆+ lf -> kt ++ o ⊆+ lt -> n ++ d ⊆+ o ++ p -> a ++ d ⊆+ c.
Proof.
  intros H1 H2 (k1 & H3)%submseteq_Permutation (k2 & H4)%submseteq_Permutation (k3 & H5)%submseteq_Permutation.
  assert (c ≡ₚ (a ++ d) ++ k1 ++ k2 ++ k3) as ->; [|by apply submseteq_inserts_r]. rewrite H3 in H1. rewrite H4 in H2.
  apply (Permutation_app_inv_l (kt ++ n)). rewrite <- H2. apply (Permutation_app_inv_l kf).
  transitivity ((kf ++ b) ++ (kt ++ o) ++ k2); [by rewrite !app_assoc|]. rewrite <- H1. clear H1 H2 H3 H4.
  transitivity (a ++ kf ++ kt ++ (o ++ p) ++ k1 ++ k2); [solve_Permutation|]. rewrite H5. solve_Permutation.
Qed.

(** The pointers of tables. *)
Definition tablePtrs (ts : list Table) : list ValuePointer := ptrs (ts ≫= tb_entries).

Lemma tablePtrs_app l l' : tablePtrs (l ++ l') = tablePtrs l ++ tablePtrs l'.
Proof. unfold tablePtrs. by rewrite bind_app, ptrs_app. Qed.

#[export] Instance tablePtrs_perm : Proper ((≡ₚ) ==> (≡ₚ)) tablePtrs.
Proof. intros l l' H. unfold tablePtrs. by rewrite H. Qed.

Lemma tablePtrs_submseteq l l' : l ⊆+ l' -> tablePtrs l ⊆+ tablePtrs l'.
Proof. intros (k & ->)%submseteq_Permutation. rewrite tablePtrs_app. by apply submseteq_inserts_r. Qed.

Lemma tablePtrs_entries ts : tablePtrs ts = ptrs (concat (tb_entries <$> ts)).
Proof. unfold tablePtrs. f_equal. induction ts as [|t ts IH]; [done|]. rewrite fmap_cons, bind_cons. cbn [concat]. by rewrite IH. Qed.

Lemma searchOrder_concat ls : searchOrder ls ≡ₚ concat ls.
Proof.
  unfold searchOrder. induction ls as [|l ls IH]; [done|]. cbn [fmap list_fmap concat mbind list_bind]. rewrite IH.
  apply Permutation_app_tail. symmetry. apply Permutation_rev.
Qed.

(** Replacing a level exchanges its tables. *)
Lemma concat_exchange ls i x : (i < length ls)%nat -> concat (<[i := x]> ls) ++ level ls i ≡ₚ x ++ concat ls.
Proof.
  intros Hi. destruct (lookup_lt_is_Some_2 ls i Hi) as [l Hl]. unfold level. rewrite Hl. cbn [default from_option id].
  rewrite insert_take_drop by done. rewrite <- (take_drop_middle ls i l Hl) at 3. rewrite !concat_app. cbn [concat].
  rewrite <- !app_assoc. rewrite (Permutation_app_comm (concat (drop _ _)) l). rewrite !app_assoc.
  apply Permutation_app_tail, Permutation_app_tail, Permutation_app_comm.
Qed.

(** Tables kept and tables removed are different tables of the level. *)
Lemma keepTables_split remove l : NoDup remove -> (forall t, t ∈ remove -> t ∈ l) -> NoDup l -> keepTables remove l ++ remove ⊆+ l.
Proof.
  intros Hr Hin Hl. apply NoDup_submseteq.
  - apply NoDup_app. split_and!; [by apply NoDup_filter| |done]. intros t [_ Hno]%elem_of_keepTables Ht. by apply (Hno t).
  - intros t [Ht|Ht]%elem_of_app; [by apply elem_of_keepTables in Ht as [? _]|auto].
Qed.

Lemma drainMergedIterator_ptrs env ls target iters seq :
  Forall (StronglySorted version_le) iters ->
  let '(w, disc) := drainMergedIterator env ls target iters (mkWriter [] 0 [] seq) in
  tablePtrs (w_tables (writer_flush (ce_now env) w)) ++ dropPtrs disc ⊆+ ptrs (concat iters).
Proof.
  intros Hs. unfold drainMergedIterator. destruct (drainMergedVersion_spec iters Hs) as [Hp _].
  pose proof (drainGroups_ptrs (S (length (drainMergedVersion iters))) env ls target (drainMergedVersion iters) (mkWriter [] 0 [] seq) []) as H.
  destruct (drainGroups _ _ _ _ _ _ _) as [w disc]. cbn [fst snd] in H. rewrite Hp in H. etrans; [|exact H]. apply submseteq_skips_r.
  etrans; [|apply writerPtrs_flush]. unfold writerPtrs, tablePtrs. by apply submseteq_inserts_r.
Qed.

Lemma compactInto_ptrs env st from to picks :
  lsm_ok st -> valid_step st from to picks -> lsm_drops st = [] ->
  tablePtrs (searchOrder (levels (compactInto env st from picks to))) ++ dropPtrs (lsm_drops (compactInto env st from picks to)) ⊆+
  tablePtrs (searchOrder (levels st)).
Proof.
  intros Hok [[Hft Hto] Hin Hnd _ _] Hd. pose proof (inputs_sorted st from to picks Hok Hin) as Hsorted.
  pose proof (drainMergedIterator_ptrs env (levels st) to (inputs st to picks) (lsm_nextSeq st) Hsorted) as Hdr.
  unfold compactInto. cbv zeta. fold (overlaps st to picks). fold (inputs st to picks).
  destruct (drainMergedIterator _ _ _ _ _) as [w disc]. cbn [levels lsm_drops]. rewrite Hd, app_nil_l.
  set (new := w_tables _) in *. set (ov := overlaps st to picks) in *.
  rewrite !searchOrder_concat. unfold inputs in Hdr. fold ov in Hdr. rewrite concat_app, ptrs_app, <- !tablePtrs_entries in Hdr.
  set (X := sortTables (keepTables ov (level (levels st) to) ++ new)).
  assert (length (levels st) = MaxLevels) as Hlen by apply (lo_length _ Hok).
  assert (level (<[to := X]> (levels st)) from = level (levels st) from) as -> by (rewrite level_insert by lia; case_decide; [lia|done]).
  pose proof (concat_exchange (<[to := X]> (levels st)) from (keepTables picks (level (levels st) from)) ltac:(rewrite length_insert; lia)) as H1.
  pose proof (concat_exchange (levels st) to X ltac:(lia)) as H2. rewrite level_insert in H1 by lia. destruct (decide (from = to)); [lia|].
  pose proof (keepTables_split picks _ Hnd Hin (level_NoDup st from Hok)) as H3.
  assert (keepTables ov (level (levels st) to) ++ ov ⊆+ level (levels st) to) as H4.
  { apply keepTables_split; [by apply NoDup_filter, level_NoDup|apply overlaps_in|by apply level_NoDup]. }
  apply (exchange_balance _ (tablePtrs (concat (<[to := X]> (levels st)))) _ (tablePtrs (level (levels st) from)) (tablePtrs (level (levels st) to))
    (tablePtrs (keepTables picks (level (levels st) from))) (tablePtrs (keepTables ov (level (levels st) to))) (tablePtrs new)
    (tablePtrs picks) (tablePtrs ov)); rewrite <- ?tablePtrs_app.
  - by rewrite H1.
  - rewrite H2. unfold X. by rewrite sortTables_perm.
  - by apply tablePtrs_submseteq.
  - by apply tablePtrs_submseteq.
  - by rewrite tablePtrs_app.
Qed.

(** ** A compaction, as the engine sees it *)

Record compacted (env : CompactEnv) (st st' : Lsm) : Prop := {
  co_ok : lsm_ok st';
  co_reads : forall key ts now', ce_minReadTs env <= ts -> ce_now env <= now' ->
    seen now' (readLevels (levels st') key ts) = seen now' (readLevels (levels st) key ts);
  co_origin : forall a, a ∈ allEntries (levels st') -> exists b, b ∈ allEntries (levels st) /\ Version b = Version a /\
    Key b = Key a /\ (Deleted a = false -> Deleted b = false /\ ExpiresAt a = ExpiresAt b);
  co_next : lsm_nextSeq st <= lsm_nextSeq st';
  co_seqs : forall p t, t ∈ level (levels st') p -> (exists q, t ∈ level (levels st) q) \/ lsm_nextSeq st < tb_seq t;
  co_ptrs : ptrs (allEntries (levels st')) ++ dropPtrs (lsm_drops st') ⊆+ ptrs (allEntries (levels st));
}.

Lemma step_compacted env st st' :
  lsm_ok st -> lsm_drops st = [] -> is_step env st st' -> wholeLevels (levels st') = true -> compacted env st st'.
Proof.
  intros Hok Hd Hs Hwh. destruct (is_step_preserves env st st' Hok Hs Hwh) as [Hok' Hreads].
  destruct Hs as [->|(from & to & picks & Hv & ->)].
  { split; [done|done|by intros a Ha; exists a|lia|by intros p t Ht; left; exists p|]. rewrite Hd, app_nil_r. done. }
  pose proof (compactInto_ptrs env st from to picks Hok Hv Hd) as Hp. destruct Hv as [[H1 H2] H3 _ H4 H5].
  pose proof (added_seqs env st from to picks H1 H2) as (Hw & _ & Ha).
  split; [done|done| | | |done].
  - intros a Hin. destruct (origin env st from to picks Hok H1 H2 H3 a Hin) as (b & Hb & Hk & Hver & Hx). eauto 10.
  - by rewrite nextSeq_after.
  - intros p t Ht. destruct (level_after_cases env st from to picks Hok H1 H2 H3 p t Ht) as [[Hl _]|[_ Hl]]; [eauto|].
    right. specialize (Ha t Hl). lia.
Qed.

Lemma ptrBytes_one fid vp : ptrBytes fid [vp] = if vp_fid vp =? fid then vp_size vp else 0.
Proof. unfold ptrBytes. simpl. case_if; lia. Qed.

Lemma foldl_discards drops ds fid :
  Forall (fun vp => 0 <= vp_size vp) (dropPtrs drops) -> 0 <= DiscardStats_Get ds.1 fid ->
  DiscardStats_Get ds.1 fid + ptrBytes fid (dropPtrs drops) < 2 ^ 63 ->
  DiscardStats_Get (foldl addCompactionDiscard ds drops).1 fid = DiscardStats_Get ds.1 fid + ptrBytes fid (dropPtrs drops).
Proof.
  revert ds. induction drops as [|v drops IH]; intros ds Hs H0 Hlt; [unfold dropPtrs; simpl; lia|].
  change (dropPtrs (v :: drops)) with (valuePtrs v ++ dropPtrs drops) in *. rewrite ptrBytes_app in *. apply Forall_app in Hs as [Hv Hs].
  assert (0 <= ptrBytes fid (dropPtrs drops)) as Hnn by (by apply ptrBytes_nonneg).
  assert (DiscardStats_Get (addCompactionDiscard ds v).1 fid = DiscardStats_Get ds.1 fid + ptrBytes fid (valuePtrs v)) as E.
  { unfold addCompactionDiscard, valuePtrs in *. cbn [fst]. destruct (isValuePointer v); [|simpl; lia].
    rewrite Forall_singleton in Hv. rewrite ptrBytes_one in Hlt |- *. unfold DiscardStats_AddDiscard, DiscardStats_Get in *.
    destruct (Z.eqb_spec (vp_fid (decodeValuePointer v)) fid) as [<-|Hne]; [|rewrite lookup_insert_ne by done; lia].
    rewrite lookup_insert_eq. cbn [default from_option id]. rewrite i64_id; unfold is_i64; lia. }
  assert (0 <= ptrBytes fid (valuePtrs v)) by (by apply ptrBytes_nonneg).
  cbn [foldl]. rewrite IH; rewrite ?E; [lia|done|lia|lia].
Qed.

Lemma ptrBytes_submseteq fid l l' : Forall (fun vp => 0 <= vp_size vp) l' -> l ⊆+ l' -> ptrBytes fid l <= ptrBytes fid l'.
Proof.
  intros Hf (k & Hk)%submseteq_Permutation. rewrite Hk in Hf |- *. rewrite ptrBytes_app. apply Forall_app in Hf as [_ Hf].
  pose proof (ptrBytes_nonneg fid k Hf). lia.
Qed.

Definition g_compact (g : Ghost) (drops : list bytes) (minReadTs now : Z) : Ghost :=
  mkGhost (g_iss g) (dropPtrs drops ++ g_dropped g) (g_old g) (g_log g) (g_rotOld g) (g_rot g) (Z.max (g_floor g) minReadTs) (Z.max (g_time g) now) (g_sealed g).

Section compact.
Context (aesEncrypt : bytes -> bytes -> bytes).
Hypothesis aes_wf : forall k b, wf_bytes (aesEncrypt k b).
Context (reg : option KeyRegistry).
Notation inv := (eng_inv aesEncrypt reg).

Lemma issued_sizes e g sp pd : inv e g sp pd -> Forall (fun vp => 0 <= vp_size vp) (g_iss g).*1.
Proof.
  intros Hi. apply Forall_forall. intros vp ([vp' v] & -> & Hv)%list_elem_of_fmap.
  destruct (vh_vp _ _ _ _ (ei_vl _ _ _ _ _ _ Hi) _ _ Hv) as [_ Hs]. cbn. lia.
Qed.

(** The bytes handed out per segment: bounded in a live one, none beyond the
    active one. *)
Lemma issued_bytes e g sp pd n fid :
  inv e g sp pd -> room (e_vl e) n -> 0 <= n -> fid ∈ vl_live (e_vl e) \/ vl_active (e_vl e) < fid -> ptrBytes fid (g_iss g).*1 < 2 ^ 61.
Proof.
  intros Hi Hr Hn [Hf|Hf]; [by eapply (holds_bytes aesEncrypt aes_wf reg); [apply Hi|..]|]. rewrite ptrBytes_zero; [lia|].
  intros vp ([vp' v] & -> & Hv)%list_elem_of_fmap. pose proof (vi_issued _ _ _ _ _ (vh_inv _ _ _ _ (ei_vl _ _ _ _ _ _ Hi)) _ _ Hv) as (Hb & _).
  cbn. lia.
Qed.

Lemma inv_compact e g sp pd n env lsm stats :
  inv e g sp pd -> room (e_vl e) n -> 0 <= n -> compacted env (clearLogs (e_lsm e)) lsm ->
  inv (set_gc (set_lsm e (clearLogs lsm)) (foldl addCompactionDiscard (e_vlogDiscards e, e_discardStats e) (lsm_drops lsm)).1 stats
         (e_gcPending e) (e_gcDiscardTs e))
    (g_compact g (lsm_drops lsm) (ce_minReadTs env) (ce_now env)) sp pd.
Proof.
  intros Hi Hr Hn [Hok Hreads Horig Hnext Hseqs Hptrs]. pose proof (issued_sizes _ _ _ _ Hi) as Hsz.
  assert (sp ++ ptrs (memE e ++ immE e ++ allEntries (levels lsm)) ++ dropPtrs (lsm_drops lsm) ++ g_dropped g ⊆+
    sp ++ ptrs (memE e ++ immE e ++ lsmE e) ++ g_dropped g) as Hsub.
  { apply submseteq_skips_l. rewrite !ptrs_app, <- !app_assoc. do 2 apply submseteq_skips_l. rewrite !app_assoc. by apply submseteq_skips_r. }
  assert (dropPtrs (lsm_drops lsm) ++ g_dropped g ⊆+ (g_iss g).*1) as Hdr.
  { etrans; [|apply (ei_ptrs _ _ _ _ _ _ Hi)]. etrans; [|exact Hsub]. by do 2 apply submseteq_inserts_l. }
  pose proof (fun fid => issued_bytes e g sp pd n fid Hi Hr Hn) as Hlim. destruct Hi as []. split; try done.
  - unfold queue_ok in *. cbn. destruct (e_immMemTable e) as [m|]; [|done]. destruct (e_flushChan e) as [|t [|]]; try done.
    destruct ei_queue as (H1 & H2 & H3 & H4). cbn in Hnext, Hseqs. split_and!; [done|done|lia|]. intros p tb Htb.
    destruct (Hseqs p tb Htb) as [[q Hq]|Hlt]; [by apply (H4 q)|lia].
  - destruct Hok. by split.
  - intros a [Ha|Ha]; [by apply ei_flushed; left|]. destruct (Horig a Ha) as (b & Hb & <- & _). apply ei_flushed. by right.
  - intros a [Ha|Ha]; [by apply ei_counter; left|]. destruct (Horig a Ha) as (b & Hb & <- & _). apply ei_counter. by right.
  - intros key v now Hv Hnow. cbn in Hv, Hnow. etrans; [apply Hreads; lia|]. apply ei_reads; lia.
  - etrans; [exact Hsub|done].
  - intros vp Hv. change (vp ∈ sp ++ ptrs (memE e ++ immE e ++ allEntries (levels lsm))) in Hv. apply ei_live. apply elem_of_app in Hv as [Hv|Hv]; [apply elem_of_app; by left|apply elem_of_app; right].
    assert (ptrs (memE e ++ immE e ++ allEntries (levels lsm)) ⊆+ ptrs (memE e ++ immE e ++ lsmE e)) as Hs.
    { rewrite !ptrs_app. do 2 apply submseteq_skips_l. etrans; [|exact Hptrs]. by apply submseteq_inserts_r. }
    by eapply elem_of_submseteq.
  - intros fid Hf. cbn [set_gc set_lsm e_vl e_vlogDiscards g_compact g_dropped] in Hf |- *.
    pose proof (ptrBytes_submseteq fid _ _ Hsz Hdr) as Hle. specialize (Hlim fid Hf). rewrite ptrBytes_app in *.
    assert (Forall (fun vp => 0 <= vp_size vp) (dropPtrs (lsm_drops lsm) ++ g_dropped g)) as [Hd1 Hd2]%Forall_app.
    { rewrite Forall_forall in Hsz |- *. intros vp Hvp. apply Hsz. by eapply elem_of_submseteq. }
    pose proof (ptrBytes_nonneg fid _ Hd2).
    rewrite foldl_discards; cbn [fst]; rewrite ?ei_discards by done; [lia|done|lia|lia].
  - cbn in Hnext |- *. lia.
  - intros a Ha Hd. destruct (Horig a Ha) as (b & Hb & _ & <- & Hx). destruct (Hx Hd) as [Hdb ->]. by apply ei_origin.
Qed.

Lemma engineCompact_lsm fileSize opts w e e' :
  engineCompact fileSize opts w e = Some (tt, e') ->
  e_lsm e' = clearLogs (Compact fileSize opts (compactEnvOf w e) (clearLogs (e_lsm e))).
Proof.
  unfold engineCompact, getE, putE, mbind, eng_bind. set (lsm := Compact _ _ _ _). cbv zeta.
  destruct (foldl addCompactionDiscard (e_vlogDiscards e, e_discardStats e) (lsm_drops lsm)) as [d s].
  intros H'. by injection H' as <-.
Qed.

Lemma engineCompact_runs e g sp pd n fileSize opts w :
  inv e g sp pd -> room (e_vl e) n -> 0 <= n -> base_clear fileSize opts (e_lsm e) ->
  wholeLevels (levels (Compact fileSize opts (compactEnvOf w e) (clearLogs (e_lsm e)))) = true ->
  runs (engineCompact fileSize opts w) e (fun _ e' =>
    (exists drops, inv e' (g_compact g drops (Oracle_MinReadTs (e_oracle e)) (wd_now w)) sp pd) /\ e_oracle e' = e_oracle e /\ e_vl e' = e_vl e).
Proof.
  intros Hi Hr Hn Hb Hw. unfold engineCompact. run_get. cbv zeta.
  set (env := compactEnvOf _ _) in *. set (lsm := Compact fileSize opts env (clearLogs (e_lsm e))) in *.
  assert (compacted env (clearLogs (e_lsm e)) lsm) as Hc.
  { apply step_compacted; [destruct (ei_lsm _ _ _ _ _ _ Hi); by split|done| |done]. apply Compact_step; [destruct (ei_lsm _ _ _ _ _ _ Hi); by split|done]. }
  pose proof (fun stats => inv_compact e g sp pd n env lsm stats Hi Hr Hn Hc) as Hi'.
  destruct (foldl addCompactionDiscard _ _) as [discards stats]. apply runs_putE. split; [|done]. eexists. apply Hi'.
Qed.
End compact.
