(* ===== verification/EngineGc.v ===== *)
(** * Value-log collection in the engine

    What the steps of a collection do to the invariant of the engine.  The
    scan counts the bytes of values in a segment that is no longer written;
    the segment is unlinked only when compaction has dropped as many, and then
    no stored pointer into it is left. *)

From S2P Require Import Prelude Mvcc Oracle SkipList Heap Iterator Strconv Threshold Checksum Crypto Registry Framing Wal Vlog Values VlogSpec SstBlock SstTable Compaction Engine EngineInv EngineSteps EngineCompact.

Lemma totalValueBytes_spec rs : totalValueBytes rs = valueBytes rs.*1.
Proof.
  unfold totalValueBytes. rewrite <- (Z.add_0_l (valueBytes _)). generalize 0 at 1 2.
  induction rs as [|[entry o] rs IH]; intros z; [unfold valueBytes; simpl; lia|]. rewrite fmap_cons. cbn [foldl fst]. rewrite IH.
  change (valueBytes (entry :: rs.*1)) with (Z.of_nat (length (ve_value entry)) + valueBytes rs.*1). lia.
Qed.

(** Without bytes, no pointer of positive size. *)
Lemma ptrBytes_none fid l vp :
  Forall (fun vp => 0 <= vp_size vp) l -> ptrBytes fid l <= 0 -> vp ∈ l -> vp_size vp <> 0 -> vp_fid vp <> fid.
Proof.
  intros Hf Hz Hv Hs E. apply list_elem_of_split in Hv as (l1 & l2 & ->). apply Forall_app in Hf as [H1 H2].
  apply Forall_cons in H2 as [H0 H2]. rewrite ptrBytes_app, ptrBytes_cons, E, Z.eqb_refl in Hz.
  pose proof (ptrBytes_nonneg fid l1 H1). pose proof (ptrBytes_nonneg fid l2 H2). lia.
Qed.

Definition g_seal (g : Ghost) (x : Z * Z) : Ghost :=
  mkGhost (g_iss g) (g_dropped g) (g_old g) (g_log g) (g_rotOld g) (g_rot g) (g_floor g) (g_time g) (x :: g_sealed g).

Section gc.
Context (aesEncrypt : bytes -> bytes -> bytes).
Hypothesis aes_wf : forall k b, wf_bytes (aesEncrypt k b).
Context (reg : option KeyRegistry).
Hypothesis reg_ok : registry_ok reg.
Notation inv := (eng_inv aesEncrypt reg).

Lemma inv_seal e g sp pd fid :
  inv e g sp pd -> fid < vl_active (e_vl e) -> inv e (g_seal g (fid, ptrBytes fid (g_iss g).*1)) sp pd.
Proof.
  intros Hi Hf. destruct Hi. split; try done. intros x [->|Hx]%elem_of_cons; [done|]. by apply ei_sealed.
Qed.

(** Scanning a segment that is not the active one. *)
Lemma gcStart_runs e g sp pd n fid :
  inv e g sp pd -> room (e_vl e) n -> 0 <= n -> fid ∈ vl_live (e_vl e) -> fid <> vl_active (e_vl e) ->
  runs (gcStart aesEncrypt fid) e (fun r e' => exists reqs total, r = Some (nextTs (e_oracle e), reqs, total) /\
    inv e' (g_seal g (fid, total)) sp pd /\ keeps e e' n).
Proof.
  intros Hi Hr Hn Hl Hne. unfold gcStart. run_get.
  pose proof (holds_recover aesEncrypt aes_wf reg (e_vl e) (g_iss g) n fid (ei_vl _ _ _ _ _ _ Hi) Hr Hn) as Hrec.
  destruct (vlog_Recover aesEncrypt (e_vl e) fid) as [rs vl]. destruct Hrec as (Hh & Hr' & Hlive & Hact & Hrs).
  destruct (Hrs Hl) as (rs' & -> & Hb). run_put. apply runs_ret. eexists _, _. split; [done|]. split; [|done].
  rewrite totalValueBytes_spec, Hb. pose proof (vh_inv _ _ _ _ (ei_vl _ _ _ _ _ _ Hi)) as Hvi.
  destruct (vi_live _ _ _ _ _ Hvi _ Hl) as [s Hs]. pose proof (si_range _ _ _ _ _ _ (vi_segs _ _ _ _ _ Hvi _ _ Hs)) as Hrange.
  apply inv_seal; [|cbn [set_vl e_vl]; lia]. by apply inv_set_vl; [apply inv_set_gc|..].
Qed.

Lemma gcReset_runs e g sp pd n :
  inv e g sp pd -> room (e_vl e) n -> runs gcReset e (fun _ e' => inv e' g sp pd /\ keeps e e' n /\ e_vl e' = e_vl e).
Proof. intros Hi Hr. unfold gcReset. run_get. apply runs_putE. split; [by apply inv_set_gc|done]. Qed.

(** Unlinking a segment whose bytes have all been dropped. *)
Lemma inv_unlink e g sp pd fid stats pending ts vl :
  inv e g sp pd -> fid < vl_active (e_vl e) ->
  (fid ∈ vl_live (e_vl e) -> ptrBytes fid (g_iss g).*1 <= 0 \/ ptrBytes fid (g_iss g).*1 <= ptrBytes fid (g_dropped g)) ->
  vl_holds aesEncrypt reg vl (g_iss g) -> vl_live vl = vl_live (e_vl e) ∖ {[fid]} -> vl_active vl = vl_active (e_vl e) ->
  inv (set_vl (set_gc e (DiscardStats_Delete (e_vlogDiscards e) fid) stats pending ts) vl) g sp pd.
Proof.
  intros Hi Hlt Hall Hh Hl Ha. pose proof (issued_sizes _ _ _ _ _ _ Hi) as Hsz. destruct Hi. split; try done; cbn [set_vl set_gc e_vl e_vlogDiscards].
  - intros vp Hv Hs. rewrite Hl. apply elem_of_difference. pose proof (ei_live vp Hv Hs) as Hlv. split; [done|].
    intros E%elem_of_singleton. rewrite E in Hlv. specialize (Hall Hlv).
    set (stored := sp ++ ptrs (memE e ++ immE e ++ lsmE e)) in *. rewrite app_assoc in ei_ptrs. fold stored in ei_ptrs.
    pose proof (ptrBytes_submseteq fid _ _ Hsz ei_ptrs) as Hle. rewrite ptrBytes_app in Hle.
    assert (Forall (fun vp => 0 <= vp_size vp) (stored ++ g_dropped g)) as [Hf1 Hf2]%Forall_app.
    { rewrite Forall_forall in Hsz |- *. intros vp' Hvp. apply Hsz. by eapply elem_of_submseteq. }
    pose proof (ptrBytes_nonneg fid _ Hf2). apply (ptrBytes_none fid stored vp Hf1); [lia|done..].
  - intros f Hf. rewrite Hl, Ha in Hf. unfold DiscardStats_Get, DiscardStats_Delete. rewrite lookup_delete_ne by (set_unfold; lia || set_solver).
    apply ei_discards. set_solver.
  - by rewrite Ha.
Qed.

Lemma gcFinish_runs e g sp pd n fid gcTs total :
  inv e g sp pd -> room (e_vl e) n -> (fid, total) ∈ g_sealed g ->
  runs (gcFinish fid gcTs total) e (fun r e' => inv e' g sp pd /\ keeps e e' n).
Proof.
  intros Hi Hr Hs. destruct (ei_sealed _ _ _ _ _ _ Hi _ Hs) as [Hlt Htot]. cbn [fst snd] in *. unfold gcFinish. run_get.
  case_if; [by apply runs_ret|]. destruct (vlogStillReferenced _ _ _) eqn:Eref.
  { run_put. apply runs_ret. split; [by apply inv_set_gc|done]. }
  destruct (holds_delete aesEncrypt aes_wf reg reg_ok (e_vl e) (g_iss g) n fid (ei_vl _ _ _ _ _ _ Hi) Hr ltac:(lia)) as (Hh & Hr' & Hl & Ha).
  run_put. apply runs_ret. split; [|done]. apply inv_unlink; try done. intros Hlive. rewrite <- Htot.
  unfold vlogStillReferenced in Eref. destruct (Z.leb_spec total 0); [by left|right].
  rewrite (ei_discards _ _ _ _ _ _ Hi fid) in Eref by (by left). lia.
Qed.
End gc.
