(* ===== verification/EngineSystem.v ===== *)
(** * The engine refines the log of its writes

    The engine as a system: requests that wait for their turn, open snapshots,
    collections under way, and the steps that may happen in any order.
    Assigning a version to a request and applying it are separate steps, as in
    [dispatch], which takes the version before it takes the memtable lock.
    [log_step] is what the engine promises: a list of versioned writes, read
    at a version.  [engine_refines_log] shows that whatever the clients and
    the background workers do, every answer is one the log allows.

    Two guards are not in the code: a rotation waits for the requests that
    already have a version ([rotation_race] shows what happens otherwise), and
    a compaction of level 0 does not skip a level that holds its keys
    ([base_clear], see [compactLevel0_stale]). *)

From S2P Require Import Prelude Mvcc Oracle SkipList Heap Iterator Strconv Threshold Checksum Crypto Registry Framing Wal Vlog Values VlogSpec SstBlock SstTable TableRead Compaction Manifest Engine Open EngineInv EngineSteps EngineCompact EngineGc.

(** ** What happens *)

Inductive event :=
  | EvApply (now : Z) (r : writeReq) (seq : Z) (res : incrResult)
  | EvReadAt (now : Z) (key : bytes) (ts : Z) (ans : result bytes)
  | EvGet (now : Z) (key : bytes) (ans : result bytes)
  | EvTTL (now : Z) (key : bytes) (ttl : Z)
  | EvOpen (ts : Z)
  | EvClose (ts : Z)
  | EvInternal.

(** ** The promise *)

(** All writes, the newest first, the open snapshots with the log as it was
    when they were opened, and the version of the last increment of each key. *)
Record LogSpec := mkLogSpec {
  sp_log : list Entry;
  sp_snaps : list (Z * list Entry);
  sp_incr : gmap bytes Z;
}.

(** Increments of a key happen in the order of their versions. *)
Definition incr_after (sp : LogSpec) (r : writeReq) (seq : Z) : Prop :=
  rq_op r = opIncr -> default 0 (sp_incr sp !! rq_key r) < seq.
Definition incr_mark (m : gmap bytes Z) (r : writeReq) (seq : Z) : gmap bytes Z :=
  if rq_op r =? opIncr then <[rq_key r := seq]> m else m.

Inductive log_step : LogSpec -> event -> LogSpec -> Prop :=
  | log_apply sp now r seq :
      let out := logRequest now (sp_log sp) r seq in
      (forall u, u ∈ sp_log sp -> Version u <> seq) -> incr_after sp r seq ->
      log_step sp (EvApply now r seq out.2) (mkLogSpec (rev out.1 ++ sp_log sp) (sp_snaps sp) (incr_mark (sp_incr sp) r seq))
  | log_readAt sp now key ts log0 :
      (ts, log0) ∈ sp_snaps sp ->
      log_step sp (EvReadAt now key ts (answerOf (logRead now log0 key ts))) sp
  | log_get sp now key :
      log_step sp (EvGet now key (answerOf (logRead now (sp_log sp) key max_u64))) sp
  | log_ttl sp now key :
      log_step sp (EvTTL now key (logTTL now (sp_log sp) key)) sp
  | log_open sp ts :
      log_step sp (EvOpen ts) (mkLogSpec (sp_log sp) ((ts, sp_log sp) :: sp_snaps sp) (sp_incr sp))
  | log_close sp ts log0 l1 l2 :
      sp_snaps sp = l1 ++ (ts, log0) :: l2 ->
      log_step sp (EvClose ts) (mkLogSpec (sp_log sp) (l1 ++ l2) (sp_incr sp))
  | log_internal sp : log_step sp EvInternal sp.

(** ** The engine with its clients and workers *)

Record Sys := mkSys {
  s_e : Engine;
  s_pending : list (writeReq * Z);
  s_open : list Z;
  s_gc : list (Z * Z * Z);
  s_now : Z;
}.

(** The stripe lock of [dispatchIncr]: one increment of a key at a time. *)
Definition incr_free (s : Sys) (r : writeReq) : Prop :=
  rq_op r = opIncr -> forall x, x ∈ s_pending s -> rq_op x.1 = opIncr -> rq_key x.1 <> rq_key r.

Section system.
Context (aesEncrypt : bytes -> bytes -> bytes).
Context (fileSize : Table -> Z) (opts : Options).

(** The steps of the engine.  The premises that call an operation are the code;
    the others are assumptions on the run that the code does not enforce, and
    every theorem about runs is under them:
    - a memtable is rotated only when no request is between taking its
      timestamp and being applied ([step_rotate]; see [rotation_race]);
    - the memtable flushed makes a table that is read whole ([flushable]), and
      so does every table a compaction writes ([wholeLevels]; see
      [tableGet_stale]);
    - the levels that a compaction of level 0 skips do not hold its keys
      ([base_clear]; see [compactLevel0_stale]);
    - counters, file numbers and value-log offsets stay below their widths,
      clocks do not go back, and requests are [req_ok]: puts, deletes, batches
      of distinct keys, increments and the rewrites of the value-log collector,
      whose values do not have the form of a stored pointer; not [Clear] or
      [Flush]. *)
Inductive sys_step : Sys -> event -> Sys -> Prop :=
  | step_assign s r seq e' :
      req_ok r -> rq_seq r = 0 -> incr_free s r -> refused (s_e s) r = false -> nextTs (e_oracle (s_e s)) + 1 < max_u64 ->
      assignSeq r (s_e s) = Some (seq, e') ->
      sys_step s EvInternal (mkSys e' ((r, seq) :: s_pending s) (s_open s) (s_gc s) (s_now s))
  | step_commit s r readTs readFps writeFps ts o' :
      req_ok r -> rq_op r = 0 -> rq_seq r = ts -> readTs ∈ s_open s -> nextTs (e_oracle (s_e s)) + 1 < max_u64 ->
      checkAndCommitInternal (e_oracle (s_e s)) readTs readFps writeFps = (Ok ts, o') ->
      sys_step s EvInternal (mkSys (set_oracle (s_e s) o') ((r, ts) :: s_pending s) (s_open s) (s_gc s) (s_now s))
  | step_refuse s r seq l1 l2 e' :
      s_pending s = l1 ++ (r, seq) :: l2 -> rq_seq r = seq -> refused (s_e s) r = true ->
      markApplied seq (s_e s) = Some (tt, e') ->
      sys_step s EvInternal (mkSys e' (l1 ++ l2) (s_open s) (s_gc s) (s_now s))
  | step_apply s w r seq l1 l2 res e' :
      s_pending s = l1 ++ (r, seq) :: l2 -> s_now s <= wd_now w -> iv_ok (wd_ivVlog w) -> room (e_vl (s_e s)) (reqCost r) ->
      applyRequest aesEncrypt w r seq (s_e s) = Some (res, e') ->
      sys_step s (EvApply (wd_now w) r seq res) (mkSys e' (l1 ++ l2) (s_open s) (s_gc s) (wd_now w))
  | step_rotate s w e' :
      s_pending s = [] -> e_immMemTable (s_e s) = None -> iv_ok (wd_ivVlog w) -> room (e_vl (s_e s)) 64 ->
      lsm_nextSeq (e_lsm (s_e s)) + 1 < 2 ^ 64 ->
      (task ← triggerFlushLocked w; enqueueFlush task) (s_e s) = Some (tt, e') ->
      sys_step s EvInternal (mkSys e' [] (s_open s) (s_gc s) (s_now s))
  | step_flush s w e' :
      flushable (s_e s) = true -> flushTurn w (s_e s) = Some (tt, e') ->
      sys_step s EvInternal (mkSys e' (s_pending s) (s_open s) (s_gc s) (s_now s))
  | step_compact s w e' :
      s_now s <= wd_now w -> base_clear fileSize opts (e_lsm (s_e s)) ->
      engineCompact fileSize opts w (s_e s) = Some (tt, e') -> wholeLevels (levels (e_lsm e')) = true ->
      sys_step s EvInternal (mkSys e' (s_pending s) (s_open s) (s_gc s) (wd_now w))
  | step_gcStart s stats fid stale gcTs rewrites total e' :
      gcCandidate (s_e s) stats = (fid, stale) -> fid <> 0 -> fid ∈ vl_live (e_vl (s_e s)) ->
      gcStart aesEncrypt fid (s_e s) = Some (Some (gcTs, rewrites, total), e') ->
      sys_step s EvInternal (mkSys e' (s_pending s) (s_open s) ((fid, gcTs, total) :: s_gc s) (s_now s))
  | step_diskUsage s maxDiskBytes used e' :
      checkDiskUsage maxDiskBytes used (s_e s) = Some (tt, e') ->
      sys_step s EvInternal (mkSys e' (s_pending s) (s_open s) (s_gc s) (s_now s))
  | step_gcReset s e' :
      gcReset (s_e s) = Some (tt, e') ->
      sys_step s EvInternal (mkSys e' (s_pending s) (s_open s) (s_gc s) (s_now s))
  | step_gcFinish s fid gcTs total out e' :
      (fid, gcTs, total) ∈ s_gc s -> gcFinish fid gcTs total (s_e s) = Some (out, e') ->
      sys_step s EvInternal (mkSys e' (s_pending s) (s_open s) (s_gc s) (s_now s))
  | step_open s ts o' :
      NewReadTs (e_oracle (s_e s)) = (ts, o') ->
      sys_step s (EvOpen ts) (mkSys (set_oracle (s_e s) o') (s_pending s) (ts :: s_open s) (s_gc s) (s_now s))
  | step_close s ts l1 l2 :
      s_open s = l1 ++ ts :: l2 ->
      sys_step s (EvClose ts)
        (mkSys (set_oracle (s_e s) (Oracle_Done (e_oracle (s_e s)) ts)) (s_pending s) (l1 ++ l2) (s_gc s) (s_now s))
  | step_readAt s now key ts ans e' :
      ts ∈ s_open s -> s_now s <= now -> getByAt aesEncrypt now key ts (s_e s) = Some (ans, e') ->
      sys_step s (EvReadAt now key ts ans) (mkSys e' (s_pending s) (s_open s) (s_gc s) now)
  | step_get s now key ans e' :
      s_now s <= now -> getByString aesEncrypt now key (s_e s) = Some (ans, e') ->
      sys_step s (EvGet now key ans) (mkSys e' (s_pending s) (s_open s) (s_gc s) now)
  | step_ttl s now key :
      s_now s <= now ->
      sys_step s (EvTTL now key (TTL now (s_e s) key)) (mkSys (s_e s) (s_pending s) (s_open s) (s_gc s) now).

(** Runs and their events, the latest first. *)
Inductive sys_run (s0 : Sys) : list event -> Sys -> Prop :=
  | run_nil : sys_run s0 [] s0
  | run_cons evs s ev s' : sys_run s0 evs s -> sys_step s ev s' -> sys_run s0 (ev :: evs) s'.
End system.

Inductive log_run (p0 : LogSpec) : list event -> LogSpec -> Prop :=
  | log_nil : log_run p0 [] p0
  | log_cons evs p ev p' : log_run p0 evs p -> log_step p ev p' -> log_run p0 (ev :: evs) p'.

(** ** The simulation *)

(** What was written since a snapshot was opened is newer than it. *)
Definition snap_ok (log : list Entry) (x : Z * list Entry) : Prop :=
  exists later, log = later ++ x.2 /\ forall u, u ∈ later -> x.1 < Version u.

Lemma snap_read now log ts log0 key : snap_ok log (ts, log0) -> logRead now log key ts = logRead now log0 key ts.
Proof.
  intros (later & -> & Hl). cbn [fst snd] in *. unfold logRead, snapshot_get. rewrite filter_app.
  assert (filter (visible_at key ts) later = []) as ->; [|done]. induction later as [|u later IH]; [done|]. rewrite filter_cons.
  case_decide as Hv; [|apply IH; intros x Hx; apply Hl; by right]. specialize (Hl u ltac:(left)). unfold visible_at in Hv. lia.
Qed.

Lemma g_writes_log g us : g_log (g_writes g us) = rev us ++ g_log g.
Proof.
  unfold g_writes. revert g. induction us as [|u us IH]; intros g; [done|]. cbn [foldl rev]. rewrite IH, <- app_assoc. done.
Qed.

Lemma g_writes_rest g us : g_floor (g_writes g us) = g_floor g /\ g_time (g_writes g us) = g_time g /\ g_sealed (g_writes g us) = g_sealed g.
Proof. unfold g_writes. revert g. induction us as [|u us IH]; intros g; [done|]. cbn [foldl]. by rewrite !(proj1 (IH _)), !(proj1 (proj2 (IH _))), !(proj2 (proj2 (IH _))). Qed.

Lemma more_issued_rest g g' :
  more_issued g g' -> g_log g' = g_log g /\ g_floor g' = g_floor g /\ g_time g' = g_time g /\ g_sealed g' = g_sealed g.
Proof. by intros [xs ->]. Qed.

(** The entries of a request carry its version, and no pointer-like value. *)
Lemma logRequest_entries now log r seq u :
  req_ok r -> u ∈ (logRequest now log r seq).1 -> Version u = seq /\ isValuePointer (Value u) = false.
Proof.
  intros [Hop Hkv [Hb _] _]. unfold logRequest, logIncr. repeat case_match; cbn [fst];
    try (by intros ?%elem_of_nil); try (intros ->%list_elem_of_singleton; cbn; split; [done|apply FormatInt_plain || apply Hkv || done]).
  intros (b & -> & Hin)%list_elem_of_fmap. rewrite Forall_forall in Hb. specialize (Hb b Hin). unfold batch_ok, batchEntry in *.
  destruct (bw_deleted b); [done|]. split; [done|]. by apply Hb.
Qed.

(** The keys of waiting increments. *)
Definition incrKeys (l : list (writeReq * Z)) : list bytes :=
  omap (fun x => if rq_op x.1 =? opIncr then Some (rq_key x.1) else None) l.

Lemma elem_of_incrKeys key l : key ∈ incrKeys l <-> exists x, x ∈ l /\ rq_op x.1 = opIncr /\ rq_key x.1 = key.
Proof.
  unfold incrKeys. rewrite list_elem_of_omap. split; intros (x & Hx & E); exists x; (split; [done|]).
  - destruct (Z.eqb_spec (rq_op x.1) opIncr); [|done]. by injection E.
  - destruct E as [-> ->]. done.
Qed.

Lemma incrKeys_app l l' : incrKeys (l ++ l') = incrKeys l ++ incrKeys l'.
Proof. apply omap_app. Qed.

Section simulation.
Context (aesEncrypt : bytes -> bytes -> bytes).
Hypothesis aes_wf : forall k b, wf_bytes (aesEncrypt k b).
Context (reg : option KeyRegistry).
Hypothesis reg_ok : registry_ok reg.
Context (fileSize : Table -> Z) (opts : Options).
Notation inv := (eng_inv aesEncrypt reg).
Notation step := (sys_step aesEncrypt fileSize opts).

Record sys_inv (s : Sys) (sp : LogSpec) (g : Ghost) : Prop := {
  sy_eng : inv (s_e s) g [] (s_pending s).*2;
  sy_room : room (e_vl (s_e s)) 0;
  sy_oracle : exists txns, oracle_inv (e_oracle (s_e s)) (s_open s) txns;
  sy_await : forall x, x ∈ s_pending s -> req_ok x.1 /\ x.2 ∈ awaiting (e_oracle (s_e s));
  sy_incr : forall x, x ∈ s_pending s -> incr_after sp x.1 x.2;
  sy_alone : NoDup (incrKeys (s_pending s));
  sy_marks : forall key v, sp_incr sp !! key = Some v -> v <= nextTs (e_oracle (s_e s));
  sy_log : g_log g = sp_log sp;
  sy_honest : honest (sp_log sp);
  sy_floor : g_floor g <= appliedTs (e_oracle (s_e s)) /\ forall ts, ts ∈ s_open s -> g_floor g <= ts;
  sy_time : g_time g <= s_now s;
  sy_gc : forall fid gcTs total, (fid, gcTs, total) ∈ s_gc s -> (fid, total) ∈ g_sealed g;
  sy_snaps : (sp_snaps sp).*1 = s_open s;
  sy_snap : forall x, x ∈ sp_snaps sp -> snap_ok (sp_log sp) x;
}.

Lemma sys_clock s sp g :
  sys_inv s sp g -> 1 <= appliedTs (e_oracle (s_e s)) <= nextTs (e_oracle (s_e s)) /\ nextTs (e_oracle (s_e s)) < max_u64.
Proof. intros Hs. destruct (sy_oracle _ _ _ Hs) as [txns Ho]. by apply (oi_clock _ _ _ Ho). Qed.

(** A step that changes neither the clock of the oracle nor the log. *)
Lemma sys_quiet s sp g e' g' gc' now' :
  sys_inv s sp g -> inv e' g' [] (s_pending s).*2 -> e_oracle e' = e_oracle (s_e s) -> room (e_vl e') 0 ->
  g_log g' = g_log g -> g_floor g' <= Z.max (g_floor g) (Oracle_MinReadTs (e_oracle (s_e s))) -> g_time g' <= now' ->
  (forall fid gcTs total, (fid, gcTs, total) ∈ gc' -> (fid, total) ∈ g_sealed g') ->
  sys_inv (mkSys e' (s_pending s) (s_open s) gc' now') sp g'.
Proof.
  intros [] Hi Ho Hr Hlog Hfl Ht Hgc. destruct sy_oracle0 as [txns Hor].
  pose proof (MinReadTs_spec _ _ (appliedTs (e_oracle (s_e s))) (oi_wm _ _ _ Hor)) as Hmin.
  pose proof (fun r => MinReadTs_le _ _ (appliedTs (e_oracle (s_e s))) r (oi_wm _ _ _ Hor)) as Hle.
  fold (Oracle_MinReadTs (e_oracle (s_e s))) in *. split; cbn [s_e s_pending s_open s_gc s_now]; rewrite ?Ho, ?Hlog; try done.
  - by exists txns.
  - destruct sy_floor0 as [H1 H2]. split.
    + destruct Hmin as [Hmin|Hmin]; [lia|]. pose proof (oi_live _ _ _ Hor _ Hmin). lia.
    + intros ts Hts. specialize (H2 ts Hts). specialize (Hle ts Hts). lia.
Qed.

(** *** Versions *)

Lemma inv_clock e g sp pd o' :
  inv e g sp pd -> 0 <= nextTs (e_oracle e) -> nextTs o' = nextTs (e_oracle e) + 1 -> inv (set_oracle e o') g sp (nextTs o' :: pd).
Proof.
  intros [] H0 Ho. split; try done; cbn [set_oracle e_oracle]; rewrite ?Ho.
  - lia.
  - intros a Ha. specialize (ei_next a Ha). lia.
  - destruct ei_pd as (H1 & H2 & H3). split; [|split].
    + constructor; [lia|]. eapply Forall_impl; [exact H1|]. cbn. lia.
    + constructor; [|done]. intros Hin. rewrite Forall_forall in H1. specialize (H1 _ Hin). cbn in H1. lia.
    + intros a Ha [E|Hin]%elem_of_cons; [|by apply (H3 a)]. specialize (ei_next a Ha). lia.
  - change (sl_versionCounter (e_memTable e) <= nextTs (e_oracle e) + 1). lia.
Qed.

Lemma inv_nextSeq e g sp pd n :
  inv e g sp pd -> lsm_nextSeq (e_lsm e) <= n -> inv (set_lsm e (set_nextSeq (e_lsm e) n)) g sp pd.
Proof.
  intros [] Hn. split; try done.
  - unfold queue_ok in *. cbn. destruct (e_immMemTable e); [|done]. destruct (e_flushChan e) as [|t [|]]; try done.
    destruct ei_queue as (H1 & H2 & H3 & H4). split_and!; [done|done|lia|done].
  - by apply lsm_ok_nextSeq.
  - cbn. lia.
Qed.

(** A request with a new version waits. *)
Lemma sys_wait s sp g r seq o' e' :
  sys_inv s sp g -> req_ok r -> incr_free s r -> seq = nextTs o' -> (exists txns, oracle_inv o' (s_open s) txns) -> nextTs o' = nextTs (e_oracle (s_e s)) + 1 ->
  appliedTs o' = appliedTs (e_oracle (s_e s)) -> awaiting o' = {[nextTs o']} ∪ awaiting (e_oracle (s_e s)) ->
  (exists n, lsm_nextSeq (e_lsm (s_e s)) <= n /\ e' = set_lsm (set_oracle (s_e s) o') (set_nextSeq (e_lsm (s_e s)) n)) ->
  sys_inv (mkSys e' ((r, seq) :: s_pending s) (s_open s) (s_gc s) (s_now s)) sp g.
Proof.
  intros Hs Hr Hfree -> Ho Hnx Hap Haw (n & Hn & ->). pose proof (sys_clock _ _ _ Hs) as Hc. destruct Hs.
  split; try done; cbn [s_e s_pending s_open s_gc s_now].
  - apply (inv_nextSeq (set_oracle (s_e s) o')); [|done]. apply inv_clock; [done|lia|done].
  - intros x [->|Hx]%elem_of_cons; cbn; rewrite Haw; [split; [done|set_solver]|]. destruct (sy_await0 x Hx). split; [done|set_solver].
  - intros x [->|Hx]%elem_of_cons; [|by apply sy_incr0]. intros _. cbn.
    destruct (sp_incr sp !! rq_key r) as [v|] eqn:Ev; [|cbn; lia]. specialize (sy_marks0 _ _ Ev). cbn. lia.
  - unfold incrKeys. cbn [omap list_omap fst]. destruct (Z.eqb_spec (rq_op r) opIncr) as [E|]; [|done].
    apply NoDup_cons. split; [|done]. intros (x & Hx & Hop & Hk)%elem_of_incrKeys. by apply (Hfree E x).
  - intros key v Hv. specialize (sy_marks0 _ _ Hv). cbn. lia.
  - cbn. by rewrite Hap.
Qed.

Lemma set_lsm_same e o : set_lsm (set_oracle e o) (set_nextSeq (e_lsm e) (lsm_nextSeq (e_lsm e))) = set_oracle e o.
Proof. destruct e as [? ? l]. by destruct l. Qed.

Lemma sim_assign s sp g r seq e' :
  sys_inv s sp g -> req_ok r -> rq_seq r = 0 -> incr_free s r -> nextTs (e_oracle (s_e s)) + 1 < max_u64 -> assignSeq r (s_e s) = Some (seq, e') ->
  sys_inv (mkSys e' ((r, seq) :: s_pending s) (s_open s) (s_gc s) (s_now s)) sp g.
Proof.
  intros Hs Hr Hz Hfree Hnx. unfold assignSeq, getE, mbind, eng_bind. rewrite Hz. destruct (sy_oracle _ _ _ Hs) as [txns Ho].
  destruct (assignTs_inv _ _ _ Ho Hnx) as [E1 E2]. pose proof (sys_clock _ _ _ Hs) as Hc. unfold NewCommitTs. change (0 =? 0) with true. cbv iota.
  unfold assignTsLocked in *. cbn [fst snd] in *. rewrite u64_id in * by (unfold is_u64, max_u64 in *; lia).
  unfold putE, mret, eng_ret. intros [= <- <-].
  match goal with |- context [set_oracle _ ?o] => apply (sys_wait s sp g r _ o) end; try done; [by exists txns|].
  eexists. split; [|reflexivity]. case_if; lia.
Qed.

Lemma sim_commit s sp g r readTs rf wf ts o' :
  sys_inv s sp g -> req_ok r -> rq_op r = 0 -> readTs ∈ s_open s -> nextTs (e_oracle (s_e s)) + 1 < max_u64 ->
  checkAndCommitInternal (e_oracle (s_e s)) readTs rf wf = (Ok ts, o') ->
  sys_inv (mkSys (set_oracle (s_e s) o') ((r, ts) :: s_pending s) (s_open s) (s_gc s) (s_now s)) sp g.
Proof.
  intros Hs Hr Hop Hrd Hnx Hcc. destruct (sy_oracle _ _ _ Hs) as [txns Ho].
  destruct (checkAndCommitInternal_spec _ _ _ readTs rf wf Ho Hrd Hnx) as [[_ E]|(_ & o2 & E & Ho2 & Hn2 & Ha2 & Hw2)]; rewrite E in Hcc; [done|].
  injection Hcc as <- <-. rewrite <- Hn2 in Hw2. apply (sys_wait s sp g r _ o2); try done; [by intros E1; rewrite Hop in E1|by eexists|].
  exists (lsm_nextSeq (e_lsm (s_e s))). split; [lia|]. by rewrite set_lsm_same.
Qed.

(** *** Applying *)

Lemma MarkApplied_facts o live txns ts :
  oracle_inv o live txns -> oracle_inv (MarkApplied o ts) live txns /\ appliedTs o <= appliedTs (MarkApplied o ts) /\
    forall x, x ∈ awaiting o -> x <> ts -> x ∈ awaiting (MarkApplied o ts).
Proof.
  intros Ho. split; [by apply MarkApplied_inv|]. unfold MarkApplied. case_if; [split; [lia|done]|].
  destruct (advance_inv (set_awaiting o (awaiting o ∖ {[ts]})) live txns) as (_ & Hle & _).
  { apply set_awaiting_inv; [done|set_solver]. }
  split; [exact Hle|]. intros x Hx Hne. cbn. set_solver.
Qed.

(** What the invariant says of a waiting request. *)
Lemma pending_facts s sp g r seq l1 l2 :
  sys_inv s sp g -> s_pending s = l1 ++ (r, seq) :: l2 ->
  req_ok r /\ appliedTs (e_oracle (s_e s)) < seq <= nextTs (e_oracle (s_e s)) /\ inv (s_e s) g [] (l1 ++ l2).*2 /\
  writable (s_e s) g (l1 ++ l2).*2 seq /\ (forall u, u ∈ sp_log sp -> Version u <> seq) /\
  (forall x, x ∈ l1 ++ l2 -> req_ok x.1 /\ x.2 ∈ awaiting (e_oracle (s_e s)) /\ x.2 <> seq).
Proof.
  intros Hs Hp. pose proof (sys_clock _ _ _ Hs) as Hc. destruct Hs. rewrite Hp in *. destruct (sy_await0 (r, seq)) as [Hr Haw]; [set_solver|].
  destruct sy_oracle0 as [txns Ho]. pose proof (oi_await _ _ _ Ho _ Haw) as Hb. cbn [snd] in *.
  destruct (ei_pd _ _ _ _ _ _ sy_eng0) as (Hrange & Hnd & Hfresh). rewrite fmap_app, fmap_cons in *. cbn [snd] in *.
  assert (l1.*2 ++ seq :: l2.*2 ≡ₚ seq :: l1.*2 ++ l2.*2) as Hperm by (symmetry; apply Permutation_middle).
  rewrite Hperm in Hrange, Hnd. apply Forall_cons in Hrange as [Hseq _]. apply NoDup_cons in Hnd as [Hnotin _].
  split; [done|]. split; [done|]. split.
  { eapply inv_pd; [|exact sy_eng0]. rewrite Hperm. by apply submseteq_cons. }
  split; [split; [lia|split; [lia|done]]|]. split.
  - intros u Hu E. rewrite <- sy_log0 in Hu. pose proof (log_versions _ _ _ _ _ _ sy_eng0) as Hv.
    assert (at_version u ∈ at_version <$> everything (s_e s) g) as (a & Ea & Ha)%list_elem_of_fmap by (rewrite Hv; by apply list_elem_of_fmap_2).
    apply (Hfresh a Ha). injection Ea as _ <-. rewrite E. set_solver.
  - intros x Hx. destruct (sy_await0 x) as [? ?]; [set_solver|]. split; [done|]. split; [done|]. intros <-. apply Hnotin.
    rewrite <- fmap_app. by apply list_elem_of_fmap_2.
Qed.

(** A request is done: its entries, if any, are in the log. *)
Lemma sys_done s sp g r seq l1 l2 us e' g' now' marks :
  sys_inv s sp g -> s_pending s = l1 ++ (r, seq) :: l2 -> s_now s <= now' ->
  inv e' g' [] (l1 ++ l2).*2 -> room (e_vl e') 0 -> e_oracle e' = MarkApplied (e_oracle (s_e s)) seq ->
  g_log g' = rev us ++ g_log g -> g_floor g' = g_floor g -> g_time g' = g_time g -> g_sealed g' = g_sealed g ->
  (forall u, u ∈ us -> Version u = seq /\ isValuePointer (Value u) = false) -> marks = sp_incr sp \/ marks = incr_mark (sp_incr sp) r seq ->
  sys_inv (mkSys e' (l1 ++ l2) (s_open s) (s_gc s) now') (mkLogSpec (rev us ++ sp_log sp) (sp_snaps sp) marks) g'.
Proof.
  intros Hs Hp Hnow Hi Hr Ho Hlog Hfl Ht Hse Hus Hmarks. destruct (pending_facts _ _ _ _ _ _ _ Hs Hp) as (_ & Hseq & _ & _ & _ & Hrest).
  destruct Hs. destruct sy_oracle0 as [txns Hor]. destruct (MarkApplied_facts _ _ _ seq Hor) as (Ho' & Hap & Haw).
  assert (forall u, u ∈ rev us -> Version u = seq /\ isValuePointer (Value u) = false) as Hus'.
  { intros u Hu. apply Hus. by rewrite Permutation_rev. }
  assert (incrKeys (l1 ++ (r, seq) :: l2) ≡ₚ incrKeys [(r, seq)] ++ incrKeys (l1 ++ l2)) as Hperm.
  { rewrite <- incrKeys_app. unfold incrKeys. by rewrite <- Permutation_middle. }
  split; cbn [s_e s_pending s_open s_gc s_now sp_log sp_snaps]; rewrite ?Ho, ?Hfl, ?Ht, ?Hse; try done.
  - by exists txns.
  - intros x Hx. destruct (Hrest x Hx) as (H1 & H2 & H3). split; [done|by apply Haw].
  - intros x Hx Hop. cbn [sp_incr]. assert (default 0 (sp_incr sp !! rq_key x.1) < x.2) as Hx0 by (apply sy_incr0; [rewrite Hp; set_solver|done]).
    destruct Hmarks as [->| ->]; [done|]. unfold incr_mark. destruct (Z.eqb_spec (rq_op r) opIncr) as [Er|]; [|done].
    rewrite lookup_insert_ne; [done|]. intros Ek. rewrite Hp, Hperm in sy_alone0. unfold incrKeys in sy_alone0. cbn [omap list_omap fst] in sy_alone0.
    rewrite Er in sy_alone0. apply NoDup_cons in sy_alone0 as [Hn _]. apply Hn, elem_of_incrKeys. by exists x.
  - rewrite Hp, Hperm in sy_alone0. by apply NoDup_app in sy_alone0 as (_ & _ & ?).
  - intros key v Hv. cbn [sp_incr] in Hv. rewrite MarkApplied_next. destruct Hmarks as [->| ->]; [by apply (sy_marks0 key)|]. unfold incr_mark in Hv.
    destruct (rq_op r =? opIncr); [|by apply (sy_marks0 key)]. apply lookup_insert_Some in Hv as [[_ <-]|[_ Hv]]; [lia|by apply (sy_marks0 key)].
  - by rewrite Hlog, sy_log0.
  - intros u [Hu|Hu]%elem_of_app; [by apply Hus'|by apply sy_honest0].
  - destruct sy_floor0 as [H1 H2]. split; [lia|done].
  - lia.
  - intros x Hx. destruct (sy_snap0 x Hx) as (later & E & Hl). exists (rev us ++ later). rewrite E, app_assoc. split; [done|].
    intros u [Hu|Hu]%elem_of_app; [|by apply Hl]. destruct (Hus' u Hu) as [-> _].
    assert (x.1 ∈ s_open s) as Hop by (rewrite <- sy_snaps0; by apply list_elem_of_fmap_2). pose proof (oi_live _ _ _ Hor _ Hop). lia.
Qed.

(** Applying a waiting request, from the invariant. *)
Lemma pending_runs s sp g w r seq l1 l2 n :
  sys_inv s sp g -> s_pending s = l1 ++ (r, seq) :: l2 -> s_now s <= wd_now w -> iv_ok (wd_ivVlog w) -> room (e_vl (s_e s)) (n + reqCost r) -> 0 <= n ->
  let out := logRequest (wd_now w) (sp_log sp) r seq in
  runs (applyRequest aesEncrypt w r seq) (s_e s) (fun res e' => res = out.2 /\ finished aesEncrypt reg (s_e s) g (l1 ++ l2).*2 n seq out.1 e').
Proof.
  intros Hs Hp Hnow Hiv Hroom Hn. pose proof (sys_clock _ _ _ Hs) as Hc.
  destruct (pending_facts _ _ _ _ _ _ _ Hs Hp) as (Hr & Hseq & Hi & Hw & Hfresh & _). pose proof (sy_time _ _ _ Hs) as Ht.
  pose proof (sy_floor _ _ _ Hs) as [Hfl _]. pose proof (sy_honest _ _ _ Hs) as Hh. rewrite <- (sy_log _ _ _ Hs) in *.
  apply (applyRequest_runs aesEncrypt aes_wf reg reg_ok); try done; unfold max_u64 in *; lia.
Qed.

Lemma sim_apply s sp g w r seq l1 l2 res e' :
  sys_inv s sp g -> s_pending s = l1 ++ (r, seq) :: l2 -> s_now s <= wd_now w -> iv_ok (wd_ivVlog w) ->
  room (e_vl (s_e s)) (reqCost r) -> applyRequest aesEncrypt w r seq (s_e s) = Some (res, e') ->
  exists sp' g', log_step sp (EvApply (wd_now w) r seq res) sp' /\ sys_inv (mkSys e' (l1 ++ l2) (s_open s) (s_gc s) (wd_now w)) sp' g'.
Proof.
  intros Hs Hp Hnow Hiv Hroom Hrun. destruct (pending_facts _ _ _ _ _ _ _ Hs Hp) as (Hr & _ & _ & _ & Hfresh & _).
  pose proof (pending_runs s sp g w r seq l1 l2 0 Hs Hp Hnow Hiv Hroom ltac:(lia)) as Happ. unfold runs in Happ. rewrite Hrun in Happ.
  destruct Happ as (-> & Ho & Hr' & g1 & Hg1 & Hi').
  destruct (more_issued_rest _ _ Hg1) as (E1 & E2 & E3 & E4). set (us := (logRequest (wd_now w) (sp_log sp) r seq).1) in *.
  destruct (g_writes_rest g1 us) as (F1 & F2 & F3). eexists _, _. split.
  { apply log_apply; [done|]. apply (sy_incr _ _ _ Hs (r, seq)). rewrite Hp. set_solver. }
  eapply (sys_done s sp g r seq l1 l2 us); try done; [by rewrite g_writes_log, E1|congruence..| |by right].
  intros u. by apply logRequest_entries.
Qed.

Lemma sim_refuse s sp g r seq l1 l2 e' :
  sys_inv s sp g -> s_pending s = l1 ++ (r, seq) :: l2 -> markApplied seq (s_e s) = Some (tt, e') ->
  sys_inv (mkSys e' (l1 ++ l2) (s_open s) (s_gc s) (s_now s)) sp g.
Proof.
  intros Hs Hp [= <-]. destruct (pending_facts _ _ _ _ _ _ _ Hs Hp) as (_ & _ & Hi & _).
  assert (sp = mkLogSpec (rev [] ++ sp_log sp) (sp_snaps sp) (sp_incr sp)) as -> by (by destruct sp).
  apply (sys_done s sp g r seq l1 l2 []); try done; [apply inv_set_oracle; [done|apply MarkApplied_next]|apply Hs|by intros u ?%elem_of_nil|by left].
Qed.

(** *** The other steps *)

Lemma gcCandidate_not_active e stats fid stale : gcCandidate e stats = (fid, stale) -> fid <> 0 -> fid <> vl_active (e_vl e).
Proof.
  unfold gcCandidate. assert (forall b, b.1 = 0 \/ b.1 <> vl_active (e_vl e) ->
    let r := foldl (fun '(bestFid, maxStale) '(fid, stale) =>
      if fid =? vl_active (e_vl e) then (bestFid, maxStale)
      else if match e_gcPending e !! fid with Some pending => DiscardStats_Get (e_vlogDiscards e) fid <? pending | None => false end
      then (bestFid, maxStale)
      else if maxStale <? stale then (fid, stale) else (bestFid, maxStale)) b stats in r.1 = 0 \/ r.1 <> vl_active (e_vl e)) as H.
  { induction stats as [|[f st] stats IH]; intros [b m] Hb; [done|]. cbn [foldl]. apply IH. repeat case_match; bool_prop; cbn; auto. }
  intros E Hne. specialize (H (0, 0) (or_introl eq_refl)). rewrite E in H. cbn in H. by destruct H.
Qed.

Lemma sim_rotate s sp g w e' :
  sys_inv s sp g -> s_pending s = [] -> e_immMemTable (s_e s) = None -> iv_ok (wd_ivVlog w) -> room (e_vl (s_e s)) 64 ->
  lsm_nextSeq (e_lsm (s_e s)) + 1 < 2 ^ 64 -> (task ← triggerFlushLocked w; enqueueFlush task) (s_e s) = Some (tt, e') ->
  exists g', sys_inv (mkSys e' [] (s_open s) (s_gc s) (s_now s)) sp g'.
Proof.
  intros Hs Hp Himm Hiv Hr Hseq Hrun. pose proof (sy_eng _ _ _ Hs) as Hi. rewrite Hp in Hi.
  pose proof (rotate_runs aesEncrypt aes_wf reg reg_ok (s_e s) g 0 w Hi Hr ltac:(lia) Hiv Himm (ei_seq _ _ _ _ _ _ Hi) Hseq) as H.
  unfold runs in H. rewrite Hrun in H. destruct H as [Hi' [Ho Hr']]. exists (g_rotate g (nextTs (e_oracle (s_e s)))). rewrite <- Hp at 1.
  eapply (sys_quiet s sp g); try done; [by rewrite Hp|cbn; lia|apply Hs|apply Hs].
Qed.

Lemma sim_flush s sp g w e' :
  sys_inv s sp g -> flushable (s_e s) = true -> flushTurn w (s_e s) = Some (tt, e') ->
  exists g', sys_inv (mkSys e' (s_pending s) (s_open s) (s_gc s) (s_now s)) sp g'.
Proof.
  intros Hs Hf Hrun. pose proof (flush_runs aesEncrypt aes_wf reg reg_ok (s_e s) g _ 0 w (sy_eng _ _ _ Hs) (sy_room _ _ _ Hs) Hf) as H.
  unfold runs in H. rewrite Hrun in H. destruct H as (g' & E1 & E2 & E3 & _ & E5 & Hi' & [Ho Hr'] & _). exists g'.
  eapply (sys_quiet s sp g); try done; [lia|rewrite E3; apply Hs|rewrite E5; apply Hs].
Qed.

Lemma sim_compact s sp g w e' :
  sys_inv s sp g -> s_now s <= wd_now w -> base_clear fileSize opts (e_lsm (s_e s)) ->
  engineCompact fileSize opts w (s_e s) = Some (tt, e') -> wholeLevels (levels (e_lsm e')) = true ->
  exists g', sys_inv (mkSys e' (s_pending s) (s_open s) (s_gc s) (wd_now w)) sp g'.
Proof.
  intros Hs Hnow Hb Hrun Hwh. rewrite (engineCompact_lsm _ _ _ _ _ Hrun) in Hwh. pose proof (sy_room _ _ _ Hs) as Hroom. pose proof (sy_time _ _ _ Hs) as Ht.
  pose proof (engineCompact_runs aesEncrypt aes_wf reg (s_e s) g [] _ 0 fileSize opts w (sy_eng _ _ _ Hs) Hroom ltac:(lia) Hb Hwh) as H.
  unfold runs in H. rewrite Hrun in H. destruct H as ((drops & Hi') & Ho & Hv). eexists.
  eapply (sys_quiet s sp g); try done; [by rewrite Hv|cbn; lia|apply Hs].
Qed.

Lemma sim_gcStart s sp g fid gcTs rewrites total e' :
  sys_inv s sp g -> fid <> vl_active (e_vl (s_e s)) -> fid ∈ vl_live (e_vl (s_e s)) ->
  gcStart aesEncrypt fid (s_e s) = Some (Some (gcTs, rewrites, total), e') ->
  exists g', sys_inv (mkSys e' (s_pending s) (s_open s) ((fid, gcTs, total) :: s_gc s) (s_now s)) sp g'.
Proof.
  intros Hs Hne Hl Hrun.
  pose proof (gcStart_runs aesEncrypt aes_wf reg (s_e s) g [] _ 0 fid (sy_eng _ _ _ Hs) (sy_room _ _ _ Hs) ltac:(lia) Hl Hne) as H.
  unfold runs in H. rewrite Hrun in H. destruct H as (reqs & total' & [= -> -> ->] & Hi' & [Ho Hr']). eexists.
  eapply (sys_quiet s sp g); try done; [cbn; lia|apply Hs|]. intros f ts t [[= -> -> ->]|Hin]%elem_of_cons; [left|].
  right. by eapply (sy_gc _ _ _ Hs).
Qed.

Lemma sim_gcReset s sp g e' :
  sys_inv s sp g -> gcReset (s_e s) = Some (tt, e') -> sys_inv (mkSys e' (s_pending s) (s_open s) (s_gc s) (s_now s)) sp g.
Proof.
  intros Hs Hrun. pose proof (gcReset_runs aesEncrypt reg (s_e s) g [] _ 0 (sy_eng _ _ _ Hs) (sy_room _ _ _ Hs)) as H.
  unfold runs in H. rewrite Hrun in H. destruct H as (Hi' & [Ho Hr'] & _). eapply (sys_quiet s sp g); try done; [lia|apply Hs..].
Qed.

Lemma sim_gcFinish s sp g fid gcTs total out e' :
  sys_inv s sp g -> (fid, gcTs, total) ∈ s_gc s -> gcFinish fid gcTs total (s_e s) = Some (out, e') ->
  sys_inv (mkSys e' (s_pending s) (s_open s) (s_gc s) (s_now s)) sp g.
Proof.
  intros Hs Hin Hrun. pose proof (sy_gc _ _ _ Hs _ _ _ Hin) as Hse.
  pose proof (gcFinish_runs aesEncrypt aes_wf reg reg_ok (s_e s) g [] _ 0 fid gcTs total (sy_eng _ _ _ Hs) (sy_room _ _ _ Hs) Hse) as H.
  unfold runs in H. rewrite Hrun in H. destruct H as (Hi' & [Ho Hr']). eapply (sys_quiet s sp g); try done; [lia|apply Hs..].
Qed.

(** A read leaves a flushed value log and the clock. *)
Lemma sim_read s sp g e' now :
  sys_inv s sp g -> s_now s <= now -> (exists vl, e' = set_vl (s_e s) vl /\ inv e' g [] (s_pending s).*2 /\ room vl 0) ->
  sys_inv (mkSys e' (s_pending s) (s_open s) (s_gc s) now) sp g.
Proof.
  intros Hs Hnow (vl & -> & Hi & Hr). pose proof (sy_time _ _ _ Hs). eapply (sys_quiet s sp g); try done; [lia|lia|apply Hs].
Qed.

Lemma sim_diskUsage s sp g maxDiskBytes used e' :
  sys_inv s sp g -> checkDiskUsage maxDiskBytes used (s_e s) = Some (tt, e') ->
  sys_inv (mkSys e' (s_pending s) (s_open s) (s_gc s) (s_now s)) sp g.
Proof.
  intros Hs. unfold checkDiskUsage, getE, mbind, eng_bind, putE, mret, eng_ret. pose proof (sy_eng _ _ _ Hs) as Hi. pose proof (sy_room _ _ _ Hs) as Hr.
  case_if; intros [= <-].
  - eapply (sys_quiet s sp g); try done; [lia|apply Hs..].
  - eapply (sys_quiet s sp g _ g); try done; [by destruct Hi|lia|apply Hs..].
Qed.

Lemma sim_open s sp g ts o' :
  sys_inv s sp g -> NewReadTs (e_oracle (s_e s)) = (ts, o') ->
  sys_inv (mkSys (set_oracle (s_e s) o') (s_pending s) (ts :: s_open s) (s_gc s) (s_now s))
    (mkLogSpec (sp_log sp) ((ts, sp_log sp) :: sp_snaps sp) (sp_incr sp)) g.
Proof.
  intros [] Hn. destruct sy_oracle0 as [txns Ho]. destruct (NewReadTs_inv _ _ _ Ho) as [E1 E2]. unfold NewReadTs in Hn, E1, E2. cbn [fst snd] in E1, E2.
  injection Hn as <- <-. rewrite E1 in *. split; try done; cbn [s_e s_pending s_open s_gc s_now sp_log sp_snaps sp_incr].
  - by apply inv_set_oracle.
  - by exists txns.
  - destruct sy_floor0 as [H1 H2]. split; [done|]. intros x [->|Hx]%elem_of_cons; [done|by apply H2].
  - by rewrite fmap_cons, sy_snaps0.
  - intros x [->|Hx]%elem_of_cons; [|by apply sy_snap0]. exists []. split; [done|by intros u ?%elem_of_nil].
Qed.

Lemma sim_close s sp g ts l1 l2 :
  sys_inv s sp g -> s_open s = l1 ++ ts :: l2 ->
  exists sp', log_step sp (EvClose ts) sp' /\
    sys_inv (mkSys (set_oracle (s_e s) (Oracle_Done (e_oracle (s_e s)) ts)) (s_pending s) (l1 ++ l2) (s_gc s) (s_now s)) sp' g.
Proof.
  intros [] Hop. destruct sy_oracle0 as [txns Ho]. rewrite Hop in *.
  apply fmap_app_inv in sy_snaps0 as (m1 & m2 & H1 & H2 & Hsn). symmetry in H2. apply fmap_cons_inv in H2 as ([ts' log0] & m3 & -> & -> & ->).
  cbn [fst] in *. eexists. split; [by apply (log_close sp ts' log0 m1 m3)|].
  split; try done; cbn [s_e s_pending s_open s_gc s_now sp_log sp_snaps sp_incr].
  - by apply inv_set_oracle.
  - exists txns. by apply Oracle_Done_inv.
  - destruct sy_floor0 as [H3 H4]. split; [done|]. intros x Hx. apply H4. set_solver.
  - by rewrite fmap_app, H1.
  - intros x Hx. apply sy_snap0. rewrite Hsn. set_solver.
Qed.

Lemma sim_readAt s sp g now key ts ans e' :
  sys_inv s sp g -> ts ∈ s_open s -> s_now s <= now -> getByAt aesEncrypt now key ts (s_e s) = Some (ans, e') ->
  log_step sp (EvReadAt now key ts ans) sp /\ sys_inv (mkSys e' (s_pending s) (s_open s) (s_gc s) now) sp g.
Proof.
  intros Hs Hts Hnow Hrun. pose proof (sy_time _ _ _ Hs) as Ht. pose proof (proj2 (sy_floor _ _ _ Hs) ts Hts) as Hfl.
  pose proof (getByAt_runs aesEncrypt reg (s_e s) g [] _ 0 now key ts (sy_eng _ _ _ Hs) (sy_room _ _ _ Hs) Hfl ltac:(lia)) as H.
  unfold runs in H. rewrite Hrun in H. destruct H as (-> & vl & He & Hi & Hr & _). rewrite (sy_log _ _ _ Hs).
  pose proof Hts as Hin. rewrite <- (sy_snaps _ _ _ Hs) in Hin. apply list_elem_of_fmap in Hin as ([ts' log0] & -> & Hin).
  cbn [fst] in *. rewrite (snap_read now _ ts' log0) by (by apply (sy_snap _ _ _ Hs)). split; [by apply log_readAt|].
  apply (sim_read s sp g); [done|done|by exists vl].
Qed.

Lemma sim_get s sp g now key ans e' :
  sys_inv s sp g -> s_now s <= now -> getByString aesEncrypt now key (s_e s) = Some (ans, e') ->
  log_step sp (EvGet now key ans) sp /\ sys_inv (mkSys e' (s_pending s) (s_open s) (s_gc s) now) sp g.
Proof.
  intros Hs Hnow Hrun. pose proof (sy_time _ _ _ Hs) as Ht. pose proof (proj1 (sy_floor _ _ _ Hs)) as Hfl. pose proof (sys_clock _ _ _ Hs) as Hc.
  pose proof (ei_top _ _ _ _ _ _ (sy_eng _ _ _ Hs)) as Htop.
  pose proof (getByString_runs aesEncrypt aes_wf reg reg_ok (s_e s) g [] _ 0 now key (sy_eng _ _ _ Hs) (sy_room _ _ _ Hs) ltac:(lia) ltac:(lia) ltac:(lia) ltac:(lia)) as H.
  unfold runs in H. rewrite Hrun in H. destruct H as (-> & vl & He & Hi & Hr & _). rewrite (sy_log _ _ _ Hs). split; [by apply log_get|].
  apply (sim_read s sp g); [done|done|by exists vl].
Qed.

Lemma sim_ttl s sp g now key :
  sys_inv s sp g -> s_now s <= now ->
  log_step sp (EvTTL now key (TTL now (s_e s) key)) sp /\ sys_inv (mkSys (s_e s) (s_pending s) (s_open s) (s_gc s) now) sp g.
Proof.
  intros Hs Hnow. pose proof (sy_time _ _ _ Hs) as Ht. pose proof (proj1 (sy_floor _ _ _ Hs)) as Hfl. pose proof (sys_clock _ _ _ Hs) as Hc.
  rewrite (TTL_spec aesEncrypt reg (s_e s) g [] _ now key (sy_eng _ _ _ Hs)) by lia. rewrite (sy_log _ _ _ Hs). split; [apply log_ttl|].
  eapply (sys_quiet s sp g); try done; [apply Hs|apply Hs|lia|lia|apply Hs].
Qed.

Lemma sim_step s sp g ev s' :
  sys_inv s sp g -> step s ev s' -> exists sp' g', log_step sp ev sp' /\ sys_inv s' sp' g'.
Proof.
  intros Hs Hst. assert (forall s'', (exists g', sys_inv s'' sp g') -> exists sp' g', log_step sp EvInternal sp' /\ sys_inv s'' sp' g') as Hquiet.
  { intros s'' [g' H]. exists sp, g'. split; [apply log_internal|done]. }
  destruct Hst.
  - apply Hquiet. exists g. by apply sim_assign.
  - apply Hquiet. exists g. by eapply sim_commit.
  - apply Hquiet. exists g. by eapply sim_refuse.
  - by eapply sim_apply.
  - apply Hquiet. by eapply sim_rotate.
  - apply Hquiet. by eapply sim_flush.
  - apply Hquiet. by eapply sim_compact.
  - apply Hquiet. eapply sim_gcStart; try done. by eapply gcCandidate_not_active.
  - apply Hquiet. exists g. by eapply sim_diskUsage.
  - apply Hquiet. exists g. by eapply sim_gcReset.
  - apply Hquiet. exists g. by eapply sim_gcFinish.
  - eexists _, g. split; [apply log_open|by apply sim_open].
  - destruct (sim_close s sp g ts l1 l2) as (sp' & H1 & H2); eauto.
  - exists sp, g. by eapply sim_readAt.
  - exists sp, g. by eapply sim_get.
  - exists sp, g. by eapply sim_ttl.
Qed.
End simulation.
