(* ===== verification/EngineMain.v ===== *)
(** * Theorems about the engine as a whole

    A new database, any interleaving of clients and background work, and what
    the clients see; then the failures that the guards of the step relation
    leave out. *)

From S2P Require Import Prelude Mvcc Oracle SkipList Heap Iterator Strconv Threshold Checksum Crypto Registry Framing Wal Vlog Values VlogSpec SstBlock SstTable TableRead Compaction Manifest Engine Open EngineInv EngineSteps EngineCompact EngineGc EngineSystem.

(** ** A new database *)

Definition g0 : Ghost := mkGhost [] [] [] [] 0 0 0 0 [].

Definition freshEngine (opts : OpenOptions) (ow : OpenWorld) (vl : ValueLog) (wal : WAL) : Engine :=
  mkEngine (SeedVersion (NewSkipList (wd_seed (ow_world ow))) 1) None (mkLsm (replicate MaxLevels []) 0 [] [] [] []) wal ∅ vl ∅ ∅ ∅ 0
    newOracle [] ∅ [] false (adaptiveThreshold opts) (oo_valueThreshold opts).

Section fresh.
Context (aesEncrypt : bytes -> bytes -> bytes).
Hypothesis aes_wf : forall k b, wf_bytes (aesEncrypt k b).
Context (opts : OpenOptions) (ow : OpenWorld).
Hypothesis reg_ok : registry_ok (oo_registry opts).
Hypothesis ivs_ok : (forall f, iv_ok (ow_ivs ow f)) /\ iv_ok (wd_ivWal (ow_world ow)).

Lemma open_empty e :
  OpenEngineWithOpts aesEncrypt opts ow emptyDisk = Some e ->
  exists vl wal full, openWithMaxSize ∅ (oo_segmentSize opts) (oo_registry opts) (ow_ivs ow) = Some vl /\
    e = set_diskFull (freshEngine opts ow vl wal) full.
Proof.
  unfold OpenEngineWithOpts. cbn [emptyDisk dk_vlog]. destruct (openWithMaxSize _ _ _ _) as [vl|]; [|done].
  change (readManifest (dk_manifest emptyDisk)) with (∅ : gmap Z Z, @nil Z). cbv iota.
  change (uncommittedWALs ∅ emptyDisk) with (@nil (Z * bytes)). unfold openLogs. cbn [emptyDisk dk_wal].
  destruct (OpenWAL [] (oo_registry opts) (wd_ivWal (ow_world ow))) as [w|] eqn:Ew; [|done].
  destruct ivs_ok as [_ [Hiv1 Hiv2]]. destruct (OpenWAL_empty aesEncrypt _ _ _ Ew Hiv1 Hiv2) as [Hc Hl].
  rewrite (Recover_holds aesEncrypt aes_wf w (Wal.w_buf w) []); [|done|constructor|done|].
  2:{ unfold fits_i64. change (encodeAll _ _ _ []) with (@nil Z). cbn [length]. destruct Hl as [-> _]. unfold w_fileHdr. by destruct (w_cipher w). }
  change (locateAll _ _ _ []) with (@nil WalRecord). cbn [replayRecords].
  change (Z.max _ _) with 0. unfold checkDiskUsage, mbind, eng_bind, mret, eng_ret, getE, putE. cbn [Z.ltb Z.compare].
  case_if; intros [= <-]; exists vl, (walFlush w); [exists false|eexists]; done.
Qed.

(** The state of a new database satisfies the invariant. *)
Lemma fresh_inv e :
  OpenEngineWithOpts aesEncrypt opts ow emptyDisk = Some e ->
  eng_inv aesEncrypt (oo_registry opts) e g0 [] [] /\ room (e_vl e) 0 /\ e_oracle e = newOracle.
Proof.
  intros He. destruct (open_empty e He) as (vl & wal & full & Hv & ->). destruct ivs_ok as [Hivs _].
  destruct (holds_open aesEncrypt aes_wf (oo_registry opts) reg_ok _ _ _ Hivs Hv) as (Hh & Ha & Hn & Hl & Hr & Hlen).
  split; [|split; [|done]].
  2:{ split; [cbn; lia|]. intros fid s Hs. specialize (Hlen fid s Hs). lia. }
  set (e := set_diskFull (freshEngine opts ow vl wal) full) in *.
  pose proof (seeded_refines (wd_seed (ow_world ow)) 1) as Hmem.
  assert (memE e = [] /\ immE e = [] /\ lsmE e = []) as (E1 & E2 & E3).
  { split; [|done]. apply Permutation_nil_r. exact (proj1 (proj2 (proj2 Hmem))). }
  assert (everything e g0 = []) as Ee by (unfold everything; by rewrite E1, E2).
  split; try done; rewrite ?E1, ?E2, ?E3, ?Ee; try done.
  - by eexists.
  - apply lsm_okb_spec. by vm_compute.
  - by intros a ?%elem_of_nil.
  - by intros a ?%elem_of_nil.
  - by intros a [?%elem_of_nil|?%elem_of_nil].
  - by intros a ?%elem_of_nil.
  - by intros a [?%elem_of_nil|?%elem_of_nil].
  - constructor.
  - by exists [].
  - by intros vp ?%elem_of_nil.
  - split; [constructor|]. split; [constructor|]. by intros a ?%elem_of_nil.
  - cbn. unfold adaptiveThreshold, thr_ok. destruct (oo_adaptive opts); [|done]. unfold NewAdaptive. cbv zeta.
    eexists defaultWindow, threeQuarters, _, _, []. split; [unfold defaultWindow; lia|]. split; [by vm_compute|]. apply ring_start.
  - by intros x ?%elem_of_nil.
  - by intros x ?%elem_of_nil.
Qed.
End fresh.

Lemma logRequest_errors now log r seq : ir_err (logRequest now log r seq).2 ∈ [None; Some ErrNotInteger].
Proof. unfold logRequest, logIncr. repeat case_match; cbn; set_solver. Qed.

(** ** The engine answers like the log of its writes *)

Definition start (e : Engine) (now : Z) : Sys := mkSys e [] [] [] now.
Definition emptyLog : LogSpec := mkLogSpec [] [] ∅.

Section runs.
Context (aesEncrypt : bytes -> bytes -> bytes).
Hypothesis aes_wf : forall k b, wf_bytes (aesEncrypt k b).
Context (opts : OpenOptions) (ow : OpenWorld).
Hypothesis reg_ok : registry_ok (oo_registry opts).
Hypothesis ivs_ok : (forall f, iv_ok (ow_ivs ow f)) /\ iv_ok (wd_ivWal (ow_world ow)).
Context (fileSize : Table -> Z) (copts : Options).

Lemma start_inv e now :
  OpenEngineWithOpts aesEncrypt opts ow emptyDisk = Some e -> 0 <= now ->
  sys_inv aesEncrypt (oo_registry opts) (start e now) emptyLog g0.
Proof.
  intros He Hnow. destruct (fresh_inv aesEncrypt aes_wf opts ow reg_ok ivs_ok e He) as (Hi & Hr & Ho).
  split; cbn [start s_e s_pending s_open s_gc s_now emptyLog sp_log sp_snaps sp_incr]; rewrite ?Ho; try done.
  - exists []. apply newOracle_inv.
  - by intros x ?%elem_of_nil.
  - by intros x ?%elem_of_nil.
  - constructor.
  - by intros u ?%elem_of_nil.
  - split; [cbn; lia|]. by intros ts ?%elem_of_nil.
  - by intros fid gcTs total ?%elem_of_nil.
  - by intros x ?%elem_of_nil.
Qed.

Lemma run_inv e now evs s :
  OpenEngineWithOpts aesEncrypt opts ow emptyDisk = Some e -> 0 <= now -> sys_run aesEncrypt fileSize copts (start e now) evs s ->
  exists sp g, log_run emptyLog evs sp /\ sys_inv aesEncrypt (oo_registry opts) s sp g.
Proof.
  intros He Hnow. induction 1 as [|evs s ev s' Hrun (sp & g & Hlog & Hi) Hst].
  - exists emptyLog, g0. split; [constructor|by apply start_inv].
  - destruct (sim_step aesEncrypt aes_wf (oo_registry opts) reg_ok fileSize copts s sp g ev s' Hi Hst) as (sp' & g' & H1 & H2).
    exists sp', g'. split; [by eapply log_cons|done].
Qed.


Lemma queue_emptied e g pd w e' :
  eng_inv aesEncrypt (oo_registry opts) e g [] pd -> flushTurn w e = Some (tt, e') -> e_immMemTable e' = None /\ e_flushChan e' = [].
Proof.
  intros Hi. pose proof (ei_queue _ _ _ _ _ _ Hi) as Hq. unfold queue_ok in Hq. unfold flushTurn, mbind, eng_bind, getE, putE, mret, eng_ret.
  destruct (e_flushChan e) as [|task rest] eqn:Ec.
  - intros [= <-]. by destruct (e_immMemTable e).
  - destruct (e_immMemTable e); [|done]. destruct rest; [|done]. unfold executeFlush, mbind, eng_bind, getE, putE.
    intros [= <-]. cbn. repeat case_match; done.
Qed.

Lemma answered_by_log s sp g ev s' :
  sys_inv aesEncrypt (oo_registry opts) s sp g -> sys_step aesEncrypt fileSize copts s ev s' -> exists sp', log_step sp ev sp'.
Proof.
  intros Hs Hst. destruct (sim_step aesEncrypt aes_wf (oo_registry opts) reg_ok fileSize copts s sp g ev s' Hs Hst) as (sp' & _ & H & _).
  by exists sp'.
Qed.


(** C35. The collector moves nothing.  [gcRewrite] is meant to copy a value that
    is still referenced out of the segment under collection; it tests whether
    the value it read is a pointer, but the read has already followed the
    pointer.  So in every reachable state a rewrite that has its turn answers
    without an error and leaves the memtable, the write-ahead log and the
    set of segments as they are: a segment with a live value is never freed
    by rewriting. *)
Theorem collector_moves_nothing e now evs s w r seq :
  OpenEngineWithOpts aesEncrypt opts ow emptyDisk = Some e -> 0 <= now -> sys_run aesEncrypt fileSize copts (start e now) evs s ->
  s_now s <= wd_now w -> (r, seq) ∈ s_pending s -> rq_op r = opGCRewrite -> rq_batch r = [] ->
  exists e', applyRequest aesEncrypt w r seq (s_e s) = Some (mkIncrResult 0 None, e') /\
    e_memTable e' = e_memTable (s_e s) /\ e_wal e' = e_wal (s_e s) /\
    vl_live (e_vl e') = vl_live (e_vl (s_e s)) /\ vl_active (e_vl e') = vl_active (e_vl (s_e s)).
Proof.
  intros He Hnow Hrun Hw (l1 & l2 & Hp)%list_elem_of_split Hop Hb. destruct (run_inv e now evs s He Hnow Hrun) as (sp & g & _ & Hs).
  destruct (pending_facts aesEncrypt aes_wf (oo_registry opts) reg_ok s sp g r seq l1 l2 Hs Hp) as (_ & _ & Hi & _). pose proof (sys_clock _ _ _ _ _ Hs) as Hc.
  pose proof (sy_time _ _ _ _ _ Hs) as Ht. destruct (sy_floor _ _ _ _ _ Hs) as [Hf _].
  assert (honest (g_log g)) as Hh by (rewrite (sy_log _ _ _ _ _ Hs); apply Hs).
  pose proof (gcRewrite_runs aesEncrypt (oo_registry opts) (s_e s) g _ 0 w r seq Hi (sy_room _ _ _ _ _ Hs) Hh
    ltac:(lia) ltac:(lia) ltac:(lia)) as H. unfold runs in H.
  unfold applyRequest. rewrite Hop, Hb. change (opGCRewrite =? opIncr) with false. change (opGCRewrite =? opClear) with false.
  change (opGCRewrite =? opFlush) with false. change (0 <? length (@nil BatchWriteEntry))%nat with false. change (opGCRewrite =? opGCRewrite) with true.
  cbv iota. unfold mbind, eng_bind. destruct (gcRewrite aesEncrypt w r seq (s_e s)) as [[res e1]|]; [|done].
  destruct H as (-> & _ & vl & -> & Hl & Ha). eexists. split; [reflexivity|done].
Qed.
End runs.

(** ** Counters *)

(** Increments of [key], and how much they add. *)
Definition incrOf (key : bytes) (ev : event) : list Z :=
  match ev with
  | EvApply _ r _ _ => if (rq_op r =? opIncr) && bytes_eqb (rq_key r) key then [rq_delta r] else []
  | _ => []
  end.
Definition increments (key : bytes) (evs : list event) : list Z := evs ≫= incrOf key.
Definition sumOf (l : list Z) : Z := foldr Z.add 0 l.

(** Nothing but increments touches [key]. *)
Definition counter_only (key : bytes) (ev : event) : Prop :=
  match ev with
  | EvApply _ r _ _ => rq_op r = opIncr \/ (rq_key r <> key /\ key ∉ bw_key <$> rq_batch r)
  | _ => True
  end.

Definition counterText (key : bytes) (evs : list event) : bytes := FormatInt (i64 (sumOf (increments key evs))).

(** The log of a counter: its newest entry holds the sum. *)
Definition counts (key : bytes) (evs : list event) (sp : LogSpec) : Prop :=
  match sp_incr sp !! key with
  | None => increments key evs = [] /\ forall u, u ∈ sp_log sp -> Key u <> key
  | Some m => increments key evs <> [] /\
      putEntry key (counterText key evs) 0 m ∈ sp_log sp /\
      forall u, u ∈ sp_log sp -> Key u = key -> Version u <= m /\ (Version u = m -> u = putEntry key (counterText key evs) 0 m)
  end.

Lemma counts_read key evs sp v now :
  counts key evs sp -> (forall m, sp_incr sp !! key = Some m -> m <= v) ->
  logRead now (sp_log sp) key v = match increments key evs with [] => None | _ => Some (counterText key evs, 0) end.
Proof.
  unfold counts, logRead. intros Hc Hv. destruct (sp_incr sp !! key) as [m|].
  - destruct Hc as (Hne & Hin & Hmax). specialize (Hv m eq_refl).
    destruct (snapshot_get (sp_log sp) key v) as [u|] eqn:E.
    + apply snapshot_get_Some in E as (Hu & Hk & Hle & Hbest). destruct (Hmax u Hu Hk) as [H1 H2].
      specialize (Hbest _ Hin eq_refl Hv). cbn in Hbest. rewrite H2 by lia. by destruct (increments key evs).
    + pose proof (proj1 (snapshot_get_None _ _ _) E _ Hin eq_refl) as Hlt. cbn in Hlt. lia.
  - destruct Hc as [-> Hno]. assert (snapshot_get (sp_log sp) key v = None) as ->; [|done].
    apply snapshot_get_None. intros u Hu Hk. exfalso. by apply (Hno u Hu).
Qed.

Lemma i64_add a b : i64 (i64 a + b) = i64 (a + b).
Proof.
  unfold i64. f_equal. replace ((a + 2 ^ 63) mod 2 ^ 64 - 2 ^ 63 + b + 2 ^ 63) with ((a + 2 ^ 63) mod 2 ^ 64 + b) by lia.
  rewrite Zplus_mod_idemp_l. f_equal. lia.
Qed.

(** What an increment writes on a counter. *)
Lemma counts_incr key evs sp now delta seq :
  counts key evs sp -> (forall m, sp_incr sp !! key = Some m -> m < seq) -> seq <= max_u64 ->
  logIncr now (sp_log sp) key delta seq =
    ([putEntry key (FormatInt (i64 (sumOf (delta :: increments key evs)))) 0 seq], mkIncrResult (i64 (sumOf (delta :: increments key evs))) None).
Proof.
  intros Hc Hm Hs. unfold logIncr, logTTL.
  rewrite (counts_read key evs sp seq now Hc) by (intros m E; specialize (Hm m E); lia).
  rewrite (counts_read key evs sp max_u64 now Hc) by (intros m E; specialize (Hm m E); lia).
  destruct (increments key evs) as [|d ds] eqn:E; cbn [calcRemaining Z.eqb Z.ltb Z.compare].
  - change (sumOf [delta]) with (delta + 0). by rewrite (Z.add_comm delta).
  - set (sum := sumOf (d :: ds)). unfold counterText. rewrite E. fold sum.
    pose proof (ParseInt_FormatInt (i64 sum) (i64_range sum)) as Hp. destruct (FormatInt (i64 sum)) as [|c text]; [done|]. rewrite Hp.
    change (sumOf (delta :: d :: ds)) with (delta + sum). by rewrite i64_add, (Z.add_comm delta).
Qed.

Lemma logRequest_keys now log r seq u :
  u ∈ (logRequest now log r seq).1 -> Key u = rq_key r \/ Key u ∈ bw_key <$> rq_batch r.
Proof.
  unfold logRequest, logIncr. repeat case_match; cbn [fst]; try (by intros ?%elem_of_nil); try (by intros ->%list_elem_of_singleton; left).
  intros (b & -> & Hin)%list_elem_of_fmap. right.
  assert (Key (batchEntry seq b) = bw_key b) as -> by (unfold batchEntry; by destruct (bw_deleted b)). by apply list_elem_of_fmap_2.
Qed.

(** An increment of the counter. *)
Lemma counts_hit key evs sp now r seq :
  counts key evs sp -> rq_op r = opIncr -> rq_key r = key -> incr_after sp r seq -> seq <= max_u64 ->
  let out := logRequest now (sp_log sp) r seq in
  counts key (EvApply now r seq out.2 :: evs) (mkLogSpec (rev out.1 ++ sp_log sp) (sp_snaps sp) (incr_mark (sp_incr sp) r seq)).
Proof.
  intros Hc Hop Hk Hafter Hb out. specialize (Hafter Hop). rewrite Hk in Hafter.
  assert (increments key (EvApply now r seq out.2 :: evs) = rq_delta r :: increments key evs) as Hcons.
  { unfold increments. rewrite bind_cons. cbn [incrOf]. by rewrite Hop, Hk, bytes_eqb_refl. }
  assert (incr_mark (sp_incr sp) r seq !! key = Some seq) as E2 by (unfold incr_mark; by rewrite Hop, Z.eqb_refl, Hk, lookup_insert_eq).
  assert (out = logIncr now (sp_log sp) key (rq_delta r) seq) as E3 by (unfold out, logRequest; by rewrite Hop, Hk).
  rewrite (counts_incr key evs sp) in E3; [|done|by intros m Hm; rewrite Hm in Hafter|done].
  unfold counts. cbn [sp_incr sp_log]. rewrite E2. unfold counterText. rewrite Hcons, E3. cbn [fst rev app]. split; [done|]. split; [left|].
  intros u [->|Hu]%elem_of_cons Hku; [done|]. unfold counts in Hc. destruct (sp_incr sp !! key) as [m|].
  - destruct Hc as (_ & _ & Hmax). destruct (Hmax u Hu Hku) as [Hle _]. cbn in Hafter. split; [lia|intros E; lia].
  - destruct Hc as [_ Hnone]. by destruct (Hnone u Hu).
Qed.

(** Any other request. *)
Lemma counts_miss key evs sp now r seq res log' snaps :
  counts key evs sp -> ~ (rq_op r = opIncr /\ rq_key r = key) -> (forall u, u ∈ log' -> Key u <> key) ->
  counts key (EvApply now r seq res :: evs) (mkLogSpec (log' ++ sp_log sp) snaps (incr_mark (sp_incr sp) r seq)).
Proof.
  intros Hc Hno Hother.
  assert (increments key (EvApply now r seq res :: evs) = increments key evs) as Hcons.
  { unfold increments. rewrite bind_cons. cbn [incrOf]. destruct (Z.eqb_spec (rq_op r) opIncr); [|done].
    destruct (bytes_eqb (rq_key r) key) eqn:E; [|done]. apply bytes_eqb_spec in E. tauto. }
  assert (incr_mark (sp_incr sp) r seq !! key = sp_incr sp !! key) as E2.
  { unfold incr_mark. destruct (Z.eqb_spec (rq_op r) opIncr); [|done]. rewrite lookup_insert_ne; [done|]. tauto. }
  unfold counts, counterText in *. cbn [sp_incr sp_log]. rewrite E2, Hcons. destruct (sp_incr sp !! key) as [m|].
  - destruct Hc as (H1 & H2 & H3). split; [done|]. split; [apply elem_of_app; by right|].
    intros u [Hu|Hu]%elem_of_app Hku; [by destruct (Hother u Hu)|by apply H3].
  - destruct Hc as (H1 & H2). split; [done|]. intros u [Hu|Hu]%elem_of_app; [by apply Hother|by apply H2].
Qed.

Lemma logIncr_key now log key delta seq u : u ∈ (logIncr now log key delta seq).1 -> Key u = key.
Proof. unfold logIncr. repeat case_match; cbn [fst]; try (by intros ?%elem_of_nil); by intros ->%list_elem_of_singleton. Qed.

Lemma counts_step key evs sp ev sp' :
  counts key evs sp -> log_step sp ev sp' -> counter_only key ev ->
  (forall m, sp_incr sp' !! key = Some m -> m <= max_u64) -> counts key (ev :: evs) sp'.
Proof.
  intros Hc Hst Honly Hb. destruct Hst as [sp now r seq out Hfresh Hafter| | | | | |]; try exact Hc.
  destruct (decide (rq_op r = opIncr /\ rq_key r = key)) as [[Hop Hk]|Hno].
  { apply counts_hit; try done. apply Hb. cbn [sp_incr]. unfold incr_mark. by rewrite Hop, Z.eqb_refl, Hk, lookup_insert_eq. }
  apply counts_miss; [done|done|]. intros u Hu Hku. rewrite <- Permutation_rev in Hu. destruct (decide (rq_op r = opIncr)) as [Hop|Hop].
  - unfold out, logRequest in Hu. rewrite Hop in Hu. change (opIncr =? opIncr) with true in Hu. cbv iota in Hu.
    apply logIncr_key in Hu. apply Hno. split; [done|congruence].
  - destruct Honly as [?|[H1 H2]]; [done|]. destruct (logRequest_keys _ _ _ _ _ Hu); congruence.
Qed.

Section counters.
Context (aesEncrypt : bytes -> bytes -> bytes).
Hypothesis aes_wf : forall k b, wf_bytes (aesEncrypt k b).
Context (opts : OpenOptions) (ow : OpenWorld).
Hypothesis reg_ok : registry_ok (oo_registry opts).
Hypothesis ivs_ok : (forall f, iv_ok (ow_ivs ow f)) /\ iv_ok (wd_ivWal (ow_world ow)).
Context (fileSize : Table -> Z) (copts : Options).

Lemma run_counts e now evs s key :
  OpenEngineWithOpts aesEncrypt opts ow emptyDisk = Some e -> 0 <= now -> sys_run aesEncrypt fileSize copts (start e now) evs s ->
  Forall (counter_only key) evs ->
  exists sp g, sys_inv aesEncrypt (oo_registry opts) s sp g /\ counts key evs sp.
Proof.
  intros He Hnow. induction 1 as [|evs s ev s' Hrun IH Hst]; intros Hall.
  - exists emptyLog, g0. split; [by apply (start_inv aesEncrypt aes_wf opts ow)|]. split; [done|]. by intros u ?%elem_of_nil.
  - apply Forall_cons in Hall as [Hev Hall]. destruct (IH Hall) as (sp & g & Hi & Hc).
    destruct (sim_step aesEncrypt aes_wf (oo_registry opts) reg_ok fileSize copts s sp g ev s' Hi Hst) as (sp' & g' & H1 & H2).
    exists sp', g'. split; [done|]. apply (counts_step key evs sp); try done. intros m Hm.
    pose proof (sy_marks _ _ _ _ _ H2 key m Hm). pose proof (sys_clock _ _ _ _ _ H2). lia.
Qed.

End counters.

(** ** A run *)

Module EngineWitness.

Definition cipher := WalWitness.cipher.
Definition cipher_wf := WalWitness.cipher_wf.
Definition oopts : OpenOptions := mkOpenOptions None 4 false 0 1000 0.
Definition copts : Options := mkOptions 1000 10 1.
Definition size (t : Table) : Z := 100.
Definition iv : bytes := replicate 16 1.
Definition world (now : Z) : World := mkWorld now 0 7 iv iv.
Definition oworld : OpenWorld := mkOpenWorld (world 5) (fun _ => iv) iv 0.

Definition exec {A} (m : eng A) (e : Engine) : Engine := match m e with Some (_, e') => e' | None => e end.
Definition opened (disk : Disk) (e : Engine) : Engine := default e (OpenEngineWithOpts cipher oopts oworld disk).

Definition nothing : Engine :=
  freshEngine oopts oworld (mkValueLog ∅ ∅ 0 None 0 0 ∅) (mkWAL None [] [] 0).
Definition e0 : Engine := opened emptyDisk nothing.

(** "k" is long enough for the value log, "n" is a counter. *)
Definition long : bytes := [104; 101; 108; 108; 111; 33].
Definition put1 : writeReq := putReq [107] long 0 false.
Definition put2 : writeReq := putReq [107] [50] 0 false.
Definition incr1 : writeReq := incrReq [110] 40.
Definition incr2 : writeReq := incrReq [110] 2.

Definition e1 := exec (assignSeq put1) e0.
Definition e2 := exec (assignSeq incr1) e1.
(* the increment is applied before the put that has the smaller version *)
Definition e3 := exec (applyRequest cipher (world 6) incr1 3) e2.
Definition e4 := exec (applyRequest cipher (world 6) put1 2) e3.
Definition e5 := set_oracle e4 (NewReadTs (e_oracle e4)).2.
Definition e6 := exec (assignSeq put2) e5.
Definition e7 := exec (applyRequest cipher (world 7) put2 4) e6.
Definition e8 := exec (assignSeq incr2) e7.
Definition e9 := exec (applyRequest cipher (world 7) incr2 5) e8.
Definition e10 := exec (task ← triggerFlushLocked (world 8); enqueueFlush task) e9.
Definition e11 := exec (flushTurn (world 8)) e10.
Definition e12 := exec (engineCompact size copts (world 9)) e11.
Definition e13 := exec (getByAt cipher 10 [107] 3) e12.
Definition e14 := exec (getByString cipher 10 [107]) e13.

Ltac req := split; [set_unfold; auto 10|split; [split; [repeat constructor; lia|done]..|unfold is_i64; cbn; lia|done]|split; constructor|done].

Lemma put1_ok : req_ok put1.
Proof. req. Qed.
Lemma put2_ok : req_ok put2.
Proof. req. Qed.
Lemma incr1_ok : req_ok incr1.
Proof. req. Qed.
Lemma incr2_ok : req_ok incr2.
Proof. req. Qed.

Lemma world_iv now : iv_ok (wd_ivVlog (world now)).
Proof. split; [repeat constructor; lia|done]. Qed.

Lemma clear12 : base_clear size copts (e_lsm e11).
Proof. apply between_empty_clear. vm_compute. reflexivity. Qed.

(** What happened, the latest first. *)
Definition events : list event :=
  [EvGet 10 [107] (Ok [50]); EvReadAt 10 [107] 3 (Ok long); EvInternal; EvInternal; EvInternal;
   EvApply 7 incr2 5 (mkIncrResult 42 None); EvInternal; EvApply 7 put2 4 (mkIncrResult 1 None); EvInternal; EvOpen 3;
   EvApply 6 put1 2 (mkIncrResult 1 None); EvApply 6 incr1 3 (mkIncrResult 40 None); EvInternal; EvInternal].

Ltac by_vm := vm_compute; reflexivity.

Definition s0 : Sys := mkSys e0 [] [] [] 5.
Definition s1 : Sys := mkSys e1 [(put1, 2)] [] [] 5.
Definition s2 : Sys := mkSys e2 [(incr1, 3); (put1, 2)] [] [] 5.
Definition s3 : Sys := mkSys e3 [(put1, 2)] [] [] 6.
Definition s4 : Sys := mkSys e4 [] [] [] 6.
Definition s5 : Sys := mkSys e5 [] [3] [] 6.
Definition s6 : Sys := mkSys e6 [(put2, 4)] [3] [] 6.
Definition s7 : Sys := mkSys e7 [] [3] [] 7.
Definition s8 : Sys := mkSys e8 [(incr2, 5)] [3] [] 7.
Definition s9 : Sys := mkSys e9 [] [3] [] 7.
Definition s10 : Sys := mkSys e10 [] [3] [] 7.
Definition s11 : Sys := mkSys e11 [] [3] [] 7.
Definition s12 : Sys := mkSys e12 [] [3] [] 9.
Definition s13 : Sys := mkSys e13 [] [3] [] 10.
Definition s14 : Sys := mkSys e14 [] [3] [] 10.

Lemma step1 : sys_step cipher size copts s0 (EvInternal) s1.
Proof.
  apply (step_assign _ _ _ s0 put1 2 e1); [apply put1_ok|done|by intros ?|by_vm|by_vm|by_vm].
Qed.
Lemma step2 : sys_step cipher size copts s1 (EvInternal) s2.
Proof.
  apply (step_assign _ _ _ s1 incr1 3 e2); [apply incr1_ok|done| |by_vm|by_vm|by_vm].
  by intros _ x [->|?%elem_of_nil]%elem_of_cons.
Qed.
Lemma step3 : sys_step cipher size copts s2 (EvApply 6 incr1 3 (mkIncrResult 40 None)) s3.
Proof.
  apply (step_apply _ _ _ s2 (world 6) incr1 3 [] [(put1, 2)] _ e3); [done|done|apply world_iv|apply roomb_spec; by_vm|by_vm].
Qed.
Lemma step4 : sys_step cipher size copts s3 (EvApply 6 put1 2 (mkIncrResult 1 None)) s4.
Proof.
  apply (step_apply _ _ _ s3 (world 6) put1 2 [] [] _ e4); [done|done|apply world_iv|apply roomb_spec; by_vm|by_vm].
Qed.
Lemma step5 : sys_step cipher size copts s4 (EvOpen 3) s5.
Proof.
  apply (step_open _ _ _ s4 3 (NewReadTs (e_oracle e4)).2). by_vm.
Qed.
Lemma step6 : sys_step cipher size copts s5 (EvInternal) s6.
Proof.
  apply (step_assign _ _ _ s5 put2 4 e6); [apply put2_ok|done|by intros ?|by_vm|by_vm|by_vm].
Qed.
Lemma step7 : sys_step cipher size copts s6 (EvApply 7 put2 4 (mkIncrResult 1 None)) s7.
Proof.
  apply (step_apply _ _ _ s6 (world 7) put2 4 [] [] _ e7); [done|done|apply world_iv|apply roomb_spec; by_vm|by_vm].
Qed.
Lemma step8 : sys_step cipher size copts s7 (EvInternal) s8.
Proof.
  apply (step_assign _ _ _ s7 incr2 5 e8); [apply incr2_ok|done|by intros _ x ?%elem_of_nil|by_vm|by_vm|by_vm].
Qed.
Lemma step9 : sys_step cipher size copts s8 (EvApply 7 incr2 5 (mkIncrResult 42 None)) s9.
Proof.
  apply (step_apply _ _ _ s8 (world 7) incr2 5 [] [] _ e9); [done|done|apply world_iv|apply roomb_spec; by_vm|by_vm].
Qed.
Lemma step10 : sys_step cipher size copts s9 (EvInternal) s10.
Proof.
  apply (step_rotate _ _ _ s9 (world 8) e10); [done|by_vm|apply world_iv|apply roomb_spec; by_vm|by_vm|by_vm].
Qed.
Lemma step11 : sys_step cipher size copts s10 (EvInternal) s11.
Proof.
  apply (step_flush _ _ _ s10 (world 8) e11); by_vm.
Qed.
Lemma step12 : sys_step cipher size copts s11 (EvInternal) s12.
Proof.
  apply (step_compact _ _ _ s11 (world 9) e12); [done|apply clear12|by_vm|by_vm].
Qed.
Lemma step13 : sys_step cipher size copts s12 (EvReadAt 10 [107] 3 (Ok long)) s13.
Proof.
  apply (step_readAt _ _ _ s12 10 [107] 3 _ e13); [left|done|by_vm].
Qed.
Lemma step14 : sys_step cipher size copts s13 (EvGet 10 [107] (Ok [50])) s14.
Proof.
  apply (step_get _ _ _ s13 10 [107] _ e14); [done|by_vm].
Qed.

Lemma run_events : sys_run cipher size copts (start e0 5) events s14.
Proof.
  exact (run_cons _ _ _ _ _ _ _ _ (run_cons _ _ _ _ _ _ _ _ (run_cons _ _ _ _ _ _ _ _ (run_cons _ _ _ _ _ _ _ _ (run_cons _ _ _ _ _ _ _ _ (run_cons _ _ _ _ _ _ _ _ (run_cons _ _ _ _ _ _ _ _ (run_cons _ _ _ _ _ _ _ _ (run_cons _ _ _ _ _ _ _ _ (run_cons _ _ _ _ _ _ _ _ (run_cons _ _ _ _ _ _ _ _ (run_cons _ _ _ _ _ _ _ _ (run_cons _ _ _ _ _ _ _ _ (run_cons _ _ _ _ _ _ _ _ (run_nil _ _ _ _) step1) step2) step3) step4) step5) step6) step7) step8) step9) step10) step11) step12) step13) step14).
Qed.

Lemma e0_opened : OpenEngineWithOpts cipher oopts oworld emptyDisk = Some e0.
Proof. by_vm. Qed.

Lemma ivs_fine : (forall f, iv_ok (ow_ivs oworld f)) /\ iv_ok (wd_ivWal (ow_world oworld)).
Proof. split; [intros f|]; split; try done; repeat constructor; lia. Qed.
End EngineWitness.




(** A rewrite of "k" waits in a new state. *)
Lemma collector_moves_nothing_witness :
  let r := rewriteReq 1 (mkValueEntry OpPut [107] EngineWitness.long 0, 26) in
  exists e', applyRequest EngineWitness.cipher (EngineWitness.world 11) r 6 (EngineWitness.exec (assignSeq r) EngineWitness.e14) =
    Some (mkIncrResult 0 None, e') /\
    e_memTable e' = e_memTable (EngineWitness.exec (assignSeq r) EngineWitness.e14).
Proof.
  intros r. set (s := mkSys (EngineWitness.exec (assignSeq r) EngineWitness.e14) [(r, 6)] [3] [] 10).
  assert (sys_step EngineWitness.cipher EngineWitness.size EngineWitness.copts EngineWitness.s14 EvInternal s) as Hst.
  { apply (step_assign _ _ _ EngineWitness.s14 r 6); [EngineWitness.req|reflexivity|by intros _ x ?%elem_of_nil|vm_compute; reflexivity..]. }
  assert (s_now s <= 11) as Hnow by (unfold s; cbn [s_now]; lia).
  destruct (collector_moves_nothing EngineWitness.cipher EngineWitness.cipher_wf EngineWitness.oopts EngineWitness.oworld I EngineWitness.ivs_fine
    EngineWitness.size EngineWitness.copts EngineWitness.e0 5 (EvInternal :: EngineWitness.events) s (EngineWitness.world 11) r 6
    EngineWitness.e0_opened ltac:(lia) (run_cons _ _ _ _ _ _ _ _ EngineWitness.run_events Hst) Hnow) as (e' & H1 & H2 & _); [left|reflexivity|reflexivity|].
  exists e'. exact (conj H1 H2).
Defined.

(** A memtable with a key of 65536 bytes waits for the flush. *)
Module LongKey.
Import EngineWitness.
Definition key : bytes := replicate (Z.to_nat 65536) 97.
Definition mem : SkipList := default (NewSkipList 7) (PutVersion (NewSkipList 7) key [49] 0 2).
Definition waiting : Engine := set_flushChan (set_mem e0 (e_memTable e0) (Some mem)) [mkFlushTask 1 mem 0].
End LongKey.

(** ** What the guards leave out *)

(** C34. A flush that fails hides what it was to store.  When the table cannot be
    created (the key of a block is longer than 65535 bytes), [executeFlush]
    releases the memtable all the same: the levels, the active memtable and
    the rotated log stay as they are, and a key that neither the active
    memtable nor a table holds is not found any more. *)
Theorem failed_flush_hides w e task rest :
  e_flushChan e = task :: rest -> AllVersions (ft_memTable task) <> [] -> creatable (AllVersions (ft_memTable task)) = false ->
  exists e', flushTurn w e = Some (tt, e') /\ e_flushChan e' = rest /\ e_immMemTable e' = None /\
    e_lsm e' = e_lsm e /\ e_memTable e' = e_memTable e /\ e_walFlush e' = e_walFlush e /\
    forall now key v, SkipList_GetByVersion now (e_memTable e) key v = NotFound -> readLevels (levels (e_lsm e)) key v = None ->
      lookupAt now e' key v = NotFound.
Proof.
  intros Hq Hne Hc. unfold flushTurn, executeFlush, mbind, eng_bind, getE, putE. rewrite Hq.
  destruct (AllVersions (ft_memTable task)) as [|x xs] eqn:E; [done|]. rewrite Hc. cbn [negb].
  eexists. split; [reflexivity|]. do 5 (split; [done|]). intros now key v Hm Hl. unfold lookupAt.
  cbn -[readLevels SkipList_GetByVersion]. by rewrite Hm, Hl.
Qed.


Lemma failed_flush_hides_witness :
  lookupAt 7 LongKey.waiting LongKey.key 9 = Found [49] 0 /\
  exists e', flushTurn (EngineWitness.world 6) LongKey.waiting = Some (tt, e') /\ lookupAt 7 e' LongKey.key 9 = NotFound.
Proof.
  assert (length (AllVersions LongKey.mem) = 1%nat) as Hn by (vm_compute; reflexivity).
  assert (creatable (AllVersions LongKey.mem) = false) as Hc by (vm_compute; reflexivity).
  split; [vm_compute; reflexivity|].
  destruct (failed_flush_hides (EngineWitness.world 6) LongKey.waiting (mkFlushTask 1 LongKey.mem 0) []) as (e' & He & _ & _ & _ & _ & _ & Hh);
    [reflexivity|intros E; cbn [ft_memTable] in E; rewrite E in Hn; discriminate Hn|exact Hc|].
  exists e'. split; [exact He|]. apply Hh; vm_compute; reflexivity.
Defined.

Module Races.
Import EngineWitness.

Definition older : writeReq := putReq [107] [49] 0 false.
Definition newer : writeReq := putReq [107] [50] 0 false.

(** Both writers have a version; the second is applied, the memtable rotates,
    then the first is applied. *)
Definition raced : Engine :=
  exec (applyRequest cipher (world 6) older 2)
  (exec (task ← triggerFlushLocked (world 6); enqueueFlush task)
  (exec (applyRequest cipher (world 6) newer 3)
  (exec (assignSeq newer) (exec (assignSeq older) e0)))).

(** One key, rotated away; everything is cleared, and another key written. *)
Definition cleared : Engine :=
  exec (dispatch cipher (world 6) (putReq [120] [49] 0 false))
  (exec (dispatch cipher (world 6) (mkReq opClear [] [] 0 0 0 noVp [] false false))
  (exec (task ← triggerFlushLocked (world 6); enqueueFlush task)
  (exec (dispatch cipher (world 6) newer) e0))).

(** A transaction commits, the full memtable is rotated and flushed. *)
Definition committed : Engine :=
  let o := (NewReadTs (e_oracle e0)).2 in
  let o := (checkAndCommitInternal o 1 ∅ {[107]}).2 in
  exec (flushTurn (world 6))
  (exec (writerRound cipher (mkOptions 1 10 4) (world 6) [batchReq [mkBatch [107] [50] false 0] 2]) (set_oracle e0 o)).

Definition reopened : Engine := opened (Engine_Close [] committed) nothing.

Definition answer (m : eng (result bytes)) (e : Engine) : option (result bytes) := fst <$> m e.
End Races.

(** A rotation between version and write serves old data.  Two writers of
    one key have versions 2 and 3; the second is applied, the memtable is
    rotated, and the first is applied to the new memtable.  Both a plain read
    and a read at snapshot 3 return the value of version 2, although version
    3 is applied; the log would answer with version 3. *)
Theorem rotation_race :
  Races.answer (getByString EngineWitness.cipher 7 [107]) Races.raced = Some (Ok [49]) /\
  Races.answer (getByAt EngineWitness.cipher 7 [107] 3) Races.raced = Some (Ok [49]) /\
  answerOf (logRead 7 [putEntry [107] [49] 0 2; putEntry [107] [50] 0 3] [107] 3) = Ok [50].
Proof. vm_compute. auto. Qed.

(** A queued flush brings cleared data back.  [clearInternal] empties the
    memtables and the levels but not the flush queue: after it the key is
    gone, and when the flush worker takes the queued memtable the key is back
    with its old value. *)
Theorem clear_resurrects :
  Races.answer (getByString EngineWitness.cipher 7 [107]) Races.cleared = Some (Fail ErrKeyNotFound) /\
  Races.answer (getByString EngineWitness.cipher 7 [107]) (EngineWitness.exec (flushTurn (EngineWitness.world 7)) Races.cleared) = Some (Ok [50]).
Proof. vm_compute. auto. Qed.

(** Committed data is invisible after a restart.  The version of a
    transaction does not raise the file counter, and opening takes the clock
    from file numbers and the log only.  A transaction commits at version 2,
    its memtable is flushed to table 1, the engine is closed and opened: the
    table is there, but the clock stands at 1, and a plain read no longer
    finds the key, nor does a snapshot opened now. *)
Theorem restart_hides_commit :
  Races.answer (getByString EngineWitness.cipher 7 [107]) Races.committed = Some (Ok [50]) /\
  allEntries (levels (e_lsm Races.reopened)) = [mkEntry [107] [0; 50] false 0 2] /\
  Races.answer (getByString EngineWitness.cipher 7 [107]) Races.reopened = Some (Fail ErrKeyNotFound) /\
  (NewReadTs (e_oracle Races.reopened)).1 = 1 /\
  Races.answer (getByAt EngineWitness.cipher 7 [107] 1) Races.reopened = Some (Fail ErrKeyNotFound).
Proof. vm_compute. auto. Qed.
