(* ===== verification/Glob.v ===== *)
(** * Key patterns

    The iterative matcher behind KEYS and SCAN ([globMatch] and
    [matchCharClass] of engine_read.go), with its indices and its single
    remembered star, and the declarative relation it decides. *)
From stdpp Require Import base list numbers option.
From Stdlib Require Import ZArith Lia Bool.
From S2P Require Import Prelude.
Open Scope Z_scope.

Definition chStar : Z := 42.
Definition chQuestion : Z := 63.
Definition chOpen : Z := 91.
Definition chEscape : Z := 92.
Definition chClose : Z := 93.
Definition chCaret : Z := 94.
Definition chDash : Z := 45.

(** Byte [i] of a string; an index out of range never equals a character. *)
Definition at_is (s : bytes) (i : nat) (c : Z) : bool :=
  match s !! i with Some x => x =? c | None => false end.

Definition byteAt (s : bytes) (i : nat) : Z := default 0 (s !! i).

(** ** The code *)

(** The loop over a class body from [j]; it stops at [']'] or at the end. *)
Fixpoint classLoop (fuel : nat) (pattern : bytes) (ch : Z) (j : nat) (matched : bool) : nat * bool :=
  match fuel with
  | O => (j, matched)
  | S fuel =>
      if (j <? length pattern)%nat && negb (at_is pattern j chClose) then
        if (j + 2 <? length pattern)%nat && at_is pattern (j + 1) chDash && negb (at_is pattern (j + 2) chClose) then
          classLoop fuel pattern ch (j + 3)
            (matched || ((byteAt pattern j <=? ch) && (ch <=? byteAt pattern (j + 2))))
        else classLoop fuel pattern ch (j + 1) (matched || (byteAt pattern j =? ch))
      else (j, matched)
  end.

Definition matchCharClass (pattern : bytes) (start : nat) (ch : Z) : nat * bool :=
  let negate := at_is pattern (start + 1) chCaret in
  let j := if negate then (start + 2)%nat else (start + 1)%nat in
  let '(j, matched) := classLoop (length pattern) pattern ch j false in
  if (length pattern <=? j)%nat then ((start + 1)%nat, ch =? chOpen) else ((j + 1)%nat, xorb matched negate).

(** Where the pattern stands after matching its element at [p] against [ch];
    [None] when the element is a star, is missing or does not match. *)
Definition stepElem (pattern : bytes) (p : nat) (ch : Z) : option nat :=
  c ← pattern !! p;
  if c =? chStar then None
  else if c =? chQuestion then Some (p + 1)%nat
  else if c =? chOpen then
    let '(next, ok) := matchCharClass pattern p ch in if (ok : bool) then Some next else None
  else if c =? chEscape then if at_is pattern (p + 1) ch then Some (p + 2)%nat else None
  else if c =? ch then Some (p + 1)%nat else None.

(** The closing loop over trailing stars. *)
Fixpoint skipStars (fuel : nat) (pattern : bytes) (p : nat) : nat :=
  match fuel with
  | O => p
  | S fuel => if at_is pattern p chStar then skipStars fuel pattern (p + 1) else p
  end.

(** The main loop.  [star] is [starP] with [starS]; [None] is fuel running
    out. *)
Fixpoint globLoop (fuel : nat) (pattern s : bytes) (p si : nat) (star : option (nat * nat)) : option bool :=
  match fuel with
  | O => None
  | S fuel =>
      match s !! si with
      | None => Some (skipStars (length pattern) pattern p =? length pattern)%nat
      | Some ch =>
          if at_is pattern p chStar then globLoop fuel pattern s (p + 1) si (Some (p, si))
          else
            match stepElem pattern p ch with
            | Some next => globLoop fuel pattern s next (si + 1) star
            | None =>
                match star with
                | Some (starP, starS) =>
                    globLoop fuel pattern s (starP + 1) (starS + 1) (Some (starP, (starS + 1)%nat))
                | None => Some false
                end
            end
      end
  end.

Definition globMatch (pattern s : bytes) : option bool :=
  globLoop (S ((length s + 1) * (length pattern + 2))) pattern s 0 0 None.

(** ** What a pattern means *)

(** Membership in a class body: single bytes and [a-b] ranges. *)
Fixpoint class_has (body : bytes) (ch : Z) : bool :=
  match body with
  | [] => false
  | a :: t =>
      match t with
      | d :: b :: r =>
          if d =? chDash then ((a <=? ch) && (ch <=? b)) || class_has r ch else (a =? ch) || class_has t ch
      | _ => (a =? ch) || class_has t ch
      end
  end.

Definition special (c : Z) : Prop := c = chStar \/ c = chQuestion \/ c = chOpen \/ c = chEscape.

Inductive glob_matches : bytes -> bytes -> Prop :=
  | gm_nil : glob_matches [] []
  | gm_star p s t : glob_matches p t -> glob_matches (chStar :: p) (s ++ t)
  | gm_any p c s : glob_matches p s -> glob_matches (chQuestion :: p) (c :: s)
  | gm_class body p c s :
      chClose ∉ body -> head body <> Some chCaret -> class_has body c = true ->
      glob_matches p s -> glob_matches (chOpen :: body ++ chClose :: p) (c :: s)
  | gm_negated body p c s :
      chClose ∉ body -> class_has body c = false ->
      glob_matches p s -> glob_matches (chOpen :: chCaret :: body ++ chClose :: p) (c :: s)
  | gm_open p s : chClose ∉ p -> glob_matches p s -> glob_matches (chOpen :: p) (chOpen :: s)
  | gm_escape p c s : glob_matches p s -> glob_matches (chEscape :: c :: p) (c :: s)
  | gm_literal p c s : ~ special c -> glob_matches p s -> glob_matches (c :: p) (c :: s).

Example glob_samples :
  globMatch [42; 98; 63] [97; 98; 97; 98; 99] = Some true /\
  globMatch [91; 97; 45; 99; 93; 42] [98; 120] = Some true /\
  globMatch [91; 94; 97; 93] [97] = Some false /\
  globMatch [92; 42] [42] = Some true.
Proof. repeat split; vm_compute; reflexivity. Qed.

(** ** Reading a pattern from a position *)

(** The body up to the first [']'] and what follows it. *)
Fixpoint splitClose (p : bytes) : option (bytes * bytes) :=
  match p with
  | [] => None
  | c :: p =>
      if c =? chClose then Some ([], p) else '(body, rest) ← splitClose p; Some (c :: body, rest)
  end.

(** The element a pattern starts with, as the set of bytes it accepts, and the
    rest of the pattern. *)
Definition classElem (negate : bool) (r body_on : bytes) : (Z -> bool) * bytes :=
  match splitClose body_on with
  | Some (body, rest) => (fun ch => xorb (class_has body ch) negate, rest)
  | None => (fun ch => ch =? chOpen, r)
  end.

Definition elemOf (p : bytes) : option ((Z -> bool) * bytes) :=
  match p with
  | [] => None
  | c :: r =>
      if c =? chStar then None
      else if c =? chQuestion then Some (fun _ => true, r)
      else if c =? chOpen then Some (if at_is r 0 chCaret then classElem true r (tail r) else classElem false r r)
      else if c =? chEscape then
        Some match r with [] => (fun _ => false, []) | e :: r' => (fun ch => e =? ch, r') end
      else Some (fun ch => c =? ch, r)
  end.

Lemma splitClose_app body rest : chClose ∉ body -> splitClose (body ++ chClose :: rest) = Some (body, rest).
Proof.
  induction body as [|c body IH]; intros Hn; cbn [splitClose app]; [done|].
  rewrite not_elem_of_cons in Hn. destruct (Z.eqb_spec c chClose) as [->|]; [tauto|]. by rewrite IH by tauto.
Qed.

Lemma splitClose_sound p body rest : splitClose p = Some (body, rest) -> p = body ++ chClose :: rest /\ chClose ∉ body.
Proof.
  revert body. induction p as [|c p IH]; intros body; cbn [splitClose]; [done|].
  destruct (Z.eqb_spec c chClose) as [->|Hc]; [intros [= <- <-]; split; [done|apply not_elem_of_nil]|].
  destruct (splitClose p) as [[b r]|] eqn:Es; cbn; [|done]. intros [= <- <-].
  destruct (IH b eq_refl) as [-> Hn]. rewrite not_elem_of_cons. done.
Qed.

Lemma splitClose_None p : splitClose p = None <-> chClose ∉ p.
Proof.
  induction p as [|c p IH]; cbn [splitClose]; [split; [intros _; apply not_elem_of_nil|done]|].
  rewrite not_elem_of_cons. destruct (Z.eqb_spec c chClose) as [->|Hc]; [split; [done|tauto]|].
  destruct (splitClose p) as [[b r]|]; cbn; split; try done; [intros [_ H]; apply IH in H; done|]. intros _. split; [congruence|tauto].
Qed.

(** An element of a pattern consumes exactly one byte it accepts. *)
Lemma glob_class p f r s (negate := at_is p 0 chCaret) :
  classElem negate p (if negate then tail p else p) = (f, r) ->
  glob_matches (chOpen :: p) s <-> exists c s', s = c :: s' /\ f c = true /\ glob_matches r s'.
Proof.
  unfold classElem. intros E. split.
  - intros H. inversion H as [| | |body p' c s' Hn Hh Hc Hr|body p' c s' Hn Hc Hr|p' s' Hn Hr| |p' c s' Hs Hr]; subst.
    + assert (negate = false) as Hneg.
      { subst negate. unfold at_is. destruct body as [|b body]; [done|]. cbn. apply Z.eqb_neq. intros ->. done. }
      rewrite Hneg, splitClose_app in E by done. injection E as <- <-. exists c, s'. by rewrite Hc.
    + subst negate. cbn in E. rewrite splitClose_app in E by done. injection E as <- <-. exists c, s'. by rewrite Hc.
    + assert (splitClose (if negate then tail p else p) = None) as Hs.
      { apply splitClose_None. destruct negate; [|done]. destruct p; [done|]. rewrite not_elem_of_cons in Hn. tauto. }
      rewrite Hs in E. injection E as <- <-. eauto.
    + destruct Hs. unfold special. auto.
  - intros (c & s' & -> & Hf & Hr). destruct (splitClose _) as [[body rest]|] eqn:Es; simplify_eq.
    + apply splitClose_sound in Es as [Ep Hn]. destruct negate eqn:Eneg; subst negate.
      * unfold at_is in Eneg. destruct p as [|x p]; [done|]. cbn in Eneg, Ep. apply Z.eqb_eq in Eneg as ->. subst p.
        apply gm_negated; [done| |done]. by destruct (class_has body c).
      * subst p. apply gm_class; [done| |by destruct (class_has body c)|done].
        intros Hh. destruct body; simplify_eq/=.
    + apply Z.eqb_eq in Hf as ->. apply gm_open; [|done]. apply splitClose_None in Es.
      destruct negate eqn:Eneg; subst negate; [|done]. destruct r as [|x r]; [done|]. unfold at_is in Eneg. cbn in Eneg.
      apply Z.eqb_eq in Eneg as ->. rewrite not_elem_of_cons. done.
Qed.

Lemma glob_elem p f r s : elemOf p = Some (f, r) ->
  glob_matches p s <-> exists c s', s = c :: s' /\ f c = true /\ glob_matches r s'.
Proof.
  destruct p as [|c p]; cbn [elemOf]; [done|].
  destruct (Z.eqb_spec c chStar) as [->|H1]; [done|].
  destruct (Z.eqb_spec c chQuestion) as [->|H2].
  { intros [= <- <-]. split; [|intros (x & s' & -> & _ & H); by constructor].
    intros H; inversion H as [| | | | | | |? ? ? Hs]; subst; [eauto|]. destruct Hs. unfold special. auto. }
  destruct (Z.eqb_spec c chOpen) as [->|H3].
  { intros [= E]. apply glob_class. rewrite <- E. by destruct (at_is p 0 chCaret). }
  destruct (Z.eqb_spec c chEscape) as [->|H4].
  { intros [= E]. split.
    - intros H; inversion H as [| | | | | | |? ? ? Hs]; subst; simplify_eq/=.
      + eexists _, _. rewrite Z.eqb_refl. done.
      + destruct Hs. unfold special. auto.
    - intros (x & s' & -> & Ef & H). destruct p as [|e p]; simplify_eq/=. apply Z.eqb_eq in Ef as ->. by constructor. }
  intros [= <- <-]. split.
  - intros H. inversion H; subst; try done. eexists _, _. rewrite Z.eqb_refl. done.
  - intros (x & s' & -> & E & H). apply Z.eqb_eq in E as <-. constructor; [|done]. unfold special. tauto.
Qed.

Lemma glob_star p s : glob_matches (chStar :: p) s <-> exists a t, s = a ++ t /\ glob_matches p t.
Proof.
  split; [|intros (a & t & -> & H); by constructor].
  intros H. inversion H as [|? a t| | | | | |? ? ? Hs]; subst; [eauto|]. destruct Hs. unfold special. auto.
Qed.

(** ** Positions *)

Lemma at_is_drop s i j c : at_is s (i + j) c = at_is (drop i s) j c.
Proof. unfold at_is. by rewrite lookup_drop. Qed.

Lemma at_is_drop0 s i c : at_is s i c = at_is (drop i s) 0 c.
Proof. rewrite <- at_is_drop. by rewrite Nat.add_0_r. Qed.

Lemma byteAt_drop s i j : byteAt s (i + j) = byteAt (drop i s) j.
Proof. unfold byteAt. by rewrite lookup_drop. Qed.

Lemma classLoop_spec fuel pattern ch j m : (length pattern - j <= fuel)%nat ->
  match splitClose (drop j pattern) with
  | Some (body, _) => classLoop fuel pattern ch j m = ((j + length body)%nat, m || class_has body ch)
  | None => (length pattern <= (classLoop fuel pattern ch j m).1)%nat
  end.
Proof.
  revert j m. induction fuel as [|fuel IH]; intros j m Hf.
  { rewrite drop_ge by lia. cbn. lia. }
  cbn [classLoop]. destruct (drop j pattern) as [|a t] eqn:Ed.
  { apply (f_equal length) in Ed. rewrite length_drop in Ed. change (length (@nil Z)) with 0%nat in Ed.
    rewrite (proj2 (Nat.ltb_ge j (length pattern))) by lia. cbn [andb splitClose fst]. lia. }
  pose proof (f_equal length Ed) as Hl. rewrite length_drop in Hl. cbn in Hl.
  replace (j <? length pattern)%nat with true by (symmetry; apply Nat.ltb_lt; lia).
  rewrite (at_is_drop0 pattern j), (at_is_drop pattern j 1), (at_is_drop pattern j 2), (byteAt_drop pattern j 2).
  replace (byteAt pattern j) with (byteAt (drop j pattern) 0) by (rewrite <- byteAt_drop; f_equal; lia).
  rewrite Ed. change (at_is (a :: t) 0 chClose) with (a =? chClose). change (byteAt (a :: t) 0) with a.
  change (at_is (a :: t) 1 chDash) with (at_is t 0 chDash). change (at_is (a :: t) 2 chClose) with (at_is t 1 chClose).
  change (byteAt (a :: t) 2) with (byteAt t 1). cbn [splitClose].
  destruct (Z.eqb_spec a chClose) as [->|Ha]; cbn [negb andb].
  { cbn. by rewrite Nat.add_0_r, orb_false_r. }
  assert (drop (j + 1) pattern = t) as Ed1 by (rewrite <- drop_drop, Ed; done).
  destruct (_ && _ && _) eqn:Er.
  - bool_prop. destruct t as [|d [|b r]]; [done|cbn in Hl; lia|]. unfold at_is in *. cbn [lookup list_lookup] in *. bool_prop. subst d.
    assert (drop (j + 3) pattern = r) as Ed3 by (rewrite <- drop_drop, Ed; done).
    specialize (IH (j + 3)%nat (m || ((a <=? ch) && (ch <=? b))) ltac:(lia)). rewrite Ed3 in IH.
    cbn [splitClose]. change (chDash =? chClose) with false. rewrite (proj2 (Z.eqb_neq b chClose)) by done.
    change (byteAt [chDash; b] 1) with b. change (byteAt (chDash :: b :: r) 1) with b.
    destruct (splitClose r) as [[body rest]|]; cbn -[classLoop] in *; [|done].
    rewrite IH. f_equal; [lia|]. by rewrite orb_assoc.
  - specialize (IH (j + 1)%nat (m || (a =? ch)) ltac:(lia)). rewrite Ed1 in IH.
    destruct (splitClose t) as [[body rest]|] eqn:Es; cbn -[class_has classLoop] in *; [|done].
    rewrite IH. f_equal; [lia|]. rewrite <- orb_assoc. f_equal.
    apply splitClose_sound in Es as [-> Hn]. cbn. destruct body as [|d [|b body]]; try done.
    destruct (Z.eqb_spec d chDash) as [->|]; [|done]. rewrite !not_elem_of_cons in Hn.
    unfold at_is in Er. cbn -[Nat.ltb Nat.add] in Er. rewrite (proj2 (Z.eqb_neq b chClose)) in Er by (intros ->; tauto).
    rewrite andb_true_r in Er. apply andb_false_iff in Er as [Er|Er]; [|done].
    apply Nat.ltb_ge in Er. cbn in Hl. lia.
Qed.

Lemma class_step pattern p ch t f r (negate := at_is t 0 chCaret) : drop (p + 1) pattern = t -> (p < length pattern)%nat ->
  classElem negate t (if negate then tail t else t) = (f, r) ->
  exists next, matchCharClass pattern p ch = (next, f ch) /\ drop next pattern = r /\ (p < next <= length pattern)%nat.
Proof.
  intros Ed Hp E. unfold matchCharClass.
  replace (at_is pattern (p + 1) chCaret) with negate by (subst negate; by rewrite (at_is_drop0 pattern), Ed).
  set (j := if negate then (p + 2)%nat else (p + 1)%nat). set (b := if negate then tail t else t) in E.
  assert (drop j pattern = b) as Ej.
  { subst j b. destruct negate; [|done]. replace (p + 2)%nat with (p + 1 + 1)%nat by lia. rewrite <- drop_drop, Ed. by destruct t. }
  pose proof (classLoop_spec (length pattern) pattern ch j false ltac:(lia)) as H. rewrite Ej in H. unfold classElem in E.
  destruct (classLoop _ _ _ _ _) as [j' m]. destruct (splitClose b) as [[body rest]|] eqn:Es.
  - injection H as -> ->. injection E as <- <-. apply splitClose_sound in Es as [Eb _].
    assert (drop (j + length body) pattern = chClose :: rest) as Ec by (rewrite <- drop_drop, Ej, Eb; by rewrite drop_app_length).
    pose proof (f_equal length Ec) as Hl. rewrite length_drop in Hl. cbn in Hl.
    rewrite (proj2 (Nat.leb_gt _ _)) by lia. exists (j + length body + 1)%nat.
    split; [done|]. split; [by rewrite <- drop_drop, Ec|]. subst j. destruct negate; lia.
  - cbn in H. rewrite (proj2 (Nat.leb_le _ _)) by lia. injection E as <- <-. exists (p + 1)%nat. repeat split; [done|lia|lia].
Qed.

(** The element at a position is the element its suffix starts with. *)
Lemma stepElem_spec pattern p ch f r : elemOf (drop p pattern) = Some (f, r) ->
  if f ch then exists next, stepElem pattern p ch = Some next /\ drop next pattern = r /\ (p < next <= length pattern)%nat
  else stepElem pattern p ch = None.
Proof.
  intros E. unfold stepElem. destruct (drop p pattern) as [|c t] eqn:Ed; [done|].
  assert (pattern !! p = Some c) as Hc by (rewrite <- (Nat.add_0_r p), <- lookup_drop, Ed; done).
  pose proof (lookup_lt_Some _ _ _ Hc) as Hlt. rewrite Hc. cbn [mbind option_bind].
  assert (drop (p + 1) pattern = t) as Ed1 by (rewrite <- drop_drop, Ed; done). cbn [elemOf] in E.
  destruct (c =? chStar); [done|]. destruct (c =? chQuestion).
  { injection E as <- <-. exists (p + 1)%nat. repeat split; [done|lia|lia]. }
  destruct (c =? chOpen).
  { injection E as E. destruct (class_step pattern p ch t f r Ed1 Hlt) as (next & -> & Hd & Hn).
    { rewrite <- E. by destruct (at_is t 0 chCaret). }
    destruct (f ch); [|done]. eauto. }
  destruct (c =? chEscape).
  { rewrite at_is_drop, Ed. destruct t as [|e t]; simplify_eq/=; [done|].
    unfold at_is. cbn. destruct (e =? ch); [|done]. exists (p + 2)%nat. rewrite <- drop_drop, Ed. cbn.
    apply (f_equal length) in Ed. rewrite length_drop in Ed. cbn in Ed. repeat split; [lia|lia]. }
  injection E as <- <-. destruct (c =? ch); [|done]. exists (p + 1)%nat. repeat split; [done|lia|lia].
Qed.

Lemma elemOf_None p : elemOf p = None -> p = [] \/ exists r, p = chStar :: r.
Proof.
  destruct p as [|c p]; [auto|]. cbn [elemOf]. destruct (Z.eqb_spec c chStar) as [->|]; [eauto|].
  repeat case_if; done.
Qed.

Lemma skipStars_spec pattern fuel p : (length pattern - p <= fuel)%nat -> (p <= length pattern)%nat ->
  skipStars fuel pattern p = length pattern <-> glob_matches (drop p pattern) [].
Proof.
  revert p. induction fuel as [|fuel IH]; intros p Hf Hp; cbn [skipStars].
  { rewrite drop_ge by lia. split; [intros _; constructor|lia]. }
  rewrite at_is_drop0. destruct (drop p pattern) as [|c r] eqn:Ed.
  { apply (f_equal length) in Ed. rewrite length_drop in Ed. cbn in *. split; [intros _; constructor|lia]. }
  pose proof (f_equal length Ed) as Hl. rewrite length_drop in Hl. cbn in Hl.
  unfold at_is. cbn [lookup list_lookup]. destruct (Z.eqb_spec c chStar) as [->|Hc].
  - rewrite IH, <- drop_drop, Ed by lia. cbn. rewrite glob_star. split.
    + intros H. by exists [], [].
    + intros ([|] & ? & E & H); simplify_eq/=. done.
  - split; [lia|]. intros H. destruct (elemOf (c :: r)) as [[f q]|] eqn:Ee.
    + destruct (proj1 (glob_elem _ _ _ _ Ee) H) as (? & ? & ? & _). done.
    + destruct (elemOf_None _ Ee) as [|[? ?]]; simplify_eq.
Qed.

(** ** The remembered star *)

(** The pattern after [k] elements that are no stars. *)
Fixpoint skipElems (k : nat) (p : bytes) : option bytes :=
  match k with
  | O => Some p
  | S k => match elemOf p with Some (_, r) => skipElems k r | None => None end
  end.

Lemma skipElems_matches k p r s : skipElems k p = Some r -> glob_matches p s ->
  (k <= length s)%nat /\ glob_matches r (drop k s).
Proof.
  revert p s. induction k as [|k IH]; intros p s; cbn [skipElems]; [intros [= ->] H; split; [lia|done]|].
  destruct (elemOf p) as [[f q]|] eqn:E; [|done]. intros Hk H.
  destruct (proj1 (glob_elem _ _ _ _ E) H) as (c & s' & -> & _ & Hr). destruct (IH _ _ Hk Hr). cbn. split; [lia|done].
Qed.

Lemma skipElems_snoc k p q f r : skipElems k p = Some q -> elemOf q = Some (f, r) -> skipElems (S k) p = Some r.
Proof.
  revert p. induction k as [|k IH]; intros p; cbn [skipElems]; [intros [= ->] ->; done|].
  destruct (elemOf p) as [[g t]|]; [|done]. intros Hk E. exact (IH _ Hk E).
Qed.

(** Between the remembered star and the current position the pattern has one
    element for each byte consumed. *)
Definition star_ok (pattern : bytes) (p si : nat) (star : option (nat * nat)) : Prop :=
  match star with
  | None => True
  | Some (sp, ss) =>
      at_is pattern sp chStar = true /\ (sp < p)%nat /\ (ss <= si)%nat /\
      skipElems (si - ss) (drop (sp + 1) pattern) = Some (drop p pattern)
  end.

(** What the loop still has to decide: the rest matches here, or the remembered
    star can take more. *)
Definition may_match (pattern s : bytes) (p si : nat) (star : option (nat * nat)) : Prop :=
  glob_matches (drop p pattern) (drop si s) \/
  exists sp ss k, star = Some (sp, ss) /\ (ss < k <= length s)%nat /\ glob_matches (drop (sp + 1) pattern) (drop k s).

Lemma star_absorbs p s i j : (i <= j)%nat -> glob_matches (chStar :: p) (drop j s) -> glob_matches (chStar :: p) (drop i s).
Proof.
  intros Hij (a & t & E & H)%glob_star. apply glob_star. exists (take (j - i) (drop i s) ++ a), t. split; [|done].
  rewrite <- (take_drop (j - i) (drop i s)) at 1. rewrite drop_drop. replace (i + (j - i))%nat with j by lia.
  by rewrite E, app_assoc.
Qed.

(** An older star adds nothing once its elements have reached the position. *)
Lemma older_star pattern s p si sp ss k : star_ok pattern p si (Some (sp, ss)) -> (ss < k <= length s)%nat ->
  glob_matches (drop (sp + 1) pattern) (drop k s) ->
  (si < length s)%nat /\ exists j, (si <= j)%nat /\ glob_matches (drop p pattern) (drop j s).
Proof.
  intros (_ & _ & Hle & Hk) Hs H. destruct (skipElems_matches _ _ _ _ Hk H) as [Hl Hm].
  rewrite length_drop in Hl. rewrite drop_drop in Hm. split; [lia|]. exists (k + (si - ss))%nat. split; [lia|done].
Qed.

(** ** The loop *)

Definition globMeasure (pattern s : bytes) (p : nat) (star : option (nat * nat)) : nat :=
  ((length s - match star with Some (_, ss) => ss | None => 0 end) * (length pattern + 2) + (length pattern - p))%nat.

Lemma may_match_star pattern s p si star r : drop p pattern = chStar :: r -> (si < length s)%nat ->
  star_ok pattern p si star -> may_match pattern s (p + 1) si (Some (p, si)) <-> may_match pattern s p si star.
Proof.
  intros Ed Hlt Hst. assert (drop (p + 1) pattern = r) as Er by (rewrite <- drop_drop, Ed; done).
  assert (may_match pattern s (p + 1) si (Some (p, si)) <-> glob_matches (drop p pattern) (drop si s)) as ->.
  { unfold may_match. rewrite Ed, Er. split.
    - intros [H|(sp & ss & k & [= <- <-] & Hk & H)].
      + apply glob_star. by exists [], (drop si s).
      + apply (star_absorbs _ _ si k); [lia|]. rewrite Er in H. apply glob_star. by exists [], (drop k s).
    - intros (a & t & E & H)%glob_star. pose proof (f_equal length E) as Hl. rewrite length_drop, length_app in Hl.
      assert (drop (si + length a) s = t) as Et by (rewrite <- drop_drop, E; by rewrite drop_app_length).
      destruct a as [|x a]; [left; by rewrite E|]. right. exists p, si, (si + length (x :: a))%nat.
      rewrite Et, Er. cbn in Hl |- *. repeat split; [lia|lia|done]. }
  unfold may_match. split; [by left|]. intros [H|(sp & ss & k & -> & Hk & H)]; [done|].
  destruct (older_star _ _ _ _ _ _ _ Hst Hk H) as (_ & j & Hj & Hm). rewrite Ed in *. by apply (star_absorbs _ _ si j).
Qed.

Lemma may_match_elem pattern s p si star f r ch next : elemOf (drop p pattern) = Some (f, r) -> f ch = true ->
  s !! si = Some ch -> drop next pattern = r -> may_match pattern s next (si + 1) star <-> may_match pattern s p si star.
Proof.
  intros Ee Hf Hch Hn. unfold may_match. rewrite (glob_elem _ _ _ _ Ee), Hn, (drop_S _ _ _ Hch).
  replace (S si) with (si + 1)%nat by lia. split; (intros [H|H]; [left|by right]); [eauto|].
  destruct H as (c & s' & [= <- <-] & _ & H). done.
Qed.

(** Where the element at the position rejects the byte only the star is left. *)
Lemma may_match_retry pattern s p si star ch : s !! si = Some ch ->
  (forall f r, elemOf (drop p pattern) = Some (f, r) -> f ch = false) -> (forall r, drop p pattern <> chStar :: r) ->
  may_match pattern s p si star <->
  match star with Some (sp, ss) => (ss < length s)%nat /\ may_match pattern s (sp + 1) (ss + 1) (Some (sp, (ss + 1)%nat)) | None => False end.
Proof.
  intros Hch Hf Hns. unfold may_match at 1.
  assert (~ glob_matches (drop p pattern) (drop si s)) as Hno.
  { rewrite (drop_S _ _ _ Hch). destruct (elemOf (drop p pattern)) as [[f r]|] eqn:Ee.
    - rewrite (glob_elem _ _ _ _ Ee). intros (c & s' & [= <- <-] & H & _). rewrite (Hf _ _ eq_refl) in H. done.
    - destruct (elemOf_None _ Ee) as [->|[r E]]; [|by apply Hns in E]. inversion 1. }
  destruct star as [[sp ss]|]; [|split; [intros [?|(? & ? & ? & ? & _)]; done|done]].
  split.
  - intros [H|(? & ? & k & [= <- <-] & Hk & H)]; [done|]. split; [lia|].
    destruct (decide (k = (ss + 1)%nat)) as [->|]; [by left|]. right. exists sp, (ss + 1)%nat, k. repeat split; [lia|lia|done].
  - intros [Hl [H|(? & ? & k & [= <- <-] & Hk & H)]]; right; [exists sp, ss, (ss + 1)%nat|exists sp, ss, k]; repeat split; (done || lia).
Qed.

Lemma globLoop_spec pattern s fuel p si star :
  (p <= length pattern)%nat -> (si <= length s)%nat -> star_ok pattern p si star -> (globMeasure pattern s p star < fuel)%nat ->
  exists b, globLoop fuel pattern s p si star = Some b /\ (b = true <-> may_match pattern s p si star).
Proof.
  revert p si star. induction fuel as [|fuel IH]; intros p si star Hp Hsi Hst Hfuel; [by inversion Hfuel|].
  cbn [globLoop]. destruct (s !! si) as [ch|] eqn:Es.
  2:{ apply lookup_ge_None in Es. assert (si = length s) as -> by lia. eexists. split; [done|].
      rewrite Nat.eqb_eq, skipStars_spec by lia. unfold may_match. rewrite drop_all. split; [by left|].
      intros [H|(sp & ss & k & -> & Hk & H)]; [done|]. destruct (older_star _ _ _ _ _ _ _ Hst Hk H). lia. }
  pose proof (lookup_lt_Some _ _ _ Es) as Hlt. rewrite at_is_drop0. unfold globMeasure in *.
  assert ((forall r, drop p pattern <> chStar :: r) ->
    (forall f r, elemOf (drop p pattern) = Some (f, r) -> f ch = false) ->
    exists b, match star with Some (starP, starS) => globLoop fuel pattern s (starP + 1) (starS + 1) (Some (starP, (starS + 1)%nat))
              | None => Some false end = Some b /\ (b = true <-> may_match pattern s p si star)) as Hretry.
  { intros Hns Hf. setoid_rewrite (may_match_retry _ _ _ _ _ _ Es Hf Hns).
    destruct star as [[sp ss]|]; [|by exists false]. destruct Hst as (H1 & H2 & H3 & H4).
    destruct (IH (sp + 1)%nat (ss + 1)%nat (Some (sp, (ss + 1)%nat))) as (b & -> & Hb); [lia|lia| |nia|].
    - split; [done|]. split; [lia|]. split; [lia|]. by rewrite Nat.sub_diag.
    - exists b. split; [done|]. rewrite Hb. split; [intros; split; [lia|done]|tauto]. }
  destruct (elemOf (drop p pattern)) as [[f r]|] eqn:Ee.
  - assert (at_is (drop p pattern) 0 chStar = false) as ->.
    { destruct (drop p pattern) as [|c t]; [done|]. cbn [elemOf] in Ee. unfold at_is. cbn. by destruct (c =? chStar). }
    pose proof (stepElem_spec pattern p ch f r Ee) as Hs. destruct (f ch) eqn:Hf.
    + destruct Hs as (next & -> & Hd & Hn). setoid_rewrite <- (may_match_elem _ _ _ _ star _ _ _ _ Ee Hf Es Hd).
      apply IH; [lia|lia| |lia]. destruct star as [[sp ss]|]; [|done]. destruct Hst as (H1 & H2 & H3 & H4).
      split; [done|]. split; [lia|]. split; [lia|]. replace (si + 1 - ss)%nat with (S (si - ss)) by lia.
      rewrite Hd. exact (skipElems_snoc _ _ _ _ _ H4 Ee).
    + rewrite Hs. apply Hretry; [intros t E; rewrite E in Ee; done|]. intros f' r' [= <- <-]. done.
  - destruct (elemOf_None _ Ee) as [E|[r E]].
    + assert (pattern !! p = None) as Hnone by (rewrite <- (Nat.add_0_r p), <- lookup_drop, E; done).
      unfold stepElem. rewrite Hnone, E. apply Hretry; [congruence|done].
    + rewrite E. assert (drop (p + 1) pattern = r) as Er by (rewrite <- drop_drop, E; done).
      setoid_rewrite <- (may_match_star _ _ _ _ star _ E Hlt Hst).
      pose proof (f_equal length E) as Hl. rewrite length_drop in Hl. cbn in Hl. cbn [at_is lookup list_lookup].
      apply IH; [lia|lia| |].
      * split; [by rewrite at_is_drop0, E|]. split; [lia|]. split; [lia|]. by rewrite Nat.sub_diag.
      * destruct star as [[sp ss]|]; [destruct Hst as (_ & _ & Hle & _)|]; nia.
Qed.

Lemma globMatch_spec pattern s : exists b, globMatch pattern s = Some b /\ (b = true <-> glob_matches pattern s).
Proof.
  destruct (globLoop_spec pattern s (S ((length s + 1) * (length pattern + 2))) 0 0 None) as (b & E & H); [lia|lia|done| |].
  { unfold globMeasure. nia. }
  exists b. split; [exact E|]. rewrite H. unfold may_match. split; [|by left].
  intros [Hm|(? & ? & ? & ? & _)]; [exact Hm|done].
Qed.

(** C36. The key pattern matcher terminates on every pattern and key, and it
    accepts exactly the keys the pattern describes: a star stands for any
    bytes, [?] for one byte, a class for a byte in (or with [^] outside) its
    bytes and ranges, an unclosed bracket for itself, a backslash quotes the
    next byte, and any other byte stands for itself.  Remembering only the last
    star loses no match. *)
Theorem globMatch_decides pattern s :
  exists b, globMatch pattern s = Some b /\ (b = true <-> glob_matches pattern s).
Proof. apply globMatch_spec. Qed.
