(* ===== verification/Scan.v ===== *)
(** * Scans ([engine_read.go])

    The merged iterator over memtable, immutable memtable and tables, and the
    operations that walk it: [getByPrefix], [ScanKeys], [ScanAllKeys],
    [ScanPage], [SnapshotEntries] and [StreamSnapshot].  Every scan reports the
    values it passes over to [addDiscard], as the code does. *)
From Stdlib Require Import Bool.
From S2P Require Import Prelude Mvcc Bloom SkipList Heap Iterator Encoding SstBlock SstTable Compaction Wal Vlog Values Engine Glob.

Section scan.
Context (aesEncrypt : bytes -> bytes -> bytes).
Context (xxhash : bytes -> Z).

(** ** The merged iterator *)

(** The prefix filter a table was written with ([sstable.Create]). *)
Definition tablePrefixFilter (t : Table) : option Filter :=
  addKeys xxhash (NewFilterSized (Z.of_nat (length (tb_entries t))) 10) (ExtractPrefix <$> (Key <$> tb_entries t)).

Definition tableMayContainPrefix (t : Table) (prefix : bytes) : bool :=
  match tablePrefixFilter t ≫= (fun f => MayContain xxhash f prefix) with Some b => b | None => true end.

(** What a table's iterator delivers after [Seek]. *)
Definition tableIter (t : Table) (seekKey : bytes) : list Entry := filter (fun e => bytes_le seekKey (Key e)) (tb_entries t).

Definition scannedTables (e : Engine) (prefixCheck : option bytes) : list Table :=
  filter (fun t => from_option (tableMayContainPrefix t) true prefixCheck = true)
    (searchOrder (levels (e_lsm e))).

Definition scanSources (e : Engine) (seekKey : bytes) (prefixCheck : option bytes) : list (list Entry) :=
  [memIter (e_memTable e) seekKey]
  ++ option_list ((fun m => memIter m seekKey) <$> e_immMemTable e)
  ++ ((fun t => tableIter t seekKey) <$> scannedTables e prefixCheck).

Definition scanPriorities (e : Engine) (prefixCheck : option bytes) : list Z :=
  [1000] ++ option_list ((fun _ => 999) <$> e_immMemTable e)
  ++ ((fun i => 900 - Z.of_nat i) <$> seq 0 (length (scannedTables e prefixCheck))).

Definition buildMergedIteratorFiltered (e : Engine) (seekKey : bytes) (prefixCheck : option bytes) : list heapItem :=
  NewMergedIterator (scanPriorities e prefixCheck) (scanSources e seekKey prefixCheck).

Definition buildMergedIterator (e : Engine) (seekKey : bytes) : list heapItem := buildMergedIteratorFiltered e seekKey None.

Definition prefixFilterKey (prefix : bytes) : option bytes :=
  let p := ExtractPrefix prefix in
  if (length p <? length prefix)%nat && (default 1 (prefix !! length p) =? 0) then Some p else None.

(** [onDiscard] is [e.addDiscard]. *)
Definition reportDiscards (d : list bytes) : eng unit :=
  e ← getE;
  putE (set_gc e (e_vlogDiscards e) (foldl addDiscard (e_discardStats e) d) (e_gcPending e) (e_gcDiscardTs e)).

(** [for merged.Valid() { ...; merged.Next() }]: the body gets the current
    entry and says whether to go on.  Every round takes an entry off the heap. *)
Fixpoint scanLoop {A} (body : Entry -> A -> eng (A * bool)) (fuel : nat) (h : list heapItem) (acc : A) : eng A :=
  match fuel with
  | O => mret acc
  | S f =>
      match mergedNext itemHeap_Less h with
      | None => mret acc
      | Some (x, d, h') =>
          _ ← reportDiscards d;
          r ← body x acc;
          if (r.2 : bool) then scanLoop body f h' r.1 else mret r.1
      end
  end.

Definition scan {A} (body : Entry -> A -> eng (A * bool)) (h : list heapItem) (acc : A) : eng A :=
  scanLoop body (length (stream h)) h acc.

(** [!deleted && (expAt == 0 || now < expAt)] *)
Definition liveAt (now : Z) (x : Entry) : bool := negb (Deleted x) && ((ExpiresAt x =? 0) || (now <? ExpiresAt x)).

(** [Deleted() || (ExpiresAt() > 0 && now >= ExpiresAt())] *)
Definition goneAt (now : Z) (x : Entry) : bool := Deleted x || ((0 <? ExpiresAt x) && (ExpiresAt x <=? now)).

(** [resolveValue] on the engine's value log. *)
Definition resolveRaw (raw : bytes) : eng (option bytes) :=
  e ← getE;
  let '(v, vl) := resolveValue aesEncrypt (e_vl e) raw in
  _ ← putE (set_vl e vl);
  mret v.

(** ** Scans *)

Definition prefixBody (now : Z) (prefix : bytes) (x : Entry) (result : gmap bytes bytes) : eng (gmap bytes bytes * bool) :=
  if negb (has_prefix prefix (Key x)) then mret (result, false)
  else if liveAt now x then
    v ← resolveRaw (Value x);
    mret (match v with Some v => <[Key x := v]> result | None => result end, true)
  else mret (result, true).

Definition getByPrefix (now : Z) (prefix : bytes) : eng (gmap bytes bytes) :=
  e ← getE;
  scan (prefixBody now prefix) (buildMergedIteratorFiltered e prefix (prefixFilterKey prefix)) ∅.

(** [globMatch] always answers. *)
Definition globOk (pattern s : bytes) : bool := default false (globMatch pattern s).

(** State: the keys found and [prevKey], initially the empty string. *)
Definition keysBody (now : Z) (pattern : bytes) (x : Entry) (st : list bytes * bytes) : eng (list bytes * bytes * bool) :=
  let '(keys, prevKey) := st in
  if bytes_eqb (Key x) prevKey then mret (keys, prevKey, true)
  else mret (if liveAt now x && globOk pattern (Key x) then keys ++ [Key x] else keys, Key x, true).

Definition ScanKeys (now : Z) (pattern : bytes) : eng (list bytes) :=
  e ← getE;
  r ← scan (keysBody now pattern) (buildMergedIterator e []) ([], []);
  mret r.1.

Fixpoint indexNul (s : bytes) : option nat :=
  match s with [] => None | c :: s => if c =? 0 then Some 0%nat else S <$> indexNul s end.

(** The name clients know a stored key by; empty for foreign layouts. *)
Definition logicalKey (k : bytes) : bytes :=
  match k with
  | c :: z :: rest =>
      if negb (z =? 0) then k
      else if c =? 115 then rest
      else if (c =? 104) || (c =? 116) || (c =? 108) || (c =? 122) || (c =? 98) then
        match indexNul rest with Some i => take i rest | None => [] end
      else []
  | _ => k
  end.

(** State: [seen], the names found, and [prevKey] ([None] is nil). *)
Definition allKeysBody (now : Z) (pattern : bytes) (x : Entry) (st : gset bytes * list bytes * option bytes)
    : eng (gset bytes * list bytes * option bytes * bool) :=
  let '(seen, keys, prevKey) := st in
  if bool_decide (prevKey = Some (Key x)) then mret (seen, keys, prevKey, true)
  else if goneAt now x then mret (seen, keys, Some (Key x), true)
  else
    let name := logicalKey (Key x) in
    if bytes_eqb name [] || bool_decide (name ∈ seen) then mret (seen, keys, Some (Key x), true)
    else mret ({[name]} ∪ seen, if globOk pattern name then keys ++ [name] else keys, Some (Key x), true).

(** [sort.Strings]. *)
Fixpoint insertString (s : bytes) (l : list bytes) : list bytes :=
  match l with [] => [s] | x :: l' => if bytes_leb s x then s :: l else x :: insertString s l' end.

Definition sortStrings (l : list bytes) : list bytes := foldr insertString [] l.

Definition ScanAllKeys (now : Z) (pattern : bytes) : eng (list bytes) :=
  e ← getE;
  r ← scan (allKeysBody now pattern) (buildMergedIterator e []) (∅, [], None);
  mret (sortStrings r.1.2).

Record SnapshotEntry := mkSnapshotEntry { se_key : bytes; se_value : bytes; se_deleted : bool; se_expiresAt : Z }.

Definition snapshotBody (now : Z) (x : Entry) (st : list SnapshotEntry * bytes) : eng (list SnapshotEntry * bytes * bool) :=
  let '(entries, prevKey) := st in
  if bytes_eqb (Key x) prevKey then mret (entries, prevKey, true)
  else if (0 <? ExpiresAt x) && (ExpiresAt x <=? now) then mret (entries, Key x, true)
  else
    v ← (if Deleted x then mret None else resolveRaw (Value x));
    mret (entries ++ [mkSnapshotEntry (Key x) (default [] v) (Deleted x) (ExpiresAt x)], Key x, true).

Definition SnapshotEntries (now : Z) : eng (list SnapshotEntry) :=
  e ← getE;
  r ← scan (snapshotBody now) (buildMergedIterator e []) ([], []);
  mret r.1.

(** [fn] is the callback with its state; [None] is its error, which stops the
    stream.  The answer is the number of entries accepted. *)
Definition streamBody {B} (fn : B -> Z -> bytes -> bytes -> Z -> option B) (now : Z) (x : Entry)
    (st : B * Z * bytes * bool) : eng (B * Z * bytes * bool * bool) :=
  let '(b, count, prevKey, failed) := st in
  if bytes_eqb (Key x) prevKey then mret (b, count, prevKey, failed, true)
  else if (0 <? ExpiresAt x) && (ExpiresAt x <=? now) then mret (b, count, Key x, failed, true)
  else
    v ← (if Deleted x then mret None else resolveRaw (Value x));
    mret match fn b (if Deleted x then OpDelete else OpPut) (Key x) (default [] v) (ExpiresAt x) with
         | Some b => (b, count + 1, Key x, failed, true)
         | None => (b, count, Key x, true, false)
         end.

Definition StreamSnapshot {B} (fn : B -> Z -> bytes -> bytes -> Z -> option B) (now : Z) (b : B) : eng (B * Z * bool) :=
  e ← getE;
  r ← scan (streamBody fn now) (buildMergedIterator e []) (b, 0, [], false);
  mret (r.1.1, r.2).

Fixpoint getAll (now : Z) (keys : list bytes) : eng (list (option bytes)) :=
  match keys with
  | [] => mret []
  | k :: keys =>
      r ← getByString aesEncrypt now k;
      rest ← getAll now keys;
      mret ((match r with Ok v => Some v | Fail _ => None end) :: rest)
  end.

(** [MGet]: values and presence flags. *)
Definition MGet (now : Z) (keys : list bytes) : eng (list bytes * list bool) :=
  rs ← getAll now keys;
  mret (default [] <$> rs, (fun r => bool_decide (is_Some r)) <$> rs).

(** ** Pages *)

(** [hex.EncodeToString] and [hex.DecodeString]. *)
Definition hexDigit (d : Z) : Z := if d <? 10 then 48 + d else 87 + d.

Definition hexEncode (b : bytes) : bytes := b ≫= (fun x => [hexDigit (x / 16); hexDigit (x mod 16)]).

Definition hexValue (c : Z) : option Z :=
  if (48 <=? c) && (c <=? 57) then Some (c - 48)
  else if (97 <=? c) && (c <=? 102) then Some (c - 87)
  else if (65 <=? c) && (c <=? 70) then Some (c - 55)
  else None.

Fixpoint hexDecode (s : bytes) : option bytes :=
  match s with
  | [] => Some []
  | [_] => None
  | a :: b :: s => x ← hexValue a; y ← hexValue b; r ← hexDecode s; Some (16 * x + y :: r)
  end.

Definition collectionResumeKey (k : bytes) : bytes :=
  match indexNul (drop 2 k) with None => k | Some i => take (i + 3) k ++ [255] end.

(** [merged.Next] with its discards; no current entry when it is exhausted. *)
Definition iterNext (h : list heapItem) : eng (option Entry * list heapItem) :=
  match mergedNext itemHeap_Less h with
  | None => mret (None, [])
  | Some (x, d, h') => _ ← reportDiscards d; mret (Some x, h')
  end.

Record Page := mkPage { pg_seen : gset bytes; pg_names : list bytes; pg_last : bytes; pg_scanned : Z }.

(** The loop of [ScanPage]; its answer says whether the iterator is still
    valid.  Running out of fuel is a panic. *)
Fixpoint pageLoop (fuel : nat) (now : Z) (pattern seek : bytes) (count budget : Z) (skipSeek : bool)
    (it : option Entry * list heapItem) (pg : Page) : eng (Page * bool) :=
  match fuel with
  | O => panic
  | S fuel =>
      match it with
      | (None, _) => mret (pg, false)
      | (Some x, h) =>
          if skipSeek && bytes_eqb (Key x) seek then
            it ← iterNext h;
            pageLoop fuel now pattern seek count budget false it pg
          else
            let k := Key x in
            let scanned := pg_scanned pg + 1 in
            let name := logicalKey k in
            if negb (goneAt now x) && negb (bytes_eqb name []) && bool_decide (name ∉ pg_seen pg)
               && (2 <? length k)%nat && (default 1 (k !! 1%nat) =? 0) then
              let names := if globOk pattern name then pg_names pg ++ [name] else pg_names pg in
              e ← getE;
              it ← iterNext (buildMergedIterator e (collectionResumeKey k));
              pageLoop fuel now pattern seek count budget false it
                (mkPage ({[name]} ∪ pg_seen pg) names (collectionResumeKey k) scanned)
            else
              let '(seen, names) :=
                if negb (goneAt now x) && negb (bytes_eqb name []) && bool_decide (name ∉ pg_seen pg) then
                  ({[name]} ∪ pg_seen pg, if globOk pattern name then pg_names pg ++ [name] else pg_names pg)
                else (pg_seen pg, pg_names pg) in
              let pg := mkPage seen names k scanned in
              it ← iterNext h;
              if (count <=? Z.of_nat (length names)) || (budget <=? scanned) then mret (pg, bool_decide (is_Some it.1))
              else pageLoop fuel now pattern seek count budget false it pg
      end
  end.

Definition cursorSeek (cursor : bytes) : option bytes :=
  if bytes_eqb cursor [] || bytes_eqb cursor [48] then Some [] else hexDecode cursor.

(** Names and next cursor; [None] is the error on a malformed cursor.  A page
    seeks anew at most once for each name, and walks at most all entries in
    between. *)
Definition ScanPage (now : Z) (pattern cursor : bytes) (count : Z) : eng (option (list bytes * bytes)) :=
  match cursorSeek cursor with
  | None => mret None
  | Some seek =>
      let count := if count <=? 0 then 10 else count in
      let budget := i64 (count * 4) in
      let budget := if budget <? 64 then 64 else budget in
      let budget := if 8192 <? budget then 8192 else budget in
      e ← getE;
      let h := buildMergedIterator e seek in
      it ← iterNext h;
      let total := length (stream (buildMergedIterator e [])) in
      r ← pageLoop (S ((total + 1) * (total + 1))) now pattern seek count budget (0 <? length seek)%nat it
            (mkPage ∅ [] [] 0);
      let next := if r.2 && (0 <? pg_scanned r.1) then hexEncode (pg_last r.1) else [48] in
      mret (Some (sortStrings (pg_names r.1), next))
  end.
End scan.
