(* ===== verification/ScanSpec.v ===== *)
(** * What scans return

    Under the engine's invariant a scan walks the newest stored version of
    every key in scope, in key order; the scans of [Scan] therefore list
    exactly what point reads find. *)
From Stdlib Require Import Bool.
From S2P Require Import Prelude Mvcc Oracle Bloom SkipList Heap Iterator Encoding Threshold Registry Framing Wal Vlog Values VlogSpec SstBlock SstTable Compaction Engine EngineInv EngineSteps Glob Scan.

(** ** Sources *)

Definition storedE (e : Engine) : list Entry := memE e ++ immE e ++ lsmE e.

(** The keys a scan from [seek] answers for when tables without the prefix
    [check] are left out. *)
Definition in_scope (seek : bytes) (check : option bytes) (k : bytes) : Prop :=
  bytes_le seek k /\ forall p, check = Some p -> ExtractPrefix k = p.

Section sources.
Context (xxhash : bytes -> Z).

(** The prefix filter never hides a table that holds a key of the prefix. *)
Lemma prefix_filter_complete t x : x ∈ tb_entries t -> tableMayContainPrefix xxhash t (ExtractPrefix (Key x)) = true.
Proof.
  intros Hx. unfold tableMayContainPrefix, tablePrefixFilter.
  destruct (NewFilter_spec xxhash _ (ExtractPrefix <$> (Key <$> tb_entries t)) (NewFilterSized_ok (Z.of_nat (length (tb_entries t))) 10))
    as (f & -> & _ & _ & _ & _ & Hmay). cbn [mbind option_bind].
  by rewrite Hmay by (by do 2 apply list_elem_of_fmap_2).
Qed.

End sources.

(** A sorted table or memtable stays sorted when it is entered at a key. *)
Lemma sorted_filter {A} (R : A -> A -> Prop) (P : A -> Prop) `{forall x, Decision (P x)} l : StronglySorted R l -> StronglySorted R (filter P l).
Proof.
  induction 1 as [|x l Hl IH Hx]; [constructor|]. rewrite filter_cons. case_decide; [|done].
  constructor; [done|]. rewrite Forall_forall in *. intros y Hy. apply Hx. by apply list_elem_of_filter in Hy as [_ ?].
Qed.

Lemma sorted_keys_filter (P : Entry -> Prop) `{forall o, Decision (P o)} l :
  StronglySorted bytes_lt (Key <$> l) -> StronglySorted bytes_lt (Key <$> filter P l).
Proof.
  induction l as [|x l IH]; intros Hs; [constructor|]. rewrite fmap_cons in Hs. apply StronglySorted_inv in Hs as [Hs Hx].
  rewrite filter_cons. case_decide; [|auto]. rewrite fmap_cons. constructor; [auto|].
  rewrite Forall_fmap, Forall_forall in *. intros y [_ Hy]%list_elem_of_filter. by apply Hx.
Qed.

Lemma sorted_weaken {A} (R S : A -> A -> Prop) l : (forall x y, R x y -> S x y) -> StronglySorted R l -> StronglySorted S l.
Proof. intros HRS. induction 1 as [|x l Hl IH Hx]; constructor; [done|]. eapply Forall_impl; eauto. Qed.

Lemma contents_sorted s m : refines s m -> StronglySorted key_le (contents s).
Proof.
  intros ((L & ht & Hi) & _). unfold contents. rewrite (bottom_eq s L ht Hi). pose proof (si_sorted _ _ _ Hi) as Hs.
  induction L as [|a L IH] in Hs |- *; cbn; [constructor|]. cbn in Hs. apply StronglySorted_inv in Hs as [Hs Ha].
  constructor; [by apply IH|]. apply Forall_forall. intros y (b & -> & Hb)%list_elem_of_fmap.
  apply (proj1 (Forall_forall _ _) Ha (keyAt (sl_nodes s) b)). by apply (list_elem_of_fmap_2 (keyAt (sl_nodes s))).
Qed.

Lemma memIter_spec s m key : refines s m ->
  StronglySorted key_le (memIter s key) /\ forall x, x ∈ memIter s key <-> x ∈ contents s /\ bytes_le key (Key x).
Proof.
  intros Hr. pose proof (contents_sorted _ _ Hr) as Hs. destruct Hr as ((L & ht & Hi) & _).
  rewrite (seek_contents s L ht key Hi). split; [by apply sorted_filter|]. intros x.
  rewrite list_elem_of_filter, bytes_ltb_false. tauto.
Qed.

Lemma tableIter_spec t key : table_ok t ->
  StronglySorted key_le (tableIter t key) /\ forall x, x ∈ tableIter t key <-> x ∈ tb_entries t /\ bytes_le key (Key x).
Proof.
  intros Ht. unfold tableIter. split.
  - apply sorted_filter. eapply sorted_weaken; [|apply (to_sorted _ Ht)].
    intros x y [H|[H _]]; [by apply bytes_lt_le|]. unfold key_le. rewrite H. apply bytes_le_refl.
  - intros x. rewrite list_elem_of_filter. tauto.
Qed.
(** *** Sorting names *)

Lemma insertString_perm x l : insertString x l ≡ₚ x :: l.
Proof. induction l as [|y l IH]; cbn; [done|]. case_if; [done|]. rewrite IH. by constructor. Qed.

Lemma insertString_sorted x l : x ∉ l -> StronglySorted bytes_lt l -> StronglySorted bytes_lt (insertString x l).
Proof.
  intros Hn. induction 1 as [|y l Hl IH Hy]; cbn; [by repeat constructor|]. rewrite not_elem_of_cons in Hn. destruct Hn as [Hxy Hn].
  destruct (bytes_leb x y) eqn:E.
  - apply bytes_leb_spec, bytes_le_lt_eq in E as [E|E]; [|done]. constructor; [by constructor|]. constructor; [done|].
    eapply Forall_impl; [exact Hy|]. intros z. by apply bytes_lt_trans.
  - apply bytes_leb_false in E. constructor; [by apply IH|]. rewrite Forall_forall in *. intros z. rewrite insertString_perm.
    intros [->|Hz]%elem_of_cons; auto.
Qed.

Lemma sortStrings_spec l : sortStrings l ≡ₚ l /\ (NoDup l -> StronglySorted bytes_lt (sortStrings l)).
Proof.
  induction l as [|x l [Hp Hs]]; cbn; [split; [done|constructor]|]. split; [by rewrite insertString_perm, Hp|].
  intros [Hx Hl]%NoDup_cons. apply insertString_sorted; [by rewrite Hp|auto].
Qed.

(** *** Keys with a common prefix are neighbours *)

Lemma bytes_le_app p r : bytes_le p (p ++ r).
Proof. unfold bytes_le. rewrite <- (app_nil_r p) at 1. rewrite bytes_compare_app. by destruct r. Qed.

Lemma prefix_between p a b : bytes_le p a -> bytes_lt a b -> has_prefix p b = true -> has_prefix p a = true.
Proof.
  intros Hp Hab [r ->]%has_prefix_spec. apply has_prefix_spec. revert a Hp Hab. induction p as [|c p IH]; intros a Hp Hab; [by exists a|].
  destruct a as [|x a]; [done|]. unfold bytes_le, bytes_lt in *. cbn in Hp, Hab.
  destruct (Z.compare_spec c x) as [->|H1|H1]; [|destruct (Z.compare_spec x c); [lia|lia|done]|done].
  rewrite Z.compare_refl in Hab. destruct (IH a Hp Hab) as [r' ->]. by exists r'.
Qed.

Lemma prefix_ended p x l : StronglySorted bytes_lt (Key <$> x :: l) -> has_prefix p (Key x) = false -> bytes_le p (Key x) ->
  forall o, o ∈ x :: l -> has_prefix p (Key o) = false.
Proof.
  intros Hs Hx Hle o [->|Ho]%elem_of_cons; [done|]. apply not_true_is_false. intros Hp. cbn in Hs.
  apply StronglySorted_inv in Hs as [_ Hs]. rewrite Forall_fmap, Forall_forall in Hs. specialize (Hs o Ho).
  rewrite (prefix_between p (Key x) (Key o)) in Hx by done. done.
Qed.

Lemma ExtractPrefix_extends prefix r : (length (ExtractPrefix prefix) < length prefix)%nat ->
  ExtractPrefix (prefix ++ r) = ExtractPrefix prefix.
Proof.
  unfold ExtractPrefix. destruct (cutNul prefix) as [[p1 r1]|] eqn:E1; [|lia]. apply cutNul_inv in E1 as [-> H1].
  rewrite <- app_assoc. cbn. rewrite cutNul_app by done. destruct (cutNul r1) as [[p2 r2]|] eqn:E2.
  - apply cutNul_inv in E2 as [-> H2]. rewrite <- app_assoc. cbn. by rewrite cutNul_app.
  - rewrite !length_app. cbn. lia.
Qed.

Section scans.
Context (aesEncrypt : bytes -> bytes -> bytes) (xxhash : bytes -> Z) (reg : option KeyRegistry).
Notation inv := (eng_inv aesEncrypt reg).

(** *** What is stored *)

Lemma stored_unique e g sp pd : inv e g sp pd -> versions_unique (storedE e).
Proof.
  intros Hi. pose proof (unique_versions _ (ei_unique _ _ _ _ _ _ Hi)) as Hu. pose proof (lo_unique _ (ei_lsm _ _ _ _ _ _ Hi)) as Hl.
  pose proof (ei_rots _ _ _ _ _ _ Hi) as Hrot.
  assert (forall a b, a ∈ memE e ++ immE e -> b ∈ lsmE e -> Version b < Version a) as Hlt.
  { intros a b [Ha|Ha]%elem_of_app Hb; pose proof (ei_flushed _ _ _ _ _ _ Hi b (or_intror Hb));
      [pose proof (ei_new _ _ _ _ _ _ Hi a Ha)|pose proof (ei_mid _ _ _ _ _ _ Hi a Ha)]; lia. }
  unfold storedE. rewrite app_assoc. intros a b [Ha|Ha]%elem_of_app [Hb|Hb]%elem_of_app Hk Hv.
  - apply Hu; try done; unfold everything; rewrite app_assoc; apply elem_of_app; by left.
  - specialize (Hlt a b Ha Hb). lia.
  - specialize (Hlt b a Hb Ha). lia.
  - by apply Hl.
Qed.

(** What is stored reads like everything written so far. *)
Lemma stored_seen e g sp pd now key v : inv e g sp pd -> g_floor g <= v -> g_time g <= now ->
  seen now (snapshot_get (storedE e) key v) = seen now (snapshot_get (everything e g) key v).
Proof.
  intros Hi Hv Hnow. destruct (layers _ _ _ _ _ _ Hi) as [H1 H2]. pose proof (ei_rots _ _ _ _ _ _ Hi) as Hrot. unfold storedE, everything.
  rewrite !snapshot_layers; [|done|done| |].
  - destruct (snapshot_get (memE e) key v); [done|]. destruct (snapshot_get (immE e) key v); [done|].
    rewrite <- (ei_reads _ _ _ _ _ _ Hi key v now Hv Hnow). by rewrite (readLevels_spec _ key v (ei_lsm _ _ _ _ _ _ Hi)).
  - intros a b Ha Hb. pose proof (ei_mid _ _ _ _ _ _ Hi a Ha). pose proof (ei_flushed _ _ _ _ _ _ Hi b (or_intror Hb)). lia.
  - intros a b Ha [Hb|Hb]%elem_of_app; pose proof (ei_new _ _ _ _ _ _ Hi a Ha).
    + pose proof (ei_mid _ _ _ _ _ _ Hi b Hb). lia.
    + pose proof (ei_flushed _ _ _ _ _ _ Hi b (or_intror Hb)). lia.
Qed.

(** *** What the iterator delivers *)

Lemma sources_spec e g sp pd seek check : inv e g sp pd ->
  Forall (StronglySorted key_le) (scanSources xxhash e seek check) /\
  (forall x, x ∈ concat (scanSources xxhash e seek check) -> x ∈ storedE e /\ bytes_le seek (Key x)) /\
  (forall x, x ∈ storedE e -> in_scope seek check (Key x) -> x ∈ concat (scanSources xxhash e seek check)).
Proof.
  intros Hi. destruct (ei_mem _ _ _ _ _ _ Hi) as [m Hm]. destruct (memIter_spec _ _ seek Hm) as [Hms Hmx].
  assert (Forall (StronglySorted key_le) (option_list ((fun m => memIter m seek) <$> e_immMemTable e)) /\
    forall x, x ∈ concat (option_list ((fun m => memIter m seek) <$> e_immMemTable e)) <-> x ∈ immE e /\ bytes_le seek (Key x)) as [His Hix].
  { unfold immE. destruct (e_immMemTable e) as [im|] eqn:Eim; cbn; [|split; [constructor|set_solver]].
    destruct (imm_refines _ _ _ _ _ _ _ Hi Eim) as [ms Hms']. destruct (memIter_spec _ _ seek Hms') as [Hs Hx].
    split; [by repeat constructor|]. intros x. rewrite app_nil_r. apply Hx. }
  assert (forall t, t ∈ scannedTables xxhash e check -> table_ok t) as Hok.
  { intros t [_ (p & Ht)%elem_of_searchOrder]%list_elem_of_filter. by apply (lo_tables _ (ei_lsm _ _ _ _ _ _ Hi) p). }
  unfold scanSources. split_and!.
  - rewrite !Forall_app. split_and!; [by repeat constructor|done|]. apply Forall_fmap, Forall_forall. intros t Ht.
    by apply tableIter_spec, Hok.
  - intros x. rewrite !concat_app, !elem_of_app. cbn [concat]. rewrite app_nil_r, Hmx, Hix. unfold storedE. rewrite !elem_of_app.
    intros [?|[?|Hx]]; [tauto|tauto|]. apply elem_of_concat in Hx as (l & (t & -> & Ht)%list_elem_of_fmap & Hx).
    apply (tableIter_spec t seek (Hok t Ht)) in Hx as [Hx Hk]. split; [|done]. right. right.
    apply list_elem_of_filter in Ht as [_ Ht]. apply list_elem_of_bind. eauto.
  - intros x Hx [Hk Hc]. rewrite !concat_app, !elem_of_app. cbn [concat]. rewrite app_nil_r, Hmx, Hix.
    unfold storedE in Hx. rewrite !elem_of_app in Hx. destruct Hx as [?|[?|Hx]]; [tauto|tauto|]. right. right.
    apply list_elem_of_bind in Hx as (t & Hx & Ht).
    assert (t ∈ scannedTables xxhash e check) as Hts.
    { apply list_elem_of_filter. split; [|done]. destruct check as [p|]; [|done]. cbn. rewrite <- (Hc p eq_refl). by apply prefix_filter_complete. }
    apply elem_of_concat. exists (tableIter t seek). split; [|by apply tableIter_spec; [apply Hok|]].
    by apply (list_elem_of_fmap_2 (fun t => tableIter t seek)).
Qed.

(** The newest stored version of every key in scope, in key order. *)
Record walks (e : Engine) (seek : bytes) (check : option bytes) (out : list Entry) : Prop := {
  wk_sorted : StronglySorted bytes_lt (Key <$> out);
  wk_from : forall o, o ∈ out -> o ∈ storedE e /\ bytes_le seek (Key o);
  wk_newest : forall o, o ∈ out -> in_scope seek check (Key o) -> snapshot_get (storedE e) (Key o) max_u64 = Some o;
  wk_complete : forall k o, in_scope seek check k -> snapshot_get (storedE e) k max_u64 = Some o -> o ∈ out;
}.

Lemma stored_bounded e g sp pd x : inv e g sp pd -> nextTs (e_oracle e) <= max_u64 -> x ∈ storedE e -> Version x <= max_u64.
Proof.
  intros Hi Hn Hx. pose proof (ei_top _ _ _ _ _ _ Hi). pose proof (ei_counter _ _ _ _ _ _ Hi x) as Hc.
  assert (Version x <= sl_versionCounter (e_memTable e)); [|lia]. apply Hc. unfold storedE in Hx. unfold everything.
  rewrite !elem_of_app in *. tauto.
Qed.

Lemma iter_walks e g sp pd seek check (h := buildMergedIteratorFiltered xxhash e seek check) :
  inv e g sp pd -> nextTs (e_oracle e) <= max_u64 ->
  walks e seek check (mergedLoop itemHeap_Less (length (stream h)) h).1.
Proof.
  intros Hi Hn. destruct (sources_spec e g sp pd seek check Hi) as (Hs & Hfrom & Hin).
  destruct (NewMergedIterator_spec (scanPriorities xxhash e check) _ Hs) as [Hok Hst].
  destruct (merge_spec_perm _ _ _ _ Hst (mergedLoop_spec _ _ Hok (le_n _))) as [H1 H2 H3 _]. fold h in H1, H2, H3.
  assert (forall o, o ∈ (mergedLoop itemHeap_Less (length (stream h)) h).1 -> in_scope seek check (Key o) ->
    snapshot_get (storedE e) (Key o) max_u64 = Some o) as Hnew.
  { intros o Ho Hk. destruct (H2 o Ho) as [Hin' Hmax]. destruct (Hfrom o Hin') as [Hso _].
    apply snapshot_get_intro; [by eapply stored_unique|done|done|by eapply stored_bounded|].
    intros x Hx Hkx _. apply Hmax; [|done]. apply Hin; [done|]. by rewrite Hkx. }
  split; [exact H1| |exact Hnew|].
  - intros o Ho. by apply Hfrom, H2.
  - intros k o Hk Ho. pose proof (snapshot_get_Some _ _ _ _ Ho) as (Hso & Hko & _). subst k.
    destruct (H3 o (Hin o Hso Hk)) as (o' & Ho' & Hk'). rewrite <- Hk' in Hk, Ho.
    rewrite (Hnew o' Ho' Hk) in Ho. by injection Ho as <-.
Qed.

(** *** The loop *)

Definition set_stats (e : Engine) (stats : gmap Z Z) : Engine :=
  set_gc e (e_vlogDiscards e) stats (e_gcPending e) (e_gcDiscardTs e).

Lemma scanLoop_runs {A} (body : Entry -> A -> eng (A * bool)) (P : list Entry -> A -> Engine -> Prop) (Q : A -> Engine -> Prop) fuel h acc e :
  (forall l acc e stats, P l acc e -> P l acc (set_stats e stats)) ->
  (forall x l acc e, P (x :: l) acc e -> runs (body x acc) e (fun r e' => if (r.2 : bool) then P l r.1 e' else Q r.1 e')) ->
  (forall acc e, P [] acc e -> Q acc e) ->
  P (mergedLoop itemHeap_Less fuel h).1 acc e -> runs (scanLoop body fuel h acc) e Q.
Proof.
  intros Hst Hbody Hend. revert h acc e. induction fuel as [|f IH]; intros h acc e HP; [by apply Hend|].
  cbn [scanLoop mergedLoop] in *. destruct (mergedNext itemHeap_Less h) as [[[x d] h']|]; [|by apply Hend].
  specialize (IH h'). destruct (mergedLoop itemHeap_Less f h') as [l ds]. cbn [fst] in *.
  apply runs_bind. unfold reportDiscards. run_get. apply runs_putE.
  apply (runs_step _ _ _ (fun r e' => if (r.2 : bool) then P l r.1 e' else Q r.1 e')); [by apply Hbody, Hst|].
  intros [r go] e' Hr. cbn [fst snd] in *. destruct go; [by apply IH|done].
Qed.

(** What a scan may change: discard counters and the write buffer of the value
    log. *)
Record calm (e e' : Engine) (g : Ghost) (sp : list ValuePointer) (pd : list Z) (n : Z) : Prop := {
  cm_mem : e_memTable e' = e_memTable e;
  cm_imm : e_immMemTable e' = e_immMemTable e;
  cm_lsm : e_lsm e' = e_lsm e;
  cm_oracle : e_oracle e' = e_oracle e;
  cm_inv : inv e' g sp pd;
  cm_room : room (e_vl e') n;
}.

Lemma calm_refl e g sp pd n : inv e g sp pd -> room (e_vl e) n -> calm e e g sp pd n.
Proof. by split. Qed.

Lemma calm_stats e e' g sp pd n stats : calm e e' g sp pd n -> calm e (set_stats e' stats) g sp pd n.
Proof. intros []. split; try done. by apply inv_set_gc. Qed.

Lemma calm_stored e e' g sp pd n : calm e e' g sp pd n -> storedE e' = storedE e.
Proof. intros []. unfold storedE, memE, immE, lsmE. by rewrite cm_mem0, cm_imm0, cm_lsm0. Qed.

(** *** Scanned entries and the log *)

Lemma stored_log e g sp pd now k : inv e g sp pd -> g_floor g <= max_u64 -> g_time g <= now ->
  match snapshot_get (storedE e) k max_u64 with
  | Some o =>
      if goneAt now o then logRead now (g_log g) k max_u64 = None
      else exists u, logRead now (g_log g) k max_u64 = Some (u, ExpiresAt o) /\ denotes (g_iss g) (Value o) u
  | None => logRead now (g_log g) k max_u64 = None
  end.
Proof.
  intros Hi Hf Hnow. pose proof (log_lookup aesEncrypt reg e g sp pd now k max_u64 Hi) as Hl.
  rewrite <- (stored_seen e g sp pd now k max_u64 Hi Hf Hnow) in Hl. destruct (snapshot_get (storedE e) k max_u64) as [o|]; [|done].
  unfold seen, interpret, expired in Hl. unfold goneAt. destruct (Deleted o); [done|]. cbn [orb].
  destruct (_ && _); [done|]. exact Hl.
Qed.

Lemma resolveRaw_runs e e' g sp pd n o u : calm e e' g sp pd n -> o ∈ storedE e -> denotes (g_iss g) (Value o) u ->
  runs (resolveRaw aesEncrypt (Value o)) e' (fun v e'' => v = Some u /\ calm e e'' g sp pd n).
Proof.
  intros Hc Ho Hd. unfold resolveRaw. run_get. rewrite <- (calm_stored _ _ _ _ _ _ Hc) in Ho.
  destruct (resolve_stored aesEncrypt reg e' g sp pd n o u (cm_inv _ _ _ _ _ _ Hc) (cm_room _ _ _ _ _ _ Hc) Ho Hd) as (vl & -> & Hi & Hr & _).
  run_put. apply runs_ret. split; [done|]. destruct Hc. by split.
Qed.

Lemma globOk_spec pattern s : globOk pattern s = true <-> glob_matches pattern s.
Proof. unfold globOk. by destruct (globMatch_spec pattern s) as (b & -> & H). Qed.

Lemma liveAt_gone now o : 0 <= now -> liveAt now o = true <-> goneAt now o = false /\ 0 <= ExpiresAt o.
Proof.
  intros Hnow. unfold liveAt, goneAt. destruct (Deleted o); cbn; [split; [done|intros [? _]; done]|].
  destruct (Z.eqb_spec (ExpiresAt o) 0) as [->|]; [cbn; split; [done|done]|]. cbn.
  destruct (Z.ltb_spec now (ExpiresAt o)), (Z.ltb_spec 0 (ExpiresAt o)), (Z.leb_spec (ExpiresAt o) now); cbn; split; intros; try done; try lia.
  all: match goal with H : _ /\ _ |- _ => destruct H end; (done || lia).
Qed.

(** *** The scans *)

Section results.
Context (e : Engine) (g : Ghost) (sp : list ValuePointer) (pd : list Z) (n now : Z).
Hypothesis Hi : inv e g sp pd.
Hypothesis Hroom : room (e_vl e) n.
Hypothesis Hfloor : g_floor g <= max_u64.
Hypothesis Hnext : nextTs (e_oracle e) <= max_u64.
Hypothesis Htime : g_time g <= now.
Hypothesis Hnow : 0 <= now.

Definition readsLog (k : bytes) : option (bytes * Z) := logRead now (g_log g) k max_u64.

(** A key is listed by its newest stored version. *)
Lemma walk_reads seek check out k : walks e seek check out -> in_scope seek check k ->
  is_Some (readsLog k) <-> exists o, o ∈ out /\ Key o = k /\ goneAt now o = false.
Proof.
  intros Hw Hk. pose proof (stored_log e g sp pd now k Hi Hfloor Htime) as Hl. unfold readsLog. split.
  - intros [? Hs]. destruct (snapshot_get (storedE e) k max_u64) as [o|] eqn:Eo; [|congruence].
    destruct (goneAt now o) eqn:Eg; [congruence|]. exists o. split; [by eapply wk_complete|]. split; [|done].
    by apply snapshot_get_Some in Eo as (_ & ? & _).
  - intros (o & Ho & <- & Eg). rewrite (wk_newest _ _ _ _ Hw o Ho Hk), Eg in Hl. destruct Hl as (u & -> & _). eauto.
Qed.

Lemma walk_value seek check out o : walks e seek check out -> in_scope seek check (Key o) -> o ∈ out -> goneAt now o = false ->
  exists u, readsLog (Key o) = Some (u, ExpiresAt o) /\ denotes (g_iss g) (Value o) u /\ o ∈ storedE e.
Proof.
  intros Hw Hk Ho Eg. pose proof (stored_log e g sp pd now (Key o) Hi Hfloor Htime) as Hl.
  rewrite (wk_newest _ _ _ _ Hw o Ho Hk), Eg in Hl. destruct Hl as (u & Hu & Hd). exists u. split; [done|]. split; [done|]. by apply (wk_from _ _ _ _ Hw).
Qed.

Lemma in_scope_all k : in_scope [] None k.
Proof. split; [by destruct k|done]. Qed.

(** [ScanKeys]: the keys found are those of the entries passed. *)
Definition listedKeys (pattern : bytes) (l : list Entry) : list bytes :=
  Key <$> filter (fun o => Key o <> [] /\ (liveAt now o && globOk pattern (Key o)) = true) l.

Lemma listedKeys_snoc pattern l x : listedKeys pattern (l ++ [x]) =
  listedKeys pattern l ++ (if decide (Key x <> [] /\ (liveAt now x && globOk pattern (Key x)) = true) then [Key x] else []).
Proof. unfold listedKeys. rewrite filter_app, fmap_app, filter_cons, filter_nil. by case_decide. Qed.

Lemma ScanKeys_lists pattern :
  runs (ScanKeys xxhash now pattern) e (fun keys e' => calm e e' g sp pd n /\ exists out, walks e [] None out /\ keys = listedKeys pattern out).
Proof.
  unfold ScanKeys. run_get. set (h := buildMergedIterator xxhash e []).
  pose proof (iter_walks e g sp pd [] None Hi Hnext) as Hw. change (buildMergedIteratorFiltered xxhash e [] None) with h in Hw.
  set (out := (mergedLoop itemHeap_Less (length (stream h)) h).1) in Hw.
  apply (runs_step _ _ _ (fun r e' => calm e e' g sp pd n /\ r.1 = listedKeys pattern out)).
  2:{ intros [keys prev] e' [Hc ->]. apply runs_ret. eauto. }
  apply (scanLoop_runs _ (fun l st e' => exists done, out = done ++ l /\ calm e e' g sp pd n /\
    st.1 = listedKeys pattern done /\ st.2 = default [] (last (Key <$> done)))).
  - intros l st e' stats (d & H1 & H2 & H3). exists d. split; [done|]. split; [by apply calm_stats|done].
  - intros x l [keys prev] e' (d & Ed & Hc & Hk & Hp). cbn [fst snd] in *. unfold keysBody.
    assert (forall b, bytes_eqb (Key x) prev = b -> b = bytes_eqb (Key x) []) as Hprev.
    { intros b <-. pose proof (wk_sorted _ _ _ _ Hw) as Hs. rewrite Ed, fmap_app in Hs. subst prev.
      destruct (last (Key <$> d)) as [k|] eqn:El; [|done]. change (default [] (Some k)) with k. apply last_Some in El as [d' Ed']. rewrite Ed' in Hs.
      rewrite <- app_assoc in Hs. apply StronglySorted_app in Hs as (_ & Hs & _). apply StronglySorted_inv in Hs as [_ Hx]. cbn in Hx.
      apply Forall_cons in Hx as [Hx _]. rewrite (proj2 (bytes_eqb_false (Key x) k)); [|intros Ek; rewrite Ek in Hx; by apply bytes_lt_irrefl in Hx].
      symmetry. apply bytes_eqb_false. intros Hnil. rewrite Hnil in Hx. by destruct k. }
    assert (default [] (last (Key <$> d ++ [x])) = Key x) as Hlast by (rewrite fmap_app; cbn [fmap list_fmap]; by rewrite last_snoc).
    destruct (bytes_eqb (Key x) prev) eqn:Ep; specialize (Hprev _ eq_refl); apply runs_ret; cbn [fst snd]; exists (d ++ [x]);
      rewrite Hlast, listedKeys_snoc; (split; [by rewrite Ed, <- app_assoc|]); (split; [done|]).
    + symmetry in Hprev. apply bytes_eqb_spec in Hprev, Ep. rewrite decide_False by tauto. rewrite app_nil_r. split; [done|congruence].
    + symmetry in Hprev. apply bytes_eqb_false in Hprev. split; [|done]. rewrite Hk. destruct (liveAt now x && globOk pattern (Key x)).
      * by rewrite decide_True.
      * rewrite decide_False by (intros [_ ?]; done). by rewrite app_nil_r.
  - intros [keys prev] e' (d & Ed & Hc & Hk & _). rewrite app_nil_r in Ed. by subst d.
  - exists []. split; [done|]. split; [by apply calm_refl|done].
Qed.

Lemma ScanKeys_runs pattern :
  runs (ScanKeys xxhash now pattern) e (fun keys e' => calm e e' g sp pd n /\ StronglySorted bytes_lt keys /\
    forall k, k ∈ keys <-> k <> [] /\ glob_matches pattern k /\ exists v x, readsLog k = Some (v, x) /\ 0 <= x).
Proof.
  eapply runs_mono; [apply ScanKeys_lists|]. intros keys e' (Hc & out & Hw & ->). split; [done|]. unfold listedKeys. split.
  { apply sorted_keys_filter, Hw. }
  intros k. rewrite list_elem_of_fmap. setoid_rewrite list_elem_of_filter. setoid_rewrite andb_true_iff. setoid_rewrite globOk_spec. split.
  - intros (o & -> & (Hne & Hl & Hg) & Ho). split; [done|]. split; [done|]. apply liveAt_gone in Hl as [Hgone Hx]; [|done].
    destruct (walk_value [] None out o Hw (in_scope_all _) Ho Hgone) as (u & Hu & _). eauto.
  - intros (Hne & Hg & v & x & Hr & Hx). assert (is_Some (readsLog k)) as Hs by (by rewrite Hr).
    apply (walk_reads [] None out k Hw (in_scope_all k)) in Hs as (o & Ho & <- & Hgone). exists o. split; [done|]. split; [|done].
    split; [done|]. split; [|done]. apply liveAt_gone; [done|]. split; [done|].
    destruct (walk_value [] None out o Hw (in_scope_all _) Ho Hgone) as (u & Hu & _). rewrite Hr in Hu. by injection Hu as _ ->.
Qed.

(** *** [getByPrefix] *)

Lemma prefix_scope prefix k : has_prefix prefix k = true -> in_scope prefix (prefixFilterKey prefix) k.
Proof.
  intros [r ->]%has_prefix_spec. split; [apply bytes_le_app|]. intros p. unfold prefixFilterKey.
  destruct (_ && _) eqn:E; [|done]. intros [= <-]. bool_prop. by apply ExtractPrefix_extends.
Qed.

(** The map read so far holds what the entries passed are read as. *)
Definition prefix_result (prefix : bytes) (l : list Entry) (m : gmap bytes bytes) : Prop :=
  forall k v, m !! k = Some v <-> exists o, o ∈ l /\ Key o = k /\ liveAt now o = true /\ readsLog k = Some (v, ExpiresAt o).

Lemma prefix_result_final prefix out l m : walks e prefix (prefixFilterKey prefix) out -> (exists r, out = l ++ r /\
    forall o, o ∈ r -> has_prefix prefix (Key o) = false) -> (forall o, o ∈ l -> has_prefix prefix (Key o) = true) ->
  prefix_result prefix l m ->
  forall k v, m !! k = Some v <-> has_prefix prefix k = true /\ exists x, readsLog k = Some (v, x) /\ 0 <= x.
Proof.
  intros Hw (r & Eout & Hr) Hl Hm k v. rewrite (Hm k v). split.
  - intros (o & Ho & <- & Hlive & Hread). split; [by apply Hl|]. exists (ExpiresAt o). split; [done|]. by apply liveAt_gone in Hlive as [_ ?].
  - intros (Hp & x & Hread & Hx). assert (is_Some (readsLog k)) as Hs by (by rewrite Hread).
    apply (walk_reads _ _ _ _ Hw (prefix_scope _ _ Hp)) in Hs as (o & Ho & <- & Hg). exists o.
    destruct (walk_value _ _ _ o Hw (prefix_scope _ _ Hp) Ho Hg) as (u & Hu & _). rewrite Hread in Hu. injection Hu as <- ->.
    split_and!; [|done|by apply liveAt_gone|done]. rewrite Eout in Ho. apply elem_of_app in Ho as [Ho|Ho]; [done|].
    rewrite (Hr o Ho) in Hp. done.
Qed.

Lemma getByPrefix_runs prefix :
  runs (getByPrefix aesEncrypt xxhash now prefix) e (fun m e' => calm e e' g sp pd n /\
    forall k v, m !! k = Some v <-> has_prefix prefix k = true /\ exists x, readsLog k = Some (v, x) /\ 0 <= x).
Proof.
  unfold getByPrefix. run_get. set (check := prefixFilterKey prefix). set (h := buildMergedIteratorFiltered xxhash e prefix check).
  pose proof (iter_walks e g sp pd prefix check Hi Hnext) as Hw. fold h in Hw. set (out := (mergedLoop itemHeap_Less (length (stream h)) h).1) in Hw.
  apply (scanLoop_runs _ (fun l m e' => calm e e' g sp pd n /\ exists d, out = d ++ l /\
    (forall o, o ∈ d -> has_prefix prefix (Key o) = true) /\ prefix_result prefix d m)).
  - intros l m e' stats [Hc H]. split; [by apply calm_stats|done].
  - intros x l m e' (Hc & d & Ed & Hd & Hm). unfold prefixBody. destruct (has_prefix prefix (Key x)) eqn:Ep; cbn [negb].
    + assert (x ∈ out) as Hx by (rewrite Ed; set_solver).
      assert (forall o, o ∈ d ++ [x] -> has_prefix prefix (Key o) = true) as Hd' by (intros o [?| ->%list_elem_of_singleton]%elem_of_app; auto).
      assert (out = (d ++ [x]) ++ l) as Ed' by (by rewrite <- app_assoc).
      destruct (liveAt now x) eqn:Elive.
      * pose proof (proj1 (liveAt_gone now x Hnow) Elive) as [Hg _].
        destruct (walk_value _ _ _ x Hw (prefix_scope _ _ Ep) Hx Hg) as (u & Hu & Hden & Hso).
        apply (runs_step _ _ _ _ _ (resolveRaw_runs e e' g sp pd n x u Hc Hso Hden)). intros v e'' [-> Hc']. apply runs_ret. cbn [fst snd].
        split; [done|]. exists (d ++ [x]). split; [done|]. split; [done|]. intros k v. destruct (decide (k = Key x)) as [->|Hk].
        -- rewrite lookup_insert_eq. split; [intros [= <-]; exists x; set_solver|]. intros (o & _ & _ & _ & Hread). congruence.
        -- rewrite lookup_insert_ne by done. rewrite (Hm k v). split; intros (o & Ho & Hk' & Hrest); exists o; (split; [|done]); [set_solver|].
           apply elem_of_app in Ho as [Ho| ->%list_elem_of_singleton]; [done|congruence].
      * apply runs_ret. cbn [fst snd]. split; [done|]. exists (d ++ [x]). split; [done|]. split; [done|]. intros k v. rewrite (Hm k v).
        split; intros (o & Ho & Hk' & Hlive & Hrest); exists o; (split; [|done]); [set_solver|].
        apply elem_of_app in Ho as [Ho| ->%list_elem_of_singleton]; [done|congruence].
    + apply runs_ret. cbn [fst snd]. split; [done|]. apply (prefix_result_final prefix out d m Hw); [|done|done].
      exists (x :: l). split; [done|]. apply (prefix_ended prefix); [|done|].
      * pose proof (wk_sorted _ _ _ _ Hw) as Hs. rewrite Ed, fmap_app in Hs. by apply StronglySorted_app in Hs as (_ & Hs & _).
      * apply (wk_from _ _ _ _ Hw). rewrite Ed. set_solver.
  - intros m e' (Hc & d & Ed & Hd & Hm). split; [done|]. apply (prefix_result_final prefix out d m Hw); [|done|done].
    exists []. rewrite app_nil_r in *. split; [done|]. by intros o ?%elem_of_nil.
  - split; [by apply calm_refl|]. exists []. split; [done|]. split; [by intros o ?%elem_of_nil|].
    intros k v. rewrite lookup_empty. split; [done|]. intros (o & ?%elem_of_nil & _). done.
Qed.

(** *** Logical names *)

Definition names (o : Entry) (nm : bytes) : Prop := goneAt now o = false /\ logicalKey (Key o) = nm /\ nm <> [].

(** The names that live keys have. *)
Definition liveName (nm : bytes) : Prop := nm <> [] /\ exists k, logicalKey k = nm /\ is_Some (readsLog k).

Lemma walk_names out nm : walks e [] None out -> (exists o, o ∈ out /\ names o nm) <-> liveName nm.
Proof.
  intros Hw. unfold names, liveName. split.
  - intros (o & Ho & Hg & Hn & Hne). split; [done|]. exists (Key o). split; [done|].
    apply (walk_reads [] None out _ Hw (in_scope_all _)). eauto.
  - intros (Hne & k & Hn & Hs). apply (walk_reads [] None out _ Hw (in_scope_all _)) in Hs as (o & Ho & <- & Hg). eauto.
Qed.

(** Names seen and names listed after passing the entries [d]. *)
Record listed (pattern : bytes) (d : list Entry) (sn : gset bytes) (keys : list bytes) : Prop := {
  ls_seen : forall nm, nm ∈ sn <-> exists o, o ∈ d /\ names o nm;
  ls_keys : forall nm, nm ∈ keys <-> nm ∈ sn /\ glob_matches pattern nm;
  ls_nodup : NoDup keys;
}.

Lemma listed_nil pattern : listed pattern [] ∅ [].
Proof. split; [|set_solver|constructor]. intros nm. split; [set_solver|]. intros (o & ?%elem_of_nil & _). done. Qed.

Lemma listed_skip pattern d sn keys x : listed pattern d sn keys ->
  goneAt now x = true \/ logicalKey (Key x) = [] \/ logicalKey (Key x) ∈ sn -> listed pattern (d ++ [x]) sn keys.
Proof.
  intros [H1 H2 H3] Hx. split; [|done|done]. intros nm. rewrite (H1 nm). split.
  - intros (o & Ho & Hn). exists o. split; [set_solver|done].
  - intros (o & [Ho| ->%list_elem_of_singleton]%elem_of_app & Hn); [eauto|]. destruct Hn as (Hg & Hn & Hne).
    destruct Hx as [Hx|[Hx|Hx]]; [congruence|congruence|]. apply H1. congruence.
Qed.

Lemma listed_add pattern d sn keys x (nm := logicalKey (Key x)) : listed pattern d sn keys ->
  goneAt now x = false -> nm <> [] -> nm ∉ sn ->
  listed pattern (d ++ [x]) ({[nm]} ∪ sn) (if globOk pattern nm then keys ++ [nm] else keys).
Proof.
  intros [H1 H2 H3] Hg Hne Hn. split.
  - intros m. rewrite elem_of_union, elem_of_singleton, (H1 m). split.
    + intros [->|(o & Ho & Hm)]; [exists x|exists o]; (split; [set_solver|done]).
    + intros (o & [Ho| ->%list_elem_of_singleton]%elem_of_app & Hm); [eauto|]. left. by destruct Hm as (_ & <- & _).
  - intros m. pose proof (globOk_spec pattern nm) as Hgl. destruct (globOk pattern nm).
    + rewrite elem_of_app, list_elem_of_singleton, (H2 m). split; [|set_solver]. intros [?| ->]; [set_solver|]. split; [set_solver|]. by apply Hgl.
    + rewrite (H2 m), elem_of_union, elem_of_singleton. split; [tauto|]. intros [[->|?] Hm]; [|done]. by apply Hgl in Hm.
  - destruct (globOk pattern nm); [|done]. apply NoDup_app. split; [done|]. split; [|apply NoDup_singleton].
    intros m Hm ->%list_elem_of_singleton. by apply H2 in Hm as [Hm _].
Qed.

Lemma walk_prev out d x l : walks e [] None out -> out = d ++ x :: l -> last (Key <$> d) <> Some (Key x).
Proof.
  intros Hw -> El. pose proof (wk_sorted _ _ _ _ Hw) as Hs. rewrite fmap_app in Hs. apply StronglySorted_app in Hs as (_ & _ & Hs).
  apply (bytes_lt_irrefl (Key x)), Hs; [|by left]. by apply last_Some_elem_of.
Qed.

Lemma ScanAllKeys_runs pattern :
  runs (ScanAllKeys xxhash now pattern) e (fun keys e' => calm e e' g sp pd n /\ StronglySorted bytes_lt keys /\
    forall nm, nm ∈ keys <-> liveName nm /\ glob_matches pattern nm).
Proof.
  unfold ScanAllKeys. run_get. set (h := buildMergedIterator xxhash e []).
  pose proof (iter_walks e g sp pd [] None Hi Hnext) as Hw. change (buildMergedIteratorFiltered xxhash e [] None) with h in Hw.
  set (out := (mergedLoop itemHeap_Less (length (stream h)) h).1) in Hw.
  apply (runs_step _ _ _ (fun r e' => calm e e' g sp pd n /\ listed pattern out r.1.1 r.1.2)).
  2:{ intros [[sn keys] prev] e' [Hc Hl]. apply runs_ret. split; [done|]. cbn [fst snd] in *. destruct (sortStrings_spec keys) as [Hp Hs].
      split; [apply Hs, (ls_nodup _ _ _ _ Hl)|]. intros nm. rewrite Hp, (ls_keys _ _ _ _ Hl), (ls_seen _ _ _ _ Hl), (walk_names out) by done. done. }
  apply (scanLoop_runs _ (fun l st e' => calm e e' g sp pd n /\ exists d, out = d ++ l /\ listed pattern d st.1.1 st.1.2 /\
    st.2 = last (Key <$> d))).
  - intros l st e' stats (H1 & H2). split; [by apply calm_stats|done].
  - intros x l [[sn keys] prev] e' (Hc & d & Ed & Hl & Hp). cbn [fst snd] in *. unfold allKeysBody.
    rewrite bool_decide_eq_false_2 by (rewrite Hp; by eapply walk_prev).
    assert (forall sn' keys', listed pattern (d ++ [x]) sn' keys' ->
      calm e e' g sp pd n /\ exists d, out = d ++ l /\ listed pattern d sn' keys' /\ Some (Key x) = last (Key <$> d)) as Hdone.
    { intros sn' keys' Hl'. split; [done|]. exists (d ++ [x]). split; [by rewrite Ed, <- app_assoc|]. split; [done|].
      rewrite fmap_app. cbn [fmap list_fmap]. by rewrite last_snoc. }
    destruct (goneAt now x) eqn:Eg; [apply runs_ret, Hdone, listed_skip; auto|].
    destruct (bytes_eqb (logicalKey (Key x)) []) eqn:En; [apply bytes_eqb_spec in En; apply runs_ret, Hdone, listed_skip; auto|].
    apply bytes_eqb_false in En. cbn [orb]. case_bool_decide as Hin; [apply runs_ret, Hdone, listed_skip; auto|].
    apply runs_ret, Hdone. by apply listed_add.
  - intros [[sn keys] prev] e' (Hc & d & Ed & Hl & _). rewrite app_nil_r in Ed. by subst d.
  - split; [by apply calm_refl|]. exists []. split; [done|]. split; [apply listed_nil|done].
Qed.
End results.
End scans.
