(* ===== verification/ScanPages.v ===== *)
(** * A full SCAN

    [ScanPage] hands out the names page by page.  Where no stored key defeats
    its way of skipping collections ([scannable]), a client that follows the
    cursors gets every name a live key has, and comes to the end. *)
From Stdlib Require Import Bool.
From S2P Require Import Prelude Mvcc Oracle Bloom SkipList Heap Iterator Encoding Threshold Registry Framing Wal Vlog Values VlogSpec SstBlock SstTable Compaction Engine EngineInv EngineSteps Glob Scan ScanSpec.

(** ** Cursors *)

Lemma hexValue_digit d : 0 <= d < 16 -> hexValue (hexDigit d) = Some d.
Proof.
  intros Hd. unfold hexDigit, hexValue. destruct (Z.ltb_spec d 10).
  - rewrite (proj2 (Z.leb_le 48 (48 + d))), (proj2 (Z.leb_le (48 + d) 57)) by lia. f_equal. lia.
  - rewrite (proj2 (Z.leb_gt (87 + d) 57)), (proj2 (Z.leb_le 97 (87 + d))), (proj2 (Z.leb_le (87 + d) 102)), andb_false_r by lia.
    cbn. f_equal. lia.
Qed.

Lemma hexDecode_encode b : wf_bytes b -> hexDecode (hexEncode b) = Some b.
Proof.
  induction 1 as [|x b Hx Hb IH]; [done|]. unfold is_u8 in Hx.
  change (hexEncode (x :: b)) with (hexDigit (x / 16) :: hexDigit (x mod 16) :: hexEncode b). cbn [hexDecode].
  rewrite !hexValue_digit by (try apply Z.mod_pos_bound; try (split; [apply Z.div_pos|apply Z.div_lt_upper_bound]); lia).
  rewrite IH. cbn [mbind option_bind]. do 2 f_equal. symmetry. apply Z.div_mod. lia.
Qed.

Lemma cursorSeek_encode k : k <> [] -> wf_bytes k -> cursorSeek (hexEncode k) = Some k /\ hexEncode k <> [48].
Proof.
  intros Hne Hk. destruct k as [|x k]; [done|]. unfold cursorSeek. rewrite !(proj2 (bytes_eqb_false _ _)) by done.
  split; [by apply hexDecode_encode|done].
Qed.

(** ** Skipping a collection *)

(** A stored key the paging copes with: a string key has no NUL in its name,
    and no field of a collection starts with the byte 0xFF. *)
Definition scannable (k : bytes) : Prop :=
  k <> [] /\ wf_bytes k /\
  match k with
  | c :: z :: rest => z = 0 -> forall i, indexNul rest = Some i -> c <> 115 /\ rest !! (i + 1)%nat <> Some 255
  | _ => True
  end.

Lemma indexNul_Some s i : indexNul s = Some i -> s = take i s ++ 0 :: drop (i + 1) s /\ 0 ∉ take i s.
Proof.
  revert i. induction s as [|c s IH]; intros i; cbn [indexNul]; [done|]. destruct (Z.eqb_spec c 0) as [->|Hc].
  - intros [= <-]. split; [done|apply not_elem_of_nil].
  - destruct (indexNul s) as [j|]; [|done]. intros [= <-]. destruct (IH j eq_refl) as [E Hn]. cbn. split; [by f_equal|].
    rewrite not_elem_of_cons. done.
Qed.

Lemma indexNul_app p r : 0 ∉ p -> indexNul (p ++ 0 :: r) = Some (length p).
Proof.
  induction p as [|c p IH]; intros Hn; [done|]. rewrite not_elem_of_cons in Hn. cbn. destruct (Z.eqb_spec c 0); [naive_solver|].
  by rewrite IH by tauto.
Qed.

Lemma logicalKey_field c name r : (c =? 104) || (c =? 116) || (c =? 108) || (c =? 122) || (c =? 98) = true -> 0 ∉ name ->
  logicalKey (c :: 0 :: name ++ 0 :: r) = name.
Proof.
  intros Hc Hn. cbn [logicalKey]. cbn [negb Z.eqb]. rewrite Hc. destruct (Z.eqb_spec c 115) as [->|]; [done|].
  by rewrite indexNul_app, take_app_length by done.
Qed.

(** What is skipped has the name that was just listed. *)
Lemma resume_covers k : scannable k -> logicalKey k <> [] -> (2 < length k)%nat -> k !! 1%nat = Some 0 ->
  bytes_le k (collectionResumeKey k) /\
  forall k', bytes_le k k' -> ~ bytes_le (collectionResumeKey k) k' -> logicalKey k' = logicalKey k.
Proof.
  intros (_ & Hwf & Hsc) Hname Hlen H1. destruct k as [|c [|z rest]]; [done|done|]. injection H1 as ->. unfold collectionResumeKey. cbn [drop]. rewrite drop_0.
  destruct (indexNul rest) as [i|] eqn:Ei; [|split; [apply bytes_le_refl|done]].
  destruct (Hsc eq_refl i eq_refl) as [Hs Hff]. destruct (indexNul_Some _ _ Ei) as [Er Hn].
  set (name := take i rest) in *. set (t := drop (i + 1) rest) in *.
  assert (length name = i) as Hi.
  { apply (f_equal length) in Er. subst name. rewrite length_app, length_take in Er. cbn in Er. rewrite length_take. lia. }
  assert ((c =? 104) || (c =? 116) || (c =? 108) || (c =? 122) || (c =? 98) = true) as Hc.
  { cbn [logicalKey] in Hname. apply Z.eqb_neq in Hs. rewrite Hs in Hname. by destruct (_ || _). }
  assert (take (i + 3) (c :: 0 :: rest) = c :: 0 :: name ++ [0]) as ->.
  { rewrite Er. replace (i + 3)%nat with (S (S (length name + 1))) by lia. cbn. by rewrite take_app_add. }
  set (p := c :: 0 :: name ++ [0]). assert (c :: 0 :: rest = p ++ t) as Ek by (rewrite Er; subst p; cbn; by rewrite <- app_assoc).
  rewrite Ek. split.
  - unfold bytes_le. rewrite bytes_compare_app. destruct t as [|x t'] eqn:Et; [done|]. cbn.
    assert (x <> 255) as Hx.
    { intros ->. apply Hff. rewrite Er, lookup_app_r, Hi by lia. replace (i + 1 - i)%nat with 1%nat by lia. done. }
    assert (0 <= x < 256) as Hb.
    { rewrite Ek in Hwf. apply Forall_app in Hwf as [_ Hwf]. by apply Forall_cons in Hwf as [? _]. }
    by rewrite (proj2 (Z.compare_lt_iff x 255)) by lia.
  - intros k' Hle Hnot. assert (has_prefix p k' = true) as [r ->]%has_prefix_spec.
    { apply (prefix_between p k' (p ++ [255])).
      - eapply bytes_le_trans; [|exact Hle]. apply bytes_le_app.
      - destruct (bytes_lt_trichotomy k' (p ++ [255])) as [H|[->|H]]; [done|by destruct Hnot; apply bytes_le_refl|].
        destruct Hnot. by apply bytes_lt_le.
      - apply has_prefix_spec. eauto. }
    assert (forall r, logicalKey (p ++ r) = name) as Hlk.
    { intros r'. subst p. cbn [app]. rewrite <- app_assoc. by apply logicalKey_field. }
    by rewrite !Hlk.
Qed.

(** ** Sorted entries *)

(** Entries sorted by key split where an upward-closed set of keys starts. *)
Lemma split_at_first (P : Entry -> Prop) `{forall o, Decision (P o)} l :
  StronglySorted bytes_lt (Key <$> l) -> (forall a b, bytes_lt (Key a) (Key b) -> P a -> P b) ->
  exists d r, l = d ++ r /\ (forall o, o ∈ d -> ~ P o) /\ (forall o, o ∈ r -> P o).
Proof.
  intros Hs Hup. induction l as [|x l IH].
  { exists [], []. split; [done|]. split; by intros o ?%elem_of_nil. }
  cbn in Hs. apply StronglySorted_inv in Hs as [Hs Hx]. rewrite Forall_fmap, Forall_forall in Hx. destruct (decide (P x)) as [Hp|Hp].
  - exists [], (x :: l). split; [done|]. split; [by intros o ?%elem_of_nil|]. intros o [->|Ho]%elem_of_cons; [done|]. by apply (Hup x o); [apply Hx|].
  - destruct (IH Hs) as (d & r & -> & Hd & Hr). exists (x :: d), r. split; [done|]. split; [|done]. intros o [->|Ho]%elem_of_cons; auto.
Qed.

(** A stronger filter that loses an element is shorter. *)
Lemma filter_shrinks {A} (P Q : A -> Prop) `{forall x, Decision (P x), forall x, Decision (Q x)} (l : list A) x :
  (forall y, P y -> Q y) -> x ∈ l -> Q x -> ~ P x -> (length (filter P l) < length (filter Q l))%nat.
Proof.
  intros HPQ Hx HQ HP. assert (forall l, length (filter P l) <= length (filter Q l))%nat as Hle.
  { induction l0 as [|y l0 IH]; [done|]. rewrite !filter_cons. repeat case_decide; cbn; try lia. naive_solver. }
  induction l as [|y l IH]; [by apply elem_of_nil in Hx|]. rewrite !filter_cons. apply elem_of_cons in Hx as [->|Hx].
  - rewrite decide_False, decide_True by done. cbn. specialize (Hle l). lia.
  - specialize (IH Hx). repeat case_decide; cbn; try lia. naive_solver.
Qed.

Lemma filter_nil_not_elem_of {A} (P : A -> Prop) `{forall x, Decision (P x)} (l : list A) : (forall x, P x -> x ∈ l -> False) -> filter P l = [].
Proof.
  induction l as [|x l IH]; intros Hl; [done|]. rewrite filter_cons, decide_False by (intros Hx; by apply (Hl x); [|left]).
  apply IH. intros y Hy Hin. by apply (Hl y); [|right].
Qed.

Lemma sorted_NoDup {A} (R : A -> A -> Prop) (l : list A) : (forall x, ~ R x x) -> StronglySorted R l -> NoDup l.
Proof.
  intros HR. induction 1 as [|x l Hl IH Hx]; constructor; [|done]. intros Hin. apply (HR x). by apply (proj1 (Forall_forall _ _) Hx).
Qed.

(** ** One page *)

Section pages.
Context (aesEncrypt : bytes -> bytes -> bytes) (xxhash : bytes -> Z) (reg : option KeyRegistry).
Context (e : Engine) (g : Ghost) (sp : list ValuePointer) (pd : list Z) (n now : Z).
Hypothesis Hi : eng_inv aesEncrypt reg e g sp pd.
Hypothesis Hnext : nextTs (e_oracle e) <= max_u64.
Notation quiet e' := (calm aesEncrypt reg e e' g sp pd n).

(** All a scan would deliver. *)
Definition Out : list Entry := remaining (buildMergedIterator xxhash e []).
Hypothesis Hscan : forall o, o ∈ Out -> scannable (Key o).

Lemma Out_walks : walks e [] None Out.
Proof. exact (iter_walks aesEncrypt xxhash reg e g sp pd [] None Hi Hnext). Qed.

(** There are no more of them than stored entries. *)
Lemma Out_length : (length Out <= length (storedE e))%nat.
Proof.
  apply submseteq_length, NoDup_submseteq.
  - apply (NoDup_fmap_1 Key), (sorted_NoDup bytes_lt); [intros x; apply bytes_lt_irrefl|apply (wk_sorted _ _ _ _ Out_walks)].
  - intros o Ho. by apply (wk_from _ _ _ _ Out_walks).
Qed.

Lemma sorted_ext (l l' : list Entry) : StronglySorted bytes_lt (Key <$> l) -> StronglySorted bytes_lt (Key <$> l') ->
  (forall o, o ∈ l <-> o ∈ l') -> l = l'.
Proof.
  revert l'. induction l as [|x l IH]; intros [|y l'] Hs Hs' Hin; [done|exfalso; by apply (elem_of_nil y), Hin; left|
    exfalso; by apply (elem_of_nil x), Hin; left|].
  cbn in Hs, Hs'. apply StronglySorted_inv in Hs as [Hs Hx]. apply StronglySorted_inv in Hs' as [Hs' Hy].
  rewrite Forall_fmap, Forall_forall in Hx, Hy.
  assert (x = y) as ->.
  { assert (x ∈ y :: l') as H1 by (apply Hin; by left). assert (y ∈ x :: l) as H2 by (apply Hin; by left).
    apply elem_of_cons in H1 as [->|H1]; [done|]. apply elem_of_cons in H2 as [->|H2]; [done|].
    destruct (bytes_lt_asym _ _ (Hx y H2) (Hy x H1)). }
  f_equal. apply IH; [done|done|]. intros o. specialize (Hin o). rewrite !elem_of_cons in Hin. split; intros Ho.
  - destruct (proj1 Hin (or_intror Ho)) as [->|]; [|done]. destruct (bytes_lt_irrefl _ (Hx y Ho)).
  - destruct (proj2 Hin (or_intror Ho)) as [->|]; [|done]. destruct (bytes_lt_irrefl _ (Hy y Ho)).
Qed.

Lemma build_calm e' seek : quiet e' -> buildMergedIterator xxhash e' seek = buildMergedIterator xxhash e seek.
Proof.
  intros []. unfold buildMergedIterator, buildMergedIteratorFiltered, scanPriorities, scanSources, scannedTables.
  by rewrite cm_mem, cm_imm, cm_lsm.
Qed.

(** A new iterator delivers the entries from its key on. *)
Lemma iter_remaining e' seek (h := buildMergedIterator xxhash e' seek) : quiet e' ->
  heap_ok itemHeap_Less key_le h /\ remaining h = filter (fun o => bytes_le seek (Key o)) Out.
Proof.
  intros Hc. subst h. rewrite (build_calm _ _ Hc). destruct (sources_spec aesEncrypt xxhash reg e g sp pd seek None Hi) as (Hs & _ & _).
  split; [by apply (NewMergedIterator_spec (scanPriorities xxhash e None) _ Hs)|].
  pose proof (iter_walks aesEncrypt xxhash reg e g sp pd seek None Hi Hnext) as Hw. fold (buildMergedIterator xxhash e seek) in Hw.
  pose proof Out_walks as Hw0. fold (remaining (buildMergedIterator xxhash e seek)) in Hw. apply sorted_ext; [apply Hw| |].
  - apply sorted_keys_filter, Hw0.
  - intros o. rewrite list_elem_of_filter. split.
    + intros Ho. destruct (wk_from _ _ _ _ Hw o Ho) as [_ Hk]. split; [done|].
      apply (wk_complete _ _ _ _ Hw0 (Key o) o (in_scope_all (Key o))). by apply (wk_newest _ _ _ _ Hw o Ho).
    + intros [Hk Ho]. apply (wk_complete _ _ _ _ Hw (Key o) o); [done|]. by apply (wk_newest _ _ _ _ Hw0 o Ho (in_scope_all _)).
Qed.

Definition iter_at (it : option Entry * list heapItem) (L : list Entry) : Prop :=
  match it with
  | (None, _) => L = []
  | (Some x, h) => L = x :: remaining h /\ heap_ok itemHeap_Less key_le h
  end.

Lemma iterNext_runs h e' : heap_ok itemHeap_Less key_le h -> quiet e' ->
  runs (iterNext h) e' (fun it e'' => quiet e'' /\ iter_at it (remaining h)).
Proof.
  intros Hok Hc. unfold iterNext. pose proof (remaining_next h Hok) as Hr.
  destruct (mergedNext itemHeap_Less h) as [[[x d] h']|]; [|by apply runs_ret].
  apply runs_bind. unfold reportDiscards. run_get. apply runs_putE, runs_ret. split; [by apply calm_stats|done].
Qed.

(** *** The loop *)

Context (pattern seek : bytes) (count budget : Z).

(** Names listed once the entries [d] behind the cursor are passed. *)
Record page_ok (d : list Entry) (pg : Page) : Prop := {
  po_seen : forall nm, nm ∈ pg_seen pg -> exists o, o ∈ Out /\ names now o nm;
  po_cover : forall o nm, o ∈ d -> bytes_lt seek (Key o) -> names now o nm -> nm ∈ pg_seen pg;
  po_keys : forall nm, nm ∈ pg_names pg <-> nm ∈ pg_seen pg /\ glob_matches pattern nm;
  po_nodup : NoDup (pg_names pg);
  po_scanned : 0 <= pg_scanned pg;
}.

Lemma page_pass d pg x : page_ok d pg -> Key x = seek \/ goneAt now x = true \/ logicalKey (Key x) = [] \/ logicalKey (Key x) ∈ pg_seen pg ->
  page_ok (d ++ [x]) pg.
Proof.
  intros [H1 H2 H3 H4 H5] Hx. split; try done. intros o nm [Ho| ->%list_elem_of_singleton]%elem_of_app Hlt Hn; [by apply (H2 o)|].
  destruct Hn as (Hg & Hn & Hne). destruct Hx as [Hx|[Hx|[Hx|Hx]]]; [|congruence..].
  rewrite Hx in Hlt. by apply bytes_lt_irrefl in Hlt.
Qed.

Lemma page_last d pg k : page_ok d pg -> page_ok d (mkPage (pg_seen pg) (pg_names pg) k (pg_scanned pg + 1)).
Proof. intros [H1 H2 H3 H4 H5]. split; cbn; try done. lia. Qed.

(** A name is listed; everything passed with it has that name. *)
Lemma page_list d d' pg x k (nm := logicalKey (Key x)) : page_ok d pg -> x ∈ Out -> goneAt now x = false -> nm <> [] -> nm ∉ pg_seen pg ->
  (forall o, o ∈ d' -> logicalKey (Key o) = nm) ->
  page_ok (d ++ d') (mkPage ({[nm]} ∪ pg_seen pg) (if globOk pattern nm then pg_names pg ++ [nm] else pg_names pg) k (pg_scanned pg + 1)).
Proof.
  intros [H1 H2 H3 H4 H5] Hx Hg Hne Hn Hd. pose proof (globOk_spec pattern nm) as Hgl. split; cbn [pg_seen pg_names pg_scanned]; [| | | |lia].
  - intros m [->%elem_of_singleton|Hm]%elem_of_union; [by exists x|auto].
  - intros o m [Ho|Ho]%elem_of_app Hlt Hm; [|destruct Hm as (_ & <- & _); rewrite (Hd o Ho); set_solver].
    apply elem_of_union. right. by apply (H2 o).
  - intros m. destruct (globOk pattern nm).
    + rewrite elem_of_app, list_elem_of_singleton, (H3 m). split; [|set_solver]. intros [?| ->]; [set_solver|]. split; [set_solver|]. by apply Hgl.
    + rewrite (H3 m), elem_of_union, elem_of_singleton. split; [tauto|]. intros [[->|?] Hm]; [|done]. by apply Hgl in Hm.
  - destruct (globOk pattern nm); [|done]. apply NoDup_app. split; [done|]. split; [|apply NoDup_singleton].
    intros m Hm ->%list_elem_of_singleton. by apply H3 in Hm as [Hm _].
Qed.

(** Seeking anew drops entries of the listed name, and no others. *)
Lemma reseek d x l : Out = d ++ x :: l -> logicalKey (Key x) <> [] -> (2 < length (Key x))%nat -> Key x !! 1%nat = Some 0 ->
  exists d' l', x :: l = d' ++ l' /\ filter (fun o => bytes_le (collectionResumeKey (Key x)) (Key o)) Out = l' /\
    forall o, o ∈ d' -> logicalKey (Key o) = logicalKey (Key x).
Proof.
  intros Eout Hname Hlen H1. assert (scannable (Key x)) as Hsc by (apply Hscan; rewrite Eout; set_solver).
  destruct (resume_covers (Key x) Hsc Hname Hlen H1) as [Hle Hcov]. set (r := collectionResumeKey (Key x)) in *.
  pose proof (wk_sorted _ _ _ _ Out_walks) as Hs. rewrite Eout, fmap_app in Hs. apply StronglySorted_app in Hs as (_ & Hs & Hcross).
  assert (filter (fun o => bytes_le r (Key o)) d = []) as Hd.
  { apply filter_nil_not_elem_of. intros o Hk Ho. assert (bytes_lt (Key o) (Key x)) as Hlt.
    { apply Hcross; [by apply list_elem_of_fmap_2|]. by left. }
    apply (bytes_lt_irrefl (Key o)). eapply bytes_lt_le_trans; [exact Hlt|]. by eapply bytes_le_trans. }
  destruct (split_at_first (fun o => bytes_le r (Key o)) (x :: l)) as (d' & l' & Hl & Hd' & Hl'); [exact Hs| |].
  { intros a b Hab Ha. eapply bytes_le_trans; [exact Ha|]. by apply bytes_lt_le. }
  exists d', l'. split; [done|]. rewrite Eout, filter_app, Hd, Hl, filter_app. split.
  - rewrite (filter_nil_not_elem_of _ d'); [by apply filter_all|]. intros o Ho Hin. by apply (Hd' o).
  - intros o Ho. apply Hcov; [|by apply Hd']. assert (o ∈ x :: l) as Hin by (rewrite Hl; set_solver).
    apply elem_of_cons in Hin as [->|Hin]; [apply bytes_le_refl|]. cbn in Hs. apply StronglySorted_inv in Hs as [_ Hs].
    rewrite Forall_fmap, Forall_forall in Hs. by apply bytes_lt_le, Hs.
Qed.

(** What is left for the fuel: an entry may be met twice, the second time with
    its name listed. *)
Definition pageMeasure (L : list Entry) (pg : Page) : nat :=
  match L with
  | [] => 0
  | x :: _ => 2 * length L - (if decide (logicalKey (Key x) ∈ pg_seen pg) then 1 else 0)
  end.

Lemma pageMeasure_le L pg : (pageMeasure L pg <= 2 * length L)%nat.
Proof. unfold pageMeasure. destruct L; lia. Qed.

(** A finished page: every name up to its last key is listed, and if the
    iterator is still valid there is more behind that key. *)
Definition page_done (r : Page * bool) (e' : Engine) : Prop :=
  quiet e' /\ exists d L, Out = d ++ L /\ page_ok d r.1 /\ r.2 = bool_decide (L <> []) /\
    (r.2 = true -> 0 < pg_scanned r.1 /\ bytes_lt seek (pg_last r.1) /\ exists d0 x, d = d0 ++ [x] /\ pg_last r.1 = Key x).

Lemma behind d x l : Out = d ++ x :: l -> forall o, o ∈ l -> bytes_lt (Key x) (Key o).
Proof.
  intros Eout o Ho. pose proof (wk_sorted _ _ _ _ Out_walks) as Hs. rewrite Eout, fmap_app in Hs.
  apply StronglySorted_app in Hs as (_ & Hs & _). rewrite fmap_cons in Hs. apply StronglySorted_inv in Hs as [_ Hs].
  rewrite Forall_fmap, Forall_forall in Hs. by apply Hs.
Qed.

(** An entry is passed without seeking anew. *)
Lemma page_step d pg x : page_ok d pg -> x ∈ Out ->
  page_ok (d ++ [x]) (
    let name := logicalKey (Key x) in
    let '(sn, nms) :=
      if negb (goneAt now x) && negb (bytes_eqb name []) && bool_decide (name ∉ pg_seen pg) then
        ({[name]} ∪ pg_seen pg, if globOk pattern name then pg_names pg ++ [name] else pg_names pg)
      else (pg_seen pg, pg_names pg) in
    mkPage sn nms (Key x) (pg_scanned pg + 1)).
Proof.
  intros Hpg Hx. cbv zeta. destruct (_ && _) eqn:E.
  - apply andb_prop in E as [E E3]. apply andb_prop in E as [E1 E2]. apply negb_true_iff in E1, E2. apply bytes_eqb_false in E2.
    apply bool_decide_eq_true in E3. apply page_list; try done. by intros o ->%list_elem_of_singleton.
  - apply page_last, page_pass; [done|]. right. destruct (goneAt now x); [auto|]. right.
    destruct (bytes_eqb (logicalKey (Key x)) []) eqn:E2; [apply bytes_eqb_spec in E2; auto|]. right. cbn in E.
    apply bool_decide_eq_false in E. by destruct (decide (logicalKey (Key x) ∈ pg_seen pg)).
Qed.

(** The end of a round: stop at the limits or go on. *)
Lemma page_round fuel d x h pg k e' :
  quiet e' -> Out = (d ++ [x]) ++ remaining h -> heap_ok itemHeap_Less key_le h -> page_ok (d ++ [x]) pg ->
  pg_last pg = Key x -> 0 < pg_scanned pg -> bytes_lt seek (Key x) -> (2 * length (remaining h) < fuel)%nat ->
  (forall it e'', quiet e'' -> iter_at it (remaining h) -> (pageMeasure (remaining h) pg < fuel)%nat -> runs (k it) e'' page_done) ->
  runs (it ← iterNext h;
        if (count <=? Z.of_nat (length (pg_names pg))) || (budget <=? pg_scanned pg) then mret (pg, bool_decide (is_Some it.1)) else k it)
    e' page_done.
Proof.
  intros Hc Eout Hok Hpg Hlast Hsc Hlt Hfuel Hk. apply (runs_step _ _ _ _ _ (iterNext_runs h e' Hok Hc)). intros it e'' [Hc' Hit].
  destruct (_ || _); [|apply Hk; try done; pose proof (pageMeasure_le (remaining h) pg); lia].
  apply runs_ret. split; [done|]. exists (d ++ [x]), (remaining h). split; [done|]. split; [done|]. cbn [fst snd]. split.
  - destruct it as [[y|] h']; cbn in *; [destruct Hit as [-> _]; by rewrite bool_decide_eq_true_2|rewrite Hit].
    by rewrite !bool_decide_eq_false_2 by (by intros [? ?] || by intros []).
  - intros _. split; [done|]. split; [by rewrite Hlast|]. eauto.
Qed.

Lemma pageLoop_runs fuel d L skip it pg e' :
  quiet e' -> Out = d ++ L -> iter_at it L -> page_ok d pg -> (pageMeasure L pg < fuel)%nat ->
  (forall o, o ∈ L -> if (skip : bool) then bytes_le seek (Key o) else bytes_lt seek (Key o)) ->
  runs (pageLoop xxhash fuel now pattern seek count budget skip it pg) e' page_done.
Proof.
  revert d L skip it pg e'. induction fuel as [|fuel IH]; intros d L skip it pg e' Hc Eout Hit Hpg Hfuel HL; [by inversion Hfuel|].
  cbn [pageLoop]. destruct it as [[x|] h]; cbn [iter_at] in Hit.
  2:{ subst L. apply runs_ret. split; [done|]. exists d, []. cbn. split; [done|]. split; [done|]. by split. }
  destruct Hit as [-> Hok]. pose proof (behind _ _ _ Eout) as Hbeh.
  assert (Out = (d ++ [x]) ++ remaining h) as Eout' by (by rewrite <- app_assoc).
  assert (x ∈ Out) as Hx by (rewrite Eout; set_solver).
  destruct (skip && bytes_eqb (Key x) seek) eqn:Esk.
  { apply andb_prop in Esk as [-> Ek]. apply bytes_eqb_spec in Ek. apply (runs_step _ _ _ _ _ (iterNext_runs h e' Hok Hc)).
    intros it' e'' [Hc' Hit']. apply (IH (d ++ [x]) (remaining h)); try done; [apply page_pass; auto| |].
    - pose proof (pageMeasure_le (remaining h) pg). unfold pageMeasure in Hfuel at 1. cbn [length] in Hfuel. case_decide; lia.
    - intros o Ho. rewrite <- Ek. by apply Hbeh. }
  assert (bytes_lt seek (Key x)) as Hlt.
  { specialize (HL x ltac:(by left)). destruct skip; [|done]. cbn in Esk. apply bytes_eqb_false in Esk.
    apply bytes_le_lt_eq in HL as [?|?]; [done|congruence]. }
  assert (forall o, o ∈ x :: remaining h -> bytes_lt seek (Key o)) as HL'.
  { intros o [->|Ho]%elem_of_cons; [done|]. eapply bytes_lt_trans; [exact Hlt|by apply Hbeh]. }
  assert (forall pg', page_ok (d ++ [x]) pg' -> pg_last pg' = Key x -> pg_scanned pg' = pg_scanned pg + 1 ->
    runs (it ← iterNext h; if (count <=? Z.of_nat (length (pg_names pg'))) || (budget <=? pg_scanned pg') then mret (pg', bool_decide (is_Some it.1))
      else pageLoop xxhash fuel now pattern seek count budget false it pg') e' page_done) as Hround.
  { intros pg' Hpg' Hl Hs. apply (page_round fuel d x h pg' (fun it => pageLoop xxhash fuel now pattern seek count budget false it pg')); try done.
    - pose proof (po_scanned _ _ Hpg). lia.
    - unfold pageMeasure in Hfuel. cbn [length] in Hfuel. case_decide; lia.
    - intros it e'' Hc' Hit Hm. apply (IH (d ++ [x]) (remaining h)); try done. intros o Ho. apply HL'. by right. }
  pose proof (page_step d pg x Hpg Hx) as Hstep. cbv zeta in Hstep. cbv zeta.
  destruct (negb (goneAt now x) && negb (bytes_eqb (logicalKey (Key x)) []) && bool_decide (logicalKey (Key x) ∉ pg_seen pg)) eqn:Enew.
  - destruct ((2 <? length (Key x))%nat && (default 1 (Key x !! 1%nat) =? 0)) eqn:Ere.
    + rewrite andb_true_l, Ere. apply andb_prop in Enew as [Enew E3]. apply andb_prop in Enew as [E1 E2].
      apply negb_true_iff in E1, E2. apply bytes_eqb_false in E2. apply bool_decide_eq_true in E3.
      apply andb_prop in Ere as [El Ez]. apply Nat.ltb_lt in El.
      assert (Key x !! 1%nat = Some 0) as Hz by (destruct (Key x !! 1%nat) as [z|]; [apply Z.eqb_eq in Ez; by f_equal|done]).
      run_get. destruct (iter_remaining e' (collectionResumeKey (Key x)) Hc) as [Hok' Hrem].
      destruct (reseek d x (remaining h) Eout E2 El Hz) as (d' & l' & Hl & Hf & Hd').
      apply (runs_step _ _ _ _ _ (iterNext_runs _ e' Hok' Hc)). intros it e'' [Hc' Hit]. rewrite Hrem, Hf in Hit.
      apply (IH (d ++ d') l'); [done|by rewrite Eout, Hl, app_assoc|done|by apply page_list| |].
      * unfold pageMeasure in Hfuel. rewrite decide_False in Hfuel by done. destruct d' as [|y d'].
        -- cbn in Hl. subst l'. unfold pageMeasure. rewrite decide_True by (cbn; set_solver). cbn [length] in *. lia.
        -- pose proof (f_equal length Hl) as Hlen. rewrite length_app in Hlen. cbn [length] in *.
           match goal with |- (pageMeasure l' ?p < _)%nat => pose proof (pageMeasure_le l' p) end. lia.
      * intros o Ho. apply HL'. rewrite Hl. set_solver.
    + rewrite andb_true_l, Ere. exact (Hround _ Hstep eq_refl eq_refl).
  - rewrite !andb_false_l. exact (Hround _ Hstep eq_refl eq_refl).
Qed.

Lemma mergedLoop_length fuel h : (length (mergedLoop itemHeap_Less fuel h).1 <= fuel)%nat.
Proof.
  revert h. induction fuel as [|f IH]; intros h; cbn [mergedLoop]; [done|]. destruct (mergedNext _ h) as [[[x d] h']|]; [|cbn; lia].
  specialize (IH h'). destruct (mergedLoop _ f h'). cbn in *. lia.
Qed.

(** The names a page hands out, and where it stopped: at the end, or at a key
    behind which there is more. *)
Definition page_result (r : option (list bytes * bytes)) (e' : Engine) : Prop :=
  quiet e' /\ exists nms next, r = Some (nms, next) /\
    (forall nm, nm ∈ nms -> glob_matches pattern nm /\ exists o, o ∈ Out /\ names now o nm) /\
    (next = [48] /\ (forall o nm, o ∈ Out -> bytes_lt seek (Key o) -> names now o nm -> glob_matches pattern nm -> nm ∈ nms) \/
     exists x, x ∈ Out /\ next = hexEncode (Key x) /\ bytes_lt seek (Key x) /\
       forall o nm, o ∈ Out -> bytes_lt seek (Key o) -> bytes_le (Key o) (Key x) -> names now o nm -> glob_matches pattern nm -> nm ∈ nms).

Lemma page_done_result d L pg valid : Out = d ++ L -> page_ok d pg -> valid = bool_decide (L <> []) ->
  (valid = true -> 0 < pg_scanned pg /\ bytes_lt seek (pg_last pg) /\ exists d0 x, d = d0 ++ [x] /\ pg_last pg = Key x) ->
  forall e', quiet e' ->
  page_result (Some (sortStrings (pg_names pg), if valid && (0 <? pg_scanned pg) then hexEncode (pg_last pg) else [48])) e'.
Proof.
  intros Eout Hpg Hv Hlast e' Hc. split; [done|]. eexists _, _. split; [done|]. destruct (sortStrings_spec (pg_names pg)) as [Hp _]. split.
  { intros nm. rewrite Hp, (po_keys _ _ Hpg). intros [Hs Hg]. split; [done|]. by apply (po_seen _ _ Hpg). }
  assert (forall o nm, o ∈ d -> bytes_lt seek (Key o) -> names now o nm -> glob_matches pattern nm -> nm ∈ sortStrings (pg_names pg)) as Hcov.
  { intros o nm Ho Hlt Hn Hg. rewrite Hp, (po_keys _ _ Hpg). split; [|done]. by apply (po_cover _ _ Hpg o). }
  destruct valid; [right|left].
  - destruct (Hlast eq_refl) as (Hs & Hlt & d0 & x & -> & El). rewrite (proj2 (Z.ltb_lt 0 (pg_scanned pg))) by done.
    exists x. rewrite <- El. split; [rewrite Eout; set_solver|]. split; [done|]. split; [done|]. intros o nm Ho Hgt Hle. apply Hcov; [|done].
    rewrite Eout in Ho. apply elem_of_app in Ho as [Ho|Ho]; [done|]. exfalso. rewrite <- app_assoc in Eout.
    pose proof (behind d0 x L Eout o Ho) as Hb. rewrite El in Hle. apply (bytes_lt_irrefl (Key x)). by eapply bytes_lt_le_trans.
  - split; [done|]. intros o nm Ho. apply Hcov. symmetry in Hv. apply bool_decide_eq_false in Hv.
    destruct L; [by rewrite app_nil_r in Eout; rewrite <- Eout|by destruct Hv].
Qed.
End pages.

Section full.
Context (aesEncrypt : bytes -> bytes -> bytes) (xxhash : bytes -> Z) (reg : option KeyRegistry).
Context (e : Engine) (g : Ghost) (sp : list ValuePointer) (pd : list Z) (n now : Z).
Hypothesis Hi : eng_inv aesEncrypt reg e g sp pd.
Hypothesis Hnext : nextTs (e_oracle e) <= max_u64.
Notation quiet e' := (calm aesEncrypt reg e e' g sp pd n).
Notation Out := (Out xxhash e).
Hypothesis Hscan : forall o, o ∈ Out -> scannable (Key o).

Lemma ScanPage_runs pattern cursor seek count e' : cursorSeek cursor = Some seek -> quiet e' ->
  runs (ScanPage xxhash now pattern cursor count) e' (page_result aesEncrypt xxhash reg e g sp pd n now pattern seek).
Proof.
  intros Hcur Hc. unfold ScanPage. rewrite Hcur. cbv zeta. set (cnt := if count <=? 0 then 10 else count).
  match goal with |- context [pageLoop _ _ _ _ _ _ ?b] => set (budget := b) end. run_get.
  destruct (iter_remaining aesEncrypt xxhash reg e g sp pd n Hi Hnext e' seek Hc) as [Hok Hrem].
  destruct (split_at_first (fun o => bytes_le seek (Key o)) Out) as (d & L & EL & Hd & HL).
  { apply (wk_sorted _ _ _ _ (Out_walks aesEncrypt xxhash reg e g sp pd Hi Hnext)). }
  { intros a b Hab Ha. eapply bytes_le_trans; [exact Ha|]. by apply bytes_lt_le. }
  assert (filter (fun o => bytes_le seek (Key o)) Out = L) as Hf.
  { rewrite EL, filter_app, (filter_nil_not_elem_of _ d), filter_all; [done|done|]. intros o Ho Hin. by apply (Hd o). }
  rewrite Hf in Hrem.
  apply (runs_step _ _ _ _ _ (iterNext_runs aesEncrypt reg e g sp pd n _ e' Hok Hc)). intros it e'' [Hc' Hit]. rewrite Hrem in Hit.
  assert (length Out <= length (stream (buildMergedIterator xxhash e' [])))%nat as Hlen.
  { rewrite (build_calm aesEncrypt xxhash reg e g sp pd n e' [] Hc). apply mergedLoop_length. }
  pose proof (f_equal length EL) as HEL. rewrite length_app in HEL.
  eapply runs_step.
  - eapply (pageLoop_runs aesEncrypt xxhash reg e g sp pd n now Hi Hnext Hscan pattern seek cnt budget _ d L (0 <? length seek)%nat it (mkPage ∅ [] [] 0) e'');
      [done|done|done| | |].
    + split; cbn; [set_solver| |set_solver|constructor|lia]. intros o nm Ho Hlt. destruct (Hd o Ho). by apply bytes_lt_le.
    + match goal with |- (pageMeasure L ?p < _)%nat => pose proof (pageMeasure_le L p) end. nia.
    + intros o Ho. destruct seek as [|c seek]; cbn; [|by apply HL]. destruct (Hscan o) as [Hne _]; [rewrite EL; set_solver|].
      by destruct (Key o).
  - intros [pg valid] e3 (Hc3 & d' & L' & Eout & Hpg & Hv & Hlast). apply runs_ret. cbn [fst snd] in *.
    exact (page_done_result aesEncrypt xxhash reg e g sp pd n now Hi Hnext Hscan pattern seek d' L' pg valid Eout Hpg Hv Hlast e3 Hc3).
Qed.

(** ** Following the cursors *)

(** A client's loop over the pages; running out of fuel and a refused cursor
    are failures. *)
Fixpoint scanPages (fuel : nat) (pattern : bytes) (count : Z) (cursor : bytes) : eng (list bytes) :=
  match fuel with
  | O => panic
  | S fuel =>
      r ← ScanPage xxhash now pattern cursor count;
      match r with
      | None => panic
      | Some (nms, next) =>
          if bytes_eqb next [48] then mret nms else rest ← scanPages fuel pattern count next; mret (nms ++ rest)
      end
  end.

Lemma scanPages_runs pattern count fuel cursor seek e' : cursorSeek cursor = Some seek -> quiet e' ->
  (length (filter (fun o => bytes_lt seek (Key o)) Out) < fuel)%nat ->
  runs (scanPages fuel pattern count cursor) e' (fun nms e'' => quiet e'' /\
    (forall nm, nm ∈ nms -> glob_matches pattern nm /\ exists o, o ∈ Out /\ names now o nm) /\
    (forall o nm, o ∈ Out -> bytes_lt seek (Key o) -> names now o nm -> glob_matches pattern nm -> nm ∈ nms)).
Proof.
  revert cursor seek e'. induction fuel as [|fuel IH]; intros cursor seek e' Hcur Hc Hfuel; [by inversion Hfuel|].
  cbn [scanPages]. apply (runs_step _ _ _ _ _ (ScanPage_runs pattern cursor seek count e' Hcur Hc)).
  intros r e2 (Hc2 & nms & next & -> & Hsound & [[-> Hall]|(x & Hx & -> & Hlt & Hcov)]); [by apply runs_ret|].
  destruct (Hscan x Hx) as (Hne & Hwf & _). destruct (cursorSeek_encode (Key x) Hne Hwf) as [Hcur2 Hn0].
  rewrite (proj2 (bytes_eqb_false _ _)) by done. eapply runs_step; [apply (IH _ (Key x) e2 Hcur2 Hc2)|].
  - assert (length (filter (fun o => bytes_lt (Key x) (Key o)) Out) < length (filter (fun o => bytes_lt seek (Key o)) Out))%nat; [|lia].
    apply (filter_shrinks _ _ Out x); [intros o Ho; by eapply bytes_lt_trans|done|done|apply bytes_lt_irrefl].
  - intros rest e3 (Hc3 & Hs3 & Hall3). apply runs_ret. split; [done|]. split.
    + intros nm [?|?]%elem_of_app; auto.
    + intros o nm Ho Hgt Hn Hg. apply elem_of_app. destruct (decide (bytes_le (Key o) (Key x))) as [Hle|Hle]; [left; by apply (Hcov o)|].
      right. apply (Hall3 o); try done. destruct (bytes_lt_trichotomy (Key x) (Key o)) as [?|[E|?]]; [done| |].
      * destruct Hle. rewrite E. apply bytes_le_refl.
      * destruct Hle. by apply bytes_lt_le.
Qed.
End full.
