(* ===== verification/ScanMain.v ===== *)
(** * Scans of a running engine

    What the scans return in every state the engine can reach, what a client
    that follows the cursors of [ScanPage] gets, and two layouts of keys on
    which paging goes wrong. *)
From Stdlib Require Import Bool.
From S2P Require Import Prelude Mvcc Oracle Bloom SkipList Heap Iterator Encoding Threshold Checksum Crypto Registry Framing Wal Vlog Values VlogSpec SstBlock SstTable Compaction Engine Open EngineInv EngineSteps EngineSystem EngineMain Glob Scan ScanSpec ScanPages.

Section scans.
Context (aesEncrypt : bytes -> bytes -> bytes).
Hypothesis aes_wf : forall k b, wf_bytes (aesEncrypt k b).
Context (xxhash : bytes -> Z).
Context (opts : OpenOptions) (ow : OpenWorld).
Hypothesis reg_ok : registry_ok (oo_registry opts).
Hypothesis ivs_ok : (forall f, iv_ok (ow_ivs ow f)) /\ iv_ok (wd_ivWal (ow_world ow)).
Context (fileSize : Table -> Z) (copts : Options).

(** What the scans need of a reachable state. *)
Lemma run_scannable e now evs s now' :
  OpenEngineWithOpts aesEncrypt opts ow emptyDisk = Some e -> 0 <= now -> sys_run aesEncrypt fileSize copts (start e now) evs s -> s_now s <= now' ->
  exists sp g, log_run emptyLog evs sp /\ g_log g = sp_log sp /\ eng_inv aesEncrypt (oo_registry opts) (s_e s) g [] (s_pending s).*2 /\
    room (e_vl (s_e s)) 0 /\ g_floor g <= max_u64 /\ nextTs (e_oracle (s_e s)) <= max_u64 /\ g_time g <= now'.
Proof.
  intros He Hnow Hrun Hn. destruct (run_inv aesEncrypt aes_wf opts ow reg_ok ivs_ok fileSize copts e now evs s He Hnow Hrun) as (sp & g & Hlog & Hs).
  pose proof (sys_clock _ _ _ _ _ Hs) as Hc. pose proof (sy_time _ _ _ _ _ Hs) as Ht. destruct (sy_floor _ _ _ _ _ Hs) as [Hf _].
  exists sp, g. split_and!; [done|apply (sy_log _ _ _ _ _ Hs)|apply (sy_eng _ _ _ _ _ Hs)|apply (sy_room _ _ _ _ _ Hs)|lia..].
Qed.


(** C20. A client that follows the cursors of [ScanPage] comes to the end and
    gets exactly the logical names of the live keys that match, if string keys
    have no NUL and fields of collections do not start with the byte 0xFF
    ([scannable]) and nothing is written meanwhile.  One page more than there
    are stored entries is always enough, whatever COUNT is. *)
Theorem full_scan_complete e now evs s now' pattern count :
  OpenEngineWithOpts aesEncrypt opts ow emptyDisk = Some e -> 0 <= now -> sys_run aesEncrypt fileSize copts (start e now) evs s ->
  s_now s <= now' -> 0 <= now' -> (forall a, a ∈ storedE (s_e s) -> scannable (Key a)) ->
  exists sp names e', log_run emptyLog evs sp /\
    scanPages xxhash now' (S (length (storedE (s_e s)))) pattern count [48] (s_e s) = Some (names, e') /\
    forall nm, nm ∈ names <-> nm <> [] /\ glob_matches pattern nm /\ exists k, logicalKey k = nm /\ is_Some (logRead now' (sp_log sp) k max_u64).
Proof.
  intros He Hnow Hrun Hn Hn0 Hsc. destruct (run_scannable e now evs s now' He Hnow Hrun Hn) as (sp & g & Hlog & Hgl & Hi & Hr & Hf & Hnx & Ht).
  exists sp. rewrite <- Hgl. pose proof (Out_walks aesEncrypt xxhash _ _ _ _ _ Hi Hnx) as Hw.
  assert (forall o, o ∈ Out xxhash (s_e s) -> scannable (Key o)) as Hsc' by (intros o Ho; by apply Hsc, (wk_from _ _ _ _ Hw)).
  pose proof (scanPages_runs aesEncrypt xxhash _ (s_e s) g [] _ 0 now' Hi Hnx Hsc' pattern count (S (length (storedE (s_e s)))) [48] [] (s_e s)
    eq_refl (calm_refl _ _ _ _ _ _ _ Hi Hr)) as H.
  pose proof (Out_length aesEncrypt xxhash _ _ _ _ _ Hi Hnx) as Hl.
  pose proof (length_filter (fun o => bytes_lt [] (Key o)) (Out xxhash (s_e s))) as Hl'. specialize (H ltac:(lia)).
  unfold runs in H. destruct (scanPages _ _ _ _ _ _ _) as [[nms e']|]; [|done]. destruct H as (_ & Hsound & Hall).
  exists nms, e'. split; [done|]. split; [done|]. intros nm.
  pose proof (walk_names aesEncrypt xxhash _ _ _ _ _ now' Hi Hf Ht _ nm Hw) as Hnm. unfold liveName, readsLog in Hnm. split.
  - intros Hin. destruct (Hsound nm Hin) as [Hg Ho]. apply Hnm in Ho as [Hne Hk]. done.
  - intros (Hne & Hg & Hk). destruct (proj2 Hnm (conj Hne Hk)) as (o & Ho & Hno). apply (Hall o); try done.
    destruct (Hsc' o Ho) as [Hkn _]. by destruct (Key o).
Qed.
End scans.

Module ScanWitness.
Import EngineWitness.

Definition hash (b : bytes) : Z := foldl (fun h x => (h * 31 + x) mod 2 ^ 64) 7 b.

Lemma keys_scannable l ks : Key <$> l = ks -> Forall scannable ks -> forall a, a ∈ l -> scannable (Key a).
Proof. intros <- H a Ha. rewrite Forall_fmap, Forall_forall in H. by apply H. Qed.

Lemma single_scannable c : is_u8 c -> scannable [c].
Proof. intros Hc. split; [done|]. split; [by apply Forall_singleton|done]. Qed.

Lemma stored_scannable : forall a, a ∈ storedE (s_e s14) -> scannable (Key a).
Proof.
  apply (keys_scannable _ [[107]; [107]; [110]; [110]]); [vm_compute; reflexivity|].
  rewrite !Forall_cons. split_and!; [by apply single_scannable..|constructor].
Qed.

(** Keys stored without a log record, so that states are quick to build. *)
Definition putAll (ks : list bytes) : Engine := foldl (fun e k => exec (PutExAt cipher (world 6) k [1] 0 true) e) e0 ks.

(** 65 fields of the hash "m" whose names start with 0xFF, and two string keys
    with a NUL in their names. *)
Definition field (i : nat) : bytes := [104; 0; 109; 0; 255; Z.of_nat i].
Definition manyFields : Engine := putAll (field <$> seq 0 65).
Definition nulNames : Engine := putAll [[115; 0; 97; 0; 98]; [115; 0; 97; 0; 99]].
Definition pageOf (e : Engine) (cursor : bytes) : option (option (list bytes * bytes)) := fst <$> ScanPage hash 6 [42] cursor 10 e.
End ScanWitness.

(** Where the assumption of [full_scan_complete] fails, paging fails.  With
    65 fields that start with 0xFF, SCAN with the default COUNT answers a
    cursor with the same cursor, so a client that follows it never comes to the
    end.  Of two string keys that agree up to a NUL, SCAN reports only the
    first and says that it is done, while a full listing has both. *)
Theorem scan_pages_flawed :
  ScanWitness.pageOf ScanWitness.manyFields [48] = Some (Some ([[109]], hexEncode (ScanWitness.field 62))) /\
  ScanWitness.pageOf ScanWitness.manyFields (hexEncode (ScanWitness.field 62)) = Some (Some ([[109]], hexEncode (ScanWitness.field 62))) /\
  ScanWitness.pageOf ScanWitness.nulNames [48] = Some (Some ([[97; 0; 98]], [48])) /\
  (fst <$> ScanAllKeys ScanWitness.hash 6 [42] ScanWitness.nulNames) = Some [[97; 0; 98]; [97; 0; 99]].
Proof. split_and!; vm_compute; reflexivity. Qed.


Lemma full_scan_complete_witness :
  exists names e', scanPages ScanWitness.hash 11 (S (length (storedE (s_e EngineWitness.s14)))) [42] 1 [48] (s_e EngineWitness.s14) = Some (names, e').
Proof.
  assert (s_now EngineWitness.s14 <= 11) as Hnow by (cbn [EngineWitness.s14 s_now]; lia).
  destruct (full_scan_complete EngineWitness.cipher EngineWitness.cipher_wf ScanWitness.hash EngineWitness.oopts EngineWitness.oworld I EngineWitness.ivs_fine
    EngineWitness.size EngineWitness.copts EngineWitness.e0 5 EngineWitness.events EngineWitness.s14 11 [42] 1 EngineWitness.e0_opened
    ltac:(lia) EngineWitness.run_events Hnow ltac:(lia) ScanWitness.stored_scannable) as (sp & names & e' & _ & E & _).
  exists names, e'. exact E.
Defined.
