(* ===== verification/Store.v ===== *)
(** * The keyspace interface

    What the collection operations of [engine_collections.go] and the command
    handlers of the server use of the engine: point reads, prefix reads, the
    merged iterator and writes.  [Store] has the operations, [StoreLaws] says
    what they promise of a map from keys to values with an expiry time; the
    engine keeps the promise ([CollEngine]). *)
From S2P Require Import Prelude Mvcc Vlog Engine EngineSteps.

(** ** Operations on a store *)

Definition st (S A : Type) : Type := S -> option (A * S).

#[export] Instance st_ret S : MRet (st S) := fun A a s => Some (a, s).
#[export] Instance st_bind S : MBind (st S) := fun A B f m s =>
  match m s with Some (a, s') => f a s' | None => None end.

Definition stPanic {S A} : st S A := fun _ => None.

(** A value that a panic may prevent. *)
Definition orPanic {S A} (o : option A) : st S A := match o with Some a => mret a | None => stPanic end.

(** [m] returns from [s], and what it returns satisfies [Q]. *)
Definition does {S A} (m : st S A) (s : S) (Q : A -> S -> Prop) : Prop :=
  match m s with Some (a, s') => Q a s' | None => False end.

Lemma does_ret {S A} (a : A) (s : S) (Q : A -> S -> Prop) : Q a s -> does (mret a) s Q.
Proof. done. Qed.

Lemma does_mono {S A} (m : st S A) s (Q Q' : A -> S -> Prop) :
  does m s Q -> (forall a s', Q a s' -> Q' a s') -> does m s Q'.
Proof. unfold does. destruct (m s) as [[a s']|]; auto. Qed.

Lemma does_step {S A B} (m : st S A) (f : A -> st S B) s (P : A -> S -> Prop) Q :
  does m s P -> (forall a s', P a s' -> does (f a) s' Q) -> does (m ≫= f) s Q.
Proof.
  intros Hm Hf. unfold does, mbind, st_bind in *. destruct (m s) as [[a s']|]; [|done]. by apply Hf.
Qed.

Lemma does_inv {S A} (m : st S A) s Q : does m s Q -> exists a s', m s = Some (a, s') /\ Q a s'.
Proof. unfold does. destruct (m s) as [[a s']|]; [|done]. eauto. Qed.

Class Store (S : Type) := {
  db_getByKey : Z -> bytes -> st S (result bytes);
  db_Get : Z -> bytes -> st S (result bytes);
  db_getByPrefix : Z -> bytes -> st S (gmap bytes bytes);
  (** the loop over [buildMergedIterator(seekKey)] with the given body *)
  db_scan : forall A : Type, (Entry -> A -> st S (A * bool)) -> bytes -> A -> st S A;
  db_submitBatch : World -> list BatchWriteEntry -> st S (option err);
  db_PutExAt : World -> bytes -> bytes -> Z -> bool -> st S (option err);
}.
Arguments db_scan {S _ A} _ _ _.

(** [Put] and [PutEx] in terms of [PutExAt]. *)
Definition db_PutEx {S} `{Store S} (w : World) (key val : bytes) (ttlSeconds : Z) : st S (option err) :=
  db_PutExAt w key val (if 0 <? ttlSeconds then i64 (wd_now w + ttlSeconds) else 0) false.
Definition db_Put {S} `{Store S} (w : World) (key val : bytes) : st S (option err) := db_PutEx w key val 0.

(** ** The promise *)

(** Keys with their values and expiry times, expired ones included. *)
Notation kvmap := (gmap bytes (bytes * Z)).

(** An expiry time of zero, or a negative one, is no expiry. *)
Definition alive (now x : Z) : bool := negb ((0 <? x) && (x <=? now)).

Definition kv_get (now : Z) (M : kvmap) (k : bytes) : option bytes :=
  match M !! k with Some (v, x) => if alive now x then Some v else None | None => None end.

Definition kv_answer (o : option bytes) : result bytes := match o with Some v => Ok v | None => Fail ErrKeyNotFound end.

Definition kv_write (M : kvmap) (b : BatchWriteEntry) : kvmap :=
  if bw_deleted b then delete (bw_key b) M else <[bw_key b := (bw_value b, bw_expiresAt b)]> M.

Definition kv_writes (M : kvmap) (es : list BatchWriteEntry) : kvmap := foldl kv_write M es.

(** What a batch uses up of the space of the value log and of versions. *)
Definition writeCost (es : list BatchWriteEntry) : Z := batchCost es + 320.

(** Some keys may be given an expiry time, others never are. *)
Definition expiry_ok (E : bytes -> Prop) (b : BatchWriteEntry) : Prop := bw_expiresAt b = 0 \/ E (bw_key b).

Record batch_fine (E : bytes -> Prop) (es : list BatchWriteEntry) : Prop := {
  bf_some : es <> [];
  bf_ok : Forall batch_ok es;
  bf_nodup : NoDup (bw_key <$> es);
  bf_expiry : Forall (expiry_ok E) es;
}.

(** What a full walk from [seek] delivers: in key order, a live entry for every
    live key and no other live entries.  Tombstones and expired entries may or
    may not be there. *)
Record walk_of (E : bytes -> Prop) (M : kvmap) (now : Z) (seek : bytes) (out : list Entry) : Prop := {
  wo_sorted : StronglySorted bytes_lt (Key <$> out);
  wo_from : forall o, o ∈ out -> bytes_le seek (Key o);
  wo_sound : forall o, o ∈ out -> Deleted o = false -> alive now (ExpiresAt o) = true ->
    exists v, M !! Key o = Some (v, ExpiresAt o);
  wo_complete : forall k v x, bytes_le seek k -> M !! k = Some (v, x) -> alive now x = true ->
    exists o, o ∈ out /\ Key o = k /\ Deleted o = false /\ ExpiresAt o = x;
  wo_expiry : forall o, o ∈ out -> Deleted o = false -> ExpiresAt o = 0 \/ E (Key o);
}.

Definition world_ok (t : Z) (w : World) : Prop := t <= wd_now w /\ 0 <= wd_now w /\ iv_ok (wd_ivVlog w).

(** The outcome of a write: done, or refused because the disk is full. *)
Definition wrote {S} (rep : S -> kvmap -> Z -> Z -> Prop) (M : kvmap) (n t : Z) (es : list BatchWriteEntry) (r : option err) (s' : S) : Prop :=
  (r = None /\ rep s' (kv_writes M es) (n - writeCost es) t) \/
  (r = Some ErrDiskFull /\ batchHasWrites es = true /\ rep s' M n t).

Class StoreLaws (S : Type) `{Store S} (E : bytes -> Prop) := {
  (** [rep s M n t]: the store holds [M], has space for writes of cost [n], and
      nothing that was live after time [t] has been dropped *)
  rep : S -> kvmap -> Z -> Z -> Prop;
  (** a step of the iterator may change counters, not what is stored *)
  quiet : S -> S -> Prop;
  rep_quiet : forall s s' M n t, quiet s s' -> rep s M n t -> rep s' M n t;
  rep_less : forall s M n n' t, n' <= n -> rep s M n t -> rep s M n' t;
  getByKey_law : forall s M n t now k, rep s M n t -> t <= now -> 0 <= now ->
    does (db_getByKey now k) s (fun r s' => r = kv_answer (kv_get now M k) /\ rep s' M n t);
  Get_law : forall s M n t now k, rep s M n t -> t <= now -> 0 <= now ->
    does (db_Get now k) s (fun r s' => r = kv_answer (kv_get now M k) /\ rep s' M n t);
  getByPrefix_law : forall s M n t now p, rep s M n t -> t <= now -> 0 <= now ->
    does (db_getByPrefix now p) s (fun m s' => rep s' M n t /\
      forall k v, m !! k = Some v <-> has_prefix p k = true /\ exists x, M !! k = Some (v, x) /\ alive now x = true /\ 0 <= x);
  scan_law : forall A (body : Entry -> A -> st S (A * bool)) seek acc s M n t now (P : list Entry -> A -> S -> Prop) (Q : A -> S -> Prop),
    rep s M n t -> t <= now -> 0 <= now ->
    (forall l a s1 s2, quiet s1 s2 -> P l a s1 -> P l a s2) ->
    (forall x l a s1, P (x :: l) a s1 -> does (body x a) s1 (fun r s' => if (r.2 : bool) then P l r.1 s' else Q r.1 s')) ->
    (forall a s1, P [] a s1 -> Q a s1) ->
    (forall out, walk_of E M now seek out -> P out acc s) ->
    does (db_scan body seek acc) s Q;
  submitBatch_law : forall s M n t w es, rep s M n t -> world_ok t w -> batch_fine E es -> writeCost es <= n ->
    does (db_submitBatch w es) s (wrote rep M n t es);
  PutExAt_law : forall s M n t w k v x skipWAL (b := mkBatch k v false x), rep s M n t -> world_ok t w -> kv_ok k v x -> expiry_ok E b -> writeCost [b] <= n ->
    does (db_PutExAt w k v x skipWAL) s (wrote rep M n t [b]);
}.
