(* ===== verification/Collections.v ===== *)
(** * Collections ([engine_collections.go])

    Hashes, lists, sets, sorted sets and bitmaps as composite keys of the flat
    keyspace: a type letter, NUL, the name of the collection, NUL, and the
    field, member, index or page.  Every operation holds the lock of its
    collection, so it is one step of a [Store]; [time.Now] is read once. *)
From Stdlib Require Import Floats.SpecFloat.
From S2P Require Import Prelude Mvcc Strconv Encoding Engine Scan Store.

(** ** Composite keys *)

Definition hashPrefix (hash : bytes) : bytes := [104; 0] ++ hash ++ [0].
Definition hashFieldKey (hash field : bytes) : bytes := hashPrefix hash ++ field.
Definition setPrefix (key : bytes) : bytes := [116; 0] ++ key ++ [0].
Definition setMemberKey (key member : bytes) : bytes := setPrefix key ++ member.
Definition listStorePrefix (key : bytes) : bytes := [108; 0] ++ key ++ [0].
Definition zsetStorePrefix (key : bytes) : bytes := [122; 0] ++ key ++ [0].
Definition bitmapPrefix (key : bytes) : bytes := [98; 0] ++ key ++ [0].

Definition collectionPrefixes (key : bytes) : list bytes :=
  [hashPrefix key; setPrefix key; listStorePrefix key; bitmapPrefix key; zsetStorePrefix key].

(** [fmt.Sprintf("%020d", n)]: padded with zeros behind the sign. *)
Definition zeroPad (width : nat) (digits : bytes) : bytes := replicate (width - length digits) 48 ++ digits.
Definition format020d (n : Z) : bytes :=
  if n <? 0 then chMinus :: zeroPad 19 (FormatUint (- n)) else zeroPad 20 (FormatUint n).

Definition listElemKey (key : bytes) (index : Z) : bytes :=
  let biased := i64 (index + 2 ^ 62) in
  [108; 0] ++ key ++ [0] ++ format020d biased.

(** "\x00meta" *)
Definition listMetaSuffix : bytes := [0; 109; 101; 116; 97].
Definition listMetaKey (key : bytes) : bytes := [108; 0] ++ key ++ listMetaSuffix.

Definition bitmapPageBits : Z := 8 * 4096.
Definition bitmapPageKey (key : bytes) (page : Z) : bytes := bitmapPrefix key ++ be_encode 8 (u64 page).

Section collections.
Context {S : Type} `{!Store S}.

(** [err == nil] *)
Definition isOk {A} (r : result A) : bool := match r with Ok _ => true | Fail _ => false end.

Definition put (key val : bytes) : BatchWriteEntry := mkBatch key val false 0.
Definition del (key : bytes) : BatchWriteEntry := mkBatch key [] true 0.

(** [if err := e.submitBatch(entries); err != nil { return 0, err }; return a, nil] *)
Definition submitThen {A} (w : World) (entries : list BatchWriteEntry) (a : A) : st S (result A) :=
  r ← db_submitBatch w entries;
  mret (match r with Some err => Fail err | None => Ok a end).

(** The keys of a prefix read with the prefix cut off. *)
Definition stripped (prefix : bytes) (pairs : gmap bytes bytes) : list bytes :=
  (fun kv => drop (length prefix) kv.1) <$> map_to_list pairs.

(** ** Hashes *)

Definition HSet (w : World) (hash field val : bytes) : st S (result bool) :=
  let kBytes := hashFieldKey hash field in
  r ← db_getByKey (wd_now w) kBytes;
  submitThen w [put kBytes val] (negb (isOk r)).

Definition setValue (val : bytes) (b : BatchWriteEntry) : BatchWriteEntry :=
  mkBatch (bw_key b) val (bw_deleted b) (bw_expiresAt b).

(** [idx] is the position of a field that was named before. *)
Fixpoint hsetLoop (w : World) (hash : bytes) (fields : list bytes) (entries : list BatchWriteEntry) (idx : gmap bytes nat) (created : Z)
    : st S (list BatchWriteEntry * Z) :=
  match fields with
  | field :: val :: rest =>
      match idx !! field with
      | Some j => hsetLoop w hash rest (alter (setValue val) j entries) idx created
      | None =>
          let kBytes := hashFieldKey hash field in
          r ← db_getByKey (wd_now w) kBytes;
          hsetLoop w hash rest (entries ++ [put kBytes val]) (<[field := length entries]> idx)
            (if isOk r then created else created + 1)
      end
  | _ => mret (entries, created)
  end.

Definition HSetMulti (w : World) (hash : bytes) (fields : list bytes) : st S (result Z) :=
  r ← hsetLoop w hash fields [] ∅ 0;
  match r.1 with
  | [] => mret (Ok 0)
  | entries => submitThen w entries r.2
  end.

Definition HGet (now : Z) (hash field : bytes) : st S (result bytes) :=
  r ← db_getByKey now (hashFieldKey hash field);
  mret (match r with Ok v => Ok v | Fail _ => Fail ErrKeyNotFound end).

Definition HDel (w : World) (hash field : bytes) : st S (result bool) :=
  let kBytes := hashFieldKey hash field in
  r ← db_getByKey (wd_now w) kBytes;
  if isOk r then submitThen w [del kBytes] true else mret (Ok false).

Definition HGetAll (now : Z) (hash : bytes) : st S (gmap bytes bytes) :=
  let prefix := hashPrefix hash in
  pairs ← db_getByPrefix now prefix;
  mret (list_to_map ((fun kv => (drop (length prefix) kv.1, kv.2)) <$> map_to_list pairs)).

Definition HLen (now : Z) (hash : bytes) : st S Z :=
  pairs ← db_getByPrefix now (hashPrefix hash);
  mret (Z.of_nat (size pairs)).

Definition HKeys (now : Z) (hash : bytes) : st S (list bytes) :=
  let prefix := hashPrefix hash in
  pairs ← db_getByPrefix now prefix;
  mret (sortStrings (stripped prefix pairs)).

(** ** Lists *)

(** [head] is the index of the first element, [tail] the one behind the last. *)
Definition listMeta (now : Z) (key : bytes) : st S (Z * Z) :=
  r ← db_getByKey now (listMetaKey key);
  mret (match r with
        | Ok val =>
            if (length val <? 16)%nat then (0, 0)
            else (i64 (be_decode (slice val 0 8)), i64 (be_decode (slice val 8 16)))
        | Fail _ => (0, 0)
        end).

Definition listLen (now : Z) (key : bytes) : st S Z :=
  r ← db_getByKey now (listMetaKey key);
  mret (match r with
        | Ok val =>
            if (length val <? 16)%nat then 0
            else i64 (i64 (be_decode (slice val 8 16)) - i64 (be_decode (slice val 0 8)))
        | Fail _ => 0
        end).

Definition metaBuf (head tail : Z) : bytes := be_encode 8 (u64 head) ++ be_encode 8 (u64 tail).

Fixpoint lpushLoop (key : bytes) (values : list bytes) (head : Z) (entries : list BatchWriteEntry) : Z * list BatchWriteEntry :=
  match values with
  | [] => (head, entries)
  | v :: values =>
      let head := i64 (head - 1) in
      lpushLoop key values head (entries ++ [put (listElemKey key head) v])
  end.

Definition LPush (w : World) (key : bytes) (values : list bytes) : st S (result Z) :=
  ht ← listMeta (wd_now w) key;
  let '(head, entries) := lpushLoop key values ht.1 [] in
  submitThen w (entries ++ [put (listMetaKey key) (metaBuf head ht.2)]) (i64 (ht.2 - head)).

Fixpoint rpushLoop (key : bytes) (values : list bytes) (tail : Z) (entries : list BatchWriteEntry) : Z * list BatchWriteEntry :=
  match values with
  | [] => (tail, entries)
  | v :: values => rpushLoop key values (i64 (tail + 1)) (entries ++ [put (listElemKey key tail) v])
  end.

Definition RPush (w : World) (key : bytes) (values : list bytes) : st S (result Z) :=
  ht ← listMeta (wd_now w) key;
  let '(tail, entries) := rpushLoop key values ht.2 [] in
  submitThen w (entries ++ [put (listMetaKey key) (metaBuf ht.1 tail)]) (i64 (tail - ht.1)).

Definition LPop (w : World) (key : bytes) : st S (result bytes) :=
  ht ← listMeta (wd_now w) key;
  let '(head, tail) := ht in
  if tail <=? head then mret (Fail ErrKeyNotFound)
  else
    let kBytes := listElemKey key head in
    r ← db_getByKey (wd_now w) kBytes;
    match r with
    | Fail err => mret (Fail err)
    | Ok val =>
        let metaK := listMetaKey key in
        submitThen w
          [del kBytes; if tail <=? i64 (head + 1) then del metaK else put metaK (metaBuf (i64 (head + 1)) tail)] val
    end.

Definition RPop (w : World) (key : bytes) : st S (result bytes) :=
  ht ← listMeta (wd_now w) key;
  let '(head, tail) := ht in
  if tail <=? head then mret (Fail ErrKeyNotFound)
  else
    let lastIdx := i64 (tail - 1) in
    let kBytes := listElemKey key lastIdx in
    r ← db_getByKey (wd_now w) kBytes;
    match r with
    | Fail err => mret (Fail err)
    | Ok val =>
        let metaK := listMetaKey key in
        submitThen w
          [del kBytes; if i64 (tail - 1) <=? head then del metaK else put metaK (metaBuf head (i64 (tail - 1)))] val
    end.

Definition LLen (now : Z) (key : bytes) : st S Z := listLen now key.

(** [for i := start; i <= stop; i++], [count] rounds. *)
Fixpoint rangeLoop (now : Z) (key : bytes) (head i : Z) (count : nat) (result : list bytes) : st S (list bytes) :=
  match count with
  | O => mret result
  | Datatypes.S count =>
      r ← db_getByKey now (listElemKey key (i64 (head + i)));
      rangeLoop now key head (i + 1) count (match r with Ok val => result ++ [val] | Fail _ => result end)
  end.

Definition LRange (now : Z) (key : bytes) (start stop : Z) : st S (list bytes) :=
  ht ← listMeta now key;
  let '(head, tail) := ht in
  let n := i64 (tail - head) in
  if n =? 0 then mret []
  else
    let start := if start <? 0 then i64 (n + start) else start in
    let stop := if stop <? 0 then i64 (n + stop) else stop in
    let start := if start <? 0 then 0 else start in
    if n <=? start then mret []
    else
      let stop := if n <=? stop then n - 1 else stop in
      if stop <? start then mret []
      else rangeLoop now key head start (Z.to_nat (stop - start + 1)) [].

(** ** Sets *)

Fixpoint saddLoop (w : World) (key : bytes) (members : list bytes) (seen : gset bytes) (entries : list BatchWriteEntry) (added : Z)
    : st S (list BatchWriteEntry * Z) :=
  match members with
  | [] => mret (entries, added)
  | m :: members =>
      if bool_decide (m ∈ seen) then saddLoop w key members seen entries added
      else
        let kBytes := setMemberKey key m in
        r ← db_getByKey (wd_now w) kBytes;
        if isOk r then saddLoop w key members ({[m]} ∪ seen) entries added
        else saddLoop w key members ({[m]} ∪ seen) (entries ++ [put kBytes []]) (added + 1)
  end.

(** [if len(entries) > 0 { submit }; return n, nil] *)
Definition submitSome (w : World) (entries : list BatchWriteEntry) (n : Z) : st S (result Z) :=
  match entries with [] => mret (Ok n) | _ => submitThen w entries n end.

Definition SAdd (w : World) (key : bytes) (members : list bytes) : st S (result Z) :=
  r ← saddLoop w key members ∅ [] 0;
  submitSome w r.1 r.2.

Definition SMembers (now : Z) (key : bytes) : st S (list bytes) :=
  let prefix := setPrefix key in
  existing ← db_getByPrefix now prefix;
  mret (sortStrings (stripped prefix existing)).

Definition SIsMember (now : Z) (key member : bytes) : st S bool :=
  r ← db_getByKey now (setMemberKey key member);
  mret (isOk r).

Fixpoint sremLoop (w : World) (key : bytes) (members : list bytes) (entries : list BatchWriteEntry) (removed : Z)
    : st S (list BatchWriteEntry * Z) :=
  match members with
  | [] => mret (entries, removed)
  | m :: members =>
      let kBytes := setMemberKey key m in
      r ← db_getByKey (wd_now w) kBytes;
      if isOk r then sremLoop w key members (entries ++ [del kBytes]) (removed + 1)
      else sremLoop w key members entries removed
  end.

Definition SRem (w : World) (key : bytes) (members : list bytes) : st S (result Z) :=
  r ← sremLoop w key members [] 0;
  submitSome w r.1 r.2.

Definition SCard (now : Z) (key : bytes) : st S Z :=
  existing ← db_getByPrefix now (setPrefix key);
  mret (Z.of_nat (size existing)).

Fixpoint interLoop (now : Z) (keys : list bytes) (result : gset bytes) : st S (gset bytes) :=
  match keys with
  | [] => mret result
  | key :: keys =>
      if (size result =? 0)%nat then mret ∅
      else
        let prefix := setPrefix key in
        pairs ← db_getByPrefix now prefix;
        interLoop now keys (list_to_set (filter (.∈ result) (stripped prefix pairs)))
  end.

Definition SInter (now : Z) (keys : list bytes) : st S (list bytes) :=
  match keys with
  | [] => mret []
  | key :: keys =>
      let basePrefix := setPrefix key in
      pairs ← db_getByPrefix now basePrefix;
      result ← interLoop now keys (list_to_set (stripped basePrefix pairs));
      mret (sortStrings (elements result))
  end.

(** ** Sorted sets; a score is its 64-bit pattern *)

Definition scoreGt (a b : Z) : bool := match SFcompare (float_of_bits a) (float_of_bits b) with Some Gt => true | _ => false end.
Definition scoreGe (a b : Z) : bool := match SFcompare (float_of_bits a) (float_of_bits b) with Some Lt | None => false | _ => true end.
Definition scoreNe (a b : Z) : bool := match SFcompare (float_of_bits a) (float_of_bits b) with Some Eq => false | _ => true end.

Record ZSetMember := mkZSetMember { zs_score : Z; zs_member : bytes }.

(** Members in the order they are first named, each with its last score. *)
Fixpoint zaddOrder (members : list ZSetMember) (order : list bytes) (scores : gmap bytes Z) : list bytes * gmap bytes Z :=
  match members with
  | [] => (order, scores)
  | m :: members =>
      zaddOrder members (if scores !! zs_member m then order else order ++ [zs_member m]) (<[zs_member m := zs_score m]> scores)
  end.

Fixpoint zaddLoop (w : World) (key : bytes) (order : list bytes) (scores : gmap bytes Z) (entries : list BatchWriteEntry) (added : Z)
    : st S (list BatchWriteEntry * Z) :=
  match order with
  | [] => mret (entries, added)
  | member :: order =>
      let score := default 0 (scores !! member) in
      oldVal ← db_getByKey (wd_now w) (ZValKey key member);
      oldScore ← (match oldVal with
                  | Ok [] | Fail _ => mret 0
                  | Ok val => orPanic (DecodeScore val)
                  end);
      let stale := if isOk oldVal && scoreNe oldScore score then [del (ZScoreKey key oldScore member)] else [] in
      zaddLoop w key order scores
        (entries ++ stale ++ [put (ZValKey key member) (EncodeScore score); put (ZScoreKey key score member) []])
        (if isOk oldVal then added else added + 1)
  end.

Definition ZAddMulti (w : World) (key : bytes) (members : list ZSetMember) : st S (result Z) :=
  let '(order, scores) := zaddOrder members [] ∅ in
  r ← zaddLoop w key order scores [] 0;
  submitThen w r.1 r.2.

Definition ZAdd (w : World) (key : bytes) (score : Z) (member : bytes) : st S (result bool) :=
  r ← ZAddMulti w key [mkZSetMember score member];
  mret (match r with Ok added => Ok (0 <? added) | Fail err => Fail err end).

(** The score and whether the member is there. *)
Definition ZScore (now : Z) (key member : bytes) : st S (result (Z * bool)) :=
  r ← db_getByKey now (ZValKey key member);
  match r with
  | Fail ErrKeyNotFound => mret (Ok (0, false))
  | Fail err => mret (Fail err)
  | Ok val =>
      if negb (length val =? 8)%nat then mret (Ok (0, false))
      else score ← orPanic (DecodeScore val); mret (Ok (score, true))
  end.

Definition rangeBody (seekPrefix : bytes) (min max : Z) (x : Entry) (members : list bytes) : st S (list bytes * bool) :=
  let k := Key x in
  if negb (has_prefix seekPrefix k) then mret (members, false)
  else if (length k <? length seekPrefix + 9)%nat then mret (members, true)
  else if Deleted x then mret (members, true)
  else
    score ← orPanic (DecodeScore (slice k (length seekPrefix) (length seekPrefix + 8)));
    if scoreGt score max then mret (members, false)
    else mret (if scoreGe score min then members ++ [drop (length seekPrefix + 9) k] else members, true).

Definition ZRangeByScore (key : bytes) (min max : Z) : st S (list bytes) :=
  let seekPrefix := ZScorePrefix key in
  db_scan (rangeBody seekPrefix min max) (ZScoreKey key min []) [].

Fixpoint zremLoop (w : World) (key : bytes) (members : list bytes) (entries : list BatchWriteEntry) (removed : Z)
    : st S (list BatchWriteEntry * Z) :=
  match members with
  | [] => mret (entries, removed)
  | m :: members =>
      r ← db_getByKey (wd_now w) (ZValKey key m);
      match r with
      | Fail _ => zremLoop w key members entries removed
      | Ok val =>
          stale ← (if (length val =? 8)%nat then
                     score ← orPanic (DecodeScore val); mret [del (ZScoreKey key score m)]
                   else mret []);
          zremLoop w key members (entries ++ stale ++ [del (ZValKey key m)]) (removed + 1)
      end
  end.

Definition ZRem (w : World) (key : bytes) (members : list bytes) : st S (result Z) :=
  r ← zremLoop w key members [] 0;
  submitSome w r.1 r.2.

(** ** Whole collections *)

Definition deleteBatchSize : nat := 1024.

(** The locals of [deletePrefixChunked]; [dl_err] is a failed [flush], which
    ends the loop. *)
Record Deletion := mkDeletion {
  dl_deleted : Z;
  dl_batch : list BatchWriteEntry;
  dl_prevKey : option bytes;
  dl_err : option err;
}.

Definition flushDeletion (w : World) (d : Deletion) : st S Deletion :=
  match dl_batch d with
  | [] => mret d
  | batch =>
      r ← db_submitBatch w batch;
      mret (mkDeletion (match r with None => dl_deleted d + Z.of_nat (length batch) | Some _ => dl_deleted d end) [] (dl_prevKey d) r)
  end.

Definition deleteBody (w : World) (prefix : bytes) (x : Entry) (d : Deletion) : st S (Deletion * bool) :=
  let k := Key x in
  if negb (has_prefix prefix k) then mret (d, false)
  else if bool_decide (dl_prevKey d = Some k) then mret (d, true)
  else if liveAt (wd_now w) x then
    let batch := dl_batch d ++ [del k] in
    let d := mkDeletion (dl_deleted d) batch (Some k) None in
    if (deleteBatchSize <=? length batch)%nat then
      d ← flushDeletion w d;
      mret (d, match dl_err d with None => true | Some _ => false end)
    else mret (d, true)
  else mret (mkDeletion (dl_deleted d) (dl_batch d) (Some k) None, true).

Definition deletePrefixChunked (w : World) (prefix : bytes) : st S (Z * option err) :=
  d ← db_scan (deleteBody w prefix) prefix (mkDeletion 0 [] None None);
  match dl_err d with
  | Some err => mret (dl_deleted d, Some err)
  | None => d ← flushDeletion w d; mret (dl_deleted d, dl_err d)
  end.

Fixpoint deletePrefixes (w : World) (prefixes : list bytes) (total : Z) : st S (Z * option err) :=
  match prefixes with
  | [] => mret (total, None)
  | prefix :: prefixes =>
      r ← deletePrefixChunked w prefix;
      match r.2 with
      | Some err => mret (total + r.1, Some err)
      | None => deletePrefixes w prefixes (total + r.1)
      end
  end.

Definition DeleteCollection (w : World) (key : bytes) : st S (Z * option err) :=
  deletePrefixes w (collectionPrefixes key) 0.

Definition collectBody (now : Z) (prefix : bytes) (x : Entry) (a : gset bytes * list bytes) : st S (gset bytes * list bytes * bool) :=
  let k := Key x in
  if negb (has_prefix prefix k) then mret (a, false)
  else if liveAt now x && negb (bool_decide (k ∈ a.1)) then mret ({[k]} ∪ a.1, a.2 ++ [k], true)
  else mret (a, true).

Fixpoint collectPrefixes (now : Z) (prefixes : list bytes) (a : gset bytes * list bytes) : st S (list bytes) :=
  match prefixes with
  | [] => mret a.2
  | prefix :: prefixes =>
      a ← db_scan (collectBody now prefix) prefix a;
      collectPrefixes now prefixes a
  end.

Definition CollectionKeys (now : Z) (key : bytes) : st S (list bytes) :=
  collectPrefixes now (collectionPrefixes key) (∅, []).

(** The expiring copies of the keys that can still be read. *)
Fixpoint expireEntries (now : Z) (keys : list bytes) (expiresAt : Z) (entries : list BatchWriteEntry) : st S (list BatchWriteEntry) :=
  match keys with
  | [] => mret entries
  | k :: keys =>
      r ← db_getByKey now k;
      expireEntries now keys expiresAt
        (match r with Ok val => entries ++ [mkBatch k val false expiresAt] | Fail _ => entries end)
  end.

(** [ExpireKey] of engine_write.go: a string, or else all keys of a collection. *)
Definition ExpireKey (w : World) (key : bytes) (seconds : Z) : st S (bool * option err) :=
  let phys := [115; 0] ++ key in
  r ← db_getByKey (wd_now w) phys;
  match r with
  | Ok val => e ← db_PutEx w phys val seconds; mret (true, e)
  | Fail _ =>
      keys ← CollectionKeys (wd_now w) key;
      match keys with
      | [] => mret (false, None)
      | _ =>
          entries ← expireEntries (wd_now w) keys (i64 (wd_now w + seconds)) [];
          match entries with
          | [] => mret (false, None)
          | _ => e ← db_submitBatch w entries; mret (match e with None => true | Some _ => false end, e)
          end
      end
  end.
End collections.
