(* ===== verification/CollKeys.v ===== *)
(** * Composite keys

    Collections with names that hold no NUL do not share keys, so that a
    collection can be reasoned about as a record of its own: the map from what
    follows the name to the stored value. *)
From S2P Require Import Prelude Mvcc Strconv Encoding Engine EngineSteps Scan Store Collections.

(** ** Keys of a collection *)

Definition ckey (tag : Z) (name rest : bytes) : bytes := tag :: 0 :: name ++ 0 :: rest.

Definition nulFree (name : bytes) : Prop := ~ (0 ∈ name).

#[export] Instance nulFree_dec name : Decision (nulFree name).
Proof. unfold nulFree. apply _. Defined.

Lemma nul_cut (n1 n2 r1 r2 : bytes) : nulFree n1 -> nulFree n2 -> n1 ++ 0 :: r1 = n2 ++ 0 :: r2 -> n1 = n2 /\ r1 = r2.
Proof.
  intros H1 H2 E. assert (cutNul (n1 ++ 0 :: r1) = Some (n1, r1)) as E1 by (by apply cutNul_app).
  rewrite E, (cutNul_app n2 r2 H2) in E1. by injection E1 as -> ->.
Qed.

Lemma ckey_inj t1 t2 n1 n2 r1 r2 : nulFree n1 -> nulFree n2 -> ckey t1 n1 r1 = ckey t2 n2 r2 -> t1 = t2 /\ n1 = n2 /\ r1 = r2.
Proof. intros H1 H2 E. injection E as -> E. destruct (nul_cut _ _ _ _ H1 H2 E) as [-> ->]. done. Qed.

Lemma ckey_rest t n r1 r2 : ckey t n r1 = ckey t n r2 -> r1 = r2.
Proof. intros E. injection E as E. apply app_inv_head in E. by injection E. Qed.

Lemma length_ckey t n r : length (ckey t n r) = (length n + length r + 3)%nat.
Proof. unfold ckey. cbn. rewrite length_app. cbn. lia. Qed.

Lemma wf_ckey t n r : is_u8 t -> wf_bytes n -> wf_bytes r -> wf_bytes (ckey t n r).
Proof. intros Ht Hn Hr. unfold ckey. repeat (constructor; [done|]). apply wf_bytes_app. split; [done|]. by constructor. Qed.

(** The type letters of collections; strings have "s". *)
Definition coll_tag (tag : Z) : Prop := is_u8 tag /\ tag <> 115.

Definition cprefix (tag : Z) (name : bytes) : bytes := [tag; 0] ++ name ++ [0].

Lemma cprefix_app tag name rest : cprefix tag name ++ rest = ckey tag name rest.
Proof. unfold cprefix, ckey. cbn. by rewrite <- app_assoc. Qed.

Lemma cprefix_spec tag name k : has_prefix (cprefix tag name) k = true <-> exists rest, k = ckey tag name rest.
Proof. rewrite has_prefix_spec. by setoid_rewrite cprefix_app. Qed.

Lemma cprefix_drop tag name rest : drop (length (cprefix tag name)) (ckey tag name rest) = rest.
Proof. by rewrite <- cprefix_app, drop_app_length. Qed.

Lemma hashFieldKey_ckey hash field : hashFieldKey hash field = ckey 104 hash field.
Proof. apply cprefix_app. Qed.

Lemma setMemberKey_ckey key member : setMemberKey key member = ckey 116 key member.
Proof. apply cprefix_app. Qed.

Definition elemRest (index : Z) : bytes := format020d (i64 (index + 2 ^ 62)).
Definition metaRest : bytes := [109; 101; 116; 97].
Lemma listElemKey_ckey key index : listElemKey key index = ckey 108 key (elemRest index).
Proof. done. Qed.
Lemma listMetaKey_ckey key : listMetaKey key = ckey 108 key metaRest.
Proof. done. Qed.

Definition pageRest (page : Z) : bytes := be_encode 8 (u64 page).
Lemma bitmapPageKey_ckey key page : bitmapPageKey key page = ckey 98 key (pageRest page).
Proof. apply cprefix_app. Qed.

Definition valRest (member : bytes) : bytes := [118; 0] ++ member.
Definition scoreRest (score : Z) (member : bytes) : bytes := [115; 0] ++ EncodeScore score ++ [0] ++ member.
Lemma ZValKey_ckey key member : ZValKey key member = ckey 122 key (valRest member).
Proof. done. Qed.
Lemma ZScoreKey_ckey key score member : ZScoreKey key score member = ckey 122 key (scoreRest score member).
Proof. unfold ZScoreKey, ckey, scoreRest. cbn. by rewrite <- !app_assoc. Qed.

(** Index keys are injective on int64. *)
Lemma zeroPad_parse width ds n : parseDigits ds 0 = Some n -> parseDigits (zeroPad width ds) 0 = Some n.
Proof.
  intros H. unfold zeroPad. rewrite parseDigits_app. assert (forall m, parseDigits (replicate m 48) 0 = Some 0) as ->; [|done].
  induction m as [|m IH]; [done|]. cbn [replicate parseDigits]. change ((chZero <=? 48) && (48 <=? chZero + 9)) with true. cbv iota. exact IH.
Qed.

Lemma FormatUint_parse n : is_u64 n -> parseDigits (FormatUint n) 0 = Some n.
Proof.
  intros Hn. destruct (ParseUint_FormatUint n Hn) as [Hp (c & ds & E & _)]. rewrite E in *. unfold ParseUint in Hp.
  destruct (parseDigits (c :: ds) 0) as [m|]; [|done]. destruct (m <=? max_u64); [by injection Hp as ->|done].
Qed.

Lemma format020d_parse n : is_i64 n ->
  if n <? 0 then exists ds, format020d n = 45 :: ds /\ parseDigits ds 0 = Some (- n) else parseDigits (format020d n) 0 = Some n.
Proof.
  intros Hn. unfold format020d, is_i64 in *. destruct (Z.ltb_spec n 0).
  - eexists. split; [reflexivity|]. apply zeroPad_parse, FormatUint_parse. unfold is_u64. lia.
  - apply zeroPad_parse, FormatUint_parse. unfold is_u64. lia.
Qed.

Lemma format020d_inj a b : is_i64 a -> is_i64 b -> format020d a = format020d b -> a = b.
Proof.
  intros Ha Hb E. pose proof (format020d_parse a Ha) as Pa. pose proof (format020d_parse b Hb) as Pb. rewrite E in Pa.
  destruct (a <? 0), (b <? 0).
  - destruct Pa as (da & Ea & Pa), Pb as (db & Eb & Pb). rewrite Ea in Eb. injection Eb as ->. rewrite Pa in Pb. injection Pb. lia.
  - destruct Pa as (da & Ea & _). rewrite Ea in Pb. done.
  - destruct Pb as (da & Ea & _). rewrite Ea in Pa. done.
  - rewrite Pa in Pb. by injection Pb.
Qed.

(** Indices far from the ends of int64. *)
Definition is_index (i : Z) : Prop := - 2 ^ 62 <= i < 2 ^ 62.

Lemma elemRest_inj i j : is_index i -> is_index j -> elemRest i = elemRest j -> i = j.
Proof.
  unfold is_index, elemRest. intros Hi Hj E. rewrite !i64_id in E by (unfold is_i64; lia). apply format020d_inj in E; unfold is_i64; lia.
Qed.

Lemma elemRest_meta i : elemRest i <> metaRest.
Proof.
  unfold elemRest. intros E. pose proof (format020d_parse _ (i64_range (i + 2 ^ 62))) as P. rewrite E in P.
  destruct (_ <? 0); [|done]. by destruct P as (? & [=] & _).
Qed.

(** ** Records *)

(** The record of a collection: all that is stored under its name, none of it
    with an expiry time. *)
Definition fields (M : kvmap) (tag : Z) (name : bytes) (D : gmap bytes bytes) : Prop :=
  forall rest, M !! ckey tag name rest = (fun v => (v, 0)) <$> D !! rest.

(** A write of a field, or with [None] its deletion. *)
Definition fieldWrite (tag : Z) (name : bytes) (f : bytes * option bytes) : BatchWriteEntry :=
  match f.2 with Some v => put (ckey tag name f.1) v | None => del (ckey tag name f.1) end.

Definition rec_write (D : gmap bytes bytes) (f : bytes * option bytes) : gmap bytes bytes :=
  match f.2 with Some v => <[f.1 := v]> D | None => delete f.1 D end.

Definition rec_writes (D : gmap bytes bytes) (fs : list (bytes * option bytes)) : gmap bytes bytes := foldl rec_write D fs.

Lemma fields_unique M tag name D D' : fields M tag name D -> fields M tag name D' -> D = D'.
Proof.
  intros H H'. apply map_eq. intros r. specialize (H r). rewrite (H' r) in H.
  destruct (D !! r), (D' !! r); cbn in H; congruence.
Qed.

Lemma fields_get M tag name D rest now : fields M tag name D -> kv_get now M (ckey tag name rest) = D !! rest.
Proof. intros H. unfold kv_get. rewrite (H rest). by destruct (D !! rest). Qed.

Lemma fields_write M tag name D f : fields M tag name D -> fields (kv_write M (fieldWrite tag name f)) tag name (rec_write D f).
Proof.
  intros H rest. unfold kv_write, fieldWrite, rec_write. destruct f as [r [v|]]; cbn.
  - destruct (decide (r = rest)) as [->|Hne]; [by rewrite !lookup_insert_eq|].
    rewrite (lookup_insert_ne M), (lookup_insert_ne D) by (done || by intros ?%ckey_rest). apply H.
  - destruct (decide (r = rest)) as [->|Hne]; [by rewrite !lookup_delete_eq|].
    rewrite (lookup_delete_ne M), (lookup_delete_ne D) by (done || by intros ?%ckey_rest). apply H.
Qed.

Lemma kv_write_frame M b k : bw_key b <> k -> kv_write M b !! k = M !! k.
Proof. intros H. unfold kv_write. case_match; [by rewrite lookup_delete_ne|by rewrite lookup_insert_ne]. Qed.

Lemma fieldWrite_key tag name f : bw_key (fieldWrite tag name f) = ckey tag name f.1.
Proof. by destruct f as [r [v|]]. Qed.

(** Writing fields of a collection changes its record and nothing else. *)
Lemma fields_writes M tag name D fs :
  fields M tag name D -> fields (kv_writes M (fieldWrite tag name <$> fs)) tag name (rec_writes D fs).
Proof.
  unfold kv_writes, rec_writes. revert M D. induction fs as [|f fs IH]; intros M D H; [done|]. cbn. by apply IH, fields_write.
Qed.

Lemma writes_frame M tag name fs k : (forall rest, k <> ckey tag name rest) -> kv_writes M (fieldWrite tag name <$> fs) !! k = M !! k.
Proof.
  intros Hk. unfold kv_writes. revert M. induction fs as [|f fs IH]; intros M; [done|]. cbn. rewrite IH.
  apply kv_write_frame. rewrite fieldWrite_key. intros E. by apply (Hk f.1).
Qed.

Lemma fields_frame M tag name tag' name' D fs : nulFree name -> nulFree name' -> (tag, name) <> (tag', name') ->
  fields M tag' name' D -> fields (kv_writes M (fieldWrite tag name <$> fs)) tag' name' D.
Proof.
  intros Hn Hn' Hne H rest. rewrite writes_frame; [apply H|]. intros r E. apply ckey_inj in E as (-> & -> & _); [|done|done]. done.
Qed.

Lemma rec_writes_lookup_ne D fs r : r ∉ fs.*1 -> rec_writes D fs !! r = D !! r.
Proof.
  unfold rec_writes. revert D. induction fs as [|[r' v] fs IH]; intros D Hr; [done|]. cbn in *. rewrite not_elem_of_cons in Hr. destruct Hr as [H1 H2].
  rewrite IH by done. unfold rec_write. cbn. case_match; [by rewrite lookup_insert_ne|by rewrite lookup_delete_ne].
Qed.

Lemma rec_writes_lookup D fs r v : NoDup fs.*1 -> (r, v) ∈ fs -> rec_writes D fs !! r = v.
Proof.
  unfold rec_writes. revert D. induction fs as [|[r' v'] fs IH]; intros D Hnd Hr; [by apply elem_of_nil in Hr|]. cbn in *.
  apply NoDup_cons in Hnd as [Hn Hnd]. apply elem_of_cons in Hr as [[= -> ->]|Hr]; [|by apply IH].
  rewrite (rec_writes_lookup_ne _ fs) by done. unfold rec_write. cbn. destruct v'; [by rewrite lookup_insert_eq|by rewrite lookup_delete_eq].
Qed.
