(* ===== verification/CollOps.v ===== *)
(** * Hashes and sets on any store

    The operations of [Collections] against the promise of [StoreLaws]: what
    they answer and which fields of the collection's record they write. *)
From S2P Require Import Prelude Mvcc Strconv Encoding Values VlogSpec Engine EngineSteps Scan ScanSpec Store Collections CollKeys.

(** Texts that fit into a record of the log; values must not look like a value
    pointer, which the collector of the value log would take them for. *)
Definition text_ok (v : bytes) : Prop := wf_bytes v /\ Z.of_nat (length v) < 2 ^ 30.
Definition value_ok (v : bytes) : Prop := text_ok v /\ isValuePointer v = false.
Definition name_ok (name : bytes) : Prop := text_ok name /\ nulFree name.

Definition field_ok (f : bytes * option bytes) : Prop := text_ok f.1 /\ forall v, f.2 = Some v -> value_ok v.

Lemma field_batch_ok tag name f : is_u8 tag -> name_ok name -> field_ok f -> batch_ok (fieldWrite tag name f).
Proof.
  intros Ht [[Hn Hl] _] [[Hr Hrl] Hv]. destruct f as [r [v|]]; [|done]. intros _. destruct (Hv v eq_refl) as [[Hw Hvl] Hp].
  unfold fieldWrite. cbn [fst snd put bw_key bw_value bw_expiresAt]. split.
  - cbn in Hr, Hrl. split; [by apply wf_ckey|]. rewrite length_ckey. lia.
  - split; [done|lia].
  - unfold is_i64. lia.
  - done.
Qed.

(** What writing fields uses up. *)
Definition fieldsCost (tag : Z) (name : bytes) (fs : list (bytes * option bytes)) : Z := writeCost (fieldWrite tag name <$> fs).

Lemma fields_fine E tag name fs : is_u8 tag -> name_ok name -> fs <> [] -> NoDup fs.*1 -> Forall field_ok fs -> batch_fine E (fieldWrite tag name <$> fs).
Proof.
  intros Ht Hn Hne Hnd Hok. split.
  - by destruct fs.
  - apply Forall_fmap. eapply Forall_impl; [exact Hok|]. intros f. by apply field_batch_ok.
  - assert (bw_key <$> (fieldWrite tag name <$> fs) = ckey tag name <$> fs.*1) as ->.
    { rewrite <- !list_fmap_compose. apply list_fmap_ext. intros i f _. apply fieldWrite_key. }
    apply NoDup_fmap_2; [|done]. intros a b. apply ckey_rest.
  - apply Forall_fmap, Forall_true. intros [r [v|]]; by left.
Qed.

Lemma value_nil : value_ok [].
Proof. split; [|done]. split; [constructor|cbn; lia]. Qed.

(** A bound on the cost of an operation on [args]. *)
Definition opCost (name : bytes) (args : list bytes) : Z :=
  foldr (fun a c => 2 * Z.of_nat (length name) + 2 * Z.of_nat (length a) + 1024 + c) 1024 args.

Lemma opCost_cons name a args : opCost name (a :: args) = 2 * Z.of_nat (length name) + 2 * Z.of_nat (length a) + 1024 + opCost name args.
Proof. done. Qed.

Lemma fieldsCost_cons tag name f fs :
  fieldsCost tag name (f :: fs) = 131 + Z.of_nat (length name) + Z.of_nat (length f.1) + Z.of_nat (length (default [] f.2)) + fieldsCost tag name fs.
Proof.
  unfold fieldsCost, writeCost. cbn [fmap list_fmap batchCost]. rewrite fieldWrite_key. unfold cost. rewrite length_ckey.
  destruct f as [r [v|]]; cbn; lia.
Qed.

Lemma fieldsCost_app tag name fs fs' : fieldsCost tag name (fs ++ fs') = fieldsCost tag name fs + fieldsCost tag name fs' - 320.
Proof. induction fs as [|f fs IH]; [unfold fieldsCost, writeCost; cbn; lia|]. cbn [app]. rewrite !fieldsCost_cons, IH. lia. Qed.

Lemma fieldsCost_nil tag name : fieldsCost tag name [] = 320.
Proof. done. Qed.

(** *** The record under a sequence of writes *)

(** [HSET]'s arguments, field after value, one after the other. *)
Fixpoint hsetAll (D : gmap bytes bytes) (fields : list bytes) : gmap bytes bytes :=
  match fields with
  | field :: val :: rest => hsetAll (<[field := val]> D) rest
  | _ => D
  end.

(** Field names of any shape, values as the store takes them. *)
Fixpoint pairs_ok (fields : list bytes) : Prop :=
  match fields with
  | field :: val :: rest => text_ok field /\ value_ok val /\ pairs_ok rest
  | _ => True
  end.

Definition isPut (f : bytes * option bytes) : Prop := is_Some f.2.

Definition setField (v : bytes) (f : bytes * option bytes) : bytes * option bytes := (f.1, Some v).

Lemma alter_fieldWrite tag name v j es : Forall isPut es ->
  alter (setValue v) j (fieldWrite tag name <$> es) = fieldWrite tag name <$> alter (setField v) j es.
Proof.
  intros Hp. revert j. induction Hp as [|[r o] es [x Hx] Hp IH]; intros [|j]; [done|done| |].
  - cbn in Hx. by subst o.
  - cbn. f_equal. apply IH.
Qed.

Lemma setField_keys v j es : (alter (setField v) j es).*1 = es.*1.
Proof.
  revert j. induction es as [|e es IH]; intros [|j]; [done|done|done|]. cbn. f_equal. apply IH.
Qed.

Lemma rec_writes_setField D es j f v : NoDup es.*1 -> es.*1 !! j = Some f ->
  rec_writes D (alter (setField v) j es) = <[f := v]> (rec_writes D es).
Proof.
  intros Hnd Hj. apply map_eq. intros r. rewrite list_lookup_fmap in Hj. destruct (es !! j) as [[f' o]|] eqn:Ej; [|done]. injection Hj as <-.
  destruct (decide (r = f')) as [->|Hne].
  - rewrite lookup_insert_eq. apply rec_writes_lookup; [by rewrite setField_keys|]. apply list_elem_of_lookup. exists j.
    by rewrite list_lookup_alter_eq, Ej.
  - rewrite lookup_insert_ne by done. destruct (decide (r ∈ es.*1)) as [Hin|Hin].
    + apply list_elem_of_fmap in Hin as ([r' o'] & -> & Hin). cbn. rewrite (rec_writes_lookup D es r' o') by done.
      apply rec_writes_lookup; [by rewrite setField_keys|]. apply list_elem_of_lookup in Hin as [i Hi]. apply list_elem_of_lookup. exists i.
      rewrite list_lookup_alter_ne; [done|]. intros <-. rewrite Ej in Hi. by injection Hi as -> _.
    + by rewrite !rec_writes_lookup_ne by (by rewrite ?setField_keys).
Qed.

Lemma rec_writes_put D es f : NoDup es.*1 -> Forall isPut es -> f ∈ es.*1 -> is_Some (rec_writes D es !! f).
Proof.
  intros Hnd Hp ([f' o] & -> & Hin)%list_elem_of_fmap. rewrite Forall_forall in Hp. destruct (Hp _ Hin) as [v E]. cbn in *.
  rewrite (rec_writes_lookup D es f' o) by done. by exists v.
Qed.

Lemma rec_writes_snoc D es f v : rec_writes D (es ++ [(f, Some v)]) = <[f := v]> (rec_writes D es).
Proof. unfold rec_writes. by rewrite foldl_app. Qed.

Lemma setField_cost tag name v j es : fieldsCost tag name (alter (setField v) j es) <= fieldsCost tag name es + Z.of_nat (length v).
Proof.
  revert j. induction es as [|e es IH]; intros j; [rewrite fieldsCost_nil; cbn; rewrite fieldsCost_nil; lia|].
  destruct j as [|j]; cbn [alter list_alter].
  - rewrite !fieldsCost_cons. cbn. lia.
  - change (list_alter (setField v) j es) with (alter (setField v) j es). rewrite !fieldsCost_cons. specialize (IH j). lia.
Qed.

Lemma sorted_keys_cons x l : StronglySorted bytes_lt (Key <$> x :: l) ->
  StronglySorted bytes_lt (Key <$> l) /\ forall o, o ∈ l -> bytes_lt (Key x) (Key o).
Proof.
  intros H. rewrite fmap_cons in H. apply StronglySorted_inv in H as [H1 H2]. rewrite Forall_fmap, Forall_forall in H2. done.
Qed.

Ltac is_byte := unfold is_u8; lia.

Section ops.
Context {S : Type} `{HS : !Store S} {Ex : bytes -> Prop} `{HL : !StoreLaws S Ex}.

(** The fields [fs] of a collection are written at a cost of at most [c], or
    the disk is full. *)
Definition written {A : Type} (M : kvmap) (n c t tag : Z) (name : bytes) (fs : list (bytes * option bytes)) (a : A) (r : result A) (s' : S) : Prop :=
  (r = Ok a /\ fieldsCost tag name fs <= c /\ rep s' (kv_writes M (fieldWrite tag name <$> fs)) (n - c) t) \/ (r = Fail ErrDiskFull /\ rep s' M n t).

(** A clock that is not behind what compactions have seen. *)
Definition clock_ok (t now : Z) : Prop := t <= now /\ 0 <= now.

Lemma world_clock t w : world_ok t w -> clock_ok t (wd_now w).
Proof. by intros (? & ? & _). Qed.

Section one.
Context (M : kvmap) (n t tag : Z) (name : bytes) (D : gmap bytes bytes).
Hypothesis HD : fields M tag name D.
Hypothesis Htag : is_u8 tag.
Hypothesis Hname : name_ok name.

Lemma get_field s now rest : rep s M n t -> clock_ok t now ->
  does (db_getByKey now (ckey tag name rest)) s (fun r s' => r = kv_answer (D !! rest) /\ rep s' M n t).
Proof.
  intros Hr [H1 H2]. eapply does_mono; [by apply getByKey_law|]. intros r s' [-> Hr']. split; [|done]. by erewrite fields_get.
Qed.

Lemma get_field' s now rest : rep s M n t -> clock_ok t now ->
  does (db_Get now (ckey tag name rest)) s (fun r s' => r = kv_answer (D !! rest) /\ rep s' M n t).
Proof.
  intros Hr [H1 H2]. eapply does_mono; [by apply Get_law|]. intros r s' [-> Hr']. split; [|done]. by erewrite fields_get.
Qed.

Lemma prefix_fields s now : rep s M n t -> clock_ok t now ->
  does (db_getByPrefix now (cprefix tag name)) s (fun m s' => m = kmap (ckey tag name) D /\ rep s' M n t).
Proof.
  intros Hr [H1 H2]. eapply does_mono; [by apply getByPrefix_law|]. intros m s' [Hr' Hm]. split; [|done]. apply map_eq. intros k.
  apply option_eq. intros v. rewrite Hm, cprefix_spec, lookup_kmap_Some by (intros ? ?; apply ckey_rest). split.
  - intros [[rest ->] (x & Hx & _ & _)]. exists rest. split; [done|]. rewrite (HD rest) in Hx. destruct (D !! rest); [|done]. by injection Hx as -> _.
  - intros (rest & -> & Hv). split; [by exists rest|]. exists 0. rewrite (HD rest), Hv. done.
Qed.

Lemma submit_fields {A : Type} s w fs (a : A) c : rep s M n t -> world_ok t w -> fs <> [] -> NoDup fs.*1 -> Forall field_ok fs -> fieldsCost tag name fs <= c -> c <= n ->
  does (submitThen w (fieldWrite tag name <$> fs) a) s (written M n c t tag name fs a).
Proof.
  intros Hr Hw Hne Hnd Hok Hc Hn. unfold submitThen. eapply does_step; [apply (submitBatch_law s M n t); try done; [by apply fields_fine|]; unfold fieldsCost in Hc; lia|].
  intros r s' [[-> Hs']|(-> & _ & Hs')]; apply does_ret; [left|right; done]. split; [done|]. split; [done|]. eapply rep_less; [|exact Hs']. unfold fieldsCost in Hc. lia.
Qed.

Lemma submitSome_does s w fs k c : rep s M n t -> world_ok t w -> NoDup fs.*1 -> Forall field_ok fs -> fieldsCost tag name fs <= c -> c <= n ->
  does (submitSome w (fieldWrite tag name <$> fs) k) s (written M n c t tag name fs k).
Proof.
  intros Hr Hw Hnd Hok Hc Hn. destruct fs as [|f fs].
  - apply does_ret. left. split; [done|]. split; [done|]. rewrite fieldsCost_nil in Hc. eapply rep_less; [|exact Hr]. lia.
  - cbn [submitSome fmap list_fmap]. by apply (submit_fields s w (f :: fs)).
Qed.

(** The names that follow the prefix. *)
Lemma stripped_fields : stripped (cprefix tag name) (kmap (ckey tag name) D) ≡ₚ (map_to_list D).*1.
Proof.
  unfold stripped. rewrite map_to_list_kmap by (intros ? ?; apply ckey_rest). rewrite <- list_fmap_compose.
  erewrite list_fmap_ext; [reflexivity|]. intros i [k v] _. cbn [prod_map fst compose]. apply cprefix_drop.
Qed.

Lemma size_fields : size (kmap (ckey tag name) D : gmap bytes bytes) = size D.
Proof. rewrite <- !length_map_to_list, map_to_list_kmap by (intros ? ?; apply ckey_rest). apply length_fmap. Qed.

(** Sorted, they are the fields. *)
Lemma sorted_names :
  let r := sortStrings (stripped (cprefix tag name) (kmap (ckey tag name) D)) in
  StronglySorted bytes_lt r /\ forall k, k ∈ r <-> is_Some (D !! k).
Proof.
  cbv zeta. destruct (sortStrings_spec (stripped (cprefix tag name) (kmap (ckey tag name) D))) as [Hp Hs]. split.
  - apply Hs. rewrite stripped_fields. apply NoDup_fst_map_to_list.
  - intros k. rewrite Hp, stripped_fields. rewrite list_elem_of_fmap. split.
    + intros ([k' v] & -> & Hin). apply elem_of_map_to_list in Hin. cbn. eauto.
    + intros [v Hv]. exists (k, v). split; [done|]. by apply elem_of_map_to_list.
Qed.

End one.

(** ** Hashes *)

Lemma ckey_prefix_h h : hashPrefix h = cprefix 104 h. Proof. done. Qed.
Lemma ckey_prefix_t h : setPrefix h = cprefix 116 h. Proof. done. Qed.

Lemma isOk_answer o : isOk (kv_answer o) = bool_decide (is_Some o).
Proof. by destruct o. Qed.

Section hash.
Context (M : kvmap) (n t : Z) (h : bytes) (D : gmap bytes bytes).
Hypothesis HD : fields M 104 h D.
Hypothesis Hh : name_ok h.

Lemma HSet_does s w f v : rep s M n t -> world_ok t w -> text_ok f -> value_ok v -> opCost h [f; v] <= n ->
  does (HSet w h f v) s (written M n (opCost h [f; v]) t 104 h [(f, Some v)] (bool_decide (D !! f = None))).
Proof.
  intros Hr Hw Hf Hv Hc. unfold HSet. rewrite hashFieldKey_ckey. eapply does_step; [by eapply (get_field M n t 104 h D HD), world_clock|].
  intros r s' [-> Hr']. replace (negb (isOk (kv_answer (D !! f)))) with (bool_decide (D !! f = None)) by (by destruct (D !! f)).
  apply (submit_fields M n t 104 h ltac:(is_byte) Hh s' w [(f, Some v)]); try done.
  - apply NoDup_singleton.
  - apply Forall_singleton. split; [done|]. by intros ? [= <-].
  - rewrite fieldsCost_cons, fieldsCost_nil. cbn in *. lia.
Qed.

Lemma HGet_does s now f : rep s M n t -> clock_ok t now -> does (HGet now h f) s (fun r s' => r = kv_answer (D !! f) /\ rep s' M n t).
Proof.
  intros Hr Hw. unfold HGet. rewrite hashFieldKey_ckey. eapply does_step; [by eapply (get_field M n t 104 h D HD)|].
  intros r s' [-> Hr']. apply does_ret. split; [|done]. by destruct (D !! f).
Qed.

Lemma HDel_does s w f : rep s M n t -> world_ok t w -> text_ok f -> opCost h [f] <= n ->
  does (HDel w h f) s (fun r s' => match D !! f with
    | Some _ => written M n (opCost h [f]) t 104 h [(f, None)] true r s'
    | None => r = Ok false /\ rep s' M n t end).
Proof.
  intros Hr Hw Hf Hc. unfold HDel. rewrite hashFieldKey_ckey. eapply does_step; [by eapply (get_field M n t 104 h D HD), world_clock|].
  intros r s' [-> Hr']. destruct (D !! f) as [v|]; cbn [kv_answer isOk]; [|by apply does_ret].
  apply (submit_fields M n t 104 h ltac:(is_byte) Hh s' w [(f, None)]); try done.
  - apply NoDup_singleton.
  - by apply Forall_singleton.
  - rewrite fieldsCost_cons, fieldsCost_nil. cbn in *. lia.
Qed.

Lemma HGetAll_does s now : rep s M n t -> clock_ok t now -> does (HGetAll now h) s (fun r s' => r = D /\ rep s' M n t).
Proof.
  intros Hr Hw. unfold HGetAll. rewrite ckey_prefix_h. eapply does_step; [by eapply (prefix_fields M n t 104 h D HD)|].
  intros m s' [-> Hr']. apply does_ret. split; [|done].
  set (strip := fun kv : bytes * bytes => (drop (length (cprefix 104 h)) kv.1, kv.2)).
  assert (strip <$> map_to_list (kmap (ckey 104 h) D) ≡ₚ map_to_list D) as Hp.
  { rewrite map_to_list_kmap by (intros ? ?; apply ckey_rest). rewrite <- list_fmap_compose.
    erewrite list_fmap_ext; [by rewrite list_fmap_id|]. intros i [k v] _. unfold strip. cbn [prod_map fst snd compose]. by rewrite cprefix_drop. }
  rewrite (list_to_map_proper _ (map_to_list D)); [apply list_to_map_to_list|rewrite Hp; apply NoDup_fst_map_to_list|done].
Qed.

Lemma HLen_does s now : rep s M n t -> clock_ok t now -> does (HLen now h) s (fun r s' => r = Z.of_nat (size D) /\ rep s' M n t).
Proof.
  intros Hr Hw. unfold HLen. rewrite ckey_prefix_h. eapply does_step; [by eapply (prefix_fields M n t 104 h D HD)|].
  intros m s' [-> Hr']. apply does_ret. split; [|done]. by rewrite size_fields.
Qed.

Lemma HKeys_does s now : rep s M n t -> clock_ok t now ->
  does (HKeys now h) s (fun r s' => (StronglySorted bytes_lt r /\ forall k, k ∈ r <-> is_Some (D !! k)) /\ rep s' M n t).
Proof.
  intros Hr Hw. unfold HKeys. rewrite ckey_prefix_h. eapply does_step; [by eapply (prefix_fields M n t 104 h D HD)|].
  intros m s' [-> Hr']. apply does_ret. split; [|done]. by apply sorted_names.
Qed.

(** The loop of [HSetMulti] collects one write per field, with the last value. *)
Record hset_state (es : list (bytes * option bytes)) (entries : list BatchWriteEntry) (idx : gmap bytes nat) : Prop := {
  hs_entries : entries = fieldWrite 104 h <$> es;
  hs_nodup : NoDup es.*1;
  hs_puts : Forall isPut es;
  hs_ok : Forall field_ok es;
  hs_idx : forall f j, idx !! f = Some j <-> es.*1 !! j = Some f;
}.

Lemma hset_start : hset_state [] [] ∅.
Proof. split; [done|constructor|constructor|constructor|]. intros f j. split; intros E; [by rewrite lookup_empty in E|done]. Qed.

Lemma hset_again es entries idx f v j : hset_state es entries idx -> idx !! f = Some j -> value_ok v ->
  hset_state (alter (setField v) j es) (alter (setValue v) j entries) idx.
Proof.
  intros [-> Hnd Hp Hok Hidx] Hj Hv. split; rewrite ?setField_keys; try done.
  - by apply alter_fieldWrite.
  - apply Forall_alter; [done|]. intros x _ _. by eexists.
  - apply Forall_alter; [done|]. intros x _ [Hx _]. split; [done|]. by intros ? [= <-].
Qed.

Lemma hset_new es entries idx f v : hset_state es entries idx -> idx !! f = None -> text_ok f -> value_ok v ->
  f ∉ es.*1 /\ hset_state (es ++ [(f, Some v)]) (entries ++ [put (hashFieldKey h f) v]) (<[f := length entries]> idx).
Proof.
  intros [-> Hnd Hp Hok Hidx] Hj Hf Hv. assert (f ∉ es.*1) as Hn.
  { intros [j Hj']%list_elem_of_lookup. apply Hidx in Hj'. congruence. }
  split; [done|]. split.
  - by rewrite fmap_app, hashFieldKey_ckey.
  - rewrite fmap_app. apply NoDup_app. split; [done|]. split; [|apply NoDup_singleton]. intros x Hx ->%list_elem_of_singleton. done.
  - apply Forall_app. split; [done|]. apply Forall_singleton. by eexists.
  - apply Forall_app. split; [done|]. apply Forall_singleton. split; [done|]. by intros ? [= <-].
  - intros f' j'. rewrite fmap_app, length_fmap. destruct (decide (f' = f)) as [->|Hne].
    + rewrite lookup_insert_eq. split.
      * intros [= <-]. rewrite lookup_app_r by (by rewrite length_fmap). by rewrite length_fmap, Nat.sub_diag.
      * intros [Hl|[Hge Hl]]%lookup_app_Some; [exfalso; apply Hn; by eapply list_elem_of_lookup_2|].
        rewrite length_fmap in *. destruct (j' - length es)%nat eqn:E; [f_equal; lia|done].
    + rewrite lookup_insert_ne by done. rewrite Hidx. split; [intros Hl; by apply lookup_app_l_Some|].
      intros [Hl|[Hge Hl]]%lookup_app_Some; [done|]. destruct (j' - length es.*1)%nat; cbn in Hl; [congruence|done].
Qed.

Lemma hsetLoop_does w s flds es entries idx created :
  rep s M n t -> world_ok t w -> hset_state es entries idx -> pairs_ok flds ->
  does (hsetLoop w h flds entries idx created) s (fun r s' => rep s' M n t /\ exists es' idx',
    hset_state es' r.1 idx' /\ rec_writes D es' = hsetAll (rec_writes D es) flds /\
    r.2 = created + Z.of_nat (size (rec_writes D es')) - Z.of_nat (size (rec_writes D es)) /\
    fieldsCost 104 h es' <= fieldsCost 104 h es + opCost h flds - 1024).
Proof.
  revert s es entries idx created. induction flds as [flds IH] using (induction_ltof1 _ (@length bytes)). intros s es entries idx created Hr Hw Hs Hf.
  destruct flds as [|f [|v rest]]; cbn [hsetLoop].
  1, 2: apply does_ret; split; [done|]; exists es, idx; cbn in *; split; [done|]; split; [done|]; lia.
  destruct Hf as (Hf & Hv & Hrest). cbn [hsetAll].
  assert (ltof _ length rest (f :: v :: rest)) as Hlt by (unfold ltof; cbn; lia).
  destruct (idx !! f) as [j|] eqn:Ej.
  - eapply does_mono; [apply (IH rest Hlt s (alter (setField v) j es)); try done; by eapply hset_again|].
    intros r s' (Hr' & es' & idx' & Hs' & Ew & Ec & Ek). split; [done|]. exists es', idx'. split; [done|].
    assert (rec_writes D (alter (setField v) j es) = <[f:=v]> (rec_writes D es)) as E.
    { apply rec_writes_setField; [apply Hs|by apply (hs_idx _ _ _ Hs)]. }
    rewrite E in *. split; [done|]. pose proof (setField_cost 104 h v j es). unfold opCost in *. cbn [foldr]. split; [|lia].
    rewrite map_size_insert_Some in Ec; [lia|]. apply rec_writes_put; [apply Hs|apply Hs|].
    eapply list_elem_of_lookup_2, (hs_idx _ _ _ Hs), Ej.
  - destruct (hset_new es entries idx f v Hs Ej Hf Hv) as [Hn Hs1]. rewrite hashFieldKey_ckey in *.
    eapply does_step; [by eapply (get_field M n t 104 h D HD), world_clock|]. intros r1 s1 [-> Hr1].
    eapply does_mono; [by apply (IH rest Hlt s1 (es ++ [(f, Some v)]))|].
    intros r s' (Hr' & es' & idx' & Hs' & Ew & Ec & Ek). split; [done|]. exists es', idx'. split; [done|].
    rewrite rec_writes_snoc in *. split; [done|]. rewrite fieldsCost_app, fieldsCost_cons, fieldsCost_nil in Ek. cbn [fst snd from_option default id] in Ek.
    unfold opCost in *. cbn [foldr]. split; [|lia]. rewrite isOk_answer in Ec. rewrite <- (rec_writes_lookup_ne D es f Hn) in Ec.
    case_bool_decide as Hsome; [rewrite map_size_insert_Some in Ec by done; lia|].
    rewrite map_size_insert_None in Ec by (by apply eq_None_not_Some). lia.
Qed.

Lemma HSetMulti_does s w flds : rep s M n t -> world_ok t w -> pairs_ok flds -> opCost h flds <= n ->
  does (HSetMulti w h flds) s (fun r s' => exists es, rec_writes D es = hsetAll D flds /\
    written M n (opCost h flds) t 104 h es (Z.of_nat (size (hsetAll D flds)) - Z.of_nat (size D)) r s').
Proof.
  intros Hr Hw Hf Hc. unfold HSetMulti.
  eapply does_step; [by apply (hsetLoop_does w s flds [] [] ∅ 0 Hr Hw hset_start)|].
  intros [entries created] s' (Hr' & es & idx & [Hes Hnd _ Hok _] & Ew & Ec & Ek). cbn [fst snd] in *.
  change (rec_writes D []) with D in *. rewrite fieldsCost_nil in Ek. rewrite <- Ew. subst created.
  replace (0 + Z.of_nat (size (rec_writes D es)) - Z.of_nat (size D)) with (Z.of_nat (size (rec_writes D es)) - Z.of_nat (size D)) by lia.
  destruct es as [|e es]; subst entries; cbn [fmap list_fmap].
  - apply does_ret. exists []. split; [done|]. left. split; [f_equal; cbn; lia|]. rewrite fieldsCost_nil in *. split; [lia|]. eapply rep_less; [|exact Hr']. lia.
  - eapply does_mono; [apply (submit_fields M n t 104 h ltac:(is_byte) Hh s' w (e :: es) _ (opCost h flds)); try done; lia|].
    intros r s'' Hres. by exists (e :: es).
Qed.
End hash.

(** ** Sets *)

(** The record of a set: a member is a field with an empty value. *)
Definition setRec (X : gset bytes) : gmap bytes bytes := gset_to_gmap [] X.

Lemma setRec_lookup X m : setRec X !! m = if bool_decide (m ∈ X) then Some [] else None.
Proof. unfold setRec. rewrite lookup_gset_to_gmap. case_bool_decide; by case_guard. Qed.

Section set.
Context (M : kvmap) (n t : Z) (key : bytes) (X : gset bytes).
Hypothesis HX : fields M 116 key (setRec X).
Hypothesis Hkey : name_ok key.

Definition addMember (m : bytes) : bytes * option bytes := (m, Some []).
Definition remMember (m : bytes) : bytes * option bytes := (m, None).

Lemma add_members ms Y : rec_writes (setRec Y) (addMember <$> ms) = setRec (list_to_set ms ∪ Y).
Proof.
  unfold rec_writes. revert Y. induction ms as [|m ms IH]; intros Y; [by rewrite list_to_set_nil, union_empty_l_L|]. cbn [fmap list_fmap foldl].
  replace (rec_write (setRec Y) (addMember m)) with (setRec ({[m]} ∪ Y)); [rewrite IH; f_equal; set_solver|].
  unfold rec_write, setRec. cbn. by rewrite gset_to_gmap_union_singleton.
Qed.

Lemma rem_members ms Y : rec_writes (setRec Y) (remMember <$> ms) = setRec (Y ∖ list_to_set ms).
Proof.
  unfold rec_writes. revert Y. induction ms as [|m ms IH]; intros Y; [by rewrite list_to_set_nil, difference_empty_L|]. cbn [fmap list_fmap foldl].
  replace (rec_write (setRec Y) (remMember m)) with (setRec (Y ∖ {[m]})); [rewrite IH; f_equal; set_solver|].
  unfold rec_write, setRec. cbn. by rewrite gset_to_gmap_difference_singleton.
Qed.

Lemma add_fine ms : Forall text_ok ms -> Forall field_ok (addMember <$> ms).
Proof. intros H. apply Forall_fmap. eapply Forall_impl; [exact H|]. intros m Hm. split; [done|]. intros ? [= <-]. apply value_nil. Qed.

Lemma rem_fine ms : Forall text_ok ms -> Forall field_ok (remMember <$> ms).
Proof. intros H. apply Forall_fmap. eapply Forall_impl; [exact H|]. by intros m Hm. Qed.

Lemma get_member s now m : rep s M n t -> clock_ok t now ->
  does (db_getByKey now (setMemberKey key m)) s (fun r s' => isOk r = bool_decide (m ∈ X) /\ rep s' M n t).
Proof.
  intros Hr Hw. rewrite setMemberKey_ckey. eapply does_mono; [by eapply (get_field M n t 116 key _ HX)|]. intros r s' [-> Hr']. split; [|done].
  rewrite setRec_lookup. by case_bool_decide.
Qed.

(** [new]: the members named so far that were not in the set. *)
Record sadd_state (seen : gset bytes) (new : list bytes) (entries : list BatchWriteEntry) : Prop := {
  sa_entries : entries = fieldWrite 116 key <$> (addMember <$> new);
  sa_nodup : NoDup new;
  sa_new : forall m, m ∈ new -> m ∈ seen /\ m ∉ X;
  sa_seen : forall m, m ∈ seen -> m ∈ new \/ m ∈ X;
  sa_ok : Forall text_ok new;
}.

Lemma saddLoop_does w s members seen new entries added : rep s M n t -> world_ok t w -> sadd_state seen new entries -> Forall text_ok members ->
  does (saddLoop w key members seen entries added) s (fun r s' => rep s' M n t /\ exists seen' new',
    sadd_state seen' new' r.1 /\ seen' = list_to_set members ∪ seen /\ r.2 = added + Z.of_nat (length new') - Z.of_nat (length new) /\
    fieldsCost 116 key (addMember <$> new') <= fieldsCost 116 key (addMember <$> new) + opCost key members - 1024).
Proof.
  revert s seen new entries added. induction members as [|m members IH]; intros s seen new entries added Hr Hw Hs Hm; cbn [saddLoop].
  { apply does_ret. split; [done|]. exists seen, new. split; [done|]. split; [set_solver|]. cbn. lia. }
  apply Forall_cons in Hm as [Hm Hms]. rewrite opCost_cons. cbn [list_to_set].
  case_bool_decide as Hseen.
  - eapply does_mono; [by eapply IH|]. intros r s' (Hr' & seen' & new' & Hs' & -> & E & Hc). split; [done|]. eexists _, new'.
    split; [done|]. split; [set_solver|]. lia.
  - eapply does_step; [by apply get_member; [done|apply world_clock]|]. intros r1 s1 [E1 Hr1]. rewrite E1. case_bool_decide as HmX.
    + eapply does_mono; [eapply (IH s1 ({[m]} ∪ seen) new entries); try done|].
      * destruct Hs as [-> Hnd Hnew Hsn Hok]. split; try done; set_solver.
      * intros r s' (Hr' & seen' & new' & Hs' & -> & E & Hc). split; [done|]. eexists _, new'.
        split; [done|]. split; [set_solver|]. lia.
    + eapply does_mono; [eapply (IH s1 ({[m]} ∪ seen) (new ++ [m])); try done|].
      * destruct Hs as [-> Hnd Hnew Hsn Hok]. split.
        -- by rewrite !fmap_app, setMemberKey_ckey.
        -- apply NoDup_app. split; [done|]. split; [set_solver|apply NoDup_singleton].
        -- set_solver.
        -- set_solver.
        -- apply Forall_app. split; [done|by apply Forall_singleton].
      * intros r s' (Hr' & seen' & new' & Hs' & -> & E & Hc). split; [done|]. eexists _, new'. split; [done|]. split; [set_solver|].
        rewrite length_app in E. cbn in E. split; [lia|]. rewrite fmap_app, fieldsCost_app in Hc. cbn [fmap list_fmap] in Hc.
        rewrite fieldsCost_cons, fieldsCost_nil in Hc. cbn in Hc. cbn. lia.
Qed.

Lemma SAdd_does s w members : rep s M n t -> world_ok t w -> Forall text_ok members -> opCost key members <= n ->
  does (SAdd w key members) s (fun r s' => exists fs, rec_writes (setRec X) fs = setRec (list_to_set members ∪ X) /\
    written M n (opCost key members) t 116 key fs (Z.of_nat (size (list_to_set members ∪ X)) - Z.of_nat (size X)) r s').
Proof.
  intros Hr Hw Hm Hc. unfold SAdd. eapply does_step; [apply (saddLoop_does w s members ∅ [] [] 0); try done|].
  { split; [done|constructor|set_solver|set_solver|constructor]. }
  intros [entries added] s' (Hr' & seen & new & [-> Hnd Hnew Hseen Hok] & -> & -> & Ek). cbn [fst snd] in *. cbn [fmap list_fmap] in Ek.
  rewrite fieldsCost_nil in Ek. assert (list_to_set members ∪ X = list_to_set new ∪ X) as E by (apply set_eq; set_solver).
  assert (Z.of_nat (size (list_to_set new ∪ X)) = Z.of_nat (length new) + Z.of_nat (size X)) as Hsz.
  { rewrite size_union by set_solver. rewrite size_list_to_set by done. lia. }
  rewrite E, Hsz. replace (0 + Z.of_nat (length new) - Z.of_nat (length [])) with (Z.of_nat (length new) + Z.of_nat (size X) - Z.of_nat (size X)) by (cbn; lia).
  eapply does_mono; [apply (submitSome_does M n t 116 key ltac:(is_byte) Hkey _ _ _ _ (opCost key members)); try done|].
  - rewrite <- list_fmap_compose. by rewrite list_fmap_id.
  - by apply add_fine.
  - lia.
  - intros r s'' Hres. exists (addMember <$> new). split; [apply add_members|done].
Qed.

Lemma sremLoop_does w s members entries removed : rep s M n t -> world_ok t w ->
  does (sremLoop w key members entries removed) s (fun r s' => rep s' M n t /\
    r = (entries ++ (fieldWrite 116 key <$> (remMember <$> filter (.∈ X) members)), removed + Z.of_nat (length (filter (.∈ X) members)))).
Proof.
  revert s entries removed. induction members as [|m members IH]; intros s entries removed Hr Hw; cbn [sremLoop].
  { apply does_ret. split; [done|]. cbn. rewrite app_nil_r. f_equal. lia. }
  eapply does_step; [by apply get_member; [done|apply world_clock]|]. intros r1 s1 [E1 Hr1]. rewrite E1, filter_cons. case_bool_decide.
  - rewrite decide_True by done. eapply does_mono; [by apply IH|]. intros r s' [Hr' ->]. split; [done|]. cbn [fmap list_fmap length].
    rewrite <- app_assoc, setMemberKey_ckey. f_equal. lia.
  - rewrite decide_False by done. by apply IH.
Qed.

Lemma SRem_does s w members : rep s M n t -> world_ok t w -> NoDup members -> Forall text_ok members -> opCost key members <= n ->
  does (SRem w key members) s (fun r s' => exists fs, rec_writes (setRec X) fs = setRec (X ∖ list_to_set members) /\
    written M n (opCost key members) t 116 key fs (Z.of_nat (size X) - Z.of_nat (size (X ∖ list_to_set members))) r s').
Proof.
  intros Hr Hw Hnd Hm Hc. unfold SRem. eapply does_step; [by apply sremLoop_does|]. intros r1 s1 [Hr1 ->]. cbn [fst snd app].
  set (gone := filter (.∈ X) members). assert (NoDup gone) as Hnd' by (by apply NoDup_filter).
  assert (X ∖ list_to_set members = X ∖ list_to_set gone) as E.
  { apply set_eq. intros x. unfold gone. rewrite !elem_of_difference, !elem_of_list_to_set, list_elem_of_filter. tauto. }
  assert (Z.of_nat (size X) - Z.of_nat (size (X ∖ list_to_set gone)) = Z.of_nat (length gone)) as Hsz.
  { rewrite size_difference.
    - rewrite size_list_to_set by done. assert (length gone <= size X)%nat; [|lia]. rewrite <- (size_list_to_set (C := gset bytes) gone) by done.
      apply subseteq_size. intros x. unfold gone. rewrite elem_of_list_to_set, list_elem_of_filter. tauto.
    - intros x. unfold gone. rewrite elem_of_list_to_set, list_elem_of_filter. tauto. }
  rewrite E, Hsz. replace (0 + Z.of_nat (length gone)) with (Z.of_nat (length gone)) by lia.
  eapply does_mono; [apply (submitSome_does M n t 116 key ltac:(is_byte) Hkey _ _ _ _ (opCost key members)); try done|].
  - rewrite <- list_fmap_compose. by rewrite list_fmap_id.
  - apply rem_fine. rewrite Forall_forall in *. intros x [_ Hx]%list_elem_of_filter. by apply Hm.
  - unfold gone. clear.
    induction members as [|m ms IH]; [done|]. rewrite filter_cons, opCost_cons. case_decide; cbn [fmap list_fmap]; [rewrite fieldsCost_cons; cbn; lia|lia].
  - intros r s'' Hres. exists (remMember <$> gone). split; [apply rem_members|done].
Qed.

Lemma SMembers_does s now : rep s M n t -> clock_ok t now ->
  does (SMembers now key) s (fun r s' => (StronglySorted bytes_lt r /\ forall m, m ∈ r <-> m ∈ X) /\ rep s' M n t).
Proof.
  intros Hr Hw. unfold SMembers. rewrite ckey_prefix_t. eapply does_step; [by eapply (prefix_fields M n t 116 key _ HX)|].
  intros m s' [-> Hr']. apply does_ret. split; [|done]. destruct (sorted_names 116 key (setRec X)) as [H1 H2]. split; [done|].
  intros k. rewrite H2, setRec_lookup. case_bool_decide; split; [done|eauto|by intros [? ?]|done].
Qed.

Lemma SCard_does s now : rep s M n t -> clock_ok t now -> does (SCard now key) s (fun r s' => r = Z.of_nat (size X) /\ rep s' M n t).
Proof.
  intros Hr Hw. unfold SCard. rewrite ckey_prefix_t. eapply does_step; [by eapply (prefix_fields M n t 116 key _ HX)|].
  intros m s' [-> Hr']. apply does_ret. split; [|done]. rewrite size_fields. unfold setRec.
  by rewrite <- (size_dom (D := gset bytes)), dom_gset_to_gmap.
Qed.

Lemma SIsMember_does s now m : rep s M n t -> clock_ok t now ->
  does (SIsMember now key m) s (fun r s' => r = bool_decide (m ∈ X) /\ rep s' M n t).
Proof.
  intros Hr Hw. unfold SIsMember. eapply does_step; [by apply get_member|]. intros r s' [E Hr']. by apply does_ret.
Qed.
End set.

Lemma stripped_set key X m : m ∈ stripped (setPrefix key) (kmap (ckey 116 key) (setRec X)) <-> m ∈ X.
Proof.
  rewrite ckey_prefix_t, stripped_fields, list_elem_of_fmap. split.
  - intros ([m' v] & -> & Hin). apply elem_of_map_to_list in Hin. rewrite setRec_lookup in Hin. by case_bool_decide.
  - intros Hm. exists (m, []). split; [done|]. apply elem_of_map_to_list. rewrite setRec_lookup. by case_bool_decide.
Qed.

Lemma interLoop_does (M : kvmap) (n t : Z) (X : bytes -> gset bytes) (s : S) (now : Z) (keys : list bytes) (acc : gset bytes) :
  (forall k, k ∈ keys -> fields M 116 k (setRec (X k))) -> rep s M n t -> clock_ok t now ->
  does (interLoop now keys acc) s (fun r s' => (forall m, m ∈ r <-> m ∈ acc /\ forall k, k ∈ keys -> m ∈ X k) /\ rep s' M n t).
Proof.
  revert s acc. induction keys as [|k keys IH]; intros s acc HX Hr Hw; cbn [interLoop].
  { apply does_ret. split; [set_solver|done]. }
  destruct (Nat.eqb_spec (size acc) 0) as [E|_].
  { apply does_ret. split; [|done]. apply size_empty_inv in E. set_solver. }
  rewrite ckey_prefix_t. eapply does_step; [eapply (prefix_fields M n t 116 k); [apply HX; set_solver|done|done]|].
  intros m s1 [-> Hr1]. eapply does_mono; [apply IH; [set_solver|done|done]|]. intros r s2 [Hm Hr2]. split; [|done].
  intros x. rewrite Hm, elem_of_list_to_set, list_elem_of_filter, stripped_set. set_solver.
Qed.

Lemma SInter_does (M : kvmap) (n t : Z) (X : bytes -> gset bytes) (s : S) (now : Z) (keys : list bytes) :
  (forall k, k ∈ keys -> fields M 116 k (setRec (X k))) -> rep s M n t -> clock_ok t now ->
  does (SInter now keys) s (fun r s' =>
    (StronglySorted bytes_lt r /\ forall m, m ∈ r <-> keys <> [] /\ forall k, k ∈ keys -> m ∈ X k) /\ rep s' M n t).
Proof.
  intros HX Hr Hw. destruct keys as [|k keys]; cbn [SInter]; [apply does_ret; split; [split; [constructor|set_solver]|done]|].
  rewrite ckey_prefix_t. eapply does_step; [eapply (prefix_fields M n t 116 k); [apply HX; set_solver|done|done]|].
  intros m s1 [-> Hr1]. eapply does_step; [apply (interLoop_does M n t X); [set_solver|done|done]|]. intros r s2 [Hm Hr2]. apply does_ret.
  split; [|done]. destruct (sortStrings_spec (elements r)) as [Hp Hs]. split; [apply Hs, NoDup_elements|]. intros x.
  rewrite Hp, elem_of_elements, Hm, elem_of_list_to_set, stripped_set. set_solver.
Qed.
End ops.
