(* ===== verification/CollLists.v ===== *)
(** * Lists on any store

    A list is stored as its elements under consecutive indices and a record of
    the first index and the one behind the last; pushes and pops move these. *)
From S2P Require Import Prelude Mvcc Strconv Encoding Values VlogSpec Engine EngineSteps Scan ScanSpec Store Collections CollKeys CollOps.

(** ** The record of a list *)

#[local] Opaque elemRest metaBuf.

(** Everything but the "meta" record. *)
Definition elems (h : Z) (l : list bytes) (D : gmap bytes bytes) : Prop :=
  forall r v, r <> metaRest -> D !! r = Some v <-> exists i : nat, r = elemRest (h + Z.of_nat i) /\ l !! i = Some v.

Definition list_fits (h : Z) (l : list bytes) : Prop := - 2 ^ 62 <= h /\ h + Z.of_nat (length l) < 2 ^ 62.

(** The list [l] with its first element at index [h]. *)
Record list_rec (h : Z) (l : list bytes) (D : gmap bytes bytes) : Prop := {
  lr_elems : elems h l D;
  lr_meta : D !! metaRest = if decide (l = []) then None else Some (metaBuf h (h + Z.of_nat (length l)));
  lr_fits : list_fits h l;
  lr_zero : l = [] -> h = 0;
}.

Lemma elemRest_at h i j : is_index (h + Z.of_nat i) -> is_index (h + Z.of_nat j) -> elemRest (h + Z.of_nat i) = elemRest (h + Z.of_nat j) -> i = j.
Proof. intros Hi Hj E. apply elemRest_inj in E; [lia|done|done]. Qed.

Lemma elems_cons h l v D : elems h l D -> list_fits (h - 1) (v :: l) -> elems (h - 1) (v :: l) (<[elemRest (h - 1) := v]> D).
Proof.
  intros He [Hf1 Hf2] r v' Hr. cbn [length] in Hf2. rewrite lookup_insert_Some. split.
  - intros [[<- <-]|[Hne Hv]]; [exists 0%nat; split; [f_equal; lia|done]|]. apply He in Hv as (i & -> & Hi); [|done]. exists (S i). split; [f_equal; lia|done].
  - intros ([|i] & -> & Hi); cbn in Hi; [left; split; [f_equal; lia|by injection Hi]|]. right. split.
    + intros E. apply elemRest_inj in E; [lia|unfold is_index; lia|]. apply lookup_lt_Some in Hi. unfold is_index. lia.
    + apply He; [done|]. exists i. split; [f_equal; lia|done].
Qed.

Lemma elems_snoc h l v D : elems h l D -> list_fits h (l ++ [v]) -> elems h (l ++ [v]) (<[elemRest (h + Z.of_nat (length l)) := v]> D).
Proof.
  intros He [Hf1 Hf2] r v' Hr. rewrite length_app in Hf2. cbn in Hf2. rewrite lookup_insert_Some. split.
  - intros [[<- <-]|[Hne Hv]]; [exists (length l); split; [done|by rewrite lookup_app_r, Nat.sub_diag]|].
    apply He in Hv as (i & -> & Hi); [|done]. exists i. split; [done|]. by apply lookup_app_l_Some.
  - intros (i & -> & [Hi|[Hi Hv]]%lookup_app_Some).
    + right. split; [|apply He; [exact Hr|exists i; split; [reflexivity|exact Hi]]]. apply lookup_lt_Some in Hi. intros E. apply elemRest_inj in E; [lia|unfold is_index; lia..].
    + left. apply list_lookup_singleton_Some in Hv as [E ->]. replace i with (length l) by lia. done.
Qed.

Lemma elems_tail h l v D : elems h (v :: l) D -> list_fits h (v :: l) -> elems (h + 1) l (delete (elemRest h) D).
Proof.
  intros He [Hf1 Hf2] r v' Hr. cbn [length] in Hf2. rewrite lookup_delete_Some, (He r v' Hr). split.
  - intros (Hne & [|i] & -> & Hi); [exfalso; apply Hne; f_equal; lia|]. exists i. split; [f_equal; lia|done].
  - intros (i & -> & Hi). split; [|exists (S i); split; [f_equal; lia|done]]. apply lookup_lt_Some in Hi.
    intros E. apply elemRest_inj in E; [lia|unfold is_index; lia..].
Qed.

Lemma elems_init h l v D : elems h (l ++ [v]) D -> list_fits h (l ++ [v]) -> elems h l (delete (elemRest (h + Z.of_nat (length l))) D).
Proof.
  intros He [Hf1 Hf2] r v' Hr. rewrite length_app in Hf2. cbn in Hf2. rewrite lookup_delete_Some, (He r v' Hr). split.
  - intros (Hne & i & -> & [Hi|[Hi Hv]]%lookup_app_Some); [exists i; split; [reflexivity|exact Hi]|].
    apply list_lookup_singleton_Some in Hv as [E _]. exfalso. apply Hne. replace i with (length l) by lia. reflexivity.
  - intros (i & -> & Hi). split; [|exists i; split; [done|by apply lookup_app_l_Some]]. apply lookup_lt_Some in Hi.
    intros E. apply elemRest_inj in E; [lia|unfold is_index; lia..].
Qed.

Lemma elems_meta h l D v : elems h l D -> elems h l (<[metaRest := v]> D).
Proof. intros He r v' Hr. rewrite lookup_insert_ne by done. by apply He. Qed.

Lemma elems_unmeta h l D : elems h l D -> elems h l (delete metaRest D).
Proof. intros He r v' Hr. rewrite lookup_delete_ne by done. by apply He. Qed.

Lemma elems_nil h D : elems h [] D -> elems 0 [] D.
Proof. intros He r v Hr. rewrite (He r v Hr). split; intros (i & _ & Hi); by rewrite lookup_nil in Hi. Qed.

(** ** Texts *)

#[local] Transparent elemRest metaBuf.

Lemma metaBuf_decode h tl : is_i64 h -> is_i64 tl ->
  length (metaBuf h tl) = 16%nat /\ i64 (be_decode (slice (metaBuf h tl) 0 8)) = h /\ i64 (be_decode (slice (metaBuf h tl) 8 16)) = tl.
Proof.
  intros Hh Ht. unfold metaBuf. pose proof (u64_range h) as H1. pose proof (u64_range tl) as H2. unfold is_u64 in *.
  rewrite length_app, !length_be_encode. split; [done|].
  rewrite slice_app_take, slice_all by (rewrite ?length_be_encode; lia).
  rewrite slice_app_drop, length_be_encode, slice_all by (rewrite ?length_be_encode; lia).
  rewrite !be_decode_encode_id by done. by rewrite !i64_u64.
Qed.

Lemma metaBuf_length h tl : length (metaBuf h tl) = 16%nat.
Proof. unfold metaBuf. by rewrite length_app, !length_be_encode. Qed.

Lemma value_meta h tl : value_ok (metaBuf h tl).
Proof.
  unfold metaBuf. split; [split|].
  - apply wf_bytes_app. split; apply wf_be_encode.
  - rewrite length_app, !length_be_encode. lia.
  - unfold isValuePointer. by rewrite length_app, !length_be_encode.
Qed.

Lemma zeroPad_bytes width ds : wf_bytes ds -> (length ds <= 20)%nat -> (width <= 20)%nat ->
  wf_bytes (zeroPad width ds) /\ (length (zeroPad width ds) <= 20)%nat.
Proof.
  intros Hd Hl Hw. unfold zeroPad. rewrite length_app, length_replicate. split; [|lia]. apply wf_bytes_app. split; [|done].
  apply Forall_replicate. unfold is_u8. lia.
Qed.

Lemma elemRest_bytes i : wf_bytes (elemRest i) /\ (length (elemRest i) <= 21)%nat.
Proof.
  unfold elemRest, format020d. pose proof (i64_range (i + 2 ^ 62)) as Hr. unfold is_i64 in Hr.
  assert (forall m, 0 <= m -> wf_bytes (FormatUint m) /\ (length (FormatUint m) <= 20)%nat) as Hu.
  { intros m Hm. destruct (formatLoop_bytes 20 m []) as [H1 H2]; [lia|constructor|]. by rewrite Nat.add_0_r in H2. }
  destruct (Z.ltb_spec (i64 (i + 2 ^ 62)) 0) as [Hn|Hn].
  - destruct (Hu (- i64 (i + 2 ^ 62))) as [H1 H2]; [lia|]. destruct (zeroPad_bytes 19 _ H1 H2) as [H3 H4]; [lia|].
    split; [by constructor|]. cbn [length]. lia.
  - destruct (Hu (i64 (i + 2 ^ 62))) as [H1 H2]; [lia|]. destruct (zeroPad_bytes 20 _ H1 H2) as [H3 H4]; [lia|]. split; [done|lia].
Qed.

Lemma text_elem i : text_ok (elemRest i).
Proof. destruct (elemRest_bytes i). split; [done|lia]. Qed.

Lemma text_meta : text_ok metaRest.
Proof. split; [|cbn; lia]. repeat (constructor; [unfold is_u8; lia|]). constructor. Qed.

#[local] Opaque elemRest metaBuf.

(** ** Operations *)

(** The writes of a push at the left and at the right. *)
Fixpoint lpushFields (h : Z) (vs : list bytes) : list (bytes * option bytes) :=
  match vs with [] => [] | v :: vs => (elemRest (h - 1), Some v) :: lpushFields (h - 1) vs end.
Fixpoint rpushFields (tl : Z) (vs : list bytes) : list (bytes * option bytes) :=
  match vs with [] => [] | v :: vs => (elemRest tl, Some v) :: rpushFields (tl + 1) vs end.

Lemma lpushFields_keys h vs r : r ∈ (lpushFields h vs).*1 -> exists i, h - Z.of_nat (length vs) <= i < h /\ r = elemRest i.
Proof.
  revert h. induction vs as [|v vs IH]; intros h Hr; cbn in Hr; [by apply elem_of_nil in Hr|]. cbn [length].
  apply elem_of_cons in Hr as [->|Hr]; [exists (h - 1); split; [lia|reflexivity]|]. destruct (IH (h - 1) Hr) as (i & Hi & ->). exists i. split; [lia|reflexivity].
Qed.

Lemma rpushFields_keys tl vs r : r ∈ (rpushFields tl vs).*1 -> exists i, tl <= i < tl + Z.of_nat (length vs) /\ r = elemRest i.
Proof.
  revert tl. induction vs as [|v vs IH]; intros h Hr; cbn in Hr; [by apply elem_of_nil in Hr|]. cbn [length].
  apply elem_of_cons in Hr as [->|Hr]; [exists h; split; [lia|reflexivity]|]. destruct (IH (h + 1) Hr) as (i & Hi & ->). exists i. split; [lia|reflexivity].
Qed.

Lemma lpushFields_nodup h vs : h <= 2 ^ 62 -> - 2 ^ 62 <= h - Z.of_nat (length vs) -> NoDup (lpushFields h vs).*1.
Proof.
  revert h. induction vs as [|v vs IH]; intros h H1 H2; cbn [lpushFields fmap list_fmap fst]; [constructor|]. cbn [length] in H2. constructor; [|apply IH; lia].
  intros (i & Hi & E)%lpushFields_keys. apply elemRest_inj in E; [lia|unfold is_index; lia..].
Qed.

Lemma rpushFields_nodup tl vs : - 2 ^ 62 <= tl -> tl + Z.of_nat (length vs) <= 2 ^ 62 -> NoDup (rpushFields tl vs).*1.
Proof.
  revert tl. induction vs as [|v vs IH]; intros h H1 H2; cbn [rpushFields fmap list_fmap fst]; [constructor|]. cbn [length] in H2. constructor; [|apply IH; lia].
  intros (i & Hi & E)%rpushFields_keys. apply elemRest_inj in E; [lia|unfold is_index; lia..].
Qed.

Lemma lpush_elems h l vs D : elems h l D -> list_fits (h - Z.of_nat (length vs)) (rev vs ++ l) ->
  elems (h - Z.of_nat (length vs)) (rev vs ++ l) (rec_writes D (lpushFields h vs)).
Proof.
  unfold rec_writes. revert h l D. induction vs as [|v vs IH]; intros h l D He Hf; cbn [lpushFields foldl rev length] in *.
  - cbn [app]. replace (h - Z.of_nat 0) with h by lia. exact He.
  - rewrite <- app_assoc in *. cbn [app] in *. replace (h - Z.of_nat (S (length vs))) with (h - 1 - Z.of_nat (length vs)) in * by lia.
    apply IH; [|exact Hf]. apply elems_cons; [exact He|]. unfold list_fits in *. rewrite length_app, length_rev in Hf. cbn [length] in *. lia.
Qed.

Lemma rpush_elems h l vs D : elems h l D -> list_fits h (l ++ vs) ->
  elems h (l ++ vs) (rec_writes D (rpushFields (h + Z.of_nat (length l)) vs)).
Proof.
  unfold rec_writes. revert l D. induction vs as [|v vs IH]; intros l D He Hf; cbn [rpushFields foldl] in *.
  - rewrite app_nil_r. exact He.
  - replace (l ++ v :: vs) with ((l ++ [v]) ++ vs) in * by (by rewrite <- app_assoc).
    replace (h + Z.of_nat (length l) + 1) with (h + Z.of_nat (length (l ++ [v]))) by (rewrite length_app; cbn; lia).
    apply IH; [|exact Hf]. apply elems_snoc; [exact He|]. unfold list_fits in *. rewrite !length_app in *. cbn [length] in *. lia.
Qed.

Lemma lpushLoop_spec key vs h entries : - 2 ^ 62 <= h - Z.of_nat (length vs) -> h <= 2 ^ 62 ->
  lpushLoop key vs h entries = (h - Z.of_nat (length vs), entries ++ (fieldWrite 108 key <$> lpushFields h vs)).
Proof.
  revert h entries. induction vs as [|v vs IH]; intros h entries H1 H2; cbn [lpushLoop lpushFields fmap list_fmap length] in *.
  - rewrite app_nil_r. f_equal. lia.
  - rewrite i64_id by (unfold is_i64; lia). rewrite IH by lia. rewrite <- app_assoc, listElemKey_ckey. f_equal. lia.
Qed.

Lemma rpushLoop_spec key vs tl entries : - 2 ^ 62 <= tl -> tl + Z.of_nat (length vs) <= 2 ^ 62 ->
  rpushLoop key vs tl entries = (tl + Z.of_nat (length vs), entries ++ (fieldWrite 108 key <$> rpushFields tl vs)).
Proof.
  revert tl entries. induction vs as [|v vs IH]; intros h entries H1 H2; cbn [rpushLoop rpushFields fmap list_fmap length] in *.
  - rewrite app_nil_r. f_equal. lia.
  - rewrite i64_id by (unfold is_i64; lia). rewrite IH by lia. rewrite <- app_assoc, listElemKey_ckey. f_equal. lia.
Qed.

Lemma push_cost name vs fs : (forall i v, fs !! i = Some v -> exists x, vs !! i = Some x /\ v.2 = Some x /\ (length v.1 <= 21)%nat) ->
  length fs = length vs -> fieldsCost 108 name fs + Z.of_nat (length vs) * Z.of_nat (length name) + 600 <= opCost name vs.
Proof.
  revert fs. induction vs as [|v vs IH]; intros [|f fs] Hfs Hl; [|done|done|].
  - rewrite fieldsCost_nil. unfold opCost. cbn. lia.
  - rewrite fieldsCost_cons, opCost_cons. destruct (Hfs 0%nat f eq_refl) as (x & [= <-] & -> & Hx). cbn [default from_option id].
    assert (length fs = length vs) as Hl' by (by injection Hl). specialize (IH fs (fun i => Hfs (S i)) Hl').
    cbn [length]. lia.
Qed.

Lemma lpush_cost name h vs : fieldsCost 108 name (lpushFields h vs) + Z.of_nat (length vs) * Z.of_nat (length name) + 600 <= opCost name vs.
Proof.
  apply push_cost.
  - revert h. induction vs as [|v vs IH]; intros h [|i] f Hi; cbn in Hi; [done|done| |by eapply IH].
    injection Hi as <-. exists v. split; [done|]. split; [done|]. apply elemRest_bytes.
  - revert h. induction vs; intros h; cbn; [done|by f_equal].
Qed.

Lemma rpush_cost name h vs : fieldsCost 108 name (rpushFields h vs) + Z.of_nat (length vs) * Z.of_nat (length name) + 600 <= opCost name vs.
Proof.
  apply push_cost.
  - revert h. induction vs as [|v vs IH]; intros h [|i] f Hi; cbn in Hi; [done|done| |by eapply IH].
    injection Hi as <-. exists v. split; [done|]. split; [done|]. apply elemRest_bytes.
  - revert h. induction vs; intros h; cbn; [done|by f_equal].
Qed.

Lemma lpush_fine h vs : Forall value_ok vs -> Forall field_ok (lpushFields h vs).
Proof.
  intros H. revert h. induction H as [|v vs Hv Hvs IH]; intros h; cbn [lpushFields]; [constructor|]. constructor; [|apply IH].
  split; [apply text_elem|]. by intros ? [= <-].
Qed.

Lemma rpush_fine h vs : Forall value_ok vs -> Forall field_ok (rpushFields h vs).
Proof.
  intros H. revert h. induction H as [|v vs Hv Hvs IH]; intros h; cbn [rpushFields]; [constructor|]. constructor; [|apply IH].
  split; [apply text_elem|]. by intros ? [= <-].
Qed.

(** [LRANGE]: negative positions count from the end, ends beyond the list are
    cut off. *)
Definition lrange (l : list bytes) (start stop : Z) : list bytes :=
  let n := Z.of_nat (length l) in
  let a := Z.max 0 (if start <? 0 then n + start else start) in
  let b := Z.min (n - 1) (if stop <? 0 then n + stop else stop) in
  if n =? 0 then [] else if b <? a then [] else slice l (Z.to_nat a) (Z.to_nat b + 1).

Lemma list_head_case {A} (l : list A) : l = [] \/ exists v l', l = v :: l'.
Proof. destruct l; eauto. Qed.

Lemma list_last_case {A} (l : list A) : l = [] \/ exists v l', l = l' ++ [v].
Proof. destruct l as [|v l'] using rev_ind; eauto. Qed.

Section list.
Context {S : Type} `{HS : !Store S} {Ex : bytes -> Prop} `{HL : !StoreLaws S Ex}.
Context (M : kvmap) (n t : Z) (key : bytes) (D : gmap bytes bytes) (h : Z) (l : list bytes).
Hypothesis HD : fields M 108 key D.
Hypothesis Hl : list_rec h l D.
Hypothesis Hkey : name_ok key.

Lemma list_fits_i64 : is_i64 h /\ is_i64 (h + Z.of_nat (length l)).
Proof. destruct (lr_fits _ _ _ Hl). unfold is_i64. lia. Qed.

Lemma listMeta_does s now : rep s M n t -> clock_ok t now ->
  does (listMeta now key) s (fun r s' => r = (h, h + Z.of_nat (length l)) /\ rep s' M n t).
Proof.
  intros Hr Hw. unfold listMeta. rewrite listMetaKey_ckey. eapply does_step; [by eapply (get_field M n t 108 key D HD)|].
  intros r s' [-> Hr']. apply does_ret. split; [|done]. rewrite (lr_meta _ _ _ Hl). destruct (decide (l = [])) as [->|Hne]; cbn [kv_answer].
  - rewrite (lr_zero _ _ _ Hl eq_refl). done.
  - destruct list_fits_i64 as [H1 H2]. destruct (metaBuf_decode _ _ H1 H2) as (E1 & E2 & E3). rewrite E1, E2, E3. done.
Qed.

Lemma LLen_does s now : rep s M n t -> clock_ok t now -> does (LLen now key) s (fun r s' => r = Z.of_nat (length l) /\ rep s' M n t).
Proof.
  intros Hr Hw. unfold LLen, listLen. rewrite listMetaKey_ckey. eapply does_step; [by eapply (get_field M n t 108 key D HD)|].
  intros r s' [-> Hr']. apply does_ret. split; [|done]. rewrite (lr_meta _ _ _ Hl). destruct (decide (l = [])) as [->|Hne]; cbn [kv_answer]; [done|].
  destruct list_fits_i64 as [H1 H2]. destruct (metaBuf_decode _ _ H1 H2) as (E1 & E2 & E3). rewrite E1, E2, E3. cbn [Nat.ltb Nat.leb].
  destruct (lr_fits _ _ _ Hl). rewrite i64_id by (unfold is_i64; lia). lia.
Qed.

(** A push at an end with the new "meta" record. *)
Lemma push_does s w fs h' l' c : rep s M n t -> world_ok t w -> NoDup fs.*1 -> Forall field_ok fs -> metaRest ∉ fs.*1 ->
  fieldsCost 108 key fs + Z.of_nat (length key) + 600 <= c -> c <= n -> l' <> [] -> list_fits h' l' -> elems h' l' (rec_writes D fs) ->
  does (submitThen w ((fieldWrite 108 key <$> fs) ++ [put (listMetaKey key) (metaBuf h' (h' + Z.of_nat (length l')))]) (Z.of_nat (length l'))) s
    (fun r s' => exists fs', list_rec h' l' (rec_writes D fs') /\ written M n c t 108 key fs' (Z.of_nat (length l')) r s').
Proof.
  intros Hr Hw Hnd Hok Hm Hc Hn Hne Hf He. set (fs' := fs ++ [(metaRest, Some (metaBuf h' (h' + Z.of_nat (length l'))))]).
  replace (_ ++ _) with (fieldWrite 108 key <$> fs') by (unfold fs'; rewrite fmap_app; reflexivity).
  eapply does_mono; [apply (submit_fields M n t 108 key ltac:(is_byte) Hkey s w fs' _ c); try done|].
  - unfold fs'. by destruct fs.
  - unfold fs'. rewrite fmap_app. apply NoDup_app. split; [exact Hnd|]. split; [|apply NoDup_singleton]. by intros x Hx ->%list_elem_of_singleton.
  - unfold fs'. apply Forall_app. split; [exact Hok|]. apply Forall_singleton. split; [apply text_meta|]. intros ? [= <-]. apply value_meta.
  - unfold fs'. rewrite fieldsCost_app, fieldsCost_cons, fieldsCost_nil. cbn [fst snd default from_option id].
    rewrite metaBuf_length. change (length metaRest) with 4%nat. lia.
  - intros r s' Hres. exists fs'. split; [|exact Hres]. unfold fs'. rewrite rec_writes_snoc. split.
    + by apply elems_meta.
    + rewrite lookup_insert_eq. by destruct (decide (l' = [])).
    + done.
    + done.
Qed.

Lemma LPush_does s w vs : rep s M n t -> world_ok t w -> vs <> [] -> Forall value_ok vs -> opCost key vs <= n ->
  list_fits (h - Z.of_nat (length vs)) (rev vs ++ l) ->
  does (LPush w key vs) s (fun r s' => exists fs, list_rec (h - Z.of_nat (length vs)) (rev vs ++ l) (rec_writes D fs) /\
    written M n (opCost key vs) t 108 key fs (Z.of_nat (length (rev vs ++ l))) r s').
Proof.
  intros Hr Hw Hne Hv Hc Hf. unfold LPush. eapply does_step; [by apply listMeta_does; [done|apply world_clock]|].
  intros ht s1 [-> Hr1]. cbn [fst snd]. pose proof (lr_fits _ _ _ Hl) as Hf0. pose proof Hf as Hf1. unfold list_fits in Hf0, Hf1.
  rewrite length_app, length_rev in Hf1. rewrite lpushLoop_spec by lia. cbn [app].
  replace (h + Z.of_nat (length l)) with (h - Z.of_nat (length vs) + Z.of_nat (length (rev vs ++ l))) by (rewrite length_app, length_rev; lia).
  replace (i64 _) with (Z.of_nat (length (rev vs ++ l))) by (rewrite i64_id; [lia|unfold is_i64; rewrite length_app, length_rev; lia]).
  apply (push_does s1 w _ _ _ (opCost key vs)); try done.
  - apply lpushFields_nodup; lia.
  - by apply lpush_fine.
  - intros (i & _ & E)%lpushFields_keys. by apply (elemRest_meta i).
  - pose proof (lpush_cost key h vs). destruct vs; [done|]. cbn [length] in *. lia.
  - intros [E1 ->]%app_eq_nil. apply (f_equal length) in E1. rewrite length_rev in E1. by destruct vs.
  - apply lpush_elems; [apply Hl|done].
Qed.

Lemma RPush_does s w vs : rep s M n t -> world_ok t w -> vs <> [] -> Forall value_ok vs -> opCost key vs <= n -> list_fits h (l ++ vs) ->
  does (RPush w key vs) s (fun r s' => exists fs, list_rec h (l ++ vs) (rec_writes D fs) /\
    written M n (opCost key vs) t 108 key fs (Z.of_nat (length (l ++ vs))) r s').
Proof.
  intros Hr Hw Hne Hv Hc Hf. unfold RPush. eapply does_step; [by apply listMeta_does; [done|apply world_clock]|].
  intros ht s1 [-> Hr1]. cbn [fst snd]. pose proof (lr_fits _ _ _ Hl) as Hf0. pose proof Hf as Hf1. unfold list_fits in Hf0, Hf1.
  rewrite length_app in Hf1. rewrite rpushLoop_spec by lia. cbn [app].
  replace (h + Z.of_nat (length l) + Z.of_nat (length vs)) with (h + Z.of_nat (length (l ++ vs))) by (rewrite length_app; lia).
  replace (i64 _) with (Z.of_nat (length (l ++ vs))) by (rewrite i64_id; [lia|unfold is_i64; rewrite length_app; lia]).
  apply (push_does s1 w _ _ _ (opCost key vs)); try done.
  - apply rpushFields_nodup; lia.
  - by apply rpush_fine.
  - intros (i & _ & E)%rpushFields_keys. by apply (elemRest_meta i).
  - pose proof (rpush_cost key (h + Z.of_nat (length l)) vs). destruct vs; [done|]. cbn [length] in *. lia.
  - intros [_ ->]%app_eq_nil. done.
  - apply rpush_elems; [apply Hl|done].
Qed.

Lemma get_elem s now (i : nat) : rep s M n t -> clock_ok t now ->
  does (db_getByKey now (listElemKey key (h + Z.of_nat i))) s (fun r s' => (forall v, l !! i = Some v -> r = Ok v) /\ rep s' M n t).
Proof.
  intros Hr Hw. rewrite listElemKey_ckey. eapply does_mono; [by eapply (get_field M n t 108 key D HD)|]. intros r s' [-> Hr']. split; [|done].
  intros v Hv. assert (D !! elemRest (h + Z.of_nat i) = Some v) as ->; [|done]. apply (lr_elems _ _ _ Hl); [apply elemRest_meta|].
  exists i. split; [reflexivity|exact Hv].
Qed.

Definition popCost (key : bytes) : Z := opCost key [] + 2 * Z.of_nat (length key).

(** What a pop leaves behind: the element is gone, and "meta" follows. *)
Definition popFields (i : Z) (h' : Z) (l' : list bytes) : list (bytes * option bytes) :=
  [(elemRest i, None); (metaRest, if decide (l' = []) then None else Some (metaBuf h' (h' + Z.of_nat (length l'))))].

Lemma pop_does s w i h' l' v : rep s M n t -> world_ok t w -> popCost key <= n ->
  list_fits h' l' -> elems h' l' (delete (elemRest i) D) ->
  does (submitThen w (fieldWrite 108 key <$> popFields i h' l') v) s
    (fun r s' => exists fs, list_rec (if decide (l' = []) then 0 else h') l' (rec_writes D fs) /\ written M n (popCost key) t 108 key fs (v : bytes) r s').
Proof.
  intros Hr Hw Hc Hf He. eapply does_mono; [apply (submit_fields M n t 108 key ltac:(is_byte) Hkey s w (popFields i h' l') _ (popCost key)); try done|].
  - constructor; [|apply NoDup_singleton]. intros E%list_elem_of_singleton. by apply elemRest_meta in E.
  - constructor; [split; [apply text_elem|done]|]. apply Forall_singleton. split; [apply text_meta|]. intros x. cbn.
    destruct (decide (l' = [])); intros [= <-]. apply value_meta.
  - unfold popFields. rewrite !fieldsCost_cons, fieldsCost_nil. cbn [fst snd]. pose proof (proj2 (elemRest_bytes i)).
    assert (length (default [] (if decide (l' = []) then None else Some (metaBuf h' (h' + Z.of_nat (length l'))))) <= 16)%nat.
    { destruct (decide (l' = [])); cbn [default from_option id]; [cbn; lia|by rewrite metaBuf_length]. }
    change (length metaRest) with 4%nat. cbn [default from_option id length]. unfold popCost, opCost. cbn [foldr]. lia.
  - intros r s' Hres. exists (popFields i h' l'). split; [|exact Hres]. unfold popFields, rec_writes, rec_write. cbn [foldl fst snd].
    destruct (decide (l' = [])) as [->|Hne]; split.
    + eapply elems_nil, elems_unmeta, He.
    + rewrite lookup_delete_eq. by destruct (decide ([] = [])).
    + unfold list_fits. cbn. lia.
    + done.
    + by apply elems_meta.
    + rewrite lookup_insert_eq. by destruct (decide (l' = [])).
    + done.
    + done.
Qed.

Lemma LPop_does s w : rep s M n t -> world_ok t w -> popCost key <= n ->
  does (LPop w key) s (fun r s' => match l with
    | [] => r = Fail ErrKeyNotFound /\ rep s' M n t
    | v :: l' => exists fs, list_rec (if decide (l' = []) then 0 else h + 1) l' (rec_writes D fs) /\ written M n (popCost key) t 108 key fs v r s' end).
Proof.
  intros Hr Hw Hc. unfold LPop. eapply does_step; [by apply listMeta_does; [done|apply world_clock]|].
  intros ht s1 [-> Hr1]. pose proof (lr_fits _ _ _ Hl) as Hf. destruct (list_head_case l) as [El|(v & l' & El)]; rewrite El in Hf |- *.
  { rewrite (proj2 (Z.leb_le _ _)) by (cbn; lia). by apply does_ret. }
  cbn [length]. pose proof Hf as [Hf1 Hf2]. cbn [length] in Hf2. rewrite (proj2 (Z.leb_gt _ _)) by lia.
  eapply does_step; [replace h with (h + Z.of_nat 0) at 1 by lia; by apply get_elem; [done|apply world_clock]|]. intros r s2 [Hv Hr2].
  rewrite (Hv v) by (by rewrite El). rewrite i64_id by (unfold is_i64; lia).
  replace [del _; _] with (fieldWrite 108 key <$> popFields h (h + 1) l').
  - apply pop_does; try done; [split; lia|]. apply (elems_tail h l' v); [|done]. rewrite <- El. apply Hl.
  - unfold popFields. cbn [fmap list_fmap fieldWrite fst snd]. rewrite listElemKey_ckey, listMetaKey_ckey. f_equal. f_equal.
    destruct (decide (l' = [])) as [->|Hne]; [rewrite (proj2 (Z.leb_le _ _)) by (cbn; lia); done|].
    rewrite (proj2 (Z.leb_gt _ _)) by (destruct l'; [done|cbn [length]; lia]). unfold fieldWrite. cbn [fst snd]. do 2 f_equal. lia.
Qed.

(** The last element and the rest. *)
Lemma RPop_does s w : rep s M n t -> world_ok t w -> popCost key <= n ->
  does (RPop w key) s (fun r s' => match last l with
    | None => r = Fail ErrKeyNotFound /\ rep s' M n t
    | Some v => exists fs, list_rec (if decide (removelast l = []) then 0 else h) (removelast l) (rec_writes D fs) /\
        written M n (popCost key) t 108 key fs v r s' end).
Proof.
  intros Hr Hw Hc. unfold RPop. eapply does_step; [by apply listMeta_does; [done|apply world_clock]|].
  intros ht s1 [-> Hr1]. pose proof (lr_fits _ _ _ Hl) as Hf. destruct (list_last_case l) as [El|(v & l' & El)]; rewrite El in Hf |- *.
  { rewrite (proj2 (Z.leb_le _ _)) by (cbn; lia). by apply does_ret. }
  rewrite last_snoc, removelast_last, length_app. cbn [length]. pose proof Hf as [Hf1 Hf2]. rewrite length_app in Hf2. cbn [length] in Hf2.
  rewrite (proj2 (Z.leb_gt _ _)) by lia. rewrite i64_id by (unfold is_i64; lia).
  replace (h + Z.of_nat (length l' + 1) - 1) with (h + Z.of_nat (length l')) by lia.
  eapply does_step; [by apply get_elem; [done|apply world_clock]|]. intros r s2 [Hv Hr2].
  rewrite (Hv v) by (rewrite El, lookup_app_r, Nat.sub_diag; done).
  replace [del _; _] with (fieldWrite 108 key <$> popFields (h + Z.of_nat (length l')) h l').
  - apply pop_does; try done; [split; lia|]. apply (elems_init h l' v); [|done]. rewrite <- El. apply Hl.
  - unfold popFields. cbn [fmap list_fmap fieldWrite fst snd]. rewrite listElemKey_ckey, listMetaKey_ckey. f_equal. f_equal.
    destruct (decide (l' = [])) as [->|Hne]; [rewrite (proj2 (Z.leb_le _ _)) by (cbn; lia); done|].
    rewrite (proj2 (Z.leb_gt _ _)) by (destruct l'; [done|cbn [length]; lia]). done.
Qed.

(** ** Ranges *)

Lemma rangeLoop_does s now (i count : nat) acc : rep s M n t -> clock_ok t now -> (i + count <= length l)%nat ->
  does (rangeLoop now key h (Z.of_nat i) count acc) s (fun r s' => r = acc ++ slice l i (i + count) /\ rep s' M n t).
Proof.
  revert s i acc. induction count as [|count IH]; intros s i acc Hr Hw Hle; cbn [rangeLoop].
  { apply does_ret. split; [|done]. unfold slice. by rewrite Nat.add_0_r, Nat.sub_diag, take_0, app_nil_r. }
  pose proof (lr_fits _ _ _ Hl) as [Hf1 Hf2]. rewrite i64_id by (unfold is_i64; lia).
  eapply does_step; [by apply get_elem|]. intros r s1 [Hv Hr1]. destruct (lookup_lt_is_Some_2 l i) as [v Ev]; [lia|]. rewrite (Hv v Ev).
  replace (Z.of_nat i + 1) with (Z.of_nat (Datatypes.S i)) by lia. eapply does_mono; [apply IH; [done|done|lia]|].
  intros r' s' [-> Hr']. split; [|done]. rewrite <- app_assoc. f_equal. unfold slice. rewrite (drop_S _ _ _ Ev).
  replace (i + Datatypes.S count - i)%nat with (Datatypes.S (Datatypes.S i + count - Datatypes.S i))%nat by lia. done.
Qed.

Lemma LRange_does s now start stop : rep s M n t -> clock_ok t now -> is_i64 start -> is_i64 stop ->
  does (LRange now key start stop) s (fun r s' => r = lrange l start stop /\ rep s' M n t).
Proof.
  intros Hr Hw H1 H2. unfold LRange, is_i64 in *. eapply does_step; [by apply listMeta_does|]. intros ht s1 [-> Hr1].
  pose proof (lr_fits _ _ _ Hl) as [Hf1 Hf2]. unfold lrange. set (len := Z.of_nat (length l)) in *.
  replace (h + len - h) with len by lia. rewrite (i64_id len) by (unfold is_i64; lia).
  destruct (Z.eqb_spec len 0) as [E0|E0]; [by apply does_ret|].
  assert ((if start <? 0 then i64 (len + start) else start) = (if start <? 0 then len + start else start)) as ->.
  { destruct (Z.ltb_spec start 0); [|done]. apply i64_id. unfold is_i64. lia. }
  assert ((if stop <? 0 then i64 (len + stop) else stop) = (if stop <? 0 then len + stop else stop)) as ->.
  { destruct (Z.ltb_spec stop 0); [|done]. apply i64_id. unfold is_i64. lia. }
  set (a := if start <? 0 then len + start else start). set (b := if stop <? 0 then len + stop else stop).
  replace (if a <? 0 then 0 else a) with (Z.max 0 a) by (destruct (Z.ltb_spec a 0); lia).
  destruct (Z.leb_spec len (Z.max 0 a)) as [Hge|Hlt]; [apply does_ret; by rewrite (proj2 (Z.ltb_lt _ _)) by lia|].
  replace (if len <=? b then len - 1 else b) with (Z.min (len - 1) b) by (destruct (Z.leb_spec len b); lia).
  destruct (Z.ltb_spec (Z.min (len - 1) b) (Z.max 0 a)); [by apply does_ret|].
  replace (Z.max 0 a) with (Z.of_nat (Z.to_nat (Z.max 0 a))) at 1 by lia.
  eapply does_mono; [apply rangeLoop_does; [done|done|lia]|]. intros r s' [-> Hr']. split; [|done]. cbn [app]. f_equal. lia.
Qed.
End list.
