(* ===== verification/CollZsets.v ===== *)
(** * Sorted sets on any store

    A member is stored twice: with its score as the value, and under a key
    that starts with the encoded score, so that a scan walks the members in
    the order of their scores. *)
From Stdlib Require Import Floats.SpecFloat.
From S2P Require Import Prelude Mvcc Strconv Encoding Values VlogSpec Engine EngineSteps Scan ScanSpec Store Collections CollKeys CollOps.

(** ** Scores *)

(** -0 is stored as 0. *)
Definition normScore (s : Z) : Z := if scoreIsZero s then 0 else s.
Definition score_ok (s : Z) : Prop := is_u64 s /\ isNaN s = false.
Definition stored_score (s : Z) : Prop := score_ok s /\ normScore s = s.

Lemma normScore_ok s : score_ok s -> stored_score (normScore s).
Proof.
  intros [H1 H2]. unfold normScore. destruct (scoreIsZero s) eqn:E; [|split; [done|unfold normScore; by rewrite E]].
  split; [split; [unfold is_u64; lia|done]|done].
Qed.

Lemma EncodeScore_norm s : EncodeScore (normScore s) = EncodeScore s.
Proof. unfold normScore. destruct (scoreIsZero s) eqn:E; [|done]. unfold EncodeScore. by rewrite E. Qed.

Lemma length_EncodeScore s : length (EncodeScore s) = 8%nat.
Proof. unfold EncodeScore. apply length_be_encode. Qed.

Lemma decode_encode s rest : score_ok s -> DecodeScore (EncodeScore s ++ rest) = Some (normScore s).
Proof. intros [Hs Hn]. by apply DecodeScore_EncodeScore. Qed.

Lemma EncodeScore_inj a b : stored_score a -> stored_score b -> EncodeScore a = EncodeScore b -> a = b.
Proof.
  intros [Ha Na] [Hb Nb] E. pose proof (decode_encode a [] Ha) as Da. rewrite E, (decode_encode b [] Hb) in Da. injection Da as Da. congruence.
Qed.

(** [!=] on floats tells normalised scores apart. *)
Lemma scoreNe_spec a b : score_ok a -> score_ok b -> scoreNe a b = negb (normScore a =? normScore b).
Proof.
  intros [Ha Na] [Hb Nb]. unfold scoreNe. rewrite SFcompare_ordinal by done. unfold normScore, scoreIsZero, ordinal, signBit, is_u64 in *.
  destruct (Z.compare_spec (if a <? 2 ^ 63 then a else - (a - 2 ^ 63)) (if b <? 2 ^ 63 then b else - (b - 2 ^ 63)));
  destruct (Z.eqb_spec a 0), (Z.eqb_spec a (2 ^ 63)), (Z.eqb_spec b 0), (Z.eqb_spec b (2 ^ 63)); cbn [orb];
  destruct (Z.ltb_spec a (2 ^ 63)), (Z.ltb_spec b (2 ^ 63)); symmetry;
    (apply negb_true_iff, Z.eqb_neq; lia) || (apply negb_false_iff, Z.eqb_eq; lia).
Qed.

(** ** The record of a sorted set *)

#[local] Opaque EncodeScore.

Lemma valRest_scoreRest m s m' : valRest m <> scoreRest s m'.
Proof. intros E. apply (f_equal (fun l => l !! 0%nat)) in E. discriminate E. Qed.

Lemma valRest_inj m m' : valRest m = valRest m' -> m = m'.
Proof. intros E. by apply (app_inv_head [118; 0]) in E. Qed.

Lemma scoreRest_inj s m s' m' : scoreRest s m = scoreRest s' m' -> EncodeScore s = EncodeScore s' /\ m = m'.
Proof.
  unfold scoreRest. intros E. apply (app_inv_head [115; 0]) in E. apply app_inj_1 in E as [H1 H2]; [|by rewrite !length_EncodeScore].
  split; [exact H1|]. by apply (app_inv_head [0]) in H2.
Qed.

Record zset_rec (Zs : gmap bytes Z) (D : gmap bytes bytes) : Prop := {
  zr_fields : forall r v, D !! r = Some v <->
    (exists m s, r = valRest m /\ Zs !! m = Some s /\ v = EncodeScore s) \/
    (exists m s, r = scoreRest s m /\ Zs !! m = Some s /\ v = []);
  zr_ok : forall m s, Zs !! m = Some s -> stored_score s;
}.

Lemma zset_val Zs D m : zset_rec Zs D -> D !! valRest m = EncodeScore <$> Zs !! m.
Proof.
  intros [Hz _]. apply option_eq. intros v. rewrite Hz, fmap_Some. split.
  - intros [(m' & s & E & Hm & ->)|(m' & s & E & _)]; [|by apply valRest_scoreRest in E]. apply valRest_inj in E as ->. by exists s.
  - intros (s & Hm & ->). left. by exists m, s.
Qed.

(** The writes for one member. *)
Definition zaddFields (Zs : gmap bytes Z) (m : bytes) (s : Z) : list (bytes * option bytes) :=
  (match Zs !! m with Some old => if normScore old =? normScore s then [] else [(scoreRest old m, None)] | None => [] end) ++
  [(valRest m, Some (EncodeScore s)); (scoreRest s m, Some [])].

Definition zremFields (Zs : gmap bytes Z) (m : bytes) : list (bytes * option bytes) :=
  match Zs !! m with Some s => [(scoreRest s m, None); (valRest m, None)] | None => [] end.

Lemma zrem_rec Zs D m : zset_rec Zs D -> zset_rec (delete m Zs) (rec_writes D (zremFields Zs m)).
Proof.
  intros Hz. unfold zremFields. destruct (Zs !! m) as [s|] eqn:Em; [|by rewrite delete_id]. destruct Hz as [Hz Hok]. split.
  - intros r v. unfold rec_writes, rec_write. cbn [foldl fst snd]. rewrite !lookup_delete_Some, Hz. split.
    + intros (H1 & H2 & [(m' & s' & -> & Hm & ->)|(m' & s' & -> & Hm & ->)]).
      * left. exists m', s'. split; [done|]. split; [|done]. apply lookup_delete_Some. split; [congruence|done].
      * right. exists m', s'. split; [done|]. split; [|done]. apply lookup_delete_Some. split; [congruence|done].
    + intros [(m' & s' & -> & Hm & ->)|(m' & s' & -> & Hm & ->)]; apply lookup_delete_Some in Hm as [Hne Hm].
      * split; [by intros ?%valRest_inj|]. split; [done|]. left. by exists m', s'.
      * split; [done|]. split; [by intros [_ ?]%scoreRest_inj|]. right. by exists m', s'.
  - intros m' s' [_ Hm]%lookup_delete_Some. by eapply Hok.
Qed.

Lemma zput_rec Zs D m s : zset_rec Zs D -> Zs !! m = None -> score_ok s ->
  zset_rec (<[m := normScore s]> Zs) (<[scoreRest s m := []]> (<[valRest m := EncodeScore s]> D)).
Proof.
  intros [Hz Hok] Hm Hs. assert (forall m', scoreRest s m' = scoreRest (normScore s) m') as Hn by (intros; unfold scoreRest; by rewrite EncodeScore_norm).
  split.
  - intros r v. rewrite !lookup_insert_Some, Hz. split.
    + intros [[<- <-]|[H1 [[<- <-]|[H2 [(m' & s' & -> & Hm' & ->)|(m' & s' & -> & Hm' & ->)]]]]].
      * right. exists m, (normScore s). split; [apply Hn|]. by rewrite lookup_insert_eq.
      * left. exists m, (normScore s). rewrite lookup_insert_eq, EncodeScore_norm. done.
      * left. exists m', s'. rewrite lookup_insert_ne by congruence. done.
      * right. exists m', s'. rewrite lookup_insert_ne by congruence. done.
    + intros [(m' & s' & -> & Hm' & ->)|(m' & s' & -> & Hm' & ->)]; apply lookup_insert_Some in Hm' as [[<- <-]|[Hne Hm']].
      * right. split; [done|]. left. by rewrite EncodeScore_norm.
      * right. split; [done|]. right. split; [by intros ?%valRest_inj|]. left. by exists m', s'.
      * left. by rewrite <- Hn.
      * right. split; [by intros [_ ?]%scoreRest_inj|]. right. split; [done|]. right. by exists m', s'.
  - intros m' s' [[<- <-]|[_ Hm']]%lookup_insert_Some; [by apply normScore_ok|by eapply Hok].
Qed.

Lemma zadd_rec Zs D m s : zset_rec Zs D -> score_ok s -> zset_rec (<[m := normScore s]> Zs) (rec_writes D (zaddFields Zs m s)).
Proof.
  intros Hz Hs. unfold zaddFields. destruct (Zs !! m) as [old|] eqn:Em; [|by apply zput_rec].
  destruct (zr_ok _ _ Hz m old Em) as [Hold Hnorm]. destruct (Z.eqb_spec (normScore old) (normScore s)) as [E|E].
  - rewrite Hnorm in E. unfold rec_writes, rec_write. cbn [app foldl fst snd]. rewrite <- E, insert_id by done.
    assert (scoreRest s m = scoreRest old m) as Er by (unfold scoreRest; by rewrite E, EncodeScore_norm).
    assert (D !! scoreRest old m = Some []) as H1 by (apply (zr_fields _ _ Hz); right; by exists m, old).
    assert (D !! valRest m = Some (EncodeScore s)) as H2.
    { apply (zr_fields _ _ Hz). left. exists m, old. split; [done|]. split; [done|]. by rewrite E, EncodeScore_norm. }
    rewrite Er, (insert_id D (valRest m)) by done. by rewrite insert_id.
  - pose proof (zrem_rec Zs D m Hz) as Hd. unfold zremFields in Hd. rewrite Em in Hd.
    assert (delete m Zs !! m = None) as Hdm by apply lookup_delete_eq.
    pose proof (zput_rec _ _ m s Hd Hdm Hs) as Hp. rewrite insert_delete_eq in Hp.
    unfold rec_writes, rec_write in *. cbn [app foldl fst snd] in *. by rewrite insert_delete_eq in Hp.
Qed.

(** *** Many members *)

Definition zaddAll (Zs : gmap bytes Z) (members : list ZSetMember) : gmap bytes Z :=
  foldl (fun Zs m => <[zs_member m := normScore (zs_score m)]> Zs) Zs members.

Definition scoreOf (scores : gmap bytes Z) (m : bytes) : Z := default 0 (scores !! m).
Definition orderFields (Zs scores : gmap bytes Z) (order : list bytes) : list (bytes * option bytes) :=
  order ≫= (fun m => zaddFields Zs m (scoreOf scores m)).

(** All keys of a member's writes name the member. *)
Lemma zaddFields_keys Zs m s r : r ∈ (zaddFields Zs m s).*1 -> r = valRest m \/ exists s', r = scoreRest s' m.
Proof.
  unfold zaddFields. rewrite fmap_app, elem_of_app. intros [Hr|Hr].
  - destruct (Zs !! m) as [old|]; [|by apply elem_of_nil in Hr]. destruct (_ =? _); [by apply elem_of_nil in Hr|].
    apply list_elem_of_singleton in Hr as ->. right. by exists old.
  - cbn in Hr. apply elem_of_cons in Hr as [->|Hr]; [by left|]. apply list_elem_of_singleton in Hr as ->. right. by exists s.
Qed.

Lemma zaddFields_nodup Zs D m s : zset_rec Zs D -> score_ok s -> NoDup (zaddFields Zs m s).*1.
Proof.
  intros Hz Hs. unfold zaddFields. assert (NoDup [valRest m; scoreRest s m]) as H2.
  { constructor; [|apply NoDup_singleton]. intros E%list_elem_of_singleton. by apply valRest_scoreRest in E. }
  destruct (Zs !! m) as [old|] eqn:Em; [|done]. destruct (Z.eqb_spec (normScore old) (normScore s)) as [E|E]; [done|]. cbn [app fmap list_fmap fst].
  constructor; [|done]. intros [E1|E1%list_elem_of_singleton]%elem_of_cons; [symmetry in E1; by apply valRest_scoreRest in E1|].
  apply scoreRest_inj in E1 as [E1 _]. destruct (zr_ok _ _ Hz m old Em) as [Hold Hnorm]. apply E. rewrite <- EncodeScore_norm, <- (EncodeScore_norm s) in E1.
  apply EncodeScore_inj in E1; [done|by apply normScore_ok..].
Qed.

Lemma orderFields_keys Zs scores order r : r ∈ (orderFields Zs scores order).*1 ->
  exists m, m ∈ order /\ (r = valRest m \/ exists s', r = scoreRest s' m).
Proof.
  unfold orderFields. rewrite list_elem_of_fmap. intros (f & -> & (m & Hf & Hm)%list_elem_of_bind). exists m. split; [done|].
  eapply zaddFields_keys, list_elem_of_fmap_2, Hf.
Qed.

Lemma orderFields_nodup Zs D scores order : zset_rec Zs D -> NoDup order -> (forall m, m ∈ order -> score_ok (scoreOf scores m)) ->
  NoDup (orderFields Zs scores order).*1.
Proof.
  intros Hz Hnd. induction Hnd as [|m order Hm Hnd IH]; intros Hok; [constructor|]. unfold orderFields. cbn [mbind list_bind]. rewrite fmap_app.
  apply NoDup_app. split; [eapply zaddFields_nodup; [done|apply Hok; set_solver]|]. split; [|apply IH; set_solver].
  intros r H1 H2. apply zaddFields_keys in H1. apply orderFields_keys in H2 as (m' & Hm' & H2). apply Hm.
  destruct H1 as [->|[s1 ->]], H2 as [E|[s2 E]]; [apply valRest_inj in E as ->; done|by apply valRest_scoreRest in E| |].
  - symmetry in E. by apply valRest_scoreRest in E.
  - by apply scoreRest_inj in E as [_ ->].
Qed.

Lemma orderFields_rec Zs0 Zs D scores order : zset_rec Zs D -> NoDup order -> (forall m, m ∈ order -> Zs !! m = Zs0 !! m /\ score_ok (scoreOf scores m)) ->
  zset_rec (foldl (fun Zs m => <[m := normScore (scoreOf scores m)]> Zs) Zs order) (rec_writes D (orderFields Zs0 scores order)).
Proof.
  intros Hz Hnd. revert Zs D Hz. induction Hnd as [|m order Hm Hnd IH]; intros Zs D Hz Hok; [done|]. unfold orderFields, rec_writes in *. cbn [mbind list_bind foldl].
  rewrite foldl_app. destruct (Hok m) as [Em Hs]; [left|]. apply IH.
  - assert (zaddFields Zs0 m (scoreOf scores m) = zaddFields Zs m (scoreOf scores m)) as -> by (unfold zaddFields; by rewrite Em). by apply zadd_rec.
  - intros m' Hm'. rewrite lookup_insert_ne by (intros ->; done). apply Hok. by right.
Qed.

(** Naming a member again only replaces its score. *)
Record zorder (members : list ZSetMember) (order0 : list bytes) (scores0 : gmap bytes Z) (order : list bytes) (scores : gmap bytes Z) : Prop := {
  zo_nodup : NoDup order;
  zo_dom : forall m, m ∈ order <-> is_Some (scores !! m);
  zo_from : forall m s, scores !! m = Some s -> scores0 !! m = Some s \/ mkZSetMember s m ∈ members;
  zo_map : forall Zs, (normScore <$> scores) ∪ Zs = zaddAll ((normScore <$> scores0) ∪ Zs) members;
  zo_some : order0 <> [] \/ members <> [] -> order <> [];
  zo_extra : exists extra, order = order0 ++ extra /\ extra `sublist_of` (zs_member <$> members);
}.

Lemma zaddOrder_spec members order scores : NoDup order -> (forall m, m ∈ order <-> is_Some (scores !! m)) ->
  zorder members order scores (zaddOrder members order scores).1 (zaddOrder members order scores).2.
Proof.
  revert order scores. induction members as [|[s m] members IH]; intros order scores Hnd Hdom; cbn [zaddOrder zs_member zs_score].
  { split; cbn [fst snd]; try done; [by left|by intros [?|?]|]. exists []. by rewrite app_nil_r. }
  set (order1 := if scores !! m then order else order ++ [m]).
  assert (NoDup order1 /\ (forall m', m' ∈ order1 <-> is_Some (<[m := s]> scores !! m')) /\
    exists extra, order1 = order ++ extra /\ extra `sublist_of` [m]) as (Hnd' & Hdom' & ex1 & He1 & Hs1).
  { unfold order1. destruct (scores !! m) as [s0|] eqn:Em.
    - split; [done|]. split; [|exists []; rewrite app_nil_r; split; [done|apply sublist_nil_l]].
      intros m'. rewrite Hdom, lookup_insert_is_Some'. split; [by right|]. intros [<-|?]; [by rewrite Em|done].
    - split; [|split; [|by exists [m]]].
      + apply NoDup_app. split; [done|]. split; [|apply NoDup_singleton]. intros x Hx ->%list_elem_of_singleton. apply Hdom in Hx. rewrite Em in Hx. by destruct Hx.
      + intros m'. rewrite elem_of_app, list_elem_of_singleton, Hdom, lookup_insert_is_Some'. naive_solver. }
  destruct (IH _ _ Hnd' Hdom') as [H1 H2 H3 H4 H5 (ex2 & H6 & H7)]. split; [done|done| | | |].
  - intros m' s' Hm'. destruct (H3 m' s' Hm') as [Hx|Hx]; [|right; by right]. apply lookup_insert_Some in Hx as [[<- <-]|[_ Hx]]; [right; left|by left].
  - intros Zs. rewrite H4. cbn [zaddAll foldl zs_member zs_score]. unfold zaddAll. f_equal. by rewrite fmap_insert, insert_union_l.
  - intros _. apply H5. left. intros E. assert (m ∈ order1) as Hm by (apply Hdom'; rewrite lookup_insert_eq; by eexists). rewrite E in Hm. by apply elem_of_nil in Hm.
  - exists (ex1 ++ ex2). split; [by rewrite H6, He1, app_assoc|]. change (zs_member <$> _) with ([m] ++ (zs_member <$> members)). by apply sublist_app.
Qed.

Lemma opCost_sublist name l l' : l `sublist_of` l' -> opCost name l <= opCost name l'.
Proof. induction 1; rewrite ?opCost_cons; lia. Qed.

Lemma order_union scores order Zs : NoDup order -> (forall m, m ∈ order <-> is_Some (scores !! m)) ->
  foldl (fun Zs m => <[m := normScore (scoreOf scores m)]> Zs) Zs order = (normScore <$> scores) ∪ Zs.
Proof.
  intros Hnd Hdom. assert (forall (order : list bytes) (Zs : gmap bytes Z) m, foldl (fun Zs m => <[m := normScore (scoreOf scores m)]> Zs) Zs order !! m =
    if bool_decide (m ∈ order) then Some (normScore (scoreOf scores m)) else Zs !! m) as Hl.
  { clear. induction order as [|x order IH]; intros Zs m; [done|]. cbn [foldl]. rewrite IH. destruct (decide (m = x)) as [->|Hne].
    - rewrite (bool_decide_eq_true_2 (x ∈ x :: order)) by left. rewrite lookup_insert_eq. by case_bool_decide.
    - rewrite lookup_insert_ne by done. by rewrite (bool_decide_ext (m ∈ x :: order) (m ∈ order)) by set_solver. }
  apply map_eq. intros m. rewrite Hl, lookup_union, lookup_fmap. case_bool_decide as Hm.
  - apply Hdom in Hm as [s Hs]. unfold scoreOf. rewrite Hs. cbn. by destruct (Zs !! m).
  - assert (scores !! m = None) as ->; [|cbn; by destruct (Zs !! m)]. apply eq_None_not_Some. by rewrite <- Hdom.
Qed.

(** How many of the members are new. *)
Definition newMembers (Zs : gmap bytes Z) (order : list bytes) : nat := length (filter (fun m => Zs !! m = None) order).

Lemma newMembers_size (Zs0 Zs scores : gmap bytes Z) order : NoDup order -> (forall m, m ∈ order -> Zs !! m = Zs0 !! m) ->
  size (foldl (fun Zs m => <[m := normScore (scoreOf scores m)]> Zs) Zs order) = (size Zs + newMembers Zs0 order)%nat.
Proof.
  unfold newMembers. intros Hnd. revert Zs. induction Hnd as [|m order Hm Hnd IH]; intros Zs Hz; [cbn; lia|]. cbn [foldl]. rewrite IH.
  - rewrite filter_cons, <- (Hz m) by left. case_decide as E; [rewrite map_size_insert_None by done; cbn [length]; lia|].
    rewrite map_size_insert_Some; [lia|]. by apply not_eq_None_Some.
  - intros m' Hm'. rewrite lookup_insert_ne by (intros ->; done). apply Hz. by right.
Qed.

Lemma text_val m : text_ok m -> Z.of_nat (length m) < 2 ^ 29 -> text_ok (valRest m).
Proof.
  intros [Hm _] Hl. split; [|unfold valRest; rewrite length_app; cbn [length]; lia]. unfold valRest. apply wf_bytes_app. split; [|done].
  repeat (constructor; [is_byte|]). constructor.
Qed.

Lemma wf_EncodeScore s : wf_bytes (EncodeScore s).
Proof. Transparent EncodeScore. unfold EncodeScore. apply wf_be_encode. Opaque EncodeScore. Qed.

Lemma length_scoreRest s m : length (scoreRest s m) = (11 + length m)%nat.
Proof. unfold scoreRest. rewrite !length_app, length_EncodeScore. cbn [length]. lia. Qed.

Lemma text_score s m : text_ok m -> Z.of_nat (length m) < 2 ^ 29 -> text_ok (scoreRest s m).
Proof.
  intros [Hm _] Hl. split; [|rewrite length_scoreRest; lia]. unfold scoreRest. apply wf_bytes_app.
  split; [repeat (constructor; [is_byte|]); constructor|]. apply wf_bytes_app. split; [apply wf_EncodeScore|]. apply wf_bytes_app. split; [|done].
  constructor; [is_byte|constructor].
Qed.

Lemma value_score s : value_ok (EncodeScore s).
Proof.
  split; [split; [apply wf_EncodeScore|rewrite length_EncodeScore; lia]|]. unfold isValuePointer. by rewrite length_EncodeScore.
Qed.

(** Names of members. *)
Definition member_ok (m : bytes) : Prop := text_ok m /\ Z.of_nat (length m) < 2 ^ 29.

Lemma zaddFields_fine Zs m s : member_ok m -> Forall field_ok (zaddFields Zs m s).
Proof.
  intros [Hm Hl]. unfold zaddFields. apply Forall_app. split.
  - destruct (Zs !! m); [|constructor]. case_if; [constructor|]. apply Forall_singleton. split; [by apply text_score|done].
  - constructor; [split; [by apply text_val|]|apply Forall_singleton; split; [by apply text_score|]]; intros ? [= <-]; [apply value_score|apply value_nil].
Qed.

Lemma zaddFields_cost key Zs m s : fieldsCost 122 key (zaddFields Zs m s) <= 3 * Z.of_nat (length key) + 3 * Z.of_nat (length m) + 800.
Proof.
  unfold zaddFields. rewrite fieldsCost_app, !fieldsCost_cons, fieldsCost_nil. cbn [fst snd default from_option id length].
  rewrite length_scoreRest, length_EncodeScore. change (length (valRest m)) with (2 + length m)%nat.
  destruct (Zs !! m); [case_if|]; rewrite ?fieldsCost_cons, ?fieldsCost_nil; cbn [fst snd default from_option id length]; rewrite ?length_scoreRest; lia.
Qed.

(** *** The order of a sorted set *)

Lemma scoreGt_spec a b : score_ok a -> score_ok b -> scoreGt a b = (ordinal b <? ordinal a).
Proof.
  intros [Ha Na] [Hb Nb]. unfold scoreGt. rewrite SFcompare_ordinal by done.
  destruct (Z.compare_spec (ordinal a) (ordinal b)), (Z.ltb_spec (ordinal b) (ordinal a)); (done || lia).
Qed.

Lemma scoreGe_spec a b : score_ok a -> score_ok b -> scoreGe a b = (ordinal b <=? ordinal a).
Proof.
  intros [Ha Na] [Hb Nb]. unfold scoreGe. rewrite SFcompare_ordinal by done.
  destruct (Z.compare_spec (ordinal a) (ordinal b)), (Z.leb_spec (ordinal b) (ordinal a)); (done || lia).
Qed.

Lemma scoreRest_compare key s1 m1 s2 m2 : score_ok s1 -> score_ok s2 ->
  bytes_compare (ckey 122 key (scoreRest s1 m1)) (ckey 122 key (scoreRest s2 m2)) =
    match ordinal s1 ?= ordinal s2 with Eq => bytes_compare m1 m2 | r => r end.
Proof.
  intros [H1 N1] [H2 N2]. rewrite <- !ZScoreKey_ckey. pose proof (ZScoreKey_order key m1 m2 s1 s2 H1 H2 N1 N2) as E.
  rewrite SFcompare_ordinal in E by done. destruct (ordinal s1 ?= ordinal s2); by injection E.
Qed.

(** Members in ascending order of score, equal scores in the order of names. *)
Definition zset_lt (Zs : gmap bytes Z) (a b : bytes) : Prop :=
  exists sa sb, Zs !! a = Some sa /\ Zs !! b = Some sb /\
    match SFcompare (float_of_bits sa) (float_of_bits sb) with Some Lt => True | Some Eq => bytes_lt a b | _ => False end.

Definition zrange_ok (Zs : gmap bytes Z) (min max : Z) (l : list bytes) : Prop :=
  StronglySorted (zset_lt Zs) l /\
  forall m, m ∈ l <-> exists s, Zs !! m = Some s /\ scoreGe s min = true /\ scoreGt s max = false.

Section zset.
Context {S : Type} `{HS : !Store S} {Ex : bytes -> Prop} `{HL : !StoreLaws S Ex}.
Context (M : kvmap) (n t : Z) (key : bytes) (D : gmap bytes bytes) (Zs : gmap bytes Z).
Hypothesis HD : fields M 122 key D.
Hypothesis Hz : zset_rec Zs D.
Hypothesis Hkey : name_ok key.

Lemma get_score s now m : rep s M n t -> clock_ok t now ->
  does (db_getByKey now (ZValKey key m)) s (fun r s' => r = kv_answer (EncodeScore <$> Zs !! m) /\ rep s' M n t).
Proof.
  intros Hr Hw. rewrite ZValKey_ckey. eapply does_mono; [by eapply (get_field M n t 122 key D HD)|]. intros r s' [-> Hr'].
  by rewrite (zset_val Zs D m Hz).
Qed.

Lemma stored_decode m s : Zs !! m = Some s -> DecodeScore (EncodeScore s) = Some s /\ exists b bs, EncodeScore s = b :: bs.
Proof.
  intros Hm. destruct (zr_ok _ _ Hz m s Hm) as [Hok Hn]. split; [rewrite <- (app_nil_r (EncodeScore s)), decode_encode by done; by rewrite Hn|].
  pose proof (length_EncodeScore s). destruct (EncodeScore s) as [|b bs]; [done|]. by exists b, bs.
Qed.

Lemma zaddLoop_does w s order scores entries added : rep s M n t -> world_ok t w -> (forall m, m ∈ order -> score_ok (scoreOf scores m)) ->
  does (zaddLoop w key order scores entries added) s (fun r s' => rep s' M n t /\
    r = (entries ++ (fieldWrite 122 key <$> orderFields Zs scores order), added + Z.of_nat (newMembers Zs order))).
Proof.
  revert s entries added. induction order as [|m order IH]; intros s entries added Hr Hw Hok; cbn [zaddLoop].
  { apply does_ret. split; [done|]. cbn. rewrite app_nil_r. f_equal. lia. }
  eapply does_step; [by apply get_score; [done|apply world_clock]|]. intros r1 s1 [-> Hr1].
  unfold orderFields, newMembers in *. cbn [mbind list_bind]. rewrite filter_cons, fmap_app. fold (scoreOf scores m).
  assert (score_ok (scoreOf scores m)) as Hs by (apply Hok; left).
  eapply (does_step _ _ _ (fun r s' => r = default 0 (Zs !! m) /\ rep s' M n t)).
  { destruct (Zs !! m) as [old|] eqn:Em; cbn [fmap option_fmap option_map kv_answer]; [|by apply does_ret].
    destruct (stored_decode m old Em) as [Ed (b & bs & E)]. rewrite Ed, E. by apply does_ret. }
  intros old s2 [-> Hr2]. eapply does_mono; [apply IH; [done|done|set_solver]|]. intros r s' [Hr' ->]. split; [done|].
  rewrite <- !app_assoc. unfold zaddFields. rewrite fmap_app. destruct (Zs !! m) as [old|] eqn:Em; cbn [fmap option_fmap option_map kv_answer isOk default from_option id andb].
  - rewrite decide_False by done. destruct (zr_ok _ _ Hz m old Em) as [Hold Hnorm]. rewrite scoreNe_spec by done. f_equal. f_equal.
    rewrite <- app_assoc. destruct (_ =? _); cbn [negb fmap list_fmap app]; rewrite ?ZValKey_ckey, ?ZScoreKey_ckey; done.
  - rewrite decide_True by done. cbn [length app fmap list_fmap]. rewrite ZValKey_ckey, ZScoreKey_ckey. f_equal. lia.
Qed.

Lemma orderFields_cost scores order : fieldsCost 122 key (orderFields Zs scores order) + 700 <= opCost key (order ++ order).
Proof.
  assert (forall l, opCost key (l ++ l) = 2 * opCost key l - 1024) as Hd.
  { intros l. unfold opCost. rewrite foldr_app. set (f := fun a c => _). assert (forall c, foldr f c l = foldr f 1024 l + c - 1024) as ->; [|lia].
    intros c. induction l as [|a l IH]; cbn [foldr]; [lia|]. unfold f at 1 3. lia. }
  rewrite Hd. unfold orderFields. induction order as [|m order IH]; [rewrite fieldsCost_nil; unfold opCost; cbn; lia|].
  cbn [mbind list_bind]. rewrite fieldsCost_app, opCost_cons. pose proof (zaddFields_cost key Zs m (scoreOf scores m)). lia.
Qed.

Lemma ZAddMulti_does s w members : rep s M n t -> world_ok t w -> members <> [] ->
  Forall (fun m => member_ok (zs_member m) /\ score_ok (zs_score m)) members -> opCost key (let ms := zs_member <$> members in ms ++ ms) <= n ->
  does (ZAddMulti w key members) s (fun r s' => exists fs, zset_rec (zaddAll Zs members) (rec_writes D fs) /\
    written M n (opCost key (let ms := zs_member <$> members in ms ++ ms)) t 122 key fs (Z.of_nat (size (zaddAll Zs members)) - Z.of_nat (size Zs)) r s').
Proof.
  intros Hr Hw Hne Hm Hc. unfold ZAddMulti.
  destruct (zaddOrder_spec members [] ∅) as [H1 H2 H3 H4 H5 H6]; [constructor|intros m; rewrite lookup_empty; split; [by intros ?%elem_of_nil|by intros [? ?]]|].
  destruct (zaddOrder members [] ∅) as [order scores] eqn:Eo. cbn [fst snd] in *. specialize (H4 Zs). rewrite fmap_empty, map_empty_union in H4.
  assert (forall m, m ∈ order -> mkZSetMember (scoreOf scores m) m ∈ members) as Hin.
  { intros m [sc Hsc]%H2. unfold scoreOf. rewrite Hsc. destruct (H3 m sc Hsc) as [E|E]; [by rewrite lookup_empty in E|done]. }
  rewrite Forall_forall in Hm. assert (forall m, m ∈ order -> member_ok m /\ score_ok (scoreOf scores m)) as Hok by (intros m Hmo; apply (Hm _ (Hin m Hmo))).
  eapply does_step; [apply (zaddLoop_does w s); [done|done|by intros m Hmo; apply Hok]|]. intros r1 s1 [Hr1 ->]. cbn [fst snd app].
  rewrite <- H4, <- (order_union scores order Zs H1 H2). rewrite (newMembers_size Zs Zs scores order) by done.
  replace (Z.of_nat (size Zs + newMembers Zs order) - Z.of_nat (size Zs)) with (0 + Z.of_nat (newMembers Zs order)) by lia.
  eapply does_mono; [apply (submit_fields M n t 122 key ltac:(is_byte) Hkey s1 w (orderFields Zs scores order) _ (opCost key (let ms := zs_member <$> members in ms ++ ms))); try done|].
  - specialize (H5 (or_intror Hne)). destruct order as [|m order]; [done|]. unfold orderFields. cbn [mbind list_bind]. unfold zaddFields.
    rewrite <- app_assoc. intros [_ ?]%app_nil. done.
  - by eapply orderFields_nodup; [done|done|intros m Hmo; apply Hok].
  - unfold orderFields. apply Forall_forall. intros f (m & Hf & Hmo)%list_elem_of_bind. revert f Hf. apply Forall_forall, zaddFields_fine, Hok, Hmo.
  - destruct H6 as (extra & -> & Hsub). pose proof (orderFields_cost scores ([] ++ extra)).
    pose proof (opCost_sublist key (extra ++ extra) _ (sublist_app _ _ _ _ Hsub Hsub)). cbn [app] in *. cbv zeta in Hc. lia.
  - intros r s' Hres. exists (orderFields Zs scores order). split; [|exact Hres]. eapply orderFields_rec; [done|done|]. intros m Hmo. split; [done|by apply Hok].
Qed.

Lemma ZScore_does s now m : rep s M n t -> clock_ok t now ->
  does (ZScore now key m) s (fun r s' => r = Ok (default 0 (Zs !! m), bool_decide (is_Some (Zs !! m))) /\ rep s' M n t).
Proof.
  intros Hr Hw. unfold ZScore. eapply does_step; [by apply get_score|]. intros r1 s1 [-> Hr1].
  destruct (Zs !! m) as [sc|] eqn:Em; cbn [fmap option_fmap option_map kv_answer]; [|by apply does_ret].
  destruct (stored_decode m sc Em) as [Ed _]. rewrite length_EncodeScore, Ed. by apply does_ret.
Qed.

Lemma zremLoop_does w s members entries removed : rep s M n t -> world_ok t w ->
  does (zremLoop w key members entries removed) s (fun r s' => rep s' M n t /\
    r = (entries ++ (fieldWrite 122 key <$> (members ≫= zremFields Zs)), removed + Z.of_nat (length (filter (fun m => is_Some (Zs !! m)) members)))).
Proof.
  revert s entries removed. induction members as [|m members IH]; intros s entries removed Hr Hw; cbn [zremLoop].
  { apply does_ret. split; [done|]. cbn. rewrite app_nil_r. f_equal. lia. }
  eapply does_step; [by apply get_score; [done|apply world_clock]|]. intros r1 s1 [-> Hr1]. cbn [mbind list_bind]. rewrite filter_cons. unfold zremFields at 1.
  destruct (Zs !! m) as [sc|] eqn:Em; cbn [fmap option_fmap option_map kv_answer].
  - rewrite decide_True by done. destruct (stored_decode m sc Em) as [Ed _]. rewrite length_EncodeScore, Ed. cbn [Nat.eqb].
    eapply (does_step _ _ _ (fun r s' => r = [del (ZScoreKey key sc m)] /\ rep s' M n t)); [by apply does_ret|]. intros r2 s2 [-> Hr2].
    eapply does_mono; [by apply IH|]. intros r s' [Hr' ->]. split; [done|]. rewrite fmap_app, <- !app_assoc. cbn [length fmap list_fmap app].
    rewrite ZValKey_ckey, ZScoreKey_ckey. f_equal. lia.
  - rewrite decide_False by (by intros [? ?]). eapply does_mono; [by apply IH|]. by intros r s' [Hr' ->].
Qed.

Lemma zrem_all members Zs' D' : NoDup members -> (forall m, m ∈ members -> Zs' !! m = Zs !! m) -> zset_rec Zs' D' ->
  zset_rec (foldl (fun z m => delete m z) Zs' members) (rec_writes D' (members ≫= zremFields Zs)) /\
  (size (foldl (fun z m => delete m z) Zs' members) + length (filter (fun m => is_Some (Zs !! m)) members))%nat = size Zs'.
Proof.
  intros Hnd. revert Zs' D'. induction Hnd as [|m members Hm Hnd IH]; intros Zs' D' Ha Hr; [split; [done|cbn; lia]|]. cbn [mbind list_bind foldl].
  unfold rec_writes in *. rewrite foldl_app, filter_cons. destruct (IH (delete m Zs') (foldl rec_write D' (zremFields Zs m))) as [H1 H2].
  - intros m' Hm'. rewrite lookup_delete_ne by (intros ->; done). apply Ha. by right.
  - assert (zremFields Zs m = zremFields Zs' m) as -> by (unfold zremFields; rewrite Ha by left; done). by apply zrem_rec.
  - split; [exact H1|]. rewrite <- (Ha m) by left. case_decide as E; cbn [length].
    + rewrite map_size_delete_Some in H2 by done. assert (size Zs' <> 0)%nat; [|lia].
      intros E0%map_size_empty_inv. rewrite E0, lookup_empty in E. by destruct E.
    + rewrite map_size_delete_None in H2 by (by apply eq_None_not_Some). lia.
Qed.

Lemma zremFields_keys members r : r ∈ (members ≫= zremFields Zs).*1 -> exists m, m ∈ members /\ (r = valRest m \/ exists s, r = scoreRest s m).
Proof.
  intros (f & -> & (m & Hf & Hm)%list_elem_of_bind)%list_elem_of_fmap. exists m. split; [done|]. unfold zremFields in Hf.
  destruct (Zs !! m) as [sc|]; [|by apply elem_of_nil in Hf]. apply elem_of_cons in Hf as [->|Hf%list_elem_of_singleton]; [right; by exists sc|left; by subst f].
Qed.

Lemma zremFields_nodup members : NoDup members -> NoDup (members ≫= zremFields Zs).*1.
Proof.
  induction 1 as [|m members Hm Hnd IH]; [constructor|]. cbn [mbind list_bind]. rewrite fmap_app. apply NoDup_app. split; [|split; [|done]].
  - unfold zremFields. destruct (Zs !! m); [|constructor]. constructor; [|apply NoDup_singleton]. intros E%list_elem_of_singleton.
    symmetry in E. by apply valRest_scoreRest in E.
  - intros r H1 (m' & Hm' & H2)%zremFields_keys. apply Hm.
    assert (r = valRest m \/ exists s, r = scoreRest s m) as H1'.
    { destruct (zremFields_keys [m] r) as (m2 & ->%list_elem_of_singleton & H3); [by cbn; rewrite app_nil_r|done]. }
    destruct H1' as [->|[s1 ->]], H2 as [E|[s2 E]]; [apply valRest_inj in E as ->; done|by apply valRest_scoreRest in E| |].
    + symmetry in E. by apply valRest_scoreRest in E.
    + by apply scoreRest_inj in E as [_ ->].
Qed.

Lemma ZRem_does s w members : rep s M n t -> world_ok t w -> NoDup members -> Forall member_ok members -> opCost key members <= n ->
  does (ZRem w key members) s (fun r s' => exists fs Zs', Zs' = foldl (fun z m => delete m z) Zs members /\ zset_rec Zs' (rec_writes D fs) /\
    written M n (opCost key members) t 122 key fs (Z.of_nat (size Zs) - Z.of_nat (size Zs')) r s').
Proof.
  intros Hr Hw Hnd Hm Hc. unfold ZRem. eapply does_step; [by apply zremLoop_does|]. intros r1 s1 [Hr1 ->]. cbn [fst snd app].
  destruct (zrem_all members Zs D Hnd ltac:(done) Hz) as [H1 H2]. set (Zs' := foldl _ Zs members) in *. set (fs := members ≫= zremFields Zs) in *.
  replace (0 + _) with (Z.of_nat (size Zs) - Z.of_nat (size Zs')) by lia. assert (fieldsCost 122 key fs <= opCost key members) as Hcost.
  { enough (fieldsCost 122 key fs + 700 <= opCost key members) by lia. unfold fs. clear -members. induction members as [|m ms IH]; [rewrite fieldsCost_nil; unfold opCost; cbn; lia|].
    cbn [mbind list_bind]. rewrite fieldsCost_app, opCost_cons. unfold zremFields at 1. destruct (Zs !! m); rewrite ?fieldsCost_cons, fieldsCost_nil;
      cbn [fst snd default from_option id length]; rewrite ?length_scoreRest; try change (length (valRest m)) with (2 + length m)%nat; lia. }
  assert (Forall field_ok fs) as Hf.
  { apply Forall_forall. intros f (m & Hf & Hmo)%list_elem_of_bind. rewrite Forall_forall in Hm. destruct (Hm m Hmo) as [Hmt Hml]. unfold zremFields in Hf.
    destruct (Zs !! m) as [sc|]; [|by apply elem_of_nil in Hf]. apply elem_of_cons in Hf as [->|Hf%list_elem_of_singleton];
      [split; [by apply text_score|done]|subst f; split; [by apply text_val|done]]. }
  eapply does_mono; [apply (submitSome_does M n t 122 key ltac:(is_byte) Hkey s1 w fs _ (opCost key members)); try done; by apply zremFields_nodup|].
  intros r s' Hres. by exists fs, Zs'.
Qed.

(** *** Ranges *)

(** What the loop of [ZRangeByScore] makes of the entries it meets. *)
Fixpoint pick (min max : Z) (out : list Entry) : list bytes :=
  match out with
  | [] => []
  | x :: out =>
      let p := ZScorePrefix key in
      if negb (has_prefix p (Key x)) then []
      else if (length (Key x) <? length p + 9)%nat || Deleted x then pick min max out
      else match DecodeScore (slice (Key x) (length p) (length p + 8)) with
           | None => []
           | Some sc => if scoreGt sc max then [] else (if scoreGe sc min then [drop (length p + 9) (Key x)] else []) ++ pick min max out
           end
  end.

Lemma score_key_parts sc m (p := ZScorePrefix key) (k := ckey 122 key (scoreRest sc m)) :
  has_prefix p k = true /\ (length k <? length p + 9)%nat = false /\
  slice k (length p) (length p + 8) = EncodeScore sc /\ drop (length p + 9) k = m.
Proof.
  assert (k = p ++ EncodeScore sc ++ 0 :: m) as E.
  { unfold k, p. rewrite <- ZScoreKey_ckey. unfold ZScoreKey, ZScorePrefix. rewrite <- !app_assoc. done. }
  rewrite E. pose proof (length_EncodeScore sc) as Hl. split_and!.
  - apply has_prefix_spec. by eexists.
  - apply Nat.ltb_ge. rewrite !length_app. cbn [length]. lia.
  - rewrite slice_app_drop by lia. rewrite slice_app_take by lia. replace (length p - length p)%nat with 0%nat by lia. apply slice_all. lia.
  - rewrite drop_app_ge by lia. replace (length p + 9 - length p)%nat with 9%nat by lia. rewrite drop_app_ge by lia. by rewrite Hl.
Qed.

(** An entry that is not a tombstone is a member with its score. *)
Definition is_member (o : Entry) : Prop := exists m sc, Key o = ckey 122 key (scoreRest sc m) /\ Zs !! m = Some sc.

Lemma pick_hit min max x l m sc : Deleted x = false -> Key x = ckey 122 key (scoreRest sc m) -> Zs !! m = Some sc ->
  pick min max (x :: l) = if scoreGt sc max then [] else (if scoreGe sc min then [m] else []) ++ pick min max l.
Proof.
  intros Hd Hk Hm. cbn [pick]. destruct (score_key_parts sc m) as (H1 & H2 & H3 & H4). rewrite Hk, H1, H2, H3, H4, Hd. cbn [negb orb].
  by rewrite (proj1 (stored_decode m sc Hm)).
Qed.

Record pickable (l : list Entry) : Prop := {
  pk_sorted : StronglySorted bytes_lt (Key <$> l);
  pk_from : forall o, o ∈ l -> bytes_le (ZScorePrefix key) (Key o);
  pk_member : forall o, o ∈ l -> Deleted o = false -> has_prefix (ZScorePrefix key) (Key o) = true -> is_member o;
}.

Lemma pickable_tail x l : pickable (x :: l) -> pickable l /\ forall o, o ∈ l -> bytes_lt (Key x) (Key o).
Proof.
  intros [[H1 Hx]%sorted_keys_cons H2 H3]. split; [|done]. split; [done|intros o Ho; apply H2; by right|intros o Ho; apply H3; by right].
Qed.

Definition in_range (min max sc : Z) : Prop := scoreGe sc min = true /\ scoreGt sc max = false.

Lemma pick_sound min max l m : pickable l -> m ∈ pick min max l ->
  exists o sc, o ∈ l /\ Key o = ckey 122 key (scoreRest sc m) /\ Zs !! m = Some sc /\ in_range min max sc.
Proof.
  induction l as [|x l IH]; intros Hp Hm; [by apply elem_of_nil in Hm|]. destruct (pickable_tail _ _ Hp) as [Hp' _].
  assert (m ∈ pick min max l -> exists o sc, o ∈ x :: l /\ Key o = ckey 122 key (scoreRest sc m) /\ Zs !! m = Some sc /\ in_range min max sc) as Htail.
  { intros Hm'. destruct (IH Hp' Hm') as (o & sc & Ho & H). exists o, sc. split; [by right|done]. }
  destruct (has_prefix (ZScorePrefix key) (Key x)) eqn:Ep; [|cbn [pick] in Hm; rewrite Ep in Hm; by apply elem_of_nil in Hm].
  destruct (Deleted x) eqn:Ed; [cbn [pick] in Hm; rewrite Ep, Ed, orb_true_r in Hm; by apply Htail|].
  destruct (pk_member _ Hp x ltac:(left) Ed Ep) as (m' & sc & Hk & Hz'). rewrite (pick_hit min max x l m' sc Ed Hk Hz') in Hm.
  destruct (scoreGt sc max) eqn:Eg; [by apply elem_of_nil in Hm|]. apply elem_of_app in Hm as [Hm|Hm]; [|by apply Htail].
  destruct (scoreGe sc min) eqn:Ege; [|by apply elem_of_nil in Hm]. apply list_elem_of_singleton in Hm as ->. exists x, sc. split; [left|done].
Qed.

Lemma pick_complete min max l o m sc : pickable l -> score_ok max -> o ∈ l -> Deleted o = false -> Key o = ckey 122 key (scoreRest sc m) ->
  Zs !! m = Some sc -> in_range min max sc -> m ∈ pick min max l.
Proof.
  intros Hp Hmax Ho Hd Hk Hm Hr. pose proof (proj1 (zr_ok _ _ Hz m sc Hm)) as Hsc. induction l as [|x l IH]; [by apply elem_of_nil in Ho|].
  destruct (pickable_tail _ _ Hp) as [Hp' Hlt]. destruct (has_prefix (ZScorePrefix key) (Key x)) eqn:Ep.
  2: { pose proof (prefix_ended _ x l (pk_sorted _ Hp) Ep (pk_from _ Hp x ltac:(left)) o Ho) as Hno.
       rewrite Hk, (proj1 (score_key_parts sc m)) in Hno. done. }
  apply elem_of_cons in Ho as [->|Ho].
  - rewrite (pick_hit min max x l m sc Hd Hk Hm). destruct Hr as [H1 H2]. rewrite H1, H2. left.
  - specialize (IH Hp' Ho). destruct (Deleted x) eqn:Ed; [cbn [pick]; rewrite Ep, Ed, orb_true_r; done|].
    destruct (pk_member _ Hp x ltac:(left) Ed Ep) as (m' & sc' & Hk' & Hz'). rewrite (pick_hit min max x l m' sc' Ed Hk' Hz').
    pose proof (proj1 (zr_ok _ _ Hz m' sc' Hz')) as Hsc'. specialize (Hlt o Ho). unfold bytes_lt in Hlt. rewrite Hk, Hk', scoreRest_compare in Hlt by done.
    destruct Hr as [H1 H2]. rewrite scoreGt_spec in * by done. destruct (Z.ltb_spec (ordinal max) (ordinal sc')) as [Hgt|Hle].
    + destruct (Z.compare_spec (ordinal sc') (ordinal sc)); [|by apply Z.ltb_ge in H2; lia|done]. apply Z.ltb_ge in H2. lia.
    + apply elem_of_app. by right.
Qed.

Lemma pick_sorted min max l : pickable l -> StronglySorted (zset_lt Zs) (pick min max l).
Proof.
  induction l as [|x l IH]; intros Hp; [constructor|]. destruct (pickable_tail _ _ Hp) as [Hp' Hlt]. specialize (IH Hp').
  destruct (has_prefix (ZScorePrefix key) (Key x)) eqn:Ep; [|cbn [pick]; rewrite Ep; constructor].
  destruct (Deleted x) eqn:Ed; [cbn [pick]; rewrite Ep, Ed, orb_true_r; done|].
  destruct (pk_member _ Hp x ltac:(left) Ed Ep) as (m & sc & Hk & Hzm). rewrite (pick_hit min max x l m sc Ed Hk Hzm).
  destruct (scoreGt sc max); [constructor|]. destruct (scoreGe sc min); [|done]. cbn [app]. constructor; [done|].
  apply Forall_forall. intros m' Hm'. destruct (pick_sound min max l m' Hp' Hm') as (o & sc' & Ho & Hk' & Hz' & _).
  exists sc, sc'. split; [done|]. split; [done|]. destruct (zr_ok _ _ Hz m sc Hzm) as [[H1 N1] _], (zr_ok _ _ Hz m' sc' Hz') as [[H2 N2] _].
  specialize (Hlt o Ho). unfold bytes_lt in Hlt. rewrite Hk, Hk', scoreRest_compare in Hlt by done. rewrite SFcompare_ordinal by done.
  destruct (ordinal sc ?= ordinal sc'); done.
Qed.

Hypothesis no_expiry : forall rest, ~ Ex (ckey 122 key rest).

Lemma walk_pickable now min out : walk_of Ex M now (ZScoreKey key min []) out -> pickable out.
Proof.
  intros [H1 H2 H3 _ H5].
  assert (forall k, bytes_le (ZScoreKey key min []) k -> bytes_le (ZScorePrefix key) k) as Hle.
  { intros k. apply bytes_le_trans. replace (ZScoreKey key min []) with (ZScorePrefix key ++ EncodeScore min ++ [0]); [apply bytes_le_app|].
    unfold ZScoreKey, ZScorePrefix. by rewrite <- !app_assoc. }
  split; [done|intros o Ho; by apply Hle, H2|]. intros o Ho Hd Hp. apply has_prefix_spec in Hp as [r Hr].
  assert (Key o = ckey 122 key (115 :: 0 :: r)) as Hk.
  { rewrite Hr. unfold ZScorePrefix, ckey. rewrite <- !app_assoc. done. }
  destruct (H5 o Ho Hd) as [E|E]; [|rewrite Hk in E; by apply no_expiry in E].
  destruct (H3 o Ho Hd) as [v Hv]; [by rewrite E|]. rewrite Hk, (HD (115 :: 0 :: r)) in Hv. destruct (D !! (115 :: 0 :: r)) as [v'|] eqn:ED; [|done].
  apply (zr_fields _ _ Hz) in ED as [(m & sc & Er & _)|(m & sc & Er & Hm & _)].
  - apply (f_equal (fun l => l !! 0%nat)) in Er. discriminate Er.
  - exists m, sc. split; [by rewrite Hk, Er|done].
Qed.

Lemma walk_range now min max out : score_ok min -> score_ok max -> walk_of Ex M now (ZScoreKey key min []) out ->
  zrange_ok Zs min max (pick min max out).
Proof.
  intros Hmin Hmax Hw. pose proof (walk_pickable now min out Hw) as Hp. split; [by apply pick_sorted|]. intros m. split.
  - intros Hm. destruct (pick_sound min max out m Hp Hm) as (o & sc & _ & _ & Hzm & H1 & H2). by exists sc.
  - intros (sc & Hzm & H1 & H2). pose proof (proj1 (zr_ok _ _ Hz m sc Hzm)) as Hsc.
    assert (M !! ckey 122 key (scoreRest sc m) = Some ([], 0)) as HM.
    { rewrite (HD (scoreRest sc m)). assert (D !! scoreRest sc m = Some []) as ->; [|done]. apply (zr_fields _ _ Hz). right. by exists m, sc. }
    destruct (wo_complete _ _ _ _ _ Hw (ckey 122 key (scoreRest sc m)) [] 0) as (o & Ho & Hk & Hd & _); [|done|done|].
    { rewrite ZScoreKey_ckey. unfold bytes_le. rewrite scoreRest_compare by done. rewrite scoreGe_spec in H1 by done. apply Z.leb_le in H1.
      destruct (Z.compare_spec (ordinal min) (ordinal sc)); [apply bytes_nil_le|done|lia]. }
    by apply (pick_complete min max out o m sc).
Qed.

Lemma ZRangeByScore_does s min max : rep s M n t -> score_ok min -> score_ok max ->
  does (ZRangeByScore key min max) s (fun r s' => zrange_ok Zs min max r /\ rep s' M n t).
Proof.
  intros Hr Hmin Hmax. unfold ZRangeByScore. set (now := Z.max 0 t).
  eapply (scan_law _ _ _ _ s M n t now
    (fun l acc s1 => rep s1 M n t /\ exists out, walk_of Ex M now (ZScoreKey key min []) out /\ acc ++ pick min max l = pick min max out /\ pickable l)).
  - done.
  - lia.
  - lia.
  - intros l a s1 s2 Hq [Hr1 H]. split; [by eapply rep_quiet|done].
  - intros x l acc s1 (Hr1 & out & Hw & Eacc & Hp). destruct (pickable_tail _ _ Hp) as [Hp' _]. unfold rangeBody.
    destruct (has_prefix (ZScorePrefix key) (Key x)) eqn:Ep; cbn [negb].
    2: { apply does_ret. cbn [fst snd pick] in *. rewrite Ep in Eacc. cbn [negb] in Eacc. rewrite app_nil_r in Eacc. rewrite Eacc. split; [by eapply walk_range|done]. }
    destruct (Deleted x) eqn:Ed.
    { cbn [pick] in Eacc. rewrite Ep, Ed, orb_true_r in Eacc. cbn [negb] in Eacc. destruct (_ <? _)%nat; apply does_ret; cbn [fst snd]; (split; [done|]); by exists out. }
    destruct (pk_member _ Hp x ltac:(left) Ed Ep) as (m & sc & Hk & Hzm). rewrite (pick_hit min max x l m sc Ed Hk Hzm) in Eacc.
    destruct (score_key_parts sc m) as (_ & H2 & H3 & H4). rewrite Hk, H2, H3, H4, (proj1 (stored_decode m sc Hzm)).
    eapply (does_step _ _ _ (fun r s' => r = sc /\ rep s' M n t)); [by apply does_ret|]. intros sc' s2 [-> Hr2].
    destruct (scoreGt sc max); apply does_ret; cbn [fst snd].
    + rewrite app_nil_r in Eacc. rewrite Eacc. split; [by eapply walk_range|done].
    + split; [done|]. exists out. split; [done|]. split; [|done]. rewrite <- Eacc. destruct (scoreGe sc min); [by rewrite <- app_assoc|done].
  - intros acc s1 (Hr1 & out & Hw & Eacc & _). cbn [pick] in Eacc. rewrite app_nil_r in Eacc. rewrite Eacc. split; [by eapply walk_range|done].
  - intros out Hw. split; [done|]. exists out. split; [done|]. split; [done|]. by eapply walk_pickable.
Qed.
End zset.
