(* ===== verification/CollWhole.v ===== *)
(** * Whole collections on any store

    [DeleteCollection] and [CollectionKeys] walk the five prefixes of a name;
    deletions are written in chunks while the walk goes on. *)
From S2P Require Import Prelude Mvcc Strconv Encoding Values VlogSpec Engine EngineSteps Scan ScanSpec Store Collections CollKeys CollOps.

Definition delRest (r : bytes) : bytes * option bytes := (r, None).

Lemma delRest_keys rs : (delRest <$> rs).*1 = rs.
Proof. rewrite <- list_fmap_compose. apply list_fmap_id. Qed.

Lemma del_all D rs : (forall r, is_Some (D !! r) -> r ∈ rs) -> NoDup rs -> rec_writes D (delRest <$> rs) = ∅.
Proof.
  intros H Hnd. apply map_eq. intros r. rewrite lookup_empty. destruct (decide (r ∈ rs)) as [Hr|Hr].
  - apply (rec_writes_lookup D (delRest <$> rs) r None); [by rewrite delRest_keys|]. by apply (list_elem_of_fmap_2 delRest).
  - rewrite rec_writes_lookup_ne by (by rewrite delRest_keys). destruct (D !! r) eqn:E; [|done]. exfalso. apply Hr, H. by rewrite E.
Qed.

Lemma opCost_app name l l' : opCost name (l ++ l') = opCost name l + opCost name l' - 1024.
Proof. induction l as [|a l IH]; cbn [app]; [unfold opCost at 2; cbn; lia|]. rewrite !opCost_cons, IH. lia. Qed.

Lemma opCost_nonneg name l : 1024 <= opCost name l.
Proof. induction l; [done|]. rewrite opCost_cons. lia. Qed.

#[export] Instance opCost_perm name : Proper ((≡ₚ) ==> (=)) (opCost name).
Proof. intros l l'. induction 1; rewrite ?opCost_cons in *; lia. Qed.

Lemma del_cost tag name rs : rs <> [] -> fieldsCost tag name (delRest <$> rs) + 1024 <= opCost name rs.
Proof.
  assert (forall rs, fieldsCost tag name (delRest <$> rs) + 704 <= opCost name rs) as H.
  { induction rs0 as [|r rs0 IH]; [done|]. cbn [fmap list_fmap]. rewrite fieldsCost_cons, opCost_cons. cbn [delRest fst snd default from_option id length]. lia. }
  intros Hne. destruct rs as [|r rs]; [done|]. cbn [fmap list_fmap]. rewrite fieldsCost_cons, opCost_cons. cbn [delRest fst snd default from_option id length].
  specialize (H rs). lia.
Qed.

Lemma kv_writes_app M es es' : kv_writes M (es ++ es') = kv_writes (kv_writes M es) es'.
Proof. unfold kv_writes. apply foldl_app. Qed.

Section whole.
Context {S : Type} `{HS : !Store S} {Ex : bytes -> Prop} `{HL : !StoreLaws S Ex}.

(** The live fields a walk meets before it leaves the prefix. *)
Fixpoint liveRests (now tag : Z) (name : bytes) (out : list Entry) : list bytes :=
  match out with
  | [] => []
  | x :: out =>
      if negb (has_prefix (cprefix tag name) (Key x)) then []
      else (if liveAt now x then [drop (length (cprefix tag name)) (Key x)] else []) ++ liveRests now tag name out
  end.

Section one.
Context (M : kvmap) (t tag : Z) (name : bytes) (D : gmap bytes bytes).
Hypothesis HD : fields M tag name D.
Hypothesis Htag : is_u8 tag.
Hypothesis Hname : name_ok name.
Hypothesis no_expiry : forall rest, ~ Ex (ckey tag name rest).

Definition del_writes (rs : list bytes) : list BatchWriteEntry := fieldWrite tag name <$> (delRest <$> rs).

Lemma del_writes_no_put rs : batchHasWrites (del_writes rs) = false.
Proof. unfold batchHasWrites, del_writes. induction rs as [|r rs IH]; [done|exact IH]. Qed.

Lemma del_writes_keys rs : bw_key <$> del_writes rs = ckey tag name <$> rs.
Proof. unfold del_writes. rewrite <- !list_fmap_compose. done. Qed.

Lemma del_writes_fine rs : rs <> [] -> NoDup rs -> batch_fine Ex (del_writes rs).
Proof.
  intros Hne Hnd. split.
  - by destruct rs.
  - unfold del_writes. rewrite !Forall_fmap. by apply Forall_true.
  - rewrite del_writes_keys. apply NoDup_fmap_2; [|done]. intros a b. apply ckey_rest.
  - unfold del_writes. rewrite !Forall_fmap. apply Forall_true. by left.
Qed.

Lemma flushDeletion_does s w M' n d rs : rep s M' n t -> world_ok t w -> dl_batch d = del_writes rs -> NoDup rs -> dl_err d = None ->
  opCost name rs <= n ->
  does (flushDeletion w d) s (fun d' s' => d' = mkDeletion (dl_deleted d + Z.of_nat (length rs)) [] (dl_prevKey d) None /\
    rep s' (kv_writes M' (del_writes rs)) (n - opCost name rs + 1024) t).
Proof.
  intros Hr Hw Hb Hnd He Hc. unfold flushDeletion. rewrite Hb. destruct rs as [|r rs]; cbn [del_writes fmap list_fmap].
  - apply does_ret. split; [|eapply rep_less; [|exact Hr]; unfold opCost; cbn; lia]. destruct d; cbn in *. subst. by rewrite Z.add_0_r.
  - eapply does_step; [apply (submitBatch_law s M' n t w (del_writes (r :: rs)) Hr Hw); [by apply del_writes_fine|]|].
    + pose proof (del_cost tag name (r :: rs) ltac:(done)). unfold fieldsCost, del_writes in *. lia.
    + intros r1 s1 [[-> Hr1]|(_ & Hp & _)]; [|by rewrite del_writes_no_put in Hp]. apply does_ret. split.
      * cbn [length]. by rewrite !length_fmap.
      * eapply rep_less; [|exact Hr1]. pose proof (del_cost tag name (r :: rs) ltac:(done)). unfold fieldsCost, del_writes in *. lia.
Qed.

(** What the walk of [deletePrefixChunked] has done: the fields [fl] are
    deleted, the deletions of [pend] are in the batch. *)
Record del_state (n : Z) (l : list Entry) (d : Deletion) (s : S) (all : list bytes) (fl pend : list bytes) (now : Z) : Prop := {
  ds_rep : rep s (kv_writes M (del_writes fl)) (n - opCost name fl + 1024) t;
  ds_deleted : dl_deleted d = Z.of_nat (length fl);
  ds_batch : dl_batch d = del_writes pend;
  ds_err : dl_err d = None;
  ds_all : fl ++ pend ++ liveRests now tag name l = all;
  ds_nodup : NoDup all;
  ds_prev : forall k, dl_prevKey d = Some k -> forall o, o ∈ l -> Key o <> k;
  ds_sorted : StronglySorted bytes_lt (Key <$> l);
}.

Lemma liveRests_cons now x l rest : Key x = ckey tag name rest ->
  liveRests now tag name (x :: l) = (if liveAt now x then [rest] else []) ++ liveRests now tag name l.
Proof.
  intros E. cbn [liveRests]. rewrite E, (proj2 (cprefix_spec tag name _)) by (by eexists). by rewrite cprefix_drop.
Qed.

Lemma deleteBody_does n w x l d s all fl pend : world_ok t w -> opCost name all <= n -> del_state n (x :: l) d s all fl pend (wd_now w) ->
  does (deleteBody w (cprefix tag name) x d) s (fun r s' =>
    if (r.2 : bool) then exists fl' pend', del_state n l r.1 s' all fl' pend' (wd_now w)
    else exists fl' pend', del_state n [] r.1 s' all fl' pend' (wd_now w)).
Proof.
  intros Hw Hn [H1 H2 H3 H4 H5 H6 H7 H8]. unfold deleteBody. pose proof (sorted_keys_cons _ _ H8) as [Hs Hx].
  destruct (has_prefix (cprefix tag name) (Key x)) eqn:Ep; cbn [negb].
  2: { apply does_ret. exists fl, pend. cbn [liveRests] in H5. rewrite Ep in H5. split; try done; [by intros k _ o ?%elem_of_nil|constructor]. }
  pose proof Ep as [rest Ek]%cprefix_spec. rewrite (liveRests_cons _ x l rest Ek) in H5.
  rewrite bool_decide_eq_false_2 by (intros E; eapply H7; [exact E|left|done]).
  assert (forall k, Some (Key x) = Some k -> forall o, o ∈ l -> Key o <> k) as Hprev.
  { intros k [= <-] o Ho E. specialize (Hx o Ho). rewrite E in Hx. by apply bytes_lt_irrefl in Hx. }
  destruct (liveAt (wd_now w) x); [|apply does_ret; exists fl, pend; by split].
  assert (dl_batch d ++ [del (Key x)] = del_writes (pend ++ [rest])) as Eb by (rewrite H3, Ek; unfold del_writes; by rewrite !fmap_app).
  rewrite Eb. destruct (_ <=? _)%nat.
  - assert (all = fl ++ (pend ++ [rest]) ++ liveRests (wd_now w) tag name l) as Eall by (rewrite <- H5, <- !app_assoc; done).
    eapply does_step.
    { apply (flushDeletion_does s w _ _ (mkDeletion (dl_deleted d) (del_writes (pend ++ [rest])) (Some (Key x)) None) (pend ++ [rest]) H1 Hw); try done.
      - rewrite Eall in H6. apply NoDup_app in H6 as (_ & _ & H6). by apply NoDup_app in H6 as (? & _).
      - rewrite Eall, !opCost_app in Hn. rewrite opCost_app. pose proof (opCost_nonneg name (liveRests (wd_now w) tag name l)). lia. }
    intros d' s' [-> Hr']. apply does_ret. cbn [dl_err fst snd]. exists (fl ++ pend ++ [rest]), []. split; try done; cbn [dl_deleted dl_batch dl_prevKey].
    + unfold del_writes in *. rewrite (fmap_app delRest fl), (fmap_app (fieldWrite tag name)), kv_writes_app. eapply rep_less; [|exact Hr'].
      rewrite (opCost_app name fl). lia.
    + rewrite !length_app. lia.
    + rewrite Eall, <- !app_assoc. done.
  - apply does_ret. exists fl, (pend ++ [rest]). split; try done. cbn. rewrite <- H5, <- !app_assoc. done.
Qed.

(** The live fields of a walk are the fields of the record. *)
Lemma liveRests_spec now out : 0 <= now -> walk_of Ex M now (cprefix tag name) out ->
  NoDup (liveRests now tag name out) /\ forall r, r ∈ liveRests now tag name out <-> is_Some (D !! r).
Proof.
  intros Hnow [W1 W2 W3 W4 W5].
  assert (forall l, (forall o, o ∈ l -> o ∈ out) -> StronglySorted bytes_lt (Key <$> l) ->
    NoDup (liveRests now tag name l) /\ (forall r, r ∈ liveRests now tag name l -> exists o, o ∈ l /\ Key o = ckey tag name r /\ liveAt now o = true) /\
    (forall o r, o ∈ l -> Key o = ckey tag name r -> liveAt now o = true -> r ∈ liveRests now tag name l)) as H.
  { induction l as [|x l IH]; intros Hin Hs; [split_and!; [constructor|by intros ? ?%elem_of_nil|by intros ? ? ?%elem_of_nil]|].
    destruct (sorted_keys_cons _ _ Hs) as [Hs' Hx]. destruct (IH ltac:(intros o Ho; apply Hin; by right) Hs') as (I1 & I2 & I3).
    destruct (has_prefix (cprefix tag name) (Key x)) eqn:Ep.
    2: { cbn [liveRests]. rewrite Ep. split_and!; [constructor|by intros ? ?%elem_of_nil|]. intros o r Ho Hk _. exfalso.
         pose proof (prefix_ended _ x l Hs Ep (W2 x (Hin x ltac:(left))) o Ho) as Hno. rewrite Hk, (proj2 (cprefix_spec tag name _)) in Hno by (by eexists). done. }
    apply cprefix_spec in Ep as [rest Ek]. rewrite (liveRests_cons now x l rest Ek). destruct (liveAt now x) eqn:El; cbn [app].
    - split_and!.
      + constructor; [|done]. intros (o & Ho & Hk & _)%I2. specialize (Hx o Ho). rewrite Ek, Hk in Hx. by apply bytes_lt_irrefl in Hx.
      + intros r [->|Hr]%elem_of_cons; [exists x; split; [left|done]|]. destruct (I2 r Hr) as (o & Ho & H). exists o. split; [by right|done].
      + intros o r [->|Ho]%elem_of_cons Hk Hl; [|right; by apply (I3 o)]. rewrite Ek in Hk. apply ckey_rest in Hk as ->. left.
    - split_and!; [done| |].
      + intros r Hr. destruct (I2 r Hr) as (o & Ho & H). exists o. split; [by right|done].
      + intros o r [->|Ho]%elem_of_cons Hk Hl; [congruence|by apply (I3 o)]. }
  destruct (H out ltac:(done) W1) as (H1 & H2 & H3). split; [done|]. intros r. split.
  - intros (o & Ho & Hk & Hl)%H2. unfold liveAt in Hl. apply andb_true_iff in Hl as [Hd%negb_true_iff Hx].
    destruct (W5 o Ho Hd) as [E|E]; [|rewrite Hk in E; by apply no_expiry in E]. destruct (W3 o Ho Hd) as [v Hv]; [by rewrite E|].
    rewrite Hk, (HD r) in Hv. destruct (D !! r); [by eexists|done].
  - intros [v Hv]. destruct (W4 (ckey tag name r) v 0) as (o & Ho & Hk & Hd & Hx); [rewrite <- cprefix_app; apply bytes_le_app|by rewrite (HD r), Hv|done|].
    apply (H3 o); [done|done|]. unfold liveAt. by rewrite Hd, Hx.
Qed.

(** Deleting a prefix empties the record. *)
Lemma deletePrefix_does n s w : rep s M n t -> world_ok t w -> opCost name (map_to_list D).*1 <= n ->
  does (deletePrefixChunked w (cprefix tag name)) s (fun r s' => r = (Z.of_nat (size D), None) /\
    exists rs, rs ≡ₚ (map_to_list D).*1 /\ rep s' (kv_writes M (del_writes rs)) (n - opCost name rs + 1024) t).
Proof.
  intros Hr Hw Hc. unfold deletePrefixChunked. pose proof (world_clock _ _ Hw) as [Hc1 Hc2].
  eapply (does_step _ _ _ (fun d s' => exists all fl pend, all ≡ₚ (map_to_list D).*1 /\ opCost name all <= n /\ del_state n [] d s' all fl pend (wd_now w))).
  - eapply (scan_law _ _ _ _ s M n t (wd_now w) (fun l d s1 => exists all fl pend, all ≡ₚ (map_to_list D).*1 /\ opCost name all <= n /\
      del_state n l d s1 all fl pend (wd_now w))); try done.
    + intros l d s1 s2 Hq (all & fl & pend & Hall & Hcost & []). exists all, fl, pend. split; [done|]. split; [done|]. split; try done. by eapply rep_quiet.
    + intros x l d s1 (all & fl & pend & Hall & Hcost & Hs). eapply does_mono; [by eapply deleteBody_does|].
      intros [d' []] s' (fl' & pend' & Hs'); by exists all, fl', pend'.
    + intros out Hout. destruct (liveRests_spec (wd_now w) out Hc2 Hout) as [Hnd Hin]. exists (liveRests (wd_now w) tag name out), [], [].
      assert (liveRests (wd_now w) tag name out ≡ₚ (map_to_list D).*1) as Hp.
      { apply NoDup_Permutation; [done|apply NoDup_fst_map_to_list|]. intros r. rewrite Hin, list_elem_of_fmap. split.
        - intros [v Hv]. exists (r, v). split; [done|]. by apply elem_of_map_to_list.
        - intros ([r' v] & -> & Hv%elem_of_map_to_list). by eexists. }
      split; [done|]. split; [by rewrite Hp|]. split; try done; [|apply Hout]. eapply rep_less; [|exact Hr]. unfold opCost. cbn. lia.
  - intros d s1 (all & fl & pend & Hall & Hcost & [H1 H2 H3 H4 H5 H6 _ _]). rewrite H4. cbn [liveRests] in H5. rewrite app_nil_r in H5. subst all.
    eapply does_step.
    { apply (flushDeletion_does s1 w _ _ d pend H1 Hw H3); [by apply NoDup_app in H6 as (_ & _ & ?)|done|]. rewrite opCost_app in Hcost. lia. }
    intros d' s2 [-> Hr2]. apply does_ret. cbn [dl_deleted dl_err]. split.
    + f_equal. rewrite H2, <- Nat2Z.inj_add, <- length_app, Hall, length_fmap. by rewrite length_map_to_list.
    + exists (fl ++ pend). split; [done|]. unfold del_writes in *. rewrite (fmap_app delRest), (fmap_app (fieldWrite tag name)), kv_writes_app.
      eapply rep_less; [|exact Hr2]. rewrite opCost_app. lia.
Qed.
End one.

(** ** The five prefixes of a name *)

Section all.
Context (t : Z) (name : bytes) (R : Z -> gmap bytes bytes).
Hypothesis Hname : name_ok name.
Hypothesis no_expiry : forall tag rest, coll_tag tag -> ~ Ex (ckey tag name rest).

Definition prefixesOf (tags : list Z) : list bytes := (fun tag => cprefix tag name) <$> tags.
Definition fieldCount (tags : list Z) : Z := foldr (fun tag c => Z.of_nat (size (R tag)) + c) 0 tags.
Definition wholeCost (tags : list Z) : Z := foldr (fun tag c => opCost name (map_to_list (R tag)).*1 + c) 0 tags.

Lemma wholeCost_nonneg tags : 0 <= wholeCost tags.
Proof. induction tags as [|tag tags IH]; [done|]. cbn. pose proof (opCost_nonneg name (map_to_list (R tag)).*1). unfold wholeCost in IH. lia. Qed.

Lemma deletePrefixes_does s w M n tags total : rep s M n t -> world_ok t w -> NoDup tags -> Forall coll_tag tags ->
  (forall tag, tag ∈ tags -> fields M tag name (R tag)) -> wholeCost tags <= n ->
  does (deletePrefixes w (prefixesOf tags) total) s (fun r s' => r = (total + fieldCount tags, None) /\ exists M', rep s' M' (n - wholeCost tags) t /\
    (forall tag, tag ∈ tags -> fields M' tag name ∅) /\
    (forall k, (forall tag rest, tag ∈ tags -> k <> ckey tag name rest) -> M' !! k = M !! k)).
Proof.
  intros Hr Hw Hnd. revert s M n total Hr. induction Hnd as [|tag tags Ht Hnd IH]; intros s M n total Hr Hu HD Hc; cbn [prefixesOf fmap list_fmap deletePrefixes].
  { apply does_ret. split; [cbn; f_equal; lia|]. exists M. cbn. rewrite Z.sub_0_r. split; [done|]. split; [by intros ? ?%elem_of_nil|done]. }
  apply Forall_cons in Hu as [Hu Hus]. unfold wholeCost, fieldCount in *. cbn [foldr] in *. pose proof (wholeCost_nonneg tags) as Hnn. unfold wholeCost in Hnn.
  eapply does_step; [apply (deletePrefix_does M t tag name (R tag) ltac:(apply HD; left) (fun rest => no_expiry tag rest Hu) n s w Hr Hw); lia|].
  intros r s1 (-> & rs & Hrs & Hr1). cbn [fst snd]. set (M1 := kv_writes M (del_writes tag name rs)) in *.
  assert (forall tag', tag' ∈ tags -> fields M1 tag' name (R tag')) as HD1.
  { intros tag' Ht'. apply fields_frame; [apply Hname|apply Hname|intros [= ->]; done|]. apply HD. by right. }
  eapply does_mono; [apply (IH s1 M1 (n - opCost name rs + 1024) (total + Z.of_nat (size (R tag))) Hr1 Hus HD1)|].
  - rewrite Hrs. lia.
  - intros r' s' (-> & M' & Hr' & Hf & Hfr). split; [f_equal; lia|]. exists M'. split; [|split].
    + eapply rep_less; [|exact Hr']. rewrite Hrs. lia.
    + intros tag' [->|Ht']%elem_of_cons; [|by apply Hf]. intros rest. rewrite Hfr.
      * unfold M1, del_writes. rewrite (fields_writes M tag name (R tag)) by (apply HD; left). rewrite del_all; [done| |rewrite Hrs; apply NoDup_fst_map_to_list].
        intros r [v Hv]. rewrite Hrs. apply list_elem_of_fmap. exists (r, v). split; [done|by apply elem_of_map_to_list].
      * intros tag' rest' Ht' E. apply ckey_inj in E as (-> & _); [done|apply Hname..].
    + intros k Hk. rewrite Hfr by (intros tag' rest' Ht'; apply Hk; by right). apply writes_frame. intros rest. apply Hk. left.
Qed.

Definition is_field (tags : list Z) (k : bytes) : Prop := exists tag rest, tag ∈ tags /\ k = ckey tag name rest /\ is_Some (R tag !! rest).

Lemma collect_one (s : S) (now : Z) (M : kvmap) (n tag : Z) (a : gset bytes * list bytes) : rep s M n t -> clock_ok t now -> coll_tag tag -> fields M tag name (R tag) ->
  (forall rest, ckey tag name rest ∉ a.1) ->
  does (db_scan (collectBody now (cprefix tag name)) (cprefix tag name) a) s (fun a' s' => rep s' M n t /\
    exists rs, (forall r, r ∈ rs <-> is_Some (R tag !! r)) /\ a' = (list_to_set (ckey tag name <$> rs) ∪ a.1, a.2 ++ (ckey tag name <$> rs))).
Proof.
  intros Hr [Hc1 Hc2] Hu HD Ha. eapply (scan_law _ _ _ _ s M n t now
    (fun l a1 s1 => rep s1 M n t /\ exists fl all, (forall r, r ∈ all <-> is_Some (R tag !! r)) /\ NoDup all /\ fl ++ liveRests now tag name l = all /\
      a1 = (list_to_set (ckey tag name <$> fl) ∪ a.1, a.2 ++ (ckey tag name <$> fl)))); try done.
  - intros l a1 s1 s2 Hq (Hr1 & H). split; [by eapply rep_quiet|done].
  - intros x l a1 s1 (Hr1 & fl & all & Hall & Hnd & Eall & ->). unfold collectBody. destruct (has_prefix (cprefix tag name) (Key x)) eqn:Ep; cbn [negb].
    2: { apply does_ret. cbn [fst snd]. split; [done|]. cbn [liveRests] in Eall. rewrite Ep in Eall. cbn [negb] in Eall. rewrite app_nil_r in Eall. subst all. by exists fl. }
    apply cprefix_spec in Ep as [rest Ek]. rewrite (liveRests_cons tag name now x l rest Ek) in Eall. cbn [fst snd]. destruct (liveAt now x); cbn [andb].
    + rewrite bool_decide_eq_false_2; cbn [negb].
      * apply does_ret. cbn [fst snd]. split; [done|]. exists (fl ++ [rest]), all. rewrite <- app_assoc. split_and!; try done. rewrite Ek, fmap_app, app_assoc. f_equal.
        cbn [fmap list_fmap]. set_solver.
      * rewrite Ek, elem_of_union, elem_of_list_to_set. intros [(r & E & Hin)%list_elem_of_fmap|E]; [|by apply Ha in E]. apply ckey_rest in E as ->.
        rewrite <- Eall in Hnd. apply NoDup_app in Hnd as (_ & Hnd & _). apply (Hnd _ Hin). left.
    + apply does_ret. cbn [fst snd]. split; [done|]. by exists fl, all.
  - intros a1 s1 (Hr1 & fl & all & Hall & _ & Eall & ->). split; [done|]. cbn [liveRests] in Eall. rewrite app_nil_r in Eall. subst all. by exists fl.
  - intros out Hout. split; [done|]. destruct (liveRests_spec M tag name (R tag) HD (fun rest => no_expiry tag rest Hu) now out Hc2 Hout) as [Hnd Hin].
    exists [], (liveRests now tag name out). split_and!; try done. destruct a as [a1 a2]. cbn. rewrite app_nil_r. f_equal. set_solver.
Qed.

Lemma collectPrefixes_does (s : S) (now : Z) (M : kvmap) (n : Z) (tags : list Z) (a : gset bytes * list bytes) : rep s M n t -> clock_ok t now -> NoDup tags -> Forall coll_tag tags ->
  (forall tag, tag ∈ tags -> fields M tag name (R tag)) -> (forall tag rest, tag ∈ tags -> ckey tag name rest ∉ a.1) ->
  does (collectPrefixes now (prefixesOf tags) a) s (fun r s' => rep s' M n t /\ exists l, r = a.2 ++ l /\ forall k, k ∈ l <-> is_field tags k).
Proof.
  intros Hr Hw Hnd. revert s a Hr. induction Hnd as [|tag tags Ht Hnd IH]; intros s a Hr Hu HD Ha; cbn [prefixesOf fmap list_fmap collectPrefixes].
  { apply does_ret. split; [done|]. exists []. rewrite app_nil_r. split; [done|]. intros k. split; [by intros ?%elem_of_nil|]. by intros (? & ? & ?%elem_of_nil & _). }
  apply Forall_cons in Hu as [Hu Hus].
  eapply does_step; [apply (collect_one s now M n tag a Hr Hw Hu); [apply HD; left|intros rest; apply Ha; left]|].
  intros a' s1 (Hr1 & rs & Hrs & ->). eapply does_mono; [apply IH; [done|done|intros tag' Ht'; apply HD; by right|]|].
  - intros tag' rest Ht'. cbn [fst]. rewrite elem_of_union, elem_of_list_to_set. intros [(r & E & _)%list_elem_of_fmap|E].
    + apply ckey_inj in E as (-> & _); [done|apply Hname..].
    + by apply (Ha tag' rest) in E; [|right].
  - intros r s' (Hr' & l & -> & Hl). split; [done|]. exists ((ckey tag name <$> rs) ++ l). cbn [snd]. rewrite <- app_assoc. split; [done|]. intros k.
    rewrite elem_of_app, Hl, list_elem_of_fmap. split.
    + intros [(r & -> & Hr2)|(tag' & rest & Ht' & H)]; [exists tag, r; split; [left|]; split; [done|by apply Hrs]|exists tag', rest; split; [by right|done]].
    + intros (tag' & rest & [->|Ht']%elem_of_cons & -> & H); [left; exists rest; split; [done|by apply Hrs]|right; by exists tag', rest].
Qed.
End all.
End whole.
