(* ===== verification/BitmapSpec.v ===== *)
(** * Bitmaps on any store

    A bitmap is a set of offsets and a length in bytes, as in a Redis string;
    pages and masks are shown to be an implementation of it. *)
From S2P Require Import Prelude Mvcc Strconv Encoding Values VlogSpec Engine EngineSteps Scan ScanSpec Store Collections CollKeys CollOps Bitmaps.

(** ** Counting bits *)

(** Bit [j] of a page. *)
Definition bitv (v : bytes) (j : Z) : bool := Z.testbit (byteAt v (j / 8)) (7 - j mod 8).

(** How many of the [n] offsets from [a] on satisfy [f]. *)
Fixpoint ones (f : Z -> bool) (a : Z) (n : nat) : Z :=
  match n with O => 0 | S n => Z.b2z (f a) + ones f (a + 1) n end.

Lemma ones_app f a n m : ones f a (n + m) = ones f a n + ones f (a + Z.of_nat n) m.
Proof.
  revert a. induction n as [|n IH]; intros a; cbn [ones Nat.add]; [by rewrite Z.add_0_r|]. rewrite IH.
  replace (a + 1 + Z.of_nat n) with (a + Z.of_nat (S n)) by lia. lia.
Qed.

Lemma ones_ext f g a n : (forall i, a <= i < a + Z.of_nat n -> f i = g i) -> ones f a n = ones g a n.
Proof.
  revert a. induction n as [|n IH]; intros a H; cbn [ones]; [done|]. rewrite (H a), (IH (a + 1)) by lia || (intros; apply H; lia). done.
Qed.

Lemma ones_shift f a n : ones (fun i => f (i + a)) 0 n = ones f a n.
Proof.
  assert (forall b, ones (fun i => f (i + a)) b n = ones f (b + a) n) as ->; [|done].
  induction n as [|n IH]; intros b; cbn [ones]; [done|]. rewrite IH. do 2 f_equal. lia.
Qed.

(** *** Masks of a byte, checked on all bytes *)

Definition maskCheck (b lo hi : Z) : bool :=
  (hi <? lo) || (OnesCount8 (Z.land b (Z.land (maskFrom lo) (maskTo hi))) =? ones (fun i => Z.testbit b (7 - i)) lo (Z.to_nat (hi - lo + 1))) &&
  (Z.land (maskFrom lo) (maskTo 7) =? maskFrom lo) && (Z.land (maskFrom 0) (maskTo hi) =? maskTo hi) && (Z.land b 255 =? b).

Lemma masks_checked : forallb (fun b => forallb (fun lo => forallb (maskCheck b lo) (seqZ 0 8)) (seqZ 0 8)) (seqZ 0 256) = true.
Proof. vm_compute. reflexivity. Qed.

Lemma mask_fact b lo hi : is_u8 b -> 0 <= lo <= hi -> hi < 8 ->
  OnesCount8 (Z.land b (Z.land (maskFrom lo) (maskTo hi))) = ones (fun i => Z.testbit b (7 - i)) lo (Z.to_nat (hi - lo + 1)) /\
  Z.land (maskFrom lo) (maskTo 7) = maskFrom lo /\ Z.land (maskFrom 0) (maskTo hi) = maskTo hi /\ Z.land b 255 = b.
Proof.
  intros Hb Hlo Hhi. unfold is_u8 in Hb. pose proof masks_checked as H.
  rewrite forallb_forall in H. specialize (H b). rewrite <- list_elem_of_In, elem_of_seqZ in H. specialize (H ltac:(lia)).
  rewrite forallb_forall in H. specialize (H lo). rewrite <- list_elem_of_In, elem_of_seqZ in H. specialize (H ltac:(lia)).
  rewrite forallb_forall in H. specialize (H hi). rewrite <- list_elem_of_In, elem_of_seqZ in H. specialize (H ltac:(lia)).
  unfold maskCheck in H. rewrite (proj2 (Z.ltb_ge _ _)) in H by lia. cbn [orb] in H. bool_prop. done.
Qed.

Lemma maskFrom_mod j : maskFrom j = maskFrom (j mod 8).
Proof. unfold maskFrom. by rewrite Z.mod_mod. Qed.
Lemma maskTo_mod j : maskTo j = maskTo (j mod 8).
Proof. unfold maskTo. by rewrite Z.mod_mod. Qed.

Lemma byteAt_u8 v i : wf_bytes v -> is_u8 (byteAt v i).
Proof.
  intros Hv. unfold byteAt. destruct (v !! Z.to_nat i) as [b|] eqn:E; [|unfold is_u8; cbn; lia]. apply (Forall_lookup_1 _ _ _ _ Hv E).
Qed.

(** The bits of one byte of a page from [lo] to [hi]. *)
Lemma byte_ones v lo hi : wf_bytes v -> 0 <= lo <= hi -> lo / 8 = hi / 8 ->
  ones (bitv v) lo (Z.to_nat (hi - lo + 1)) = OnesCount8 (Z.land (byteAt v (lo / 8)) (Z.land (maskFrom lo) (maskTo hi))).
Proof.
  intros Hv Hlo E. pose proof (Z.div_mod lo 8 ltac:(lia)). pose proof (Z.div_mod hi 8 ltac:(lia)). pose proof (Z.mod_pos_bound lo 8 ltac:(lia)).
  pose proof (Z.mod_pos_bound hi 8 ltac:(lia)). rewrite maskFrom_mod, maskTo_mod.
  rewrite (proj1 (mask_fact (byteAt v (lo / 8)) (lo mod 8) (hi mod 8) (byteAt_u8 v _ Hv) ltac:(lia) ltac:(lia))).
  replace (hi mod 8 - lo mod 8) with (hi - lo) by lia. rewrite <- (ones_shift (bitv v) lo), <- (ones_shift _ (lo mod 8)). apply ones_ext.
  intros i Hi. unfold bitv. assert ((i + lo) / 8 = lo / 8 /\ (i + lo) mod 8 = i + lo mod 8) as [-> ->]; [|done].
  assert (i + lo = lo / 8 * 8 + (i + lo mod 8)) as E2 by lia. split.
  - rewrite E2, Z.add_comm, Z.div_add by lia. rewrite Z.div_small; lia.
  - rewrite E2, Z.add_comm, Z_mod_plus_full. apply Z.mod_small. lia.
Qed.

Lemma whole_byte v q : wf_bytes v -> 0 <= q -> ones (bitv v) (8 * q) 8 = OnesCount8 (byteAt v q).
Proof.
  intros Hv Hq. pose proof (byte_ones v (8 * q) (8 * q + 7) Hv ltac:(lia)) as H. assert (8 * q / 8 = q) as E1 by (rewrite Z.mul_comm; apply Z.div_mul; lia).
  assert ((8 * q + 7) / 8 = q) as E2 by (rewrite (Z.mul_comm 8), Z.div_add_l by lia; cbn; lia). specialize (H ltac:(lia)). rewrite E1 in H.
  replace (Z.to_nat (8 * q + 7 - 8 * q + 1)) with 8%nat in H by lia. rewrite H, maskFrom_mod, maskTo_mod.
  replace (8 * q mod 8) with 0 by (rewrite Z.mul_comm, Z.mod_mul; lia). replace ((8 * q + 7) mod 8) with 7 by (rewrite Z.add_comm, (Z.mul_comm 8), Z_mod_plus_full; done).
  change (Z.land (maskFrom 0) (maskTo 7)) with 255. by rewrite (proj2 (proj2 (proj2 (mask_fact (byteAt v q) 0 0 (byteAt_u8 v q Hv) ltac:(lia) ltac:(lia))))).
Qed.

Lemma whole_bytes v q n : wf_bytes v -> (q + n <= length v)%nat -> ones (bitv v) (8 * Z.of_nat q) (8 * n) = countBytes v q n.
Proof.
  intros Hv. revert q. induction n as [|n IH]; intros q Hn.
  - unfold countBytes, slice. by rewrite Nat.add_0_r, Nat.sub_diag, take_0.
  - replace (8 * S n)%nat with (8 + 8 * n)%nat by lia. rewrite ones_app, whole_byte by (done || lia).
    replace (8 * Z.of_nat q + Z.of_nat 8) with (8 * Z.of_nat (S q)) by lia. rewrite IH by lia. unfold countBytes, slice.
    replace (q + S n - q)%nat with (S n) by lia. replace (S q + n - S q)%nat with n by lia.
    destruct (lookup_lt_is_Some_2 v q) as [b Eb]; [lia|]. rewrite (drop_S _ _ _ Eb). cbn [take foldr]. unfold byteAt. by rewrite Nat2Z.id, Eb.
Qed.

(** [countBitsInRange] counts the set bits of the range. *)
Lemma countBitsInRange_spec v lo hi : wf_bytes v -> 0 <= lo <= hi -> hi < 8 * Z.of_nat (length v) ->
  countBitsInRange v lo hi = ones (bitv v) lo (Z.to_nat (hi - lo + 1)).
Proof.
  intros Hv Hlo Hhi. unfold countBitsInRange. rewrite (proj2 (Z.ltb_ge _ _)), (proj2 (Z.ltb_ge hi lo)) by lia.
  destruct (Nat.eqb_spec (length v) 0) as [E|_]; [lia|]. cbn [orb]. rewrite !(proj2 (Z.ltb_ge (_ * 8 - 1) _)) by lia.
  pose proof (Z.div_mod lo 8 ltac:(lia)). pose proof (Z.div_mod hi 8 ltac:(lia)). pose proof (Z.mod_pos_bound lo 8 ltac:(lia)).
  pose proof (Z.mod_pos_bound hi 8 ltac:(lia)). assert (0 <= lo / 8 <= hi / 8) by (split; [apply Z.div_pos; lia|apply Z.div_le_mono; lia]).
  destruct (Z.eqb_spec (lo / 8) (hi / 8)) as [E|Hne]; [by rewrite byte_ones|].
  set (q1 := lo / 8) in *. set (q2 := hi / 8) in *.
  replace (Z.to_nat (hi - lo + 1)) with (Z.to_nat (8 * q1 + 7 - lo + 1) + (8 * Z.to_nat (q2 - q1 - 1) + Z.to_nat (hi - 8 * q2 + 1)))%nat by lia.
  rewrite !ones_app. rewrite (byte_ones v lo (8 * q1 + 7)) by (done || lia || (unfold q1; rewrite (Z.mul_comm 8), Z.div_add_l by lia; cbn; lia)).
  replace (lo + Z.of_nat (Z.to_nat (8 * q1 + 7 - lo + 1))) with (8 * Z.of_nat (Z.to_nat q1 + 1)) by lia. rewrite whole_bytes by (done || lia).
  replace (8 * Z.of_nat (Z.to_nat q1 + 1) + Z.of_nat (8 * Z.to_nat (q2 - q1 - 1))) with (8 * q2) by lia.
  assert (8 * q2 / 8 = q2) as E2 by (rewrite Z.mul_comm; apply Z.div_mul; lia).
  rewrite (byte_ones v (8 * q2) hi) by (done || lia). fold q1. rewrite E2.
  rewrite (maskFrom_mod (8 * q2)), (maskTo_mod (8 * q1 + 7)), (maskTo_mod hi), (maskFrom_mod lo).
  replace (8 * q2 mod 8) with 0 by (rewrite Z.mul_comm, Z.mod_mul; lia). replace ((8 * q1 + 7) mod 8) with 7 by (rewrite Z.add_comm, (Z.mul_comm 8), Z_mod_plus_full; done).
  destruct (mask_fact 0 (lo mod 8) 7 ltac:(unfold is_u8; lia) ltac:(lia) ltac:(lia)) as (_ & -> & _ & _).
  destruct (mask_fact 0 0 (hi mod 8) ltac:(unfold is_u8; lia) ltac:(lia) ltac:(lia)) as (_ & _ & -> & _). lia.
Qed.

(** ** Pages and offsets *)

(** The offsets of the set bits of page [p]. *)
Definition pageSet (p : Z) (v : bytes) : gset Z :=
  list_to_set (filter (fun i => bitv v (i - p * bitmapPageBits) = true) (seqZ (p * bitmapPageBits) (8 * Z.of_nat (length v)))).

Lemma bitv_beyond v j : 8 * Z.of_nat (length v) <= j -> bitv v j = false.
Proof.
  intros Hj. unfold bitv, byteAt. rewrite lookup_ge_None_2; [apply Z.testbit_0_l|].
  assert (Z.of_nat (length v) <= j / 8); [|lia]. apply Z.div_le_lower_bound; lia.
Qed.

Lemma elem_of_pageSet p v i : i ∈ pageSet p v <-> p * bitmapPageBits <= i /\ bitv v (i - p * bitmapPageBits) = true.
Proof.
  unfold pageSet. rewrite elem_of_list_to_set, list_elem_of_filter, elem_of_seqZ. split; [tauto|]. intros [H1 H2]. split; [done|]. split; [done|].
  destruct (Z.lt_ge_cases i (p * bitmapPageBits + 8 * Z.of_nat (length v))); [done|]. rewrite bitv_beyond in H2 by lia. done.
Qed.

(** Elements of a set in a range. *)
Definition within (lo hi : Z) (B : gset Z) : gset Z := filter (fun i => lo <= i <= hi) B.

Lemma ones_filter f a n : ones f a n = Z.of_nat (length (filter (fun i => f i = true) (seqZ a (Z.of_nat n)))).
Proof.
  revert a. induction n as [|n IH]; intros a; [done|]. rewrite seqZ_cons by lia. cbn [ones]. rewrite filter_cons, IH.
  replace (Z.succ a) with (a + 1) by lia. replace (Z.pred (Z.of_nat (S n))) with (Z.of_nat n) by lia.
  destruct (f a); [rewrite decide_True by done; cbn [Z.b2z length]; lia|rewrite decide_False by done; cbn [Z.b2z]; lia].
Qed.

Lemma within_page p v lo hi a n : a = Z.max lo (p * bitmapPageBits) ->
  n = Z.min hi (p * bitmapPageBits + 8 * Z.of_nat (length v) - 1) - a + 1 ->
  Z.of_nat (size (within lo hi (pageSet p v))) = ones (bitv v) (a - p * bitmapPageBits) (Z.to_nat n).
Proof.
  intros Ha Hn. rewrite <- (ones_shift (bitv v) (a - p * bitmapPageBits)).
  rewrite (ones_ext _ (fun i => bitv v (i + a - p * bitmapPageBits))) by (intros; f_equal; lia).
  rewrite (ones_shift (fun j => bitv v (j - p * bitmapPageBits)) a), ones_filter.
  assert (within lo hi (pageSet p v) = list_to_set (filter (fun i => bitv v (i - p * bitmapPageBits) = true) (seqZ a (Z.of_nat (Z.to_nat n))))) as ->.
  { apply set_eq. intros i. unfold within. rewrite elem_of_filter, elem_of_pageSet, elem_of_list_to_set, list_elem_of_filter, elem_of_seqZ.
    split; [|intros (H1 & H2 & H3); split; [lia|split; [lia|done]]]. intros (H1 & H2 & H3). split; [done|]. assert (i - p * bitmapPageBits < 8 * Z.of_nat (length v)); [|lia].
    destruct (Z.lt_ge_cases (i - p * bitmapPageBits) (8 * Z.of_nat (length v))); [done|]. rewrite bitv_beyond in H3 by lia. done. }
  rewrite size_list_to_set; [done|]. apply NoDup_filter, NoDup_seqZ.
Qed.

Lemma pageRest_inj p q : 0 <= p < 2 ^ 63 -> 0 <= q < 2 ^ 63 -> pageRest p = pageRest q -> p = q.
Proof.
  unfold pageRest. intros Hp Hq E. apply (f_equal be_decode) in E. rewrite !u64_id in E by (unfold is_u64; lia). rewrite !be_decode_encode_id in E by lia. done.
Qed.

(** A page number is below 2^47, the offset below 2^62. *)
Definition is_page (p : Z) : Prop := 0 <= p < 2 ^ 47.
Definition maxOffset : Z := 2 ^ 62.

(** The bitmap with the set bits [B] and a length of [len] bytes. *)
Record bitmap_rec (len : Z) (B : gset Z) (D : gmap bytes bytes) : Prop := {
  br_page : forall r v, D !! r = Some v -> exists p, is_page p /\ r = pageRest p /\ wf_bytes v /\ (1 <= length v <= 4096)%nat;
  br_bits : forall i, i ∈ B <-> exists p v, is_page p /\ D !! pageRest p = Some v /\ i ∈ pageSet p v;
  br_max : forall p v, is_page p -> D !! pageRest p = Some v -> p * 4096 + Z.of_nat (length v) <= len;
  br_len : (len = 0 /\ D = ∅) \/ exists p v, is_page p /\ D !! pageRest p = Some v /\ len = p * 4096 + Z.of_nat (length v);
}.

Lemma pageSet_range p v i : (length v <= 4096)%nat -> i ∈ pageSet p v -> p * bitmapPageBits <= i < (p + 1) * bitmapPageBits.
Proof.
  intros Hl [H1 H2]%elem_of_pageSet. unfold bitmapPageBits in *. split; [done|].
  destruct (Z.lt_ge_cases (i - p * (8 * 4096)) (8 * Z.of_nat (length v))); [lia|]. rewrite bitv_beyond in H2 by done. done.
Qed.

(** Counting page by page. *)
Lemma pages_within lo hi B D (g : bytes -> bytes -> Z) :
  (forall i, i ∈ B <-> exists p v, is_page p /\ D !! pageRest p = Some v /\ i ∈ pageSet p v) ->
  (forall r v, D !! r = Some v -> exists p, is_page p /\ r = pageRest p /\ wf_bytes v /\ (1 <= length v <= 4096)%nat /\ g r v = Z.of_nat (size (within lo hi (pageSet p v)))) ->
  foldr (fun kv n => g kv.1 kv.2 + n) 0 (map_to_list D) = Z.of_nat (size (within lo hi B)).
Proof.
  revert B. induction D as [|r v D Hr IH] using map_ind; intros B HB Hg.
  - rewrite map_to_list_empty. cbn. assert (within lo hi B = ∅) as ->; [|by rewrite size_empty]. apply set_eq. intros i. unfold within.
    rewrite elem_of_filter, HB. setoid_rewrite lookup_empty. set_solver.
  - assert (forall l l', l ≡ₚ l' -> foldr (fun kv n => g kv.1 kv.2 + n) 0 l = foldr (fun kv n => g kv.1 kv.2 + n) 0 l') as Hperm.
    { induction 1; cbn [foldr]; lia. }
    rewrite (Hperm _ _ (map_to_list_insert D r v Hr)). cbn [foldr fst snd]. clear Hperm.
    destruct (Hg r v) as (p & Hp & -> & Hw & Hl & ->); [by rewrite lookup_insert_eq|].
    assert (forall q, is_page q -> D !! pageRest q <> None -> q <> p) as Hne by (intros q _ Hq ->; by rewrite Hr in Hq).
    set (B' := B ∖ pageSet p v). rewrite (IH B').
    + rewrite <- Nat2Z.inj_add, <- size_union.
      * f_equal. f_equal. apply set_eq. intros i. unfold within, B'. rewrite elem_of_union, !elem_of_filter, elem_of_difference.
        destruct (decide (i ∈ pageSet p v)) as [Hi|Hi]; [|tauto]. assert (i ∈ B); [|tauto]. apply HB. exists p, v. by rewrite lookup_insert_eq.
      * intros i. unfold within, B'. rewrite !elem_of_filter, elem_of_difference. tauto.
    + intros i. unfold B'. rewrite elem_of_difference, HB. split.
      * intros [(q & u & Hq & Hu & Hi) Hni]. apply lookup_insert_Some in Hu as [[E <-]|[_ Hu]]; [|by exists q, u].
        apply pageRest_inj in E as <-; [done|unfold is_page in *; lia..].
      * intros (q & u & Hq & Hu & Hi). split.
        -- exists q, u. split; [done|]. split; [|done]. rewrite lookup_insert_ne; [done|]. intros E. by rewrite <- E, Hr in Hu.
        -- intros Hi'. destruct (Hg (pageRest q) u) as (q' & Hq' & E & _ & Hl' & _).
           { rewrite lookup_insert_ne; [done|]. intros E. by rewrite <- E, Hr in Hu. }
           apply pageRest_inj in E as <-; [|unfold is_page in *; lia..]. apply pageSet_range in Hi, Hi'; [|lia..]. unfold bitmapPageBits in *.
           apply (Hne q Hq); [congruence|lia].
    + intros r' u Hu. apply Hg. rewrite lookup_insert_ne; [done|]. intros <-. by rewrite Hr in Hu.
Qed.

(** ** Operations *)

Lemma bitmapPrefix_cprefix key : bitmapPrefix key = cprefix 98 key.
Proof. done. Qed.

Lemma length_pageRest p : length (pageRest p) = 8%nat.
Proof. apply length_be_encode. Qed.

Lemma page_key_parts key p v (prefix := cprefix 98 key) (k := ckey 98 key (pageRest p)) : is_page p -> (1 <= length v)%nat ->
  pageSkipped prefix k v = false /\ pageNumber prefix k = p.
Proof.
  intros Hp Hv. unfold is_page in Hp. assert (k = prefix ++ pageRest p) as E by (symmetry; apply cprefix_app). split.
  - unfold pageSkipped. apply orb_false_iff. split; [apply Nat.eqb_neq; lia|]. apply Nat.ltb_ge. rewrite E, length_app, length_pageRest. lia.
  - unfold pageNumber. rewrite E, slice_app_drop by lia. rewrite Nat.sub_diag, slice_all by (rewrite length_pageRest; lia). unfold pageRest.
    rewrite u64_id, be_decode_encode_id, i64_id by (unfold is_u64, is_i64; lia). done.
Qed.

Lemma pageBits_spec key p v lo hi : is_page p -> wf_bytes v -> (1 <= length v <= 4096)%nat -> 0 <= lo -> hi < 2 ^ 63 ->
  pageBits (cprefix 98 key) (ckey 98 key (pageRest p)) v lo hi = Z.of_nat (size (within lo hi (pageSet p v))).
Proof.
  intros Hp Hw Hl Hlo Hhi. destruct (page_key_parts key p v Hp ltac:(lia)) as [E1 E2]. unfold pageBits. rewrite E1, E2. unfold is_page, bitmapPageBits in *.
  rewrite (i64_id (p * _)), (i64_id (_ - 1)) by (unfold is_i64; rewrite ?i64_id by (unfold is_i64; lia); lia).
  replace (if lo <? p * (8 * 4096) then p * (8 * 4096) else lo) with (Z.max lo (p * (8 * 4096))) by (destruct (Z.ltb_spec lo (p * (8 * 4096))); lia).
  replace (if p * (8 * 4096) + Z.of_nat (length v) * 8 - 1 <? hi then _ else hi) with (Z.min hi (p * (8 * 4096) + 8 * Z.of_nat (length v) - 1))
    by (destruct (Z.ltb_spec (p * (8 * 4096) + Z.of_nat (length v) * 8 - 1) hi); lia).
  rewrite (within_page p v lo hi (Z.max lo (p * (8 * 4096))) _ eq_refl eq_refl). unfold bitmapPageBits.
  destruct (Z.ltb_spec (Z.min hi (p * (8 * 4096) + 8 * Z.of_nat (length v) - 1)) (Z.max lo (p * (8 * 4096)))) as [Hlt|Hge].
  - rewrite Z2Nat.nonpos by lia. done.
  - rewrite !i64_id by (unfold is_i64; lia). rewrite countBitsInRange_spec by (done || lia). f_equal. lia.
Qed.

Lemma sumPages_fields key D f :
  sumPages f (kmap (ckey 98 key) D) = foldr (fun kv n => f (ckey 98 key kv.1) kv.2 + n) 0 (map_to_list D).
Proof.
  unfold sumPages. assert (forall l l' : list (bytes * bytes), l ≡ₚ l' -> foldr (fun kv n => f kv.1 kv.2 + n) 0 l = foldr (fun kv n => f kv.1 kv.2 + n) 0 l') as Hp.
  { induction 1; cbn [foldr]; lia. }
  rewrite (Hp _ _ (map_to_list_kmap (ckey 98 key) D)). rewrite foldr_fmap. done.
Qed.

Lemma max_fold {A} (f : A -> Z) (l : list A) : (forall x, x ∈ l -> 0 <= f x) ->
  let m := foldr (fun x n => Z.max n (f x)) 0 l in
  0 <= m /\ (forall x, x ∈ l -> f x <= m) /\ (m = 0 \/ exists x, x ∈ l /\ m = f x).
Proof.
  induction l as [|y l IH]; intros H; [cbn; split; [lia|]; split; [by intros ? ?%elem_of_nil|by left]|]. cbn [foldr].
  destruct IH as (H0 & H1 & H2); [intros x Hx; apply H; by right|]. cbv zeta in *. specialize (H y ltac:(left)). split; [lia|]. split.
  - intros x [->|Hx]%elem_of_cons; [lia|]. specialize (H1 x Hx). lia.
  - destruct (Z.max_spec (foldr (fun x n => Z.max n (f x)) 0 l) (f y)) as [[_ ->]|[_ ->]]; [right; exists y; split; [left|done]|].
    destruct H2 as [->|(x & Hx & ->)]; [by left|]. right. exists x. split; [by right|done].
Qed.

Lemma totalBytes_spec key len B D : bitmap_rec len B D -> totalBytes (cprefix 98 key) (kmap (ckey 98 key) D) = len.
Proof.
  intros [H1 H2 H3 H4]. unfold totalBytes. set (l := map_to_list _).
  set (g := fun kv : bytes * bytes => pageNumber (cprefix 98 key) kv.1 * 4096 + Z.of_nat (length kv.2)).
  assert (forall kv, kv ∈ l -> exists p, is_page p /\ kv.1 = ckey 98 key (pageRest p) /\ D !! pageRest p = Some kv.2 /\ (1 <= length kv.2 <= 4096)%nat /\
    g kv = p * 4096 + Z.of_nat (length kv.2)) as Hl.
  { intros [k v] Hk. apply elem_of_map_to_list, lookup_kmap_Some in Hk as (r & -> & Hv); [|intros ? ?; apply ckey_rest].
    destruct (H1 r v Hv) as (p & Hp & -> & _ & Hlen). exists p. destruct (page_key_parts key p v Hp ltac:(lia)) as [_ E]. unfold g. cbn [fst snd]. by rewrite E. }
  assert (foldr (fun kv n => if pageSkipped (cprefix 98 key) kv.1 kv.2 then n
    else Z.max n (i64 (Z.quot (i64 (pageNumber (cprefix 98 key) kv.1 * bitmapPageBits)) 8 + Z.of_nat (length kv.2)))) 0 l = foldr (fun kv n => Z.max n (g kv)) 0 l) as ->.
  { clearbody l. induction l as [|kv l IH]; [done|]. cbn [foldr]. rewrite IH by (intros x Hx; apply Hl; by right).
    destruct (Hl kv ltac:(left)) as (p & Hp & Ek & _ & Hlen & Eg). destruct (page_key_parts key p kv.2 Hp ltac:(lia)) as [E1 E2]. rewrite <- Ek in E1, E2.
    rewrite E1, E2. unfold g. rewrite E2. unfold is_page, bitmapPageBits in *. rewrite (i64_id (p * _)) by (unfold is_i64; lia).
    rewrite Z.quot_div_nonneg by lia. replace (p * (8 * 4096)) with (p * 4096 * 8) by lia. rewrite Z.div_mul by lia. rewrite i64_id by (unfold is_i64; lia). done. }
  destruct (max_fold g l) as (M0 & M1 & M2).
  { intros kv Hkv. destruct (Hl kv Hkv) as (p & Hp & _ & _ & _ & ->). unfold is_page in Hp. lia. }
  set (m := foldr _ 0 l) in *. assert (m <= len) as Hle.
  { destruct M2 as [->|(kv & Hkv & ->)].
    - destruct H4 as [[-> _]|(p & v & Hp & _ & ->)]; [lia|unfold is_page in Hp; lia].
    - destruct (Hl kv Hkv) as (p & Hp & _ & Hv & _ & ->). by apply H3. }
  destruct H4 as [[-> _]|(p & v & Hp & Hv & ->)]; [lia|]. assert ((ckey 98 key (pageRest p), v) ∈ l) as Hin.
  { apply elem_of_map_to_list, lookup_kmap_Some; [intros ? ?; apply ckey_rest|]. by exists (pageRest p). }
  specialize (M1 _ Hin). destruct (H1 _ _ Hv) as (p' & Hp' & _ & _ & Hlen). destruct (page_key_parts key p v Hp ltac:(lia)) as [_ E]. unfold g in M1. cbn [fst snd] in M1.
  rewrite E in M1. lia.
Qed.

(** [BITCOUNT] with a range: negative positions count from the end. *)
Definition bitcountRange (len : Z) (B : gset Z) (start stop : Z) (bitMode : bool) : Z :=
  let total := if bitMode then len * 8 else len in
  let u := if bitMode then 1 else 8 in
  let a := Z.max 0 (if start <? 0 then total + start else start) in
  let b := if stop <? 0 then total + stop else stop in
  Z.of_nat (size (within (a * u) (b * u + u - 1) B)).

Lemma bits_below len B D i : bitmap_rec len B D -> i ∈ B -> 0 <= i < len * 8.
Proof.
  intros [H1 H2 H3 _] (p & v & Hp & Hv & Hi)%H2. specialize (H3 p v Hp Hv). apply elem_of_pageSet in Hi as [Hi1 Hi2]. unfold is_page, bitmapPageBits in *.
  split; [lia|]. destruct (Z.lt_ge_cases (i - p * (8 * 4096)) (8 * Z.of_nat (length v))); [lia|]. rewrite bitv_beyond in Hi2 by done. done.
Qed.

Lemma bitmap_len len B D : bitmap_rec len B D -> 0 <= len <= 2 ^ 59.
Proof.
  intros [H1 _ _ [[-> _]|(p & v & Hp & Hv & ->)]]; [lia|]. destruct (H1 _ _ Hv) as (_ & _ & _ & _ & Hl). unfold is_page in Hp. lia.
Qed.

Lemma within_none lo hi (B : gset Z) : (forall i, i ∈ B -> ~ lo <= i <= hi) -> size (within lo hi B) = 0%nat.
Proof. intros H. apply size_empty_iff. intros i. unfold within. rewrite elem_of_filter. split; [|set_solver]. intros [Hr Hi]. by apply (H i) in Hi. Qed.

Lemma countRange_spec key len B D start stop bitMode : bitmap_rec len B D -> - 2 ^ 60 < start < 2 ^ 60 -> - 2 ^ 60 < stop < 2 ^ 60 ->
  countRange (cprefix 98 key) (kmap (ckey 98 key) D) start stop bitMode = bitcountRange len B start stop bitMode.
Proof.
  intros Hb Hs1 Hs2. unfold countRange, bitcountRange. rewrite (totalBytes_spec key len B D Hb). pose proof (bitmap_len _ _ _ Hb) as Hlen.
  assert ((if bitMode then i64 (len * 8) else len) = (if bitMode then len * 8 else len)) as -> by (destruct bitMode; [apply i64_id; unfold is_i64; lia|done]).
  set (total := if bitMode then len * 8 else len). set (u := if bitMode then 1 else 8).
  assert (0 <= total <= 2 ^ 62 /\ (bitMode = false -> total <= 2 ^ 59)) as [Ht Ht'] by (unfold total; destruct bitMode; lia).
  assert ((if start <? 0 then i64 (total + start) else start) = (if start <? 0 then total + start else start)) as ->
    by (destruct (Z.ltb_spec start 0); [apply i64_id; unfold is_i64; lia|done]).
  assert ((if stop <? 0 then i64 (total + stop) else stop) = (if stop <? 0 then total + stop else stop)) as ->
    by (destruct (Z.ltb_spec stop 0); [apply i64_id; unfold is_i64; lia|done]).
  set (a0 := if start <? 0 then total + start else start). set (b := if stop <? 0 then total + stop else stop).
  replace (if a0 <? 0 then 0 else a0) with (Z.max 0 a0) by (destruct (Z.ltb_spec a0 0); lia). set (a := Z.max 0 a0).
  assert (0 <= a < 2 ^ 62 /\ b < 2 ^ 62 /\ (bitMode = false -> a < 2 ^ 60 /\ b < 2 ^ 60)) as (Ha & Hbb & Hbyte).
  { unfold a, a0, b. destruct (Z.ltb_spec start 0), (Z.ltb_spec stop 0); split_and!; try lia; intros E; specialize (Ht' E); lia. }
  destruct ((b <? 0) || (b <? a)) eqn:Ecut.
  { rewrite within_none; [done|]. intros i _. apply orb_true_iff in Ecut. rewrite !Z.ltb_lt in Ecut. unfold u. destruct bitMode; lia. }
  apply orb_false_iff in Ecut. rewrite !Z.ltb_ge in Ecut.
  assert ((if bitMode then a else i64 (a * 8)) = a * u) as ->.
  { unfold u. destruct bitMode; [lia|]. destruct (Hbyte eq_refl). apply i64_id. unfold is_i64. lia. }
  assert ((if bitMode then b else i64 (b * 8 + 7)) = b * u + u - 1) as ->.
  { unfold u. destruct bitMode; [lia|]. destruct (Hbyte eq_refl). rewrite i64_id by (unfold is_i64; lia). lia. }
  set (lo := a * u) in *. set (hi := b * u + u - 1) in *. assert (0 <= lo <= hi) as Hlohi by (unfold lo, hi, u; destruct bitMode; lia).
  pose proof (fun i => bits_below len B D i Hb) as Hbelow.
  destruct (Z.eqb_spec len 0) as [->|Hne]; [rewrite within_none; [done|intros i Hi; specialize (Hbelow i Hi); lia]|].
  rewrite (i64_id (len * 8 - 1)) by (unfold is_i64; lia).
  replace (if len * 8 - 1 <? hi then len * 8 - 1 else hi) with (Z.min hi (len * 8 - 1)) by (destruct (Z.ltb_spec (len * 8 - 1) hi); lia).
  destruct (Z.ltb_spec (Z.min hi (len * 8 - 1)) lo) as [Hlt|Hge]; [rewrite within_none; [done|intros i Hi; specialize (Hbelow i Hi); lia]|].
  rewrite sumPages_fields. rewrite (pages_within lo (Z.min hi (len * 8 - 1)) B D (fun r v => pageBits (cprefix 98 key) (ckey 98 key r) v lo (Z.min hi (len * 8 - 1)))).
  - f_equal. f_equal. apply set_eq. intros i. unfold within. rewrite !elem_of_filter. split; intros [H1 H2]; (split; [|done]); specialize (Hbelow i H2); lia.
  - apply Hb.
  - intros r v Hv. destruct (br_page _ _ _ Hb r v Hv) as (p & Hp & -> & Hw & Hl). exists p. split; [done|]. split; [done|]. split; [done|]. split; [done|].
    apply pageBits_spec; try done; lia.
Qed.

(** All bits. *)
Lemma pages_all key len B D : bitmap_rec len B D ->
  sumPages (fun _ page => countBytes page 0 (length page)) (kmap (ckey 98 key) D) = Z.of_nat (size B).
Proof.
  intros Hb. rewrite sumPages_fields. pose proof (bitmap_len _ _ _ Hb) as Hlen.
  rewrite (pages_within 0 (len * 8) B D (fun _ v => countBytes v 0 (length v))).
  - f_equal. f_equal. apply set_eq. intros i. unfold within. rewrite elem_of_filter. split; [by intros [_ ?]|]. intros Hi. pose proof (bits_below _ _ _ _ Hb Hi). split; [lia|done].
  - apply Hb.
  - intros r v Hv. destruct (br_page _ _ _ Hb r v Hv) as (p & Hp & -> & Hw & Hl). exists p. split; [done|]. split; [done|]. split; [done|]. split; [done|].
    pose proof (br_max _ _ _ Hb p v Hp Hv) as Hmax. unfold is_page in Hp. rewrite <- whole_bytes by (done || lia).
    rewrite (within_page p v 0 (len * 8) (p * bitmapPageBits) (8 * Z.of_nat (length v))) by (unfold bitmapPageBits; lia).
    replace (p * bitmapPageBits - p * bitmapPageBits) with 0 by lia. f_equal. lia.
Qed.

(** ** Setting a bit *)

(** The page that is written back. *)
Definition newPage (data : bytes) (offset val : Z) : bytes :=
  let i := byteIdx offset in
  let data := if (length data <=? i)%nat then growTo (i + 1) data else data in
  <[i := withBit (default 0 (data !! i)) (bitIdx offset) val]> data.

Lemma bitOf_testbit b k : 0 <= k -> bitOf b k = Z.b2z (Z.testbit b k).
Proof. intros Hk. unfold bitOf. change 1 with (Z.ones 1) at 1. rewrite Z.land_ones, Z.shiftr_div_pow2 by lia. rewrite Z.testbit_spec' by lia. done. Qed.

Lemma withBit_testbit b k m val : 0 <= k -> 0 <= m -> Z.testbit (withBit b k val) m = if m =? k then negb (val =? 0) else Z.testbit b m.
Proof.
  intros Hk Hm. unfold withBit. assert (Z.testbit (Z.shiftl 1 k) m = (m =? k)) as E.
  { rewrite Z.shiftl_1_l. destruct (Z.eqb_spec m k) as [->|]; [by apply Z.pow2_bits_true|by apply Z.pow2_bits_false]. }
  destruct (negb (val =? 0)); [rewrite Z.lor_spec, E|rewrite Z.ldiff_spec, E]; destruct (m =? k); cbn; rewrite ?orb_false_r, ?orb_true_r, ?andb_false_r, ?andb_true_r; done.
Qed.

Lemma withBit_u8 b k val : is_u8 b -> 0 <= k < 8 -> is_u8 (withBit b k val).
Proof.
  unfold is_u8. intros Hb Hk. assert (0 <= Z.shiftl 1 k < 2 ^ 8) as Hs.
  { rewrite Z.shiftl_1_l. split; [apply Z.pow_nonneg; lia|apply Z.pow_lt_mono_r; lia]. }
  assert (forall z, 0 <= z -> (forall m, 8 <= m -> Z.testbit z m = false) -> z < 2 ^ 8) as Hlt.
  { intros z Hz Ht. destruct (Z.eq_dec z 0) as [->|]; [lia|]. apply Z.log2_lt_pow2; [lia|]. destruct (Z.lt_ge_cases (Z.log2 z) 8); [done|].
    specialize (Ht (Z.log2 z) ltac:(lia)). rewrite Z.bit_log2 in Ht by lia. done. }
  assert (forall z m, 0 <= z < 2 ^ 8 -> 8 <= m -> Z.testbit z m = false) as Hhigh.
  { intros z m Hz Hm. destruct (Z.eq_dec z 0) as [->|]; [apply Z.testbit_0_l|]. apply Z.bits_above_log2; [lia|]. enough (Z.log2 z < 8) by lia. apply Z.log2_lt_pow2; lia. }
  unfold withBit. destruct (negb (val =? 0)).
  - assert (0 <= Z.lor b (Z.shiftl 1 k)) by (apply Z.lor_nonneg; lia). split; [done|]. apply Hlt; [done|]. intros m Hm. by rewrite Z.lor_spec, !Hhigh.
  - assert (0 <= Z.ldiff b (Z.shiftl 1 k)) by (apply Z.ldiff_nonneg; lia). split; [done|]. apply Hlt; [done|]. intros m Hm. by rewrite Z.ldiff_spec, !Hhigh.
Qed.

Lemma growTo_bits n v j : bitv (growTo n v) j = bitv v j.
Proof.
  unfold bitv, byteAt, growTo. f_equal. destruct (decide (Z.to_nat (j / 8) < length v)%nat); [by rewrite lookup_app_l|]. rewrite lookup_app_r by lia.
  rewrite (lookup_ge_None_2 v) by lia. destruct (_ !! _) as [x|] eqn:E; [|done]. by apply lookup_replicate in E as [-> _].
Qed.

Section setbit.
Context (offset val : Z).
Hypothesis Hoff : 0 <= offset < maxOffset.
Let p := pageOf offset.
Let o := offset mod bitmapPageBits.

Lemma offset_parts : is_page p /\ offset = p * bitmapPageBits + o /\ 0 <= o < bitmapPageBits /\ byteIdx offset = Z.to_nat (o / 8) /\
  bitIdx offset = 7 - o mod 8 /\ 0 <= o / 8 < 4096 /\ 0 <= bitIdx offset < 8.
Proof.
  unfold p, o, pageOf, byteIdx, bitIdx, is_page, maxOffset, bitmapPageBits in *.
  pose proof (Z.div_mod offset (8 * 4096) ltac:(lia)). pose proof (Z.mod_pos_bound offset (8 * 4096) ltac:(lia)). pose proof (Z.mod_pos_bound offset 8 ltac:(lia)).
  assert ((offset mod (8 * 4096)) mod 8 = offset mod 8) as E.
  { replace (offset mod 8) with ((offset mod (8 * 4096) + 4096 * (offset / (8 * 4096)) * 8) mod 8) by (f_equal; lia). by rewrite Z_mod_plus_full. }
  split; [split; [apply Z.div_pos; lia|apply Z.div_lt_upper_bound; lia]|]. split; [lia|]. split; [lia|]. split; [done|]. rewrite E. split; [done|].
  split; [split; [apply Z.div_pos; lia|apply Z.div_lt_upper_bound; lia]|lia].
Qed.

Lemma newPage_spec v : wf_bytes v -> (length v <= 4096)%nat ->
  wf_bytes (newPage v offset val) /\ length (newPage v offset val) = Nat.max (length v) (byteIdx offset + 1) /\ (length (newPage v offset val) <= 4096)%nat /\
  forall j, 0 <= j -> bitv (newPage v offset val) j = if j =? o then negb (val =? 0) else bitv v j.
Proof.
  intros Hw Hl. destruct offset_parts as (_ & _ & Ho & Ei & Eb & Hi & Hbit). unfold newPage. set (i := byteIdx offset) in *.
  set (g := if (length v <=? i)%nat then growTo (i + 1) v else v).
  assert (wf_bytes g /\ length g = Nat.max (length v) (i + 1) /\ forall j, bitv g j = bitv v j) as (Hg1 & Hg2 & Hg3).
  { unfold g. destruct (Nat.leb_spec (length v) i); [|split; [done|]; split; [lia|done]]. split; [|split].
    - unfold growTo. apply wf_bytes_app. split; [done|]. apply Forall_replicate. unfold is_u8. lia.
    - unfold growTo. rewrite length_app, length_replicate. lia.
    - intros j. apply growTo_bits. }
  rewrite length_insert. split; [|split; [done|]; split; [lia|]].
  - apply Forall_insert; [done|]. apply withBit_u8; [|done]. pose proof (byteAt_u8 g (Z.of_nat i) Hg1) as H. unfold byteAt in H. by rewrite Nat2Z.id in H.
  - intros j Hj. rewrite <- Hg3. unfold bitv at 1, byteAt. pose proof (Z.div_mod j 8 ltac:(lia)). pose proof (Z.div_mod o 8 ltac:(lia)).
    pose proof (Z.mod_pos_bound j 8 ltac:(lia)). pose proof (Z.mod_pos_bound o 8 ltac:(lia)). assert (0 <= j / 8) by (apply Z.div_pos; lia).
    destruct (decide (Z.to_nat (j / 8) = i)) as [E|E].
    + rewrite E, list_lookup_insert_eq by lia. cbn [default from_option id]. rewrite withBit_testbit by lia.
      destruct (Z.eqb_spec j o) as [->|Hne]; [by rewrite (proj2 (Z.eqb_eq _ _)) by lia|]. rewrite (proj2 (Z.eqb_neq _ _)) by lia.
      unfold bitv, byteAt. by rewrite E.
    + rewrite list_lookup_insert_ne by done. rewrite (proj2 (Z.eqb_neq j o)) by (intros ->; lia). done.
Qed.

Definition setTo (B : gset Z) : gset Z := if val =? 0 then B ∖ {[offset]} else {[offset]} ∪ B.

Lemma newPage_set v : wf_bytes v -> (length v <= 4096)%nat -> pageSet p (newPage v offset val) = setTo (pageSet p v).
Proof.
  intros Hw Hl. destruct offset_parts as (Hp & Eo & Ho & _). destruct (newPage_spec v Hw Hl) as (_ & _ & _ & Hb). apply set_eq. intros i.
  assert (i ∈ setTo (pageSet p v) <-> if decide (i = offset) then val <> 0 else i ∈ pageSet p v) as ->.
  { unfold setTo. destruct (Z.eqb_spec val 0), (decide (i = offset)); set_solver. }
  destruct (decide (i = offset)) as [->|Hne]; rewrite !elem_of_pageSet.
  - split; [intros [_ H]|intros H; split; [lia|]]; rewrite Hb in * by lia; rewrite (proj2 (Z.eqb_eq _ _)) in * by lia.
    + apply negb_true_iff, Z.eqb_neq in H. done.
    + by apply negb_true_iff, Z.eqb_neq.
  - split; intros [H1 H2]; (split; [done|]); rewrite Hb, (proj2 (Z.eqb_neq _ _)) in * by lia; done.
Qed.

Lemma setbit_rec len B D v : bitmap_rec len B D -> v = default [] (D !! pageRest p) ->
  bitmap_rec (Z.max len (offset / 8 + 1)) (setTo B) (<[pageRest p := newPage v offset val]> D) /\
  wf_bytes v /\ (length v <= 4096)%nat /\ forall i, i ∈ B -> p * bitmapPageBits <= i < (p + 1) * bitmapPageBits -> i ∈ pageSet p v.
Proof.
  intros Hb Ev. destruct offset_parts as (Hp & Eo & Ho & Ei & _ & Hi & _).
  assert (wf_bytes v /\ (length v <= 4096)%nat) as [Hw Hl].
  { destruct (D !! pageRest p) as [v0|] eqn:E; subst v; cbn; [|split; [constructor|lia]]. destruct (br_page _ _ _ Hb _ _ E) as (_ & _ & _ & ? & ?). split; [done|lia]. }
  destruct (newPage_spec v Hw Hl) as (Hw' & Hlen' & Hl' & _). pose proof (newPage_set v Hw Hl) as Hset.
  assert (forall q u, is_page q -> D !! pageRest q = Some u -> (forall i, i ∈ pageSet q u -> q * bitmapPageBits <= i < (q + 1) * bitmapPageBits)) as Hrange.
  { intros q u Hq Hu i. destruct (br_page _ _ _ Hb _ _ Hu) as (_ & _ & _ & _ & ?). apply pageSet_range. lia. }
  assert (forall q, is_page q -> pageRest p = pageRest q -> q = p) as Hinj by (intros q Hq E; unfold is_page in *; symmetry; apply pageRest_inj; [lia|lia|done]).
  assert (offset / 8 + 1 = p * 4096 + Z.of_nat (byteIdx offset + 1)) as Eend.
  { rewrite Ei. replace (offset / 8) with ((p * 4096 * 8 + o) / 8) by (f_equal; unfold bitmapPageBits in Eo; lia). rewrite Z.div_add_l by lia. lia. }
  assert (forall i, i ∈ B -> p * bitmapPageBits <= i < (p + 1) * bitmapPageBits -> i ∈ pageSet p v) as Hin.
  { intros i (q & u & Hq & Hu & Hi')%(br_bits _ _ _ Hb) Hr. pose proof (Hrange q u Hq Hu i Hi') as Hr'. assert (q = p) as -> by (unfold bitmapPageBits in *; lia). by subst v; rewrite Hu. }
  split; [|done]. split.
  - intros r u [[<- <-]|[_ Hu]]%lookup_insert_Some; [|by apply (br_page _ _ _ Hb)]. exists p. split; [done|]. split; [done|]. split; [done|]. lia.
  - intros i. split.
    + intros Hi'. destruct (decide (p * bitmapPageBits <= i < (p + 1) * bitmapPageBits)) as [Hr|Hr].
      * exists p, (newPage v offset val). rewrite lookup_insert_eq, Hset. split; [done|]. split; [done|]. unfold setTo in *. destruct (val =? 0); set_solver.
      * assert (i ∈ B) as HiB by (unfold setTo in Hi'; assert (i <> offset) by lia; destruct (val =? 0); set_solver).
        apply (br_bits _ _ _ Hb) in HiB as (q & u & Hq & Hu & Hiq). exists q, u. split; [done|]. split; [|done]. rewrite lookup_insert_ne; [done|].
        intros E%Hinj; [|done]. subst q. apply Hr. by apply (Hrange p u).
    + intros (q & u & Hq & Hu & Hiq). apply lookup_insert_Some in Hu as [[E <-]|[Hne Hu]].
      * apply Hinj in E as ->; [|done]. rewrite Hset in Hiq. assert (pageSet p v ⊆ B) as Hsub; [|unfold setTo in *; destruct (val =? 0); set_solver].
        intros j Hj. apply (br_bits _ _ _ Hb). destruct (D !! pageRest p) as [v0|] eqn:E; subst v; cbn in Hj; [by exists p, v0|].
        apply elem_of_pageSet in Hj as [? Hj]. rewrite bitv_beyond in Hj by (cbn; lia). done.
      * assert (i ∈ B) as HiB by (apply (br_bits _ _ _ Hb); by exists q, u). pose proof (Hrange q u Hq Hu i Hiq) as Hr. unfold setTo.
        assert (i <> offset) as Hne'; [|destruct (val =? 0); set_solver]. intros ->. apply Hne. f_equal. unfold bitmapPageBits in *. lia.
  - intros q u Hq [[E <-]|[Hne Hu]]%lookup_insert_Some.
    + apply Hinj in E as ->; [|done]. rewrite Hlen'. destruct (D !! pageRest p) as [v0|] eqn:E; subst v; cbn [default from_option id length] in *; [|lia].
      pose proof (br_max _ _ _ Hb p v0 Hp E). lia.
    + pose proof (br_max _ _ _ Hb q u Hq Hu). lia.
  - right. destruct (Z.le_gt_cases len (offset / 8 + 1)) as [Hle|Hgt].
    + exists p, (newPage v offset val). rewrite lookup_insert_eq. split; [done|]. split; [done|]. rewrite Hlen', Z.max_r, Eend by lia.
      destruct (D !! pageRest p) as [v0|] eqn:E; subst v; cbn [default from_option id length] in *; [|lia]. pose proof (br_max _ _ _ Hb p v0 Hp E). lia.
    + rewrite Z.max_l by lia. destruct (br_len _ _ _ Hb) as [[-> _]|(q & u & Hq & Hu & ->)]; [lia|]. destruct (decide (pageRest p = pageRest q)) as [E|E].
      * apply Hinj in E as ->; [|done]. exists p, (newPage v offset val). rewrite lookup_insert_eq. split; [done|]. split; [done|]. rewrite Hlen'. subst v. rewrite Hu in *.
        cbn [default from_option id] in *. lia.
      * exists q, u. by rewrite lookup_insert_ne.
Qed.
End setbit.
