(* ===== verification/BitmapOps.v ===== *)
(** * The bitmap commands on any store *)
From S2P Require Import Prelude Mvcc Strconv Encoding Values VlogSpec Engine EngineSteps Scan ScanSpec Store Collections CollKeys CollOps CollWhole Bitmaps BitmapSpec.

(** The first byte of a page is not the one by which stored values are told
    from value pointers; it decides about offsets 0 to 7 of the page. *)
Definition plain_page (p : Z) (B : gset Z) : Prop :=
  p * bitmapPageBits + 7 ∈ B -> exists i, 0 <= i < 7 /\ p * bitmapPageBits + i ∈ B.

Lemma plain_first v p B : wf_bytes v -> plain_page p B -> (forall i, i ∈ B -> p * bitmapPageBits <= i < (p + 1) * bitmapPageBits -> i ∈ pageSet p v) ->
  pageSet p v ⊆ B -> isValuePointer v = false.
Proof.
  intros Hw Hp Hin Hsub. unfold isValuePointer. destruct v as [|b v]; [done|]. apply andb_false_iff. right. apply Z.eqb_neq. cbn. intros ->.
  assert (forall i, 0 <= i < 8 -> bitv (1 :: v) i = Z.testbit 1 (7 - i)) as Hbit.
  { intros i Hi. unfold bitv. rewrite Z.div_small, Z.mod_small by lia. done. }
  destruct Hp as (i & Hi & HiB).
  - apply Hsub, elem_of_pageSet. split; [lia|]. replace (_ - _) with 7 by lia. by rewrite Hbit by lia.
  - apply Hin in HiB; [|unfold bitmapPageBits; lia]. apply elem_of_pageSet in HiB as [_ HiB]. replace (_ - _) with i in HiB by lia. rewrite Hbit in HiB by lia.
    rewrite Z.bits_above_log2 in HiB; [done|lia|cbn; lia].
Qed.

Section bits.
Context {S : Type} `{HS : !Store S} {Ex : bytes -> Prop} `{HL : !StoreLaws S Ex}.
Context (M : kvmap) (n t : Z) (key : bytes) (D : gmap bytes bytes) (len : Z) (B : gset Z).
Hypothesis HD : fields M 98 key D.
Hypothesis Hb : bitmap_rec len B D.
Hypothesis Hkey : name_ok key.

Lemma get_page s now p : rep s M n t -> clock_ok t now ->
  does (db_Get now (bitmapPageKey key p)) s (fun r s' => r = kv_answer (D !! pageRest p) /\ rep s' M n t).
Proof. intros Hr Hw. rewrite bitmapPageKey_ckey. by eapply (get_field' M n t 98 key D HD). Qed.

(** The bit read back is whether the offset is set. *)
Lemma page_bit offset v : 0 <= offset < maxOffset -> D !! pageRest (pageOf offset) = Some v ->
  bitv v (offset mod bitmapPageBits) = bool_decide (offset ∈ B).
Proof.
  intros Ho Hv. destruct (offset_parts offset Ho) as (Hp & Eo & Hr & _).
  destruct (setbit_rec offset 0 Ho len B D v Hb) as (_ & _ & _ & Hin); [by rewrite Hv|]. case_bool_decide as HB.
  - specialize (Hin offset HB ltac:(unfold bitmapPageBits in *; lia)). apply elem_of_pageSet in Hin as [_ E]. replace (offset - _) with (offset mod bitmapPageBits) in E by lia. done.
  - destruct (bitv v _) eqn:E; [|done]. exfalso. apply HB, (br_bits _ _ _ Hb). exists (pageOf offset), v. split; [done|]. split; [done|].
    apply elem_of_pageSet. split; [lia|]. by replace (offset - _) with (offset mod bitmapPageBits) by lia.
Qed.

Lemma page_none offset : 0 <= offset < maxOffset -> D !! pageRest (pageOf offset) = None -> offset ∉ B.
Proof.
  intros Ho Hv HB. destruct (offset_parts offset Ho) as (Hp & Eo & Hr & _).
  destruct (setbit_rec offset 0 Ho len B D [] Hb) as (_ & _ & _ & Hin); [by rewrite Hv|]. specialize (Hin offset HB ltac:(unfold bitmapPageBits in *; lia)).
  apply elem_of_pageSet in Hin as [_ E]. rewrite bitv_beyond in E; [done|]. cbn. lia.
Qed.

Lemma bitOf_page v offset i : 0 <= offset < maxOffset -> i = byteIdx offset ->
  bitOf (default 0 (v !! i)) (bitIdx offset) = Z.b2z (bitv v (offset mod bitmapPageBits)).
Proof.
  intros Ho ->. destruct (offset_parts offset Ho) as (_ & _ & _ & Ei & Eb & _ & Hbit). rewrite bitOf_testbit by lia. unfold bitv, byteAt. by rewrite Ei, Eb.
Qed.

Lemma GetBit_does s now offset : rep s M n t -> clock_ok t now -> 0 <= offset < maxOffset ->
  does (GetBit now key offset) s (fun r s' => r = Ok (Z.b2z (bool_decide (offset ∈ B))) /\ rep s' M n t).
Proof.
  intros Hr Hw Ho. unfold GetBit. rewrite (proj2 (Z.ltb_ge _ _)) by lia. eapply does_step; [by apply get_page|]. intros r s1 [-> Hr1]. apply does_ret.
  split; [|done]. destruct (D !! pageRest (pageOf offset)) as [v|] eqn:Ev; cbn [kv_answer].
  - rewrite <- (page_bit offset v Ho Ev). destruct (Nat.leb_spec (length v) (byteIdx offset)) as [Hle|Hlt].
    + destruct (offset_parts offset Ho) as (_ & _ & _ & Ei & _ & Hi & _). rewrite bitv_beyond; [done|]. pose proof (Z.div_mod (offset mod bitmapPageBits) 8 ltac:(lia)).
      pose proof (Z.mod_pos_bound (offset mod bitmapPageBits) 8 ltac:(lia)). lia.
    + by rewrite (bitOf_page v offset _ Ho eq_refl).
  - rewrite (bool_decide_eq_false_2 (offset ∈ B)) by (by apply page_none). done.
Qed.

(** A page takes at most 4096 bytes. *)
Definition bitCost : Z := opCost key [] + Z.of_nat (length key) + 8192.

Lemma SetBit_does s w offset val : rep s M n t -> world_ok t w -> 0 <= offset < maxOffset -> bitCost <= n ->
  plain_page (pageOf offset) (setTo offset val B) ->
  does (SetBit w key offset val) s (fun r s' => exists fs, bitmap_rec (Z.max len (offset / 8 + 1)) (setTo offset val B) (rec_writes D fs) /\
    written M n bitCost t 98 key fs (Z.b2z (bool_decide (offset ∈ B))) r s').
Proof.
  intros Hr Hw Ho Hc Hplain. unfold SetBit. rewrite (proj2 (Z.ltb_ge _ _)) by lia. eapply does_step; [by apply get_page, world_clock|]. intros r s1 [-> Hr1].
  set (v := default [] (D !! pageRest (pageOf offset))). destruct (setbit_rec offset val Ho len B D v Hb eq_refl) as (Hb' & Hwf & Hlen & Hin).
  assert (does (setBitIn w (bitmapPageKey key (pageOf offset)) v (byteIdx offset) (bitIdx offset) val) s1 (fun r s' => exists fs,
    bitmap_rec (Z.max len (offset / 8 + 1)) (setTo offset val B) (rec_writes D fs) /\ written M n bitCost t 98 key fs (Z.b2z (bool_decide (offset ∈ B))) r s')) as H.
  2: { unfold v in H. destruct (D !! pageRest (pageOf offset)); exact H. }
  unfold setBitIn. set (i := byteIdx offset). set (g := if (length v <=? i)%nat then growTo (i + 1) v else v).
  change (<[i:=withBit (default 0 (g !! i)) (bitIdx offset) val]> g) with (newPage v offset val).
  destruct (newPage_spec offset val Ho v Hwf Hlen) as (Hwf' & Elen' & Hlen' & _). pose proof (newPage_set offset val Ho v Hwf Hlen) as Hset.
  destruct (offset_parts offset Ho) as (Hp & Eo & Hr' & _).
  assert (isValuePointer (newPage v offset val) = false) as Hv.
  { apply (plain_first _ (pageOf offset) (setTo offset val B) Hwf' Hplain); rewrite Hset.
    - intros j Hj Hrj. unfold setTo in *. destruct (val =? 0); set_solver.
    - assert (pageSet (pageOf offset) v ⊆ B) as Hsub; [|unfold setTo; destruct (val =? 0); set_solver]. intros j Hj. apply (br_bits _ _ _ Hb).
      unfold v in Hj. destruct (D !! pageRest (pageOf offset)) as [v0|] eqn:E; cbn in Hj; [by exists (pageOf offset), v0|].
      apply elem_of_pageSet in Hj as [? Hj]. rewrite bitv_beyond in Hj by (cbn; lia). done. }
  assert (fieldsCost 98 key [(pageRest (pageOf offset), Some (newPage v offset val))] <= bitCost) as Hcost.
  { rewrite fieldsCost_cons, fieldsCost_nil. cbn [fst snd default from_option id]. rewrite length_pageRest. unfold bitCost, opCost. cbn [foldr]. lia. }
  destruct Hkey as [[Hkw Hkl] _]. rewrite bitmapPageKey_ckey. eapply does_step; [apply (PutExAt_law s1 M n t w); try done|].
  - split; [|split; [done|lia]|by unfold is_i64|done]. split; [apply wf_ckey; [is_byte|done|apply wf_be_encode]|]. rewrite length_ckey, length_pageRest. lia.
  - by left.
  - exact (Z.le_trans _ _ _ Hcost Hc).
  - intros r s2 Hres. apply does_ret. exists [(pageRest (pageOf offset), Some (newPage v offset val))]. split; [done|].
    replace (bitOf (default 0 (g !! i)) (bitIdx offset)) with (Z.b2z (bool_decide (offset ∈ B))).
    + destruct Hres as [[-> Hs]|(-> & _ & Hs)]; [left|right; done]. split; [done|]. split; [done|]. refine (rep_less _ _ _ _ _ _ Hs). exact (proj1 (Z.sub_le_mono_l _ _ n) Hcost).
    + rewrite (bitOf_page g offset i Ho eq_refl). f_equal. assert (bitv g (offset mod bitmapPageBits) = bitv v (offset mod bitmapPageBits)) as ->.
      { unfold g. case_if; [apply growTo_bits|done]. }
      unfold v. destruct (D !! pageRest (pageOf offset)) as [v0|] eqn:E; cbn [default from_option id]; [symmetry; by apply page_bit|].
      rewrite (bool_decide_eq_false_2 (offset ∈ B)) by (by apply page_none). symmetry. apply bitv_beyond. cbn. lia.
Qed.

Lemma BitCount_does s now : rep s M n t -> clock_ok t now -> does (BitCount now key) s (fun r s' => r = Z.of_nat (size B) /\ rep s' M n t).
Proof.
  intros Hr Hw. unfold BitCount. rewrite bitmapPrefix_cprefix. eapply does_step; [by eapply (prefix_fields M n t 98 key D HD)|].
  intros m s1 [-> Hr1]. apply does_ret. split; [|done]. by apply (pages_all key len).
Qed.

Lemma BitCountRange_does s now start stop bitMode : rep s M n t -> clock_ok t now -> - 2 ^ 60 < start < 2 ^ 60 -> - 2 ^ 60 < stop < 2 ^ 60 ->
  does (BitCountRange now key start stop bitMode) s (fun r s' => r = bitcountRange len B start stop bitMode /\ rep s' M n t).
Proof.
  intros Hr Hw H1 H2. unfold BitCountRange. rewrite bitmapPrefix_cprefix. eapply does_step; [by eapply (prefix_fields M n t 98 key D HD)|].
  intros m s1 [-> Hr1]. apply does_ret. split; [|done]. by apply countRange_spec.
Qed.

Lemma DeleteBitmap_does s w : rep s M n t -> world_ok t w -> opCost key (map_to_list D).*1 <= n ->
  does (DeleteBitmap w key) s (fun r s' => r = None /\ exists rs, rs ≡ₚ (map_to_list D).*1 /\
    rep s' (kv_writes M (del_writes 98 key rs)) (n - opCost key rs) t).
Proof.
  intros Hr Hw Hc. unfold DeleteBitmap. rewrite bitmapPrefix_cprefix. eapply does_step; [by eapply (prefix_fields M n t 98 key D HD), world_clock|].
  intros m s1 [-> Hr1]. set (rs := (map_to_list D).*1).
  assert ((map_to_list (kmap (ckey 98 key) D : gmap bytes bytes)).*1 ≡ₚ ckey 98 key <$> rs) as Hp.
  { rewrite map_to_list_kmap by (intros ? ?; apply ckey_rest). unfold rs. by rewrite <- !list_fmap_compose. }
  destruct (map_to_list (kmap (ckey 98 key) D : gmap bytes bytes)) as [|kv l] eqn:E.
  { apply does_ret. split; [done|]. apply Permutation_nil_l in Hp. destruct rs as [|] eqn:Ers; [|done]. exists []. split; [by rewrite <- Ers|]. eapply rep_less; [|exact Hr1].
    pose proof (opCost_nonneg key []). lia. }
  apply Permutation_map_inv in Hp as (rs' & Ers & Hp). assert (rs' <> []) as Hne by (intros ->; done).
  assert (del <$> (kv :: l).*1 = del_writes 98 key rs') as -> by (rewrite Ers; unfold del_writes; change (map (ckey 98 key) rs') with (ckey 98 key <$> rs'); by rewrite <- !list_fmap_compose).
  fold rs in Hc. rewrite Hp in Hc. pose proof (del_cost 98 key rs' Hne) as Hcost. unfold fieldsCost in Hcost.
  eapply does_mono; [apply (submitBatch_law s1 M n t w _ Hr1 Hw); [|unfold del_writes; lia]|].
  - apply del_writes_fine; [done|]. rewrite <- Hp. apply NoDup_fst_map_to_list.
  - intros r s2 [[-> Hr2]|(_ & H & _)]; [|by rewrite del_writes_no_put in H]. split; [done|]. exists rs'. split; [done|]. eapply rep_less; [|exact Hr2]. unfold del_writes. lia.
Qed.
End bits.
