(* ===== verification/CollSpec.v ===== *)
(** * Collections refine abstract data types

    What the commands on strings, hashes, sets, lists, sorted sets and bitmaps
    promise, as functions on the values themselves, and the proof that the
    operations on composite keys keep the promise on any [Store], whatever the
    sequence of commands. *)
From S2P Require Import Prelude Mvcc Strconv Encoding Values VlogSpec Engine EngineSteps Scan ScanSpec Store Collections CollKeys CollOps CollLists CollZsets CollWhole Bitmaps BitmapSpec BitmapOps.

(** ** The values *)

(** A string has a value and an expiry time, a bitmap a length in bytes and the
    offsets that are set. *)
Record Data := mkData {
  d_str : bytes -> option (bytes * Z);
  d_hash : bytes -> gmap bytes bytes;
  d_set : bytes -> gset bytes;
  d_list : bytes -> list bytes;
  d_zset : bytes -> gmap bytes Z;
  d_bits : bytes -> Z * gset Z;
}.

Definition no_data : Data := mkData (fun _ => None) (fun _ => ∅) (fun _ => ∅) (fun _ => []) (fun _ => ∅) (fun _ => (0, ∅)).

Definition upd {A} (f : bytes -> A) (k : bytes) (a : A) : bytes -> A := fun k' => if decide (k' = k) then a else f k'.

Lemma upd_eq {A} (f : bytes -> A) k a : upd f k a k = a.
Proof. unfold upd. by rewrite decide_True. Qed.
Lemma upd_ne {A} (f : bytes -> A) k a k' : k' <> k -> upd f k a k' = f k'.
Proof. intros H. unfold upd. by rewrite decide_False. Qed.

Definition with_str (d : Data) (k : bytes) (v : option (bytes * Z)) : Data :=
  mkData (upd (d_str d) k v) (d_hash d) (d_set d) (d_list d) (d_zset d) (d_bits d).
Definition with_hash (d : Data) (k : bytes) (v : gmap bytes bytes) : Data :=
  mkData (d_str d) (upd (d_hash d) k v) (d_set d) (d_list d) (d_zset d) (d_bits d).
Definition with_set (d : Data) (k : bytes) (v : gset bytes) : Data :=
  mkData (d_str d) (d_hash d) (upd (d_set d) k v) (d_list d) (d_zset d) (d_bits d).
Definition with_list (d : Data) (k : bytes) (v : list bytes) : Data :=
  mkData (d_str d) (d_hash d) (d_set d) (upd (d_list d) k v) (d_zset d) (d_bits d).
Definition with_zset (d : Data) (k : bytes) (v : gmap bytes Z) : Data :=
  mkData (d_str d) (d_hash d) (d_set d) (d_list d) (upd (d_zset d) k v) (d_bits d).
Definition with_bits (d : Data) (k : bytes) (v : Z * gset Z) : Data :=
  mkData (d_str d) (d_hash d) (d_set d) (d_list d) (d_zset d) (upd (d_bits d) k v).

Definition nothing (d : Data) (k : bytes) : Prop :=
  d_hash d k = ∅ /\ d_set d k = ∅ /\ d_list d k = [] /\ d_zset d k = ∅ /\ (d_bits d k).1 = 0.

(** ** The commands *)

Inductive cmd :=
  | CSet (k v : bytes) (expiresAt : Z)
  | CGet (k : bytes)
  | CHSet (h f v : bytes)
  | CHSetMulti (h : bytes) (fields : list bytes)
  | CHGet (h f : bytes)
  | CHDel (h f : bytes)
  | CHGetAll (h : bytes)
  | CHLen (h : bytes)
  | CHKeys (h : bytes)
  | CSAdd (k : bytes) (members : list bytes)
  | CSRem (k : bytes) (members : list bytes)
  | CSMembers (k : bytes)
  | CSIsMember (k m : bytes)
  | CSCard (k : bytes)
  | CSInter (ks : list bytes)
  | CLPush (k : bytes) (vs : list bytes)
  | CRPush (k : bytes) (vs : list bytes)
  | CLPop (k : bytes)
  | CRPop (k : bytes)
  | CLLen (k : bytes)
  | CLRange (k : bytes) (start stop : Z)
  | CZAdd (k : bytes) (members : list ZSetMember)
  | CZScore (k m : bytes)
  | CZRem (k : bytes) (members : list bytes)
  | CZRangeByScore (k : bytes) (min max : Z)
  | CSetBit (k : bytes) (offset val : Z)
  | CGetBit (k : bytes) (offset : Z)
  | CBitCount (k : bytes)
  | CBitCountRange (k : bytes) (start stop : Z) (bitMode : bool)
  | CDeleteBitmap (k : bytes)
  | CDelete (k : bytes)
  | CExists (k : bytes).

Inductive reply :=
  | RInt (z : Z)
  | RBulk (v : option bytes)
  | RMap (m : gmap bytes bytes)
  | RList (l : list bytes)
  | RScore (s : option Z)
  | RErr (e : err).

Definition strKey (k : bytes) : bytes := 115 :: 0 :: k.

(** How a result is answered; a key that is not there is no error. *)
Definition reply_of {A} (f : A -> reply) (r : result A) : reply :=
  match r with Ok a => f a | Fail ErrKeyNotFound => RBulk None | Fail e => RErr e end.
Definition reply_err (e : option err) (r : reply) : reply := match e with Some e => RErr e | None => r end.
Definition bulk (v : bytes) : reply := RBulk (Some v).
Definition flag (b : bool) : reply := RInt (Z.b2z b).

Section exec.
Context {S : Type} `{!Store S}.

Definition exec (w : World) (c : cmd) : st S reply :=
  let now := wd_now w in
  match c with
  | CSet k v x => e ← db_PutExAt w (strKey k) v x false; mret (reply_err e (RInt 1))
  | CGet k => r ← db_Get now (strKey k); mret (reply_of bulk r)
  | CHSet h f v => r ← HSet w h f v; mret (reply_of flag r)
  | CHSetMulti h fields => r ← HSetMulti w h fields; mret (reply_of RInt r)
  | CHGet h f => r ← HGet now h f; mret (reply_of bulk r)
  | CHDel h f => r ← HDel w h f; mret (reply_of flag r)
  | CHGetAll h => r ← HGetAll now h; mret (RMap r)
  | CHLen h => r ← HLen now h; mret (RInt r)
  | CHKeys h => r ← HKeys now h; mret (RList r)
  | CSAdd k members => r ← SAdd w k members; mret (reply_of RInt r)
  | CSRem k members => r ← SRem w k members; mret (reply_of RInt r)
  | CSMembers k => r ← SMembers now k; mret (RList r)
  | CSIsMember k m => r ← SIsMember now k m; mret (flag r)
  | CSCard k => r ← SCard now k; mret (RInt r)
  | CSInter ks => r ← SInter now ks; mret (RList r)
  | CLPush k vs => r ← LPush w k vs; mret (reply_of RInt r)
  | CRPush k vs => r ← RPush w k vs; mret (reply_of RInt r)
  | CLPop k => r ← LPop w k; mret (reply_of bulk r)
  | CRPop k => r ← RPop w k; mret (reply_of bulk r)
  | CLLen k => r ← LLen now k; mret (RInt r)
  | CLRange k start stop => r ← LRange now k start stop; mret (RList r)
  | CZAdd k members => r ← ZAddMulti w k members; mret (reply_of RInt r)
  | CZScore k m => r ← ZScore now k m; mret (reply_of (fun sf => RScore (if (sf : Z * bool).2 then Some sf.1 else None)) r)
  | CZRem k members => r ← ZRem w k members; mret (reply_of RInt r)
  | CZRangeByScore k min max => r ← ZRangeByScore k min max; mret (RList r)
  | CSetBit k offset val => r ← SetBit w k offset val; mret (reply_of RInt r)
  | CGetBit k offset => r ← GetBit now k offset; mret (reply_of RInt r)
  | CBitCount k => r ← BitCount now k; mret (RInt r)
  | CBitCountRange k start stop m => r ← BitCountRange now k start stop m; mret (RInt r)
  | CDeleteBitmap k => e ← DeleteBitmap w k; mret (reply_err e (RInt 1))
  | CDelete k => r ← DeleteCollection w k; mret (reply_err (r : Z * option err).2 (RInt r.1))
  | CExists k => r ← CollectionKeys now k; mret (RList r)
  end.

(** Commands one after the other, each at its own time. *)
Fixpoint execs (cs : list (World * cmd)) : st S (list reply) :=
  match cs with
  | [] => mret []
  | (w, c) :: cs => r ← exec w c; rs ← execs cs; mret (r :: rs)
  end.
End exec.

(** ** The promise *)

Definition zremAll (Zs : gmap bytes Z) (members : list bytes) : gmap bytes Z := foldl (fun z m => delete m z) Zs members.

Definition effect (d : Data) (c : cmd) : Data :=
  match c with
  | CSet k v x => with_str d k (Some (v, x))
  | CHSet h f v => with_hash d h (<[f := v]> (d_hash d h))
  | CHSetMulti h fields => with_hash d h (hsetAll (d_hash d h) fields)
  | CHDel h f => with_hash d h (delete f (d_hash d h))
  | CSAdd k members => with_set d k (list_to_set members ∪ d_set d k)
  | CSRem k members => with_set d k (d_set d k ∖ list_to_set members)
  | CLPush k vs => with_list d k (rev vs ++ d_list d k)
  | CRPush k vs => with_list d k (d_list d k ++ vs)
  | CLPop k => with_list d k (tail (d_list d k))
  | CRPop k => with_list d k (removelast (d_list d k))
  | CZAdd k members => with_zset d k (zaddAll (d_zset d k) members)
  | CZRem k members => with_zset d k (zremAll (d_zset d k) members)
  | CSetBit k offset val => with_bits d k (Z.max (d_bits d k).1 (offset / 8 + 1), setTo offset val (d_bits d k).2)
  | CDeleteBitmap k => with_bits d k (0, ∅)
  | CDelete k => with_hash (with_set (with_list (with_zset (with_bits d k (0, ∅)) k ∅) k []) k ∅) k ∅
  | _ => d
  end.

(** The sorted list of a set of names. *)
Definition listing (P : bytes -> Prop) (l : list bytes) : Prop := StronglySorted bytes_lt l /\ forall k, k ∈ l <-> P k.

(** How much a command adds. *)
Definition grown {A B} `{Size A, Size B} (a : A) (b : B) : reply := RInt (Z.of_nat (size b) - Z.of_nat (size a)).

Definition answer (now : Z) (d : Data) (c : cmd) (r : reply) : Prop :=
  match c with
  | CSet _ _ _ | CDeleteBitmap _ => r = RInt 1
  | CGet k => r = RBulk (match d_str d k with Some (v, x) => if alive now x then Some v else None | None => None end)
  | CHSet h f _ => r = flag (bool_decide (d_hash d h !! f = None))
  | CHSetMulti h _ => r = grown (d_hash d h) (d_hash (effect d c) h)
  | CHGet h f => r = RBulk (d_hash d h !! f)
  | CHDel h f => r = flag (bool_decide (is_Some (d_hash d h !! f)))
  | CHGetAll h => r = RMap (d_hash d h)
  | CHLen h => r = RInt (Z.of_nat (size (d_hash d h)))
  | CHKeys h => exists l, r = RList l /\ listing (fun k => is_Some (d_hash d h !! k)) l
  | CSAdd k _ => r = grown (d_set d k) (d_set (effect d c) k)
  | CSRem k _ => r = grown (d_set (effect d c) k) (d_set d k)
  | CSMembers k => exists l, r = RList l /\ listing (.∈ d_set d k) l
  | CSIsMember k m => r = flag (bool_decide (m ∈ d_set d k))
  | CSCard k => r = RInt (Z.of_nat (size (d_set d k)))
  | CSInter ks => exists l, r = RList l /\ listing (fun m => ks <> [] /\ forall k, k ∈ ks -> m ∈ d_set d k) l
  | CLPush k _ | CRPush k _ => r = RInt (Z.of_nat (length (d_list (effect d c) k)))
  | CLPop k => r = RBulk (head (d_list d k))
  | CRPop k => r = RBulk (last (d_list d k))
  | CLLen k => r = RInt (Z.of_nat (length (d_list d k)))
  | CLRange k start stop => r = RList (lrange (d_list d k) start stop)
  | CZAdd k _ => r = grown (d_zset d k) (d_zset (effect d c) k)
  | CZScore k m => r = RScore (d_zset d k !! m)
  | CZRem k _ => r = grown (d_zset (effect d c) k) (d_zset d k)
  | CZRangeByScore k min max => exists l, r = RList l /\ zrange_ok (d_zset d k) min max l
  | CSetBit k offset _ | CGetBit k offset => r = flag (bool_decide (offset ∈ (d_bits d k).2))
  | CBitCount k => r = RInt (Z.of_nat (size (d_bits d k).2))
  | CBitCountRange k start stop m => r = RInt (bitcountRange (d_bits d k).1 (d_bits d k).2 start stop m)
  | CDelete k => exists z, r = RInt z /\ 0 <= z /\ (z = 0 <-> nothing d k)
  | CExists k => exists l, r = RList l /\ (l = [] <-> nothing d k)
  end.

Definition writes (c : cmd) : bool :=
  match c with
  | CSet _ _ _ | CHSet _ _ _ | CHSetMulti _ _ | CSAdd _ _ | CLPush _ _ | CRPush _ _ | CLPop _ | CRPop _ | CZAdd _ _ | CSetBit _ _ _ => true
  | CHDel _ _ | CSRem _ _ | CZRem _ _ => true
  | _ => false
  end.

(** A command answers and takes effect, or is refused by a full disk. *)
Definition allowed (now : Z) (d : Data) (c : cmd) (r : reply) (d' : Data) : Prop :=
  (answer now d c r /\ d' = effect d c) \/ (writes c = true /\ r = RErr ErrDiskFull /\ d' = d).

(** What the arguments have to be: names without NUL, values that do not look
    like value pointers, scores that are not NaN, members to remove given once. *)
Definition cmd_ok (d : Data) (c : cmd) : Prop :=
  match c with
  | CSet k v x => text_ok k /\ value_ok v /\ is_i64 x
  | CGet k => True
  | CHSet h f v => name_ok h /\ text_ok f /\ value_ok v
  | CHSetMulti h fields => name_ok h /\ pairs_ok fields
  | CHDel h f => name_ok h /\ text_ok f
  | CHGet h _ | CHGetAll h | CHLen h | CHKeys h => name_ok h
  | CSAdd k members => name_ok k /\ Forall text_ok members
  | CSRem k members => name_ok k /\ Forall text_ok members /\ NoDup members
  | CSMembers k | CSIsMember k _ | CSCard k => name_ok k
  | CSInter ks => Forall name_ok ks
  | CLPush k vs | CRPush k vs => name_ok k /\ Forall value_ok vs /\ vs <> []
  | CLPop k | CRPop k | CLLen k => name_ok k
  | CLRange k start stop => name_ok k /\ is_i64 start /\ is_i64 stop
  | CZAdd k members => name_ok k /\ members <> [] /\ Forall (fun m => member_ok (zs_member m) /\ score_ok (zs_score m)) members
  | CZScore k _ => name_ok k
  | CZRem k members => name_ok k /\ Forall member_ok members /\ NoDup members
  | CZRangeByScore k min max => name_ok k /\ score_ok min /\ score_ok max
  | CSetBit k offset val => name_ok k /\ 0 <= offset < maxOffset /\ plain_page (pageOf offset) (setTo offset val (d_bits d k).2)
  | CGetBit k offset => name_ok k /\ 0 <= offset < maxOffset
  | CBitCount k => name_ok k
  | CBitCountRange k start stop _ => name_ok k /\ - 2 ^ 60 < start < 2 ^ 60 /\ - 2 ^ 60 < stop < 2 ^ 60
  | CDeleteBitmap k | CDelete k | CExists k => name_ok k
  end.

(** The space a command may use: what it writes, and what it takes to delete
    that again. *)
Definition cmdCost (c : cmd) : Z :=
  9 * match c with
  | CSet k v _ => Z.of_nat (length k) + Z.of_nat (length v) + 1024
  | CHSet h f v => opCost h [f; v]
  | CHSetMulti h fields => opCost h fields
  | CHDel h f => opCost h [f]
  | CSAdd k args | CSRem k args | CLPush k args | CRPush k args | CZRem k args => opCost k args
  | CLPop k | CRPop k => popCost k
  | CZAdd k members => opCost k (let ms := zs_member <$> members in ms ++ ms)
  | CSetBit k _ _ => bitCost k
  | CDeleteBitmap k | CDelete k => 1024
  | _ => 0
  end.

(** The commands fit into the space [n], whichever of them a full disk refuses. *)
Fixpoint fits (n : Z) (d : Data) (cs : list (World * cmd)) : Prop :=
  match cs with
  | [] => True
  | (_, c) :: cs => cmd_ok d c /\ cmdCost c <= n /\ forall d', d' = effect d c \/ d' = d -> fits (n - cmdCost c) d' cs
  end.

(** The answers to a sequence of commands. *)
Inductive answered : Data -> list (World * cmd) -> list reply -> Data -> Prop :=
  | answered_nil d : answered d [] [] d
  | answered_cons d w c r d1 cs rs d2 :
      allowed (wd_now w) d c r d1 -> answered d1 cs rs d2 -> answered d ((w, c) :: cs) (r :: rs) d2.
