(* ===== verification/CollModel.v ===== *)
(** * How the stored keys represent the values

    The record of every collection has the shape of its value, and the space
    left is enough to delete all that is stored. *)
From S2P Require Import Prelude Mvcc Strconv Encoding Values VlogSpec Engine EngineSteps Scan ScanSpec Store Collections CollKeys CollOps CollLists CollZsets CollWhole Bitmaps BitmapSpec BitmapOps CollSpec.

(** ** Credit for deletions *)

Definition keyCredit (k : bytes) : Z := 2 * Z.of_nat (length k) + 1024.
Definition sumCredit (ks : list bytes) : Z := foldr (fun k c => keyCredit k + c) 0 ks.
Definition credit (M : kvmap) : Z := sumCredit (map_to_list M).*1.

#[export] Instance sumCredit_perm : Proper ((≡ₚ) ==> (=)) sumCredit.
Proof. intros l l'. unfold sumCredit. induction 1; cbn [foldr]; lia. Qed.

Lemma sumCredit_cons k ks : sumCredit (k :: ks) = keyCredit k + sumCredit ks.
Proof. done. Qed.

Lemma sumCredit_nonneg ks : 0 <= sumCredit ks.
Proof. unfold sumCredit, keyCredit. induction ks; cbn [foldr]; lia. Qed.

Lemma credit_nonneg M : 0 <= credit M.
Proof. apply sumCredit_nonneg. Qed.

Lemma credit_new M k v : M !! k = None -> credit (<[k := v]> M) = keyCredit k + credit M.
Proof. intros H. unfold credit. by rewrite map_to_list_insert. Qed.

Lemma credit_delete M k : is_Some (M !! k) -> credit (delete k M) + keyCredit k = credit M.
Proof. intros [v Hv]. rewrite <- (insert_delete_id M k v Hv) at 2. rewrite credit_new by apply lookup_delete_eq. lia. Qed.

Lemma credit_delete_le M k : credit (delete k M) <= credit M.
Proof.
  destruct (M !! k) as [v|] eqn:E; [rewrite <- (credit_delete M k) by (by rewrite E); unfold keyCredit; lia|]. by rewrite delete_id.
Qed.

Lemma credit_insert M k v : credit (<[k := v]> M) <= keyCredit k + credit M.
Proof.
  rewrite <- insert_delete_eq. rewrite credit_new by apply lookup_delete_eq. pose proof (credit_delete_le M k). lia.
Qed.

Lemma credit_writes M es : credit (kv_writes M es) <= credit M + sumCredit (bw_key <$> es).
Proof.
  unfold kv_writes. revert M. induction es as [|b es IH]; intros M; cbn [foldl]; [unfold sumCredit; cbn; lia|].
  specialize (IH (kv_write M b)). assert (credit (kv_write M b) <= keyCredit (bw_key b) + credit M).
  { unfold kv_write. destruct (bw_deleted b); [|apply credit_insert]. pose proof (credit_delete_le M (bw_key b)). unfold keyCredit. lia. }
  rewrite fmap_cons, sumCredit_cons. lia.
Qed.

Lemma credit_fields M tag name fs : credit (kv_writes M (fieldWrite tag name <$> fs)) <= credit M + 8 * fieldsCost tag name fs.
Proof.
  pose proof (credit_writes M (fieldWrite tag name <$> fs)). enough (sumCredit (bw_key <$> (fieldWrite tag name <$> fs)) <= 8 * fieldsCost tag name fs) by lia.
  clear. induction fs as [|f fs IH]; [rewrite fieldsCost_nil; cbn; lia|]. rewrite !fmap_cons, sumCredit_cons, fieldsCost_cons, fieldWrite_key.
  unfold keyCredit at 1. rewrite length_ckey. lia.
Qed.

(** Deleted keys give back their credit. *)
Lemma credit_deleted (M M' : kvmap) ks : NoDup ks -> (forall k, k ∈ ks -> is_Some (M !! k) /\ M' !! k = None) -> M' ⊆ M ->
  credit M' + sumCredit ks <= credit M.
Proof.
  intros Hnd. revert M. induction Hnd as [|k ks Hk Hnd IH]; intros M Hks Hsub.
  - cbn. rewrite Z.add_0_r. unfold credit. destruct (submseteq_Permutation (map_to_list M').*1 (map_to_list M).*1) as [l ->].
    + apply fmap_submseteq. by apply map_to_list_submseteq.
    + pose proof (sumCredit_nonneg l). clear -H. induction (map_to_list M').*1 as [|x xs IHx]; cbn [app]; rewrite ?sumCredit_cons; [done|lia].
  - rewrite sumCredit_cons. destruct (Hks k ltac:(left)) as [H1 H2]. rewrite <- (credit_delete M k H1).
    enough (credit M' + sumCredit ks <= credit (delete k M)) by lia. apply IH.
    + intros k' Hk'. destruct (Hks k' ltac:(by right)). split; [|done]. by rewrite lookup_delete_ne by (intros ->; done).
    + apply map_subseteq_spec. intros k' v Hv. rewrite lookup_delete_Some. split; [by intros ->; congruence|]. by eapply map_subseteq_spec.
Qed.

(** ** The kinds of collections *)

Inductive kind := KHash | KSet | KList | KBits | KZset.

#[export] Instance kind_dec : EqDecision kind.
Proof. solve_decision. Defined.

Definition tagOf (kd : kind) : Z := match kd with KHash => 104 | KSet => 116 | KList => 108 | KBits => 98 | KZset => 122 end.
Definition kinds : list kind := [KHash; KSet; KList; KBits; KZset].

Lemma tagOf_inj kd kd' : tagOf kd = tagOf kd' -> kd = kd'.
Proof. by destruct kd, kd'. Qed.

Lemma coll_tagOf kd : coll_tag (tagOf kd).
Proof. unfold coll_tag. destruct kd; cbn [tagOf]; (split; [is_byte|done]). Qed.

Lemma elem_of_kinds kd : kd ∈ kinds.
Proof. destruct kd; unfold kinds; set_solver. Qed.

(** A list may drift by one index for every unit of space left. *)
Definition list_room (n h : Z) (l : list bytes) : Prop := - 2 ^ 62 + n <= h /\ h + Z.of_nat (length l) + n < 2 ^ 62.

Definition shape (n : Z) (d : Data) (kd : kind) (k : bytes) (D : gmap bytes bytes) : Prop :=
  match kd with
  | KHash => D = d_hash d k
  | KSet => D = setRec (d_set d k)
  | KList => exists h, list_rec h (d_list d k) D /\ list_room n h (d_list d k)
  | KBits => bitmap_rec (d_bits d k).1 (d_bits d k).2 D
  | KZset => zset_rec (d_zset d k) D
  end.

Record models (M : kvmap) (n : Z) (d : Data) : Prop := {
  mo_str : forall k, M !! strKey k = d_str d k;
  mo_coll : forall kd k, name_ok k -> exists D, fields M (tagOf kd) k D /\ shape n d kd k D;
}.

Lemma shape_less n n' d kd k D : 0 <= n' <= n -> shape n d kd k D -> shape n' d kd k D.
Proof. intros Hn. destruct kd; cbn [shape]; try done. intros (h & H1 & H2). exists h. split; [done|]. unfold list_room in *. lia. Qed.

Lemma models_less M n n' d : 0 <= n' <= n -> models M n d -> models M n' d.
Proof. intros Hn [H1 H2]. split; [done|]. intros kd k Hk. destruct (H2 kd k Hk) as (D & HD & HS). exists D. split; [done|]. by eapply shape_less. Qed.

(** Two data that differ at one collection only. *)
Definition else_same (kd : kind) (k : bytes) (d d' : Data) : Prop :=
  d_str d' = d_str d /\ forall n kd' k' D, (kd', k') <> (kd, k) -> shape n d kd' k' D -> shape n d' kd' k' D.

Ltac same_tac := split; [reflexivity|]; intros n kd' k' D Hne; destruct kd'; cbn; unfold upd; try done; (destruct (decide _) as [->|_]; [congruence|done]).

Lemma same_hash d k v : else_same KHash k d (with_hash d k v).
Proof. same_tac. Qed.
Lemma same_set d k v : else_same KSet k d (with_set d k v).
Proof. same_tac. Qed.
Lemma same_list d k v : else_same KList k d (with_list d k v).
Proof. same_tac. Qed.
Lemma same_zset d k v : else_same KZset k d (with_zset d k v).
Proof. same_tac. Qed.
Lemma same_bits d k v : else_same KBits k d (with_bits d k v).
Proof. same_tac. Qed.

#[export] Hint Resolve same_hash same_set same_list same_zset same_bits : akwa.

Lemma strKey_ckey k kd name rest : strKey k <> ckey (tagOf kd) name rest.
Proof. destruct kd; done. Qed.

(** A write to a collection that gives it its new shape. *)
Lemma models_write M n n' d d' kd k D fs : name_ok k -> models M n d -> 0 <= n' <= n -> fields M (tagOf kd) k D -> else_same kd k d d' ->
  shape n' d' kd k (rec_writes D fs) -> models (kv_writes M (fieldWrite (tagOf kd) k <$> fs)) n' d'.
Proof.
  intros Hk [M1 M2] Hn HD [Hs Hsame] Hshape. split.
  - intros s. rewrite writes_frame by (intros rest; apply strKey_ckey). by rewrite Hs.
  - intros kd' k' Hk'. destruct (decide ((tagOf kd', k') = (tagOf kd, k))) as [E|Hne].
    + injection E as E ->. apply tagOf_inj in E as ->. exists (rec_writes D fs). split; [by apply fields_writes|done].
    + destruct (M2 kd' k' Hk') as (D' & HD' & HS'). exists D'. split.
      * apply fields_frame; [apply Hk|apply Hk'|congruence|done].
      * apply Hsame; [congruence|]. by eapply shape_less.
Qed.

(** ** Deleting whole collections *)

Lemma sumCredit_app l l' : sumCredit (l ++ l') = sumCredit l + sumCredit l'.
Proof. induction l as [|k l IH]; cbn [app]; [done|]. rewrite !sumCredit_cons. lia. Qed.

Lemma credit_rests tag name rs : opCost name rs - 1024 <= sumCredit (ckey tag name <$> rs).
Proof.
  induction rs as [|r rs IH]; [done|]. rewrite fmap_cons, sumCredit_cons, opCost_cons. unfold keyCredit. rewrite length_ckey. lia.
Qed.

(** All keys of the collections of a name, and what deleting them costs. *)
Definition allKeys (name : bytes) (R : Z -> gmap bytes bytes) (tags : list Z) : list bytes :=
  tags ≫= (fun tag => ckey tag name <$> (map_to_list (R tag)).*1).

Lemma allKeys_cons name R tag tags : allKeys name R (tag :: tags) = (ckey tag name <$> (map_to_list (R tag)).*1) ++ allKeys name R tags.
Proof. done. Qed.

Lemma allKeys_cost name R tags : wholeCost name R tags - 1024 * Z.of_nat (length tags) <= sumCredit (allKeys name R tags).
Proof.
  induction tags as [|tag tags IH]; [done|]. rewrite allKeys_cons, sumCredit_app. pose proof (credit_rests tag name (map_to_list (R tag)).*1).
  change (wholeCost name R (tag :: tags)) with (opCost name (map_to_list (R tag)).*1 + wholeCost name R tags). cbn [length]. lia.
Qed.

Lemma elem_of_allKeys name R tags k : k ∈ allKeys name R tags <-> exists tag r, tag ∈ tags /\ k = ckey tag name r /\ is_Some (R tag !! r).
Proof.
  unfold allKeys. rewrite list_elem_of_bind. split.
  - intros (tag & (r & -> & ([r' v] & -> & Hv%elem_of_map_to_list)%list_elem_of_fmap)%list_elem_of_fmap & Ht). exists tag, r'. eauto.
  - intros (tag & r & Ht & -> & [v Hv]). exists tag. split; [|done]. apply list_elem_of_fmap_2, list_elem_of_fmap. exists (r, v). split; [done|]. by apply elem_of_map_to_list.
Qed.

Lemma allKeys_nodup name R tags : nulFree name -> NoDup tags -> NoDup (allKeys name R tags).
Proof.
  intros Hn. induction 1 as [|tag tags Ht Hnd IH]; [constructor|]. rewrite allKeys_cons.
  apply NoDup_app. split; [|split; [|done]].
  - apply NoDup_fmap_2; [intros a b; apply ckey_rest|apply NoDup_fst_map_to_list].
  - intros k (r & -> & _)%list_elem_of_fmap (tag' & r' & Ht' & E & _)%elem_of_allKeys. apply ckey_inj in E as (-> & _); done.
Qed.

(** Emptying the collections [tags] of a name pays for itself. *)
Lemma credit_cleared (M M' : kvmap) name R tags : nulFree name -> NoDup tags ->
  (forall tag, tag ∈ tags -> fields M tag name (R tag)) -> (forall tag, tag ∈ tags -> fields M' tag name ∅) ->
  (forall k, (forall tag rest, tag ∈ tags -> k <> ckey tag name rest) -> M' !! k = M !! k) ->
  credit M' + wholeCost name R tags <= credit M + 1024 * Z.of_nat (length tags).
Proof.
  intros Hn Hnd HD HD' Hframe. pose proof (allKeys_cost name R tags). enough (credit M' + sumCredit (allKeys name R tags) <= credit M) by lia.
  apply credit_deleted; [by apply allKeys_nodup| |].
  - intros k (tag & r & Ht & -> & [v Hv])%elem_of_allKeys. rewrite (HD tag Ht r), (HD' tag Ht r), Hv. split; [by eexists|done].
  - apply map_subseteq_spec. intros k v Hv. rewrite <- Hframe; [done|]. intros tag rest Ht ->. rewrite (HD' tag Ht rest) in Hv. done.
Qed.

(** There is always space to delete. *)
Lemma whole_affordable (M : kvmap) name R tags : nulFree name -> NoDup tags -> (forall tag, tag ∈ tags -> fields M tag name (R tag)) ->
  wholeCost name R tags <= credit M + 1024 * Z.of_nat (length tags).
Proof.
  intros Hn Hnd HD. pose proof (allKeys_cost name R tags). enough (credit ∅ + sumCredit (allKeys name R tags) <= credit M) as H1.
  { change (credit ∅) with 0 in H1. lia. }
  apply credit_deleted; [by apply allKeys_nodup| |apply map_empty_subseteq].
  intros k (tag & r & Ht & -> & [v Hv])%elem_of_allKeys. rewrite (HD tag Ht r), Hv. split; [by eexists|apply lookup_empty].
Qed.

Definition empty_at (d : Data) (kd : kind) (k : bytes) : Prop :=
  match kd with
  | KHash => d_hash d k = ∅
  | KSet => d_set d k = ∅
  | KList => d_list d k = []
  | KBits => (d_bits d k).1 = 0
  | KZset => d_zset d k = ∅
  end.

Lemma nothing_spec d k : nothing d k <-> forall kd, empty_at d kd k.
Proof.
  split; [by intros (? & ? & ? & ? & ?) []|]. intros H. exact (conj (H KHash) (conj (H KSet) (conj (H KList) (conj (H KZset) (H KBits))))).
Qed.

Lemma shape_empty n d kd k D : shape n d kd k D -> D = ∅ <-> empty_at d kd k.
Proof.
  destruct kd; cbn [shape empty_at].
  - by intros ->.
  - intros ->. split; [|intros ->; apply gset_to_gmap_empty]. intros E. apply set_eq. intros m. apply (f_equal (lookup m)) in E. rewrite setRec_lookup, lookup_empty in E.
    case_bool_decide; set_solver.
  - intros (h & [H1 H2 _ _] & _). split.
    + intros ->. rewrite lookup_empty in H2. by destruct (decide (d_list d k = [])).
    + intros E. rewrite E in *. apply map_empty. intros r. destruct (decide (r = metaRest)) as [->|Hr]; [by rewrite H2|].
      destruct (D !! r) as [v|] eqn:Ev; [|done]. by apply H1 in Ev as (i & _ & ?).
  - intros [H1 _ _ [[-> ->]|(p & v & Hp & Hv & E)]]; [done|]. split; [intros ->; by rewrite lookup_empty in Hv|]. intros E0. exfalso.
    destruct (H1 _ _ Hv) as (_ & _ & _ & _ & Hlen). unfold is_page in Hp. lia.
  - intros Hz. split.
    + intros ->. apply map_empty. intros m. pose proof (zset_val _ _ m Hz) as E. rewrite lookup_empty in E. by destruct (d_zset d k !! m).
    + intros E. rewrite E in Hz. apply map_empty. intros r. destruct (D !! r) as [v|] eqn:Ev; [|done].
      apply (zr_fields _ _ Hz) in Ev as [(m & s & _ & Hm & _)|(m & s & _ & Hm & _)]; by rewrite lookup_empty in Hm.
Qed.

(** The shape of a collection that is not there. *)
Lemma shape_none n d kd k : empty_at d kd k -> (kd = KBits -> (d_bits d k).2 = ∅) -> 0 <= n < 2 ^ 62 -> shape n d kd k ∅.
Proof.
  intros He Hbits Hn. destruct kd; cbn [shape empty_at] in *.
  - done.
  - rewrite He. symmetry. apply gset_to_gmap_empty.
  - exists 0. rewrite He. split; [|unfold list_room; cbn; lia]. split; [|done|unfold list_fits; cbn; lia|done].
    intros r v _. rewrite lookup_empty. split; [done|]. by intros (? & _ & ?).
  - rewrite He, Hbits by done. split; [done| |done|by left]. intros i. split; [set_solver|]. intros (p & v & _ & Hv & _). by rewrite lookup_empty in Hv.
  - rewrite He. split; [|done]. intros r v. rewrite lookup_empty. split; [done|]. intros [(m & s & _ & Hm & _)|(m & s & _ & Hm & _)]; by rewrite lookup_empty in Hm.
Qed.

(** The records of all kinds under one name. *)
Lemma models_records M n d k : models M n d -> name_ok k -> exists R, forall kd, fields M (tagOf kd) k (R (tagOf kd)) /\ shape n d kd k (R (tagOf kd)).
Proof.
  intros Hm Hk. destruct (mo_coll _ _ _ Hm KHash k Hk) as [D1 H1], (mo_coll _ _ _ Hm KSet k Hk) as [D2 H2], (mo_coll _ _ _ Hm KList k Hk) as [D3 H3],
    (mo_coll _ _ _ Hm KBits k Hk) as [D4 H4], (mo_coll _ _ _ Hm KZset k Hk) as [D5 H5].
  exists (fun tag => if tag =? 104 then D1 else if tag =? 116 then D2 else if tag =? 108 then D3 else if tag =? 98 then D4 else D5).
  intros []; done.
Qed.

Definition allTags : list Z := tagOf <$> kinds.

Lemma allTags_nodup : NoDup allTags.
Proof. apply (bool_decide_eq_true_1 (NoDup allTags)). vm_compute. done. Qed.

Lemma elem_of_allTags tag : tag ∈ allTags <-> exists kd, tag = tagOf kd.
Proof. unfold allTags. rewrite list_elem_of_fmap. split; [intros (kd & -> & _); by exists kd|intros [kd ->]; exists kd; split; [done|apply elem_of_kinds]]. Qed.

Lemma allTags_coll : Forall coll_tag allTags.
Proof. apply Forall_fmap, Forall_true. intros kd. apply coll_tagOf. Qed.

Lemma collectionPrefixes_all k : collectionPrefixes k = prefixesOf k allTags.
Proof. done. Qed.

Lemma fieldCount_zero R tags : 0 <= fieldCount R tags /\ (fieldCount R tags = 0 <-> forall tag, tag ∈ tags -> R tag = ∅).
Proof.
  unfold fieldCount. induction tags as [|tag tags [IH1 IH2]]; cbn [foldr]; [split; [done|]; split; [by intros _ ? ?%elem_of_nil|done]|].
  split; [lia|]. split.
  - intros E. assert (size (R tag) = 0)%nat as E1 by lia. apply map_size_empty_iff in E1. intros tag' [->|Ht]%elem_of_cons; [done|]. apply IH2; [lia|done].
  - intros H. rewrite (H tag) by left. rewrite map_size_empty. cbn. apply IH2. intros tag' Ht. apply H. by right.
Qed.
