(* ===== verification/CollMain.v ===== *)
(** * The collections keep their promise *)
From S2P Require Import Prelude Mvcc Strconv Encoding Values VlogSpec Engine EngineSteps Scan ScanSpec Store Collections CollKeys CollOps CollLists CollZsets CollWhole Bitmaps BitmapSpec BitmapOps CollSpec CollModel.

Lemma cmdCost_nonneg c : 0 <= cmdCost c.
Proof.
  unfold cmdCost, popCost, bitCost. destruct c; try lia;
    match goal with |- context [opCost ?k ?l] => pose proof (opCost_nonneg k l) end; lia.
Qed.

Section main.
Context {S : Type} `{HS : !Store S} {Ex : bytes -> Prop} `{HL : !StoreLaws S Ex}.
(** Strings may expire, parts of collections do not. *)
Hypothesis str_expiry : forall k, Ex (strKey k).
Hypothesis no_expiry : forall tag name rest, coll_tag tag -> ~ Ex (ckey tag name rest).

(** The store holds the data and has the space [n], besides what it takes to
    delete everything. *)
Definition holds (s : S) (d : Data) (n t : Z) : Prop := exists M, rep s M (n + credit M) t /\ models M n d /\ 0 <= n.

Section step.
Context (M : kvmap) (n t : Z) (d : Data) (w : World) (c : cmd) (s : S).
Hypothesis Hrep : rep s M (n + credit M) t.
Hypothesis Hmod : models M n d.
Hypothesis Hw : world_ok t w.
Hypothesis Hcost : cmdCost c <= n.

Let Hpos : 0 <= cmdCost c := cmdCost_nonneg c.

Definition outcome (r : reply) (s' : S) : Prop := exists d', allowed (wd_now w) d c r d' /\ holds s' d' (n - cmdCost c) t.

Lemma outcome_read r s' : rep s' M (n + credit M) t -> effect d c = d -> answer (wd_now w) d c r -> outcome r s'.
Proof.
  intros Hr He Ha. exists d. split; [left; by rewrite He|]. exists M. split; [|split; [|lia]].
  - eapply rep_less; [|exact Hr]. lia.
  - eapply models_less; [|exact Hmod]. lia.
Qed.

Lemma outcome_full s' : rep s' M (n + credit M) t -> writes c = true -> outcome (RErr ErrDiskFull) s'.
Proof.
  intros Hr Hc. exists d. split; [by right|]. exists M. split; [|split; [|lia]].
  - eapply rep_less; [|exact Hr]. lia.
  - eapply models_less; [|exact Hmod]. lia.
Qed.

(** A command that writes fields of one collection. *)
Lemma outcome_write {A : Type} (f : A -> reply) (a : A) (r : result A) s' kd k D fs cc : name_ok k -> fields M (tagOf kd) k D ->
  else_same kd k d (effect d c) -> writes c = true -> cmdCost c = 9 * cc ->
  shape (n - cmdCost c) (effect d c) kd k (rec_writes D fs) -> written M (n + credit M) cc t (tagOf kd) k fs a r s' ->
  answer (wd_now w) d c (f a) -> outcome (reply_of f r) s'.
Proof.
  intros Hk HD Hsame Hwr Hcc Hsh [(-> & Hle & Hr)|(-> & Hr)] Ha; [|by apply outcome_full].
  exists (effect d c). split; [by left|]. exists (kv_writes M (fieldWrite (tagOf kd) k <$> fs)). split; [|split; [|lia]].
  - eapply rep_less; [|exact Hr]. pose proof (credit_fields M (tagOf kd) k fs). lia.
  - eapply models_write; try done. lia.
Qed.

Lemma hash_fields h : name_ok h -> fields M 104 h (d_hash d h).
Proof. intros Hh. destruct (mo_coll _ _ _ Hmod KHash h Hh) as (D & HD & E). cbn in E. by subst D. Qed.
Lemma set_fields k : name_ok k -> fields M 116 k (setRec (d_set d k)).
Proof. intros Hk. destruct (mo_coll _ _ _ Hmod KSet k Hk) as (D & HD & E). cbn in E. by subst D. Qed.
Lemma list_fields k : name_ok k -> exists D h, fields M 108 k D /\ list_rec h (d_list d k) D /\ list_room n h (d_list d k).
Proof. intros Hk. destruct (mo_coll _ _ _ Hmod KList k Hk) as (D & HD & h & E1 & E2). by exists D, h. Qed.
Lemma zset_fields k : name_ok k -> exists D, fields M 122 k D /\ zset_rec (d_zset d k) D.
Proof. intros Hk. destruct (mo_coll _ _ _ Hmod KZset k Hk) as (D & HD & E). by exists D. Qed.
Lemma bits_fields k : name_ok k -> exists D, fields M 98 k D /\ bitmap_rec (d_bits d k).1 (d_bits d k).2 D.
Proof. intros Hk. destruct (mo_coll _ _ _ Hmod KBits k Hk) as (D & HD & E). by exists D. Qed.

Lemma clock : clock_ok t (wd_now w).
Proof. by apply world_clock. Qed.

(** What an operation may need is there. *)
Lemma affordable cc : cmdCost c = 9 * cc -> cc <= n + credit M.
Proof. pose proof (credit_nonneg M). intros E. lia. Qed.
End step.

(** ** Strings *)

Section commands.
Context (s : S) (d : Data) (n t : Z) (w : World) (M : kvmap).
Hypothesis Hr : rep s M (n + credit M) t.
Hypothesis Hm : models M n d.
Hypothesis Hn : 0 <= n.
Hypothesis Hw : world_ok t w.

Definition runs_ok (c : cmd) : Prop := cmd_ok d c -> cmdCost c <= n -> does (exec w c) s (outcome n t d w c).

Lemma exec_Set k v x : runs_ok (CSet k v x).
Proof.
  intros ([Hk Hkl] & [[Hv Hvl] Hp] & Hx) Hcost. cbn [exec].
  assert (cmdCost (CSet k v x) = 9 * (Z.of_nat (length k) + Z.of_nat (length v) + 1024)) as Ec by done.
  assert (writeCost [mkBatch (strKey k) v false x] = 450 + Z.of_nat (length k) + Z.of_nat (length v)) as Ew.
  { unfold writeCost. cbn [batchCost bw_key bw_value]. unfold cost, strKey. cbn [length]. lia. }
  eapply does_step; [apply (PutExAt_law s M (n + credit M) t w); try done|].
  - split; [|split; [done|lia]|done|done]. split; [repeat (constructor; [is_byte|]); done|]. unfold strKey. cbn [length]. lia.
  - right. apply str_expiry.
  - rewrite Ew. pose proof (credit_nonneg M). lia.
  - intros e s' [[-> Hs]|(-> & _ & Hs)]; apply does_ret; [|by eapply outcome_full].
    cbn [reply_err]. exists (effect d (CSet k v x)). split; [by left|]. eexists. split; [|split; [|lia]].
    + eapply rep_less; [|exact Hs]. pose proof (credit_insert M (strKey k) (v, x)). unfold keyCredit, strKey in *.
      cbn [length kv_writes foldl kv_write bw_deleted bw_key bw_value bw_expiresAt] in *. lia.
    + cbn [kv_writes foldl kv_write bw_deleted bw_key bw_value bw_expiresAt]. destruct Hm as [M1 M2]. split.
      * intros k'. cbn. unfold upd. destruct (decide (k' = k)) as [->|Hne]; [by rewrite lookup_insert_eq|]. rewrite lookup_insert_ne; [apply M1|]. by intros [= ->].
      * intros kd k' Hk'. destruct (M2 kd k' Hk') as (D & HD & HS'). exists D. split; [|eapply (shape_less n); [lia|by destruct kd]].
        intros rest. rewrite lookup_insert_ne by apply strKey_ckey. apply HD.
Qed.

Lemma exec_Get k : runs_ok (CGet k).
Proof.
  intros _ _. eapply does_step; [apply (Get_law s M (n + credit M) t (wd_now w)); try done; apply Hw|]. intros r s' [-> Hs]. apply does_ret.
  eapply outcome_read; try done. cbn. unfold kv_get. rewrite (mo_str _ _ _ Hm). destruct (d_str d k) as [[v x]|]; [|done]. by destruct (alive _ x).
Qed.

(** ** Hashes *)

(** A read: the lemma [lem] of the operation gives the answer. *)
Ltac read_with lem := eapply does_step; [by eapply lem; [..|eapply world_clock]|]; intros ? ? [? ?]; apply does_ret; eapply outcome_read; try done.

Lemma exec_HSet h f v : runs_ok (CHSet h f v).
Proof.
  intros (Hh & Hf & Hv) Hcost. pose proof (hash_fields M n d Hm h Hh) as HD.
  eapply does_step; [apply (HSet_does M (n + credit M) t h _ HD Hh s w f v); try done; by eapply affordable|].
  intros r s' Hres. apply does_ret. eapply (outcome_write M n t d w _ Hm Hcost flag _ r s' KHash h); try done; [apply same_hash|].
  cbn. by rewrite upd_eq.
Qed.
Lemma exec_HSetMulti h flds : runs_ok (CHSetMulti h flds).
Proof.
  intros (Hh & Hf) Hcost. pose proof (hash_fields M n d Hm h Hh) as HD.
  eapply does_step; [apply (HSetMulti_does M (n + credit M) t h _ HD Hh s w flds); try done; by eapply affordable|].
  intros r s' (es & E & Hres). apply does_ret. eapply (outcome_write M n t d w _ Hm Hcost RInt _ r s' KHash h); try done; [apply same_hash| |].
  - cbn. by rewrite upd_eq.
  - cbn. by rewrite upd_eq.
Qed.

Lemma exec_HDel h f : runs_ok (CHDel h f).
Proof.
  intros (Hh & Hf) Hcost. pose proof (hash_fields M n d Hm h Hh) as HD.
  eapply does_step; [apply (HDel_does M (n + credit M) t h _ HD Hh s w f); try done; by eapply affordable|].
  intros r s' Hres. apply does_ret. destruct (d_hash d h !! f) as [v|] eqn:E.
  - eapply (outcome_write M n t d w _ Hm Hcost flag _ r s' KHash h); try done; [apply same_hash| |]; cbn; [by rewrite upd_eq|by rewrite E].
  - destruct Hres as [-> Hs]. exists (effect d (CHDel h f)). split; [left; cbn; by rewrite E|]. exists M. pose proof (cmdCost_nonneg (CHDel h f)). split; [|split; [|lia]].
    + eapply rep_less; [|exact Hs]. lia.
    + apply (models_write M n _ d _ KHash h (d_hash d h) []); try done; [lia|apply same_hash|]. cbn. by rewrite upd_eq, delete_id.
Qed.

Lemma exec_HGet h f : runs_ok (CHGet h f).
Proof.
  intros Hh Hcost. eapply does_step; [apply (HGet_does M (n + credit M) t h _ (hash_fields M n d Hm h Hh)); [done|by apply world_clock]|].
  intros r s' [-> Hs]. apply does_ret. eapply outcome_read; try done. cbn. by destruct (d_hash d h !! f).
Qed.

Lemma exec_HGetAll h : runs_ok (CHGetAll h).
Proof.
  intros Hh Hcost. eapply does_step; [apply (HGetAll_does M (n + credit M) t h _ (hash_fields M n d Hm h Hh)); [done|by apply world_clock]|].
  intros r s' [-> Hs]. apply does_ret. by eapply outcome_read.
Qed.

Lemma exec_HLen h : runs_ok (CHLen h).
Proof.
  intros Hh Hcost. eapply does_step; [apply (HLen_does M (n + credit M) t h _ (hash_fields M n d Hm h Hh)); [done|by apply world_clock]|].
  intros r s' [-> Hs]. apply does_ret. by eapply outcome_read.
Qed.

Lemma exec_HKeys h : runs_ok (CHKeys h).
Proof.
  intros Hh Hcost. eapply does_step; [apply (HKeys_does M (n + credit M) t h _ (hash_fields M n d Hm h Hh)); [done|by apply world_clock]|].
  intros r s' [Hl Hs]. apply does_ret. eapply outcome_read; try done. by exists r.
Qed.

(** ** Sets *)

Lemma exec_SAdd k members : runs_ok (CSAdd k members).
Proof.
  intros (Hk & Hf) Hcost. pose proof (set_fields M n d Hm k Hk) as HD.
  eapply does_step; [apply (SAdd_does M (n + credit M) t k _ HD Hk s w members); try done; by eapply affordable|].
  intros r s' (fs & E & Hres). apply does_ret. eapply (outcome_write M n t d w _ Hm Hcost RInt _ r s' KSet k); try done; [apply same_set| |]; cbn; by rewrite upd_eq.
Qed.

Lemma exec_SRem k members : runs_ok (CSRem k members).
Proof.
  intros (Hk & Hf & Hnd) Hcost. pose proof (set_fields M n d Hm k Hk) as HD.
  eapply does_step; [apply (SRem_does M (n + credit M) t k _ HD Hk s w members); try done; by eapply affordable|].
  intros r s' (fs & E & Hres). apply does_ret. eapply (outcome_write M n t d w _ Hm Hcost RInt _ r s' KSet k); try done; [apply same_set| |]; cbn; by rewrite upd_eq.
Qed.

Lemma exec_SMembers k : runs_ok (CSMembers k).
Proof.
  intros Hk Hcost. eapply does_step; [apply (SMembers_does M (n + credit M) t k _ (set_fields M n d Hm k Hk)); [done|by apply world_clock]|].
  intros r s' [Hl Hs]. apply does_ret. eapply outcome_read; try done. by exists r.
Qed.

Lemma exec_SIsMember k m : runs_ok (CSIsMember k m).
Proof.
  intros Hk Hcost. eapply does_step; [apply (SIsMember_does M (n + credit M) t k _ (set_fields M n d Hm k Hk)); [done|by apply world_clock]|].
  intros r s' [-> Hs]. apply does_ret. by eapply outcome_read.
Qed.

Lemma exec_SCard k : runs_ok (CSCard k).
Proof.
  intros Hk Hcost. eapply does_step; [apply (SCard_does M (n + credit M) t k _ (set_fields M n d Hm k Hk)); [done|by apply world_clock]|].
  intros r s' [-> Hs]. apply does_ret. by eapply outcome_read.
Qed.

Lemma exec_SInter ks : runs_ok (CSInter ks).
Proof.
  intros Hks Hcost. cbn [cmd_ok] in Hks. rewrite Forall_forall in Hks.
  eapply does_step; [apply (SInter_does M (n + credit M) t (d_set d)); [intros k Hk; by eapply set_fields, Hks|done|by apply world_clock]|].
  intros r s' [Hl Hs]. apply does_ret. eapply outcome_read; try done. by exists r.
Qed.

(** ** Lists *)

Lemma opCost_length k vs : Z.of_nat (length vs) <= opCost k vs.
Proof. induction vs as [|v vs IH]; [done|]. rewrite opCost_cons. cbn [length]. lia. Qed.

Lemma exec_LPush k vs : runs_ok (CLPush k vs).
Proof.
  intros (Hk & Hv & Hne) Hcost. destruct (list_fields M n d Hm k Hk) as (D & h & HD & Hl & Hroom). unfold list_room in Hroom.
  pose proof (opCost_length k vs) as Hlen. assert (cmdCost (CLPush k vs) = 9 * opCost k vs) as Ec by done.
  assert (list_fits (h - Z.of_nat (length vs)) (rev vs ++ d_list d k)) as Hf by (unfold list_fits; rewrite length_app, length_rev; lia).
  eapply does_step; [apply (LPush_does M (n + credit M) t k D h _ HD Hl Hk s w vs); try done; by eapply affordable|].
  intros r s' (fs & E & Hres). apply does_ret. eapply (outcome_write M n t d w _ Hm Hcost RInt _ r s' KList k); try done; [apply same_list| |]; cbn; rewrite upd_eq; [|done].
  eexists. split; [exact E|]. unfold list_room. rewrite length_app, length_rev. cbn in Ec. lia.
Qed.

Lemma exec_RPush k vs : runs_ok (CRPush k vs).
Proof.
  intros (Hk & Hv & Hne) Hcost. destruct (list_fields M n d Hm k Hk) as (D & h & HD & Hl & Hroom). unfold list_room in Hroom.
  pose proof (opCost_length k vs) as Hlen. assert (cmdCost (CRPush k vs) = 9 * opCost k vs) as Ec by done.
  assert (list_fits h (d_list d k ++ vs)) as Hf by (unfold list_fits; rewrite length_app; lia).
  eapply does_step; [apply (RPush_does M (n + credit M) t k D h _ HD Hl Hk s w vs); try done; by eapply affordable|].
  intros r s' (fs & E & Hres). apply does_ret. eapply (outcome_write M n t d w _ Hm Hcost RInt _ r s' KList k); try done; [apply same_list| |]; cbn; rewrite upd_eq; [|done].
  eexists. split; [exact E|]. unfold list_room. rewrite length_app. cbn in Ec. lia.
Qed.

(** A pop of an empty list changes nothing. *)
Lemma pop_nothing k c s' : name_ok k -> d_list d k = [] -> effect d c = with_list d k [] -> cmdCost c <= n -> rep s' M (n + credit M) t ->
  answer (wd_now w) d c (RBulk None) -> outcome n t d w c (RBulk None) s'.
Proof.
  intros Hk El He Hcost Hs Ha. destruct (list_fields M n d Hm k Hk) as (D & h & HD & Hl & Hroom). exists (effect d c). split; [by left|]. exists M.
  pose proof (cmdCost_nonneg c). split; [eapply rep_less; [|exact Hs]; lia|]. split; [|lia].
  apply (models_write M n _ d _ KList k D []); try done; [lia|rewrite He; apply same_list|]. rewrite He. cbn. rewrite upd_eq. exists h. rewrite El in *.
  split; [done|]. unfold list_room in *. lia.
Qed.

Lemma pop_room h h' (l l' : list bytes) c : list_room n h l -> 1 <= cmdCost c -> (length l' <= length l)%nat -> h <= h' -> h' + Z.of_nat (length l') <= h + Z.of_nat (length l) ->
  list_room (n - cmdCost c) (if decide (l' = []) then 0 else h') l'.
Proof. unfold list_room. intros [H1 H2] H3 H4 H5 H6. destruct (decide (l' = [])) as [->|]; [cbn|]; lia. Qed.

Lemma popCost_pos k : 1 <= 9 * popCost k.
Proof. unfold popCost, opCost. cbn. lia. Qed.

Lemma exec_LPop k : runs_ok (CLPop k).
Proof.
  intros Hk Hcost. destruct (list_fields M n d Hm k Hk) as (D & h & HD & Hl & Hroom).
  eapply does_step; [apply (LPop_does M (n + credit M) t k D h _ HD Hl Hk s w); try done; by eapply affordable|].
  intros r s' Hres. apply does_ret. destruct (d_list d k) as [|v l'] eqn:El.
  - destruct Hres as [-> Hs]. apply (pop_nothing k); try done; cbn; by rewrite El.
  - destruct Hres as (fs & E & Hres). eapply (outcome_write M n t d w _ Hm Hcost bulk _ r s' KList k); try done; [apply same_list| |]; cbn; rewrite ?upd_eq, El; [|done].
    eexists. split; [exact E|]. eapply (pop_room h _ (v :: l')); [done|apply popCost_pos|cbn; lia..].
Qed.

Lemma exec_RPop k : runs_ok (CRPop k).
Proof.
  intros Hk Hcost. destruct (list_fields M n d Hm k Hk) as (D & h & HD & Hl & Hroom).
  eapply does_step; [apply (RPop_does M (n + credit M) t k D h _ HD Hl Hk s w); try done; by eapply affordable|].
  intros r s' Hres. apply does_ret. destruct (list_last_case (d_list d k)) as [El|(v & l' & El)]; rewrite El in Hres.
  - destruct Hres as [-> Hs]. apply (pop_nothing k); try done; cbn; by rewrite El.
  - rewrite last_snoc, removelast_last in Hres. destruct Hres as (fs & E & Hres).
    eapply (outcome_write M n t d w _ Hm Hcost bulk _ r s' KList k); try done; [apply same_list| |]; cbn; rewrite ?upd_eq, El, ?last_snoc, ?removelast_last; [|done].
    eexists. split; [exact E|]. rewrite El in Hroom. eapply (pop_room h _ (l' ++ [v])); [done|apply popCost_pos|rewrite ?length_app; cbn; lia..].
Qed.

Lemma exec_LLen k : runs_ok (CLLen k).
Proof.
  intros Hk Hcost. destruct (list_fields M n d Hm k Hk) as (D & h & HD & Hl & _).
  eapply does_step; [apply (LLen_does M (n + credit M) t k D h _ HD Hl); [done|by apply world_clock]|].
  intros r s' [-> Hs]. apply does_ret. by eapply outcome_read.
Qed.

Lemma exec_LRange k start stop : runs_ok (CLRange k start stop).
Proof.
  intros (Hk & H1 & H2) Hcost. destruct (list_fields M n d Hm k Hk) as (D & h & HD & Hl & _).
  eapply does_step; [apply (LRange_does M (n + credit M) t k D h _ HD Hl); [done|by apply world_clock|done..]|].
  intros r s' [-> Hs]. apply does_ret. by eapply outcome_read.
Qed.

(** ** Sorted sets *)

Lemma exec_ZAdd k members : runs_ok (CZAdd k members).
Proof.
  intros (Hk & Hne & Hms) Hcost. destruct (zset_fields M n d Hm k Hk) as (D & HD & Hz).
  eapply does_step; [apply (ZAddMulti_does M (n + credit M) t k D _ HD Hz Hk s w members); try done; by eapply affordable|].
  intros r s' (fs & E & Hres). apply does_ret. eapply (outcome_write M n t d w _ Hm Hcost RInt _ r s' KZset k); try done; [apply same_zset| |]; cbn; by rewrite upd_eq.
Qed.

Lemma exec_ZRem k members : runs_ok (CZRem k members).
Proof.
  intros (Hk & Hms & Hnd) Hcost. destruct (zset_fields M n d Hm k Hk) as (D & HD & Hz).
  eapply does_step; [apply (ZRem_does M (n + credit M) t k D _ HD Hz Hk s w members); try done; by eapply affordable|].
  intros r s' (fs & Zs' & -> & E & Hres). apply does_ret.
  eapply (outcome_write M n t d w _ Hm Hcost RInt _ r s' KZset k); try done; [apply same_zset| |]; cbn; by rewrite upd_eq.
Qed.

Lemma exec_ZScore k m : runs_ok (CZScore k m).
Proof.
  intros Hk Hcost. destruct (zset_fields M n d Hm k Hk) as (D & HD & Hz).
  eapply does_step; [apply (ZScore_does M (n + credit M) t k D _ HD Hz s (wd_now w) m); [done|by apply world_clock]|].
  intros r s' [-> Hs]. apply does_ret. eapply outcome_read; try done. cbn. by destruct (d_zset d k !! m).
Qed.

Lemma exec_ZRangeByScore k min max : runs_ok (CZRangeByScore k min max).
Proof.
  intros (Hk & H1 & H2) Hcost. destruct (zset_fields M n d Hm k Hk) as (D & HD & Hz).
  eapply does_step; [apply (ZRangeByScore_does M (n + credit M) t k D _ HD Hz); try done|].
  - intros rest. apply (no_expiry (tagOf KZset)), coll_tagOf.
  - intros r s' [Hl Hs]. apply does_ret. eapply outcome_read; try done. by exists r.
Qed.

(** ** Bitmaps *)

Lemma exec_SetBit k offset val : runs_ok (CSetBit k offset val).
Proof.
  intros (Hk & Ho & Hp) Hcost. destruct (bits_fields M n d Hm k Hk) as (D & HD & Hb).
  eapply does_step; [apply (SetBit_does M (n + credit M) t k D _ _ HD Hb Hk s w offset val); try done; by eapply affordable|].
  intros r s' (fs & E & Hres). apply does_ret. eapply (outcome_write M n t d w _ Hm Hcost RInt _ r s' KBits k); try done; [apply same_bits|]. cbn. by rewrite upd_eq.
Qed.

Lemma exec_GetBit k offset : runs_ok (CGetBit k offset).
Proof.
  intros (Hk & Ho) Hcost. destruct (bits_fields M n d Hm k Hk) as (D & HD & Hb).
  eapply does_step; [apply (GetBit_does M (n + credit M) t k D _ _ HD Hb s (wd_now w) offset); [done|by apply world_clock|done]|].
  intros r s' [-> Hs]. apply does_ret. by eapply outcome_read.
Qed.

Lemma exec_BitCount k : runs_ok (CBitCount k).
Proof.
  intros Hk Hcost. destruct (bits_fields M n d Hm k Hk) as (D & HD & Hb).
  eapply does_step; [apply (BitCount_does M (n + credit M) t k D _ _ HD Hb s (wd_now w)); [done|by apply world_clock]|].
  intros r s' [-> Hs]. apply does_ret. by eapply outcome_read.
Qed.

Lemma exec_BitCountRange k start stop m : runs_ok (CBitCountRange k start stop m).
Proof.
  intros (Hk & H1 & H2) Hcost. destruct (bits_fields M n d Hm k Hk) as (D & HD & Hb).
  eapply does_step; [apply (BitCountRange_does M (n + credit M) t k D _ _ HD Hb s (wd_now w) start stop m); [done|by apply world_clock|done..]|].
  intros r s' [-> Hs]. apply does_ret. by eapply outcome_read.
Qed.

(** ** Whole collections *)

Lemma space_bound k : name_ok k -> n < 2 ^ 62.
Proof. intros Hk. destruct (list_fields M n d Hm k Hk) as (D & h & _ & _ & Hroom). unfold list_room in Hroom. lia. Qed.

(** The state after the collections [ks] of a name are emptied. *)
Lemma outcome_clear k c kds M' s' R : name_ok k -> cmdCost c <= n -> 5120 <= cmdCost c -> NoDup kds -> (length kds <= 5)%nat ->
  (forall kd, kd ∈ kds -> fields M (tagOf kd) k (R (tagOf kd))) -> (forall kd, kd ∈ kds -> fields M' (tagOf kd) k ∅) ->
  (forall x, (forall tag rest, tag ∈ (tagOf <$> kds) -> x <> ckey tag k rest) -> M' !! x = M !! x) ->
  (forall kd, kd ∈ kds -> empty_at (effect d c) kd k /\ (kd = KBits -> (d_bits (effect d c) k).2 = ∅)) ->
  d_str (effect d c) = d_str d ->
  (forall n kd' k' D, ~ (k' = k /\ kd' ∈ kds) -> shape n d kd' k' D -> shape n (effect d c) kd' k' D) ->
  rep s' M' (n + credit M - wholeCost k R (tagOf <$> kds)) t -> holds s' (effect d c) (n - cmdCost c) t.
Proof.
  intros Hk Hc Hc' Hnd Hlen HD HD' Hfr He Hs Hsame Hrep. exists M'. split; [|split; [|lia]].
  - eapply rep_less; [|exact Hrep]. assert (credit M' + wholeCost k R (tagOf <$> kds) <= credit M + 1024 * Z.of_nat (length (tagOf <$> kds))); [|rewrite length_fmap in *; lia].
    apply credit_cleared; [apply Hk|apply NoDup_fmap_2; [intros a b; apply tagOf_inj|done]| | |done].
    + intros tag (kd & -> & Hkd)%list_elem_of_fmap. by apply HD.
    + intros tag (kd & -> & Hkd)%list_elem_of_fmap. by apply HD'.
  - pose proof (space_bound k Hk). split.
    + intros x. rewrite Hfr; [rewrite Hs; apply Hm|]. intros tag rest (kd & -> & _)%list_elem_of_fmap. apply strKey_ckey.
    + intros kd k' Hk'. destruct (decide (k' = k)) as [->|Hne]; [destruct (list_elem_of_dec kd kds) as [Hkd|Hkd]|].
      * exists ∅. split; [by apply HD'|]. apply shape_none; [by apply He|by apply He|lia].
      * destruct (mo_coll _ _ _ Hm kd k Hk) as (D & HD1 & HS1). exists D. split; [|apply Hsame; [tauto|]; eapply shape_less; [|done]; lia].
        intros rest. rewrite Hfr; [apply HD1|]. intros tag rest' (kd' & -> & Hkd')%list_elem_of_fmap E. apply ckey_inj in E as (E & _); [|apply Hk..]. apply tagOf_inj in E as ->. done.
      * destruct (mo_coll _ _ _ Hm kd k' Hk') as (D & HD1 & HS1). exists D. split; [|apply Hsame; [tauto|]; eapply shape_less; [|done]; lia].
        intros rest. rewrite Hfr; [apply HD1|]. intros tag rest' _ E. apply ckey_inj in E as (_ & E & _); [done|apply Hk'|apply Hk].
Qed.

Lemma exec_DeleteBitmap k : runs_ok (CDeleteBitmap k).
Proof.
  intros Hk Hcost. destruct (bits_fields M n d Hm k Hk) as (D & HD & Hb). set (R := fun _ : Z => D).
  assert (wholeCost k R [98] = opCost k (map_to_list D).*1) as Ec by (unfold wholeCost; cbn [foldr]; apply Z.add_0_r).
  assert (forall tag, tag ∈ [98] -> fields M tag k (R tag)) as HD1 by (by intros tag ->%list_elem_of_singleton).
  pose proof (whole_affordable M k R [98] ltac:(apply Hk) ltac:(apply NoDup_singleton) HD1) as Haff. cbn [length] in Haff. change (cmdCost _) with 9216 in Hcost.
  eapply does_step; [apply (DeleteBitmap_does M (n + credit M) t k D HD s w); try done; lia|].
  intros e s' (-> & rs & Hrs & Hs). apply does_ret. cbn [reply_err]. exists (effect d (CDeleteBitmap k)). split; [by left|].
  apply (outcome_clear k _ [KBits] (kv_writes M (del_writes 98 k rs)) s' R); try done; [apply NoDup_singleton|cbn; lia|by intros kd ->%list_elem_of_singleton| | | | |].
  - intros kd ->%list_elem_of_singleton. unfold del_writes. rewrite <- (del_all D rs); [by apply fields_writes| |rewrite Hrs; apply NoDup_fst_map_to_list].
    intros r [v Hv]. rewrite Hrs. apply list_elem_of_fmap. exists (r, v). split; [done|by apply elem_of_map_to_list].
  - intros x Hx. apply writes_frame. intros rest. apply Hx. left.
  - intros kd ->%list_elem_of_singleton. cbn. by rewrite upd_eq.
  - intros n' kd' k' D' Hne. apply (same_bits d k). intros [= -> ->]. apply Hne. split; [done|left].
  - cbn [tagOf fmap list_fmap]. rewrite Ec, <- Hrs. exact Hs.
Qed.

Lemma exec_Delete k : runs_ok (CDelete k).
Proof.
  intros Hk Hcost. destruct (models_records M n d k Hm Hk) as [R HR]. change (cmdCost _) with 9216 in Hcost.
  assert (forall tag, tag ∈ allTags -> fields M tag k (R tag)) as HD by (intros tag [kd ->]%elem_of_allTags; apply HR).
  pose proof (whole_affordable M k R allTags ltac:(apply Hk) allTags_nodup HD) as Haff. change (length allTags) with 5%nat in Haff.
  cbn [exec]. unfold DeleteCollection. rewrite collectionPrefixes_all.
  eapply does_step; [apply (deletePrefixes_does t k R Hk (fun tag rest => no_expiry tag k rest) s w M (n + credit M) allTags 0 Hr Hw allTags_nodup allTags_coll HD); lia|].
  intros r s' (-> & M' & Hs & Hf & Hfr). apply does_ret. cbn [reply_err fst snd]. destruct (fieldCount_zero R allTags) as [Hz1 Hz2].
  exists (effect d (CDelete k)). split.
  - left. split; [|done]. eexists. split; [done|]. split; [lia|]. rewrite Z.add_0_l, Hz2, nothing_spec. split.
    + intros H kd. eapply shape_empty; [apply HR|]. apply H, elem_of_allTags. by exists kd.
    + intros H tag [kd ->]%elem_of_allTags. eapply shape_empty; [apply HR|apply H].
  - eapply (outcome_clear k _ kinds M' s' R); try done.
    + apply (bool_decide_eq_true_1 (NoDup kinds)). done.
    + intros kd _. apply HR.
    + intros kd _. apply Hf, elem_of_allTags. by exists kd.
    + intros [] _; cbn; by rewrite upd_eq.
    + intros n' kd' k' D' Hne. assert (k' <> k) as Hk' by (intros ->; apply Hne; split; [done|apply elem_of_kinds]). destruct kd'; cbn; by rewrite upd_ne.
Qed.

Lemma exec_Exists k : runs_ok (CExists k).
Proof.
  intros Hk Hcost. destruct (models_records M n d k Hm Hk) as [R HR].
  assert (forall tag, tag ∈ allTags -> fields M tag k (R tag)) as HD by (intros tag [kd ->]%elem_of_allTags; apply HR).
  cbn [exec]. unfold CollectionKeys. rewrite collectionPrefixes_all.
  eapply does_step; [apply (collectPrefixes_does t k R Hk (fun tag rest => no_expiry tag k rest) s (wd_now w) M (n + credit M) allTags); try done|].
  - by apply world_clock.
  - apply allTags_nodup.
  - apply allTags_coll.
  - intros r s' (Hs & l & -> & Hl). apply does_ret. eapply outcome_read; try done. exists l. split; [done|]. rewrite nothing_spec. split.
    + intros -> kd. eapply shape_empty; [apply HR|]. apply map_empty. intros rest. destruct (R (tagOf kd) !! rest) as [v|] eqn:E; [|done]. exfalso.
      apply (not_elem_of_nil (ckey (tagOf kd) k rest)), Hl. exists (tagOf kd), rest. split; [apply elem_of_allTags; by exists kd|]. split; [done|by rewrite E].
    + intros H. destruct l as [|x l]; [done|]. exfalso. destruct (proj1 (Hl x) ltac:(left)) as (tag & rest & [kd ->]%elem_of_allTags & _ & [v Hv]).
      rewrite (proj2 (shape_empty _ _ _ _ _ (proj2 (HR kd))) (H kd)) in Hv. by rewrite lookup_empty in Hv.
Qed.

Lemma exec_all c : runs_ok c.
Proof.
  destruct c; [apply exec_Set|apply exec_Get|apply exec_HSet|apply exec_HSetMulti|apply exec_HGet|apply exec_HDel|apply exec_HGetAll|apply exec_HLen|
    apply exec_HKeys|apply exec_SAdd|apply exec_SRem|apply exec_SMembers|apply exec_SIsMember|apply exec_SCard|apply exec_SInter|apply exec_LPush|
    apply exec_RPush|apply exec_LPop|apply exec_RPop|apply exec_LLen|apply exec_LRange|apply exec_ZAdd|apply exec_ZScore|apply exec_ZRem|
    apply exec_ZRangeByScore|apply exec_SetBit|apply exec_GetBit|apply exec_BitCount|apply exec_BitCountRange|apply exec_DeleteBitmap|apply exec_Delete|apply exec_Exists].
Qed.
End commands.

(** Any sequence of commands. *)
Lemma execs_does s d n t cs : holds s d n t -> Forall (fun wc => world_ok t wc.1) cs -> fits n d cs ->
  does (execs cs) s (fun rs s' => exists d' n', answered d cs rs d' /\ holds s' d' n' t).
Proof.
  revert s d n. induction cs as [|[w c] cs IH]; intros s d n Hs Hw Hf; cbn [execs].
  { apply does_ret. exists d, n. split; [constructor|done]. }
  apply Forall_cons in Hw as [Hw Hws]. cbn [fits] in Hf. destruct Hf as (Hok & Hc & Hf). destruct Hs as (M & Hr & Hm & Hn).
  eapply does_step; [by apply (exec_all s d n t w M Hr Hm Hn Hw c)|]. intros r s1 (d1 & Ha & Hs1).
  eapply does_step; [apply (IH s1 d1 (n - cmdCost c) Hs1 Hws), Hf; destruct Ha as [[_ ->]|(_ & _ & ->)]; auto|].
  intros rs s2 (d2 & n2 & Has & Hs2). apply does_ret. exists d2, n2. split; [by econstructor|done].
Qed.

Lemma holds_start s n t : rep s ∅ n t -> 0 <= n < 2 ^ 62 -> holds s no_data n t.
Proof.
  intros Hr Hn. exists ∅. change (credit ∅) with 0. rewrite Z.add_0_r. split; [done|]. split; [|lia]. split; [done|]. intros kd k Hk. exists ∅. split.
  - intros rest. by rewrite !lookup_empty.
  - apply shape_none; [by destruct kd|done|done].
Qed.
End main.
