(* ===== verification/CollEngine.v ===== *)
(** * The engine is a store

    The operations of the engine the collections are built from, and the proof
    that they keep the promise of [StoreLaws]: what is stored is the newest
    entry of every key in the log of all writes. *)
From S2P Require Import Prelude Mvcc Oracle SkipList Heap Iterator Threshold Checksum Crypto Registry Framing Wal Vlog Values VlogSpec SstBlock SstTable Compaction Engine Open EngineInv EngineSteps EngineCompact EngineGc EngineSystem EngineMain Scan ScanSpec Store.

(** ** The newest entries of a log *)

Definition newestKv (log : list Entry) (k : bytes) : option (bytes * Z) :=
  match snapshot_get log k max_u64 with
  | Some u => if Deleted u then None else Some (Value u, ExpiresAt u)
  | None => None
  end.

Definition logMap (log : list Entry) (M : kvmap) : Prop := forall k, M !! k = newestKv log k.

Lemma logRead_map now log M k : logMap log M ->
  logRead now log k max_u64 = match M !! k with Some (v, x) => if alive now x then Some (v, x) else None | None => None end.
Proof.
  intros H. rewrite (H k). unfold newestKv, logRead, seen, interpret, expired, alive. destruct (snapshot_get log k max_u64) as [u|]; [|done].
  destruct (Deleted u); [done|]. by destruct (_ && _).
Qed.

Lemma answer_map now log M k : logMap log M -> answerOf (logRead now log k max_u64) = kv_answer (kv_get now M k).
Proof. intros H. rewrite (logRead_map now log M k H). unfold kv_get. destruct (M !! k) as [[v x]|]; [|done]. by destruct (alive now x). Qed.

Lemma newestKv_skip us log k : (forall u, u ∈ us -> Key u <> k) -> newestKv (us ++ log) k = newestKv log k.
Proof.
  intros H. unfold newestKv. rewrite snapshot_get_app. assert (snapshot_get us k max_u64 = None) as ->; [|by destruct (snapshot_get log k max_u64)].
  apply snapshot_get_None. intros u Hu Hk. by apply H in Hk.
Qed.

Lemma newestKv_new us log k u : u ∈ us -> Key u = k -> Version u <= max_u64 -> (forall a, a ∈ us -> Key a = k -> a = u) -> (forall a, a ∈ log -> Version a < Version u) ->
  newestKv (us ++ log) k = if Deleted u then None else Some (Value u, ExpiresAt u).
Proof.
  intros Hu Hk Hv Huniq Hold. unfold newestKv. rewrite snapshot_get_app.
  assert (snapshot_get us k max_u64 = Some u) as ->.
  { destruct (snapshot_get us k max_u64) as [a|] eqn:E.
    - apply snapshot_get_Some in E as (Ha & Hka & _). by rewrite (Huniq a Ha Hka).
    - pose proof (proj1 (snapshot_get_None _ _ _) E u Hu Hk). lia. }
  destruct (snapshot_get log k max_u64) as [b|] eqn:E; [|done]. apply snapshot_get_Some in E as (Hb & _). specialize (Hold b Hb).
  rewrite (proj2 (Z.ltb_ge _ _)) by lia. done.
Qed.

(** A batch in the log is a batch on the map. *)
Lemma kv_writes_lookup M es k : NoDup (bw_key <$> es) ->
  (forall b, b ∈ es -> bw_key b = k -> kv_writes M es !! k = if bw_deleted b then None else Some (bw_value b, bw_expiresAt b)) /\
  (k ∉ bw_key <$> es -> kv_writes M es !! k = M !! k).
Proof.
  unfold kv_writes. revert M. induction es as [|b es IH]; intros M Hnd; [split; [by intros b ?%elem_of_nil|done]|].
  rewrite fmap_cons in Hnd. apply NoDup_cons in Hnd as [Hb Hnd]. cbn [foldl]. destruct (IH (kv_write M b) Hnd) as [I1 I2]. split.
  - intros b' [->|Hb']%elem_of_cons Hk; [|by apply I1]. rewrite I2 by (by rewrite <- Hk). unfold kv_write. rewrite <- Hk.
    destruct (bw_deleted b); [by rewrite lookup_delete_eq|by rewrite lookup_insert_eq].
  - rewrite fmap_cons, not_elem_of_cons. intros [Hne Hk]. rewrite I2 by done. unfold kv_write.
    destruct (bw_deleted b); [by rewrite lookup_delete_ne|by rewrite lookup_insert_ne].
Qed.

Lemma batchEntry_fields seq b : Key (batchEntry seq b) = bw_key b /\ Version (batchEntry seq b) = seq /\ Deleted (batchEntry seq b) = bw_deleted b /\
  (bw_deleted b = false -> Value (batchEntry seq b) = bw_value b /\ ExpiresAt (batchEntry seq b) = bw_expiresAt b).
Proof. unfold batchEntry. by destruct (bw_deleted b). Qed.

Lemma logMap_batch log M es seq : logMap log M -> NoDup (bw_key <$> es) -> seq <= max_u64 -> (forall a, a ∈ log -> Version a < seq) ->
  logMap (rev (batchEntry seq <$> es) ++ log) (kv_writes M es).
Proof.
  intros HM Hnd Hseq Hold k. destruct (kv_writes_lookup M es k Hnd) as [H1 H2].
  assert (forall u, u ∈ rev (batchEntry seq <$> es) <-> exists b, u = batchEntry seq b /\ b ∈ es) as Hrev.
  { intros u. rewrite <- Permutation_rev. apply list_elem_of_fmap. }
  destruct (decide (k ∈ bw_key <$> es)) as [(b & Hk & Hb)%list_elem_of_fmap|Hk].
  - destruct (batchEntry_fields seq b) as (F1 & F2 & F3 & F4). rewrite (newestKv_new _ log k (batchEntry seq b)).
    + rewrite (H1 b Hb (eq_sym Hk)), F3. destruct (bw_deleted b); [done|]. by destruct (F4 eq_refl) as [-> ->].
    + apply Hrev. eauto.
    + congruence.
    + lia.
    + intros a (b' & -> & Hb')%Hrev Ha. rewrite (proj1 (batchEntry_fields seq b')) in Ha.
      apply list_elem_of_lookup in Hb as [i Hi]. apply list_elem_of_lookup in Hb' as [j Hj].
      assert (i = j) as -> by (apply (NoDup_lookup _ _ _ k Hnd); rewrite list_lookup_fmap, ?Hi, ?Hj; cbn; congruence). congruence.
    + intros a Ha. specialize (Hold a Ha). lia.
  - rewrite (H2 Hk), (HM k), newestKv_skip; [done|]. intros u (b & -> & Hb)%Hrev E. rewrite (proj1 (batchEntry_fields seq b)) in E.
    apply Hk. rewrite <- E. by apply list_elem_of_fmap_2.
Qed.

(** ** The engine *)

Lemma runs_does {A} (m : eng A) e (Q : A -> Engine -> Prop) : runs m e Q -> does m e Q.
Proof. done. Qed.

Section engine.
Context (aesEncrypt : bytes -> bytes -> bytes) (xxhash : bytes -> Z).

Definition engineScan {A} (body : Entry -> A -> eng (A * bool)) (seekKey : bytes) (acc : A) : eng A :=
  e ← getE; scan body (buildMergedIterator xxhash e seekKey) acc.

#[export] Instance engineStore : Store Engine := {
  db_getByKey := getWithoutLock aesEncrypt;
  db_Get := getByString aesEncrypt;
  db_getByPrefix := getByPrefix aesEncrypt xxhash;
  db_scan := @engineScan;
  db_submitBatch := submitBatch aesEncrypt;
  db_PutExAt := PutExAt aesEncrypt;
}.

Hypothesis aes_wf : forall k b, wf_bytes (aesEncrypt k b).
Context (reg : option KeyRegistry).
Hypothesis reg_ok : registry_ok reg.
Context (E : bytes -> Prop).

Definition log_expiry (log : list Entry) : Prop := forall u, u ∈ log -> Deleted u = false -> ExpiresAt u = 0 \/ E (Key u).

(** No request is under way; snapshots may be open and collections of the
    value log started. *)
Record engineRep (e : Engine) (M : kvmap) (n t : Z) (opens : list Z) (gc : list (Z * Z * Z)) (sp : LogSpec) (g : Ghost) : Prop := {
  er_sys : sys_inv aesEncrypt reg (mkSys e [] opens gc t) sp g;
  er_room : room (e_vl e) n;
  er_space : nextTs (e_oracle e) + n < max_u64;
  er_map : logMap (sp_log sp) M;
  er_expiry : log_expiry (sp_log sp);
}.

Definition engine_rep (e : Engine) (M : kvmap) (n t : Z) : Prop := exists opens gc sp g, engineRep e M n t opens gc sp g.

Definition engine_quiet (e e' : Engine) : Prop := exists stats, e' = set_stats e stats.

Lemma engine_rep_less e M n n' t : n' <= n -> engine_rep e M n t -> engine_rep e M n' t.
Proof.
  intros Hn (opens & gc & sp & g & [H1 H2 H3 H4 H5]). exists opens, gc, sp, g. split; [done|by eapply room_le|lia|done|done].
Qed.

(** What reading needs. *)
Record readable (e : Engine) (g : Ghost) (now : Z) : Prop := {
  rd_inv : eng_inv aesEncrypt reg e g [] [];
  rd_floor : g_floor g <= max_u64;
  rd_next : nextTs (e_oracle e) <= max_u64;
  rd_time : g_time g <= now;
}.

Lemma rep_readable e M n t opens gc sp g now : engineRep e M n t opens gc sp g -> t <= now -> readable e g now.
Proof.
  intros Hr Hnow. pose proof (er_sys _ _ _ _ _ _ _ _ Hr) as Hs. pose proof (sys_clock _ _ _ _ _ Hs) as Hc. pose proof (sy_time _ _ _ _ _ Hs) as Ht.
  destruct (sy_floor _ _ _ _ _ Hs) as [Hf _]. cbn [s_e s_now] in *. split; [exact (sy_eng _ _ _ _ _ Hs)|lia..].
Qed.

(** A step that keeps the log keeps the map. *)
Lemma rep_quietly e e' M n t opens gc sp g : engineRep e M n t opens gc sp g -> eng_inv aesEncrypt reg e' g [] [] -> e_oracle e' = e_oracle e ->
  room (e_vl e') 0 -> room (e_vl e') n -> engineRep e' M n t opens gc sp g.
Proof.
  intros [Hs Hroom Hsp HM HE] Hi Ho Hr0 Hrn. split; [|done|by rewrite Ho|done|done].
  apply (sys_quiet aesEncrypt reg (mkSys e [] opens gc t) sp g); try done; [lia|apply Hs|apply Hs].
Qed.

Lemma room_zero e M n t opens gc sp g : engineRep e M n t opens gc sp g -> room (e_vl e) 0.
Proof. intros Hr. apply (sy_room _ _ _ _ _ (er_sys _ _ _ _ _ _ _ _ Hr)). Qed.

Lemma room_both e M n t opens gc sp g : engineRep e M n t opens gc sp g -> room (e_vl e) (Z.max 0 n).
Proof. intros Hr. destruct (Z.max_spec 0 n) as [[_ ->]|[_ ->]]; [by eapply er_room|by eapply room_zero]. Qed.

Lemma reads_rep {A} (m : eng A) (x : A) e M n t opens gc sp g : engineRep e M n t opens gc sp g ->
  runs m e (reads_as aesEncrypt reg e g [] [] (Z.max 0 n) x) -> does m e (fun r e' => r = x /\ engine_rep e' M n t).
Proof.
  intros Hr Hm. eapply (runs_mono m e); [exact Hm|]. intros r e' (-> & vl & -> & Hi & Hroom & _). split; [done|]. exists opens, gc, sp, g.
  eapply rep_quietly; try done; (eapply room_le; [|exact Hroom]; lia).
Qed.

Lemma engine_getByKey e M n t now k : engine_rep e M n t -> t <= now ->
  does (getWithoutLock aesEncrypt now k) e (fun r s' => r = kv_answer (kv_get now M k) /\ engine_rep s' M n t).
Proof.
  intros (opens & gc & sp & g & Hr) Hnow. destruct (rep_readable _ _ _ _ _ _ _ _ now Hr Hnow) as [Hi Hf Hn Ht].
  rewrite <- (answer_map now _ M k (er_map _ _ _ _ _ _ _ _ Hr)), <- (sy_log _ _ _ _ _ (er_sys _ _ _ _ _ _ _ _ Hr)).
  eapply reads_rep; [done|]. apply getWithoutLock_runs; try done. by eapply room_both.
Qed.

Lemma engine_Get e M n t now k : engine_rep e M n t -> t <= now ->
  does (getByString aesEncrypt now k) e (fun r s' => r = kv_answer (kv_get now M k) /\ engine_rep s' M n t).
Proof.
  intros (opens & gc & sp & g & Hr) Hnow. destruct (rep_readable _ _ _ _ _ _ _ _ now Hr Hnow) as [Hi Hf Hn Ht].
  rewrite <- (answer_map now _ M k (er_map _ _ _ _ _ _ _ _ Hr)), <- (sy_log _ _ _ _ _ (er_sys _ _ _ _ _ _ _ _ Hr)).
  eapply reads_rep; [done|]. apply getByString_runs; try done; [by eapply room_both|]. pose proof (ei_top _ _ _ _ _ _ Hi). lia.
Qed.

Lemma engine_getByPrefix e M n t now p : engine_rep e M n t -> t <= now -> 0 <= now ->
  does (getByPrefix aesEncrypt xxhash now p) e (fun m s' => engine_rep s' M n t /\
    forall k v, m !! k = Some v <-> has_prefix p k = true /\ exists x, M !! k = Some (v, x) /\ alive now x = true /\ 0 <= x).
Proof.
  intros (opens & gc & sp & g & Hr) Hnow H0. destruct (rep_readable _ _ _ _ _ _ _ _ now Hr Hnow) as [Hi Hf Hn Ht].
  pose proof (getByPrefix_runs aesEncrypt xxhash reg e g [] [] (Z.max 0 n) now Hi (room_both _ _ _ _ _ _ _ _ Hr) Hf Hn Ht H0 p) as H.
  eapply (runs_mono _ e); [exact H|]. intros m e' [Hc Hm]. split.
  - exists opens, gc, sp, g. destruct Hc. eapply rep_quietly; try done; (eapply room_le; [|done]; lia).
  - intros k v. rewrite (Hm k v). unfold readsLog. rewrite (sy_log _ _ _ _ _ (er_sys _ _ _ _ _ _ _ _ Hr)), (logRead_map now _ M k (er_map _ _ _ _ _ _ _ _ Hr)).
    clear. destruct (M !! k) as [[v' x']|]; [|split; [intros (_ & x & [=] & _)|intros (_ & x & [=] & _)]]. destruct (alive now x') eqn:Ea.
    + split; intros (Hp & x & [= -> ->] & Hx); (split; [done|]); exists x; tauto.
    + split; [by intros (_ & x & [=] & _)|]. intros (_ & x & [= -> ->] & Hx & _). congruence.
Qed.

(** What is stored came with a write. *)
Lemma stored_expiry e g sp : eng_inv aesEncrypt reg e g [] [] -> g_log g = sp_log sp -> log_expiry (sp_log sp) ->
  forall o, o ∈ storedE e -> Deleted o = false -> ExpiresAt o = 0 \/ E (Key o).
Proof.
  intros Hi Hlog HE o Ho Hd. destruct (ei_hist _ _ _ _ _ _ Hi) as (hist & Hp & Hl & Hrep). rewrite <- Hlog, Hl in HE. rewrite Forall_forall in Hrep.
  assert (forall b, b ∈ everything e g -> Deleted b = false -> ExpiresAt b = 0 \/ E (Key b)) as Hev.
  { intros b Hb Hdb. rewrite Hp in Hb. apply list_elem_of_fmap in Hb as (pr & -> & Hpr). destruct (Hrep pr Hpr) as [R1 _ R3 R4 _].
    rewrite R1, R4. apply HE; [by apply list_elem_of_fmap_2|congruence]. }
  unfold storedE in Ho. rewrite !elem_of_app in Ho. destruct Ho as [Ho|[Ho|Ho]].
  - apply Hev; [|done]. unfold everything. set_solver.
  - apply Hev; [|done]. unfold everything. set_solver.
  - destruct (ei_origin _ _ _ _ _ _ Hi o Ho Hd) as (b & Hb & Hdb & <- & <-). apply Hev; [|done]. unfold everything. set_solver.
Qed.

Lemma engine_walk e M n t opens gc sp g now seek out : engineRep e M n t opens gc sp g -> t <= now -> walks e seek None out -> walk_of E M now seek out.
Proof.
  intros Hr Hnow [W1 W2 W3 W4]. destruct (rep_readable _ _ _ _ _ _ _ _ now Hr Hnow) as [Hi Hf Hn Ht].
  pose proof (er_sys _ _ _ _ _ _ _ _ Hr) as Hs. pose proof (sy_log _ _ _ _ _ Hs) as Hlog. pose proof (er_map _ _ _ _ _ _ _ _ Hr) as HM.
  assert (forall k, bytes_le seek k -> in_scope seek None k) as Hin by (intros k Hk; split; [done|]; by intros p).
  split.
  - done.
  - intros o Ho. by apply W2.
  - intros o Ho Hd Ha. destruct (W2 o Ho) as [_ Hk]. pose proof (stored_log aesEncrypt xxhash reg e g [] [] now (Key o) Hi Hf Ht) as H.
    rewrite (W3 o Ho (Hin _ Hk)) in H. unfold goneAt in H. rewrite Hd in H. unfold alive in Ha. apply negb_true_iff in Ha. rewrite Ha in H. cbn [orb] in H.
    destruct H as (u & Hu & _). rewrite Hlog, (logRead_map now _ M _ HM) in Hu. destruct (M !! Key o) as [[v x]|]; [|done].
    destruct (alive now x); [|done]. injection Hu as -> ->. eauto.
  - intros k v x Hk Hv Ha. pose proof (stored_log aesEncrypt xxhash reg e g [] [] now k Hi Hf Ht) as H. rewrite Hlog, (logRead_map now _ M _ HM), Hv, Ha in H.
    destruct (snapshot_get (storedE e) k max_u64) as [o|] eqn:Eo; [|done]. destruct (goneAt now o) eqn:Eg; [done|]. destruct H as (u & [= -> Ex] & _).
    exists o. split; [by apply (W4 k o (Hin k Hk))|]. split; [by apply snapshot_get_Some in Eo as (_ & ? & _)|]. split; [|done].
    unfold goneAt in Eg. by apply orb_false_iff in Eg as [? _].
  - intros o Ho Hd. eapply stored_expiry; [exact Hi|exact Hlog|by eapply er_expiry|by apply W2|done].
Qed.

Lemma engine_scan A (body : Entry -> A -> st Engine (A * bool)) seek acc e M n t now (P : list Entry -> A -> Engine -> Prop) (Q : A -> Engine -> Prop) :
  engine_rep e M n t -> t <= now ->
  (forall l a s1 s2, engine_quiet s1 s2 -> P l a s1 -> P l a s2) ->
  (forall x l a s1, P (x :: l) a s1 -> does (body x a) s1 (fun r s' => if (r.2 : bool) then P l r.1 s' else Q r.1 s')) ->
  (forall a s1, P [] a s1 -> Q a s1) ->
  (forall out, walk_of E M now seek out -> P out acc e) ->
  does (engineScan body seek acc) e Q.
Proof.
  intros (opens & gc & sp & g & Hr) Hnow Hq Hb Hend Hstart. destruct (rep_readable _ _ _ _ _ _ _ _ now Hr Hnow) as [Hi Hf Hn Ht].
  apply runs_does. unfold engineScan. run_get. unfold scan.
  apply (scanLoop_runs body P Q); [|done|done|].
  - intros l a e1 stats HP. eapply Hq; [|exact HP]. by exists stats.
  - apply Hstart. eapply engine_walk; [done|done|]. exact (iter_walks aesEncrypt xxhash reg e g [] [] seek None Hi Hn).
Qed.

Lemma engine_rep_quiet e e' M n t : engine_quiet e e' -> engine_rep e M n t -> engine_rep e' M n t.
Proof.
  intros [stats ->] (opens & gc & sp & g & Hr). exists opens, gc, sp, g. destruct (rep_readable _ _ _ _ _ _ _ _ t Hr ltac:(lia)) as [Hi _ _ _].
  eapply rep_quietly; try done; [by apply inv_set_gc|exact (room_zero e M n t opens gc sp g Hr)|exact (er_room _ _ _ _ _ _ _ _ Hr)].
Qed.

(** *** Writes *)

Lemma assignSeq_spec e r : rq_seq r = 0 -> 0 <= nextTs (e_oracle e) -> nextTs (e_oracle e) + 1 < max_u64 ->
  exists e1, assignSeq r e = Some (nextTs (e_oracle e) + 1, e1) /\ e_vl e1 = e_vl e /\ nextTs (e_oracle e1) = nextTs (e_oracle e) + 1.
Proof.
  intros Hz H0 Hn. unfold assignSeq, getE, putE, mbind, eng_bind, mret, eng_ret. rewrite Hz. change (0 =? 0) with true. cbv iota.
  unfold NewCommitTs, assignTsLocked. rewrite u64_id by (unfold is_u64, max_u64 in *; lia). eexists. done.
Qed.

Lemma log_bound e g M n t opens gc sp : engineRep e M n t opens gc sp g -> forall a, a ∈ sp_log sp -> Version a <= nextTs (e_oracle e).
Proof.
  intros Hr a Ha. pose proof (er_sys _ _ _ _ _ _ _ _ Hr) as Hs. rewrite <- (sy_log _ _ _ _ _ Hs) in Ha. pose proof (sy_eng _ _ _ _ _ Hs) as Hi. cbn in Hi.
  assert (at_version a ∈ at_version <$> everything e g) as (b & Eb & Hb)%list_elem_of_fmap.
  { rewrite (log_versions aesEncrypt reg e g [] [] Hi). by apply list_elem_of_fmap_2. }
  injection Eb as _ ->. by apply (ei_next _ _ _ _ _ _ Hi).
Qed.

(** A request from its arrival to its answer. *)
Lemma dispatch_rep e M n t opens gc sp g w r c : engineRep e M n t opens gc sp g -> world_ok t w -> req_ok r -> rq_seq r = 0 -> rq_op r <> opIncr ->
  reqCost r <= c -> 1 <= c <= n ->
  does (dispatch aesEncrypt w r) e (fun res e' =>
    (refused e r = true /\ res = mkIncrResult 0 (Some ErrDiskFull) /\ e' = e) \/
    exists seq out sp' g', out = logRequest (wd_now w) (sp_log sp) r seq /\ res = out.2 /\ seq <= max_u64 /\ (forall a, a ∈ sp_log sp -> Version a < seq) /\
      sp_log sp' = rev out.1 ++ sp_log sp /\ sys_inv aesEncrypt reg (mkSys e' [] opens gc t) sp' g' /\ room (e_vl e') (n - c) /\
      nextTs (e_oracle e') + (n - c) < max_u64).
Proof.
  intros Hrep (Hw1 & Hw2 & Hiv) Hok Hz Hop Hc Hn. pose proof (log_bound _ _ _ _ _ _ _ _ Hrep) as Hold. destruct Hrep as [Hs Hroom Hsp HM HE].
  pose proof (sys_clock _ _ _ _ _ Hs) as Hclock. cbn [s_e] in Hclock. apply runs_does. unfold dispatch. run_get. rewrite Hz.
  destruct (refused e r) eqn:Er; [left; done|]. destruct (assignSeq_spec e r Hz ltac:(lia) ltac:(lia)) as (e1 & Ea & Ev & Enx). set (seq := nextTs (e_oracle e) + 1) in *.
  pose proof (sim_assign aesEncrypt aes_wf reg reg_ok (mkSys e [] opens gc t) sp g r seq e1 Hs Hok Hz ltac:(by intros ? x ?%elem_of_nil) ltac:(cbn; lia) Ea) as Hs1.
  cbn [s_e s_pending s_open s_gc s_now] in Hs1.
  apply (runs_step _ _ _ (fun q e' => q = seq /\ e' = e1)); [unfold runs; by rewrite Ea|]. intros q e' [-> ->].
  set (s1 := mkSys e1 [(r, seq)] opens gc t) in *.
  destruct (pending_facts aesEncrypt aes_wf reg reg_ok s1 sp g r seq [] [] Hs1 eq_refl) as (_ & Hseq & _ & _ & Hfresh & _).
  pose proof (pending_runs aesEncrypt aes_wf reg reg_ok s1 sp g w r seq [] [] (n - c) Hs1 eq_refl Hw1 Hiv) as Happ. cbn [s1 s_e] in Happ, Hseq.
  eapply runs_mono; [apply Happ; [rewrite Ev; eapply room_le; [|exact Hroom]; lia|lia]|]. intros res e2 (-> & Ho & Hr2 & g1 & Hg1 & Hi2). right.
  destruct (more_issued_rest _ _ Hg1) as (E1 & E2 & E3 & E4). set (us := (logRequest (wd_now w) (sp_log sp) r seq).1) in *.
  destruct (g_writes_rest g1 us) as (F1 & F2 & F3).
  eexists seq, _, _, _. split; [reflexivity|]. split; [done|]. split; [lia|]. split; [intros a Ha; specialize (Hold a Ha); lia|]. split; [|split; [|split; [done|]]].
  2:{ apply (sys_done aesEncrypt aes_wf reg reg_ok s1 sp g r seq [] [] us e2 _ t (sp_incr sp) Hs1 eq_refl); try done; [eapply room_le; [|done]; lia|by rewrite g_writes_log, E1|congruence..| |by left].
      intros u. by apply logRequest_entries. }
  - done.
  - rewrite Ho, MarkApplied_next. lia.
Qed.

(** Either refused or in the log with a version of its own. *)
Lemma engine_write e M n t w r es : engine_rep e M n t -> world_ok t w -> req_ok r -> rq_seq r = 0 -> rq_op r <> opIncr -> reqCost r <= writeCost es ->
  writeCost es <= n -> NoDup (bw_key <$> es) -> Forall (expiry_ok E) es ->
  (forall now log seq, (logRequest now log r seq).1 = batchEntry seq <$> es /\ ir_err (logRequest now log r seq).2 = None) ->
  (refused e r = true -> batchHasWrites es = true) ->
  does (res ← dispatch aesEncrypt w r; mret (ir_err res)) e (wrote engine_rep M n t es).
Proof.
  intros (opens & gc & sp & g & Hr) Hw Hok Hz Hop Hc Hn Hnd HE Hlog Hrf.
  assert (1 <= writeCost es) as Hpos by (unfold writeCost; pose proof (batchCost_nonneg es); lia).
  eapply does_step; [apply (dispatch_rep e M n t opens gc sp g w r (writeCost es) Hr); try done|].
  intros res e' [(Hf & -> & ->)|(seq & out & sp' & g' & -> & -> & Hseq & Hold & Hlog' & Hs' & Hroom' & Hsp')]; apply does_ret.
  - right. split; [done|]. split; [by apply Hrf|]. by exists opens, gc, sp, g.
  - left. destruct (Hlog (wd_now w) (sp_log sp) seq) as [E1 E2]. split; [done|]. exists opens, gc, sp', g'. rewrite E1 in Hlog'.
    split; [done|done|done| |]; rewrite Hlog'.
    + apply logMap_batch; [apply Hr|done|done|done].
    + intros u [Hu|Hu]%elem_of_app Hd; [|by apply Hr]. rewrite <- Permutation_rev in Hu. apply list_elem_of_fmap in Hu as (b & -> & Hb).
      destruct (batchEntry_fields seq b) as (F1 & F2 & F3 & F4). rewrite F3 in Hd. destruct (F4 Hd) as [_ ->]. rewrite F1.
      rewrite Forall_forall in HE. by apply HE.
Qed.

Lemma engine_submitBatch e M n t w es : engine_rep e M n t -> world_ok t w -> batch_fine E es -> writeCost es <= n ->
  does (submitBatch aesEncrypt w es) e (wrote engine_rep M n t es).
Proof.
  intros Hr Hw [H1 H2 H3 H4] Hc. assert ((0 <? length es)%nat = true) as Hlen by (destruct es; [done|by apply Nat.ltb_lt; cbn; lia]).
  apply engine_write; try done.
  - split; cbn [batchReq rq_op rq_key rq_val rq_expiresAt rq_batch]; [set_solver| |done|done]. split; [split; [constructor|done]|split; [constructor|done]|unfold is_i64; lia|done].
  - unfold reqCost, writeCost, cost. cbn. lia.
  - intros now log seq. unfold logRequest. cbn [batchReq rq_op rq_batch]. by rewrite Hlen.
  - unfold refused. cbn [batchReq rq_op rq_batch]. rewrite Hlen. by intros [_ ?]%andb_true_iff.
Qed.

Lemma engine_PutExAt e M n t w k v x skipWAL (b := mkBatch k v false x) : engine_rep e M n t -> world_ok t w -> kv_ok k v x -> expiry_ok E b ->
  writeCost [b] <= n -> does (PutExAt aesEncrypt w k v x skipWAL) e (wrote engine_rep M n t [b]).
Proof.
  intros Hr Hw Hkv HE Hc. apply engine_write; try done.
  - split; cbn [putReq rq_op rq_key rq_val rq_expiresAt rq_batch]; [set_solver|done|split; [constructor|constructor]|done].
  - unfold reqCost, writeCost. cbn. lia.
  - apply NoDup_singleton.
  - by apply Forall_singleton.
Qed.

#[export] Instance engineLaws : StoreLaws Engine E := {
  rep := engine_rep;
  quiet := engine_quiet;
  rep_quiet s s' M n t := engine_rep_quiet s s' M n t;
  rep_less s M n n' t := engine_rep_less s M n n' t;
  getByKey_law s M n t now k Hr Ht _ := engine_getByKey s M n t now k Hr Ht;
  Get_law s M n t now k Hr Ht _ := engine_Get s M n t now k Hr Ht;
  getByPrefix_law := engine_getByPrefix;
  scan_law A body seek acc s M n t now P Q Hr Ht _ := engine_scan A body seek acc s M n t now P Q Hr Ht;
  submitBatch_law := engine_submitBatch;
  PutExAt_law := engine_PutExAt;
}.
End engine.
