(* ===== verification/CollRun.v ===== *)
(** * Collections on the running engine

    Commands on strings and collections, served by the engine while memtables
    are rotated and flushed and levels compacted. *)
From S2P Require Import Prelude Mvcc Oracle SkipList Heap Iterator Strconv Encoding Threshold Checksum Crypto Registry Framing Wal Vlog Values VlogSpec SstBlock SstTable TableRead Compaction Engine Open EngineInv EngineSteps EngineCompact EngineSystem EngineMain Scan ScanSpec Store Collections CollKeys CollOps CollLists CollZsets CollWhole Bitmaps BitmapSpec BitmapOps CollSpec CollModel CollMain CollEngine.

(** String keys may expire. *)
Definition isString (k : bytes) : Prop := has_prefix [115; 0] k = true.

Lemma isString_str k : isString (strKey k).
Proof. apply has_prefix_spec. by exists k. Qed.

Lemma isString_coll tag name rest : coll_tag tag -> ~ isString (ckey tag name rest).
Proof. intros [_ Ht] [r E]%has_prefix_spec. by injection E as ->. Qed.

(** A command either answers or is an error. *)
Lemma answer_no_error now d c r e : answer now d c r -> r <> RErr e.
Proof. intros Ha ->. destruct c; cbn in Ha; try discriminate Ha; try (by destruct Ha as (? & ? & _)). Qed.

Lemma allowed_functional now d c r d1 d2 : allowed now d c r d1 -> allowed now d c r d2 -> d1 = d2.
Proof.
  intros [[A1 ->]|(_ & A1 & ->)] [[A2 ->]|(_ & A2 & ->)]; [done|exfalso; by eapply answer_no_error|exfalso; by eapply answer_no_error|done].
Qed.

Section run.
Context (aesEncrypt : bytes -> bytes -> bytes) (xxhash : bytes -> Z).
Context (fileSize : Table -> Z) (copts : Options).

(** [triggerFlushLocked] and the handover to the flush worker. *)
Definition rotation (w : World) : eng unit := @mbind eng eng_bind _ _ enqueueFlush (triggerFlushLocked w).

(** The work of the background, with the space and the time it uses up, under
    the assumptions on flushes and compactions of [sys_step]. *)
Inductive background : Engine -> Z -> Z -> Engine -> Z -> Z -> Prop :=
  | bg_rotate e n t w e' :
      e_immMemTable e = None -> iv_ok (wd_ivVlog w) -> lsm_nextSeq (e_lsm e) + 1 < 2 ^ 64 -> 64 <= n ->
      rotation w e = Some (tt, e') -> background e n t e' (n - 64) t
  | bg_flush e n t w e' : flushable e = true -> flushTurn w e = Some (tt, e') -> background e n t e' n t
  | bg_compact e n t w e' :
      t <= wd_now w -> base_clear fileSize copts (e_lsm e) -> engineCompact fileSize copts w e = Some (tt, e') ->
      wholeLevels (levels (e_lsm e')) = true -> background e n t e' n (wd_now w)
  | bg_disk e n t maxDiskBytes used e' : checkDiskUsage maxDiskBytes used e = Some (tt, e') -> background e n t e' n t.

Definition serve (w : World) (c : cmd) : eng reply := @exec Engine (engineStore aesEncrypt xxhash) w c.

Context (opts : OpenOptions) (ow : OpenWorld).

(** The states of the engine, with the data they hold, the space left and a
    time compactions have not gone beyond: a new database, and what commands
    and background work make of it. *)
Inductive serving : Engine -> Data -> Z -> Z -> Prop :=
  | serving_open e n t :
      OpenEngineWithOpts aesEncrypt opts ow emptyDisk = Some e -> room (e_vl e) n -> 0 <= n < 2 ^ 62 -> 0 <= t -> serving e no_data n t
  | serving_command e d n t w c r e' d' :
      serving e d n t -> world_ok t w -> cmd_ok d c -> cmdCost c <= n -> serve w c e = Some (r, e') -> allowed (wd_now w) d c r d' ->
      serving e' d' (n - cmdCost c) t
  | serving_background e d n t e' n' t' : serving e d n t -> background e n t e' n' t' -> serving e' d n' t'.

Hypothesis aes_wf : forall k b, wf_bytes (aesEncrypt k b).
Hypothesis reg_ok : registry_ok (oo_registry opts).
Hypothesis ivs_ok : (forall f, iv_ok (ow_ivs ow f)) /\ iv_ok (wd_ivWal (ow_world ow)).

Notation reg := (oo_registry opts).
Notation erep := (engine_rep aesEncrypt reg isString).

Lemma background_rep e M n t e' n' t' c : 0 <= n -> 0 <= c -> erep e M (n + c) t -> background e n t e' n' t' ->
  erep e' M (n' + c) t' /\ 0 <= n' <= n.
Proof.
  intros Hn Hc (opens & gc & sp & g & Hr) Hb. pose proof (er_sys _ _ _ _ _ _ _ _ _ _ _ Hr) as Hs. pose proof (er_room _ _ _ _ _ _ _ _ _ _ _ Hr) as Hroom.
  pose proof (er_space _ _ _ _ _ _ _ _ _ _ _ Hr) as Hsp. pose proof (er_map _ _ _ _ _ _ _ _ _ _ _ Hr) as HM. pose proof (er_expiry _ _ _ _ _ _ _ _ _ _ _ Hr) as HE.
  pose proof (sy_eng _ _ _ _ _ Hs) as Hi. cbn [s_e s_pending fmap list_fmap] in Hi. pose proof (sy_time _ _ _ _ _ Hs) as Ht.
  destruct Hb as [e n t w e' Himm Hiv Hseq Hn64 Hrun|e n t w e' Hfl Hrun|e n t w e' Hw Hbc Hrun Hwh|e n t mx used e' Hrun]; (split; [|lia]).
  - pose proof (rotate_runs aesEncrypt aes_wf reg reg_ok e g (n - 64 + c) w Hi ltac:(eapply room_le; [|exact Hroom]; lia) ltac:(lia) Hiv Himm (ei_seq _ _ _ _ _ _ Hi) Hseq) as H.
    change (runs (rotation w) e (fun _ e' => eng_inv aesEncrypt reg e' (g_rotate g (nextTs (e_oracle e))) [] [] /\ keeps e e' (n - 64 + c))) in H.
    unfold runs in H. rewrite Hrun in H. destruct H as [Hi' [Ho Hr']]. exists opens, gc, sp, (g_rotate g (nextTs (e_oracle e))).
    split; [|done|rewrite Ho; lia|done|done]. apply (sys_quiet aesEncrypt reg (mkSys e [] opens gc t) sp g); try done; [eapply room_le; [|exact Hr']; lia|cbn; lia|apply Hs].
  - pose proof (flush_runs aesEncrypt aes_wf reg reg_ok e g [] (n + c) w Hi Hroom Hfl) as H.
    unfold runs in H. rewrite Hrun in H. destruct H as (g' & E1 & E2 & E3 & _ & E5 & Hi' & [Ho Hr'] & _). exists opens, gc, sp, g'.
    split; [|done|by rewrite Ho|done|done].
    apply (sys_quiet aesEncrypt reg (mkSys e [] opens gc t) sp g); try done; [eapply room_le; [|exact Hr']; lia|lia|rewrite E3; done|rewrite E5; apply Hs].
  - rewrite (engineCompact_lsm _ _ _ _ _ Hrun) in Hwh.
    pose proof (engineCompact_runs aesEncrypt aes_wf reg e g [] [] (n + c) fileSize copts w Hi Hroom ltac:(lia) Hbc Hwh) as H.
    unfold runs in H. rewrite Hrun in H. destruct H as ((drops & Hi') & Ho & Hv). exists opens, gc, sp, (g_compact g drops (Oracle_MinReadTs (e_oracle e)) (wd_now w)).
    cbn in Ht. split; [|by rewrite Hv|by rewrite Ho|done|done].
    apply (sys_quiet aesEncrypt reg (mkSys e [] opens gc t) sp g); try done; [rewrite Hv; eapply room_le; [|exact Hroom]; lia|cbn; lia|apply Hs].
  - pose proof (sim_diskUsage aesEncrypt reg (mkSys e [] opens gc t) sp g mx used e' Hs Hrun) as Hs'. exists opens, gc, sp, g.
    unfold checkDiskUsage, getE, mbind, eng_bind, putE, mret, eng_ret in Hrun. split; [done| | |done|done]; revert Hrun; case_if; intros [= <-]; done.
Qed.

#[local] Existing Instance engineStore.
Notation kept := (@holds Engine (engineStore aesEncrypt xxhash) isString (engineLaws aesEncrypt xxhash aes_wf reg reg_ok isString)).

Lemma serve_does e d n t w c : kept e d n t -> world_ok t w -> cmd_ok d c -> cmdCost c <= n ->
  exists r e' d', serve w c e = Some (r, e') /\ allowed (wd_now w) d c r d' /\ kept e' d' (n - cmdCost c) t.
Proof.
  intros (M & Hr & Hm & Hn) Hw Hok Hc.
  destruct (does_inv _ _ _ (exec_all (HL := engineLaws aesEncrypt xxhash aes_wf reg reg_ok isString) isString_str isString_coll e d n t w M Hr Hm Hn Hw c Hok Hc))
    as (r & e' & Hrun & d' & Ha & Hk). by exists r, e', d'.
Qed.

Lemma open_rep e n t : OpenEngineWithOpts aesEncrypt opts ow emptyDisk = Some e -> room (e_vl e) n -> n < 2 ^ 62 -> 0 <= t -> erep e ∅ n t.
Proof.
  intros He Hr Hn Ht. destruct (fresh_inv aesEncrypt aes_wf opts ow reg_ok ivs_ok e He) as (_ & _ & Ho). exists [], [], emptyLog, g0.
  split; [exact (start_inv aesEncrypt aes_wf opts ow reg_ok ivs_ok e t He Ht)|done|rewrite Ho; cbn; unfold max_u64; lia|by intros k|by intros u ?%elem_of_nil].
Qed.

Lemma serving_kept e d n t : serving e d n t -> kept e d n t.
Proof.
  induction 1 as [e n t He Hr Hn Ht|e d n t w c r e' d' _ IH Hw Hok Hc Hrun Ha|e d n t e' n' t' _ (M & Hr & Hm & Hn) Hb].
  - apply holds_start; [|done]. apply open_rep; [done|done|lia|done].
  - destruct (serve_does e d n t w c IH Hw Hok Hc) as (r1 & e1 & d1 & Hrun1 & Ha1 & Hk). rewrite Hrun in Hrun1. injection Hrun1 as <- <-.
    by rewrite (allowed_functional _ _ _ _ _ _ Ha Ha1).
  - destruct (background_rep e M n t e' n' t' (credit M) Hn (credit_nonneg M) Hr Hb) as [Hr' Hn']. exists M. split; [exact Hr'|]. split; [by eapply models_less|lia].
Qed.

End run.

Module CollWitness.
Import EngineWitness.

Definition hash (b : bytes) : Z := foldl (fun h x => (h * 31 + x) mod 2 ^ 64) 7 b.
Definition space : Z := 1000000.

(** The hash "h", its field "f" and a value for the value log. *)
Definition nm : bytes := [104].
Definition fld : bytes := [102].
Definition hset : cmd := CHSet nm fld long.
Definition push : cmd := CRPush nm [fld; long].

Definition a1 := exec (serve cipher hash (world 6) hset) e0.
Definition a2 := exec (serve cipher hash (world 6) push) a1.
Definition a3 := exec (rotation (world 7)) a2.
Definition a4 := exec (flushTurn (world 7)) a3.
Definition a5 := exec (engineCompact size copts (world 8)) a4.
Definition held : Data := effect (effect no_data hset) push.

Lemma text_small v : Forall (fun x => 0 <= x < 256) v -> (length v < 100)%nat -> text_ok v.
Proof. intros H1 H2. split; [done|]. lia. Qed.

Ltac small := apply text_small; [repeat constructor; lia|cbn; lia].

Lemma nm_ok : name_ok nm.
Proof. split; [small|]. unfold nulFree, nm. set_solver. Qed.

Lemma hset_ok : cmd_ok no_data hset.
Proof. split; [apply nm_ok|]. split; [small|]. split; [small|done]. Qed.

Lemma push_ok d : cmd_ok d push.
Proof. split; [apply nm_ok|]. split; [|done]. repeat (apply Forall_cons_2; [split; [small|done]|]). constructor. Qed.

Lemma world_fine now : 5 <= now -> world_ok 5 (world now).
Proof. intros H. split; [done|]. split; [cbn; lia|apply world_iv]. Qed.

Notation at_work := (serving cipher hash size copts oopts oworld).

Lemma open_serving : at_work e0 no_data space 5.
Proof. apply serving_open; [vm_compute; reflexivity|apply roomb_spec; vm_compute; reflexivity|unfold space; lia|lia]. Qed.

Lemma hset_serving : at_work a1 (effect no_data hset) (space - cmdCost hset) 5.
Proof.
  eapply (serving_command _ _ _ _ _ _ e0 no_data _ _ (world 6) hset (RInt 1)); [apply open_serving|by apply world_fine|apply hset_ok|by vm_compute| |].
  - vm_compute. reflexivity.
  - left. split; [|done]. vm_compute. reflexivity.
Qed.

Lemma push_serving : at_work a2 held (space - cmdCost hset - cmdCost push) 5.
Proof.
  eapply (serving_command _ _ _ _ _ _ a1 _ _ _ (world 6) push (RInt 2)); [apply hset_serving|by apply world_fine|apply push_ok|by vm_compute| |].
  - vm_compute. reflexivity.
  - left. split; [|done]. vm_compute. reflexivity.
Qed.

Lemma compacted_serving : at_work a5 held (space - cmdCost hset - cmdCost push - 64) 8.
Proof.
  eapply serving_background; [eapply serving_background; [eapply serving_background; [apply push_serving|]|]|].
  - apply (bg_rotate _ _ a2 _ _ (world 7) a3); [by vm_compute|apply world_iv|by vm_compute|by vm_compute|vm_compute; reflexivity].
  - apply (bg_flush _ _ a3 _ _ (world 7) a4); vm_compute; reflexivity.
  - apply (bg_compact _ _ a4 _ _ (world 8) a5); [by cbn|apply between_empty_clear; vm_compute; reflexivity|vm_compute; reflexivity..].
Qed.
End CollWitness.


(** ** Where collections go wrong *)

Module CollFlaws.
Import EngineWitness.

#[local] Instance store : Store Engine := engineStore cipher CollWitness.hash.

(** "l", "a", "b" and "c" *)
Definition l : bytes := [108].
Definition va : bytes := [97].
Definition vb : bytes := [98].
Definition vc : bytes := [99].

Definition answerAt {A} (m : eng A) (e : Engine) : option A := fst <$> m e.

(** RPUSH l a; EXPIRE l 10; RPUSH l b, all at time 6. *)
Definition pushed : Engine := exec (RPush (world 6) l [va]) e0.
Definition expiring : Engine := exec (ExpireKey (world 6) l 10) pushed.
Definition again : Engine := exec (RPush (world 6) l [vb]) expiring.

(** An expiry time does not stay with a collection.  After RPUSH l a,
    EXPIRE l 10 and RPUSH l b the list is supposed to expire; ten seconds
    later it is still there, in part: LLEN says 2, LRANGE has the one element
    that was pushed later, and LPOP finds nothing, now and whenever it is
    repeated, since it leaves the list as it was. *)
Theorem expired_list_lingers :
  answerAt (ExpireKey (world 6) l 10) pushed = Some (true, None) /\
  answerAt (LLen 17 l) again = Some 2 /\
  answerAt (LRange 17 l 0 (-1)) again = Some [vb] /\
  answerAt (LPop (world 17) l) again = Some (Fail ErrKeyNotFound) /\
  answerAt (LPop (world 18) l) (exec (LPop (world 17) l) again) = Some (Fail ErrKeyNotFound).
Proof. vm_compute. auto 6. Qed.

(** SADD l a; HSET with a NUL in the name or in the field; a bit at offset 0. *)
Definition members : Engine := exec (SAdd (world 6) l [va]) e0.
Definition clash : Engine := exec (HSet (world 6) va (vb ++ [0] ++ vc) va) e0.
Definition oneBit : Engine := exec (SetBit (world 6) l 0 1) e0.

(** Four answers that are wrong.  SREM counts a member that is given twice
    twice, though the set had it once.  The field "b NUL c" of the hash "a" is
    the field "c" of the hash "a NUL b": HGET finds it there, and HLEN counts
    it in both.  BITCOUNT over the bytes from 0 to the largest 64-bit number
    is 0 although a bit is set, since the end of the range in bits overflows. *)
Theorem collection_answers_wrong :
  answerAt (SRem (world 7) l [va; va]) members = Some (Ok 2) /\
  answerAt (HGet 7 (va ++ [0] ++ vb) vc) clash = Some (Ok va) /\
  answerAt (HLen 7 va) clash = Some 1 /\ answerAt (HLen 7 (va ++ [0] ++ vb)) clash = Some 1 /\
  answerAt (BitCount 7 l) oneBit = Some 1 /\ answerAt (BitCountRange 7 l 0 (2 ^ 63 - 1) false) oneBit = Some 0.
Proof. vm_compute. auto 7. Qed.
End CollFlaws.
