(* ===== verification/Resp.v ===== *)
(** * The wire protocol ([server/conn.go])

    RESP: a request is an array of bulk strings or a line of words, a reply a
    simple string, an error, an integer, a bulk string, null or an array.
    [parseRESP] reads requests from the bytes that are there; the writers
    produce replies. *)
From Stdlib Require Import String Ascii.
From S2P Require Import Prelude Strconv.

(** A string constant of the source. *)
Definition str (s : string) : bytes := (fun c => Z.of_N (N_of_ascii c)) <$> list_ascii_of_string s.
Arguments str s%_string_scope.

Definition crlf : bytes := [13; 10].

(** ** Go's string functions *)

(** [r.ReadString('\n')]: the line with its end, and what follows. *)
Fixpoint readString (r : bytes) : option (bytes * bytes) :=
  match r with
  | [] => None
  | c :: r => if c =? 10 then Some ([c], r) else (fun lr => (c :: lr.1, lr.2)) <$> readString r
  end.

Fixpoint dropWhile (f : Z -> bool) (l : bytes) : bytes :=
  match l with [] => [] | c :: l' => if f c then dropWhile f l' else l end.

(** [strings.TrimRight(line, "\r\n")] *)
Definition trimRight (l : bytes) : bytes := rev (dropWhile (fun c => (c =? 13) || (c =? 10)) (rev l)).

(** [utf8.DecodeRuneInString]: a rune and its width; a byte that starts no
    well-formed sequence is U+FFFD of width 1. *)
Definition contByte (lo hi : Z) (o : option Z) : option Z :=
  match o with Some b => if (lo <=? b) && (b <=? hi) then Some (Z.land b 63) else None | None => None end.

Definition decodeRune (s : bytes) : Z * nat :=
  let bad := (65533, 1%nat) in
  match s with
  | [] => (65533, 0%nat)
  | b0 :: _ =>
      let at1 lo hi := contByte lo hi (s !! 1%nat) in
      let at2 := contByte 128 191 (s !! 2%nat) in
      let at3 := contByte 128 191 (s !! 3%nat) in
      if b0 <? 128 then (b0, 1%nat)
      else if b0 <? 194 then bad
      else if b0 <? 224 then
        match at1 128 191 with Some x => (Z.land b0 31 * 64 + x, 2%nat) | None => bad end
      else if b0 <? 240 then
        match at1 (if b0 =? 224 then 160 else 128) (if b0 =? 237 then 159 else 191), at2 with
        | Some x, Some y => (Z.land b0 15 * 4096 + x * 64 + y, 3%nat)
        | _, _ => bad
        end
      else if b0 <? 245 then
        match at1 (if b0 =? 240 then 144 else 128) (if b0 =? 244 then 143 else 191), at2, at3 with
        | Some x, Some y, Some z => (Z.land b0 7 * 262144 + x * 4096 + y * 64 + z, 4%nat)
        | _, _, _ => bad
        end
      else bad
  end.

(** [unicode.IsSpace] *)
Definition isSpace (r : Z) : bool :=
  ((9 <=? r) && (r <=? 13)) || (r =? 32) || (r =? 133) || (r =? 160) || (r =? 5760) || ((8192 <=? r) && (r <=? 8202)) ||
  (r =? 8232) || (r =? 8233) || (r =? 8239) || (r =? 8287) || (r =? 12288).

(** [strings.Fields]; [word] is the word under way. *)
Fixpoint fieldsLoop (fuel : nat) (s word : bytes) : list bytes :=
  let close rest := match word with [] => rest | _ => word :: rest end in
  match fuel with
  | O => close []
  | S f =>
      match s with
      | [] => close []
      | _ =>
          let '(r, n) := decodeRune s in
          if isSpace r then close (fieldsLoop f (drop n s) []) else fieldsLoop f (drop n s) (word ++ take n s)
      end
  end.
Definition Fields (s : bytes) : list bytes := fieldsLoop (length s) s [].

(** ** Requests *)

Definition maxPayloadSize : Z := 64 * 1024 * 1024.
Definition maxArrayLength : Z := 64 * 1024.

(** A request with the input left over, the end of the input (an error for
    which [errors.Is(err, io.EOF)]), or another error. *)
Inductive parsed := PArgs (args : list bytes) (rest : bytes) | PEof | PErr (msg : bytes).

(** One bulk string of a request; [inr] is how parsing ends. *)
Definition parseBulk (r : bytes) : (bytes * bytes) + parsed :=
  match readString r with
  | None => inr PEof
  | Some (lenLine, r) =>
      let lenLine := trimRight lenLine in
      match lenLine with
      | 36 :: digits =>
          match ParseInt digits with
          | None => inr (PErr (str "ERR protocol error: invalid bulk string length '" ++ digits ++ str "'"))
          | Some strLen =>
              if strLen <? -1 then inr (PErr (str "ERR protocol error: invalid bulk string length '" ++ digits ++ str "'"))
              else if strLen =? -1 then inl ([], r)
              else if maxPayloadSize <? strLen then
                inr (PErr (str "ERR bulk string length " ++ FormatInt strLen ++ str " exceeds max allowed " ++ FormatInt maxPayloadSize))
              else
                let n := Z.to_nat strLen in
                if (length r =? 0)%nat then inr PEof
                else if (length r <? n + 2)%nat then inr (PErr (str "ERR failed reading bulk string: unexpected EOF"))
                else if negb (bool_decide (slice r n (n + 2) = crlf)) then inr (PErr (str "ERR protocol error: missing CRLF terminator"))
                else inl (take n r, drop (n + 2) r)
          end
      | _ => inr (PErr (str "ERR protocol error: expected '$', got '" ++ lenLine ++ str "'"))
      end
  end.

Fixpoint parseBulks (count : nat) (r : bytes) (args : list bytes) : parsed :=
  match count with
  | O => PArgs args r
  | S c =>
      match parseBulk r with
      | inr stop => stop
      | inl (arg, r) => parseBulks c r (args ++ [arg])
      end
  end.

Definition parseRESP (r : bytes) : parsed :=
  match readString r with
  | None => PEof
  | Some (line, r) =>
      let line := trimRight line in
      match line with
      | [] => PArgs [] r
      | 42 :: digits =>
          match ParseInt digits with
          | None => PErr (str "ERR protocol error: invalid array length '" ++ digits ++ str "'")
          | Some count =>
              if (count <? -1) || (maxArrayLength <? count) then PErr (str "ERR protocol error: invalid array length '" ++ digits ++ str "'")
              else if count =? -1 then PArgs [] r
              else parseBulks (Z.to_nat count) r []
          end
      | _ => PArgs (Fields line) r
      end
  end.

(** ** Replies *)

Definition writeSimpleString (msg : bytes) : bytes := str "+" ++ msg ++ crlf.
Definition writeError (msg : bytes) : bytes := str "-" ++ msg ++ crlf.
Definition writeInt (n : Z) : bytes := str ":" ++ FormatInt n ++ crlf.
Definition writeBulkString (val : bytes) : bytes := str "$" ++ FormatInt (Z.of_nat (length val)) ++ crlf ++ val ++ crlf.
Definition writeNull : bytes := str "$-1" ++ crlf.
Definition writeNullArray : bytes := str "*-1" ++ crlf.
Definition writeArrayHeader (n : nat) : bytes := str "*" ++ FormatInt (Z.of_nat n) ++ crlf.
