(* ===== verification/RespSpec.v ===== *)
(** * What the wire protocol guarantees

    A request that a client encodes is read back as it was sent, and whatever
    follows is left alone; replies can be told apart.  [resp] and [readReply]
    are the reference: the values a reply can stand for, and the way a client
    reads them. *)
From Stdlib Require Import String.
From S2P Require Import Prelude Strconv Resp.

(** ** Lines *)

Definition plain (l : bytes) : Prop := Forall (fun c => c <> 10 /\ c <> 13) l.

Lemma readString_line l r : plain l -> readString (l ++ crlf ++ r) = Some (l ++ crlf, r).
Proof.
  induction 1 as [|c l [Hc _] _ IH]; [done|]. cbn [app readString]. rewrite (proj2 (Z.eqb_neq _ _)) by done. by rewrite IH.
Qed.

Lemma trimRight_line l : plain l -> trimRight (l ++ crlf) = l.
Proof.
  intros Hl. unfold trimRight. rewrite rev_app_distr. cbn [rev crlf app dropWhile]. change (10 =? 13) with false. change (10 =? 10) with true. change (13 =? 13) with true. cbn [orb].
  assert (dropWhile (fun c => (c =? 13) || (c =? 10)) (rev l) = rev l) as ->; [|apply rev_involutive].
  assert (plain (rev l)) as Hr by (unfold plain; by rewrite <- Permutation_rev). destruct Hr as [|c l' [H1 H2] _]; [done|]. cbn [dropWhile].
  rewrite (proj2 (Z.eqb_neq _ _)) by done. by rewrite (proj2 (Z.eqb_neq _ _)) by done.
Qed.

Lemma formatLoop_digits fuel n acc : 0 <= n -> Forall (fun c => 48 <= c <= 57) acc -> Forall (fun c => 48 <= c <= 57) (formatLoop fuel n acc).
Proof.
  revert n acc. induction fuel as [|f IH]; intros n acc Hn Ha; [done|]. cbn [formatLoop]. destruct (Z.ltb_spec n 10).
  - constructor; [unfold chZero; lia|done].
  - apply IH; [apply Z.div_pos; lia|]. constructor; [|done]. pose proof (Z.mod_pos_bound n 10 ltac:(lia)). unfold chZero. lia.
Qed.

Lemma FormatInt_plain_line n : plain (FormatInt n).
Proof.
  unfold FormatInt, FormatUint, plain. destruct (Z.ltb_spec n 0).
  - constructor; [done|]. eapply Forall_impl; [apply formatLoop_digits; [lia|constructor]|]. cbn. lia.
  - eapply Forall_impl; [apply formatLoop_digits; [lia|constructor]|]. cbn. lia.
Qed.

(** ** Requests *)

Definition encodeRequest (args : list bytes) : bytes := writeArrayHeader (length args) ++ concat (writeBulkString <$> args).

Definition arg_ok (a : bytes) : Prop := Z.of_nat (length a) <= maxPayloadSize.

Lemma parseBulk_bulk a r : arg_ok a -> parseBulk (writeBulkString a ++ r) = inl (a, r).
Proof.
  unfold arg_ok. intros Ha. unfold parseBulk, writeBulkString. set (n := Z.of_nat (length a)) in *.
  replace ((str "$" ++ FormatInt n ++ crlf ++ a ++ crlf) ++ r) with ((36 :: FormatInt n) ++ crlf ++ (a ++ crlf ++ r)) by (change (str "$") with [36]; by rewrite <- !app_assoc).
  assert (plain (36 :: FormatInt n)) as Hp by (constructor; [done|apply FormatInt_plain_line]).
  rewrite readString_line, trimRight_line by done. assert (is_i64 n) as Hi by (unfold is_i64, maxPayloadSize in *; lia).
  rewrite ParseInt_FormatInt by done. rewrite (proj2 (Z.ltb_ge _ _)) by lia. rewrite (proj2 (Z.eqb_neq _ _)) by lia. rewrite (proj2 (Z.ltb_ge _ _)) by lia.
  replace (Z.to_nat n) with (length a) by lia. rewrite length_app. cbn [crlf app length].
  replace (_ =? 0)%nat with false by (symmetry; apply Nat.eqb_neq; lia). replace (_ <? _)%nat with false by (symmetry; apply Nat.ltb_ge; lia).
  assert (slice (a ++ 13 :: 10 :: r) (length a) (length a + 2) = crlf) as ->.
  { unfold slice. rewrite drop_app_length. by replace (length a + 2 - length a)%nat with 2%nat by lia. }
  rewrite bool_decide_eq_true_2 by done. cbn [negb]. rewrite take_app_length. do 2 f_equal. rewrite <- drop_drop, drop_app_length. done.
Qed.

Lemma parseBulks_all args r acc : Forall arg_ok args -> parseBulks (length args) (concat (writeBulkString <$> args) ++ r) acc = PArgs (acc ++ args) r.
Proof.
  intros H. revert acc. induction H as [|a args Ha _ IH]; intros acc; [cbn; by rewrite app_nil_r|].
  cbn [length parseBulks fmap list_fmap concat]. rewrite <- app_assoc, parseBulk_bulk by done. rewrite IH, <- app_assoc. done.
Qed.

Lemma parseRESP_encode args rest : Z.of_nat (length args) <= maxArrayLength -> Forall arg_ok args ->
  parseRESP (encodeRequest args ++ rest) = PArgs args rest.
Proof.
  intros Hn Ha. unfold parseRESP, encodeRequest, writeArrayHeader. set (n := Z.of_nat (length args)) in *.
  replace (((str "*" ++ FormatInt n ++ crlf) ++ concat (writeBulkString <$> args)) ++ rest) with
    ((42 :: FormatInt n) ++ crlf ++ (concat (writeBulkString <$> args) ++ rest)) by (change (str "*") with [42]; by rewrite <- !app_assoc).
  assert (plain (42 :: FormatInt n)) as Hp by (constructor; [done|apply FormatInt_plain_line]).
  rewrite readString_line, trimRight_line by done. assert (is_i64 n) as Hi by (unfold is_i64, maxArrayLength in *; lia).
  rewrite ParseInt_FormatInt by done. rewrite (proj2 (Z.ltb_ge _ _)) by lia. rewrite (proj2 (Z.ltb_ge _ _)) by lia. cbn [orb].
  rewrite (proj2 (Z.eqb_neq _ _)) by lia. replace (Z.to_nat n) with (length args) by lia. by rewrite parseBulks_all.
Qed.

(** C37. What a client sends is what the server reads: a request of up to 65536
    arguments of up to 64 MiB each, of any bytes, encoded as an array of bulk
    strings, is parsed to exactly these arguments, and the bytes behind it,
    the next request of a pipeline, are left in the buffer. *)
Theorem parseRESP_request args rest : Z.of_nat (length args) <= maxArrayLength -> Forall arg_ok args ->
  parseRESP (encodeRequest args ++ rest) = PArgs args rest.
Proof. apply parseRESP_encode. Qed.

Lemma parseRESP_request_witness : parseRESP (encodeRequest [[71; 69; 84]; [10; 13; 0]] ++ [80]) = PArgs [[71; 69; 84]; [10; 13; 0]] [80].
Proof. apply (parseRESP_request [[71; 69; 84]; [10; 13; 0]] [80]); [vm_compute; discriminate|]. repeat (constructor; [vm_compute; discriminate|]). constructor. Defined.

(** Parsing consumes input, so a connection makes progress. *)
Lemma readString_shorter r l r' : readString r = Some (l, r') -> (length r' < length r)%nat.
Proof.
  revert l r'. induction r as [|c r IH]; intros l r'; [done|]. cbn [readString length]. destruct (c =? 10); [intros [= _ <-]; lia|].
  destruct (readString r) as [[l1 r1]|]; [|done]. intros [= _ <-]. specialize (IH l1 r1 eq_refl). lia.
Qed.

Lemma parseBulk_shorter r a r' : parseBulk r = inl (a, r') -> (length r' < length r)%nat.
Proof.
  unfold parseBulk. destruct (readString r) as [[l r1]|] eqn:E; [|done]. apply readString_shorter in E. cbv zeta. destruct (trimRight l) as [|c ds]; [done|].
  repeat (case_match; try done); intros [= <- <-]; rewrite ?length_drop; lia.
Qed.

Lemma parseBulks_shorter n r acc args r' : parseBulks n r acc = PArgs args r' -> (length r' <= length r)%nat /\ length args = (length acc + n)%nat.
Proof.
  revert r acc. induction n as [|n IH]; intros r acc; cbn [parseBulks]; [intros [= -> ->]; lia|]. destruct (parseBulk r) as [[a r1]|stop] eqn:E; [|].
  - intros [H1 H2]%IH. apply parseBulk_shorter in E. rewrite length_app in H2. cbn in H2. lia.
  - intros ->. exfalso. unfold parseBulk in E. repeat (case_match; try done).
Qed.

(** ** Replies *)

Inductive resp :=
  | VSimple (msg : bytes)
  | VError (msg : bytes)
  | VInt (n : Z)
  | VBulk (val : bytes)
  | VNull
  | VNullArray
  | VArray (vs : list resp).

Fixpoint encodeResp (v : resp) : bytes :=
  match v with
  | VSimple msg => writeSimpleString msg
  | VError msg => writeError msg
  | VInt n => writeInt n
  | VBulk val => writeBulkString val
  | VNull => writeNull
  | VNullArray => writeNullArray
  | VArray vs => writeArrayHeader (length vs) ++ concat (encodeResp <$> vs)
  end.

(** Messages have no line ends, numbers are int64, lengths too. *)
Fixpoint resp_ok (v : resp) : Prop :=
  match v with
  | VSimple msg | VError msg => plain msg
  | VInt n => is_i64 n
  | VBulk val => Z.of_nat (length val) < 2 ^ 63
  | VNull | VNullArray => True
  | VArray vs => Z.of_nat (length vs) < 2 ^ 63 /\ (fix all vs := match vs with [] => True | v :: vs => resp_ok v /\ all vs end) vs
  end.

Fixpoint depth (v : resp) : nat :=
  match v with VArray vs => S (foldr (fun v d => Nat.max (depth v) d) 0%nat vs) | _ => 1%nat end.

(** How a client reads a reply. *)
Definition readLine (r : bytes) : option (bytes * bytes) :=
  match readString r with
  | Some (l, r') =>
      let n := (length l - 2)%nat in
      if bool_decide (drop n l = crlf) then Some (take n l, r') else None
  | None => None
  end.

Definition readBulk (n : Z) (r : bytes) : option (resp * bytes) :=
  if n =? -1 then Some (VNull, r)
  else if n <? 0 then None
  else
    let k := Z.to_nat n in
    if bool_decide (slice r k (k + 2) = crlf) then Some (VBulk (take k r), drop (k + 2) r) else None.

Fixpoint readMany (rd : bytes -> option (resp * bytes)) (n : nat) (r : bytes) : option (list resp * bytes) :=
  match n with
  | O => Some ([], r)
  | S n => match rd r with
           | Some (v, r) => (fun vr => (v :: vr.1, vr.2)) <$> readMany rd n r
           | None => None
           end
  end.

Fixpoint readReply (fuel : nat) (r : bytes) : option (resp * bytes) :=
  match fuel with
  | O => None
  | S f =>
      match readLine r with
      | Some (c :: body, r) =>
          if c =? 43 then Some (VSimple body, r)
          else if c =? 45 then Some (VError body, r)
          else if c =? 58 then (fun n => (VInt n, r)) <$> ParseInt body
          else if c =? 36 then match ParseInt body with Some n => readBulk n r | None => None end
          else if c =? 42 then
            match ParseInt body with
            | Some n =>
                if n =? -1 then Some (VNullArray, r)
                else if n <? 0 then None
                else (fun vr => (VArray vr.1, vr.2)) <$> readMany (readReply f) (Z.to_nat n) r
            | None => None
            end
          else None
      | _ => None
      end
  end.

Lemma readLine_line l r : plain l -> readLine (l ++ crlf ++ r) = Some (l, r).
Proof.
  intros Hl. unfold readLine. rewrite readString_line by done. rewrite length_app. replace (length l + length crlf - 2)%nat with (length l) by (cbn; lia).
  rewrite drop_app_length, take_app_length. by rewrite bool_decide_eq_true_2.
Qed.

Lemma readReply_head f (c : Z) (body rest : bytes) : plain (c :: body) ->
  readReply (S f) (([c] ++ body ++ crlf) ++ rest) =
    if c =? 43 then Some (VSimple body, rest)
    else if c =? 45 then Some (VError body, rest)
    else if c =? 58 then (fun n => (VInt n, rest)) <$> ParseInt body
    else if c =? 36 then match ParseInt body with Some n => readBulk n rest | None => None end
    else if c =? 42 then
      match ParseInt body with
      | Some n => if n =? -1 then Some (VNullArray, rest) else if n <? 0 then None
                  else (fun vr => (VArray vr.1, vr.2)) <$> readMany (readReply f) (Z.to_nat n) rest
      | None => None
      end
    else None.
Proof.
  intros Hp. cbn [readReply]. replace (([c] ++ body ++ crlf) ++ rest) with ((c :: body) ++ crlf ++ rest) by (cbn; by rewrite <- app_assoc).
  by rewrite readLine_line.
Qed.

Lemma plain_number c n : c <> 10 -> c <> 13 -> plain (c :: FormatInt n).
Proof. intros H1 H2. constructor; [done|apply FormatInt_plain_line]. Qed.

Lemma readBulk_bulk a r : readBulk (Z.of_nat (length a)) (a ++ crlf ++ r) = Some (VBulk a, r).
Proof.
  unfold readBulk. rewrite (proj2 (Z.eqb_neq _ _)) by lia. rewrite (proj2 (Z.ltb_ge _ _)) by lia. rewrite Nat2Z.id.
  assert (slice (a ++ crlf ++ r) (length a) (length a + 2) = crlf) as ->.
  { unfold slice. rewrite drop_app_length. by replace (length a + 2 - length a)%nat with 2%nat by lia. }
  rewrite bool_decide_eq_true_2 by done. rewrite take_app_length, <- drop_drop, drop_app_length. done.
Qed.

Fixpoint all_ok (vs : list resp) : Prop := match vs with [] => True | v :: vs => resp_ok v /\ all_ok vs end.

Lemma all_ok_Forall vs : all_ok vs <-> Forall resp_ok vs.
Proof. induction vs as [|v vs IH]; cbn; [split; [constructor|done]|]. rewrite IH. split; [intros []; by constructor|by intros [? ?]%Forall_cons]. Qed.

(** Replies are read back, one at a time. *)
Lemma readReply_encode fuel v r : resp_ok v -> (depth v <= fuel)%nat -> readReply fuel (encodeResp v ++ r) = Some (v, r).
Proof.
  revert v r. induction fuel as [|f IH]; intros v r Hok Hd; [destruct v; cbn in Hd; lia|].
  assert (forall vs r, all_ok vs -> (foldr (fun v d => Nat.max (depth v) d) 0 vs <= f)%nat ->
    readMany (readReply f) (length vs) (concat (encodeResp <$> vs) ++ r) = Some (vs, r)) as Hmany.
  { induction vs as [|v' vs IHv]; intros r' Hvs Hdv; [done|]. destruct Hvs as [Hv Hvs]. cbn [foldr] in Hdv. cbn [length readMany fmap list_fmap concat].
    rewrite <- app_assoc, IH by (done || lia). rewrite IHv by (done || lia). done. }
  destruct v as [msg|msg|n|val| | |vs]; cbn [encodeResp resp_ok] in *.
  - unfold writeSimpleString. change (str "+") with [43]. rewrite readReply_head by (constructor; done). done.
  - unfold writeError. change (str "-") with [45]. rewrite readReply_head by (constructor; done). done.
  - unfold writeInt. change (str ":") with [58]. rewrite readReply_head by (by apply plain_number). cbn [Z.eqb Pos.eqb]. by rewrite ParseInt_FormatInt.
  - unfold writeBulkString. change (str "$") with [36]. set (n := Z.of_nat (length val)) in *.
    replace (([36] ++ FormatInt n ++ crlf ++ val ++ crlf) ++ r) with (([36] ++ FormatInt n ++ crlf) ++ (val ++ crlf ++ r)) by (by rewrite <- !app_assoc).
    rewrite readReply_head by (by apply plain_number). cbn [Z.eqb Pos.eqb]. rewrite ParseInt_FormatInt by (unfold is_i64; lia). apply readBulk_bulk.
  - change writeNull with ([36] ++ FormatInt (-1) ++ crlf). rewrite readReply_head by (by apply plain_number). done.
  - change writeNullArray with ([42] ++ FormatInt (-1) ++ crlf). rewrite readReply_head by (by apply plain_number). done.
  - destruct Hok as [Hlen Hvs]. unfold writeArrayHeader. change (str "*") with [42]. rewrite <- (app_assoc ([42] ++ _)), readReply_head by (by apply plain_number).
    cbn [Z.eqb Pos.eqb]. rewrite ParseInt_FormatInt by (unfold is_i64; lia). rewrite (proj2 (Z.eqb_neq _ _)) by lia. rewrite (proj2 (Z.ltb_ge _ _)) by lia.
    rewrite Nat2Z.id, Hmany; [done|exact Hvs|]. cbn in Hd. lia.
Qed.

(** A reply is not empty and determines where it ends. *)
Lemma encodeResp_inj v v' r r' : resp_ok v -> resp_ok v' -> encodeResp v ++ r = encodeResp v' ++ r' -> v = v' /\ r = r'.
Proof.
  intros H H' E. pose proof (readReply_encode (Nat.max (depth v) (depth v')) v r H (Nat.le_max_l _ _)) as R.
  rewrite E, (readReply_encode _ v' r' H' (Nat.le_max_r _ _)) in R. by injection R as -> ->.
Qed.
