(* ===== verification/Server.v ===== *)
(** * The command server: connections and commands
    ([server/server.go], [commands.go], [commands_kv.go], [commands_collections.go])

    A connection has the database, the state of the client and the bytes
    written so far.  Handlers are operations on it; they answer by writing.
    Cluster mode is a pair of operations that stand for the Raft node.
    [strconv.ParseFloat] and [FormatFloat], the case mapping of letters beyond
    ASCII and the text of an I/O error are parameters. *)
From Stdlib Require Import String Ascii.
From S2P Require Import Prelude Mvcc Strconv Encoding Engine Scan Store Collections Bitmaps CollSpec Resp.

(** ** The database as the server sees it *)

(** What [Store] does not have. *)
Class DB (S : Type) := {
  db_Delete : World -> bytes -> st S (result bool);
  db_GetDel : World -> bytes -> st S (result bytes);
  db_TTL : Z -> bytes -> st S Z;
  db_ScanAllKeys : Z -> bytes -> st S (list bytes);
  db_ScanPage : Z -> bytes -> bytes -> Z -> st S (option (list bytes * bytes));
  db_IncrBy : World -> bytes -> Z -> st S (result Z);
  db_MGet : Z -> list bytes -> st S (list bytes * list bool);
  db_GetByVersion : Z -> bytes -> Z -> st S (result bytes);
  db_BeginTx : st S Z;
  db_CommitTx : Z -> gset bytes -> gset bytes -> st S (result Z);
  db_RollbackTx : Z -> st S unit;
  db_BatchApplyWithVersion : World -> list BatchWriteEntry -> Z -> st S (option err);
  db_AbortCommit : Z -> st S unit;
}.

(** Operations of the engine that return a nil error. *)
Definition okay {S A} (m : st S A) : st S (result A) := a ← m; mret (Ok a).

(** [MSet]: one batch, in whatever order the map yields its entries. *)
Definition MSet {S} `{Store S} (w : World) (kvs : gmap bytes bytes) : st S (option err) :=
  match (fun kv => put kv.1 kv.2) <$> map_to_list kvs with
  | [] => mret None
  | entries => db_submitBatch w entries
  end.

(** ** Clients *)

Record txWriteEntry := mkTxWrite { tw_value : bytes; tw_expiresAt : Z; tw_deleted : bool }.

Record client := mkClient {
  cl_inTx : bool;
  cl_txQueue : list (bytes * list bytes);
  cl_txReadTs : Z;
  cl_txWrites : option (gmap bytes txWriteEntry);
  cl_txReadSet : option (gset bytes);
  cl_txDeletes : list bytes;
  cl_txAbort : bool;
  cl_authed : bool;
  cl_execReadTs : Z;
}.

Definition newClient : client := mkClient false [] 0 None None [] false false 0.

Definition set_tx (cl : client) (inTx : bool) (queue : list (bytes * list bytes)) (readTs : Z) (writes : option (gmap bytes txWriteEntry))
    (readSet : option (gset bytes)) (deletes : list bytes) (abort : bool) : client :=
  mkClient inTx queue readTs writes readSet deletes abort (cl_authed cl) (cl_execReadTs cl).
Definition set_writes (cl : client) (writes : option (gmap bytes txWriteEntry)) : client :=
  set_tx cl (cl_inTx cl) (cl_txQueue cl) (cl_txReadTs cl) writes (cl_txReadSet cl) (cl_txDeletes cl) (cl_txAbort cl).
Definition set_readSet (cl : client) (rs : option (gset bytes)) : client :=
  set_tx cl (cl_inTx cl) (cl_txQueue cl) (cl_txReadTs cl) (cl_txWrites cl) rs (cl_txDeletes cl) (cl_txAbort cl).
Definition set_deletes (cl : client) (ds : list bytes) : client :=
  set_tx cl (cl_inTx cl) (cl_txQueue cl) (cl_txReadTs cl) (cl_txWrites cl) (cl_txReadSet cl) ds (cl_txAbort cl).
Definition set_queue (cl : client) (q : list (bytes * list bytes)) : client :=
  set_tx cl (cl_inTx cl) q (cl_txReadTs cl) (cl_txWrites cl) (cl_txReadSet cl) (cl_txDeletes cl) (cl_txAbort cl).
Definition set_abort (cl : client) (b : bool) : client :=
  set_tx cl (cl_inTx cl) (cl_txQueue cl) (cl_txReadTs cl) (cl_txWrites cl) (cl_txReadSet cl) (cl_txDeletes cl) b.
Definition set_authed (cl : client) (b : bool) : client :=
  mkClient (cl_inTx cl) (cl_txQueue cl) (cl_txReadTs cl) (cl_txWrites cl) (cl_txReadSet cl) (cl_txDeletes cl) (cl_txAbort cl) b (cl_execReadTs cl).
Definition set_execReadTs (cl : client) (ts : Z) : client :=
  mkClient (cl_inTx cl) (cl_txQueue cl) (cl_txReadTs cl) (cl_txWrites cl) (cl_txReadSet cl) (cl_txDeletes cl) (cl_txAbort cl) (cl_authed cl) ts.

Record Conn (S : Type) := mkConn { cn_db : S; cn_cl : client; cn_out : bytes }.
Arguments mkConn {S} _ _ _.
Arguments cn_db {S} _.
Arguments cn_cl {S} _.
Arguments cn_out {S} _.

(** ** Cluster mode *)

(** The dynamic types a replicated command may return. *)
Inductive replResult := RpNil | RpInt64 (n : Z) | RpInt (n : Z) | RpBool (b : bool) | RpStr (s : bytes) | RpErr (msg : bytes).

(** [ApplyCommand] and [ApplyWriteVersion]; errors by their text. *)
Record ClusterNode (S : Type) := mkClusterNode {
  ApplyCommand : World -> bytes -> list bytes -> st S (replResult + bytes);
  ApplyWriteVersion : World -> list BatchWriteEntry -> Z -> st S (option bytes);
}.
Arguments ApplyCommand {S} _ _ _ _.
Arguments ApplyWriteVersion {S} _ _ _ _.

Definition replCount (res : replResult) : Z := match res with RpInt64 n | RpInt n => n | _ => 0 end.

(** [Engine.Stats]. *)
Record Stats := mkStats { PutsTotal : Z; GetsTotal : Z; DeletesTotal : Z; FlushesTotal : Z; CompactionsDone : Z }.

(** What [INFO] and [PUBLISH] read besides the database: the counters, and the
    answer of the hub ([PubSub]). *)
Record Outside := mkOutside {
  os_startTime : Z;
  os_totalConns : World -> Z;
  os_stats : World -> Stats;
  os_receivers : World -> bytes -> bytes -> Z;
}.

Record Server (S : Type) := mkServer { sv_password : bytes; sv_cluster : option (ClusterNode S); sv_outside : Outside }.
Arguments mkServer {S} _ _ _.
Arguments sv_password {S} _.
Arguments sv_cluster {S} _.
Arguments sv_outside {S} _.

(** ** Texts *)

Definition isAscii (s : bytes) : bool := forallb (fun c => c <? 128) s.
Definition upperByte (c : Z) : Z := if (97 <=? c) && (c <=? 122) then c - 32 else c.
Definition lowerByte (c : Z) : Z := if (65 <=? c) && (c <=? 90) then c + 32 else c.

Definition wrongArgs (name : string) : bytes := str "ERR wrong number of arguments for '" ++ str name ++ str "' command".
Definition notInteger : bytes := str "ERR value is not an integer or out of range".
Definition syntaxError : bytes := str "ERR syntax error".
Definition notFloat : bytes := str "ERR score is not a valid float".
Definition badOffset : bytes := str "ERR bit offset is not an integer or out of range".
Definition badBit : bytes := str "ERR bit must be 0 or 1".

(** The error of [hex.DecodeString]: the first byte that is no digit, with the
    [%#U] format, or else the odd length. *)
Definition printable (c : Z) : bool := ((32 <=? c) && (c <? 127)) || ((161 <=? c) && negb (c =? 173)).
Definition upperHex (d : Z) : Z := if d <? 10 then 48 + d else 55 + d.
Definition quoteRune (c : Z) : bytes :=
  str "U+00" ++ [upperHex (c / 16); upperHex (c mod 16)] ++
  (if printable c then str " '" ++ (if c <? 128 then [c] else [192 + c / 64; 128 + c mod 64]) ++ str "'" else []).
Definition hexError (s : bytes) : bytes :=
  match find (fun c => negb (bool_decide (is_Some (hexValue c)))) s with
  | Some c => str "encoding/hex: invalid byte: " ++ quoteRune c
  | None => str "encoding/hex: odd length hex string"
  end.

Definition posInf : Z := 0x7FF0000000000000.
Definition negInf : Z := 0xFFF0000000000000.

(** The parts of [strconv] and [strings] that depend on decimal conversion and
    on the Unicode tables, and the text of an I/O error. *)
Class GoText := {
  ParseFloat : bytes -> option Z;
  FormatFloat : Z -> bytes;
  upperOther : bytes -> bytes;
  ioText : bytes;
}.

Section server.
Context {S : Type} {HS : Store S} {HD : DB S} {HG : GoText}.

Definition ToUpper (s : bytes) : bytes := if isAscii s then upperByte <$> s else upperOther s.
Definition ToLower (s : bytes) : bytes := lowerByte <$> s.

Definition errText (e : err) : bytes :=
  match e with
  | ErrKeyNotFound => str "key not found"
  | ErrTxnClosed => str "transaction is closed"
  | ErrTxnReadOnly => str "cannot write in read-only transaction"
  | ErrTxnConflict => str "transaction conflict: key modified by concurrent transaction"
  | ErrDiskFull => str "OOM command not allowed when disk is full"
  | ErrNotInteger => str "ERR value is not an integer or out of range"
  | ErrNoRewrite => str "vlog: no segments eligible for GC"
  | ErrBitOffset => str "ERR bit offset is not an integer or out of range"
  | ErrVlog => ioText
  end.

(** ** Operations on a connection *)

Definition getCl : st (Conn S) client := fun c => Some (cn_cl c, c).
Definition putCl (cl : client) : st (Conn S) unit := fun c => Some (tt, mkConn (cn_db c) cl (cn_out c)).
Definition emit (b : bytes) : st (Conn S) unit := fun c => Some (tt, mkConn (cn_db c) (cn_cl c) (cn_out c ++ b)).
Definition ondb {A} (m : st S A) : st (Conn S) A := fun c =>
  match m (cn_db c) with Some (a, s) => Some (a, mkConn s (cn_cl c) (cn_out c)) | None => None end.

(** A handler returns whether the connection is to be closed ([io.EOF]). *)
Definition rSimple (msg : bytes) : st (Conn S) bool := _ ← emit (writeSimpleString msg); mret false.
Definition rError (msg : bytes) : st (Conn S) bool := _ ← emit (writeError msg); mret false.
Definition rInt (n : Z) : st (Conn S) bool := _ ← emit (writeInt (i64 n)); mret false.
Definition rBulk (val : bytes) : st (Conn S) bool := _ ← emit (writeBulkString val); mret false.
Definition rNull : st (Conn S) bool := _ ← emit writeNull; mret false.
Definition rNullArray : st (Conn S) bool := _ ← emit writeNullArray; mret false.
Definition rOK : st (Conn S) bool := rSimple (str "OK").
Definition rFlag (b : bool) : st (Conn S) bool := rInt (if b then 1 else 0).

(** A loop of writes. *)
Fixpoint emits (bs : list bytes) : st (Conn S) unit :=
  match bs with [] => mret tt | b :: bs => _ ← emit b; emits bs end.
Definition rArray (vals : list bytes) : st (Conn S) bool :=
  _ ← emit (writeArrayHeader (length vals)); _ ← emits (writeBulkString <$> vals); mret false.

(** The usual end of a handler. *)
Definition rInts (r : result Z) : st (Conn S) bool := match r with Fail err => rError (errText err) | Ok n => rInt n end.
Definition rOKs (r : option err) : st (Conn S) bool := match r with Some err => rError (errText err) | None => rOK end.
Definition rBulks (r : result bytes) : st (Conn S) bool := match r with Fail _ => rNull | Ok v => rBulk v end.
Definition rFlags (r : result bool) : st (Conn S) bool := match r with Fail err => rError (errText err) | Ok b => rFlag b end.
Definition rArrays (r : result (list bytes)) : st (Conn S) bool := match r with Fail err => rError (errText err) | Ok l => rArray l end.

Definition applyReplicated (srv : Server S) (w : World) (op : string) (args : list bytes) : st (Conn S) (option (replResult + bytes)) :=
  match sv_cluster srv with
  | None => mret None
  | Some node => r ← ondb (ApplyCommand node w (str op) args); mret (Some r)
  end.

(** [if res, handled, err := applyReplicated(op, args); handled] *)
Definition replicated (srv : Server S) (w : World) (op : string) (args : list bytes) (handled : replResult -> st (Conn S) bool) (else_ : st (Conn S) bool)
    : st (Conn S) bool :=
  r ← applyReplicated srv w op args;
  match r with
  | Some (inr msg) => rError msg
  | Some (inl res) => handled res
  | None => else_
  end.
End server.
