(* ===== verification/ServerKv.v ===== *)
(** * Commands on strings ([server/commands_kv.go])

    Each handler with its branches: argument errors, the transaction buffer
    while [EXEC] replays, cluster mode, the database. *)
From Stdlib Require Import String.
From S2P Require Import Prelude Mvcc Strconv Encoding Engine Scan Store Collections Bitmaps CollSpec Resp Server.

Section kv.
Context {S : Type} {HS : Store S} {HD : DB S} {HG : GoText}.
Implicit Types (srv : Server S) (w : World) (args : list bytes).

(** ** SET and SETEX *)

(** The loop over the options: [SkipWAL] and the expiry time, or the error. *)
Fixpoint setOptions (now : Z) (args : list bytes) (skipWAL : bool) (expiresAt : Z) : (bool * Z) + bytes :=
  match args with
  | [] => inl (skipWAL, expiresAt)
  | a :: args =>
      let u := ToUpper a in
      if bool_decide (u = str "SKIPWAL") then setOptions now args true expiresAt
      else if bool_decide (u = str "SYNC") then setOptions now args skipWAL expiresAt
      else if bool_decide (u ∈ [str "EX"; str "PX"; str "EXAT"; str "PXAT"]) then
        match args with
        | [] => inr syntaxError
        | v :: args =>
            match ParseInt v with
            | None => inr notInteger
            | Some n =>
                setOptions now args skipWAL
                  (if bool_decide (u = str "EX") then i64 (now + n)
                   else if bool_decide (u = str "PX") then i64 (now + Z.quot n 1000)
                   else if bool_decide (u = str "EXAT") then n
                   else Z.quot n 1000)
            end
        end
      else inr syntaxError
  end.

Definition txPut (cl : client) (m : gmap bytes txWriteEntry) (key : bytes) (tw : txWriteEntry) : client :=
  set_writes cl (Some (<[key := tw]> m)).

Definition cmdSet srv w args : st (Conn S) bool :=
  match args with
  | key :: val :: opts =>
      match setOptions (wd_now w) opts false 0 with
      | inr msg => rError msg
      | inl (skipWAL, expiresAt) =>
          cl ← getCl;
          match cl_txWrites cl with
          | Some m => _ ← putCl (txPut cl m (strKey key) (mkTxWrite val expiresAt false)); rOK
          | None =>
              replicated srv w "SET" args (fun _ => rOK)
                (r ← ondb (db_PutExAt w (strKey key) val expiresAt skipWAL); rOKs r)
          end
      end
  | _ => rError (wrongArgs "set")
  end.

Definition cmdSetEx srv w args : st (Conn S) bool :=
  match args with
  | key :: secs :: val :: _ =>
      match ParseInt secs with
      | None => rError notInteger
      | Some sec =>
          cl ← getCl;
          match cl_txWrites cl with
          | Some m =>
              let exp := if 0 <? sec then i64 (wd_now w + sec) else 0 in
              _ ← putCl (txPut cl m (strKey key) (mkTxWrite val exp false)); rOK
          | None => replicated srv w "SETEX" args (fun _ => rOK) (r ← ondb (db_PutEx w (strKey key) val sec); rOKs r)
          end
      end
  | _ => rError (wrongArgs "setex")
  end.

(** ** GET and GETDEL *)

(** [cl.txReadSet[key] = struct{}{}] unless the map is nil *)
Definition recordRead (key : bytes) : st (Conn S) unit :=
  cl ← getCl;
  match cl_txReadSet cl with
  | Some rs => putCl (set_readSet cl (Some ({[key]} ∪ rs)))
  | None => mret tt
  end.

(** The read of a handler: at the snapshot while [EXEC] replays. *)
Definition readKey w (key : bytes) : st (Conn S) (result bytes) :=
  cl ← getCl;
  if 0 <? cl_execReadTs cl then ondb (db_GetByVersion (wd_now w) key (cl_execReadTs cl)) else ondb (db_Get (wd_now w) key).

(** A key of the transaction buffer. *)
Definition buffered (cl : client) (key : bytes) : option txWriteEntry := m ← cl_txWrites cl; m !! key.
Definition rEntry (tw : txWriteEntry) : st (Conn S) bool := if tw_deleted tw then rNull else rBulk (tw_value tw).

Definition cmdGet srv w args : st (Conn S) bool :=
  match args with
  | k :: _ =>
      let key := strKey k in
      cl ← getCl;
      match buffered cl key with
      | Some tw => rEntry tw
      | None =>
          _ ← (if cl_inTx cl || (0 <? cl_execReadTs cl) then recordRead key else mret tt);
          r ← readKey w key; rBulks r
      end
  | [] => rError (wrongArgs "get")
  end.

Definition cmdGetDel srv w args : st (Conn S) bool :=
  match args with
  | k :: _ =>
      replicated srv w "GETDEL" args (fun res => match res with RpStr val => rBulk val | _ => rNull end)
        (r ← ondb (db_GetDel w (strKey k)); rBulks r)
  | [] => rError (wrongArgs "getdel")
  end.

(** ** DEL *)

Definition positive (r : result Z) : bool := match r with Ok n => 0 <? n | Fail _ => false end.

(** Each check runs only when the ones before it failed. *)
Fixpoint anyOf (checks : list (st S bool)) : st S bool :=
  match checks with
  | [] => mret false
  | c :: checks => b ← c; if b : bool then mret true else anyOf checks
  end.

Definition keyExistsInDB (now : Z) (key : bytes) : st S bool :=
  anyOf [ (r ← db_Get now (strKey key); mret (isOk r));
          (r ← okay (HLen now key); mret (positive r));
          (r ← okay (SCard now key); mret (positive r));
          (r ← okay (LLen now key); mret (positive r));
          (r ← okay (BitCount now key); mret (positive r));
          (r ← okay (ZRangeByScore key negInf posInf); mret (match r with Ok ms => (0 <? length ms)%nat | Fail _ => false end)) ].

Definition deleteKeyInDB w (key : bytes) : st S bool :=
  ok ← db_Delete w (strKey key);
  r ← DeleteCollection w key;
  mret (match ok with Ok true => true | _ => false end || (bool_decide ((r : Z * option err).2 = None) && (0 <? r.1))).

Fixpoint deleteKeys w (keys : list bytes) (deleted : Z) : st S Z :=
  match keys with
  | [] => mret deleted
  | k :: keys => b ← deleteKeyInDB w k; deleteKeys w keys (if b : bool then deleted + 1 else deleted)
  end.

(** One key of [DEL] in a transaction: whether it counts. *)
Definition txDelete w (k : bytes) : st (Conn S) bool :=
  let sk := strKey k in
  _ ← recordRead sk;
  cl ← getCl;
  counted ← (match buffered cl sk with Some tw => mret (negb (tw_deleted tw)) | None => ondb (keyExistsInDB (wd_now w) k) end);
  cl ← getCl;
  _ ← putCl (set_writes cl (<[sk := mkTxWrite [] 0 true]> <$> cl_txWrites cl));
  collKeys ← ondb (okay (CollectionKeys (wd_now w) k));
  cl ← getCl;
  _ ← (match collKeys with Ok ks => putCl (set_deletes cl (cl_txDeletes cl ++ ks)) | Fail _ => mret tt end);
  mret counted.

Fixpoint txDeleteAll w (keys : list bytes) (deleted : Z) : st (Conn S) Z :=
  match keys with
  | [] => mret deleted
  | k :: keys => b ← txDelete w k; txDeleteAll w keys (if b : bool then deleted + 1 else deleted)
  end.

Definition int64Of (res : replResult) : Z := match res with RpInt64 n => n | _ => 0 end.

Definition cmdDel srv w args : st (Conn S) bool :=
  match args with
  | [] => rError (wrongArgs "del")
  | _ =>
      cl ← getCl;
      match cl_txWrites cl with
      | Some _ => n ← txDeleteAll w args 0; rInt n
      | None => replicated srv w "DEL" args (fun res => rInt (int64Of res)) (n ← ondb (deleteKeys w args 0); rInt n)
      end
  end.

(** ** EXPIRE and TTL *)

Definition boolOf (res : replResult) : bool := match res with RpBool b => b | _ => false end.

(** The members of a collection in the buffer, with an expiry time and no
    value. *)
Fixpoint txExpireKeys (exp : Z) (keys : list bytes) : st (Conn S) unit :=
  match keys with
  | [] => mret tt
  | ck :: keys =>
      cl ← getCl;
      _ ← putCl (set_writes cl (<[ck := mkTxWrite [] exp false]> <$> cl_txWrites cl));
      _ ← recordRead ck;
      txExpireKeys exp keys
  end.

Definition txExpire w (k : bytes) (sec : Z) : st (Conn S) bool :=
  let key := strKey k in
  let exp := i64 (wd_now w + sec) in
  let buffer tw :=
    _ ← recordRead key;
    cl ← getCl;
    _ ← putCl (set_writes cl (<[key := mkTxWrite (tw_value tw) exp (tw_deleted tw)]> <$> cl_txWrites cl));
    rInt 1 in
  cl ← getCl;
  match buffered cl key with
  | Some tw => buffer tw
  | None =>
      r ← readKey w key;
      match r with
      | Ok val => buffer (mkTxWrite val 0 false)
      | Fail _ =>
          collKeys ← ondb (CollectionKeys (wd_now w) k);
          match collKeys with
          | [] => rInt 0
          | _ => _ ← txExpireKeys exp collKeys; rInt 1
          end
      end
  end.

Definition cmdExpire srv w args : st (Conn S) bool :=
  match args with
  | k :: secs :: _ =>
      match ParseInt secs with
      | None => rError notInteger
      | Some sec =>
          cl ← getCl;
          match cl_txWrites cl with
          | Some _ => txExpire w k sec
          | None => replicated srv w "EXPIRE" args (fun res => rFlag (boolOf res)) (r ← ondb (ExpireKey w k sec); rFlag r.1)
          end
      end
  | _ => rError (wrongArgs "expire")
  end.

Definition cmdTTL srv w args : st (Conn S) bool :=
  match args with
  | k :: _ =>
      rem ← ondb (db_TTL (wd_now w) (strKey k));
      rem ← (if rem =? -2 then
               collKeys ← ondb (okay (CollectionKeys (wd_now w) k));
               match collKeys with
               | Ok (ck :: _) => ondb (db_TTL (wd_now w) ck)
               | _ => mret rem
               end
             else mret rem);
      rInt rem
  | [] => rError (wrongArgs "ttl")
  end.

(** ** INCR, DECR and INCRBY *)

(** The current number in a transaction; [None] when the value is not one. *)
Definition txCurrent w (key : bytes) : st (Conn S) (option Z) :=
  cl ← getCl;
  match buffered cl key with
  | Some tw => mret (if tw_deleted tw then None else ParseInt (tw_value tw))
  | None =>
      _ ← recordRead key;
      r ← readKey w key;
      mret (match r with Fail _ => Some 0 | Ok val => ParseInt val end)
  end.

Definition cmdIncrByDelta srv w args (delta : Z) : st (Conn S) bool :=
  match args with
  | k :: _ =>
      let key := strKey k in
      cl ← getCl;
      match cl_txWrites cl with
      | Some _ =>
          current ← txCurrent w key;
          match current with
          | None => rError notInteger
          | Some current =>
              let newVal := i64 (current + delta) in
              cl ← getCl;
              _ ← putCl (set_writes cl (<[key := mkTxWrite (FormatInt newVal) 0 false]> <$> cl_txWrites cl));
              rInt newVal
          end
      | None =>
          replicated srv w "INCRBY" [k; FormatInt delta] (fun res => rInt (int64Of res))
            (r ← ondb (db_IncrBy w key delta); rInts r)
      end
  | [] => rError (wrongArgs "incr")
  end.

Definition cmdIncr srv w args : st (Conn S) bool := cmdIncrByDelta srv w args 1.
Definition cmdDecr srv w args : st (Conn S) bool := cmdIncrByDelta srv w args (-1).
Definition cmdIncrBy srv w args : st (Conn S) bool :=
  match args with
  | k :: d :: _ => match ParseInt d with None => rError notInteger | Some delta => cmdIncrByDelta srv w [k] delta end
  | _ => rError (wrongArgs "incrby")
  end.

(** ** MGET and MSET *)

Fixpoint mgetLoop w (keys : list bytes) : st (Conn S) unit :=
  match keys with
  | [] => mret tt
  | k :: keys =>
      cl ← getCl;
      _ ← (match buffered cl k with
           | Some tw => rEntry tw
           | None =>
               _ ← recordRead k;
               v ← ondb (db_GetByVersion (wd_now w) k (cl_execReadTs cl)); rBulks v
           end);
      mgetLoop w keys
  end.

(** A value that is not present is null. *)
Definition presentBulk (i : nat) (present : list bool) (v : bytes) : bytes :=
  if default false (present !! i) then writeBulkString v else writeNull.

Definition cmdMGet srv w args : st (Conn S) bool :=
  match args with
  | [] => rError (wrongArgs "mget")
  | _ =>
      let prefixed := strKey <$> args in
      cl ← getCl;
      if 0 <? cl_execReadTs cl then
        _ ← emit (writeArrayHeader (length prefixed)); _ ← mgetLoop w prefixed; mret false
      else
        r ← ondb (okay (db_MGet (wd_now w) prefixed));
        match r with
        | Fail err => rError (errText err)
        | Ok (vals, present) =>
            _ ← emit (writeArrayHeader (length vals));
            _ ← emits (imap (fun i v => presentBulk i present v) vals);
            mret false
        end
  end.

(** Later pairs replace earlier ones. *)
Fixpoint pairsMap (args : list bytes) (kvs : gmap bytes bytes) : gmap bytes bytes :=
  match args with
  | k :: v :: args => pairsMap args (<[strKey k := v]> kvs)
  | _ => kvs
  end.

Definition cmdMSet srv w args : st (Conn S) bool :=
  if (length args <? 2)%nat || negb (Nat.even (length args)) then rError (wrongArgs "mset")
  else replicated srv w "MSET" args (fun _ => rOK) (r ← ondb (MSet w (pairsMap args ∅)); rOKs r).

(** ** SCAN and KEYS *)

Fixpoint scanOptions (args : list bytes) (pattern : bytes) (count : Z) : option (bytes * Z) :=
  match args with
  | [] => Some (pattern, count)
  | [_] => None
  | a :: v :: args =>
      let u := ToUpper a in
      if bool_decide (u = str "MATCH") then scanOptions args v count
      else if bool_decide (u = str "COUNT") then
        match ParseInt v with
        | Some c => if c <=? 0 then None else scanOptions args pattern c
        | None => None
        end
      else None
  end.

Definition cmdScan srv w args : st (Conn S) bool :=
  match args with
  | [] => rError (wrongArgs "scan")
  | cursor :: opts =>
      match scanOptions opts (str "*") 10 with
      | None => rError syntaxError
      | Some (pattern, count) =>
          r ← ondb (db_ScanPage (wd_now w) pattern cursor count);
          match r with
          | None => rError (hexError cursor)
          | Some (keys, next) =>
              _ ← emit (writeArrayHeader 2); _ ← emit (writeBulkString next); rArray keys
          end
      end
  end.

Definition cmdKeys srv w args : st (Conn S) bool :=
  match args with
  | [pattern] => r ← ondb (okay (db_ScanAllKeys (wd_now w) pattern)); rArrays r
  | _ => rError (wrongArgs "keys")
  end.
End kv.
