(* ===== verification/ServerColl.v ===== *)
(** * Commands on collections ([server/commands_collections.go]) *)
From Stdlib Require Import String.
From S2P Require Import Prelude Mvcc Strconv Encoding Engine Scan Store Collections Bitmaps CollSpec Resp Server ServerKv.

Section collections.
Context {S : Type} {HS : Store S} {HD : DB S} {HG : GoText}.
Implicit Types (srv : Server S) (w : World) (args : list bytes).

(** The answers of replicated commands. *)
Definition rCount (res : replResult) : st (Conn S) bool := rInt (replCount res).
Definition rPopped (res : replResult) : st (Conn S) bool :=
  match res with RpNil => rNull | RpStr v => rBulk v | _ => stPanic end.

(** A key with at least one more argument, and with pairs. *)
Definition oddPairs (args : list bytes) : bool := (length args <? 3)%nat || negb (Nat.even (length args - 1)).

(** ** Hashes *)

Definition cmdHSet srv w args : st (Conn S) bool :=
  match args with
  | h :: fields =>
      if oddPairs args then rError (wrongArgs "hset")
      else replicated srv w "HSET" args rCount (r ← ondb (HSetMulti w h fields); rInts r)
  | [] => rError (wrongArgs "hset")
  end.

Definition cmdHGet srv w args : st (Conn S) bool :=
  match args with
  | h :: f :: _ => r ← ondb (HGet (wd_now w) h f); rBulks r
  | _ => rError (wrongArgs "hget")
  end.

Definition cmdHDel srv w args : st (Conn S) bool :=
  match args with
  | h :: f :: _ => replicated srv w "HDEL" args (fun res => rFlag (boolOf res)) (r ← ondb (HDel w h f); rFlags r)
  | _ => rError (wrongArgs "hdel")
  end.

Definition cmdHGetAll srv w args : st (Conn S) bool :=
  match args with
  | h :: _ =>
      r ← ondb (okay (HGetAll (wd_now w) h));
      match r with
      | Fail err => rError (errText err)
      | Ok fields =>
          _ ← emit (writeArrayHeader (size fields * 2));
          _ ← emits (map_to_list fields ≫= (fun fv => [writeBulkString fv.1; writeBulkString fv.2]));
          mret false
      end
  | [] => rError (wrongArgs "hgetall")
  end.

Definition cmdHLen srv w args : st (Conn S) bool :=
  match args with
  | h :: _ => r ← ondb (okay (HLen (wd_now w) h)); rInts r
  | [] => rError (wrongArgs "hlen")
  end.

Definition cmdHKeys srv w args : st (Conn S) bool :=
  match args with
  | h :: _ => r ← ondb (okay (HKeys (wd_now w) h)); rArrays r
  | [] => rError (wrongArgs "hkeys")
  end.

(** ** Lists *)

Definition cmdLPush srv w args : st (Conn S) bool :=
  match args with
  | k :: ((_ :: _) as vs) => replicated srv w "LPUSH" args rCount (r ← ondb (LPush w k vs); rInts r)
  | _ => rError (wrongArgs "lpush")
  end.

Definition cmdRPush srv w args : st (Conn S) bool :=
  match args with
  | k :: ((_ :: _) as vs) => replicated srv w "RPUSH" args rCount (r ← ondb (RPush w k vs); rInts r)
  | _ => rError (wrongArgs "rpush")
  end.

Definition cmdLPop srv w args : st (Conn S) bool :=
  match args with
  | k :: _ => replicated srv w "LPOP" args rPopped (r ← ondb (LPop w k); rBulks r)
  | [] => rError (wrongArgs "lpop")
  end.

Definition cmdRPop srv w args : st (Conn S) bool :=
  match args with
  | k :: _ => replicated srv w "RPOP" args rPopped (r ← ondb (RPop w k); rBulks r)
  | [] => rError (wrongArgs "rpop")
  end.

Definition cmdLLen srv w args : st (Conn S) bool :=
  match args with
  | k :: _ => r ← ondb (okay (LLen (wd_now w) k)); rInts r
  | [] => rError (wrongArgs "llen")
  end.

Definition cmdLRange srv w args : st (Conn S) bool :=
  match args with
  | k :: a :: b :: _ =>
      match ParseInt a, ParseInt b with
      | Some start, Some stop => r ← ondb (okay (LRange (wd_now w) k start stop)); rArrays r
      | _, _ => rError notInteger
      end
  | _ => rError (wrongArgs "lrange")
  end.

(** ** Sets *)

Definition cmdSAdd srv w args : st (Conn S) bool :=
  match args with
  | k :: ((_ :: _) as ms) => replicated srv w "SADD" args rCount (r ← ondb (SAdd w k ms); rInts r)
  | _ => rError (wrongArgs "sadd")
  end.

Definition cmdSMembers srv w args : st (Conn S) bool :=
  match args with
  | k :: _ => r ← ondb (okay (SMembers (wd_now w) k)); rArrays r
  | [] => rError (wrongArgs "smembers")
  end.

Definition cmdSIsMember srv w args : st (Conn S) bool :=
  match args with
  | k :: m :: _ => r ← ondb (okay (SIsMember (wd_now w) k m)); rFlags r
  | _ => rError (wrongArgs "sismember")
  end.

Definition cmdSInter srv w args : st (Conn S) bool :=
  match args with
  | [] => rError (wrongArgs "sinter")
  | _ => r ← ondb (okay (SInter (wd_now w) args)); rArrays r
  end.

Definition cmdSRem srv w args : st (Conn S) bool :=
  match args with
  | k :: ((_ :: _) as ms) => replicated srv w "SREM" args rCount (r ← ondb (SRem w k ms); rInts r)
  | _ => rError (wrongArgs "srem")
  end.

Definition cmdSCard srv w args : st (Conn S) bool :=
  match args with
  | k :: _ => r ← ondb (okay (SCard (wd_now w) k)); rInts r
  | [] => rError (wrongArgs "scard")
  end.

(** ** Sorted sets *)

(** Score and member pairs; [None] when a score is no number. *)
Fixpoint parseMembers (args : list bytes) (members : list ZSetMember) : option (list ZSetMember) :=
  match args with
  | s :: m :: args =>
      match ParseFloat s with
      | Some score => if isNaN score then None else parseMembers args (members ++ [mkZSetMember score m])
      | None => None
      end
  | _ => Some members
  end.

Definition cmdZAdd srv w args : st (Conn S) bool :=
  match args with
  | k :: pairs =>
      if oddPairs args then rError (wrongArgs "zadd")
      else
        replicated srv w "ZADD" args rCount
          (match parseMembers pairs [] with
           | None => rError notFloat
           | Some members => r ← ondb (ZAddMulti w k members); rInts r
           end)
  | [] => rError (wrongArgs "zadd")
  end.

Definition cmdZScore srv w args : st (Conn S) bool :=
  match args with
  | [k; m] =>
      r ← ondb (ZScore (wd_now w) k m);
      match r with
      | Fail err => rError (errText err)
      | Ok (score, ok) => if ok : bool then rBulk (FormatFloat score) else rNull
      end
  | _ => rError (wrongArgs "zscore")
  end.

Definition cmdZRangeByScore srv w args : st (Conn S) bool :=
  match args with
  | k :: lo :: hi :: _ =>
      match ParseFloat lo, ParseFloat hi with
      | None, _ => rError (str "ERR min is not a valid float")
      | _, None => rError (str "ERR max is not a valid float")
      | Some min, Some max => r ← ondb (okay (ZRangeByScore k min max)); rArrays r
      end
  | _ => rError (wrongArgs "zrangebyscore")
  end.

Definition cmdZRem srv w args : st (Conn S) bool :=
  match args with
  | k :: ((_ :: _) as ms) => replicated srv w "ZREM" args rCount (r ← ondb (ZRem w k ms); rInts r)
  | _ => rError (wrongArgs "zrem")
  end.

(** ** Bitmaps *)

Definition parseOffset (s : bytes) : option Z :=
  match ParseInt s with Some offset => if offset <? 0 then None else Some offset | None => None end.
Definition parseBit (s : bytes) : option Z :=
  match ParseInt s with Some val => if (val =? 0) || (val =? 1) then Some val else None | None => None end.

Definition cmdSetBit srv w args : st (Conn S) bool :=
  match args with
  | [k; o; v] =>
      match parseOffset o with
      | None => rError badOffset
      | Some offset =>
          match parseBit v with
          | None => rError badBit
          | Some val => replicated srv w "SETBIT" args rCount (r ← ondb (SetBit w k offset val); rInts r)
          end
      end
  | _ => rError (wrongArgs "setbit")
  end.

Definition cmdGetBit srv w args : st (Conn S) bool :=
  match args with
  | [k; o] =>
      match parseOffset o with
      | None => rError badOffset
      | Some offset => r ← ondb (GetBit (wd_now w) k offset); rInts r
      end
  | _ => rError (wrongArgs "getbit")
  end.

Definition bitModeOf (mode : list bytes) : option bool :=
  match mode with
  | [] => Some false
  | m :: _ =>
      let u := ToUpper m in
      if bool_decide (u = str "BIT") then Some true else if bool_decide (u = str "BYTE") then Some false else None
  end.

Definition bitCountIn w (k a b : bytes) (mode : list bytes) : st (Conn S) bool :=
  match ParseInt a, ParseInt b with
  | Some start, Some stop =>
      match bitModeOf mode with
      | None => rError syntaxError
      | Some bitMode => r ← ondb (okay (BitCountRange (wd_now w) k start stop bitMode)); rInts r
      end
  | _, _ => rError notInteger
  end.

Definition cmdBitCount srv w args : st (Conn S) bool :=
  match args with
  | [k] => r ← ondb (okay (BitCount (wd_now w) k)); rInts r
  | [k; a; b] => bitCountIn w k a b []
  | [k; a; b; m] => bitCountIn w k a b [m]
  | _ => rError (wrongArgs "bitcount")
  end.

(** ** Replayed commands ([ExecuteReplicatedCommand]) *)

Definition intRes (r : result Z) : replResult := match r with Ok n => RpInt64 n | Fail e => RpErr (errText e) end.
Definition okRes (r : option err) : replResult := match r with Some e => RpErr (errText e) | None => RpNil end.
Definition strRes (r : result bytes) : replResult := match r with Ok v => RpStr v | Fail _ => RpNil end.
Definition boolRes (r : result bool) : replResult := match r with Ok b => RpBool b | Fail e => RpErr (errText e) end.

Definition replPairs w args : st S replResult :=
  if (length args <? 2)%nat || negb (Nat.even (length args)) then mret (RpErr (wrongArgs "mset"))
  else r ← MSet w (pairsMap args ∅); mret (okRes r).

Definition replBit w args : st S replResult :=
  match args with
  | [k; o; v] =>
      match parseOffset o with
      | None => mret (RpErr badOffset)
      | Some offset =>
          match parseBit v with
          | None => mret (RpErr badBit)
          | Some val => r ← SetBit w k offset val; mret (match r with Ok n => RpInt n | Fail e => RpErr (errText e) end)
          end
      end
  | _ => mret (RpErr (wrongArgs "setbit"))
  end.

(** A command of at least one key and some values, and one of pairs. *)
Definition replMany (name : string) args (run : bytes -> list bytes -> st S (result Z)) : st S replResult :=
  match args with
  | k :: ((_ :: _) as vs) => r ← run k vs; mret (intRes r)
  | _ => mret (RpErr (wrongArgs name))
  end.

Definition replInt (s : bytes) (run : Z -> st S replResult) : st S replResult :=
  match ParseInt s with None => mret (RpErr notInteger) | Some n => run n end.

Definition is_op (op : bytes) (name : string) : bool := bool_decide (op = str name).

Definition ExecuteReplicatedCommand w (op : bytes) args : st S replResult :=
  if is_op op "SET" then
    match args with
    | k :: v :: _ => r ← db_Put w (strKey k) v; mret (okRes r)
    | _ => mret (RpErr (wrongArgs "set"))
    end
  else if is_op op "SETEX" then
    match args with
    | k :: secs :: v :: _ => replInt secs (fun sec => r ← db_PutEx w (strKey k) v sec; mret (okRes r))
    | _ => mret (RpErr (wrongArgs "setex"))
    end
  else if is_op op "DEL" then
    match args with [] => mret (RpErr (wrongArgs "del")) | _ => n ← deleteKeys w args 0; mret (RpInt64 n) end
  else if is_op op "GETDEL" then
    match args with k :: _ => r ← db_GetDel w (strKey k); mret (strRes r) | [] => mret (RpErr (wrongArgs "getdel")) end
  else if is_op op "EXPIRE" then
    match args with
    | k :: secs :: _ => replInt secs (fun sec => r ← ExpireKey w k sec; mret (RpBool r.1))
    | _ => mret (RpErr (wrongArgs "expire"))
    end
  else if is_op op "INCRBY" then
    match args with
    | k :: d :: _ => replInt d (fun delta => r ← db_IncrBy w (strKey k) delta; mret (intRes r))
    | _ => mret (RpErr (wrongArgs "incrby"))
    end
  else if is_op op "MSET" then replPairs w args
  else if is_op op "HSET" then
    if oddPairs args then mret (RpErr (wrongArgs "hset")) else replMany "hset" args (HSetMulti w)
  else if is_op op "HDEL" then
    match args with h :: f :: _ => r ← HDel w h f; mret (boolRes r) | _ => mret (RpErr (wrongArgs "hdel")) end
  else if is_op op "LPUSH" then replMany "lpush" args (LPush w)
  else if is_op op "RPUSH" then replMany "rpush" args (RPush w)
  else if is_op op "LPOP" then
    match args with k :: _ => r ← LPop w k; mret (strRes r) | [] => mret (RpErr (wrongArgs "lpop")) end
  else if is_op op "RPOP" then
    match args with k :: _ => r ← RPop w k; mret (strRes r) | [] => mret (RpErr (wrongArgs "rpop")) end
  else if is_op op "SADD" then replMany "sadd" args (SAdd w)
  else if is_op op "SREM" then replMany "srem" args (SRem w)
  else if is_op op "ZADD" then
    if oddPairs args then mret (RpErr (wrongArgs "zadd"))
    else match args with
         | k :: pairs =>
             match parseMembers pairs [] with
             | None => mret (RpErr notFloat)
             | Some members => r ← ZAddMulti w k members; mret (intRes r)
             end
         | [] => mret (RpErr (wrongArgs "zadd"))
         end
  else if is_op op "ZREM" then replMany "zrem" args (ZRem w)
  else if is_op op "SETBIT" then replBit w args
  else mret (RpErr (str "ERR unknown replicated command '" ++ op ++ str "'")).
End collections.
