(* ===== verification/ServerConn.v ===== *)
(** * Transactions and the connection loop
    ([server/commands.go], [handleConnection] of [server/conn.go])

    The table of handlers, [MULTI], [DISCARD], [EXEC] and [AUTH], and one round
    of the loop that reads a request and answers it. *)
From Stdlib Require Import String.
From S2P Require Import Prelude Mvcc Strconv Encoding Engine Scan Store Collections Bitmaps CollSpec Resp Server ServerKv ServerColl.

Definition txUnsupportedCommands : list bytes :=
  str <$> ["MSET"; "HSET"; "HDEL"; "LPUSH"; "RPUSH"; "LPOP"; "RPOP"; "SADD"; "SREM"; "ZADD"; "ZREM"; "SETBIT";
           "HGET"; "HGETALL"; "HLEN"; "HKEYS"; "SMEMBERS"; "SCARD"; "SISMEMBER"; "LLEN"; "LRANGE"; "ZSCORE"; "ZRANGEBYSCORE";
           "GETBIT"; "BITCOUNT"; "GETDEL"; "SINTER"]%string.

Section conn.
Context {S : Type} {HS : Store S} {HD : DB S} {HG : GoText}.
Implicit Types (srv : Server S) (w : World) (args : list bytes).

Notation handler := (Server S -> World -> list bytes -> st (Conn S) bool).

Definition cmdPing : handler := fun _ _ _ => rSimple (str "PONG").
Definition cmdQuit : handler := fun _ _ _ => _ ← rOK; mret true.

Definition cmdAuth : handler := fun srv _ args =>
  match args with
  | [_] | [_; _] =>
      if bool_decide (sv_password srv = []) then rError (str "ERR server password not set")
      else if bool_decide (last args = Some (sv_password srv)) then
        cl ← getCl; _ ← putCl (set_authed cl true); rOK
      else rError (str "ERR invalid password")
  | _ => rError (wrongArgs "auth")
  end.

Definition cmdMulti : handler := fun _ _ _ =>
  cl ← getCl;
  if cl_inTx cl then rError (str "ERR MULTI calls can not be nested")
  else
    ts ← ondb db_BeginTx;
    _ ← putCl (set_tx cl true [] ts (Some ∅) (Some ∅) [] false);
    rOK.

Definition cmdDiscard : handler := fun _ _ _ =>
  cl ← getCl;
  if negb (cl_inTx cl) then rError (str "ERR DISCARD without MULTI")
  else
    _ ← ondb (db_RollbackTx (cl_txReadTs cl));
    _ ← putCl (set_tx cl false [] 0 None None [] false);
    rOK.

Definition infoText srv w : bytes :=
  let stats := os_stats (sv_outside srv) w in
  let line name n := str name ++ str ":" ++ FormatInt n ++ crlf in
  str "# Server" ++ crlf ++ str "redis_version:akwadb-1.0.0" ++ crlf
    ++ line "uptime_in_seconds"%string (i64 (wd_now w - os_startTime (sv_outside srv)))
    ++ str "# Stats" ++ crlf
    ++ line "total_connections_received"%string (os_totalConns (sv_outside srv) w)
    ++ line "total_commands_processed"%string (u64 (PutsTotal stats + GetsTotal stats + DeletesTotal stats))
    ++ line "puts_total"%string (PutsTotal stats) ++ line "gets_total"%string (GetsTotal stats)
    ++ line "deletes_total"%string (DeletesTotal stats) ++ line "flushes_total"%string (FlushesTotal stats)
    ++ line "compactions_done"%string (CompactionsDone stats).
Definition cmdInfo : handler := fun srv w _ => rBulk (infoText srv w).

Definition cmdPublish : handler := fun srv w args =>
  match args with
  | channel :: message :: _ => rInt (os_receivers (sv_outside srv) w channel message)
  | _ => rError (wrongArgs "publish")
  end.

(** The reply; following the master is the work of a goroutine of its own
    ([Replication]). *)
Definition cmdReplicaOf : handler := fun _ _ args =>
  match args with
  | _ :: _ :: _ => rOK
  | _ => rError (wrongArgs "replicaof")
  end.

(** All handlers but [EXEC], which is never queued. *)
Definition handlers : list (bytes * handler) :=
  prod_map str id <$>
  [("PING", cmdPing); ("QUIT", cmdQuit); ("AUTH", cmdAuth);
   ("SET", cmdSet); ("SETEX", cmdSetEx); ("GET", cmdGet); ("GETDEL", cmdGetDel); ("DEL", cmdDel); ("EXPIRE", cmdExpire);
   ("TTL", cmdTTL); ("INCR", cmdIncr); ("DECR", cmdDecr); ("INCRBY", cmdIncrBy); ("MGET", cmdMGet); ("MSET", cmdMSet);
   ("SCAN", cmdScan); ("KEYS", cmdKeys); ("HSET", cmdHSet); ("HGET", cmdHGet); ("HDEL", cmdHDel); ("HGETALL", cmdHGetAll);
   ("HLEN", cmdHLen); ("HKEYS", cmdHKeys); ("MULTI", cmdMulti); ("DISCARD", cmdDiscard);
   ("LPUSH", cmdLPush); ("RPUSH", cmdRPush); ("LPOP", cmdLPop); ("RPOP", cmdRPop); ("LLEN", cmdLLen); ("LRANGE", cmdLRange);
   ("SADD", cmdSAdd); ("SMEMBERS", cmdSMembers); ("SISMEMBER", cmdSIsMember); ("SREM", cmdSRem); ("SCARD", cmdSCard);
   ("SINTER", cmdSInter); ("ZADD", cmdZAdd); ("ZSCORE", cmdZScore); ("ZRANGEBYSCORE", cmdZRangeByScore); ("ZREM", cmdZRem);
   ("SETBIT", cmdSetBit); ("GETBIT", cmdGetBit); ("BITCOUNT", cmdBitCount);
   ("INFO", cmdInfo); ("PUBLISH", cmdPublish); ("REPLICAOF", cmdReplicaOf)]%string.

Fixpoint assoc (name : bytes) (l : list (bytes * handler)) : option handler :=
  match l with
  | [] => None
  | (n, h) :: l => if bool_decide (n = name) then Some h else assoc name l
  end.
Definition lookupHandler (name : bytes) : option handler := assoc name handlers.

Definition unknownCommand (name : bytes) : bytes := str "ERR unknown command '" ++ name ++ str "'".

(** ** EXEC *)

Definition runNamed srv w (name : bytes) args : st (Conn S) bool :=
  match lookupHandler name with
  | Some h => h srv w args
  | None => rError (unknownCommand name)
  end.

Fixpoint replay srv w (queue : list (bytes * list bytes)) : st (Conn S) unit :=
  match queue with
  | [] => mret tt
  | q :: queue => _ ← runNamed srv w q.1 q.2; replay srv w queue
  end.

(** The output of [m] is put aside. *)
Definition captured {A} (m : st (Conn S) A) : st (Conn S) (A * bytes) := fun c =>
  match m (mkConn (cn_db c) (cn_cl c) []) with
  | Some (a, c') => Some ((a, cn_out c'), mkConn (cn_db c') (cn_cl c') (cn_out c))
  | None => None
  end.

(** The writes of a transaction, its buffered writes in whatever order the map
    yields them. *)
Definition txEntries (writes : gmap bytes txWriteEntry) (deletes : list bytes) : list BatchWriteEntry :=
  ((fun kt => mkBatch kt.1 (tw_value kt.2) (tw_deleted kt.2) (tw_expiresAt kt.2)) <$> map_to_list writes) ++ (del <$> deletes).

(** [ApplyWriteVersion] or [BatchApplyWithVersion]; the error by its text. *)
Definition applyTx srv w (entries : list BatchWriteEntry) (ts : Z) : st S (option bytes) :=
  match sv_cluster srv with
  | Some node => ApplyWriteVersion node w entries ts
  | None => r ← db_BatchApplyWithVersion w entries ts; mret (errText <$> r)
  end.

(** The part of [EXEC] after the replay. *)
Definition commitQueue srv w (readTs : Z) (count : nat) (out : bytes) : st (Conn S) bool :=
  cl ← getCl;
  let writes := default ∅ (cl_txWrites cl) in
  let readSet := default ∅ (cl_txReadSet cl) in
  let deletes := cl_txDeletes cl in
  _ ← putCl (set_tx cl (cl_inTx cl) (cl_txQueue cl) (cl_txReadTs cl) None None [] (cl_txAbort cl));
  if (size writes =? 0)%nat then _ ← emit (writeArrayHeader count); _ ← emit out; mret false
  else
    r ← ondb (db_CommitTx readTs readSet (dom writes ∪ list_to_set deletes));
    match r with
    | Fail _ => rNullArray
    | Ok commitTs =>
        a ← ondb (applyTx srv w (txEntries writes deletes) commitTs);
        match a with
        | Some msg =>
            _ ← ondb (db_AbortCommit commitTs);
            rError (str "ERR transaction commit failed: " ++ msg)
        | None => _ ← emit (writeArrayHeader count); _ ← emit out; mret false
        end
    end.

Definition cmdExec : handler := fun srv w _ =>
  cl ← getCl;
  if negb (cl_inTx cl) then rError (str "ERR EXEC without MULTI")
  else if cl_txAbort cl then
    _ ← ondb (db_RollbackTx (cl_txReadTs cl));
    _ ← putCl (set_tx cl false [] 0 None None [] false);
    rError (str "EXECABORT Transaction discarded because of previous errors.")
  else
    let queue := cl_txQueue cl in
    let savedReadTs := cl_txReadTs cl in
    let savedExecReadTs := cl_execReadTs cl in
    _ ← putCl (set_execReadTs (set_tx cl false [] 0 (cl_txWrites cl) (cl_txReadSet cl) (cl_txDeletes cl) false) savedReadTs);
    r ← captured (replay srv w queue);
    cl ← getCl;
    _ ← putCl (set_execReadTs cl savedExecReadTs);
    b ← commitQueue srv w savedReadTs (length queue) r.2;
    _ ← ondb (db_RollbackTx savedReadTs);
    mret b.

Definition findHandler (name : bytes) : option handler :=
  if bool_decide (name = str "EXEC") then Some cmdExec else lookupHandler name.

(** ** One request *)

(** What becomes of the connection. *)
Inductive next := Continue | Close | Subscribing | Syncing.

Definition isTxControl (cmd : bytes) : bool := bool_decide (cmd ∈ str <$> ["EXEC"; "DISCARD"; "MULTI"; "QUIT"]%string).

Definition handleRequest srv w args : st (Conn S) next :=
  match args with
  | [] => mret Continue
  | a :: args =>
      let cmd := ToUpper a in
      if bool_decide (cmd = str "AUTH") then _ ← cmdAuth srv w args; mret Continue
      else if bool_decide (cmd = str "QUIT") then _ ← cmdQuit srv w args; mret Close
      else
        cl ← getCl;
        if negb (bool_decide (sv_password srv = [])) && negb (cl_authed cl) then _ ← rError (str "ERR authentication required"); mret Continue
        else if bool_decide (cmd = str "SUBSCRIBE") then mret Subscribing
        else if bool_decide (cmd = str "SYNC") || bool_decide (cmd = str "PSYNC") then mret Syncing
        else if cl_inTx cl && negb (isTxControl cmd) then
          if bool_decide (cmd ∈ txUnsupportedCommands) then
            _ ← putCl (set_abort cl true);
            _ ← rError (str "ERR command '" ++ ToLower cmd ++ str "' is not supported inside MULTI"); mret Continue
          else
            _ ← putCl (set_queue cl (cl_txQueue cl ++ [(cmd, args)]));
            _ ← rSimple (str "QUEUED"); mret Continue
        else
          match findHandler cmd with
          | Some h => eof ← h srv w args; mret (if eof : bool then Close else Continue)
          | None => _ ← rError (unknownCommand cmd); mret Continue
          end
  end.

(** The end of a connection. *)
Definition closeConn : st (Conn S) unit :=
  cl ← getCl;
  if cl_inTx cl && (0 <? cl_txReadTs cl) then
    _ ← ondb (db_RollbackTx (cl_txReadTs cl));
    putCl (set_tx cl (cl_inTx cl) (cl_txQueue cl) 0 (cl_txWrites cl) (cl_txReadSet cl) (cl_txDeletes cl) (cl_txAbort cl))
  else mret tt.

(** The loop on the input that is there, a world for each round: requests until
    the input ends or the connection is closed or handed over. *)
Fixpoint serveInput srv (worlds : list World) (r : bytes) : st (Conn S) (next * bytes) :=
  match worlds with
  | [] => mret (Continue, r)
  | w :: worlds =>
      match parseRESP r with
      | PEof => mret (Close, [])
      | PErr msg => _ ← rError msg; mret (Close, [])
      | PArgs args r =>
          n ← handleRequest srv w args;
          match n with
          | Continue => serveInput srv worlds r
          | _ => mret (n, r)
          end
      end
  end.

Definition handleConnection srv (worlds : list World) (r : bytes) : st (Conn S) (next * bytes) :=
  n ← serveInput srv worlds r; _ ← closeConn; mret n.
End conn.
