(* ===== verification/ServerType.v ===== *)
(** * Every request gets one reply

    What the handlers write, counted in replies of the protocol: each handler
    writes exactly one, whatever the state and the arguments. *)
From Stdlib Require Import String.
From S2P Require Import Prelude Mvcc Strconv Encoding Engine Scan Store Collections Bitmaps CollSpec Resp RespSpec Server ServerKv ServerColl ServerConn.

(** ** Replies with messages on one line *)

Fixpoint typed (v : resp) : Prop :=
  match v with
  | VSimple msg | VError msg => plain msg
  | VInt n => is_i64 n
  | VBulk _ | VNull | VNullArray => True
  | VArray vs => (fix all vs := match vs with [] => True | v :: vs => typed v /\ all vs end) vs
  end.

Fixpoint all_typed (vs : list resp) : Prop := match vs with [] => True | v :: vs => typed v /\ all_typed vs end.

Lemma all_typed_Forall vs : all_typed vs <-> Forall typed vs.
Proof. induction vs as [|v vs IH]; cbn; [split; [constructor|done]|]. rewrite IH. split; [intros []; by constructor|by intros [? ?]%Forall_cons]. Qed.

Lemma typed_array vs : Forall typed vs -> typed (VArray vs).
Proof. intros H. by apply all_typed_Forall. Qed.

Lemma all_typed_app vs vs' : Forall typed vs -> Forall typed vs' -> Forall typed (vs ++ vs').
Proof. intros. by apply Forall_app. Qed.

Lemma encodeResp_length v : (3 <= length (encodeResp v))%nat.
Proof. destruct v; cbn [encodeResp]; unfold writeSimpleString, writeError, writeInt, writeBulkString, writeArrayHeader; rewrite ?length_app; cbn; lia. Qed.

Lemma encode_count vs : (length vs <= length (concat (encodeResp <$> vs)))%nat.
Proof.
  induction vs as [|v vs IH]; [cbn; lia|]. rewrite fmap_cons. cbn [concat length]. rewrite length_app. pose proof (encodeResp_length v). lia.
Qed.

(** A reply of less than [2^63] bytes has lengths that fit. *)
Fixpoint typed_fits (v : resp) : typed v -> Z.of_nat (length (encodeResp v)) < 2 ^ 63 -> resp_ok v.
Proof.
  destruct v as [msg|msg|n|val| | |vs]; intros Ht Hl; try exact Ht.
  - cbn [encodeResp] in Hl. unfold writeBulkString in Hl. rewrite !length_app in Hl. cbn in Hl |- *. lia.
  - cbn [encodeResp] in Hl. rewrite length_app in Hl. change (Z.of_nat (length vs) < 2 ^ 63 /\ all_ok vs). change (all_typed vs) in Ht.
    assert (Z.of_nat (length (concat (encodeResp <$> vs))) < 2 ^ 63) as Hc by lia. clear Hl.
    split; [pose proof (encode_count vs); lia|]. induction vs as [|v vs IH]; [done|]. destruct Ht as [Hv Hvs].
    rewrite fmap_cons in Hc. cbn [concat] in Hc. rewrite length_app in Hc.
    split; [apply typed_fits; [done|lia]|apply IH; [done|lia]].
Qed.

(** ** Counting replies *)

(** The texts the server does not write itself are on one line. *)
Record texts_ok `{!GoText} : Prop := {
  to_io : plain ioText;
  to_upper : forall s, plain s -> plain (upperOther s);
}.

Definition node_ok {S} (srv : Server S) : Prop :=
  match sv_cluster srv with
  | None => True
  | Some node =>
      (forall w op args s msg s', ApplyCommand node w op args s = Some (inr msg, s') -> plain msg) /\
      (forall w es ts s msg s', ApplyWriteVersion node w es ts s = Some (Some msg, s') -> plain msg)
  end.

(** The names of queued commands are on one line too. *)
Definition request_ok (name : bytes) (args : list bytes) : Prop := plain name /\ Forall wf_bytes args.
Definition cl_ok (cl : client) : Prop := Forall (fun q => request_ok q.1 q.2) (cl_txQueue cl).

(** [m] writes [n] replies, when it returns. *)
Definition says {S A} (n : nat) (m : st (Conn S) A) : Prop := forall c a c', cl_ok (cn_cl c) -> m c = Some (a, c') ->
  cl_ok (cn_cl c') /\ exists vs, length vs = n /\ Forall typed vs /\ cn_out c' = cn_out c ++ concat (encodeResp <$> vs).

Section says.
Context {S : Type} {HS : Store S} {HD : DB S} {HG : GoText}.
Hypothesis texts : texts_ok.

Lemma says_ret {A} (a : A) : says 0 (mret a : st (Conn S) A).
Proof. intros c ? ? Hok [= <- <-]. split; [done|]. exists []. by rewrite app_nil_r. Qed.

Lemma says_panic {A} n : says n (stPanic : st (Conn S) A).
Proof. by intros c a c' _ ?. Qed.

Lemma says_bind {A B} n n' (m : st (Conn S) A) (k : A -> st (Conn S) B) : says n m -> (forall a, says n' (k a)) -> says (n + n') (m ≫= k).
Proof.
  intros Hm Hk c b c' Hok E. unfold mbind, st_bind in E. destruct (m c) as [[a c1]|] eqn:E1; [|done].
  destruct (Hm _ _ _ Hok E1) as (Hok1 & vs & L & T & O). destruct (Hk _ _ _ _ Hok1 E) as (Hok2 & vs' & L' & T' & O').
  split; [done|]. exists (vs ++ vs'). rewrite length_app, L, L', O', O, fmap_app, concat_app, app_assoc. eauto using all_typed_app.
Qed.

Lemma says_quiet {A B} n (m : st (Conn S) A) (k : A -> st (Conn S) B) : says 0 m -> (forall a, says n (k a)) -> says n (m ≫= k).
Proof. apply says_bind. Qed.

Lemma says_then {A B} n (m : st (Conn S) A) (k : A -> st (Conn S) B) : says n m -> (forall a, says 0 (k a)) -> says n (m ≫= k).
Proof. intros. rewrite <- (Nat.add_0_r n). by apply says_bind. Qed.

Lemma says_getCl {B} n (k : client -> st (Conn S) B) : (forall cl, cl_ok cl -> says n (k cl)) -> says n (getCl ≫= k).
Proof. intros H c b c' Hok E. by apply (H (cn_cl c) Hok c b c' Hok). Qed.

Lemma says_putCl cl : cl_ok cl -> says 0 (putCl cl : st (Conn S) unit).
Proof. intros H c ? ? _ [= <- <-]. split; [done|]. exists []. by rewrite app_nil_r. Qed.

Lemma says_ondb {A} (m : st S A) : says 0 (ondb m).
Proof.
  intros c a c' Hok E. unfold ondb in E. destruct (m (cn_db c)) as [[b s]|]; [|done]. injection E as <- <-. split; [done|]. exists []. by rewrite app_nil_r.
Qed.

Lemma says_emit v : typed v -> says 1 (emit (encodeResp v) : st (Conn S) unit).
Proof. intros H c ? ? Hok [= <- <-]. split; [done|]. exists [v]. cbn. rewrite app_nil_r. auto. Qed.

Lemma says_array {A} n (m : st (Conn S) A) : says n m -> says 1 (_ ← emit (writeArrayHeader n); m).
Proof.
  intros H c a c' Hok E. destruct (H (mkConn (cn_db c) (cn_cl c) (cn_out c ++ writeArrayHeader n)) a c' Hok E) as (Hok' & vs & L & T & O).
  split; [done|]. exists [VArray vs]. split; [done|]. split; [constructor; [by apply typed_array|done]|].
  rewrite O. cbn [fmap list_fmap concat encodeResp cn_out]. by rewrite app_nil_r, L, app_assoc.
Qed.

Lemma says_simple msg : plain msg -> says 1 (rSimple msg : st (Conn S) bool).
Proof. intros H. apply says_then; [by apply (says_emit (VSimple msg))|intros; apply says_ret]. Qed.

Lemma says_error msg : plain msg -> says 1 (rError msg : st (Conn S) bool).
Proof. intros H. apply says_then; [by apply (says_emit (VError msg))|intros; apply says_ret]. Qed.

Lemma says_int n : says 1 (rInt n : st (Conn S) bool).
Proof. apply says_then; [apply (says_emit (VInt (i64 n))); cbn; apply i64_range|intros; apply says_ret]. Qed.

Lemma says_bulk v : says 1 (rBulk v : st (Conn S) bool).
Proof. apply says_then; [by apply (says_emit (VBulk v))|intros; apply says_ret]. Qed.

Lemma says_null : says 1 (rNull : st (Conn S) bool).
Proof. apply says_then; [by apply (says_emit VNull)|intros; apply says_ret]. Qed.

Lemma says_nullArray : says 1 (rNullArray : st (Conn S) bool).
Proof. apply says_then; [by apply (says_emit VNullArray)|intros; apply says_ret]. Qed.

Lemma says_emits vs : Forall typed vs -> says (length vs) (emits (encodeResp <$> vs) : st (Conn S) unit).
Proof.
  induction 1 as [|v vs H _ IH]; [apply says_ret|]. rewrite fmap_cons. cbn [emits length]. apply (says_bind 1); [by apply says_emit|auto].
Qed.

Lemma says_bulks vals : says (length vals) (emits (writeBulkString <$> vals) : st (Conn S) unit).
Proof.
  pose proof (says_emits (VBulk <$> vals)) as H. rewrite length_fmap, <- list_fmap_compose in H. apply H. apply Forall_fmap, Forall_true. done.
Qed.

Lemma says_arrayOf vals : says 1 (rArray vals : st (Conn S) bool).
Proof. apply says_array, says_then; [apply says_bulks|intros; apply says_ret]. Qed.

(** ** Texts on one line *)

Definition isPlain (l : bytes) : bool := forallb (fun c => negb (c =? 10) && negb (c =? 13)) l.
Lemma isPlain_plain l : isPlain l = true -> plain l.
Proof.
  unfold isPlain. intros H. apply Forall_forall. intros c Hc. rewrite forallb_forall in H. apply list_elem_of_In in Hc. apply H in Hc. lia.
Qed.

Lemma plain_app l l' : plain l -> plain l' -> plain (l ++ l').
Proof. intros. by apply Forall_app. Qed.

Lemma plain_errText e : plain (errText e).
Proof using texts. destruct e; try (apply isPlain_plain; vm_compute; reflexivity). apply (to_io texts). Qed.

Lemma plain_upper s : plain s -> plain (ToUpper s).
Proof using texts.
  intros H. unfold ToUpper. destruct (isAscii s); [|by apply (to_upper texts)]. apply Forall_fmap. eapply Forall_impl; [exact H|].
  intros c [H1 H2]. cbn. unfold upperByte. case_if; lia.
Qed.

Lemma plain_hexError s : wf_bytes s -> plain (hexError s).
Proof.
  intros Hs. unfold hexError. destruct (find _ s) as [c|] eqn:E; [|apply isPlain_plain; vm_compute; reflexivity].
  apply find_some in E as [Hin _]. apply list_elem_of_In in Hin. pose proof (proj1 (Forall_forall _ _) Hs c Hin) as Hc. clear Hin Hs.
  unfold is_u8 in Hc. apply plain_app; [apply isPlain_plain; vm_compute; reflexivity|]. unfold quoteRune.
  apply plain_app; [apply isPlain_plain; vm_compute; reflexivity|]. apply plain_app.
  { pose proof (Z.mod_pos_bound c 16 eq_refl). pose proof (Z.div_pos c 16). pose proof (Z.div_lt_upper_bound c 16 16).
    unfold upperHex. repeat constructor; case_if; lia. }
  destruct (printable c) eqn:E; [|constructor]. unfold printable in E. pose proof (Z.mod_pos_bound c 64 eq_refl). pose proof (Z.div_pos c 64).
  apply plain_app; [apply isPlain_plain; vm_compute; reflexivity|]. apply plain_app; [|apply isPlain_plain; vm_compute; reflexivity].
  case_if; repeat constructor; lia.
Qed.

(** ** The handlers *)

Lemma says_read key : says 0 (recordRead key : st (Conn S) unit).
Proof.
  apply says_getCl. intros cl Hcl. destruct (cl_txReadSet cl); [by apply says_putCl|apply says_ret].
Qed.

Lemma says_readKey w key : says 0 (readKey w key : st (Conn S) (result bytes)).
Proof. apply says_getCl. intros cl _. destruct (0 <? _); apply says_ondb. Qed.

Lemma says_applied (srv : Server S) w op args r c c' : node_ok srv -> cl_ok (cn_cl c) -> applyReplicated srv w op args c = Some (r, c') ->
  cl_ok (cn_cl c') /\ cn_out c' = cn_out c /\ forall msg, r = Some (inr msg) -> plain msg.
Proof.
  unfold node_ok, applyReplicated. intros Hn Hok E. destruct (sv_cluster srv) as [node|]; [|by injection E as <- <-].
  unfold mbind, st_bind, ondb in E. destruct (ApplyCommand node w (str op) args (cn_db c)) as [[x s]|] eqn:Ea; [|done]. injection E as <- <-.
  split; [done|]. split; [done|]. intros msg [= ->]. exact (proj1 Hn _ _ _ _ _ _ Ea).
Qed.

Lemma says_replicated (srv : Server S) w op args handled else_ : node_ok srv -> (forall res, says 1 (handled res)) -> says 1 else_ ->
  says 1 (replicated srv w op args handled else_).
Proof.
  intros Hn Hh He c a c' Hok E. unfold replicated in E. unfold mbind, st_bind in E.
  destruct (applyReplicated srv w op args c) as [[r c1]|] eqn:Ea; [|done]. destruct (says_applied _ _ _ _ _ _ _ Hn Hok Ea) as (Hok1 & Ho & Hm).
  rewrite <- Ho. destruct r as [[res|msg]|]; [by eapply Hh|eapply says_error; eauto|by eapply He].
Qed.

Lemma setOptions_plain now args skip x msg : setOptions now args skip x = inr msg -> plain msg.
Proof.
  revert skip x. induction args as [args IH] using (induction_ltof1 _ (@length bytes)). unfold ltof in IH. intros skip x. destruct args as [|a args]; [done|].
  cbn [setOptions]. repeat case_match; try (apply IH; cbn; lia); intros [= <-]; apply isPlain_plain; vm_compute; reflexivity.
Qed.
End says.

Ltac plain_text := first [assumption | apply isPlain_plain; vm_compute; reflexivity | by apply plain_errText | by eapply setOptions_plain | by apply plain_hexError].

(** One step towards [says]; what a bind runs first is silent unless a lemma
    about it is at hand. *)
Ltac says_step :=
  lazymatch goal with
  | |- says _ (mret _) => apply says_ret
  | |- says _ stPanic => apply says_panic
  | |- says _ (rError _) => apply says_error; plain_text
  | |- says _ (rSimple _) => apply says_simple; plain_text
  | |- says _ rOK => apply says_simple; plain_text
  | |- says _ (rInt _) => apply says_int
  | |- says _ (rFlag _) => apply says_int
  | |- says _ (rBulk _) => apply says_bulk
  | |- says _ rNull => apply says_null
  | |- says _ rNullArray => apply says_nullArray
  | |- says _ (rArray _) => apply says_arrayOf
  | |- says _ (rInts ?r) => destruct r; cbn [rInts]
  | |- says _ (rOKs ?r) => destruct r; cbn [rOKs]
  | |- says _ (rBulks ?r) => destruct r; cbn [rBulks]
  | |- says _ (rFlags ?r) => destruct r; cbn [rFlags]
  | |- says _ (rArrays ?r) => destruct r; cbn [rArrays]
  | |- says _ (rEntry ?tw) => unfold rEntry
  | |- says _ (putCl _) => apply says_putCl; assumption
  | |- says _ (ondb _) => apply says_ondb
  | |- says _ (recordRead _) => apply says_read
  | |- says _ (readKey _ _) => apply says_readKey
  | |- says _ (replicated _ _ _ _ _ _) => apply says_replicated; [assumption|intros|]
  | |- says _ (getCl ≫= _) => apply says_getCl; intros ? ?
  | |- says _ (match ?x with _ => _ end) => destruct x eqn:?
  | |- says _ (emit (writeArrayHeader _) ≫= _) => apply says_array
  | |- says _ (emits _ ≫= _) => apply says_then; [|intros]
  | |- says _ (mgetLoop _ _ ≫= _) => apply says_then; [|intros]
  | |- says _ (_ ≫= _) => apply says_quiet; [|intros]
  end.
Ltac says := repeat says_step.

Section handlers.
Context {S : Type} {HS : Store S} {HD : DB S} {HG : GoText}.
Hypothesis texts : texts_ok.
Context (srv : Server S).
Hypothesis node : node_ok srv.

Lemma says_txDelete w k : says 0 (txDelete w k : st (Conn S) bool).
Proof. unfold txDelete. says. Qed.

Lemma says_txDeleteAll w keys n : says 0 (txDeleteAll w keys n : st (Conn S) Z).
Proof. revert n. induction keys as [|k keys IH]; intros n; cbn [txDeleteAll]; [apply says_ret|]. apply says_quiet; [apply says_txDelete|auto]. Qed.

Lemma says_txExpireKeys exp keys : says 0 (txExpireKeys exp keys : st (Conn S) unit).
Proof. induction keys as [|k keys IH]; cbn [txExpireKeys]; says. done. Qed.

Lemma says_txExpire w k sec : says 1 (txExpire w k sec : st (Conn S) bool).
Proof. unfold txExpire. says. apply says_txExpireKeys. Qed.

Lemma says_txCurrent w key : says 0 (txCurrent w key : st (Conn S) (option Z)).
Proof. unfold txCurrent. says. Qed.

Lemma says_incr w args delta : says 1 (cmdIncrByDelta srv w args delta).
Proof using texts node. unfold cmdIncrByDelta. says. apply says_txCurrent. Qed.

Lemma says_mgetLoop w keys : says (length keys) (mgetLoop w keys : st (Conn S) unit).
Proof.
  induction keys as [|k keys IH]; cbn [mgetLoop length]; [apply says_ret|]. apply says_getCl. intros cl Hcl. apply (says_bind 1); [says|auto].
Qed.

Lemma says_present vals present : says (length vals) (emits (imap (fun i v => presentBulk i present v) vals) : st (Conn S) unit).
Proof.
  set (f := fun i v => if default false (present !! i) then VBulk v else VNull).
  pose proof (says_emits (S := S) (imap f vals)) as H. rewrite length_imap, fmap_imap in H.
  rewrite (imap_ext _ (fun i v => encodeResp (f i v))); [apply H|].
  - apply Forall_forall. intros v Hv. apply elem_of_lookup_imap in Hv as (i & y & -> & _). unfold f. by case_match.
  - intros i v _. unfold presentBulk, f. by case_match.
Qed.

Lemma says_pairs (m : gmap bytes bytes) :
  says (size m * 2) (emits (map_to_list m ≫= (fun fv => [writeBulkString fv.1; writeBulkString fv.2])) : st (Conn S) unit).
Proof.
  rewrite <- length_map_to_list. induction (map_to_list m) as [|fv l IH]; [apply says_ret|]. cbn [length Nat.mul mbind list_bind app emits].
  apply (says_bind 1); [by apply (says_emit (VBulk fv.1))|intros _]. apply (says_bind 1); [by apply (says_emit (VBulk fv.2))|auto].
Qed.

(** A page of keys is an array of the cursor and an array. *)
Lemma says_page next keys : says 1 (_ ← emit (writeArrayHeader 2); _ ← emit (writeBulkString next); rArray keys : st (Conn S) bool).
Proof. apply says_array. apply (says_bind 1); [by apply (says_emit (VBulk next))|intros _; apply says_arrayOf]. Qed.

Lemma says_del w args : says 1 (cmdDel srv w args).
Proof using texts node. unfold cmdDel. says. apply says_txDeleteAll. Qed.

Lemma says_expire w args : says 1 (cmdExpire srv w args).
Proof using texts node. unfold cmdExpire. says. apply says_txExpire. Qed.

Lemma says_mget w args : says 1 (cmdMGet srv w args).
Proof using texts.
  unfold cmdMGet. says; [apply says_mgetLoop|apply says_present].
Qed.

Lemma says_scan w args : Forall wf_bytes args -> says 1 (cmdScan srv w args).
Proof using texts.
  intros Hargs. unfold cmdScan. destruct Hargs as [|a args Ha Hargs]; [says|]. destruct (scanOptions _ _ _) as [[pattern count]|]; [|says].
  apply says_quiet; [apply says_ondb|]. intros [[keys next]|]; [apply says_page|says].
Qed.

Lemma says_hgetall w args : says 1 (cmdHGetAll srv w args).
Proof using texts. unfold cmdHGetAll. says. apply says_pairs. Qed.

Lemma says_popped res : says 1 (rPopped res : st (Conn S) bool).
Proof. unfold rPopped. says. Qed.

Lemma says_count res : says 1 (rCount res : st (Conn S) bool).
Proof. apply says_int. Qed.

Lemma says_bitCountIn w k a b mode : says 1 (bitCountIn w k a b mode : st (Conn S) bool).
Proof using texts. unfold bitCountIn. says. Qed.

Definition handler_says (h : Server S -> World -> list bytes -> st (Conn S) bool) : Prop := forall w args, Forall wf_bytes args -> says 1 (h srv w args).

Ltac head_of t := lazymatch t with ?f _ => head_of f | _ => t end.
Ltac says_known := first
  [ apply says_del | apply says_expire | apply says_incr | apply says_mget | by apply says_scan | apply says_hgetall
  | apply says_popped | apply says_count | apply says_bitCountIn ].
Ltac says_handler :=
  intros w args Hargs; cbn [snd];
  first [ says_known | match goal with |- says _ ?t => let f := head_of t in unfold f end; says; try says_known ].

Lemma says_quit : handler_says cmdQuit.
Proof. intros w args _. apply says_then; [says|intros; apply says_ret]. Qed.

Lemma says_multi : handler_says cmdMulti.
Proof. intros w args _. unfold cmdMulti. says. apply says_putCl. constructor. Qed.

Lemma says_discard : handler_says cmdDiscard.
Proof. intros w args _. unfold cmdDiscard. says. apply says_putCl. constructor. Qed.

Lemma handlers_say : Forall (fun nh => handler_says nh.2) handlers.
Proof using texts node.
  unfold handlers. cbn [fmap list_fmap prod_map fst snd id].
  repeat (apply Forall_cons; split; [first [apply says_quit | apply says_multi | apply says_discard | solve [says_handler]]|]).
  constructor.
Qed.

Lemma assoc_In name (l : list (bytes * (Server S -> World -> list bytes -> st (Conn S) bool))) h : assoc name l = Some h -> (name, h) ∈ l.
Proof. induction l as [|[n h'] l IH]; cbn [assoc]; [done|]. case_bool_decide; [intros [= ->]; subst; left|right; auto]. Qed.

Lemma says_runNamed w name args : request_ok name args -> says 1 (runNamed srv w name args).
Proof using texts node.
  intros [Hp Hargs]. unfold runNamed, lookupHandler. destruct (assoc name handlers) as [h|] eqn:E.
  - apply assoc_In in E. by apply (proj1 (Forall_forall _ _) handlers_say _ E).
  - apply says_error. unfold unknownCommand. repeat apply plain_app; plain_text.
Qed.

Lemma says_replay w queue : Forall (fun q => request_ok q.1 q.2) queue -> says (length queue) (replay srv w queue).
Proof using texts node.
  induction 1 as [|q queue Hq _ IH]; cbn [replay length]; [apply says_ret|]. apply (says_bind 1); [by apply says_runNamed|auto].
Qed.

(** What was captured is so many replies. *)
Lemma says_captured {A B} n n' (m : st (Conn S) A) (k : A * bytes -> st (Conn S) B) : says n m ->
  (forall a vs, length vs = n -> Forall typed vs -> says n' (k (a, concat (encodeResp <$> vs)))) -> says n' (captured m ≫= k).
Proof.
  intros Hm Hk c b c' Hok E. unfold mbind, st_bind, captured in E. destruct (m _) as [[a c1]|] eqn:Em; [|done].
  destruct (Hm (mkConn (cn_db c) (cn_cl c) []) a c1 Hok Em) as (Hok1 & vs & L & T & O). cbn in O. rewrite O in E.
  by apply (Hk a vs L T (mkConn (cn_db c1) (cn_cl c1) (cn_out c)) b c').
Qed.

Lemma says_results n vs : length vs = n -> Forall typed vs ->
  says 1 (_ ← emit (writeArrayHeader n); _ ← emit (concat (encodeResp <$> vs)); mret false : st (Conn S) bool).
Proof.
  intros L T. apply says_array, says_then; [|intros; apply says_ret]. intros c ? ? Hok [= <- <-]. split; [done|]. by exists vs.
Qed.

Lemma says_commit w readTs vs n : length vs = n -> Forall typed vs -> says 1 (commitQueue srv w readTs n (concat (encodeResp <$> vs))).
Proof using texts node.
  intros L T. apply says_getCl. intros cl Hcl. apply says_quiet; [by apply says_putCl|intros _]. case_match; [by apply says_results|].
  apply says_quiet; [apply says_ondb|]. intros [ts|e]; [|says]. intros c a c' Hok E. unfold mbind, st_bind in E. cbn beta in E.
  destruct (ondb _ c) as [[r c1]|] eqn:Ea; [|done]. destruct (says_ondb _ _ _ _ Hok Ea) as (Hok1 & vs' & L' & _ & O).
  apply nil_length_inv in L' as ->. cbn in O. rewrite app_nil_r in O. rewrite <- O. destruct r as [msg|]; [|by eapply says_results].
  assert (plain msg) as Hmsg.
  { unfold applyTx, ondb in Ea. unfold node_ok in node. destruct (sv_cluster srv) as [nd|].
    - destruct (ApplyWriteVersion nd w _ ts (cn_db c)) as [[x s]|] eqn:Ew; [|done]. injection Ea as -> _. exact (proj2 node _ _ _ _ _ _ Ew).
    - unfold mbind, st_bind in Ea. destruct (db_BatchApplyWithVersion _ _ _ _) as [[[e|] s]|]; [|done..]. injection Ea as <- _. by apply plain_errText. }
  revert E. apply (says_quiet 1); [apply says_ondb| |done]. intros _. apply says_error, plain_app; plain_text.
Qed.

Lemma says_exec : handler_says cmdExec.
Proof using texts node.
  intros w args _. apply says_getCl. intros cl Hcl. case_match; [says|]. case_match.
  - says. apply says_putCl. constructor.
  - apply says_quiet; [apply says_putCl; constructor|intros _]. eapply says_captured; [by apply says_replay|]. intros a vs L T. cbn [snd].
    apply says_getCl. intros cl' Hcl'. apply says_quiet; [by apply says_putCl|intros _].
    apply says_then; [by apply says_commit|intros b]. apply says_quiet; [apply says_ondb|intros _; apply says_ret].
Qed.

(** ** Requests *)

Definition handedOver (n : next) : bool := match n with Subscribing | Syncing => true | _ => false end.

(** One reply, or none when the connection is handed over. *)
Definition answers (m : st (Conn S) next) : Prop := forall c n c', cl_ok (cn_cl c) -> m c = Some (n, c') ->
  cl_ok (cn_cl c') /\ exists vs, length vs = (if handedOver n then 0 else 1)%nat /\ Forall typed vs /\ cn_out c' = cn_out c ++ concat (encodeResp <$> vs).

Lemma answers_then (m : st (Conn S) bool) (f : bool -> next) : says 1 m -> (forall b, handedOver (f b) = false) -> answers (b ← m; mret (f b)).
Proof.
  intros Hm Hf c n c' Hok E. unfold mbind, st_bind in E. destruct (m c) as [[b c1]|] eqn:Em; [|done]. injection E as <- <-. rewrite Hf. by eapply Hm.
Qed.

Lemma answers_over n : handedOver n = true -> answers (mret n).
Proof. intros Hn c ? ? Hok [= <- <-]. rewrite Hn. by apply (says_ret n c n c). Qed.

Lemma answers_getCl (k : client -> st (Conn S) next) : (forall cl, cl_ok cl -> answers (k cl)) -> answers (getCl ≫= k).
Proof. intros Hk c n c' Hok E. by apply (Hk (cn_cl c) Hok). Qed.

Lemma answers_putCl cl (k : unit -> st (Conn S) next) : cl_ok cl -> answers (k tt) -> answers (putCl cl ≫= k).
Proof. intros Hcl Hk c n c' Hok E. by apply (Hk (mkConn (cn_db c) cl (cn_out c))). Qed.

Lemma says_find name h : findHandler name = Some h -> handler_says h.
Proof using texts node.
  unfold findHandler. case_bool_decide; [intros [= <-]; apply says_exec|]. intros E w args Hargs. unfold lookupHandler in E.
  destruct (assoc name handlers) as [h'|] eqn:Ea; [|done]. injection E as <-. apply assoc_In in Ea.
  by apply (proj1 (Forall_forall _ _) handlers_say _ Ea).
Qed.

Lemma says_auth : handler_says cmdAuth.
Proof. intros w args _. unfold cmdAuth. says. Qed.

Lemma plain_lower s : plain s -> plain (ToLower s).
Proof. intros H. apply Forall_fmap. eapply Forall_impl; [exact H|]. intros c [H1 H2]. cbn. unfold lowerByte. case_if; lia. Qed.

Lemma request_answers w a args : plain a -> Forall wf_bytes args -> answers (handleRequest srv w (a :: args)).
Proof using texts node.
  intros Ha%(plain_upper texts) Hargs. cbn [handleRequest]. set (cmd := ToUpper a) in *.
  case_bool_decide; [apply answers_then; [by apply says_auth|done]|]. case_bool_decide; [apply answers_then; [by apply says_quit|done]|].
  apply answers_getCl. intros cl Hcl. destruct (_ && _); [apply answers_then; [says|done]|].
  case_bool_decide; [by apply answers_over|]. destruct (_ || _); [by apply answers_over|]. destruct (_ && _); [case_bool_decide|].
  - apply answers_putCl; [done|]. apply answers_then; [|done]. apply says_error, plain_app; [plain_text|]. apply plain_app; [by apply plain_lower|plain_text].
  - apply answers_putCl; [apply Forall_app; by repeat constructor|]. apply answers_then; [says|done].
  - destruct (findHandler cmd) as [h|] eqn:Ef; [apply answers_then; [by eapply says_find|by intros []]|].
    apply answers_then; [|done]. apply says_error. unfold unknownCommand. repeat apply plain_app; plain_text.
Qed.
End handlers.

(** ** Pipelines *)

(** A sequence of replies is read back. *)
Lemma readMany_encode vs fuel : Forall typed vs -> Z.of_nat (length (concat (encodeResp <$> vs))) < 2 ^ 63 -> (list_max (depth <$> vs) <= fuel)%nat ->
  readMany (readReply fuel) (length vs) (concat (encodeResp <$> vs)) = Some (vs, []).
Proof.
  induction 1 as [|v vs Hv _ IH]; [done|]. rewrite fmap_cons. cbn [concat length readMany fmap list_fmap list_max]. rewrite length_app. intros Hl Hf.
  change (list_max (depth v :: (depth <$> vs))) with (Nat.max (depth v) (list_max (depth <$> vs))) in Hf.
  rewrite readReply_encode by (try apply typed_fits; (done || lia)). rewrite IH by lia. done.
Qed.

(** What a client may send: a command whose name is on one line, with
    arguments of any bytes. *)
Record sendable (req : list bytes) : Prop := {
  sd_count : Z.of_nat (length req) <= maxArrayLength;
  sd_args : Forall arg_ok req;
  sd_bytes : Forall wf_bytes req;
  sd_name : exists a args, req = a :: args /\ plain a;
}.

Section pipeline.
Context {S : Type} {HS : Store S} {HD : DB S} {HG : GoText}.

Lemma serve_replies (srv : Server S) : texts_ok -> node_ok srv -> 
  forall worlds reqs c n rest c', cl_ok (cn_cl c) -> Forall sendable reqs -> length worlds = length reqs ->
  serveInput srv worlds (concat (encodeRequest <$> reqs)) c = Some ((n, rest), c') ->
  exists k vs, (k <= length reqs)%nat /\ (n = Continue -> k = length reqs) /\ rest = concat (encodeRequest <$> drop k reqs) /\
    k = (length vs + if handedOver n then 1 else 0)%nat /\ Forall typed vs /\ cn_out c' = cn_out c ++ concat (encodeResp <$> vs).
Proof.
  intros Ht Hn worlds. induction worlds as [|w worlds IH]; intros [|req reqs] c n rest c' Hok Hreqs Hw E; try discriminate Hw.
  { injection E as <- <- <-. exists 0%nat, []. by rewrite app_nil_r. }
  injection Hw as Hw. apply Forall_cons in Hreqs as [Hreq Hreqs]. destruct Hreq as [S1 S2 S3 (a & args & -> & Ha)]. cbn [serveInput] in E.
  rewrite fmap_cons in E. cbn [concat] in E. rewrite parseRESP_encode in E by done. apply Forall_cons in S3 as [_ S3]. unfold mbind, st_bind in E.
  destruct (handleRequest _ _ _ c) as [[n1 c1]|] eqn:E1; [|done].
  destruct (request_answers Ht srv Hn w a args Ha S3 c n1 c1 Hok E1) as (Hok1 & vs & Hl & Hvs & Hout).
  destruct n1; try (injection E as <- <- <-; exists 1%nat, vs; rewrite Hl; cbn [length drop handedOver]; repeat split; (done || lia)).
  destruct (IH reqs c1 n rest c' Hok1 Hreqs Hw E) as (k & vs' & Hk & Hc & Hr & Hl' & Hvs' & Hout').
  exists (Datatypes.S k), (vs ++ vs'). rewrite length_app, Hl, Hout', Hout, fmap_app, concat_app, app_assoc. cbn [length drop handedOver].
  split; [lia|]. split; [intros Hcont; by rewrite Hc|]. split; [done|]. split; [lia|]. split; [by apply all_typed_app|done].
Qed.

(** C4. A connection speaks the protocol. However many requests a client sends
    at once, the server takes them in order, and, unless a handler or the
    database panics, what it writes is a sequence of well-formed replies,
    exactly one for each request taken: a client that reads values off the
    stream finds as many as it sent commands, nested arrays, nulls and errors
    included, and nothing between or behind them. It takes all requests unless
    one of them closes the connection or hands it over to a subscription or a
    replica, and leaves those behind unread. The name of a command has no line
    break, since an unknown name is repeated in the error reply as it is, and
    neither have the texts of network errors and of the errors of a cluster's
    node. *)
Theorem pipeline_replies (srv : Server S) worlds reqs c n rest c' :
  texts_ok -> node_ok srv -> cl_ok (cn_cl c) ->
  Forall sendable reqs -> length worlds = length reqs ->
  serveInput srv worlds (concat (encodeRequest <$> reqs)) c = Some ((n, rest), c') ->
  exists k vs, (k <= length reqs)%nat /\ (n = Continue -> k = length reqs) /\ rest = concat (encodeRequest <$> drop k reqs) /\
    k = (length vs + if handedOver n then 1 else 0)%nat /\ Forall typed vs /\ cn_out c' = cn_out c ++ concat (encodeResp <$> vs) /\
    (Z.of_nat (length (concat (encodeResp <$> vs))) < 2 ^ 63 ->
     exists fuel, readMany (readReply fuel) (length vs) (concat (encodeResp <$> vs)) = Some (vs, [])).
Proof.
  intros Ht Hn Hok Hreqs Hw E. destruct (serve_replies srv Ht Hn worlds reqs c n rest c' Hok Hreqs Hw E) as (k & vs & Hk & Hc & Hr & Hl & Hvs & Hout).
  exists k, vs. repeat (split; [done|]). intros Hlen. exists (list_max (depth <$> vs)). by apply readMany_encode.
Qed.
End pipeline.
