(* ===== verification/ServerWire.v ===== *)
(** * Commands over the wire

    Requests for the commands of [CollSpec], and that the server answers them
    with what the database answers. *)
From Stdlib Require Import String.
From S2P Require Import Prelude Mvcc Strconv Encoding Engine Scan Store Collections Bitmaps BitmapSpec BitmapOps CollKeys CollOps CollZsets CollSpec Resp RespSpec Server ServerKv ServerColl ServerConn ServerType.

(** [strconv]: the shortest decimal is read back, and is on one line. *)
Definition floats_ok `{!GoText} : Prop := forall s, score_ok s -> ParseFloat (FormatFloat s) = Some s.

(** A list of arguments that must not be empty. *)
Definition some_args (l : list bytes) (req : list bytes) : option (list bytes) := match l with [] => None | _ => Some req end.

Section wire.
Context {S : Type} {HS : Store S} {HD : DB S} {HG : GoText}.

Definition num (n : Z) : bytes := FormatInt n.

(** The request for a command, when there is one. *)
Definition request (c : cmd) : option (list bytes) :=
  match c with
  | CSet k v x => Some (str "SET" :: k :: v :: if x =? 0 then [] else [str "EXAT"; num x])
  | CGet k => Some [str "GET"; k]
  | CHSetMulti h fields => if Nat.even (length fields) then some_args fields (str "HSET" :: h :: fields) else None
  | CHGet h f => Some [str "HGET"; h; f]
  | CHDel h f => Some [str "HDEL"; h; f]
  | CHGetAll h => Some [str "HGETALL"; h]
  | CHLen h => Some [str "HLEN"; h]
  | CHKeys h => Some [str "HKEYS"; h]
  | CSAdd k ms => some_args ms (str "SADD" :: k :: ms)
  | CSRem k ms => some_args ms (str "SREM" :: k :: ms)
  | CSMembers k => Some [str "SMEMBERS"; k]
  | CSIsMember k m => Some [str "SISMEMBER"; k; m]
  | CSCard k => Some [str "SCARD"; k]
  | CSInter ks => some_args ks (str "SINTER" :: ks)
  | CLPush k vs => some_args vs (str "LPUSH" :: k :: vs)
  | CRPush k vs => some_args vs (str "RPUSH" :: k :: vs)
  | CLPop k => Some [str "LPOP"; k]
  | CRPop k => Some [str "RPOP"; k]
  | CLLen k => Some [str "LLEN"; k]
  | CLRange k a b => Some [str "LRANGE"; k; num a; num b]
  | CZAdd k ms => Some (str "ZADD" :: k :: ms ≫= (fun m => [FormatFloat (zs_score m); zs_member m]))
  | CZScore k m => Some [str "ZSCORE"; k; m]
  | CZRem k ms => some_args ms (str "ZREM" :: k :: ms)
  | CZRangeByScore k a b => Some [str "ZRANGEBYSCORE"; k; FormatFloat a; FormatFloat b]
  | CSetBit k o v => if (v =? 0) || (v =? 1) then Some [str "SETBIT"; k; num o; num v] else None
  | CGetBit k o => Some [str "GETBIT"; k; num o]
  | CBitCount k => Some [str "BITCOUNT"; k]
  | CBitCountRange k a b m => Some [str "BITCOUNT"; k; num a; num b; str (if m then "BIT" else "BYTE")]
  | CHSet _ _ _ | CDeleteBitmap _ | CDelete _ | CExists _ => None
  end.

(** Reads and pops answer an error with null. *)
Definition hidesErrors (c : cmd) : bool := match c with CGet _ | CHGet _ _ | CLPop _ | CRPop _ => true | _ => false end.

Definition wire (c : cmd) (r : reply) : resp :=
  match r with
  | RInt n => match c with CSet _ _ _ => VSimple (str "OK") | _ => VInt (i64 n) end
  | RBulk (Some v) => VBulk v
  | RBulk None => VNull
  | RMap m => VArray (map_to_list m ≫= (fun fv => [VBulk fv.1; VBulk fv.2]))
  | RList l => VArray (VBulk <$> l)
  | RScore (Some s) => VBulk (FormatFloat s)
  | RScore None => VNull
  | RErr e => if hidesErrors c then VNull else VError (errText e)
  end.

(** Null is an answer of commands that read a value. *)
Definition null_fits (c : cmd) (r : reply) : Prop := hidesErrors c = false -> r <> RBulk None.

(** A client outside of transactions. *)
Definition calm (cl : client) : Prop := cl_inTx cl = false /\ cl_txWrites cl = None /\ cl_execReadTs cl = 0.

(** The handler [h] answers like the command. *)
Definition like (c : cmd) (m : st S reply) (h : st (Conn S) bool) : Prop := forall conn r s, calm (cn_cl conn) ->
  m (cn_db conn) = Some (r, s) -> null_fits c r -> h conn = Some (false, mkConn s (cn_cl conn) (cn_out conn ++ encodeResp (wire c r))).

Lemma like_ondb {A} c (m : st S A) (f : A -> reply) (g : A -> st (Conn S) bool) :
  (forall a, null_fits c (f a) -> forall conn, g a conn = Some (false, mkConn (cn_db conn) (cn_cl conn) (cn_out conn ++ encodeResp (wire c (f a))))) ->
  like c (a ← m; mret (f a)) (a ← ondb m; g a).
Proof.
  intros H conn r s _ E Hn. unfold mbind, st_bind, ondb in *. destruct (m (cn_db conn)) as [[a s1]|]; [|done].
  injection E as <- <-. by apply (H a Hn (mkConn s1 (cn_cl conn) (cn_out conn))).
Qed.

Lemma emits_out bs (conn : Conn S) : emits bs conn = Some (tt, mkConn (cn_db conn) (cn_cl conn) (cn_out conn ++ concat bs)).
Proof.
  revert conn. induction bs as [|b bs IH]; intros conn; [destruct conn; cbn; by rewrite app_nil_r|].
  cbn [emits concat]. unfold mbind, st_bind, emit. rewrite IH. cbn. by rewrite app_assoc.
Qed.

Lemma array_out vals (conn : Conn S) :
  rArray vals conn = Some (false, mkConn (cn_db conn) (cn_cl conn) (cn_out conn ++ encodeResp (VArray (VBulk <$> vals)))).
Proof.
  unfold rArray, mbind, st_bind, emit. rewrite emits_out. cbn [cn_db cn_cl cn_out encodeResp mret st_ret].
  by rewrite length_fmap, <- list_fmap_compose, <- app_assoc.
Qed.

Lemma like_int c m : (forall n, wire c (RInt n) = VInt (i64 n)) -> hidesErrors c = false ->
  like c (r ← m; mret (reply_of RInt r)) (r ← ondb m; rInts r).
Proof.
  intros Hw Hh. apply like_ondb. intros [n|e] Hn conn; [cbn [reply_of rInts]; by rewrite Hw|]. specialize (Hn Hh).
  destruct e; cbn in Hn |- *; rewrite ?Hh; done.
Qed.

Lemma like_okay {A} c (m : st S A) (f : A -> reply) (g : result A -> st (Conn S) bool) :
  (forall a conn, g (Ok a) conn = Some (false, mkConn (cn_db conn) (cn_cl conn) (cn_out conn ++ encodeResp (wire c (f a))))) ->
  like c (a ← m; mret (f a)) (r ← ondb (okay m); g r).
Proof.
  intros H conn r s _ E _. unfold okay, mbind, st_bind, ondb in *. destruct (m (cn_db conn)) as [[a s1]|]; [|done].
  injection E as <- <-. by apply (H a (mkConn s1 (cn_cl conn) (cn_out conn))).
Qed.

Lemma like_bulk c m : hidesErrors c = true -> like c (r ← m; mret (reply_of bulk r)) (r ← ondb m; rBulks r).
Proof. intros Hh. apply like_ondb. intros [v|e] _ conn; [done|]. destruct e; cbn; by rewrite ?Hh. Qed.

Lemma like_flag c m : (forall n, wire c (RInt n) = VInt (i64 n)) -> hidesErrors c = false ->
  like c (r ← m; mret (reply_of flag r)) (r ← ondb m; rFlags r).
Proof.
  intros Hw Hh. apply like_ondb. intros [b|e] Hn conn; [destruct b; cbn [reply_of rFlags]; unfold flag; by rewrite Hw|]. specialize (Hn Hh).
  destruct e; cbn in Hn |- *; rewrite ?Hh; done.
Qed.

Lemma like_list c m : (forall l, wire c (RList l) = VArray (VBulk <$> l)) -> like c (l ← m; mret (RList l)) (r ← ondb (okay m); rArrays r).
Proof. intros Hw. apply like_okay. intros l conn. cbn [rArrays]. by rewrite array_out, Hw. Qed.

Lemma like_count c m : (forall n, wire c (RInt n) = VInt (i64 n)) -> like c (n ← m; mret (RInt n)) (r ← ondb (okay m); rInts r).
Proof. intros Hw. apply like_okay. intros n conn. by rewrite Hw. Qed.

Lemma like_calm c m h h' : (forall conn, calm (cn_cl conn) -> h conn = h' conn) -> like c m h' -> like c m h.
Proof. intros E H conn r s Hc Hm Hn. rewrite E by done. by apply H. Qed.

Context (srv : Server S).
Hypothesis alone : sv_cluster srv = None.

Lemma alone_runs w op args handled else_ conn : replicated srv w op args handled else_ conn = else_ conn.
Proof using alone. unfold replicated, applyReplicated. by rewrite alone. Qed.

Lemma like_alone c m w op args handled else_ : like c m else_ -> like c m (replicated srv w op args handled else_).
Proof using alone. apply like_calm. intros. apply alone_runs. Qed.

(** ** The commands *)

Lemma oddPairs_even k l : l <> [] -> Nat.even (length l) = true -> oddPairs (k :: l) = false.
Proof.
  intros Hne He. unfold oddPairs. cbn [length]. rewrite Nat.sub_1_r, Nat.pred_succ, He. destruct l as [|a [|b l]]; done.
Qed.

Lemma setOptions_exat now x : is_i64 x -> setOptions now (if x =? 0 then [] else [str "EXAT"; num x]) false 0 = inl (false, x).
Proof.
  intros Hx. destruct (Z.eqb_spec x 0) as [->|]; [done|]. cbn [setOptions]. change (ToUpper (str "EXAT")) with (str "EXAT").
  change (bool_decide (str "EXAT" = str "SKIPWAL")) with false. change (bool_decide (str "EXAT" = str "SYNC")) with false.
  change (bool_decide (str "EXAT" ∈ _)) with true. cbv iota. unfold num. rewrite ParseInt_FormatInt by done. done.
Qed.

Lemma like_set w k v x : is_i64 x ->
  like (CSet k v x) (exec w (CSet k v x)) (cmdSet srv w (k :: v :: if x =? 0 then [] else [str "EXAT"; num x])).
Proof using alone.
  intros Hx. unfold cmdSet. rewrite setOptions_exat by done.
  apply (like_calm _ _ _ (r ← ondb (db_PutExAt w (strKey k) v x false); rOKs r)).
  - intros conn (_ & Hw & _). unfold mbind at 1, st_bind at 1, getCl. rewrite Hw. apply alone_runs.
  - apply like_ondb. intros [e|] Hn conn; done.
Qed.

Lemma like_get w k : like (CGet k) (exec w (CGet k)) (cmdGet srv w [k]).
Proof.
  apply (like_calm _ _ _ (r ← ondb (db_Get (wd_now w) (strKey k)); rBulks r)); [|by apply like_bulk].
  intros conn (Ht & Hw & He). cbn [cmdGet]. unfold mbind at 1, st_bind at 1, getCl, buffered. rewrite Hw, Ht, He. cbn [mbind option_bind orb Z.ltb Z.compare].
  unfold readKey, getCl, mbind, st_bind, mret, st_ret. by rewrite He.
Qed.

Lemma pairs_encode (l : list (bytes * bytes)) :
  encodeResp (VArray (l ≫= (fun fv => [VBulk fv.1; VBulk fv.2]))) =
  writeArrayHeader (length l * 2) ++ concat (l ≫= (fun fv => [writeBulkString fv.1; writeBulkString fv.2])).
Proof.
  cbn [encodeResp]. f_equal.
  - f_equal. induction l as [|fv l IH]; [done|]. rewrite bind_cons, length_app, IH. cbn [length]. lia.
  - induction l as [|fv l IH]; [done|]. rewrite !bind_cons, fmap_app, !concat_app, IH. done.
Qed.

Lemma like_hgetall w h : like (CHGetAll h) (exec w (CHGetAll h)) (cmdHGetAll srv w [h]).
Proof.
  apply like_okay. intros m conn. cbn [wire]. rewrite pairs_encode, length_map_to_list, app_assoc.
  unfold mbind at 1, st_bind at 1, emit, mbind at 1, st_bind at 1. by rewrite emits_out.
Qed.

Lemma like_zscore w k m : like (CZScore k m) (exec w (CZScore k m)) (cmdZScore srv w [k; m]).
Proof.
  apply like_ondb. intros [[s [|]]|e] Hn conn; [done..|]. specialize (Hn eq_refl). destruct e; cbn in Hn |- *; done.
Qed.

Lemma parseMembers_format ms acc : floats_ok -> Forall (fun m => score_ok (zs_score m)) ms ->
  parseMembers (ms ≫= (fun m => [FormatFloat (zs_score m); zs_member m])) acc = Some (acc ++ ms).
Proof.
  intros Hf H. revert acc. induction H as [|m ms Hm _ IH]; intros acc; [cbn; by rewrite app_nil_r|]. cbn [mbind list_bind app parseMembers].
  rewrite Hf by done. rewrite (proj2 Hm). change (list_bind _ _ _ ms) with (ms ≫= (fun m => [FormatFloat (zs_score m); zs_member m])).
  rewrite IH, <- app_assoc. by destruct m.
Qed.

(** A command in capitals that the connection loop passes to its handler. *)
Definition ordinary (name : bytes) : bool :=
  isAscii name && bool_decide (upperByte <$> name = name) &&
  negb (bool_decide (name ∈ str <$> ["AUTH"; "QUIT"; "SUBSCRIBE"; "SYNC"; "PSYNC"; "EXEC"]%string)).

Definition handled (w : World) (c : cmd) (req : list bytes) : Prop := exists name args h,
  req = str name :: args /\ assoc (str name) handlers = Some h /\ ordinary (str name) = true /\ like c (exec w c) (h srv w args).

Ltac handled name := eexists name, _, _; split; [reflexivity|]; split; [reflexivity|]; split; [vm_compute; reflexivity|]; cbn [id fst snd].

Lemma handled_strings w c d req : cmd_ok d c -> request c = Some req ->
  match c with CSet _ _ _ | CGet _ => True | _ => False end -> handled w c req.
Proof using alone.
  intros Hok Hr Hc. destruct c; try done; injection Hr as <-.
  - handled "SET"%string. by apply like_set, Hok.
  - handled "GET"%string. apply like_get.
Qed.

Lemma handled_hashes w c req : request c = Some req ->
  match c with CHSetMulti _ _ | CHGet _ _ | CHDel _ _ | CHGetAll _ | CHLen _ | CHKeys _ => True | _ => False end -> handled w c req.
Proof using alone.
  intros Hr Hc. destruct c; try done; cbn [request] in Hr.
  - destruct (Nat.even (length fields)) eqn:Ev; [|done]. destruct fields as [|f fields]; [done|]. injection Hr as <-. handled "HSET"%string.
    cbn [cmdHSet]. rewrite oddPairs_even by done. by apply like_alone, like_int.
  - injection Hr as <-. handled "HGET"%string. by apply like_bulk.
  - injection Hr as <-. handled "HDEL"%string. by apply like_alone, like_flag.
  - injection Hr as <-. handled "HGETALL"%string. apply like_hgetall.
  - injection Hr as <-. handled "HLEN"%string. by apply like_count.
  - injection Hr as <-. handled "HKEYS"%string. by apply like_list.
Qed.

Lemma handled_sets w c req : request c = Some req ->
  match c with CSAdd _ _ | CSRem _ _ | CSMembers _ | CSIsMember _ _ | CSCard _ | CSInter _ => True | _ => False end -> handled w c req.
Proof using alone.
  intros Hr Hc. destruct c; try done; cbn [request] in Hr.
  - destruct members; [done|]. injection Hr as <-. handled "SADD"%string. by apply like_alone, like_int.
  - destruct members; [done|]. injection Hr as <-. handled "SREM"%string. by apply like_alone, like_int.
  - injection Hr as <-. handled "SMEMBERS"%string. by apply like_list.
  - injection Hr as <-. handled "SISMEMBER"%string. apply like_okay. by intros [] conn.
  - injection Hr as <-. handled "SCARD"%string. by apply like_count.
  - destruct ks; [done|]. injection Hr as <-. handled "SINTER"%string. by apply like_list.
Qed.

Lemma handled_lists w c d req : cmd_ok d c -> request c = Some req ->
  match c with CLPush _ _ | CRPush _ _ | CLPop _ | CRPop _ | CLLen _ | CLRange _ _ _ => True | _ => False end -> handled w c req.
Proof using alone.
  intros Hok Hr Hc. destruct c; try done; cbn [request] in Hr.
  - destruct vs; [done|]. injection Hr as <-. handled "LPUSH"%string. by apply like_alone, like_int.
  - destruct vs; [done|]. injection Hr as <-. handled "RPUSH"%string. by apply like_alone, like_int.
  - injection Hr as <-. handled "LPOP"%string. by apply like_alone, like_bulk.
  - injection Hr as <-. handled "RPOP"%string. by apply like_alone, like_bulk.
  - injection Hr as <-. handled "LLEN"%string. by apply like_count.
  - injection Hr as <-. destruct Hok as (_ & H1 & H2). handled "LRANGE"%string. cbn [cmdLRange]. unfold num. rewrite !ParseInt_FormatInt by done.
    by apply like_list.
Qed.

Lemma handled_zsets w c d req : floats_ok -> cmd_ok d c -> request c = Some req ->
  match c with CZAdd _ _ | CZScore _ _ | CZRem _ _ | CZRangeByScore _ _ _ => True | _ => False end -> handled w c req.
Proof using alone.
  intros Hf Hok Hr Hc. destruct c; try done; cbn [request] in Hr.
  - injection Hr as <-. destruct Hok as (_ & Hne & Hms). handled "ZADD"%string. cbn [cmdZAdd].
    rewrite oddPairs_even; [|by destruct members|clear; induction members as [|m ms IH]; [done|]; by rewrite bind_cons].
    apply like_alone. rewrite parseMembers_format; [by apply like_int|done|]. eapply Forall_impl; [exact Hms|]. by intros m [_ ?].
  - injection Hr as <-. handled "ZSCORE"%string. apply like_zscore.
  - destruct members; [done|]. injection Hr as <-. handled "ZREM"%string. by apply like_alone, like_int.
  - injection Hr as <-. destruct Hok as (_ & H1 & H2). handled "ZRANGEBYSCORE"%string. cbn [cmdZRangeByScore]. rewrite !Hf by done. by apply like_list.
Qed.

Lemma parseOffset_num o : 0 <= o < 2 ^ 63 -> parseOffset (num o) = Some o.
Proof. intros Ho. unfold parseOffset, num. rewrite ParseInt_FormatInt by (unfold is_i64; lia). by rewrite (proj2 (Z.ltb_ge _ _)) by lia. Qed.

Lemma handled_bits w c d req : cmd_ok d c -> request c = Some req ->
  match c with CSetBit _ _ _ | CGetBit _ _ | CBitCount _ | CBitCountRange _ _ _ _ => True | _ => False end -> handled w c req.
Proof using alone.
  intros Hok Hr Hc. destruct c; try done; cbn [request] in Hr.
  - destruct (_ || _) eqn:Ev; [|done]. injection Hr as <-. destruct Hok as (_ & Ho & _). handled "SETBIT"%string. cbn [cmdSetBit].
    rewrite parseOffset_num by (unfold maxOffset in Ho; lia). unfold parseBit, num. rewrite ParseInt_FormatInt by (unfold is_i64; lia). rewrite Ev.
    by apply like_alone, like_int.
  - injection Hr as <-. destruct Hok as (_ & Ho). handled "GETBIT"%string. cbn [cmdGetBit].
    rewrite parseOffset_num by (unfold maxOffset in Ho; lia). by apply like_int.
  - injection Hr as <-. handled "BITCOUNT"%string. by apply like_count.
  - injection Hr as <-. destruct Hok as (_ & H1 & H2). handled "BITCOUNT"%string. cbn [cmdBitCount]. unfold bitCountIn, num.
    rewrite !ParseInt_FormatInt by (unfold is_i64; lia). destruct bitMode; by apply like_count.
Qed.

Lemma request_handled w c d req : floats_ok -> cmd_ok d c -> request c = Some req -> handled w c req.
Proof using alone.
  intros Hf Hok Hr.
  destruct c; try discriminate Hr; first [by eapply handled_strings | by apply handled_hashes | by apply handled_sets | by eapply handled_lists | by eapply handled_zsets | by eapply handled_bits].
Qed.

(** ** The connection *)

(** Outside of transactions, and allowed to use the database. *)
Definition ready (cl : client) : Prop := calm cl /\ (sv_password srv = [] \/ cl_authed cl = true).

Lemma ordinary_name name : ordinary name = true ->
  ToUpper name = name /\ name <> str "AUTH" /\ name <> str "QUIT" /\ name <> str "SUBSCRIBE" /\ name <> str "SYNC" /\ name <> str "PSYNC" /\ name <> str "EXEC".
Proof.
  unfold ordinary, ToUpper. intros [[-> H1%bool_decide_eq_true_1]%andb_true_iff H2]%andb_true_iff. split; [done|].
  apply negb_true_iff, bool_decide_eq_false in H2. cbn [fmap list_fmap] in H2. set_solver.
Qed.

Lemma wire_request w c req conn r s : handled w c req -> ready (cn_cl conn) -> exec w c (cn_db conn) = Some (r, s) -> null_fits c r ->
  handleRequest srv w req conn = Some (Continue, mkConn s (cn_cl conn) (cn_out conn ++ encodeResp (wire c r))).
Proof.
  intros (name & args & h & -> & Ha & Ho & Hl) [Hcalm Hauth] E Hn. apply ordinary_name in Ho as (Hu & N1 & N2 & N3 & N4 & N5 & N6).
  cbn [handleRequest]. rewrite Hu. rewrite !bool_decide_eq_false_2 by done. unfold mbind at 1, st_bind at 1, getCl.
  assert (negb (bool_decide (sv_password srv = [])) && negb (cl_authed (cn_cl conn)) = false) as ->.
  { destruct Hauth as [->| ->]; [done|apply andb_false_r]. }
  rewrite (bool_decide_eq_false_2 (_ = str "SUBSCRIBE")), (bool_decide_eq_false_2 (_ = str "SYNC")), (bool_decide_eq_false_2 (_ = str "PSYNC")) by done.
  rewrite (proj1 Hcalm). cbn [orb andb]. unfold findHandler, lookupHandler. rewrite (bool_decide_eq_false_2 (_ = str "EXEC")), Ha by done.
  unfold mbind, st_bind. by rewrite (Hl conn r s Hcalm E Hn).
Qed.
End wire.
