(* ===== verification/ServerGate.v ===== *)
(** * The password

    What a client that has not logged in can do. *)
From Stdlib Require Import String.
From S2P Require Import Prelude Mvcc Strconv Engine Store CollSpec Resp RespSpec Server ServerKv ServerColl ServerConn ServerType.

Section gate.
Context {S : Type} {HS : Store S} {HD : DB S} {HG : GoText}.
Context (srv : Server S).

(** The requests that are read from an input, [n] at most. *)
Fixpoint parsedRequests (n : nat) (r : bytes) : list (list bytes) :=
  match n with
  | O => []
  | Datatypes.S n => match parseRESP r with PArgs args r => args :: parsedRequests n r | _ => [] end
  end.

(** AUTH with the password, with or without a user name. *)
Definition logsIn (req : list bytes) : Prop :=
  exists a args, req = a :: args /\ ToUpper a = str "AUTH" /\ (length args <= 2)%nat /\ last args = Some (sv_password srv).

(** A change of nothing but the output. *)
Definition only_writes (c c' : Conn S) : Prop := cn_db c' = cn_db c /\ cn_cl c' = cn_cl c.

Lemma only_writes_refl c : only_writes c c.
Proof. done. Qed.

Lemma only_writes_trans c1 c2 c3 : only_writes c1 c2 -> only_writes c2 c3 -> only_writes c1 c3.
Proof. unfold only_writes. intros [-> ->] [-> ->]. done. Qed.

Hypothesis secured : sv_password srv <> [].

Lemma auth_refused w args c : ~ (length args <= 2)%nat \/ last args <> Some (sv_password srv) ->
  does (cmdAuth srv w args) c (fun _ c' => only_writes c c').
Proof.
  intros Hno. unfold cmdAuth. destruct args as [|a [|b' [|]]]; try done; rewrite (bool_decide_eq_false_2 (sv_password srv = [])) by done;
    (rewrite bool_decide_eq_false_2 by (destruct Hno as [Hno|Hno]; [cbn in Hno; lia|done])); done.
Qed.

Lemma locked_request w req c : cl_authed (cn_cl c) = false -> ~ logsIn req ->
  does (handleRequest srv w req) c (fun n c' => only_writes c c' /\ handedOver n = false).
Proof.
  intros Hauth Hno. destruct req as [|a args]; [done|]. cbn [handleRequest]. case_bool_decide as Ha.
  { eapply does_step; [apply auth_refused|by intros b c1 H]. destruct (decide (length args <= 2)%nat); [right|by left]. intros Hl. apply Hno. by exists a, args. }
  case_bool_decide; [done|]. unfold does, mbind at 1, st_bind at 1, getCl. rewrite Hauth, (bool_decide_eq_false_2 (sv_password srv = [])) by done. done.
Qed.

Lemma locked_input worlds : forall r c, cl_authed (cn_cl c) = false -> (forall req, req ∈ parsedRequests (length worlds) r -> ~ logsIn req) ->
  does (serveInput srv worlds r) c (fun n c' => only_writes c c' /\ handedOver n.1 = false).
Proof.
  induction worlds as [|w worlds IH]; intros r c Hauth Hno; cbn [serveInput length parsedRequests] in *; [done|].
  destruct (parseRESP r) as [args r1| |msg]; [|done..].
  eapply does_step; [apply locked_request; [done|apply Hno; left]|]. intros n1 c1 [Hw Hn].
  destruct n1; try done. eapply does_mono; [apply IH; [by rewrite (proj2 Hw)|intros req Hreq; apply Hno; by right]|].
  intros n2 c2 [Hw' Hn']. split; [by eapply only_writes_trans|done].
Qed.

(** C38. Without the password there is no access.  Whatever a client sends to a
    server with a password, well-formed or malformed: as long as none of its
    requests is AUTH with the password, the connection is served to its end
    without touching the database, without logging the client in, and without
    being handed over to a subscription or to replication. *)
Theorem no_password_no_access worlds r c :
  cl_authed (cn_cl c) = false -> cl_inTx (cn_cl c) = false -> (forall req, req ∈ parsedRequests (length worlds) r -> ~ logsIn req) ->
  exists n rest c', handleConnection srv worlds r c = Some ((n, rest), c') /\
    cn_db c' = cn_db c /\ cl_authed (cn_cl c') = false /\ handedOver n = false.
Proof.
  intros Hauth Htx Hno. destruct (does_inv _ _ _ (locked_input worlds r c Hauth Hno)) as ([n rest] & c1 & E & [H1 H2] & Hn).
  exists n, rest, c1. unfold handleConnection, mbind, st_bind, closeConn, getCl, mbind, st_bind. rewrite E, H2, Htx. by rewrite H1, Hauth.
Qed.
End gate.
