(* ===== verification/ServerTx.v ===== *)
(** * What EXEC replays

    Commands of a transaction as functions of the snapshot and of what the
    transaction wrote before, and that the replay of [EXEC] computes them. *)
From Stdlib Require Import String.
From S2P Require Import Prelude Mvcc Strconv Encoding Engine Scan Store Collections CollSpec Resp RespSpec Server ServerKv ServerColl ServerConn ServerType ServerWire.

(** ** Transactions on a snapshot *)

Inductive txcmd :=
  | TPing
  | TSet (k v : bytes) (expiresAt : Z)
  | TGet (k : bytes)
  | TMGet (ks : list bytes)
  | TIncr (k : bytes) (delta : Z).

(** The writes so far, with expiry times, and the keys read from the snapshot. *)
Definition txstate : Type := gmap bytes (bytes * Z) * gset bytes.

Section spec.
Context (snap : bytes -> option bytes).

Definition view (x : txstate) (k : bytes) : option bytes := match x.1 !! k with Some (v, _) => Some v | None => snap k end.
Definition reads (x : txstate) (k : bytes) : txstate := match x.1 !! k with Some _ => x | None => (x.1, {[k]} ∪ x.2) end.
Definition bulkOf (o : option bytes) : resp := match o with Some v => VBulk v | None => VNull end.

Definition txExec (x : txstate) (c : txcmd) : resp * txstate :=
  match c with
  | TPing => (VSimple (str "PONG"), x)
  | TSet k v exp => (VSimple (str "OK"), (<[strKey k := (v, exp)]> x.1, x.2))
  | TGet k => (bulkOf (view x (strKey k)), reads x (strKey k))
  | TMGet ks => (VArray ((fun k => bulkOf (view x (strKey k))) <$> ks), foldl (fun x k => reads x (strKey k)) x ks)
  | TIncr k delta =>
      let x' := reads x (strKey k) in
      match (match view x (strKey k) with None => Some 0 | Some v => ParseInt v end) with
      | None => (VError notInteger, x')
      | Some n => (VInt (i64 (n + delta)), (<[strKey k := (FormatInt (i64 (n + delta)), 0)]> x'.1, x'.2))
      end
  end.

Fixpoint txRun (x : txstate) (cs : list txcmd) : list resp * txstate :=
  match cs with
  | [] => ([], x)
  | c :: cs => let '(v, x) := txExec x c in let '(vs, x) := txRun x cs in (v :: vs, x)
  end.
End spec.

(** The queue entry of a command. *)
Definition txRequest (c : txcmd) : bytes * list bytes :=
  match c with
  | TPing => (str "PING", [])
  | TSet k v x => (str "SET", k :: v :: if x =? 0 then [] else [str "EXAT"; num x])
  | TGet k => (str "GET", [k])
  | TMGet ks => (str "MGET", ks)
  | TIncr k delta => (str "INCRBY", [k; num delta])
  end.

Definition tx_ok (c : txcmd) : Prop :=
  match c with TSet _ _ x => is_i64 x | TMGet ks => ks <> [] | TIncr _ delta => is_i64 delta | _ => True end.

(** ** The replay *)

Section replay.
Context {S : Type} {HS : Store S} {HD : DB S} {HG : GoText}.
Context (srv : Server S).
Context (Snap : S -> Prop) (w : World) (ts : Z) (snap : bytes -> option bytes).
Hypothesis ts_pos : 0 < ts.
Hypothesis snap_reads : forall s k, Snap s -> does (db_GetByVersion (wd_now w) k ts) s (fun r s' => r = kv_answer (snap k) /\ Snap s').

(** The client while [EXEC] replays. *)
Definition toEntry (vx : bytes * Z) : txWriteEntry := mkTxWrite vx.1 vx.2 false.
Definition during (cl : client) (x : txstate) : client :=
  set_execReadTs (set_tx cl false [] 0 (Some (toEntry <$> x.1)) (Some x.2) [] false) ts.

(** [m] answers [v] and leaves the transaction at [x]. *)
Definition replies {A} (m : st (Conn S) A) (cl : client) (x : txstate) (vs : list resp) (x' : txstate) : Prop :=
  forall s out, Snap s -> does m (mkConn s (during cl x) out)
    (fun _ c => cn_cl c = during cl x' /\ cn_out c = out ++ concat (encodeResp <$> vs) /\ Snap (cn_db c)).

Lemma replies_ret {A} (a : A) cl x : replies (mret a) cl x [] x.
Proof. intros s out Hs. apply does_ret. cbn. by rewrite app_nil_r. Qed.

Lemma replies_bind {A B} (m : st (Conn S) A) (k : A -> st (Conn S) B) cl x vs x1 vs' x2 :
  replies m cl x vs x1 -> (forall a, replies (k a) cl x1 vs' x2) -> replies (m ≫= k) cl x (vs ++ vs') x2.
Proof.
  intros Hm Hk s out Hs. eapply does_step; [by apply Hm|]. intros a [s' cl' out'] (E1 & E2 & Hs'). cbn in E1, E2, Hs'. subst.
  eapply does_mono; [by apply Hk|]. intros b c (E1 & E2 & E3). split; [done|]. split; [|done]. by rewrite E2, fmap_app, concat_app, app_assoc.
Qed.

Lemma replies_one (m : st (Conn S) bool) cl x v : (forall c, m c = Some (false, mkConn (cn_db c) (cn_cl c) (cn_out c ++ encodeResp v))) ->
  replies m cl x [v] x.
Proof. intros E s out Hs. unfold does. rewrite E. cbn. by rewrite app_nil_r. Qed.

Lemma replies_bulks o cl x : replies (rBulks (kv_answer o)) cl x [bulkOf o] x.
Proof. apply replies_one. by destruct o. Qed.

Lemma buffered_during cl x k : buffered (during cl x) k = toEntry <$> x.1 !! k.
Proof. unfold buffered. cbn. apply lookup_fmap. Qed.

Lemma during_writes cl x k v e : set_writes (during cl x) (<[k := mkTxWrite v e false]> <$> cl_txWrites (during cl x)) = during cl (<[k := (v, e)]> x.1, x.2).
Proof. unfold during. cbn [fst snd]. by rewrite fmap_insert. Qed.

Lemma replies_getCl {B} (k : client -> st (Conn S) B) cl x vs x' : replies (k (during cl x)) cl x vs x' -> replies (getCl ≫= k) cl x vs x'.
Proof. intros H s out Hs. exact (H s out Hs). Qed.

Lemma replies_putCl {B} (k : unit -> st (Conn S) B) cl cl' x x1 vs x' : cl' = during cl x1 -> replies (k tt) cl x1 vs x' -> replies (putCl cl' ≫= k) cl x vs x'.
Proof. intros -> H s out Hs. exact (H s out Hs). Qed.

Lemma replies_version {B} key (k : result bytes -> st (Conn S) B) cl x vs x' : replies (k (kv_answer (snap key))) cl x vs x' ->
  replies (r ← ondb (db_GetByVersion (wd_now w) key ts); k r) cl x vs x'.
Proof.
  intros H s out Hs. unfold does, mbind, st_bind, ondb. cbn [cn_db].
  destruct (does_inv _ _ _ (snap_reads s key Hs)) as (r & s' & -> & -> & Hs'). exact (H s' out Hs').
Qed.

Lemma replies_readKey {B} key (k : result bytes -> st (Conn S) B) cl x vs x' : replies (k (kv_answer (snap key))) cl x vs x' ->
  replies (readKey w key ≫= k) cl x vs x'.
Proof.
  intros H s out Hs.
  change (does ((if 0 <? ts then ondb (db_GetByVersion (wd_now w) key ts) else ondb (db_Get (wd_now w) key)) ≫= k) (mkConn s (during cl x) out)
    (fun _ c => cn_cl c = during cl x' /\ cn_out c = out ++ concat (encodeResp <$> vs) /\ Snap (cn_db c))).
  rewrite (proj2 (Z.ltb_lt 0 ts)) by done. by apply replies_version.
Qed.

Lemma replies_record {B} key (k : unit -> st (Conn S) B) cl x vs x' : replies (k tt) cl (x.1, {[key]} ∪ x.2) vs x' ->
  replies (recordRead key ≫= k) cl x vs x'.
Proof. intros H s out Hs. exact (H s out Hs). Qed.

Lemma replies_header {A} vs (m : st (Conn S) A) cl x x' : replies m cl x vs x' -> replies (_ ← emit (writeArrayHeader (length vs)); m) cl x [VArray vs] x'.
Proof.
  intros H s out Hs. eapply does_mono; [exact (H s (out ++ writeArrayHeader (length vs)) Hs)|]. intros a c (E1 & E2 & E3). split; [done|]. split; [|done].
  rewrite E2. cbn [fmap list_fmap concat encodeResp]. by rewrite app_nil_r, app_assoc.
Qed.

Lemma replies_end {A B} (m : st (Conn S) A) (b : B) cl x vs x' : replies m cl x vs x' -> replies (_ ← m; mret b) cl x vs x'.
Proof. intros H. rewrite <- (app_nil_r vs). eapply replies_bind; [exact H|]. intros _. apply replies_ret. Qed.

(** *** One command *)

Lemma replay_ping args cl x : replies (cmdPing srv w args) cl x [VSimple (str "PONG")] x.
Proof. by apply replies_one. Qed.

Lemma replay_set k v e cl x : is_i64 e ->
  replies (cmdSet srv w (k :: v :: if e =? 0 then [] else [str "EXAT"; num e])) cl x [VSimple (str "OK")] (<[strKey k := (v, e)]> x.1, x.2).
Proof.
  intros He. unfold cmdSet. rewrite setOptions_exat by done. apply replies_getCl. eapply replies_putCl; [|by apply replies_one].
  unfold during. cbn [fst snd]. by rewrite fmap_insert.
Qed.

(** A value in the transaction, and what is recorded of reading it. *)
Lemma replay_value k cl x (m : st (Conn S) bool) : replies m cl (x.1, {[k]} ∪ x.2) [bulkOf (snap k)] (x.1, {[k]} ∪ x.2) ->
  replies (match buffered (during cl x) k with Some tw => rEntry tw | None => _ ← recordRead k; m end) cl x [bulkOf (view snap x k)] (reads x k).
Proof.
  intros Hm. rewrite buffered_during. unfold view, reads. destruct (x.1 !! k) as [[v e]|]; [by apply replies_one|by apply replies_record].
Qed.

Lemma replay_get k cl x : replies (cmdGet srv w [k]) cl x [bulkOf (view snap x (strKey k))] (reads x (strKey k)).
Proof.
  apply replies_getCl. change (cl_inTx (during cl x)) with false. change (cl_execReadTs (during cl x)) with ts.
  rewrite (proj2 (Z.ltb_lt 0 ts)) by done. apply replay_value, replies_readKey, replies_bulks.
Qed.

Lemma view_reads x k k' : view snap (reads x k) k' = view snap x k'.
Proof. unfold view, reads. by destruct (x.1 !! k). Qed.

Lemma replay_mgetLoop ks cl x :
  replies (mgetLoop w (strKey <$> ks)) cl x ((fun k => bulkOf (view snap x (strKey k))) <$> ks) (foldl (fun x k => reads x (strKey k)) x ks).
Proof.
  revert x. induction ks as [|k ks IH]; intros x; [apply replies_ret|]. rewrite !fmap_cons. cbn [mgetLoop foldl]. apply replies_getCl.
  apply (replies_bind _ _ cl x [bulkOf (view snap x (strKey k))] (reads x (strKey k))); [apply replay_value, replies_version, replies_bulks|].
  intros _. rewrite (list_fmap_ext _ (fun k' => bulkOf (view snap (reads x (strKey k)) (strKey k'))) ks); [apply IH|].
  intros i k' _. by rewrite view_reads.
Qed.

Lemma replay_mget ks cl x : ks <> [] ->
  replies (cmdMGet srv w ks) cl x [VArray ((fun k => bulkOf (view snap x (strKey k))) <$> ks)] (foldl (fun x k => reads x (strKey k)) x ks).
Proof.
  intros Hks. destruct ks as [|k ks]; [done|]. apply replies_getCl. change (cl_execReadTs (during cl x)) with ts. rewrite (proj2 (Z.ltb_lt 0 ts)) by done.
  set (vs := (fun k => bulkOf (view snap x (strKey k))) <$> k :: ks). replace (length (strKey <$> k :: ks)) with (length vs) by (unfold vs; by rewrite !length_fmap).
  apply replies_header, replies_end, replay_mgetLoop.
Qed.

Lemma replies_assoc {A B C} (m : st (Conn S) A) (f : A -> st (Conn S) B) (k : B -> st (Conn S) C) cl x vs x' :
  replies (a ← m; f a ≫= k) cl x vs x' -> replies ((m ≫= f) ≫= k) cl x vs x'.
Proof.
  intros H s out Hs. specialize (H s out Hs). unfold does, mbind, st_bind in *. by destruct (m _) as [[a c]|].
Qed.

Lemma replay_current {B} key (k : option Z -> st (Conn S) B) cl x vs x' :
  replies (k (match view snap x key with None => Some 0 | Some v => ParseInt v end)) cl (reads x key) vs x' -> replies (txCurrent w key ≫= k) cl x vs x'.
Proof.
  intros H. apply replies_assoc, replies_getCl. rewrite buffered_during. unfold view, reads in H. destruct (x.1 !! key) as [[v e]|]; [exact H|].
  apply replies_assoc, replies_record, replies_assoc, replies_readKey. by destruct (snap key).
Qed.

Lemma replay_incr k delta cl x : is_i64 delta ->
  let r := txExec snap x (TIncr k delta) in replies (cmdIncrBy srv w [k; num delta]) cl x [r.1] r.2.
Proof.
  intros Hd. cbn [txExec cmdIncrBy]. unfold num. rewrite ParseInt_FormatInt by done. apply replies_getCl. change (cl_txWrites (during cl x)) with (Some (toEntry <$> x.1)).
  apply replay_current. destruct (match view snap x (strKey k) with Some v => ParseInt v | None => Some 0 end) as [n|]; [|by apply replies_one].
  apply replies_getCl. eapply replies_putCl; [apply during_writes|]. apply replies_one. intros c. unfold rInt, mbind, st_bind, emit.
  by rewrite i64_id by apply i64_range.
Qed.

(** ** A queue *)

Lemma replay_cmd c cl x : tx_ok c -> let q := txRequest c in let r := txExec snap x c in replies (runNamed srv w q.1 q.2) cl x [r.1] r.2.
Proof.
  intros Hc. destruct c; cbn [txRequest fst snd tx_ok] in *.
  - apply replay_ping.
  - by apply replay_set.
  - apply replay_get.
  - by apply replay_mget.
  - by apply replay_incr.
Qed.

Lemma replay_queue cs cl x : Forall tx_ok cs -> let r := txRun snap x cs in replies (replay srv w (txRequest <$> cs)) cl x r.1 r.2.
Proof.
  intros H. revert x. induction H as [|c cs Hc _ IH]; intros x; [apply replies_ret|]. cbn [fmap list_fmap replay txRun].
  pose proof (replay_cmd c cl x Hc) as H1. destruct (txExec snap x c) as [v x1]. specialize (IH x1). destruct (txRun snap x1 cs) as [vs x2].
  cbn [fst snd] in *. by apply (replies_bind _ _ cl x [v] x1 vs x2).
Qed.
End replay.
