(* ===== verification/ServerEngine.v ===== *)
(** * The server on the engine

    The engine as the server's database, and connections from the bytes that
    arrive to the bytes that are sent. *)
From Stdlib Require Import String.
From S2P Require Import Prelude Mvcc Oracle SkipList Heap Iterator Strconv Encoding Threshold Checksum Crypto Registry Framing Wal Vlog Values VlogSpec SstBlock SstTable Compaction Engine Open EngineInv EngineSteps EngineCompact EngineSystem EngineMain Scan ScanSpec Store Collections CollKeys CollOps CollLists CollZsets CollWhole Bitmaps BitmapSpec BitmapOps CollSpec CollModel CollMain CollEngine CollRun Resp RespSpec Server ServerKv ServerColl ServerConn ServerType ServerWire ServerGate.

Section engine.
Context (aesEncrypt : bytes -> bytes -> bytes) (xxhash : bytes -> Z).

Definition onOracle {A} (f : Oracle -> A * Oracle) : eng A := e ← getE; let '(a, o) := f (e_oracle e) in _ ← putE (set_oracle e o); mret a.

#[export] Instance engineDB : DB Engine := {
  db_Delete := Engine_Delete aesEncrypt;
  db_GetDel := GetDel aesEncrypt;
  db_TTL := fun now key => e ← getE; mret (TTL now e key);
  db_ScanAllKeys := ScanAllKeys xxhash;
  db_ScanPage := ScanPage xxhash;
  db_IncrBy := IncrBy aesEncrypt;
  db_MGet := MGet aesEncrypt;
  db_GetByVersion := getByAt aesEncrypt;
  db_BeginTx := onOracle NewReadTs;
  db_CommitTx := fun readTs readSet writeKeys => onOracle (fun o => CheckAndCommit xxhash o readTs readSet writeKeys);
  db_RollbackTx := fun readTs => onOracle (fun o => (tt, Oracle_Done o readTs));
  db_BatchApplyWithVersion := BatchApplyWithVersion aesEncrypt;
  db_AbortCommit := fun ts => onOracle (fun o => (tt, Oracle_AbortCommit o ts));
}.
End engine.

Lemma allowed_null_fits now d c r d' : allowed now d c r d' -> null_fits c r.
Proof.
  intros [[Ha _]|(_ & -> & _)] Hh; [intros ->|done]. destruct c; try discriminate Hh; cbn in Ha; try discriminate Ha; try (by destruct Ha as (? & ? & _)).
Qed.

Section wire.
Context (aesEncrypt : bytes -> bytes -> bytes) (xxhash : bytes -> Z) (fileSize : Table -> Z) (copts : Options) (opts : OpenOptions) (ow : OpenWorld).
Hypothesis aes_wf : forall k b, wf_bytes (aesEncrypt k b).
Hypothesis reg_ok : registry_ok (oo_registry opts).
Hypothesis ivs_ok : (forall f, iv_ok (ow_ivs ow f)) /\ iv_ok (wd_ivWal (ow_world ow)).
Context {HG : GoText}.
#[local] Existing Instance engineStore.
#[local] Existing Instance engineDB.

Notation at_work := (serving aesEncrypt xxhash fileSize copts opts ow).
Notation serveBytes := (@serveInput Engine (engineStore aesEncrypt xxhash) (engineDB aesEncrypt xxhash) HG).

(** The requests for commands, and the replies to them. *)
Fixpoint requests (cs : list (World * cmd)) (reqs : list (list bytes)) : Prop :=
  match cs, reqs with
  | [], [] => True
  | (_, c) :: cs, req :: reqs => request c = Some req /\ sendable req /\ requests cs reqs
  | _, _ => False
  end.
Definition wires (cs : list (World * cmd)) (rs : list reply) : list resp := zip_with (fun wc r => wire wc.2 r) cs rs.

Lemma wire_serves srv cs : floats_ok -> sv_cluster srv = None -> forall reqs e d n t cl out,
  at_work e d n t -> Forall (fun wc => world_ok t wc.1) cs -> fits n d cs -> requests cs reqs -> ready srv cl ->
  exists rs e' d' n', serveBytes srv (fst <$> cs) (concat (encodeRequest <$> reqs)) (mkConn e cl out) =
    Some ((Continue, []), mkConn e' cl (out ++ concat (encodeResp <$> wires cs rs))) /\ answered d cs rs d' /\ at_work e' d' n' t.
Proof using aes_wf reg_ok ivs_ok.
  intros Hf Ha. induction cs as [|[w c] cs IH]; intros [|req reqs] e d n t cl out Hs Hw Hfit Hreq Hcl; try done.
  { exists [], e, d, n. cbn [wires zip_with fmap list_fmap concat serveInput]. rewrite app_nil_r. split; [done|]. split; [constructor|done]. }
  apply Forall_cons in Hw as [Hw Hws]. destruct Hfit as (Hok & Hc & Hfit). destruct Hreq as (Hr & Hsend & Hreqs).
  destruct (serve_does aesEncrypt xxhash opts aes_wf reg_ok e d n t w c) as (r & e1 & d1 & Hrun & Hal & _); [|done..|].
  { by eapply serving_kept. }
  assert (at_work e1 d1 (n - cmdCost c) t) as Hs1 by (by eapply serving_command).
  assert (d1 = effect d c \/ d1 = d) as Hd1 by (destruct Hal as [[_ ->]|(_ & _ & ->)]; auto).
  destruct (IH reqs e1 d1 (n - cmdCost c) t cl (out ++ encodeResp (wire c r)) Hs1 Hws (Hfit d1 Hd1) Hreqs Hcl) as (rs & e2 & d2 & n2 & Hrun2 & Hans & Hs2).
  exists (r :: rs), e2, d2, n2. split; [|split; [by econstructor|done]].
  destruct Hsend as [S1 S2 _ _]. rewrite !fmap_cons. cbn [fst concat serveInput]. rewrite parseRESP_encode by done.
  unfold mbind at 1, st_bind at 1.
  rewrite (wire_request srv Ha w c req (mkConn e cl out) r e1); [|by eapply request_handled|done|exact Hrun|by eapply allowed_null_fits].
  etransitivity; [exact Hrun2|]. cbn [wires zip_with fst snd]. cbn [fmap list_fmap concat]. by rewrite app_assoc.
Qed.

End wire.

Module WireWitness.
Import EngineWitness CollWitness.

(** Scores by their bits. *)
#[export] Instance bitsText : GoText := {
  ParseFloat := ParseUint;
  FormatFloat := FormatUint;
  upperOther := id;
  ioText := str "input/output error";
}.

Lemma bits_floats : floats_ok.
Proof. intros s [Hs _]. by apply ParseUint_FormatUint. Qed.

Definition outside : Outside := mkOutside 5 (fun _ => 1) (fun _ => mkStats 3 4 0 1 1) (fun _ _ _ => 2).
Definition srv : Server Engine := mkServer (str "secret") None outside.
Definition member : client := set_authed newClient true.

Definition cs : list (World * cmd) := [(world 9, CHGetAll nm); (world 9, push); (world 10, CLLen nm)].
Definition reqs : list (list bytes) := [[str "HGETALL"; nm]; [str "RPUSH"; nm; fld; long]; [str "LLEN"; nm]].
Definition left : Z := space - cmdCost hset - cmdCost push - 64.

Lemma cs_fits : fits left held cs.
Proof.
  split; [apply nm_ok|]. split; [by vm_compute|]. intros d _. split; [apply push_ok|]. split; [by vm_compute|]. intros d' _.
  split; [apply nm_ok|]. split; [by vm_compute|]. done.
Qed.

Lemma sendable_small name args : Forall wf_bytes (name :: args) -> (length (name :: args) < 10)%nat -> Forall (fun a => (length a < 100)%nat) (name :: args) ->
  plain name -> sendable (name :: args).
Proof.
  intros H1 H2 H3 H4. split; [unfold maxArrayLength; lia| |done|by exists name, args].
  eapply Forall_impl; [exact H3|]. intros a Ha. unfold arg_ok, maxPayloadSize. cbn in Ha |- *. lia.
Qed.

Ltac small_request := apply sendable_small; [repeat constructor; vm_compute; (discriminate || reflexivity)|vm_compute; lia|repeat constructor; vm_compute; lia|apply isPlain_plain; vm_compute; reflexivity].

Lemma cs_requests : requests cs reqs.
Proof. repeat (split; [reflexivity|]; split; [small_request|]). exact I. Qed.

Lemma requests_sendable cs0 reqs0 : requests cs0 reqs0 -> Forall sendable reqs0.
Proof.
  revert reqs0. induction cs0 as [|[w c] cs0 IH]; intros [|req reqs0]; try done. intros (_ & Hs & Hr). constructor; [done|by apply IH].
Qed.

(** The connection after the pipeline. *)
Definition serveWith := @serveInput Engine (engineStore cipher hash) (engineDB cipher hash) bitsText srv (fst <$> cs).
Definition start : Conn Engine := mkConn a5 member [].
Definition after : Conn Engine := from_option snd start (serveWith (concat (encodeRequest <$> reqs)) start).

Lemma bits_texts : texts_ok.
Proof. split; [apply isPlain_plain; vm_compute; reflexivity|done]. Qed.
End WireWitness.

(** Three replies to three requests. *)
Lemma pipeline_replies_witness : exists k vs, k = length vs /\ Forall typed vs /\ cn_out WireWitness.after = concat (encodeResp <$> vs) /\ k = 3%nat.
Proof.
  destruct (pipeline_replies (HS := engineStore EngineWitness.cipher CollWitness.hash) (HD := engineDB EngineWitness.cipher CollWitness.hash) (HG := WireWitness.bitsText)
    WireWitness.srv (fst <$> WireWitness.cs) WireWitness.reqs WireWitness.start
    Continue [] WireWitness.after) as (k & vs & _ & Hk & _ & Hl & Hvs & Hout & _).
  - exact WireWitness.bits_texts.
  - exact I.
  - constructor.
  - exact (WireWitness.requests_sendable _ _ WireWitness.cs_requests).
  - reflexivity.
  - vm_compute. reflexivity.
  - exists k, vs. cbn in Hl. rewrite Nat.add_0_r in Hl. split; [exact Hl|]. split; [exact Hvs|]. split; [exact Hout|exact (Hk eq_refl)].
Defined.


(** A wrong password, then a read. *)
Lemma no_password_no_access_witness : exists rest c',
  @handleConnection Engine (engineStore EngineWitness.cipher CollWitness.hash) (engineDB EngineWitness.cipher CollWitness.hash) WireWitness.bitsText
    WireWitness.srv [EngineWitness.world 9; EngineWitness.world 9]
    (encodeRequest [str "AUTH"; str "guess"] ++ encodeRequest [str "LLEN"; CollWitness.nm]) (mkConn CollWitness.a5 newClient []) = Some ((Continue, rest), c') /\
  cn_db c' = CollWitness.a5 /\ cl_authed (cn_cl c') = false.
Proof.
  destruct (no_password_no_access (HS := engineStore EngineWitness.cipher CollWitness.hash) (HD := engineDB EngineWitness.cipher CollWitness.hash)
    (HG := WireWitness.bitsText) WireWitness.srv ltac:(discriminate) [EngineWitness.world 9; EngineWitness.world 9]
    (encodeRequest [str "AUTH"; str "guess"] ++ encodeRequest [str "LLEN"; CollWitness.nm]) (mkConn CollWitness.a5 newClient []))
    as (n & rest & c' & H & Hdb & Hcl & Hn).
  - reflexivity.
  - reflexivity.
  - intros req Hreq (a & args & -> & Ha & _ & Hl). vm_compute in Hreq. apply list_elem_of_In in Hreq as [[= <- <-]|[[= <- <-]|[]]]; vm_compute in Hl, Ha; discriminate.
  - exists rest, c'. split; [|split; [exact Hdb|exact Hcl]]. rewrite H. f_equal. f_equal. f_equal. vm_compute in H. injection H as H _ _. symmetry. exact H.
Defined.
