(* ===== verification/ServerExec.v ===== *)
(** * EXEC on the engine

    A transaction between MULTI and EXEC, on an engine that serves others in
    the meantime: its commands see the snapshot of MULTI and each other, and
    its writes become visible together or not at all. *)
From Stdlib Require Import String.
From S2P Require Import Prelude Mvcc Oracle SkipList Strconv Encoding Checksum Crypto Registry Vlog Values VlogSpec Compaction Engine Open EngineInv EngineSteps EngineCompact EngineSystem EngineMain Scan Store Collections CollSpec CollModel CollMain CollEngine CollRun Resp RespSpec Server ServerKv ServerColl ServerConn ServerType ServerWire ServerTx ServerEngine.
From S2P Require Import Txn.

Section exec.
Context (aesEncrypt : bytes -> bytes -> bytes) (xxhash : bytes -> Z).
Hypothesis aes_wf : forall k b, wf_bytes (aesEncrypt k b).
Context (reg : option KeyRegistry).
Hypothesis reg_ok : registry_ok reg.
Context {HG : GoText}.
Notation inv := (EngineSystem.sys_inv aesEncrypt reg).

Notation commitOn := (@commitQueue Engine (engineDB aesEncrypt xxhash) HG).
Notation execOn := (@cmdExec Engine (engineStore aesEncrypt xxhash) (engineDB aesEncrypt xxhash) HG).
Notation requestOn := (@handleRequest Engine (engineStore aesEncrypt xxhash) (engineDB aesEncrypt xxhash) HG).

(** The engine is idle, has the writes and snapshots [sp], and room for [n]. *)
Definition idle (e : Engine) (n t : Z) (opens : list Z) (gc : list (Z * Z * Z)) (sp : LogSpec) : Prop :=
  exists g, inv (EngineSystem.mkSys e [] opens gc t) sp g /\ room (e_vl e) n.

(** What a snapshot holds at a time. *)
Definition snapAt (now : Z) (log : list Entry) (ts : Z) (k : bytes) : option bytes := fst <$> logRead now log k ts.

(** The engine while one client reads: only the files' read buffers may change. *)
Definition unmoved (e0 : Engine) (n t : Z) (opens : list Z) (gc : list (Z * Z * Z)) (sp : LogSpec) (e : Engine) : Prop :=
  idle e n t opens gc sp /\ e_oracle e = e_oracle e0 /\ e_diskFull e = e_diskFull e0.

Lemma snapshot_reads e0 n t opens gc sp now ts log0 e k : (ts, log0) ∈ sp_snaps sp -> t <= now -> unmoved e0 n t opens gc sp e ->
  does (getByAt aesEncrypt now k ts) e (fun r e' => r = kv_answer (snapAt now log0 ts k) /\ unmoved e0 n t opens gc sp e').
Proof.
  intros Hin Hnow [(g & Hs & Hroom) [Ho Hd]].
  assert (ts ∈ opens) as Hts by (pose proof (sy_snaps _ _ _ _ _ Hs) as E; cbn in E; rewrite <- E; by apply (list_elem_of_fmap_2 fst) in Hin).
  pose proof (proj2 (sy_floor _ _ _ _ _ Hs) ts Hts) as Hfl. pose proof (sy_time _ _ _ _ _ Hs) as Ht. cbn in Ht.
  assert (room (e_vl e) (Z.max 0 n)) as Hroom' by (destruct (Z.max_spec 0 n) as [[_ ->]|[_ ->]]; [done|apply (sy_room _ _ _ _ _ Hs)]).
  eapply runs_does, runs_mono; [apply (getByAt_runs aesEncrypt reg e g [] [] (Z.max 0 n) now k ts (sy_eng _ _ _ _ _ Hs) Hroom' Hfl); lia|].
  intros r e' (-> & vl & -> & Hi & Hr & _). rewrite (sy_log _ _ _ _ _ Hs), (snap_read now _ ts log0) by (by apply (sy_snap _ _ _ _ _ Hs)). split.
  { unfold snapAt. by destruct (logRead now log0 k ts) as [[v x]|]. }
  split; [|done]. exists g. split; [|cbn; eapply room_le; [|exact Hr]; lia].
  apply (sys_quiet aesEncrypt reg (EngineSystem.mkSys e [] opens gc t) sp g); try done; [cbn; eapply room_le; [|exact Hr]; lia|lia|apply Hs].
Qed.

(** ** Committing *)

(** The oracle moves on without a new version. *)
Lemma idle_oracle e n t opens gc sp o' : idle e n t opens gc sp -> (exists txns, oracle_inv o' opens txns) -> nextTs o' = nextTs (e_oracle e) ->
  appliedTs (e_oracle e) <= appliedTs o' -> idle (set_oracle e o') n t opens gc sp.
Proof.
  intros (g & [] & Hroom) Ho Hn Ha. exists g. split; [|done]. split; try done; cbn [EngineSystem.s_e EngineSystem.s_open s_pending s_gc s_now].
  - by apply inv_set_oracle.
  - by intros x ?%elem_of_nil.
  - cbn. rewrite Hn. exact sy_marks.
  - destruct sy_floor as [H1 H2]. split; [cbn in *; lia|done].
Qed.

Lemma idle_close e n t l1 ts l2 gc sp : idle e n t (l1 ++ ts :: l2) gc sp ->
  exists sp', sp_log sp' = sp_log sp /\ idle (set_oracle e (Oracle_Done (e_oracle e) ts)) n t (l1 ++ l2) gc sp'.
Proof.
  intros (g & Hs & Hroom). destruct (sim_close aesEncrypt aes_wf reg reg_ok (EngineSystem.mkSys e [] (l1 ++ ts :: l2) gc t) sp g ts l1 l2 Hs eq_refl) as (sp' & Hstep & Hs').
  exists sp'. split; [|by exists g]. by inversion Hstep.
Qed.

Lemma batchReq_ok es seq : es <> [] -> Forall batch_ok es -> NoDup (bw_key <$> es) -> req_ok (batchReq es seq).
Proof.
  intros H1 H2 H3. split; cbn [batchReq rq_op rq_key rq_val rq_expiresAt rq_batch]; [set_solver| |done|done].
  split; [split; [constructor|done]|split; [constructor|done]|unfold is_i64; lia|done].
Qed.

Lemma batchReq_log now log es seq : es <> [] ->
  (logRequest now log (batchReq es seq) seq).1 = batchEntry seq <$> es /\ ir_err (logRequest now log (batchReq es seq) seq).2 = None.
Proof. intros H. destruct es as [|b es]; [done|]. done. Qed.

(** The oracle has given a commit its version: applying it. *)
Lemma apply_version e n t opens gc sp g w es seq (r := batchReq es seq) : inv (EngineSystem.mkSys e [(r, seq)] opens gc t) sp g -> room (e_vl e) n ->
  world_ok t w -> es <> [] -> Forall batch_ok es -> NoDup (bw_key <$> es) -> writeCost es <= n -> 0 < seq -> seq <= nextTs (e_oracle e) ->
  does (BatchApplyWithVersion aesEncrypt w es seq) e (fun res e' =>
    (res = Some ErrDiskFull /\ refused e r = true /\ idle e' n t opens gc sp) \/
    (res = None /\ refused e r = false /\ exists sp', sp_log sp' = rev (batchEntry seq <$> es) ++ sp_log sp /\ sp_snaps sp' = sp_snaps sp /\ idle e' (n - writeCost es) t opens gc sp')).
Proof.
  intros Hs Hroom (Hw1 & Hw2 & Hiv) Hne Hok Hnd Hc Hpos Hle. pose proof (batchReq_ok es seq Hne Hok Hnd) as Hr.
  destruct (pending_facts aesEncrypt aes_wf reg reg_ok _ sp g r seq [] [] Hs eq_refl) as (_ & Hseq & _ & _ & Hfresh & _). cbn [EngineSystem.s_e] in Hseq.
  assert (set_oracle e (ReserveVersion (e_oracle e) seq) = e) as Hres.
  { destruct (sy_await _ _ _ _ _ Hs (r, seq)) as [_ Haw]; [set_solver|]. cbn in Haw. unfold ReserveVersion.
    rewrite (proj2 (Z.ltb_ge _ _)) by lia. rewrite (proj2 (Z.ltb_lt _ _)) by lia. rewrite subseteq_union_1_L by set_solver. destruct e. cbn. by destruct e_oracle. }
  apply runs_does. unfold BatchApplyWithVersion. run_get. rewrite Hres.
  run_put. apply runs_bind. unfold dispatch. run_get. change (rq_seq (batchReq es seq)) with seq. rewrite (proj2 (Z.eqb_neq seq 0)) by lia.
  fold r. destruct (refused e r).
  - unfold runs, markApplied, mbind, eng_bind, getE, putE, mret, eng_ret. left. split; [done|]. split; [done|]. exists g. split; [|done].
    exact (sim_refuse aesEncrypt aes_wf reg reg_ok _ sp g r seq [] [] _ Hs eq_refl eq_refl).
  - apply (runs_step _ _ _ (fun q e' => q = seq /\ e' = e)).
    { unfold runs, assignSeq, mbind, eng_bind, getE. change (rq_seq r) with seq. by rewrite (proj2 (Z.eqb_neq seq 0)) by lia. }
    intros q e' [-> ->]. eapply runs_mono; [apply (pending_runs aesEncrypt aes_wf reg reg_ok _ sp g w r seq [] [] (n - writeCost es) Hs eq_refl Hw1 Hiv); [|lia]|].
    { cbn [EngineSystem.s_e]. eapply room_le; [|exact Hroom]. unfold reqCost, writeCost, cost. cbn. lia. }
    intros res e' (-> & Ho & Hr2 & g1 & Hg1 & Hi2). right. destruct (batchReq_log (wd_now w) (sp_log sp) es seq Hne) as [El Er]. split; [exact Er|]. split; [done|].
    destruct (more_issued_rest _ _ Hg1) as (E1 & E2 & E3 & E4). fold r in El. rewrite El in Hi2. set (us := batchEntry seq <$> es) in *.
    destruct (g_writes_rest g1 us) as (F1 & F2 & F3). exists (mkLogSpec (rev us ++ sp_log sp) (sp_snaps sp) (sp_incr sp)). split; [done|]. split; [done|].
    eexists. split; [|exact Hr2].
    apply (sys_done aesEncrypt aes_wf reg reg_ok _ sp g r seq [] [] us e' _ t (sp_incr sp) Hs eq_refl); try done; [eapply room_le; [|done]; lia|by rewrite g_writes_log, E1|congruence..| |by left].
    intros u Hu. apply (logRequest_entries (wd_now w) (sp_log sp) r); [done|]. by rewrite El.
Qed.

(** The oracle's decision and what follows from it. *)
Lemma commit_does e n t opens gc sp w es ts rs ks txns (seq := nextTs (e_oracle e) + 1) (fps := fingerprints xxhash rs ∪ fingerprints xxhash ks) :
  idle e n t opens gc sp -> oracle_inv (e_oracle e) opens txns -> ts ∈ opens -> nextTs (e_oracle e) + 1 < max_u64 ->
  world_ok t w -> es <> [] -> Forall batch_ok es -> NoDup (bw_key <$> es) -> writeCost es <= n ->
  (conflicts txns ts fps /\ CheckAndCommit xxhash (e_oracle e) ts rs ks = (Fail ErrTxnConflict, e_oracle e)) \/
  (~ conflicts txns ts fps /\ exists o', CheckAndCommit xxhash (e_oracle e) ts rs ks = (Ok seq, o') /\
    does (BatchApplyWithVersion aesEncrypt w es seq) (set_oracle e o') (fun res e' =>
      (res = Some ErrDiskFull /\ refused e (batchReq es seq) = true /\ idle (set_oracle e' (Oracle_AbortCommit (e_oracle e') seq)) n t opens gc sp) \/
      (res = None /\ refused e (batchReq es seq) = false /\ exists sp', sp_log sp' = rev (batchEntry seq <$> es) ++ sp_log sp /\ sp_snaps sp' = sp_snaps sp /\
        idle e' (n - writeCost es) t opens gc sp'))).
Proof.
  intros (g & Hs & Hroom) Ho Hts Hnx Hw Hne Hok Hnd Hc. unfold CheckAndCommit. pose proof (oi_clock _ _ _ Ho) as Hclk.
  destruct (checkAndCommitInternal_spec _ _ _ ts (fingerprints xxhash rs) (fingerprints xxhash ks) Ho Hts Hnx) as [[H1 H2]|(H1 & o' & E & _ & Hn2 & _)]; [by left|].
  right. split; [done|]. exists o'. split; [done|].
  pose proof (sim_commit aesEncrypt aes_wf reg reg_ok _ sp g (batchReq es seq) ts _ _ _ o' Hs (batchReq_ok es seq Hne Hok Hnd) eq_refl Hts Hnx E) as Hs1.
  cbn [EngineSystem.s_e EngineSystem.s_open s_pending s_gc s_now] in Hs1.
  eapply does_mono; [apply (apply_version (set_oracle e o') n t opens gc sp g w es seq Hs1); try done; cbn; lia|].
  intros res e' [(-> & Hf & Hi)|H]; [left|by right]. split; [done|]. split; [done|].
  destruct Hi as (g' & Hs' & Hr'). destruct (sy_oracle _ _ _ _ _ Hs') as [txns' Ho']. destruct (AbortCommit_frame _ _ _ seq Ho') as (Ha & Hn & _).
  apply idle_oracle; [by exists g'|by eexists; apply Oracle_AbortCommit_inv|done|done].
Qed.

Lemma idle_versions e n t opens gc sp : idle e n t opens gc sp -> forall a, a ∈ sp_log sp -> Version a <= nextTs (e_oracle e).
Proof.
  intros (g & Hs & _) a Ha. rewrite <- (sy_log _ _ _ _ _ Hs) in Ha. pose proof (sy_eng _ _ _ _ _ Hs) as Hi. cbn in Hi.
  assert (at_version a ∈ at_version <$> everything e g) as (b & Eb & Hb)%list_elem_of_fmap.
  { rewrite (log_versions aesEncrypt reg e g [] [] Hi). by apply list_elem_of_fmap_2. }
  injection Eb as _ ->. by apply (ei_next _ _ _ _ _ _ Hi).
Qed.

(** ** The writes of a transaction *)

Definition txBatch (ws : gmap bytes (bytes * Z)) : list BatchWriteEntry := txEntries (toEntry <$> ws) [].

Definition putOf (kv : bytes * (bytes * Z)) : BatchWriteEntry := mkBatch kv.1 kv.2.1 false kv.2.2.

Lemma txBatch_eq ws : txBatch ws = putOf <$> map_to_list ws.
Proof.
  unfold txBatch, txEntries. rewrite map_to_list_fmap, app_nil_r, <- list_fmap_compose. apply list_fmap_ext. by intros i [k [v x]] _.
Qed.

Lemma txBatch_keys ws : bw_key <$> txBatch ws = (map_to_list ws).*1.
Proof. by rewrite txBatch_eq, <- list_fmap_compose. Qed.

Lemma txBatch_nodup ws : NoDup (bw_key <$> txBatch ws).
Proof. rewrite txBatch_keys. apply NoDup_fst_map_to_list. Qed.

Lemma elem_of_txBatch ws b : b ∈ txBatch ws <-> exists k v x, b = mkBatch k v false x /\ ws !! k = Some (v, x).
Proof.
  rewrite txBatch_eq, list_elem_of_fmap. setoid_rewrite elem_of_map_to_list'. split.
  - intros ([k [v x]] & -> & H). by exists k, v, x.
  - intros (k & v & x & -> & H). by exists (k, (v, x)).
Qed.

Lemma txBatch_writes ws M : kv_writes M (txBatch ws) = ws ∪ M.
Proof.
  apply map_eq. intros k. destruct (kv_writes_lookup M (txBatch ws) k (txBatch_nodup ws)) as [H1 H2]. destruct (ws !! k) as [[v x]|] eqn:E.
  - rewrite (lookup_union_Some_l _ _ _ _ E), (H1 (mkBatch k v false x)); [done| |done]. apply elem_of_txBatch. eauto 6.
  - rewrite H2; [by rewrite lookup_union_r|]. rewrite txBatch_keys. intros ([k' vx] & -> & Hin%elem_of_map_to_list)%list_elem_of_fmap. cbn in E. congruence.
Qed.

Lemma txBatch_some ws : ws <> ∅ -> txBatch ws <> [] /\ batchHasWrites (txBatch ws) = true.
Proof.
  intros Hne. destruct (map_choose _ Hne) as (k & [v x] & Hk). assert (mkBatch k v false x ∈ txBatch ws) as Hin by (apply elem_of_txBatch; eauto 6).
  split; [by intros E; rewrite E in Hin; apply elem_of_nil in Hin|]. apply existsb_exists. exists (mkBatch k v false x). split; [by apply list_elem_of_In|done].
Qed.

(** What a transaction may write. *)
Definition tx_fine (c : txcmd) : Prop :=
  match c with TSet k v x => kv_ok (strKey k) v x | TIncr k _ => wf_bytes k /\ Z.of_nat (length k) + 2 < 2 ^ 32 | _ => True end.
Definition writes_fine (x : txstate) : Prop := map_Forall (fun k vx => kv_ok k vx.1 vx.2) x.1.

Lemma reads_fst x k : (reads x k).1 = x.1.
Proof. unfold reads. by destruct (x.1 !! k). Qed.

Lemma txExec_fine snap x c : tx_fine c -> writes_fine x -> writes_fine (txExec snap x c).2.
Proof.
  intros Hc Hx. destruct c as [|k v z|k|ks|k d]; cbn [txExec tx_fine snd] in *; [done| | | |].
  - by apply map_Forall_insert_2.
  - unfold writes_fine. by rewrite reads_fst.
  - revert x Hx. induction ks as [|k ks IH]; intros x Hx; [done|]. cbn [foldl]. apply IH. unfold writes_fine. by rewrite reads_fst.
  - destruct (match view snap x (strKey k) with Some v => ParseInt v | None => Some 0 end) as [n|]; unfold writes_fine; cbn [snd fst]; rewrite reads_fst; [|done].
    apply map_Forall_insert_2; [|done]. destruct (FormatInt_bytes (i64 (n + d))) as [F1 F2]. destruct Hc as [K1 K2]. unfold strKey.
    split; cbn [fst snd]; [split; [repeat (constructor; [unfold is_u8; lia|]); done|cbn [length]; lia]|split; [done|lia]|unfold is_i64; lia|apply FormatInt_plain].
Qed.

Lemma txRun_fine snap cs x : Forall tx_fine cs -> writes_fine x -> writes_fine (txRun snap x cs).2.
Proof.
  intros H. revert x. induction H as [|c cs Hc _ IH]; intros x Hx; [done|]. cbn [txRun].
  pose proof (txExec_fine snap x c Hc Hx) as H1. destruct (txExec snap x c) as [v x1]. specialize (IH x1 H1). by destruct (txRun snap x1 cs).
Qed.

Lemma txRun_length snap cs x : length (txRun snap x cs).1 = length cs.
Proof. revert x. induction cs as [|c cs IH]; intros x; [done|]. cbn [txRun]. destruct (txExec snap x c) as [v x1]. specialize (IH x1). destruct (txRun snap x1 cs). cbn in *. lia. Qed.

Lemma txBatch_ok x : writes_fine x -> Forall batch_ok (txBatch x.1).
Proof. intros Hx. apply Forall_forall. intros b (k & v & z & -> & Hk)%elem_of_txBatch _. exact (Hx _ _ Hk). Qed.

(** ** EXEC *)

(** A client with a transaction open at [ts] and [cs] queued. *)
Definition queued (cl : client) (ts : Z) (cs : list txcmd) : client := set_tx cl true (txRequest <$> cs) ts (Some ∅) (Some ∅) [] false.
Definition released (cl : client) : client := set_tx cl false [] 0 None None [] false.

Definition commitError : resp := VError (str "ERR transaction commit failed: " ++ errText ErrDiskFull).

(** How a transaction ends: the reply, and the values after it. *)
Inductive tx_end (full : bool) (conflict : Prop) (vs : list resp) (ws M : kvmap) : resp -> kvmap -> Prop :=
  | tx_readonly : ws = ∅ -> tx_end full conflict vs ws M (VArray vs) M
  | tx_conflict : ws <> ∅ -> conflict -> tx_end full conflict vs ws M VNullArray M
  | tx_full : ws <> ∅ -> ~ conflict -> full = true -> tx_end full conflict vs ws M commitError M
  | tx_done : ws <> ∅ -> ~ conflict -> full = false -> tx_end full conflict vs ws M (VArray vs) (ws ∪ M).

Lemma ondb_does {A} (m : st Engine A) e cl out Q : does m e (fun a e' => Q a (mkConn e' cl out)) -> does (ondb m) (mkConn e cl out) Q.
Proof. unfold does, ondb. cbn [cn_db cn_cl cn_out]. by destruct (m e) as [[a e']|]. Qed.

Lemma refused_tx e ws seq : ws <> ∅ -> refused e (batchReq (txBatch ws) seq) = e_diskFull e.
Proof.
  intros Hne. destruct (txBatch_some ws Hne) as [H1 H2]. unfold refused. cbn [batchReq rq_op rq_batch]. rewrite H2.
  rewrite (proj2 (Nat.ltb_lt _ _)) by (destruct (txBatch ws); [done|cbn; lia]). by destruct (e_diskFull e).
Qed.

Lemma commitQueue_does srv w cl ts x (vs : list resp) e n t opens gc sp M txns out
    (conflict := conflicts txns ts (fingerprints xxhash x.2 ∪ fingerprints xxhash (dom x.1))) :
  sv_cluster srv = None -> idle e n t opens gc sp -> oracle_inv (e_oracle e) opens txns -> ts ∈ opens -> nextTs (e_oracle e) + 1 < max_u64 ->
  logMap (sp_log sp) M -> world_ok t w -> writes_fine x -> writeCost (txBatch x.1) <= n ->
  cl_txWrites cl = Some (toEntry <$> x.1) -> cl_txReadSet cl = Some x.2 -> cl_txDeletes cl = [] ->
  does (commitOn srv w ts (length vs) (concat (encodeResp <$> vs))) (mkConn e cl out) (fun b c => b = false /\
    cn_cl c = set_tx cl (cl_inTx cl) (cl_txQueue cl) (cl_txReadTs cl) None None [] (cl_txAbort cl) /\
    exists v M' n' sp', cn_out c = out ++ encodeResp v /\ tx_end (e_diskFull e) conflict vs x.1 M v M' /\
      idle (cn_db c) n' t opens gc sp' /\ sp_snaps sp' = sp_snaps sp /\ logMap (sp_log sp') M').
Proof.
  intros Ha Hi Ho Hts Hnx HM Hw Hx Hc E1 E2 E3. unfold commitQueue.
  apply (does_step _ _ _ (fun a c => a = cl /\ c = mkConn e cl out)); [done|]. intros a c [-> ->]. rewrite E1, E2, E3. cbn [from_option id].
  set (cl' := set_tx cl _ _ _ _ _ _ _). apply (does_step _ _ _ (fun _ c => c = mkConn e cl' out)); [done|]. intros _ c ->.
  rewrite map_size_fmap. destruct (decide (x.1 = ∅)) as [Hz|Hz].
  { rewrite Hz, map_size_empty. split; [done|]. split; [done|]. exists (VArray vs), M, n, sp. cbn [cn_out encodeResp]. rewrite app_assoc. split; [done|].
    split; [by apply tx_readonly|]. done. }
  rewrite (proj2 (Nat.eqb_neq _ _)) by (by rewrite map_size_empty_iff).
  rewrite dom_fmap_L.
  replace (dom x.1 ∪ list_to_set []) with (dom x.1) by set_solver. fold (txBatch x.1). destruct (txBatch_some x.1 Hz) as [Hne _].
  pose proof (idle_versions _ _ _ _ _ _ Hi) as Hold. pose proof (fun seq => refused_tx e x.1 seq Hz) as Hfull.
  destruct (commit_does e n t opens gc sp w (txBatch x.1) ts x.2 (dom x.1) txns Hi Ho Hts Hnx Hw Hne (txBatch_ok x Hx) (txBatch_nodup _) Hc)
    as [[Hcf E]|(Hcf & o' & E & Hrun)].
  { apply (does_step _ _ _ (fun r c => r = Fail ErrTxnConflict /\ c = mkConn e cl' out)).
    { apply ondb_does. unfold does. cbn [db_CommitTx engineDB]. unfold onOracle, mbind, st_bind, eng_bind, getE, putE. rewrite E. by destruct e. }
    intros r c [-> ->]. split; [done|]. split; [done|]. exists VNullArray, M, n, sp. split; [done|]. split; [by apply tx_conflict|]. done. }
  apply (does_step _ _ _ (fun r c => r = Ok (nextTs (e_oracle e) + 1) /\ c = mkConn (set_oracle e o') cl' out)).
  { apply ondb_does. unfold does. cbn [db_CommitTx engineDB]. unfold onOracle, mbind, st_bind, eng_bind, getE, putE. by rewrite E. }
  intros r c [-> ->]. set (seq := nextTs (e_oracle e) + 1) in *. unfold applyTx. rewrite Ha. eapply does_step.
  { apply ondb_does. eapply does_step; [exact Hrun|]. intros res e' H. apply does_ret.
    instantiate (1 := fun a c => exists res, a = errText <$> res /\ cn_cl c = cl' /\ cn_out c = out /\ _ res (cn_db c)). exists res. repeat split. exact H. }
  intros a [e' cl1 out1] (res & -> & E4 & E5 & [(-> & Hf & Hi')|(-> & Hf & sp' & Hlog & Hsn & Hi')]); cbn in E4, E5, Hi'; subst cl1 out1; rewrite Hfull in Hf.
  - split; [done|]. split; [done|]. exists commitError, M, n, sp. split; [done|]. split; [by apply tx_full|]. done.
  - split; [done|]. split; [done|]. exists (VArray vs), (x.1 ∪ M), (n - writeCost (txBatch x.1)), sp'. cbn [cn_out encodeResp]. rewrite app_assoc.
    split; [done|]. split; [by apply tx_done|]. split; [done|]. split; [done|]. rewrite Hlog, <- txBatch_writes.
    apply logMap_batch; [done|apply txBatch_nodup|unfold seq in *; lia|]. intros a Ha'. specialize (Hold a Ha'). unfold seq. lia.
Qed.

Lemma captured_does {A} (m : st (Conn Engine) A) e cl out Q :
  does m (mkConn e cl []) (fun a c => Q (a, cn_out c) (mkConn (cn_db c) (cn_cl c) out)) -> does (captured m) (mkConn e cl out) Q.
Proof. unfold does, captured. cbn [cn_db cn_cl cn_out]. by destruct (m _) as [[a c]|]. Qed.

(** A request of a client that is logged in, to neither the connection nor the
    replication. *)
Lemma gated_request srv w name args conn (cl := cn_cl conn) : (sv_password srv = [] \/ cl_authed cl = true) -> ToUpper name = name ->
  bool_decide (name ∈ str <$> ["AUTH"; "QUIT"; "SUBSCRIBE"; "SYNC"; "PSYNC"]%string) = false ->
  requestOn srv w (name :: args) conn =
    (if cl_inTx cl && negb (isTxControl name) then
       if bool_decide (name ∈ txUnsupportedCommands) then
         _ ← putCl (set_abort cl true);
         _ ← rError (str "ERR command '" ++ ToLower name ++ str "' is not supported inside MULTI"); mret Continue
       else _ ← putCl (set_queue cl (cl_txQueue cl ++ [(name, args)])); _ ← rSimple (str "QUEUED"); mret Continue
     else
       match @findHandler Engine (engineStore aesEncrypt xxhash) (engineDB aesEncrypt xxhash) HG name with
       | Some h => eof ← h srv w args; mret (if eof : bool then Close else Continue)
       | None => _ ← rError (unknownCommand name); mret Continue
       end) conn.
Proof.
  intros Hauth Hup Hn. apply bool_decide_eq_false in Hn. rewrite !fmap_cons, !not_elem_of_cons in Hn. destruct Hn as (N1 & N2 & N3 & N4 & N5 & _).
  cbn [handleRequest]. rewrite Hup. rewrite (bool_decide_eq_false_2 _ N1), (bool_decide_eq_false_2 _ N2). unfold mbind at 1, st_bind at 1, getCl. fold cl.
  assert (negb (bool_decide (sv_password srv = [])) && negb (cl_authed cl) = false) as -> by (destruct Hauth as [->| ->]; [done|apply andb_false_r]).
  by rewrite (bool_decide_eq_false_2 _ N3), (bool_decide_eq_false_2 _ N4), (bool_decide_eq_false_2 _ N5).
Qed.

Lemma exec_request srv w cl ts cs e out : (sv_password srv = [] \/ cl_authed cl = true) ->
  requestOn srv w [str "EXEC"] (mkConn e (queued cl ts cs) out) =
  (eof ← execOn srv w []; mret (if eof : bool then Close else Continue)) (mkConn e (queued cl ts cs) out).
Proof. intros Hauth. by rewrite gated_request. Qed.

(** The replay, with its replies set aside. *)
Lemma exec_replays srv w cl ts cs e0 n t opens gc sp log0 out (r := txRun (snapAt (wd_now w) log0 ts) (∅, ∅) cs) :
  0 < ts -> (ts, log0) ∈ sp_snaps sp -> t <= wd_now w -> unmoved e0 n t opens gc sp e0 -> Forall tx_ok cs ->
  does (captured (@ServerConn.replay Engine (engineStore aesEncrypt xxhash) (engineDB aesEncrypt xxhash) HG srv w (txRequest <$> cs)))
    (mkConn e0 (during ts cl (∅, ∅)) out)
    (fun a c => a.2 = concat (encodeResp <$> r.1) /\ exists e', c = mkConn e' (during ts cl r.2) out /\ unmoved e0 n t opens gc sp e').
Proof.
  intros Hpos Hin Hnow He Hcs. apply captured_does. eapply does_mono.
  - refine (replay_queue (HS := engineStore aesEncrypt xxhash) (HD := engineDB aesEncrypt xxhash) srv (unmoved e0 n t opens gc sp) w ts (snapAt (wd_now w) log0 ts) Hpos _ cs cl (∅, ∅) Hcs e0 [] He).
    intros s k Hs. by apply snapshot_reads.
  - intros a c (E1 & E2 & E3). split; [exact E2|]. exists (cn_db c). by rewrite E1.
Qed.

Lemma exec_does srv w cl ts cs e n t l1 l2 gc sp log0 M txns out
    (r := txRun (snapAt (wd_now w) log0 ts) (∅, ∅) cs)
    (conflict := conflicts txns ts (fingerprints xxhash r.2.2 ∪ fingerprints xxhash (dom r.2.1))) :
  sv_cluster srv = None -> world_ok t w -> idle e n t (l1 ++ ts :: l2) gc sp -> (ts, log0) ∈ sp_snaps sp -> logMap (sp_log sp) M ->
  oracle_inv (e_oracle e) (l1 ++ ts :: l2) txns -> nextTs (e_oracle e) + 1 < max_u64 ->
  Forall tx_ok cs -> Forall tx_fine cs -> writeCost (txBatch r.2.1) <= n ->
  does (execOn srv w []) (mkConn e (queued cl ts cs) out) (fun b c => b = false /\ cn_cl c = released cl /\
    exists v M' n' sp', cn_out c = out ++ encodeResp v /\ tx_end (e_diskFull e) conflict r.1 r.2.1 M v M' /\
      idle (cn_db c) n' t (l1 ++ l2) gc sp' /\ logMap (sp_log sp') M').
Proof.
  intros Ha Hw Hi Hin HM Ho Hnx Hok Hfine Hc. unfold cmdExec.
  assert (ts ∈ l1 ++ ts :: l2) as Hts by set_solver. pose proof (oi_live _ _ _ Ho _ Hts) as Hpos.
  apply (does_step _ _ _ (fun a c => a = queued cl ts cs /\ c = mkConn e (queued cl ts cs) out)); [done|]. intros a c [-> ->].
  cbn [queued set_tx cl_inTx cl_txAbort cl_txQueue cl_txReadTs cl_txWrites cl_txReadSet cl_txDeletes cl_execReadTs negb].
  apply (does_step _ _ _ (fun _ c => c = mkConn e (during ts cl (∅, ∅)) out)).
  { unfold does, putCl. cbn [cn_db cn_cl cn_out]. unfold during. cbn [fst snd]. by rewrite fmap_empty. }
  intros _ c ->. eapply does_step.
  { apply (exec_replays srv w cl ts cs e n t (l1 ++ ts :: l2) gc sp log0 out); [lia|done|apply Hw|by split|done]. }
  intros a c (E & e' & -> & Hi' & Ho' & Hd'). fold r in E |- *.
  apply (does_step _ _ _ (fun a c => a = during ts cl r.2 /\ c = mkConn e' (during ts cl r.2) out)); [done|]. intros b c [-> ->].
  set (cl1 := set_execReadTs _ _). apply (does_step _ _ _ (fun _ c => c = mkConn e' cl1 out)); [done|]. intros _ c ->.
  assert (length (txRequest <$> cs) = length r.1) as -> by (unfold r; rewrite length_fmap; symmetry; apply txRun_length).
  rewrite E. eapply does_step.
  { rewrite <- Ho' in Ho, Hnx. eapply (commitQueue_does srv w cl1 ts r.2 r.1 e' n t (l1 ++ ts :: l2) gc sp M txns out); try done.
    apply txRun_fine; [done|]. apply map_Forall_empty. }
  rewrite Hd'. intros b [e2 cl2 out2] (-> & E2 & v & M' & n' & sp' & E3 & Hend & Hi2 & Hsn & HM'). cbn [cn_db cn_cl cn_out] in *.
  destruct (idle_close e2 n' t l1 ts l2 gc sp' Hi2) as (sp2 & Hlog & Hi3). split; [done|]. split; [exact E2|].
  exists v, M', n', sp2. split; [done|]. split; [done|]. split; [exact Hi3|]. by rewrite Hlog.
Qed.

(** Before EXEC: MULTI opens the snapshot, and each command is only queued. *)
Lemma multi_opens srv w cl e n t opens gc sp out (ts := (NewReadTs (e_oracle e)).1) (e' := set_oracle e (NewReadTs (e_oracle e)).2) :
  (sv_password srv = [] \/ cl_authed cl = true) -> cl_inTx cl = false -> idle e n t opens gc sp ->
  requestOn srv w [str "MULTI"] (mkConn e cl out) = Some (Continue, mkConn e' (queued cl ts []) (out ++ encodeResp (VSimple (str "OK")))) /\
  exists sp', (ts, sp_log sp) ∈ sp_snaps sp' /\ sp_log sp' = sp_log sp /\ idle e' n t (ts :: opens) gc sp'.
Proof.
  intros Hauth Htx (g & Hs & Hroom). split.
  - rewrite gated_request by done. cbn [cn_cl]. rewrite Htx. change (findHandler (str "MULTI")) with (Some (@cmdMulti Engine (engineDB aesEncrypt xxhash))).
    cbn [andb]. unfold cmdMulti, mbind, st_bind, getCl. cbn [cn_cl]. by rewrite Htx.
  - eexists. split; [|split; [|exists g; split; [|exact Hroom]]].
    3: exact (sim_open aesEncrypt reg _ sp g ts _ Hs (surjective_pairing _)).
    + cbn. by left.
    + done.
Qed.

Lemma command_queued srv w cl ts cs c e out : (sv_password srv = [] \/ cl_authed cl = true) ->
  requestOn srv w ((txRequest c).1 :: (txRequest c).2) (mkConn e (queued cl ts cs) out) =
  Some (Continue, mkConn e (queued cl ts (cs ++ [c])) (out ++ encodeResp (VSimple (str "QUEUED")))).
Proof.
  intros Hauth. unfold queued. rewrite fmap_app. by destruct c; cbn [txRequest fst snd]; rewrite gated_request.
Qed.

End exec.

Module ExecWitness.
Import EngineWitness CollWitness WireWitness.

Definition key : bytes := str "counter".
Definition queue : list txcmd := [TSet key (str "41") 0; TIncr key 1; TGet key].
Definition begun : Engine := set_oracle a5 (NewReadTs (e_oracle a5)).2.
Definition at_ts : Z := (NewReadTs (e_oracle a5)).1.
Definition answers : list resp := [VSimple (str "OK"); VInt 42; VBulk (str "42")].
Definition written : kvmap := {[strKey key := (str "42", 0)]}.

Lemma queue_ok : Forall tx_ok queue /\ Forall tx_fine queue.
Proof.
  split; repeat constructor; try (vm_compute; (discriminate || reflexivity)).
Qed.

(** The engine of the earlier examples, after MULTI. *)
Lemma begun_idle : exists n opens gc sp M, 10000 <= n /\ idle cipher None begun n 8 (at_ts :: opens) gc sp /\
  (at_ts, sp_log sp) ∈ sp_snaps sp /\ logMap (sp_log sp) M.
Proof.
  pose proof (serving_kept cipher hash size copts oopts oworld cipher_wf I (conj (fun _ => world_iv 5) (world_iv 5)) _ _ _ _ compacted_serving) as (M & Hr & _ & Hn).
  destruct Hr as (opens & gc & sp & g & [Hs Hroom Hsp HM HE]). pose proof (credit_nonneg M) as Hc.
  destruct (multi_opens cipher hash None srv (world 9) member a5 (space - cmdCost hset - cmdCost push - 64 + credit M) 8 opens gc sp []) as (_ & sp' & H1 & H2 & H3);
    [right; reflexivity|reflexivity|exists g; split; [exact Hs|exact Hroom]|].
  rewrite <- H2 in H1, HM. exists (space - cmdCost hset - cmdCost push - 64 + credit M), opens, gc, sp', M. split; [|split; [exact H3|split; [exact H1|exact HM]]].
  assert (10000 <= space - cmdCost hset - cmdCost push - 64) as H by (vm_compute; discriminate). lia.
Qed.
End ExecWitness.

