(* ===== verification/Cluster.v ===== *)
(** * Cluster mode

    The replicated state machine of [cluster/fsm.go] and the node of
    [cluster/node.go] around it.  Raft itself, with its log and its network, is
    a parameter: a call that hands it the bytes of a command and returns what
    the state machine answered, or an error.  So is the msgpack codec. *)
From Stdlib Require Import String.
From S2P Require Import Prelude Mvcc Strconv Engine Scan Store Collections CollSpec Resp RespSpec Server ServerKv ServerColl ServerConn ServerType ServerWire.

Record raftCommand := mkRaftCommand { rc_Op : bytes; rc_Entries : list BatchWriteEntry; rc_Args : list bytes; rc_Version : Z }.

(** The msgpack codec. *)
Class Msgpack := { Encode : raftCommand -> bytes; Decode : bytes -> raftCommand + bytes }.
Class MsgpackLaws `{Msgpack} := { Decode_Encode : forall cmd, Decode (Encode cmd) = inl cmd }.

(** The administrative part of [server.DB]. *)
Class Admin (S : Type) := {
  db_Clear : World -> st S (option err);
  db_CurrentVersion : st S Z;
  db_ReleaseVersion : Z -> st S unit;
}.

(** ** The state machine *)

Section fsm.
Context {S : Type} {HS : Store S} {HD : DB S} {HA : Admin S} {HG : GoText} {HM : Msgpack}.

Definition encodeRaftCommand (cmd : raftCommand) : bytes := Encode cmd.
Definition decodeRaftCommand (data : bytes) : raftCommand + bytes := Decode data.

Definition Apply (w : World) (data : bytes) : st S replResult :=
  match decodeRaftCommand data with
  | inr msg => mret (RpErr msg)
  | inl cmd =>
      if bool_decide (rc_Op cmd = str "batch_apply") then
        if 0 <? rc_Version cmd then r ← db_BatchApplyWithVersion w (rc_Entries cmd) (rc_Version cmd); mret (okRes r)
        else r ← db_submitBatch w (rc_Entries cmd); mret (okRes r)
      else ExecuteReplicatedCommand w (rc_Op cmd) (rc_Args cmd)
  end.

(** *** Restoring a snapshot *)

Definition snapshotMagic : bytes := str "AKWS".
Definition snapshotVersion : Z := 1.
Definition snapshotEntryHdrSize : nat := 17.
Definition maxSnapshotFieldSize : Z := 2 ^ 30.

(** [io.ReadFull] of [n] bytes: them and the rest, or the text of the error. *)
Definition ReadFull (n : nat) (r : bytes) : (bytes * bytes) + bytes :=
  if (n <=? length r)%nat then inl (take n r, drop n r)
  else inr (match r with [] => str "EOF" | _ => str "unexpected EOF" end).

Definition batchSize : nat := 1000.

(** The loop: [None] is success.  Every round reads a header, so the length of
    the input is enough fuel. *)
Fixpoint restoreLoop (fuel : nat) (w : World) (r : bytes) (batch : list BatchWriteEntry) : st S (option bytes) :=
  match fuel with
  | O => mret None
  | Datatypes.S fuel =>
      match ReadFull snapshotEntryHdrSize r with
      | inr e =>
          if bool_decide (e = str "EOF") then
            if (0 <? length batch)%nat then res ← db_submitBatch w batch; mret (errText <$> res) else mret None
          else mret (Some (str "cluster: snapshot entry header: " ++ e))
      | inl (hdr, r) =>
          let op := default 0 (hdr !! 0%nat) in
          let kLen := be_decode (slice hdr 1 5) in
          let vLen := be_decode (slice hdr 5 9) in
          let expiresAt := i64 (be_decode (slice hdr 9 17)) in
          if (maxSnapshotFieldSize <? kLen) || (maxSnapshotFieldSize <? vLen) then mret (Some (str "cluster: oversized snapshot field"))
          else
            match ReadFull (Z.to_nat kLen) r with
            | inr e => mret (Some (str "cluster: snapshot key: " ++ e))
            | inl (key, r) =>
                match (if 0 <? vLen then ReadFull (Z.to_nat vLen) r else inl ([], r)) with
                | inr e => mret (Some (str "cluster: snapshot value: " ++ e))
                | inl (val, r) =>
                    let batch := batch ++ [mkBatch key val (op =? 2) expiresAt] in
                    if (batchSize <=? length batch)%nat then
                      res ← db_submitBatch w batch;
                      match res with Some err => mret (Some (errText err)) | None => restoreLoop fuel w r [] end
                    else restoreLoop fuel w r batch
                end
            end
      end
  end.

Definition Restore (w : World) (rc : bytes) : st S (option bytes) :=
  match ReadFull 4 rc with
  | inr e => mret (Some (str "cluster: snapshot header: " ++ e))
  | inl (magic, r) =>
      if negb (bool_decide (magic = snapshotMagic)) then mret (Some (str "cluster: invalid snapshot magic"))
      else
        match ReadFull 1 r with
        | inr e => mret (Some (str "cluster: snapshot version: " ++ e))
        | inl (version, r) =>
            if negb (bool_decide (version = [snapshotVersion])) then mret (Some (str "cluster: unsupported snapshot version"))
            else
              res ← db_Clear w;
              match res with
              | Some err => mret (Some (errText err))
              | None => restoreLoop (Datatypes.S (length r)) w r []
              end
        end
  end.

(** ** The node *)

Inductive raftError := ErrNotLeader | ErrRaft (msg : bytes).

(** Raft, and the parts of the node that do not change while it serves. *)
Record Node := mkNode {
  raft_Apply : World -> bytes -> st S (replResult + raftError);
  raft_Leader : bytes;
  nd_localAddr : option bytes;        (* transport *)
  nd_clientAddr : bytes;
  nd_peerClient : gmap bytes bytes;
}.

Definition leaderRedirect (n : Node) : bytes :=
  let raftAddr := raft_Leader n in
  if bool_decide (raftAddr = []) then str "CLUSTERDOWN no leader elected"
  else
    let clientAddr := default [] (nd_peerClient n !! raftAddr) in
    let clientAddr :=
      if bool_decide (clientAddr = []) && negb (bool_decide (nd_clientAddr n = [])) && bool_decide (nd_localAddr n = Some raftAddr)
      then nd_clientAddr n else clientAddr in
    if bool_decide (clientAddr = []) then str "MOVED 0 " ++ raftAddr else str "MOVED 0 " ++ clientAddr.

(** What a future gives: an error of raft, an error the state machine returned,
    or its result. *)
Definition raftAnswer (n : Node) (r : replResult + raftError) : replResult + bytes :=
  match r with
  | inr ErrNotLeader => inr (leaderRedirect n)
  | inr (ErrRaft msg) => inr msg
  | inl (RpErr msg) => inr msg
  | inl res => inl res
  end.

Definition Node_ApplyCommand (n : Node) (w : World) (op : bytes) (args : list bytes) : st S (replResult + bytes) :=
  r ← raft_Apply n w (encodeRaftCommand (mkRaftCommand op [] args 0)); mret (raftAnswer n r).

Definition applyVersioned (n : Node) (w : World) (entries : list BatchWriteEntry) (version : Z) : st S (option bytes) :=
  r ← raft_Apply n w (encodeRaftCommand (mkRaftCommand (str "batch_apply") entries [] version));
  mret (match raftAnswer n r with inr msg => Some msg | inl _ => None end).

(** The database with [nextVersion]. *)
Definition onNode {A} (m : st S A) : st (S * Z) A := fun sv => match m sv.1 with Some (a, s) => Some (a, (s, sv.2)) | None => None end.
Definition getVersion : st (S * Z) Z := fun sv => Some (sv.2, sv).
Definition putVersion (v : Z) : st (S * Z) unit := fun sv => Some (tt, (sv.1, v)).

Definition nextWriteVersion : st (S * Z) Z :=
  cur ← getVersion;
  applied ← onNode db_CurrentVersion;
  let cur := if cur <? applied then applied else cur in
  let v := u64 (cur + 1) in
  _ ← putVersion v;
  mret v.

Definition bumpVersion (version : Z) : st (S * Z) unit :=
  next ← getVersion; if next <? version then putVersion version else mret tt.

Definition ApplyWrite (n : Node) (w : World) (entries : list BatchWriteEntry) : st (S * Z) (option bytes) :=
  v ← nextWriteVersion; onNode (applyVersioned n w entries v).

Definition Node_ApplyWriteVersion (n : Node) (w : World) (entries : list BatchWriteEntry) (version : Z) : st (S * Z) (option bytes) :=
  if version =? 0 then ApplyWrite n w entries
  else
    _ ← bumpVersion version;
    r ← onNode (applyVersioned n w entries version);
    _ ← match r with Some _ => onNode (db_ReleaseVersion version) | None => mret tt end;
    mret r.
End fsm.
Arguments Node S : clear implicits.

(** ** One node

    A server on the leader answers like a server without a cluster. *)

Section leader.
Context {S : Type} {HS : Store S} {HD : DB S} {HA : Admin S} {HG : GoText} {HM : Msgpack} {HL : MsgpackLaws}.
Context (password : bytes) (outside : Outside) (n : Node S) (nextVersion : Z).

(** The leader commits a command and answers what the state machine does. *)
Definition leads : Prop := forall w data s, raft_Apply n w data s = (r ← Apply w data; mret (inl r)) s.
Hypothesis leading : leads.

(** [ApplyWriteVersion] on the database: [nextVersion] matters only for writes
    without a version, which no handler makes. *)
Definition applyWrite (w : World) (entries : list BatchWriteEntry) (version : Z) : st S (option bytes) := fun s =>
  match Node_ApplyWriteVersion n w entries version (s, nextVersion) with
  | Some (r, sv) => Some (r, sv.1)
  | None => None
  end.

Definition clustered : Server S := mkServer password (Some (mkClusterNode S (Node_ApplyCommand n) applyWrite)) outside.
Definition standalone : Server S := mkServer password None outside.

(** The answer to a replicated command. *)
Definition onReplicated (handled : replResult -> st (Conn S) bool) (res : replResult) : st (Conn S) bool :=
  match res with RpErr msg => rError msg | _ => handled res end.

Lemma ApplyCommand_leader w op args s : op <> str "batch_apply" ->
  Node_ApplyCommand n w op args s = (r ← ExecuteReplicatedCommand w op args; mret (raftAnswer n (inl r))) s.
Proof.
  intros Hop. unfold Node_ApplyCommand. unfold mbind at 1, st_bind at 1. rewrite leading. unfold Apply, decodeRaftCommand, encodeRaftCommand.
  rewrite Decode_Encode. cbn [rc_Op rc_Args]. rewrite bool_decide_eq_false_2 by done. unfold mbind, st_bind.
  by destruct (ExecuteReplicatedCommand w op args s) as [[r s']|].
Qed.

Lemma replicated_leader w op args handled else_ c : str op <> str "batch_apply" ->
  (r ← ondb (ExecuteReplicatedCommand w (str op) args); onReplicated handled r) c = else_ c ->
  replicated clustered w op args handled else_ c = replicated standalone w op args handled else_ c.
Proof.
  intros Hop E. unfold replicated, applyReplicated. cbn [clustered standalone sv_cluster ApplyCommand]. transitivity (else_ c); [|done]. rewrite <- E.
  unfold mbind, st_bind, ondb. rewrite ApplyCommand_leader by done. unfold mbind, st_bind.
  destruct (ExecuteReplicatedCommand w (str op) args (cn_db c)) as [[r s]|]; [|done]. by destruct r.
Qed.

(** The handler does not notice the cluster. *)
Definition unnoticed (h : Server S -> World -> list bytes -> st (Conn S) bool) : Prop :=
  forall w args c, calm (cn_cl c) -> h clustered w args c = h standalone w args c.

Lemma ondb_bind {A B} (m : st S A) (f : A -> st S B) (k : B -> st (Conn S) bool) c :
  (r ← ondb (a ← m; f a); k r) c = (a ← ondb m; r ← ondb (f a); k r) c.
Proof. unfold mbind, st_bind, ondb. destruct (m (cn_db c)) as [[a s]|]; [|done]. cbn. by destruct (f a s) as [[b s']|]. Qed.

Lemma ondb_ret {A} (a : A) (k : A -> st (Conn S) bool) c : (r ← ondb (mret a); k r) c = k a c.
Proof. by destruct c. Qed.

Lemma ondb_ext {A} (m : st S A) (k k' : A -> st (Conn S) bool) c : (forall a c', k a c' = k' a c') -> (a ← ondb m; k a) c = (a ← ondb m; k' a) c.
Proof. intros H. unfold mbind, st_bind, ondb. by destruct (m (cn_db c)) as [[a s]|]. Qed.

Lemma getCl_step {B} (k : client -> st (Conn S) B) c : (getCl ≫= k) c = k (cn_cl c) c.
Proof. done. Qed.

(** A command with one call to the database. *)
Lemma replicated_call {A} w op args (m : st S A) (res : A -> replResult) handled (reply : A -> st (Conn S) bool) c : str op <> str "batch_apply" ->
  ExecuteReplicatedCommand w (str op) args = (a ← m; mret (res a)) -> (forall a c', onReplicated handled (res a) c' = reply a c') ->
  replicated clustered w op args handled (a ← ondb m; reply a) c = replicated standalone w op args handled (a ← ondb m; reply a) c.
Proof.
  intros Hop Ex E. apply replicated_leader; [done|]. rewrite Ex, ondb_bind. apply ondb_ext. intros a c'. by rewrite ondb_ret.
Qed.

Ltac one_call res := apply (replicated_call _ _ _ _ res); [done|done|by intros [?|?] ?].

Lemma unnoticed_setex : unnoticed cmdSetEx.
Proof.
  intros w args c Hc. unfold cmdSetEx. destruct args as [|k [|secs [|v args]]]; [done..|]. destruct (ParseInt secs) as [sec|] eqn:E; [|done].
  rewrite !getCl_step, (proj1 (proj2 Hc)). apply (replicated_call _ _ _ _ okRes); [done| |by intros [?|] ?].
  unfold ExecuteReplicatedCommand, replInt. by rewrite E.
Qed.

Lemma unnoticed_getdel : unnoticed cmdGetDel.
Proof. intros w [|k args] c Hc; [done|]. unfold cmdGetDel. one_call strRes. Qed.

Lemma unnoticed_del : unnoticed cmdDel.
Proof.
  intros w [|k args] c Hc; [done|]. unfold cmdDel. rewrite !getCl_step, (proj1 (proj2 Hc)).
  by apply (replicated_call _ _ _ _ RpInt64).
Qed.

Lemma unnoticed_expire : unnoticed cmdExpire.
Proof.
  intros w args c Hc. unfold cmdExpire. destruct args as [|k [|secs args]]; [done..|]. destruct (ParseInt secs) as [sec|] eqn:E; [|done].
  rewrite !getCl_step, (proj1 (proj2 Hc)). apply (replicated_call _ _ _ _ (fun r => RpBool r.1)); [done| |done].
  unfold ExecuteReplicatedCommand, replInt. by rewrite E.
Qed.

Lemma unnoticed_incrDelta delta : is_i64 delta -> unnoticed (fun srv w args => cmdIncrByDelta srv w args delta).
Proof.
  intros Hd w args c Hc. unfold cmdIncrByDelta. destruct args as [|k args]; [done|]. rewrite !getCl_step, (proj1 (proj2 Hc)).
  apply (replicated_call _ _ _ _ intRes); [done| |by intros [?|?] ?]. unfold ExecuteReplicatedCommand, replInt. by rewrite ParseInt_FormatInt.
Qed.

Lemma unnoticed_incrBy : unnoticed cmdIncrBy.
Proof.
  intros w args c Hc. unfold cmdIncrBy. destruct args as [|k [|d args]]; [done..|]. destruct (ParseInt d) as [delta|] eqn:E; [|done].
  apply unnoticed_incrDelta; [by eapply ParseInt_range|done].
Qed.

Lemma unnoticed_mset : unnoticed cmdMSet.
Proof.
  intros w args c Hc. unfold cmdMSet. destruct (_ || _) eqn:E; [done|]. apply (replicated_call _ _ _ _ okRes); [done| |by intros [?|] ?].
  change (ExecuteReplicatedCommand w (str "MSET") args) with (replPairs w args). unfold replPairs. by rewrite E.
Qed.

Lemma unnoticed_hset : unnoticed cmdHSet.
Proof.
  intros w args c Hc. unfold cmdHSet. destruct args as [|h fields]; [done|]. destruct (oddPairs (h :: fields)) eqn:E; [done|].
  apply (replicated_call _ _ _ _ intRes); [done| |by intros [?|?] ?].
  change (ExecuteReplicatedCommand w (str "HSET") (h :: fields)) with
    (if oddPairs (h :: fields) then mret (RpErr (wrongArgs "hset")) else replMany "hset" (h :: fields) (HSetMulti w)).
  rewrite E. by destruct fields.
Qed.

Lemma unnoticed_zadd : unnoticed cmdZAdd.
Proof.
  intros w args c Hc. unfold cmdZAdd. destruct args as [|k pairs]; [done|]. destruct (oddPairs (k :: pairs)) eqn:E; [done|].
  apply replicated_leader; [done|]. change (ExecuteReplicatedCommand w (str "ZADD") (k :: pairs)) with
    (if oddPairs (k :: pairs) then mret (RpErr (wrongArgs "zadd"))
     else match parseMembers pairs [] with None => mret (RpErr notFloat) | Some members => r ← ZAddMulti w k members; mret (intRes r) end).
  rewrite E. destruct (parseMembers pairs []) as [ms|]; [|by rewrite ondb_ret]. rewrite ondb_bind. apply ondb_ext. intros [?|?] c'; by rewrite ondb_ret.
Qed.

Lemma unnoticed_setbit : unnoticed cmdSetBit.
Proof.
  intros w args c Hc. unfold cmdSetBit. destruct args as [|k [|o [|v [|]]]]; [done..| |done]. destruct (parseOffset o) as [offset|] eqn:Eo; [|done].
  destruct (parseBit v) as [val|] eqn:Ev; [|done]. apply (replicated_call _ _ _ _ (fun r => match r with Ok n => RpInt n | Fail e => RpErr (errText e) end)); [done| |by intros [?|?] ?].
  change (ExecuteReplicatedCommand w (str "SETBIT") [k; o; v]) with (replBit w [k; o; v]). unfold replBit. by rewrite Eo, Ev.
Qed.

Ltac call_case res :=
  intros w args c Hc; cbv beta delta [cmdHDel cmdLPush cmdRPush cmdLPop cmdRPop cmdSAdd cmdSRem cmdZRem];
  destruct args as [|? [|? ?]]; try reflexivity; one_call res.

(** All handlers but SET. *)
Lemma handlers_unnoticed : Forall (fun nh => nh.1 = str "SET" \/ unnoticed nh.2) handlers.
Proof.
  unfold handlers. cbn [fmap list_fmap prod_map fst snd id].
  repeat (apply Forall_cons; split;
    [first [left; reflexivity
           |right; cbn [snd]; first [apply unnoticed_setex | apply unnoticed_getdel | apply unnoticed_del | apply unnoticed_expire | apply unnoticed_incrBy
                         | apply unnoticed_incrDelta; unfold is_i64; lia | apply unnoticed_mset | apply unnoticed_hset | apply unnoticed_zadd
                         | apply unnoticed_setbit | (intros w args c Hc; reflexivity) | call_case intRes | call_case strRes | call_case boolRes]]|]).
  constructor.
Qed.

Lemma set_plain w k v c : calm (cn_cl c) -> cmdSet clustered w [k; v] c = cmdSet standalone w [k; v] c.
Proof.
  intros Hc. unfold cmdSet. cbn [setOptions]. rewrite !getCl_step, (proj1 (proj2 Hc)). apply (replicated_call _ _ _ _ okRes); [done|done|by intros [?|] ?].
Qed.

(** The request is not SET with options. *)
Definition plainSet (req : list bytes) : Prop := forall a args, req = a :: args -> ToUpper a = str "SET" -> (length args <= 2)%nat.

Lemma handler_leader w name args c h : calm (cn_cl c) ->
  (name = str "SET" -> (length args <= 2)%nat) -> findHandler name = Some h -> h clustered w args c = h standalone w args c.
Proof.
  intros Hc Hset. unfold findHandler, lookupHandler. case_bool_decide as Hx.
  { intros [= <-]. unfold cmdExec. rewrite !getCl_step. by rewrite (proj1 Hc). }
  destruct (assoc name handlers) as [h'|] eqn:E; [|done].
  intros [= ->]. pose proof (assoc_In _ _ _ E) as Hin. destruct (proj1 (Forall_forall _ _) handlers_unnoticed _ Hin) as [Hn|Hn]; [|by apply Hn].
  cbn [fst] in Hn. subst name. change (assoc (str "SET") handlers) with (Some cmdSet) in E. injection E as <-.
  specialize (Hset eq_refl). destruct args as [|k [|v [|]]]; [done..|by apply set_plain|cbn in Hset; lia].
Qed.

(** C9. A server on the leader of a cluster answers every request of a
    connection that is not inside MULTI like a server without a cluster, with
    the same effect on the database: the command goes through the codec, the
    log of raft and [ExecuteReplicatedCommand], and the handler writes the
    reply from the result it gets back, errors included.  The exception is SET
    with options, whose options are not replicated (see [cluster_drifts]). *)
Theorem leader_answers_alone w req c :
  calm (cn_cl c) -> plainSet req -> handleRequest clustered w req c = handleRequest standalone w req c.
Proof.
  intros Hc Hset. destruct req as [|a args]; [done|]. cbn [handleRequest]. case_bool_decide; [done|]. case_bool_decide; [done|].
  rewrite !getCl_step, (proj1 Hc). cbn [andb]. destruct (_ && _); [done|]. case_bool_decide; [done|]. destruct (_ || _); [done|].
  destruct (findHandler (ToUpper a)) as [h|] eqn:E; [|done]. unfold mbind, st_bind.
  rewrite (handler_leader w (ToUpper a) args c h); [done|done| |done]. by apply Hset.
Qed.
End leader.
