(* ===== verification/Snapshots.v ===== *)
(** * Snapshots of the database

    What [StreamSnapshot] delivers, the emptying of the database by [Clear],
    and snapshots of a cluster from one node to another. *)
From Stdlib Require Import String.
From S2P Require Import Prelude Mvcc Oracle SkipList Heap Iterator Strconv Encoding Crypto Registry Wal Vlog Values VlogSpec Compaction Engine Open EngineInv EngineSteps EngineCompact EngineSystem Scan ScanSpec ScanPages Store Collections CollSpec CollEngine Resp RespSpec Server ServerKv ServerColl ServerConn ServerType Cluster ServerEngine.

(** ** The stream *)

(** What the callback is given. *)
Record record := mkRecord { rec_op : Z; rec_key : bytes; rec_val : bytes; rec_exp : Z }.

Section stream.
Context (aesEncrypt : bytes -> bytes -> bytes) (xxhash : bytes -> Z) (reg : option KeyRegistry).
Context (e : Engine) (g : Ghost) (sp : list ValuePointer) (pd : list Z) (n now : Z).
Notation inv := (eng_inv aesEncrypt reg).
Notation calm := (ScanSpec.calm aesEncrypt reg).
Notation reads := (readsLog g now).
Hypothesis Hi : inv e g sp pd.
Hypothesis Hroom : room (e_vl e) n.
Hypothesis Hfloor : g_floor g <= max_u64.
Hypothesis Hnext : nextTs (e_oracle e) <= max_u64.
Hypothesis Htime : g_time g <= now.

(** The record of an entry the walk meets, if it makes one. *)
Definition recordOf (x : Entry) : option record :=
  if bytes_eqb (Key x) [] || ((0 <? ExpiresAt x) && (ExpiresAt x <=? now)) then None
  else Some (mkRecord (if Deleted x then OpDelete else OpPut) (Key x) (if Deleted x then [] else default [] (fst <$> reads (Key x))) (ExpiresAt x)).

Definition walkOut : list Entry :=
  let h := buildMergedIterator xxhash e [] in (mergedLoop itemHeap_Less (length (stream h)) h).1.

Lemma walkOut_walks : walks e [] None walkOut.
Proof. exact (iter_walks aesEncrypt xxhash reg e g sp pd [] None Hi Hnext). Qed.

Lemma prev_key d x l : walkOut = d ++ x :: l -> bytes_eqb (Key x) (default [] (last (Key <$> d))) = bytes_eqb (Key x) [].
Proof.
  intros Ed. pose proof (wk_sorted _ _ _ _ walkOut_walks) as Hs. rewrite Ed, fmap_app in Hs.
  destruct (last (Key <$> d)) as [k|] eqn:El; [|done]. cbn [from_option id].
  assert (bytes_lt k (Key x)) as Hlt. { apply StronglySorted_app in Hs as (_ & _ & Hs). apply Hs; [by apply last_Some_elem_of|left]. }
  rewrite (proj2 (bytes_eqb_false (Key x) k)); [|intros Ek; rewrite Ek in Hlt; by apply bytes_lt_irrefl in Hlt].
  symmetry. apply bytes_eqb_false. intros Hnil. rewrite Hnil in Hlt. by destruct k.
Qed.

Lemma stream_runs {B} fn (f : B -> record -> B) (b : B) (rs := omap recordOf walkOut) :
  (forall b op key val x, fn b op key val x = Some (f b (mkRecord op key val x))) ->
  runs (StreamSnapshot aesEncrypt xxhash fn now b) e
    (fun r e' => calm e e' g sp pd n /\ r = (foldl f b rs, Z.of_nat (length rs), false)).
Proof.
  intros Hfn. unfold StreamSnapshot. run_get. pose proof walkOut_walks as Hw.
  apply (runs_step _ _ _ (fun r e' => calm e e' g sp pd n /\ exists k, r = (foldl f b rs, Z.of_nat (length rs), k, false))).
  2:{ intros r e' (Hc & k & ->). by apply runs_ret. }
  apply (scanLoop_runs _ (fun l st e' => exists d, walkOut = d ++ l /\ calm e e' g sp pd n /\
    st = (foldl f b (omap recordOf d), Z.of_nat (length (omap recordOf d)), default [] (last (Key <$> d)), false))).
  - intros l st e' stats (d & H1 & H2 & H3). exists d. split; [done|]. split; [by apply calm_stats|done].
  - intros x l st e' (d & Ed & Hc & ->). unfold streamBody. rewrite (prev_key d x l Ed).
    assert (default [] (last (Key <$> d ++ [x])) = Key x) as Hlast by (rewrite fmap_app; cbn [fmap list_fmap]; by rewrite last_snoc).
    assert (forall r e2, recordOf x = r -> calm e e2 g sp pd n -> exists d', walkOut = d' ++ l /\ calm e e2 g sp pd n /\
      (foldl f (foldl f b (omap recordOf d)) (option_list r), Z.of_nat (length (omap recordOf d)) + Z.of_nat (length (option_list r)), Key x, false) =
      (foldl f b (omap recordOf d'), Z.of_nat (length (omap recordOf d')), default [] (last (Key <$> d')), false)) as Hdone.
    { intros r e2 <- Hc2. exists (d ++ [x]). split; [by rewrite Ed, <- app_assoc|]. split; [done|]. rewrite omap_app, Hlast, foldl_app, length_app.
      assert (omap recordOf [x] = option_list (recordOf x)) as -> by (cbn; by destruct (recordOf x)). by rewrite Nat2Z.inj_add. }
    destruct (bytes_eqb (Key x) []) eqn:Ek.
    { apply runs_ret. destruct (Hdone None e') as (d' & H1 & H2 & H3); [unfold recordOf; by rewrite Ek|done|]. exists d'. split; [done|]. split; [done|].
      cbn [fst snd]. rewrite <- H3. cbn [option_list foldl length]. rewrite Z.add_0_r. f_equal. f_equal.
      pose proof (prev_key d x l Ed) as Hp. rewrite Ek in Hp. symmetry. by apply bytes_eqb_spec. }
    destruct ((0 <? ExpiresAt x) && (ExpiresAt x <=? now)) eqn:Ex.
    { apply runs_ret. cbn [fst snd]. rewrite <- (Z.add_0_r (Z.of_nat _)). apply (Hdone None e'); [unfold recordOf; by rewrite Ek, Ex|done]. }
    destruct (Deleted x) eqn:Ed'.
    { apply runs_bind, runs_ret, runs_ret. rewrite Hfn. cbn [fst snd from_option]. apply (Hdone (Some _) e'); [unfold recordOf; by rewrite Ek, Ex, Ed'|done]. }
    destruct (walk_value aesEncrypt xxhash reg e g sp pd now Hi Hfloor Htime [] None walkOut x Hw (in_scope_all _)) as (u & Hu & Hden & Hst).
    { rewrite Ed. set_solver. }
    { unfold goneAt. by rewrite Ed', Ex. }
    apply (runs_step _ _ _ _ _ (resolveRaw_runs aesEncrypt reg e e' g sp pd n x u Hc Hst Hden)). intros v e2 [-> Hc2]. apply runs_ret.
    rewrite Hfn. cbn [fst snd from_option]. apply (Hdone (Some _) e2); [unfold recordOf; by rewrite Ek, Ex, Ed', Hu|done].
  - intros st e' (d & Ed & Hc & ->). rewrite app_nil_r in Ed. subst d. split; [done|]. by eexists.
  - exists []. split; [done|]. split; [by apply calm_refl|done].
Qed.

(** What the records say. *)
Record streamed (rs : list record) : Prop := {
  sd_nodup : NoDup (rec_key <$> rs);
  sd_sound : forall r, r ∈ rs -> (rec_op r = OpPut /\ reads (rec_key r) = Some (rec_val r, rec_exp r)) \/ (rec_op r = OpDelete /\ reads (rec_key r) = None);
  sd_some : forall r, r ∈ rs -> rec_key r <> [];
  sd_complete : forall k, k <> [] -> is_Some (reads k) -> exists r, r ∈ rs /\ rec_key r = k;
}.

Lemma recordOf_key x r : recordOf x = Some r -> rec_key r = Key x /\ rec_exp r = ExpiresAt x /\ rec_op r = (if Deleted x then OpDelete else OpPut) /\
  Key x <> [] /\ ((0 <? ExpiresAt x) && (ExpiresAt x <=? now)) = false /\ (Deleted x = false -> rec_val r = default [] (fst <$> reads (Key x))).
Proof.
  unfold recordOf. destruct (bytes_eqb (Key x) []) eqn:Ek; [done|]. apply bytes_eqb_false in Ek. cbn [orb]. destruct (_ && _); [done|].
  intros [= <-]. cbn. split_and!; try done. by intros ->.
Qed.

Lemma records_keys l : rec_key <$> omap recordOf l `sublist_of` Key <$> l.
Proof.
  induction l as [|x l IH]; [done|]. rewrite fmap_cons. cbn [omap list_omap]. destruct (recordOf x) as [r|] eqn:E; [|by constructor].
  rewrite fmap_cons. destruct (recordOf_key x r E) as [-> _]. by constructor.
Qed.

Lemma records_streamed : streamed (omap recordOf walkOut).
Proof.
  pose proof walkOut_walks as Hw. split.
  - eapply sublist_NoDup; [|apply records_keys]. apply (sorted_NoDup bytes_lt); [intros x; apply bytes_lt_irrefl|apply (wk_sorted _ _ _ _ Hw)].
  - intros r (x & Hx & E)%list_elem_of_omap. destruct (recordOf_key x r E) as (-> & -> & -> & _ & Ex & Hv).
    destruct (Deleted x) eqn:Ed.
    + right. split; [done|]. pose proof (stored_log aesEncrypt xxhash reg e g sp pd now (Key x) Hi Hfloor Htime) as Hl.
      rewrite (wk_newest _ _ _ _ Hw x Hx (in_scope_all _)) in Hl. unfold goneAt in Hl. by rewrite Ed in Hl.
    + left. split; [done|]. destruct (walk_value aesEncrypt xxhash reg e g sp pd now Hi Hfloor Htime [] None walkOut x Hw (in_scope_all _) Hx) as (u & Hu & _).
      { unfold goneAt. by rewrite Ed, Ex. }
      rewrite (Hv eq_refl), Hu. done.
  - intros r (x & Hx & E)%list_elem_of_omap. by destruct (recordOf_key x r E) as (-> & _ & _ & ? & _).
  - intros k Hne Hs. apply (walk_reads aesEncrypt xxhash reg e g sp pd now Hi Hfloor Htime [] None walkOut k Hw (in_scope_all k)) in Hs as (o & Ho & <- & Hg).
    unfold goneAt in Hg. apply orb_false_iff in Hg as [Hd Hx]. eexists. split.
    + apply list_elem_of_omap. exists o. split; [done|]. unfold recordOf. rewrite (proj2 (bytes_eqb_false _ _) Hne), Hx. reflexivity.
    + done.
Qed.
End stream.

(** The entries a snapshot writes. *)
Definition toBatch (r : record) : BatchWriteEntry := mkBatch (rec_key r) (rec_val r) (rec_op r =? 2) (rec_exp r).

(** What is left of a map at a time. *)
Definition liveMap (now : Z) (M : kvmap) : kvmap := filter (fun kv => alive now kv.2.2 = true /\ kv.1 <> []) M.

Lemma streamed_map g now M rs : logMap (g_log g) M -> streamed g now rs -> kv_writes ∅ (toBatch <$> rs) = liveMap now M.
Proof.
  intros HM [Hnd Hs Hne Hc].
  assert (bw_key <$> (toBatch <$> rs) = rec_key <$> rs) as Hk by (by rewrite <- list_fmap_compose).
  assert (forall k, readsLog g now k = match M !! k with Some (v, x) => if alive now x then Some (v, x) else None | None => None end) as Hr
    by (intros k; unfold readsLog; by apply logRead_map).
  apply map_eq. intros k. destruct (kv_writes_lookup ∅ (toBatch <$> rs) k) as [H1 H2]; [by rewrite Hk|].
  destruct (decide (k ∈ rec_key <$> rs)) as [(r & -> & Hin)%list_elem_of_fmap|Hk'].
  - rewrite (H1 (toBatch r)); [|by apply list_elem_of_fmap_2|done]. specialize (Hr (rec_key r)). symmetry. cbn [toBatch bw_deleted bw_value bw_expiresAt].
    unfold liveMap. destruct (Hs r Hin) as [[-> E]|[-> E]]; rewrite E in Hr; cbn [OpPut OpDelete Z.eqb Pos.eqb].
    + destruct (M !! rec_key r) as [[v x]|] eqn:Em; [|done]. destruct (alive now x) eqn:Ea; [|done]. injection Hr as -> ->.
      apply map_lookup_filter_Some. split; [done|]. split; [done|by apply Hne].
    + apply map_lookup_filter_None. right. intros [v x] Em [Ha _]. cbn in Ha. by rewrite Em, Ha in Hr.
  - rewrite H2 by (by rewrite Hk). rewrite lookup_empty. symmetry. apply map_lookup_filter_None. right. intros [v x] Em [Ha Hn]. cbn in Ha, Hn.
    destruct (Hc k Hn) as (r & Hin & <-); [rewrite Hr, Em, Ha; eauto|]. apply Hk'. by apply list_elem_of_fmap_2.
Qed.

(** ** The format of a cluster's snapshot *)

(** [raft.SnapshotSink] under a [bufio.Writer]: what it holds after a write, or
    the error. *)
Record sink := mkSink { snk_Write : bytes -> bytes -> option bytes; snk_Flush : bytes -> option bytes }.

Definition snapshotHdr (r : record) : bytes :=
  [rec_op r] ++ be_encode 4 (u32 (Z.of_nat (length (rec_key r)))) ++ be_encode 4 (u32 (Z.of_nat (length (rec_val r)))) ++ be_encode 8 (u64 (rec_exp r)).

(** The callback of [Persist]. *)
Definition writeRecord (k : sink) (b : bytes) (op : Z) (key val : bytes) (expiresAt : Z) : option bytes :=
  b ← snk_Write k b (snapshotHdr (mkRecord op key val expiresAt));
  b ← snk_Write k b key;
  if (0 <? length val)%nat then snk_Write k b val else Some b.

Section persist.
Context (aesEncrypt : bytes -> bytes -> bytes) (xxhash : bytes -> Z).

(** [None] is an error, the sink cancelled. *)
Definition Persist (k : sink) (now : Z) : eng (option bytes) :=
  match (b ← snk_Write k [] snapshotMagic; snk_Write k b [snapshotVersion]) with
  | None => mret None
  | Some b =>
      r ← StreamSnapshot aesEncrypt xxhash (writeRecord k) now b;
      mret (if r.2 : bool then None else snk_Flush k r.1.1)
  end.

(** A sink that takes everything. *)
Definition goodSink : sink := mkSink (fun b x => Some (b ++ x)) Some.

Definition snapshotEntry (r : record) : bytes := snapshotHdr r ++ rec_key r ++ rec_val r.
Definition snapshotBytes (rs : list record) : bytes := snapshotMagic ++ [snapshotVersion] ++ concat (snapshotEntry <$> rs).

Lemma foldl_concat {A} (f : A -> bytes) b l : foldl (fun b x => b ++ f x) b l = b ++ concat (f <$> l).
Proof. revert b. induction l as [|x l IH]; intros b; cbn; [by rewrite app_nil_r|]. by rewrite IH, <- app_assoc. Qed.

Lemma writeRecord_good b op key val x : writeRecord goodSink b op key val x = Some (b ++ snapshotEntry (mkRecord op key val x)).
Proof.
  unfold writeRecord, snapshotEntry. cbn [goodSink snk_Write mbind option_bind rec_key rec_val]. rewrite <- !app_assoc.
  destruct val; cbn [length Nat.ltb Nat.leb]; by rewrite ?app_nil_r.
Qed.
End persist.

(** ** Reading it back *)

Lemma ReadFull_app n a r : length a = n -> ReadFull n (a ++ r) = inl (a, r).
Proof.
  intros <-. unfold ReadFull. rewrite length_app, (proj2 (Nat.leb_le _ _)) by lia. by rewrite take_app_length, drop_app_length.
Qed.

Definition record_ok (r : record) : Prop :=
  (rec_op r = OpPut \/ rec_op r = OpDelete) /\ kv_ok (rec_key r) (rec_val r) (rec_exp r) /\
  Z.of_nat (length (rec_key r)) <= maxSnapshotFieldSize /\ Z.of_nat (length (rec_val r)) <= maxSnapshotFieldSize.

Lemma length_snapshotHdr r : length (snapshotHdr r) = snapshotEntryHdrSize.
Proof. unfold snapshotHdr. by rewrite !length_app, !length_be_encode. Qed.

Lemma snapshotHdr_fields r : record_ok r ->
  be_decode (slice (snapshotHdr r) 1 5) = Z.of_nat (length (rec_key r)) /\ be_decode (slice (snapshotHdr r) 5 9) = Z.of_nat (length (rec_val r)) /\
  i64 (be_decode (slice (snapshotHdr r) 9 17)) = rec_exp r.
Proof.
  intros (_ & [_ _ Hx _] & Hk & Hv). unfold maxSnapshotFieldSize in *. unfold snapshotHdr.
  set (a := be_encode 4 _). set (b := be_encode 4 _). set (c := be_encode 8 _).
  assert (length a = 4%nat /\ length b = 4%nat /\ length c = 8%nat) as (La & Lb & Lc) by (unfold a, b, c; by rewrite !length_be_encode).
  assert (slice ([rec_op r] ++ a ++ b ++ c) 1 5 = a /\ slice ([rec_op r] ++ a ++ b ++ c) 5 9 = b /\ slice ([rec_op r] ++ a ++ b ++ c) 9 17 = c) as (-> & -> & ->).
  { clearbody a b c. repeat (destruct a as [|? a]; try (cbn in La; lia)). repeat (destruct b as [|? b]; try (cbn in Lb; lia)).
    repeat (destruct c as [|? c]; try (cbn in Lc; lia)). done. }
  unfold a, b, c. rewrite !u32_id by (unfold is_u32; lia). rewrite !be_decode_encode_id by (try apply u64_range; lia).
  split; [done|]. split; [done|]. by rewrite i64_u64.
Qed.

Definition restoreCost (es : list BatchWriteEntry) : Z := batchCost es + 320 * Z.of_nat (length es).

Lemma batchCost_app a b : batchCost (a ++ b) = batchCost a + batchCost b.
Proof. induction a as [|x a IH]; cbn [app batchCost]; lia. Qed.

Lemma restoreCost_app a b : restoreCost (a ++ b) = restoreCost a + restoreCost b.
Proof. unfold restoreCost. rewrite batchCost_app, length_app. lia. Qed.

Lemma restoreCost_pos es : 0 <= restoreCost es.
Proof. unfold restoreCost. pose proof (batchCost_nonneg es). lia. Qed.

Section restore.
Context {S : Type} {HS : Store S} {HD : DB S} {HA : Admin S} {HG : GoText} {HM : Msgpack} (E : bytes -> Prop) {laws : StoreLaws S E}.
Hypothesis any_expiry : forall k, E k.
Context (w : World) (t : Z).
Hypothesis w_ok : world_ok t w.

(** How a restoration may end. *)
Definition restored (M : kvmap) (n : Z) (es : list BatchWriteEntry) (r : option bytes) (s' : S) : Prop :=
  (r = None /\ rep s' (kv_writes M es) (n - restoreCost es) t) \/ (r = Some (errText ErrDiskFull) /\ exists M' n', rep s' M' n' t).

Definition entries_ok (es : list BatchWriteEntry) : Prop := Forall batch_ok es /\ NoDup (bw_key <$> es).

Lemma submit_restored s M n es : rep s M n t -> entries_ok es -> es <> [] -> restoreCost es <= n ->
  does (db_submitBatch w es) s (fun r s' => (r = None /\ rep s' (kv_writes M es) (n - restoreCost es) t) \/ (r = Some ErrDiskFull /\ rep s' M n t)).
Proof.
  intros Hr [Hok Hnd] Hne Hn. assert (writeCost es <= restoreCost es) as Hle by (unfold writeCost, restoreCost; destruct es; [done|cbn [length]; lia]).
  eapply does_mono; [apply (submitBatch_law s M n t w es Hr w_ok)|].
  - split; [done|done|done|]. apply Forall_forall. intros b _. right. apply any_expiry.
  - lia.
  - intros r s' [[-> H]|(-> & _ & H)]; [left|by right]. split; [done|]. eapply rep_less; [|exact H]. lia.
Qed.

(** One round of the loop on the bytes of a record. *)
Lemma restoreLoop_record fuel r rest batch : record_ok r ->
  restoreLoop (Datatypes.S fuel) w (snapshotEntry r ++ rest) batch =
    let batch := batch ++ [toBatch r] in
    if (batchSize <=? length batch)%nat then
      res ← db_submitBatch w batch; match res with Some err => mret (Some (errText err)) | None => restoreLoop fuel w rest [] end
    else restoreLoop fuel w rest batch.
Proof.
  intros Hr. destruct (snapshotHdr_fields r Hr) as (E1 & E2 & E3). destruct Hr as (Hop & Hkv & Hk & Hv).
  cbn [restoreLoop]. unfold snapshotEntry. rewrite <- !app_assoc. rewrite ReadFull_app by apply length_snapshotHdr. rewrite E1, E2, E3.
  rewrite !(proj2 (Z.ltb_ge _ _)) by (unfold maxSnapshotFieldSize in *; lia). cbn [orb]. rewrite ReadFull_app by lia.
  assert ((if 0 <? Z.of_nat (length (rec_val r)) then ReadFull (Z.to_nat (Z.of_nat (length (rec_val r)))) (rec_val r ++ rest) else inl ([], rec_val r ++ rest)) =
    inl (rec_val r, rest)) as ->.
  { destruct (Z.ltb_spec 0 (Z.of_nat (length (rec_val r)))); [apply ReadFull_app; lia|]. by destruct (rec_val r). }
  done.
Qed.

Lemma restoreLoop_end fuel batch : restoreLoop (Datatypes.S fuel) w [] batch =
  if (0 <? length batch)%nat then res ← db_submitBatch w batch; mret (errText <$> res) else mret None.
Proof. done. Qed.

Lemma restore_frames rs : forall fuel batch s M n, Forall record_ok rs -> (length (concat (snapshotEntry <$> rs)) < fuel)%nat -> (length batch < batchSize)%nat ->
  entries_ok (batch ++ (toBatch <$> rs)) -> rep s M n t -> restoreCost (batch ++ (toBatch <$> rs)) <= n ->
  does (restoreLoop fuel w (concat (snapshotEntry <$> rs)) batch) s (restored M n (batch ++ (toBatch <$> rs))).
Proof.
  induction rs as [|r rs IH]; intros fuel batch s M n Hrs Hf Hb Hok Hr Hn; (destruct fuel as [|fuel]; [lia|]).
  { cbn [fmap list_fmap concat] in *. rewrite app_nil_r in *. rewrite restoreLoop_end. destruct batch as [|b batch].
    - left. split; [done|]. eapply rep_less; [|exact Hr]. unfold restoreCost. cbn. lia.
    - eapply does_step; [by apply submit_restored|]. intros res s' [[-> H]|[-> H]]; [left; done|right; eauto]. }
  apply Forall_cons in Hrs as [Hr0 Hrs]. rewrite !fmap_cons in *. cbn [concat] in *. rewrite length_app in Hf.
  assert (17 <= length (snapshotEntry r))%nat by (unfold snapshotEntry; rewrite length_app, length_snapshotHdr; unfold snapshotEntryHdrSize; lia).
  rewrite restoreLoop_record by done. cbv zeta. assert (batch ++ toBatch r :: (toBatch <$> rs) = (batch ++ [toBatch r]) ++ (toBatch <$> rs)) as Eq by (by rewrite <- app_assoc).
  rewrite Eq in *. clear Eq.
  set (batch' := batch ++ [toBatch r]) in *. destruct (batchSize <=? length batch')%nat eqn:Eb.
  - destruct Hok as [Hok Hnd]. rewrite fmap_app in Hnd. apply NoDup_app in Hnd as (Hnd1 & _ & Hnd2). apply Forall_app in Hok as [Hok1 Hok2].
    rewrite restoreCost_app in Hn. pose proof (restoreCost_pos (toBatch <$> rs)) as Hp.
    eapply does_step; [apply (submit_restored s M n batch' Hr); [by split|by destruct batch|lia]|].
    intros res s' [[-> H1]|[-> H1]]; [|right; split; [done|eauto]].
    eapply does_mono; [apply (IH fuel [] s' (kv_writes M batch') (n - restoreCost batch')); [done|lia|unfold batchSize; cbn; lia|by split|done|cbn [app]; lia]|].
    intros res s2 [[-> H2]|H2]; [left|by right]. split; [done|]. cbn [app] in H2. unfold kv_writes in *. rewrite foldl_app, restoreCost_app.
    eapply rep_less; [|exact H2]. lia.
  - apply Nat.leb_gt in Eb. apply (IH fuel batch' s M n); [done|lia|done|done|done|done].
Qed.

(** The whole of it, into a database that empties itself. *)
Lemma Restore_snapshot rs s n : Forall record_ok rs -> NoDup (rec_key <$> rs) -> restoreCost (toBatch <$> rs) <= n ->
  does (db_Clear w) s (fun r s' => r = None /\ rep s' ∅ n t) ->
  does (Restore w (snapshotBytes rs)) s (restored ∅ n (toBatch <$> rs)).
Proof.
  intros Hrs Hnd Hn Hclear. unfold Restore, snapshotBytes. rewrite ReadFull_app by done. rewrite bool_decide_eq_true_2 by done. cbn [negb].
  rewrite ReadFull_app by done. rewrite bool_decide_eq_true_2 by done. cbn [negb]. eapply does_step; [exact Hclear|]. intros r s' [-> Hr].
  apply (restore_frames rs _ [] s' ∅ n); [done|lia|unfold batchSize; cbn; lia| |done|done]. split.
  - apply Forall_fmap. eapply Forall_impl; [exact Hrs|]. intros r (_ & Hkv & _) _. exact Hkv.
  - cbn [app]. rewrite <- list_fmap_compose. exact Hnd.
Qed.
End restore.

(** ** Emptying the engine *)

Section clear.
Context (aesEncrypt : bytes -> bytes -> bytes) (xxhash : bytes -> Z).

Definition clearReq : writeReq := mkReq opClear [] [] 0 0 0 noVp [] false false.
Definition Engine_Clear (w : World) : eng (option err) := res ← dispatch aesEncrypt w clearReq; mret (ir_err res).
Definition ReleaseVersion (version : Z) : eng unit := e ← getE; putE (set_oracle e (MarkApplied (e_oracle e) version)).

#[export] Instance engineAdmin : Admin Engine := {
  db_Clear := Engine_Clear;
  db_CurrentVersion := e ← getE; mret (sl_versionCounter (e_memTable e));
  db_ReleaseVersion := ReleaseVersion;
}.

Hypothesis aes_wf : forall k b, wf_bytes (aesEncrypt k b).
Context (reg : option KeyRegistry).
Hypothesis reg_ok : registry_ok reg.
Notation inv := (eng_inv aesEncrypt reg).

Definition g_cleared (g : Ghost) : Ghost := mkGhost (g_iss g) (g_dropped g) [] [] 0 0 0 (g_time g) (g_sealed g).

Lemma holds_deletes fids : forall vl iss n, vl_holds aesEncrypt reg vl iss -> room vl n -> vl_active vl ∉ fids ->
  let vl' := foldl (fun vl fid => (DeleteSegment vl fid).2) vl fids in
  vl_holds aesEncrypt reg vl' iss /\ room vl' n /\ vl_live vl' ⊆ vl_live vl /\ vl_active vl' = vl_active vl.
Proof.
  induction fids as [|fid fids IH]; intros vl iss n Hh Hr Ha; [by cbn|]. cbn [foldl]. apply not_elem_of_cons in Ha as [Hne Ha].
  destruct (holds_delete aesEncrypt aes_wf reg reg_ok vl iss n fid Hh Hr) as (H1 & H2 & H3 & H4); [congruence|].
  destruct (IH _ _ n H1 H2) as (I1 & I2 & I3 & I4); [by rewrite H4|]. split; [done|]. split; [done|]. split; [|by rewrite I4].
  rewrite H3 in I3. set_solver.
Qed.

(** After [clearInternal] the engine is one with an empty log. *)
Lemma clearInternal_runs e g n w : inv e g [] [] -> room (e_vl e) n -> e_immMemTable e = None -> 0 <= nextTs (e_oracle e) ->
  runs (clearInternal w) e (fun _ e' => e_oracle e' = e_oracle e /\ room (e_vl e') n /\ inv e' (g_cleared g) [] []).
Proof.
  intros Hi Hroom Him Hnx. unfold clearInternal. run_get.
  assert (exists newWal, OpenWAL [] (vl_reg (e_vl e)) (wd_ivWal w) = Some newWal) as [newWal ->].
  { unfold OpenWAL. cbn. repeat case_match; eauto; try done. }
  set (fids := filter _ _). destruct (holds_deletes fids (e_vl e) (g_iss g) n (ei_vl _ _ _ _ _ _ Hi) Hroom) as (Hh & Hr & Hl & Ha).
  { intros [Hne _]%list_elem_of_filter. done. }
  set (vl := foldl _ _ _) in *. clearbody vl.
  assert (mkValueLog (vl_heap vl) (vl_live vl) (vl_maxSize vl) (vl_reg vl) (vl_nextFid vl) (vl_active vl) ∅ = vl) as ->.
  { destruct vl. f_equal. symmetry. exact (vh_files _ _ _ _ Hh). }
  split; [done|]. split; [exact Hr|]. match goal with |- inv ?x _ _ _ => set (e' := x) end.
  assert (memE e' = [] /\ immE e' = [] /\ lsmE e' = []) as (E1 & E2 & E3).
  { split; [|done]. apply Permutation_nil_r. exact (proj1 (proj2 (proj2 (NewSkipList_refines (wd_seed w))))). }
  assert (everything e' (g_cleared g) = []) as Ee by (unfold everything; by rewrite E1, E2).
  destruct Hi. split; rewrite ?E1, ?E2, ?E3, ?Ee; try done.
  - exists (mkMemSpec [] 0). apply NewSkipList_refines.
  - unfold queue_ok in *. rewrite Him in ei_queue. cbn. by destruct (e_flushChan e).
  - apply lsm_okb_spec. by vm_compute.
  - by intros a ?%elem_of_nil.
  - by intros a ?%elem_of_nil.
  - by intros a [?%elem_of_nil|?%elem_of_nil].
  - by intros a ?%elem_of_nil.
  - by intros a [?%elem_of_nil|?%elem_of_nil].
  - constructor.
  - by exists [].
  - cbn [app ptrs]. etrans; [|exact ei_ptrs]. apply submseteq_inserts_l, submseteq_inserts_l. done.
  - by intros vp ?%elem_of_nil.
  - intros fid Hf. apply ei_discards. cbn in Hf. rewrite Ha in Hf. destruct Hf; [left; by apply Hl|by right].
  - split; [constructor|]. split; [constructor|]. by intros a ?%elem_of_nil.
  - cbn. rewrite Ha. exact ei_sealed.
  - by intros x ?%elem_of_nil.
Qed.

Lemma deleteReq_ok : req_ok (deleteReq []).
Proof.
  split; cbn [deleteReq rq_op rq_key rq_val rq_expiresAt rq_batch]; [set_solver| |split; constructor|done].
  split; [split; [constructor|done]|split; [constructor|done]|unfold is_i64; lia|done].
Qed.

(** [Clear] on an engine without open snapshots or a memtable to be flushed. *)
Lemma Clear_does (E : bytes -> Prop) e M n t gc sp g w : engineRep aesEncrypt reg E e M n t [] gc sp g -> e_immMemTable e = None -> 1 <= n ->
  does (Engine_Clear w) e (fun r e' => r = None /\ engine_rep aesEncrypt reg E e' ∅ (n - 1) t).
Proof.
  intros [Hs Hroom Hsp _ _] Him Hn. pose proof (sys_clock _ _ _ _ _ Hs) as Hclock. cbn [EngineSystem.s_e] in Hclock.
  apply runs_does. unfold Engine_Clear. apply runs_bind. unfold dispatch. run_get.
  assert (refused e clearReq = false) as -> by (unfold refused; cbn; by destruct (e_diskFull e)).
  destruct (assignSeq_spec e (deleteReq []) eq_refl) as (e1 & Ea & Ev & Enx); [lia..|]. set (seq := nextTs (e_oracle e) + 1) in *.
  pose proof (sim_assign aesEncrypt aes_wf reg reg_ok _ sp g (deleteReq []) seq e1 Hs deleteReq_ok eq_refl ltac:(by intros ? x ?%elem_of_nil) ltac:(cbn; lia) Ea) as Hs1.
  apply (runs_step _ _ _ (fun q e' => q = seq /\ e' = e1)); [unfold runs; change (assignSeq clearReq e) with (assignSeq (deleteReq []) e); by rewrite Ea|].
  intros q e' [-> ->]. cbn [EngineSystem.s_e s_pending EngineSystem.s_open s_gc s_now] in Hs1.
  destruct (pending_facts aesEncrypt aes_wf reg reg_ok _ sp g _ seq [] [] Hs1 eq_refl) as (_ & Hseq & Hi1 & _).
  pose proof (sim_refuse aesEncrypt aes_wf reg reg_ok _ sp g _ seq [] [] _ Hs1 eq_refl eq_refl) as Hs2. cbn [EngineSystem.s_e] in *.
  assert (e_immMemTable e1 = None) as Him1.
  { unfold assignSeq, mbind, eng_bind, getE, putE in Ea. cbn in Ea. injection Ea as _ <-. exact Him. }
  apply runs_bind. eapply runs_mono; [apply (clearInternal_runs e1 g n w Hi1); [by rewrite Ev|done|lia]|].
  intros _ e2 (Ho2 & Hr2 & Hi2). unfold markApplied. apply runs_bind. run_get. apply runs_putE, runs_ret, runs_ret. split; [done|].
  exists [], gc, (mkLogSpec [] [] ∅), (g_cleared g). split; cbn [sp_log].
  - destruct Hs2. split; try done; cbn [EngineSystem.s_e s_pending EngineSystem.s_open s_gc s_now sp_log sp_snaps sp_incr] in *.
    + apply inv_set_oracle; [exact Hi2|apply MarkApplied_next].
    + cbn. eapply room_le; [|exact Hr2]. lia.
    + cbn. by rewrite Ho2.
    + by intros x ?%elem_of_nil.
    + by intros x ?%elem_of_nil.
    + by intros u ?%elem_of_nil.
    + cbn. rewrite Ho2. split; [|by intros ts ?%elem_of_nil]. destruct sy_oracle as [txns Ho]. pose proof (oi_clock _ _ _ Ho). cbn in *. lia.
    + by intros x ?%elem_of_nil.
  - cbn. eapply room_le; [|exact Hr2]. lia.
  - cbn. rewrite MarkApplied_next, Ho2, Enx. unfold seq. lia.
  - by intros k.
  - by intros u ?%elem_of_nil.
Qed.
End clear.

(** ** From node to node *)

Section transfer.
Context (aesEncrypt : bytes -> bytes -> bytes) (xxhash : bytes -> Z).
Hypothesis aes_wf : forall k b, wf_bytes (aesEncrypt k b).
Context (reg1 reg2 : option KeyRegistry).
Hypothesis reg_ok2 : registry_ok reg2.
Context {HG : GoText} {HM : Msgpack}.

(** Any key may have an expiry time. *)
Definition anyKey (k : bytes) : Prop := True.
Notation holds1 := (engine_rep aesEncrypt reg1 anyKey).
Notation holds2 := (engine_rep aesEncrypt reg2 anyKey).

(** The records of a snapshot, as [StreamSnapshot] hands them out. *)
Definition collect (now : Z) : eng (list record) :=
  r ← StreamSnapshot aesEncrypt xxhash (fun rs op key val expiresAt => Some (rs ++ [mkRecord op key val expiresAt])) now []; mret r.1.1.

Lemma streamed_rep e M n t opens gc sp g now : engineRep aesEncrypt reg1 anyKey e M n t opens gc sp g -> t <= now ->
  exists rs, streamed g now rs /\ forall B fn (f : B -> record -> B) b, (forall b op key val x, fn b op key val x = Some (f b (mkRecord op key val x))) ->
    does (StreamSnapshot aesEncrypt xxhash fn now b) e
      (fun r e' => r.1.1 = foldl f b rs /\ r.2 = false /\ engineRep aesEncrypt reg1 anyKey e' M n t opens gc sp g).
Proof.
  intros Hr Hnow. edestruct (rep_readable aesEncrypt xxhash) as [Hi Hf Hn Ht]; [exact Hr|exact Hnow|].
  assert (room (e_vl e) (Z.max 0 n)) as Hroom by (eapply room_both; exact Hr).
  eexists. split; [exact (records_streamed aesEncrypt xxhash reg1 e g [] [] now Hi Hf Hn Ht)|]. intros B fn f b Hfn.
  apply runs_does. eapply runs_mono; [exact (stream_runs aesEncrypt xxhash reg1 e g [] [] (Z.max 0 n) now Hi Hroom Hf Hn Ht fn f b Hfn)|].
  intros r e' (Hc & ->). split; [done|]. split; [done|]. destruct Hc as [_ _ _ Co Ci Cr].
  eapply (rep_quietly aesEncrypt xxhash); [exact Hr|exact Ci|exact Co|eapply room_le; [|exact Cr]; lia..].
Qed.

Lemma foldl_snoc (rs l : list record) : foldl (fun rs r => rs ++ [r]) l rs = l ++ rs.
Proof. revert l. induction rs as [|r rs IH]; intros l; cbn; [by rewrite app_nil_r|]. by rewrite IH, <- app_assoc. Qed.

(** C8. A snapshot carries the database from one node of a cluster to another.
    [Persist] on an engine that holds the values [M] writes a file, and
    [Restore] of that file on another engine, whatever that held before, with
    no open snapshots and no memtable waiting to be flushed, leaves there
    exactly the keys of [M], but for the empty key, that have not expired, with
    their values and expiry times (or stops because its disk is full). The
    records are within the limits of the format. *)
Theorem snapshot_transfers e1 M n1 t1 now e2 M2 n2 t2 gc sp g w :
  holds1 e1 M n1 t1 -> t1 <= now ->
  engineRep aesEncrypt reg2 anyKey e2 M2 n2 t2 [] gc sp g -> e_immMemTable e2 = None -> world_ok t2 w ->
  exists rs e1', does (collect now) e1 (fun l _ => l = rs) /\
    Persist aesEncrypt xxhash goodSink now e1 = Some (Some (snapshotBytes rs), e1') /\ holds1 e1' M n1 t1 /\
    (Forall record_ok rs -> restoreCost (toBatch <$> rs) < n2 ->
     does (@Restore Engine (engineStore aesEncrypt xxhash) (engineAdmin aesEncrypt) HG w (snapshotBytes rs)) e2 (fun r e2' =>
       (r = None /\ exists n', holds2 e2' (liveMap now M) n' t2) \/ r = Some (errText ErrDiskFull))).
Proof using aes_wf reg_ok2.
  intros (opens & gc1 & sp1 & g1 & Hr1) Hnow Hr2 Him Hw. destruct (streamed_rep _ _ _ _ _ _ _ _ now Hr1 Hnow) as (rs & Hs & Hstream).
  pose proof (Hstream _ (writeRecord goodSink) (fun b r => b ++ snapshotEntry r) (snapshotMagic ++ [snapshotVersion]) writeRecord_good) as Hp.
  destruct (does_inv _ _ _ Hp) as (r & e1' & Hrun & Hb & Hfail & Hr1'). rewrite foldl_concat in Hb.
  exists rs, e1'. split; [|split; [|split; [by exists opens, gc1, sp1, g1|]]].
  - unfold collect. eapply does_step; [by apply (Hstream _ _ (fun l r => l ++ [r]))|]. intros a s' [-> _]. apply does_ret. by rewrite foldl_snoc.
  - unfold Persist. change (b ← snk_Write goodSink [] snapshotMagic; snk_Write goodSink b [snapshotVersion]) with (Some (snapshotMagic ++ [snapshotVersion])).
    cbv iota. unfold mbind, st_bind, mret, st_ret. rewrite Hrun. rewrite Hfail, Hb. cbn [goodSink snk_Flush].
    unfold snapshotBytes. by rewrite <- app_assoc.
  - intros Hok Hcost. pose proof (Clear_does aesEncrypt xxhash aes_wf reg2 reg_ok2 anyKey e2 M2 n2 t2 gc sp g w Hr2 Him ltac:(pose proof (restoreCost_pos (toBatch <$> rs)); lia)) as Hclear.
    eapply does_mono.
    + apply (Restore_snapshot (HS := engineStore aesEncrypt xxhash) (HA := engineAdmin aesEncrypt) anyKey (laws := engineLaws aesEncrypt xxhash aes_wf reg2 reg_ok2 anyKey) (fun _ => I) w t2 Hw rs e2 (n2 - 1) Hok (sd_nodup _ _ _ Hs)); [lia|exact Hclear].
    + intros r' s' [[-> H]|[-> _]]; [left; split; [done|]|by right].
      exists (n2 - 1 - restoreCost (toBatch <$> rs)). rewrite <- (streamed_map g1 now M rs); [exact H| |done].
      pose proof (er_sys _ _ _ _ _ _ _ _ _ _ _ Hr1) as Hsys. rewrite (sy_log _ _ _ _ _ Hsys). apply Hr1.
Qed.
End transfer.
