(* ===== verification/ClusterRun.v ===== *)
(** * Clusters on the engine

    The promises of a cluster on concrete engines, and where nodes of one
    cluster drift apart. *)
From Stdlib Require Import String.
From S2P Require Import Prelude Mvcc Oracle SkipList Strconv Encoding Crypto Registry Wal Vlog Values VlogSpec Compaction Engine Open EngineInv EngineSteps EngineSystem EngineMain Scan Store Collections CollSpec CollModel CollMain CollEngine CollRun Resp RespSpec Server ServerKv ServerColl ServerConn ServerType ServerWire Cluster ServerEngine Snapshots.

Module ClusterWitness.
Import EngineWitness CollWitness WireWitness.

(** A codec: a command as one number. *)
#[export] Instance entry_eq : EqDecision BatchWriteEntry.
Proof. solve_decision. Defined.
#[export] Instance entry_countable : Countable BatchWriteEntry :=
  inj_countable' (fun b => (bw_key b, bw_value b, bw_deleted b, bw_expiresAt b)) (fun x => mkBatch x.1.1.1 x.1.1.2 x.1.2 x.2) ltac:(by intros []).
#[export] Instance command_eq : EqDecision raftCommand.
Proof. solve_decision. Defined.
#[export] Instance command_countable : Countable raftCommand :=
  inj_countable' (fun c => (rc_Op c, rc_Entries c, rc_Args c, rc_Version c)) (fun x => mkRaftCommand x.1.1.1 x.1.1.2 x.1.2 x.2) ltac:(by intros []).

#[export] Instance oneNumber : Msgpack := {
  Encode cmd := [Zpos (encode cmd)];
  Decode data := match data with [Zpos p] => match decode p with Some cmd => inl cmd | None => inr (str "codec") end | _ => inr (str "codec") end;
}.
#[export] Instance oneNumber_laws : MsgpackLaws.
Proof. split. intros cmd. cbn. by rewrite decode_encode. Qed.

Notation theStore := (engineStore cipher hash).
Notation theDB := (engineDB cipher hash).

(** A node that is its own cluster. *)
Definition alone : Node Engine := mkNode (fun w data => r ← @Apply Engine theStore theDB bitsText oneNumber w data; mret (inl r)) (str "a:1") (Some (str "a:1")) [] ∅.

Lemma alone_leads : @leads Engine theStore theDB bitsText oneNumber alone.
Proof. done. Qed.

Definition inCluster : Server Engine := @clustered Engine (engineAdmin cipher) oneNumber [] outside alone 0.
Definition byItself : Server Engine := standalone [] outside.

Definition ask (srv : Server Engine) (now : Z) (req : list bytes) (e : Engine) : option (bytes * Engine) :=
  match @handleRequest Engine theStore theDB bitsText srv (world now) req (mkConn e newClient []) with
  | Some (_, c) => Some (cn_out c, cn_db c)
  | None => None
  end.
Definition asked (srv : Server Engine) (now : Z) (req : list bytes) (e : Engine) : Engine := from_option snd e (ask srv now req e).
Definition answer (srv : Server Engine) (now : Z) (req : list bytes) (e : Engine) : option bytes := fst <$> ask srv now req e.

(** Records within the limits. *)
Definition record_okb (r : record) : bool :=
  ((rec_op r =? OpPut) || (rec_op r =? OpDelete)) && forallb (fun c => (0 <=? c) && (c <? 256)) (rec_key r) && forallb (fun c => (0 <=? c) && (c <? 256)) (rec_val r) &&
  (Z.of_nat (length (rec_key r)) <? 2 ^ 30) && (Z.of_nat (length (rec_val r)) <? 2 ^ 30) && (rec_exp r =? 0) && negb (isValuePointer (rec_val r)).

Lemma record_okb_spec r : record_okb r = true -> record_ok r.
Proof.
  unfold record_okb. rewrite !andb_true_iff, orb_true_iff, !Z.eqb_eq, !Z.ltb_lt, negb_true_iff, !forallb_forall.
  intros ((((((Ho & Hk) & Hv) & Lk) & Lv) & Hx) & Hp).
  assert (forall l, (forall c, In c l -> (0 <=? c) && (c <? 256) = true) -> wf_bytes l) as Hwf.
  { intros l Hl. apply Forall_forall. intros c Hc%list_elem_of_In. specialize (Hl c Hc). apply andb_true_iff in Hl as [?%Z.leb_le ?%Z.ltb_lt]. unfold is_u8. lia. }
  split; [done|]. split; [|unfold maxSnapshotFieldSize; lia]. split; [split; [auto|lia]|split; [auto|lia]|rewrite Hx; unfold is_i64; lia|done].
Qed.

Lemma engineRep_any reg E e M n t opens gc sp g : engineRep cipher reg E e M n t opens gc sp g -> engineRep cipher reg anyKey e M n t opens gc sp g.
Proof. intros []. split; try done. by right. Qed.

(** The records of the engine of the earlier examples. *)
Definition records : list record := from_option fst [] (collect cipher hash 9 a5).

Lemma collected rs : does (collect cipher hash 9) a5 (fun l _ => l = rs) -> records = rs.
Proof. unfold does, records. destruct (collect cipher hash 9 a5) as [[l e']|]; [intros <-; reflexivity|intros []]. Qed.

Lemma records_fine : Forall record_ok records.
Proof. apply Forall_forall. intros r Hr%list_elem_of_In. apply record_okb_spec. revert r Hr. apply forallb_forall. vm_compute. reflexivity. Qed.
End ClusterWitness.

(** A list on the leader. *)
Lemma leader_answers_alone_witness :
  ClusterWitness.ask ClusterWitness.inCluster 9 [str "RPUSH"; CollWitness.nm; CollWitness.fld] CollWitness.a5 =
  ClusterWitness.ask ClusterWitness.byItself 9 [str "RPUSH"; CollWitness.nm; CollWitness.fld] CollWitness.a5.
Proof.
  unfold ClusterWitness.ask, ClusterWitness.inCluster, ClusterWitness.byItself.
  rewrite (@leader_answers_alone Engine (engineStore EngineWitness.cipher CollWitness.hash) (engineDB EngineWitness.cipher CollWitness.hash) (engineAdmin EngineWitness.cipher)
    WireWitness.bitsText ClusterWitness.oneNumber ClusterWitness.oneNumber_laws [] WireWitness.outside ClusterWitness.alone 0 ClusterWitness.alone_leads
    (EngineWitness.world 9) [str "RPUSH"; CollWitness.nm; CollWitness.fld] (mkConn CollWitness.a5 newClient [])).
  - reflexivity.
  - repeat split.
  - intros a args [= <- <-] H. vm_compute in H. discriminate H.
Defined.

Module ClusterFlaws.
Import EngineWitness CollWitness WireWitness ClusterWitness.

Definition k : bytes := str "k".
Definition setEx : list bytes := [str "SET"; k; str "v"; str "EX"; str "100"].
Definition get : list bytes := [str "GET"; k].

(** A command of the log, applied by a node. *)
Definition applied (now : Z) (cmd : raftCommand) (e : Engine) : option (replResult * Engine) := @Apply Engine theStore theDB bitsText oneNumber (world now) (Encode cmd) e.
Definition after (now : Z) (cmd : raftCommand) (e : Engine) : Engine := from_option snd e (applied now cmd e).
Definition result (now : Z) (cmd : raftCommand) (e : Engine) : option replResult := fst <$> applied now cmd e.

Definition setexCmd : raftCommand := mkRaftCommand (str "SETEX") [] [k; str "10"; str "v"] 0.
Definition setCmd (v : string) : raftCommand := mkRaftCommand (str "SET") [] [k; str v] 0.
Definition commit (v : string) (version : Z) : raftCommand := mkRaftCommand (str "batch_apply") [mkBatch (strKey k) (str v) false 0] [] version.

(** Where a cluster departs from a single server, and its nodes from each
    other.  SET with an expiry time, sent to a cluster, stores the value
    without one.  SETEX is replicated with the number of seconds, so a node
    that applies the entry later keeps the key longer.  The writes of a
    transaction carry the version that the leader chose; a node whose own
    versions are ahead acknowledges them and still answers with what it had. *)
Theorem cluster_drifts :
  (answer byItself 200 get (asked byItself 9 setEx e0) = Some (encodeResp VNull) /\
   answer inCluster 200 get (asked inCluster 9 setEx e0) = Some (encodeResp (VBulk (str "v")))) /\
  (answer inCluster 30 get (after 9 setexCmd e0) = Some (encodeResp VNull) /\
   answer inCluster 30 get (after 25 setexCmd e0) = Some (encodeResp (VBulk (str "v")))) /\
  (let behind := after 9 (setCmd "old") e0 in let ahead := after 9 (setCmd "old") (after 9 (setCmd "older") (after 9 (setCmd "oldest") e0)) in
   result 10 (commit "new" 3) behind = Some RpNil /\ result 10 (commit "new" 3) ahead = Some RpNil /\
   answer inCluster 11 get (after 10 (commit "new" 3) behind) = Some (encodeResp (VBulk (str "new"))) /\
   answer inCluster 11 get (after 10 (commit "new" 3) ahead) = Some (encodeResp (VBulk (str "old")))).
Proof. vm_compute. repeat split. Qed.
End ClusterFlaws.

(** From an engine with a hash and a list, flushed and compacted, into a new
    one. *)
Lemma snapshot_transfers_witness : exists M data e1' r e2' n',
  Persist EngineWitness.cipher CollWitness.hash goodSink 9 CollWitness.a5 = Some (Some data, e1') /\
  @Restore Engine (engineStore EngineWitness.cipher CollWitness.hash) (engineAdmin EngineWitness.cipher) WireWitness.bitsText (EngineWitness.world 10) data EngineWitness.e0 = Some (r, e2') /\
  (r = None /\ engine_rep EngineWitness.cipher None anyKey e2' (liveMap 9 M) n' 5 \/ r = Some (@errText WireWitness.bitsText ErrDiskFull)).
Proof.
  pose proof (serving_kept EngineWitness.cipher CollWitness.hash EngineWitness.size EngineWitness.copts EngineWitness.oopts EngineWitness.oworld EngineWitness.cipher_wf I
    (conj (fun _ => EngineWitness.world_iv 5) (EngineWitness.world_iv 5)) _ _ _ _ CollWitness.compacted_serving) as (M & (opens & gc & sp & g & Hr) & _).
  assert (room (e_vl EngineWitness.e0) CollWitness.space) as Hroom by (apply roomb_spec; vm_compute; reflexivity).
  destruct (snapshot_transfers EngineWitness.cipher CollWitness.hash EngineWitness.cipher_wf None None I (HG := WireWitness.bitsText)
    CollWitness.a5 M (CollWitness.space - cmdCost CollWitness.hset - cmdCost CollWitness.push - 64 + credit M) 8 9 EngineWitness.e0 ∅ CollWitness.space 5 [] emptyLog g0 (EngineWitness.world 10)) as (rs & e1' & Hc & Hp & _ & Hrest).
  - exists opens, gc, sp, g. exact (ClusterWitness.engineRep_any _ _ _ _ _ _ _ _ _ _ Hr).
  - vm_compute. discriminate.
  - split.
    + apply (start_inv EngineWitness.cipher EngineWitness.cipher_wf EngineWitness.oopts EngineWitness.oworld I
        (conj (fun _ => EngineWitness.world_iv 5) (EngineWitness.world_iv 5)) EngineWitness.e0 5); [vm_compute; reflexivity|discriminate].
    + exact Hroom.
    + vm_compute. reflexivity.
    + intros k. reflexivity.
    + intros u Hu. inversion Hu.
  - reflexivity.
  - split; [vm_compute; discriminate|]. split; [vm_compute; discriminate|apply EngineWitness.world_iv].
  - apply ClusterWitness.collected in Hc. subst rs.
    destruct (does_inv _ _ _ (Hrest ClusterWitness.records_fine ltac:(vm_compute; reflexivity))) as (r & e2' & Hrun & Hend).
    destruct Hend as [[Hn [n' Hh]]|Hf].
    + exists M, (snapshotBytes ClusterWitness.records), e1', r, e2', n'. split; [exact Hp|]. split; [exact Hrun|]. left. split; [exact Hn|exact Hh].
    + exists M, (snapshotBytes ClusterWitness.records), e1', r, e2', 0. split; [exact Hp|]. split; [exact Hrun|]. right. exact Hf.
Defined.
