(* ===== verification/Replication.v ===== *)
(** * Replication ([server/replication.go])

    The ring of recent entries, the stream from a master to a replica, and both
    ends of it.  A call of [ReplicateEntry] and the goroutines of the connected
    replicas take turns at the locks: [Push], the choice of the connections, the
    delivery of an entry to one of them, the registration of a replica, the flag
    that puts writes aside and the end of a snapshot are single steps. *)
From Stdlib Require Import String.
From S2P Require Import Prelude Mvcc Strconv Wal Engine Scan Store Collections CollSpec Resp RespSpec Server ServerKv ServerColl ServerConn ServerType Cluster Snapshots.

Record replEntry := mkRepl { re_op : Z; re_key : bytes; re_val : bytes; re_expiresAt : Z; re_seq : Z }.
Definition zeroEntry : replEntry := mkRepl 0 [] [] 0 0.

(** ** The backlog *)

Record ReplBacklog := mkBacklog {
  rb_entries : list replEntry;
  rb_head : nat;
  rb_tail : nat;
  rb_count : nat;
  rb_capacity : nat;
  rb_nextSeq : Z;
}.

Definition NewReplBacklog (capacity : nat) : ReplBacklog := mkBacklog (replicate capacity zeroEntry) 0 0 0 capacity 0.

(** An index out of range, or a remainder by zero, is a panic: [None]. *)
Definition Push (rb : ReplBacklog) (e : replEntry) : option (Z * ReplBacklog) :=
  let nextSeq := u64 (rb_nextSeq rb + 1) in
  let e := mkRepl (re_op e) (re_key e) (re_val e) (re_expiresAt e) nextSeq in
  if (rb_tail rb <? length (rb_entries rb))%nat && negb (rb_capacity rb =? 0)%nat then
    let entries := <[rb_tail rb := e]> (rb_entries rb) in
    let tail := ((rb_tail rb + 1) mod rb_capacity rb)%nat in
    let '(head, count) :=
      if (rb_count rb <? rb_capacity rb)%nat then (rb_head rb, rb_count rb + 1)%nat else (((rb_head rb + 1) mod rb_capacity rb)%nat, rb_count rb) in
    Some (nextSeq, mkBacklog entries head tail count (rb_capacity rb) nextSeq)
  else None.

Definition CurrentSeq (rb : ReplBacklog) : Z := rb_nextSeq rb.

(** The loop of [Since] over [count] places from [i] on. *)
Fixpoint sinceLoop (rb : ReplBacklog) (lastSeq : Z) (i count : nat) : option (list replEntry) :=
  match count with
  | O => Some []
  | S count =>
      e ← rb_entries rb !! ((rb_head rb + i) mod rb_capacity rb)%nat;
      rest ← sinceLoop rb lastSeq (i + 1) count;
      Some (if lastSeq <? re_seq e then e :: rest else rest)
  end.

Definition Since (rb : ReplBacklog) (lastSeq : Z) : option (list replEntry * bool) :=
  if lastSeq =? 0 then Some ([], false)
  else if rb_nextSeq rb <? lastSeq then Some ([], false)
  else if (rb_count rb =? 0)%nat then Some ([], lastSeq =? rb_nextSeq rb)
  else
    let oldest := u64 (rb_nextSeq rb - Z.of_nat (rb_count rb) + 1) in
    if u64 (lastSeq + 1) <? oldest then Some ([], false)
    else out ← sinceLoop rb lastSeq 0 (rb_count rb); Some (out, true).

(** *** What the ring holds *)

(** Entries with the numbers they get. *)
Fixpoint numbered (from : Z) (l : list replEntry) : list replEntry :=
  match l with
  | [] => []
  | e :: l => mkRepl (re_op e) (re_key e) (re_val e) (re_expiresAt e) (from + 1) :: numbered (from + 1) l
  end.

Fixpoint pushAll (rb : ReplBacklog) (l : list replEntry) : option ReplBacklog :=
  match l with [] => Some rb | e :: l => r ← Push rb e; pushAll r.2 l end.

(** The ring after all of [l], numbered, has been pushed. *)
Record ring_of (cap : nat) (l : list replEntry) (rb : ReplBacklog) : Prop := {
  ro_cap : rb_capacity rb = cap;
  ro_length : length (rb_entries rb) = cap;
  ro_next : rb_nextSeq rb = Z.of_nat (length l);
  ro_count : rb_count rb = Nat.min (length l) cap;
  ro_tail : rb_tail rb = (length l mod cap)%nat;
  ro_head : rb_head rb = ((length l - rb_count rb) mod cap)%nat;
  ro_held : forall i e, l !! i = Some e -> (length l - rb_count rb <= i)%nat -> rb_entries rb !! (i mod cap)%nat = Some e;
}.

Lemma ring_new cap : ring_of cap [] (NewReplBacklog cap).
Proof. split; cbn; rewrite ?length_replicate; try done; by rewrite Nat.Div0.mod_0_l. Qed.

Lemma mod_apart a b cap : (a < b)%nat -> (b - a < cap)%nat -> (a mod cap <> b mod cap)%nat.
Proof.
  intros Hlt Hd E. pose proof (Nat.div_mod_eq a cap) as Ha. pose proof (Nat.div_mod_eq b cap) as Hb. rewrite E in Ha.
  assert (b - a = cap * (b / cap - a / cap))%nat as Hc by nia. destruct (decide (b / cap - a / cap = 0)%nat) as [Hz|Hz]; [rewrite Hz in Hc; lia|nia].
Qed.

Definition withSeq (e : replEntry) (seq : Z) : replEntry := mkRepl (re_op e) (re_key e) (re_val e) (re_expiresAt e) seq.

Lemma ring_push cap l rb e : (0 < cap)%nat -> ring_of cap l rb -> Z.of_nat (length l) + 1 < 2 ^ 64 ->
  exists rb', Push rb e = Some (Z.of_nat (length l) + 1, rb') /\ ring_of cap (l ++ [withSeq e (Z.of_nat (length l) + 1)]) rb'.
Proof.
  intros Hcap [Rc Rl Rn Rk Rt Rh Rd] Hlen. unfold Push. rewrite Rn, Rc, Rt, Rl. rewrite u64_id by (unfold is_u64; lia).
  rewrite (proj2 (Nat.ltb_lt _ _)) by (apply Nat.mod_upper_bound; lia). rewrite (proj2 (Nat.eqb_neq _ _)) by lia. cbn [andb negb].
  assert (((length l mod cap + 1) mod cap = (length l + 1) mod cap)%nat) as Et by apply Nat.Div0.add_mod_idemp_l. rewrite Et.
  set (e' := mkRepl _ _ _ _ _). change (withSeq e (Z.of_nat (length l) + 1)) with e'.
  set (hc := if (rb_count rb <? cap)%nat then _ else _).
  assert (hc = (((length l + 1 - Nat.min (length l + 1) cap) mod cap)%nat, Nat.min (length l + 1) cap)) as ->.
  { unfold hc. rewrite Rh, Rk. destruct (Nat.ltb_spec (Nat.min (length l) cap) cap) as [H|H]; f_equal; try lia.
    - replace (length l - _)%nat with 0%nat by lia. by replace (length l + 1 - _)%nat with 0%nat by lia.
    - rewrite Nat.Div0.add_mod_idemp_l. f_equal. lia. }
  eexists. split; [done|]. split; cbn [rb_capacity rb_entries rb_nextSeq rb_count rb_tail rb_head]; rewrite ?length_insert, ?length_app; cbn [length]; try done; [lia|].
  intros i x Hi Hw. destruct (decide (i = length l)) as [->|Hne].
  - rewrite list_lookup_insert_eq by (rewrite Rl; apply Nat.mod_upper_bound; lia). rewrite lookup_app_r, Nat.sub_diag in Hi by lia. by injection Hi as ->.
  - assert (i < length l)%nat as Hil by (apply lookup_lt_Some in Hi; rewrite length_app in Hi; cbn in Hi; lia). rewrite lookup_app_l in Hi by lia.
    rewrite list_lookup_insert_ne by (apply not_eq_sym, mod_apart; lia). apply Rd; [done|]. rewrite Rk. lia.
Qed.

Lemma numbered_lookup from l i : numbered from l !! i = (fun e => withSeq e (from + Z.of_nat i + 1)) <$> l !! i.
Proof.
  revert from i. induction l as [|e l IH]; intros from [|i]; cbn [numbered]; [done..| |]; [cbn; by rewrite Z.add_0_r|].
  cbn [lookup list_lookup]. rewrite IH. destruct (l !! i); [|done]. cbn. do 2 f_equal. lia.
Qed.

Lemma length_numbered from l : length (numbered from l) = length l.
Proof. revert from. induction l as [|e l IH]; intros from; [done|]. cbn [numbered length]. by rewrite IH. Qed.

Lemma numbered_app from a b : numbered from (a ++ b) = numbered from a ++ numbered (from + Z.of_nat (length a)) b.
Proof.
  revert from. induction a as [|e a IH]; intros from; cbn [app numbered length]; [by rewrite Z.add_0_r|]. rewrite IH. do 3 f_equal. lia.
Qed.

Lemma pushAll_ring cap l : forall l0 rb, (0 < cap)%nat -> ring_of cap l0 rb -> Z.of_nat (length l0 + length l) < 2 ^ 64 ->
  exists rb', pushAll rb l = Some rb' /\ ring_of cap (l0 ++ numbered (Z.of_nat (length l0)) l) rb'.
Proof.
  induction l as [|e l IH]; intros l0 rb Hcap Hr Hlen; cbn [pushAll numbered length] in *; [exists rb; by rewrite app_nil_r|].
  destruct (ring_push cap l0 rb e Hcap Hr ltac:(lia)) as (rb1 & -> & Hr1). cbn [mbind option_bind snd].
  destruct (IH _ rb1 Hcap Hr1) as (rb2 & E & Hr2); [rewrite length_app; cbn [length]; lia|]. exists rb2. split; [done|].
  rewrite length_app in Hr2. cbn [length] in Hr2. rewrite <- app_assoc in Hr2. cbn [app] in Hr2.
  replace (Z.of_nat (length l0 + 1)) with (Z.of_nat (length l0) + 1) in Hr2 by lia. exact Hr2.
Qed.

(** The numbers are the positions. *)
Definition in_order (l : list replEntry) : Prop := forall i e, l !! i = Some e -> re_seq e = Z.of_nat i + 1.

Lemma numbered_in_order l : in_order (numbered 0 l).
Proof. intros i e. rewrite numbered_lookup. destruct (l !! i); [|done]. intros [= <-]. cbn. lia. Qed.

Lemma sinceLoop_spec cap l rb lastSeq : (0 < cap)%nat -> ring_of cap l rb -> in_order l -> 0 <= lastSeq -> forall c i, (i + c = rb_count rb)%nat ->
  sinceLoop rb lastSeq i c = Some (drop (Nat.max (Z.to_nat lastSeq) (length l - rb_count rb + i)) l).
Proof.
  intros Hcap [Rc Rl Rn Rk Rt Rh Rd] Hord Hs. induction c as [|c IH]; intros i Hic; cbn [sinceLoop].
  { rewrite drop_ge; [done|]. lia. }
  set (j := (length l - rb_count rb + i)%nat).
  assert (j < length l)%nat as Hj by lia. destruct (lookup_lt_is_Some_2 l j Hj) as [e He].
  assert (((rb_head rb + i) mod rb_capacity rb = j mod cap)%nat) as -> by (rewrite Rc, Rh, Nat.Div0.add_mod_idemp_l; done).
  rewrite (Rd j e He) by lia. cbn [mbind option_bind]. rewrite (IH (i + 1)%nat) by lia. rewrite (Hord j e He). f_equal.
  replace (length l - rb_count rb + (i + 1))%nat with (Datatypes.S j) by lia. destruct (Z.ltb_spec lastSeq (Z.of_nat j + 1)).
  - rewrite !Nat.max_r by lia. by rewrite (drop_S l e j He).
  - by rewrite !Nat.max_l by lia.
Qed.

Lemma Since_ring cap l rb lastSeq : (0 < cap)%nat -> ring_of cap l rb -> in_order l -> Z.of_nat (length l) + 1 < 2 ^ 64 -> 0 <= lastSeq ->
  Since rb lastSeq = Some (if decide (0 < lastSeq <= Z.of_nat (length l) /\ (length l - Z.to_nat lastSeq <= cap)%nat)
                           then (drop (Z.to_nat lastSeq) l, true) else ([], false)).
Proof.
  intros Hcap Hr Hord Hlen Hs. pose proof (ro_next _ _ _ Hr) as Hn. pose proof (ro_count _ _ _ Hr) as Hk. unfold Since. rewrite Hn.
  destruct (Z.eqb_spec lastSeq 0) as [->|Hz]; [by rewrite decide_False by lia|].
  destruct (Z.ltb_spec (Z.of_nat (length l)) lastSeq); [by rewrite decide_False by lia|].
  rewrite (proj2 (Nat.eqb_neq _ _)) by lia. rewrite !u64_id by (unfold is_u64; lia).
  destruct (Z.ltb_spec (lastSeq + 1) (Z.of_nat (length l) - Z.of_nat (rb_count rb) + 1)); [by rewrite decide_False by lia|].
  rewrite decide_True by lia. rewrite (sinceLoop_spec cap _ rb lastSeq Hcap Hr Hord Hs) by lia. cbn [mbind option_bind]. do 3 f_equal. lia.
Qed.

(** C39. The backlog hands a replica exactly what it has missed.  After any
    entries have been pushed, [Since] of a number that was given out answers
    with all entries after it, in order and with their numbers, as long as the
    ring still holds them; otherwise, and for a number that is zero or was
    never given out, it asks for a full synchronisation.  No index leaves the
    ring. *)
Theorem Since_exact cap l lastSeq : (0 < cap)%nat -> Z.of_nat (length l) + 1 < 2 ^ 64 -> 0 <= lastSeq ->
  exists rb, pushAll (NewReplBacklog cap) l = Some rb /\ CurrentSeq rb = Z.of_nat (length l) /\
    Since rb lastSeq = Some (if decide (0 < lastSeq <= Z.of_nat (length l) /\ (length l - Z.to_nat lastSeq <= cap)%nat)
                             then (drop (Z.to_nat lastSeq) (numbered 0 l), true) else ([], false)).
Proof.
  intros Hcap Hlen Hs. destruct (pushAll_ring cap l [] (NewReplBacklog cap) Hcap (ring_new cap)) as (rb & E & Hr); [cbn; lia|].
  cbn [app length] in Hr. change (Z.of_nat 0) with 0 in Hr. exists rb. split; [done|]. pose proof (ro_next _ _ _ Hr) as Hn.
  pose proof (Since_ring cap _ rb lastSeq Hcap Hr (numbered_in_order l)) as H. rewrite length_numbered in Hn, H. split; [done|by apply H].
Qed.

(** Five entries through a ring of three. *)
Lemma Since_exact_witness : exists rb, pushAll (NewReplBacklog 3) (replicate 5 zeroEntry) = Some rb /\ CurrentSeq rb = 5 /\
  Since rb 3 = Some ([withSeq zeroEntry 4; withSeq zeroEntry 5], true).
Proof.
  destruct (Since_exact 3 (replicate 5 zeroEntry) 3) as (rb & H1 & H2 & H3); [repeat constructor|reflexivity|discriminate|].
  exists rb. split; [exact H1|]. split; [exact H2|]. rewrite H3. vm_compute. reflexivity.
Defined.

(** ** The stream *)

Definition opSnapshotStart : Z := 3.
Definition opSnapshotEnd : Z := 4.
Definition opResume : Z := 5.
Definition opSeqSync : Z := 6.
Definition maxReplFieldSize : Z := 64 * 1024 * 1024.

Definition writeReplicaEntry (op : Z) (key val : bytes) (expiresAt : Z) : bytes :=
  let hdr := [op] ++ be_encode 4 (u32 (Z.of_nat (length key))) ++ be_encode 4 (u32 (Z.of_nat (length val))) in
  let expBuf := be_encode 8 (u64 expiresAt) in
  hdr ++ expBuf ++ key ++ (if (0 <? length val)%nat then val else []).

Definition writeSeqMarker (seq : Z) : bytes := [opSeqSync] ++ be_encode 8 (u64 seq).

(** ** The master *)

(** A connected replica.  [rc_out] is what has been written to it. *)
Record replicaConn := mkReplica {
  rc_running : bool;
  rc_snapshotActive : bool;
  rc_pending : list replEntry;
  rc_sendCh : list replEntry;
  rc_out : bytes;
}.

Definition replPendingLimit : nat := Z.to_nat 10000.
Definition sendLimit : nat := Z.to_nat 1024.

Definition newReplica : replicaConn := mkReplica true false [] [] [].
Definition rc_write (rc : replicaConn) (b : bytes) : replicaConn :=
  mkReplica (rc_running rc) (rc_snapshotActive rc) (rc_pending rc) (rc_sendCh rc) (rc_out rc ++ b).

(** The backlog and the connected replicas by address. *)
Record Master := mkMaster { ms_backlog : ReplBacklog; ms_replicas : gmap bytes replicaConn }.

(** One target of [ReplicateEntry]; a replica that is too slow is dropped. *)
Definition deliver (entry : replEntry) (rc : replicaConn) : option replicaConn :=
  if negb (rc_running rc) then Some rc
  else if rc_snapshotActive rc then
    if (length (rc_pending rc) <? replPendingLimit)%nat
    then Some (mkReplica (rc_running rc) (rc_snapshotActive rc) (rc_pending rc ++ [entry]) (rc_sendCh rc) (rc_out rc)) else None
  else if (length (rc_sendCh rc) <? sendLimit)%nat
  then Some (mkReplica (rc_running rc) (rc_snapshotActive rc) (rc_pending rc) (rc_sendCh rc ++ [entry]) (rc_out rc)) else None.

(** The parts of [ReplicateEntry]: the number, *)
Definition pushEntry (m : Master) (op : Z) (key val : bytes) (expiresAt : Z) : option (replEntry * Master) :=
  r ← Push (ms_backlog m) (mkRepl op key val expiresAt 0);
  Some (mkRepl op key val expiresAt r.1, mkMaster r.2 (ms_replicas m)).

(** the connections that are there now, *)
Definition targets (m : Master) : gset bytes := dom (filter (fun p => rc_running p.2 = true) (ms_replicas m)).

(** and one of them at a time. *)
Definition deliverTo (entry : replEntry) (addr : bytes) (m : Master) : Master :=
  mkMaster (ms_backlog m) (partial_alter (fun o => o ≫= deliver entry) addr (ms_replicas m)).

(** A call that nothing comes between. *)
Definition ReplicateEntry (m : Master) (op : Z) (key val : bytes) (expiresAt : Z) : option Master :=
  r ← pushEntry m op key val expiresAt;
  Some (foldr (deliverTo r.1) r.2 (elements (targets r.2))).

Definition sendEntry (e : replEntry) : bytes := writeReplicaEntry (re_op e) (re_key e) (re_val e) (re_expiresAt e).
Definition writeEntries (es : list replEntry) : bytes := concat (sendEntry <$> es).

(** [marker] after a loop over entries. *)
Definition lastMarker (marker : Z) (es : list replEntry) : Z := foldl (fun _ e => re_seq e) marker es.

(** The steps of [handleReplicaSync]: registration, *)
Definition register (m : Master) (addr : bytes) : Master := mkMaster (ms_backlog m) (<[addr := newReplica]> (ms_replicas m)).

(** the incremental synchronisation if the backlog still has the entries, *)
Definition resumeWrite (lastSeq : Z) (es : list replEntry) (rc : replicaConn) : replicaConn :=
  rc_write rc ([opResume] ++ writeEntries es ++ writeSeqMarker (lastMarker lastSeq es)).

(** or else the flag, *)
Definition setActive (rc : replicaConn) : replicaConn := mkReplica (rc_running rc) true (rc_pending rc) (rc_sendCh rc) (rc_out rc).

(** the snapshot, with each record of [StreamSnapshot], *)
Definition sendRecord (rc : replicaConn) (r : record) : replicaConn := rc_write rc (writeReplicaEntry (rec_op r) (rec_key r) (rec_val r) (rec_exp r)).
Definition sendSnapshot (rs : list record) (rc : replicaConn) : replicaConn :=
  rc_write (foldl sendRecord (rc_write rc [opSnapshotStart]) rs) [opSnapshotEnd].

(** and what came in meanwhile. *)
Definition endSnapshot (startSeq : Z) (rc : replicaConn) : replicaConn :=
  rc_write (mkReplica (rc_running rc) false [] (rc_sendCh rc) (rc_out rc)) (writeEntries (rc_pending rc) ++ writeSeqMarker (lastMarker startSeq (rc_pending rc))).

(** One round of the sending goroutine: an entry and a burst of at most 256
    more, [n] of which are there when it looks. *)
Definition drain (n : nat) (rc : replicaConn) : replicaConn :=
  match rc_sendCh rc with
  | [] => rc
  | entry :: rest =>
      if negb (rc_running rc) then mkReplica false (rc_snapshotActive rc) (rc_pending rc) rest (rc_out rc)
      else
        let burst := take (Nat.min n 256) rest in
        let burstLast := lastMarker 0 burst in
        let lastWritten := if re_seq entry <? burstLast then burstLast else re_seq entry in
        rc_write (mkReplica true (rc_snapshotActive rc) (rc_pending rc) (drop (length burst) rest) (rc_out rc))
          (writeEntries (entry :: burst) ++ writeSeqMarker lastWritten)
  end.

Definition onReplica (f : replicaConn -> replicaConn) (addr : bytes) (m : Master) : Master := mkMaster (ms_backlog m) (alter f addr (ms_replicas m)).

(** *** One replica and one announcer *)

(** Where [handleReplicaSync] is: at its start, registered, with the flag set,
    with the number read, with the snapshot sent, and in the last loop, after a
    snapshot or an incremental synchronisation. *)
Inductive phase := PStart | PRegistered | PFlagged | PNumbered (startSeq : Z) | PSent (startSeq : Z) | PLive | PResumed.

(** The entries that are to be announced, one call of [ReplicateEntry] after the
    other; the call that is under way, with the connections it has not come to
    yet once it has chosen them; the replica's goroutine; what was in the
    replica's channel when the flag was set, and the number when its snapshot
    was taken. *)
Record syncState := mkSync {
  sy_master : Master;
  sy_todo : list replEntry;
  sy_call : option (replEntry * option (gset bytes));
  sy_phase : phase;
  sy_early : list replEntry;
  sy_seen : Z;
}.
Definition with_master (st : syncState) (m : Master) : syncState := mkSync m (sy_todo st) (sy_call st) (sy_phase st) (sy_early st) (sy_seen st).
Definition with_phase (st : syncState) (m : Master) (p : phase) : syncState := mkSync m (sy_todo st) (sy_call st) p (sy_early st) (sy_seen st).

Inductive syncEvent :=
  | VCall
  | VDeliver (addr : bytes)
  | VSync
  | VDrain (n : nat)
  | VLost.

Section sync.
(** The replica's address and the number it sends; its snapshot. *)
Context (addr : bytes) (lastSeq : Z) (rs : list record).

(** The next step of the call, but for deliveries. *)
Definition callNext (st : syncState) : option syncState :=
  let m := sy_master st in
  match sy_call st with
  | None =>
      match sy_todo st with
      | [] => Some st
      | e :: todo => r ← pushEntry m (re_op e) (re_key e) (re_val e) (re_expiresAt e); Some (mkSync r.2 todo (Some (r.1, None)) (sy_phase st) (sy_early st) (sy_seen st))
      end
  | Some (e, None) => Some (mkSync m (sy_todo st) (Some (e, Some (targets m))) (sy_phase st) (sy_early st) (sy_seen st))
  | Some (e, Some rest) => Some (if decide (rest = ∅) then mkSync m (sy_todo st) None (sy_phase st) (sy_early st) (sy_seen st) else st)
  end.

Definition callDeliver (a : bytes) (st : syncState) : syncState :=
  match sy_call st with
  | Some (e, Some rest) =>
      if decide (a ∈ rest) then mkSync (deliverTo e a (sy_master st)) (sy_todo st) (Some (e, Some (rest ∖ {[a]}))) (sy_phase st) (sy_early st) (sy_seen st) else st
  | _ => st
  end.

(** The next step of [handleReplicaSync]. *)
Definition syncNext (st : syncState) : option syncState :=
  let m := sy_master st in
  match sy_phase st with
  | PStart => Some (with_phase st (register m addr) PRegistered)
  | PRegistered =>
      r ← Since (ms_backlog m) lastSeq;
      Some (if r.2 : bool then with_phase st (onReplica (resumeWrite lastSeq r.1) addr m) PResumed
            else mkSync (onReplica setActive addr m) (sy_todo st) (sy_call st) PFlagged (from_option rc_sendCh [] (ms_replicas m !! addr)) (sy_seen st))
  | PFlagged => Some (with_phase st m (PNumbered (CurrentSeq (ms_backlog m))))
  | PNumbered q => Some (mkSync (onReplica (sendSnapshot rs) addr m) (sy_todo st) (sy_call st) (PSent q) (sy_early st) (CurrentSeq (ms_backlog m)))
  | PSent q => Some (with_phase st (onReplica (endSnapshot q) addr m) PLive)
  | PLive | PResumed => Some st
  end.

Definition syncStep (st : syncState) (ev : syncEvent) : option syncState :=
  match ev with
  | VCall => callNext st
  | VDeliver a => Some (callDeliver a st)
  | VSync => syncNext st
  | VDrain n => Some (match sy_phase st with PLive | PResumed => with_master st (onReplica (drain n) addr (sy_master st)) | _ => st end)
  | VLost => Some (match sy_phase st with PStart => st | _ => with_master st (mkMaster (ms_backlog (sy_master st)) (delete addr (ms_replicas (sy_master st)))) end)
  end.

Fixpoint syncRun (st : syncState) (evs : list syncEvent) : option syncState :=
  match evs with [] => Some st | ev :: evs => st ← syncStep st ev; syncRun st evs end.
End sync.

(** ** The replica *)

Section replica.
Context {S : Type} {HS : Store S} {HD : DB S} {HA : Admin S}.

(** The greeting: the password if there is one, and [PSYNC]. *)
Definition greeting (password : bytes) (lastSeq : Z) : bytes :=
  (if bool_decide (password = []) then [] else str "*2" ++ crlf ++ str "$4" ++ crlf ++ str "AUTH" ++ crlf ++ str "$" ++ FormatInt (Z.of_nat (length password)) ++ crlf ++ password ++ crlf) ++
  let seqStr := FormatUint lastSeq in
  str "*2" ++ crlf ++ str "$5" ++ crlf ++ str "PSYNC" ++ crlf ++ str "$" ++ FormatInt (Z.of_nat (length seqStr)) ++ crlf ++ seqStr ++ crlf.

(** An entry of the stream; its errors are only logged. *)
Definition replApply (w : World) (op : Z) (key val : bytes) (expiresAt : Z) : st S unit :=
  if op =? 1 then
    if 0 <? expiresAt then
      let remaining := i64 (expiresAt - wd_now w) in
      if remaining <=? 0 then mret tt else _ ← db_PutEx w key val remaining; mret tt
    else _ ← db_Put w key val; mret tt
  else if op =? 2 then _ ← db_Delete w key; mret tt
  else mret tt.

(** One round of the reading loop, with [lastSeq] beside the database: the
    bytes that are left, or nothing when the session ends. *)
Definition replicaStep (w : World) (r : bytes) : st (S * Z) (option bytes) :=
  match ReadFull 1 r with
  | inr _ => mret None
  | inl (b, r) =>
      let op := default 0 (b !! 0%nat) in
      if op =? 0 then mret (Some r)
      else if op =? opSnapshotStart then _ ← onNode (db_Clear w); _ ← putVersion 0; mret (Some r)
      else if op =? opSnapshotEnd then mret (Some r)
      else if op =? opResume then mret (Some r)
      else if op =? opSeqSync then
        match ReadFull 8 r with
        | inr _ => mret None
        | inl (seqBuf, r) => _ ← putVersion (be_decode seqBuf); mret (Some r)
        end
      else
        match ReadFull 8 r with
        | inr _ => mret None
        | inl (hdr, r) =>
            let keyLen := be_decode (slice hdr 0 4) in
            let valLen := be_decode (slice hdr 4 8) in
            if (maxReplFieldSize <? keyLen) || (maxReplFieldSize <? valLen) then mret None
            else
              match ReadFull 8 r with
              | inr _ => mret None
              | inl (expBuf, r) =>
                  match ReadFull (Z.to_nat keyLen) r with
                  | inr _ => mret None
                  | inl (key, r) =>
                      match (if 0 <? valLen then ReadFull (Z.to_nat valLen) r else inl ([], r)) with
                      | inr _ => mret None
                      | inl (val, r) => _ ← onNode (replApply w op key val (i64 (be_decode expBuf))); mret (Some r)
                      end
                  end
              end
        end
  end.

(** Rounds, a world for each, until the session ends. *)
Fixpoint replicaSession (worlds : list World) (r : bytes) : st (S * Z) (option bytes) :=
  match worlds with
  | [] => mret (Some r)
  | w :: worlds => o ← replicaStep w r; match o with Some r => replicaSession worlds r | None => mret None end
  end.
End replica.
