(* ===== verification/ReplicaSync.v ===== *)
(** * A replica follows its master

    What the stream of [Replication] says, that a replica that reads it holds
    what its master holds, and when it does not. *)
From Stdlib Require Import String.
From S2P Require Import Prelude Mvcc Oracle SkipList Strconv Wal Vlog Values VlogSpec Compaction Registry Engine Open EngineInv EngineSteps EngineSystem Scan Store Collections CollWhole CollSpec CollEngine Resp RespSpec Server ServerKv ServerColl ServerConn ServerType Cluster ServerEngine Snapshots Replication.

(** ** Databases that read alike *)

(** From a time on, under every key but the empty one. *)
Definition agree (now : Z) (M M' : kvmap) : Prop := forall k now', k <> [] -> now <= now' -> kv_get now' M k = kv_get now' M' k.

#[export] Instance agree_equiv now : Equivalence (agree now).
Proof. split; [by intros M k|intros M M' H k now' Hk Hn; by rewrite H|intros M1 M2 M3 H1 H2 k now' Hk Hn; by rewrite H1, H2]. Qed.

Lemma agree_later now now' M M' : now <= now' -> agree now M M' -> agree now' M M'.
Proof. intros Hn H k t Hk Ht. apply H; [done|lia]. Qed.

#[export] Instance kv_write_agree now : Proper (agree now ==> eq ==> agree now) kv_write.
Proof.
  intros M M' H b ? <- k now' Hk Hn. specialize (H k now' Hk Hn). unfold kv_get, kv_write in *. destruct (bw_deleted b).
  - destruct (decide (bw_key b = k)) as [->|]; [by rewrite !lookup_delete_eq|by rewrite !lookup_delete_ne].
  - destruct (decide (bw_key b = k)) as [->|]; [by rewrite !lookup_insert_eq|by rewrite !lookup_insert_ne].
Qed.

#[export] Instance kv_writes_agree now : Proper (agree now ==> eq ==> agree now) kv_writes.
Proof. intros M M' H es ? <-. revert M M' H. induction es as [|b es IH]; intros M M' H; [done|]. cbn. apply IH. by rewrite H. Qed.

Lemma agree_live now M : agree now (liveMap now M) M.
Proof.
  intros k now' Hk Hn. unfold kv_get, liveMap. destruct (M !! k) as [[v x]|] eqn:E.
  - destruct (alive now x) eqn:Ea.
    + by rewrite (map_lookup_filter_Some_2 _ M k (v, x)).
    + rewrite map_lookup_filter_None_2; [|right; intros [v' x'] E' [Ha _]; rewrite E in E'; injection E' as <- <-; cbn in Ha; congruence].
      unfold alive in *. apply negb_false_iff, andb_true_iff in Ea as [?%Z.ltb_lt ?%Z.leb_le].
      by rewrite (proj2 (Z.ltb_lt _ _)), (proj2 (Z.leb_le _ _)) by lia.
  - by rewrite map_lookup_filter_None_2 by (by left).
Qed.

(** The last write of a key decides. *)
Fixpoint lastWrite (k : bytes) (es : list BatchWriteEntry) : option BatchWriteEntry :=
  match es with
  | [] => None
  | b :: es => match lastWrite k es with Some b' => Some b' | None => if bool_decide (bw_key b = k) then Some b else None end
  end.

Lemma kv_writes_last M es k : kv_writes M es !! k =
  match lastWrite k es with Some b => if bw_deleted b then None else Some (bw_value b, bw_expiresAt b) | None => M !! k end.
Proof.
  revert M. induction es as [|b es IH]; intros M; [done|]. cbn [lastWrite]. change (kv_writes M (b :: es)) with (kv_writes (kv_write M b) es). rewrite IH.
  destruct (lastWrite k es); [done|]. unfold kv_write. case_bool_decide as Hk.
  - subst k. destruct (bw_deleted b); [by rewrite lookup_delete_eq|by rewrite lookup_insert_eq].
  - destruct (bw_deleted b); [by rewrite lookup_delete_ne|by rewrite lookup_insert_ne].
Qed.

Lemma lastWrite_app k a b : lastWrite k (a ++ b) = match lastWrite k b with Some x => Some x | None => lastWrite k a end.
Proof. induction a as [|x a IH]; cbn [app lastWrite]; [by destruct (lastWrite k b)|]. rewrite IH. by destruct (lastWrite k b). Qed.

(** Writes that have been seen in part may be seen again from the start. *)
Lemma catch_up M a b : kv_writes (kv_writes M a) (a ++ b) = kv_writes M (a ++ b).
Proof.
  apply map_eq. intros k. rewrite !kv_writes_last, lastWrite_app. destruct (lastWrite k b); [done|]. by destruct (lastWrite k a).
Qed.

(** ** What the stream says *)

Inductive item := IStart | IEnd | IResume | ISeq (seq : Z) | IEntry (e : replEntry).

Definition encodeItem (it : item) : bytes :=
  match it with
  | IStart => [opSnapshotStart]
  | IEnd => [opSnapshotEnd]
  | IResume => [opResume]
  | ISeq seq => writeSeqMarker seq
  | IEntry e => sendEntry e
  end.
Definition encodeItems (its : list item) : bytes := concat (encodeItem <$> its).

(** The entries, as writes, and the last number. *)
Definition batchOf (e : replEntry) : BatchWriteEntry := mkBatch (re_key e) (re_val e) (re_op e =? 2) (re_expiresAt e).
Definition entriesOf (its : list item) : list replEntry := omap (fun it => match it with IEntry e => Some e | _ => None end) its.
Definition lastSeqOf (q : Z) (its : list item) : Z := foldl (fun q it => match it with ISeq n => n | _ => q end) q its.

Lemma encodeItems_app a b : encodeItems (a ++ b) = encodeItems a ++ encodeItems b.
Proof. unfold encodeItems. by rewrite fmap_app, concat_app. Qed.

Lemma encodeItems_entries es : encodeItems (IEntry <$> es) = writeEntries es.
Proof. unfold encodeItems, writeEntries. by rewrite <- list_fmap_compose. Qed.

Lemma entriesOf_app a b : entriesOf (a ++ b) = entriesOf a ++ entriesOf b.
Proof. apply omap_app. Qed.

Lemma entriesOf_entries es : entriesOf (IEntry <$> es) = es.
Proof. induction es as [|e es IH]; [done|]. cbn. unfold entriesOf in IH. by rewrite IH. Qed.

Lemma lastSeqOf_app q a b : lastSeqOf q (a ++ b) = lastSeqOf (lastSeqOf q a) b.
Proof. apply foldl_app. Qed.

Lemma lastSeqOf_entries q es : lastSeqOf q (IEntry <$> es) = q.
Proof. induction es; done. Qed.

(** ** The replica *)

(** What the replica needs of its database beyond [StoreLaws]: with space on
    the disk no write is refused, and a deletion leaves nothing to be read. *)
Class ReplicaLaws (S : Type) {HS : Store S} {HD : DB S} (E : bytes -> Prop) {HL : StoreLaws S E} := {
  spacious : S -> Prop;
  Put_spacious : forall s M n t w k v x skip, rep s M n t -> spacious s -> world_ok t w -> kv_ok k v x -> writeCost [mkBatch k v false x] <= n ->
    does (db_PutExAt w k v x skip) s (fun r s' => r = None /\ rep s' (<[k := (v, x)]> M) (n - writeCost [mkBatch k v false x]) t /\ spacious s');
  Delete_spacious : forall s M n t w k, rep s M n t -> spacious s -> world_ok t w -> kv_ok k [] 0 -> writeCost [mkBatch k [] true 0] <= n ->
    does (db_Delete w k) s (fun _ s' => spacious s' /\ exists M', rep s' M' (n - writeCost [mkBatch k [] true 0]) t /\ agree (wd_now w) M' (delete k M));
}.

Section replica.
Context {S : Type} {HS : Store S} {HD : DB S} {HA : Admin S} (E : bytes -> Prop) {HL : StoreLaws S E} {HR : ReplicaLaws S E}.

(** An entry the replica can store, not yet expired when it comes. *)
Record entry_fine (now : Z) (e : replEntry) : Prop := {
  ef_op : re_op e = 1 \/ (re_op e = 2 /\ re_val e = [] /\ re_expiresAt e = 0);
  ef_kv : kv_ok (re_key e) (re_val e) (re_expiresAt e);
  ef_key : Z.of_nat (length (re_key e)) <= maxReplFieldSize;
  ef_val : Z.of_nat (length (re_val e)) <= maxReplFieldSize;
  ef_live : alive now (re_expiresAt e) = true;
}.

Definition item_fine (now : Z) (it : item) : Prop :=
  match it with IStart => False | ISeq q => is_u64 q | IEntry e => entry_fine now e | _ => True end.

Definition entryCost (e : replEntry) : Z := writeCost [mkBatch (re_key e) (re_val e) false 0].
Definition itemCost (it : item) : Z := match it with IEntry e => entryCost e | _ => 0 end.

Lemma writeCost_entry e d x : writeCost [mkBatch (re_key e) (re_val e) d x] = entryCost e.
Proof. done. Qed.

Lemma agree_put now M k v x : x <= 0 -> agree now (<[k := (v, 0)]> M) (<[k := (v, x)]> M).
Proof.
  intros Hx k' now' _ _. unfold kv_get. destruct (decide (k = k')) as [->|]; [|by rewrite !lookup_insert_ne]. rewrite !lookup_insert_eq.
  unfold alive. by rewrite (proj2 (Z.ltb_ge 0 x)) by lia.
Qed.

Lemma applyEntry_does s M n t w e : rep s M n t -> spacious s -> world_ok t w -> entry_fine (wd_now w) e -> entryCost e <= n ->
  does (replApply w (re_op e) (re_key e) (re_val e) (re_expiresAt e)) s (fun _ s' => spacious s' /\
    exists M', rep s' M' (n - entryCost e) t /\ agree (wd_now w) M' (kv_write M (batchOf e))).
Proof.
  intros Hr Hs Hw [Hop Hkv Hk Hv Hl] Hn. unfold replApply, kv_write, batchOf. cbn [bw_key bw_value bw_deleted bw_expiresAt].
  destruct Hop as [->|(-> & Ev & Ex)]; cbn [Z.eqb Pos.eqb].
  - destruct (Z.ltb_spec 0 (re_expiresAt e)) as [Hx|Hx].
    + assert (wd_now w < re_expiresAt e) as Hlt.
      { unfold alive in Hl. rewrite (proj2 (Z.ltb_lt _ _)) in Hl by done. cbn in Hl. apply negb_true_iff, Z.leb_gt in Hl. done. }
      pose proof (kv_exp _ _ _ Hkv) as Hi. destruct Hw as (Hw1 & Hw2 & Hw3). unfold is_i64 in Hi.
      rewrite i64_id by (unfold is_i64; lia). rewrite (proj2 (Z.leb_gt _ _)) by lia. unfold db_PutEx. rewrite (proj2 (Z.ltb_lt _ _)) by lia.
      rewrite i64_id by (unfold is_i64; lia). replace (wd_now w + (re_expiresAt e - wd_now w)) with (re_expiresAt e) by lia.
      eapply does_step; [by apply (Put_spacious s M n t w)|]. intros r s' (_ & Hr' & Hs'). apply does_ret. split; [done|]. eexists. split; [exact Hr'|done].
    + assert (kv_ok (re_key e) (re_val e) 0) as Hkv0 by (destruct Hkv; split; try done; unfold is_i64; lia).
      eapply does_step; [by apply (Put_spacious s M n t w (re_key e) (re_val e) 0 false)|]. intros r s' (_ & Hr' & Hs'). apply does_ret.
      split; [done|]. eexists. split; [exact Hr'|]. by apply agree_put.
  - rewrite Ev, Ex in Hkv. assert (writeCost [mkBatch (re_key e) [] true 0] = entryCost e) as Ec by (unfold entryCost; by rewrite Ev).
    eapply does_step; [apply (Delete_spacious s M n t w (re_key e)); try done; by rewrite Ec|].
    intros r s' (Hs' & M' & Hr' & Ha). apply does_ret. split; [done|]. exists M'. by rewrite <- Ec.
Qed.

Lemma entry_header e now : entry_fine now e -> let hdr := be_encode 4 (u32 (Z.of_nat (length (re_key e)))) ++ be_encode 4 (u32 (Z.of_nat (length (re_val e)))) in
  length hdr = 8%nat /\ be_decode (slice hdr 0 4) = Z.of_nat (length (re_key e)) /\ be_decode (slice hdr 4 8) = Z.of_nat (length (re_val e)).
Proof.
  intros [_ _ Hk Hv _] hdr. unfold hdr, maxReplFieldSize in *. rewrite length_app, !length_be_encode. split; [done|].
  rewrite slice_app_take, slice_all by (rewrite ?length_be_encode; lia). rewrite slice_app_drop, length_be_encode, slice_all by (rewrite ?length_be_encode; lia).
  rewrite !u32_id by (unfold is_u32; lia). by rewrite !be_decode_encode_id by lia.
Qed.

Lemma onNode_step {A B} (m : st S A) (k : A -> st (S * Z) B) s q P (Q : B -> S * Z -> Prop) :
  does m s P -> (forall a s', P a s' -> does (k a) (s', q) Q) -> does (onNode m ≫= k) (s, q) Q.
Proof. intros Hm Hk. unfold does, mbind, st_bind, onNode in *. cbn [fst snd]. destruct (m s) as [[a s']|]; [|done]. by apply Hk. Qed.

(** One round on one entry. *)
Lemma step_entry w e rest s M n t q : rep s M n t -> spacious s -> world_ok t w -> entry_fine (wd_now w) e -> entryCost e <= n ->
  does (replicaStep w (sendEntry e ++ rest)) (s, q) (fun o sq => o = Some rest /\ sq.2 = q /\ spacious sq.1 /\
    exists M', rep sq.1 M' (n - entryCost e) t /\ agree (wd_now w) M' (kv_write M (batchOf e))).
Proof.
  intros Hr Hs Hw He Hn. destruct (entry_header e _ He) as (Lh & E1 & E2). unfold sendEntry, writeReplicaEntry. rewrite <- !app_assoc.
  unfold replicaStep. rewrite ReadFull_app by done. cbn [lookup list_lookup from_option id].
  assert (re_op e = 1 \/ re_op e = 2) as Hop by (destruct (ef_op _ _ He) as [|[? _]]; auto).
  rewrite !(proj2 (Z.eqb_neq (re_op e) _)) by (unfold opSnapshotStart, opSnapshotEnd, opResume, opSeqSync; lia).
  rewrite (app_assoc (be_encode 4 _) (be_encode 4 _)), ReadFull_app by done. rewrite E1, E2. pose proof (ef_key _ _ He). pose proof (ef_val _ _ He).
  rewrite !(proj2 (Z.ltb_ge maxReplFieldSize _)) by lia. cbn [orb]. rewrite ReadFull_app by apply length_be_encode. rewrite ReadFull_app by lia.
  assert ((if 0 <? Z.of_nat (length (re_val e)) then ReadFull (Z.to_nat (Z.of_nat (length (re_val e)))) ((if (0 <? length (re_val e))%nat then re_val e else []) ++ rest)
    else inl ([], (if (0 <? length (re_val e))%nat then re_val e else []) ++ rest)) = inl (re_val e, rest)) as ->.
  { destruct (re_val e) as [|c v]; [done|]. rewrite (proj2 (Z.ltb_lt _ _)) by (cbn; lia). rewrite (proj2 (Nat.ltb_lt _ _)) by (cbn; lia). apply ReadFull_app. lia. }
  rewrite be_decode_encode_id by apply u64_range. rewrite i64_u64 by apply (kv_exp _ _ _ (ef_kv _ _ He)).
  eapply onNode_step; [by apply (applyEntry_does s M n t w e)|]. intros [] s' H'. by apply does_ret.
Qed.

(** One round on any item but the start of a snapshot. *)
Lemma step_item w it rest s M n t q : rep s M n t -> spacious s -> world_ok t w -> item_fine (wd_now w) it -> itemCost it <= n ->
  does (replicaStep w (encodeItem it ++ rest)) (s, q) (fun o sq => o = Some rest /\ sq.2 = lastSeqOf q [it] /\ spacious sq.1 /\
    exists M', rep sq.1 M' (n - itemCost it) t /\ agree (wd_now w) M' (kv_writes M (batchOf <$> entriesOf [it]))).
Proof.
  intros Hr Hs Hw Hi Hn. destruct it as [| | |seq|e]; cbn [item_fine itemCost encodeItem] in *; [done| | | |by apply (step_entry w e rest s M n t q)].
  - split; [done|]. split; [done|]. split; [done|]. exists M. by rewrite Z.sub_0_r.
  - split; [done|]. split; [done|]. split; [done|]. exists M. by rewrite Z.sub_0_r.
  - unfold writeSeqMarker. rewrite <- app_assoc. unfold replicaStep. rewrite ReadFull_app by done. cbn [lookup list_lookup from_option id].
    change (opSeqSync =? 0) with false. change (opSeqSync =? opSnapshotStart) with false. change (opSeqSync =? opSnapshotEnd) with false.
    change (opSeqSync =? opResume) with false. change (opSeqSync =? opSeqSync) with true. cbv iota. rewrite ReadFull_app by apply length_be_encode.
    rewrite be_decode_encode_id by apply u64_range. rewrite u64_id by done.
    split; [done|]. split; [done|]. split; [done|]. exists M. by rewrite Z.sub_0_r.
Qed.

Definition streamCost (its : list item) : Z := foldr Z.add 0 (itemCost <$> its).

Lemma streamCost_nonneg its : 0 <= streamCost its.
Proof.
  unfold streamCost. induction its as [|[| | | |e] its IH]; cbn [fmap list_fmap foldr itemCost] in *; try lia.
  unfold entryCost, writeCost. pose proof (batchCost_nonneg [mkBatch (re_key e) (re_val e) false 0]). lia.
Qed.

(** Whole streams, with a clock for each item. *)
Lemma session_items its now : forall ws s M n t q, rep s M n t -> spacious s -> Forall (fun w => world_ok t w /\ wd_now w <= now) ws ->
  Forall2 (fun w it => item_fine (wd_now w) it) ws its -> streamCost its <= n ->
  does (replicaSession ws (encodeItems its)) (s, q) (fun o sq => o = Some [] /\ sq.2 = lastSeqOf q its /\ spacious sq.1 /\
    exists M' n', rep sq.1 M' n' t /\ agree now M' (kv_writes M (batchOf <$> entriesOf its))).
Proof.
  induction its as [|it its IH]; intros ws s M n t q Hr Hs Hw Hf Hn; (destruct ws as [|w ws]; try by inversion Hf).
  { apply does_ret. split; [done|]. split; [done|]. split; [done|]. by exists M, n. }
  apply Forall_cons in Hw as [[Hw Hnow] Hws]. apply Forall2_cons in Hf as [Hi Hf]. pose proof (streamCost_nonneg its) as Hpos.
  change (streamCost (it :: its)) with (itemCost it + streamCost its) in Hn. cbn [replicaSession]. change (encodeItems (it :: its)) with (encodeItem it ++ encodeItems its).
  eapply does_step; [apply (step_item w it (encodeItems its) s M n t q); try done; lia|].
  intros o [s1 q1] (-> & E1 & Hs1 & M1 & Hr1 & Ha1). cbn [fst snd] in *.
  eapply does_mono; [apply (IH ws s1 M1 (n - itemCost it) t q1); try done; lia|].
  intros o [s2 q2] (-> & E2 & Hs2 & M2 & n2 & Hr2 & Ha2). cbn [fst snd] in *. change (it :: its) with ([it] ++ its).
  rewrite lastSeqOf_app, entriesOf_app, fmap_app, kv_writes_app, <- E1. split; [done|]. split; [done|]. split; [done|]. exists M2, n2. split; [done|].
  rewrite Ha2. apply kv_writes_agree; [|done]. by eapply agree_later.
Qed.
End replica.

(** ** The master *)

Definition recordEntry (r : record) : replEntry := mkRepl (rec_op r) (rec_key r) (rec_val r) (rec_exp r) 0.

Section master.
Context (cap : nat) (addr : bytes).
Hypothesis cap_pos : (0 < cap)%nat.

Lemma pushEntry_ring L m e : ring_of cap L (ms_backlog m) -> Z.of_nat (length L) + 1 < 2 ^ 64 ->
  let e' := withSeq e (Z.of_nat (length L) + 1) in
  exists rb, pushEntry m (re_op e) (re_key e) (re_val e) (re_expiresAt e) = Some (e', mkMaster rb (ms_replicas m)) /\ ring_of cap (L ++ [e']) rb.
Proof.
  intros Hr Hl e'. unfold pushEntry. destruct (ring_push cap L (ms_backlog m) (mkRepl (re_op e) (re_key e) (re_val e) (re_expiresAt e) 0) cap_pos Hr Hl) as (rb & -> & Hr').
  by exists rb.
Qed.

Lemma lastMarker_last q es : lastMarker q es = from_option re_seq q (last es).
Proof.
  unfold lastMarker. destruct es as [|e es] using rev_ind; [done|]. rewrite foldl_app, last_snoc. done.
Qed.

Lemma lastMarker_drop L j c q : in_order L -> (0 < c)%nat -> (j + c <= length L)%nat -> lastMarker q (take c (drop j L)) = Z.of_nat (j + c).
Proof.
  intros Hord Hc Hl. rewrite lastMarker_last, last_lookup, length_take, length_drop.
  replace (Nat.pred (Nat.min c (length L - j))) with (c - 1)%nat by lia.
  rewrite lookup_take_lt, lookup_drop by lia. destruct (lookup_lt_is_Some_2 L (j + (c - 1))%nat) as [e He]; [lia|]. rewrite He. cbn. rewrite (Hord _ _ He). lia.
Qed.

(** One round sends the next entries and their last number. *)
Lemma drain_next L j n rc : in_order L -> rc_running rc = true -> rc_sendCh rc = drop j L -> (j < length L)%nat ->
  exists c, (0 < c)%nat /\ (j + c <= length L)%nat /\
    drain n rc = mkReplica true (rc_snapshotActive rc) (rc_pending rc) (drop (j + c) L)
      (rc_out rc ++ encodeItems ((IEntry <$> take c (drop j L)) ++ [ISeq (Z.of_nat (j + c))])).
Proof.
  intros Hord Hrun Hs Hj. destruct (lookup_lt_is_Some_2 L j Hj) as [e He]. rewrite (drop_S L e j He) in Hs. unfold drain. rewrite Hs, Hrun. cbn [negb].
  set (b := Nat.min n 256). set (burst := take b (drop (Datatypes.S j) L)). set (c := Datatypes.S (length burst)).
  assert (length burst = Nat.min b (length L - Datatypes.S j)) as Lb by (unfold burst; by rewrite length_take, length_drop).
  assert (e :: burst = take c (drop j L)) as Ec.
  { rewrite (drop_S L e j He). cbn [take c]. f_equal. unfold burst. rewrite length_take, length_drop.
    destruct (Nat.min_spec b (length L - Datatypes.S j)) as [[? ->]|[? ->]]; [done|]. rewrite !take_ge; rewrite ?length_drop; done || lia. }
  assert ((if re_seq e <? lastMarker 0 burst then lastMarker 0 burst else re_seq e) = Z.of_nat (j + c)) as Hm.
  { rewrite (Hord _ _ He). destruct (decide (burst = [])) as [Eb|Eb].
    - rewrite Eb. unfold c. rewrite Eb. cbn. case_if; bool_prop; lia.
    - assert (0 < length burst)%nat by (destruct burst; [done|cbn; lia]).
      assert (lastMarker 0 burst = lastMarker 0 (e :: burst)) as ->.
      { rewrite !lastMarker_last, last_cons. destruct (last burst) eqn:El; [done|]. by apply last_None in El. }
      rewrite Ec, (lastMarker_drop L j c 0 Hord) by (unfold c; lia). case_if; bool_prop; unfold c in *; lia. }
  exists c. split; [unfold c; lia|]. split; [unfold c; lia|]. unfold rc_write. cbn [rc_running rc_snapshotActive rc_pending rc_sendCh rc_out].
  rewrite Hm, Ec, encodeItems_app, encodeItems_entries. rewrite drop_drop. replace (Datatypes.S j + length burst)%nat with (j + c)%nat by (unfold c; lia).
  unfold encodeItems at 1. cbn [fmap list_fmap concat encodeItem]. by rewrite app_nil_r.
Qed.

(** Items that follow the start of a stream. *)
Definition follows (it : item) : Prop := match it with IStart => False | ISeq q => is_u64 q | _ => True end.

(** How a connection stands: all of [P] up to [j'] has been sent since [j]. *)
Record sent (P : list replEntry) (j : nat) (out : bytes) (rc' : replicaConn) (its : list item) (j' : nat) : Prop := {
  st_running : rc_running rc' = true;
  st_live : rc_snapshotActive rc' = false;
  st_queue : rc_sendCh rc' = drop j' P;
  st_range : (j <= j' <= length P)%nat;
  st_out : rc_out rc' = out ++ encodeItems its;
  st_entries : entriesOf its = drop j (take j' P);
  st_seq : (its = [] /\ j' = j) \/ forall x, lastSeqOf x its = Z.of_nat j';
  st_items : Forall follows its;
}.

Lemma sent_write P j out rc its j' e : sent P j out rc its j' ->
  match deliver e rc with Some rc' => sent (P ++ [e]) j out rc' its j' | None => True end.
Proof.
  intros []. unfold deliver. rewrite st_running0, st_live0. cbn [negb]. case_if; [|done].
  split; cbn; try done; rewrite ?length_app; cbn [length]; try lia.
  - rewrite drop_app_le by lia. by rewrite st_queue0.
  - rewrite take_app_le by lia. done.
Qed.

Lemma sent_drain P j out rc its j' n : in_order P -> Z.of_nat (length P) < 2 ^ 64 -> sent P j out rc its j' ->
  exists its' j'', sent P j out (drain n rc) its' j''.
Proof.
  intros Hord Hl Hs. pose proof Hs as []. destruct (decide (j' = length P)) as [->|Hne].
  { exists its, (length P). unfold drain. rewrite st_queue0, drop_ge by lia. exact Hs. }
  destruct (drain_next P j' n rc Hord st_running0 st_queue0 ltac:(lia)) as (c & Hc & Hc' & ->).
  eexists (its ++ (IEntry <$> take c (drop j' P)) ++ [ISeq (Z.of_nat (j' + c))]), (j' + c)%nat.
  split; cbn; try done; try lia.
  - by rewrite st_out0, <- app_assoc, <- encodeItems_app.
  - rewrite !entriesOf_app, entriesOf_entries, st_entries0. cbn. rewrite app_nil_r. rewrite take_drop_commute, Nat.add_comm.
    rewrite <- (take_drop j' (take (c + j') P)) at 2. rewrite take_take, Nat.min_l by lia. rewrite drop_app_le; [done|]. rewrite length_take. lia.
  - right. intros x. rewrite !lastSeqOf_app, lastSeqOf_entries. done.
  - apply Forall_app. split; [done|]. apply Forall_app. split; [by apply Forall_fmap, Forall_true|]. constructor; [|constructor]. cbn. unfold is_u64. lia.
Qed.

Lemma in_order_snoc L e : in_order L -> in_order (L ++ [withSeq e (Z.of_nat (length L) + 1)]).
Proof.
  intros H i x Hx. apply lookup_app_Some in Hx as [Hx|[Hi Hx]]; [by apply H|]. apply list_lookup_singleton_Some in Hx as [E <-]. cbn. lia.
Qed.

Lemma in_order_app a b : in_order (a ++ b) -> in_order a.
Proof. intros H i e He. apply H. by apply lookup_app_l_Some. Qed.

(** *** The call that is under way *)

(** Whether the replica may still get the entry of the call. *)
Definition lagging (st : syncState) : bool :=
  match sy_call st with Some (_, None) => true | Some (_, Some rest) => bool_decide (addr ∈ rest) | None => false end.

(** [L] has been numbered, and [P] of it has passed the replica. *)
Record calls (L P : list replEntry) (st : syncState) : Prop := {
  ca_ring : ring_of cap L (ms_backlog (sy_master st));
  ca_order : in_order L;
  ca_room : Z.of_nat (length L + length (sy_todo st)) + 1 < 2 ^ 64;
  ca_call : match sy_call st with Some (e, _) => exists L0, L = L0 ++ [e] /\ P = if lagging st then L0 else L | None => P = L end;
}.

Lemma calls_prefix L P st : calls L P st -> exists R, L = P ++ R.
Proof.
  intros [_ _ _ H]. destruct (sy_call st) as [[e o]|]; [|exists []; by rewrite H, app_nil_r].
  destruct H as (L0 & -> & ->). destruct (lagging st); [by exists [e]|]. exists []. by rewrite app_nil_r.
Qed.

(** Where the replica is in all this. *)
Definition snapshotItems (rs : list record) : list item := [IStart] ++ (IEntry <$> (recordEntry <$> rs)) ++ [IEnd].

Definition connected (lastSeq : Z) (rs : list record) (base : nat) (L P : list replEntry) (ph : phase) (early : list replEntry) (seen : Z) (rc : replicaConn) : Prop :=
  let aside out s := (base <= s <= length P)%nat /\ rc_snapshotActive rc = true /\ rc_out rc = out /\ rc_sendCh rc = [] /\ rc_pending rc = drop s P in
  match ph with
  | PStart => False
  | PRegistered => exists s, (base <= s <= length P)%nat /\ rc_snapshotActive rc = false /\ rc_out rc = [] /\ rc_pending rc = [] /\ rc_sendCh rc = drop s P
  | PFlagged => early = [] -> exists s, aside [] s
  | PNumbered q => early = [] -> exists s, aside [] s /\ Z.of_nat s <= q <= Z.of_nat (length L)
  | PSent q => early = [] -> exists s, aside (encodeItems (snapshotItems rs)) s /\ Z.of_nat s <= q <= Z.of_nat (length L) /\ Z.of_nat s <= seen
  | PLive => early = [] -> exists s j mk its j', (base <= s <= j)%nat /\ Z.of_nat s <= seen /\ Z.of_nat j <= mk <= Z.of_nat (length L) /\
      sent P j (encodeItems (snapshotItems rs ++ (IEntry <$> drop s (take j P)) ++ [ISeq mk])) rc its j'
  | PResumed => exists s n its j', (base <= s <= n)%nat /\ 0 <= lastSeq <= Z.of_nat n /\ (n <= length L)%nat /\
      sent P s (encodeItems ([IResume] ++ (IEntry <$> drop (Z.to_nat lastSeq) (take n L)) ++ [ISeq (Z.of_nat n)])) rc its j'
  end.

(** The whole of it. *)
Record synced (lastSeq : Z) (rs : list record) (base : nat) (L P : list replEntry) (st : syncState) : Prop := {
  sn_calls : calls L P st;
  sn_base : (base <= length P)%nat;
  sn_start : sy_phase st = PStart -> ms_replicas (sy_master st) !! addr = None /\ match sy_call st with Some (_, Some rest) => addr ∉ rest | _ => True end;
  sn_conn : forall rc, ms_replicas (sy_master st) !! addr = Some rc -> rc_running rc = true /\ connected lastSeq rs base L P (sy_phase st) (sy_early st) (sy_seen st) rc;
}.

Lemma connected_push lastSeq rs base L P ph early seen rc e :
  connected lastSeq rs base L P ph early seen rc -> connected lastSeq rs base (L ++ [e]) P ph early seen rc.
Proof.
  unfold connected. rewrite length_app. cbn [length]. destruct ph; try done.
  - intros H He. destruct (H He) as (s & H1 & H2). exists s. split; [done|lia].
  - intros H He. destruct (H He) as (s & H1 & H2 & H3). exists s. split; [done|lia].
  - intros H He. destruct (H He) as (s & j & mk & its & j' & H1 & H2 & H3 & H4). exists s, j, mk, its, j'. split; [done|]. split; [done|]. split; [lia|done].
  - intros (s & n & its & j' & H1 & H2 & H3 & H4). exists s, n, its, j'. split; [done|]. split; [done|]. split; [lia|]. by rewrite take_app_le by lia.
Qed.

Lemma connected_deliver lastSeq rs base L P ph early seen rc rc' e : rc_running rc = true -> deliver e rc = Some rc' ->
  connected lastSeq rs base L P ph early seen rc -> rc_running rc' = true /\ connected lastSeq rs base L (P ++ [e]) ph early seen rc'.
Proof.
  intros Hrun Ed Hc. split; [unfold deliver in Ed; rewrite Hrun in Ed; repeat (case_match; simplify_eq; cbn; try done)|].
  assert (forall s, (s <= length P)%nat -> drop s (P ++ [e]) = drop s P ++ [e]) as Hdrop by (intros s Hs; by rewrite drop_app_le).
  assert (rc_snapshotActive rc = true -> rc_snapshotActive rc' = true /\ rc_out rc' = rc_out rc /\ rc_sendCh rc' = rc_sendCh rc /\ rc_pending rc' = rc_pending rc ++ [e]) as Ha.
  { intros Ha. unfold deliver in Ed. rewrite Hrun, Ha in Ed. cbn in Ed. case_match; simplify_eq. done. }
  unfold connected in *. rewrite length_app. cbn [length]. destruct ph; try done.
  - destruct Hc as (s & H1 & H2 & H3 & H4 & H5). exists s. unfold deliver in Ed. rewrite Hrun, H2 in Ed. cbn in Ed. case_match; simplify_eq. cbn.
    rewrite Hdrop, H5 by lia. split; [lia|done].
  - intros He. destruct (Hc He) as (s & H1 & H2 & H3 & H4 & H5). exists s. destruct (Ha H2) as (-> & -> & -> & ->). rewrite Hdrop, H5 by lia. split; [lia|done].
  - intros He. destruct (Hc He) as (s & (H1 & H2 & H3 & H4 & H5) & H6). exists s. destruct (Ha H2) as (-> & -> & -> & ->). rewrite Hdrop, H5 by lia. split; [split; [lia|done]|done].
  - intros He. destruct (Hc He) as (s & (H1 & H2 & H3 & H4 & H5) & H6). exists s. destruct (Ha H2) as (-> & -> & -> & ->). rewrite Hdrop, H5 by lia. split; [split; [lia|done]|done].
  - intros He. destruct (Hc He) as (s & j & mk & its & j' & H1 & H2 & H3 & H4). exists s, j, mk, its, j'. pose proof (sent_write _ _ _ _ _ _ e H4) as H5. rewrite Ed in H5.
    rewrite take_app_le by (destruct H4; lia). done.
  - destruct Hc as (s & n & its & j' & H1 & H2 & H3 & H4). exists s, n, its, j'. pose proof (sent_write _ _ _ _ _ _ e H4) as H5. rewrite Ed in H5. done.
Qed.

(** *** The steps *)

Definition step_fine (lastSeq : Z) (rs : list record) (base : nat) (L P : list replEntry) (st : syncState) (o : option syncState) : Prop :=
  exists st' R P', o = Some st' /\ synced lastSeq rs base (L ++ numbered (Z.of_nat (length L)) R) P' st' /\ sy_todo st = R ++ sy_todo st'.

Lemma step_same lastSeq rs base L P P' st st' : sy_todo st' = sy_todo st -> synced lastSeq rs base L P' st' -> step_fine lastSeq rs base L P st (Some st').
Proof. intros E H. exists st', [], P'. cbn [numbered]. rewrite app_nil_r. split; [done|]. split; [done|]. by rewrite E. Qed.

Lemma callNext_fine lastSeq rs base L P st : synced lastSeq rs base L P st -> step_fine lastSeq rs base L P st (callNext st).
Proof.
  intros Hs. pose proof Hs as [Hca Hb Hst Hco]. pose proof Hca as [Hr Hord Hroom Hcall]. unfold callNext. destruct (sy_call st) as [[e [rest|]]|] eqn:Ec.
  - case_decide as He; [|by eapply step_same]. subst rest. apply (step_same _ _ _ _ _ P); [done|]. unfold lagging in Hcall. rewrite Ec in Hcall.
    rewrite bool_decide_false in Hcall by set_solver. destruct Hcall as (L0 & _ & ->). split; [by split|done| |done].
    intros E. split; [by apply Hst|done].
  - set (st' := mkSync _ _ _ _ _ _). apply (step_same _ _ _ _ _ (if lagging st' then P else L)); [done|].
    unfold lagging in Hcall. rewrite Ec in Hcall. destruct Hcall as (L0 & EL & EP).
    assert (lagging st' = false -> ms_replicas (sy_master st) !! addr = None) as Hl.
    { unfold lagging. cbn [sy_call st']. intros Hn%bool_decide_eq_false. destruct (ms_replicas (sy_master st) !! addr) as [rc|] eqn:E; [|done]. exfalso. apply Hn.
      apply elem_of_dom. exists rc. apply map_lookup_filter_Some. split; [done|]. by apply (Hco rc). }
    split.
    + split; [done..|]. cbn [sy_call st']. exists L0. split; [done|]. by rewrite EP.
    + destruct (lagging st'); [done|]. rewrite EL, length_app. rewrite EP in Hb. lia.
    + intros E. split; [by apply Hst|]. cbn [sy_call st']. unfold targets. rewrite elem_of_dom. intros [rc [E' _]%map_lookup_filter_Some]. destruct (Hst E) as [E'' _]. by rewrite E'' in E'.
    + intros rc E. destruct (lagging st') eqn:El; [by apply Hco|]. change (ms_replicas (sy_master st) !! addr = Some rc) in E. by rewrite (Hl eq_refl) in E.
  - destruct (sy_todo st) as [|e todo] eqn:Et; [by eapply step_same|]. cbn [length] in Hroom.
    destruct (pushEntry_ring L (sy_master st) e Hr ltac:(lia)) as (rb & -> & Hr'). cbn [mbind option_bind fst snd]. subst P.
    eexists _, [e], L. split; [done|]. cbn [numbered sy_todo app]. split; [|done]. set (e' := withSeq e _) in *. change (mkRepl _ _ _ _ _) with e'. split.
    + split; [done|by apply in_order_snoc| |].
      * cbn [sy_todo]. rewrite length_app. cbn [length]. lia.
      * by exists L.
    + done.
    + intros E. split; [by apply Hst|done].
    + intros rc E. destruct (Hco rc E) as [H1 H2]. split; [done|]. by apply connected_push.
Qed.
Lemma callDeliver_fine lastSeq rs base L P st a : synced lastSeq rs base L P st -> step_fine lastSeq rs base L P st (Some (callDeliver a st)).
Proof.
  intros Hs. pose proof Hs as [Hca Hb Hst Hco]. pose proof Hca as [Hr Hord Hroom Hcall]. unfold callDeliver.
  destruct (sy_call st) as [[e [rest|]]|] eqn:Ec; [|by eapply step_same..]. case_decide as Hin; [|by eapply step_same].
  unfold lagging in Hcall. rewrite Ec in Hcall. destruct Hcall as (L0 & EL & EP). destruct (decide (a = addr)) as [->|Hne].
  - rewrite bool_decide_true in EP by done. subst P. apply (step_same _ _ _ _ _ L); [done|]. split.
    + split; [done..|]. cbn [sy_call]. exists L0. split; [done|]. unfold lagging. cbn [sy_call]. by rewrite bool_decide_false by set_solver.
    + rewrite EL, length_app. lia.
    + intros E. destruct (Hst E) as [_ H]. done.
    + cbn [sy_master deliverTo ms_replicas]. rewrite lookup_partial_alter_eq. intros rc' E. destruct (ms_replicas (sy_master st) !! addr) as [rc|]; [|done]. cbn in E.
      destruct (Hco rc eq_refl) as [H1 H2]. rewrite EL at 2. by apply (connected_deliver _ _ _ _ _ _ _ _ rc).
  - apply (step_same _ _ _ _ _ P); [done|]. split.
    + split; [done..|]. cbn [sy_call]. exists L0. split; [done|]. rewrite EP. unfold lagging. cbn [sy_call]. by rewrite (bool_decide_ext (addr ∈ rest ∖ {[a]}) (addr ∈ rest)) by set_solver.
    + done.
    + intros E. cbn [sy_master deliverTo ms_replicas sy_call]. rewrite lookup_partial_alter_ne by done. destruct (Hst E) as [H1 H2]. split; [done|set_solver].
    + cbn [sy_master deliverTo ms_replicas]. rewrite lookup_partial_alter_ne by done. exact Hco.
Qed.

(** Steps of the replica's own goroutine. *)
Lemma synced_own lastSeq rs base L P st f ph early seen : synced lastSeq rs base L P st -> ph <> PStart ->
  (forall rc, ms_replicas (sy_master st) !! addr = Some rc -> rc_running rc = true -> connected lastSeq rs base L P (sy_phase st) (sy_early st) (sy_seen st) rc ->
     rc_running (f rc) = true /\ connected lastSeq rs base L P ph early seen (f rc)) ->
  synced lastSeq rs base L P (mkSync (onReplica f addr (sy_master st)) (sy_todo st) (sy_call st) ph early seen).
Proof.
  intros [Hca Hb Hst Hco] Hph Hf. split; [by destruct Hca|done|done|].
  cbn [sy_master onReplica ms_replicas]. rewrite lookup_alter_eq. intros rc' E. destruct (ms_replicas (sy_master st) !! addr) as [rc|] eqn:Erc; [|done].
  injection E as <-. destruct (Hco rc eq_refl) as [H1 H2]. by apply Hf.
Qed.

Lemma sendRecords_out rs rc : foldl sendRecord rc rs = rc_write rc (encodeItems (IEntry <$> (recordEntry <$> rs))).
Proof.
  revert rc. induction rs as [|r rs IH]; intros rc; cbn [foldl].
  - unfold rc_write. cbn. rewrite app_nil_r. by destruct rc.
  - rewrite IH. unfold sendRecord, rc_write. cbn [rc_running rc_snapshotActive rc_pending rc_sendCh rc_out]. f_equal.
    rewrite <- app_assoc. f_equal.
Qed.

Lemma sendSnapshot_out rs rc : sendSnapshot rs rc = rc_write rc (encodeItems (snapshotItems rs)).
Proof.
  unfold sendSnapshot. rewrite sendRecords_out. unfold rc_write. cbn [rc_running rc_snapshotActive rc_pending rc_sendCh rc_out]. f_equal.
  rewrite <- !app_assoc. f_equal. unfold snapshotItems. rewrite !encodeItems_app. done.
Qed.

(** The end of a snapshot. *)
Lemma endSnapshot_live lastSeq rs base L P early seen q rc : in_order P -> (length P <= length L)%nat -> Z.of_nat (length L) < 2 ^ 64 -> rc_running rc = true ->
  connected lastSeq rs base L P (PSent q) early seen rc -> connected lastSeq rs base L P PLive early seen (endSnapshot q rc).
Proof.
  intros Hord Hle Hl Hrun Hc He. destruct (Hc He) as (s & (H1 & H2 & H3 & H4 & H5) & H6 & H7). exists s, (length P), (lastMarker q (drop s P)), [], (length P).
  split; [lia|]. split; [done|]. split.
  - destruct (decide (s = length P)) as [->|Hne]; [rewrite drop_ge by lia; cbn; lia|]. rewrite <- (take_ge (drop s P) (length P - s)) by (rewrite length_drop; lia).
    rewrite lastMarker_drop by (done || lia). lia.
  - unfold endSnapshot, rc_write. split; cbn [rc_running rc_snapshotActive rc_pending rc_sendCh rc_out]; [done|done|by rewrite H4, drop_ge|lia| |by rewrite take_ge, drop_ge|by left|constructor].
    rewrite H3, H5, take_ge by lia. rewrite !encodeItems_app, encodeItems_entries, app_nil_r. f_equal.
Qed.

Lemma resume_live lastSeq rs base L P early seen rc : 0 < lastSeq <= Z.of_nat (length L) -> in_order L -> (length P <= length L)%nat -> Z.of_nat (length L) < 2 ^ 64 -> rc_running rc = true ->
  connected lastSeq rs base L P PRegistered early seen rc -> connected lastSeq rs base L P PResumed early seen (resumeWrite lastSeq (drop (Z.to_nat lastSeq) L) rc).
Proof.
  intros Hq Hord Hle Hl Hrun (s & H1 & H2 & H3 & H4 & H5). exists s, (length L), [], s. split; [lia|]. split; [lia|]. split; [lia|].
  unfold resumeWrite, rc_write. split; cbn [rc_running rc_snapshotActive rc_pending rc_sendCh rc_out]; [done|done|done|lia| |by rewrite drop_ge by (rewrite length_take; lia)|by left|constructor].
  assert (lastMarker lastSeq (drop (Z.to_nat lastSeq) L) = Z.of_nat (length L)) as ->.
  { destruct (decide (Z.to_nat lastSeq = length L)) as [E|Hne]; [rewrite drop_ge by lia; cbn; lia|].
    rewrite <- (take_ge (drop (Z.to_nat lastSeq) L) (length L - Z.to_nat lastSeq)) by (rewrite length_drop; lia). rewrite lastMarker_drop by (done || lia). lia. }
  rewrite H3, take_ge by lia. rewrite !encodeItems_app, encodeItems_entries, app_nil_r. cbn [app]. f_equal.
Qed.

Lemma calls_order L P st : calls L P st -> in_order P /\ (length P <= length L)%nat /\ Z.of_nat (length L) + 1 < 2 ^ 64.
Proof.
  intros Hca. destruct (calls_prefix L P st Hca) as [R ->]. destruct Hca as [_ Hord Hroom _]. split; [by eapply in_order_app|]. rewrite length_app in *. lia.
Qed.

Lemma syncNext_fine lastSeq rs base L P st : 0 <= lastSeq -> synced lastSeq rs base L P st -> step_fine lastSeq rs base L P st (syncNext addr lastSeq rs st).
Proof.
  intros Hq Hs. pose proof Hs as [Hca Hb Hst Hco]. destruct (calls_order L P st Hca) as (HordP & Hle & Hl). pose proof (ro_next _ _ _ (ca_ring _ _ _ Hca)) as Hnext.
  unfold syncNext. destruct (sy_phase st) as [| | |q|q| |] eqn:Ep; [| | | | |by eapply step_same..].
  - apply (step_same _ _ _ _ _ P); [done|]. split; [by destruct Hca|done|done|]. cbn [sy_master with_phase register ms_replicas]. rewrite lookup_insert_eq. intros rc [= <-].
    split; [done|]. exists (length P). split; [lia|]. by rewrite drop_ge.
  - rewrite (Since_ring cap L _ lastSeq cap_pos (ca_ring _ _ _ Hca) (ca_order _ _ _ Hca) Hl Hq). cbn [mbind option_bind]. case_decide as Hd; cbn [fst snd].
    + apply (step_same _ _ _ _ _ P); [done|]. apply synced_own; [done|done|]. rewrite Ep. intros rc _ Hrun Hc. split; [done|]. apply resume_live; try done; try lia. apply Hca.
    + apply (step_same _ _ _ _ _ P); [done|]. apply synced_own; [done|done|]. rewrite Ep. intros rc -> Hrun (s & H1 & H2 & H3 & H4 & H5). split; [done|]. cbn [from_option]. intros He.
      exists (length P). split; [lia|]. cbn. rewrite H3, H4, He, drop_ge by lia. done.
  - apply (step_same _ _ _ _ _ P); [done|]. split; [by destruct Hca|done|done|]. intros rc E. destruct (Hco rc E) as [H1 H2]. split; [done|]. intros He. destruct (H2 He) as (s & H3).
    exists s. split; [done|]. unfold CurrentSeq. rewrite Hnext. lia.
  - apply (step_same _ _ _ _ _ P); [done|]. apply synced_own; [done|done|]. rewrite Ep. intros rc _ Hrun Hc. split; [by rewrite sendSnapshot_out|]. intros He.
    destruct (Hc He) as (s & (H1 & H2 & H3 & H4 & H5) & H6). exists s. rewrite sendSnapshot_out. unfold rc_write. cbn. rewrite H3. split; [done|]. split; [done|].
    unfold CurrentSeq. rewrite Hnext. lia.
  - apply (step_same _ _ _ _ _ P); [done|]. apply synced_own; [done|done|]. rewrite Ep. intros rc _ Hrun Hc. split; [done|]. apply endSnapshot_live; done || lia.
Qed.

Lemma drain_fine lastSeq rs base L P st n : synced lastSeq rs base L P st -> sy_phase st = PLive \/ sy_phase st = PResumed ->
  step_fine lastSeq rs base L P st (Some (with_master st (onReplica (drain n) addr (sy_master st)))).
Proof.
  intros Hs Hph. destruct (calls_order L P st (sn_calls _ _ _ _ _ _ Hs)) as (HordP & Hle & Hl). apply (step_same _ _ _ _ _ P); [done|]. apply synced_own; [done|by destruct Hph as [-> | ->]|].
  intros rc _ Hrun Hc. split.
  - unfold drain. destruct (rc_sendCh rc); [done|]. rewrite Hrun. done.
  - destruct Hph as [E|E]; rewrite E in *; cbn [connected] in *.
    + intros He. destruct (Hc He) as (s & j & mk & its & j' & H1 & H2 & H3 & H4). destruct (sent_drain _ _ _ _ _ _ n HordP ltac:(lia) H4) as (its' & j'' & H5). by exists s, j, mk, its', j''.
    + destruct Hc as (s & k & its & j' & H1 & H2 & H3 & H4). destruct (sent_drain _ _ _ _ _ _ n HordP ltac:(lia) H4) as (its' & j'' & H5). by exists s, k, its', j''.
Qed.

Lemma syncStep_fine lastSeq rs base L P st ev : 0 <= lastSeq -> synced lastSeq rs base L P st -> step_fine lastSeq rs base L P st (syncStep addr lastSeq rs st ev).
Proof.
  intros Hq Hs. destruct ev as [|a| |n|]; cbn [syncStep].
  - by apply callNext_fine.
  - by apply callDeliver_fine.
  - by apply syncNext_fine.
  - destruct (sy_phase st) eqn:E; try (by eapply step_same); apply drain_fine; auto.
  - destruct (sy_phase st) eqn:E; [by eapply step_same|..]; (apply (step_same _ _ _ _ _ P); [done|]); destruct Hs as [Hca Hb Hst Hco]; (split; [by destruct Hca|done|by cbn; rewrite E|]);
      cbn [sy_master with_master ms_replicas]; rewrite lookup_delete_eq; done.
Qed.

(** Whole runs: nothing goes wrong on the master. *)
Lemma syncRun_fine lastSeq rs base evs : forall L P st, 0 <= lastSeq -> synced lastSeq rs base L P st -> step_fine lastSeq rs base L P st (syncRun addr lastSeq rs st evs).
Proof.
  induction evs as [|ev evs IH]; intros L P st Hq Hs; cbn [syncRun]; [by eapply step_same|].
  destruct (syncStep_fine lastSeq rs base L P st ev Hq Hs) as (st1 & R1 & P1 & -> & Hs1 & E1). cbn [mbind option_bind].
  destruct (IH _ P1 st1 Hq Hs1) as (st2 & R2 & P2 & -> & Hs2 & E2). exists st2, (R1 ++ R2), P2. split; [done|]. rewrite E1, E2, <- app_assoc. split; [|done].
  rewrite length_app, length_numbered, Nat2Z.inj_add in Hs2. by rewrite numbered_app, app_assoc.
Qed.

Lemma synced_start lastSeq rs L m W : ring_of cap L (ms_backlog m) -> in_order L -> Z.of_nat (length L + length W) + 1 < 2 ^ 64 -> ms_replicas m !! addr = None ->
  synced lastSeq rs (length L) L L (mkSync m W None PStart [] 0).
Proof. intros Hr Hord Hl Hn. split; [by split|done|done|]. intros rc E. cbn in E. by rewrite Hn in E. Qed.
End master.

(** ** Convergence *)

Lemma entry_fine_before now now' e : now' <= now -> entry_fine now e -> entry_fine now' e.
Proof.
  intros Hn [H1 H2 H3 H4 H5]. split; try done. unfold alive in *. destruct (0 <? re_expiresAt e); [|done]. cbn in *.
  apply negb_true_iff in H5. apply negb_true_iff. apply Z.leb_gt in H5. apply Z.leb_gt. lia.
Qed.

Lemma items_fine now t ws its : Forall (fun w => world_ok t w /\ wd_now w <= now) ws -> length ws = length its -> Forall follows its ->
  Forall (entry_fine now) (entriesOf its) -> Forall2 (fun w it => item_fine (wd_now w) it) ws its.
Proof.
  revert ws. induction its as [|it its IH]; intros [|w ws] Hw El Hf He; try done.
  apply Forall_cons in Hw as [[_ Hn] Hw]. apply Forall_cons in Hf as [Hi Hf]. injection El as El. change (it :: its) with ([it] ++ its) in He.
  rewrite entriesOf_app in He. apply Forall_app in He as [He1 He]. apply Forall2_cons. split; [|by apply IH].
  destruct it; cbn in *; try done. apply Forall_cons in He1 as [He1 _]. exact (entry_fine_before now _ _ Hn He1).
Qed.

Definition entriesCost (es : list replEntry) : Z := foldr Z.add 0 (entryCost <$> es).

Lemma streamCost_entries its : streamCost its = entriesCost (entriesOf its).
Proof.
  unfold streamCost, entriesCost. induction its as [|it its IH]; [done|]. change (it :: its) with ([it] ++ its) at 2. rewrite entriesOf_app, fmap_app.
  cbn [fmap list_fmap foldr]. rewrite IH. destruct it; done.
Qed.

Lemma numbered_same {A} (f : replEntry -> A) q ws : (forall e q, f (withSeq e q) = f e) -> f <$> numbered q ws = f <$> ws.
Proof. intros Hf. revert q. induction ws as [|e ws IH]; intros q; [done|]. cbn. f_equal; [apply Hf|apply IH]. Qed.

Lemma numbered_fine now q ws : Forall (entry_fine now) ws -> Forall (entry_fine now) (numbered q ws).
Proof. intros H. revert q. induction H as [|e ws [] _ IH]; intros q; cbn; [constructor|]. constructor; [by split|apply IH]. Qed.

Lemma catch_up_from M a b n : (n <= length a)%nat -> kv_writes (kv_writes M a) (drop n (a ++ b)) = kv_writes M (a ++ b).
Proof.
  intros Hn. rewrite <- (take_drop n a) at 1. rewrite kv_writes_app, drop_app_le by done. rewrite catch_up, <- kv_writes_app, app_assoc. by rewrite take_drop.
Qed.

Lemma entriesCost_app a b : entriesCost (a ++ b) = entriesCost a + entriesCost b.
Proof. unfold entriesCost. induction a as [|e a IH]; [done|]. cbn in *. lia. Qed.

Lemma entriesCost_nonneg es : 0 <= entriesCost es.
Proof.
  unfold entriesCost. induction es as [|e es IH]; [done|]. cbn [fmap list_fmap foldr] in *.
  assert (0 <= entryCost e) by (unfold entryCost, writeCost; pose proof (batchCost_nonneg [mkBatch (re_key e) (re_val e) false 0]); lia). lia.
Qed.

Lemma entriesCost_drop n es : entriesCost (drop n es) <= entriesCost es.
Proof. rewrite <- (take_drop n es) at 2. rewrite entriesCost_app. pose proof (entriesCost_nonneg (take n es)). lia. Qed.

Lemma entriesCost_numbered q es : entriesCost (numbered q es) = entriesCost es.
Proof. unfold entriesCost. by rewrite numbered_same. Qed.

Lemma drop_numbered q n ws : drop n (numbered q ws) = numbered (q + Z.of_nat n) (drop n ws).
Proof. revert q n. induction ws as [|e ws IH]; intros q [|n]; cbn [numbered drop]; [done..| |]; [by rewrite Z.add_0_r|]. rewrite IH. f_equal. lia. Qed.

Lemma numbered_drop (L W : list replEntry) u : (length L <= u)%nat -> drop u (L ++ numbered (Z.of_nat (length L)) W) = numbered (Z.of_nat u) (drop (u - length L) W).
Proof. intros Hu. rewrite drop_app_ge by done. rewrite drop_numbered. f_equal. lia. Qed.

Section follows.
Context {S : Type} {HS : Store S} {HD : DB S} {HA : Admin S} (E : bytes -> Prop) {HL : StoreLaws S E} {HR : ReplicaLaws S E}.
Context (cap : nat) (addr : bytes).
Hypothesis cap_pos : (0 < cap)%nat.

(** A stream of which everything is out. *)
Lemma sent_all P j pre rc its j' : sent P j (encodeItems pre) rc its j' -> rc_sendCh rc = [] ->
  rc_out rc = encodeItems (pre ++ its) /\ entriesOf its = drop j P /\ ((its = [] /\ j = length P) \/ forall x, lastSeqOf x its = Z.of_nat (length P)) /\ Forall follows its /\ (j <= length P)%nat.
Proof.
  intros [] Hs. rewrite st_queue0 in Hs. assert (j' = length P) as -> by (apply (f_equal length) in Hs; rewrite length_drop in Hs; cbn in Hs; lia).
  rewrite encodeItems_app. split; [done|]. split; [by rewrite st_entries0, take_ge by lia|]. split; [|split; [done|lia]]. destruct st_seq0 as [[-> ->]|H]; [by left|by right].
Qed.

(** The numbers a stream ends with. *)
Lemma marker_last q mk its j n : Z.of_nat j <= mk <= Z.of_nat n -> (its = [] /\ j = n) \/ (forall x, lastSeqOf x its = Z.of_nat n) ->
  lastSeqOf q ([ISeq mk] ++ its) = Z.of_nat n.
Proof. intros Hm [[-> ->]|H]; [cbn; lia|]. by rewrite lastSeqOf_app, H. Qed.

Lemma is_u64_of_nat n : Z.of_nat n < 2 ^ 64 -> is_u64 (Z.of_nat n).
Proof. unfold is_u64. lia. Qed.

(** What a synchronised replica is sent. *)
Lemma live_stream lastSeq rs base L st rc : synced cap addr lastSeq rs base L L st -> ms_replicas (sy_master st) !! addr = Some rc ->
  sy_phase st = PLive -> sy_early st = [] -> rc_sendCh rc = [] ->
  exists all s, rc_out rc = [opSnapshotStart] ++ encodeItems all /\ entriesOf all = (recordEntry <$> rs) ++ drop s L /\ (forall q, lastSeqOf q all = Z.of_nat (length L)) /\
    Forall follows all /\ (base <= s)%nat /\ Z.of_nat s <= sy_seen st.
Proof.
  intros Hs Erc Ep Ee Hq. destruct (calls_order cap addr cap_pos L L st (sn_calls _ _ _ _ _ _ _ _ Hs)) as (_ & _ & Hl). destruct (sn_conn _ _ _ _ _ _ _ _ Hs rc Erc) as [_ Hc]. rewrite Ep in Hc.
  destruct (Hc Ee) as (s & j & mk & its & j' & H1 & H2 & H3 & H4). destruct (sent_all _ _ _ _ _ _ H4 Hq) as (Eo & Een & Hseq & Hf & Hj).
  exists ((IEntry <$> (recordEntry <$> rs)) ++ [IEnd] ++ (IEntry <$> drop s (take j L)) ++ [ISeq mk] ++ its), s. split; [|split; [|split; [|split; [|split; [lia|done]]]]].
  - rewrite Eo. change [opSnapshotStart] with (encodeItems [IStart]). rewrite <- encodeItems_app. unfold snapshotItems. by rewrite <- !app_assoc.
  - rewrite !entriesOf_app, !entriesOf_entries, Een. cbn [entriesOf omap list_omap app]. f_equal. rewrite <- (take_drop j L) at 3. rewrite drop_app_le; [done|]. rewrite length_take. lia.
  - intros q. rewrite !(lastSeqOf_app q), lastSeqOf_entries, lastSeqOf_app, (lastSeqOf_app _ (IEntry <$> _)), lastSeqOf_entries. eapply marker_last; [|exact Hseq]. lia.
  - rewrite !Forall_app, !Forall_fmap, !Forall_singleton. split; [by apply Forall_true|]. split; [done|]. split; [by apply Forall_true|]. split; [cbn; unfold is_u64; lia|done].
Qed.

Lemma resumed_stream lastSeq rs base L st rc : synced cap addr lastSeq rs base L L st -> ms_replicas (sy_master st) !! addr = Some rc ->
  sy_phase st = PResumed -> rc_sendCh rc = [] ->
  exists all s n, rc_out rc = encodeItems all /\ entriesOf all = drop (Z.to_nat lastSeq) (take n L) ++ drop s L /\ (forall q, lastSeqOf q all = Z.of_nat (length L)) /\
    Forall follows all /\ (base <= s <= n)%nat /\ (n <= length L)%nat /\ 0 <= lastSeq <= Z.of_nat n.
Proof.
  intros Hs Erc Ep Hq. destruct (calls_order cap addr cap_pos L L st (sn_calls _ _ _ _ _ _ _ _ Hs)) as (_ & _ & Hl). destruct (sn_conn _ _ _ _ _ _ _ _ Hs rc Erc) as [_ Hc]. rewrite Ep in Hc.
  destruct Hc as (s & n & its & j' & H1 & H2 & H3 & H4). destruct (sent_all _ _ _ _ _ _ H4 Hq) as (Eo & Een & Hseq & Hf & Hj).
  exists ([IResume] ++ (IEntry <$> drop (Z.to_nat lastSeq) (take n L)) ++ [ISeq (Z.of_nat n)] ++ its), s, n. split; [|split; [|split; [|split; [|split; [lia|split; [lia|done]]]]]].
  - rewrite Eo. by rewrite <- !app_assoc.
  - rewrite !entriesOf_app, !entriesOf_entries, Een. done.
  - intros q. rewrite (lastSeqOf_app q [IResume]), (lastSeqOf_app _ (IEntry <$> _)), lastSeqOf_entries. eapply marker_last; [|exact Hseq]. lia.
  - rewrite !Forall_app, !Forall_fmap, !Forall_singleton. split; [done|]. split; [by apply Forall_true|]. split; [cbn; unfold is_u64; lia|done].
Qed.
(** Everything has been announced, and what was to be sent to the replica has
    been. *)
Definition caughtUp (st : syncState) (rc : replicaConn) : Prop :=
  sy_todo st = [] /\ sy_call st = None /\ ms_replicas (sy_master st) !! addr = Some rc /\ rc_sendCh rc = [].

Lemma run_caughtUp lastSeq rs L m W evs : ring_of cap L (ms_backlog m) -> in_order L -> Z.of_nat (length L + length W) + 1 < 2 ^ 64 -> 0 <= lastSeq ->
  ms_replicas m !! addr = None ->
  exists st, syncRun addr lastSeq rs (mkSync m W None PStart [] 0) evs = Some st /\ forall rc, caughtUp st rc ->
    let L' := L ++ numbered (Z.of_nat (length L)) W in synced cap addr lastSeq rs (length L) L' L' st /\ CurrentSeq (ms_backlog (sy_master st)) = Z.of_nat (length L + length W).
Proof.
  intros Hr Hord Hl Hq Hn. destruct (syncRun_fine cap addr cap_pos lastSeq rs (length L) evs L L _ Hq (synced_start cap addr lastSeq rs L m W Hr Hord Hl Hn)) as (st & R & P & Est & Hs & ER).
  exists st. split; [exact Est|]. intros rc (Et & Ec & _ & _). cbn [sy_todo] in ER. rewrite Et, app_nil_r in ER. subst R. cbv zeta.
  pose proof (sn_calls _ _ _ _ _ _ _ _ Hs) as Hca. pose proof (ca_call _ _ _ _ _ Hca) as HP. rewrite Ec in HP. subst P. split; [done|].
  unfold CurrentSeq. rewrite (ro_next _ _ _ (ca_ring _ _ _ _ _ Hca)), length_app, length_numbered. done.
Qed.

(** Reading a stream of entries. *)
Lemma session_reads all now ws s M n t q : rep s M n t -> spacious s -> Forall (fun w => world_ok t w /\ wd_now w <= now) ws -> length ws = length all -> Forall follows all ->
  Forall (entry_fine now) (entriesOf all) -> entriesCost (entriesOf all) <= n ->
  does (replicaSession ws (encodeItems all)) (s, q) (fun o sq => o = Some [] /\ sq.2 = lastSeqOf q all /\
    exists M' n', rep sq.1 M' n' t /\ agree now M' (kv_writes M (batchOf <$> entriesOf all))).
Proof.
  intros Hr Hs Hws El Hf Hfine Hcost. eapply does_mono; [apply (session_items E all now ws s M n t q Hr Hs Hws); [by apply (items_fine now t)|by rewrite streamCost_entries]|].
  intros o sq (H1 & H2 & _ & H3). done.
Qed.

Lemma batch_drop L W s : batchOf <$> drop s (L ++ numbered (Z.of_nat (length L)) W) = drop s (batchOf <$> (L ++ W)).
Proof. by rewrite fmap_drop, !fmap_app, numbered_same. Qed.

End follows.
