(* ===== verification/ReplicaEngine.v ===== *)
(** * Replicas on the engine

    The engine keeps the promises a replica relies on; a synchronisation on
    concrete engines; and where a replica falls behind its master. *)
From Stdlib Require Import String.
From S2P Require Import Prelude Mvcc Oracle SkipList Strconv Encoding Crypto Registry Wal Vlog Values VlogSpec Compaction Engine Open EngineInv EngineSteps EngineSystem EngineMain Scan Store Collections CollSpec CollModel CollMain CollEngine CollRun Resp RespSpec Server ServerKv ServerColl ServerConn ServerType ServerWire Cluster ServerEngine Snapshots ClusterRun Replication ReplicaSync.

(** ** The disk check stays as it was *)

(** A computation that does not touch [e_diskFull]. *)
Definition keeps {A} (m : eng A) : Prop := forall e a e', m e = Some (a, e') -> e_diskFull e' = e_diskFull e.

Lemma keeps_ret {A} (a : A) : keeps (mret a).
Proof. by intros e b e' [= <- <-]. Qed.

Lemma keeps_bind {A B} (m : eng A) (f : A -> eng B) : keeps m -> (forall a, keeps (f a)) -> keeps (m ≫= f).
Proof.
  intros Hm Hf e b e' H. change (match m e with Some (a, e1) => f a e1 | None => None end = Some (b, e')) in H. destruct (m e) as [[a e1]|] eqn:E1; [|done]. rewrite (Hf a e1 b e' H). by apply (Hm e a).
Qed.

(** A step that reads the engine and puts back one with the same flag. *)
Lemma keeps_update {A} (f : Engine -> eng A) : (forall e a e', f e e = Some (a, e') -> e_diskFull e' = e_diskFull e) -> keeps (getE ≫= f).
Proof. intros Hf e a e' H. by apply (Hf e a). Qed.

Ltac frame_step := apply keeps_update; intros e a e'; cbv beta delta [putE panic mret eng_ret mbind eng_bind st_ret st_bind]; repeat (case_match; try done); (let H := fresh in intros H; first [discriminate H | injection H; intros; subst; reflexivity]).

Lemma keeps_record n : keeps (recordValueSize n).
Proof. unfold recordValueSize. frame_step. Qed.
Lemma keeps_track k x : keeps (trackExpiry k x).
Proof. unfold trackExpiry. frame_step. Qed.
Lemma keeps_mtPut k v x q : keeps (mtPut k v x q).
Proof. unfold mtPut. frame_step. Qed.
Lemma keeps_mtDelete k q : keeps (mtDelete k q).
Proof. unfold mtDelete. frame_step. Qed.

Create HintDb frame.
#[export] Hint Resolve keeps_ret keeps_record keeps_track keeps_mtPut keeps_mtDelete : frame.

Section engine.
Context (aesEncrypt : bytes -> bytes -> bytes) (xxhash : bytes -> Z).

Lemma keeps_walWrite w op k v x q : keeps (walWrite aesEncrypt w op k v x q).
Proof. unfold walWrite. frame_step. Qed.
Lemma keeps_vlWrite w k v x : keeps (vlWrite aesEncrypt w k v x).
Proof. unfold vlWrite. frame_step. Qed.
Lemma keeps_mark q : keeps (markApplied q).
Proof. unfold markApplied. frame_step. Qed.
Lemma keeps_assign r : keeps (assignSeq r).
Proof. unfold assignSeq. frame_step. Qed.
#[local] Hint Resolve keeps_walWrite keeps_vlWrite keeps_mark keeps_assign : frame.
Ltac frame := repeat first [apply keeps_bind; [auto with frame; fail|intros ?] | case_match | progress auto with frame].

Lemma keeps_get : keeps getE.
Proof. by intros e a e' [= <- <-]. Qed.
#[local] Hint Resolve keeps_get : frame.

Lemma keeps_applyEntry w op k v x q : keeps (Engine.applyEntry aesEncrypt w op k v x q).
Proof. unfold Engine.applyEntry. frame. Qed.
#[local] Hint Resolve keeps_applyEntry : frame.
Lemma keeps_applyEntryOpts w op k v x q skip : keeps (applyEntryOpts aesEncrypt w op k v x q skip).
Proof. unfold applyEntryOpts. frame. Qed.
Lemma keeps_clear w : keeps (clearInternal w).
Proof. unfold clearInternal. frame_step. Qed.
#[local] Hint Resolve keeps_applyEntryOpts keeps_clear : frame.

(** The requests a replica sends: puts, deletions, and the first clearing. *)
Lemma keeps_dispatch w r : rq_batch r = [] -> rq_op r = OpPut \/ rq_op r = OpDelete \/ rq_op r = opClear -> keeps (dispatch aesEncrypt w r).
Proof.
  intros Hb Hop. unfold dispatch. apply keeps_bind; [apply keeps_get|]. intros e. case_match; [frame|]. apply keeps_bind; [apply keeps_assign|]. intros seq.
  unfold applyRequest. rewrite Hb. destruct Hop as [-> | [-> | ->]]; cbn; frame.
Qed.

Hypothesis aes_wf : forall k b, wf_bytes (aesEncrypt k b).
Context (reg : option KeyRegistry).
Hypothesis reg_ok : registry_ok reg.
Notation holds := (engine_rep aesEncrypt reg anyKey).
#[local] Existing Instance engineStore.
#[local] Existing Instance engineDB.
#[local] Existing Instance engineLaws.

Definition hasSpace (e : Engine) : Prop := e_diskFull e = false.

Lemma does_keeps {A} (m : eng A) e P : keeps m -> hasSpace e -> does m e P -> does m e (fun a e' => P a e' /\ hasSpace e').
Proof.
  intros Hk Hs Hd. unfold does in *. destruct (m e) as [[a e']|] eqn:Em; [|done]. split; [done|]. unfold hasSpace. by rewrite (Hk e a e' Em).
Qed.

(** A request of a replica is never refused, and the log has its entries. *)
Lemma dispatch_spacious e M n t w r es c : holds e M n t -> hasSpace e -> world_ok t w -> req_ok r -> rq_seq r = 0 -> rq_batch r = [] ->
  rq_op r = OpPut \/ rq_op r = OpDelete -> reqCost r <= c -> 1 <= c <= n -> NoDup (bw_key <$> es) ->
  (forall log seq, logMap log M -> (logRequest (wd_now w) log r seq).1 = batchEntry seq <$> es /\ ir_err (logRequest (wd_now w) log r seq).2 = None) ->
  does (dispatch aesEncrypt w r) e (fun res e' => (ir_err res = None /\ holds e' (kv_writes M es) (n - c) t) /\ hasSpace e').
Proof.
  intros (opens & gc & sp & g & Hr) Hs Hw Hok Hz Hb Hop Hc Hn Hnd Hlog. apply does_keeps; [apply keeps_dispatch; [done|tauto]|done|].
  eapply does_mono; [apply (dispatch_rep aesEncrypt xxhash aes_wf reg reg_ok anyKey e M n t opens gc sp g w r c Hr Hw Hok Hz); try done|].
  { by destruct Hop as [-> | ->]. }
  intros res e' [(Hf & _)|(seq & out & sp' & g' & -> & -> & Hseq & Hold & Hlog' & Hs' & Hroom' & Hsp')]; [unfold refused in Hf; by rewrite Hs in Hf|].
  destruct (Hlog (sp_log sp) seq (er_map _ _ _ _ _ _ _ _ _ _ _ Hr)) as [E1 E2]. split; [done|]. exists opens, gc, sp', g'. rewrite E1 in Hlog'.
  split; [done|done|done| |by right]. rewrite Hlog'. apply logMap_batch; [apply Hr|done|done|done].
Qed.

Lemma engine_Put_spacious e M n t w k v x skip : holds e M n t -> hasSpace e -> world_ok t w -> kv_ok k v x -> writeCost [mkBatch k v false x] <= n ->
  does (PutExAt aesEncrypt w k v x skip) e (fun r e' => r = None /\ holds e' (<[k := (v, x)]> M) (n - writeCost [mkBatch k v false x]) t /\ hasSpace e').
Proof.
  intros Hr Hs Hw Hkv Hn. assert (1 <= writeCost [mkBatch k v false x]) as Hpos by (unfold writeCost; pose proof (batchCost_nonneg [mkBatch k v false x]); lia).
  eapply does_step; [apply (dispatch_spacious e M n t w (putReq k v x skip) [mkBatch k v false x] (writeCost [mkBatch k v false x])); try done|].
  - split; cbn [putReq rq_op rq_key rq_val rq_expiresAt rq_batch]; [set_solver|done|split; constructor|done].
  - by left.
  - unfold reqCost, writeCost. cbn. lia.
  - apply NoDup_singleton.
  - intros res e' [[E1 H1] H2]. by apply does_ret.
Qed.

Lemma agree_delete now M k : kv_get now M k = None -> agree now M (delete k M).
Proof.
  intros Hk k' now' Hk' Hn. unfold kv_get in *. destruct (decide (k = k')) as [->|]; [|by rewrite lookup_delete_ne]. rewrite lookup_delete_eq.
  destruct (M !! k') as [[v x]|]; [|done]. unfold alive in *. destruct (0 <? x) eqn:E1; [|done]. cbn in *. destruct (Z.leb_spec x now); [|done].
  by rewrite (proj2 (Z.leb_le _ _)) by lia.
Qed.

Lemma engine_Delete_spacious e M n t w k : holds e M n t -> hasSpace e -> world_ok t w -> kv_ok k [] 0 -> writeCost [mkBatch k [] true 0] <= n ->
  does (Engine_Delete aesEncrypt w k) e (fun _ e' => hasSpace e' /\ exists M', holds e' M' (n - writeCost [mkBatch k [] true 0]) t /\ agree (wd_now w) M' (delete k M)).
Proof.
  intros Hr Hs Hw Hkv Hn. set (b := mkBatch k [] true 0) in *. assert (1 <= writeCost [b]) as Hpos by (unfold writeCost; pose proof (batchCost_nonneg [b]); lia).
  set (es := if kv_get (wd_now w) M k then [b] else []).
  eapply does_step; [apply (dispatch_spacious e M n t w (deleteReq k) es (writeCost [b])); try done|].
  - split; cbn [deleteReq rq_op rq_key rq_val rq_expiresAt rq_batch]; [set_solver|done|split; constructor|done].
  - by right.
  - unfold reqCost, writeCost. cbn. lia.
  - unfold es. destruct (kv_get _ _ _); [apply NoDup_singleton|constructor].
  - intros log seq Hlog. unfold logRequest, logExists. cbn [deleteReq rq_op rq_batch rq_checkExists rq_key]. rewrite (logRead_map (wd_now w) log M k Hlog).
    unfold es, kv_get. destruct (M !! k) as [[v x]|]; [|done]. by destruct (alive (wd_now w) x).
  - intros res e' [[E1 H1] H2]. apply does_ret. split; [done|]. eexists. split; [exact H1|]. unfold es. destruct (kv_get (wd_now w) M k) eqn:Eg; [done|by apply agree_delete].
Qed.

#[export] Instance engineReplica : @ReplicaLaws Engine (engineStore aesEncrypt xxhash) (engineDB aesEncrypt xxhash) anyKey (engineLaws aesEncrypt xxhash aes_wf reg reg_ok anyKey) := {
  spacious := hasSpace;
  Put_spacious := engine_Put_spacious;
  Delete_spacious := engine_Delete_spacious;
}.

Lemma Clear_spacious e M n t gc sp g w : engineRep aesEncrypt reg anyKey e M n t [] gc sp g -> e_immMemTable e = None -> 1 <= n -> hasSpace e ->
  does (Engine_Clear aesEncrypt w) e (fun _ e' => holds e' ∅ (n - 1) t /\ hasSpace e').
Proof.
  intros Hr Him Hn Hs. assert (keeps (Engine_Clear aesEncrypt w)) as Hk.
  { unfold Engine_Clear. apply keeps_bind; [|intros ?; apply keeps_ret]. apply keeps_dispatch; [done|]. by right; right. }
  eapply does_mono; [exact (does_keeps _ e _ Hk Hs (Clear_does aesEncrypt xxhash aes_wf reg reg_ok anyKey e M n t gc sp g w Hr Him Hn))|]. by intros r e' [[_ H1] H2].
Qed.
End engine.

Module ReplicaWitness.
Import EngineWitness CollWitness.

Definition master : Master := mkMaster (NewReplBacklog 4) ∅.
Definition slot : bytes := str "r:1".
Definition put (k v : string) : replEntry := mkRepl 1 (str k) (str v) 0 0.
Definition del (k : string) : replEntry := mkRepl 2 (str k) [] 0 0.

(** A write before the replica comes, one while its snapshot is made, and three
    after it. *)
Definition wrote : list replEntry := [put "k" "a"; put "k" "b"; put "j" "c"; del "k"; put "i" "d"].
Definition snapshot : list record := [mkRecord 1 (str "k") (str "b") 0].
Definition call : list syncEvent := [VCall; VCall; VDeliver slot; VCall].
Definition events : list syncEvent :=
  [VCall; VCall; VCall; VSync; VSync; VCall; VSync; VCall; VDeliver slot; VCall; VSync; VSync] ++ call ++ [VDrain 1] ++ call ++ call ++ [VDrain 5].

(** Three writes the master has announced, of which a replica has read one, and a
    fourth that comes while it resumes. *)
Definition earlier : list replEntry := [del "k"; put "i" "b"; put "j" "c"].
Definition ring : ReplBacklog := default (NewReplBacklog 4) (pushAll (NewReplBacklog 4) earlier).
Definition more : list replEntry := [put "k" "z"].
Definition again : list syncEvent := [VSync; VCall; VCall; VDeliver slot; VSync; VCall; VDrain 5].

Definition fineb (e : replEntry) : bool :=
  ClusterWitness.record_okb (mkRecord (re_op e) (re_key e) (re_val e) (re_expiresAt e)) && (length (re_key e) <? 9)%nat && (length (re_val e) <? 9)%nat &&
  (re_expiresAt e =? 0) && ((re_op e =? 1) || (length (re_val e) =? 0)%nat).

Lemma fineb_spec now e : fineb e = true -> entry_fine now e.
Proof.
  unfold fineb. rewrite !andb_true_iff, orb_true_iff, !Z.eqb_eq, Nat.eqb_eq, !Nat.ltb_lt. intros ((((Hr & Hk) & Hv) & Hx) & Hop).
  apply ClusterWitness.record_okb_spec in Hr as (H1 & H2 & H3). cbn [rec_op rec_key rec_val rec_exp] in *.
  split; rewrite ?Hx in *; unfold maxReplFieldSize; [|done|lia|lia|done].
  destruct H1 as [H1|H1], Hop as [Hop|Hop]; try (left; exact Hop || exact H1). right. split; [done|]. split; [by apply nil_length_inv|done].
Qed.

Lemma all_fine : Forall (entry_fine 9) ((recordEntry <$> snapshot) ++ wrote).
Proof. apply Forall_forall. intros e He%list_elem_of_In. apply fineb_spec. revert e He. apply forallb_forall. vm_compute. reflexivity. Qed.

Lemma missed_fine : Forall (entry_fine 9) (drop 1 (numbered 0 earlier ++ more)).
Proof. apply Forall_forall. intros e He%list_elem_of_In. apply fineb_spec. revert e He. apply forallb_forall. vm_compute. reflexivity. Qed.

Lemma e0_rep : engineRep cipher None anyKey e0 ∅ space 5 [] [] emptyLog g0.
Proof.
  split.
  - apply (start_inv cipher cipher_wf oopts oworld I (conj (fun _ => world_iv 5) (world_iv 5)) e0 5); [vm_compute; reflexivity|discriminate].
  - apply roomb_spec. vm_compute. reflexivity.
  - vm_compute. reflexivity.
  - intros k. reflexivity.
  - intros u Hu. inversion Hu.
Qed.

Lemma worlds_ok n : Forall (fun w => world_ok 5 w /\ wd_now w <= 9) (replicate n (world 9)).
Proof. apply Forall_replicate. split; [|vm_compute; discriminate]. split; [vm_compute; discriminate|]. split; [vm_compute; discriminate|apply world_iv]. Qed.
End ReplicaWitness.



Module ReplicaFlaws.
Import EngineWitness CollWitness ReplicaWitness.

(** What a new engine answers at time 9 for a key after it has read a stream,
    and the number it remembers. *)
Definition answers (out : bytes) (k : string) : option (result bytes * Z) :=
  match @replicaSession Engine (engineStore cipher hash) (engineDB cipher hash) (engineAdmin cipher) (replicate 20 (world 9)) out (e0, 0) with
  | Some (_, (e, q)) => r ← getByString cipher 9 (str k) e; Some (r.1, q)
  | None => None
  end.

Definition outOf (m : Master) : option bytes := rc_out <$> ms_replicas m !! slot.

(** A full synchronisation with [early] between the registration and the flag
    that puts writes aside, and [late] before the snapshot, which shows it. *)
Definition lateFlag (early late : replEntry) : option bytes :=
  st ← syncRun slot 0 [mkRecord (re_op late) (re_key late) (re_val late) (re_expiresAt late)] (mkSync master [early; late] None PStart [] 0)
    ([VSync] ++ call ++ [VSync; VSync] ++ call ++ [VSync; VSync; VDrain 8]);
  outOf (sy_master st).

(** A master that starts again and announces [ws], when a replica that has read
    [lastSeq] entries of its former run connects. *)
Definition restarted (lastSeq : Z) (ws : list replEntry) : option bytes :=
  st ← syncRun slot lastSeq [] (mkSync master ws None PStart [] 0) (concat (replicate (length ws) call) ++ [VSync; VSync]);
  outOf (sy_master st).

(** Where a replica stays behind its master.  A write that comes in after
    the replica is registered and before writes are put aside is sent after
    newer writes, so the replica goes back to the older value, and to its
    number.  A value that has expired when the replica reads it does not
    replace the older one, which the master no longer answers with.  The
    numbers start from one again with the master, so that a replica of the
    former run resumes past the first writes of the new one. *)
Theorem replica_falls_behind :
  (out ← lateFlag (put "k" "old") (put "k" "new"); answers out "k") = Some (Ok (str "old"), 1) /\
  (let writes := [put "k" "old"; mkRepl 1 (str "k") (str "new") 7 0] in
   answers (writeEntries writes) "k" = Some (Ok (str "old"), 0) /\ kv_get 9 (kv_writes ∅ (batchOf <$> writes)) (str "k") = None) /\
  (let out := restarted 2 [put "k" "a"; put "i" "b"; put "j" "c"] in
   (out ← out; answers out "j") = Some (Ok (str "c"), 3) /\ (out ← out; answers out "k") = Some (Fail ErrKeyNotFound, 3)).
Proof. split; [vm_compute; reflexivity|]. split; split; vm_compute; reflexivity. Qed.
End ReplicaFlaws.
