(* ===== verification/PubSub.v ===== *)
(** * Publish and subscribe ([server/pubsub.go])

    The hub with the subscribers of each channel, the loop that serves a client
    in subscribe mode, and the goroutine that writes messages to it.  Clients
    take turns at every lock: a client has a list of actions ahead of it, and
    another client can come between any two of them.  A publication holds the
    hub's lock for reading while it offers its message to one subscriber after
    the other: other publications, the writers and the replies of clients come
    in between, but no one subscribes or unsubscribes. *)
From Stdlib Require Import String.
From S2P Require Import Prelude Strconv Resp Server.

(** ** Clients and the hub *)

(** What a client in subscribe mode does next, one lock at a time. *)
Inductive action :=
  | ASubscribe (ch : bytes)
  | AUnsubscribe (ch : bytes)
  | AWrite (b : bytes)
  | AUnsubscribeAll
  | AClosed.

(** A write to the connection: an answer, a message of the pump, or a message
    whose write failed. *)
Inductive written := WReply (b : bytes) | WMessage (b : bytes) | WFailed (b : bytes).

(** The fields of [client] for this mode; [sb_todo] is the rest of the code it
    is running, [sb_ended] says that the loop has returned, [sb_broken] that
    the pump has after a failed write. *)
Record subscriber := mkSubscriber {
  sb_subs : gset bytes;
  sb_sendCh : option (list bytes);
  sb_closed : bool;
  sb_ended : bool;
  sb_broken : bool;
  sb_todo : list action;
  sb_writes : list written;
}.
Definition newSubscriber : subscriber := mkSubscriber ∅ None false false false [] [].

(** A call of [publish] under way: the subscribers it has not come to yet and
    the number that took the message. *)
Record publication := mkPublication { pb_channel : bytes; pb_message : bytes; pb_left : gset nat; pb_delivered : Z }.

(** The hub, the clients, the publications under way and the answers of those
    that have returned, by the number of the call. *)
Record pubsubHub := mkHub {
  hub_subs : gmap bytes (gset nat);
  hub_clients : gmap nat subscriber;
  hub_pubs : gmap nat publication;
  hub_answers : gmap nat Z;
}.
Definition newPubSubHub : pubsubHub := mkHub ∅ ∅ ∅ ∅.
Definition with_hub (h : pubsubHub) (subs : gmap bytes (gset nat)) (clients : gmap nat subscriber) : pubsubHub :=
  mkHub subs clients (hub_pubs h) (hub_answers h).

Definition with_subs (s : subscriber) (X : gset bytes) : subscriber := mkSubscriber X (sb_sendCh s) (sb_closed s) (sb_ended s) (sb_broken s) (sb_todo s) (sb_writes s).
Definition with_queue (s : subscriber) (q : option (list bytes)) : subscriber := mkSubscriber (sb_subs s) q (sb_closed s) (sb_ended s) (sb_broken s) (sb_todo s) (sb_writes s).
Definition with_todo (s : subscriber) (l : list action) : subscriber := mkSubscriber (sb_subs s) (sb_sendCh s) (sb_closed s) (sb_ended s) (sb_broken s) l (sb_writes s).
Definition with_write (s : subscriber) (x : written) : subscriber := mkSubscriber (sb_subs s) (sb_sendCh s) (sb_closed s) (sb_ended s) (sb_broken s) (sb_todo s) (sb_writes s ++ [x]).

(** [delete(set, cl)], and the channel with its last subscriber. *)
Definition leave (channel : bytes) (cl : nat) (subs : gmap bytes (gset nat)) : gmap bytes (gset nat) :=
  match subs !! channel with
  | Some set => let set := set ∖ {[cl]} in if decide (set = ∅) then delete channel subs else <[channel := set]> subs
  | None => subs
  end.

Definition subscribe (channel : bytes) (cl : nat) (h : pubsubHub) : Z * pubsubHub :=
  let set := default ∅ (hub_subs h !! channel) in
  let clients := alter (fun s => with_subs s ({[channel]} ∪ sb_subs s)) cl (hub_clients h) in
  (from_option (fun s => Z.of_nat (size (sb_subs s))) 0 (clients !! cl), with_hub h (<[channel := {[cl]} ∪ set]> (hub_subs h)) clients).

Definition unsubscribe (channel : bytes) (cl : nat) (h : pubsubHub) : Z * pubsubHub :=
  let clients := alter (fun s => with_subs s (sb_subs s ∖ {[channel]})) cl (hub_clients h) in
  (from_option (fun s => Z.of_nat (size (sb_subs s))) 0 (clients !! cl), with_hub h (leave channel cl (hub_subs h)) clients).

Definition unsubscribeAll (cl : nat) (h : pubsubHub) : pubsubHub :=
  let subs := from_option (fun s => elements (sb_subs s)) [] (hub_clients h !! cl) in
  with_hub h (foldl (fun m ch => leave ch cl m) (hub_subs h) subs) (alter (fun s => with_subs s ∅) cl (hub_clients h)).

(** A message as it goes out. *)
Definition payload (channel message : bytes) : bytes :=
  str "*3" ++ crlf ++ str "$7" ++ crlf ++ str "message" ++ crlf ++ writeBulkString channel ++ writeBulkString message.

Definition sendChSize : nat := 128.

(** One client of the loop of [publish]: the channel takes the message or it is
    dropped. *)
Definition offer (b : bytes) (s : subscriber) : option subscriber :=
  if sb_closed s then None
  else match sb_sendCh s with
       | Some q => if (length q <? sendChSize)%nat then Some (with_queue s (Some (q ++ [b]))) else None
       | None => None
       end.

(** The three parts of [publish]: taking the lock and the subscribers, one round
    of the loop in whatever order the map yields them, and the return. *)
Definition beginPublish (p : nat) (channel message : bytes) (h : pubsubHub) : pubsubHub :=
  match hub_pubs h !! p, hub_answers h !! p with
  | None, None =>
      mkHub (hub_subs h) (hub_clients h)
        (<[p := mkPublication channel message (default ∅ (hub_subs h !! channel)) 0]> (hub_pubs h)) (hub_answers h)
  | _, _ => h
  end.

Definition offerNext (p cl : nat) (h : pubsubHub) : pubsubHub :=
  match hub_pubs h !! p with
  | Some pb =>
      if decide (cl ∈ pb_left pb) then
        let left := pb_left pb ∖ {[cl]} in
        match hub_clients h !! cl ≫= offer (payload (pb_channel pb) (pb_message pb)) with
        | Some s =>
            mkHub (hub_subs h) (<[cl := s]> (hub_clients h))
              (<[p := mkPublication (pb_channel pb) (pb_message pb) left (pb_delivered pb + 1)]> (hub_pubs h)) (hub_answers h)
        | None =>
            mkHub (hub_subs h) (hub_clients h)
              (<[p := mkPublication (pb_channel pb) (pb_message pb) left (pb_delivered pb)]> (hub_pubs h)) (hub_answers h)
        end
      else h
  | None => h
  end.

Definition endPublish (p : nat) (h : pubsubHub) : pubsubHub :=
  match hub_pubs h !! p with
  | Some pb =>
      if decide (pb_left pb = ∅) then
        mkHub (hub_subs h) (hub_clients h) (delete p (hub_pubs h)) (<[p := pb_delivered pb]> (hub_answers h))
      else h
  | None => h
  end.

Definition writeSubStatus (action channel : bytes) (count : Z) : bytes :=
  str "*3" ++ crlf ++ writeBulkString action ++ writeBulkString channel ++ str ":" ++ FormatInt count ++ crlf.

(** ** Subscribe mode *)

Section loop.
(** [range] over a map: the channels in some order. *)
Context {HG : GoText} (order : gset bytes -> list bytes).

Definition closing : list action := [AUnsubscribeAll; AClosed].

(** What one request of [handleSubscribeLoop] asks for, and whether the loop
    returns. *)
Definition subscribeRequest (s : subscriber) (args : list bytes) : list action * bool :=
  match args with
  | [] => ([], false)
  | a :: args =>
      let cmd := ToUpper a in
      if bool_decide (cmd = str "SUBSCRIBE") then (ASubscribe <$> args, false)
      else if bool_decide (cmd = str "UNSUBSCRIBE") then
        match args with [] => (AUnsubscribe <$> order (sb_subs s), false) | _ => (AUnsubscribe <$> args, false) end
      else if bool_decide (cmd = str "PING") then ([AWrite (str "*2" ++ crlf ++ str "$4" ++ crlf ++ str "pong" ++ crlf ++ str "$0" ++ crlf ++ crlf)], false)
      else if bool_decide (cmd = str "QUIT") then ([AWrite (writeSimpleString (str "OK"))], true)
      else ([AWrite (writeError (str "ERR only (P)SUBSCRIBE / (P)UNSUBSCRIBE / PING / QUIT allowed in pub/sub mode, got '" ++ cmd ++ str "'"))], false)
  end.

(** The start of the loop: the pump and the first channels. *)
Definition startPubSubPump (s : subscriber) : subscriber := match sb_sendCh s with Some _ => s | None => with_queue s (Some []) end.
Definition subscribeStart (initialChannels : list bytes) : list action * bool :=
  match initialChannels with
  | [] => ([AWrite (writeError (str "ERR wrong number of arguments for 'subscribe' command"))], true)
  | _ => (ASubscribe <$> initialChannels, false)
  end.

(** Take up a request; when the loop returns, [handleConnection] cleans up. *)
Definition take_up (r : list action * bool) (s : subscriber) : subscriber :=
  mkSubscriber (sb_subs s) (sb_sendCh s) (sb_closed s) r.2 (sb_broken s) (r.1 ++ if r.2 then closing else []) (sb_writes s).
Definition idle (s : subscriber) : bool := negb (sb_ended s) && bool_decide (length (sb_todo s) = 0)%nat.

(** Whether the next action has to wait for the hub's lock. *)
Definition waits (a : action) (h : pubsubHub) : bool :=
  match a with
  | ASubscribe _ | AUnsubscribe _ | AUnsubscribeAll => negb (size (hub_pubs h) =? 0)%nat
  | AWrite _ | AClosed => false
  end.

(** The next action of a client; the last one closes the channel. *)
Definition act (cl : nat) (h : pubsubHub) : pubsubHub :=
  match hub_clients h !! cl with
  | Some s =>
      match sb_todo s with
      | [] => h
      | a :: todo =>
          if waits a h then h
          else
            let h := with_hub h (hub_subs h) (<[cl := with_todo s todo]> (hub_clients h)) in
            let reply action ch r := with_hub r.2 (hub_subs r.2) (alter (fun s => with_todo s (AWrite (writeSubStatus action ch r.1) :: sb_todo s)) cl (hub_clients r.2)) in
            match a with
            | ASubscribe ch => reply (str "subscribe") ch (subscribe ch cl h)
            | AUnsubscribe ch => reply (str "unsubscribe") ch (unsubscribe ch cl h)
            | AWrite b => with_hub h (hub_subs h) (alter (fun s => with_write s (WReply b)) cl (hub_clients h))
            | AUnsubscribeAll => unsubscribeAll cl h
            | AClosed => with_hub h (hub_subs h) (alter (fun s => mkSubscriber (sb_subs s) (sb_sendCh s) true (sb_ended s) (sb_broken s) (sb_todo s) (sb_writes s)) cl (hub_clients h))
            end
      end
  | None => h
  end.

(** The goroutine of the pump takes one message, from an open channel or from
    what is left in a closed one, and writes it; it returns when the write
    fails. *)
Definition pump (ok : bool) (s : subscriber) : subscriber :=
  match sb_sendCh s with
  | Some (b :: q) =>
      if sb_broken s then s
      else if ok then with_write (with_queue s (Some q)) (WMessage b)
      else mkSubscriber (sb_subs s) (Some q) (sb_closed s) (sb_ended s) true (sb_todo s) (sb_writes s ++ [WFailed b])
  | _ => s
  end.

Inductive event :=
  | EConnect (cl : nat)
  | EStart (cl : nat) (initialChannels : list bytes)
  | ERequest (cl : nat) (args : list bytes)
  | EGone (cl : nat)
  | EAct (cl : nat)
  | EPump (cl : nat) (ok : bool)
  | EPublish (p : nat) (channel message : bytes)
  | EOffer (p cl : nat)
  | EReturn (p : nat).

(** A client that has nothing left to do reads on, in the mode it is in. *)
Definition subscribed (s : subscriber) : bool := bool_decide (is_Some (sb_sendCh s)).
Definition onIdle (b : bool) (f : subscriber -> subscriber) (s : subscriber) : subscriber := if idle s && b then f s else s.
Definition onClient (f : subscriber -> subscriber) (cl : nat) (h : pubsubHub) : pubsubHub := with_hub h (hub_subs h) (alter f cl (hub_clients h)).

Definition happen (h : pubsubHub) (ev : event) : pubsubHub :=
  match ev with
  | EConnect cl => match hub_clients h !! cl with Some _ => h | None => with_hub h (hub_subs h) (<[cl := newSubscriber]> (hub_clients h)) end
  | EStart cl chs => onClient (fun s => onIdle (negb (subscribed s)) (fun s => take_up (subscribeStart chs) (startPubSubPump s)) s) cl h
  | ERequest cl args => onClient (fun s => onIdle (subscribed s) (fun s => take_up (subscribeRequest s args) s) s) cl h
  | EGone cl => onClient (onIdle true (take_up ([], true))) cl h
  | EAct cl => act cl h
  | EPump cl ok => onClient (pump ok) cl h
  | EPublish p channel message => beginPublish p channel message h
  | EOffer p cl => offerNext p cl h
  | EReturn p => endPublish p h
  end.

(** A run, the latest event first. *)
Fixpoint run (evs : list event) : pubsubHub :=
  match evs with [] => newPubSubHub | ev :: evs => happen (run evs) ev end.
End loop.

(** ** The two sides agree *)

Definition members (h : pubsubHub) (ch : bytes) : gset nat := default ∅ (hub_subs h !! ch).
Definition subsOf (m : gmap nat subscriber) (c : nat) : gset bytes := from_option sb_subs ∅ (m !! c).

(** The hub lists for a channel the clients that are subscribed to it, and no
    channel without subscribers. *)
Record consistent (h : pubsubHub) : Prop := {
  cs_members : forall ch c, c ∈ members h ch <-> ch ∈ subsOf (hub_clients h) c;
  cs_used : forall ch set, hub_subs h !! ch = Some set -> set <> ∅;
}.

Lemma leave_members m channel cl ch c : c ∈ default ∅ (leave channel cl m !! ch) <-> c ∈ default ∅ (m !! ch) /\ ~ (ch = channel /\ c = cl).
Proof.
  unfold leave. destruct (decide (ch = channel)) as [->|Hne].
  - destruct (m !! channel) as [set|] eqn:Em; cbv zeta; [case_decide as Hs|]; rewrite ?lookup_delete_eq, ?lookup_insert_eq, ?Em; cbn; set_solver.
  - destruct (m !! channel) as [set|]; cbv zeta; [case_decide as Hs|]; rewrite ?lookup_delete_ne, ?lookup_insert_ne by done; set_solver.
Qed.

Lemma leave_used m channel cl : (forall ch set, m !! ch = Some set -> set <> ∅) -> forall ch set, leave channel cl m !! ch = Some set -> set <> ∅.
Proof.
  intros Hm ch set. unfold leave. destruct (m !! channel) as [set'|] eqn:Em; [|apply Hm]. cbv zeta. case_decide as Hs.
  - intros [_ H]%lookup_delete_Some. by apply (Hm ch).
  - intros [[<- <-]|[_ H]]%lookup_insert_Some; [done|by apply (Hm ch)].
Qed.

Lemma leaves_members cl l m ch c : c ∈ default ∅ (foldl (fun m ch => leave ch cl m) m l !! ch) <-> c ∈ default ∅ (m !! ch) /\ ~ (ch ∈ l /\ c = cl).
Proof. revert m. induction l as [|x l IH]; intros m; cbn [foldl]; [set_solver|]. rewrite IH, leave_members. set_solver. Qed.

Lemma leaves_used cl l m : (forall ch set, m !! ch = Some set -> set <> ∅) -> forall ch set, foldl (fun m ch => leave ch cl m) m l !! ch = Some set -> set <> ∅.
Proof. revert m. induction l as [|x l IH]; intros m Hm; cbn [foldl]; [done|]. apply IH. by apply leave_used. Qed.

Lemma subsOf_alter f cl m c : subsOf (alter f cl m) c = if decide (c = cl) then from_option (fun s => sb_subs (f s)) ∅ (m !! cl) else subsOf m c.
Proof. unfold subsOf. case_decide as E; [subst; rewrite lookup_alter_eq; by destruct (m !! cl)|by rewrite lookup_alter_ne]. Qed.

Lemma same_alter f cl m : (forall s, sb_subs (f s) = sb_subs s) -> forall c, subsOf (alter f cl m) c = subsOf m c.
Proof. intros Hf c. rewrite subsOf_alter. case_decide as E; [subst|done]. unfold subsOf. destruct (m !! cl); [apply Hf|done]. Qed.

Lemma same_insert s cl m : sb_subs s = subsOf m cl -> forall c, subsOf (<[cl := s]> m) c = subsOf m c.
Proof. intros Hs c. destruct (decide (c = cl)) as [->|]; unfold subsOf in *; [by rewrite lookup_insert_eq|by rewrite lookup_insert_ne]. Qed.

(** Steps that leave the subscriptions alone. *)
Definition alike (h h' : pubsubHub) : Prop := hub_subs h' = hub_subs h /\ forall c, subsOf (hub_clients h') c = subsOf (hub_clients h) c.

Lemma consistent_alike h h' : alike h h' -> consistent h -> consistent h'.
Proof. intros [E Hm] [H1 H2]. split; [|by rewrite E]. intros ch c. unfold members. rewrite E, Hm. apply H1. Qed.

Lemma subscribe_consistent ch cl h : is_Some (hub_clients h !! cl) -> consistent h -> consistent (subscribe ch cl h).2.
Proof.
  intros [s Hs] [H1 H2]. split; cbn.
  - intros ch' c. unfold members. cbn. rewrite subsOf_alter, Hs. specialize (H1 ch' c). unfold members, subsOf in *.
    destruct (decide (ch' = ch)) as [->|]; [rewrite lookup_insert_eq|rewrite lookup_insert_ne by done]; case_decide as Ec; subst; rewrite ?Hs in *; cbn in *; set_solver.
  - intros ch' set [[<- <-]|[_ H]]%lookup_insert_Some; [set_solver|by apply (H2 ch')].
Qed.

Lemma unsubscribe_consistent ch cl h : consistent h -> consistent (unsubscribe ch cl h).2.
Proof.
  intros [H1 H2]. split; cbn; [|by apply leave_used].
  intros ch' c. unfold members. cbn. rewrite leave_members, subsOf_alter. specialize (H1 ch' c). unfold members, subsOf in *.
  case_decide as Ec; subst; [|tauto]. destruct (hub_clients h !! cl) as [s|]; cbn in *; set_solver.
Qed.

Lemma unsubscribeAll_consistent cl h : consistent h -> consistent (unsubscribeAll cl h).
Proof.
  intros [H1 H2]. split; cbn; [|by apply leaves_used].
  intros ch' c. unfold members. cbn. rewrite leaves_members, subsOf_alter. specialize (H1 ch' c). unfold members, subsOf in *.
  case_decide as Ec; subst; [|tauto]. destruct (hub_clients h !! cl) as [s|]; cbn in *; [rewrite elem_of_elements|]; set_solver.
Qed.

Lemma offer_same b s s' : offer b s = Some s' ->
  exists q, sb_sendCh s = Some q /\ (length q < sendChSize)%nat /\ sb_closed s = false /\ s' = with_queue s (Some (q ++ [b])).
Proof.
  unfold offer. destruct (sb_closed s); [done|]. destruct (sb_sendCh s) as [q|]; [|done].
  destruct (Nat.ltb_spec (length q) sendChSize); [|done]. intros [= <-]. by exists q.
Qed.

(** A client hears a channel: it is subscribed to it and its channel has space. *)
Definition hears (h : pubsubHub) (channel : bytes) (c : nat) : bool :=
  match hub_clients h !! c with
  | Some s => bool_decide (channel ∈ sb_subs s) && negb (sb_closed s) && match sb_sendCh s with Some q => (length q <? sendChSize)%nat | None => false end
  | None => false
  end.

(** ** Whole runs *)

Definition plain (a : action) : Prop := a <> AUnsubscribeAll /\ a <> AClosed.

(** Where a client stands: it cleans up once, at the end, and is not subscribed
    to anything from then on. *)
Definition proper (s : subscriber) : Prop :=
  if sb_ended s then
    (sb_closed s = true /\ sb_todo s = [] /\ sb_subs s = ∅) \/ (sb_closed s = false /\ sb_todo s = [AClosed] /\ sb_subs s = ∅) \/
    (sb_closed s = false /\ exists l, Forall plain l /\ sb_todo s = l ++ closing)
  else sb_closed s = false /\ Forall plain (sb_todo s).

(** At most 128 messages wait. *)
Definition queue_fits (s : subscriber) : Prop := forall q, sb_sendCh s = Some q -> (length q <= sendChSize)%nat.

Record settled (h : pubsubHub) : Prop := {
  sd_consistent : consistent h;
  sd_proper : forall c s, hub_clients h !! c = Some s -> proper s /\ queue_fits s;
  sd_left : forall p pb c, hub_pubs h !! p = Some pb -> c ∈ pb_left pb -> pb_channel pb ∈ subsOf (hub_clients h) c;
}.

Lemma proper_open s ch : proper s -> ch ∈ sb_subs s -> sb_closed s = false.
Proof. unfold proper. intros Hs Hch. destruct (sb_ended s); [|tauto]. destruct Hs as [(_ & _ & E)|[(? & _ & _)|[? _]]]; [|done..]. rewrite E in Hch. set_solver. Qed.

(** The head of the list of actions. *)
Lemma proper_next s a todo : proper s -> sb_todo s = a :: todo ->
  sb_closed s = false /\
  ((plain a /\ forall b X w, plain b -> proper (mkSubscriber X (sb_sendCh s) false (sb_ended s) (sb_broken s) (b :: todo) w) /\ proper (mkSubscriber X (sb_sendCh s) false (sb_ended s) (sb_broken s) todo w)) \/
   (sb_ended s = true /\ a = AUnsubscribeAll /\ todo = [AClosed]) \/
   (sb_ended s = true /\ a = AClosed /\ todo = [] /\ sb_subs s = ∅)).
Proof.
  unfold proper. cbn [sb_ended sb_closed sb_todo sb_subs]. destruct (sb_ended s).
  - intros [(_ & E & _)|[(Ec & E & Es)|(Ec & l & Hl & E)]] Et; rewrite Et in E; [done| |].
    + injection E as -> ->. split; [done|]. by right; right.
    + split; [done|]. destruct l as [|x l]; [injection E as -> ->; by right; left|]. injection E as -> ->. apply Forall_cons in Hl as [Hx Hl]. left. split; [done|].
      intros b X w Hb. split; right; right; (split; [done|]); [exists (b :: l)|exists l]; split; try done. by constructor.
  - intros [Ec Hl] Et. rewrite Et in Hl. apply Forall_cons in Hl as [Ha Hl]. split; [done|]. left. split; [done|]. intros b X w Hb. split; split; try done. by constructor.
Qed.

Section runs.
Context {HG : GoText} (order : gset bytes -> list bytes).
Notation happen := (happen order).
Notation run := (run order).

Lemma actions_plain s args : Forall plain (subscribeRequest order s args).1.
Proof.
  assert (forall f (l : list bytes), (forall x, plain (f x)) -> Forall plain (f <$> l)) as Hf by (intros f l H; apply Forall_fmap, Forall_forall; intros x _; apply H).
  unfold subscribeRequest. repeat case_match; cbn [fst]; try apply Hf; try (intros x; by split); repeat constructor; done.
Qed.

Lemma start_plain chs : Forall plain (subscribeStart chs).1.
Proof. unfold subscribeStart. destruct chs; cbn [fst]; [repeat constructor; done|]. apply Forall_fmap, Forall_forall. intros x _. by split. Qed.

Lemma take_up_proper r s : Forall plain r.1 -> sb_closed s = false -> proper (take_up r s).
Proof. intros Hr Hc. unfold proper, take_up. cbn. destruct r.2; [right; right; split; [done|by exists r.1]|split; [done|by rewrite app_nil_r]]. Qed.

Lemma idle_open s : proper s -> idle s = true -> sb_closed s = false.
Proof. unfold proper, idle. intros Hs [He%negb_true_iff _]%andb_true_iff. rewrite He in Hs. tauto. Qed.

Lemma alter_as_insert (f : subscriber -> subscriber) (cl : nat) s (m : gmap nat subscriber) : m !! cl = Some s -> alter f cl m = <[cl := f s]> m.
Proof.
  intros E. apply map_eq. intros i. destruct (decide (i = cl)) as [->|]; [by rewrite lookup_alter_eq, lookup_insert_eq, E|by rewrite lookup_alter_ne, lookup_insert_ne].
Qed.

(** Steps that change one client, and leave the subscriptions and the
    publications alone. *)
Lemma settled_client h cl s' :
  settled h -> sb_subs s' = subsOf (hub_clients h) cl -> proper s' -> queue_fits s' ->
  settled (with_hub h (hub_subs h) (<[cl := s']> (hub_clients h))).
Proof.
  intros [Hc Hp Hl] Hs Hp' Hq'. assert (alike h (with_hub h (hub_subs h) (<[cl := s']> (hub_clients h)))) as Ha by (split; [done|]; by apply same_insert).
  split; [by eapply consistent_alike| |].
  - intros c s H. cbn in H. apply lookup_insert_Some in H as [[_ <-]|[_ H]]; [done|by apply (Hp c)].
  - intros p pb c Hpb Hin. destruct Ha as [_ ->]. by apply (Hl p).
Qed.

Lemma onClient_settled f cl h :
  (forall s, sb_subs (f s) = sb_subs s) -> (forall s, proper s -> queue_fits s -> proper (f s) /\ queue_fits (f s)) -> settled h -> settled (onClient f cl h).
Proof.
  intros Hf Hp Hset. pose proof Hset as [Hc Hs _]. unfold onClient. destruct (hub_clients h !! cl) as [s|] eqn:E.
  - destruct (Hs cl s E) as [H1 H2]. destruct (Hp s H1 H2). rewrite (alter_as_insert f cl s) by done.
    apply settled_client; try done. rewrite Hf. unfold subsOf. by rewrite E.
  - assert (alter f cl (hub_clients h) = hub_clients h) as ->; [|by destruct h].
    apply map_eq. intros i. destruct (decide (i = cl)) as [->|]; [by rewrite lookup_alter_eq, E|by rewrite lookup_alter_ne].
Qed.

(** Subscribing and unsubscribing happen while no publication is under way. *)
Lemma settled_quiet h h' : settled h -> hub_pubs h = ∅ -> hub_pubs h' = hub_pubs h -> consistent h' ->
  (forall c s, hub_clients h' !! c = Some s -> proper s /\ queue_fits s) -> settled h'.
Proof. intros _ Hq E Hc Hp. split; [done|done|]. intros p pb c. rewrite E, Hq, lookup_empty. done. Qed.

Lemma waits_quiet a h : (exists ch, a = ASubscribe ch \/ a = AUnsubscribe ch) \/ a = AUnsubscribeAll -> waits a h = false -> hub_pubs h = ∅.
Proof.
  intros Ha. assert (waits a h = negb (size (hub_pubs h) =? 0)%nat) as -> by (destruct Ha as [(ch & [-> | ->])| ->]; done).
  intros H%negb_false_iff%Nat.eqb_eq. by apply map_size_empty_inv.
Qed.

Lemma act_settled cl h : settled h -> settled (act cl h).
Proof.
  intros Hset. pose proof Hset as [Hc Hs Hl]. unfold act. destruct (hub_clients h !! cl) as [s|] eqn:Ecl; [|done].
  destruct (sb_todo s) as [|a todo] eqn:Et; [done|]. destruct (waits a h) eqn:Ew; [done|].
  set (h0 := with_hub h (hub_subs h) (<[cl := with_todo s todo]> (hub_clients h))).
  destruct (Hs cl s Ecl) as [Hps Hqs]. destruct (proper_next s a todo Hps Et) as (Hcl & Hcase).
  assert (alike h h0) as Ha0 by (split; [done|]; apply same_insert; unfold subsOf; by rewrite Ecl).
  assert (consistent h0) as Hc0 by (by eapply consistent_alike).
  assert (hub_clients h0 !! cl = Some (with_todo s todo)) as E0 by apply lookup_insert_eq.
  assert (forall f c s', hub_clients (onClient f cl h0) !! c = Some s' -> proper (f (with_todo s todo)) -> queue_fits (f (with_todo s todo)) -> proper s' /\ queue_fits s') as Hcl0.
  { intros f c s' H Hf Hqf. cbn in H. destruct (decide (c = cl)) as [->|Hne]; [rewrite lookup_alter_eq, lookup_insert_eq in H; by injection H as <-|].
    rewrite lookup_alter_ne, lookup_insert_ne in H by done. by apply (Hs c). }
  destruct a as [ch|ch|b| |].
  1,2: destruct Hcase as [[_ Hp]|[(_ & ? & _)|(_ & ? & _)]]; [|done..];
    (apply (settled_quiet h); [done|eapply waits_quiet; [|exact Ew]; eauto|done| |]);
    [first [refine (consistent_alike _ _ _ (subscribe_consistent ch cl h0 _ Hc0)); [split; [reflexivity|]; intros c; by apply same_alter|by eexists]
           |refine (consistent_alike _ _ _ (unsubscribe_consistent ch cl h0 Hc0)); split; [reflexivity|]; intros c; by apply same_alter]|];
    intros c s' H; cbn in H; rewrite alter_alter_eq in H; eapply Hcl0; [exact H| |exact Hqs];
    unfold compose, with_todo, with_subs; cbn; rewrite Hcl; by apply Hp.
  - destruct Hcase as [[_ Hp]|[(_ & ? & _)|(_ & ? & _)]]; [|done..]. unfold h0. cbn [with_hub hub_subs hub_clients].
    rewrite (alter_as_insert _ cl (with_todo s todo)), insert_insert_eq by apply lookup_insert_eq. apply (settled_client h cl); [done|unfold subsOf; by rewrite Ecl| |exact Hqs].
    unfold with_todo, with_write. cbn. rewrite Hcl. by apply (Hp (AWrite [])).
  - destruct Hcase as [[[? _] _]|[(He & _ & ->)|(_ & ? & _)]]; [done| |done].
    apply (settled_quiet h); [done|eapply waits_quiet; [|exact Ew]; by right|done|by apply unsubscribeAll_consistent|].
    intros c s' H. eapply Hcl0; [exact H| |exact Hqs]. unfold proper, with_todo, with_subs. cbn. rewrite He. right; left. done.
  - destruct Hcase as [[[_ ?] _]|[(_ & ? & _)|(He & _ & -> & Es)]]; [done..|]. unfold h0. cbn [with_hub hub_subs hub_clients].
    rewrite (alter_as_insert _ cl (with_todo s [])), insert_insert_eq by apply lookup_insert_eq. apply (settled_client h cl); [done|unfold subsOf; by rewrite Ecl| |exact Hqs].
    unfold proper, with_todo. cbn. rewrite He. by left.
Qed.

(** One offer to one subscriber. *)
Lemma offerNext_spec p cl h : settled h -> offerNext p cl h =
  match hub_pubs h !! p with
  | Some pb =>
      if decide (cl ∈ pb_left pb) then
        let b := hears h (pb_channel pb) cl in
        mkHub (hub_subs h)
          (if b then alter (fun s => with_queue s ((fun q => q ++ [payload (pb_channel pb) (pb_message pb)]) <$> sb_sendCh s)) cl (hub_clients h) else hub_clients h)
          (<[p := mkPublication (pb_channel pb) (pb_message pb) (pb_left pb ∖ {[cl]}) (pb_delivered pb + Z.b2z b)]> (hub_pubs h)) (hub_answers h)
      else h
  | None => h
  end.
Proof.
  intros [_ _ Hl]. unfold offerNext. destruct (hub_pubs h !! p) as [pb|] eqn:Ep; [|done]. case_decide as Hin; [|done].
  specialize (Hl p pb cl Ep Hin). unfold subsOf in Hl. unfold hears. destruct (hub_clients h !! cl) as [s|] eqn:Ec; [|set_solver].
  cbn [mbind option_bind]. cbn in Hl. rewrite bool_decide_true by done. cbv zeta. unfold offer.
  destruct (sb_closed s); cbn [negb andb Z.b2z]; [by rewrite Z.add_0_r|]. destruct (sb_sendCh s) as [q|] eqn:Eq; [|by rewrite Z.add_0_r].
  destruct (length q <? sendChSize)%nat eqn:El; cbn [Z.b2z]; [|by rewrite Z.add_0_r]. f_equal. rewrite (alter_as_insert _ cl s) by done. by rewrite Eq.
Qed.

Lemma offerNext_settled p cl h : settled h -> settled (offerNext p cl h).
Proof.
  intros Hset. pose proof Hset as [Hc Hs Hl]. rewrite offerNext_spec by done. destruct (hub_pubs h !! p) as [pb|] eqn:Ep; [|done]. case_decide as Hin; [|done].
  cbv zeta. destruct (hears h (pb_channel pb) cl) eqn:Eh.
  - unfold hears in Eh. destruct (hub_clients h !! cl) as [s|] eqn:Ec; [|done]. destruct (sb_sendCh s) as [q|] eqn:Eq; [|by rewrite andb_false_r in Eh].
    apply andb_prop in Eh as [_ Hlt%Nat.ltb_lt]. rewrite (alter_as_insert _ cl s), Eq by done. cbn [fmap option_fmap option_map].
    set (s' := with_queue s (Some (q ++ [payload (pb_channel pb) (pb_message pb)]))). destruct (Hs cl s Ec) as [Hp Hq].
    assert (settled (with_hub h (hub_subs h) (<[cl := s']> (hub_clients h)))) as [Hc' Hs' Hl'].
    { apply settled_client; [done|unfold subsOf; by rewrite Ec|exact Hp|]. intros q' [= <-]. rewrite length_app. cbn. lia. }
    split; [by refine (consistent_alike _ _ _ Hc')|exact Hs'|]. intros p' pb' c. cbn [hub_pubs hub_clients]. intros [[<- <-]|[_ H]]%lookup_insert_Some; cbn; [|by apply (Hl' p')].
    intros Hin'. apply (Hl' p pb c Ep). set_solver.
  - split; [by refine (consistent_alike _ _ _ Hc)|exact Hs|]. intros p' pb' c. cbn [hub_pubs hub_clients]. intros [[<- <-]|[_ H]]%lookup_insert_Some; cbn; [|by apply (Hl p')].
    intros Hin'. apply (Hl p pb c Ep). set_solver.
Qed.

Lemma publish_settled p ch msg h : settled h -> settled (beginPublish p ch msg h) /\ settled (endPublish p h).
Proof.
  intros Hset. pose proof Hset as [Hc Hs Hl]. split.
  - unfold beginPublish. destruct (hub_pubs h !! p) eqn:E; [done|]. destruct (hub_answers h !! p); [done|]. split; [by refine (consistent_alike _ _ _ Hc)|exact Hs|].
    intros p' pb c. cbn [hub_pubs hub_clients]. intros [[<- <-]|[_ H]]%lookup_insert_Some; cbn; [|by apply (Hl p')]. intros Hin. by apply (cs_members h Hc).
  - unfold endPublish. destruct (hub_pubs h !! p) eqn:E; [|done]. case_decide; [|done]. split; [by refine (consistent_alike _ _ _ Hc)|exact Hs|].
    intros p' pb c. cbn [hub_pubs hub_clients]. intros [_ H']%lookup_delete_Some. by apply (Hl p').
Qed.

Lemma happen_settled h ev : settled h -> settled (happen h ev).
Proof.
  intros Hset. pose proof Hset as [Hc Hs Hl]. destruct ev as [cl|cl chs|cl args|cl|cl|cl ok|p ch msg|p cl|p]; unfold PubSub.happen.
  - destruct (hub_clients h !! cl) eqn:E; [done|]. apply settled_client; [done|unfold subsOf; by rewrite E|by split|by intros q].
  - apply onClient_settled; [| |done]; intros s; unfold onIdle; destruct (idle s) eqn:Ei; cbn [andb]; [|done| |done]; destruct (negb _) eqn:En; try done.
    + unfold startPubSubPump. by destruct (sb_sendCh s).
    + intros Hp Hq. split; [apply take_up_proper; [apply start_plain|]; unfold startPubSubPump; destruct (sb_sendCh s); by apply idle_open|].
      unfold queue_fits, startPubSubPump. cbn. destruct (sb_sendCh s) eqn:Eq; [intros q; rewrite Eq; intros [= <-]; by apply Hq|]. cbn. intros q [= <-]. cbn. lia.
  - apply onClient_settled; [| |done]; intros s; unfold onIdle; destruct (idle s) eqn:Ei; cbn [andb]; [|done| |done]; destruct (subscribed s); try done.
    intros Hp Hq. split; [apply take_up_proper; [apply actions_plain|by apply idle_open]|exact Hq].
  - apply onClient_settled; [| |done]; intros s; unfold onIdle; destruct (idle s) eqn:Ei; cbn [andb]; try done.
    intros Hp Hq. split; [apply take_up_proper; [constructor|by apply idle_open]|exact Hq].
  - by apply act_settled.
  - apply onClient_settled; [| |done]; intros s; unfold pump; destruct (sb_sendCh s) as [[|b q]|] eqn:E; destruct (sb_broken s), ok; try done;
      intros Hp Hq; (split; [exact Hp|]); intros q' [= <-]; specialize (Hq _ E); cbn in Hq; lia.
  - by apply publish_settled.
  - by apply offerNext_settled.
  - by apply (publish_settled p [] []).
Qed.

Lemma run_settled evs : settled (run evs).
Proof.
  induction evs as [|ev evs IH]; [|by apply happen_settled]. split; [split|..].
  - intros ch c. unfold members, subsOf. cbn. by rewrite !lookup_empty.
  - intros ch set E. cbn in E. by rewrite lookup_empty in E.
  - intros c s E. cbn in E. by rewrite lookup_empty in E.
  - intros p pb c E. cbn in E. by rewrite lookup_empty in E.
Qed.

(** ** What a run has offered *)

(** The messages a client's pump has taken or will take: taken, then waiting. *)
Definition messages (s : subscriber) : list bytes :=
  omap (fun x => match x with WMessage b | WFailed b => Some b | WReply _ => None end) (sb_writes s) ++ default [] (sb_sendCh s).
Definition messagesOf (h : pubsubHub) (c : nat) : list bytes := from_option messages [] (hub_clients h !! c).

(** The offers of a run in order: the publication, the client, the message and
    whether the client's channel had space for it. *)
Fixpoint offers (evs : list event) : list (nat * nat * bytes * bool) :=
  match evs with
  | [] => []
  | ev :: evs =>
      offers evs ++
      match ev with
      | EOffer p c =>
          match hub_pubs (run evs) !! p with
          | Some pb => if decide (c ∈ pb_left pb) then [(p, c, payload (pb_channel pb) (pb_message pb), hears (run evs) (pb_channel pb) c)] else []
          | None => []
          end
      | _ => []
      end
  end.
Definition heard (c : nat) (evs : list event) : list bytes :=
  omap (fun o => match o with (_, c', b, taken) => if decide (c' = c) then if (taken : bool) then Some b else None else None end) (offers evs).
Definition offersOf (p : nat) (evs : list event) : list (nat * nat * bytes * bool) := filter (fun o => o.1.1.1 = p) (offers evs).

(** What a publication is of, and who was subscribed when it began. *)
Fixpoint started (p : nat) (evs : list event) : option (bytes * bytes * gset nat) :=
  match evs with
  | [] => None
  | ev :: evs =>
      match started p evs, ev with
      | Some x, _ => Some x
      | None, EPublish p' channel message => if decide (p' = p) then Some (channel, message, members (run evs) channel) else None
      | None, _ => None
      end
  end.

Lemma messages_alter f cl h h' c : hub_clients h' = alter f cl (hub_clients h) -> (forall s, messages (f s) = messages s) -> messagesOf h' c = messagesOf h c.
Proof.
  intros E Hf. unfold messagesOf. rewrite E. destruct (decide (c = cl)) as [->|]; [rewrite lookup_alter_eq; destruct (hub_clients h !! cl); cbn; [apply Hf|done]|by rewrite lookup_alter_ne].
Qed.

Lemma messages_reply s b : messages (with_write s (WReply b)) = messages s.
Proof. unfold messages. cbn [with_write sb_writes sb_sendCh]. rewrite omap_app. cbn. by rewrite app_nil_r. Qed.

Lemma messages_act cl h c : messagesOf (act cl h) c = messagesOf h c.
Proof.
  unfold act. destruct (hub_clients h !! cl) as [s|] eqn:Ecl; [|done]. destruct (sb_todo s) as [|a todo]; [done|]. destruct (waits a h); [done|].
  set (h0 := with_hub h (hub_subs h) (<[cl := with_todo s todo]> (hub_clients h))).
  assert (messagesOf h0 c = messagesOf h c) as E0.
  { unfold messagesOf. cbn [h0 with_hub hub_clients]. destruct (decide (c = cl)) as [->|]; [by rewrite lookup_insert_eq, Ecl|by rewrite lookup_insert_ne]. }
  rewrite <- E0. destruct a as [ch|ch|b| |]; cbv zeta.
  - etrans; [by eapply (messages_alter _ cl (subscribe ch cl h0).2)|]. by eapply (messages_alter _ cl h0).
  - etrans; [by eapply (messages_alter _ cl (unsubscribe ch cl h0).2)|]. by eapply (messages_alter _ cl h0).
  - eapply (messages_alter _ cl h0); [done|]. intros s'. apply messages_reply.
  - by eapply (messages_alter _ cl h0).
  - by eapply (messages_alter _ cl h0).
Qed.

Lemma messages_pump ok s : messages (pump ok s) = messages s.
Proof.
  unfold pump. destruct (sb_sendCh s) as [[|b q]|] eqn:E; [done| |done]. destruct (sb_broken s); [done|].
  destruct ok; unfold messages, with_write, with_queue; cbn [sb_writes sb_sendCh]; by rewrite omap_app, E, <- app_assoc.
Qed.

Lemma messages_offer p cl h c : settled h ->
  messagesOf (offerNext p cl h) c = messagesOf h c ++
    match hub_pubs h !! p with
    | Some pb => if decide (cl ∈ pb_left pb) then if decide (cl = c) then if hears h (pb_channel pb) cl then [payload (pb_channel pb) (pb_message pb)] else [] else [] else []
    | None => []
    end.
Proof.
  intros Hset. rewrite offerNext_spec by done. destruct (hub_pubs h !! p) as [pb|]; [|by rewrite app_nil_r]. case_decide; [|by rewrite app_nil_r]. cbv zeta.
  unfold messagesOf. cbn [hub_clients]. destruct (hears h (pb_channel pb) cl) eqn:Eh; [|case_decide; by rewrite app_nil_r].
  case_decide as Ec; [subst|by rewrite lookup_alter_ne, app_nil_r]. rewrite lookup_alter_eq. unfold hears in Eh. destruct (hub_clients h !! c) as [s|]; [|done].
  cbn. unfold messages, with_queue. cbn [sb_writes sb_sendCh]. destruct (sb_sendCh s) as [q|]; [|by rewrite andb_false_r in Eh]. cbn. by rewrite app_assoc.
Qed.

Lemma messages_heard evs c : messagesOf (run evs) c = heard c evs.
Proof.
  unfold heard. induction evs as [|ev evs IH]; [done|]. cbn [PubSub.run offers]. rewrite omap_app, <- IH. set (h := run evs).
  destruct ev as [cl|cl chs|cl args|cl|cl|cl ok|p ch msg|p cl|p]; cbn [omap]; rewrite ?app_nil_r; unfold PubSub.happen.
  - destruct (hub_clients h !! cl) eqn:E; [done|]. unfold messagesOf. cbn [with_hub hub_clients]. destruct (decide (c = cl)) as [->|]; [by rewrite lookup_insert_eq, E|by rewrite lookup_insert_ne].
  - eapply messages_alter; [done|]. intros s. unfold onIdle. case_match; [|done]. unfold startPubSubPump, messages. by destruct (sb_sendCh s) eqn:E; cbn; rewrite ?E.
  - eapply messages_alter; [done|]. intros s. unfold onIdle. by case_match.
  - eapply messages_alter; [done|]. intros s. unfold onIdle. by case_match.
  - apply messages_act.
  - eapply messages_alter; [done|]. intros s. apply messages_pump.
  - unfold beginPublish. by repeat case_match.
  - rewrite messages_offer by apply run_settled. f_equal. destruct (hub_pubs h !! p) as [pb|]; [|done]. case_decide; [|done]. cbn. case_decide; [|done]. by destruct (hears _ _ _).
  - unfold endPublish. by repeat case_match.
Qed.

(** The account of a publication: its offers so far and those still to make are
    one for each client that was subscribed when it began. *)
Definition account (p : nat) (evs : list event) (channel message : bytes) (left : gset nat) (n : Z) : Prop :=
  exists set, started p evs = Some (channel, message, set) /\
    map (fun o => o.1.1.2) (offersOf p evs) ++ elements left ≡ₚ elements set /\
    Forall (fun o => o.1.2 = payload channel message) (offersOf p evs) /\
    n = Z.of_nat (length (filter (fun o => o.2 = true) (offersOf p evs))).
Definition accounted (p : nat) (evs : list event) : Prop :=
  match hub_pubs (run evs) !! p, hub_answers (run evs) !! p with
  | Some pb, None => account p evs (pb_channel pb) (pb_message pb) (pb_left pb) (pb_delivered pb)
  | None, Some n => exists channel message, account p evs channel message ∅ n
  | None, None => started p evs = None /\ offersOf p evs = []
  | Some _, Some _ => False
  end.

(** Events that do not concern a publication. *)
Lemma accounted_other p ev evs :
  hub_pubs (happen (run evs) ev) !! p = hub_pubs (run evs) !! p -> hub_answers (happen (run evs) ev) !! p = hub_answers (run evs) !! p ->
  started p (ev :: evs) = started p evs -> offersOf p (ev :: evs) = offersOf p evs -> accounted p evs -> accounted p (ev :: evs).
Proof. intros E1 E2 E3 E4 H. unfold accounted, account in *. cbn [PubSub.run]. rewrite E1, E2, E3, E4. exact H. Qed.

Lemma act_pubs cl h : hub_pubs (act cl h) = hub_pubs h /\ hub_answers (act cl h) = hub_answers h.
Proof. unfold act. destruct (hub_clients h !! cl) as [s|]; [|done]. destruct (sb_todo s) as [|a todo]; [done|]. destruct (waits a h); [done|]. by destruct a. Qed.

Lemma offersOf_cons p ev evs : offersOf p (ev :: evs) = offersOf p evs ++ filter (fun o => o.1.1.1 = p)
  (match ev with
   | EOffer p c =>
       match hub_pubs (run evs) !! p with
       | Some pb => if decide (c ∈ pb_left pb) then [(p, c, payload (pb_channel pb) (pb_message pb), hears (run evs) (pb_channel pb) c)] else []
       | None => []
       end
   | _ => []
   end).
Proof. apply filter_app. Qed.

Lemma started_other p ev evs : (forall ch msg, ev <> EPublish p ch msg) -> started p (ev :: evs) = started p evs.
Proof. intros H. cbn. destruct (started p evs); [done|]. destruct ev as [| | | | | |p' ch msg| |]; try done. case_decide; [subst; by destruct (H ch msg)|done]. Qed.

Lemma accounted_publish p p' ch msg evs : accounted p evs -> accounted p (EPublish p' ch msg :: evs).
Proof.
  intros H. assert (offersOf p (EPublish p' ch msg :: evs) = offersOf p evs) as Eo by (rewrite offersOf_cons; apply app_nil_r).
  destruct (decide (p' = p)) as [->|Hne].
  2:{ apply accounted_other; [| | |done|done].
      - cbn. unfold beginPublish. destruct (hub_pubs (run evs) !! p'), (hub_answers (run evs) !! p'); try done. cbn. by rewrite lookup_insert_ne.
      - cbn. unfold beginPublish. by destruct (hub_pubs (run evs) !! p'), (hub_answers (run evs) !! p').
      - apply started_other. intros ? ? [= ->]. done. }
  unfold accounted in *. cbn [PubSub.run PubSub.happen]. unfold beginPublish. destruct (hub_pubs (run evs) !! p) as [pb|] eqn:Ep, (hub_answers (run evs) !! p) as [n|] eqn:Ea; rewrite ?Ep, ?Ea; try done.
  - destruct H as (set & Hs & H). exists set. cbn [started]. rewrite Hs, Eo. done.
  - destruct H as (c & m & set & Hs & H). exists c, m, set. cbn [started]. rewrite Hs, Eo. done.
  - cbn [hub_pubs hub_answers]. rewrite lookup_insert_eq, Ea. destruct H as [Hs Ho]. exists (members (run evs) ch). cbn [started]. rewrite Hs, decide_True, Eo, Ho by done.
    split; [done|]. split; [done|]. split; [constructor|done].
Qed.

Lemma accounted_offer p p' cl evs : accounted p evs -> accounted p (EOffer p' cl :: evs).
Proof.
  intros H. pose proof (started_other p (EOffer p' cl) evs ltac:(done)) as Es. pose proof (run_settled evs) as Hset.
  destruct (decide (p' = p)) as [->|Hne].
  2:{ apply accounted_other; [| |done| |done].
      - cbn. rewrite offerNext_spec by done. destruct (hub_pubs (run evs) !! p') as [pb|]; [|done]. case_decide; [|done]. cbn. by rewrite lookup_insert_ne.
      - cbn. rewrite offerNext_spec by done. destruct (hub_pubs (run evs) !! p') as [pb|]; [|done]. by case_decide.
      - rewrite offersOf_cons. destruct (hub_pubs (run evs) !! p') as [pb|]; [|apply app_nil_r]. case_decide; [|apply app_nil_r]. rewrite filter_cons_False, filter_nil by done. apply app_nil_r. }
  pose proof (offersOf_cons p (EOffer p cl) evs) as Eo. unfold accounted in *. cbn [PubSub.run PubSub.happen]. rewrite offerNext_spec by done.
  destruct (hub_pubs (run evs) !! p) as [pb|] eqn:Ep; [|rewrite filter_nil, app_nil_r in Eo; rewrite Ep; unfold account in *; rewrite Es, Eo; exact H].
  case_decide as Hin; [|rewrite filter_nil, app_nil_r in Eo; rewrite Ep; unfold account in *; rewrite Es, Eo; exact H].
  cbv zeta. cbn [hub_pubs hub_answers]. rewrite lookup_insert_eq. destruct (hub_answers (run evs) !! p); [done|].
  destruct H as (set & Hs & Hp & Hf & Hn). exists set. cbn [pb_channel pb_message pb_left pb_delivered]. rewrite Es, Eo, filter_cons_True, filter_nil by done.
  split; [done|]. rewrite map_app, filter_app, length_app, Forall_app, Forall_singleton. cbn [map fst snd]. split; [|split; [done|]].
  - rewrite <- Hp, <- app_assoc. f_equiv. rewrite (union_difference_singleton_L cl (pb_left pb) Hin) at 2. rewrite elements_union_singleton by set_solver. done.
  - destruct (hears (run evs) (pb_channel pb) cl); [rewrite filter_cons_True by done|rewrite filter_cons_False by done]; cbn [length filter Z.b2z]; rewrite filter_nil; cbn [length]; lia.
Qed.

Lemma accounted_return p p' evs : accounted p evs -> accounted p (EReturn p' :: evs).
Proof.
  intros H. pose proof (started_other p (EReturn p') evs ltac:(done)) as Es. assert (offersOf p (EReturn p' :: evs) = offersOf p evs) as Eo by (rewrite offersOf_cons; apply app_nil_r).
  destruct (decide (p' = p)) as [->|Hne].
  2:{ apply accounted_other; [| |done|done|done]; cbn; unfold endPublish; destruct (hub_pubs (run evs) !! p'); [|done| |done]; case_decide; [|done| |done]; cbn; [by rewrite lookup_delete_ne|by rewrite lookup_insert_ne]. }
  unfold accounted in *. cbn [PubSub.run PubSub.happen]. unfold endPublish.
  destruct (hub_pubs (run evs) !! p) as [pb|] eqn:Ep; [|rewrite Ep; unfold account in *; rewrite Es, Eo; exact H].
  case_decide as El; [|rewrite Ep; unfold account in *; rewrite Es, Eo; exact H].
  cbn [hub_pubs hub_answers]. rewrite lookup_delete_eq, lookup_insert_eq. destruct (hub_answers (run evs) !! p); [done|]. rewrite El in H.
  exists (pb_channel pb), (pb_message pb). unfold account in *. by rewrite Es, Eo.
Qed.

Lemma run_accounted p evs : accounted p evs.
Proof.
  induction evs as [|ev evs IH]; [by unfold accounted; cbn; rewrite !lookup_empty|].
  destruct ev as [cl|cl chs|cl args|cl|cl|cl ok|p' ch msg|p' cl|p']; [..|by apply accounted_publish|by apply accounted_offer|by apply accounted_return].
  all: apply accounted_other; [| |by apply started_other|rewrite offersOf_cons; apply app_nil_r|done]; cbn; try done.
  1,2: by case_match. all: by rewrite ?(proj1 (act_pubs cl (run evs))), ?(proj2 (act_pubs cl (run evs))).
Qed.

Definition waiting (h : pubsubHub) (c : nat) : list bytes := default [] (hub_clients h !! c ≫= sb_sendCh).

(** C18. Messages reach their subscribers. In every run of connections, in
    which the requests of the clients, their actions one lock at a time, the
    pumps and their failed writes, the loops of concurrent publications one
    client at a time, new connections and lost ones alternate, and in which
    subscribing and unsubscribing wait for the publications under way: the hub
    and the clients agree on who is subscribed to what, and the hub keeps no
    channel without subscribers; at most 128 messages wait for a client; what a
    client's pump has taken and what waits for it is exactly what was offered
    to it while its channel had space, in the order of the offers; and a
    publication that has returned has made one offer, of its own message, to
    each client that was subscribed to its channel when it began, and its
    answer is the number of clients whose channel had space. *)
Theorem messages_reach_subscribers evs : let h := run evs in
  consistent h /\
  (forall c, (length (waiting h c) <= 128)%nat) /\
  (forall c, messagesOf h c = heard c evs) /\
  (forall p, match hub_answers h !! p with
             | Some n => exists channel message set,
                 started p evs = Some (channel, message, set) /\
                 map (fun o => o.1.1.2) (offersOf p evs) ≡ₚ elements set /\
                 Forall (fun o => o.1.2 = payload channel message) (offersOf p evs) /\
                 n = Z.of_nat (length (filter (fun o => o.2 = true) (offersOf p evs)))
             | None => True
             end).
Proof.
  intros h. pose proof (run_settled evs) as Hset. split; [apply Hset|]. split; [|split].
  - intros c. unfold waiting. destruct (hub_clients h !! c) as [s|] eqn:E; cbn; [|lia]. destruct (sb_sendCh s) as [q|] eqn:Eq; cbn; [|lia]. by apply (sd_proper h Hset c s E).
  - intros c. apply messages_heard.
  - intros p. destruct (hub_answers h !! p) as [n|] eqn:E; [|done]. pose proof (run_accounted p evs) as H. unfold accounted in H. fold h in H. rewrite E in H.
    destruct (hub_pubs h !! p); [done|]. destruct H as (ch & msg & set & Hs & Hp & H). exists ch, msg, set. rewrite elements_empty, app_nil_r in Hp. done.
Qed.
End runs.
