(* ===== verification/Lru.v ===== *)
(** * The block cache ([cache/lru.go])

    Shards of doubly linked lists between two sentinels, with a table from keys
    to nodes.  Nodes live on a heap and are updated in place through their
    pointers; following a nil pointer is a panic, [None]. *)
From S2P Require Import Prelude.

(** ** Nodes and pointers *)

Record node := mkLruNode { n_key : bytes; n_val : bytes; n_prev : option nat; n_next : option nat }.
Notation heap := (gmap nat node).

Definition getNext (h : heap) (a : nat) : option nat := h !! a ≫= n_next.
Definition getPrev (h : heap) (a : nat) : option nat := h !! a ≫= n_prev.
(** [a.next = x], [a.prev = x], [a.val = v] *)
Definition setNext (h : heap) (a : nat) (x : option nat) : option heap := n ← h !! a; Some (<[a := mkLruNode (n_key n) (n_val n) (n_prev n) x]> h).
Definition setPrev (h : heap) (a : nat) (x : option nat) : option heap := n ← h !! a; Some (<[a := mkLruNode (n_key n) (n_val n) x (n_next n)]> h).
Definition setVal (h : heap) (a : nat) (v : bytes) : option heap := n ← h !! a; Some (<[a := mkLruNode (n_key n) v (n_prev n) (n_next n)]> h).

(** [sh_heap] holds the nodes of a shard, [sh_fresh] is the next address. *)
Record shard := mkShard { sh_cap : Z; sh_tbl : gmap bytes nat; sh_head : nat; sh_tail : nat; sh_heap : heap; sh_fresh : nat }.

Definition pushFront (s : shard) (h : heap) (n : nat) : option heap :=
  h ← setPrev h n (Some (sh_head s));
  h ← setNext h n (getNext h (sh_head s));
  first ← getNext h (sh_head s);
  h ← setPrev h first (Some n);
  setNext h (sh_head s) (Some n).

Definition unlink (h : heap) (n : nat) : option heap :=
  p ← getPrev h n;
  h ← setNext h p (getNext h n);
  q ← getNext h n;
  setPrev h q (getPrev h n).

Definition promote (s : shard) (h : heap) (n : nat) : option heap := h ← unlink h n; pushFront s h n.

Definition with_heap (s : shard) (h : heap) : shard := mkShard (sh_cap s) (sh_tbl s) (sh_head s) (sh_tail s) h (sh_fresh s).

Definition evictOldest (s : shard) : option shard :=
  victim ← getPrev (sh_heap s) (sh_tail s);
  if bool_decide (victim = sh_head s) then Some s
  else
    h ← unlink (sh_heap s) victim;
    n ← h !! victim;
    Some (mkShard (sh_cap s) (delete (n_key n) (sh_tbl s)) (sh_head s) (sh_tail s) h (sh_fresh s)).

Definition shard_Get (s : shard) (key : bytes) : option (option bytes * shard) :=
  match sh_tbl s !! key with
  | None => Some (None, s)
  | Some n => h ← promote s (sh_heap s) n; x ← h !! n; Some (Some (n_val x), with_heap s h)
  end.

Definition shard_Put (s : shard) (key value : bytes) : option shard :=
  match sh_tbl s !! key with
  | Some n => h ← setVal (sh_heap s) n value; h ← promote s h n; Some (with_heap s h)
  | None =>
      s ← (if sh_cap s <=? Z.of_nat (size (sh_tbl s)) then evictOldest s else Some s);
      let n := sh_fresh s in
      h ← pushFront s (<[n := mkLruNode key value None None]> (sh_heap s)) n;
      Some (mkShard (sh_cap s) (<[key := n]> (sh_tbl s)) (sh_head s) (sh_tail s) h (n + 1))
  end.

(** ** The cache *)

Definition newShard (cap : Z) : shard :=
  mkShard cap ∅ 0 1 (<[0%nat := mkLruNode [] [] None (Some 1%nat)]> (<[1%nat := mkLruNode [] [] (Some 0%nat) None]> ∅)) 2.

Definition NewLRUCache (capacity : Z) : list shard :=
  let capacity := if capacity <=? 0 then 128 else capacity in
  let nShards := if capacity <? 16 then capacity else 16 in
  let nShards := if nShards <? 1 then 1 else nShards in
  let perShard := capacity / nShards in
  let perShard := if perShard <? 1 then 1 else perShard in
  let remainder := capacity mod nShards in
  (fun i => newShard (if Z.of_nat i <? remainder then perShard + 1 else perShard)) <$> seq 0 (Z.to_nat nShards).

Section cache.
(** [maphash] with the seed of the cache: some function of the key. *)
Context (hash : bytes -> Z).

Definition getShard (shards : list shard) (key : bytes) : nat := Z.to_nat (u64 (hash key) mod Z.of_nat (length shards)).

Definition LRUCache_Get (c : list shard) (key : bytes) : option (option bytes * list shard) :=
  let i := getShard c key in
  s ← c !! i; r ← shard_Get s key; Some (r.1, <[i := r.2]> c).
Definition LRUCache_Put (c : list shard) (key value : bytes) : option (list shard) :=
  let i := getShard c key in
  s ← c !! i; s ← shard_Put s key value; Some (<[i := s]> c).

Inductive lru_op := LGet (key : bytes) | LPut (key value : bytes).

(** The answers, one for each operation; a put answers nothing. *)
Fixpoint cacheRun (c : list shard) (ops : list lru_op) : option (list (option bytes) * list shard) :=
  match ops with
  | [] => Some ([], c)
  | LGet k :: ops => r ← LRUCache_Get c k; rest ← cacheRun r.2 ops; Some (r.1 :: rest.1, rest.2)
  | LPut k v :: ops => c ← LRUCache_Put c k v; rest ← cacheRun c ops; Some (None :: rest.1, rest.2)
  end.
End cache.

(** ** The list between the sentinels *)

Definition link (h : heap) (a b : nat) : Prop := getNext h a = Some b /\ getPrev h b = Some a.
Fixpoint links (h : heap) (F : list nat) : Prop :=
  match F with
  | a :: F => match F with b :: _ => link h a b | [] => True end /\ links h F
  | [] => True
  end.

Lemma links_app h A p B : links h (A ++ p :: B) <-> links h (A ++ [p]) /\ links h (p :: B).
Proof.
  induction A as [|a A IH]; [cbn; tauto|]. destruct A as [|a' A]; [cbn in *; tauto|]. cbn [app links] in *. tauto.
Qed.

Lemma links_frame h h' F : links h F -> (forall x, x ∈ F -> last F <> Some x -> getNext h' x = getNext h x) ->
  (forall x, x ∈ F -> head F <> Some x -> getPrev h' x = getPrev h x) -> NoDup F -> links h' F.
Proof.
  induction F as [|a F IH]; intros Hl Hn Hp Hnd; [done|]. apply NoDup_cons in Hnd as [Ha Hnd]. destruct Hl as [Hab Hl]. destruct F as [|b F]; [done|].
  split.
  - destruct Hab as [H1 H2]. split; [rewrite Hn; [done|set_solver|]|rewrite Hp; [done|set_solver|]].
    + rewrite last_cons. destruct (last (b :: F)) as [z|] eqn:Ez; [|by apply last_None in Ez]. intros [= ->]. apply last_Some_elem_of in Ez. done.
    + intros [= ->]. set_solver.
  - apply IH; [done| |intros x Hx Hh; apply Hp; [set_solver|intros [= ->]; set_solver]|done].
    intros x Hx Hh. apply Hn; [set_solver|]. rewrite last_cons. intros Ez. apply Hh. destruct (last (b :: F)) eqn:El; [done|by apply last_None in El].
Qed.

Definition cont (h : heap) (a : nat) : option (bytes * bytes) := (fun n => (n_key n, n_val n)) <$> h !! a.

(** What a write does to the pointers. *)
Lemma setNext_spec h a x : is_Some (h !! a) -> exists h', setNext h a x = Some h' /\
  (forall y, getNext h' y = if decide (y = a) then x else getNext h y) /\ (forall y, getPrev h' y = getPrev h y) /\
  (forall y, cont h' y = cont h y).
Proof.
  intros [n Hn]. unfold setNext. rewrite Hn. eexists. split; [done|]. unfold getNext, getPrev, cont.
  split; [|split]; intros y; (destruct (decide (y = a)) as [->|]; [rewrite lookup_insert_eq|rewrite lookup_insert_ne by done]); rewrite ?Hn; done.
Qed.

Lemma setPrev_spec h a x : is_Some (h !! a) -> exists h', setPrev h a x = Some h' /\
  (forall y, getPrev h' y = if decide (y = a) then x else getPrev h y) /\ (forall y, getNext h' y = getNext h y) /\
  (forall y, cont h' y = cont h y).
Proof.
  intros [n Hn]. unfold setPrev. rewrite Hn. eexists. split; [done|]. unfold getNext, getPrev, cont.
  split; [|split]; intros y; (destruct (decide (y = a)) as [->|]; [rewrite lookup_insert_eq|rewrite lookup_insert_ne by done]); rewrite ?Hn; done.
Qed.

Lemma next_dom h a b : getNext h a = Some b -> is_Some (h !! a).
Proof. unfold getNext. by destruct (h !! a). Qed.
Lemma prev_dom h a b : getPrev h a = Some b -> is_Some (h !! a).
Proof. unfold getPrev. by destruct (h !! a). Qed.
Lemma cont_dom h h' : (forall y, cont h' y = cont h y) -> forall y, is_Some (h !! y) -> is_Some (h' !! y).
Proof. intros H y [n Hn]. specialize (H y). unfold cont in H. rewrite Hn in H. by destruct (h' !! y). Qed.

Lemma unlink_spec h A p n q B : links h (A ++ p :: n :: q :: B) -> NoDup (A ++ p :: n :: q :: B) ->
  exists h', unlink h n = Some h' /\ links h' (A ++ p :: q :: B) /\ forall y, cont h' y = cont h y.
Proof.
  intros Hl Hnd. apply links_app in Hl as [HA Hl]. destruct Hl as [[Hpn Hnp] [[Hnq Hqn] HB]].
  assert (p <> n /\ q <> n /\ p <> q /\ (forall x, x ∈ A -> x <> p /\ x <> q /\ x <> n) /\ (forall x, x ∈ B -> x <> p /\ x <> q)) as (D1 & D2 & D3 & DA & DB).
  { apply NoDup_app in Hnd as (_ & Hd & Hnd). rewrite !NoDup_cons in Hnd. set_solver. }
  unfold unlink. rewrite Hnp. cbn [mbind option_bind].
  destruct (setNext_spec h p (getNext h n) (next_dom _ _ _ Hpn)) as (h1 & -> & N1 & P1 & C1). cbn [mbind option_bind].
  assert (getNext h1 n = Some q) as E1 by (rewrite N1, decide_False by done; done). rewrite E1. cbn [mbind option_bind].
  destruct (setPrev_spec h1 q (getPrev h1 n) (cont_dom _ _ C1 _ (prev_dom _ _ _ Hqn))) as (h2 & -> & P2 & N2 & C2).
  exists h2. split; [done|]. split; [|intros y; by rewrite C2].
  apply NoDup_app in Hnd as (HndA & Hd & Hnd). rewrite !NoDup_cons in Hnd. destruct Hnd as (_ & _ & Hq & HndB).
  apply links_app. split; [|split; [split|]].
  - apply (links_frame h); [done| | |].
    + intros x Hx Hla. rewrite N2, N1, decide_False; [done|]. intros ->. apply Hla. by rewrite last_snoc.
    + intros x Hx _. rewrite P2, P1, decide_False; [done|]. apply elem_of_app in Hx as [Hx|Hx]; [by apply DA|]. apply list_elem_of_singleton in Hx. congruence.
    + apply NoDup_app. split; [done|]. split; [|apply NoDup_singleton]. intros x Hx Hp. apply list_elem_of_singleton in Hp as ->. by destruct (DA p Hx) as [? _].
  - by rewrite N2, N1, decide_True.
  - by rewrite P2, decide_True, P1, Hnp.
  - apply (links_frame h); [done| | |by apply NoDup_cons].
    + intros x Hx _. rewrite N2, N1, decide_False; [done|]. apply elem_of_cons in Hx as [->|Hx]; [done|by apply DB].
    + intros x Hx Hh. rewrite P2, P1, decide_False; [done|]. intros ->. by apply Hh.
Qed.

Lemma pushFront_spec s h n b B : links h (sh_head s :: b :: B) -> NoDup (n :: sh_head s :: b :: B) -> is_Some (h !! n) ->
  exists h', pushFront s h n = Some h' /\ links h' (sh_head s :: n :: b :: B) /\ forall y, cont h' y = cont h y.
Proof.
  intros Hl Hnd Hn. set (hd := sh_head s) in *. destruct Hl as [[Hhb Hbh] HB]. rewrite !NoDup_cons in Hnd. destruct Hnd as (H1 & H2 & H3 & HndB).
  assert (n <> hd /\ n <> b /\ hd <> b /\ (forall x, x ∈ B -> x <> n /\ x <> hd /\ x <> b)) as (D1 & D2 & D3 & DB) by set_solver.
  unfold pushFront. fold hd. destruct (setPrev_spec h n (Some hd) Hn) as (h1 & -> & P1 & N1 & C1). cbn [mbind option_bind].
  destruct (setNext_spec h1 n (getNext h1 hd) (cont_dom _ _ C1 _ Hn)) as (h2 & -> & N2 & P2 & C2). cbn [mbind option_bind].
  assert (getNext h2 hd = Some b) as -> by (rewrite N2, decide_False, N1 by done; done). cbn [mbind option_bind].
  assert (forall y, is_Some (h !! y) -> is_Some (h2 !! y)) as Hd by (intros y Hy; apply (cont_dom h); [intros z; by rewrite C2|done]).
  destruct (setPrev_spec h2 b (Some n) (Hd _ (prev_dom _ _ _ Hbh))) as (h3 & -> & P3 & N3 & C3). cbn [mbind option_bind].
  destruct (setNext_spec h3 hd (Some n) (cont_dom _ _ C3 _ (Hd _ (next_dom _ _ _ Hhb)))) as (h4 & -> & N4 & P4 & C4).
  exists h4. split; [done|]. split; [|intros y; by rewrite C4, C3, C2].
  split; [split|split; [split|]].
  - by rewrite N4, decide_True.
  - by rewrite P4, P3, decide_False, P2, P1, decide_True by done.
  - rewrite N4, decide_False, N3, N2, decide_True, N1 by done. done.
  - by rewrite P4, P3, decide_True.
  - apply (links_frame h); [done| | |by apply NoDup_cons].
    + intros x Hx _. assert (x <> hd /\ x <> n) as [? ?] by (apply elem_of_cons in Hx as [->|Hx]; [done|split; by apply DB]).
      by rewrite N4, decide_False, N3, N2, decide_False, N1 by done.
    + intros x Hx Hh. assert (x <> b) by (intros ->; by apply Hh). assert (x <> n) by (apply elem_of_cons in Hx as [->|Hx]; [done|by apply DB]).
      by rewrite P4, P3, decide_False, P2, P1, decide_False by done.
Qed.

(** ** A shard as a list *)

(** The entries with their nodes, the last used first. *)
Notation ent := (nat * (bytes * bytes))%type.
Definition chain (s : shard) (es : list ent) : list nat := sh_head s :: es.*1 ++ [sh_tail s].

Record shard_rep (s : shard) (es : list ent) : Prop := {
  sr_links : links (sh_heap s) (chain s es);
  sr_nodup : NoDup (chain s es);
  sr_cont : Forall (fun e => cont (sh_heap s) e.1 = Some e.2) es;
  sr_keys : NoDup (es.*2.*1);
  sr_tbl : sh_tbl s = list_to_map ((fun e => (e.2.1, e.1)) <$> es);
  sr_fresh : forall a, is_Some (sh_heap s !! a) -> (a < sh_fresh s)%nat;
}.

Lemma links_dom h a b F x : links h (a :: b :: F) -> x ∈ a :: b :: F -> is_Some (h !! x).
Proof.
  revert a b. induction F as [|c F IH]; intros a b [[H1 H2] Hl] Hx.
  - apply elem_of_cons in Hx as [->|Hx%list_elem_of_singleton]; [by eapply next_dom|subst; by eapply prev_dom].
  - apply elem_of_cons in Hx as [->|Hx]; [by eapply next_dom|by apply (IH b c)].
Qed.

Lemma chain_dom s es x : shard_rep s es -> x ∈ chain s es -> is_Some (sh_heap s !! x).
Proof. intros [Hl _ _ _ _ _] Hx. unfold chain in *. destruct (es.*1 ++ [sh_tail s]) as [|b F] eqn:E; [by destruct es|]. exact (links_dom _ _ b F x Hl Hx). Qed.

Lemma tbl_keys (es : list ent) : ((fun e => (e.2.1, e.1)) <$> es).*1 = es.*2.*1.
Proof. by rewrite <- !list_fmap_compose. Qed.

Lemma tbl_lookup s es k n : shard_rep s es -> sh_tbl s !! k = Some n <-> exists v, (n, (k, v)) ∈ es.
Proof.
  intros Hr. rewrite (sr_tbl _ _ Hr), <- elem_of_list_to_map by (rewrite tbl_keys; apply Hr). rewrite list_elem_of_fmap. split.
  - intros ([n' [k' v]] & [= -> ->] & He). by exists v.
  - intros [v He]. by exists (n, (k, v)).
Qed.

(** The same entries in another order. *)
Lemma rep_reorder s h es es' : shard_rep s es -> es' ≡ₚ es -> links h (chain s es') -> (forall y, cont h y = cont (sh_heap s) y) -> shard_rep (with_heap s h) es'.
Proof.
  intros [H1 H2 H3 H4 H5 H6] Hp Hl Hc. split; cbn [with_heap sh_heap sh_tbl sh_fresh].
  - done.
  - unfold chain in *. cbn. rewrite Hp. done.
  - rewrite Hp. apply Forall_forall. intros e He. rewrite Hc. rewrite Forall_forall in H3. by apply H3.
  - by rewrite Hp.
  - rewrite H5. apply list_to_map_proper; [by rewrite tbl_keys|by rewrite Hp].
  - intros a Ha. apply H6. by apply (cont_dom h); [intros y; by rewrite Hc|].
Qed.

Lemma promote_rep s A e B : shard_rep s (A ++ e :: B) -> exists h, promote s (sh_heap s) e.1 = Some h /\ shard_rep (with_heap s h) (e :: A ++ B).
Proof.
  intros Hr. pose proof (sr_links _ _ Hr) as Hl. pose proof (sr_nodup _ _ Hr) as Hnd. unfold chain in Hl, Hnd. rewrite fmap_app, fmap_cons, <- app_assoc in Hl, Hnd.
  destruct (exists_last (l := sh_head s :: A.*1)) as (A' & p & EA); [done|]. destruct (B.*1 ++ [sh_tail s]) as [|q B'] eqn:EB; [by destruct B|].
  assert (forall X, sh_head s :: A.*1 ++ X = A' ++ p :: X) as EX by (intros X; change (sh_head s :: A.*1 ++ X) with ((sh_head s :: A.*1) ++ X); by rewrite EA, <- app_assoc).
  cbn [app] in Hl, Hnd. rewrite EB, EX in Hl, Hnd. unfold promote. destruct (unlink_spec _ _ _ _ _ _ Hl Hnd) as (h1 & -> & Hl1 & C1). cbn [mbind option_bind].
  rewrite <- EX, <- EB in Hl1. rewrite <- EX, <- EB in Hnd. destruct (A.*1 ++ B.*1 ++ [sh_tail s]) as [|b F] eqn:EF; [by destruct A, B|].
  destruct (pushFront_spec s h1 e.1 b F) as (h2 & -> & Hl2 & C2); [done| | |].
  - rewrite <- EF. assert (sh_head s :: A.*1 ++ e.1 :: B.*1 ++ [sh_tail s] ≡ₚ e.1 :: sh_head s :: A.*1 ++ B.*1 ++ [sh_tail s]) as Hp by (rewrite <- Permutation_middle; apply Permutation_swap).
    by rewrite <- Hp.
  - apply (cont_dom (sh_heap s)); [done|]. apply (chain_dom s _ _ Hr). unfold chain. rewrite fmap_app. set_solver.
  - exists h2. split; [done|]. apply (rep_reorder s h2 (A ++ e :: B)); [done|by rewrite Permutation_middle| |intros y; by rewrite C2].
    unfold chain. rewrite fmap_cons, fmap_app. cbn [app]. rewrite <- app_assoc, EF. exact Hl2.
Qed.

Lemma rep_with_heap s es : shard_rep s es -> shard_rep (with_heap s (sh_heap s)) es.
Proof. by destruct s. Qed.

Lemma evict_rep s es : shard_rep s es -> exists s', evictOldest s = Some s' /\ shard_rep s' (removelast es) /\ sh_cap s' = sh_cap s.
Proof.
  intros Hr. destruct es as [|e es _] using rev_ind.
  { exists s. pose proof (sr_links _ _ Hr) as [[_ Hp] _]. unfold evictOldest. cbn in Hp. rewrite Hp. cbn. by rewrite bool_decide_true. }
  rewrite removelast_last. pose proof (sr_links _ _ Hr) as Hl. pose proof (sr_nodup _ _ Hr) as Hnd. unfold chain in Hl, Hnd. rewrite fmap_app, <- app_assoc in Hl, Hnd. cbn [fmap list_fmap app] in Hl, Hnd.
  destruct (exists_last (l := sh_head s :: es.*1)) as (A' & p & EA); [done|].
  assert (forall X, sh_head s :: es.*1 ++ X = A' ++ p :: X) as EX by (intros X; change (sh_head s :: es.*1 ++ X) with ((sh_head s :: es.*1) ++ X); by rewrite EA, <- app_assoc).
  assert (e.1 <> sh_head s) as Hne by (intros E; rewrite <- E in Hnd; apply NoDup_cons in Hnd as [Hnd _]; set_solver).
  assert (getPrev (sh_heap s) (sh_tail s) = Some e.1) as Hp by (rewrite EX in Hl; apply links_app in Hl as [_ [_ [[_ Hp] _]]]; done).
  rewrite EX in Hl, Hnd. destruct (unlink_spec _ _ _ _ _ _ Hl Hnd) as (h1 & Hu & Hl1 & C1). rewrite <- EX in Hl1, Hnd.
  pose proof (sr_cont _ _ Hr) as Hc. apply Forall_app in Hc as [Hc He%Forall_cons]. destruct He as [He _]. pose proof (C1 e.1) as Ce. rewrite He in Ce. unfold cont in Ce.
  destruct (h1 !! e.1) as [x|] eqn:Ex; [|done]. cbn in Ce. injection Ce as Ce.
  unfold evictOldest. rewrite Hp. cbn [mbind option_bind]. rewrite bool_decide_false by done. rewrite Hu. cbn [mbind option_bind]. rewrite Ex. cbn [mbind option_bind].
  eexists. split; [done|]. split; [|done]. pose proof (sr_keys _ _ Hr) as Hk. rewrite !fmap_app in Hk. cbn in Hk. apply NoDup_app in Hk as (Hk & Hd & _).
  assert (n_key x = e.2.1) as -> by (rewrite <- Ce; done).
  split; cbn [sh_heap sh_tbl sh_fresh]; unfold chain; cbn [sh_head sh_tail].
  - exact Hl1.
  - eapply sublist_NoDup; [exact Hnd|]. apply sublist_skip, sublist_app; [done|]. by apply sublist_cons.
  - apply Forall_forall. intros y Hy. rewrite C1. rewrite Forall_forall in Hc. by apply Hc.
  - done.
  - rewrite (sr_tbl _ _ Hr). rewrite (list_to_map_proper _ ((fun e => (e.2.1, e.1)) <$> e :: es)).
    + cbn [fmap list_fmap list_to_map foldr fst snd]. apply delete_insert_id. apply not_elem_of_list_to_map_1. rewrite tbl_keys. intros Hx. apply (Hd _ Hx). set_solver.
    + rewrite tbl_keys. apply Hr.
    + by rewrite <- Permutation_cons_append.
  - intros a Ha. apply (sr_fresh _ _ Hr). by apply (cont_dom h1); [intros y; by rewrite C1|].
Qed.

Lemma push_rep s es k v : shard_rep s es -> sh_tbl s !! k = None -> let n := sh_fresh s in
  exists h, pushFront s (<[n := mkLruNode k v None None]> (sh_heap s)) n = Some h /\
    shard_rep (mkShard (sh_cap s) (<[k := n]> (sh_tbl s)) (sh_head s) (sh_tail s) h (n + 1)) ((n, (k, v)) :: es).
Proof.
  intros Hr Hk n. assert (forall x, x ∈ chain s es -> x <> n) as Hn by (intros x Hx ->; pose proof (sr_fresh _ _ Hr n (chain_dom s es n Hr Hx)); unfold n in *; lia).
  set (h0 := <[n := mkLruNode k v None None]> (sh_heap s)).
  assert (forall y, y <> n -> h0 !! y = sh_heap s !! y) as H0 by (intros y Hy; unfold h0; by rewrite lookup_insert_ne).
  assert (links h0 (chain s es)) as Hl.
  { apply (links_frame (sh_heap s)); [apply Hr| | |apply Hr]; intros x Hx _; unfold getNext, getPrev; by rewrite H0 by (by apply Hn). }
  destruct (es.*1 ++ [sh_tail s]) as [|b F] eqn:EF; [by destruct es|]. unfold chain in Hl, Hn. rewrite EF in Hl, Hn.
  destruct (pushFront_spec s h0 n b F Hl) as (h & -> & Hl' & C).
  { apply NoDup_cons. split; [intros Hx; by apply (Hn n)|]. rewrite <- EF. apply Hr. }
  { unfold h0. rewrite lookup_insert_eq. by eexists. }
  assert (forall y, y <> n -> cont h y = cont (sh_heap s) y) as C' by (intros y Hy; rewrite C; unfold cont; by rewrite H0).
  exists h. split; [done|]. split; cbn [sh_heap sh_tbl sh_fresh]; unfold chain; cbn [sh_head sh_tail].
  - rewrite fmap_cons. cbn [app fst]. by rewrite EF.
  - rewrite fmap_cons. cbn [app fst]. rewrite EF. pose proof (sr_nodup _ _ Hr) as Hnd. unfold chain in Hnd. rewrite EF in Hnd.
    assert (NoDup (n :: sh_head s :: b :: F)) as Hnd' by (apply NoDup_cons; split; [intros Hx; by apply (Hn n)|done]). rewrite !NoDup_cons in Hnd' |- *. set_solver.
  - apply Forall_cons. split; [rewrite C; unfold cont, h0; by rewrite lookup_insert_eq|]. apply Forall_forall. intros e He. rewrite C'.
    + pose proof (sr_cont _ _ Hr) as Hc. rewrite Forall_forall in Hc. by apply Hc.
    + apply Hn. rewrite <- EF. apply elem_of_cons; right. apply elem_of_app; left. by apply list_elem_of_fmap_2.
  - cbn. apply NoDup_cons. split; [|apply Hr]. intros ([k' v'] & E & ([n' kv] & E' & He)%list_elem_of_fmap)%list_elem_of_fmap. cbn in *. subst.
    assert (sh_tbl s !! k' = Some n') as Hx by (apply (tbl_lookup s es); [done|by exists v']). congruence.
  - cbn. by rewrite (sr_tbl _ _ Hr).
  - intros a [x Ha]. destruct (decide (a = n)) as [->|Hne]; [lia|]. specialize (C' a Hne). unfold cont in C'. rewrite Ha in C'.
    assert (is_Some (sh_heap s !! a)) as Hd by (by destruct (sh_heap s !! a)). pose proof (sr_fresh _ _ Hr a Hd). unfold n. lia.
Qed.

(** ** The reference *)

(** A shard as a list of keys and values, the last used first. *)
Notation kvs := (list (bytes * bytes)).
Fixpoint findKey (k : bytes) (l : kvs) : option bytes :=
  match l with [] => None | e :: l => if decide (e.1 = k) then Some e.2 else findKey k l end.
Definition touch (k v : bytes) (l : kvs) : kvs := (k, v) :: filter (fun e => e.1 <> k) l.
Definition lru_Get (k : bytes) (l : kvs) : option bytes * kvs :=
  match findKey k l with Some v => (Some v, touch k v l) | None => (None, l) end.
Definition lru_Put (cap : Z) (k v : bytes) (l : kvs) : kvs :=
  match findKey k l with Some _ => touch k v l | None => (k, v) :: (if cap <=? Z.of_nat (length l) then removelast l else l) end.

Lemma findKey_None k l : findKey k l = None <-> k ∉ l.*1.
Proof. induction l as [|[k' v] l IH]; cbn; [set_solver|]. case_decide; subst; [set_solver|]. rewrite IH. set_solver. Qed.

Lemma findKey_split k v A B : k ∉ A.*1 -> findKey k (A ++ (k, v) :: B) = Some v.
Proof. induction A as [|[k' v'] A IH]; intros Hk; cbn; [by rewrite decide_True|]. rewrite decide_False by set_solver. apply IH. set_solver. Qed.

Lemma touch_split k v v' A B : k ∉ A.*1 -> k ∉ B.*1 -> touch k v (A ++ (k, v') :: B) = (k, v) :: A ++ B.
Proof.
  intros HA HB. unfold touch. f_equal. rewrite filter_app, filter_cons_False by (cbn; tauto).
  assert (forall l : kvs, k ∉ l.*1 -> filter (fun e => e.1 <> k) l = l) as Hf.
  { induction l as [|e l IH]; intros Hl; [done|]. cbn in Hl. rewrite filter_cons_True, IH; [done|set_solver..]. }
  by rewrite !Hf.
Qed.

Definition holds (s : shard) (cap : Z) (l : kvs) : Prop := exists es, shard_rep s es /\ es.*2 = l /\ sh_cap s = cap.

(** The node of a key splits the list. *)
Lemma rep_split s es k n : shard_rep s es -> sh_tbl s !! k = Some n ->
  exists A v B, es = A ++ (n, (k, v)) :: B /\ k ∉ A.*2.*1 /\ k ∉ B.*2.*1.
Proof.
  intros Hr Hn. apply (tbl_lookup s es k n Hr) in Hn as (v & He). apply list_elem_of_split in He as (A & B & ->). exists A, v, B. split; [done|].
  pose proof (sr_keys _ _ Hr) as Hk. rewrite !fmap_app in Hk. cbn in Hk. apply NoDup_app in Hk as (_ & Hd & [Hk _]%NoDup_cons). split; [|done].
  intros Hx. apply (Hd k Hx). set_solver.
Qed.

Lemma rep_missing s es k : shard_rep s es -> sh_tbl s !! k = None -> findKey k es.*2 = None.
Proof.
  intros Hr Hn. apply findKey_None. intros ([k' v] & E & ([n kv] & E' & He)%list_elem_of_fmap)%list_elem_of_fmap. cbn in *. subst.
  rewrite (proj2 (tbl_lookup s es k' n Hr)) in Hn; [done|by exists v].
Qed.

Lemma shard_Get_refines s cap l k : holds s cap l -> exists s', shard_Get s k = Some ((lru_Get k l).1, s') /\ holds s' cap (lru_Get k l).2.
Proof.
  intros (es & Hr & <- & Hcap). unfold shard_Get, lru_Get. destruct (sh_tbl s !! k) as [n|] eqn:En.
  - destruct (rep_split s es k n Hr En) as (A & v & B & -> & HA & HB). destruct (promote_rep s A (n, (k, v)) B Hr) as (h & Ep & Hr'). cbn [fst] in Ep. rewrite Ep. cbn [mbind option_bind].
    pose proof (sr_cont _ _ Hr') as [Hc _]%Forall_cons. cbn in Hc. unfold cont in Hc. destruct (h !! n) as [x|]; [|done]. cbn in *. injection Hc as _ Ev. rewrite Ev.
    rewrite fmap_app. cbn. rewrite findKey_split by done. eexists. split; [done|]. eexists. split; [exact Hr'|]. split; [|done]. cbn. rewrite touch_split by done. by rewrite fmap_app.
  - rewrite (rep_missing s es k Hr En). eexists. split; [done|]. by exists es.
Qed.

Lemma setVal_rep s A n k v B v' : shard_rep s (A ++ (n, (k, v)) :: B) ->
  exists h, setVal (sh_heap s) n v' = Some h /\ shard_rep (with_heap s h) (A ++ (n, (k, v')) :: B).
Proof.
  intros Hr. pose proof (sr_cont _ _ Hr) as Hc. apply Forall_app in Hc as [HA [Hn HB]%Forall_cons]. cbn in Hn. unfold cont in Hn.
  destruct (sh_heap s !! n) as [x|] eqn:Ex; [|done]. cbn in Hn. injection Hn as Ek Ev. unfold setVal. rewrite Ex. cbn. eexists. split; [done|].
  set (h := <[n := _]> (sh_heap s)). assert (forall y, getNext h y = getNext (sh_heap s) y /\ getPrev h y = getPrev (sh_heap s) y /\ (y <> n -> cont h y = cont (sh_heap s) y)) as Hh.
  { intros y. unfold getNext, getPrev, cont, h. destruct (decide (y = n)) as [->|]; [rewrite lookup_insert_eq, Ex; done|by rewrite lookup_insert_ne]. }
  pose proof (sr_nodup _ _ Hr) as Hnd. assert (forall y, y ∈ A ++ B -> y.1 <> n) as Hne.
  { unfold chain in Hnd. rewrite fmap_app, <- app_assoc in Hnd. cbn in Hnd. apply NoDup_cons in Hnd as [_ Hnd]. apply NoDup_app in Hnd as (_ & Hd & [Hnd _]%NoDup_cons).
    intros y [Hy|Hy]%elem_of_app E; rewrite <- E in Hd, Hnd; [apply (Hd y.1); [by apply list_elem_of_fmap_2|set_solver]|].
    apply Hnd, elem_of_app. left. by apply list_elem_of_fmap_2. }
  assert ((A ++ (n, (k, v')) :: B).*1 = (A ++ (n, (k, v)) :: B).*1) as E1 by (by rewrite !fmap_app).
  split; cbn [with_heap sh_heap sh_tbl sh_fresh]; unfold chain; cbn [sh_head sh_tail]; rewrite ?E1.
  - apply (links_frame (sh_heap s)); [apply Hr|intros x' _ _; apply Hh..|apply Hr].
  - apply Hr.
  - apply Forall_app. split; [|apply Forall_cons; split].
    + apply Forall_forall. intros y Hy. rewrite (proj2 (proj2 (Hh y.1))) by (apply Hne, elem_of_app; by left). rewrite Forall_forall in HA. by apply HA.
    + unfold cont, h. rewrite lookup_insert_eq. cbn. by rewrite Ek.
    + apply Forall_forall. intros y Hy. rewrite (proj2 (proj2 (Hh y.1))) by (apply Hne, elem_of_app; by right). rewrite Forall_forall in HB. by apply HB.
  - pose proof (sr_keys _ _ Hr) as Hk. by rewrite !fmap_app in Hk |- *.
  - rewrite (sr_tbl _ _ Hr). by rewrite !fmap_app.
  - intros a [y Ha]. apply (sr_fresh _ _ Hr). unfold h in Ha. destruct (decide (a = n)) as [->|]; [by rewrite Ex|]. rewrite lookup_insert_ne in Ha by done. by rewrite Ha.
Qed.

Lemma shard_Put_refines s cap l k v : holds s cap l -> exists s', shard_Put s k v = Some s' /\ holds s' cap (lru_Put cap k v l).
Proof.
  intros (es & Hr & <- & Hcap). unfold shard_Put, lru_Put. destruct (sh_tbl s !! k) as [n|] eqn:En.
  - destruct (rep_split s es k n Hr En) as (A & v0 & B & -> & HA & HB). destruct (setVal_rep s A n k v0 B v Hr) as (h & -> & Hr1). cbn [mbind option_bind].
    destruct (promote_rep (with_heap s h) A (n, (k, v)) B Hr1) as (h2 & Ep & Hr2). cbn in Ep. change (promote (with_heap s h) h n) with (promote s h n) in Ep. rewrite Ep. cbn [mbind option_bind].
    rewrite fmap_app. cbn. rewrite findKey_split by done. eexists. split; [done|]. eexists. split; [exact Hr2|]. split; [|done]. cbn. rewrite touch_split by done. by rewrite fmap_app.
  - rewrite (rep_missing s es k Hr En).
    assert (size (sh_tbl s) = length es.*2) as -> by (rewrite (sr_tbl _ _ Hr), map_size_list_to_map by (rewrite tbl_keys; apply Hr); by rewrite !length_fmap).
    rewrite Hcap. destruct (cap <=? Z.of_nat (length es.*2)) eqn:Ec.
    + destruct (evict_rep s es Hr) as (s1 & Ee & Hr1 & Hc1). rewrite Ee. cbn [mbind option_bind].
      assert (sh_tbl s1 !! k = None) as En1.
      { destruct (sh_tbl s1 !! k) as [n|] eqn:E; [|done]. apply (tbl_lookup s1 _ k n Hr1) in E as (v' & He). apply (rep_missing s es k Hr) in En. apply findKey_None in En. exfalso. apply En.
        rewrite <- list_fmap_compose. apply list_elem_of_fmap. exists (n, (k, v')). split; [done|]. destruct es as [|e es _] using rev_ind; [done|]. rewrite removelast_last in He. set_solver. }
      destruct (push_rep s1 _ k v Hr1 En1) as (h & -> & Hr2). cbn [mbind option_bind]. eexists. split; [done|]. eexists. split; [exact Hr2|]. split; [|cbn; congruence]. cbn. f_equal.
      destruct es as [|e es _] using rev_ind; [done|]. rewrite fmap_app. cbn. by rewrite !removelast_last.
    + cbn [mbind option_bind]. destruct (push_rep s es k v Hr En) as (h & -> & Hr2). cbn [mbind option_bind]. eexists. split; [done|]. eexists. split; [exact Hr2|]. done.
Qed.

(** ** The whole cache *)

Section whole.
Context (hash : bytes -> Z).

(** A list for each shard with its capacity. *)
Notation lists := (list (Z * kvs)).
Definition shardOf (sp : lists) (k : bytes) : nat := Z.to_nat (u64 (hash k) mod Z.of_nat (length sp)).
Definition lists_Get (sp : lists) (k : bytes) : option bytes * lists :=
  match sp !! shardOf sp k with Some (cap, l) => let r := lru_Get k l in (r.1, <[shardOf sp k := (cap, r.2)]> sp) | None => (None, sp) end.
Definition lists_Put (sp : lists) (k v : bytes) : lists :=
  match sp !! shardOf sp k with Some (cap, l) => <[shardOf sp k := (cap, lru_Put cap k v l)]> sp | None => sp end.
Fixpoint listsRun (sp : lists) (ops : list lru_op) : list (option bytes) * lists :=
  match ops with
  | [] => ([], sp)
  | LGet k :: ops => let r := lists_Get sp k in let rest := listsRun r.2 ops in (r.1 :: rest.1, rest.2)
  | LPut k v :: ops => let rest := listsRun (lists_Put sp k v) ops in (None :: rest.1, rest.2)
  end.

Definition cache_holds (c : list shard) (sp : lists) : Prop := Forall2 (fun s cl => holds s cl.1 cl.2) c sp.

Lemma cache_shard c sp k : cache_holds c sp -> (0 < length sp)%nat ->
  exists s cap l, c !! getShard hash c k = Some s /\ sp !! shardOf sp k = Some (cap, l) /\ holds s cap l /\ getShard hash c k = shardOf sp k.
Proof.
  intros Hc Hl. pose proof (Forall2_length _ _ _ Hc) as El. unfold getShard, shardOf. rewrite El. set (i := Z.to_nat _).
  assert (i < length sp)%nat as Hi by (unfold i; pose proof (Z.mod_pos_bound (u64 (hash k)) (Z.of_nat (length sp)) ltac:(lia)); lia).
  destruct (lookup_lt_is_Some_2 sp i Hi) as [[cap l] Es]. destruct (lookup_lt_is_Some_2 c i ltac:(lia)) as [s Ec]. exists s, cap, l. split; [done|]. split; [done|].
  split; [|done]. exact (Forall2_lookup_lr _ _ _ _ _ _ Hc Ec Es).
Qed.

Lemma length_lists_Get sp k : length (lists_Get sp k).2 = length sp.
Proof. unfold lists_Get. destruct (sp !! _) as [[cap l]|]; [apply length_insert|done]. Qed.
Lemma length_lists_Put sp k v : length (lists_Put sp k v) = length sp.
Proof. unfold lists_Put. destruct (sp !! _) as [[cap l]|]; [apply length_insert|done]. Qed.

Lemma cacheRun_lists ops : forall c sp, cache_holds c sp -> (0 < length sp)%nat ->
  exists c', cacheRun hash c ops = Some ((listsRun sp ops).1, c') /\ cache_holds c' (listsRun sp ops).2.
Proof.
  induction ops as [|[k|k v] ops IH]; intros c sp Hc Hl; cbn [cacheRun listsRun].
  - by exists c.
  - destruct (cache_shard c sp k Hc Hl) as (s & cap & l & Ec & Es & Hs & Ei). unfold LRUCache_Get. rewrite Ec. cbn [mbind option_bind].
    destruct (shard_Get_refines s cap l k Hs) as (s' & -> & Hs'). cbn [mbind option_bind fst snd].
    destruct (IH (<[getShard hash c k := s']> c) (lists_Get sp k).2) as (c' & -> & Hc'); [|by rewrite length_lists_Get|].
    + unfold lists_Get. rewrite Es, Ei. by apply Forall2_insert.
    + exists c'. split; [|done]. cbn. do 3 f_equal. unfold lists_Get. by rewrite Es.
  - destruct (cache_shard c sp k Hc Hl) as (s & cap & l & Ec & Es & Hs & Ei). unfold LRUCache_Put. rewrite Ec. cbn [mbind option_bind].
    destruct (shard_Put_refines s cap l k v Hs) as (s' & -> & Hs'). cbn [mbind option_bind].
    destruct (IH (<[getShard hash c k := s']> c) (lists_Put sp k v)) as (c' & -> & Hc'); [|by rewrite length_lists_Put|].
    + unfold lists_Put. rewrite Es, Ei. by apply Forall2_insert.
    + by exists c'.
Qed.

(** *** Size, and what is answered *)

Lemma findKey_elem k v l : findKey k l = Some v -> (k, v) ∈ l.
Proof. induction l as [|[k' v'] l IH]; cbn; [done|]. case_decide as Hk; cbn in Hk; [intros [= ->]; subst; set_solver|intros H; apply IH in H; set_solver]. Qed.

Lemma length_touch k v v' l : findKey k l = Some v' -> (length (touch k v l) <= length l)%nat.
Proof. intros Hf%findKey_elem. cbn. apply (length_filter_lt (fun e => e.1 <> k) l (k, v')); [done|]. cbn. tauto. Qed.

Definition roomy (cl : Z * kvs) : Prop := 1 <= cl.1 /\ Z.of_nat (length cl.2) <= cl.1.

Lemma Put_roomy cap k v l : roomy (cap, l) -> roomy (cap, lru_Put cap k v l).
Proof.
  intros [H1 H2]. split; [done|]. cbn in *. unfold lru_Put. destruct (findKey k l) eqn:Ef; [pose proof (length_touch k v _ l Ef); lia|]. cbn [length].
  destruct (Z.leb_spec cap (Z.of_nat (length l))); [|lia]. destruct l as [|e l _] using rev_ind; [cbn in *; lia|]. rewrite removelast_last. rewrite length_app in *. cbn in *. lia.
Qed.

Lemma Get_roomy cap k l : roomy (cap, l) -> roomy (cap, (lru_Get k l).2).
Proof. intros [H1 H2]. split; [done|]. cbn in *. unfold lru_Get. destruct (findKey k l) as [v|] eqn:Ef; [pose proof (length_touch k v _ l Ef); cbn in *; lia|done]. Qed.

Lemma lists_roomy ops : forall sp, Forall roomy sp -> Forall roomy (listsRun sp ops).2 /\ (listsRun sp ops).2.*1 = sp.*1.
Proof.
  assert (forall sp i cap l l', Forall roomy sp -> sp !! i = Some (cap, l) -> roomy (cap, l') -> Forall roomy (<[i := (cap, l')]> sp) /\ (<[i := (cap, l')]> sp).*1 = sp.*1) as Hins.
  { intros sp i cap l l' Hs Hi Hr. split; [by apply Forall_insert|]. rewrite list_fmap_insert. apply list_insert_id. by rewrite list_lookup_fmap, Hi. }
  induction ops as [|[k|k v] ops IH]; intros sp Hs; cbn [listsRun fst snd]; [done| |].
  - assert (Forall roomy (lists_Get sp k).2 /\ (lists_Get sp k).2.*1 = sp.*1) as [H1 <-]; [|by apply IH]. unfold lists_Get. destruct (sp !! shardOf sp k) as [[cap l]|] eqn:Es; [|done].
    eapply Hins; [done|exact Es|]. apply Get_roomy. rewrite Forall_lookup in Hs. exact (Hs _ _ Es).
  - assert (Forall roomy (lists_Put sp k v) /\ (lists_Put sp k v).*1 = sp.*1) as [H1 <-]; [|by apply IH]. unfold lists_Put. destruct (sp !! shardOf sp k) as [[cap l]|] eqn:Es; [|done].
    eapply Hins; [done|exact Es|]. apply Put_roomy. rewrite Forall_lookup in Hs. exact (Hs _ _ Es).
Qed.

Definition sumZ (l : list Z) : Z := foldr Z.add 0 l.
Definition entries (sp : lists) : Z := sumZ ((fun cl => Z.of_nat (length cl.2)) <$> sp).

Lemma entries_bound sp : Forall roomy sp -> entries sp <= sumZ sp.*1.
Proof. unfold entries, sumZ. induction 1 as [|[cap l] sp [_ H] _ IH]; cbn in *; lia. Qed.

(** The value a key was last given. *)
Definition lastPut (k : bytes) (ops : list lru_op) : option bytes :=
  foldl (fun acc op => match op with LPut k' v => if decide (k' = k) then Some v else acc | LGet _ => acc end) None ops.

Definition current (sp : lists) (before : list lru_op) : Prop :=
  forall i cap l k v, sp !! i = Some (cap, l) -> (k, v) ∈ l -> shardOf sp k = i /\ lastPut k before = Some v.

Lemma lastPut_snoc k ops op : lastPut k (ops ++ [op]) = match op with LPut k' v => if decide (k' = k) then Some v else lastPut k ops | LGet _ => lastPut k ops end.
Proof. unfold lastPut. by rewrite foldl_app. Qed.

Lemma removelast_elem {A} (x : A) l : x ∈ removelast l -> x ∈ l.
Proof. destruct l as [|y l _] using rev_ind; [done|]. rewrite removelast_last. set_solver. Qed.

Lemma current_Get sp before k : current sp before -> current (lists_Get sp k).2 (before ++ [LGet k]).
Proof.
  intros Hc i cap l k' v' Hi He. assert (shardOf (lists_Get sp k).2 k' = shardOf sp k') as -> by (unfold shardOf; by rewrite length_lists_Get). rewrite lastPut_snoc.
  unfold lists_Get in Hi. destruct (sp !! shardOf sp k) as [[cap0 l0]|] eqn:Es; cbn [snd] in Hi; [|by apply (Hc i cap l)].
  apply list_lookup_insert_Some in Hi as [(<- & [= <- <-] & _)|[_ Hi]]; [|by apply (Hc i cap l)]. unfold lru_Get in He.
  destruct (findKey k l0) as [v|] eqn:Ef; [|by apply (Hc _ cap0 l0)]. cbn [snd] in He. unfold touch in He. apply elem_of_cons in He as [[= -> ->]|[_ He]%list_elem_of_filter].
  - apply findKey_elem in Ef. by apply (Hc _ cap0 l0).
  - by apply (Hc _ cap0 l0).
Qed.

Lemma current_Put sp before k v : current sp before -> current (lists_Put sp k v) (before ++ [LPut k v]).
Proof.
  intros Hc i cap l k' v' Hi He. assert (shardOf (lists_Put sp k v) k' = shardOf sp k') as -> by (unfold shardOf; by rewrite length_lists_Put). rewrite lastPut_snoc.
  assert (forall cap0 l0, sp !! i = Some (cap0, l0) -> (k', v') ∈ l0 -> k' <> k -> shardOf sp k' = i /\ (if decide (k = k') then Some v else lastPut k' before) = Some v') as Hold.
  { intros cap0 l0 H1 H2 H3. rewrite decide_False by congruence. by apply (Hc i cap0 l0). }
  unfold lists_Put in Hi. destruct (sp !! shardOf sp k) as [[cap0 l0]|] eqn:Es.
  2:{ destruct (Hc i cap l k' v' Hi He) as [H1 H2]. assert (k' <> k) by (intros ->; rewrite H1, Hi in Es; done). by apply (Hold cap l). }
  apply list_lookup_insert_Some in Hi as [(<- & [= <- <-] & _)|[Hne Hi]].
  2:{ destruct (Hc i cap l k' v' Hi He) as [H1 H2]. assert (k' <> k) by (intros ->; done). by apply (Hold cap l). }
  unfold lru_Put, touch in He. destruct (findKey k l0) as [v0|] eqn:Ef.
  - apply elem_of_cons in He as [[= -> ->]|[Hk He]%list_elem_of_filter]; [by rewrite decide_True|]. by apply (Hold cap0 l0).
  - apply findKey_None in Ef. apply elem_of_cons in He as [[= -> ->]|He]; [by rewrite decide_True|]. assert ((k', v') ∈ l0) as H0 by (destruct (_ <=? _); [by apply removelast_elem|done]).
    apply (Hold cap0 l0); [done|done|]. intros ->. apply Ef. apply list_elem_of_fmap. by exists (k, v').
Qed.

Lemma lists_answers ops : forall sp before, current sp before -> forall i k v, ops !! i = Some (LGet k) -> (listsRun sp ops).1 !! i = Some (Some v) ->
  lastPut k (before ++ take i ops) = Some v.
Proof.
  induction ops as [|op ops IH]; intros sp before Hc [|i] k v Ho Ha; try done.
  - cbn in Ho. injection Ho as ->. cbn in Ha. injection Ha as Ha. rewrite app_nil_r. unfold lists_Get in Ha. destruct (sp !! shardOf sp k) as [[cap l]|] eqn:Es; [|done].
    cbn in Ha. unfold lru_Get in Ha. destruct (findKey k l) as [v'|] eqn:Ef; [|done]. cbn in Ha. injection Ha as ->. apply findKey_elem in Ef. exact (proj2 (Hc _ cap l k v Es Ef)).
  - cbn [take]. change (before ++ op :: take i ops) with (before ++ [op] ++ take i ops). rewrite app_assoc.
    destruct op as [k0|k0 v0]; cbn in Ho, Ha; [apply (IH (lists_Get sp k0).2)|apply (IH (lists_Put sp k0 v0))]; try done; [by apply current_Get|by apply current_Put].
Qed.

(** *** A new cache *)

Definition emptyLists (c : list shard) : lists := (fun s => (sh_cap s, [])) <$> c.
Definition capacityOf (capacity : Z) : Z := if capacity <=? 0 then 128 else capacity.

Lemma newShard_rep cap : shard_rep (newShard cap) [].
Proof.
  split; cbn; try done.
  - repeat constructor; set_solver.
  - constructor.
  - intros a [x Hx]. apply lookup_insert_Some in Hx as [[<- _]|[_ Hx]]; [lia|]. apply lookup_insert_Some in Hx as [[<- _]|[_ Hx]]; [lia|]. by rewrite lookup_empty in Hx.
Qed.

Lemma sum_shares per rem n : 0 <= rem -> sumZ ((fun i => if Z.of_nat i <? rem then per + 1 else per) <$> seq 0 n) = Z.of_nat n * per + Z.min (Z.of_nat n) rem.
Proof.
  intros Hr. induction n as [|n IH]; [cbn; lia|]. rewrite seq_S, fmap_app. cbn [fmap list_fmap]. unfold sumZ in *. rewrite foldr_app. cbn [foldr].
  assert (forall l x, foldr Z.add x l = foldr Z.add 0 l + x) as Hf by (induction l as [|y l IHl]; intros x; cbn; [lia|]; rewrite IHl; lia).
  rewrite Hf, IH. change (0 + n)%nat with n. destruct (Z.ltb_spec (Z.of_nat n) rem); lia.
Qed.

Lemma new_cache capacity : let c := NewLRUCache capacity in let sp := emptyLists c in
  cache_holds c sp /\ (0 < length sp)%nat /\ Forall roomy sp /\ current sp [] /\ sumZ sp.*1 = capacityOf capacity.
Proof.
  intros c sp. unfold sp, c, emptyLists, NewLRUCache, capacityOf. set (cap := if capacity <=? 0 then 128 else capacity).
  assert (1 <= cap) as Hcap by (unfold cap; destruct (Z.leb_spec capacity 0); lia).
  set (n := if cap <? 16 then cap else 16). assert (1 <= n <= cap) as Hn by (unfold n; destruct (Z.ltb_spec cap 16); lia).
  rewrite (proj2 (Z.ltb_ge n 1)) by lia. assert (1 <= cap / n) as Hd by (apply Z.div_le_lower_bound; lia). rewrite (proj2 (Z.ltb_ge (cap / n) 1)) by lia.
  rewrite <- list_fmap_compose. split_and!.
  - apply Forall2_fmap_l, Forall2_fmap_r, Forall_Forall2_diag, Forall_forall. intros i _. exists []. split; [apply newShard_rep|done].
  - rewrite length_fmap, length_seq. lia.
  - apply Forall_fmap, Forall_forall. intros i _. split; cbn [compose fst snd newShard sh_cap length]; destruct (Z.ltb_spec (Z.of_nat i) (cap mod n)); lia.
  - intros i cp l k v Hi He. rewrite list_lookup_fmap in Hi. destruct (seq 0 (Z.to_nat n) !! i); [|done]. cbn in Hi. injection Hi as _ <-. by apply elem_of_nil in He.
  - rewrite <- list_fmap_compose. pose proof (Z.mod_pos_bound cap n ltac:(lia)) as Hm.
    change (fst ∘ ((fun s => (sh_cap s, [])) ∘ (fun i => newShard (if Z.of_nat i <? cap mod n then cap / n + 1 else cap / n)))) with (fun i => if Z.of_nat i <? cap mod n then cap / n + 1 else cap / n).
    rewrite sum_shares by lia. rewrite Z2Nat.id by lia. pose proof (Z.div_mod cap n ltac:(lia)). lia.
Qed.

(** C17. The block cache keeps the last used blocks.  Whatever the hash and the
    capacity, from a new cache on no operation follows a nil pointer, and the
    answers are those of a plain list for each shard that moves a key to the
    front when it is used and drops the last one when it is full.  A hit
    answers with the value the key was last given, and the cache never holds
    more than its capacity (128 when none is given). *)
Theorem cache_refines_lists capacity ops : let sp := emptyLists (NewLRUCache capacity) in
  exists c, cacheRun hash (NewLRUCache capacity) ops = Some ((listsRun sp ops).1, c) /\ cache_holds c (listsRun sp ops).2 /\
    (forall i k v, ops !! i = Some (LGet k) -> (listsRun sp ops).1 !! i = Some (Some v) -> lastPut k (take i ops) = Some v) /\
    entries (listsRun sp ops).2 <= capacityOf capacity.
Proof.
  intros sp. destruct (new_cache capacity) as (Hc & Hl & Hr & Hcur & Hsum). destruct (cacheRun_lists ops _ _ Hc Hl) as (c & Hrun & Hc').
  exists c. split; [done|]. split; [done|]. split.
  - intros i k v Ho Ha. exact (lists_answers ops sp [] Hcur i k v Ho Ha).
  - destruct (lists_roomy ops _ Hr) as [Hr' Hcaps]. pose proof (entries_bound _ Hr') as Hb. fold sp in Hb, Hcaps. rewrite Hcaps in Hb. fold sp in Hsum. lia.
Qed.
End whole.
