(* ===== verification/Shutdown.v ===== *)
(** * Closing the engine ([engine_write.go], [checkpoint.go], [engine.go])

    The branches of the writer that run when the engine is being closed, and
    what they lose. *)
From S2P Require Import Prelude Mvcc Oracle SkipList Strconv Encoding Crypto Registry Wal Vlog Values VlogSpec Compaction Engine Open EngineInv EngineSteps EngineSystem EngineMain.

Section closing.
(** [flushBackpressure] when the context is cancelled after its first check:
    waiting ends, and the flush of a rotated memtable is given up with its
    log. *)
Definition flushBackpressureClosing (opts : Options) (w : World) : eng unit :=
  e ← getE;
  if sl_sizeBytes (e_memTable e) <? MemTableSize opts then mret tt
  else
    match e_immMemTable e with
    | Some _ => mret tt
    | None =>
        task ← triggerFlushLocked w;
        e ← getE;
        putE (set_wal e (e_wal e) (delete (ft_seq task) (e_walFlush e)))
    end.
End closing.

Module ShutdownFlaws.
Import EngineWitness Races.

(** A write fills the memtable while the engine is being closed. *)
Definition written : option (incrResult * Engine) := dispatch cipher (world 6) newer e0.
Definition wrote : Engine := from_option snd e0 written.
Definition gaveUp : Engine := exec (flushBackpressureClosing (mkOptions 1 10 4) (world 6)) wrote.

(** Closing loses acknowledged writes.  A write is acknowledged and can be
    read; its memtable is full and is rotated just when the engine is closed.
    The writer then removes the rotated log although the memtable was not
    flushed: after opening again the key is gone.  When the engine is closed
    without that rotation the key is there. *)
Theorem shutdown_loses_writes :
  fst <$> written = Some (mkIncrResult 1 None) /\
  answer (getByString cipher 7 [107]) wrote = Some (Ok [50]) /\
  answer (getByString cipher 7 [107]) (opened (Engine_Close [] gaveUp) nothing) = Some (Fail ErrKeyNotFound) /\
  answer (getByString cipher 7 [107]) (opened (Engine_Close [] wrote) nothing) = Some (Ok [50]).
Proof. vm_compute. auto. Qed.
End ShutdownFlaws.
