(* ===== verification/Pitr.v ===== *)
(** * Archiving logs and restoring a point in time
    ([archive.go], [internal/pitr/restore.go])

    Rotated logs and value-log segments go to an archive directory, and
    [Restore] puts a base copy, the archived segments and the records up to a
    time together again.  Directories are maps from file names to contents;
    gzip is given by its two directions. *)
From Stdlib Require Import String.
From S2P Require Import Prelude Strconv Encoding Crypto Registry Framing Wal Resp.

Class Gzip := { gzip : bytes -> bytes; gunzip : bytes -> option bytes }.
Class GzipLaws `{Gzip} := { gunzip_gzip : forall b, gunzip (gzip b) = Some b }.

Notation dir := (gmap bytes bytes).

(** ** The archive *)

Section archive.
Context `{Gzip}.

(** [FileArchiver.ArchiveSegment] when its system calls succeed; the file
    appears under its name at once. *)
Definition ArchiveSegment (dst : dir) (name content : bytes) : dir := <[name ++ str ".gz" := gzip content]> dst.

(** The archiver of an engine: whether one is set, the channel, the files of
    the engine and the archive. *)
Record archiver := mkArchiver { ar_set : bool; ar_queue : list (bytes * bool); ar_files : dir; ar_archive : dir }.

(** [archiveCh] has 64 places; a caller waits for one unless the engine is
    closing. *)
Definition enqueueArchive (path : bytes) (removeSource : bool) (closing : bool) (a : archiver) : option (bool * archiver) :=
  if negb (ar_set a) then Some (false, a)
  else if (length (ar_queue a) <? 64)%nat then Some (true, mkArchiver (ar_set a) (ar_queue a ++ [(path, removeSource)]) (ar_files a) (ar_archive a))
  else if closing then Some (false, a) else None.

Definition removeOrArchive (path : bytes) (closing : bool) (a : archiver) : option archiver :=
  match path with
  | [] => Some a
  | _ =>
      r ← enqueueArchive path true closing a;
      Some (if r.1 : bool then r.2 else mkArchiver (ar_set r.2) (ar_queue r.2) (delete path (ar_files r.2)) (ar_archive r.2))
  end.

(** [processArchive]; [works] says whether the system calls succeed. *)
Definition processArchive (works : bool) (item : bytes * bool) (a : archiver) : archiver :=
  let '(path, removeSource) := item in
  let archived := match ar_files a !! path with Some content => if works then Some (ArchiveSegment (ar_archive a) path content) else None | None => None end in
  let ok := negb (ar_set a) || bool_decide (is_Some archived) in
  mkArchiver (ar_set a) (ar_queue a) (if removeSource && ok then delete path (ar_files a) else ar_files a)
    (if ar_set a then default (ar_archive a) archived else ar_archive a).

(** One round of [archiveWorker]. *)
Definition archiveWorker (works : bool) (a : archiver) : archiver :=
  match ar_queue a with
  | [] => a
  | item :: queue => processArchive works item (mkArchiver (ar_set a) queue (ar_files a) (ar_archive a))
  end.

(** [archivePath], for a value-log segment about to be deleted. *)
Definition archivePath (works : bool) (path : bytes) (a : archiver) : archiver :=
  match path with
  | [] => a
  | _ =>
      if negb (ar_set a) then a
      else
        match ar_files a !! path with
        | Some content => if works then mkArchiver (ar_set a) (ar_queue a) (ar_files a) (ArchiveSegment (ar_archive a) path content) else a
        | None => a
        end
  end.

(** The file is still there or in the archive. *)
Definition kept (path content : bytes) (a : archiver) : Prop :=
  ar_files a !! path = Some content \/ (ar_files a !! path = None /\ ar_archive a !! (path ++ str ".gz") = Some (gzip content)).

Inductive archive_step : archiver -> archiver -> Prop :=
  | as_remove path a a' : removeOrArchive path false a = Some a' -> archive_step a a'
  | as_work works a : archive_step a (archiveWorker works a)
  | as_path works path a : archive_step a (archivePath works path a).

Lemma segment_kept a a' path content : archive_step a a' -> ar_set a = true -> kept path content a -> ar_set a' = true /\ kept path content a'.
Proof.
  intros Hs Hset Hk. destruct Hs as [p a a' Hr|works a|works p a].
  - unfold removeOrArchive, enqueueArchive in Hr. destruct p as [|c p]; [by injection Hr as <-|]. rewrite Hset in Hr. cbn [negb] in Hr. destruct (length (ar_queue a) <? 64)%nat; [|done]. cbn in Hr. by injection Hr as <-.
  - unfold archiveWorker. destruct (ar_queue a) as [|[p rm] q]; [done|]. unfold processArchive. cbn [ar_set ar_files ar_archive]. rewrite Hset. cbn [negb orb]. split; [done|].
    unfold kept in *. cbn [ar_files ar_archive]. destruct (ar_files a !! p) as [x|] eqn:Ep; [|by rewrite andb_false_r].
    destruct works; cbn [default option_rect from_option]; [|by rewrite andb_false_r]. unfold id. rewrite bool_decide_true by done. rewrite andb_true_r. unfold ArchiveSegment.
    destruct (decide (p = path)) as [->|Hne].
    + destruct Hk as [Hk|[Hk _]]; [|congruence]. rewrite Ep in Hk. injection Hk as ->. rewrite lookup_insert_eq. destruct rm; [right; by rewrite lookup_delete_eq|by left].
    + assert (path ++ str ".gz" <> p ++ str ".gz") as Hne' by (intros E; by apply app_inv_tail in E). rewrite lookup_insert_ne by done. destruct rm; [|done]. by rewrite lookup_delete_ne.
  - unfold archivePath. destruct p as [|c p]; [done|]. rewrite Hset. cbn [negb]. destruct (ar_files a !! (c :: p)) as [x|] eqn:Ep; [|done]. destruct works; [|done]. split; [done|].
    unfold kept, ArchiveSegment in *. cbn [ar_files ar_archive]. destruct Hk as [Hk|[Hk Ha]]; [by left|right]. split; [done|]. rewrite lookup_insert_ne; [done|].
    intros E. apply app_inv_tail in E. congruence.
Qed.
End archive.

(** ** Restoring *)

Definition hasSuffix (s k : bytes) : bool := bool_decide (suffix s k).
Definition trimPrefix (p k : bytes) : bytes := if has_prefix p k then drop (length p) k else k.
Definition trimSuffix (s k : bytes) : bytes := if hasSuffix s k then take (length k - length s) k else k.

(** [sort.SliceStable]; with different keys [sort.Slice] as well. *)
Section sort.
Context {A : Type} (less : A -> A -> bool).
Fixpoint insertBy (x : A) (l : list A) : list A := match l with [] => [x] | y :: l' => if less y x then y :: insertBy x l' else x :: l end.
Definition sortStable (l : list A) : list A := foldr insertBy [] l.
End sort.

(** The record order: version, then time. *)
Definition recordBefore (a b : WalRecord) : bool :=
  if negb (r_version a =? r_version b) then r_version a <? r_version b else r_timestamp a <? r_timestamp b.

Record pitrOptions := mkPitr { po_BaseDir : bytes; po_ArchiveDir : bytes; po_OutDir : bytes; po_Until : Z; po_Registry : option KeyRegistry }.
Record pitrStats := mkPitrStats { ps_Records : nat; ps_Skipped : nat }.

Section restore.
Context (aesEncrypt : bytes -> bytes -> bytes) `{Gzip}.
(** [filepath.Abs] in the working directory. *)
Context (Abs : bytes -> option bytes).

Definition readWALRecords (file : bytes) (reg : option KeyRegistry) (iv : bytes) : option (list WalRecord) :=
  w ← OpenWAL file reg iv; Some (Recover aesEncrypt w).1.

(** The file that [writeWAL] leaves. *)
Definition writeWAL (records : list WalRecord) (reg : option KeyRegistry) (iv : bytes) : option bytes :=
  w ← OpenWAL [] reg iv;
  Some (w_file (walFlush (foldl (fun w rec => (WriteVersionWithTimestamp aesEncrypt w rec).2) w records))).

(** The number of an archived log, if the name is of one. *)
Definition segmentSeq (name : bytes) : option Z :=
  if negb (has_prefix (str "wal_flush_") name) || negb (hasSuffix (str ".log.gz") name) then None
  else ParseUint (trimSuffix (str ".log.gz") (trimPrefix (str "wal_flush_") name)).

(** [names]: the directory as [os.ReadDir] lists it. *)
Definition archivedWALSegments (names : list bytes) : list bytes :=
  snd <$> sortStable (fun a b => a.1 <? b.1) (omap (fun name => (fun seq => (seq, name)) <$> segmentSeq name) names).

Definition restoreVlogSegments (names : list bytes) (archive out : dir) : option dir :=
  foldl (fun out name =>
    out ← out;
    if negb (has_prefix (str "vlog_") name) || negb (hasSuffix (str ".log.gz") name) then Some out
    else file ← archive !! name ≫= gunzip; Some (<[str "vlog/" ++ trimSuffix (str ".gz") name := file]> out)) (Some out) names.

(** The records of the archived logs, in the order of the names. *)
Fixpoint readSegments (reg : option KeyRegistry) (iv : bytes) (archive : dir) (names : list bytes) : option (list WalRecord) :=
  match names with
  | [] => Some []
  | name :: names =>
      file ← archive !! name ≫= gunzip;
      recs ← readWALRecords file reg iv;
      rest ← readSegments reg iv archive names;
      Some (recs ++ rest)
  end.

Definition walName : bytes := str "wal.log".
Definition inTime (untilNano : Z) (rec : WalRecord) : bool := (untilNano =? 0) || (r_timestamp rec =? 0) || (r_timestamp rec <=? untilNano).

(** [Restore] from the base directory and the archive into the contents [out]
    of the output directory; [None] is an error return.  [iv] and [iv'] are
    what [NewBaseIV] draws for logs it has to begin. *)
Definition Restore (opts : pitrOptions) (base : dir) (names : list bytes) (archive out : dir) (iv iv' : bytes) : option (pitrStats * dir) :=
  if bool_decide (po_BaseDir opts = []) || bool_decide (po_ArchiveDir opts = []) || bool_decide (po_OutDir opts = []) then None
  else
    absBase ← Abs (po_BaseDir opts);
    absOut ← Abs (po_OutDir opts);
    if bool_decide (absBase = absOut) then None
    else
      let out := base ∪ out in
      out ← restoreVlogSegments names archive out;
      records ← readSegments (po_Registry opts) iv archive (archivedWALSegments names);
      all ← match out !! walName with
            | Some file => recs ← readWALRecords file (po_Registry opts) iv; Some (records ++ recs)
            | None => Some records
            end;
      let sorted := sortStable recordBefore all in
      let keptRecs := filter (fun rec => inTime (po_Until opts) rec = true) sorted in
      file ← writeWAL keptRecs (po_Registry opts) iv';
      Some (mkPitrStats (length keptRecs) (length all - length keptRecs), <[walName := file]> (delete walName out)).
End restore.

(** ** A log that is opened again *)

Section reopen.
Context (aesEncrypt : bytes -> bytes -> bytes).
Hypothesis aes_wf : forall k b, wf_bytes (aesEncrypt k b).

(** The bytes of records. *)
Definition logSize (rs : list WalRecord) : Z := foldr (fun r n => 37 + Z.of_nat (length (r_key r)) + Z.of_nat (length (r_value r)) + n) 0 rs.

Lemma logSize_nonneg rs : 0 <= logSize rs.
Proof. unfold logSize. induction rs as [|r rs IH]; cbn [foldr]; lia. Qed.

Lemma length_encodeAll c rs : cipher_ok c -> forall o, Forall rec_ok rs -> Z.of_nat o + logSize rs < 2 ^ 62 -> Z.of_nat (length (encodeAll aesEncrypt c o rs)) = logSize rs.
Proof.
  intros Hc. induction rs as [|r rs IH]; intros o Hok Hs; [done|]. apply Forall_cons in Hok as [Hr Hok]. unfold logSize in Hs |- *. cbn [foldr] in *. fold (logSize rs) in *.
  pose proof (logSize_nonneg rs). change (r :: rs) with ([r] ++ rs). rewrite encodeAll_app, encodeAll_one, length_app.
  assert (length (encodeRecord aesEncrypt c (Z.of_nat o) r) = walHeaderSize + length (r_key r) + length (r_value r))%nat as El by (apply length_encodeRecord; try done; lia).
  rewrite El. rewrite Nat2Z.inj_add, IH; [unfold walHeaderSize; lia|done|unfold walHeaderSize; lia].
Qed.

(** A record without its place in the file. *)
Definition erase (r : WalRecord) : WalRecord := mkWalRecord (r_op r) (r_key r) (r_value r) 0 (r_expiresAt r) (r_version r) (r_timestamp r).

Lemma erase_located c rs : forall o, erase <$> locateAll aesEncrypt c o rs = erase <$> rs.
Proof. unfold locateAll. induction rs as [|r rs IH]; intros o; [done|]. cbn [locateFrames fmap list_fmap]. by rewrite IH. Qed.

Lemma writeWAL_reads reg iv rs : wf_bytes iv -> length iv = 16%nat -> key_known reg -> Forall rec_ok rs -> Forall data_op rs -> 32 + logSize rs < 2 ^ 62 ->
  exists file, writeWAL aesEncrypt rs reg iv = Some file /\
    forall iv', exists recs, readWALRecords aesEncrypt file reg iv' = Some recs /\ erase <$> recs = erase <$> rs.
Proof.
  intros Hiv Hl Hk Hok Hops Hs. unfold writeWAL. assert (exists w0, OpenWAL [] reg iv = Some w0) as [w0 Ho] by (unfold OpenWAL; destruct reg; eauto). rewrite Ho. cbn [mbind option_bind].
  destruct (OpenWAL_empty aesEncrypt reg iv w0 Ho Hiv Hl) as [Hc Hl0].
  assert (length (w_buf w0) <= 32)%nat as Lh by (rewrite (proj1 Hl0); unfold w_fileHdr; destruct (w_cipher w0); unfold walEncHeaderSize; lia).
  assert (fits_i64 aesEncrypt w0 (w_buf w0) rs) as Hfit by (unfold fits_i64; rewrite length_encodeAll by (done || lia); lia).
  pose proof (walRun_holds aesEncrypt aes_wf (WalWrite <$> rs) w0 (w_buf w0) [] Hc) as Hrun.
  assert ((WalWrite <$> rs) ≫= opRecords = rs) as Er by (clear; induction rs as [|r rs IH]; [done|]; cbn in *; by rewrite IH).
  rewrite Er in Hrun. cbn [app] in Hrun. destruct (Hrun Hok Hl0 Hfit) as [(_ & Hf & _) Hcw].
  assert (foldl (walStep aesEncrypt) w0 (WalWrite <$> rs) = foldl (fun w rec => (WriteVersionWithTimestamp aesEncrypt w rec).2) w0 rs) as Ew.
  { clear. revert w0. induction rs as [|r rs IH]; intros w0; [done|]. apply IH. }
  rewrite Ew in Hf, Hcw. eexists. split; [done|]. intros iv'. cbn [walFlush w_file]. rewrite Hf, Hcw.
  destruct (OpenWAL_again aesEncrypt reg iv iv' w0 (w_buf w0) rs Ho Hiv Hl Hk eq_refl Hok Hops) as (w & Eo & Ec & Hh). unfold readWALRecords. rewrite Eo. cbn [mbind option_bind].
  eexists. split; [done|]. rewrite (Recover_holds aesEncrypt aes_wf w (w_buf w0) rs); [|by rewrite Ec|done|done|unfold fits_i64 in *; by rewrite Ec]. cbn [fst]. apply erase_located.
Qed.
End reopen.

(** ** Sorting *)

Lemma insertBy_perm {A} (less : A -> A -> bool) x l : insertBy less x l ≡ₚ x :: l.
Proof. induction l as [|y l IH]; cbn; [done|]. case_match; [|done]. rewrite IH. apply Permutation_swap. Qed.

Lemma sortStable_perm {A} (less : A -> A -> bool) l : sortStable less l ≡ₚ l.
Proof. induction l as [|x l IH]; cbn; [done|]. by rewrite insertBy_perm, IH. Qed.

Definition recordAfter (a b : WalRecord) : Prop := recordBefore b a = false.

Lemma recordAfter_spec a b : recordAfter a b <-> r_version a < r_version b \/ (r_version a = r_version b /\ r_timestamp a <= r_timestamp b).
Proof. unfold recordAfter, recordBefore. destruct (Z.eqb_spec (r_version b) (r_version a)); cbn [negb]; rewrite Z.ltb_ge; lia. Qed.

Lemma insertRecord_sorted x l : StronglySorted recordAfter l -> StronglySorted recordAfter (insertBy recordBefore x l).
Proof.
  induction l as [|y l IH]; intros Hs; cbn [insertBy]; [repeat constructor|]. apply StronglySorted_inv in Hs as [Hs Hy]. destruct (recordBefore y x) eqn:E.
  - constructor; [by apply IH|]. rewrite insertBy_perm. apply Forall_cons. split; [|done]. apply recordAfter_spec. unfold recordBefore in E.
    destruct (Z.eqb_spec (r_version y) (r_version x)); cbn in E; apply Z.ltb_lt in E; lia.
  - constructor; [by constructor|]. apply Forall_cons. split; [done|]. rewrite Forall_forall in Hy |- *. intros z Hz. specialize (Hy z Hz). apply recordAfter_spec in Hy. apply recordAfter_spec.
    assert (recordAfter x y) as Hxy by done. apply recordAfter_spec in Hxy. lia.
Qed.

Lemma sortRecords_sorted l : StronglySorted recordAfter (sortStable recordBefore l).
Proof. induction l as [|x l IH]; [constructor|]. by apply insertRecord_sorted. Qed.

Lemma filter_sublist {A} (P : A -> Prop) `{forall x, Decision (P x)} (l : list A) : filter P l `sublist_of` l.
Proof. induction l as [|x l IH]; [constructor|]. rewrite filter_cons. case_decide; by constructor. Qed.

(** ** What is restored *)

Section point.
Context (aesEncrypt : bytes -> bytes -> bytes).
Hypothesis aes_wf : forall k b, wf_bytes (aesEncrypt k b).
Context `{GzipLaws} (Abs : bytes -> option bytes).

(** An archived log holds these records. *)
Definition segment_holds (reg : option KeyRegistry) (iv : bytes) (archive : dir) (name : bytes) (rs : list WalRecord) : Prop :=
  exists file, archive !! name = Some (gzip file) /\ readWALRecords aesEncrypt file reg iv = Some rs.

Lemma readSegments_all reg iv archive names rss : Forall2 (segment_holds reg iv archive) names rss -> readSegments aesEncrypt reg iv archive names = Some (concat rss).
Proof.
  induction 1 as [|name rs names rss (file & Ea & Er) _ IH]; [done|]. cbn [readSegments]. rewrite Ea. cbn [mbind option_bind]. rewrite gunzip_gzip. cbn [mbind option_bind].
  rewrite Er. cbn [mbind option_bind]. by rewrite IH.
Qed.

Definition is_vlog (name : bytes) : bool := has_prefix (str "vlog_") name && hasSuffix (str ".log.gz") name.
Definition vlogPath (name : bytes) : bytes := str "vlog/" ++ trimSuffix (str ".gz") name.

Lemma vlogPath_inj a b : is_vlog a = true -> is_vlog b = true -> vlogPath a = vlogPath b -> a = b.
Proof.
  unfold is_vlog, vlogPath. intros [_ Ha]%andb_true_iff [_ Hb]%andb_true_iff E. apply app_inv_head in E.
  assert (forall k, hasSuffix (str ".log.gz") k = true -> exists p, k = (p ++ str ".log") ++ str ".gz") as Hs by (intros k [p ->]%bool_decide_eq_true; exists p; by rewrite <- app_assoc).
  destruct (Hs a Ha) as [pa ->], (Hs b Hb) as [pb ->]. unfold trimSuffix, hasSuffix in E. rewrite !bool_decide_true in E by (eexists; reflexivity).
  rewrite !length_app in E. rewrite !(take_app_length') in E by (rewrite length_app; lia). by rewrite E.
Qed.

Lemma restoreVlog_all archive names : (forall name, name ∈ names -> is_vlog name = true -> exists file, archive !! name = Some (gzip file)) -> NoDup names -> forall out,
  exists out', restoreVlogSegments names archive out = Some out' /\
    (forall name file, name ∈ names -> is_vlog name = true -> archive !! name = Some (gzip file) -> out' !! vlogPath name = Some file) /\
    (forall path, (forall name, name ∈ names -> is_vlog name = true -> path <> vlogPath name) -> out' !! path = out !! path).
Proof.
  unfold restoreVlogSegments. induction names as [|name names IH]; intros Hall Hnd out; cbn [foldl].
  { exists out. split; [done|]. split; [set_solver|done]. }
  apply NoDup_cons in Hnd as [Hn Hnd]. cbn [mbind option_bind]. destruct (is_vlog name) eqn:Ev.
  - destruct (Hall name ltac:(set_solver) Ev) as [file Ef]. unfold is_vlog in Ev. apply andb_true_iff in Ev as [E1 E2]. rewrite E1, E2. cbn [negb orb]. rewrite Ef. cbn [mbind option_bind]. rewrite gunzip_gzip. cbn [mbind option_bind].
    assert (is_vlog name = true) as Ev by (unfold is_vlog; by rewrite E1, E2).
    destruct (IH ltac:(intros; apply Hall; set_solver) Hnd (<[vlogPath name := file]> out)) as (out' & Eo & H1 & H2). exists out'. split; [exact Eo|]. split.
    + intros nm f [->|Hin]%elem_of_cons Hv Ha; [|by apply H1]. rewrite Ef in Ha. injection Ha as Ha. apply (f_equal gunzip) in Ha. rewrite !gunzip_gzip in Ha. injection Ha as <-.
      rewrite H2; [apply lookup_insert_eq|]. intros nm' Hin' Hv' E. apply vlogPath_inj in E; [|done|done]. congruence.
    + intros path Hp. rewrite H2 by (intros; apply Hp; set_solver). apply lookup_insert_ne. intros <-. by apply (Hp name); [set_solver| |].
  - assert (negb (has_prefix (str "vlog_") name) || negb (hasSuffix (str ".log.gz") name) = true) as -> by (unfold is_vlog in Ev; by rewrite <- negb_andb, Ev).
    destruct (IH ltac:(intros; apply Hall; set_solver) Hnd out) as (out' & Eo & H1 & H2). exists out'. split; [exact Eo|]. split.
    + intros nm f [->|Hin]%elem_of_cons Hv Ha; [congruence|by apply H1].
    + intros path Hp. apply H2. intros; apply Hp; set_solver.
Qed.

(** C16. A point in time is restored.  From a base copy, archived logs that each
    hold the records [rss] and the log of the base with [baseRecs], [Restore]
    succeeds.  The log it leaves, whenever it is opened, has exactly the
    records of all these logs that carry no time or one not after the given
    one, each as often as it was there, ordered by version and time; the
    counts are right; every archived value-log segment is in its place; and
    everything else is as in the base copy. *)
Theorem restores_point opts base names archive out iv iv' absBase absOut rss baseRecs (reg := po_Registry opts) (all := concat rss ++ baseRecs) :
  po_BaseDir opts <> [] -> po_ArchiveDir opts <> [] -> po_OutDir opts <> [] ->
  Abs (po_BaseDir opts) = Some absBase -> Abs (po_OutDir opts) = Some absOut -> absBase <> absOut ->
  NoDup names -> (forall name, name ∈ names -> is_vlog name = true -> exists file, archive !! name = Some (gzip file)) ->
  Forall2 (segment_holds reg iv archive) (archivedWALSegments names) rss ->
  match (base ∪ out) !! walName with Some file => readWALRecords aesEncrypt file reg iv = Some baseRecs | None => baseRecs = [] end ->
  wf_bytes iv' -> length iv' = 16%nat -> key_known reg -> Forall rec_ok all -> Forall data_op all -> 32 + logSize all < 2 ^ 62 ->
  exists keptRecs file out', Restore aesEncrypt Abs opts base names archive out iv iv' = Some (mkPitrStats (length keptRecs) (length all - length keptRecs), out') /\
    out' !! walName = Some file /\
    (forall iv'', exists recs, readWALRecords aesEncrypt file reg iv'' = Some recs /\ erase <$> recs = erase <$> keptRecs) /\
    keptRecs ≡ₚ filter (fun r => inTime (po_Until opts) r = true) all /\ StronglySorted recordAfter keptRecs /\
    (forall name content, name ∈ names -> is_vlog name = true -> archive !! name = Some (gzip content) -> out' !! vlogPath name = Some content) /\
    (forall path, path <> walName -> (forall name, name ∈ names -> is_vlog name = true -> path <> vlogPath name) -> out' !! path = (base ∪ out) !! path).
Proof.
  intros H1 H2 H3 Ha1 Ha2 Hne Hnd Hvl Hseg Hbase Hiv Hl Hk Hok Hops Hsize. set (keptRecs := filter (fun r => inTime (po_Until opts) r = true) (sortStable recordBefore all)).
  assert (keptRecs ≡ₚ filter (fun r => inTime (po_Until opts) r = true) all) as Hperm by (unfold keptRecs; by rewrite sortStable_perm).
  assert (forall P : WalRecord -> Prop, Forall P all -> Forall P keptRecs) as Hsub by (intros P HP; rewrite Hperm; rewrite Forall_forall in HP |- *; intros r [_ Hr]%list_elem_of_filter; by apply HP).
  assert (logSize keptRecs <= logSize all) as Hsz.
  { assert (forall l l', l ≡ₚ l' -> logSize l = logSize l') as Hp by (induction 1; unfold logSize in *; cbn [foldr] in *; lia). rewrite (Hp _ _ Hperm). clear. unfold logSize.
    induction all as [|r l IH]; [done|]. rewrite filter_cons. case_decide; cbn [foldr]; lia. }
  destruct (writeWAL_reads aesEncrypt aes_wf reg iv' keptRecs Hiv Hl Hk (Hsub _ Hok) (Hsub _ Hops) ltac:(lia)) as (file & Ew & Hread).
  destruct (restoreVlog_all archive names Hvl Hnd (base ∪ out)) as (out1 & Eo & Hv1 & Hv2). pose proof (readSegments_all reg iv archive _ _ Hseg) as Es.
  assert (forall name, walName <> vlogPath name) as Hw by (intros name; discriminate).
  exists keptRecs, file, (<[walName := file]> (delete walName out1)). split_and!.
  - unfold Restore. rewrite !bool_decide_false by done. cbn [orb]. rewrite Ha1, Ha2. cbn [mbind option_bind]. rewrite bool_decide_false by done. rewrite Eo. cbn [mbind option_bind].
    fold reg. rewrite Es. cbn [mbind option_bind]. rewrite Hv2 by done.
    assert (match (base ∪ out) !! walName with Some f => recs ← readWALRecords aesEncrypt f reg iv; Some (concat rss ++ recs) | None => Some (concat rss) end = Some all) as ->.
    { destruct ((base ∪ out) !! walName); [by rewrite Hbase|]. unfold all. by rewrite Hbase, app_nil_r. }
    cbn [mbind option_bind]. fold keptRecs. by rewrite Ew.
  - apply lookup_insert_eq.
  - done.
  - done.
  - eapply StronglySorted_sublist; [apply filter_sublist|apply sortRecords_sorted].
  - intros name content Hin Hv Ha. rewrite lookup_insert_ne, lookup_delete_ne by done. by apply Hv1.
  - intros path Hp Hpn. rewrite lookup_insert_ne, lookup_delete_ne by done. by apply Hv2.
Qed.
End point.

Module PitrWitness.
(** Archives that are not compressed, and the root directory. *)
#[export] Instance stored : Gzip := { gzip b := b; gunzip := Some }.
#[export] Instance stored_laws : GzipLaws.
Proof. by split. Qed.
Definition fromRoot (p : bytes) : option bytes := Some (str "/" ++ p).

Definition opts : pitrOptions := mkPitr (str "base") (str "archive") (str "out") 20 (Some WalWitness.reg).
Definition rec (op : Z) (k : string) (version time : Z) : WalRecord := mkWalRecord op (str k) (if op =? OpPut then str "v" else []) 0 0 version time.
Definition log (rs : list WalRecord) : bytes := default [] (writeWAL WalWitness.cipher rs (Some WalWitness.reg) WalWitness.iv).

Definition early : list WalRecord := [rec OpPut "a" 1 10; rec OpPut "b" 3 12].
Definition late : list WalRecord := [rec OpDelete "a" 4 19; rec OpPut "b" 5 21].
Definition inBase : list WalRecord := [rec OpPut "c" 2 11].

Definition names : list bytes := [str "vlog_000001.log.gz"; str "wal_flush_000010.log.gz"; str "wal_flush_000009.log.gz"; str "notes.txt"].
Definition archive : dir := list_to_map [(str "vlog_000001.log.gz", str "values"); (str "wal_flush_000010.log.gz", log late); (str "wal_flush_000009.log.gz", log early)].
Definition base : dir := list_to_map [(str "wal.log", log inBase); (str "MANIFEST", str "tables")].

(** The records as they are read back. *)
Definition readBack (rs : list WalRecord) : list WalRecord := default [] (readWALRecords WalWitness.cipher (log rs) (Some WalWitness.reg) WalWitness.iv).

Definition rec_okb (r : WalRecord) : bool :=
  ((r_op r =? OpPut) || (r_op r =? OpDelete)) && forallb (fun c => (0 <=? c) && (c <? 256)) (r_key r ++ r_value r) && (length (r_key r ++ r_value r) <? 9)%nat &&
  (r_expiresAt r =? 0) && (0 <=? r_version r) && (r_version r <? 9) && (0 <=? r_timestamp r) && (r_timestamp r <? 99).

Lemma rec_okb_spec r : rec_okb r = true -> rec_ok r /\ data_op r.
Proof.
  unfold rec_okb. rewrite !andb_true_iff, orb_true_iff, !Z.eqb_eq, !Z.leb_le, !Z.ltb_lt, Nat.ltb_lt, forallb_forall, length_app. intros (((((((Hop & Hb) & Hl) & Hx) & V0) & V1) & T0) & T1).
  split; [|done]. assert (wf_bytes (r_key r ++ r_value r)) as [Hk Hv]%wf_bytes_app.
  { apply Forall_forall. intros c Hc%list_elem_of_In. specialize (Hb c Hc). apply andb_true_iff in Hb as [?%Z.leb_le ?%Z.ltb_lt]. unfold is_u8. lia. }
  split; try done; unfold is_u8, is_i64, is_u64; try lia. destruct Hop as [-> | ->]; unfold OpPut, OpDelete; lia.
Qed.

Lemma log_records_fine : Forall (fun r => rec_ok r /\ data_op r) (concat [readBack early; readBack late] ++ readBack inBase).
Proof. apply Forall_forall. intros r Hr%list_elem_of_In. apply rec_okb_spec. revert r Hr. apply forallb_forall. vm_compute. reflexivity. Qed.
End PitrWitness.

(** Two encrypted logs and the log of the base, up to time 20. *)
Lemma restores_point_witness : exists keptRecs file out',
  @Restore WalWitness.cipher PitrWitness.stored PitrWitness.fromRoot PitrWitness.opts PitrWitness.base PitrWitness.names PitrWitness.archive ∅ WalWitness.iv WalWitness.iv =
    Some (mkPitrStats 4 1, out') /\ length keptRecs = 4%nat /\ out' !! walName = Some file /\
  (exists recs, readWALRecords WalWitness.cipher file (Some WalWitness.reg) [] = Some recs /\ erase <$> recs = erase <$> keptRecs) /\
  out' !! str "vlog/vlog_000001.log" = Some (str "values") /\ out' !! str "MANIFEST" = Some (str "tables").
Proof.
  destruct (restores_point WalWitness.cipher WalWitness.cipher_wf (H := PitrWitness.stored) (H0 := PitrWitness.stored_laws) PitrWitness.fromRoot PitrWitness.opts PitrWitness.base PitrWitness.names PitrWitness.archive ∅ WalWitness.iv WalWitness.iv
    (str "/base") (str "/out") [PitrWitness.readBack PitrWitness.early; PitrWitness.readBack PitrWitness.late] (PitrWitness.readBack PitrWitness.inBase))
    as (keptRecs & file & out' & H1 & H2 & H3 & H4 & H5 & H6 & H7).
  - discriminate.
  - discriminate.
  - discriminate.
  - reflexivity.
  - reflexivity.
  - discriminate.
  - apply (bool_decide_unpack _). vm_compute. exact I.
  - intros name Hin Hv. apply elem_of_cons in Hin as [->|Hin]; [exists (str "values"); vm_compute; reflexivity|].
    repeat (apply elem_of_cons in Hin as [->|Hin]; [vm_compute in Hv; discriminate Hv|]). inversion Hin.
  - change (archivedWALSegments PitrWitness.names) with [str "wal_flush_000009.log.gz"; str "wal_flush_000010.log.gz"]. constructor; [|constructor; [|constructor]].
    + exists (PitrWitness.log PitrWitness.early). split; vm_compute; reflexivity.
    + exists (PitrWitness.log PitrWitness.late). split; vm_compute; reflexivity.
  - vm_compute. reflexivity.
  - repeat constructor; vm_compute; try discriminate; reflexivity.
  - reflexivity.
  - split; [eexists; reflexivity|vm_compute; split; [discriminate|reflexivity]].
  - eapply Forall_impl; [exact PitrWitness.log_records_fine|]. intros r Hr. exact (proj1 Hr).
  - eapply Forall_impl; [exact PitrWitness.log_records_fine|]. intros r Hr. exact (proj2 Hr).
  - vm_compute. reflexivity.
  - assert (length keptRecs = 4%nat) as El by (rewrite (Permutation_length H4); vm_compute; reflexivity).
    exists keptRecs, file, out'. rewrite El in H1. split; [exact H1|]. split; [exact El|]. split; [exact H2|]. split; [exact (H3 [])|]. split.
    + exact (H6 (str "vlog_000001.log.gz") (str "values") ltac:(apply elem_of_cons; left; reflexivity) ltac:(vm_compute; reflexivity) ltac:(vm_compute; reflexivity)).
    + rewrite (H7 (str "MANIFEST")); [vm_compute; reflexivity|discriminate|intros name _ _; discriminate].
Defined.
