(* ===== verification/Ingest.v ===== *)
(** * Adopting tables ([ingest.go])

    Tables built elsewhere are checked against each other, put into the deepest
    level above which they meet nothing, and entered in the manifest. *)
From S2P Require Import Prelude Mvcc Oracle SkipList Strconv Encoding Crypto Registry Wal Vlog Values VlogSpec TableRead Compaction Engine Open EngineInv EngineSteps EngineSystem EngineMain.

Inductive ingestError := IngestUnreadable | ErrIngestValuePointer | ErrIngestSelfOverlap | IngestEngine (e : err).

(** A path with the table it opens to and reads as; [None] when it does not. *)
Fixpoint stage (paths : list (option Table)) : list Table + ingestError :=
  match paths with
  | [] => inl []
  | None :: _ => inr IngestUnreadable
  | Some t :: paths =>
      if existsb (fun ent => negb (Deleted ent) && isValuePointer (Value ent)) (tb_entries t) then inr ErrIngestValuePointer
      else match stage paths with inl ts => inl (t :: ts) | inr e => inr e end
  end.

(** Neighbours that overlap. *)
Fixpoint selfOverlap (staged : list Table) : bool :=
  match staged with
  | a :: staged => match staged with b :: _ => rangesOverlap a b | [] => false end || selfOverlap staged
  | [] => false
  end.

Definition levelOverlapsAny (ls : list (list Table)) (lvl : nat) (tables : list Table) : bool :=
  existsb (fun existing => existsb (fun t => rangesOverlap t existing) tables) (level ls lvl).

(** The loop from level 1 down. *)
Fixpoint deepest (ls : list (list Table)) (staged : list Table) (lvls : list nat) (targetLevel : nat) : nat :=
  match lvls with
  | [] => targetLevel
  | lvl :: lvls => if levelOverlapsAny ls lvl staged then targetLevel else deepest ls staged lvls lvl
  end.
Definition targetLevel (ls : list (list Table)) (staged : list Table) : nat :=
  if levelOverlapsAny ls 0 staged then 0%nat else deepest ls staged (seq 1 (MaxLevels - 1)) 0.

(** The files get the next numbers. *)
Fixpoint moveTables (nextSeq : Z) (staged : list Table) : list Table * Z :=
  match staged with
  | [] => ([], nextSeq)
  | t :: staged =>
      let seq := u64 (nextSeq + 1) in
      let r := moveTables seq staged in
      (mkTable seq (tb_entries t) (tb_min t) (tb_max t) (tb_ratio t) :: r.1, r.2)
  end.

(** Under the locks: the level is checked once more. *)
Definition installTables (target : nat) (moved : list Table) (st : Lsm) : Lsm :=
  let target := if (0 <? target)%nat && levelOverlapsAny (levels st) target moved then 0%nat else target in
  let tables := level (levels st) target ++ moved in
  let tables := if (0 <? target)%nat then sortTables tables else tables in
  mkLsm (<[target := tables]> (levels st)) (lsm_nextSeq st)
    (lsm_manifest st ++ (additionRec target <$> moved)) (lsm_removed st) (lsm_drops st) (lsm_discards st).

(** Everything after the checks of the files. *)
Definition ingestTables (staged : list Table) (st : Lsm) : Lsm + ingestError :=
  let staged := sortTables staged in
  if selfOverlap staged then inr ErrIngestSelfOverlap
  else
    let target := targetLevel (levels st) staged in
    let moved := moveTables (lsm_nextSeq st) staged in
    inl (installTables target moved.1 (set_nextSeq st moved.2)).

Section ingest.
Context (aesEncrypt : bytes -> bytes -> bytes).

Definition flushReq : writeReq := mkReq opFlush [] [] 0 0 0 noVp [] false false.
Definition submitFlush (w : World) : eng (option err) := res ← dispatch aesEncrypt w flushReq; mret (ir_err res).

Definition Ingest (w : World) (sstPaths : list (option Table)) : eng (option ingestError) :=
  match sstPaths with
  | [] => mret None
  | _ =>
      r ← submitFlush w;
      match r with
      | Some err => mret (Some (IngestEngine err))
      | None =>
          match stage sstPaths with
          | inr err => mret (Some err)
          | inl staged =>
              e ← getE;
              match ingestTables staged (e_lsm e) with
              | inr err => mret (Some err)
              | inl lsm => _ ← putE (set_lsm e lsm); mret None
              end
          end
      end
  end.
End ingest.

(** ** What is read afterwards *)

Definition nonempty_range (t : Table) : Prop := bytes_le (tb_min t) (tb_max t).

Lemma ranges_apart t u : table_ok t -> table_ok u -> rangesOverlap t u = false -> apart t u.
Proof.
  intros [_ Ht _] [_ Hu _] Ho a b Ha Hb E. destruct (Ht a Ha) as [H1 H2]. destruct (Hu b Hb) as [H3 H4]. rewrite <- E in *. unfold rangesOverlap in Ho.
  apply andb_false_iff in Ho as [Ho|Ho]; apply bytes_leb_false in Ho; eapply bytes_lt_irrefl; (eapply bytes_lt_le_trans; [exact Ho|]); by eapply bytes_le_trans.
Qed.

Definition min_le (a b : Table) : Prop := bytes_le (tb_min a) (tb_min b).

Lemma sortTables_sorted l : StronglySorted min_le (sortTables l).
Proof.
  assert (forall t k, StronglySorted min_le k -> StronglySorted min_le (insertTable t k)) as Hins; [|induction l; cbn; [constructor|by apply Hins]].
  assert (forall t k, insertTable t k ≡ₚ t :: k) as Hp by (intros t k; induction k as [|u k IHk]; cbn; [done|]; case_if; [done|]; rewrite IHk; apply Permutation_swap).
  intros t k. induction k as [|u k IH]; intros Hs; cbn; [repeat constructor|]. apply StronglySorted_inv in Hs as [Hs Hu]. destruct (bytes_ltb (tb_min t) (tb_min u)) eqn:E.
  - apply bytes_ltb_spec, bytes_lt_le in E. constructor; [by constructor|]. apply Forall_cons. split; [done|]. eapply Forall_impl; [exact Hu|]. intros x Hx. exact (bytes_le_trans _ _ _ E Hx).
  - constructor; [by apply IH|]. rewrite Hp. apply Forall_cons. split; [|done]. by apply bytes_ltb_false.
Qed.

(** Tables in order that do not overlap their neighbours overlap nothing. *)
Lemma selfOverlap_apart l : StronglySorted min_le l -> Forall nonempty_range l -> Forall table_ok l -> selfOverlap l = false -> StronglySorted apart l.
Proof.
  intros Hs Hn Hok Ho. assert (StronglySorted (fun a b => bytes_lt (tb_max a) (tb_min b)) l) as Hlt.
  { clear Hok. induction Hs as [|a l Hs IH Ha]; [constructor|]. apply Forall_cons in Hn as [Hna Hn]. cbn in Ho. apply orb_false_iff in Ho as [Hab Ho]. specialize (IH Hn Ho).
    constructor; [done|]. destruct l as [|b l]; [constructor|]. apply Forall_cons in Hn as [Hnb Hn]. apply Forall_cons in Ha as [Hmin Ha].
    assert (bytes_lt (tb_max a) (tb_min b)) as H1.
    { unfold rangesOverlap in Hab. apply andb_false_iff in Hab as [Hx|Hx]; apply bytes_leb_false in Hx; [|done]. exfalso. eapply bytes_lt_irrefl. exact (bytes_lt_le_trans _ _ _ Hx (bytes_le_trans _ _ _ Hmin Hnb)). }
    apply Forall_cons. split; [done|]. apply StronglySorted_inv in IH as [_ Hb]. eapply Forall_impl; [exact Hb|]. intros c Hc. cbn in Hc. exact (bytes_lt_trans _ _ _ H1 (bytes_le_lt_trans _ _ _ Hnb Hc)). }
  clear -Hlt Hok. induction Hlt as [|a l _ IH Ha]; [constructor|]. apply Forall_cons in Hok as [Hka Hok]. constructor; [by apply IH|]. rewrite Forall_forall in Ha, Hok |- *.
  intros b Hb. apply ranges_apart; [done|by apply Hok|]. unfold rangesOverlap. apply andb_false_iff. right. by apply bytes_leb_false, Ha.
Qed.

Lemma firstHit_app A B k v : firstHit (A ++ B) k v = match firstHit A k v with Some x => Some x | None => firstHit B k v end.
Proof. induction A as [|t A IH]; cbn; [done|]. by destruct (tableGet (tb_entries t) k (Some v)). Qed.

Lemma hit_elem t k v x : tableGet (tb_entries t) k (Some v) = Some x -> x ∈ tb_entries t /\ Key x = k.
Proof. apply tableGet_key. Qed.

Lemma apart_miss t u k v x : apart t u -> tableGet (tb_entries t) k (Some v) = Some x -> tableGet (tb_entries u) k (Some v) = None.
Proof.
  intros Ha Ht. destruct (tableGet (tb_entries u) k (Some v)) as [y|] eqn:Ey; [|done]. apply hit_elem in Ht as [H1 H2]. apply hit_elem in Ey as [H3 H4]. exfalso. apply (Ha x y); congruence.
Qed.

Lemma apart_perm A B : A ≡ₚ B -> StronglySorted apart A -> StronglySorted apart B.
Proof. intros Hp. by apply StronglySorted_perm; [apply apart_sym|]. Qed.

(** Among tables with different keys the order does not matter. *)
Lemma firstHit_perm A B k v : A ≡ₚ B -> StronglySorted apart A -> firstHit A k v = firstHit B k v.
Proof.
  induction 1 as [|t A B _ IH|t u A|A B C HAB IH1 HBC IH2]; intros Hs.
  - done.
  - apply StronglySorted_inv in Hs as [Hs _]. cbn. by rewrite IH.
  - apply StronglySorted_inv in Hs as [_ Ht]. apply Forall_cons in Ht as [Ht _]. cbn. destruct (tableGet (tb_entries u) k (Some v)) as [x|] eqn:Eu; [|done].
    by rewrite (apart_miss _ _ k v _ Ht Eu).
  - rewrite IH1 by done. apply IH2. by eapply apart_perm.
Qed.

(** Tables that meet nothing may come first. *)
Lemma firstHit_first A B C k v : (forall t u, t ∈ A -> u ∈ B -> apart t u) ->
  firstHit (A ++ B ++ C) k v = match firstHit B k v with Some x => Some x | None => firstHit (A ++ C) k v end.
Proof.
  intros Ha. rewrite !firstHit_app. destruct (firstHit B k v) as [x|] eqn:Eb; [|done].
  assert (exists u, u ∈ B /\ tableGet (tb_entries u) k (Some v) = Some x) as (u & Hu & Hx).
  { clear -Eb. induction B as [|u B IH]; [done|]. cbn in Eb. destruct (tableGet (tb_entries u) k (Some v)) as [y|] eqn:Ey; [exists u; split; [set_solver|congruence]|]. destruct (IH Eb) as (u' & ? & ?). exists u'. split; [set_solver|done]. }
  assert (firstHit A k v = None) as ->; [|done]. clear Eb. induction A as [|t A IH]; [done|]. cbn. rewrite (apart_miss u t k v x); [apply IH; set_solver|apply apart_sym, Ha; set_solver|done].
Qed.

Lemma overlaps_none ls lvl ts t u : levelOverlapsAny ls lvl ts = false -> t ∈ ts -> u ∈ level ls lvl -> rangesOverlap t u = false.
Proof.
  intros Ho Ht Hu. destruct (rangesOverlap t u) eqn:E; [|done]. unfold levelOverlapsAny in Ho. apply not_true_iff_false in Ho. exfalso. apply Ho.
  apply existsb_exists. exists u. split; [by apply list_elem_of_In|]. apply existsb_exists. exists t. split; [by apply list_elem_of_In|done].
Qed.

(** Down to the target level nothing overlaps. *)
Lemma targetLevel_clear ls staged : let target := targetLevel ls staged in (target < MaxLevels)%nat /\
  ((0 < target)%nat -> forall p, (p <= target)%nat -> levelOverlapsAny ls p staged = false).
Proof.
  unfold targetLevel. destruct (levelOverlapsAny ls 0 staged) eqn:E0; [split; [unfold MaxLevels; lia|lia]|].
  assert (forall lvls n, (forall p, (p <= n)%nat -> levelOverlapsAny ls p staged = false) -> (n < MaxLevels)%nat -> (exists m, lvls = seq (S n) m /\ (S n + m <= MaxLevels)%nat) ->
    let target := deepest ls staged lvls n in (target < MaxLevels)%nat /\ forall p, (p <= target)%nat -> levelOverlapsAny ls p staged = false) as H.
  { induction lvls as [|lvl lvls IH]; intros n Hn Hlt (m & Em & Hm); [done|]. destruct m as [|m]; [done|]. cbn in Em. injection Em as -> ->. cbn [deepest].
    destruct (levelOverlapsAny ls (S n) staged) eqn:E; [done|]. apply IH; [|lia|exists m; split; [done|lia]]. intros p Hp. destruct (decide (p = S n)) as [->|]; [done|]. apply Hn. lia. }
  destruct (H (seq 1 (MaxLevels - 1)) 0%nat) as [H1 H2]; [intros p Hp; by replace p with 0%nat by lia|unfold MaxLevels; lia|exists (MaxLevels - 1)%nat; unfold MaxLevels; split; [done|lia]|].
  split; [done|]. intros _ p Hp. by apply H2.
Qed.

(** The numbers do not matter for reading. *)
Definition same_table (t u : Table) : Prop := tb_entries t = tb_entries u /\ tb_min t = tb_min u /\ tb_max t = tb_max u.

Lemma moveTables_same l : forall seq, Forall2 same_table (moveTables seq l).1 l.
Proof. induction l as [|t l IH]; intros seq; cbn; [constructor|]. constructor; [done|apply IH]. Qed.

Lemma same_hits A B k v : Forall2 same_table A B -> firstHit A k v = firstHit B k v.
Proof. induction 1 as [|t u A B (E & _) _ IH]; cbn; [done|]. by rewrite E, IH. Qed.

Lemma same_overlap ls lvl A B : Forall2 same_table A B -> levelOverlapsAny ls lvl A = levelOverlapsAny ls lvl B.
Proof.
  intros H. unfold levelOverlapsAny. induction (level ls lvl) as [|x l IH]; [done|]. cbn. rewrite IH. f_equal. clear IH.
  induction H as [|t u A B (_ & E1 & E2) _ IH]; [done|]. cbn. rewrite IH. unfold rangesOverlap. by rewrite E1, E2.
Qed.

Lemma same_apart A B : Forall2 same_table A B -> StronglySorted apart B -> StronglySorted apart A.
Proof.
  induction 1 as [|t u A B (E & _) HAB IH]; intros Hs; [constructor|]. apply StronglySorted_inv in Hs as [Hs Hu]. constructor; [by apply IH|]. rewrite Forall_forall in Hu |- *. intros x Hx.
  apply list_elem_of_lookup in Hx as [i Hi]. destruct (Forall2_lookup_l _ _ _ _ _ HAB Hi) as (y & Hy & E' & _). intros a b Ha Hb. rewrite E in Ha. rewrite E' in Hb.
  exact (Hu y (list_elem_of_lookup_2 _ _ _ Hy) a b Ha Hb).
Qed.

Lemma searchOrder_split ls p l : ls !! p = Some l -> searchOrder ls = searchOrder (take p ls) ++ rev l ++ searchOrder (drop (S p) ls).
Proof. intros Hp. rewrite <- (take_drop_middle ls p l Hp) at 1. unfold searchOrder. by rewrite bind_app, bind_cons. Qed.

Lemma searchOrder_insert ls p l : (p < length ls)%nat -> searchOrder (<[p := l]> ls) = searchOrder (take p ls) ++ rev l ++ searchOrder (drop (S p) ls).
Proof.
  intros Hp. rewrite (searchOrder_split (<[p := l]> ls) p l) by (by apply list_lookup_insert_eq). by rewrite take_insert_ge, drop_insert_lt by lia.
Qed.

(** C40. Adopted tables are read first.  Tables in order that do not overlap each
    other are always accepted by levels that are in order, and in the levels
    they leave, a lookup of a key at a version finds what they hold for it, and
    otherwise what was found before: nothing they do not cover changes,
    whatever level they went to.  Tables that overlap the levels are accepted
    too and go to level 0 ([ErrIngestOverlap] is declared and never returned);
    a later compaction may change the answer (see [ingested_value_flips]). *)
Theorem ingested_read_first st staged : lsm_ok st -> Forall table_ok staged -> Forall nonempty_range staged -> selfOverlap (sortTables staged) = false ->
  exists st', ingestTables staged st = inl st' /\
    forall k v, readLevels (levels st') k v = match firstHit staged k v with Some x => Some x | None => readLevels (levels st) k v end.
Proof.
  intros Hok Hts Hne Hso. unfold ingestTables. rewrite Hso. eexists. split; [done|]. intros k v.
  set (sorted := sortTables staged) in *. assert (sorted ≡ₚ staged) as Hp by apply sortTables_perm.
  assert (Forall table_ok sorted) as Hts' by (by rewrite Hp). assert (StronglySorted apart sorted) as Hap by (apply selfOverlap_apart; [apply sortTables_sorted|by rewrite Hp|done|done]).
  rewrite <- (firstHit_perm sorted staged k v Hp Hap). set (moved := (moveTables (lsm_nextSeq st) sorted).1). pose proof (moveTables_same sorted (lsm_nextSeq st)) as Hsame. fold moved in Hsame.
  rewrite <- (same_hits moved sorted k v Hsame). destruct (targetLevel_clear (levels st) sorted) as [Htl Hclear]. set (target := targetLevel (levels st) sorted) in *.
  unfold installTables. cbn [levels set_nextSeq]. rewrite (same_overlap _ _ moved sorted Hsame).
  assert ((0 <? target)%nat && levelOverlapsAny (levels st) target sorted = false) as -> by (destruct (Nat.ltb_spec 0 target); [by rewrite Hclear|done]).
  unfold readLevels. cbn [levels]. assert (target < length (levels st))%nat as Hlen by (rewrite (lo_length _ Hok); done).
  destruct (lookup_lt_is_Some_2 _ _ Hlen) as [L HL]. assert (level (levels st) target = L) as EL by (unfold level; by rewrite HL). rewrite EL.
  rewrite searchOrder_insert, (searchOrder_split _ _ _ HL) by done. set (A := searchOrder (take target (levels st))). set (C := searchOrder (drop (S target) (levels st))).
  pose proof (same_apart _ _ Hsame Hap) as Hapm. assert (forall D, firstHit (rev moved ++ D) k v = firstHit (moved ++ D) k v) as Hrev.
  { intros D. rewrite !firstHit_app. by rewrite <- (firstHit_perm moved (rev moved) k v (Permutation_rev moved) Hapm). }
  destruct (Nat.ltb_spec 0 target) as [Ht|Ht].
  2:{ assert (target = 0)%nat as E0 by lia. assert (A = []) as -> by (unfold A; by rewrite E0). cbn [app]. rewrite rev_app_distr, <- app_assoc, Hrev. by rewrite firstHit_app. }
  specialize (Hclear Ht).
  assert (forall p t u, (p <= target)%nat -> t ∈ level (levels st) p -> u ∈ moved -> apart t u) as Hlv.
  { intros p t u Hp' Ht' Hu. apply list_elem_of_lookup in Hu as [i Hi]. destruct (Forall2_lookup_l _ _ _ _ _ Hsame Hi) as (y & Hy & E1 & _). apply list_elem_of_lookup_2 in Hy.
    intros a b Ha Hb E. rewrite E1 in Hb. rewrite Forall_forall in Hts'. refine (ranges_apart y t (Hts' y Hy) (lo_tables _ Hok p t Ht') _ b a Hb Ha (eq_sym E)).
    by apply (overlaps_none (levels st) p sorted); [apply Hclear| |]. }
  assert (StronglySorted apart (L ++ moved)) as HLm.
  { apply StronglySorted_app. split; [rewrite <- EL; apply (lo_apart _ Hok); lia|]. split; [done|]. intros t u Ht' Hu. apply (Hlv target); [lia|by rewrite EL|done]. }
  assert (rev (sortTables (L ++ moved)) ≡ₚ moved ++ rev L) as Hpl by (rewrite <- Permutation_rev, sortTables_perm, <- (Permutation_rev L); apply Permutation_app_comm).
  assert (firstHit (A ++ rev (sortTables (L ++ moved)) ++ C) k v = firstHit (A ++ moved ++ rev L ++ C) k v) as ->.
  { rewrite (app_assoc moved), !firstHit_app. rewrite <- (firstHit_app moved (rev L)). rewrite (firstHit_perm _ _ k v Hpl); [done|]. eapply apart_perm; [|exact HLm].
    by rewrite Hpl, <- (Permutation_rev L), Permutation_app_comm. }
  apply firstHit_first. intros t u Ht' Hu. apply elem_of_searchOrder in Ht' as (p & Htp). unfold level in Htp. destruct (decide (p < target)%nat) as [Hlt|Hge].
  - rewrite lookup_take_lt in Htp by done. by apply (Hlv p); [lia| |].
  - rewrite lookup_take_ge in Htp by lia. by apply elem_of_nil in Htp.
Qed.

Module IngestWitness.
Import EngineWitness CompactionWitness.

(** Key "c" and a newer "a", beside the tables of the compaction witness. *)
Definition adopted : list Table := [tbl 0 [mkEntry [99] [7] false 0 30]; tbl 0 [mkEntry [97] [6] false 0 31; mkEntry [98] [5] false 0 32]].
(** Keys that meet nothing go to the last level. *)
Definition fresh : list Table := [tbl 0 [mkEntry [120] [7] false 0 30]].

Lemma ingested_read_first_witness :
  (exists st', ingestTables adopted good = inl st' /\
    forall k v, readLevels (levels st') k v = match firstHit adopted k v with Some x => Some x | None => readLevels (levels good) k v end) /\
  (exists st', ingestTables fresh good = inl st' /\
    forall k v, readLevels (levels st') k v = match firstHit fresh k v with Some x => Some x | None => readLevels (levels good) k v end) /\
  targetLevel (levels good) fresh = 4%nat.
Proof.
  assert (forall ts, forallb table_okb ts = true -> Forall table_ok ts) as Ht.
  { intros ts H. rewrite Forall_forall. intros t Hin. rewrite forallb_forall in H. apply table_okb_spec, H. by apply list_elem_of_In. }
  split; [|split; [|reflexivity]]; apply ingested_read_first;
    [apply lsm_okb_spec; vm_compute; reflexivity|apply Ht; vm_compute; reflexivity|repeat constructor; unfold nonempty_range; apply bytes_leb_spec; vm_compute; reflexivity|vm_compute; reflexivity
    |apply lsm_okb_spec; vm_compute; reflexivity|apply Ht; vm_compute; reflexivity|repeat constructor; unfold nonempty_range; apply bytes_leb_spec; vm_compute; reflexivity|vm_compute; reflexivity].
Defined.
End IngestWitness.

Module IngestFlaws.
Import EngineWitness Races.

(** A key that was written twice, and a table built elsewhere that has it. *)
Definition wrote : Engine := exec (_ ← dispatch cipher (world 6) older; dispatch cipher (world 6) newer) e0.
Definition table (v : Z) : option Table := Some (createTable 0 [mkEntry [107] [57] false 0 v] 0).
Definition ingested (v : Z) : Engine := exec (Ingest cipher (world 7) [table v]) wrote.
Definition compacted (v : Z) : Engine := exec (engineCompact size copts (world 8)) (ingested v).

(** Writes of another key move the clock. *)
Definition later (v : Z) : Engine :=
  exec (mapM (fun _ => dispatch cipher (world 8) (putReq [120] [49] 0 false)) (seq 0 6)) (compacted v).

(** Adopted data does not stay what is read.  A key is written twice and
    a table that holds it is adopted.  With a smaller version than the stored
    one the adopted value is read, until a compaction brings the old value
    back.  With a version above the engine's clock the old value is read,
    before and after the compaction, until writes of other keys have moved the
    clock: then the adopted value appears. *)
Theorem ingested_value_flips :
  let get e := answer (getByString cipher 9 [107]) e in
  get wrote = Some (Ok [50]) /\
  (fst <$> Ingest cipher (world 7) [table 1] wrote) = Some None /\
  get (ingested 1) = Some (Ok [57]) /\ get (compacted 1) = Some (Ok [50]) /\
  (fst <$> Ingest cipher (world 7) [table 9] wrote) = Some None /\
  get (ingested 9) = Some (Ok [50]) /\ get (compacted 9) = Some (Ok [50]) /\ get (later 9) = Some (Ok [57]).
Proof. vm_compute. auto 10. Qed.
End IngestFlaws.
